(* ===== verification/_CoqProject ===== *)
-Q . S2P
Prelude.v
GoLib.v
Policy.v
Cel.v
Engine.v
CelRef.v
EngineSpec.v
Validate.v
ValidateSpec.v
Delta.v
Weakening.v
WeakeningSound.v
PolicyStore.v
PolicyStoreSpec.v
ApplyPlan.v
ApplyPlanSpec.v
Json.v
Store.v
StoreInv.v
World.v
AuditChain.v
AuditWriter.v
AuditLog.v
Checkpoint.v
CheckpointSpec.v
Velocity.v
VelocitySpec.v
Limiter.v
LimiterSpec.v
Ingest.v
IngestSpec.v
Text.v
Strconv.v
Netip.v
Url.v
Encode.v
FloatText.v
Decode.v
CodecRead.v
DecodeShape.v
PolicyCodec.v
Fact.v
FactSpec.v
Egress.v
EgressSpec.v
VelocitySource.v
Challenge.v
Quorum.v
Delay.v
HandlerSpec.v
Identity.v
IdentitySpec.v
StepUp.v
StepUpSpec.v
CompileSpec.v
External.v
ExternalSpec.v
Mfa.v
MfaSpec.v
GroupSource.v
GroupSourceSpec.v
Service.v
Revalidate.v
ServiceSafe.v
ServiceInv.v
ServiceSpec.v
RevalidateSpec.v
RevalidateInv.v
RevalidateRun.v
GovWorld.v
Governance.v
Proposals.v
LockSpec.v
RevisionSpec.v
GovDemo.v
ExportSpec.v
AuditBuffer.v
AuditBufferSpec.v
Api.v
ApiSpec.v
