(* ===== verification/Prelude.v ===== *)
(** * STAMP: a verification library

    STAMP is an authorization service that can answer "not yet".  A request is
    judged against a set of policies; a policy may carry challenges (a quorum of
    approvers, a second factor, a delay, an external check), and a request that such
    a policy governs becomes a decision, a row in a database that stays pending until
    its challenges are met, fail or run out of time.  Policies are changed by
    revisions, which are themselves governed by the policies in force.  This library
    models the core of the program, under src/internal, and proves what makes it
    correct.

    ** The program and the files

    - The policy language (policy/schema.go, ast.go): types, schemas, conditions,
      challenges, normalization.  Policy.v.
    - The load-time validator and the translation of a condition to CEL
      (policy/validate.go).  Validate.v gives the static checks with the pointer and
      code of each diagnostic; ValidateSpec.v a declarative account of well-formed sets
      and its equivalence with the checks.  Cel.v (from [CELEnv] on) gives the
      expressions, the builder, and the meaning of a condition; the CEL runtime is a
      library, so it is the class [CEL], and CelRef.v is an instance.  CompileSpec.v
      gives CEL's typing rules and shows that what the checks accept compiles.
    - The engine (engine/compile.go, cache.go, eval.go, invariant.go, check.go):
      binding a request, resolving facts, the compile cache, the check path, the
      decision path and the check service with its staleness deadline.  Engine.v; its
      contract is in EngineSpec.v.
    - Revisions (policy/revision/delta.go, before.go, mode.go, weakening.go): the delta
      and its application (Delta.v), the classifier of weakening revisions and the
      quorum a revision needs (Weakening.v), and the soundness of both
      (WeakeningSound.v).
    - The policy store (store/policies.go): PolicyStore.v, with the document format as
      the class [Codec]; PolicyStoreSpec.v has the invariant of its tables and their
      refinement of a map.  ApplyPlan.v has the part of delta.go that compares and
      stores documents, and apply.go, which turns a directory of documents into a
      delta; ApplyPlanSpec.v says which, and has an instance of [Codec] that looks
      documents up in a table.
    - The document format (policy/codec.go): Encode.v writes a policy set as YAML
      trees, Decode.v reads them back or reports everything malformed.  CodecRead.v
      shows what reads back, DecodeShape.v what reading produces, and PolicyCodec.v
      puts the two together as [policy_codec], an instance of [Codec], with the round
      trips and a reference instance of the YAML library.  Numbers and instants as text
      are in Strconv.v and Text.v; FloatText.v shows that a double reads back from its
      text.
    - Governance (policy/revision/governance.go, serialize.go, bootstrap.go, export.go,
      breakglass.go): a change to the policies is a decision under a reserved policy.
      GovWorld.v is World.v for the database governance works on; Governance.v has the
      reserved policy, the bootstrap token, the lock and the assessment of a delta;
      Proposals.v the life of a revision, file apply, export and break-glass.  It calls
      the decision service to open a decision, the revalidator to apply a revision to
      the open ones, the policy store to write.  LockSpec.v shows that the lock is
      final, also over the real document format, RevisionSpec.v what applying a
      revision does; GovDemo.v runs an installation and shows the defects found.
      ExportSpec.v puts export, the documents in the store and file apply together.
    - JSON as the program uses it: documents, the canonical form the store writes,
      struct decoding.  Json.v.
    - The decision store (store/decisions.go and its tables): Store.v, with one
      function per store call; the invariant of the tables and the history they keep
      are in StoreInv.v.
    - Running against a shared database: World.v.  A computation is a function of a
      world, which holds the database and a schedule: before each transaction the other
      instances may do anything, and the transaction may fail before or after it took
      effect.  Two program logics: [keeps], an invariant kept under that interference,
      and [triple], pre- and postconditions in a world where calls fail but no other
      instance writes.
    - The challenge contract (challenge/contract.go: Challenge.v), the quorum handler
      (quorum.go: Quorum.v), the delay handler (delay.go: Delay.v); what the two
      promise is in HandlerSpec.v.  The external handler (external.go: External.v,
      ExternalSpec.v) and the mfa handler with its step-up and CIBA transports
      (challenge/mfa: Mfa.v, MfaSpec.v).
    - The lifecycle, the decision service and the sweeper (decision/lifecycle.go,
      service.go, sweeper.go): Service.v.  ServiceSafe.v is the service under
      interference and failure, ServiceInv.v the invariant that ties a decision's state
      to the evidence collected for it, ServiceSpec.v what callers can rely on, a
      concrete deployment, and the defects found.
    - Revalidation (decision/revalidate.go: Revalidate.v): what a revision of the
      policies does to the decisions already open, in one transaction.
      RevalidateSpec.v has the view of a row that the invariant needs, the frame lemmas
      of the transaction and the rebinding of one challenge, RevalidateInv.v the loops
      over challenges and decisions, RevalidateRun.v histories in which service calls
      and revisions alternate.
    - The audit log (store/audit.go): AuditChain.v is the hash of a record, the chain
      of a writer's segment, its verification and the Merkle root of a batch;
      AuditWriter.v the writer that claims a segment, appends inside transactions and
      reconciles after a lost reply; AuditLog.v shows that it refines an append-only
      log.  Checkpoint.v (store/checkpoint.go) signs the heads, publishes them outside
      the database and compares the two; CheckpointSpec.v says what that detects and
      runs both.
    - The audit buffer (api/audit.go): AuditBuffer.v is the bounded queue in front of
      the chain, whose flush runs while handlers record; AuditBufferSpec.v says what it
      promises over any chain with the laws [ChainLaws], which the audit writer has.
    - Velocity (stream/port.go, aggregate.go, store/buckets.go and the retention sweep
      of runtime/wiring.go): Velocity.v and VelocitySpec.v.  Rate limits
      (stream/ingest.go, api/ratelimit.go): Limiter.v and LimiterSpec.v.  The adapters
      that feed the aggregate (stream/ingest.go, memory.go, kafka.go): Ingest.v and
      IngestSpec.v.
    - Facts: the synchronous plane (fact/source.go, cache.go, static.go, api/facts.go)
      in Fact.v and FactSpec.v; velocity sources (stream/source.go) in
      VelocitySource.v; directory groups, as facts and as approver sets
      (fact/idpgroup), in GroupSource.v and GroupSourceSpec.v.
    - Egress (fact/egress.go, httpcall.go): Egress.v is the gate a fact call goes
      through, its dialler and pooled client, the request and the reading of its
      answer; EgressSpec.v says where a call can go and what it carries.  Netip.v and
      Url.v are what is used of net/netip, net/url and net.
    - Identity (identity): Identity.v has the verification of tokens, the guard on
      unknown keys, client certificates and the middleware, IdentitySpec.v what
      authentication promises; StepUp.v and StepUpSpec.v are the step-up requests.
    - The served surfaces (api/server.go, authzen.go, decisions.go, ratelimit.go,
      approvals.go, cancel.go): Api.v has the route table and the handlers that call
      the check service, the decision service, the limiters and the audit buffer;
      ApiSpec.v what a caller can rely on.
    - GoLib.v is what is used of Go's standard library: strings.TrimSpace, time and
      durations, and float64 exactly enough to state what a conversion loses.

    ** Correspondence

    A function keeps its Go name; a method is prefixed where two types share one.  A
    struct is a Record with prefixed fields, a string enumeration an Inductive with a
    constructor for every spelling the code does not declare, a Go error the list of
    sentinels its chain wraps ([errors_Is]), [(T, error)] the type [result].  A clock
    reading is an argument; [time.Time] is the number of nanoseconds since 1970; int
    and int64 are [Z], with rounding written out where a value goes through float64.
    Context cancellation, logging and metrics are left out.

    ** What the theorems show

    - Validation: the static checks find nothing exactly in well-formed sets, and what
      they accept compiles to a well-typed boolean.
    - Engine: an allow on the check path is given only when some policy applies and no
      policy that applies carries a challenge; a challenged decision carries every
      gated policy that applies; the two paths agree; the compile cache cannot be
      observed; a check instance judges only on a set confirmed within its staleness
      deadline.
    - Revisions: a validated delta states one outcome per policy and applying it
      produces that outcome; the trigger comparison is sound; a revision that is not
      classified as weakening leaves every gate at least as demanding, for conditions
      whose bounds float64 holds exactly; a revision is never adopted under a quorum smaller than the one in force; a quorum
      that passes the satisfiability check can be issued.
    - Policy store and file apply: the tables refine a map from identifier to owner and
      document and keep every version; a planned directory produces the state it
      describes and touches what the console owns only by a declared handover.
    - Governance: once locked, no sequence of calls takes the quorum out of the
      reserved policy or makes a bootstrap token good; an applied revision leaves
      exactly the policies its delta states; a revision with a decision is applied only
      when that decision is allowed.
    - Document format: a set the format can represent reads back as its normal form; a
      set that was loaded survives being stored; the stored documents, exported
      verbatim and applied again, change nothing; the format has the laws the lock
      needs.
    - Store: its invariant holds after any sequence of writes; resolved decisions never
      change and each has one resolution in the audit log; the sweep claims exactly
      what is due.
    - Audit: a log that verifies is determined by its last hash, up to a collision; the
      writer adds what it acknowledged once and in order, whatever replies are lost,
      and recovers from a lost reply; checkpoints outside the database expose a
      rewritten log, and an honest history raises no alarm; behind the buffer every
      event is chained, counted as lost in the chain, or still held, and a surface that
      fails closed does so until its losses are in the chain.
    - Velocity and limits: an accepted event is counted once and a window counts what
      it covers; a limiter is bounded and a burst caps an instant; a caller writes only
      inside its grant; a committed Kafka position loses nothing acceptable.
    - Facts: cache keys identify lookups; an answer is fresh, of the declared type and
      from the named source; a failure denies unless the operator allowed otherwise, and
      is handed to the auditor if there is one; a velocity answer is exact; a group
      quorum is what the directory reported when asked for that group.
    - Egress: every connection of a fact call goes to an address the gate admits and
      was opened for the host of its request, which is an origin of the allowlist,
      whatever the resolver answers; the gate admits what may be dialled, and of
      addresses without a zone nothing else; a request carries its arguments unchanged, and a value is what a successful answer
      held.
    - Identity: an accepted token is pinned by the configuration in everything a caller
      could lie about; forged tokens lock nobody out and cost no more fetches than the
      budget; a step-up request owns the reserved parameters and, but for dot segments,
      comes back under its target.
    - Surfaces: a handler runs only for the credential of its surface; a check and a
      decide of one body judge one input; an allow is the check service's and on
      record; a decide is bounded and charged first; a stranger to a decision is
      answered as if there were none while the database answers.
    - Handlers: stored details read back; an issued quorum is the policy's; an approval
      is admitted exactly for the decision it was asked about; approvers are counted
      once; a delay holds until its release; an external challenge needs a signed
      approval; a step-up answers the question it was asked, and one caller's load does
      not shed another's.
    - Service: whatever store calls other instances make and whatever fails, the
      store's invariant and history are kept; with one instance writing, an answer that says allowed is backed by satisfied challenges, distinct
      approvals bound to the stored decision, and released delays; one idempotency key
      names one decision, for one request.  Quorum and delay challenges are answered by
      their handlers, mfa and external ones by any handler that runs no store call of
      its own and gives an mfa challenge no deadline, as the handlers of Mfa.v and
      External.v do ([Aloof], [deployed]): what such a handler reports is taken as its word, and what that word rests on is shown with
      the handlers.  Two instances that race can lose a cancellation
      ([cancellation_lost_in_a_race]), so the evidence theorems have one.
    - Revalidation: the evidence behind an allowed answer survives revisions that
      rebind, reopen, settle or deny open decisions between the calls, unless one makes
      a wait longer that is over ([lengthened_wait_stays_satisfied]); a revision
      leaves every other decision alone; a revised wait still counts from where it
      began; the report counts what was dropped.

    ** Bounds and fuel

    Recursion is structural except in [coerce], [celType] and [build_literal], which
    recurse on a type name that gets shorter (the fuel is its length), [widens], whose
    fuel is the size of its two conditions ([widens_terminates]), [trim_left], whose
    fuel is the length of the text, [merkle_fold], whose fuel is the number of leaves
    (each level has fewer), [Drain], whose fuel is one more than the events pending
    ([Drain_terminates]), [components] of a duration, whose fuel is the length of the
    text, [restore_fuel], which like [coerce] recurses on a type name, [groups] of a
    reference code, whose fuel is the number of bits, the balanced [build_fold] of a
    condition, whose fuel is the number of operands, [operand_go] and [condition_go] of
    the decoder, whose fuel is the depth of the node, [point] of a printed double, whose
    fuel of 640 covers the decimal exponents a double can have, [write_chunks] of a
    flush, whose fuel is the number of events (each turn takes at least one), and
    [parse] of the reference YAML text and [groups] of a reference stream, whose fuel
    is one more than the length of the text.  A run of
    the audit buffer is bounded by the number of its flushes, which is arbitrary.

    ** Not modelled

    Code the program only calls is a class or the answer of a call.  The governance and
    store theorems are stated over the class [Codec], with the laws they need as
    hypotheses, and [policy_codec] is the instance the program has.  gopkg.in/yaml.v3 is
    [YamlText], [Yaml] for the splitting of a payload, and [YamlStream] for what joins
    the two: a document reads alone as it does in a stream; [fmt.Sprint] of a constant
    whose type the language does not have is [GoFmt].  Reading and writing JSON texts is
    [JsonText], [JsonPrefix], [TokenText] and [StepUpText]; reading and printing URLs is
    [NetURL], with one law, about URLs whose query was encoded; hashes, signatures and encodings are
    [AuditEnv], [Digest], [Signing], [ExternalEnv] and [GovEnv] (which also has the
    digest of a delta and the texts of findings); the CEL runtime is [CEL].  What the
    OIDC library did for a token, what a resolver, a dial or an HTTP peer answered, and
    what the database does around a transaction are arguments.  TLS, the PKCE pair, the
    Kafka client, the serving of listeners, the remaining handlers (inbox, console,
    policies, dry run, webhooks), command-line entry points, configuration parsing,
    migrations and benchmarks are input and output around the modelled core. *)
From Stdlib Require Export ZArith Lia.
From stdpp Require Export base tactics decidable strings list gmap sorting.

#[global] Set Default Goal Selector "!".

(** ** Errors

    A Go error is a chain of wrapped errors.  What the program does with an
    error is test it with [errors.Is] against a package sentinel, so an error is
    modelled by the sentinels its chain wraps; the message text is dropped.  An
    error made with a bare [errors.New] or [fmt.Errorf] without [%w] wraps no
    sentinel and is the empty chain. *)
Inductive sentinel :=
  (* decision *)
  | ErrIllegalTransition | ErrUnknownTransition | ErrUnknownState
  | ErrUnauthenticated | ErrNotAuthorized | ErrNotPending | ErrNoSuchChallenge
  | ErrIdempotencyKeyReused | ErrRevalidation
  (* store *)
  | ErrNotFound | ErrConflict | ErrDecisionExpired
  | ErrChainConflict | ErrUnreconciled | ErrWriterTaken | ErrChainBroken | ErrNoSignature
  | ErrOriginTransfer
  (* challenge *)
  | ErrNoHandler | ErrDuplicateHandler | ErrNotSubmittable | ErrNotTarget
  | ErrInvalidPayload | ErrUnsupportedSpec | ErrNotRedeemable | ErrRedemptionRefused
  | ErrGroupSourceUnsupported | ErrApproverIssuerUndesignated
  | ErrBindingChanged | ErrVerdictUnsupported | ErrTargetUnknown
  (* challenge/mfa *)
  | ErrDirectModeUnimplemented | ErrCorrelatorMismatch | ErrCorrelatorConsumed | ErrCredentialMismatch
  | ErrACRNotAllowed | ErrACRUnsatisfied | ErrAMRMismatch | ErrStaleAuthentication | ErrNonceMismatch
  | ErrContextChanged | ErrBindingMessage | ErrInitiationUnsupported | ErrAuthorizationDeclined
  | ErrAuthorizationCodeRejected
  (* engine *)
  | ErrUndeclaredAttribute | ErrUnresolvedFact
  (* policy/revision *)
  | ErrInvalidDelta | ErrDecodeDelta | ErrUnsatisfiable | ErrFloorViolated
  | ErrAuthoringLocked
  | ErrAlreadyLocked | ErrRevisionPending | ErrNotApproved | ErrInvalidRevision | ErrNotProposer | ErrNotInstalled
  | ErrBootstrapRequired | ErrBootstrapInvalid | ErrBootstrapSpent | ErrBootstrapMissing | ErrListenersRunning
  | ErrPayloadTooLarge | ErrInvalidApplyPayload | ErrOriginConflict | ErrRevisionRateLimited | ErrExportForbidden
  (* stream *)
  | ErrRejected | ErrNoEventID | ErrNoProducedAt | ErrNoCaller | ErrNoMetric | ErrNoSubject
  | ErrValueNotFinite | ErrUnknownMetric | ErrDeductionNotAllowed | ErrTooOld | ErrTooFarAhead
  | ErrOutOfScope | ErrRateLimited | ErrNoIngestGrant | ErrUnknownSource
  | ErrDeductionNotPermitted | ErrBatchTooLarge | ErrNotAccepting
  (* fact *)
  | ErrLoad | ErrBlocked | ErrFactFailOpen
  (* a failure of the database connection itself *)
  | ErrDatabase.

#[export] Instance sentinel_eq_dec : EqDecision sentinel.
Proof. solve_decision. Defined.

Definition error := list sentinel.

Definition errors_Is (e : error) (s : sentinel) : bool := bool_decide (s ∈ e).

(** ** Results: Go's [(value, error)] pair, where the value of a failed call is
    never read. *)
Inductive result (A : Type) :=
  | Ok (a : A)
  | Err (e : error).
Arguments Ok {A} a.
Arguments Err {A} e.

#[export] Instance result_eq_dec `{EqDecision A} : EqDecision (result A).
Proof. solve_decision. Defined.

Definition res_bind {A B} (r : result A) (k : A → result B) : result B :=
  match r with Ok a => k a | Err e => Err e end.

Definition is_ok {A} (r : result A) : bool := match r with Ok _ => true | Err _ => false end.

Declare Scope stamp_scope.
Delimit Scope stamp_scope with stamp.

Notation "'let?' x ':=' e 'in' k" := (res_bind e (fun x => k))
  (at level 10, x pattern, e at level 100, k at level 200) : stamp_scope.
#[global] Open Scope stamp_scope.

Section res_map.
Context {A B : Type} (f : A → result B).
Fixpoint res_map (l : list A) : result (list B) :=
    match l with
    | [] => Ok []
    | a :: l => let? b := f a in let? bs := res_map l in Ok (b :: bs)
    end.
End res_map.

Lemma res_bind_Ok {A B} (r : result A) (k : A → result B) b :
  res_bind r k = Ok b ↔ ∃ a, r = Ok a ∧ k a = Ok b.
Proof. destruct r; simpl; naive_solver. Qed.

Lemma res_bind_Err {A B} (r : result A) (k : A → result B) e :
  res_bind r k = Err e ↔ r = Err e ∨ ∃ a, r = Ok a ∧ k a = Err e.
Proof. destruct r; simpl; naive_solver. Qed.

Lemma res_map_Ok {A B} (f : A → result B) l bs :
  res_map f l = Ok bs ↔ Forall2 (λ a b, f a = Ok b) l bs.
Proof.
  revert bs. induction l as [|a l IH]; intros bs; simpl.
  - split; [intros [= <-]; constructor | by inversion 1].
  - rewrite res_bind_Ok. split.
    + intros (b & Hb & (bs' & Hbs & [= <-])%res_bind_Ok). constructor; [done|]. by apply IH.
    + inversion 1 as [|? b ? bs' Hb Hbs]; subst. exists b. split; [done|].
      apply IH in Hbs. by rewrite Hbs.
Qed.

(** ** Transactions

    A transaction over a state [S] either fails, which rolls everything back, or
    leaves a state behind. *)

Definition Tx_ (S A : Type) : Type := S → result (A * S).

Section transactions.
Context {S : Type}.
Definition tx_ret {A} (a : A) : Tx_ S A := λ db, Ok (a, db).
Definition tx_fail {A} (e : error) : Tx_ S A := λ _, Err e.
Definition tx_lift {A} (r : result A) : Tx_ S A := λ db, let? a := r in Ok (a, db).
Definition tx_read {A} (f : S → A) : Tx_ S A := λ db, Ok (f db, db).
Definition tx_write (f : S → S) : Tx_ S unit := λ db, Ok (tt, f db).
Definition tx_bind {A B} (m : Tx_ S A) (k : A → Tx_ S B) : Tx_ S B := λ db, let? p := m db in k p.1 p.2.
End transactions.

Notation "'let%' x ':=' m 'in' k" := (tx_bind m (fun x => k))
  (at level 10, x name, m at level 100, k at level 200) : stamp_scope.

Lemma tx_bind_Ok {S A B} (m : Tx_ S A) (k : A → Tx_ S B) db b db' :
  tx_bind m k db = Ok (b, db') → ∃ a db1, m db = Ok (a, db1) ∧ k a db1 = Ok (b, db').
Proof. unfold tx_bind. intros ([a db1] & Hm & Hk)%res_bind_Ok. eauto. Qed.
Lemma tx_lift_Ok {S A} (r : result A) (db : S) a db' : tx_lift r db = Ok (a, db') → r = Ok a ∧ db' = db.
Proof. unfold tx_lift. by intros (x & -> & [= -> ->])%res_bind_Ok. Qed.

(** ** Tactics *)

(** Break a hypothesis that says a chain of result binds succeeded. *)
Ltac res_inv :=
  repeat match goal with
  | H : res_bind _ _ = Ok _ |- _ =>
      let a := fresh "a" in let Ha := fresh "Ha" in
      apply res_bind_Ok in H as (a & Ha & H)
  | H : Ok _ = Ok _ |- _ => injection H as H
  | H : Err _ = Ok _ |- _ => discriminate H
  | H : Ok _ = Err _ |- _ => discriminate H
  end.

(** Split on every boolean test of the goal, turning [bool_decide] into the
    proposition it decides. *)
Ltac split_ifs :=
  repeat (case_match || case_bool_decide || case_decide); simplify_eq/=.

Create HintDb stamp.
#[export] Hint Constructors Forall Forall2 : stamp.

(** ** Lists *)

Section lists.
Context {A : Type}.

  (** [slices.Contains]. *)
Definition contains `{EqDecision A} (l : list A) (a : A) : bool := bool_decide (a ∈ l).

Lemma contains_spec `{EqDecision A} (l : list A) a : contains l a = true ↔ a ∈ l.
  Proof. unfold contains. by rewrite bool_decide_eq_true. Qed.

Lemma forallb_true (f : A → bool) l : forallb f l = true ↔ ∀ x, x ∈ l → f x = true.
  Proof.
    rewrite forallb_forall. split; intros H x Hx; apply H; by apply list_elem_of_In.
  Qed.

Lemma existsb_true (f : A → bool) l : existsb f l = true ↔ ∃ x, x ∈ l ∧ f x = true.
  Proof.
    rewrite existsb_exists. split; intros (x & Hx & Hf); exists x; split; try done; by apply list_elem_of_In.
  Qed.

  (** [slices.Compact]: collapse runs of equal elements. *)
Fixpoint compact `{EqDecision A} (l : list A) : list A :=
    match l with
    | [] => []
    | x :: l' =>
        match l' with
        | [] => [x]
        | y :: _ => if bool_decide (x = y) then compact l' else x :: compact l'
        end
    end.

Lemma elem_of_compact `{EqDecision A} (l : list A) x : x ∈ compact l ↔ x ∈ l.
  Proof.
    induction l as [|a [|b l] IH]; [done|done|].
    change (compact (a :: b :: l)) with (if bool_decide (a = b) then compact (b :: l) else a :: compact (b :: l)).
    case_bool_decide as Hab; subst; set_solver.
  Qed.

Lemma compact_head `{EqDecision A} a (l : list A) : ∃ l', compact (a :: l) = a :: l'.
  Proof.
    revert a. induction l as [|b l IH]; intros a; [by exists []|].
    change (compact (a :: b :: l)) with (if bool_decide (a = b) then compact (b :: l) else a :: compact (b :: l)).
    case_bool_decide as Hab; subst; [apply IH | eauto].
  Qed.

Lemma compact_sorted `{EqDecision A} (R : relation A) `{!Transitive R, !AntiSymm (=) R} l :
    StronglySorted R l → StronglySorted R (compact l) ∧ NoDup (compact l).
  Proof.
    induction l as [|a [|b l] IH]; intros Hs.
    - split; constructor.
    - split; repeat constructor. set_solver.
    - change (compact (a :: b :: l)) with (if bool_decide (a = b) then compact (b :: l) else a :: compact (b :: l)).
      inversion Hs as [|? ? Hs' Hall]; subst. destruct (IH Hs') as [IHs IHd].
      case_bool_decide as Hab; [done|].
      split; constructor; try done.
      + apply Forall_forall. intros x Hx. rewrite elem_of_compact in Hx.
        rewrite Forall_forall in Hall. by apply Hall.
      + intros Hin. rewrite elem_of_compact in Hin. apply Hab.
        inversion Hall as [|? ? HRab Hall']; subst.
        apply elem_of_cons in Hin as [->|Hin]; [done|].
        inversion Hs' as [|? ? _ Hball]; subst.
        rewrite Forall_forall in Hball. apply (anti_symm R); [done|]. by apply Hball.
  Qed.
End lists.

Lemma elem_of_map {A B} (f : A → B) l y : y ∈ map f l ↔ ∃ x, y = f x ∧ x ∈ l.
Proof. apply list_elem_of_fmap. Qed.

Lemma NoDup_map_filter {A B} (f : A → B) (P : A → bool) l : NoDup (map f l) → NoDup (map f (List.filter P l)).
Proof.
  induction l as [|x l IH]; simpl; [done|]. intros [Hx Hnd]%NoDup_cons. destruct (P x); simpl; [|by apply IH]. apply NoDup_cons. split; [|by apply IH].
  intros (y & E & Hy)%elem_of_map. apply Hx, elem_of_map. exists y. split; [done|]. apply list_elem_of_In, filter_In in Hy as [? _]. by apply list_elem_of_In.
Qed.

Lemma NoDup_map_inj {A B} (f : A → B) (l : list A) x y : NoDup (map f l) → x ∈ l → y ∈ l → f x = f y → x = y.
Proof.
  intros Hnd [i Hi]%list_elem_of_lookup [j Hj]%list_elem_of_lookup E. rewrite NoDup_alt in Hnd.
  assert (i = j) as ->; [|congruence]. apply (Hnd i j (f x)); rewrite list_lookup_fmap; [by rewrite Hi|]. rewrite Hj. simpl. by rewrite E.
Qed.

Lemma filter_none {A} (P : A → Prop) `{!∀ x, Decision (P x)} (l : list A) :
  (∀ x, x ∈ l → ¬ P x) → filter P l = [].
Proof.
  induction l as [|a l IH]; intros Hn; [done|]. rewrite filter_cons_False; [|apply Hn; by left].
  apply IH. intros x Hx. apply Hn. by right.
Qed.

Lemma filter_all {A} (P : A → Prop) `{!∀ x, Decision (P x)} (l : list A) :
  (∀ x, x ∈ l → P x) → filter P l = l.
Proof.
  induction l as [|a l IH]; intros Hn; [done|]. rewrite filter_cons_True; [|apply Hn; by left].
  f_equal. apply IH. intros x Hx. apply Hn. by right.
Qed.

Lemma filter_ext_in {A} (P Q : A → Prop) `{!∀ x, Decision (P x), !∀ x, Decision (Q x)} (l : list A) :
  (∀ x, x ∈ l → P x ↔ Q x) → filter P l = filter Q l.
Proof.
  induction l as [|a l IH]; intros Hpq; [done|]. rewrite !filter_cons, IH by set_solver.
  assert (P a ↔ Q a) by (apply Hpq; by left). repeat case_decide; tauto.
Qed.

(** Two sorted duplicate-free lists with the same elements are equal. *)
Lemma sorted_ext {A} `{EqDecision A} (R : relation A) `{!AntiSymm (=) R, !Transitive R} (l1 l2 : list A) :
  StronglySorted R l1 → StronglySorted R l2 → NoDup l1 → NoDup l2 →
  (∀ x, x ∈ l1 ↔ x ∈ l2) → l1 = l2.
Proof.
  intros S1 S2 N1 N2 Hel. apply (StronglySorted_unique R); [done|done|].
  by apply NoDup_Permutation.
Qed.

(** ** Stable sorting by a key

    Go's [sort.SliceStable]; [sort.Slice] promises no order among equal keys, and
    the stable order is one it may produce. *)
Section sort_by.
Context {A K : Type} (key : A → K) (R : relation K) `{!RelDecision R}.

Fixpoint insert_by (x : A) (l : list A) : list A :=
    match l with
    | [] => [x]
    | y :: l' => if bool_decide (R (key x) (key y)) then x :: l else y :: insert_by x l'
    end.

Fixpoint sort_by (l : list A) : list A :=
    match l with
    | [] => []
    | x :: l => insert_by x (sort_by l)
    end.

Definition key_le (x y : A) : Prop := R (key x) (key y).

Lemma insert_by_Permutation x l : insert_by x l ≡ₚ x :: l.
  Proof.
    induction l as [|y l IH]; simpl; [done|]. case_bool_decide; [done|].
    rewrite IH. apply Permutation_swap.
  Qed.

Lemma sort_by_Permutation l : sort_by l ≡ₚ l.
  Proof. induction l as [|x l IH]; simpl; [done|]. by rewrite insert_by_Permutation, IH. Qed.

Lemma elem_of_sort_by x l : x ∈ sort_by l ↔ x ∈ l.
  Proof. by rewrite sort_by_Permutation. Qed.

Lemma length_sort_by l : length (sort_by l) = length l.
  Proof. by rewrite sort_by_Permutation. Qed.

  (** A sorted list is a fixed point. *)
Lemma sort_by_sorted l : StronglySorted key_le l → sort_by l = l.
  Proof.
    induction 1 as [|x l Hs IH Hall]; simpl; [done|]. rewrite IH.
    destruct l as [|y l]; simpl; [done|]. rewrite bool_decide_eq_true_2; [done|].
    by inversion Hall.
  Qed.

Context `{!Total R, !Transitive R}.

Lemma insert_by_sorted x l : StronglySorted key_le l → StronglySorted key_le (insert_by x l).
  Proof.
    induction 1 as [|y l Hs IH Hall]; simpl; [repeat constructor|].
    case_bool_decide as Hxy.
    - constructor; [by constructor|]. constructor; [done|].
      eapply Forall_impl; [done|]. unfold key_le. intros z Hyz. by etrans.
    - constructor; [done|]. rewrite insert_by_Permutation. constructor; [|done].
      destruct (total R (key x) (key y)); [done|]. done.
  Qed.

Lemma sort_by_StronglySorted l : StronglySorted key_le (sort_by l).
  Proof. induction l; simpl; [constructor|]. by apply insert_by_sorted. Qed.

Lemma sort_by_idemp l : sort_by (sort_by l) = sort_by l.
  Proof. apply sort_by_sorted, sort_by_StronglySorted. Qed.

  (** Elements with one key keep the order they were written in. *)
Lemma insert_by_filter `{EqDecision K} `{!Reflexive R} k x l :
    StronglySorted key_le l →
    filter (λ a, key a = k) (insert_by x l) = filter (λ a, key a = k) (x :: l).
  Proof.
    induction 1 as [|y l Hs IH Hall]; simpl; [done|]. case_bool_decide as Hxy; [done|].
    rewrite !filter_cons. rewrite IH, filter_cons.
    destruct (decide (key x = k)) as [Hx|], (decide (key y = k)) as [Hy|]; try done.
    exfalso. apply Hxy. rewrite Hx, Hy. done.
  Qed.

Lemma sort_by_filter `{EqDecision K} `{!Reflexive R} k l :
    filter (λ a, key a = k) (sort_by l) = filter (λ a, key a = k) l.
  Proof.
    induction l as [|x l IH]; simpl; [done|].
    rewrite insert_by_filter by apply sort_by_StronglySorted.
    by rewrite !filter_cons, IH.
  Qed.

  (** Sorting and selecting commute. *)
Lemma filter_insert_by (P : A → Prop) `{!∀ x, Decision (P x)} x l :
    StronglySorted key_le l →
    filter P (insert_by x l) = if decide (P x) then insert_by x (filter P l) else filter P l.
  Proof.
    induction 1 as [|y l Hs IH Hall]; [simpl; by rewrite filter_cons|]. simpl insert_by.
    case_bool_decide as Hxy.
    - rewrite (filter_cons _ x). destruct (decide (P x)); [|done].
      destruct (filter P (y :: l)) as [|z l'] eqn:E; [done|]. simpl.
      rewrite bool_decide_eq_true_2; [done|].
      assert (z ∈ y :: l) as Hz by (apply (list_elem_of_filter P); rewrite E; by left).
      apply elem_of_cons in Hz as [->|Hz]; [done|]. rewrite Forall_forall in Hall. etrans; [done|]. by apply Hall.
    - rewrite !(filter_cons _ y), IH. destruct (decide (P x)), (decide (P y)); try done.
      simpl. by rewrite bool_decide_eq_false_2.
  Qed.

Lemma filter_sort_by (P : A → Prop) `{!∀ x, Decision (P x)} l : filter P (sort_by l) = sort_by (filter P l).
  Proof.
    induction l as [|x l IH]; [done|]. simpl sort_by.
    rewrite filter_insert_by by apply sort_by_StronglySorted. rewrite IH, filter_cons. by destruct (decide (P x)).
  Qed.

  (** A new greatest element goes last. *)
Lemma sort_by_snoc l x :
    (∀ y, y ∈ l → ¬ R (key x) (key y)) → sort_by (l ++ [x]) = sort_by l ++ [x].
  Proof.
    intros Hx. induction l as [|a l IH]; [done|]. simpl. rewrite IH by set_solver.
    assert (R (key a) (key x)) as Ha.
    { destruct (total R (key a) (key x)); [done|]. exfalso. apply (Hx a); [by left|done]. }
    assert (∀ y, y ∈ sort_by l → ¬ R (key x) (key y)) as Hs by (intros y; rewrite elem_of_sort_by; set_solver).
    revert Hs. generalize (sort_by l) as m. induction m as [|y m IHm]; intros Hm; simpl.
    - by rewrite bool_decide_eq_true_2.
    - case_bool_decide; [done|]. simpl. rewrite IHm by set_solver. done.
  Qed.

  (** With distinct keys the result depends only on the set of elements. *)
Lemma sort_by_unique `{!AntiSymm (=) R} l1 l2 :
    NoDup (key <$> l1) → l1 ≡ₚ l2 → sort_by l1 = sort_by l2.
  Proof.
    intros Hnd Hp. apply (StronglySorted_unique_strong key_le).
    - intros x y Hx Hy Hxy Hyx. rewrite elem_of_sort_by in Hx.
      rewrite elem_of_sort_by, <-Hp in Hy.
      apply list_elem_of_lookup in Hx as [i Hi]. apply list_elem_of_lookup in Hy as [j Hj].
      assert (i = j) as <-; [|congruence].
      apply (NoDup_lookup (key <$> l1) i j (key x)); [done| |]; rewrite list_lookup_fmap.
      + by rewrite Hi.
      + rewrite Hj. simpl. f_equal. by apply (anti_symm R).
    - apply sort_by_StronglySorted.
    - apply sort_by_StronglySorted.
    - by rewrite !sort_by_Permutation.
  Qed.
End sort_by.
