(* ===== verification/GoLib.v ===== *)
(** * The parts of the Go standard library the program relies on

    [strings.TrimSpace], [sort]/[slices] on strings, [time], [int64] and
    [float64].  Strings are byte strings; instants and durations are integers
    counting nanoseconds. *)
From Stdlib Require Import Ascii SpecFloat.
From stdpp Require Import pretty.
From S2P Require Import Prelude.

(** ** strings.TrimSpace *)
Module Strings.

(** The UTF-8 encodings of the code points [unicode.IsSpace] accepts. *)
Definition byte (n : nat) : ascii := ascii_of_nat n.

Definition space_encodings : list (list ascii) :=
  [ [byte 9]; [byte 10]; [byte 11]; [byte 12]; [byte 13]; [byte 32];
    [byte 194; byte 133]; [byte 194; byte 160]; [byte 225; byte 154; byte 128];
    [byte 226; byte 128; byte 128]; [byte 226; byte 128; byte 129];
    [byte 226; byte 128; byte 130]; [byte 226; byte 128; byte 131];
    [byte 226; byte 128; byte 132]; [byte 226; byte 128; byte 133];
    [byte 226; byte 128; byte 134]; [byte 226; byte 128; byte 135];
    [byte 226; byte 128; byte 136]; [byte 226; byte 128; byte 137];
    [byte 226; byte 128; byte 138]; [byte 226; byte 128; byte 168];
    [byte 226; byte 128; byte 169]; [byte 226; byte 128; byte 175];
    [byte 226; byte 129; byte 159]; [byte 227; byte 128; byte 128] ].

Fixpoint strip_prefix (p s : list ascii) : option (list ascii) :=
  match p, s with
  | [], _ => Some s
  | a :: p, b :: s => if bool_decide (a = b) then strip_prefix p s else None
  | _ :: _, [] => None
  end.

Fixpoint strip_any (ps : list (list ascii)) (s : list ascii) : option (list ascii) :=
  match ps with
  | [] => None
  | p :: ps => match strip_prefix p s with Some s' => Some s' | None => strip_any ps s end
  end.

(** Each step removes at least one byte, so the length of the input is enough
    fuel ([trim_left_fixed]). *)
Fixpoint trim_left (ps : list (list ascii)) (fuel : nat) (s : list ascii) : list ascii :=
  match fuel with
  | O => s
  | S n => match strip_any ps s with Some s' => trim_left ps n s' | None => s end
  end.

Definition trim_list (s : list ascii) : list ascii :=
  let l := trim_left space_encodings (length s) s in
  reverse (trim_left (reverse <$> space_encodings) (length l) (reverse l)).

Definition TrimSpace (s : string) : string :=
  String.string_of_list_ascii (trim_list (String.list_ascii_of_string s)).

Lemma strip_prefix_Some p s s' : strip_prefix p s = Some s' ↔ s = p ++ s'.
Proof.
  revert s. induction p as [|a p IH]; intros [|b s]; simpl; try naive_solver.
  case_bool_decide as Hab; [rewrite IH|]; naive_solver.
Qed.

Lemma strip_any_Some ps s s' : strip_any ps s = Some s' → ∃ p, p ∈ ps ∧ s = p ++ s'.
Proof.
  induction ps as [|p ps IH]; simpl; [done|].
  destruct (strip_prefix p s) eqn:E; [|set_solver].
  intros [= ->]. apply strip_prefix_Some in E. set_solver.
Qed.

Lemma strip_any_None ps s : strip_any ps s = None ↔ ∀ p s', p ∈ ps → s ≠ p ++ s'.
Proof.
  induction ps as [|p ps IH]; simpl; [set_solver|].
  destruct (strip_prefix p s) as [s'|] eqn:E.
  - apply strip_prefix_Some in E. split; [done|]. intros H. exfalso. eapply H; [|done]. set_solver.
  - rewrite IH. split.
    + intros H q s' Hq. apply elem_of_cons in Hq as [->|Hq]; [|by apply H].
      intros ->. assert (strip_prefix p (p ++ s') = Some s') as Hc by by apply strip_prefix_Some.
      congruence.
    + set_solver.
Qed.

Section trim.
Context (ps : list (list ascii)) (Hne : [] ∉ ps).

Lemma strip_any_length s s' : strip_any ps s = Some s' → length s' < length s.
  Proof.
    intros (p & Hp & ->)%strip_any_Some. rewrite length_app.
    destruct p; [done|]. simpl. lia.
  Qed.

Lemma trim_left_fixed n s : length s ≤ n → strip_any ps (trim_left ps n s) = None.
  Proof.
    revert s. induction n as [|n IH]; intros s Hs; simpl.
    - destruct (strip_any ps s) eqn:E; [apply strip_any_length in E; lia | done].
    - destruct (strip_any ps s) as [s'|] eqn:E; [|done].
      apply IH. apply strip_any_length in E. lia.
  Qed.

Lemma trim_left_id n s : strip_any ps s = None → trim_left ps n s = s.
  Proof. intros H. destruct n; simpl; [done|]. by rewrite H. Qed.

Lemma trim_left_suffix n s : ∃ p, s = p ++ trim_left ps n s.
  Proof.
    revert s. induction n as [|n IH]; intros s; simpl; [by exists []|].
    destruct (strip_any ps s) as [s'|] eqn:E; [|by exists []].
    apply strip_any_Some in E as (p & _ & ->). destruct (IH s') as [q Hq].
    exists (p ++ q). rewrite <-(assoc_L (++)). by rewrite <-Hq.
  Qed.

Lemma strip_any_prefix s t : strip_any ps (s ++ t) = None → strip_any ps s = None.
  Proof.
    rewrite !strip_any_None. intros H p s' Hp ->. eapply H; [done|]. by rewrite <-(assoc_L (++)).
  Qed.
End trim.

Lemma spaces_nonempty : [] ∉ space_encodings.
Proof. intros H. unfold space_encodings in H. repeat (apply elem_of_cons in H as [H|H]; [done|]). set_solver. Qed.

Lemma rev_spaces_nonempty : [] ∉ (reverse <$> space_encodings).
Proof.
  intros (p & Hp & Hin)%list_elem_of_fmap. apply spaces_nonempty.
  destruct p as [|a p]; [done|]. rewrite reverse_cons in Hp. by destruct (reverse p).
Qed.

Lemma trim_list_idemp s : trim_list (trim_list s) = trim_list s.
Proof.
  unfold trim_list at 2 3.
  set (l := trim_left space_encodings (length s) s).
  set (r := trim_left (reverse <$> space_encodings) (length l) (reverse l)).
  assert (strip_any space_encodings l = None) as Hl.
  { apply trim_left_fixed; [apply spaces_nonempty | done]. }
  assert (strip_any (reverse <$> space_encodings) r = None) as Hr.
  { apply trim_left_fixed; [apply rev_spaces_nonempty |]. by rewrite length_reverse. }
  assert (strip_any space_encodings (reverse r) = None) as Hrl.
  { destruct (trim_left_suffix (reverse <$> space_encodings) (length l) (reverse l)) as [p Hp].
    fold r in Hp. apply (strip_any_prefix _ _ (reverse p)).
    rewrite <-reverse_app, <-Hp, reverse_involutive. done. }
  unfold trim_list. rewrite (trim_left_id _ _ _ Hrl), reverse_involutive.
  by rewrite (trim_left_id _ _ _ Hr).
Qed.

Lemma TrimSpace_idemp s : TrimSpace (TrimSpace s) = TrimSpace s.
Proof.
  unfold TrimSpace. by rewrite String.list_ascii_of_string_of_list_ascii, trim_list_idemp.
Qed.

(** Trim, drop blanks, sort, deduplicate: the shape of every set of identifiers
    the program freezes. *)
Definition trimmed (l : list string) : list string :=
  filter (λ s, s ≠ "") (TrimSpace <$> l).

Definition sort_strings (l : list string) : list string := merge_sort String.le l.

Definition trimmed_set (l : list string) : list string := compact (sort_strings (trimmed l)).

Lemma elem_of_trimmed_set l x :
  x ∈ trimmed_set l ↔ x ≠ "" ∧ ∃ y, y ∈ l ∧ x = TrimSpace y.
Proof.
  unfold trimmed_set, sort_strings, trimmed.
  rewrite elem_of_compact, merge_sort_Permutation, list_elem_of_filter, list_elem_of_fmap.
  naive_solver.
Qed.

Lemma trimmed_set_sorted l : StronglySorted String.le (trimmed_set l) ∧ NoDup (trimmed_set l).
Proof.
  unfold trimmed_set. apply compact_sorted; [apply _ | apply _ |].
  unfold sort_strings. apply (StronglySorted_merge_sort String.le).
Qed.

(** The result is a function of the set of trimmed names alone. *)
Lemma trimmed_set_ext l1 l2 :
  (∀ x, x ∈ trimmed_set l1 ↔ x ∈ trimmed_set l2) → trimmed_set l1 = trimmed_set l2.
Proof.
  intros H. apply (sorted_ext String.le); try apply trimmed_set_sorted. done.
Qed.

Lemma trimmed_set_idemp l : trimmed_set (trimmed_set l) = trimmed_set l.
Proof.
  apply trimmed_set_ext. intros x. rewrite elem_of_trimmed_set. split.
  - intros (Hx & y & Hy & ->). apply elem_of_trimmed_set in Hy as (Hy' & z & Hz & ->).
    rewrite TrimSpace_idemp in *. apply elem_of_trimmed_set. eauto.
  - intros Hx. pose proof Hx as (Hne & y & Hy & ->)%elem_of_trimmed_set.
    split; [done|]. exists (TrimSpace y). by rewrite TrimSpace_idemp.
Qed.

End Strings.

(** ** time

    An instant is the number of nanoseconds since the Unix epoch.  Every instant
    the program compares is in UTC, so there is no location to carry. *)
Module Time.

Notation t := Z (only parsing).
Notation duration := Z (only parsing).

(** The zero [time.Time], 1 January of year 1, which [IsZero] tests for. *)
Definition zero : t := (-62135596800 * 10 ^ 9)%Z.
Definition IsZero (x : t) : bool := bool_decide (x = zero).

Definition Before (x y : t) : bool := (x <? y)%Z.
Definition After (x y : t) : bool := (y <? x)%Z.
Definition Add (x : t) (d : duration) : t := (x + d)%Z.
(** A difference that does not fit a duration is clamped to the nearest one. *)
Definition maxDuration : duration := (2 ^ 63 - 1)%Z.
Definition minDuration : duration := (- 2 ^ 63)%Z.
Definition Sub (x y : t) : duration := Z.max minDuration (Z.min maxDuration (x - y)).

Definition Microsecond : duration := 1000%Z.
Definition Second : duration := (10 ^ 9)%Z.
Definition Minute : duration := (60 * 10 ^ 9)%Z.

(** [Truncate(time.Microsecond)], which is also the precision of a
    [timestamptz] column. *)
Definition trunc_us (x : t) : t := (x - x mod Microsecond)%Z.

Lemma trunc_us_le x : (trunc_us x ≤ x)%Z.
Proof. unfold trunc_us, Microsecond. pose proof (Z.mod_pos_bound x 1000). lia. Qed.

Lemma trunc_us_gt x : (x < trunc_us x + Microsecond)%Z.
Proof. unfold trunc_us, Microsecond. pose proof (Z.mod_pos_bound x 1000). lia. Qed.

Lemma trunc_us_idemp x : trunc_us (trunc_us x) = trunc_us x.
Proof.
  unfold trunc_us, Microsecond.
  assert ((x - x mod 1000) mod 1000 = 0)%Z as ->; [|lia].
  rewrite Zminus_mod_idemp_r, Z.sub_diag. done.
Qed.

Lemma trunc_us_mono x y : (x ≤ y)%Z → (trunc_us x ≤ trunc_us y)%Z.
Proof.
  unfold trunc_us, Microsecond. intros.
  rewrite (Z.mod_eq x), (Z.mod_eq y) by done.
  assert (x / 1000 ≤ y / 1000)%Z by (apply Z.div_le_mono; lia). lia.
Qed.

(** *** Rendering: [Duration.String] and [Format(time.RFC3339Nano)] of a UTC
    instant, the two spellings that reach a document. *)
Local Open Scope Z_scope.

Fixpoint zeros (n : nat) : string := match n with O => "" | S n => "0" +:+ zeros n end.

Definition pad (w : nat) (n : Z) : string :=
  let s := pretty n in zeros (w - String.length s) +:+ s.

Fixpoint strip_zeros (l : list ascii) : list ascii :=
  match l with
  | a :: l' => if bool_decide (a = "0"%char) then strip_zeros l' else l
  | [] => []
  end.

(** A decimal fraction of [w] digits, trailing zeros removed, empty when zero. *)
Definition fraction (w : nat) (n : Z) : string :=
  match strip_zeros (reverse (String.list_ascii_of_string (pad w n))) with
  | [] => ""
  | l => "." +:+ String.string_of_list_ascii (reverse l)
  end.

Definition micro : string := String (ascii_of_nat 194) (String (ascii_of_nat 181) "s").

Definition Duration_String (d : duration) : string :=
  let u := Z.abs d in
  let body :=
    if u =? 0 then "0s"
    else if u <? 10 ^ 3 then pretty u +:+ "ns"
    else if u <? 10 ^ 6 then pretty (u / 10 ^ 3) +:+ fraction 3 (u mod 10 ^ 3) +:+ micro
    else if u <? 10 ^ 9 then pretty (u / 10 ^ 6) +:+ fraction 6 (u mod 10 ^ 6) +:+ "ms"
    else
      let s := u / 10 ^ 9 in
      let secs := pretty (s mod 60) +:+ fraction 9 (u mod 10 ^ 9) +:+ "s" in
      let m := s / 60 in
      if m =? 0 then secs
      else
        let mins := pretty (m mod 60) +:+ "m" +:+ secs in
        let h := m / 60 in
        if h =? 0 then mins else pretty h +:+ "h" +:+ mins
  in if d <? 0 then "-" +:+ body else body.

(** Year, month and day of a day number counted from the epoch. *)
Definition civil (days : Z) : Z * Z * Z :=
  let z := days + 719468 in
  let era := z / 146097 in
  let doe := z mod 146097 in
  let yoe := (doe - doe / 1460 + doe / 36524 - doe / 146096) / 365 in
  let doy := doe - (365 * yoe + yoe / 4 - yoe / 100) in
  let mp := (5 * doy + 2) / 153 in
  let d := doy - (153 * mp + 2) / 5 + 1 in
  let m := if mp <? 10 then mp + 3 else mp - 9 in
  let y := yoe + era * 400 in
  ((if m <=? 2 then y + 1 else y), m, d).

Definition Format_RFC3339Nano (x : t) : string :=
  let secs := x / 10 ^ 9 in
  let ns := x mod 10 ^ 9 in
  let sod := secs mod 86400 in
  let '(y, m, d) := civil (secs / 86400) in
  pad 4 y +:+ "-" +:+ pad 2 m +:+ "-" +:+ pad 2 d +:+ "T" +:+
  pad 2 (sod / 3600) +:+ ":" +:+ pad 2 ((sod / 60) mod 60) +:+ ":" +:+ pad 2 (sod mod 60) +:+
  fraction 9 ns +:+ "Z".

Example duration_string_ex :
  map Duration_String [0; 1500; 90 * 10 ^ 9; 3600 * 10 ^ 9 + 15 * 10 ^ 6; -5] =
  ["0s"; "1.5" +:+ micro; "1m30s"; "1h0m0.015s"; "-5ns"].
Proof. vm_compute. reflexivity. Qed.

Example format_ex : Format_RFC3339Nano (1700000000 * 10 ^ 9 + 120) = "2023-11-14T22:13:20.00000012Z".
Proof. vm_compute. reflexivity. Qed.

End Time.

(** ** float64

    A finite double is the dyadic rational [m * 2^e] it denotes, so comparison is
    exact; the two zeros, the infinities and NaN are kept apart because Go and
    IEEE 754 do. *)
Module Float64.
Local Open Scope Z_scope.

Inductive t :=
  | NaN
  | Inf (neg : bool)
  | NegZero
  | Fin (m e : Z).

#[global] Instance t_eq_dec : EqDecision t.
Proof. solve_decision. Defined.

Definition scaled (m e k : Z) : Z := m * 2 ^ (e - k).

#[local] Arguments scaled : simpl never.

Definition compare_fin (m1 e1 m2 e2 : Z) : comparison :=
  let k := Z.min e1 e2 in Z.compare (scaled m1 e1 k) (scaled m2 e2 k).

Definition fin_of (x : t) : option (Z * Z) :=
  match x with NegZero => Some (0, 0) | Fin m e => Some (m, e) | _ => None end.

Definition compare (x y : t) : option comparison :=
  match x, y with
  | NaN, _ | _, NaN => None
  | Inf a, Inf b => Some (if bool_decide (a = b) then Eq else if a then Lt else Gt)
  | Inf a, _ => Some (if a then Lt else Gt)
  | _, Inf b => Some (if b then Gt else Lt)
  | _, _ =>
      match fin_of x, fin_of y with
      | Some (m1, e1), Some (m2, e2) => Some (compare_fin m1 e1 m2 e2)
      | _, _ => None
      end
  end.

(** Go's [==], [<] and [<=] on float64. *)
Definition eqb (x y : t) : bool := bool_decide (compare x y = Some Eq).
Definition ltb (x y : t) : bool := bool_decide (compare x y = Some Lt).
Definition leb (x y : t) : bool := ltb x y || eqb x y.

(** Two floats with one shortest decimal rendering: NaN is itself, and the two
    zeros differ. *)
Definition same (x y : t) : bool :=
  match x, y with
  | NaN, NaN | NegZero, NegZero => true
  | NegZero, _ | _, NegZero => false
  | _, _ => eqb x y
  end.

(** [float64(n)] for an int64: round to nearest, ties to even, at 53 bits. *)
Definition round53 (n : Z) : Z :=
  let a := Z.abs n in
  let k := Z.max 0 (Z.log2 a + 1 - 53) in
  let p := 2 ^ k in
  let q := a / p in
  let r := a mod p in
  let q' := if 2 * r <? p then q else if p <? 2 * r then q + 1
            else if Z.even q then q else q + 1 in
  Z.sgn n * (q' * p).

Definition of_int64 (n : Z) : t := Fin (round53 n) 0.

(** An int64 whose conversion loses nothing. *)
Definition exact_int (n : Z) : bool := Z.abs n <=? 2 ^ 53.

Lemma round53_exact n : exact_int n = true → round53 n = n.
Proof.
  unfold exact_int. intros Hn%Z.leb_le. unfold round53.
  set (a := Z.abs n) in *.
  assert (Z.sgn n * a = n) as Hsg by (subst a; destruct n; simpl; lia).
  destruct (decide (a < 2 ^ 53)) as [Hlt|Hge].
  - destruct (decide (a = 0)) as [H0|H0].
    { destruct n; simpl in *; try lia. }
    assert (Z.log2 a < 53) by (apply Z.log2_lt_pow2; lia).
    rewrite Z.max_l by lia. rewrite Z.pow_0_r, Z.div_1_r, Z.mod_1_r.
    replace (2 * 0 <? 1) with true by done. lia.
  - assert (a = 2 ^ 53) as -> by lia.
    change (Z.max 0 (Z.log2 (2 ^ 53) + 1 - 53)) with 1.
    change (2 ^ 53 mod 2 ^ 1) with 0. change (2 ^ 53 / 2 ^ 1) with (2 ^ 52).
    replace (2 * 0 <? 2 ^ 1) with true by done.
    replace (2 ^ 52 * 2 ^ 1) with (2 ^ 53) by done. done.
Qed.

(** A 53-bit mantissa times a power of two is a fixed point. *)
Lemma round53_representable n m j : 0 <= m <= 2 ^ 53 → 0 <= j → Z.abs n = m * 2 ^ j → round53 n = n.
Proof.
  intros Hm Hj Ha. unfold round53. rewrite Ha. set (a := m * 2 ^ j) in *.
  set (k := Z.max 0 (Z.log2 a + 1 - 53)). assert (0 <= k) by (subst k; lia).
  assert (0 < 2 ^ j) by (apply Z.pow_pos_nonneg; lia).
  assert (0 < 2 ^ k) by (apply Z.pow_pos_nonneg; lia).
  assert (a mod 2 ^ k = 0) as Hmod.
  { destruct (decide (k <= j)) as [Hk|Hk].
    - unfold a. replace j with ((j - k) + k) by lia. rewrite Z.pow_add_r, Z.mul_assoc by lia. apply Z.mod_mul. lia.
    - assert (k = Z.log2 a - 52) as Ek by lia.
      assert (0 < a) by (destruct (decide (a = 0)) as [E|]; [rewrite E in Ek; simpl in Ek; lia|unfold a in *; lia]).
      assert (2 ^ Z.log2 a <= a) by (apply Z.log2_spec; lia).
      assert (2 ^ (53 + j) <= 2 ^ Z.log2 a) by (apply Z.pow_le_mono_r; lia).
      rewrite Z.pow_add_r in * by lia. assert (a <= 2 ^ 53 * 2 ^ j) by (unfold a; nia).
      assert (a = 2 ^ (53 + j)) as Ea by (rewrite Z.pow_add_r by lia; lia).
      assert (k = j + 1) as -> by (rewrite Ea, Z.log2_pow2 in Ek by lia; lia).
      rewrite Ea. replace (53 + j) with (52 + (j + 1)) by lia. rewrite Z.pow_add_r by lia. apply Z.mod_mul. lia. }
  rewrite Hmod. replace (2 * 0 <? 2 ^ k) with true by lia.
  pose proof (Z.div_mod a (2 ^ k) ltac:(lia)) as Hd. rewrite Hmod in Hd.
  replace (a / 2 ^ k * 2 ^ k) with a by lia. rewrite <-Ha. destruct n; simpl; lia.
Qed.

Lemma round53_idemp n : round53 (round53 n) = round53 n.
Proof.
  set (a := Z.abs n). set (k := Z.max 0 (Z.log2 a + 1 - 53)).
  set (q := a / 2 ^ k). set (r := a mod 2 ^ k).
  set (q' := if 2 * r <? 2 ^ k then q else if 2 ^ k <? 2 * r then q + 1 else if Z.even q then q else q + 1).
  change (round53 n) with (Z.sgn n * (q' * 2 ^ k)).
  assert (0 < 2 ^ k) by (apply Z.pow_pos_nonneg; lia).
  assert (0 <= a) by lia.
  assert (0 <= q < 2 ^ 53) as Hq.
  { split; [by apply Z.div_pos|]. apply Z.div_lt_upper_bound; [done|].
    destruct (decide (a = 0)) as [->|Hne]; [lia|].
    assert (a < 2 ^ (Z.succ (Z.log2 a))) as Hlt by (apply Z.log2_spec; lia).
    rewrite <-Z.pow_add_r by lia. eapply Z.lt_le_trans; [exact Hlt|]. apply Z.pow_le_mono_r; lia. }
  assert (0 <= q' <= 2 ^ 53) by (subst q'; repeat case_match; lia).
  apply (round53_representable _ (Z.abs (Z.sgn n) * q') k); [|lia|].
  - destruct n; simpl; lia.
  - rewrite Z.abs_mul, (Z.abs_eq (q' * 2 ^ k)) by nia. lia.
Qed.

Lemma round53_bound n : Z.abs (round53 n) <= 2 * Z.abs n.
Proof.
  destruct (decide (n = 0)) as [->|Hn]; [done|]. unfold round53. set (a := Z.abs n). assert (1 <= a) by lia.
  set (k := Z.max 0 (Z.log2 a + 1 - 53)). pose proof (Z.log2_nonneg a).
  assert (0 < 2 ^ k) by (apply Z.pow_pos_nonneg; lia).
  assert (2 ^ k <= a) by (transitivity (2 ^ Z.log2 a); [apply Z.pow_le_mono_r; lia|apply Z.log2_spec; lia]).
  pose proof (Z.div_mod a (2 ^ k) ltac:(lia)). pose proof (Z.mod_pos_bound a (2 ^ k) ltac:(lia)).
  assert (0 <= a / 2 ^ k) by (apply Z.div_pos; lia).
  rewrite Z.abs_mul. assert (Z.abs (Z.sgn n) = 1) as -> by (destruct n; simpl; lia).
  rewrite Z.mul_1_l, Z.abs_eq; repeat case_match; nia.
Qed.

Lemma round53_pos n : 1 <= n → 1 <= round53 n.
Proof.
  intros Hn. unfold round53. rewrite Z.abs_eq, (Z.sgn_pos n) by lia.
  set (k := Z.max 0 (Z.log2 n + 1 - 53)). pose proof (Z.log2_nonneg n).
  assert (0 < 2 ^ k) by (apply Z.pow_pos_nonneg; lia).
  assert (2 ^ k <= n).
  { transitivity (2 ^ Z.log2 n); [apply Z.pow_le_mono_r; lia|]. apply Z.log2_spec. lia. }
  assert (1 <= n / 2 ^ k) by (apply Z.div_le_lower_bound; lia).
  repeat case_match; nia.
Qed.

Lemma scaled_shift m e k j : k <= e → j <= k → scaled m e j = scaled m e k * 2 ^ (k - j).
Proof.
  intros. unfold scaled. rewrite <-Z.mul_assoc, <-Z.pow_add_r by lia.
  do 2 f_equal. lia.
Qed.

Lemma compare_fin_at m1 e1 m2 e2 k :
  k <= e1 → k <= e2 → compare_fin m1 e1 m2 e2 = Z.compare (scaled m1 e1 k) (scaled m2 e2 k).
Proof.
  intros. unfold compare_fin. set (j := Z.min e1 e2).
  rewrite (scaled_shift m1 e1 j k), (scaled_shift m2 e2 j k) by (subst j; lia).
  assert (0 < 2 ^ (j - k)) by (apply Z.pow_pos_nonneg; subst j; lia).
  by rewrite <-Zmult_compare_compat_r by lia.
Qed.

(** On non-NaN values [compare] is the order of a linear key: a pair of a tier
    (below, among or above the finite values) and a common-exponent numerator. *)
Definition tier (x : t) : Z := match x with Inf true => -1 | Inf false => 1 | _ => 0 end.

Definition num (k : Z) (x : t) : Z :=
  match fin_of x with Some (m, e) => scaled m e k | None => 0 end.

Definition expo (x : t) : Z := match x with Fin _ e => e | _ => 0 end.

Lemma compare_key x y k :
  x ≠ NaN → y ≠ NaN → k <= expo x → k <= expo y →
  compare x y = Some (match Z.compare (tier x) (tier y) with
                      | Eq => Z.compare (num k x) (num k y)
                      | c => c
                      end).
Proof.
  intros Hx Hy Hkx Hky.
  destruct x as [|a| |m1 e1], y as [|b| |m2 e2]; try done; simpl in *;
    try (destruct a); try (destruct b); simpl; try done.
  all: rewrite (compare_fin_at _ _ _ _ k) by done; reflexivity.
Qed.

Ltac key_solve :=
  repeat match goal with
  | H : context [Z.compare ?a ?b] |- _ => destruct (Z.compare_spec a b)
  | |- context [Z.compare ?a ?b] => destruct (Z.compare_spec a b)
  end; simplify_eq; try done; try lia.

Lemma lt_not_nan x y : ltb x y = true → x ≠ NaN ∧ y ≠ NaN.
Proof. unfold ltb. intros H%bool_decide_eq_true. destruct x, y; naive_solver. Qed.

Lemma le_not_nan x y : leb x y = true → x ≠ NaN ∧ y ≠ NaN.
Proof.
  unfold leb, eqb. intros [H|H]%orb_true_iff; [by apply lt_not_nan|].
  apply bool_decide_eq_true in H. destruct x, y; naive_solver.
Qed.

Definition common (x y z : t) : Z := Z.min (expo x) (Z.min (expo y) (expo z)).

Lemma leb_trans x y z : leb x y = true → leb y z = true → leb x z = true.
Proof.
  intros H1 H2. destruct (le_not_nan _ _ H1), (le_not_nan _ _ H2).
  revert H1 H2. unfold leb, ltb, eqb. rewrite !orb_true_iff, !bool_decide_eq_true.
  set (k := common x y z).
  rewrite !(compare_key _ _ k) by (try done; unfold k, common; lia).
  intros H1 H2. key_solve; naive_solver lia.
Qed.

Lemma ltb_leb_trans x y z : ltb x y = true → leb y z = true → ltb x z = true.
Proof.
  intros H1 H2. destruct (lt_not_nan _ _ H1), (le_not_nan _ _ H2).
  revert H1 H2. unfold leb, ltb, eqb. rewrite !orb_true_iff, !bool_decide_eq_true.
  set (k := common x y z).
  rewrite !(compare_key _ _ k) by (try done; unfold k, common; lia).
  intros H1 H2. key_solve; naive_solver lia.
Qed.

Lemma leb_ltb_trans x y z : leb x y = true → ltb y z = true → ltb x z = true.
Proof.
  intros H1 H2. destruct (le_not_nan _ _ H1), (lt_not_nan _ _ H2).
  revert H1 H2. unfold leb, ltb, eqb. rewrite !orb_true_iff, !bool_decide_eq_true.
  set (k := common x y z).
  rewrite !(compare_key _ _ k) by (try done; unfold k, common; lia).
  intros H1 H2. key_solve; naive_solver lia.
Qed.

Lemma of_int64_leb a b :
  exact_int a = true → exact_int b = true → leb (of_int64 a) (of_int64 b) = (a <=? b).
Proof.
  intros Ha Hb. unfold leb, ltb, eqb, of_int64. simpl.
  rewrite !round53_exact by done. rewrite (compare_fin_at _ _ _ _ 0) by lia.
  unfold scaled. rewrite Z.sub_0_r, Z.pow_0_r, !Z.mul_1_r.
  unfold Z.leb. by destruct (a ?= b).
Qed.

(** *** Arithmetic, through the Standard Library's binary64 *)
Definition to_spec (x : t) : spec_float :=
  match x with
  | NaN => S754_nan
  | Inf b => S754_infinity b
  | NegZero => S754_zero true
  | Fin m e => binary_normalize 53 1024 m e false
  end.

Definition of_spec (x : spec_float) : t :=
  match x with
  | S754_nan => NaN
  | S754_infinity b => Inf b
  | S754_zero true => NegZero
  | S754_zero false => Fin 0 0
  | S754_finite s m e => Fin (if s then Zneg m else Zpos m) e
  end.

Definition add (x y : t) : t := of_spec (SFadd 53 1024 (to_spec x) (to_spec y)).
Definition sub (x y : t) : t := of_spec (SFsub 53 1024 (to_spec x) (to_spec y)).
Definition mul (x y : t) : t := of_spec (SFmul 53 1024 (to_spec x) (to_spec y)).
Definition div (x y : t) : t := of_spec (SFdiv 53 1024 (to_spec x) (to_spec y)).

(** The built-in [min]: NaN if either is, and -0 below 0. *)
Definition min (x y : t) : t :=
  match x, y with
  | NaN, _ | _, NaN => NaN
  | NegZero, _ => if ltb y NegZero then y else x
  | _, _ => if leb y x then y else x
  end.

Definition of_Z (n : Z) : t := Fin n 0.
Definition is_finite (x : t) : bool := match x with NaN | Inf _ => false | _ => true end.

(** [Duration.Seconds]. *)
Definition seconds (d : Z) : t :=
  add (of_int64 (Z.quot d (10 ^ 9))) (div (of_int64 (Z.rem d (10 ^ 9))) (of_Z (10 ^ 9))).

Example float_arith :
  add (of_Z 1) (Fin 1 (-60)) = Fin (2 ^ 52) (-52) ∧ seconds (1500 * 10 ^ 6) = Fin (3 * 2 ^ 51) (-52).
Proof. vm_compute. auto. Qed.

End Float64.
