(* ===== verification/Policy.v ===== *)
(** * Policies: schema, condition AST, challenges, normalization

    Models internal/policy/ast.go and internal/policy/schema.go.  A Go interface
    value that may be nil is an inductive type with a nil constructor ([NodeNil],
    [OperandNil]); a Go string type with declared constants is an inductive type
    with one constructor per constant and one for every other spelling. *)
From Stdlib Require Import Ascii.
From S2P Require Import Prelude GoLib.
Import Strings.

(** ** The type system (schema.go) *)

(** [policy.Type] is a string; a list type is spelled [list<elem>]. *)
Definition Typ := string.
Definition TypeBool : Typ := "bool".
Definition TypeInt : Typ := "int".
Definition TypeDouble : Typ := "double".
Definition TypeString : Typ := "string".
Definition TypeTimestamp : Typ := "timestamp".
Definition TypeDuration : Typ := "duration".

Definition ScalarTypes : list Typ :=
  [TypeBool; TypeInt; TypeDouble; TypeString; TypeTimestamp; TypeDuration].

Definition bytes (s : string) : list ascii := String.list_ascii_of_string s.
Definition unbytes (l : list ascii) : string := String.string_of_list_ascii l.

Definition HasPrefix (s p : string) : bool := bool_decide (is_Some (strip_prefix (bytes p) (bytes s))).
Definition HasSuffix (s p : string) : bool :=
  bool_decide (is_Some (strip_prefix (reverse (bytes p)) (reverse (bytes s)))).
Definition TrimPrefix (s p : string) : string :=
  match strip_prefix (bytes p) (bytes s) with Some s' => unbytes s' | None => s end.
Definition TrimSuffix (s p : string) : string :=
  match strip_prefix (reverse (bytes p)) (reverse (bytes s)) with
  | Some s' => unbytes (reverse s') | None => s end.

Definition ListOf (elem : Typ) : Typ := "list<" +:+ elem +:+ ">".

Definition IsList (t : Typ) : bool := HasPrefix t "list<" && HasSuffix t ">".

Definition Elem (t : Typ) : Typ :=
  if IsList t then TrimSuffix (TrimPrefix t "list<") ">" else "".

Definition IsScalar (t : Typ) : bool := existsb (λ s, bool_decide (t = s)) ScalarTypes.

Definition Type_Valid (t : Typ) : bool := if IsList t then IsScalar (Elem t) else IsScalar t.

Definition IsOrdered (t : Typ) : bool :=
  contains [TypeInt; TypeDouble; TypeString; TypeTimestamp; TypeDuration] t.

(** ** Roles, source kinds, failure behaviours *)

Inductive Role := RoleSubject | RoleResource | RoleContext | RoleOther (s : string).

Definition Role_string (r : Role) : string :=
  match r with
  | RoleSubject => "subject" | RoleResource => "resource" | RoleContext => "context"
  | RoleOther s => s
  end.

Definition Roles : list Role := [RoleSubject; RoleResource; RoleContext].

Inductive SourceKind := SourceStatic | SourceHTTP | SourceEvent | SourceIdPGroup | SourceKindOther (s : string).

Inductive OnError := OnErrorUnset | OnErrorDeny | OnErrorAllow | OnErrorOther (s : string).

Definition DefaultOnError : OnError := OnErrorDeny.

Definition OnError_Valid (e : OnError) : bool :=
  match e with OnErrorDeny | OnErrorAllow => true | _ => false end.

#[export] Instance Role_eq_dec : EqDecision Role.
Proof. solve_decision. Defined.
#[export] Instance SourceKind_eq_dec : EqDecision SourceKind.
Proof. solve_decision. Defined.
#[export] Instance OnError_eq_dec : EqDecision OnError.
Proof. solve_decision. Defined.

Definition Role_Valid (r : Role) : bool := contains Roles r.

Definition SourceKinds : list SourceKind := [SourceStatic; SourceHTTP; SourceEvent; SourceIdPGroup].
Definition SourceKind_Valid (k : SourceKind) : bool := contains SourceKinds k.

(** ** Schema declarations *)

Record Attribute := mkAttribute { attr_Name : string; attr_Type : Typ }.
Record EntityType := mkEntityType { ent_Name : string; ent_Attributes : list Attribute }.
Record Action := mkAction { act_Name : string; act_Description : string }.
Record Param := mkParam { par_Name : string; par_Type : Typ }.
Record SourceDecl := mkSourceDecl {
  src_Name : string;
  src_Kind : SourceKind;
  src_Params : list Param;
  src_Returns : Typ;
  src_OnError : OnError }.
Record Schema := mkSchema {
  sch_Entities : list EntityType;
  sch_Actions : list Action;
  sch_Sources : list SourceDecl }.

Definition EntityType_Attribute (e : EntityType) (name : string) : option Attribute :=
  list_find (λ a, attr_Name a = name) (ent_Attributes e) ≫= λ p, Some p.2.

Definition Schema_Entity (s : Schema) (name : string) : option EntityType :=
  list_find (λ e, ent_Name e = name) (sch_Entities s) ≫= λ p, Some p.2.

Definition Schema_Source (s : Schema) (name : string) : option SourceDecl :=
  list_find (λ d, src_Name d = name) (sch_Sources s) ≫= λ p, Some p.2.

Definition HasAction (s : Schema) (name : string) : bool :=
  existsb (λ a, bool_decide (act_Name a = name)) (sch_Actions s).

(** ** The condition AST (ast.go) *)

Inductive LogicOp := LogicAll | LogicAny | LogicNot | LogicOther (s : string).
Inductive CompareOp := OpEq | OpNe | OpLt | OpLe | OpGt | OpGe | OpOther (s : string).

#[export] Instance LogicOp_eq_dec : EqDecision LogicOp.
Proof. solve_decision. Defined.
#[export] Instance CompareOp_eq_dec : EqDecision CompareOp.
Proof. solve_decision. Defined.

Definition LogicOp_Valid (op : LogicOp) : bool :=
  match op with LogicAll | LogicAny | LogicNot => true | LogicOther _ => false end.

Definition CompareOps : list CompareOp := [OpEq; OpNe; OpLt; OpLe; OpGt; OpGe].

Definition CompareOp_Valid (op : CompareOp) : bool := contains CompareOps op.

Definition CompareOp_Ordering (op : CompareOp) : bool :=
  bool_decide (op ≠ OpEq) && bool_decide (op ≠ OpNe).

(** A Go value held in an [any]: the shapes the policy type system uses, the
    narrower Go integers and the float32 a request may carry, nil, and any other
    Go type (named by its type). *)
Inductive value :=
  | VNil
  | VBool (b : bool)
  | VInt (n : Z)
  | VNarrowInt (n : Z)
  | VDouble (f : Float64.t)
  | VFloat32 (f : Float64.t)
  | VString (s : string)
  | VTime (t : Time.t)
  | VDuration (d : Time.duration)
  | VList (l : list value)
  | VOther (go_type : string).

Record Literal := mkLiteral { lit_Type : Typ; lit_Data : value }.

(** [Operand]; a [Reference] is an operand that is a field or a source. *)
Inductive Operand :=
  | OperandNil
  | FieldRef (role : Role) (attribute : string)
  | SourceRef (name : string) (args : list Operand)
  | Lit (l : Literal).

Inductive Node :=
  | NodeNil
  | Logic (op : LogicOp) (operands : list Node)
  | Compare (left : Operand) (op : CompareOp) (right : Operand)
  | Member (left : Operand) (collection : Operand) (negate : bool).

(** The Go type system admits only these (or nil) on the left of a row. *)
Definition is_Reference (o : Operand) : bool :=
  match o with FieldRef _ _ | SourceRef _ _ | OperandNil => true | Lit _ => false end.

(** Induction over conditions and operands through their lists. *)
Section induction.
Context (P : Node → Prop).
Context (Hnil : P NodeNil)
          (Hlogic : ∀ op ops, Forall P ops → P (Logic op ops))
          (Hcompare : ∀ l op r, P (Compare l op r))
          (Hmember : ∀ l c n, P (Member l c n)).

Fixpoint Node_nested_ind (n : Node) : P n :=
    match n with
    | NodeNil => Hnil
    | Logic op ops =>
        Hlogic op ops ((fix go l : Forall P l :=
          match l with
          | [] => List.Forall_nil P
          | x :: l => List.Forall_cons P x l (Node_nested_ind x) (go l)
          end) ops)
    | Compare l op r => Hcompare l op r
    | Member l c b => Hmember l c b
    end.
End induction.

Section operand_induction.
Context (P : Operand → Prop).
Context (Hnil : P OperandNil) (Hfield : ∀ r a, P (FieldRef r a))
          (Hsource : ∀ n args, Forall P args → P (SourceRef n args))
          (Hlit : ∀ l, P (Lit l)).

Fixpoint Operand_nested_ind (o : Operand) : P o :=
    match o with
    | OperandNil => Hnil
    | FieldRef r a => Hfield r a
    | SourceRef n args =>
        Hsource n args ((fix go l : Forall P l :=
          match l with
          | [] => List.Forall_nil P
          | x :: l => List.Forall_cons P x l (Operand_nested_ind x) (go l)
          end) args)
    | Lit l => Hlit l
    end.
End operand_induction.

Fixpoint Depth (n : Node) : nat :=
  match n with
  | NodeNil => 0
  | Logic _ ops => S (foldr Nat.max 0 (map Depth ops))
  | _ => 1
  end.

Fixpoint countOperand (o : Operand) : nat :=
  match o with
  | SourceRef _ args => S (sum_list (map countOperand args))
  | _ => 1
  end.

Fixpoint Count (n : Node) : nat :=
  match n with
  | NodeNil => 0
  | Logic _ ops => S (sum_list (map Count ops))
  | Compare l _ r => 1 + countOperand l + countOperand r
  | Member l c _ => 1 + countOperand l + countOperand c
  end.

(** ** Challenges and policies (schema.go) *)

Inductive ChallengeType :=
  | ChallengeQuorum | ChallengeMFA | ChallengeDelay | ChallengeExternal
  | ChallengeOther (s : string).

#[export] Instance ChallengeType_eq_dec : EqDecision ChallengeType.
Proof. solve_decision. Defined.

Definition ChallengeTypes : list ChallengeType :=
  [ChallengeQuorum; ChallengeMFA; ChallengeDelay; ChallengeExternal].

Definition ChallengeType_Valid (t : ChallengeType) : bool := contains ChallengeTypes t.

Inductive MFAMode := MFAUnset | MFADelegated | MFADirect | MFAOther (s : string).

#[export] Instance MFAMode_eq_dec : EqDecision MFAMode.
Proof. solve_decision. Defined.

Definition DefaultMFAMode : MFAMode := MFADelegated.

Definition MFAMode_Valid (m : MFAMode) : bool :=
  match m with MFADelegated | MFADirect => true | _ => false end.

(** The source form of an approver set is a [SourceRef]: a name and arguments. *)
Record ApproverSet := mkApproverSet {
  as_Members : list string;
  as_Claim : string;
  as_Source : option (string * list Operand) }.

Record Quorum := mkQuorum { q_Threshold : Z; q_Approvers : ApproverSet }.
Record MFA := mkMFA { mfa_Mode : MFAMode; mfa_ACRValues : list string }.
Record Delay := mkDelay { d_Duration : Time.duration; d_CancellableBy : option ApproverSet }.
Record External := mkExternal { e_Target : string }.

(** The closed [policy.Challenge] interface. *)
Inductive Challenge :=
  | CQuorum (q : Quorum)
  | CMFA (m : MFA)
  | CDelay (d : Delay)
  | CExternal (e : External).

Definition Challenge_ChallengeType (c : Challenge) : ChallengeType :=
  match c with
  | CQuorum _ => ChallengeQuorum | CMFA _ => ChallengeMFA
  | CDelay _ => ChallengeDelay | CExternal _ => ChallengeExternal
  end.

Record Policy := mkPolicy {
  p_ID : string;
  p_Description : string;
  p_Subject : string;
  p_Resource : string;
  p_Context : string;
  p_Actions : list string;
  p_Condition : Node;
  p_Challenges : list Challenge }.

Definition RequiresDecision (p : Policy) : bool := bool_decide (0 < length (p_Challenges p)).

(** The Go pair [(name, bound)]; an unbound role is [None]. *)
Definition EntityFor (p : Policy) (r : Role) : option string :=
  let bound s := if bool_decide (s = "") then None else Some s in
  match r with
  | RoleSubject => bound (p_Subject p)
  | RoleResource => bound (p_Resource p)
  | RoleContext => bound (p_Context p)
  | RoleOther _ => None
  end.

Record PolicySet := mkSet { set_Schema : Schema; set_Policies : list Policy }.

Definition Set_Policy (s : PolicySet) (id : string) : option Policy :=
  list_find (λ p, p_ID p = id) (set_Policies s) ≫= λ p, Some p.2.

(** ** Normalization *)

Fixpoint normalizeOperand (o : Operand) : Operand :=
  match o with
  | SourceRef n args => SourceRef n (map normalizeOperand args)
  | Lit l =>
      match IsList (lit_Type l), lit_Data l with
      | true, VNil => Lit (mkLiteral (lit_Type l) (VList []))
      | _, _ => Lit l
      end
  | OperandNil | FieldRef _ _ => o
  end.

(** A nil reference is left nil, and a normalized reference is a reference. *)
Definition normalizeReference (r : Operand) : Operand :=
  match r with OperandNil => OperandNil | _ => normalizeOperand r end.

Fixpoint normalizeNode (n : Node) : Node :=
  match n with
  | Logic op ops => Logic op (map normalizeNode ops)
  | Compare l op r => Compare (normalizeReference l) op (normalizeOperand r)
  | Member l c b => Member (normalizeReference l) (normalizeOperand c) b
  | NodeNil => NodeNil
  end.

Definition normalizeApproverSet (a : ApproverSet) : ApproverSet :=
  match as_Source a with
  | None => a
  | Some (n, args) => mkApproverSet (as_Members a) (as_Claim a) (Some (n, map normalizeOperand args))
  end.

Fixpoint index_of `{EqDecision A} (x : A) (l : list A) : nat :=
  match l with [] => 0 | y :: l => if bool_decide (x = y) then 0 else S (index_of x l) end.

Definition challengeRank (c : Challenge) : nat := index_of (Challenge_ChallengeType c) ChallengeTypes.

Definition normalizeChallenge (c : Challenge) : Challenge :=
  match c with
  | CMFA m =>
      CMFA (mkMFA (if bool_decide (mfa_Mode m = MFAUnset) then DefaultMFAMode else mfa_Mode m)
                  (mfa_ACRValues m))
  | CQuorum q => CQuorum (mkQuorum (q_Threshold q) (normalizeApproverSet (q_Approvers q)))
  | CDelay d => CDelay (mkDelay (d_Duration d) (normalizeApproverSet <$> d_CancellableBy d))
  | CExternal e => CExternal e
  end.

Definition normalizePolicy (p : Policy) : Policy :=
  mkPolicy (p_ID p) (p_Description p) (p_Subject p) (p_Resource p) (p_Context p)
    (sort_by (λ s, s) String.le (p_Actions p))
    (normalizeNode (p_Condition p))
    (sort_by challengeRank le (map normalizeChallenge (p_Challenges p))).

Definition normalizeSource (d : SourceDecl) : SourceDecl :=
  mkSourceDecl (src_Name d) (src_Kind d) (src_Params d) (src_Returns d)
    (if bool_decide (src_OnError d = OnErrorUnset) then DefaultOnError else src_OnError d).

Definition normalizeEntity (e : EntityType) : EntityType :=
  mkEntityType (ent_Name e) (sort_by attr_Name String.le (ent_Attributes e)).

Definition normalizeSchema (s : Schema) : Schema :=
  mkSchema
    (sort_by ent_Name String.le (map normalizeEntity (sch_Entities s)))
    (sort_by act_Name String.le (sch_Actions s))
    (sort_by src_Name String.le (map normalizeSource (sch_Sources s))).

Definition Normalize (s : PolicySet) : PolicySet :=
  mkSet (normalizeSchema (set_Schema s))
    (sort_by p_ID String.le (map normalizePolicy (set_Policies s))).

(** ** Names *)

Definition in_range (a : ascii) (lo hi : nat) : bool :=
  (lo <=? nat_of_ascii a)%nat && (nat_of_ascii a <=? hi)%nat.
Definition is_lower (a : ascii) : bool := in_range a 97 122.
Definition is_digit (a : ascii) : bool := in_range a 48 57.

(** [^[a-z][a-z0-9_]*$] *)
Definition ValidIdent (name : string) : bool :=
  match bytes name with
  | [] => false
  | a :: l => is_lower a && forallb (λ b, is_lower b || is_digit b || bool_decide (nat_of_ascii b = 95)) l
  end.

(** [^[a-z0-9][a-z0-9._-]*$] *)
Definition ValidName (name : string) : bool :=
  match bytes name with
  | [] => false
  | a :: l => (is_lower a || is_digit a) &&
      forallb (λ b, is_lower b || is_digit b || contains [46; 95; 45] (nat_of_ascii b)) l
  end.

(** ** Properties of the type system *)

Lemma bytes_app s t : bytes (s +:+ t) = bytes s ++ bytes t.
Proof. induction s as [|a s IH]; simpl; [done|]. by rewrite IH. Qed.

Lemma bytes_unbytes l : bytes (unbytes l) = l.
Proof. unfold bytes, unbytes. apply String.list_ascii_of_string_of_list_ascii. Qed.
Lemma unbytes_bytes s : unbytes (bytes s) = s.
Proof. apply String.string_of_list_ascii_of_string. Qed.

Lemma strip_prefix_app p s : strip_prefix p (p ++ s) = Some s.
Proof. by apply strip_prefix_Some. Qed.

Lemma IsList_iff t : IsList t = true ↔ ∃ l, bytes t = bytes "list<" ++ l ∧ ∃ l', bytes t = l' ++ bytes ">".
Proof.
  unfold IsList, HasPrefix, HasSuffix. rewrite andb_true_iff, !bool_decide_eq_true. split.
  - intros [[l Hl%strip_prefix_Some] [l' Hl'%strip_prefix_Some]]. exists l. split; [done|].
    exists (reverse l'). apply (f_equal reverse) in Hl'.
    by rewrite reverse_involutive, reverse_app, reverse_involutive in Hl'.
  - intros (l & Hl & l' & Hl'). split.
    + exists l. by apply strip_prefix_Some.
    + exists (reverse l'). apply strip_prefix_Some. by rewrite Hl', reverse_app.
Qed.

Lemma IsList_ListOf e : IsList (ListOf e) = true.
Proof.
  apply IsList_iff. unfold ListOf. exists (bytes (e +:+ ">")). split; [by rewrite bytes_app|].
  exists (bytes ("list<" +:+ e)). by rewrite !bytes_app, (assoc_L (++)).
Qed.

Lemma Elem_ListOf e : Elem (ListOf e) = e.
Proof.
  unfold Elem. rewrite IsList_ListOf. unfold TrimPrefix, TrimSuffix, ListOf.
  rewrite bytes_app, strip_prefix_app. unfold unbytes at 1, bytes at 1.
  unfold bytes in *. rewrite String.list_ascii_of_string_of_list_ascii.
  change (String.list_ascii_of_string (e +:+ ">")) with (bytes (e +:+ ">")).
  rewrite bytes_app, reverse_app. unfold bytes at 1 2. rewrite strip_prefix_app.
  rewrite reverse_involutive. apply unbytes_bytes.
Qed.

Lemma ListOf_inj e1 e2 : ListOf e1 = ListOf e2 → e1 = e2.
Proof. intros H%(f_equal Elem). by rewrite !Elem_ListOf in H. Qed.

Lemma IsList_inv t : IsList t = true → ∃ e, t = ListOf e.
Proof.
  intros (l & Hl & l' & Hl')%IsList_iff. rewrite Hl in Hl'.
  destruct l as [|a l] using rev_ind.
  { simpl in Hl'. destruct l' as [|? [|? [|? [|? [|? l']]]]]; simpl in Hl'; simplify_eq. 
    by destruct l'. }
  rewrite (assoc_L (++)) in Hl'. apply app_inj_2 in Hl' as [_ [= ->]]; [|done].
  exists (unbytes l). rewrite <-(unbytes_bytes t), <-(unbytes_bytes (ListOf _)). f_equal.
  unfold ListOf. rewrite Hl, !bytes_app. unfold bytes at 2, unbytes.
  by rewrite String.list_ascii_of_string_of_list_ascii.
Qed.

Lemma IsScalar_iff t : IsScalar t = true ↔ t ∈ ScalarTypes.
Proof. unfold IsScalar. rewrite existsb_true. setoid_rewrite bool_decide_eq_true. naive_solver. Qed.

Lemma scalar_not_list t : t ∈ ScalarTypes → IsList t = false.
Proof.
  intros H. unfold ScalarTypes in H.
  repeat (apply elem_of_cons in H as [->|H]; [vm_compute; reflexivity|]). set_solver.
Qed.

(** The type system is exactly six scalars and homogeneous lists of them: a
    type is valid if and only if it is a scalar or the list of a scalar, so a
    list of lists never validates. *)
Theorem Type_Valid_iff t :
  Type_Valid t = true ↔ t ∈ ScalarTypes ∨ ∃ e, e ∈ ScalarTypes ∧ t = ListOf e.
Proof.
  unfold Type_Valid. destruct (IsList t) eqn:El.
  - apply IsList_inv in El as [e ->]. rewrite Elem_ListOf, IsScalar_iff. split; [eauto|].
    intros [H%scalar_not_list|(e' & He' & ->%ListOf_inj)]; [|done].
    by rewrite IsList_ListOf in H.
  - rewrite IsScalar_iff. split; [eauto|]. intros [?|(e & _ & ->)]; [done|].
    by rewrite IsList_ListOf in El.
Qed.

(** ** Properties of normalization *)

Lemma map_ext_Forall {A B} (f g : A → B) l : Forall (λ x, f x = g x) l → map f l = map g l.
Proof. induction 1; simpl; congruence. Qed.

Lemma map_fixed {A} (f : A → A) l : (∀ x, x ∈ l → f x = x) → map f l = l.
Proof.
  induction l as [|x l IH]; simpl; intros H; [done|].
  rewrite (H x), IH; [done| |]; set_solver.
Qed.

Lemma normalizeOperand_idemp o : normalizeOperand (normalizeOperand o) = normalizeOperand o.
Proof.
  induction o as [| |n args IH|l] using Operand_nested_ind; simpl; try done.
  - f_equal. rewrite map_map. by apply map_ext_Forall.
  - destruct l as [t d]. simpl. destruct (IsList t) eqn:E, d; simpl; by rewrite ?E.
Qed.

Lemma normalizeReference_eq r : normalizeReference r = normalizeOperand r.
Proof. by destruct r. Qed.

Lemma normalizeNode_idemp n : normalizeNode (normalizeNode n) = normalizeNode n.
Proof.
  induction n as [|op ops IH| |] using Node_nested_ind; simpl; try done.
  - f_equal. rewrite map_map. by apply map_ext_Forall.
  - by rewrite !normalizeReference_eq, !normalizeOperand_idemp.
  - by rewrite !normalizeReference_eq, !normalizeOperand_idemp.
Qed.

Lemma normalizeApproverSet_idemp a : normalizeApproverSet (normalizeApproverSet a) = normalizeApproverSet a.
Proof.
  unfold normalizeApproverSet. destruct a as [m c [[n args]|]]; simpl; [|done].
  do 3 f_equal. rewrite map_map. apply map_ext_Forall, Forall_forall.
  intros o _. apply normalizeOperand_idemp.
Qed.

Lemma normalizeChallenge_idemp c : normalizeChallenge (normalizeChallenge c) = normalizeChallenge c.
Proof.
  destruct c as [q|m|d|e]; simpl.
  - by rewrite normalizeApproverSet_idemp.
  - do 2 f_equal. repeat case_bool_decide; done.
  - do 2 f_equal. destruct (d_CancellableBy d); simpl; [|done]. by rewrite normalizeApproverSet_idemp.
  - done.
Qed.

Lemma normalizeChallenge_type c : Challenge_ChallengeType (normalizeChallenge c) = Challenge_ChallengeType c.
Proof. by destruct c. Qed.

Lemma sort_map_idemp {A K} (key : A → K) (R : relation K) `{!RelDecision R, !Total R, !Transitive R}
    (f : A → A) l :
  (∀ x, f (f x) = f x) →
  sort_by key R (map f (sort_by key R (map f l))) = sort_by key R (map f l).
Proof.
  intros Hf. rewrite map_fixed; [by apply sort_by_idemp|].
  intros x. rewrite elem_of_sort_by, elem_of_map. intros (y & -> & _). apply Hf.
Qed.

#[export] Instance nat_le_total : Total le.
Proof. intros x y. lia. Qed.

Lemma normalizePolicy_idemp p : normalizePolicy (normalizePolicy p) = normalizePolicy p.
Proof.
  unfold normalizePolicy. simpl. f_equal.
  - apply sort_by_idemp; apply _.
  - apply normalizeNode_idemp.
  - apply (sort_map_idemp challengeRank le normalizeChallenge). apply normalizeChallenge_idemp.
Qed.

Lemma normalizeSchema_idemp s : normalizeSchema (normalizeSchema s) = normalizeSchema s.
Proof.
  unfold normalizeSchema. simpl. f_equal.
  - apply (sort_map_idemp ent_Name String.le normalizeEntity). intros e. unfold normalizeEntity. simpl.
    f_equal. apply sort_by_idemp; apply _.
  - apply sort_by_idemp; apply _.
  - apply (sort_map_idemp src_Name String.le normalizeSource). intros d. unfold normalizeSource. simpl.
    f_equal. repeat case_bool_decide; done.
Qed.

(** Normalization is a projection onto a canonical form: normalizing a
    normalized set changes nothing, which is what makes export followed by apply
    a no-op. *)
Theorem Normalize_idempotent s : Normalize (Normalize s) = Normalize s.
Proof.
  unfold Normalize. simpl. rewrite normalizeSchema_idemp. f_equal.
  apply (sort_map_idemp p_ID String.le normalizePolicy). apply normalizePolicy_idemp.
Qed.

Lemma map_Permutation_proper {A B} (f : A → B) l1 l2 : l1 ≡ₚ l2 → map f l1 ≡ₚ map f l2.
Proof. apply Permutation_map. Qed.

(** How the documents of a set are distributed and ordered does not matter:
    two policy lists that are permutations of each other, with one policy per
    identifier, normalize to the same list. *)
Theorem Normalize_order_irrelevant sch ps1 ps2 :
  NoDup (map p_ID ps1) → ps1 ≡ₚ ps2 → Normalize (mkSet sch ps1) = Normalize (mkSet sch ps2).
Proof.
  intros Hnd Hp. unfold Normalize. simpl. f_equal.
  apply (sort_by_unique p_ID String.le); [|by apply map_Permutation_proper].
  change (NoDup (map p_ID (map normalizePolicy ps1))). by rewrite map_map.
Qed.

(** Normalizing keeps the challenges of each kind, in their written order. *)
Lemma normalizePolicy_challenges_of_kind p k :
  filter (λ c, Challenge_ChallengeType c = k) (p_Challenges (normalizePolicy p)) =
  map normalizeChallenge (filter (λ c, Challenge_ChallengeType c = k) (p_Challenges p)).
Proof.
  simpl. generalize (p_Challenges p). intros l.
  assert (∀ l, filter (λ c, Challenge_ChallengeType c = k) l =
               if bool_decide (k ∈ ChallengeTypes)
               then filter (λ c, challengeRank c = index_of k ChallengeTypes) l else []) as Hk.
  { intros l'. destruct (bool_decide (k ∈ ChallengeTypes)) eqn:Ek.
    - apply list_filter_iff. intros c. unfold challengeRank.
      apply bool_decide_eq_true in Ek. unfold ChallengeTypes in *.
      repeat (apply elem_of_cons in Ek as [->|Ek];
              [destruct c; simpl; split; intros; first [done | congruence | lia]|]). set_solver.
    - apply bool_decide_eq_false in Ek. induction l' as [|c l' IH]; [done|].
      rewrite filter_cons, decide_False; [done|]. intros <-. apply Ek. destruct c; set_solver. }
  transitivity (filter (λ c, Challenge_ChallengeType c = k) (map normalizeChallenge l)).
  - rewrite (Hk (sort_by _ _ _)), (Hk (map _ _)). destruct (bool_decide _); [|done]. apply (sort_by_filter challengeRank le).
  - induction l as [|c l IH]; [done|]. simpl. rewrite !filter_cons, normalizeChallenge_type.
    destruct (decide _); simpl; by rewrite IH.
Qed.

Lemma normalizePolicy_requires p : RequiresDecision (normalizePolicy p) = RequiresDecision p.
Proof.
  unfold RequiresDecision. simpl. by rewrite length_sort_by, length_map.
Qed.
