(* ===== verification/Cel.v ===== *)
(** * Compiling a condition to CEL

    Models the second half of internal/policy/validate.go: [CELEnv], [celType],
    [Compile] and the [celBuilder].  cel-go itself is not part of the repository:
    its checker and its interpreter are the methods of the class [CEL], and the
    laws of the class are the parts of the CEL language definition the program
    relies on.  Expression identifiers, which only label nodes in diagnostics,
    are not kept. *)
From stdpp Require Import pretty.
From S2P Require Import Prelude GoLib Policy.

(** ** Expressions and types *)

Inductive cconst := KBool (b : bool) | KInt (n : Z) | KDouble (f : Float64.t) | KString (s : string).

Inductive cexpr :=
  | EConst (c : cconst)
  | EIdent (name : string)
  | ESelect (e : cexpr) (field : string)
  | ECall (fn : string) (args : list cexpr)
  | EList (elems : list cexpr).

Inductive ctype :=
  | CTBool | CTInt | CTDouble | CTString | CTTimestamp | CTDuration
  | CTList (t : ctype).

#[export] Instance ctype_eq_dec : EqDecision ctype.
Proof. solve_decision. Defined.

(** What an environment declares: qualified variables and source functions. *)
Inductive celdecl :=
  | DVariable (name : string) (t : ctype)
  | DFunction (name overload : string) (params : list ctype) (ret : ctype).

(** ** The builder *)

Definition CELSourceFunction (name : string) : string := "stamp.source." +:+ name.
Definition celSourceOverload (name : string) : string := "stamp_source_" +:+ name.

(** [t.Elem()] is shorter than a list type [t], so the length is enough fuel. *)
Fixpoint celType_fuel (fuel : nat) (t : Typ) : result ctype :=
  match fuel with
  | O => Err []
  | S n =>
      if IsList t then let? e := celType_fuel n (Elem t) in Ok (CTList e)
      else if bool_decide (t = TypeBool) then Ok CTBool
      else if bool_decide (t = TypeInt) then Ok CTInt
      else if bool_decide (t = TypeDouble) then Ok CTDouble
      else if bool_decide (t = TypeString) then Ok CTString
      else if bool_decide (t = TypeTimestamp) then Ok CTTimestamp
      else if bool_decide (t = TypeDuration) then Ok CTDuration
      else Err []
  end.

Definition celType (t : Typ) : result ctype := celType_fuel (S (String.length t)) t.

Definition celCompareFunction (op : CompareOp) : result string :=
  match op with
  | OpEq => Ok "_==_" | OpNe => Ok "_!=_" | OpLt => Ok "_<_"
  | OpLe => Ok "_<=_" | OpGt => Ok "_>_" | OpGe => Ok "_>=_"
  | OpOther _ => Err []
  end.

(** The items of a list literal recurse at the element type, which is shorter. *)
Fixpoint literal_fuel (fuel : nat) (t : Typ) (d : value) : result cexpr :=
  match fuel with
  | O => Err []
  | S n =>
      if IsList t then
        match d with
        | VList items => let? es := res_map (literal_fuel n (Elem t)) items in Ok (EList es)
        | _ => Err []
        end
      else if bool_decide (t = TypeBool) then
        match d with VBool b => Ok (EConst (KBool b)) | _ => Err [] end
      else if bool_decide (t = TypeInt) then
        match d with VInt z => Ok (EConst (KInt z)) | _ => Err [] end
      else if bool_decide (t = TypeDouble) then
        match d with VDouble f => Ok (EConst (KDouble f)) | _ => Err [] end
      else if bool_decide (t = TypeString) then
        match d with VString s => Ok (EConst (KString s)) | _ => Err [] end
      else if bool_decide (t = TypeTimestamp) then
        match d with
        | VTime x => Ok (ECall "timestamp" [EConst (KString (Time.Format_RFC3339Nano x))])
        | _ => Err []
        end
      else if bool_decide (t = TypeDuration) then
        match d with
        | VDuration x => Ok (ECall "duration" [EConst (KString (Time.Duration_String x))])
        | _ => Err []
        end
      else Err []
  end.

Definition build_literal (l : Literal) : result cexpr :=
  literal_fuel (S (String.length (lit_Type l))) (lit_Type l) (lit_Data l).

Fixpoint build_operand (o : Operand) : result cexpr :=
  match o with
  | FieldRef r a => Ok (ESelect (EIdent (Role_string r)) a)
  | SourceRef n args =>
      let? es := res_map build_operand args in
      Ok (ECall (CELSourceFunction n) es)
  | Lit l => build_literal l
  | OperandNil => Err []
  end.

(** [fold]: a balanced tree of binary calls.  Both halves are shorter than a
    list of two or more, so the length is enough fuel. *)
Fixpoint build_fold (fuel : nat) (operands : list cexpr) (fn : string) : cexpr :=
  match fuel, operands with
  | _, [e] => e
  | O, _ => ECall fn operands
  | S n, _ =>
      let mid := Nat.div2 (length operands) in
      ECall fn [build_fold n (take mid operands) fn; build_fold n (drop mid operands) fn]
  end.

Definition fold (operands : list cexpr) (fn : string) : cexpr :=
  build_fold (length operands) operands fn.

(** [logic], once the operands are built. *)
Definition build_logic (op : LogicOp) (operands : list cexpr) : result cexpr :=
  match op with
  | LogicNot => match operands with [e] => Ok (ECall "!_" [e]) | _ => Err [] end
  | LogicAll => Ok (fold operands "_&&_")
  | LogicAny => Ok (fold operands "_||_")
  | LogicOther _ => Err []
  end.

Fixpoint build_node (n : Node) : result cexpr :=
  match n with
  | Logic op ops =>
      match ops with
      | [] => Err []
      | _ =>
          let? es := res_map build_node ops in
          build_logic op es
      end
  | Compare l op r =>
      let? el := build_operand l in
      let? er := build_operand r in
      let? fn := celCompareFunction op in
      Ok (ECall fn [el; er])
  | Member l c neg =>
      let? el := build_operand l in
      let? ec := build_operand c in
      let e := ECall "@in" [el; ec] in
      Ok (if neg then ECall "!_" [e] else e)
  | NodeNil => Err []
  end.

(** ** Values of an evaluation *)

Inductive celres := RVal (v : value) | RErr (e : error).

(** A three-valued truth: an error or a non-boolean is neither true nor false. *)
Definition truth (r : celres) : option bool :=
  match r with RVal (VBool b) => Some b | _ => None end.

Definition and3 (a b : option bool) : option bool :=
  match a, b with
  | Some false, _ | _, Some false => Some false
  | Some true, Some true => Some true
  | _, _ => None
  end.
Definition or3 (a b : option bool) : option bool :=
  match a, b with
  | Some true, _ | _, Some true => Some true
  | Some false, Some false => Some false
  | _, _ => None
  end.
Definition not3 (a : option bool) : option bool := negb <$> a.

(** How the ordering operators read two integers and two doubles. *)
Definition int_op (op : CompareOp) (x y : Z) : option bool :=
  match op with
  | OpEq => Some (x =? y)%Z | OpNe => Some (negb (x =? y))%Z
  | OpLt => Some (x <? y)%Z | OpLe => Some (x <=? y)%Z
  | OpGt => Some (y <? x)%Z | OpGe => Some (y <=? x)%Z
  | OpOther _ => None
  end.
Definition double_op (op : CompareOp) (x y : Float64.t) : option bool :=
  match op with
  | OpEq => Some (Float64.eqb x y) | OpNe => Some (negb (Float64.eqb x y))
  | OpLt => Some (Float64.ltb x y) | OpLe => Some (Float64.leb x y)
  | OpGt => Some (Float64.ltb y x) | OpGe => Some (Float64.leb y x)
  | OpOther _ => None
  end.

(** ** The external library

    [cel_eval src vars e] runs a checked expression: [vars] is the activation and
    [src] is what the program's decorator answers for a source function. *)
Class CEL := {
  cel_check : list celdecl → cexpr → result ctype;
  cel_eval : (string → list value → celres) → gmap string value → cexpr → celres;

  (** Constants denote themselves. *)
  cel_const_int : ∀ src vars n, cel_eval src vars (EConst (KInt n)) = RVal (VInt n);
  cel_const_double : ∀ src vars f, cel_eval src vars (EConst (KDouble f)) = RVal (VDouble f);
  cel_const_bool : ∀ src vars b, cel_eval src vars (EConst (KBool b)) = RVal (VBool b);

  (** Logical operators absorb errors: [false && error] is false,
      [true || error] is true, in either order. *)
  cel_and : ∀ src vars a b,
    truth (cel_eval src vars (ECall "_&&_" [a; b])) =
    and3 (truth (cel_eval src vars a)) (truth (cel_eval src vars b));
  cel_or : ∀ src vars a b,
    truth (cel_eval src vars (ECall "_||_" [a; b])) =
    or3 (truth (cel_eval src vars a)) (truth (cel_eval src vars b));
  cel_not : ∀ src vars a,
    truth (cel_eval src vars (ECall "!_" [a])) = not3 (truth (cel_eval src vars a));

  (** Relations are strict in errors and read numbers as numbers. *)
  cel_rel_error : ∀ src vars op fn a b,
    celCompareFunction op = Ok fn →
    truth (cel_eval src vars (ECall fn [a; b])) ≠ None →
    (∃ v, cel_eval src vars a = RVal v) ∧ (∃ w, cel_eval src vars b = RVal w);
  cel_rel_int : ∀ src vars op fn a b x y,
    celCompareFunction op = Ok fn →
    cel_eval src vars a = RVal (VInt x) → cel_eval src vars b = RVal (VInt y) →
    truth (cel_eval src vars (ECall fn [a; b])) = int_op op x y;
  cel_rel_double : ∀ src vars op fn a b x y,
    celCompareFunction op = Ok fn →
    cel_eval src vars a = RVal (VDouble x) → cel_eval src vars b = RVal (VDouble y) →
    truth (cel_eval src vars (ECall fn [a; b])) = double_op op x y;
}.

(** ** Compile *)

Fixpoint res_concat {A} (l : list (result (list A))) : result (list A) :=
  match l with
  | [] => Ok []
  | r :: l => let? x := r in let? y := res_concat l in Ok (x ++ y)
  end.

Definition env_variables (s : Schema) (p : Policy) (r : Role) : result (list celdecl) :=
  match EntityFor p r with
  | None => Ok []
  | Some name =>
      match Schema_Entity s name with
      | None => Err []
      | Some e =>
          res_map (λ a, let? t := celType (attr_Type a) in
                        Ok (DVariable (Role_string r +:+ "." +:+ attr_Name a) t))
                  (ent_Attributes e)
      end
  end.

Definition env_source (d : SourceDecl) : result celdecl :=
  let? ps := res_map (λ p, celType (par_Type p)) (src_Params d) in
  let? ret := celType (src_Returns d) in
  Ok (DFunction (CELSourceFunction (src_Name d)) (celSourceOverload (src_Name d)) ps ret).

Definition CELEnv (s : Schema) (p : Policy) : result (list celdecl) :=
  let? vars := res_concat (map (env_variables s p) Roles) in
  let? fns := res_map env_source (sch_Sources s) in
  Ok (vars ++ fns).

(** The condition as an expression; no condition compiles to the constant true. *)
Definition condition_expr (n : Node) : result cexpr :=
  match n with NodeNil => Ok (EConst (KBool true)) | _ => build_node n end.

Definition Compile `{CEL} (s : Schema) (p : Policy) : result (list celdecl * cexpr) :=
  let? env := CELEnv s p in
  let? e := condition_expr (p_Condition p) in
  let? t := cel_check env e in
  if bool_decide (t = CTBool) then Ok (env, e) else Err [].

(** ** The reference meaning of a condition *)

Definition all3 (l : list (option bool)) : option bool := foldr and3 (Some true) l.
Definition any3 (l : list (option bool)) : option bool := foldr or3 (Some false) l.

Lemma and3_assoc a b c : and3 a (and3 b c) = and3 (and3 a b) c.
Proof. by destruct a as [[]|], b as [[]|], c as [[]|]. Qed.
Lemma or3_assoc a b c : or3 a (or3 b c) = or3 (or3 a b) c.
Proof. by destruct a as [[]|], b as [[]|], c as [[]|]. Qed.
Lemma and3_true_l a : and3 (Some true) a = a.
Proof. by destruct a as [[]|]. Qed.
Lemma or3_false_l a : or3 (Some false) a = a.
Proof. by destruct a as [[]|]. Qed.

Lemma all3_app l1 l2 : all3 (l1 ++ l2) = and3 (all3 l1) (all3 l2).
Proof.
  unfold all3. induction l1 as [|a l1 IH]; simpl; [symmetry; apply and3_true_l|].
  by rewrite IH, and3_assoc.
Qed.
Lemma any3_app l1 l2 : any3 (l1 ++ l2) = or3 (any3 l1) (any3 l2).
Proof.
  unfold any3. induction l1 as [|a l1 IH]; simpl; [symmetry; apply or3_false_l|].
  by rewrite IH, or3_assoc.
Qed.

Lemma all3_true l : all3 l = Some true ↔ Forall (λ a, a = Some true) l.
Proof.
  induction l as [|a l IH]; simpl; [naive_solver|].
  rewrite Forall_cons, <-IH. unfold all3. destruct a as [[]|], (foldr _ _ l) as [[]|]; naive_solver.
Qed.
Lemma any3_true l : any3 l = Some true ↔ Exists (λ a, a = Some true) l.
Proof.
  induction l as [|a l IH]; simpl; [split; [done|]; by inversion 1|].
  rewrite Exists_cons, <-IH. unfold any3. destruct a as [[]|], (foldr _ _ l) as [[]|]; naive_solver.
Qed.

Section semantics.
Context `{CEL} (src : string → list value → celres) (vars : gmap string value).

Definition ev (e : cexpr) : option bool := truth (cel_eval src vars e).

  (** A row is what the library says of its compiled form. *)
Definition denote_row (n : Node) : option bool :=
    match build_node n with Ok e => ev e | Err _ => None end.

Fixpoint denote (n : Node) : option bool :=
    match n with
    | Logic LogicAll ops => all3 (map denote ops)
    | Logic LogicAny ops => any3 (map denote ops)
    | Logic LogicNot [x] => not3 (denote x)
    | Logic _ _ => None
    | _ => denote_row n
    end.

  (** A policy's condition: no condition always holds. *)
Definition holds (n : Node) : Prop :=
    match n with NodeNil => True | _ => denote n = Some true end.

Lemma ev_build_fold fn op unit fuel es :
    (∀ a b, ev (ECall fn [a; b]) = op (ev a) (ev b)) →
    (∀ a b c, op a (op b c) = op (op a b) c) → (∀ a, op a unit = a) → (∀ a, op unit a = a) →
    es ≠ [] → length es ≤ fuel →
    ev (build_fold fuel es fn) = foldr op unit (map ev es).
  Proof.
    intros Hcall Hassoc Hru Hlu. revert es. induction fuel as [|n IH]; intros es Hne Hlen.
    { destruct es; [done|]. simpl in Hlen. lia. }
    destruct es as [|e [|e' es]]; [done|by simpl; rewrite Hru|].
    set (l := e :: e' :: es) in *. change (build_fold (S n) l fn) with
      (ECall fn [build_fold n (take (Nat.div2 (length l)) l) fn;
                 build_fold n (drop (Nat.div2 (length l)) l) fn]).
    assert (Nat.div2 (length l) < length l) by (apply Nat.lt_div2; subst l; simpl; lia).
    assert (0 < Nat.div2 (length l)) by apply Nat.lt_0_succ. clearbody l.
    rewrite Hcall, !IH.
    - rewrite <-(take_drop (Nat.div2 (length l)) l) at 5. rewrite map_app, foldr_app.
      generalize (map ev (take (Nat.div2 (length l)) l)). intros l1.
      generalize (foldr op unit (map ev (drop (Nat.div2 (length l)) l))). intros r.
      induction l1 as [|a l1 IHl]; simpl; [by rewrite Hlu|]. by rewrite <-IHl, Hassoc.
    - intros Hd%(f_equal length). rewrite length_drop in Hd. simpl in Hd. lia.
    - rewrite length_drop. lia.
    - intros Hd%(f_equal length). rewrite length_take in Hd. simpl in Hd. lia.
    - rewrite length_take. lia.
  Qed.

Lemma ev_fold_and es : es ≠ [] → ev (fold es "_&&_") = all3 (map ev es).
  Proof.
    intros. apply ev_build_fold; try done; [apply cel_and|apply and3_assoc|by intros [[]|]|apply and3_true_l].
  Qed.
Lemma ev_fold_or es : es ≠ [] → ev (fold es "_||_") = any3 (map ev es).
  Proof.
    intros. apply ev_build_fold; try done; [apply cel_or|apply or3_assoc|by intros [[]|]|apply or3_false_l].
  Qed.

Lemma build_node_denote n e : build_node n = Ok e → ev e = denote n.
  Proof.
    revert e. induction n as [|op ops IH| |] using Node_nested_ind; intros e Hb; [done| | |].
    2-3: unfold denote, denote_row; by rewrite Hb.
    destruct ops as [|x ops]; [done|].
    change (res_bind (res_map build_node (x :: ops)) (build_logic op) = Ok e) in Hb.
    apply res_bind_Ok in Hb as (es & Hes%res_map_Ok & Hb).
    assert (map ev es = map denote (x :: ops)) as Hmap.
    { clear Hb. induction Hes as [|y e' ys es' Hy _ IHes]; [done|].
      inversion IH; subst. simpl. f_equal; [by auto|]. by apply IHes. }
    assert (es ≠ []) by (inversion Hes; done).
    destruct op; simpl in Hb.
    - injection Hb as <-. rewrite ev_fold_and by done. by rewrite Hmap.
    - injection Hb as <-. rewrite ev_fold_or by done. by rewrite Hmap.
    - destruct es as [|e1 [|]]; try done. injection Hb as <-.
      destruct ops; [|done]. simpl in Hmap. injection Hmap as Hmap.
      unfold ev. rewrite cel_not. fold (ev e1). by rewrite Hmap.
    - done.
  Qed.
End semantics.

Lemma truth_condition `{CEL} src vars n e :
  condition_expr n = Ok e →
  truth (cel_eval src vars e) = match n with NodeNil => Some true | _ => denote src vars n end.
Proof.
  intros Hb. destruct n; simpl in Hb; try (by apply build_node_denote).
  injection Hb as <-. by rewrite cel_const_bool.
Qed.

(** The compiled form of a condition means the condition: wide conjunctions
    and disjunctions, which the builder folds into balanced binary trees, evaluate
    to the n-ary three-valued conjunction and disjunction of their operands, and a
    missing condition to true. *)
Theorem condition_expr_correct `{CEL} src vars n e :
  condition_expr n = Ok e →
  truth (cel_eval src vars e) = match n with NodeNil => Some true | _ => denote src vars n end.
Proof. apply truth_condition. Qed.
