(* ===== verification/Engine.v ===== *)
(** * The evaluator: compile cache, snapshots, the check path and the decide path

    Models internal/engine: invariant.go (classification and results), cache.go,
    compile.go (bindings, source calls, programs), eval.go (snapshots and the two
    evaluators) and check.go (the refreshing check service).

    The cel-go library is the class [CEL] of Cel.v; the fact plane an evaluator
    resolves sources through is an argument. *)
From stdpp Require Import pretty.
From S2P Require Import Prelude GoLib Policy Cel.

(** ** Outcomes (invariant.go) *)

Inductive EDecision := Deny | Allow | Challenged.

#[export] Instance EDecision_eq_dec : EqDecision EDecision.
Proof. solve_decision. Defined.

(** [engine.Reason]; the decision package adds to the set. *)
Inductive Reason :=
  | ReasonNone
  | ReasonNoMatchingPolicy | ReasonRequiresDecision | ReasonConditionNotMet
  | ReasonPolicyMatched | ReasonChallengeRequired
  | ReasonPolicySetStale | ReasonAuditUnavailable | ReasonEvaluationFailed
  | ReasonOutstandingCap | ReasonRateLimited | ReasonChallengeSatisfied
  | ReasonChallengeFailed | ReasonChallengeRateLimited | ReasonExpired
  | ReasonRevisionUnmet.

#[export] Instance Reason_eq_dec : EqDecision Reason.
Proof. solve_decision. Defined.

(** The closed [Candidate] interface.  A nil policy classifies as gated. *)
Inductive Candidate :=
  | Checkable (p : Policy)
  | Gated (p : option Policy).

Definition Classify (p : option Policy) : Candidate :=
  match p with
  | None => Gated None
  | Some q => if RequiresDecision q then Gated (Some q) else Checkable q
  end.

Definition Candidate_Policy (c : Candidate) : option Policy :=
  match c with Checkable p => Some p | Gated p => p end.

Definition Gated_Challenges (p : option Policy) : list Challenge :=
  match p with None => [] | Some q => p_Challenges q end.

Record CheckResult := mkCheckResult {
  cr_decision : EDecision; cr_reason : Reason; cr_policyID : string }.

Definition allowCheck (p : Policy) : CheckResult := mkCheckResult Allow ReasonPolicyMatched (p_ID p).
Definition checkRequiresDecision (p : option Policy) : CheckResult :=
  mkCheckResult Deny ReasonRequiresDecision (match p with Some q => p_ID q | None => "" end).
Definition checkNoMatchingPolicy : CheckResult := mkCheckResult Deny ReasonNoMatchingPolicy "".
Definition checkConditionNotMet : CheckResult := mkCheckResult Deny ReasonConditionNotMet "".
Definition DenyResult (r : Reason) : CheckResult := mkCheckResult Deny r "".

(** ** Requests (eval.go) *)

Record Entity := mkEntity {
  en_Type : string; en_ID : string; en_Attributes : gmap string value }.

Record Input := mkInput {
  in_Action : string; in_Subject : Entity; in_Resource : Entity; in_Context : Entity }.

Definition no_entity : Entity := mkEntity "" "" ∅.

Definition Input_entity (i : Input) (r : Role) : Entity :=
  match r with
  | RoleSubject => in_Subject i | RoleResource => in_Resource i | RoleContext => in_Context i
  | RoleOther _ => no_entity
  end.

(** ** Values, calls and facts (compile.go) *)

Fixpoint coerce_fuel (fuel : nat) (t : Typ) (v : value) : result value :=
  match fuel with
  | O => Err []
  | S n =>
      if IsList t then
        match v with
        | VList l => let? vs := res_map (coerce_fuel n (Elem t)) l in Ok (VList vs)
        | _ => Err []
        end
      else if bool_decide (t = TypeBool) then match v with VBool b => Ok (VBool b) | _ => Err [] end
      else if bool_decide (t = TypeInt) then
        match v with VInt z | VNarrowInt z => Ok (VInt z) | _ => Err [] end
      else if bool_decide (t = TypeDouble) then
        match v with VDouble f | VFloat32 f => Ok (VDouble f) | _ => Err [] end
      else if bool_decide (t = TypeString) then match v with VString s => Ok (VString s) | _ => Err [] end
      else if bool_decide (t = TypeTimestamp) then match v with VTime x => Ok (VTime x) | _ => Err [] end
      else if bool_decide (t = TypeDuration) then match v with VDuration d => Ok (VDuration d) | _ => Err [] end
      else Err []
  end.

(** [coerce] and [coerceList]: the element type of a list type is shorter. *)
Definition coerce (t : Typ) (v : value) : result value := coerce_fuel (S (String.length t)) t v.

(** Two values with one [canonical] rendering, which tags each value by its type. *)
Fixpoint value_eqb (v w : value) {struct v} : bool :=
  match v, w with
  | VNil, VNil => true
  | VBool a, VBool b => bool_decide (a = b)
  | VInt a, VInt b => (a =? b)%Z
  | VNarrowInt a, VNarrowInt b => (a =? b)%Z
  | VDouble a, VDouble b => Float64.same a b
  | VFloat32 a, VFloat32 b => Float64.same a b
  | VString a, VString b => bool_decide (a = b)
  | VTime a, VTime b => (a =? b)%Z
  | VDuration a, VDuration b => (a =? b)%Z
  | VList a, VList b =>
      (fix go l m := match l, m with
        | [], [] => true
        | x :: l, y :: m => value_eqb x y && go l m
        | _, _ => false
        end) a b
  | VOther a, VOther b => bool_decide (a = b)
  | _, _ => false
  end.

(** One invocation of a source.  [SourceCall.key] renders the name and the
    type-tagged arguments into a string that is unique per call; the call itself
    is that identity here. *)
Record SourceCall := mkCall { call_Name : string; call_Args : list value }.

Definition same_call (a b : SourceCall) : bool :=
  bool_decide (call_Name a = call_Name b) &&
  value_eqb (VList (call_Args a)) (VList (call_Args b)).

Definition Facts := list (SourceCall * value).

Definition Facts_Set (f : Facts) (c : SourceCall) (v : value) : Facts := (c, v) :: f.

Fixpoint Facts_Value (f : Facts) (c : SourceCall) : option value :=
  match f with
  | [] => None
  | (c', v) :: f => if same_call c' c then Some v else Facts_Value f c
  end.

(** The fact plane: one batch of calls answered ahead of evaluation. *)
Definition SourceResolver := list SourceCall → result Facts.

Fixpoint collectOperand (o : Operand) : list (string * list Operand) :=
  match o with
  | SourceRef n args => (n, args) :: concat (map collectOperand args)
  | _ => []
  end.

Fixpoint collectSources (n : Node) : list (string * list Operand) :=
  match n with
  | Logic _ ops => concat (map collectSources ops)
  | Compare l _ r => collectOperand l ++ collectOperand r
  | Member l c _ => collectOperand l ++ collectOperand c
  | NodeNil => []
  end.

Definition Binding := gmap string value.

Definition operandValue (b : Binding) (o : Operand) : result value :=
  match o with
  | Lit l => coerce (lit_Type l) (lit_Data l)
  | FieldRef r a =>
      match b !! (Role_string r +:+ "." +:+ a) with Some v => Ok v | None => Err [] end
  | _ => Err []
  end.

(** Undeclared attributes are an error; a value of the wrong type is one too. *)
Definition bind_entity (s : Schema) (r : Role) (e : Entity) (acc : Binding) : result Binding :=
  if bool_decide (en_Type e = "") then Ok acc
  else match Schema_Entity s (en_Type e) with
  | None => Err []
  | Some declared =>
      let attrs := map_to_list (en_Attributes e) in
      let? vars := res_map (λ '(name, raw),
          match EntityType_Attribute declared name with
          | None => Ok None
          | Some a => let? v := coerce (attr_Type a) raw in Ok (Some (Role_string r +:+ "." +:+ name, v))
          end) attrs in
      if forallb (λ '(name, _), bool_decide (is_Some (EntityType_Attribute declared name))) attrs
      then Ok (foldr (λ kv m, match kv with Some (k, v) => <[k := v]> m | None => m end) acc vars)
      else Err [ErrUndeclaredAttribute]
  end.

Definition bind (s : Schema) (i : Input) : result Binding :=
  let? b1 := bind_entity s RoleSubject (in_Subject i) ∅ in
  let? b2 := bind_entity s RoleResource (in_Resource i) b1 in
  bind_entity s RoleContext (in_Context i) b2.

(** ** Programs *)

Record Program := mkProgram {
  pr_policy : Policy;
  pr_returns : gmap string Typ;
  pr_expr : cexpr;
  pr_sites : list (string * list Operand) }.

Fixpoint dedup_calls (seen calls : list SourceCall) : list SourceCall :=
  match calls with
  | [] => []
  | c :: cs => if existsb (same_call c) seen then dedup_calls seen cs else c :: dedup_calls (c :: seen) cs
  end.

(** [Program.SourceCalls]: every reachable call, arguments resolved, once each. *)
Definition SourceCalls (p : Program) (b : Binding) : result (list SourceCall) :=
  let? calls := res_map (λ '(name, args),
                  let? vs := res_map (operandValue b) args in Ok (mkCall name vs)) (pr_sites p) in
  Ok (dedup_calls [] calls).

(** [factCall.lookup]: what a source function answers inside an evaluation. *)
Definition factCall_lookup (returns : gmap string Typ) (facts : option Facts)
    (name : string) (args : list value) : celres :=
  match facts ≫= λ f, Facts_Value f (mkCall name args), returns !! name with
  | Some v, Some t => match coerce t v with Ok w => RVal w | Err e => RErr e end
  | _, _ => RErr [ErrUnresolvedFact]
  end.

Definition schema_returns (s : Schema) : gmap string Typ :=
  foldl (λ m d, <[src_Name d := src_Returns d]> m) ∅ (sch_Sources s).

(** The decorator refuses a program that calls a source the schema lacks. *)
Fixpoint sources_declared (returns : gmap string Typ) (e : cexpr) : bool :=
  match e with
  | ECall fn args =>
      (if HasPrefix fn (CELSourceFunction "")
       then bool_decide (is_Some (returns !! TrimPrefix fn (CELSourceFunction ""))) else true) &&
      forallb (sources_declared returns) args
  | EList es => forallb (sources_declared returns) es
  | ESelect e _ => sources_declared returns e
  | _ => true
  end.

Section with_cel.
Context `{CEL}.

Definition compileProgram (s : Schema) (p : Policy) : result Program :=
  let? compiled := Compile s p in
  let e := compiled.2 in
  let returns := schema_returns s in
  if sources_declared returns e
  then Ok (mkProgram p returns e (collectSources (p_Condition p)))
  else Err [].

Definition Program_Evaluate (p : Program) (b : Binding) (facts : option Facts) : result bool :=
  match cel_eval (factCall_lookup (pr_returns p) facts) b (pr_expr p) with
  | RVal (VBool v) => Ok v
  | RVal _ => Err []
  | RErr e => Err e
  end.

(** ** The compile cache (cache.go) *)

Record Version := mkVersion { v_Schema : string; v_Policy : string }.

#[export] Instance Version_eq_dec : EqDecision Version.
Proof. solve_decision. Defined.
#[export] Instance Version_countable : Countable Version.
Proof.
  refine (inj_countable' (λ v, (v_Schema v, v_Policy v)) (λ p, mkVersion p.1 p.2) _). by intros [].
Defined.

(** Entries hold the outcome of one compilation, failures included. *)
Record Cache := mkCache {
  ca_entries : gmap Version (result Program);
  ca_hits : N; ca_misses : N; ca_compilations : N }.

Definition NewCache : Cache := mkCache ∅ 0 0 0.

Definition Cache_Compile (c : Cache) (v : Version) (s : Schema) (p : Policy) : result Program * Cache :=
  match ca_entries c !! v with
  | Some r => (r, mkCache (ca_entries c) (N.succ (ca_hits c)) (ca_misses c) (ca_compilations c))
  | None =>
      let r := compileProgram s p in
      (r, mkCache (<[v := r]> (ca_entries c)) (ca_hits c) (N.succ (ca_misses c)) (N.succ (ca_compilations c)))
  end.

(** ** Snapshots (eval.go) *)

Record PolicyVersion := mkPolicyVersion { pv_Version : string; pv_Policy : Policy }.
Record snapshotEntry := mkEntry { se_version : Version; se_candidate : Candidate }.
Record Snapshot := mkSnapshot { sn_schema : Schema; sn_entries : list snapshotEntry }.

Fixpoint snapshot_entries (schemaVersion : string) (seen : gset string) (ps : list PolicyVersion) :
    result (list snapshotEntry) :=
  match ps with
  | [] => Ok []
  | p :: ps =>
      if bool_decide (pv_Version p = "") then Err []
      else if bool_decide (pv_Version p ∈ seen) then Err []
      else
        let? rest := snapshot_entries schemaVersion ({[pv_Version p]} ∪ seen) ps in
        Ok (mkEntry (mkVersion schemaVersion (pv_Version p)) (Classify (Some (pv_Policy p))) :: rest)
  end.

Definition NewSnapshot (schemaVersion : string) (s : Schema) (ps : list PolicyVersion) : result Snapshot :=
  if bool_decide (schemaVersion = "") then Err []
  else let? es := snapshot_entries schemaVersion ∅ ps in Ok (mkSnapshot s es).

Definition hasAction (p : Policy) (action : string) : bool := contains (p_Actions p) action.

Definition matches (p : option Policy) (i : Input) : bool :=
  match p with
  | None => false
  | Some p =>
      hasAction p (in_Action i) &&
      forallb (λ r, match EntityFor p r with
                    | None => true
                    | Some bound => bool_decide (en_Type (Input_entity i r) = bound)
                    end) Roles
  end.

Definition match_entries (s : Snapshot) (i : Input) : list snapshotEntry :=
  List.filter (λ e, matches (Candidate_Policy (se_candidate e)) i) (sn_entries s).

(** ** Evaluation *)

(** The loop that compiles each matched policy and gathers its source calls. *)
Fixpoint compile_entries (sch : Schema) (b : Binding) (es : list snapshotEntry) (c : Cache) :
    result (list (Candidate * Program) * list SourceCall) * Cache :=
  match es with
  | [] => (Ok ([], []), c)
  | e :: es =>
      match Candidate_Policy (se_candidate e) with
      | None => (Err [], c)
      | Some p =>
          match Cache_Compile c (se_version e) sch p with
          | (Err x, c1) => (Err x, c1)
          | (Ok prg, c1) =>
              match SourceCalls prg b with
              | Err x => (Err x, c1)
              | Ok sites =>
                  match compile_entries sch b es c1 with
                  | (Err x, c2) => (Err x, c2)
                  | (Ok (rest, calls), c2) => (Ok ((se_candidate e, prg) :: rest, sites ++ calls), c2)
                  end
              end
          end
      end
  end.

Definition resolve (resolver : option SourceResolver) (calls : list SourceCall) : result (option Facts) :=
  match calls with
  | [] => Ok None
  | _ =>
      match resolver with
      | None => Err [ErrUnresolvedFact]
      | Some r => let? f := r calls in Ok (Some f)
      end
  end.

(** [FactSnapshot]: the values of the calls the evaluation asked for. *)
Definition FactSnapshot := list (SourceCall * value).

Definition newFactSnapshot (calls : list SourceCall) (f : option Facts) : FactSnapshot :=
  match f with
  | None => []
  | Some f => omap (λ c, (λ v, (c, v)) <$> Facts_Value f c) calls
  end.

(** The condition loop: the first failure ends the evaluation. *)
Fixpoint run_programs (b : Binding) (facts : option Facts) (ps : list (Candidate * Program)) :
    result (list Candidate) :=
  match ps with
  | [] => Ok []
  | (c, prg) :: ps =>
      let? held := Program_Evaluate prg b facts in
      let? rest := run_programs b facts ps in
      Ok (if held : bool then c :: rest else rest)
  end.

(** What [core.evaluate] returns when it does not fail: nothing matched, or the
    applicable candidates and the frozen facts. *)
Inductive Evaluated := NoMatch | Applicable (cs : list Candidate) (facts : FactSnapshot).

Definition evaluate (snap : Snapshot) (resolver : option SourceResolver) (i : Input) (c : Cache) :
    result Evaluated * Cache :=
  match match_entries snap i with
  | [] => (Ok NoMatch, c)
  | es =>
      match bind (sn_schema snap) i with
      | Err x => (Err x, c)
      | Ok b =>
          match compile_entries (sn_schema snap) b es c with
          | (Err x, c1) => (Err x, c1)
          | (Ok (programs, sites), c1) =>
              let calls := dedup_calls [] sites in
              (let? facts := resolve resolver calls in
               let? applicable := run_programs b facts programs in
               Ok (Applicable applicable (newFactSnapshot calls facts)), c1)
          end
      end
  end.

(** *** The check path *)

Fixpoint check_candidates (allowed : option Policy) (cs : list Candidate) : CheckResult :=
  match cs with
  | [] => match allowed with None => checkConditionNotMet | Some p => allowCheck p end
  | Gated p :: _ => checkRequiresDecision p
  | Checkable p :: cs => check_candidates (match allowed with None => Some p | Some q => Some q end) cs
  end.

Definition CheckEvaluator_Evaluate (snap : Snapshot) (resolver : option SourceResolver) (i : Input) (c : Cache) :
    result CheckResult * Cache :=
  let '(r, c') := evaluate snap resolver i c in
  (let? ev := r in
   Ok (match ev with
       | NoMatch => checkNoMatchingPolicy
       | Applicable cs _ => check_candidates None cs
       end), c').

(** *** The decide path *)

Record DecideResult := mkDecideResult {
  dr_decision : EDecision; dr_reason : Reason; dr_policyID : string;
  dr_gates : list (option Policy); dr_facts : FactSnapshot }.

Definition allowDecide (p : Policy) (f : FactSnapshot) : DecideResult :=
  mkDecideResult Allow ReasonPolicyMatched (p_ID p) [] f.
Definition decideChallenge (gates : list (option Policy)) (f : FactSnapshot) : DecideResult :=
  mkDecideResult Challenged ReasonChallengeRequired
    (match gates with Some p :: _ => p_ID p | _ => "" end) gates f.
Definition decideNoMatchingPolicy : DecideResult := mkDecideResult Deny ReasonNoMatchingPolicy "" [] [].
Definition decideConditionNotMet (f : FactSnapshot) : DecideResult :=
  mkDecideResult Deny ReasonConditionNotMet "" [] f.

Definition gates_of (cs : list Candidate) : list (option Policy) :=
  omap (λ c, match c with Gated p => Some p | Checkable _ => None end) cs.
Definition first_checkable (cs : list Candidate) : option Policy :=
  head (omap (λ c, match c with Gated _ => None | Checkable p => Some p end) cs).

Definition decide_candidates (cs : list Candidate) (f : FactSnapshot) : DecideResult :=
  match gates_of cs with
  | [] => match first_checkable cs with None => decideConditionNotMet f | Some p => allowDecide p f end
  | gates => decideChallenge gates f
  end.

Definition DecideEvaluator_Evaluate (snap : Snapshot) (resolver : option SourceResolver) (i : Input) (c : Cache) :
    result DecideResult * Cache :=
  let '(r, c') := evaluate snap resolver i c in
  (let? ev := r in
   Ok (match ev with
       | NoMatch => decideNoMatchingPolicy
       | Applicable cs f => decide_candidates cs f
       end), c').

(** [DecideResult.Challenges] and [decision.flatten]: gate order, then
    declaration order. *)
Definition flatten (gates : list (option Policy)) : list Challenge := concat (map Gated_Challenges gates).

(** ** The check service (check.go)

    One instance's view of the effective set.  [Refresh] polls a loader, whose
    answer is an argument; the clock reading is an argument too. *)

Definition DefaultRefreshInterval : Time.duration := (5 * Time.Second)%Z.
Definition DefaultStalenessDeadline : Time.duration := (60 * Time.Second)%Z.

Record CheckService := mkCheckService {
  cs_deadline : Time.duration;
  cs_resolver : option SourceResolver;
  cs_cache : Cache;
  cs_evaluator : option Snapshot;
  cs_revision : string;
  cs_freshAt : Time.t;
  cs_failed : bool;
  cs_refreshes : N; cs_failures : N; cs_swaps : N }.

(** A poll's answer: the loader failed, returned no snapshot, or returned one. *)
Inductive Loaded := LoadError (e : error) | LoadNil | LoadSnapshot (s : Snapshot) (revision : string).

Definition refresh_failed (s : CheckService) : CheckService :=
  mkCheckService (cs_deadline s) (cs_resolver s) (cs_cache s) (cs_evaluator s) (cs_revision s)
    (cs_freshAt s) true (N.succ (cs_refreshes s)) (N.succ (cs_failures s)) (cs_swaps s).

Definition Refresh (s : CheckService) (now : Time.t) (l : Loaded) : result unit * CheckService :=
  match l with
  | LoadError e => (Err e, refresh_failed s)
  | LoadNil => (Err [], refresh_failed s)
  | LoadSnapshot snap rev =>
      let keep := match cs_evaluator s with Some _ => bool_decide (cs_revision s = rev) | None => false end in
      (Ok tt,
       if keep
       then mkCheckService (cs_deadline s) (cs_resolver s) (cs_cache s) (cs_evaluator s) (cs_revision s)
              now false (N.succ (cs_refreshes s)) (cs_failures s) (cs_swaps s)
       else mkCheckService (cs_deadline s) (cs_resolver s) (cs_cache s) (Some snap) rev
              now false (N.succ (cs_refreshes s)) (cs_failures s) (N.succ (cs_swaps s)))
  end.

(** A deployment that sets no deadline gets the default; the first load must
    succeed. *)
Definition NewCheckService (deadline : Time.duration) (resolver : option SourceResolver) (cache : option Cache)
    (now : Time.t) (l : Loaded) : result CheckService :=
  let d := if (deadline <=? 0)%Z then DefaultStalenessDeadline else deadline in
  let s := mkCheckService d resolver (default NewCache cache) None "" Time.zero false 0 0 0 in
  match Refresh s now l with
  | (Ok _, s') => Ok s'
  | (Err e, _) => Err e
  end.

Definition staleFor (s : CheckService) (now freshAt : Time.t) : Time.duration :=
  if Time.IsZero freshAt then (cs_deadline s + 1)%Z
  else Z.max 0 (Time.Sub now freshAt).

Definition CheckService_Evaluate (s : CheckService) (now : Time.t) (i : Input) :
    result CheckResult * CheckService :=
  match cs_evaluator s with
  | None => (Ok (DenyResult ReasonPolicySetStale), s)
  | Some snap =>
      if (cs_deadline s <? staleFor s now (cs_freshAt s))%Z then (Ok (DenyResult ReasonPolicySetStale), s)
      else
        let '(r, c) := CheckEvaluator_Evaluate snap (cs_resolver s) i (cs_cache s) in
        (r, mkCheckService (cs_deadline s) (cs_resolver s) c (cs_evaluator s) (cs_revision s)
              (cs_freshAt s) (cs_failed s) (cs_refreshes s) (cs_failures s) (cs_swaps s))
  end.

End with_cel.

(** ** The compile cache is transparent *)

Section cache.
Context `{CEL}.

(** What a version identifier denotes, and a cache that respects it. *)
Definition naming := Version → option (Schema * Policy).

Definition cache_ok (names : naming) (c : Cache) : Prop :=
  ∀ v r s p, ca_entries c !! v = Some r → names v = Some (s, p) → r = compileProgram s p.

Definition snapshot_ok (names : naming) (sn : Snapshot) : Prop :=
  Forall (λ e, ∃ p, Candidate_Policy (se_candidate e) = Some p ∧
                    names (se_version e) = Some (sn_schema sn, p)) (sn_entries sn).

Lemma cache_ok_new names : cache_ok names NewCache.
Proof. intros v r s p Hv. unfold NewCache in Hv. simpl in Hv. by rewrite lookup_empty in Hv. Qed.

Lemma Cache_Compile_ok names c v s p :
  cache_ok names c → names v = Some (s, p) →
  (Cache_Compile c v s p).1 = compileProgram s p ∧ cache_ok names (Cache_Compile c v s p).2.
Proof.
  intros Hc Hv. unfold Cache_Compile. destruct (ca_entries c !! v) as [r|] eqn:E; simpl.
  - split; [by eapply Hc|]. intros v' r' s' p' Hv' Hn. by eapply Hc.
  - split; [done|]. intros v' r' s' p'. simpl. destruct (decide (v = v')) as [<-|Hne].
    + rewrite lookup_insert_eq. intros [= <-] Hn. congruence.
    + rewrite lookup_insert_ne by done. apply Hc.
Qed.

Lemma compile_entries_ok names sch b es c1 c2 :
  Forall (λ e, ∃ p, Candidate_Policy (se_candidate e) = Some p ∧ names (se_version e) = Some (sch, p)) es →
  cache_ok names c1 → cache_ok names c2 →
  (compile_entries sch b es c1).1 = (compile_entries sch b es c2).1 ∧
  cache_ok names (compile_entries sch b es c1).2.
Proof.
  intros Hes. revert c1 c2. induction Hes as [|e es (p & Hp & Hn) Hes IH]; intros c1 c2 H1 H2; [done|].
  simpl. rewrite Hp.
  destruct (Cache_Compile_ok names c1 _ _ _ H1 Hn) as [E1 K1].
  destruct (Cache_Compile_ok names c2 _ _ _ H2 Hn) as [E2 K2].
  destruct (Cache_Compile c1 _ _ _) as [r1 c1'], (Cache_Compile c2 _ _ _) as [r2 c2'].
  simpl in *. subst r1 r2. destruct (compileProgram sch p) as [prg|x]; [|done].
  destruct (SourceCalls prg b) as [sites|x]; [|done].
  destruct (IH c1' c2' K1 K2) as [E K].
  destruct (compile_entries sch b es c1') as [[[rest calls]|x] c1''],
           (compile_entries sch b es c2') as [[[rest' calls']|x'] c2'']; simpl in *; naive_solver.
Qed.

Lemma evaluate_ok names sn res i c1 c2 :
  snapshot_ok names sn → cache_ok names c1 → cache_ok names c2 →
  (evaluate sn res i c1).1 = (evaluate sn res i c2).1 ∧ cache_ok names (evaluate sn res i c1).2.
Proof.
  intros Hsn H1 H2. unfold evaluate.
  assert (Forall (λ e, ∃ p, Candidate_Policy (se_candidate e) = Some p ∧
            names (se_version e) = Some (sn_schema sn, p)) (match_entries sn i)) as Hes.
  { unfold match_entries. apply Forall_forall. intros e He.
    apply list_elem_of_In, filter_In in He as [He%list_elem_of_In _].
    unfold snapshot_ok in Hsn. rewrite Forall_forall in Hsn. by apply Hsn. }
  destruct (match_entries sn i) as [|e es]; [done|].
  destruct (bind (sn_schema sn) i) as [b|x]; [|done].
  destruct (compile_entries_ok names (sn_schema sn) b _ c1 c2 Hes H1 H2) as [E K].
  destruct (compile_entries _ _ _ c1) as [[[ps sites]|x] c1'],
           (compile_entries _ _ _ c2) as [[[ps' sites']|x'] c2']; simpl in *; naive_solver.
Qed.

End cache.

(** The compile cache is invisible: an evaluator that shares a cache filled by
    any earlier evaluations gives the same answer as one that starts from an empty
    cache, and leaves the cache usable, as long as a version identifier names one
    schema and policy. *)
Theorem cached_evaluation_transparent `{CEL} names sn res i c :
  snapshot_ok names sn → cache_ok names c →
  (DecideEvaluator_Evaluate sn res i c).1 = (DecideEvaluator_Evaluate sn res i NewCache).1 ∧
  (CheckEvaluator_Evaluate sn res i c).1 = (CheckEvaluator_Evaluate sn res i NewCache).1 ∧
  cache_ok names (DecideEvaluator_Evaluate sn res i c).2.
Proof.
  intros Hsn Hc. unfold DecideEvaluator_Evaluate, CheckEvaluator_Evaluate.
  destruct (evaluate_ok names sn res i c NewCache Hsn Hc (cache_ok_new names)) as [E K].
  destruct (evaluate sn res i c) as [r1 c1], (evaluate sn res i NewCache) as [r2 c2].
  simpl in *. by subst.
Qed.

(** ** What an evaluation that answers has established *)

Section evaluation.
Context `{CEL}.

Lemma snapshot_entries_spec sv seen ps es :
  snapshot_entries sv seen ps = Ok es →
  es = map (λ p, mkEntry (mkVersion sv (pv_Version p)) (Classify (Some (pv_Policy p)))) ps ∧
  NoDup (map pv_Version ps) ∧ (∀ p, p ∈ ps → pv_Version p ∉ seen).
Proof.
  revert seen es. induction ps as [|p ps IH]; intros seen es; simpl.
  { intros [= <-]. split_and!; [done|constructor|set_solver]. }
  case_bool_decide; [done|]. case_bool_decide as Hseen; [done|]. intros He. res_inv. subst es.
  apply IH in Ha as (-> & Hnd & Hout). split_and!; [done| |].
  - constructor; [|done]. intros (q & Hq & Hin)%elem_of_map. specialize (Hout q Hin). set_solver.
  - intros q [->|Hq]%elem_of_cons; [done|]. specialize (Hout q Hq). set_solver.
Qed.

Definition naming_of (sv : string) (s : Schema) (ps : list PolicyVersion) : naming :=
  λ v, if bool_decide (v_Schema v = sv)
       then (λ p, (s, pv_Policy p.2)) <$> list_find (λ p, pv_Version p = v_Policy v) ps
       else None.

Lemma Candidate_Policy_Classify p : Candidate_Policy (Classify p) = p.
Proof. destruct p as [p|]; [|done]. simpl. by destruct (RequiresDecision p). Qed.

Lemma list_find_NoDup {A B} `{EqDecision B} (f : A → B) l x :
  NoDup (map f l) → x ∈ l → ∃ i, list_find (λ y, f y = f x) l = Some (i, x).
Proof.
  induction l as [|a l IH]; [set_solver|]. simpl. intros [Hn Hd]%NoDup_cons Hx.
  destruct (decide (f a = f x)) as [E|E].
  - apply elem_of_cons in Hx as [->|Hx]; [eauto|]. destruct Hn. rewrite E.
    apply elem_of_map. eauto.
  - apply elem_of_cons in Hx as [->|Hx]; [done|]. destruct (IH Hd Hx) as [i ->]. simpl. eauto.
Qed.

Lemma NewSnapshot_named sv s ps sn :
  NewSnapshot sv s ps = Ok sn → snapshot_ok (naming_of sv s ps) sn.
Proof.
  unfold NewSnapshot. case_bool_decide; [done|]. intros He. res_inv. subst sn.
  apply snapshot_entries_spec in Ha as (-> & Hnd & _). unfold snapshot_ok. simpl.
  apply Forall_forall. intros e (p & -> & Hp)%elem_of_map. simpl. exists (pv_Policy p).
  split; [apply (Candidate_Policy_Classify (Some (pv_Policy p)))|]. unfold naming_of. rewrite bool_decide_eq_true_2 by done.
  simpl. destruct (list_find_NoDup pv_Version ps p Hnd Hp) as [i ->]. done.
Qed.

(** A policy's condition holds for a bound request and a fact table. *)
Definition condition_holds (s : Schema) (b : Binding) (f : option Facts) (p : Policy) : Prop :=
  holds (factCall_lookup (schema_returns s) f) b (p_Condition p).

Lemma compileProgram_inv s p prg :
  compileProgram s p = Ok prg →
  ∃ e, condition_expr (p_Condition p) = Ok e ∧
       prg = mkProgram p (schema_returns s) e (collectSources (p_Condition p)).
Proof.
  unfold compileProgram, Compile.
  intros ([env e] & (env' & _ & (e' & He & (t & _ & Ht)%res_bind_Ok)%res_bind_Ok)%res_bind_Ok & Hp)%res_bind_Ok.
  destruct (bool_decide (t = CTBool)); [|done]. injection Ht as -> ->. exists e. split; [done|].
  simpl in Hp. destruct (sources_declared _ _); [|done]. by injection Hp as <-.
Qed.

Lemma Program_Evaluate_holds s p prg b f v :
  compileProgram s p = Ok prg → Program_Evaluate prg b f = Ok v →
  v = true ↔ condition_holds s b f p.
Proof.
  intros (e & Hx & ->)%compileProgram_inv He.
  unfold Program_Evaluate in He. simpl in He.
  pose proof (truth_condition (factCall_lookup (schema_returns s) f) b _ _ Hx) as Ht.
  destruct (cel_eval _ _ _) as [[]|]; try done. injection He as ->. simpl in Ht.
  unfold condition_holds, holds. destruct (p_Condition p); [naive_solver|..]; rewrite <-Ht; naive_solver.
Qed.

Lemma compile_entries_programs names sch b es c ps sites c' :
  Forall (λ e, ∃ p, Candidate_Policy (se_candidate e) = Some p ∧ names (se_version e) = Some (sch, p)) es →
  cache_ok names c → compile_entries sch b es c = (Ok (ps, sites), c') →
  Forall2 (λ e cp, cp.1 = se_candidate e ∧
     ∃ p, Candidate_Policy (se_candidate e) = Some p ∧ compileProgram sch p = Ok cp.2) es ps.
Proof.
  intros Hes. revert c ps sites c'. induction Hes as [|e es (p & Hp & Hn) Hes IH]; intros c ps sites c' Hc He.
  { simpl in He. simplify_eq. constructor. }
  simpl in He. rewrite Hp in He. destruct (Cache_Compile_ok names c _ _ _ Hc Hn) as [E1 K1].
  destruct (Cache_Compile c _ _ _) as [[prg|x] c1]; simpl in *; [|done].
  destruct (SourceCalls prg b) as [ss|x]; [|done].
  destruct (compile_entries sch b es c1) as [[[rest calls]|x] c2] eqn:Er; [|done]. simplify_eq.
  constructor; [simpl; eauto|]. by eapply IH.
Qed.

Lemma run_programs_spec b f ps cs :
  run_programs b f ps = Ok cs →
  Forall (λ cp, ∃ v, Program_Evaluate cp.2 b f = Ok v) ps ∧
  cs = map fst (List.filter (λ cp, match Program_Evaluate cp.2 b f with Ok v => v | Err _ => false end) ps).
Proof.
  revert cs. induction ps as [|[c prg] ps IH]; simpl; intros cs He; res_inv; subst; [done|].
  apply IH in Ha0 as [Hall ->]. split; [constructor; eauto|]. rewrite Ha. by destruct a.
Qed.

(** The applicable candidates are those of the matched entries whose condition
    holds, in snapshot order, all read against one binding and one fact table. *)
Lemma evaluate_spec names sn res i c cs fs :
  snapshot_ok names sn → cache_ok names c → (evaluate sn res i c).1 = Ok (Applicable cs fs) →
  ∃ b f, bind (sn_schema sn) i = Ok b ∧
    (∀ e p, e ∈ sn_entries sn → Candidate_Policy (se_candidate e) = Some p → matches (Some p) i = true →
       condition_holds (sn_schema sn) b f p → se_candidate e ∈ cs) ∧
    (∀ cand, cand ∈ cs → ∃ e p, e ∈ sn_entries sn ∧ se_candidate e = cand ∧
       Candidate_Policy cand = Some p ∧ matches (Some p) i = true ∧ condition_holds (sn_schema sn) b f p).
Proof.
  intros Hsn Hc. unfold evaluate. destruct (match_entries sn i) as [|e0 es0] eqn:Em; [done|].
  rewrite <-Em. destruct (bind (sn_schema sn) i) as [b|x]; [|done].
  assert (∀ e, e ∈ match_entries sn i ↔ e ∈ sn_entries sn ∧ matches (Candidate_Policy (se_candidate e)) i = true) as Hme.
  { intros e. unfold match_entries. by rewrite list_elem_of_In, filter_In, <-list_elem_of_In. }
  destruct (compile_entries _ _ _ c) as [[[ps sites]|x] c'] eqn:Ec; [|done]. simpl.
  intros (f & Hf & (cs' & Hcs & [= <- _])%res_bind_Ok)%res_bind_Ok.
  assert (Forall (λ e, ∃ p, Candidate_Policy (se_candidate e) = Some p ∧
            names (se_version e) = Some (sn_schema sn, p)) (match_entries sn i)) as Hes.
  { apply Forall_forall. intros e [He _]%Hme. unfold snapshot_ok in Hsn. rewrite Forall_forall in Hsn. by apply Hsn. }
  apply (compile_entries_programs names) in Ec; [|done|done].
  apply run_programs_spec in Hcs as [Hrun ->]. exists b, f. split; [done|]. split.
  - intros e p He Hp Hm Hh. assert (e ∈ match_entries sn i) as Hi by (apply Hme; by rewrite Hp).
    apply list_elem_of_lookup in Hi as [k Hk].
    destruct (Forall2_lookup_l _ _ _ _ _ Ec Hk) as ([c1 prg] & Hk' & Hc1 & p' & Hp' & Hprg).
    simpl in *. rewrite Hp in Hp'. injection Hp' as <-. subst c1.
    apply elem_of_map. exists (se_candidate e, prg). split; [done|].
    apply list_elem_of_In, filter_In. split; [apply list_elem_of_In; by eapply list_elem_of_lookup_2|].
    simpl. rewrite Forall_forall in Hrun. destruct (Hrun (se_candidate e, prg)) as [v Hv].
    { by eapply list_elem_of_lookup_2. }
    simpl in Hv. rewrite Hv. by apply (Program_Evaluate_holds _ _ _ _ _ _ Hprg Hv).
  - intros cand ([c1 prg] & -> & Hin)%elem_of_map. apply list_elem_of_In, filter_In in Hin as [Hin Hv].
    apply list_elem_of_In, list_elem_of_lookup in Hin as [k Hk]. simpl in *.
    destruct (Forall2_lookup_r _ _ _ _ _ Ec Hk) as (e & Hk' & Hc1 & p & Hp & Hprg). simpl in *. subst c1.
    apply list_elem_of_lookup_2, Hme in Hk' as [He Hm]. exists e, p. rewrite Hp in Hm.
    split_and!; try done. destruct (Program_Evaluate prg b f) as [v|] eqn:Ev; [|done]. subst v.
    by apply (Program_Evaluate_holds _ _ _ _ _ _ Hprg Ev).
Qed.

Lemma check_candidates_spec a cs :
  check_candidates a cs =
  match gates_of cs with
  | g :: _ => checkRequiresDecision g
  | [] => match a with
          | Some p => allowCheck p
          | None => match first_checkable cs with Some p => allowCheck p | None => checkConditionNotMet end
          end
  end.
Proof.
  revert a. induction cs as [|[p|p] cs IH]; intros a; simpl; [by destruct a| |done].
  rewrite IH. unfold gates_of. simpl. by destruct (omap _ cs), a.
Qed.

Lemma gates_of_elem cs g : g ∈ gates_of cs ↔ Gated g ∈ cs.
Proof.
  unfold gates_of. rewrite list_elem_of_omap. split.
  - intros ([] & ? & ?); naive_solver.
  - intros Hg. exists (Gated g). done.
Qed.

Lemma first_checkable_elem cs p : first_checkable cs = Some p → Checkable p ∈ cs.
Proof.
  unfold first_checkable. intros Hh%head_Some_elem_of. apply list_elem_of_omap in Hh as ([] & ? & ?); naive_solver.
Qed.

End evaluation.
