(* ===== verification/CelRef.v ===== *)
(** * A reference CEL interpreter

    An executable instance of the class [CEL], covering the operators a condition
    compiles to.  It shows that the laws the development assumes of cel-go are
    consistent, and it is what the examples run on. *)
From S2P Require Import Prelude GoLib Policy Cel Engine.

Definition of_truth (t : option bool) : celres :=
  match t with Some b => RVal (VBool b) | None => RErr [] end.

Definition rel_op (op : CompareOp) (a b : celres) : celres :=
  match a, b with
  | RErr e, _ | _, RErr e => RErr e
  | RVal (VInt x), RVal (VInt y) => of_truth (int_op op x y)
  | RVal (VDouble x), RVal (VDouble y) => of_truth (double_op op x y)
  | RVal x, RVal y =>
      match op with
      | OpEq => RVal (VBool (value_eqb x y))
      | OpNe => RVal (VBool (negb (value_eqb x y)))
      | _ => RErr []
      end
  end.

Definition compare_of (fn : string) : option CompareOp :=
  list_find (λ op, celCompareFunction op = Ok fn) CompareOps ≫= λ p, Some p.2.

Fixpoint all_values (l : list celres) : result (list value) :=
  match l with
  | [] => Ok []
  | RErr e :: _ => Err e
  | RVal v :: l => let? vs := all_values l in Ok (v :: vs)
  end.

Definition ref_call (src : string → list value → celres) (fn : string) (args : list celres) : celres :=
  if bool_decide (fn = "_&&_") then
    match args with [a; b] => of_truth (and3 (truth a) (truth b)) | _ => RErr [] end
  else if bool_decide (fn = "_||_") then
    match args with [a; b] => of_truth (or3 (truth a) (truth b)) | _ => RErr [] end
  else if bool_decide (fn = "!_") then
    match args with [a] => of_truth (not3 (truth a)) | _ => RErr [] end
  else if bool_decide (fn = "@in") then
    match args with
    | [RVal v; RVal (VList l)] => RVal (VBool (existsb (value_eqb v) l))
    | _ => RErr []
    end
  else if HasPrefix fn (CELSourceFunction "") then
    match all_values args with
    | Ok vs => src (TrimPrefix fn (CELSourceFunction "")) vs
    | Err e => RErr e
    end
  else match compare_of fn, args with
    | Some op, [a; b] => rel_op op a b
    | _, _ => RErr []
    end.

Fixpoint ref_eval (src : string → list value → celres) (vars : gmap string value) (e : cexpr) : celres :=
  match e with
  | EConst (KBool b) => RVal (VBool b)
  | EConst (KInt n) => RVal (VInt n)
  | EConst (KDouble f) => RVal (VDouble f)
  | EConst (KString s) => RVal (VString s)
  | EIdent n => match vars !! n with Some v => RVal v | None => RErr [] end
  | ESelect (EIdent r) a => match vars !! (r +:+ "." +:+ a) with Some v => RVal v | None => RErr [] end
  | ESelect _ _ => RErr []
  | ECall fn args => ref_call src fn (map (ref_eval src vars) args)
  | EList es =>
      match all_values (map (ref_eval src vars) es) with Ok vs => RVal (VList vs) | Err e => RErr e end
  end.

Lemma truth_of_truth t : truth (of_truth t) = t.
Proof. by destruct t. Qed.

Lemma ref_call_rel src op fn a b :
  celCompareFunction op = Ok fn → ref_call src fn [a; b] = rel_op op a b.
Proof. destruct op; intros [= <-]; reflexivity. Qed.

Lemma rel_op_error op a b : truth (rel_op op a b) ≠ None → (∃ v, a = RVal v) ∧ (∃ w, b = RVal w).
Proof. destruct a as [v|], b as [w|]; [by eauto|destruct v; done|done|done]. Qed.

(** Every expression type-checks as a boolean: the checker plays no part in the
    examples, which only run well-typed conditions. *)
#[export] Program Instance ref_CEL : CEL := {
  cel_check _ _ := Ok CTBool;
  cel_eval := ref_eval }.
Next Obligation. done. Qed.
Next Obligation. done. Qed.
Next Obligation. done. Qed.
Next Obligation. intros. apply truth_of_truth. Qed.
Next Obligation. intros. apply truth_of_truth. Qed.
Next Obligation. intros. apply truth_of_truth. Qed.
Next Obligation.
  intros src vars op fn a b Hop. simpl. rewrite (ref_call_rel src op fn) by done.
  apply rel_op_error.
Qed.
Next Obligation.
  intros src vars op fn a b x y Hop Ha Hb. simpl. rewrite (ref_call_rel src op fn), Ha, Hb by done.
  simpl. apply truth_of_truth.
Qed.
Next Obligation.
  intros src vars op fn a b x y Hop Ha Hb. simpl. rewrite (ref_call_rel src op fn), Ha, Hb by done.
  simpl. apply truth_of_truth.
Qed.
