(* ===== verification/EngineSpec.v ===== *)
(** * What the two evaluation paths promise

    The theorems about internal/engine: no allow past a gated policy, every gated
    policy that applies contributes its challenges, the two paths agree, and a
    check instance answers from a policy set it has recently confirmed. *)
From S2P Require Import Prelude GoLib Policy Cel Engine CelRef.

Section paths.
Context `{CEL}.

(** A policy of the loaded set applies to a request: its shape matches and its
    condition holds on the bound request and the resolved facts. *)
Definition applies (s : Schema) (i : Input) (b : Binding) (f : option Facts) (p : Policy) : Prop :=
  matches (Some p) i = true ∧ condition_holds s b f p.

Definition loaded (ps : list PolicyVersion) (p : Policy) : Prop := ∃ pv, pv ∈ ps ∧ pv_Policy pv = p.

(** The candidates [core.evaluate] returns, read back as policies. *)
Lemma evaluate_loaded sv s ps sn res i c cs fs :
  NewSnapshot sv s ps = Ok sn → cache_ok (naming_of sv s ps) c →
  (evaluate sn res i c).1 = Ok (Applicable cs fs) →
  ∃ b f, bind s i = Ok b ∧
    ∀ p, (Checkable p ∈ cs ↔ loaded ps p ∧ RequiresDecision p = false ∧ applies s i b f p) ∧
         (∀ g, Gated g ∈ cs → is_Some g) ∧
         (Gated (Some p) ∈ cs ↔ loaded ps p ∧ RequiresDecision p = true ∧ applies s i b f p).
Proof.
  intros Hsn Hc He. pose proof (NewSnapshot_named _ _ _ _ Hsn) as Hok.
  destruct (evaluate_spec _ _ _ _ _ _ _ Hok Hc He) as (b & f & Hb & Hto & Hfrom).
  unfold NewSnapshot in Hsn. case_bool_decide; [done|].
  apply res_bind_Ok in Hsn as (es & (-> & _ & _)%snapshot_entries_spec & [= <-]). simpl in *.
  set (mk := λ p, mkEntry (mkVersion sv (pv_Version p)) (Classify (Some (pv_Policy p)))) in *.
  assert (∀ cand, cand ∈ cs ↔ ∃ p, loaded ps p ∧ cand = Classify (Some p) ∧ applies s i b f p) as Hcs.
  { intros cand. split.
    - intros (e & p & (pv & -> & Hpv)%elem_of_map & <- & Hp & Hm & Hh)%Hfrom. simpl in Hp.
      change (Candidate_Policy (Classify (Some (pv_Policy pv))) = Some p) in Hp.
      rewrite Candidate_Policy_Classify in Hp. injection Hp as <-.
      exists (pv_Policy pv). split; [by exists pv|]. by split.
    - intros (p & (pv & Hpv & <-) & -> & Hm & Hh). apply (Hto (mk pv) (pv_Policy pv)); try done.
      + apply elem_of_map. eauto.
      + apply (Candidate_Policy_Classify (Some (pv_Policy pv))). }
  exists b, f. split; [done|]. intros p. rewrite !Hcs. unfold Classify. split; [|split].
  - split; [|by intros (? & Hr & ?); exists p; rewrite Hr].
    intros (q & Hl & Hq & Ha). destruct (RequiresDecision q) eqn:E; by simplify_eq.
  - intros g (q & _ & Hq & _)%Hcs. unfold Classify in Hq. destruct (RequiresDecision q); by simplify_eq.
  - split; [|by intros (? & Hr & ?); exists p; rewrite Hr].
    intros (q & Hl & Hq & Ha). destruct (RequiresDecision q) eqn:E; by simplify_eq.
Qed.

End paths.

(** C7. The check path never allows past a gated policy.  An allow names a loaded
    policy that carries no challenge, whose shape matches the request and whose
    condition holds, and no loaded policy that carries a challenge applies to the
    request. *)
Theorem check_allow_sound `{CEL} sv s ps sn res i c r :
  NewSnapshot sv s ps = Ok sn → cache_ok (naming_of sv s ps) c →
  (CheckEvaluator_Evaluate sn res i c).1 = Ok r → cr_decision r = Allow →
  ∃ b f, bind s i = Ok b ∧
    (∃ p, loaded ps p ∧ p_ID p = cr_policyID r ∧ RequiresDecision p = false ∧ applies s i b f p) ∧
    (∀ p, loaded ps p → RequiresDecision p = true → ¬ applies s i b f p).
Proof.
  intros Hsn Hc. unfold CheckEvaluator_Evaluate.
  destruct (evaluate sn res i c) as [[[|cs fs]|x] c'] eqn:He; simpl; intros Hr Ha; simplify_eq; try done.
  apply (f_equal fst) in He. destruct (evaluate_loaded _ _ _ _ _ _ _ _ _ Hsn Hc He) as (b & f & Hb & Hp).
  exists b, f. split; [done|]. rewrite check_candidates_spec in Ha |- *.
  destruct (gates_of cs) as [|g gs] eqn:Eg; [|done].
  destruct (first_checkable cs) as [p|] eqn:Ef; [|done]. split.
  - exists p. apply first_checkable_elem, Hp in Ef as (? & ? & ?). done.
  - intros q Hl Hq Happ. assert (Some q ∈ gates_of cs) as Hin by (by apply gates_of_elem, Hp).
    rewrite Eg in Hin. set_solver.
Qed.

(** C10. Every gated policy that applies is demanded.  A challenged decision carries
    exactly the challenges of the loaded gated policies that apply, at least one of
    them, and an allow from the decision path means none applies. *)
Theorem decide_challenges_complete `{CEL} sv s ps sn res i c r :
  NewSnapshot sv s ps = Ok sn → cache_ok (naming_of sv s ps) c →
  (DecideEvaluator_Evaluate sn res i c).1 = Ok r → dr_decision r ≠ Deny →
  ∃ b f, bind s i = Ok b ∧
    (∀ ch, ch ∈ flatten (dr_gates r) ↔ ∃ p, loaded ps p ∧ applies s i b f p ∧ ch ∈ p_Challenges p) ∧
    (dr_decision r = Challenged ↔ flatten (dr_gates r) ≠ []) ∧
    (dr_decision r = Allow ↔ ∀ p, loaded ps p → RequiresDecision p = true → ¬ applies s i b f p).
Proof.
  intros Hsn Hc. unfold DecideEvaluator_Evaluate.
  destruct (evaluate sn res i c) as [[[|cs fs]|x] c'] eqn:He; simpl; intros Hr Ha; simplify_eq; try done.
  apply (f_equal fst) in He. destruct (evaluate_loaded _ _ _ _ _ _ _ _ _ Hsn Hc He) as (b & f & Hb & Hp).
  exists b, f. split; [done|].
  assert (∀ p, RequiresDecision p = true ↔ p_Challenges p ≠ []) as Hreq.
  { intros p. unfold RequiresDecision. rewrite bool_decide_eq_true.
    destruct (p_Challenges p); simpl; split; [lia|done|done|lia]. }
  assert (∀ ch, ch ∈ flatten (gates_of cs) ↔ ∃ p, loaded ps p ∧ applies s i b f p ∧ ch ∈ p_Challenges p) as Hfl.
  { intros ch. unfold flatten. rewrite list_elem_of_In, in_concat. split.
    - intros (l & (g & <- & Hg)%in_map_iff & Hch). apply list_elem_of_In, gates_of_elem in Hg.
      apply list_elem_of_In in Hch. destruct g as [p|]; [|set_solver].
      apply Hp in Hg as (Hl & _ & Happ). by exists p.
    - intros (p & Hl & Happ & Hch). exists (p_Challenges p). split; [|by apply list_elem_of_In].
      apply in_map_iff. exists (Some p). split; [done|]. apply list_elem_of_In, gates_of_elem, Hp.
      split_and!; try done. apply Hreq. intros E. rewrite E in Hch. set_solver. }
  unfold decide_candidates in *. destruct (gates_of cs) as [|g gs] eqn:Eg.
  - destruct (first_checkable cs) as [p|] eqn:Ef; [|done]. simpl. split_and!.
    + intros ch. rewrite <-Hfl. done.
    + done.
    + split; [|done]. intros _ q Hl Hq Happ.
      assert (Some q ∈ gates_of cs) as Hin by (by apply gates_of_elem, Hp). rewrite Eg in Hin. set_solver.
  - simpl. assert (is_Some g) as [p ->]. { apply (Hp (mkPolicy "" "" "" "" "" [] NodeNil [])), gates_of_elem. rewrite Eg. set_solver. }
    assert (Gated (Some p) ∈ cs) as Hg by (apply gates_of_elem; rewrite Eg; set_solver).
    apply Hp in Hg as (Hl & Hq & Happ). split_and!.
    + apply Hfl.
    + split; [|done]. intros _ Hnil. apply Hreq in Hq. by apply app_eq_nil in Hnil as [? _].
    + split; [done|]. intros Hno. by destruct (Hno p Hl Hq).
Qed.

(** The check path and the decision path never disagree on one request: they
    fail together; the check path allows exactly when the decision path allows,
    naming the same policy; it answers requires-decision exactly when the decision
    path is challenged; and a request no policy matches is denied as such by both. *)
Theorem evaluators_agree `{CEL} sn res i c :
  match (CheckEvaluator_Evaluate sn res i c).1, (DecideEvaluator_Evaluate sn res i c).1 with
  | Err e1, Err e2 => e1 = e2
  | Ok r, Ok d =>
      cr_policyID r = dr_policyID d ∧
      (cr_decision r = Allow ↔ dr_decision d = Allow) ∧
      (cr_reason r = ReasonRequiresDecision ↔ dr_decision d = Challenged) ∧
      (match_entries sn i = [] ↔ cr_reason r = ReasonNoMatchingPolicy) ∧
      (match_entries sn i = [] ↔ dr_reason d = ReasonNoMatchingPolicy) ∧
      (match_entries sn i = [] → cr_decision r = Deny ∧ dr_decision d = Deny)
  | _, _ => False
  end.
Proof.
  unfold CheckEvaluator_Evaluate, DecideEvaluator_Evaluate.
  destruct (evaluate sn res i c) as [[ev|e] c'] eqn:He; simpl; [|done].
  unfold evaluate in He. destruct (match_entries sn i) as [|e0 es0] eqn:Em.
  { simplify_eq. simpl. naive_solver. }
  destruct (bind (sn_schema sn) i) as [b|x]; [|done].
  destruct (compile_entries _ _ _ c) as [[[ps sites]|x] c1]; [|done]. simplify_eq.
  match goal with E : res_bind _ _ = Ok ev |- _ =>
    apply res_bind_Ok in E as (f & _ & (cs & _ & [= <-])%res_bind_Ok) end.
  rewrite check_candidates_spec. unfold decide_candidates.
  destruct (gates_of cs) as [|g gs], (first_checkable cs); simpl; naive_solver.
Qed.

(** ** A polling check instance *)

Definition poll : Type := Time.t * Loaded.

Definition run_polls (s : CheckService) (ps : list poll) : CheckService :=
  foldl (λ s p, (Refresh s p.1 p.2).2) s ps.

(** The last poll that confirmed the effective set: when, and which revision. *)
Definition last_success (ps : list poll) : option (Time.t * string) :=
  foldl (λ acc p, match p.2 with LoadSnapshot _ rev => Some (p.1, rev) | _ => acc end) None ps.

Definition service_ok (d : Time.duration) (res : option SourceResolver) (ps : list poll) (s : CheckService) : Prop :=
  cs_deadline s = d ∧ cs_resolver s = res ∧
  ∃ t rev snap t', last_success ps = Some (t, rev) ∧ (t', LoadSnapshot snap rev) ∈ ps ∧
    cs_freshAt s = t ∧ cs_revision s = rev ∧ cs_evaluator s = Some snap.

Lemma Refresh_ok d res ps s p :
  service_ok d res ps s → service_ok d res (ps ++ [p]) (Refresh s p.1 p.2).2.
Proof.
  intros (Hd & Hres & t & rev & snap & t' & Hl & Hin & Ht & Hrev & Hev).
  unfold service_ok, last_success. rewrite foldl_app. fold (last_success ps). rewrite Hl. simpl.
  destruct p as [now [e| |snap2 rev2]]; simpl.
  1-2: split_and!; [done..|]; exists t, rev, snap, t'; split_and!; try done; set_solver.
  rewrite Hev. case_bool_decide as Hr; simpl; (split_and!; [done..|]).
  - assert (rev2 = rev) as -> by congruence. exists now, rev, snap, t'. split_and!; try done. set_solver.
  - exists now, rev2, snap2, now. split_and!; try done. set_solver.
Qed.

Lemma run_polls_ok d res ps qs s :
  service_ok d res ps s → service_ok d res (ps ++ qs) (run_polls s qs).
Proof.
  revert ps s. induction qs as [|q qs IH]; intros ps s Hs; simpl; [by rewrite app_nil_r|].
  rewrite cons_middle, (assoc_L (++)). by apply IH, Refresh_ok.
Qed.

(** A check instance judges only on a policy set it has recently confirmed.
    After any sequence of polls, failed ones included, every answer is the answer
    of a snapshot loaded at the revision of the last successful poll if that poll
    is no older than the staleness deadline, and a policy-set-stale deny otherwise;
    in particular failed polls neither refresh the set nor stop the instance. *)
Theorem check_service_freshness `{CEL} deadline res cache t0 l0 s0 polls :
  NewCheckService deadline res cache t0 l0 = Ok s0 →
  let s := run_polls s0 polls in
  let d := if (deadline <=? 0)%Z then DefaultStalenessDeadline else deadline in
  ∃ t rev snap t', last_success ((t0, l0) :: polls) = Some (t, rev) ∧
    (t', LoadSnapshot snap rev) ∈ (t0, l0) :: polls ∧
    ∀ now i, (CheckService_Evaluate s now i).1 =
      if Time.IsZero t || (d <? Time.Sub now t)%Z then Ok (DenyResult ReasonPolicySetStale)
      else (CheckEvaluator_Evaluate snap res i (cs_cache s)).1.
Proof.
  intros Hnew s d.
  assert (0 < d)%Z as Hd.
  { subst d. destruct (Z.leb_spec deadline 0); [done|lia]. }
  assert (service_ok d res [(t0, l0)] s0) as Hs0.
  { unfold NewCheckService in Hnew. destruct l0 as [e| |snap rev]; simpl in Hnew; simplify_eq.
    split_and!; [done..|]. exists t0, rev, snap, t0. split_and!; try done. set_solver. }
  destruct (run_polls_ok d res [(t0, l0)] polls s0 Hs0)
    as (Ed & Er & t & rev & snap & t' & Hl & Hin & Ht & Hrev & Hev).
  exists t, rev, snap, t'. split_and!; [done|done|]. intros now i. fold s in Ed, Er, Ht, Hev.
  unfold CheckService_Evaluate, staleFor. rewrite Hev, Ed, Er, Ht.
  destruct (Time.IsZero t); simpl.
  - by replace (d <? d + 1)%Z with true by lia.
  - replace (d <? Z.max 0 (Time.Sub now t))%Z with (d <? Time.Sub now t)%Z by lia.
    destruct (d <? Time.Sub now t)%Z; [done|].
    by destruct (CheckEvaluator_Evaluate snap res i (cs_cache s)).
Qed.

(** ** Examples: a document store with one ungated and one gated policy *)

Definition ex_schema : Schema :=
  mkSchema [mkEntityType "document" [mkAttribute "level" TypeInt]] [mkAction "read" ""] [].

Definition ex_level (op : CompareOp) (n : Z) : Node :=
  Compare (FieldRef RoleResource "level") op (Lit (mkLiteral TypeInt (VInt n))).

Definition ex_open : Policy := mkPolicy "open" "" "" "document" "" ["read"] (ex_level OpLt 5) [].
Definition ex_gated : Policy :=
  mkPolicy "gated" "" "" "document" "" ["read"]
    (Logic LogicAll [ex_level OpGe 3; ex_level OpLt 100; ex_level OpNe 50]) [CExternal (mkExternal "hook")].

Definition ex_set : list PolicyVersion := [mkPolicyVersion "1" ex_open; mkPolicyVersion "2" ex_gated].

Definition ex_snapshot : Snapshot :=
  Eval vm_compute in match NewSnapshot "s" ex_schema ex_set with Ok s => s | Err _ => mkSnapshot ex_schema [] end.

Definition ex_read (n : Z) : Input :=
  mkInput "read" no_entity (mkEntity "document" "d" {[ "level" := VInt n ]}) no_entity.

(** Witness: a document of level 2 is readable without a decision. *)
Lemma check_allow_sound_witness :
  ∃ r, (CheckEvaluator_Evaluate ex_snapshot None (ex_read 2) NewCache).1 = Ok r ∧ cr_decision r = Allow ∧
  ∃ b f, bind ex_schema (ex_read 2) = Ok b ∧
    (∃ p, loaded ex_set p ∧ p_ID p = cr_policyID r ∧ RequiresDecision p = false ∧ applies ex_schema (ex_read 2) b f p) ∧
    (∀ p, loaded ex_set p → RequiresDecision p = true → ¬ applies ex_schema (ex_read 2) b f p).
Proof.
  exists (allowCheck ex_open). split; [vm_compute; reflexivity|]. split; [reflexivity|].
  apply (check_allow_sound "s" ex_schema ex_set ex_snapshot None (ex_read 2) NewCache (allowCheck ex_open)).
  - vm_compute. reflexivity.
  - apply cache_ok_new.
  - vm_compute. reflexivity.
  - reflexivity.
Defined.

(** Witness: at level 4 both policies apply, and the gated one is demanded. *)
Lemma decide_challenges_complete_witness :
  ∃ r, (DecideEvaluator_Evaluate ex_snapshot None (ex_read 4) NewCache).1 = Ok r ∧ dr_decision r = Challenged ∧
  ∃ b f, bind ex_schema (ex_read 4) = Ok b ∧
    (∀ ch, ch ∈ flatten (dr_gates r) ↔
       ∃ p, loaded ex_set p ∧ applies ex_schema (ex_read 4) b f p ∧ ch ∈ p_Challenges p) ∧
    (dr_decision r = Challenged ↔ flatten (dr_gates r) ≠ []) ∧
    (dr_decision r = Allow ↔ ∀ p, loaded ex_set p → RequiresDecision p = true → ¬ applies ex_schema (ex_read 4) b f p).
Proof.
  exists (decideChallenge [Some ex_gated] []). split; [vm_compute; reflexivity|]. split; [reflexivity|].
  apply (decide_challenges_complete "s" ex_schema ex_set ex_snapshot None (ex_read 4) NewCache).
  - vm_compute. reflexivity.
  - apply cache_ok_new.
  - vm_compute. reflexivity.
  - discriminate.
Defined.

(** Witness: one good poll, one failed poll. *)
Lemma check_service_freshness_witness :
  ∃ s0, NewCheckService 0%Z None None 1000%Z (LoadSnapshot ex_snapshot "r1") = Ok s0 ∧
  let s := run_polls s0 [(2000%Z, LoadError [])] in
  ∃ t rev snap t',
    last_success [(1000%Z, LoadSnapshot ex_snapshot "r1"); (2000%Z, LoadError [])] = Some (t, rev) ∧
    (t', LoadSnapshot snap rev) ∈ [(1000%Z, LoadSnapshot ex_snapshot "r1"); (2000%Z, LoadError [])] ∧
    ∀ now i, (CheckService_Evaluate s now i).1 =
      if Time.IsZero t || (DefaultStalenessDeadline <? Time.Sub now t)%Z then Ok (DenyResult ReasonPolicySetStale)
      else (CheckEvaluator_Evaluate snap None i (cs_cache s)).1.
Proof.
  eexists. split; [reflexivity|].
  apply (check_service_freshness 0%Z None None 1000%Z (LoadSnapshot ex_snapshot "r1") _ [(2000%Z, LoadError [])]).
  reflexivity.
Defined.

(** Witness: a cache warmed by one request leaves the next one's answer alone. *)
Lemma cached_evaluation_transparent_witness :
  let c := (DecideEvaluator_Evaluate ex_snapshot None (ex_read 2) NewCache).2 in
  (DecideEvaluator_Evaluate ex_snapshot None (ex_read 4) c).1 =
    (DecideEvaluator_Evaluate ex_snapshot None (ex_read 4) NewCache).1.
Proof.
  intros c.
  assert (snapshot_ok (naming_of "s" ex_schema ex_set) ex_snapshot) as Hok
    by (apply NewSnapshot_named; vm_compute; reflexivity).
  assert (cache_ok (naming_of "s" ex_schema ex_set) c) as Hc.
  { exact (proj2 (proj2 (cached_evaluation_transparent _ _ None (ex_read 2) NewCache Hok (cache_ok_new _)))). }
  exact (proj1 (cached_evaluation_transparent _ _ None (ex_read 4) c Hok Hc)).
Defined.

(** Witness: the three-way conjunction of the gated policy, folded into a tree. *)
Lemma condition_expr_correct_witness :
  ∃ e, condition_expr (p_Condition ex_gated) = Ok e ∧
    truth (cel_eval (λ _ _, RErr []) {[ "resource.level" := VInt 4 ]} e) = Some true.
Proof.
  eexists. split; [reflexivity|].
  exact (condition_expr_correct (λ _ _, RErr []) {[ "resource.level" := VInt 4 ]} (p_Condition ex_gated) _ eq_refl).
Defined.

(** Witness: the two policies in either order. *)
Lemma Normalize_order_irrelevant_witness :
  Normalize (mkSet ex_schema [ex_open; ex_gated]) = Normalize (mkSet ex_schema [ex_gated; ex_open]).
Proof.
  apply Normalize_order_irrelevant.
  - apply NoDup_cons. split; [vm_compute; set_solver|]. apply NoDup_singleton.
  - apply Permutation_swap.
Defined.
