(* ===== verification/Validate.v ===== *)
(** * The load-time validator

    Models the first half of internal/policy/validate.go: the static checks a policy
    set passes before it is stored, with the pointer and the code of every diagnostic
    in the order they are reported, and [Validate], which compiles each condition when
    the static checks found nothing.  The wording of a diagnostic is left out. *)
From Stdlib Require Import Ascii.
From stdpp Require Import pretty.
From S2P Require Import Prelude GoLib Policy Cel.
Import Strings.

(** ** Diagnostics *)

Definition Code := string.
Definition CodeMissingField : Code := "missing_field".
Definition CodeInvalidName : Code := "invalid_name".
Definition CodeInvalidValue : Code := "invalid_value".
Definition CodeUnknownType : Code := "unknown_type".
Definition CodeDuplicate : Code := "duplicate".
Definition CodeUnknownEntity : Code := "unknown_entity".
Definition CodeUnknownAction : Code := "unknown_action".
Definition CodeUnknownAttribute : Code := "unknown_attribute".
Definition CodeUnboundRole : Code := "unbound_role".
Definition CodeUnknownSource : Code := "unknown_source".
Definition CodeTypeMismatch : Code := "type_mismatch".
Definition CodeArityMismatch : Code := "arity_mismatch".
Definition CodeInvalidOperand : Code := "invalid_operand".
Definition CodeInvalidOperator : Code := "invalid_operator".
Definition CodeInvalidDocument : Code := "invalid_document".
Definition CodeLimitExceeded : Code := "limit_exceeded".
Definition CodeUnsupported : Code := "unsupported".
Definition CodeCELCompile : Code := "cel_compile".

Record Diagnostic := mkDiagnostic { dg_Pointer : string; dg_Code : Code }.
Notation Diagnostics := (list Diagnostic).

Definition Has (ds : Diagnostics) (code : Code) : bool := existsb (λ d, bool_decide (dg_Code d = code)) ds.
Definition At (ds : Diagnostics) (pointer : string) : Diagnostics := filter (λ d, dg_Pointer d = pointer) ds.

(** ** Limits *)

Record Limits := mkLimits {
  lm_MaxDocumentBytes : Z; lm_MaxPolicies : Z; lm_MaxConditionNodes : Z; lm_MaxConditionDepth : Z }.

Definition DefaultLimits : Limits := mkLimits (2 ^ 20) 1000 512 32.

(** A limit that is not positive is none. *)
Definition over (limit : Z) (n : nat) : bool := ((0 <? limit) && (limit <? Z.of_nat n))%Z.

(** ** JSON pointers *)

(** [strings.ReplaceAll] of one byte. *)
Definition ReplaceByte (a : ascii) (by_ : string) (s : string) : string :=
  unbytes (concat (map (λ b, if Ascii.eqb b a then bytes by_ else [b]) (bytes s))).

Definition escapePointerToken (s : string) : string := ReplaceByte "/"%char "~1" (ReplaceByte "~"%char "~0" s).

Inductive segment := Seg (s : string) | Idx (i : nat).

(** A string that begins with a slash is a pointer used as a prefix. *)
Definition jptr1 (g : segment) : string :=
  match g with
  | Seg s => if HasPrefix s "/" then s else "/" +:+ escapePointerToken s
  | Idx i => "/" +:+ pretty i
  end.
Definition jptr (gs : list segment) : string := foldr (λ g acc, jptr1 g +:+ acc) "" gs.

Definition diag (gs : list segment) (code : Code) : Diagnostic := mkDiagnostic (jptr gs) code.

(** Reports [d] when the check fails. *)
Definition unless (ok : bool) (d : Diagnostic) : Diagnostics := if ok then [] else [d].

(** ** The schema *)

(** One pass over a list with the names before each element: the maps the code keeps
    to find duplicates. *)
Fixpoint scan {A} (name : A → string) (f : nat → bool → A → Diagnostics) (i : nat) (before : list string) (l : list A) : Diagnostics :=
  match l with
  | [] => []
  | a :: l => f i (contains before (name a)) a ++ scan name f (S i) (before ++ [name a]) l
  end.
Definition each {A} (name : A → string) (f : nat → bool → A → Diagnostics) (l : list A) : Diagnostics := scan name f 0 [] l.

Definition v_attribute (ptr : string) (j : nat) (dup : bool) (a : Attribute) : Diagnostics :=
  let aptr := [Seg ptr; Seg "attributes"; Seg (attr_Name a)] in
  unless (ValidIdent (attr_Name a)) (diag aptr CodeInvalidName) ++
  unless (negb dup) (diag aptr CodeDuplicate) ++
  unless (Type_Valid (attr_Type a)) (diag aptr CodeUnknownType).

Definition v_entity (i : nat) (dup : bool) (e : EntityType) : Diagnostics :=
  let name := [Seg "schema"; Seg "entities"; Idx i; Seg "name"] in
  unless (ValidIdent (ent_Name e)) (diag name CodeInvalidName) ++
  unless (negb dup) (diag name CodeDuplicate) ++
  each attr_Name (v_attribute (jptr [Seg "schema"; Seg "entities"; Idx i])) (ent_Attributes e).

Definition v_action (i : nat) (dup : bool) (a : Action) : Diagnostics :=
  let name := [Seg "schema"; Seg "actions"; Idx i; Seg "name"] in
  unless (ValidName (act_Name a)) (diag name CodeInvalidName) ++
  unless (negb dup) (diag name CodeDuplicate).

Definition v_param (ptr : string) (j : nat) (dup : bool) (p : Param) : Diagnostics :=
  let pptr := [Seg ptr; Seg "params"; Idx j] in
  unless (ValidIdent (par_Name p)) (diag pptr CodeInvalidName) ++
  unless (negb dup) (diag pptr CodeDuplicate) ++
  unless (Type_Valid (par_Type p)) (diag pptr CodeUnknownType).

Definition v_source (i : nat) (dup : bool) (d : SourceDecl) : Diagnostics :=
  let ptr := jptr [Seg "schema"; Seg "sources"; Idx i] in
  unless (ValidIdent (src_Name d)) (diag [Seg ptr; Seg "name"] CodeInvalidName) ++
  unless (negb dup) (diag [Seg ptr; Seg "name"] CodeDuplicate) ++
  unless (SourceKind_Valid (src_Kind d)) (diag [Seg ptr; Seg "kind"] CodeInvalidValue) ++
  unless (bool_decide (src_OnError d = OnErrorUnset) || OnError_Valid (src_OnError d)) (diag [Seg ptr; Seg "on_error"] CodeInvalidValue) ++
  unless (Type_Valid (src_Returns d)) (diag [Seg ptr; Seg "returns"] CodeUnknownType) ++
  each par_Name (v_param ptr) (src_Params d).

(** [validator.schema]. *)
Definition v_schema (s : Schema) : Diagnostics :=
  each ent_Name v_entity (sch_Entities s) ++ each act_Name v_action (sch_Actions s) ++ each src_Name v_source (sch_Sources s).

(** ** Operands *)

Definition checkScalarData (t : Typ) (data : value) : bool :=
  if bool_decide (t = TypeBool) then match data with VBool _ => true | _ => false end
  else if bool_decide (t = TypeInt) then match data with VInt _ => true | _ => false end
  else if bool_decide (t = TypeDouble) then match data with VDouble _ => true | _ => false end
  else if bool_decide (t = TypeString) then match data with VString _ => true | _ => false end
  else if bool_decide (t = TypeTimestamp) then match data with VTime _ => true | _ => false end
  else if bool_decide (t = TypeDuration) then match data with VDuration _ => true | _ => false end
  else false.

Definition checkLiteralData (l : Literal) : bool :=
  if IsList (lit_Type l) then
    match lit_Data l with VList items => forallb (checkScalarData (Elem (lit_Type l))) items | _ => false end
  else checkScalarData (lit_Type l) (lit_Data l).

(** The type of an operand, and what was reported on the way. *)
Definition typed : Type := option Typ * Diagnostics.
Definition fail_at (ptr : string) (code : Code) : typed := (None, [mkDiagnostic ptr code]).

Section operands.
Context (s : Schema) (p : Policy).

Definition v_field (ptr : string) (r : Role) (attribute : string) : typed :=
  if negb (Role_Valid r) then fail_at ptr CodeInvalidValue
  else match EntityFor p r with
  | None => fail_at ptr CodeUnboundRole
  | Some name =>
      match Schema_Entity s name with
      | None => fail_at ptr CodeUnknownEntity
      | Some e =>
          match EntityType_Attribute e attribute with
          | None => fail_at ptr CodeUnknownAttribute
          | Some a => if Type_Valid (attr_Type a) then (Some (attr_Type a), []) else fail_at ptr CodeUnknownType
          end
      end
  end.

Definition v_literal (ptr : string) (l : Literal) : typed :=
  if negb (Type_Valid (lit_Type l)) then fail_at ptr CodeUnknownType
  else if checkLiteralData l then (Some (lit_Type l), []) else fail_at ptr CodeInvalidValue.

(** The arguments of a source call against its parameters; both have the same length. *)
Fixpoint v_args (ptr : string) (i : nat) (args : list typed) (ps : list Param) : bool * Diagnostics :=
  match args, ps with
  | (t, ds) :: args, q :: ps =>
      let '(ok, rest) := v_args ptr (S i) args ps in
      match t with
      | None => (false, ds ++ rest)
      | Some t =>
          if bool_decide (t = par_Type q) then (ok, ds ++ rest)
          else (false, ds ++ [diag [Seg ptr; Seg "args"; Idx i] CodeTypeMismatch] ++ rest)
      end
  | _, _ => (true, [])
  end.

Fixpoint operandType (o : Operand) (ptr : string) (nested : bool) : typed :=
  match o with
  | FieldRef r a => v_field ptr r a
  | SourceRef name args =>
      if nested then fail_at ptr CodeInvalidOperand
      else match Schema_Source s name with
      | None => fail_at ptr CodeUnknownSource
      | Some decl =>
          if negb (length args =? length (src_Params decl))%nat then fail_at ptr CodeArityMismatch
          else
            let types := (fix go i args := match args with
                            | [] => []
                            | arg :: args => operandType arg (jptr [Seg ptr; Seg "args"; Idx i]) true :: go (S i) args
                            end) 0 args in
            let '(ok, ds) := v_args ptr 0 types (src_Params decl) in
            if negb ok then (None, ds)
            else if Type_Valid (src_Returns decl) then (Some (src_Returns decl), ds)
            else (None, ds ++ [mkDiagnostic ptr CodeUnknownType])
      end
  | Lit l => v_literal ptr l
  | OperandNil => fail_at ptr CodeMissingField
  end.

(** ** Conditions *)

Definition LogicOp_string (op : LogicOp) : string :=
  match op with LogicAll => "all" | LogicAny => "any" | LogicNot => "not" | LogicOther s => s end.

Definition v_compare (ptr : string) (l : Operand) (op : CompareOp) (r : Operand) : Diagnostics :=
  if negb (CompareOp_Valid op) then [diag [Seg ptr; Seg "op"] CodeInvalidOperator]
  else
    let '(lt, lds) := operandType l (jptr [Seg ptr; Seg "left"]) false in
    let '(rt, rds) := operandType r (jptr [Seg ptr; Seg "right"]) false in
    lds ++ rds ++
    match lt, rt with
    | Some a, Some b =>
        if negb (bool_decide (a = b)) then [diag [Seg ptr; Seg "right"] CodeTypeMismatch]
        else unless (negb (CompareOp_Ordering op) || IsOrdered a) (diag [Seg ptr; Seg "op"] CodeInvalidOperator)
    | _, _ => []
    end.

Definition v_member (ptr : string) (l c : Operand) (negate : bool) : Diagnostics :=
  let key := if negate then "not_in" else "in" in
  let '(lt, lds) := operandType l (jptr [Seg ptr; Seg "left"]) false in
  let '(ct, cds) := operandType c (jptr [Seg ptr; Seg key]) false in
  lds ++ cds ++
  match lt, ct with
  | Some a, Some t =>
      if negb (IsList t) then [diag [Seg ptr; Seg key] CodeTypeMismatch]
      else unless (bool_decide (Elem t = a)) (diag [Seg ptr; Seg key] CodeTypeMismatch)
  | _, _ => []
  end.

Fixpoint v_condition (n : Node) (ptr : string) : Diagnostics :=
  match n with
  | Logic op ops =>
      if negb (LogicOp_Valid op) then [mkDiagnostic ptr CodeInvalidOperator]
      else match ops with
      | [] => [diag [Seg ptr; Seg (LogicOp_string op)] CodeMissingField]
      | _ =>
          if bool_decide (op = LogicNot) then
            match ops with
            | [x] => v_condition x (jptr [Seg ptr; Seg "not"])
            | _ => [diag [Seg ptr; Seg "not"] CodeArityMismatch]
            end
          else (fix go i ops := match ops with
                  | [] => []
                  | x :: ops => v_condition x (jptr [Seg ptr; Seg (LogicOp_string op); Idx i]) ++ go (S i) ops
                  end) 0 ops
      end
  | Compare l op r => v_compare ptr l op r
  | Member l c neg => v_member ptr l c neg
  | NodeNil => [mkDiagnostic ptr CodeInvalidDocument]
  end.

(** ** Challenges *)

Definition v_label (ptr : string) (kind : string) (i : nat) (dup : bool) (x : string) : Diagnostics :=
  unless (negb (bool_decide (TrimSpace x = ""))) (diag [Seg ptr; Seg kind; Idx i] CodeInvalidValue) ++
  unless (negb dup) (diag [Seg ptr; Seg kind; Idx i] CodeDuplicate).

(** How many of the three forms an approver set has. *)
Definition declared (a : ApproverSet) : nat :=
  length (List.filter id [bool_decide (0 < length (as_Members a)); negb (bool_decide (as_Claim a = "")); bool_decide (is_Some (as_Source a))]).

Definition approverSet (a : ApproverSet) (ptr : string) (threshold : Z) : Diagnostics :=
  if (declared a =? 0)%nat then [mkDiagnostic ptr CodeMissingField]
  else if (1 <? declared a)%nat then [mkDiagnostic ptr CodeInvalidValue]
  else match as_Members a, as_Source a with
  | (_ :: _) as members, _ =>
      each id (v_label ptr "members") members ++
      unless (negb ((0 <? threshold) && (Z.of_nat (length (remove_dups members)) <? threshold))%Z) (mkDiagnostic ptr CodeInvalidValue)
  | [], Some (name, args) =>
      if bool_decide (name = "") then [diag [Seg ptr; Seg "source"] CodeMissingField]
      else
        let '(t, ds) := operandType (SourceRef name args) ptr false in
        ds ++ match t with
              | None => []
              | Some t =>
                  if negb (bool_decide (t = ListOf TypeString)) then [mkDiagnostic ptr CodeTypeMismatch]
                  else match Schema_Source s name with
                  | Some decl => unless (bool_decide (src_Kind decl = SourceIdPGroup)) (mkDiagnostic ptr CodeInvalidValue)
                  | None => []
                  end
              end
  | [], None => unless (bool_decide (TrimSpace (as_Claim a) = as_Claim a)) (diag [Seg ptr; Seg "claim"] CodeInvalidValue)
  end.

Definition v_challenge (ptr : string) (c : Challenge) : Diagnostics :=
  match c with
  | CQuorum q =>
      unless (1 <=? q_Threshold q)%Z (diag [Seg ptr; Seg "threshold"] CodeInvalidValue) ++
      approverSet (q_Approvers q) (jptr [Seg ptr; Seg "approvers"]) (q_Threshold q)
  | CMFA m =>
      (if negb (MFAMode_Valid (mfa_Mode m)) then [diag [Seg ptr; Seg "mode"] CodeInvalidValue]
       else unless (negb (bool_decide (mfa_Mode m = MFADirect))) (diag [Seg ptr; Seg "mode"] CodeUnsupported)) ++
      each id (v_label ptr "acr_values") (mfa_ACRValues m)
  | CDelay d =>
      unless (0 <? d_Duration d)%Z (diag [Seg ptr; Seg "duration"] CodeInvalidValue) ++
      match d_CancellableBy d with None => [] | Some a => approverSet a (jptr [Seg ptr; Seg "cancellable_by"]) 0 end
  | CExternal e =>
      if bool_decide (e_Target e = "") then [diag [Seg ptr; Seg "target"] CodeMissingField]
      else unless (ValidName (e_Target e)) (diag [Seg ptr; Seg "target"] CodeInvalidName)
  end.

(** [validator.challenges]. *)
Definition v_challenges (ptr : string) : Diagnostics :=
  concat (imap (λ i c, v_challenge (jptr [Seg ptr; Seg "challenges"; Idx i]) c) (p_Challenges p)).

(** ** Policies *)

Definition v_role (ptr : string) (r : Role) : Diagnostics :=
  match EntityFor p r with
  | None => [diag [Seg ptr; Seg (Role_string r)] CodeMissingField]
  | Some name => unless (bool_decide (is_Some (Schema_Entity s name))) (diag [Seg ptr; Seg (Role_string r)] CodeUnknownEntity)
  end.

Definition v_govern (ptr : string) (i : nat) (dup : bool) (a : string) : Diagnostics :=
  unless (negb dup) (diag [Seg ptr; Seg "actions"; Idx i] CodeDuplicate) ++
  unless (HasAction s a) (diag [Seg ptr; Seg "actions"; Idx i] CodeUnknownAction).

(** The condition, if there is one, once it is known to be small. *)
Definition v_root (limits : Limits) (cptr : string) (n : Node) : Diagnostics :=
  match n with
  | NodeNil => []
  | n =>
      if over (lm_MaxConditionDepth limits) (Depth n) then [mkDiagnostic cptr CodeLimitExceeded]
      else if over (lm_MaxConditionNodes limits) (Count n) then [mkDiagnostic cptr CodeLimitExceeded]
      else v_condition n cptr
  end.

(** [validator.policy]. *)
Definition v_policy (limits : Limits) (ptr : string) : Diagnostics :=
  (if bool_decide (p_ID p = "") then [diag [Seg ptr; Seg "id"] CodeMissingField]
   else unless (ValidName (p_ID p)) (diag [Seg ptr; Seg "id"] CodeInvalidName)) ++
  v_role ptr RoleSubject ++ v_role ptr RoleResource ++
  (if bool_decide (p_Context p = "") then []
   else unless (bool_decide (is_Some (Schema_Entity s (p_Context p)))) (diag [Seg ptr; Seg "context"] CodeUnknownEntity)) ++
  unless (negb (length (p_Actions p) =? 0)%nat) (diag [Seg ptr; Seg "actions"] CodeMissingField) ++
  each id (v_govern ptr) (p_Actions p) ++
  v_challenges ptr ++
  v_root limits (jptr [Seg ptr; Seg "condition"]) (p_Condition p).
End operands.

(** ** Sets *)

(** A policy whose identifier an earlier one has is not looked at further. *)
Fixpoint v_policies (s : Schema) (limits : Limits) (i : nat) (before : list string) (ps : list Policy) : Diagnostics :=
  match ps with
  | [] => []
  | p :: ps =>
      if contains before (p_ID p) && negb (bool_decide (p_ID p = ""))
      then diag [Seg "policies"; Idx i; Seg "id"] CodeDuplicate :: v_policies s limits (S i) before ps
      else v_policy s p limits (jptr [Seg "policies"; Idx i]) ++ v_policies s limits (S i) (before ++ [p_ID p]) ps
  end.

Definition validateStatic (set : PolicySet) (limits : Limits) : Diagnostics :=
  v_schema (set_Schema set) ++
  unless (negb (over (lm_MaxPolicies limits) (length (set_Policies set)))) (mkDiagnostic "policies" CodeLimitExceeded) ++
  v_policies (set_Schema set) limits 0 [] (set_Policies set).

Definition compile_diags `{CEL} (s : Schema) (ps : list Policy) : Diagnostics :=
  concat (imap (λ i p, unless (is_ok (Compile s p)) (diag [Seg "policies"; Idx i; Seg "condition"] CodeCELCompile)) ps).

Definition ValidateWithLimits `{CEL} (set : PolicySet) (limits : Limits) : Diagnostics :=
  match validateStatic set limits with
  | [] => compile_diags (set_Schema set) (set_Policies set)
  | ds => ds
  end.

Definition Validate `{CEL} (set : PolicySet) : Diagnostics := ValidateWithLimits set DefaultLimits.
