(* ===== verification/ValidateSpec.v ===== *)
(** * What the validator accepts

    A declarative account of well-formed policy sets, that the static checks find
    nothing exactly when a set is one, and that what they accept the CEL builder turns
    into an expression that is well typed as a boolean. *)
From Stdlib Require Import Ascii.
From stdpp Require Import pretty.
From S2P Require Import Prelude GoLib Policy Cel Engine CelRef Validate.
Import Strings.

(** ** Well-formed sets *)

Record attribute_ok (a : Attribute) : Prop := { ao_name : ValidIdent (attr_Name a) = true; ao_type : Type_Valid (attr_Type a) = true }.
Record entity_ok (e : EntityType) : Prop := {
  eo_name : ValidIdent (ent_Name e) = true; eo_attrs : NoDup (map attr_Name (ent_Attributes e)) ∧ Forall attribute_ok (ent_Attributes e) }.
Record param_ok (q : Param) : Prop := { po_name : ValidIdent (par_Name q) = true; po_type : Type_Valid (par_Type q) = true }.
Record source_ok (d : SourceDecl) : Prop := {
  so_name : ValidIdent (src_Name d) = true;
  so_kind : src_Kind d ∈ SourceKinds;
  so_on_error : src_OnError d = OnErrorUnset ∨ OnError_Valid (src_OnError d) = true;
  so_returns : Type_Valid (src_Returns d) = true;
  so_params : NoDup (map par_Name (src_Params d)) ∧ Forall param_ok (src_Params d) }.

Record schema_ok (s : Schema) : Prop := {
  sc_entities : NoDup (map ent_Name (sch_Entities s)) ∧ Forall entity_ok (sch_Entities s);
  sc_actions : NoDup (map act_Name (sch_Actions s)) ∧ Forall (λ a, ValidName (act_Name a) = true) (sch_Actions s);
  sc_sources : NoDup (map src_Name (sch_Sources s)) ∧ Forall source_ok (sch_Sources s) }.

(** A literal holds a value of its type. *)
Inductive scalar_value : Typ → value → Prop :=
  | sv_bool b : scalar_value TypeBool (VBool b)
  | sv_int n : scalar_value TypeInt (VInt n)
  | sv_double f : scalar_value TypeDouble (VDouble f)
  | sv_string x : scalar_value TypeString (VString x)
  | sv_timestamp t : scalar_value TypeTimestamp (VTime t)
  | sv_duration d : scalar_value TypeDuration (VDuration d).

Inductive literal_value : Typ → value → Prop :=
  | lv_scalar t v : scalar_value t v → literal_value t v
  | lv_list t vs : t ∈ ScalarTypes → Forall (scalar_value t) vs → literal_value (ListOf t) (VList vs).

Section typing.
Context (s : Schema) (p : Policy).

(** An operand that is not a source call. *)
Inductive plain_typed : Operand → Typ → Prop :=
  | pt_field r name e a attr : r ∈ Roles → EntityFor p r = Some name → Schema_Entity s name = Some e →
      EntityType_Attribute e a = Some attr → Type_Valid (attr_Type attr) = true → plain_typed (FieldRef r a) (attr_Type attr)
  | pt_literal l : literal_value (lit_Type l) (lit_Data l) → plain_typed (Lit l) (lit_Type l).

Inductive operand_typed : Operand → Typ → Prop :=
  | ot_plain o t : plain_typed o t → operand_typed o t
  | ot_source name args d : Schema_Source s name = Some d → Forall2 (λ o q, plain_typed o (par_Type q)) args (src_Params d) →
      Type_Valid (src_Returns d) = true → operand_typed (SourceRef name args) (src_Returns d).

Inductive condition_ok : Node → Prop :=
  | ck_all n ops : Forall condition_ok (n :: ops) → condition_ok (Logic LogicAll (n :: ops))
  | ck_any n ops : Forall condition_ok (n :: ops) → condition_ok (Logic LogicAny (n :: ops))
  | ck_not n : condition_ok n → condition_ok (Logic LogicNot [n])
  | ck_compare l op r t : op ∈ CompareOps → operand_typed l t → operand_typed r t →
      (CompareOp_Ordering op = true → IsOrdered t = true) → condition_ok (Compare l op r)
  | ck_member l c neg t : operand_typed l t → operand_typed c (ListOf t) → condition_ok (Member l c neg).

(** Labels are not blank and not repeated. *)
Definition labels_ok (l : list string) : Prop := NoDup l ∧ Forall (λ x, TrimSpace x ≠ "") l.

(** An approver set has exactly one form. *)
Inductive approvers_ok : ApproverSet → Z → Prop :=
  | ak_members ms th : ms ≠ [] → labels_ok ms → ((0 < th)%Z → (th <= Z.of_nat (length ms))%Z) → approvers_ok (mkApproverSet ms "" None) th
  | ak_claim c th : c ≠ "" → TrimSpace c = c → approvers_ok (mkApproverSet [] c None) th
  | ak_source name args th d : name ≠ "" → Schema_Source s name = Some d → src_Kind d = SourceIdPGroup →
      operand_typed (SourceRef name args) (ListOf TypeString) → approvers_ok (mkApproverSet [] "" (Some (name, args))) th.

Definition challenge_ok (c : Challenge) : Prop :=
  match c with
  | CQuorum q => (1 <= q_Threshold q)%Z ∧ approvers_ok (q_Approvers q) (q_Threshold q)
  | CMFA m => mfa_Mode m = MFADelegated ∧ labels_ok (mfa_ACRValues m)
  | CDelay d => (0 < d_Duration d)%Z ∧ match d_CancellableBy d with None => True | Some a => approvers_ok a 0 end
  | CExternal e => ValidName (e_Target e) = true
  end.

Definition within (limit : Z) (n : nat) : Prop := (limit <= 0 ∨ Z.of_nat n <= limit)%Z.

Record policy_ok (limits : Limits) : Prop := {
  py_id : ValidName (p_ID p) = true;
  py_subject : is_Some (Schema_Entity s (p_Subject p)) ∧ p_Subject p ≠ "";
  py_resource : is_Some (Schema_Entity s (p_Resource p)) ∧ p_Resource p ≠ "";
  py_context : p_Context p = "" ∨ is_Some (Schema_Entity s (p_Context p));
  py_actions : p_Actions p ≠ [] ∧ NoDup (p_Actions p) ∧ Forall (λ a, HasAction s a = true) (p_Actions p);
  py_challenges : Forall challenge_ok (p_Challenges p);
  py_condition : p_Condition p = NodeNil ∨
      within (lm_MaxConditionDepth limits) (Depth (p_Condition p)) ∧ within (lm_MaxConditionNodes limits) (Count (p_Condition p)) ∧
      condition_ok (p_Condition p) }.
End typing.

Record well_formed (set : PolicySet) (limits : Limits) : Prop := {
  wf_schema : schema_ok (set_Schema set);
  wf_size : within (lm_MaxPolicies limits) (length (set_Policies set));
  wf_ids : NoDup (map p_ID (set_Policies set));
  wf_policies : Forall (λ p, policy_ok (set_Schema set) p limits) (set_Policies set) }.

(** ** The checks against the account *)

Lemma unless_nil b d : unless b d = [] ↔ b = true.
Proof. by destruct b. Qed.
Lemma app_nil_iff {A} (l k : list A) : l ++ k = [] ↔ l = [] ∧ k = [].
Proof. split; [apply app_eq_nil|]. by intros [-> ->]. Qed.

Lemma scan_nil {A} (name : A → string) f (P : A → Prop) i before l :
  (∀ i dup a, f i dup a = [] ↔ dup = false ∧ P a) →
  scan name f i before l = [] ↔ NoDup (map name l) ∧ (∀ a, a ∈ l → name a ∉ before) ∧ Forall P l.
Proof.
  intros Hf. revert i before. induction l as [|a l IH]; intros i before; simpl.
  { split; [intros _|done]. split_and!; [constructor|set_solver|constructor]. }
  rewrite app_nil_iff, Hf, IH, NoDup_cons, Forall_cons. rewrite <-not_true_iff_false, contains_spec. split.
  - intros ((Hn & Ha) & Hnd & Hb & Hl). split_and!; try done.
    + intros (x & E & Hx)%elem_of_map. apply (Hb x Hx). rewrite E. set_solver.
    + intros x [->|Hx]%elem_of_cons; [done|]. specialize (Hb x Hx). set_solver.
  - intros ((Hn & Hnd) & Hb & Ha & Hl). split_and!; try done; [apply Hb; set_solver|].
    intros x Hx [Hin|E%list_elem_of_singleton]%elem_of_app; [by apply (Hb x); [set_solver|]|].
    apply Hn. rewrite <-E. apply elem_of_map. eauto.
Qed.

Lemma each_nil {A} (name : A → string) f (P : A → Prop) l :
  (∀ i dup a, f i dup a = [] ↔ dup = false ∧ P a) → each name f l = [] ↔ NoDup (map name l) ∧ Forall P l.
Proof. intros Hf. unfold each. rewrite (scan_nil name f P) by done. split; [by intros (? & _ & ?)|]. intros [? ?]. split_and!; [done|set_solver|done]. Qed.

Lemma v_schema_nil s : v_schema s = [] ↔ schema_ok s.
Proof.
  unfold v_schema. rewrite !app_nil_iff, (each_nil _ _ entity_ok), (each_nil _ _ (λ a, ValidName (act_Name a) = true)), (each_nil _ _ source_ok).
  - split; [intros (? & ? & ?); by split|intros []; done].
  - intros i dup d. unfold v_source. rewrite !app_nil_iff, !unless_nil, negb_true_iff, (each_nil _ _ param_ok).
    + unfold SourceKind_Valid. rewrite contains_spec, orb_true_iff, bool_decide_eq_true. split; [intros (? & ? & ? & ? & ? & ?); split; [done|by split]|].
      intros [? []]. done.
    + intros j dup' q. unfold v_param. rewrite !app_nil_iff, !unless_nil, negb_true_iff. split; [intros (? & ? & ?); split; [done|by split]|intros [? []]; done].
  - intros i dup a. unfold v_action. rewrite app_nil_iff, !unless_nil, negb_true_iff. naive_solver.
  - intros i dup e. unfold v_entity. rewrite !app_nil_iff, !unless_nil, negb_true_iff, (each_nil _ _ attribute_ok).
    + split; [intros (? & ? & ?); split; [done|by split]|intros [? []]; done].
    + intros j dup' q. unfold v_attribute. rewrite !app_nil_iff, !unless_nil, negb_true_iff. split; [intros (? & ? & ?); split; [done|by split]|intros [? []]; done].
Qed.

Lemma checkScalarData_iff t v : checkScalarData t v = true ↔ scalar_value t v.
Proof.
  unfold checkScalarData. split.
  - repeat case_bool_decide; subst; try done; destruct v; try done; constructor.
  - by destruct 1.
Qed.

Lemma scalar_value_type t v : scalar_value t v → t ∈ ScalarTypes.
Proof. destruct 1; apply (bool_decide_unpack _); exact I. Qed.

Lemma checkLiteralData_iff l : Type_Valid (lit_Type l) && checkLiteralData l = true ↔ literal_value (lit_Type l) (lit_Data l).
Proof.
  destruct l as [t v]. simpl. unfold checkLiteralData, Type_Valid. simpl. destruct (IsList t) eqn:El.
  - apply IsList_inv in El as [e ->]. rewrite Elem_ListOf, andb_true_iff, IsScalar_iff. split.
    + intros [He Hv]. destruct v; try done. apply lv_list; [done|]. rewrite forallb_true in Hv. apply Forall_forall. intros x Hx.
      by apply checkScalarData_iff, Hv.
    + intros Hl. remember (ListOf e) as te eqn:E. destruct Hl as [t v Hs|t vs Ht Hvs].
      * subst. apply scalar_value_type, scalar_not_list in Hs. by rewrite IsList_ListOf in Hs.
      * apply ListOf_inj in E as ->. split; [done|]. apply forallb_true. intros x Hx. rewrite Forall_forall in Hvs. by apply checkScalarData_iff, Hvs.
  - rewrite andb_true_iff, checkScalarData_iff, IsScalar_iff. split; [intros [_ Hv]; by constructor|].
    intros Hl. destruct Hl as [t v Hs|t vs Ht Hvs]; [|by rewrite IsList_ListOf in El]. split; [by eapply scalar_value_type|done].
Qed.

Section checks.
Context (s : Schema) (p : Policy).

(** What a check of an operand answers, against a typing. *)
Definition answers_typing (r : typed) (T : Typ → Prop) : Prop :=
  match r with
  | (Some t, ds) => ds = [] ∧ T t ∧ ∀ t', T t' → t' = t
  | (None, ds) => ds ≠ [] ∧ ∀ t, ¬ T t
  end.

Lemma v_field_spec ptr r a : answers_typing (v_field s p ptr r a) (plain_typed s p (FieldRef r a)).
Proof.
  unfold v_field, fail_at. destruct (Role_Valid r) eqn:Hr; simpl.
  2: { split; [done|]. intros t Ht. inversion Ht as [r' name e a' attr Hin _ _ _ _|]; subst. apply (proj2 (contains_spec _ _)) in Hin. unfold Role_Valid in Hr. congruence. }
  apply contains_spec in Hr. destruct (EntityFor p r) as [name|] eqn:En; simpl.
  2: { split; [done|]. intros t Ht. inversion Ht; congruence. }
  destruct (Schema_Entity s name) as [e|] eqn:Ee; simpl.
  2: { split; [done|]. intros t Ht. inversion Ht; congruence. }
  destruct (EntityType_Attribute e a) as [attr|] eqn:Ea; simpl.
  2: { split; [done|]. intros t Ht. inversion Ht; congruence. }
  destruct (Type_Valid (attr_Type attr)) eqn:Ev; simpl.
  - split_and!; [done|by eapply pt_field|]. intros t' Ht. inversion Ht; congruence.
  - split; [done|]. intros t Ht. inversion Ht; congruence.
Qed.

Lemma v_literal_spec ptr l : answers_typing (v_literal ptr l) (plain_typed s p (Lit l)).
Proof.
  unfold v_literal, fail_at. pose proof (checkLiteralData_iff l) as Hl. destruct (Type_Valid (lit_Type l)); simpl in *.
  - destruct (checkLiteralData l).
    + split_and!; [done|constructor; by apply Hl|]. intros t' Ht. by inversion Ht.
    + split; [done|]. intros t Ht. inversion Ht as [|? Hv]; subst. by apply Hl in Hv.
  - split; [done|]. intros t Ht. inversion Ht as [|? Hv]; subst. by apply Hl in Hv.
Qed.

Lemma operandType_nested o ptr : answers_typing (operandType s p o ptr true) (plain_typed s p o).
Proof.
  destruct o; simpl; [|apply v_field_spec| |apply v_literal_spec]; (split; [done|]; intros t Ht; by inversion Ht).
Qed.

Lemma v_args_spec ptr i types args ps :
  Forall2 (λ r o, answers_typing r (plain_typed s p o)) types args → length args = length ps →
  match v_args ptr i types ps with
  | (true, ds) => ds = [] ∧ Forall2 (λ o q, plain_typed s p o (par_Type q)) args ps
  | (false, ds) => ds ≠ [] ∧ ¬ Forall2 (λ o q, plain_typed s p o (par_Type q)) args ps
  end.
Proof.
  intros Hf. revert i ps. induction Hf as [|[t ds] o types args Ho _ IH]; intros i [|q ps]; simpl; try done.
  intros [= El]. specialize (IH (S i) ps El). destruct (v_args ptr (S i) types ps) as [ok rest]. destruct t as [t|]; simpl in Ho.
  - destruct Ho as (-> & Ht & Hu). case_bool_decide as E; simpl.
    + destruct ok; destruct IH as [E1 E2]; (split; [done|]); [constructor; [by rewrite <-E|done]|]. by intros [_ ?]%Forall2_cons.
    + split; [done|]. intros [Hq _]%Forall2_cons. apply Hu in Hq. congruence.
  - destruct Ho as [Hne Hno]. split; [by destruct ds|]. intros [Hq _]%Forall2_cons. by apply Hno in Hq.
Qed.

Lemma operandType_spec o ptr : answers_typing (operandType s p o ptr false) (operand_typed s p o).
Proof.
  assert (∀ r, (∀ name args, o ≠ SourceRef name args) → answers_typing r (plain_typed s p o) → answers_typing r (operand_typed s p o)) as Hplain.
  { intros [[t|] ds] Hns; simpl.
    - intros (-> & Ht & Hu). split_and!; [done|by constructor|]. intros t' Ht'. inversion Ht'; subst; [by apply Hu|]. by destruct (Hns name args).
    - intros [Hne Hno]. split; [done|]. intros t Ht. inversion Ht; subst; [by eapply Hno|]. by destruct (Hns name args). }
  destruct o as [|r a|name args|l]; simpl.
  - split; [done|]. intros t Ht. inversion Ht as [? ? Hp|]; subst. by inversion Hp.
  - apply Hplain; [done|apply v_field_spec].
  - assert (∀ t, operand_typed s p (SourceRef name args) t → ∃ d, Schema_Source s name = Some d ∧ t = src_Returns d ∧
        Forall2 (λ o q, plain_typed s p o (par_Type q)) args (src_Params d) ∧ Type_Valid (src_Returns d) = true) as Hinv.
    { intros t Ht. inversion Ht as [? ? Hp|]; subst; [by inversion Hp|eauto]. }
    destruct (Schema_Source s name) as [d|] eqn:Ed; [|split; [done|]; by intros t (d & [=] & _)%Hinv].
    destruct (Nat.eqb_spec (length args) (length (src_Params d))) as [El|El]; simpl.
    2: { split; [done|]. intros t (d' & [= <-] & _ & Hf & _)%Hinv. by apply Forall2_length in Hf. }
    match goal with |- context [v_args ptr 0 ?l _] => set (types := l) end.
    assert (Forall2 (λ r o, answers_typing r (plain_typed s p o)) types args) as Hty.
    { subst types. generalize 0. clear. induction args as [|o args IH]; intros i; constructor; [apply operandType_nested|apply IH]. }
    pose proof (v_args_spec ptr 0 types args (src_Params d) Hty El) as Ha. destruct (v_args ptr 0 types (src_Params d)) as [[|] ds]; simpl.
    + destruct Ha as [-> Hf]. destruct (Type_Valid (src_Returns d)) eqn:Ev; simpl.
      * split_and!; [done|by apply ot_source|]. by intros t' (d' & [= <-] & -> & _)%Hinv.
      * split; [done|]. intros t (d' & [= <-] & _ & _ & Ev')%Hinv. congruence.
    + destruct Ha as [Hne Hno]. split; [done|]. by intros t (d' & [= <-] & _ & Hf & _)%Hinv.
  - apply Hplain; [done|apply v_literal_spec].
Qed.

(** ** Conditions *)

Lemma ListOf_Elem_eq t a : IsList t = true → Elem t = a ↔ t = ListOf a.
Proof. intros [e ->]%IsList_inv. rewrite Elem_ListOf. split; [by intros ->|apply ListOf_inj]. Qed.

Lemma v_compare_nil ptr l op r : v_compare s p ptr l op r = [] ↔ condition_ok s p (Compare l op r).
Proof.
  unfold v_compare. pose proof (operandType_spec l (jptr [Seg ptr; Seg "left"])) as Hl. pose proof (operandType_spec r (jptr [Seg ptr; Seg "right"])) as Hr.
  destruct (CompareOp_Valid op) eqn:Hop; simpl; unfold CompareOp_Valid in Hop.
  2: { split; [done|]. intros Hc. inversion Hc as [| | |? ? ? ? Hin|]; subst. apply (proj2 (contains_spec _ _)) in Hin. congruence. }
  apply contains_spec in Hop. destruct (operandType s p l _ false) as [[a|] lds], (operandType s p r _ false) as [[b|] rds]; simpl in Hl, Hr.
  1: { destruct Hl as (-> & Ha & Hua), Hr as (-> & Hb & Hub). simpl. case_bool_decide as Eab; simpl.
       - subst b. rewrite unless_nil, orb_true_iff, negb_true_iff. split.
         + intros Ho. apply (ck_compare s p l op r a); [done..|]. intros Hord. destruct Ho; congruence.
         + intros Hc. inversion Hc as [| | |? ? ? t Hin Hlt Hrt Hord|]; subst. apply Hua in Hlt as ->. destruct (CompareOp_Ordering op); auto.
       - split; [done|]. intros Hc. inversion Hc as [| | |? ? ? t Hin Hlt Hrt Hord|]; subst. apply Hua in Hlt as ->. apply Hub in Hrt. congruence. }
  all: rewrite !app_nil_iff; split; [intros (? & ? & _); subst; naive_solver|].
  all: intros Hc; inversion Hc as [| | |? ? ? t Hin Hlt Hrt Hord|]; subst; naive_solver.
Qed.

Lemma v_member_nil ptr l c neg : v_member s p ptr l c neg = [] ↔ condition_ok s p (Member l c neg).
Proof.
  unfold v_member. set (key := if neg then "not_in" else "in"). pose proof (operandType_spec l (jptr [Seg ptr; Seg "left"])) as Hl. pose proof (operandType_spec c (jptr [Seg ptr; Seg key])) as Hr.
  destruct (operandType s p l _ false) as [[a|] lds], (operandType s p c _ false) as [[b|] rds]; simpl in Hl, Hr.
  1: { destruct Hl as (-> & Ha & Hua), Hr as (-> & Hb & Hub). simpl. destruct (IsList b) eqn:El; simpl.
       - rewrite unless_nil, bool_decide_eq_true, ListOf_Elem_eq by done. split; [intros ->; by apply (ck_member s p l c neg a)|].
         intros Hc. inversion Hc as [| | | |? ? ? t Hlt Hct]; subst. apply Hua in Hlt as ->. by apply Hub in Hct.
       - split; [done|]. intros Hc. inversion Hc as [| | | |? ? ? t Hlt Hct]; subst. apply Hub in Hct as <-. by rewrite IsList_ListOf in El. }
  all: rewrite !app_nil_iff; split; [intros (? & ? & _); subst; naive_solver|].
  all: intros Hc; inversion Hc; subst; naive_solver.
Qed.

Lemma v_operands_nil f (P : Node → Prop) ops i :
  Forall (λ n, ∀ ptr, v_condition s p n ptr = [] ↔ P n) ops →
  (fix go i ops := match ops with [] => [] | x :: ops => v_condition s p x (f i) ++ go (S i) ops end) i ops = [] ↔ Forall P ops.
Proof.
  intros Hall. revert i. induction Hall as [|n ops Hn _ IH]; intros i; [done|]. by rewrite app_nil_iff, Hn, IH, Forall_cons.
Qed.

Lemma v_condition_nil n ptr : v_condition s p n ptr = [] ↔ condition_ok s p n.
Proof.
  revert ptr. induction n as [|op ops IH|l op r|l c neg] using Node_nested_ind; intros ptr.
  - split; [done|]. by inversion 1.
  - pose proof (λ f i, v_operands_nil f (condition_ok s p) ops i IH) as Hops. destruct op as [| | |x]; simpl.
    4: { split; [done|]. by inversion 1. }
    1-2: destruct ops as [|n ops]; [split; [done|]; by inversion 1|].
    1: trans (Forall (condition_ok s p) (n :: ops)); [apply (Hops (λ i, jptr [Seg ptr; Seg "all"; Idx i]) 0)|]; split; [by constructor|]; by inversion 1.
    1: trans (Forall (condition_ok s p) (n :: ops)); [apply (Hops (λ i, jptr [Seg ptr; Seg "any"; Idx i]) 0)|]; split; [by constructor|]; by inversion 1.
    destruct ops as [|n [|m ops]]; [split; [done|]; by inversion 1| |split; [done|]; by inversion 1].
    simpl. apply Forall_cons in IH as [IH _]. rewrite IH. split; [by constructor|]. by inversion 1.
  - apply v_compare_nil.
  - apply v_member_nil.
Qed.

(** ** Challenges *)

Lemma v_labels_nil ptr kind l : each id (v_label ptr kind) l = [] ↔ labels_ok l.
Proof.
  rewrite (each_nil _ _ (λ x, TrimSpace x ≠ "")); [by rewrite map_id|]. intros i dup x. unfold v_label.
  rewrite app_nil_iff, !unless_nil, !negb_true_iff, bool_decide_eq_false. naive_solver.
Qed.

Lemma remove_dups_NoDup_id (l : list string) : NoDup l → remove_dups l = l.
Proof. induction 1 as [|x l Hx _ IH]; simpl; [done|]. destruct (decide_rel _ x l); [done|by rewrite IH]. Qed.

#[local] Opaque operandType.
Lemma approverSet_nil a ptr th : approverSet s p a ptr th = [] ↔ approvers_ok s p a th.
Proof.
  destruct a as [[|m ms] c src].
  - unfold approverSet, declared. simpl. destruct (decide (c = "")) as [->|Hc]; destruct src as [[name args]|]; simpl.
    + case_bool_decide as En; simpl; [split; [done|]; by inversion 1|].
      pose proof (operandType_spec (SourceRef name args) ptr) as Ht. destruct (operandType s p _ ptr false) as [[t|] ds]; simpl in Ht.
      * destruct Ht as (-> & Ht & Hu). simpl. case_bool_decide as Et; simpl.
        -- subst t. inversion Ht as [? ? Hp|? ? d Hd Hargs Hret]; subst; [by inversion Hp|]. rewrite Hd, unless_nil, bool_decide_eq_true.
           split; [intros Hk; by apply (ak_source s p name args th d)|]. intros Hak. inversion Hak as [| |? ? ? d' _ Hd' Hk]; subst. congruence.
        -- split; [done|]. intros Hak. inversion Hak as [| |? ? ? d' _ Hd' Hk Hot]; subst. by apply Hu in Hot.
      * destruct Ht as [Hne Hno]. rewrite app_nil_iff. split; [naive_solver|]. intros Hak. inversion Hak; subst. naive_solver.
    + split; [done|]. by inversion 1.
    + rewrite (bool_decide_false (c = "")) by done. simpl. split; [done|]. inversion 1; congruence.
    + rewrite (bool_decide_false (c = "")) by done. simpl.
      rewrite unless_nil, bool_decide_eq_true. split; [by constructor|]. inversion 1; congruence.
  - destruct (decide (c = "" ∧ src = None)) as [[-> ->]|Hn].
    + change (approverSet s p _ ptr th) with (each id (v_label ptr "members") (m :: ms) ++
        unless (negb ((0 <? th) && (Z.of_nat (length (remove_dups (m :: ms))) <? th))%Z) (mkDiagnostic ptr CodeInvalidValue)).
      rewrite app_nil_iff, v_labels_nil, unless_nil, negb_true_iff, andb_false_iff, Z.ltb_ge, Z.ltb_ge. split.
      * intros [Hl Hth]. constructor; [done|done|]. intros Hpos. rewrite remove_dups_NoDup_id in Hth by apply Hl. lia.
      * intros Hak. inversion Hak as [? ? _ Hl Hth| |]; subst. split; [done|]. rewrite remove_dups_NoDup_id by apply Hl. lia.
    + split; [|inversion 1; subst; by destruct Hn]. unfold approverSet, declared. simpl.
      destruct src as [[name args]|]; simpl; (case_bool_decide as Ec; simpl; [|done]); [done|by destruct Hn].
Qed.

Lemma v_challenge_nil ptr c : v_challenge s p ptr c = [] ↔ challenge_ok s p c.
Proof.
  destruct c as [q|m|d|e]; simpl.
  - by rewrite app_nil_iff, unless_nil, approverSet_nil, Z.leb_le.
  - rewrite app_nil_iff, v_labels_nil. apply and_iff_compat_r. destruct (mfa_Mode m); simpl; done.
  - rewrite app_nil_iff, unless_nil, Z.ltb_lt. apply and_iff_compat_l. destruct (d_CancellableBy d); [apply approverSet_nil|done].
  - case_bool_decide as E; [rewrite E; done|]. by rewrite unless_nil.
Qed.

Lemma concat_imap_nil {A} (f : nat → A → Diagnostics) (P : A → Prop) l : (∀ i a, f i a = [] ↔ P a) → concat (imap f l) = [] ↔ Forall P l.
Proof.
  intros Hf. revert f Hf. induction l as [|a l IH]; intros f Hf; [done|]. rewrite imap_cons. simpl.
  by rewrite app_nil_iff, Hf, Forall_cons, (IH (f ∘ S)) by (intros; apply Hf).
Qed.

(** ** Policies *)

Lemma within_iff limit n : over limit n = false ↔ within limit n.
Proof. unfold over, within. rewrite andb_false_iff, Z.ltb_ge, Z.ltb_ge. done. Qed.

Lemma v_role_nil ptr r name : EntityFor p r = (if bool_decide (name = "") then None else Some name) →
  v_role s p ptr r = [] ↔ is_Some (Schema_Entity s name) ∧ name ≠ "".
Proof.
  intros E. unfold v_role. rewrite E. case_bool_decide; [naive_solver|]. rewrite unless_nil, bool_decide_eq_true. naive_solver.
Qed.

Lemma v_root_nil limits cptr n :
  v_root s p limits cptr n = [] ↔
  n = NodeNil ∨ within (lm_MaxConditionDepth limits) (Depth n) ∧ within (lm_MaxConditionNodes limits) (Count n) ∧ condition_ok s p n.
Proof.
  assert (n = NodeNil ∨ n ≠ NodeNil) as [->|Hn] by (destruct n; auto); [split; by auto|].
  trans (over (lm_MaxConditionDepth limits) (Depth n) = false ∧ over (lm_MaxConditionNodes limits) (Count n) = false ∧ v_condition s p n cptr = []).
  - destruct n; [done|..]; unfold v_root; (destruct (over _ _); [split; [done|by intros [? _]]|]; destruct (over _ _); [split; [done|by intros (_ & ? & _)]|]); naive_solver.
  - rewrite !within_iff, v_condition_nil. naive_solver.
Qed.

Lemma v_policy_nil limits ptr : v_policy s p limits ptr = [] ↔ policy_ok s p limits.
Proof.
  unfold v_policy, v_challenges. rewrite !app_nil_iff, unless_nil, v_root_nil, (v_role_nil ptr RoleSubject (p_Subject p)), (v_role_nil ptr RoleResource (p_Resource p)) by done.
  rewrite (concat_imap_nil _ (challenge_ok s p)) by (intros; apply v_challenge_nil).
  rewrite (each_nil _ _ (λ a, HasAction s a = true)), map_id, negb_true_iff, Nat.eqb_neq.
  2: { intros i dup a. unfold v_govern. rewrite app_nil_iff, !unless_nil, negb_true_iff. naive_solver. }
  assert ((if bool_decide (p_ID p = "") then [diag [Seg ptr; Seg "id"] CodeMissingField]
           else unless (ValidName (p_ID p)) (diag [Seg ptr; Seg "id"] CodeInvalidName)) = [] ↔ ValidName (p_ID p) = true) as ->.
  { case_bool_decide as E; [by rewrite E|apply unless_nil]. }
  assert ((if bool_decide (p_Context p = "") then []
           else unless (bool_decide (is_Some (Schema_Entity s (p_Context p)))) (diag [Seg ptr; Seg "context"] CodeUnknownEntity)) = []
          ↔ p_Context p = "" ∨ is_Some (Schema_Entity s (p_Context p))) as ->.
  { case_bool_decide; [naive_solver|]. rewrite unless_nil, bool_decide_eq_true. naive_solver. }
  split.
  { intros (? & ? & ? & ? & Hne & [? ?] & ? & ?). assert (p_Actions p ≠ []) by (by destruct (p_Actions p)). by constructor. }
  intros [? ? ? ? (? & ? & ?) ? ?]. assert (length (p_Actions p) ≠ 0) by (by destruct (p_Actions p)). done.
Qed.
End checks.

Lemma v_policies_nil s limits i before ps : "" ∉ before →
  v_policies s limits i before ps = [] ↔
  NoDup (map p_ID ps) ∧ (∀ p, p ∈ ps → p_ID p ∉ before) ∧ Forall (λ p, policy_ok s p limits) ps.
Proof.
  revert i before. induction ps as [|p ps IH]; intros i before Hb; simpl.
  { split; [intros _|done]. split_and!; [constructor|set_solver|constructor]. }
  rewrite NoDup_cons, Forall_cons. destruct (contains before (p_ID p)) eqn:Hc; simpl.
  { apply contains_spec in Hc. rewrite bool_decide_false by (by intros E; rewrite E in Hc). simpl. split; [done|]. intros (_ & Hn & _). by destruct (Hn p); [set_solver|]. }
  apply not_true_iff_false in Hc. rewrite contains_spec in Hc. rewrite app_nil_iff, v_policy_nil. split.
  - intros [Hp Hps]. assert (p_ID p ≠ "") as Hne by (intros E; pose proof (py_id _ _ _ Hp) as Hid; by rewrite E in Hid).
    apply IH in Hps as (Hnd & Hn & Hf); [|set_solver]. split_and!; try done.
    + intros (x & E & Hx)%elem_of_map. apply (Hn x Hx). rewrite E. set_solver.
    + intros x [->|Hx]%elem_of_cons; [done|]. specialize (Hn x Hx). set_solver.
  - intros ((Hn & Hnd) & Hb' & Hp & Hps). split; [done|].
    assert (p_ID p ≠ "") as Hne by (intros E; pose proof (py_id _ _ _ Hp) as Hid; by rewrite E in Hid). apply IH; [set_solver|]. split_and!; try done.
    intros x Hx [Hin|E%list_elem_of_singleton]%elem_of_app; [by apply (Hb' x); [set_solver|]|].
    apply Hn. rewrite <-E. apply elem_of_map. eauto.
Qed.

Lemma validateStatic_nil set limits : validateStatic set limits = [] ↔ well_formed set limits.
Proof.
  unfold validateStatic. rewrite !app_nil_iff, v_schema_nil, unless_nil, negb_true_iff, within_iff, v_policies_nil by set_solver.
  split; [by intros (? & ? & ? & _ & ?)|]. intros []. split_and!; try done. set_solver.
Qed.

(** C9. The static checks find nothing in a policy set exactly when it is well formed:
    names are valid and unique, types known, roles bound to declared entities, governed
    actions declared, every row of every condition compares operands of one type (an
    ordering only at an ordered type, a membership against a list of the left side's
    type), source calls match their declaration, each approver set has exactly one
    form and enough members for its threshold, and the sizes are within the limits. *)
Theorem validateStatic_correct set limits : validateStatic set limits = [] ↔ well_formed set limits.
Proof. apply validateStatic_nil. Qed.
