(* ===== verification/Delta.v ===== *)
(** * Revision deltas

    Models internal/policy/revision/delta.go (the delta type, its validation and
    its application), before.go (the server's reconstruction of the before face)
    and mode.go (authoring modes).  The document encoding a delta is compared and
    digested through is not modelled here. *)
From S2P Require Import Prelude GoLib Policy.

Inductive Origin := OriginForm | OriginFile | OriginOther (s : string).

#[export] Instance Origin_eq_dec : EqDecision Origin.
Proof. solve_decision. Defined.

Definition Origin_Valid (o : Origin) : bool :=
  match o with OriginForm | OriginFile => true | OriginOther _ => false end.

(** ** Authoring modes (mode.go) *)

Inductive AuthoringMode := AuthoringUnset | AuthoringBoth | AuthoringFile | AuthoringConsole | AuthoringOther (s : string).

Definition AuthoringMode_OrDefault (m : AuthoringMode) : AuthoringMode :=
  match m with AuthoringUnset => AuthoringBoth | _ => m end.

Definition AuthoringMode_Valid (m : AuthoringMode) : bool :=
  match m with AuthoringBoth | AuthoringFile | AuthoringConsole => true | _ => false end.

Definition Allows (m : AuthoringMode) (o : Origin) : bool :=
  match AuthoringMode_OrDefault m with
  | AuthoringFile => negb (bool_decide (o = OriginForm))
  | AuthoringConsole => negb (bool_decide (o = OriginFile))
  | _ => true
  end.

Definition checkAuthoring (m : AuthoringMode) (o : Origin) : result unit :=
  if Allows m o then Ok tt else Err [ErrAuthoringLocked].

(** ** Changes and deltas *)

Inductive ChangeKind := ChangeAdd | ChangeModify | ChangeDelete | ChangeTakeOwnership | ChangeOther (s : string).

#[export] Instance ChangeKind_eq_dec : EqDecision ChangeKind.
Proof. solve_decision. Defined.

Definition ChangeKinds : list ChangeKind := [ChangeAdd; ChangeModify; ChangeDelete; ChangeTakeOwnership].
Definition ChangeKind_Valid (k : ChangeKind) : bool := contains ChangeKinds k.

Record Change := mkChange {
  ch_Kind : ChangeKind;
  ch_PolicyID : string;
  ch_Before : option Policy;
  ch_After : option Policy;
  ch_FromOrigin : Origin;
  ch_ToOrigin : Origin }.

Record Delta := mkDelta {
  de_Changes : list Change;
  de_SchemaBefore : option Schema;
  de_SchemaAfter : option Schema }.

Definition no_origin : Origin := OriginOther "".

Definition Single (before after : option Policy) : Delta :=
  let one k id := mkDelta [mkChange k id before after no_origin no_origin] None None in
  match before, after with
  | None, None => mkDelta [] None None
  | None, Some a => one ChangeAdd (p_ID a)
  | Some b, None => one ChangeDelete (p_ID b)
  | Some _, Some a => one ChangeModify (p_ID a)
  end.

Definition PolicyIDs (d : Delta) : list string :=
  sort_by (λ s, s) String.le (map ch_PolicyID (de_Changes d)).

Definition Touches (d : Delta) (id : string) : bool :=
  existsb (λ c, bool_decide (ch_PolicyID c = id)) (de_Changes d).

Definition Delta_Change (d : Delta) (id : string) : option Change :=
  snd <$> list_find (λ c, ch_PolicyID c = id) (de_Changes d).

Definition validateShape (c : Change) : result unit :=
  let wantBefore := bool_decide (ch_Kind c ≠ ChangeAdd) in
  let wantAfter := bool_decide (ch_Kind c ≠ ChangeDelete) in
  let names p := bool_decide (p_ID p = ch_PolicyID c) in
  if wantBefore && bool_decide (ch_Before c = None) then Err [ErrInvalidDelta]
  else if negb wantBefore && bool_decide (ch_Before c ≠ None) then Err [ErrInvalidDelta]
  else if wantAfter && bool_decide (ch_After c = None) then Err [ErrInvalidDelta]
  else if negb wantAfter && bool_decide (ch_After c ≠ None) then Err [ErrInvalidDelta]
  else if negb (match ch_Before c with Some p => names p | None => true end) then Err [ErrInvalidDelta]
  else if negb (match ch_After c with Some p => names p | None => true end) then Err [ErrInvalidDelta]
  else if bool_decide (ch_Kind c = ChangeTakeOwnership) then
    if negb (Origin_Valid (ch_FromOrigin c)) || negb (Origin_Valid (ch_ToOrigin c)) then Err [ErrInvalidDelta]
    else if bool_decide (ch_FromOrigin c = ch_ToOrigin c) then Err [ErrInvalidDelta]
    else Ok tt
  else Ok tt.

Fixpoint validate_changes (seen : gset string) (cs : list Change) : result unit :=
  match cs with
  | [] => Ok tt
  | c :: cs =>
      if negb (ChangeKind_Valid (ch_Kind c)) then Err [ErrInvalidDelta]
      else if bool_decide (ch_PolicyID c = "") || negb (ValidName (ch_PolicyID c)) then Err [ErrInvalidDelta]
      else if bool_decide (ch_PolicyID c ∈ seen) then Err [ErrInvalidDelta]
      else
        let? _ := validateShape c in
        validate_changes ({[ch_PolicyID c]} ∪ seen) cs
  end.

(** [Validate]; whether the schema's documents differ is decided by the encoder
    and is an argument here. *)
Definition Validate (schemaChanged : bool) (d : Delta) : result unit :=
  if bool_decide (de_Changes d = []) && negb schemaChanged then Err [ErrInvalidDelta]
  else validate_changes ∅ (de_Changes d).

(** ** Applying a delta *)

(** The map from identifier to position; a later policy overwrites. *)
Fixpoint index_from (i : nat) (ps : list Policy) (m : gmap string nat) : gmap string nat :=
  match ps with
  | [] => m
  | p :: ps => index_from (S i) ps (<[p_ID p := i]> m)
  end.
Definition byID (ps : list Policy) : gmap string nat := index_from 0 ps ∅.

(** One iteration over [out.Policies] and the index.  A nil [After] the kind
    needs is a nil dereference; [Validate] refuses such a change. *)
Definition apply_change (c : Change) (st : list Policy * gmap string nat) : result (list Policy * gmap string nat) :=
  let '(ps, idx) := st in
  match ch_Kind c with
  | ChangeDelete =>
      match idx !! ch_PolicyID c with
      | None => Err [ErrInvalidDelta]
      | Some i => let ps' := take i ps ++ drop (S i) ps in Ok (ps', byID ps')
      end
  | ChangeAdd =>
      match idx !! ch_PolicyID c, ch_After c with
      | Some _, _ => Err [ErrInvalidDelta]
      | None, Some a => Ok (ps ++ [a], <[ch_PolicyID c := length ps]> idx)
      | None, None => Err []
      end
  | ChangeModify | ChangeTakeOwnership =>
      match idx !! ch_PolicyID c, ch_After c with
      | None, _ => Err [ErrInvalidDelta]
      | Some i, Some a => Ok (<[i := a]> ps, idx)
      | Some _, None => Err []
      end
  | ChangeOther _ => Ok st
  end.

Fixpoint apply_changes (cs : list Change) (st : list Policy * gmap string nat) : result (list Policy * gmap string nat) :=
  match cs with
  | [] => Ok st
  | c :: cs => let? st' := apply_change c st in apply_changes cs st'
  end.

Definition Result (d : Delta) (base : option PolicySet) : result PolicySet :=
  let ps := match base with Some b => set_Policies b | None => [] end in
  let sch := match de_SchemaAfter d, base with
             | Some s, _ => s | None, Some b => set_Schema b | None, None => mkSchema [] [] [] end in
  let? st := apply_changes (de_Changes d) (ps, byID ps) in
  Ok (mkSet sch st.1).

(** ** The before face (before.go)

    [held] is what the store holds, each document decoded. *)
Definition reconstruct_change (held : gmap string (result Policy)) (c : Change) : result Change :=
  if bool_decide (ch_Kind c = ChangeAdd) then Ok c
  else match held !! ch_PolicyID c with
  | None => Ok c
  | Some stored =>
      let? p := stored in
      Ok (mkChange (ch_Kind c) (ch_PolicyID c) (Some p) (ch_After c) (ch_FromOrigin c) (ch_ToOrigin c))
  end.

Definition reconstructed (schema : result Schema) (held : gmap string (result Policy)) (d : Delta) : result Delta :=
  let? before := match de_SchemaAfter d with
                 | None => Ok None
                 | Some _ => let? s := schema in Ok (Some s)
                 end in
  let? cs := res_map (reconstruct_change held) (de_Changes d) in
  Ok (mkDelta cs before (de_SchemaAfter d)).

(** ** What applying a delta does *)

Definition index_ok (ps : list Policy) (idx : gmap string nat) : Prop :=
  ∀ id i, idx !! id = Some i ↔ p_ID <$> ps !! i = Some id.

Lemma index_ok_NoDup ps idx : index_ok ps idx → NoDup (map p_ID ps).
Proof.
  intros Hok. apply NoDup_alt. intros i j id Hi Hj. rewrite list_lookup_fmap in Hi, Hj.
  apply Hok in Hi. apply Hok in Hj. congruence.
Qed.

Lemma byID_ok ps : NoDup (map p_ID ps) → index_ok ps (byID ps).
Proof.
  unfold byID. intros Hnd.
  cut (∀ k m, (∀ id, id ∈ map p_ID ps → m !! id = None) →
         ∀ id j, index_from k ps m !! id = Some j ↔
           m !! id = Some j ∨ ∃ i, j = k + i ∧ p_ID <$> ps !! i = Some id).
  { intros Hc id i. rewrite (Hc 0 ∅); [|by intros; apply lookup_empty]. rewrite lookup_empty. naive_solver. }
  induction ps as [|p ps IH]; intros k m Hm id j; simpl.
  { split; [auto|]. intros [?|(i & _ & Hi)]; [done|]. by destruct i. }
  simpl in Hnd. apply NoDup_cons in Hnd as [Hp Hnd]. rewrite IH; [|done|].
  - destruct (decide (p_ID p = id)) as [<-|Hne].
    + rewrite lookup_insert_eq, (Hm (p_ID p)) by set_solver. split.
      * intros [[= <-]|(i & -> & Hi)]; right; [exists 0; naive_solver lia|exists (S i); naive_solver lia].
      * intros [?|([|i] & -> & Hi)]; [done|left; f_equal; lia|]. simpl in Hi. destruct Hp.
        apply fmap_Some in Hi as (q & Hq & ->). apply elem_of_map. exists q. split; [done|].
        by eapply list_elem_of_lookup_2.
    + rewrite lookup_insert_ne by done. split.
      * intros [?|(i & -> & Hi)]; [auto|]. right. exists (S i). naive_solver lia.
      * intros [?|([|i] & -> & Hi)]; [auto| |]; simpl in Hi; [by simplify_eq|]. right. exists i. naive_solver lia.
  - intros id' Hid. rewrite lookup_insert_ne; [apply Hm; set_solver|]. intros <-. done.
Qed.

Lemma index_ok_lookup ps idx id i : index_ok ps idx → idx !! id = Some i →
  ∃ p, ps !! i = Some p ∧ p_ID p = id.
Proof. intros Hok Hi%Hok. apply fmap_Some in Hi as (p & ? & ->). eauto. Qed.

Lemma index_ok_elem ps idx p : index_ok ps idx → p ∈ ps → ∃ i, idx !! p_ID p = Some i ∧ ps !! i = Some p.
Proof.
  intros Hok [i Hi]%list_elem_of_lookup. exists i. split; [|done]. apply Hok. by rewrite Hi.
Qed.

(** What [validateShape] establishes of a change. *)
Lemma validateShape_ok c : validateShape c = Ok tt →
  (∀ p, ch_After c = Some p → p_ID p = ch_PolicyID c) ∧
  (∀ p, ch_Before c = Some p → p_ID p = ch_PolicyID c) ∧
  (ch_Kind c = ChangeDelete ↔ ch_After c = None) ∧
  (ch_Kind c = ChangeAdd ↔ ch_Before c = None).
Proof.
  unfold validateShape. destruct (ch_Before c) as [b|], (ch_After c) as [a|], (ch_Kind c);
    repeat (case_bool_decide; simpl; try done); intros; split_and!; naive_solver.
Qed.

Lemma delete_middle {A} (l : list A) i x : l !! i = Some x → ∀ y, y ∈ l ↔ y = x ∨ y ∈ take i l ++ drop (S i) l.
Proof.
  intros Hi y. rewrite <-(take_drop_middle l i x Hi) at 1. set_solver.
Qed.

Lemma apply_modify_ok (ps : list Policy) idx id i a :
  index_ok ps idx → idx !! id = Some i → p_ID a = id →
  index_ok (<[i := a]> ps) idx ∧ (∀ p, p ∈ <[i := a]> ps ↔ Some a = Some p ∨ (p ∈ ps ∧ p_ID p ≠ id)).
Proof.
  intros Hok Hi Ha. destruct (index_ok_lookup _ _ _ _ Hok Hi) as (q & Hq & Eq).
  assert (i < length ps) as Hlt by (by eapply lookup_lt_Some). split.
  - intros id' j. rewrite (Hok id' j). destruct (decide (i = j)) as [<-|Hne].
    + rewrite list_lookup_insert_eq by done. rewrite Hq. simpl. by rewrite Ha, Eq.
    + by rewrite list_lookup_insert_ne.
  - intros p. split.
    + intros [j Hj]%list_elem_of_lookup. destruct (decide (i = j)) as [<-|Hne].
      * rewrite list_lookup_insert_eq in Hj by done. auto.
      * rewrite list_lookup_insert_ne in Hj by done. right. split; [by eapply list_elem_of_lookup_2|].
        intros E. assert (idx !! id = Some j) by (apply Hok; by rewrite Hj, <-E). congruence.
    + intros [[= <-]|[Hp Hne]]; [apply list_elem_of_lookup; exists i; by apply list_lookup_insert_eq|].
      apply list_elem_of_lookup in Hp as [j Hj]. apply list_elem_of_lookup. exists j.
      rewrite list_lookup_insert_ne; [done|]. intros <-. rewrite Hq in Hj. by simplify_eq.
Qed.

#[local] Arguments apply_change : simpl never.

Lemma apply_change_ok c ps idx ps' idx' :
  ChangeKind_Valid (ch_Kind c) = true → validateShape c = Ok tt → index_ok ps idx →
  apply_change c (ps, idx) = Ok (ps', idx') →
  index_ok ps' idx' ∧ (∀ p, p ∈ ps' ↔ ch_After c = Some p ∨ (p ∈ ps ∧ p_ID p ≠ ch_PolicyID c)).
Proof.
  intros Hk (Hafter & _ & Hdel & _)%validateShape_ok Hok. pose proof (index_ok_NoDup _ _ Hok) as Hnd.
  assert (∀ i p, idx !! ch_PolicyID c = Some i → p ∈ ps → p_ID p = ch_PolicyID c → ps !! i = Some p) as Hat.
  { intros i p Hi Hp E. destruct (index_ok_elem _ _ _ Hok Hp) as (j & Hj & ?). by rewrite E, Hi in Hj; simplify_eq. }
  unfold apply_change. intros Ha.
  destruct (ch_Kind c) eqn:Ek; [| | | |done].
  - destruct (idx !! ch_PolicyID c) as [i|] eqn:Ei; [done|]. destruct (ch_After c) as [a|] eqn:Ea; [|done].
    simplify_eq. specialize (Hafter a eq_refl). split.
    + intros id j. rewrite <-Hafter in *. destruct (decide (id = p_ID a)) as [->|Hne].
      * rewrite lookup_insert_eq, lookup_app. split.
        { intros [= <-]. rewrite lookup_ge_None_2 by lia. by rewrite Nat.sub_diag. }
        destruct (ps !! j) as [q|] eqn:Ej; simpl.
        { intros [= Eq]. exfalso. assert (idx !! p_ID a = Some j) by (apply Hok; by rewrite Ej, <-Eq). congruence. }
        destruct (j - length ps) as [|n] eqn:En; [|by destruct n]. apply lookup_ge_None in Ej. intros _. f_equal. lia.
      * rewrite lookup_insert_ne, (Hok id j), lookup_app by done.
        destruct (ps !! j) eqn:Ej; simpl; [done|]. destruct (j - length ps) as [|[|n]]; simpl; naive_solver.
    + intros p. rewrite elem_of_app, list_elem_of_singleton. split.
      * intros [Hp| ->]; [|auto]. right. split; [done|]. intros E.
        destruct (index_ok_elem _ _ _ Hok Hp) as (j & Hj & _). congruence.
      * naive_solver.
  - destruct (idx !! ch_PolicyID c) as [i|] eqn:Ei; [|done]. destruct (ch_After c) as [a|] eqn:Ea; [|done].
    simplify_eq. apply apply_modify_ok; [done|done|by apply Hafter].
  - destruct (idx !! ch_PolicyID c) as [i|] eqn:Ei; [|done]. simplify_eq.
    destruct (index_ok_lookup _ _ _ _ Hok Ei) as (q & Hq & Eq). pose proof (delete_middle _ _ _ Hq) as Hel.
    assert (NoDup (map p_ID (take i ps ++ drop (S i) ps)) ∧ p_ID q ∉ map p_ID (take i ps ++ drop (S i) ps)) as [Hnd' Hnq].
    { rewrite <-(take_drop_middle ps i q Hq) in Hnd. rewrite map_app in Hnd |- *. simpl in Hnd.
      rewrite <-Permutation_middle in Hnd. apply NoDup_cons in Hnd as [? ?]. done. }
    split; [by apply byID_ok|]. intros p. rewrite Hel. split.
    + intros Hp. right. split; [auto|]. intros E. apply Hnq, elem_of_map. exists p. by rewrite Eq.
    + intros [Hp|[[-> | Hp] Hne]]; [|done|done]. destruct Hdel as [Hdel _]. rewrite Hdel in Hp; done.
  - destruct (idx !! ch_PolicyID c) as [i|] eqn:Ei; [|done]. destruct (ch_After c) as [a|] eqn:Ea; [|done].
    simplify_eq. apply apply_modify_ok; [done|done|by apply Hafter].
Qed.

Lemma validate_changes_ok seen cs : validate_changes seen cs = Ok tt →
  Forall (λ c, ChangeKind_Valid (ch_Kind c) = true ∧ validateShape c = Ok tt) cs ∧
  NoDup (map ch_PolicyID cs) ∧ (∀ c, c ∈ cs → ch_PolicyID c ∉ seen).
Proof.
  revert seen. induction cs as [|c cs IH]; intros seen Hv; simpl in Hv.
  { split_and!; [constructor|constructor|set_solver]. }
  destruct (ChangeKind_Valid (ch_Kind c)) eqn:Ek; [|done]. simpl in Hv. destruct (_ || _); [done|].
  case_bool_decide as Hs; [done|]. apply res_bind_Ok in Hv as ([] & Hsh & Hv).
  apply IH in Hv as (Hall & Hnd & Hout). split_and!.
  - by constructor.
  - constructor; [|done]. intros (c' & E & Hc')%elem_of_map. apply (Hout c' Hc'). rewrite E. set_solver.
  - intros c' [->|Hc']%elem_of_cons; [done|]. specialize (Hout c' Hc'). set_solver.
Qed.

Lemma apply_changes_ok cs ps idx ps' idx' :
  Forall (λ c, ChangeKind_Valid (ch_Kind c) = true ∧ validateShape c = Ok tt) cs →
  NoDup (map ch_PolicyID cs) → index_ok ps idx → apply_changes cs (ps, idx) = Ok (ps', idx') →
  index_ok ps' idx' ∧
  (∀ p, p ∈ ps' ↔ (∃ c, c ∈ cs ∧ ch_After c = Some p) ∨ (p ∈ ps ∧ p_ID p ∉ map ch_PolicyID cs)).
Proof.
  intros Hall. revert ps idx. induction Hall as [|c cs [Hk Hsh] Hall IH]; intros ps idx Hnd Hok Ha.
  { simpl in Ha. simplify_eq. split; [done|]. set_solver. }
  simpl in Hnd. apply NoDup_cons in Hnd as [Hc Hnd]. simpl in Ha.
  apply res_bind_Ok in Ha as ([ps1 idx1] & H1 & Ha).
  destruct (apply_change_ok _ _ _ _ _ Hk Hsh Hok H1) as [Hok1 Hel1].
  destruct (IH _ _ Hnd Hok1 Ha) as [Hok' Hel']. split; [done|]. intros p. rewrite Hel', Hel1.
  pose proof (validateShape_ok _ Hsh) as (Hafter & _). simpl. split.
  - intros [(c' & Hc' & E)|[[Ea|[Hp Hne]] Hn]]; [left; exists c'; set_solver|left; exists c; set_solver|right; set_solver].
  - intros [(c' & [->|Hc']%elem_of_cons & E)|[Hp Hn]]; [|left; eauto|right; set_solver].
    right. split; [auto|]. by rewrite (Hafter _ E).
Qed.

Lemma apply_change_succeeds c ps idx :
  ChangeKind_Valid (ch_Kind c) = true → validateShape c = Ok tt → index_ok ps idx →
  (∃ st, apply_change c (ps, idx) = Ok st) ↔ (ch_Kind c = ChangeAdd ↔ ch_PolicyID c ∉ map p_ID ps).
Proof.
  intros Hk (_ & _ & Hdel & _)%validateShape_ok Hok.
  assert (ch_PolicyID c ∉ map p_ID ps ↔ idx !! ch_PolicyID c = None) as ->.
  { rewrite eq_None_not_Some. apply not_iff_compat. split.
    - intros (p & E & Hp)%elem_of_map. destruct (index_ok_elem _ _ _ Hok Hp) as (i & Hi & _).
      rewrite E. eauto.
    - intros [i Hi]. destruct (index_ok_lookup _ _ _ _ Hok Hi) as (p & Hp & <-).
      apply elem_of_map. exists p. split; [done|]. by eapply list_elem_of_lookup_2. }
  unfold apply_change.
  destruct (ch_Kind c), (idx !! ch_PolicyID c), (ch_After c); try done; naive_solver.
Qed.

Lemma apply_changes_succeeds cs ps idx :
  Forall (λ c, ChangeKind_Valid (ch_Kind c) = true ∧ validateShape c = Ok tt) cs →
  NoDup (map ch_PolicyID cs) → index_ok ps idx →
  (∃ st, apply_changes cs (ps, idx) = Ok st) ↔
  (∀ c, c ∈ cs → (ch_Kind c = ChangeAdd ↔ ch_PolicyID c ∉ map p_ID ps)).
Proof.
  intros Hall. revert ps idx. induction Hall as [|c cs [Hk Hsh] Hall IH]; intros ps idx Hnd Hok.
  { split; [set_solver|]. intros _. by eexists. }
  simpl in Hnd. apply NoDup_cons in Hnd as [Hc Hnd]. simpl.
  pose proof (apply_change_succeeds c ps idx Hk Hsh Hok) as Hone.
  pose proof (validateShape_ok _ Hsh) as (Hafter & _).
  assert (∀ ps1 idx1, apply_change c (ps, idx) = Ok (ps1, idx1) →
    ∀ c', c' ∈ cs → ch_PolicyID c' ∈ map p_ID ps1 ↔ ch_PolicyID c' ∈ map p_ID ps) as Hsame.
  { intros ps1 idx1 H1 c' Hc'. destruct (apply_change_ok _ _ _ _ _ Hk Hsh Hok H1) as [_ Hel].
    assert (ch_PolicyID c' ≠ ch_PolicyID c) as Hne. { intros E. apply Hc. rewrite <-E. apply elem_of_map. eauto. }
    rewrite !elem_of_map. split; intros (p & E & Hp); exists p; (split; [done|]).
    - apply Hel in Hp as [Ea|[? _]]; [|done]. rewrite (Hafter _ Ea) in E. done.
    - apply Hel. right. split; [done|]. congruence. }
  split.
  - intros [st H1]. apply res_bind_Ok in H1 as ([ps1 idx1] & H1 & H2).
    destruct (apply_change_ok _ _ _ _ _ Hk Hsh Hok H1) as [Hok1 _].
    intros c' [->|Hc']%elem_of_cons; [apply Hone; eauto|].
    rewrite <-(Hsame _ _ H1 _ Hc'). apply (IH _ _ Hnd Hok1); eauto.
  - intros Hcs. destruct (proj2 Hone (Hcs c ltac:(set_solver))) as [[ps1 idx1] H1]. rewrite H1. simpl.
    destruct (apply_change_ok _ _ _ _ _ Hk Hsh Hok H1) as [Hok1 _].
    apply (IH _ _ Hnd Hok1). intros c' Hc'. rewrite (Hsame _ _ H1 _ Hc'). apply Hcs. set_solver.
Qed.

Lemma Result_changes d base :
  Forall (λ c, ChangeKind_Valid (ch_Kind c) = true ∧ validateShape c = Ok tt) (de_Changes d) → NoDup (map ch_PolicyID (de_Changes d)) →
  NoDup (map p_ID (set_Policies base)) →
  ((∃ out, Result d (Some base) = Ok out) ↔
   ∀ c, c ∈ de_Changes d → (ch_Kind c = ChangeAdd ↔ ch_PolicyID c ∉ map p_ID (set_Policies base))) ∧
  ∀ out, Result d (Some base) = Ok out →
    NoDup (map p_ID (set_Policies out)) ∧
    ∀ p, p ∈ set_Policies out ↔
      (∃ c, c ∈ de_Changes d ∧ ch_After c = Some p) ∨
      (p ∈ set_Policies base ∧ Touches d (p_ID p) = false).
Proof.
  intros Hall Hids Hnd. pose proof (byID_ok _ Hnd) as Hok.
  assert (∀ id, Touches d id = false ↔ id ∉ map ch_PolicyID (de_Changes d)) as Htouch.
  { intros id. unfold Touches. rewrite <-not_true_iff_false, existsb_true, elem_of_map.
    apply not_iff_compat. setoid_rewrite bool_decide_eq_true. naive_solver. }
  split.
  - rewrite <-(apply_changes_succeeds _ _ _ Hall Hids Hok). unfold Result. simpl. split.
    + intros (out & (st & H1 & _)%res_bind_Ok). eauto.
    + intros [st ->]. simpl. eauto.
  - intros out ([ps' idx'] & H1 & [= <-])%res_bind_Ok. simpl.
    destruct (apply_changes_ok _ _ _ _ _ Hall Hids Hok H1) as [Hok' Hel].
    split; [by eapply index_ok_NoDup|]. intros p. by rewrite Htouch, Hel.
Qed.

Lemma Result_outcome sc d base :
  Validate sc d = Ok tt → NoDup (map p_ID (set_Policies base)) →
  ((∃ out, Result d (Some base) = Ok out) ↔
   ∀ c, c ∈ de_Changes d → (ch_Kind c = ChangeAdd ↔ ch_PolicyID c ∉ map p_ID (set_Policies base))) ∧
  ∀ out, Result d (Some base) = Ok out →
    NoDup (map p_ID (set_Policies out)) ∧
    ∀ p, p ∈ set_Policies out ↔
      (∃ c, c ∈ de_Changes d ∧ ch_After c = Some p) ∨
      (p ∈ set_Policies base ∧ Touches d (p_ID p) = false).
Proof.
  unfold Validate. destruct (_ && _); [done|]. intros (Hall & Hids & _)%validate_changes_ok. by apply Result_changes.
Qed.

(** A validated delta states one outcome per policy.  Applying it to a set with
    one policy per identifier succeeds exactly when every added policy is new and
    every other changed policy exists; the outcome again has one policy per
    identifier, and consists of the new documents of the changes and of the base
    policies no change names. *)
Theorem Result_spec sc d base :
  Validate sc d = Ok tt → NoDup (map p_ID (set_Policies base)) →
  ((∃ out, Result d (Some base) = Ok out) ↔
   ∀ c, c ∈ de_Changes d → (ch_Kind c = ChangeAdd ↔ ch_PolicyID c ∉ map p_ID (set_Policies base))) ∧
  ∀ out, Result d (Some base) = Ok out →
    NoDup (map p_ID (set_Policies out)) ∧
    ∀ p, p ∈ set_Policies out ↔
      (∃ c, c ∈ de_Changes d ∧ ch_After c = Some p) ∨
      (p ∈ set_Policies base ∧ Touches d (p_ID p) = false).
Proof. apply Result_outcome. Qed.

Definition ex_policy (id action : string) : Policy := mkPolicy id "" "" "" "" [action] NodeNil [].
Definition ex_base : PolicySet := mkSet (mkSchema [] [] []) [ex_policy "a" "x"; ex_policy "b" "x"; ex_policy "c" "x"].
Definition ex_delta : Delta :=
  mkDelta [mkChange ChangeModify "a" (Some (ex_policy "a" "x")) (Some (ex_policy "a" "y")) no_origin no_origin;
           mkChange ChangeDelete "b" (Some (ex_policy "b" "x")) None no_origin no_origin;
           mkChange ChangeAdd "d" None (Some (ex_policy "d" "z")) no_origin no_origin] None None.

(** Witness: modify one policy, delete one, add one. *)
Lemma Result_spec_witness :
  Validate false ex_delta = Ok tt ∧
  ∃ out, Result ex_delta (Some ex_base) = Ok out ∧
    map p_ID (set_Policies out) = ["a"; "c"; "d"] ∧ NoDup (map p_ID (set_Policies out)).
Proof.
  assert (Validate false ex_delta = Ok tt) as Hv by (vm_compute; reflexivity).
  split; [exact Hv|]. eexists. split; [vm_compute; reflexivity|]. split; [reflexivity|].
  apply (Result_spec false ex_delta ex_base Hv).
  - apply (bool_decide_unpack _). vm_compute. exact I.
  - vm_compute. reflexivity.
Defined.
