(* ===== verification/Weakening.v ===== *)
(** * The weakening classifier and the approval requirement

    Models internal/policy/revision/weakening.go: which deltas relax a control the
    set enforces, what a revision needs before it takes effect, and whether the
    quorums it leaves behind can be met.  A finding keeps its subject and its
    ground; the message text is dropped. *)
From S2P Require Import Prelude GoLib Policy Delta.
Import Strings.

(** ** Structural equality ([reflect.DeepEqual])

    Floats compare with [==]; everything else structurally.  Policies are compared
    in normalized form, where a nil list and an empty one do not differ. *)
Section list_eqb.
Context {A : Type} (eqb : A → A → bool).
Fixpoint list_eqb (l m : list A) : bool :=
    match l, m with
    | [], [] => true
    | x :: l, y :: m => eqb x y && list_eqb l m
    | _, _ => false
    end.
End list_eqb.

Fixpoint value_deepEqual (v w : value) {struct v} : bool :=
  match v, w with
  | VNil, VNil => true
  | VBool a, VBool b => bool_decide (a = b)
  | VInt a, VInt b => (a =? b)%Z
  | VNarrowInt a, VNarrowInt b => (a =? b)%Z
  | VDouble a, VDouble b => Float64.eqb a b
  | VFloat32 a, VFloat32 b => Float64.eqb a b
  | VString a, VString b => bool_decide (a = b)
  | VTime a, VTime b => (a =? b)%Z
  | VDuration a, VDuration b => (a =? b)%Z
  | VList a, VList b => list_eqb value_deepEqual a b
  | VOther a, VOther b => bool_decide (a = b)
  | _, _ => false
  end.

Definition literal_deepEqual (a b : Literal) : bool :=
  bool_decide (lit_Type a = lit_Type b) && value_deepEqual (lit_Data a) (lit_Data b).

Fixpoint operand_deepEqual (a b : Operand) {struct a} : bool :=
  match a, b with
  | OperandNil, OperandNil => true
  | FieldRef r x, FieldRef s y => bool_decide (r = s) && bool_decide (x = y)
  | SourceRef n l, SourceRef m k => bool_decide (n = m) && list_eqb operand_deepEqual l k
  | Lit x, Lit y => literal_deepEqual x y
  | _, _ => false
  end.

Fixpoint node_deepEqual (a b : Node) {struct a} : bool :=
  match a, b with
  | NodeNil, NodeNil => true
  | Logic o l, Logic p k => bool_decide (o = p) && list_eqb node_deepEqual l k
  | Compare l o r, Compare l' o' r' =>
      operand_deepEqual l l' && bool_decide (o = o') && operand_deepEqual r r'
  | Member l c n, Member l' c' n' =>
      operand_deepEqual l l' && operand_deepEqual c c' && bool_decide (n = n')
  | _, _ => false
  end.

Definition source_deepEqual (a b : option (string * list Operand)) : bool :=
  match a, b with
  | None, None => true
  | Some (n, l), Some (m, k) => bool_decide (n = m) && list_eqb operand_deepEqual l k
  | _, _ => false
  end.

(** ** Findings *)

Inductive WReason :=
  | ReasonQuorumReduced | ReasonApproverSetWidened | ReasonErrorBehaviourLoosened
  | ReasonChallengeRemoved | ReasonPolicyDeleted | ReasonTriggerNarrowed
  | ReasonDelayShortened | ReasonCancellationNarrowed | ReasonAuthenticationRelaxed
  | ReasonExternalTargetChanged.

Record Finding := mkFinding { f_Subject : string; f_Reason : WReason }.

Definition Classification := list Finding.
Definition Weakening (c : Classification) : bool := bool_decide (0 < length c).

Definition SchemaSubject : string := "@schema".

(** ** The schema *)

Definition normalizedOnError (e : OnError) : OnError :=
  match e with OnErrorUnset => DefaultOnError | _ => e end.

Definition schemaFindings (before after : option Schema) : list Finding :=
  match before, after with
  | Some b, Some a =>
      omap (λ d,
        match Schema_Source a (src_Name d) with
        | None => None
        | Some fresh =>
            if bool_decide (normalizedOnError (src_OnError d) = OnErrorDeny) &&
               bool_decide (normalizedOnError (src_OnError fresh) = OnErrorAllow)
            then Some (mkFinding SchemaSubject ReasonErrorBehaviourLoosened) else None
        end) (sch_Sources b)
  | _, _ => []
  end.

(** ** The trigger *)

Definition numericLiteral (o : Operand) : option Float64.t :=
  match o with
  | Lit l => match lit_Data l with
             | VInt n => Some (Float64.of_int64 n)
             | VDouble f => Some f
             | _ => None
             end
  | _ => None
  end.

Definition comparisonWidens (before after : Node) : bool :=
  match before, after with
  | Compare l1 o1 r1, Compare l2 o2 r2 =>
      if negb (bool_decide (o1 = o2)) || negb (operand_deepEqual l1 l2) then false
      else match numericLiteral r1, numericLiteral r2 with
           | Some old, Some new =>
               match o1 with
               | OpGe | OpGt => Float64.leb new old
               | OpLe | OpLt => Float64.leb old new
               | _ => false
               end
           | _, _ => false
           end
  | _, _ => false
  end.

(** One activation of [widens], its recursive calls abstracted. *)
Definition widens_body (rec : Node → Node → bool) (before after : Node) : bool :=
  match after with
  | NodeNil => true
  | _ =>
      match before with
      | NodeNil => false
      | _ =>
          node_deepEqual before after ||
          match after with Logic LogicAny ops => existsb (rec before) ops | _ => false end ||
          match before with Logic LogicAll ops => existsb (λ o, rec o after) ops | _ => false end ||
          match after with Logic LogicAll (o :: ops) => forallb (rec before) (o :: ops) | _ => false end ||
          match before with Logic LogicAny (o :: ops) => forallb (λ o, rec o after) (o :: ops) | _ => false end ||
          comparisonWidens before after
      end
  end.

(** The nodes of a condition, nil ones included: every recursive call of [widens]
    works on a smaller pair, so the total is enough fuel. *)
Fixpoint size (n : Node) : nat :=
  match n with Logic _ ops => S (sum_list (map size ops)) | _ => 1 end.

Fixpoint widens_fuel (fuel : nat) (before after : Node) : bool :=
  match fuel with
  | O => false
  | S n => widens_body (widens_fuel n) before after
  end.

Definition widens (before after : Node) : bool := widens_fuel (size before + size after) before after.

Definition role_narrowed (before after : Policy) (r : Role) : bool :=
  match EntityFor before r, EntityFor after r with
  | _, None => false
  | None, Some _ => true
  | Some old, Some new => negb (bool_decide (old = new))
  end.

Definition narrowing (before after : Policy) : bool :=
  existsb (λ a, negb (contains (p_Actions after) a)) (p_Actions before) ||
  existsb (role_narrowed before after) Roles ||
  negb (widens (p_Condition before) (p_Condition after)).

Definition triggerFindings (id : string) (before after : Policy) : list Finding :=
  if narrowing before after then [mkFinding id ReasonTriggerNarrowed] else [].

(** ** The challenges *)

Definition of_kind (k : ChallengeType) (p : Policy) : list Challenge :=
  filter (λ c, Challenge_ChallengeType c = k) (p_Challenges p).

Inductive ApproverMode := ModeMembers | ModeClaim | ModeSource.

#[export] Instance ApproverMode_eq_dec : EqDecision ApproverMode.
Proof. solve_decision. Defined.

Definition approverMode (a : ApproverSet) : ApproverMode :=
  match as_Source a with
  | Some _ => ModeSource
  | None => if bool_decide (as_Claim a ≠ "") then ModeClaim else ModeMembers
  end.

Definition approverSetWidened (before after : ApproverSet) : bool :=
  if negb (bool_decide (approverMode before = approverMode after)) then true
  else match approverMode before with
  | ModeMembers => existsb (λ m, negb (contains (as_Members before) m)) (as_Members after)
  | ModeClaim => negb (bool_decide (as_Claim before = as_Claim after))
  | ModeSource => negb (source_deepEqual (as_Source before) (as_Source after))
  end.

Definition approverSetNarrowed (before after : ApproverSet) : bool :=
  if negb (bool_decide (approverMode before = approverMode after)) then true
  else match approverMode before with
  | ModeMembers => existsb (λ m, negb (contains (as_Members after) m)) (as_Members before)
  | ModeClaim => negb (bool_decide (as_Claim before = as_Claim after))
  | ModeSource => negb (source_deepEqual (as_Source before) (as_Source after))
  end.

Definition cancellationNarrowed (before after : option ApproverSet) : bool :=
  match before, after with
  | None, _ => false
  | Some _, None => true
  | Some b, Some a => approverSetNarrowed b a
  end.

(** [mfa.NormalizeACRValues]: trim, drop blanks, keep the first of each. *)
Definition NormalizeACRValues (values : list string) : list string :=
  foldl (λ out v, let t := TrimSpace v in
                  if bool_decide (t ≠ "") && negb (contains out t) then out ++ [t] else out) [] values.

Definition acrRelaxed (before after : list string) : bool :=
  let old := NormalizeACRValues before in
  let fresh := NormalizeACRValues after in
  match old, fresh with
  | [], _ => false
  | _, [] => true
  | _, _ => existsb (λ c, negb (contains old c)) fresh
  end.

(** One comparison of two paired challenges of one kind. *)
Definition quorumFindings (id : string) (old fresh : Quorum) : list Finding :=
  (if (q_Threshold fresh <? q_Threshold old)%Z then [mkFinding id ReasonQuorumReduced] else []) ++
  (if approverSetWidened (q_Approvers old) (q_Approvers fresh) then [mkFinding id ReasonApproverSetWidened] else []).

Definition delayFindings (id : string) (old fresh : Delay) : list Finding :=
  (if (d_Duration fresh <? d_Duration old)%Z then [mkFinding id ReasonDelayShortened] else []) ++
  (if cancellationNarrowed (d_CancellableBy old) (d_CancellableBy fresh)
   then [mkFinding id ReasonCancellationNarrowed] else []).

Definition mfaFindings (id : string) (old fresh : MFA) : list Finding :=
  if negb (bool_decide (mfa_Mode old = mfa_Mode fresh)) then [mkFinding id ReasonAuthenticationRelaxed]
  else if acrRelaxed (mfa_ACRValues old) (mfa_ACRValues fresh) then [mkFinding id ReasonAuthenticationRelaxed] else [].

Definition externalFindings (id : string) (old fresh : External) : list Finding :=
  if bool_decide (TrimSpace (e_Target old) = TrimSpace (e_Target fresh)) then []
  else [mkFinding id ReasonExternalTargetChanged].

Definition pairFindings (id : string) (old fresh : Challenge) : list Finding :=
  match old, fresh with
  | CQuorum a, CQuorum b => quorumFindings id a b
  | CDelay a, CDelay b => delayFindings id a b
  | CMFA a, CMFA b => mfaFindings id a b
  | CExternal a, CExternal b => externalFindings id a b
  | _, _ => []
  end.

(** The paired prefix of two lists of one kind. *)
Definition kindFindings (id : string) (k : ChallengeType) (before after : Policy) : list Finding :=
  concat (zip_with (pairFindings id) (of_kind k before) (of_kind k after)).

Definition challengeFindings (id : string) (before after : Policy) : list Finding :=
  omap (λ k, if bool_decide (length (of_kind k after) < length (of_kind k before))
             then Some (mkFinding id ReasonChallengeRemoved) else None) ChallengeTypes ++
  kindFindings id ChallengeQuorum before after ++
  kindFindings id ChallengeDelay before after ++
  kindFindings id ChallengeMFA before after ++
  kindFindings id ChallengeExternal before after.

(** ** The delta *)

Definition canonical (p : option Policy) : option Policy := normalizePolicy <$> p.

Definition changeFindings (c : Change) : list Finding :=
  match ch_Kind c with
  | ChangeDelete => [mkFinding (ch_PolicyID c) ReasonPolicyDeleted]
  | ChangeAdd => []
  | ChangeModify | ChangeTakeOwnership =>
      match canonical (ch_Before c), canonical (ch_After c) with
      | Some before, Some after =>
          triggerFindings (ch_PolicyID c) before after ++ challengeFindings (ch_PolicyID c) before after
      | _, _ => []
      end
  | ChangeOther _ => []
  end.

Definition Classify (d : Delta) : Classification :=
  schemaFindings (de_SchemaBefore d) (de_SchemaAfter d) ++ concat (map changeFindings (de_Changes d)).

(** ** The requirement *)

Record Floor := mkFloor { fl_MinApprovers : Z; fl_ProposerMayApprove : bool }.

Definition DefaultFloor : Floor := mkFloor 1 false.

Record Requirement := mkRequirement {
  r_Threshold : Z; r_Approvers : ApproverSet; r_ExcludeProposer : bool;
  r_Weakening : bool; r_Findings : list Finding }.

Definition no_approvers : ApproverSet := mkApproverSet [] "" None.

Definition Requirement_Quorum (r : Requirement) : option Quorum :=
  if (r_Threshold r <=? 0)%Z then None else Some (mkQuorum (r_Threshold r) (r_Approvers r)).

Definition stricterApproverSet (current proposed : ApproverSet) : ApproverSet :=
  if negb (bool_decide (approverMode current = ModeMembers)) || negb (bool_decide (approverMode proposed = ModeMembers))
  then current
  else mkApproverSet (List.filter (contains (as_Members proposed)) (as_Members current)) "" None.

Definition withoutMember (s : ApproverSet) (member : string) : ApproverSet :=
  if negb (bool_decide (approverMode s = ModeMembers)) || bool_decide (member = "") then s
  else mkApproverSet (List.filter (λ m, negb (bool_decide (m = member))) (as_Members s)) "" None.

Definition Require (current proposed : option Quorum) (class : Classification) (floor : Floor) (proposer : string) :
    result Requirement :=
  match current with
  | None => Ok (mkRequirement 0 no_approvers false (Weakening class) class)
  | Some cur =>
      let '(th, app) :=
        match Weakening class, proposed with
        | true, Some p => (Z.max (q_Threshold cur) (q_Threshold p),
                           stricterApproverSet (q_Approvers cur) (q_Approvers p))
        | _, _ => (q_Threshold cur, q_Approvers cur)
        end in
      let th := if (th <? fl_MinApprovers floor)%Z then fl_MinApprovers floor else th in
      let excl := negb (fl_ProposerMayApprove floor) in
      let app := if excl then withoutMember app proposer else app in
      if bool_decide (approverMode app = ModeMembers) && (Z.of_nat (length (as_Members app)) <? th)%Z
      then Err [ErrUnsatisfiable]
      else if (th <? 1)%Z then Err [ErrFloorViolated]
      else Ok (mkRequirement th app excl (Weakening class) class)
  end.

(** ** Satisfiability *)

Definition distinctMembers (members : list string) : list string := trimmed_set members.

Definition quorum_satisfiable (q : Quorum) : bool :=
  if (q_Threshold q <? 1)%Z then false
  else if negb (bool_decide (approverMode (q_Approvers q) = ModeMembers)) then true
  else negb (Z.of_nat (length (distinctMembers (as_Members (q_Approvers q)))) <? q_Threshold q)%Z.

Definition CheckSatisfiable (d : Delta) : result unit :=
  if forallb (λ c, match ch_After c with
                   | None => true
                   | Some p => forallb (λ ch, match ch with CQuorum q => quorum_satisfiable q | _ => true end)
                                 (p_Challenges p)
                   end) (de_Changes d)
  then Ok tt else Err [ErrUnsatisfiable].

(** ** [widens] terminates *)

Lemma existsb_ext_elem {A} (f g : A → bool) l : (∀ x, x ∈ l → f x = g x) → existsb f l = existsb g l.
Proof. induction l as [|x l IH]; simpl; intros H; [done|]. rewrite (H x), IH; [done| |]; set_solver. Qed.
Lemma forallb_ext_elem {A} (f g : A → bool) l : (∀ x, x ∈ l → f x = g x) → forallb f l = forallb g l.
Proof. induction l as [|x l IH]; simpl; intros H; [done|]. rewrite (H x), IH; [done| |]; set_solver. Qed.

Definition children (n : Node) : list Node := match n with Logic _ ops => ops | _ => [] end.

Lemma size_pos n : 1 ≤ size n.
Proof. destruct n; simpl; lia. Qed.

Lemma children_smaller n c : c ∈ children n → size c < size n.
Proof.
  destruct n as [|op ops| |]; simpl; [set_solver| |set_solver|set_solver].
  induction ops as [|o ops IH]; [set_solver|]. intros [->|Hc]%elem_of_cons; simpl; [lia|].
  specialize (IH Hc). lia.
Qed.

Lemma widens_body_ext rec1 rec2 b a :
  (∀ o, o ∈ children a → rec1 b o = rec2 b o) → (∀ o, o ∈ children b → rec1 o a = rec2 o a) →
  widens_body rec1 b a = widens_body rec2 b a.
Proof.
  intros Ha Hb. unfold widens_body.
  destruct a as [|oa la| |]; [done| | |]; (destruct b as [|ob lb| |]; [done| | |]); simpl in Ha, Hb.
  1: rewrite (existsb_ext_elem (rec1 (Logic ob lb)) (rec2 (Logic ob lb)) la), 
             (existsb_ext_elem (λ o, rec1 o (Logic oa la)) (λ o, rec2 o (Logic oa la)) lb) by done;
     destruct la, lb; try rewrite (forallb_ext_elem (rec1 (Logic ob _)) (rec2 (Logic ob _))) by done;
     try rewrite (forallb_ext_elem (λ o, rec1 o (Logic oa _)) (λ o, rec2 o (Logic oa _))) by done; done.
  1-2: rewrite (existsb_ext_elem (rec1 _) (rec2 _) la) by done;
       destruct la; try rewrite (forallb_ext_elem (rec1 _) (rec2 _)) by done; done.
  all: try done.
  all: rewrite (existsb_ext_elem (λ o, rec1 o _) (λ o, rec2 o _) lb) by done;
       destruct lb; try rewrite (forallb_ext_elem (λ o, rec1 o _) (λ o, rec2 o _)) by done; done.
Qed.

Lemma widens_fuel_enough n m b a :
  size b + size a ≤ n → size b + size a ≤ m → widens_fuel n b a = widens_fuel m b a.
Proof.
  revert m b a. induction n as [|n IH]; intros m b a Hn Hm.
  { pose proof (size_pos b). lia. }
  destruct m as [|m]. { pose proof (size_pos b). lia. }
  simpl. apply widens_body_ext; intros o Ho%children_smaller; apply IH; lia.
Qed.

Lemma widens_equation b a : widens b a = widens_body widens b a.
Proof.
  unfold widens at 1. pose proof (size_pos b) as Hb. destruct (size b + size a) as [|n] eqn:E; [lia|].
  simpl. apply widens_body_ext; intros o Ho%children_smaller; apply widens_fuel_enough; lia.
Qed.

(** The trigger comparison terminates on every pair of conditions: the total
    size of the two trees is enough fuel, more fuel never changes the answer, and
    the answer satisfies the recursive equation of the code exactly. *)
Theorem widens_terminates b a :
  widens b a = widens_body widens b a ∧
  ∀ fuel, size b + size a ≤ fuel → widens_fuel fuel b a = widens b a.
Proof.
  split; [apply widens_equation|]. intros fuel Hf. by apply widens_fuel_enough.
Qed.
