(* ===== verification/WeakeningSound.v ===== *)
(** * A revision that is not weakening relaxes nothing

    The soundness of the classifier of Weakening.v against the meaning of
    conditions (Cel.v), the matching of requests (Engine.v) and the strength of
    challenges. *)
From S2P Require Import Prelude GoLib Policy Cel Engine CelRef EngineSpec Delta Weakening.
Import Strings.

(** ** Structural equality is equality on plain values

    Negative zero is [==] to zero and renders differently, so it is excluded; a
    finite float is kept with an odd mantissa, which makes its representation
    unique. *)
Definition plain_float (f : Float64.t) : bool :=
  match f with
  | Float64.NegZero => false
  | Float64.Fin m e => Z.odd m || ((m =? 0)%Z && (e =? 0)%Z)
  | _ => true
  end.

Fixpoint plain_value (v : value) : bool :=
  match v with
  | VDouble f | VFloat32 f => plain_float f
  | VList l => forallb plain_value l
  | _ => true
  end.

Fixpoint plain_operand (o : Operand) : bool :=
  match o with
  | SourceRef _ args => forallb plain_operand args
  | Lit l => plain_value (lit_Data l)
  | _ => true
  end.

(** An integer bound that survives the conversion to a float64. *)
Definition exact_bound (o : Operand) : bool :=
  match o with Lit l => match lit_Data l with VInt n => Float64.exact_int n | _ => true end | _ => true end.

Fixpoint plain (n : Node) : bool :=
  match n with
  | NodeNil => true
  | Logic _ ops => forallb plain ops
  | Compare l _ r => plain_operand l && plain_operand r && exact_bound r
  | Member l c _ => plain_operand l && plain_operand c
  end.

Lemma odd_pow_eq m1 m2 k : Z.odd m1 = true → (0 ≤ k)%Z → m1 = (m2 * 2 ^ k)%Z → k = 0%Z.
Proof.
  intros Ho Hk E. destruct (decide (k = 0%Z)) as [|Hne]; [done|]. exfalso.
  replace k with (Z.succ (k - 1)) in E by lia. rewrite Z.pow_succ_r in E by lia.
  rewrite E in Ho. rewrite Z.odd_mul, Z.odd_mul in Ho. simpl in Ho. rewrite andb_false_r in Ho. done.
Qed.

Lemma float_eqb_plain a b : plain_float a = true → plain_float b = true → Float64.eqb a b = true → a = b.
Proof.
  unfold Float64.eqb. rewrite bool_decide_eq_true.
  destruct a as [|na| |m1 e1], b as [|nb| |m2 e2]; simpl; try done.
  { intros _ _. case_bool_decide; [by subst|]. by destruct na. }
  { by destruct na. }
  { by destruct nb. }
  intros H1 H2 E. injection E as E. unfold Float64.compare_fin, Float64.scaled in E.
  apply Z.compare_eq in E. apply orb_true_iff in H1, H2.
  rewrite andb_true_iff, !Z.eqb_eq in H1, H2.
  destruct (Z.le_ge_cases e1 e2) as [He|He].
  - rewrite (Z.min_l e1 e2) in E by done. rewrite Z.sub_diag, Z.pow_0_r, Z.mul_1_r in E.
    assert (0 < 2 ^ (e2 - e1))%Z by (apply Z.pow_pos_nonneg; lia).
    destruct H1 as [H1|[-> ->]].
    + pose proof (odd_pow_eq _ _ (e2 - e1) H1 ltac:(lia) E) as H0. rewrite H0, Z.pow_0_r, Z.mul_1_r in E. f_equal; lia.
    + assert (m2 = 0)%Z as -> by nia. destruct H2 as [H2|[_ ->]]; done.
  - rewrite (Z.min_r e1 e2) in E by done. rewrite Z.sub_diag, Z.pow_0_r, Z.mul_1_r in E. symmetry in E.
    assert (0 < 2 ^ (e1 - e2))%Z by (apply Z.pow_pos_nonneg; lia).
    destruct H2 as [H2|[-> ->]].
    + pose proof (odd_pow_eq _ _ (e1 - e2) H2 ltac:(lia) E) as H0. rewrite H0, Z.pow_0_r, Z.mul_1_r in E. f_equal; lia.
    + assert (m1 = 0)%Z as -> by nia. destruct H1 as [H1|[_ ->]]; done.
Qed.

Section value_induction.
Context (P : value → Prop).
Context (Hlist : ∀ l, Forall P l → P (VList l)) (Hother : ∀ v, (∀ l, v ≠ VList l) → P v).
Fixpoint value_nested_ind (v : value) : P v :=
    match v with
    | VList l => Hlist l ((fix go l : Forall P l :=
        match l with
        | [] => List.Forall_nil P
        | x :: l => List.Forall_cons P x l (value_nested_ind x) (go l)
        end) l)
    | VNil => Hother VNil ltac:(done) | VBool b => Hother (VBool b) ltac:(done)
    | VInt n => Hother (VInt n) ltac:(done) | VNarrowInt n => Hother (VNarrowInt n) ltac:(done)
    | VDouble f => Hother (VDouble f) ltac:(done) | VFloat32 f => Hother (VFloat32 f) ltac:(done)
    | VString s => Hother (VString s) ltac:(done) | VTime t => Hother (VTime t) ltac:(done)
    | VDuration d => Hother (VDuration d) ltac:(done) | VOther s => Hother (VOther s) ltac:(done)
    end.
End value_induction.

Lemma list_eqb_plain {A} (eqb : A → A → bool) (ok : A → bool) l m :
  Forall (λ x, ∀ y, ok x = true → ok y = true → eqb x y = true → x = y) l →
  forallb ok l = true → forallb ok m = true → list_eqb eqb l m = true → l = m.
Proof.
  intros Hl. revert m. induction Hl as [|x l Hx Hl IH]; intros [|y m]; simpl; try done.
  rewrite !andb_true_iff. intros [? ?] [? ?] [? ?]. f_equal; auto.
Qed.

Lemma value_deepEqual_plain v : ∀ w, plain_value v = true → plain_value w = true →
  value_deepEqual v w = true → v = w.
Proof.
  induction v as [l IH|v Hv] using value_nested_ind; intros w.
  - destruct w; try done. simpl. intros H1 H2 H3. f_equal. by eapply (list_eqb_plain value_deepEqual plain_value).
  - destruct v, w; simpl; try done; try (by destruct (Hv l));
      rewrite ?bool_decide_eq_true, ?Z.eqb_eq; try congruence; intros; f_equal; by apply float_eqb_plain.
Qed.

Lemma operand_deepEqual_plain a : ∀ b, plain_operand a = true → plain_operand b = true →
  operand_deepEqual a b = true → a = b.
Proof.
  induction a as [|r x|n args IH|l] using Operand_nested_ind; intros b; destruct b; simpl; try done.
  - rewrite andb_true_iff, !bool_decide_eq_true. intros _ _ [-> ->]. done.
  - rewrite andb_true_iff, bool_decide_eq_true. intros H1 H2 [-> H3]. f_equal.
    by eapply (list_eqb_plain operand_deepEqual plain_operand).
  - destruct l as [t d], l0 as [t' d']. unfold literal_deepEqual. simpl.
    rewrite andb_true_iff, bool_decide_eq_true. intros H1 H2 [-> H3]. do 2 f_equal. by apply value_deepEqual_plain.
Qed.

Lemma node_deepEqual_plain a : ∀ b, plain a = true → plain b = true → node_deepEqual a b = true → a = b.
Proof.
  induction a as [|op ops IH|l op r|l c n] using Node_nested_ind; intros b; destruct b; simpl; try done.
  - rewrite andb_true_iff, bool_decide_eq_true. intros H1 H2 [-> H3]. f_equal.
    by eapply (list_eqb_plain node_deepEqual plain).
  - rewrite !andb_true_iff, bool_decide_eq_true. intros [[? ?] ?] [[? ?] ?] [[HL ->] HR].
    f_equal; by apply operand_deepEqual_plain.
  - rewrite !andb_true_iff, bool_decide_eq_true. intros [? ?] [? ?] [[HL HR] ->].
    f_equal; by apply operand_deepEqual_plain.
Qed.

(** ** Conditions *)

Section conditions.
Context `{CEL} (src : string → list value → celres) (vars : gmap string value).

Definition has_type (t : Typ) (v : value) : Prop :=
  (t = TypeInt → ∃ z, v = VInt z) ∧ (t = TypeDouble → ∃ f, v = VDouble f).

(** What the type checker guarantees of a comparison at run time: a reference
    compared with a numeric literal evaluates to a number of the literal's type. *)
Fixpoint rows_typed (n : Node) : Prop :=
  match n with
  | Logic _ ops => foldr (λ x, and (rows_typed x)) True ops
  | Compare l _ (Lit lit) =>
      ∀ e v, build_operand l = Ok e → cel_eval src vars e = RVal v → has_type (lit_Type lit) v
  | _ => True
  end.

(** A condition the development can speak about: it compiles, its literals are
    plain, and its comparisons are typed. *)
Definition checked (n : Node) : Prop :=
  plain n = true ∧ is_ok (condition_expr n) = true ∧ rows_typed n.

Lemma rows_typed_child op ops o : rows_typed (Logic op ops) → o ∈ ops → rows_typed o.
Proof.
  simpl. induction ops as [|x ops IH]; [set_solver|]. simpl. intros [? ?] [->|?]%elem_of_cons; auto.
Qed.

Lemma plain_child op ops o : plain (Logic op ops) = true → o ∈ ops → plain o = true.
Proof. simpl. rewrite forallb_true. auto. Qed.

Lemma build_child op ops o : is_ok (build_node (Logic op ops)) = true → o ∈ ops → is_ok (build_node o) = true.
Proof.
  simpl. destruct ops as [|x ops]; [set_solver|].
  change (is_ok (res_bind (res_map build_node (x :: ops)) (build_logic op)) = true → o ∈ x :: ops → is_ok (build_node o) = true).
  destruct (res_map build_node (x :: ops)) as [es|] eqn:E; [|done]. intros _ Ho.
  apply res_map_Ok in E. apply list_elem_of_lookup in Ho as [i Hi].
  destruct (Forall2_lookup_l _ _ _ _ _ E Hi) as (e & _ & ->). done.
Qed.

Lemma build_literal_int t z e : build_literal (mkLiteral t (VInt z)) = Ok e → t = TypeInt ∧ e = EConst (KInt z).
Proof.
  unfold build_literal. simpl.
  repeat (case_bool_decide || case_match); try done; naive_solver.
Qed.

Lemma build_literal_double t f e :
  build_literal (mkLiteral t (VDouble f)) = Ok e → t = TypeDouble ∧ e = EConst (KDouble f).
Proof.
  unfold build_literal. simpl.
  repeat (case_bool_decide || case_match); try done; naive_solver.
Qed.

Lemma int_op_mono op x old new :
  match op with OpGe | OpGt => (new <=? old)%Z | OpLe | OpLt => (old <=? new)%Z | _ => false end = true →
  int_op op x old = Some true → int_op op x new = Some true.
Proof. destruct op; simpl; try done; intros ? [= ?]; f_equal; lia. Qed.

Lemma double_op_mono op x old new :
  match op with OpGe | OpGt => Float64.leb new old | OpLe | OpLt => Float64.leb old new | _ => false end = true →
  double_op op x old = Some true → double_op op x new = Some true.
Proof.
  destruct op; simpl; try done; intros Hle [= Hx]; f_equal.
  - by eapply Float64.ltb_leb_trans.
  - by eapply Float64.leb_trans.
  - by eapply Float64.leb_ltb_trans.
  - by eapply Float64.leb_trans.
Qed.

Lemma denote_row_true l op r :
  denote src vars (Compare l op r) = Some true →
  ∃ el er fn, build_operand l = Ok el ∧ build_operand r = Ok er ∧ celCompareFunction op = Ok fn ∧
    ev src vars (ECall fn [el; er]) = Some true ∧ ∃ v, cel_eval src vars el = RVal v.
Proof.
  unfold denote, denote_row. destruct (build_node _) as [e|] eqn:E; [|done]. intros Hev.
  simpl in E. apply res_bind_Ok in E as (el & El & (er & Er & (fn & Ef & [= <-])%res_bind_Ok)%res_bind_Ok).
  exists el, er, fn. split_and!; try done. unfold ev in Hev.
  destruct (cel_rel_error src vars op fn el er Ef) as [Hv _]; [by rewrite Hev|done].
Qed.

Lemma denote_row_eq l op r el er fn :
  build_operand l = Ok el → build_operand r = Ok er → celCompareFunction op = Ok fn →
  denote src vars (Compare l op r) = ev src vars (ECall fn [el; er]).
Proof. intros El Er Ef. unfold denote, denote_row. simpl. rewrite El, Er. simpl. by rewrite Ef. Qed.

#[local] Arguments denote : simpl never.

(** The one arithmetic case: the same reference held to a looser bound. *)
Lemma comparisonWidens_sound b a :
  comparisonWidens b a = true → plain b = true → plain a = true → rows_typed b → rows_typed a →
  is_ok (build_node a) = true → denote src vars b = Some true → denote src vars a = Some true.
Proof.
  destruct b as [| |l1 op r1|], a as [| |l2 op2 r2|]; simpl; try done.
  case_bool_decide as Eop; [|done]. subst op2. simpl.
  destruct (operand_deepEqual l1 l2) eqn:El; [|done]. simpl.
  intros Hw. rewrite !andb_true_iff. intros [[Pl1 Pr1] X1] [[Pl2 Pr2] X2] T1 T2 Hb Hd.
  assert (l1 = l2) as <- by by apply operand_deepEqual_plain.
  apply denote_row_true in Hd as (el & er1 & fn & El1 & Er1 & Ef & Hev & v & Hv).
  rewrite El1 in Hb. simpl in Hb. destruct (build_operand r2) as [er2|] eqn:Er2; [|done].
  rewrite (denote_row_eq _ _ _ _ _ _ El1 Er2 Ef). unfold ev in *.
  destruct r1 as [| | |[t1 d1]], r2 as [| | |[t2 d2]]; simpl in Hw; try done; [by destruct d1..|].
  simpl in T1, T2, Er1, Er2, X1, X2. destruct (T1 _ _ El1 Hv) as [I1 D1]. destruct (T2 _ _ El1 Hv) as [I2 D2].
  destruct d1 as [| |n1| |f1| | | | | |], d2 as [| |n2| |f2| | | | | |]; try done.
  - destruct (build_literal_int _ _ _ Er1) as [Ht1 ->], (build_literal_int _ _ _ Er2) as [_ ->].
    destruct (I1 Ht1) as [z ->]. rewrite !Float64.of_int64_leb in Hw by done.
    rewrite (cel_rel_int src vars op fn el _ z n1) in Hev by (try done; apply cel_const_int).
    rewrite (cel_rel_int src vars op fn el _ z n2) by (try done; apply cel_const_int).
    by eapply int_op_mono.
  - destruct (build_literal_int _ _ _ Er1) as [Ht1 _], (build_literal_double _ _ _ Er2) as [Ht2 _].
    destruct (I1 Ht1), (D2 Ht2). congruence.
  - destruct (build_literal_double _ _ _ Er1) as [Ht1 _], (build_literal_int _ _ _ Er2) as [Ht2 _].
    destruct (D1 Ht1), (I2 Ht2). congruence.
  - destruct (build_literal_double _ _ _ Er1) as [Ht1 ->], (build_literal_double _ _ _ Er2) as [_ ->].
    destruct (D1 Ht1) as [z ->].
    rewrite (cel_rel_double src vars op fn el _ z f1) in Hev by (try done; apply cel_const_double).
    rewrite (cel_rel_double src vars op fn el _ z f2) by (try done; apply cel_const_double).
    by eapply double_op_mono.
Qed.

Lemma denote_all ops : denote src vars (Logic LogicAll ops) = Some true ↔ ∀ o, o ∈ ops → denote src vars o = Some true.
Proof.
  change (denote src vars (Logic LogicAll ops)) with (all3 (map (denote src vars) ops)).
  rewrite all3_true, Forall_forall. setoid_rewrite elem_of_map. naive_solver.
Qed.

Lemma denote_any ops : denote src vars (Logic LogicAny ops) = Some true ↔ ∃ o, o ∈ ops ∧ denote src vars o = Some true.
Proof.
  change (denote src vars (Logic LogicAny ops)) with (any3 (map (denote src vars) ops)).
  rewrite any3_true, Exists_exists. setoid_rewrite elem_of_map. naive_solver.
Qed.

Lemma widens_fuel_sound fuel b a :
  widens_fuel fuel b a = true → plain b = true → plain a = true → rows_typed b → rows_typed a →
  is_ok (build_node a) = true → denote src vars b = Some true → denote src vars a = Some true.
Proof.
  revert b a. induction fuel as [|n IH]; intros b a Hw Pb Pa Tb Ta Ba Hb; [done|]. simpl in Hw.
  assert (a ≠ NodeNil) as Hna by (by intros ->).
  assert (widens_body (widens_fuel n) b a = true → b ≠ NodeNil) as Hnb.
  { intros Hw' ->. by destruct a. }
  specialize (Hnb Hw). unfold widens_body in Hw.
  assert (node_deepEqual b a = true
    ∨ (∃ ops, a = Logic LogicAny ops ∧ existsb (widens_fuel n b) ops = true)
    ∨ (∃ ops, b = Logic LogicAll ops ∧ existsb (λ o, widens_fuel n o a) ops = true)
    ∨ (∃ ops, a = Logic LogicAll ops ∧ forallb (widens_fuel n b) ops = true)
    ∨ (∃ ops, b = Logic LogicAny ops ∧ forallb (λ o, widens_fuel n o a) ops = true)
    ∨ comparisonWidens b a = true) as Hcase.
  { destruct a as [|oa la| |]; [done| | |]; (destruct b as [|ob lb| |]; [done| | |]);
      rewrite !orb_true_iff in Hw; destruct Hw as [[[[[Hw|Hw]|Hw]|Hw]|Hw]|Hw]; try done;
      try (destruct oa as [| | |]; try done); try (destruct ob as [| | |]; try done);
      try (destruct la as [|xa la]; try done); try (destruct lb as [|xb lb]; try done); eauto 8. }
  clear Hw. destruct Hcase as [Hw|[(ops & -> & Hw)|[(ops & -> & Hw)|[(ops & -> & Hw)|[(ops & -> & Hw)|Hw]]]]].
  - by rewrite <-(node_deepEqual_plain b a).
  - apply existsb_true in Hw as (o & Ho & Hw). apply denote_any. exists o. split; [done|].
    eapply IH; eauto using plain_child, rows_typed_child, build_child.
  - apply existsb_true in Hw as (o & Ho & Hw). rewrite denote_all in Hb.
    eapply IH; eauto using plain_child, rows_typed_child.
  - rewrite forallb_true in Hw. apply denote_all. intros o Ho.
    eapply IH; eauto using plain_child, rows_typed_child, build_child.
  - rewrite forallb_true in Hw. apply denote_any in Hb as (o & Ho & Hb).
    eapply IH; [by apply Hw|..]; eauto using plain_child, rows_typed_child.
  - by eapply comparisonWidens_sound.
Qed.

Lemma widens_sound_aux b a :
  widens b a = true → checked b → checked a → holds src vars b → holds src vars a.
Proof.
  intros Hw (Pb & _ & Tb) (Pa & Ba & Ta) Hb. unfold holds in *.
  destruct a as [|oa la|la oa ra|la ca na] eqn:Ea; [done|..]; rewrite <-Ea in *;
    (destruct b as [|ob lb|lb ob rb|lb cb nb] eqn:Eb;
      [rewrite Ea in Hw; done|..]); rewrite <-Eb in *;
    (eapply widens_fuel_sound; [exact Hw|done|done|done|done|by subst a|done]).
Qed.

(** *** Normalization does not change what a compiled condition means *)

Lemma res_map_map {A B} (f : A → result B) (g : A → A) l bs :
  Forall (λ x, ∀ b, f x = Ok b → f (g x) = Ok b) l → res_map f l = Ok bs → res_map f (map g l) = Ok bs.
Proof.
  intros Hl Hm. apply res_map_Ok. apply res_map_Ok in Hm. revert Hl.
  induction Hm as [|x b l bs Hx Hm IH]; intros Hl; inversion Hl; subst; simpl; constructor; auto.
Qed.

Lemma build_operand_normalize o : ∀ e, build_operand o = Ok e → build_operand (normalizeOperand o) = Ok e.
Proof.
  induction o as [| |n args IH|[t d]] using Operand_nested_ind; intros e; simpl; try done.
  - intros (es & Hes & [= <-])%res_bind_Ok. by rewrite (res_map_map _ _ _ es).
  - destruct (IsList t) eqn:El; [|done]. destruct d; try done. unfold build_literal. simpl. by rewrite El.
Qed.

Lemma build_node_normalize n : ∀ e, build_node n = Ok e → build_node (normalizeNode n) = Ok e.
Proof.
  induction n as [|op ops IH|l op r|l c neg] using Node_nested_ind; intros e; simpl; [done|..].
  - destruct ops as [|x ops]; [done|]. intros Hb.
    change (res_bind (res_map build_node (x :: ops)) (build_logic op) = Ok e) in Hb.
    change (res_bind (res_map build_node (map normalizeNode (x :: ops))) (build_logic op) = Ok e).
    apply res_bind_Ok in Hb as (es & Hes & Hb). by rewrite (res_map_map _ _ _ es).
  - rewrite normalizeReference_eq.
    intros (el & El & (er & Er & (fn & Ef & [= <-])%res_bind_Ok)%res_bind_Ok)%res_bind_Ok.
    rewrite (build_operand_normalize _ _ El), (build_operand_normalize _ _ Er). simpl. by rewrite Ef.
  - rewrite normalizeReference_eq. intros (el & El & (ec & Ec & [= <-])%res_bind_Ok)%res_bind_Ok.
    by rewrite (build_operand_normalize _ _ El), (build_operand_normalize _ _ Ec).
Qed.

Lemma condition_expr_normalize n e : condition_expr n = Ok e → condition_expr (normalizeNode n) = Ok e.
Proof. destruct n; [done|..]; intros Hb; exact (build_node_normalize _ _ Hb). Qed.

Lemma holds_normalize n : is_ok (condition_expr n) = true → holds src vars (normalizeNode n) ↔ holds src vars n.
Proof.
  destruct (condition_expr n) as [e|] eqn:E; [|done]. intros _.
  pose proof (condition_expr_normalize _ _ E) as E'.
  pose proof (truth_condition src vars _ _ E) as T. pose proof (truth_condition src vars _ _ E') as T'.
  unfold holds. destruct n; simpl in *; [done|..]; by rewrite <-T, <-T'.
Qed.

Lemma plain_operand_normalize o : plain_operand o = true → plain_operand (normalizeOperand o) = true.
Proof.
  induction o as [| |n args IH|[t d]] using Operand_nested_ind; simpl; try done.
  - rewrite !forallb_true. intros Ha x (y & -> & Hy)%elem_of_map. rewrite Forall_forall in IH. auto.
  - by destruct (IsList t), d.
Qed.

Lemma exact_bound_normalize o : exact_bound o = true → exact_bound (normalizeOperand o) = true.
Proof. destruct o as [| | |[t d]]; simpl; try done. by destruct (IsList t), d. Qed.

Lemma plain_normalize n : plain n = true → plain (normalizeNode n) = true.
Proof.
  induction n as [|op ops IH|l op r|l c neg] using Node_nested_ind; simpl; [done|..].
  - rewrite !forallb_true. intros Ha x (y & -> & Hy)%elem_of_map. rewrite Forall_forall in IH. auto.
  - rewrite !andb_true_iff, normalizeReference_eq. intros [[? ?] ?].
    auto using plain_operand_normalize, exact_bound_normalize.
  - rewrite !andb_true_iff, normalizeReference_eq. intros [? ?]. auto using plain_operand_normalize.
Qed.

Lemma rows_typed_normalize n :
  is_ok (build_node n) = true → rows_typed n → rows_typed (normalizeNode n).
Proof.
  induction n as [|op ops IH|l op r|l c neg] using Node_nested_ind; intros Hb Ht; [done|..|done].
  - assert (∀ o, o ∈ ops → rows_typed (normalizeNode o)) as Ho.
    { intros o Ho. rewrite Forall_forall in IH. eauto using build_child, rows_typed_child. }
    simpl. clear -Ho. induction ops as [|x ops IH]; simpl; [done|]. split; [|apply IH]; set_solver.
  - simpl in Hb. simpl. rewrite normalizeReference_eq.
    destruct (build_operand l) as [el|] eqn:El; [|done]. simpl in Ht.
    destruct r as [| | |[t d]]; simpl; try done.
    assert (∀ lit, lit_Type lit = t → ∀ e v, build_operand (normalizeOperand l) = Ok e →
              cel_eval src vars e = RVal v → has_type (lit_Type lit) v) as Hgo.
    { intros lit <- e v He. rewrite (build_operand_normalize _ _ El) in He. injection He as <-. by apply Ht. }
    destruct (IsList t), d; by apply Hgo.
Qed.

Lemma checked_normalize n : checked n → checked (normalizeNode n).
Proof.
  intros (Hp & Hb & Ht). split; [by apply plain_normalize|]. split.
  - destruct (condition_expr n) as [e|] eqn:E; [|done]. by rewrite (condition_expr_normalize _ _ E).
  - destruct n as [| | |]; [done|..]; by apply rows_typed_normalize.
Qed.
End conditions.

(** ** Matching *)

Lemma matches_normalize p i : matches (Some (normalizePolicy p)) i = matches (Some p) i.
Proof.
  unfold matches, hasAction. f_equal. unfold contains. apply bool_decide_ext. simpl. apply elem_of_sort_by.
Qed.

Lemma narrowing_matches before after i :
  narrowing before after = false → matches (Some before) i = true → matches (Some after) i = true.
Proof.
  unfold narrowing. rewrite !orb_false_iff. intros [[Ha Hr] _]. unfold matches, hasAction.
  rewrite !andb_true_iff, !contains_spec, !forallb_true. intros [Hact Hroles]. split.
  - destruct (contains (p_Actions after) (in_Action i)) eqn:E; [by apply contains_spec|].
    rewrite <-not_true_iff_false, existsb_true in Ha. destruct Ha. exists (in_Action i). by rewrite E.
  - intros r Hin. specialize (Hroles r Hin). rewrite <-not_true_iff_false, existsb_true in Hr.
    destruct (role_narrowed before after r) eqn:E; [destruct Hr; eauto|].
    unfold role_narrowed in E. destruct (EntityFor after r) as [new|]; [|done].
    destruct (EntityFor before r) as [old|]; [|done].
    apply negb_false_iff, bool_decide_eq_true in E. by subst.
Qed.

(** ** Challenges *)

Section strength.
  (** Who holds a claim, who a group source resolves to, and which authentication
      classes the operator's allowlist admits. *)
Context (claims : string → string → bool)
          (groups : option (string * list Operand) → string → bool)
          (allowlist : string → bool).
Context (groups_proper : ∀ s t, source_deepEqual s t = true → groups s = groups t).

Definition admits (a : ApproverSet) (who : string) : bool :=
    match approverMode a with
    | ModeMembers => contains (as_Members a) who
    | ModeClaim => claims (as_Claim a) who
    | ModeSource => groups (as_Source a) who
    end.

Definition may_cancel (a : option ApproverSet) (who : string) : bool :=
    match a with None => false | Some a => admits a who end.

  (** An authentication class satisfies a step-up: the allowlist admits it, and the
      policy names it or names none. *)
Definition accepts (acr : list string) (class : string) : bool :=
    allowlist class &&
    match NormalizeACRValues acr with [] => true | l => contains l class end.

  (** Meeting [new] is at least as hard as meeting [old]. *)
Definition at_least (old new : Challenge) : Prop :=
    match old, new with
    | CQuorum a, CQuorum b =>
        (q_Threshold a ≤ q_Threshold b)%Z ∧
        ∀ who, admits (q_Approvers b) who = true → admits (q_Approvers a) who = true
    | CDelay a, CDelay b =>
        (d_Duration a ≤ d_Duration b)%Z ∧
        ∀ who, may_cancel (d_CancellableBy a) who = true → may_cancel (d_CancellableBy b) who = true
    | CMFA a, CMFA b =>
        mfa_Mode a = mfa_Mode b ∧
        ∀ c, accepts (mfa_ACRValues b) c = true → accepts (mfa_ACRValues a) c = true
    | CExternal a, CExternal b => TrimSpace (e_Target a) = TrimSpace (e_Target b)
    | _, _ => False
    end.

Lemma approverSetWidened_sound a b :
    approverSetWidened a b = false → ∀ who, admits b who = true → admits a who = true.
  Proof.
    unfold approverSetWidened, admits. case_bool_decide as Hm; simpl; [|done]. rewrite <-Hm. intros Hw who.
    destruct (approverMode a).
    - rewrite !contains_spec. intros Hb. destruct (contains (as_Members a) who) eqn:E; [by apply contains_spec|].
      rewrite <-not_true_iff_false, existsb_true in Hw. destruct Hw. exists who. by rewrite E.
    - apply negb_false_iff, bool_decide_eq_true in Hw. by rewrite Hw.
    - apply negb_false_iff in Hw. by rewrite (groups_proper _ _ Hw).
  Qed.

Lemma approverSetNarrowed_sound a b :
    approverSetNarrowed a b = false → ∀ who, admits a who = true → admits b who = true.
  Proof.
    unfold approverSetNarrowed, admits. case_bool_decide as Hm; simpl; [|done]. rewrite <-Hm. intros Hw who.
    destruct (approverMode a).
    - rewrite !contains_spec. intros Hb. destruct (contains (as_Members b) who) eqn:E; [by apply contains_spec|].
      rewrite <-not_true_iff_false, existsb_true in Hw. destruct Hw. exists who. by rewrite E.
    - apply negb_false_iff, bool_decide_eq_true in Hw. by rewrite Hw.
    - apply negb_false_iff in Hw. by rewrite (groups_proper _ _ Hw).
  Qed.

Lemma acrRelaxed_sound a b :
    acrRelaxed a b = false → ∀ c, accepts b c = true → accepts a c = true.
  Proof.
    unfold acrRelaxed, accepts. intros Hr c. rewrite !andb_true_iff. intros [Hal Hb]. split; [done|].
    destruct (NormalizeACRValues a) as [|x old]; [done|]. destruct (NormalizeACRValues b) as [|y fresh]; [done|].
    destruct (contains (x :: old) c) eqn:E; [done|].
    rewrite <-not_true_iff_false, existsb_true in Hr. destruct Hr. exists c. rewrite E. split; [|done].
    by apply contains_spec.
  Qed.

Lemma pairFindings_sound id a b :
    Challenge_ChallengeType a = Challenge_ChallengeType b → pairFindings id a b = [] → at_least a b.
  Proof.
    destruct a as [a|a|a|a], b as [b|b|b|b]; simpl; try done; intros _.
    - unfold quorumFindings. intros [H1 H2]%app_eq_nil.
      destruct (Z.ltb_spec (q_Threshold b) (q_Threshold a)); [done|]. split; [done|].
      apply approverSetWidened_sound. by destruct (approverSetWidened _ _).
    - unfold mfaFindings. case_bool_decide as Hm; simpl; [|done]. split; [done|].
      apply acrRelaxed_sound. by destruct (acrRelaxed _ _).
    - unfold delayFindings. intros [H1 H2]%app_eq_nil.
      destruct (Z.ltb_spec (d_Duration b) (d_Duration a)); [done|]. split; [done|].
      destruct (cancellationNarrowed _ _) eqn:E; [done|]. unfold cancellationNarrowed in E.
      destruct (d_CancellableBy a) as [ca|]; [|done]. destruct (d_CancellableBy b) as [cb|]; [|done].
      by apply approverSetNarrowed_sound.
    - unfold externalFindings. by case_bool_decide.
  Qed.

Lemma at_least_refl c : at_least c c.
  Proof. destruct c; simpl; naive_solver lia. Qed.

  (** Every challenge of a kind has a counterpart at least as hard, in order. *)
Definition kind_kept (k : ChallengeType) (before after : Policy) : Prop :=
    ∃ paired extra, of_kind k after = paired ++ extra ∧ Forall2 at_least (of_kind k before) paired.

Lemma kindFindings_sound id k before after :
    length (of_kind k before) ≤ length (of_kind k after) → kindFindings id k before after = [] →
    kind_kept k before after.
  Proof.
    unfold kindFindings, kind_kept.
    assert (∀ p, Forall (λ c, Challenge_ChallengeType c = k) (of_kind k p)) as Hk.
    { intros p. unfold of_kind. apply Forall_forall. intros c [Hc _]%list_elem_of_filter. done. }
    generalize (Hk before), (Hk after). generalize (of_kind k after), (of_kind k before).
    intros la lb Hb. revert la. induction Hb as [|b lb Eb Hb IH]; intros la Ha Hlen Hf.
    { exists [], la. by split; [|constructor]. }
    destruct la as [|a la]; [simpl in Hlen; lia|]. inversion Ha as [|? ? Ea Ha']; subst.
    simpl in Hf. apply app_eq_nil in Hf as [Hf1 Hf2].
    destruct (IH la Ha') as (paired & extra & -> & Hall); [simpl in Hlen; lia|done|].
    exists (a :: paired), extra. split; [done|]. constructor; [|done]. eapply pairFindings_sound; [congruence|done].
  Qed.

Lemma challengeFindings_sound id before after k :
    k ∈ ChallengeTypes → challengeFindings id before after = [] → kind_kept k before after.
  Proof.
    unfold challengeFindings. intros Hk Hf. repeat (apply app_eq_nil in Hf as [? Hf]).
    assert (length (of_kind k before) ≤ length (of_kind k after)) as Hlen.
    { destruct (decide (length (of_kind k after) < length (of_kind k before))) as [Hlt|]; [|lia]. exfalso.
      match goal with E : omap _ ChallengeTypes = [] |- _ => rename E into Ho end.
      assert (mkFinding id ReasonChallengeRemoved ∈ @nil Finding) as Hin; [|set_solver].
      rewrite <-Ho. apply list_elem_of_omap. exists k. split; [done|]. by rewrite bool_decide_eq_true_2. }
    apply (kindFindings_sound id); [done|]. unfold ChallengeTypes in Hk.
    repeat (apply elem_of_cons in Hk as [->|Hk]; [done|]). set_solver.
  Qed.

Lemma kind_kept_refl k p : kind_kept k p p.
  Proof.
    exists (of_kind k p), []. rewrite app_nil_r. split; [done|]. apply Forall_Forall2_diag, Forall_forall.
    intros c _. apply at_least_refl.
  Qed.
End strength.

(** ** The whole delta *)

(** The store's effective policies, each document readable. *)
Definition held_of (base : PolicySet) : gmap string (result Policy) :=
  list_to_map (map (λ p, (p_ID p, Ok p)) (set_Policies base)).

Lemma held_of_lookup base p :
  NoDup (map p_ID (set_Policies base)) → p ∈ set_Policies base → held_of base !! p_ID p = Some (Ok p).
Proof.
  intros Hnd Hp. unfold held_of. apply elem_of_list_to_map.
  - change (NoDup (map fst (map (λ p, (p_ID p, Ok p)) (set_Policies base)))). by rewrite map_map.
  - apply elem_of_map. eauto.
Qed.

Lemma reconstructed_before base schema d0 d c p :
  NoDup (map p_ID (set_Policies base)) → reconstructed schema (held_of base) d0 = Ok d →
  c ∈ de_Changes d → ch_Kind c ≠ ChangeAdd → p ∈ set_Policies base → ch_PolicyID c = p_ID p →
  ch_Before c = Some p.
Proof.
  intros Hnd (sb & _ & (cs & Hcs & [= <-])%res_bind_Ok)%res_bind_Ok Hc Hk Hp Hid. simpl in Hc.
  apply res_map_Ok in Hcs. apply list_elem_of_lookup in Hc as [n Hn].
  destruct (Forall2_lookup_r _ _ _ _ _ Hcs Hn) as (c0 & _ & Hr). unfold reconstruct_change in Hr.
  case_bool_decide as Ha; [by simplify_eq|].
  assert (ch_PolicyID c0 = ch_PolicyID c) as E.
  { destruct (held_of base !! ch_PolicyID c0) as [[]|]; simpl in Hr; by simplify_eq. }
  rewrite E, Hid, (held_of_lookup _ _ Hnd Hp) in Hr. simpl in Hr. by simplify_eq.
Qed.

Lemma Touches_change d id : Touches d id = true → ∃ c, c ∈ de_Changes d ∧ ch_PolicyID c = id.
Proof. unfold Touches. rewrite existsb_true. setoid_rewrite bool_decide_eq_true. done. Qed.

Lemma kind_kept_requires claims groups allowlist p q :
  (∀ k, k ∈ ChallengeTypes → kind_kept claims groups allowlist k p q) →
  RequiresDecision p = true → RequiresDecision q = true.
Proof.
  intros Hk. unfold RequiresDecision. rewrite !bool_decide_eq_true.
  destruct (p_Challenges p) as [|c l] eqn:E; [simpl; lia|]. intros _.
  destruct (Hk (Challenge_ChallengeType c)) as (pr & ex & Hq & Hall); [destruct c; set_solver|].
  assert (of_kind (Challenge_ChallengeType c) p ≠ []) as Hne.
  { unfold of_kind. rewrite E. rewrite filter_cons_True by done. done. }
  destruct (of_kind (Challenge_ChallengeType c) p) as [|x lx]; [done|].
  inversion Hall as [|? y ? ly]; subst.
  assert (y ∈ p_Challenges q) as Hy.
  { assert (y ∈ of_kind (Challenge_ChallengeType c) q) as Hin by (rewrite Hq; set_solver).
    unfold of_kind in Hin. by apply list_elem_of_filter in Hin as [_ ?]. }
  destruct (p_Challenges q); [set_solver|simpl; lia].
Qed.

(** The trigger comparison is sound: if the classifier says the new condition
    widens the old one, then on every evaluation (any facts, any attribute values)
    where the old condition holds the new one holds.  The conditions compile, their
    comparisons are typed, and their integer bounds fit a float64 exactly. *)
Theorem widens_sound `{CEL} src vars b a :
  checked src vars b → checked src vars a → widens b a = true →
  holds src vars b → holds src vars a.
Proof. intros Hb Ha Hw. by apply widens_sound_aux. Qed.

(** C11. Adopting a revision the classifier does not call weakening never un-gates
    a request, where its conditions are [checked].  Take a base set with distinct
    identifiers, a valid delta reconstructed against it that applies, and suppose that
    the conditions of both sets compile, that no literal of theirs is a
    negative zero, that the integers they compare with are exact as a float64, and
    that a reference compared with a number has that number's type.  Then every policy
    of the base set that applies to a request has, in the outcome of the delta, a policy
    of the same identifier that applies to it too, still requires a decision if it did,
    and demands for every challenge of every kind a counterpart that is at least as hard
    to meet, whatever people and groups claim, if equal group sources have equal
    members.  Without exact bounds it fails ([large_bound_narrowing_missed]). *)
Theorem nonweakening_keeps_gates `{CEL} src vars claims groups allowlist sc schema base d0 d out i p :
  (∀ s t, source_deepEqual s t = true → groups s = groups t) →
  NoDup (map p_ID (set_Policies base)) →
  reconstructed schema (held_of base) d0 = Ok d → Validate sc d = Ok tt → Result d (Some base) = Ok out →
  Weakening (Classify d) = false →
  (∀ q, q ∈ set_Policies base ∨ q ∈ set_Policies out → checked src vars (p_Condition q)) →
  p ∈ set_Policies base → matches (Some p) i = true → holds src vars (p_Condition p) →
  ∃ p', p' ∈ set_Policies out ∧ p_ID p' = p_ID p ∧
    matches (Some p') i = true ∧ holds src vars (p_Condition p') ∧
    (RequiresDecision p = true → RequiresDecision p' = true) ∧
    ∀ k, k ∈ ChallengeTypes → kind_kept claims groups allowlist k (normalizePolicy p) (normalizePolicy p').
Proof.
  intros Hg Hnd Hrec Hval Hres Hweak Hck Hp Hm Hh.
  destruct (Result_outcome sc d base Hval Hnd) as [Hsucc Hout].
  destruct (Hout _ Hres) as [_ Hel].
  destruct (Touches d (p_ID p)) eqn:Ht.
  2:{ exists p. split_and!; try done; [apply Hel; auto|]. intros k _. by apply kind_kept_refl. }
  apply Touches_change in Ht as (c & Hc & Hid).
  assert (Forall (λ c, ChangeKind_Valid (ch_Kind c) = true ∧ validateShape c = Ok tt) (de_Changes d)) as Hall.
  { unfold Validate in Hval. destruct (_ && _); [done|]. by apply validate_changes_ok in Hval as (? & _). }
  rewrite Forall_forall in Hall. destruct (Hall c Hc) as [Hkv (Haid & _ & Hdel & _)%validateShape_ok].
  assert (ch_Kind c ≠ ChangeAdd) as Hna.
  { intros E. apply (proj1 Hsucc (ex_intro _ _ Hres) c Hc) in E. apply E. rewrite Hid. apply elem_of_map. eauto. }
  pose proof (reconstructed_before _ _ _ _ _ _ Hnd Hrec Hc Hna Hp Hid) as Hb.
  assert (changeFindings c = []) as Hf.
  { unfold Weakening in Hweak. apply bool_decide_eq_false in Hweak.
    assert (Classify d = []) as Hnil by (destruct (Classify d); [done|simpl in Hweak; lia]).
    unfold Classify in Hnil. apply app_eq_nil in Hnil as [_ Hnil].
    destruct (changeFindings c) as [|f fs] eqn:E; [done|]. exfalso.
    assert (In f (concat (map changeFindings (de_Changes d)))) as Hin.
    { apply in_concat. exists (f :: fs). rewrite <-E. split; [apply in_map, list_elem_of_In, Hc|rewrite E; by left]. }
    by rewrite Hnil in Hin. }
  assert (∃ a, ch_After c = Some a ∧
    triggerFindings (ch_PolicyID c) (normalizePolicy p) (normalizePolicy a) ++
    challengeFindings (ch_PolicyID c) (normalizePolicy p) (normalizePolicy a) = []) as (a & Ha & Hfind).
  { unfold changeFindings in Hf. rewrite Hb in Hf. destruct (ch_After c) as [a|] eqn:Ea.
    - exists a. split; [done|]. by destruct (ch_Kind c).
    - rewrite (proj2 Hdel eq_refl) in Hf. done. }
  apply app_eq_nil in Hfind as [Htr Hch]. unfold triggerFindings in Htr.
  destruct (narrowing _ _) eqn:En; [done|]. exists a.
  assert (a ∈ set_Policies out) as Haout by (apply Hel; left; eauto).
  assert (∀ k, k ∈ ChallengeTypes → kind_kept claims groups allowlist k (normalizePolicy p) (normalizePolicy a)) as Hkk.
  { intros k Hk. by eapply challengeFindings_sound. }
  split_and!; try done.
  - rewrite (Haid _ Ha). done.
  - rewrite <-matches_normalize. eapply narrowing_matches; [exact En|]. by rewrite matches_normalize.
  - pose proof (Hck p (or_introl Hp)) as Cp. pose proof (Hck a (or_intror Haout)) as Ca.
    apply (holds_normalize src vars); [by apply Ca|].
    apply (widens_sound_aux src vars (normalizeNode (p_Condition p))).
    + unfold narrowing in En. rewrite !orb_false_iff in En. destruct En as [_ En]. by apply negb_false_iff in En.
    + by apply checked_normalize.
    + by apply checked_normalize.
    + apply holds_normalize; [by apply Cp|done].
  - rewrite <-(normalizePolicy_requires p), <-(normalizePolicy_requires a). by apply (kind_kept_requires claims groups allowlist).
Qed.

(** ** The requirement *)

Lemma stricter_members cur prop m :
  approverMode (stricterApproverSet cur prop) = approverMode cur ∧
  (m ∈ as_Members (stricterApproverSet cur prop) → m ∈ as_Members cur).
Proof.
  unfold stricterApproverSet. do 2 (case_bool_decide; simpl; [|done]). split; [done|].
  rewrite list_elem_of_In, filter_In, <-list_elem_of_In. naive_solver.
Qed.

Lemma withoutMember_members s w m :
  approverMode (withoutMember s w) = approverMode s ∧
  (m ∈ as_Members (withoutMember s w) → m ∈ as_Members s).
Proof.
  unfold withoutMember. do 2 (case_bool_decide; simpl; try done). split; [done|].
  rewrite list_elem_of_In, filter_In, <-list_elem_of_In. naive_solver.
Qed.

Lemma withoutMember_absent s w :
  approverMode s = ModeMembers → w ≠ "" → w ∉ as_Members (withoutMember s w).
Proof.
  intros Hm Hw. unfold withoutMember. rewrite Hm. do 2 (case_bool_decide; simpl; try done).
  rewrite list_elem_of_In, filter_In. intros [_ Hn]. by rewrite bool_decide_eq_true_2 in Hn.
Qed.

(** A revision never governs its own adoption.  Once there is a quorum in force
    the requirement is a quorum of at least one approval, at least the threshold in
    force, at least the operator's floor, and for a weakening revision at least the
    threshold it proposes; its eligible list is drawn from the list in force, is
    large enough to meet it, and does not name the proposer unless the floor says
    the proposer may approve. *)
Theorem Require_strict cur proposed class floor proposer r :
  Require (Some cur) proposed class floor proposer = Ok r →
  (1 ≤ r_Threshold r)%Z ∧ (q_Threshold cur ≤ r_Threshold r)%Z ∧ (fl_MinApprovers floor ≤ r_Threshold r)%Z ∧
  (∀ p, Weakening class = true → proposed = Some p → (q_Threshold p ≤ r_Threshold r)%Z) ∧
  Requirement_Quorum r = Some (mkQuorum (r_Threshold r) (r_Approvers r)) ∧
  approverMode (r_Approvers r) = approverMode (q_Approvers cur) ∧
  (∀ m, m ∈ as_Members (r_Approvers r) → m ∈ as_Members (q_Approvers cur)) ∧
  (approverMode (q_Approvers cur) = ModeMembers →
     (r_Threshold r ≤ Z.of_nat (length (as_Members (r_Approvers r))))%Z ∧
     (fl_ProposerMayApprove floor = false → proposer ≠ "" → proposer ∉ as_Members (r_Approvers r))).
Proof.
  unfold Require.
  set (pr := match Weakening class, proposed with
             | true, Some p => (Z.max (q_Threshold cur) (q_Threshold p), stricterApproverSet (q_Approvers cur) (q_Approvers p))
             | _, _ => (q_Threshold cur, q_Approvers cur) end).
  assert ((q_Threshold cur ≤ pr.1)%Z ∧ approverMode pr.2 = approverMode (q_Approvers cur) ∧
          (∀ m, m ∈ as_Members pr.2 → m ∈ as_Members (q_Approvers cur)) ∧
          (∀ p, Weakening class = true → proposed = Some p → (q_Threshold p ≤ pr.1)%Z)) as (Ht & Hm & Hin & Hp).
  { subst pr. destruct (Weakening class), proposed as [p|]; simpl; split_and!; try done; try lia;
      try (by intros m; apply stricter_members); [by apply (stricter_members _ _ "")|].
    intros q _ [= <-]. lia. }
  clearbody pr. destruct pr as [th app]. simpl in *.
  set (th' := if (th <? fl_MinApprovers floor)%Z then fl_MinApprovers floor else th).
  assert (th ≤ th' ∧ fl_MinApprovers floor ≤ th')%Z as [Ht1 Ht2]
    by (subst th'; destruct (Z.ltb_spec th (fl_MinApprovers floor)); lia).
  clearbody th'. destruct (bool_decide _ && _) eqn:Es; [done|]. destruct (Z.ltb_spec th' 1); [done|].
  intros [= <-]. unfold Requirement_Quorum. simpl.
  replace (th' <=? 0)%Z with false by lia. split_and!; try done; try lia.
  - intros p H1 H2. specialize (Hp p H1 H2). lia.
  - destruct (negb _); [|done]. by rewrite (proj1 (withoutMember_members app proposer "")).
  - intros m. destruct (negb _); [|auto]. intros Hx%withoutMember_members. auto.
  - intros Hmem. rewrite andb_false_iff in Es. split.
    + destruct Es as [Es|Es]; [|lia]. apply bool_decide_eq_false in Es. exfalso. apply Es.
      destruct (negb _); [rewrite (proj1 (withoutMember_members app proposer ""))|]; congruence.
    + intros -> Hne. simpl. apply withoutMember_absent; [congruence|done].
Qed.

(** ** Examples *)

Definition level_is (n : Z) : gmap string value := {[ "resource.level" := VInt n ]}.
Definition no_source : string → list value → celres := λ _ _, RErr [].
Definition ex_ge (n : Z) : Node := Compare (FieldRef RoleResource "level") OpGe (Lit (mkLiteral TypeInt (VInt n))).

Lemma ex_ge_checked n z : Float64.exact_int n = true → checked no_source (level_is z) (ex_ge n).
Proof.
  intros Hn. split; [simpl; by rewrite Hn|]. split; [done|]. simpl. intros e v [= <-]. simpl.
  intros [= <-]. split; [eauto|done].
Qed.

(** Witness: lowering a threshold from 10 to 5 widens, and a document of level 12
    stays covered. *)
Lemma widens_sound_witness :
  widens (ex_ge 10) (ex_ge 5) = true ∧ holds no_source (level_is 12) (ex_ge 5).
Proof.
  split; [vm_compute; reflexivity|].
  apply (widens_sound no_source (level_is 12) (ex_ge 10) (ex_ge 5)).
  - apply ex_ge_checked. reflexivity.
  - apply ex_ge_checked. reflexivity.
  - vm_compute. reflexivity.
  - vm_compute. reflexivity.
Defined.

(** The exactness the soundness theorem asks for is needed.  The classifier
    compares integer bounds as float64, so raising a threshold from 2^53 to 2^53+1
    is classified as widening although a request at exactly 2^53 falls out of the
    policy. *)
Theorem large_bound_narrowing_missed :
  widens (ex_ge (2 ^ 53)) (ex_ge (2 ^ 53 + 1)) = true ∧
  holds no_source (level_is (2 ^ 53)) (ex_ge (2 ^ 53)) ∧
  ¬ holds no_source (level_is (2 ^ 53)) (ex_ge (2 ^ 53 + 1)).
Proof. vm_compute. split_and!; done. Qed.

Definition ex_gate (n : Z) (th : Z) (members : list string) : Policy :=
  mkPolicy "gate" "" "" "document" "" ["read"] (ex_ge n)
    [CQuorum (mkQuorum th (mkApproverSet members "" None))].
Definition ex_gate_base : PolicySet := mkSet (mkSchema [] [] []) [ex_gate 10 2 ["ann"; "bob"; "cy"]].

(** The submission leaves the before face empty; the server fills it in. *)
Definition ex_tighten : Delta :=
  mkDelta [mkChange ChangeModify "gate" None (Some (ex_gate 5 2 ["ann"; "bob"])) no_origin no_origin] None None.
Definition ex_tightened : Delta :=
  mkDelta [mkChange ChangeModify "gate" (Some (ex_gate 10 2 ["ann"; "bob"; "cy"]))
             (Some (ex_gate 5 2 ["ann"; "bob"])) no_origin no_origin] None None.

(** Witness: a lower threshold and a smaller approver list. *)
Lemma nonweakening_keeps_gates_witness :
  Weakening (Classify ex_tightened) = false ∧
  ∃ p', p' ∈ [ex_gate 5 2 ["ann"; "bob"]] ∧ p_ID p' = "gate" ∧
    matches (Some p') (ex_read 12) = true ∧ holds no_source (level_is 12) (p_Condition p').
Proof.
  assert (Weakening (Classify ex_tightened) = false) as Hw by (vm_compute; reflexivity).
  split; [exact Hw|].
  destruct (nonweakening_keeps_gates no_source (level_is 12) (λ _ _, false) (λ _ _, false) (λ _, true)
              false (Ok (mkSchema [] [] [])) ex_gate_base ex_tighten ex_tightened
              (mkSet (mkSchema [] [] []) [ex_gate 5 2 ["ann"; "bob"]])
              (ex_read 12) (ex_gate 10 2 ["ann"; "bob"; "cy"])) as (p' & H1 & H2 & H3 & H4 & _).
  - reflexivity.
  - apply NoDup_singleton.
  - vm_compute. reflexivity.
  - vm_compute. reflexivity.
  - vm_compute. reflexivity.
  - exact Hw.
  - simpl. intros q Hq. rewrite !list_elem_of_singleton in Hq.
    destruct Hq as [-> | ->]; apply ex_ge_checked; reflexivity.
  - apply list_elem_of_singleton. reflexivity.
  - vm_compute. reflexivity.
  - vm_compute. reflexivity.
  - exists p'. split; [exact H1|]. split; [exact H2|]. split; [exact H3|exact H4].
Defined.

(** Witness: lowering a quorum from three to one still takes three approvals, and
    the proposer is not one of the eligible approvers. *)
Lemma Require_strict_witness :
  let cur := mkQuorum 3 (mkApproverSet ["ann"; "bob"; "cy"; "dee"] "" None) in
  let prop := mkQuorum 1 (mkApproverSet ["ann"; "bob"; "cy"; "dee"; "eve"] "" None) in
  ∃ r, Require (Some cur) (Some prop) [mkFinding "governance" ReasonQuorumReduced] DefaultFloor "dee" = Ok r ∧
    (q_Threshold cur ≤ r_Threshold r)%Z ∧ "dee" ∉ as_Members (r_Approvers r).
Proof.
  intros cur prop. eexists. split; [vm_compute; reflexivity|].
  destruct (Require_strict cur (Some prop) [mkFinding "governance" ReasonQuorumReduced] DefaultFloor "dee" _ eq_refl)
    as (_ & H2 & _ & _ & _ & _ & _ & H8).
  split; [exact H2|]. destruct (H8 eq_refl) as [_ Hx]. apply Hx; [reflexivity|discriminate].
Defined.
