(* ===== verification/PolicyStore.v ===== *)
(** * The policy store

    Models internal/store/policies.go: the tables [policy_schemas] and [policies] of
    migration 000001 and every call on them.  Versions accumulate: a write supersedes
    the live version and adds a new one, a delete adds a tombstone.  The document
    format is the interface [Codec]; [now()] is an argument. *)
From Stdlib Require Import Ascii.
From S2P Require Import Prelude GoLib Policy Cel Validate Delta.
Import Strings.

(** ** Documents *)

Definition no_schema : Schema := mkSchema [] [] [].
Definition one_policy (p : Policy) : PolicySet := mkSet no_schema [p].
Definition only_schema (s : Schema) : PolicySet := mkSet s [].

(** [policy.Marshal], [policy.DecodeWithLimits] and the SHA-256 of a document in hex. *)
Class Codec := {
  Marshal : PolicySet → result string;
  DecodeWithLimits : Limits → string → result PolicySet;
  content_hash : string → string }.

Definition Decode `{Codec} (doc : string) : result PolicySet := DecodeWithLimits DefaultLimits doc.

(** [policy.LoadWithLimits]: a set that is read and passes every check. *)
Definition LoadWithLimits `{Codec, CEL} (limits : Limits) (doc : string) : result PolicySet :=
  let? set := DecodeWithLimits limits doc in
  if bool_decide (ValidateWithLimits set limits = []) then Ok set else Err [].

(** [PolicyRecord.Policy] and [DecodePolicy] read a document that holds one policy. *)
Definition decode_one `{Codec} (doc : string) : result Policy :=
  let? set := Decode doc in
  match set_Policies set with [p] => Ok p | _ => Err [] end.

(** ** Rows *)

Record SchemaRecord := mkSchemaRecord {
  scr_Version : Z; scr_Document : string; scr_ContentHash : string; scr_Origin : Origin;
  scr_CreatedAt : Time.t; scr_CreatedBy : string }.

Record PolicyRecord := mkPolicyRecord {
  pr_ID : string; pr_Version : Z; pr_SchemaVersion : Z; pr_Origin : Origin; pr_Document : string;
  pr_ContentHash : string; pr_RequiresDecision : bool; pr_Deleted : bool; pr_CreatedAt : Time.t;
  pr_CreatedBy : string; pr_SupersededAt : option Time.t }.

Definition PolicyRecord_Policy `{Codec} (r : PolicyRecord) : result Policy := decode_one (pr_Document r).

Record PolicyInput := mkPolicyInput {
  pi_Policy : option Policy; pi_SchemaVersion : Z; pi_Origin : Origin; pi_Author : string; pi_AssumeOwnership : bool }.

Record Tables := mkTables { t_schemas : list SchemaRecord; t_policies : list PolicyRecord }.

(** [coalesce(max(version), 0) + 1]. *)
Definition next_version (vs : list Z) : Z := (foldr Z.max 0 vs + 1)%Z.

(** ** Schemas *)

Definition PutSchema `{Codec} (now : Time.t) (schema : Schema) (origin : Origin) (author : string) : Tx_ Tables SchemaRecord := λ t,
  if negb (Origin_Valid origin) then Err []
  else
    let? doc := Marshal (only_schema schema) in
    let rec := mkSchemaRecord (next_version (map scr_Version (t_schemas t))) doc (content_hash doc) origin now author in
    Ok (rec, mkTables (t_schemas t ++ [rec]) (t_policies t)).

(** [ORDER BY version DESC LIMIT 1]; versions are a key. *)
Definition newest (a b : SchemaRecord) : SchemaRecord := if (scr_Version a <=? scr_Version b)%Z then b else a.
Definition LatestSchema (t : Tables) : result SchemaRecord :=
  match t_schemas t with [] => Err [ErrNotFound] | r :: l => Ok (foldl newest r l) end.

Definition found {A} (o : option A) : result A := match o with Some a => Ok a | None => Err [ErrNotFound] end.

Definition GetSchema (version : Z) (t : Tables) : result SchemaRecord :=
  found (snd <$> list_find (λ r, scr_Version r = version) (t_schemas t)).

(** ** Policies *)

Definition live (r : PolicyRecord) : bool := bool_decide (pr_SupersededAt r = None).
Definition live_at (id : string) (r : PolicyRecord) : bool := bool_decide (pr_ID r = id) && live r.

Definition live_row (id : string) (t : Tables) : option PolicyRecord := head (List.filter (live_at id) (t_policies t)).

Definition EffectivePolicy (id : string) (t : Tables) : result PolicyRecord := found (live_row id t).

Definition GetPolicy (id : string) (version : Z) (t : Tables) : result PolicyRecord :=
  found (snd <$> list_find (λ r, pr_ID r = id ∧ pr_Version r = version) (t_policies t)).

Definition PolicyVersions (id : string) (t : Tables) : list PolicyRecord :=
  sort_by pr_Version Z.le (List.filter (λ r, bool_decide (pr_ID r = id)) (t_policies t)).

Definition effective (r : PolicyRecord) : bool := live r && negb (pr_Deleted r).

Definition EffectivePolicies (origins : list Origin) (t : Tables) : list PolicyRecord :=
  sort_by pr_ID String.le
    (List.filter (λ r, effective r && (bool_decide (origins = []) || contains origins (pr_Origin r))) (t_policies t)).

Definition superseded (now : Time.t) (r : PolicyRecord) : PolicyRecord :=
  mkPolicyRecord (pr_ID r) (pr_Version r) (pr_SchemaVersion r) (pr_Origin r) (pr_Document r) (pr_ContentHash r)
    (pr_RequiresDecision r) (pr_Deleted r) (pr_CreatedAt r) (pr_CreatedBy r) (Some now).

Definition supersede_live (now : Time.t) (id : string) (rs : list PolicyRecord) : list PolicyRecord :=
  map (λ r, if live_at id r then superseded now r else r) rs.

Definition versions_of (id : string) (rs : list PolicyRecord) : list Z :=
  map pr_Version (List.filter (λ r, bool_decide (pr_ID r = id)) rs).

(** The constraints of the table: the key, the reference to a schema version and at
    most one live version. *)
Definition insert_policy (rec : PolicyRecord) (t : Tables) : result Tables :=
  if negb (contains (map scr_Version (t_schemas t)) (pr_SchemaVersion rec)) then Err []
  else if contains (versions_of (pr_ID rec) (t_policies t)) (pr_Version rec) || existsb (live_at (pr_ID rec)) (t_policies t)
  then Err [ErrConflict]
  else Ok (mkTables (t_schemas t) (t_policies t ++ [rec])).

Definition PutPolicy `{Codec} (now : Time.t) (i : PolicyInput) : Tx_ Tables PolicyRecord := λ t,
  match pi_Policy i with
  | None => Err []
  | Some p =>
      if negb (Origin_Valid (pi_Origin i)) then Err []
      else
        let? doc := Marshal (one_policy p) in
        let owner := pr_Origin <$> live_row (p_ID p) t in
        if bool_decide (is_Some owner) && bool_decide (owner ≠ Some (pi_Origin i)) && negb (pi_AssumeOwnership i)
        then Err [ErrOriginTransfer]
        else
          let rec := mkPolicyRecord (p_ID p) (next_version (versions_of (p_ID p) (t_policies t))) (pi_SchemaVersion i) (pi_Origin i)
                       doc (content_hash doc) (RequiresDecision p) false now (pi_Author i) None in
          let? t' := insert_policy rec (mkTables (t_schemas t) (supersede_live now (p_ID p) (t_policies t))) in
          Ok (rec, t')
  end.

Definition DeletePolicy (now : Time.t) (id author : string) : Tx_ Tables PolicyRecord := λ t,
  let? old := EffectivePolicy id t in
  let rec := mkPolicyRecord (pr_ID old) (pr_Version old + 1)%Z (pr_SchemaVersion old) (pr_Origin old) (pr_Document old)
               (pr_ContentHash old) (pr_RequiresDecision old) true now author None in
  let? t' := insert_policy rec (mkTables (t_schemas t) (supersede_live now id (t_policies t))) in
  Ok (rec, t').

(** ** The effective set *)

Definition separator : string := String (ascii_of_nat 45) (String (ascii_of_nat 45) (String (ascii_of_nat 45) (String (ascii_of_nat 10) ""))).
Definition newline : string := String (ascii_of_nat 10) "".

Definition appendDocument (b doc : string) : string :=
  if bool_decide (b = "") then b +:+ doc
  else (if HasSuffix b newline then b else b +:+ newline) +:+ separator +:+ doc.

Definition LoadEffectiveSet `{Codec} (t : Tables) : result (PolicySet * Z) :=
  let? schema := LatestSchema t in
  let doc := foldl appendDocument (scr_Document schema) (map pr_Document (EffectivePolicies [] t)) in
  let? set := Decode doc in
  Ok (set, scr_Version schema).
