(* ===== verification/PolicyStoreSpec.v ===== *)
(** * What the policy store keeps

    The invariant of the two tables, and a refinement: whatever sequence of writes ran,
    the live rows are the map from identifier to owner and document that the writes
    say, and every version ever written is still there. *)
From S2P Require Import Prelude GoLib Policy Delta PolicyStore.

(** ** The invariant *)

Definition row_key (r : PolicyRecord) : string * Z := (pr_ID r, pr_Version r).

Record tables_ok (t : Tables) : Prop := {
  to_keys : NoDup (map row_key (t_policies t));
  to_pos : ∀ r, r ∈ t_policies t → (0 < pr_Version r)%Z;
  to_schema : ∀ r, r ∈ t_policies t → pr_SchemaVersion r ∈ map scr_Version (t_schemas t);
  to_live : ∀ r, r ∈ t_policies t → (live r = true ↔ ∀ r', r' ∈ t_policies t → pr_ID r' = pr_ID r → (pr_Version r' <= pr_Version r)%Z);
  to_versions : map scr_Version (t_schemas t) = map Z.of_nat (seq 1 (length (t_schemas t))) }.

(** One table is a continuation of another: nothing is lost, and a version changes only
    by being superseded. *)
Definition continues (t t' : Tables) : Prop :=
  t_schemas t `prefix_of` t_schemas t' ∧
  ∀ r, r ∈ t_policies t → r ∈ t_policies t' ∨ live r = true ∧ ∃ now, superseded now r ∈ t_policies t'.

Lemma next_version_above vs v : v ∈ vs → (v < next_version vs)%Z.
Proof. unfold next_version. induction vs as [|x vs IH]; simpl; [set_solver|]. intros [->|Hv]%elem_of_cons; [lia|]. specialize (IH Hv). lia. Qed.
Lemma next_version_pos vs : (0 < next_version vs)%Z.
Proof. unfold next_version. induction vs; simpl; lia. Qed.

Lemma elem_of_filter_true {A} (f : A → bool) l x : x ∈ List.filter f l ↔ f x = true ∧ x ∈ l.
Proof. rewrite !list_elem_of_In, filter_In. naive_solver. Qed.

Lemma elem_of_versions_of id rs v : v ∈ versions_of id rs ↔ ∃ r, r ∈ rs ∧ pr_ID r = id ∧ pr_Version r = v.
Proof.
  unfold versions_of. rewrite elem_of_map. setoid_rewrite elem_of_filter_true. split.
  - intros (r & -> & Hb & Hr). apply bool_decide_eq_true in Hb. eauto.
  - intros (r & Hr & Hid & <-). exists r. split_and!; [done| |done]. by apply bool_decide_eq_true.
Qed.

Section rows.
Context (t : Tables) (Ht : tables_ok t).

Lemma live_unique r r' : r ∈ t_policies t → r' ∈ t_policies t → pr_ID r = pr_ID r' → live r = true → live r' = true → r = r'.
Proof.
  intros Hr Hr' E Hl Hl'. apply (to_live _ Ht r Hr) with (r' := r') in Hl; [|done|done].
  apply (to_live _ Ht r' Hr') with (r' := r) in Hl'; [|done|done]. assert (row_key r = row_key r') as Ek by (unfold row_key; f_equal; [done|lia]).
  pose proof (to_keys _ Ht) as Hnd. apply list_elem_of_lookup in Hr as [i Hi], Hr' as [j Hj].
  assert (i = j) as ->; [|congruence]. rewrite NoDup_alt in Hnd. apply (Hnd i j (row_key r)); rewrite list_lookup_fmap; [by rewrite Hi|]. rewrite Hj. simpl. by rewrite Ek.
Qed.

Lemma live_row_spec id r : live_row id t = Some r ↔ r ∈ t_policies t ∧ pr_ID r = id ∧ live r = true.
Proof.
  unfold live_row. assert (∀ x, x ∈ List.filter (live_at id) (t_policies t) ↔ x ∈ t_policies t ∧ pr_ID x = id ∧ live x = true) as Hin.
  { intros x. rewrite elem_of_filter_true. unfold live_at. rewrite andb_true_iff, bool_decide_eq_true. naive_solver. }
  split.
  - intros Hh. apply Hin. destruct (List.filter _ _); [done|]. injection Hh as ->. apply elem_of_cons. by left.
  - intros Hr. destruct (List.filter _ _) as [|x l]; [by apply Hin, elem_of_nil in Hr|]. simpl. f_equal.
    destruct (proj1 (Hin x)) as (Hx & Ex & Hlx); [apply elem_of_cons; by left|]. destruct Hr as (Hr & Er & Hlr). apply live_unique; congruence.
Qed.

Lemma live_row_None id : live_row id t = None ↔ ∀ r, r ∈ t_policies t → pr_ID r ≠ id ∨ live r = false.
Proof.
  split.
  - intros Hn r Hr. destruct (decide (pr_ID r = id)) as [E|]; [|by left]. right. apply not_true_is_false. intros Hl.
    assert (live_row id t = Some r) by (by apply live_row_spec). congruence.
  - intros Ha. destruct (live_row id t) as [r|] eqn:E; [|done]. apply live_row_spec in E as (Hr & Hid & Hl). destruct (Ha r Hr); congruence.
Qed.

(** Rows of an identifier have a live one among them. *)
Lemma live_row_exists id r : r ∈ t_policies t → pr_ID r = id → is_Some (live_row id t).
Proof.
  intros Hr Hid. set (vs := versions_of id (t_policies t)).
  assert (∃ v, v ∈ vs ∧ ∀ v', v' ∈ vs → (v' <= v)%Z) as (v & Hv & Hmax).
  { assert (pr_Version r ∈ vs) as Hin by (apply elem_of_versions_of; eauto). clearbody vs. clear -Hin.
    revert Hin. generalize (pr_Version r). induction vs as [|x vs IH]; intros y Hy; [by apply elem_of_nil in Hy|].
    destruct vs as [|z vs]; [exists x; set_solver|]. destruct (IH z) as (v & Hv & Hmax); [set_solver|].
    destruct (decide (x <= v)%Z); [exists v|exists x]; (split; [set_solver|]); intros v' [->|Hv']%elem_of_cons; try lia; auto.
    specialize (Hmax v' Hv'). lia. }
  apply elem_of_versions_of in Hv as (x & Hx & Ex & Ev). exists x. apply live_row_spec. split_and!; [done|done|].
  apply (to_live _ Ht x Hx). intros r' Hr' E'. rewrite Ev. apply Hmax, elem_of_versions_of. exists r'. split_and!; congruence.
Qed.
End rows.

(** ** One write *)

Definition written (now : Time.t) (rec : PolicyRecord) (t : Tables) : Tables :=
  mkTables (t_schemas t) (supersede_live now (pr_ID rec) (t_policies t) ++ [rec]).

Lemma elem_of_supersede now id rs r :
  r ∈ supersede_live now id rs ↔ (r ∈ rs ∧ live_at id r = false) ∨ ∃ r0, r0 ∈ rs ∧ live_at id r0 = true ∧ r = superseded now r0.
Proof.
  unfold supersede_live. rewrite elem_of_map. split.
  - intros (r0 & -> & Hr0). destruct (live_at id r0) eqn:E; [right; eauto|by left].
  - intros [[Hr E]|(r0 & Hr0 & E & ->)]; [exists r|exists r0]; by rewrite E.
Qed.

Lemma superseded_key now r : row_key (superseded now r) = row_key r.
Proof. done. Qed.
Lemma superseded_dead now r : live (superseded now r) = false.
Proof. done. Qed.

Lemma supersede_keys now id rs : map row_key (supersede_live now id rs) = map row_key rs.
Proof. unfold supersede_live. rewrite map_map. apply map_ext. intros r. by destruct (live_at id r). Qed.

Lemma supersede_shape now id rs r : r ∈ supersede_live now id rs → ∃ r0, r0 ∈ rs ∧ row_key r = row_key r0 ∧ pr_SchemaVersion r = pr_SchemaVersion r0 ∧
  live r = live r0 && negb (bool_decide (pr_ID r0 = id)).
Proof.
  intros [[Hr E]|(r0 & Hr0 & E & ->)]%elem_of_supersede; [exists r|exists r0]; (split_and!; [done..|]); unfold live_at in E.
  - destruct (bool_decide _), (live r); done.
  - apply andb_true_iff in E as [-> _]. by rewrite andb_false_r.
Qed.

Section write.
Context (now : Time.t) (rec : PolicyRecord) (t : Tables) (Ht : tables_ok t).
Context (Hlive : live rec = true) (Hschema : pr_SchemaVersion rec ∈ map scr_Version (t_schemas t)).
Context (Hnew : ∀ r, r ∈ t_policies t → pr_ID r = pr_ID rec → (pr_Version r < pr_Version rec)%Z) (Hpos : (0 < pr_Version rec)%Z).

Lemma written_ok : tables_ok (written now rec t).
Proof.
  split; simpl.
  - rewrite map_app, supersede_keys. apply NoDup_app. split_and!; [apply to_keys, Ht| |apply NoDup_singleton].
    intros k (r & -> & Hr)%elem_of_map [= E1 E2]%list_elem_of_singleton. specialize (Hnew r Hr E1). lia.
  - intros r [Hr| ->%list_elem_of_singleton]%elem_of_app; [|done]. apply supersede_shape in Hr as (r0 & Hr0 & [= _ ->] & _). by apply (to_pos _ Ht).
  - intros r [Hr| ->%list_elem_of_singleton]%elem_of_app; [|done]. apply supersede_shape in Hr as (r0 & Hr0 & _ & -> & _). by apply (to_schema _ Ht).
  - assert (∀ r', r' ∈ supersede_live now (pr_ID rec) (t_policies t) ++ [rec] ↔ r' ∈ supersede_live now (pr_ID rec) (t_policies t) ∨ r' = rec) as Hel.
    { intros r'. by rewrite elem_of_app, list_elem_of_singleton. }
    intros r [Hr| ->]%Hel.
    + apply supersede_shape in Hr as (r0 & Hr0 & [= Ei Ev] & _ & ->). rewrite andb_true_iff, negb_true_iff, bool_decide_eq_false. split.
      * intros [Hl Hne] r' [Hr'| ->]%Hel E; [|congruence]. apply supersede_shape in Hr' as (r1 & Hr1 & [= Ei1 Ev1] & _).
        rewrite Ev, Ev1. apply (to_live _ Ht r0 Hr0); [done..|congruence].
      * intros Hmax. assert (pr_ID r0 ≠ pr_ID rec) as Hne.
        { intros E. specialize (Hnew r0 Hr0 E). specialize (Hmax rec). assert (pr_Version rec <= pr_Version r)%Z; [|lia]. apply Hmax; [apply Hel; by right|congruence]. }
        split; [|done]. apply (to_live _ Ht r0 Hr0). intros r1 Hr1 E1. rewrite <-Ev. apply (Hmax r1); [|congruence]. apply Hel. left.
        apply elem_of_supersede. left. split; [done|]. unfold live_at. rewrite bool_decide_false by congruence. done.
    + split; [|done]. intros _ r' [Hr'| ->]%Hel E; [|lia]. apply supersede_shape in Hr' as (r1 & Hr1 & [= Ei1 Ev1] & _). specialize (Hnew r1 Hr1). assert (pr_Version r1 < pr_Version rec)%Z by (apply Hnew; congruence). lia.
  - apply (to_versions _ Ht).
Qed.

Lemma written_continues : continues t (written now rec t).
Proof.
  split; [done|]. intros r Hr. simpl. setoid_rewrite elem_of_app. destruct (live_at (pr_ID rec) r) eqn:E.
  - right. split; [by apply andb_true_iff in E as [_ ?]|]. exists now. left. apply elem_of_supersede. right. eauto.
  - left. left. apply elem_of_supersede. by left.
Qed.

Lemma written_live : live_row (pr_ID rec) (written now rec t) = Some rec.
Proof. apply live_row_spec; [apply written_ok|]. split_and!; [|done|done]. simpl. rewrite elem_of_app, list_elem_of_singleton. by right. Qed.

Lemma written_other id : id ≠ pr_ID rec → live_row id (written now rec t) = live_row id t.
Proof.
  intros Hne. assert (∀ r, live_row id (written now rec t) = Some r ↔ live_row id t = Some r) as Hiff.
  { intros r. rewrite !live_row_spec by (apply written_ok || done). simpl. rewrite elem_of_app, list_elem_of_singleton, elem_of_supersede. split.
    - intros ([[[Hr _]|(r0 & Hr0 & E & ->)]| ->] & Hid & Hl); [done|done|congruence].
    - intros (Hr & Hid & Hl). split_and!; try done. left; left. split; [done|]. unfold live_at. by rewrite bool_decide_false by congruence. }
  destruct (live_row id t) as [r|]; [by apply Hiff|]. destruct (live_row id (written now rec t)) as [r|]; [|done]. by pose proof (proj1 (Hiff r) eq_refl).
Qed.
End write.

(** What each call leaves, when it succeeds. *)
Record put_into (id : string) (rec : PolicyRecord) (t t' : Tables) : Prop := {
  pu_ok : tables_ok t';
  pu_schemas : t_schemas t' = t_schemas t;
  pu_id : pr_ID rec = id;
  pu_live : live_row id t' = Some rec;
  pu_other : ∀ id', id' ≠ id → live_row id' t' = live_row id' t }.

Lemma insert_policy_Ok now rec t t' :
  insert_policy rec (mkTables (t_schemas t) (supersede_live now (pr_ID rec) (t_policies t))) = Ok t' →
  t' = written now rec t ∧ pr_SchemaVersion rec ∈ map scr_Version (t_schemas t).
Proof.
  unfold insert_policy. simpl. destruct (contains (map scr_Version _) _) eqn:E; simpl; [|done]. destruct (_ || _); [done|]. intros [= <-].
  split; [done|]. by apply contains_spec.
Qed.

Lemma written_put now rec t : tables_ok t → live rec = true → pr_SchemaVersion rec ∈ map scr_Version (t_schemas t) →
  (∀ r, r ∈ t_policies t → pr_ID r = pr_ID rec → (pr_Version r < pr_Version rec)%Z) → (0 < pr_Version rec)%Z →
  put_into (pr_ID rec) rec t (written now rec t).
Proof. intros Ht Hl Hs Hn Hp. split; [by apply written_ok|done|done|by apply written_live|]. intros id' Hne. by apply written_other. Qed.

Lemma PutPolicy_Ok `{Codec} now i t rec t' : tables_ok t → PutPolicy now i t = Ok (rec, t') →
  ∃ p doc, pi_Policy i = Some p ∧ Marshal (one_policy p) = Ok doc ∧ pr_Document rec = doc ∧ pr_Deleted rec = false ∧ put_into (p_ID p) rec t t'.
Proof.
  intros Ht. unfold PutPolicy. destruct (pi_Policy i) as [p|]; [|done]. destruct (negb _); [done|]. intros (doc & Hdoc & Hrest)%res_bind_Ok. exists p, doc.
  destruct (_ && _ && _); [done|]. apply res_bind_Ok in Hrest as (t1 & Hins & [= <- <-]).
  match type of Hins with insert_policy ?r _ = _ => set (rec0 := r) in *; change (p_ID p) with (pr_ID rec0) in Hins end.
  apply insert_policy_Ok in Hins as [-> Hs]. split_and!; try done. apply (written_put now rec0); try done; [|apply next_version_pos].
  intros r Hr E. apply next_version_above, elem_of_versions_of. eauto.
Qed.

Lemma DeletePolicy_Ok now id author t rec t' : tables_ok t → DeletePolicy now id author t = Ok (rec, t') → pr_Deleted rec = true ∧ put_into id rec t t'.
Proof.
  intros Ht. unfold DeletePolicy, EffectivePolicy. destruct (live_row id t) as [old|] eqn:Eo; [|done]. apply (live_row_spec t Ht) in Eo as (Ho & Hid & Hlo). simpl.
  intros (t1 & Hins & [= <- <-])%res_bind_Ok. match type of Hins with insert_policy ?r _ = _ => set (rec0 := r) in * end.
  assert (id = pr_ID rec0) as Eid by (by rewrite <-Hid). rewrite Eid in Hins. apply insert_policy_Ok in Hins as [-> Hs]. split; [done|].
  rewrite Eid. apply (written_put now rec0); try done.
  - intros r Hr E. assert (pr_Version r <= pr_Version old)%Z; [|simpl; lia]. by apply (to_live _ Ht old Ho).
  - pose proof (to_pos _ Ht old Ho). simpl. lia.
Qed.

(** ** Writes against a map *)

Section refinement.
Context `{Codec}.

Inductive write :=
  | WSchema (now : Time.t) (s : Schema) (o : Origin) (author : string)
  | WPut (now : Time.t) (i : PolicyInput)
  | WDelete (now : Time.t) (id author : string).

(** A write that fails leaves the tables as they were. *)
Definition exec (w : write) (t : Tables) : Tables :=
  let keep {A} (r : result (A * Tables)) := match r with Ok (_, t') => t' | Err _ => t end in
  match w with
  | WSchema now s o a => keep (PutSchema now s o a t)
  | WPut now i => keep (PutPolicy now i t)
  | WDelete now id a => keep (DeletePolicy now id a t)
  end.

(** The abstract store: how many schemas there are, and for each identifier in use its
    owner and its document, unless it was deleted. *)
Record astore := mkAStore { a_schemas : nat; a_live : gmap string (Origin * option string) }.

Definition may_write (i : PolicyInput) (p : Policy) (a : astore) : bool :=
  Origin_Valid (pi_Origin i) && (1 <=? pi_SchemaVersion i)%Z && (pi_SchemaVersion i <=? Z.of_nat (a_schemas a))%Z &&
  match a_live a !! p_ID p with Some (o, _) => bool_decide (o = pi_Origin i) || pi_AssumeOwnership i | None => true end.

Definition aexec (w : write) (a : astore) : astore :=
  match w with
  | WSchema now s o _ => if Origin_Valid o && is_ok (Marshal (only_schema s)) then mkAStore (S (a_schemas a)) (a_live a) else a
  | WPut now i =>
      match pi_Policy i with
      | None => a
      | Some p => match Marshal (one_policy p) with
                  | Ok doc => if may_write i p a then mkAStore (a_schemas a) (<[p_ID p := (pi_Origin i, Some doc)]> (a_live a)) else a
                  | Err _ => a
                  end
      end
  | WDelete now id _ =>
      match a_live a !! id with Some (o, _) => mkAStore (a_schemas a) (<[id := (o, None)]> (a_live a)) | None => a end
  end.

Definition summary (r : PolicyRecord) : Origin * option string := (pr_Origin r, if pr_Deleted r then None else Some (pr_Document r)).

Definition implements (t : Tables) (a : astore) : Prop :=
  tables_ok t ∧ length (t_schemas t) = a_schemas a ∧ ∀ id, summary <$> live_row id t = a_live a !! id.

Lemma implements_written now rec t a : implements t a → live rec = true → pr_SchemaVersion rec ∈ map scr_Version (t_schemas t) →
  (∀ r, r ∈ t_policies t → pr_ID r = pr_ID rec → (pr_Version r < pr_Version rec)%Z) → (0 < pr_Version rec)%Z →
  implements (written now rec t) (mkAStore (a_schemas a) (<[pr_ID rec := summary rec]> (a_live a))) ∧ continues t (written now rec t).
Proof.
  intros (Ht & Hn & Hl) Hlive Hs Hnew Hpos. split; [|by apply written_continues]. split_and!; [by apply written_ok|done|].
  intros id. simpl. destruct (decide (id = pr_ID rec)) as [->|Hne]; [by rewrite written_live, lookup_insert_eq|].
  by rewrite written_other, lookup_insert_ne, Hl.
Qed.

Lemma insert_written now rec t :
  tables_ok t → pr_SchemaVersion rec ∈ map scr_Version (t_schemas t) →
  (∀ r, r ∈ t_policies t → pr_ID r = pr_ID rec → (pr_Version r < pr_Version rec)%Z) →
  insert_policy rec (mkTables (t_schemas t) (supersede_live now (pr_ID rec) (t_policies t))) = Ok (written now rec t).
Proof.
  intros Ht Hs Hnew. unfold insert_policy. simpl. rewrite (proj2 (contains_spec _ _) Hs). simpl.
  assert (contains (versions_of (pr_ID rec) (supersede_live now (pr_ID rec) (t_policies t))) (pr_Version rec) = false) as ->.
  { apply not_true_is_false. rewrite contains_spec, elem_of_versions_of. intros (r & (r0 & Hr0 & [= E1 E2] & _)%supersede_shape & Ei & Ev).
    specialize (Hnew r0 Hr0). assert (pr_Version r0 < pr_Version rec)%Z by (apply Hnew; congruence). lia. }
  assert (existsb (live_at (pr_ID rec)) (supersede_live now (pr_ID rec) (t_policies t)) = false) as ->; [|done].
  apply not_true_is_false. rewrite existsb_exists. intros (r & Hr%list_elem_of_In & Hb). unfold live_at in Hb. apply andb_true_iff in Hb as [Hi Hlr].
  apply bool_decide_eq_true in Hi. apply supersede_shape in Hr as (r0 & _ & [= E1 _] & _ & E). rewrite Hlr in E. symmetry in E.
  apply andb_true_iff in E as [_ Hne]. apply negb_true_iff, bool_decide_eq_false in Hne. congruence.
Qed.

Lemma next_schema n : next_version (map Z.of_nat (seq 1 n)) = (Z.of_nat n + 1)%Z.
Proof.
  unfold next_version. f_equal. induction n as [|n IH]; [done|]. rewrite seq_S, map_app, foldr_app. simpl.
  enough (∀ l x, (0 <= x)%Z → foldr Z.max x l = Z.max x (foldr Z.max 0%Z l)) as Hm by (rewrite Hm, IH; lia).
  clear. induction l as [|y l IH]; intros x Hx; simpl; [lia|]. rewrite IH by done. lia.
Qed.

Lemma schema_known t a v : implements t a → contains (map scr_Version (t_schemas t)) v = (1 <=? v)%Z && (v <=? Z.of_nat (a_schemas a))%Z.
Proof.
  intros (Ht & Hn & _). rewrite (to_versions _ Ht), Hn. apply eq_iff_eq_true.
  rewrite contains_spec, andb_true_iff, Z.leb_le, Z.leb_le, elem_of_map. setoid_rewrite elem_of_seq. split.
  - intros (k & -> & Hk). lia.
  - intros Hv. exists (Z.to_nat v). lia.
Qed.

Lemma continues_refl t : continues t t.
Proof. split; [done|]. auto. Qed.

Lemma put_schema_refines now s o au t a : implements t a →
  implements (exec (WSchema now s o au) t) (aexec (WSchema now s o au) a) ∧ continues t (exec (WSchema now s o au) t).
Proof.
  intros Hi. pose proof Hi as (Ht & Hn & Hl). unfold exec, aexec, PutSchema. destruct (Origin_Valid o); simpl; [|by split; [|apply continues_refl]].
  destruct (Marshal (only_schema s)) as [doc|e]; simpl; [|by split; [|apply continues_refl]]. split.
  - split_and!; [|simpl; rewrite length_app; simpl; lia|done]. destruct Ht as [H1 H2 H3 H4 H5]. split; simpl; try done.
    + intros r Hr. rewrite map_app, elem_of_app. left. by apply H3.
    + rewrite map_app, length_app, Nat.add_1_r, seq_S, map_app, H5, next_schema. simpl. repeat f_equal. lia.
  - split; [simpl; by apply prefix_app_r|]. auto.
Qed.

Lemma put_policy_refines now i t a : implements t a →
  implements (exec (WPut now i) t) (aexec (WPut now i) a) ∧ continues t (exec (WPut now i) t).
Proof.
  intros Hi. pose proof Hi as (Ht & Hn & Hl). unfold exec, aexec, PutPolicy. destruct (pi_Policy i) as [p|]; simpl; [|by split; [|apply continues_refl]].
  unfold may_write. destruct (Origin_Valid (pi_Origin i)); simpl.
  2: { destruct (Marshal (one_policy p)); (split; [done|apply continues_refl]). }
  destruct (Marshal (one_policy p)) as [doc|e]; simpl; [|by split; [|apply continues_refl]]. rewrite <-(schema_known t a) by done.
  set (rec := mkPolicyRecord _ _ _ _ _ _ _ _ _ _ _).
  assert (∀ r, r ∈ t_policies t → pr_ID r = p_ID p → (pr_Version r < pr_Version rec)%Z) as Hnew.
  { intros r Hr E. apply next_version_above, elem_of_versions_of. eauto. }
  assert (bool_decide (is_Some (pr_Origin <$> live_row (p_ID p) t)) && bool_decide (pr_Origin <$> live_row (p_ID p) t ≠ Some (pi_Origin i)) && negb (pi_AssumeOwnership i)
    = negb match a_live a !! p_ID p with Some (o, _) => bool_decide (o = pi_Origin i) || pi_AssumeOwnership i | None => true end) as Eo.
  { rewrite <-Hl. destruct (live_row (p_ID p) t) as [r|]; simpl; [|done]. destruct (pi_AssumeOwnership i); simpl; [by rewrite andb_false_r, orb_true_r|].
    rewrite andb_true_r, orb_false_r. case_bool_decide as E1; case_bool_decide as E2; simpl; try done; [destruct E1; congruence|congruence]. }
  rewrite Eo. destruct (contains (map scr_Version (t_schemas t)) (pi_SchemaVersion i)) eqn:Hs; simpl.
  2: { destruct (match a_live a !! _ with Some _ => _ | None => _ end); simpl; [|by split; [|apply continues_refl]].
       assert (insert_policy rec (mkTables (t_schemas t) (supersede_live now (p_ID p) (t_policies t))) = Err []) as ->; [|by split; [|apply continues_refl]].
       unfold insert_policy. simpl. by rewrite Hs. }
  destruct (match a_live a !! _ with Some _ => _ | None => _ end); simpl; [|by split; [|apply continues_refl]].
  apply contains_spec in Hs. pose proof (insert_written now rec t Ht Hs Hnew) as Ew. change (pr_ID rec) with (p_ID p) in Ew. rewrite Ew. simpl. apply (implements_written now rec); try done. apply next_version_pos.
Qed.

Lemma delete_policy_refines now id au t a : implements t a →
  implements (exec (WDelete now id au) t) (aexec (WDelete now id au) a) ∧ continues t (exec (WDelete now id au) t).
Proof.
  intros Hi. pose proof Hi as (Ht & Hn & Hl). unfold exec, aexec, DeletePolicy, EffectivePolicy. rewrite <-Hl.
  destruct (live_row id t) as [old|] eqn:Eo; simpl; [|by split; [|apply continues_refl]]. apply (live_row_spec t Ht) in Eo as (Ho & Hid & Hlo).
  set (rec := mkPolicyRecord _ _ _ _ _ _ _ _ _ _ _). assert (id = pr_ID rec) as Eid by (by rewrite <-Hid).
  assert (∀ r, r ∈ t_policies t → pr_ID r = pr_ID rec → (pr_Version r < pr_Version rec)%Z) as Hnew.
  { intros r Hr E. assert (pr_Version r <= pr_Version old)%Z; [|simpl; lia]. by apply (to_live _ Ht old Ho). }
  assert (pr_SchemaVersion rec ∈ map scr_Version (t_schemas t)) as Hs by exact (to_schema _ Ht old Ho).
  rewrite Eid, (insert_written now rec t Ht Hs Hnew). simpl. apply (implements_written now rec); try done. pose proof (to_pos _ Ht old Ho). simpl. lia.
Qed.

Lemma exec_refines w t a : implements t a → implements (exec w t) (aexec w a) ∧ continues t (exec w t).
Proof. destruct w; [apply put_schema_refines|apply put_policy_refines|apply delete_policy_refines]. Qed.

Lemma PutSchema_Ok now s o au t rec t' : tables_ok t → PutSchema now s o au t = Ok (rec, t') →
  tables_ok t' ∧ t_policies t' = t_policies t ∧ t_schemas t' = t_schemas t ++ [rec] ∧
  scr_Version rec = (Z.of_nat (length (t_schemas t)) + 1)%Z ∧ Marshal (only_schema s) = Ok (scr_Document rec).
Proof.
  intros Ht. unfold PutSchema. destruct (negb _); [done|]. intros (doc & Hdoc & [= <- <-])%res_bind_Ok. simpl. rewrite (to_versions _ Ht), next_schema.
  split_and!; try done. destruct Ht as [H1 H2 H3 H4 H5]. split; simpl; try done.
  - intros r Hr. rewrite map_app, elem_of_app. left. by apply H3.
  - rewrite map_app, length_app, Nat.add_1_r, seq_S, map_app, H5. simpl. repeat f_equal. lia.
Qed.

(** ** Histories *)

Definition run_from (t : Tables) (ws : list write) : Tables := foldl (λ t w, exec w t) t ws.
Definition arun_from (a : astore) (ws : list write) : astore := foldl (λ a w, aexec w a) a ws.
Definition empty_tables : Tables := mkTables [] [].
Definition empty_astore : astore := mkAStore 0 ∅.

Lemma continues_trans t1 t2 t3 : continues t1 t2 → continues t2 t3 → continues t1 t3.
Proof.
  intros [Hp1 H1] [Hp2 H2]. split; [by etrans|]. intros r [Hr|(Hl & now & Hr)]%H1; [by apply H2|]. right. split; [done|]. exists now.
  destruct (H2 _ Hr) as [?|[Hd _]]; [done|]. by rewrite superseded_dead in Hd.
Qed.

Lemma run_refines ws t a : implements t a → implements (run_from t ws) (arun_from a ws) ∧ continues t (run_from t ws).
Proof.
  revert t a. induction ws as [|w ws IH]; intros t a Hi; [split; [done|apply continues_refl]|].
  destruct (exec_refines w t a Hi) as [Hi' Hc]. destruct (IH _ _ Hi') as [Hi'' Hc']. split; [done|]. by eapply continues_trans.
Qed.

Lemma empty_implements : implements empty_tables empty_astore.
Proof. split_and!; [|done|done]. split; simpl; [constructor|set_solver..|done]. Qed.

(** A row as it was written, superseded or not. *)
Definition same_version (r r' : PolicyRecord) : Prop := r' = r ∨ live r = true ∧ ∃ now, r' = superseded now r.

Lemma GetPolicy_spec t id v r : tables_ok t → GetPolicy id v t = Ok r ↔ r ∈ t_policies t ∧ pr_ID r = id ∧ pr_Version r = v.
Proof.
  intros Ht. unfold GetPolicy, found. destruct (list_find _ (t_policies t)) as [[i x]|] eqn:E; simpl.
  - apply list_find_Some in E as (Hi & [Ex1 Ex2] & _). apply list_elem_of_lookup_2 in Hi as Hx. split; [by intros [= <-]|]. intros (Hr & E1 & E2). f_equal.
    pose proof (to_keys _ Ht) as Hnd. apply list_elem_of_lookup in Hr as [j Hj]. rewrite NoDup_alt in Hnd.
    assert (i = j) as ->; [|congruence]. apply (Hnd i j (id, v)); rewrite list_lookup_fmap; [rewrite Hi|rewrite Hj]; simpl; unfold row_key; congruence.
  - split; [done|]. intros (Hr & E1 & E2). apply list_find_None in E. rewrite Forall_forall in E. by destruct (E r Hr).
Qed.

(** C19. The policy store refines a map.  Whatever sequence of schema writes, policy
    writes and deletions ran on an empty store, the tables keep their invariant (the
    newest version of a policy, and only that, is live; versions are positive and
    unique; every version names a stored schema), the live version of each policy is the owner
    and document the writes say, a deletion leaving a tombstone with its owner, a
    write by the other authoring path being refused unless it declares the handover;
    and every version written at some point is still found afterwards, unchanged but
    for the mark that it was superseded. *)
Theorem policy_store_refines ws :
  let t := run_from empty_tables ws in
  implements t (arun_from empty_astore ws) ∧
  ∀ ws1 ws2, ws = ws1 ++ ws2 → ∀ id v r, GetPolicy id v (run_from empty_tables ws1) = Ok r →
    ∃ r', GetPolicy id v t = Ok r' ∧ same_version r r'.
Proof.
  destruct (run_refines ws empty_tables empty_astore empty_implements) as [Hi _]. split; [done|].
  intros ws1 ws2 -> id v r. destruct (run_refines ws1 empty_tables empty_astore empty_implements) as [Hi1 _].
  intros (Hr & E1 & E2)%GetPolicy_spec; [|apply Hi1].
  assert (continues (run_from empty_tables ws1) (run_from empty_tables (ws1 ++ ws2))) as [_ Hc].
  { unfold run_from at 2. rewrite foldl_app. by apply (run_refines ws2 _ (arun_from empty_astore ws1)). }
  destruct (Hc r Hr) as [Hr'|(Hl & now & Hr')]; [exists r|exists (superseded now r)]; (split; [apply GetPolicy_spec; [apply Hi|done]|]); [by left|right; eauto].
Qed.
End refinement.
