(* ===== verification/ApplyPlan.v ===== *)
(** * Deltas as documents, and the plan of a file apply

    The part of internal/policy/revision/delta.go that goes through the document
    format: comparing two policies, two schemas and two sets, and the stored form of a
    delta, which keeps each side of a change as its document.  Then
    internal/policy/revision/apply.go: the limits, splitting and parsing of a directory
    of documents and its comparison with the state in force. *)
From S2P Require Import Prelude GoLib Policy Delta PolicyStore.

Definition Delta_Len (d : Delta) : nat := length (de_Changes d).

Section documents.
Context `{Codec}.

Definition EncodePolicy (p : option Policy) : result string :=
  match p with None => Ok "" | Some p => Marshal (one_policy p) end.
Definition DecodePolicy (doc : string) : result Policy :=
  let? set := Decode doc in
  match set_Policies set with [p] => Ok p | _ => Err [ErrDecodeDelta] end.
Definition EncodeSchema (s : option Schema) : result string :=
  match s with None => Ok "" | Some s => Marshal (only_schema s) end.
Definition DecodeSchema (doc : string) : result Schema := let? set := Decode doc in Ok (set_Schema set).

(** [Clone]: a copy through the format. *)
Definition Clone (p : option Policy) : result (option Policy) :=
  let? doc := EncodePolicy p in
  if bool_decide (doc = "") then Ok None else let? q := DecodePolicy doc in Ok (Some q).

Definition samePolicy (a b : option Policy) : bool :=
  match EncodePolicy a, EncodePolicy b with Ok l, Ok r => bool_decide (l = r) | _, _ => false end.

Definition SchemaChanged (d : Delta) : bool :=
  match de_SchemaBefore d, de_SchemaAfter d with
  | None, None => false
  | None, Some _ | Some _, None => true
  | Some b, Some a =>
      match EncodeSchema (Some b), EncodeSchema (Some a) with Ok l, Ok r => negb (bool_decide (l = r)) | _, _ => true end
  end.

(** [Delta.Validate], which asks the encoder whether the schema changes. *)
Definition Delta_Validate (d : Delta) : result unit := Delta.Validate (SchemaChanged d) d.

(** ** Comparing two sets *)

Definition indexPolicies (s : option PolicySet) : gmap string Policy :=
  match s with None => ∅ | Some s => foldl (λ m p, <[p_ID p := p]> m) ∅ (set_Policies s) end.

Definition diff_one (before after : gmap string Policy) (id : string) : list Change :=
  match before !! id, after !! id with
  | None, fresh => [mkChange ChangeAdd id None fresh no_origin no_origin]
  | Some old, None => [mkChange ChangeDelete id (Some old) None no_origin no_origin]
  | Some old, Some fresh =>
      if samePolicy (Some old) (Some fresh) then [] else [mkChange ChangeModify id (Some old) (Some fresh) no_origin no_origin]
  end.

Definition Diff (before after : option PolicySet) : Delta :=
  let b := indexPolicies before in
  let a := indexPolicies after in
  let ids := sort_by id String.le (map fst (map_to_list b) ++ List.filter (λ id, bool_decide (b !! id = None)) (map fst (map_to_list a))) in
  mkDelta (concat (map (diff_one b a) ids)) (set_Schema <$> before) (set_Schema <$> after).

(** ** The stored form *)

Record changeJSON := mkChangeJSON {
  cj_Kind : ChangeKind; cj_PolicyID : string; cj_Before : string; cj_After : string; cj_FromOrigin : Origin; cj_ToOrigin : Origin }.
Record deltaJSON := mkDeltaJSON { dj_Changes : list changeJSON; dj_SchemaBefore : string; dj_SchemaAfter : string }.

Definition marshal_change (c : Change) : result changeJSON :=
  let? before := EncodePolicy (ch_Before c) in
  let? after := EncodePolicy (ch_After c) in
  Ok (mkChangeJSON (ch_Kind c) (ch_PolicyID c) before after (ch_FromOrigin c) (ch_ToOrigin c)).

Definition MarshalDelta (d : Delta) : result deltaJSON :=
  let? cs := res_map marshal_change (de_Changes d) in
  let? before := EncodeSchema (de_SchemaBefore d) in
  let? after := EncodeSchema (de_SchemaAfter d) in
  Ok (mkDeltaJSON cs before after).

Definition wrap_decode {A} (r : result A) : result A := match r with Ok a => Ok a | Err e => Err (ErrDecodeDelta :: e) end.

(** An absent side is the empty text. *)
Definition optional {A} (decode : string → result A) (doc : string) : result (option A) :=
  if bool_decide (doc = "") then Ok None else let? a := wrap_decode (decode doc) in Ok (Some a).

Definition unmarshal_change (c : changeJSON) : result Change :=
  let? before := optional DecodePolicy (cj_Before c) in
  let? after := optional DecodePolicy (cj_After c) in
  Ok (mkChange (cj_Kind c) (cj_PolicyID c) before after (cj_FromOrigin c) (cj_ToOrigin c)).

Definition UnmarshalDelta (j : deltaJSON) : result Delta :=
  let? cs := res_map unmarshal_change (dj_Changes j) in
  let? before := optional DecodeSchema (dj_SchemaBefore j) in
  let? after := optional DecodeSchema (dj_SchemaAfter j) in
  Ok (mkDelta cs before after).
End documents.

(** ** Planning a file apply

    Models internal/policy/revision/apply.go up to the proposal: the limits on a
    payload, the split of a payload into adoption declarations and policy documents,
    and [PlanApply], which compares the directory with the state in force.  The YAML
    reader of a document is a parameter. *)
From S2P Require Import Cel Validate.
Import Strings.

Definition GovernancePolicyID : string := "stamp.governance".
Definition IsReserved (policyID : string) : bool := bool_decide (policyID = GovernancePolicyID).

(** ** Limits *)

Record PayloadLimits := mkPayloadLimits {
  pl_MaxDocuments : Z; pl_MaxDocumentBytes : Z; pl_MaxTotalBytes : Z; pl_MaxPolicies : Z;
  pl_MaxConditionNodes : Z; pl_MaxConditionDepth : Z }.

Definition DefaultPayloadLimits : PayloadLimits :=
  mkPayloadLimits 1000 (lm_MaxDocumentBytes DefaultLimits) (32 * 2 ^ 20) (lm_MaxPolicies DefaultLimits)
    (lm_MaxConditionNodes DefaultLimits) (lm_MaxConditionDepth DefaultLimits).

Definition PayloadLimits_orDefault (l : PayloadLimits) : PayloadLimits :=
  let d := DefaultPayloadLimits in
  let pick (get : PayloadLimits → Z) := if (get l <=? 0)%Z then get d else get l in
  mkPayloadLimits (pick pl_MaxDocuments) (pick pl_MaxDocumentBytes) (pick pl_MaxTotalBytes) (pick pl_MaxPolicies)
    (pick pl_MaxConditionNodes) (pick pl_MaxConditionDepth).

Definition policyLimits (l : PayloadLimits) : Limits :=
  mkLimits (pl_MaxTotalBytes l) (pl_MaxPolicies l) (pl_MaxConditionNodes l) (pl_MaxConditionDepth l).

(** ** Payloads *)

Record Document := mkDocument { doc_Name : string; doc_Content : string }.
Notation Payload := (list Document).

Definition byte_length (d : Document) : Z := Z.of_nat (String.length (doc_Content d)).

Definition Payload_Check (p : Payload) (limits : PayloadLimits) : result unit :=
  let l := PayloadLimits_orDefault limits in
  if bool_decide (p = []) then Ok tt
  else if (pl_MaxDocuments l <? Z.of_nat (length p))%Z then Err [ErrPayloadTooLarge]
  else if existsb (λ d, pl_MaxDocumentBytes l <? byte_length d)%Z p then Err [ErrPayloadTooLarge]
  else if (pl_MaxTotalBytes l <? foldr Z.add 0 (map byte_length p))%Z then Err [ErrPayloadTooLarge]
  else Ok tt.

(** What the YAML reader makes of a document: the kind of each document in the stream,
    and the stream read as adoption declarations, each an API version and its
    policies. *)
Class Yaml := {
  yaml_kinds : string → result (list string);
  yaml_adoptions : string → result (list (string * list string)) }.

Definition APIVersion : string := "stamp/v1".
Definition AdoptionKind : string := "Adoption".

Definition invalid_payload {A} (r : result A) : result A := match r with Ok a => Ok a | Err e => Err (ErrInvalidApplyPayload :: e) end.

Definition documentKinds `{Yaml} (d : Document) : result (list string) := invalid_payload (yaml_kinds (doc_Content d)).
Definition adoptionCount (kinds : list string) : nat := length (List.filter (λ k, bool_decide (k = AdoptionKind)) kinds).

(** The declarations come in order, and the first bad one is the error. *)
Fixpoint adopted (ds : list (string * list string)) : result (list string) :=
  match ds with
  | [] => Ok []
  | (version, ids) :: ds =>
      if negb (bool_decide (version = APIVersion)) then Err [ErrInvalidApplyPayload]
      else if bool_decide (ids = []) then Err [ErrInvalidApplyPayload]
      else let? rest := adopted ds in Ok (ids ++ rest)
  end.
Definition decodeAdoption `{Yaml} (d : Document) : result (list string) :=
  let? ds := invalid_payload (yaml_adoptions (doc_Content d)) in adopted ds.

Record parsed := mkParsed { pd_set : PolicySet; pd_adopt : list string }.

Fixpoint split_payload `{Yaml} (p : Payload) (stream : string) (adopt : list string) : result (string * list string) :=
  match p with
  | [] => Ok (stream, adopt)
  | d :: p =>
      let? kinds := documentKinds d in
      if negb (contains kinds AdoptionKind) then split_payload p (appendDocument stream (doc_Content d)) adopt
      else if negb (length kinds =? adoptionCount kinds)%nat then Err [ErrInvalidApplyPayload]
      else let? ids := decodeAdoption d in split_payload p stream (adopt ++ ids)
  end.

Definition Payload_parse `{Codec, CEL, Yaml} (p : Payload) (limits : PayloadLimits) : result parsed :=
  let? sa := split_payload p "" [] in
  let? set := invalid_payload (LoadWithLimits (policyLimits limits) sa.1) in
  Ok (mkParsed set (sort_by id String.le sa.2)).

(** ** The comparison *)

Record CurrentPolicy := mkCurrentPolicy { cu_Policy : option Policy; cu_Origin : Origin }.
Record CurrentState := mkCurrentState { cs_Schema : Schema; cs_Policies : list CurrentPolicy }.

(** The policies held, by identifier; a later one overwrites. *)
Definition owner_map (ps : list CurrentPolicy) : gmap string (Policy * Origin) :=
  foldl (λ m h, match cu_Policy h with None => m | Some p => <[p_ID p := (p, cu_Origin h)]> m end) ∅ ps.

Section plan.
Context `{Codec}.

(** The change one desired policy asks for. *)
Definition plan_one (owner : gmap string (Policy * Origin)) (adopt : list string) (p : Policy) : result (list Change) :=
  let id := p_ID p in
  if IsReserved id then Err [ErrInvalidApplyPayload]
  else match owner !! id with
  | None => Ok [mkChange ChangeAdd id None (Some p) no_origin no_origin]
  | Some (held, origin) =>
      if bool_decide (origin = OriginFile) then
        if samePolicy (Some held) (Some p) then Ok [] else Ok [mkChange ChangeModify id (Some held) (Some p) no_origin no_origin]
      else if contains adopt id then Ok [mkChange ChangeTakeOwnership id (Some held) (Some p) origin OriginFile]
      else if samePolicy (Some held) (Some p) then Ok []
      else Err [ErrOriginConflict]
  end.

(** A declaration must name a policy the directory carries and another path owns. *)
Definition adoptable (owner : gmap string (Policy * Origin)) (seen : list string) (id : string) : bool :=
  contains seen id && match owner !! id with Some (_, origin) => negb (bool_decide (origin = OriginFile)) | None => false end.

Definition plan_deletions (owner : gmap string (Policy * Origin)) (seen : list string) : list Change :=
  let gone := List.filter (λ kv, bool_decide (kv.2.2 = OriginFile) && negb (contains seen kv.1)) (map_to_list owner) in
  map (λ kv, mkChange ChangeDelete kv.1 (Some kv.2.1) None no_origin no_origin) (sort_by fst String.le gone).

Definition PlanApply (current : CurrentState) (desired : option PolicySet) (adopt : list string) : result Delta :=
  let want := default (mkSet (cs_Schema current) []) desired in
  let owner := owner_map (cs_Policies current) in
  let seen := map p_ID (set_Policies want) in
  let? changes := res_map (plan_one owner adopt) (set_Policies want) in
  if negb (forallb (adoptable owner seen) adopt) then Err [ErrInvalidApplyPayload]
  else Ok (mkDelta (sort_by ch_PolicyID String.le (concat changes ++ plan_deletions owner seen))
             (Some (cs_Schema current)) (Some (set_Schema want))).
End plan.
