(* ===== verification/ApplyPlanSpec.v ===== *)
(** * What a file apply does

    First a reference document format, an instance of [Codec] that knows the documents
    of a table: it writes a normalized set as the name the table gives it and reads the
    name back, and the examples run on it.  Then which delta a directory of documents is
    planned to, and the state it leads to. *)
From S2P Require Import Prelude GoLib Policy Cel Validate Delta PolicyStore.

(** ** Deciding equality of sets *)

#[export] Instance value_eq_dec : EqDecision value.
Proof.
  unfold EqDecision, base.Decision. fix IH 1. intros x y. decide equality; try apply (decide (_ = _)). apply (List.list_eq_dec IH).
Defined.
#[export] Instance Literal_eq_dec : EqDecision Literal.
Proof. solve_decision. Defined.
#[export] Instance Operand_eq_dec : EqDecision Operand.
Proof.
  unfold EqDecision, base.Decision. fix IH 1. intros x y. decide equality; try apply (decide (_ = _)). apply (List.list_eq_dec IH).
Defined.
#[export] Instance Node_eq_dec : EqDecision Node.
Proof.
  unfold EqDecision, base.Decision. fix IH 1. intros x y. decide equality; try apply (decide (_ = _)). apply (List.list_eq_dec IH).
Defined.
#[export] Instance ApproverSet_eq_dec : EqDecision ApproverSet.
Proof. solve_decision. Defined.
#[export] Instance Quorum_eq_dec : EqDecision Quorum.
Proof. solve_decision. Defined.
#[export] Instance MFA_eq_dec : EqDecision MFA.
Proof. solve_decision. Defined.
#[export] Instance Delay_eq_dec : EqDecision Delay.
Proof. solve_decision. Defined.
#[export] Instance External_eq_dec : EqDecision External.
Proof. solve_decision. Defined.
#[export] Instance Challenge_eq_dec : EqDecision Challenge.
Proof. solve_decision. Defined.
#[export] Instance Policy_eq_dec : EqDecision Policy.
Proof. solve_decision. Defined.
#[export] Instance Attribute_eq_dec : EqDecision Attribute.
Proof. solve_decision. Defined.
#[export] Instance EntityType_eq_dec : EqDecision EntityType.
Proof. solve_decision. Defined.
#[export] Instance Action_eq_dec : EqDecision Action.
Proof. solve_decision. Defined.
#[export] Instance Param_eq_dec : EqDecision Param.
Proof. solve_decision. Defined.
#[export] Instance SourceDecl_eq_dec : EqDecision SourceDecl.
Proof. solve_decision. Defined.
#[export] Instance Schema_eq_dec : EqDecision Schema.
Proof. solve_decision. Defined.
#[export] Instance PolicySet_eq_dec : EqDecision PolicySet.
Proof. solve_decision. Defined.

(** ** The table *)

Definition table := list (PolicySet * string).

Definition table_codec (tbl : table) : Codec := {|
  Marshal s := match list_find (λ e, e.1 = Normalize s) tbl with Some (_, e) => Ok e.2 | None => Err [] end;
  DecodeWithLimits _ doc := match list_find (λ e, e.2 = doc) tbl with Some (_, e) => Ok e.1 | None => Err [] end;
  content_hash doc := doc |}.

(** What was written reads back, if the names are different. *)
Lemma table_round_trip tbl s doc : NoDup (map snd tbl) → @Marshal (table_codec tbl) s = Ok doc → @Decode (table_codec tbl) doc = Ok (Normalize s).
Proof.
  intros Hnd. simpl. destruct (list_find _ tbl) as [[i e]|] eqn:E; [|done]. intros [= <-]. apply list_find_Some in E as (Hi & E1 & _).
  unfold Decode. simpl. destruct (list_find (λ e', e'.2 = e.2) tbl) as [[j f]|] eqn:F.
  - apply list_find_Some in F as (Hj & E2 & _). simpl. rewrite NoDup_alt in Hnd. assert (i = j) as ->; [|congruence].
    apply (Hnd i j e.2); rewrite list_lookup_fmap; [by rewrite Hi|]. by rewrite Hj, <-E2.
  - apply list_find_None in F. rewrite Forall_forall in F. destruct (F e); [by eapply list_elem_of_lookup_2|done].
Qed.

(** ** What a file apply proposes

    Applying the planned delta makes the state in force say what the directory says
    about the policies the file path owns, and leaves the policies of the other path
    alone unless the directory declares the handover. *)
From S2P Require Import ApplyPlan.

(** The policies of a state, with their owners. *)
Definition held (current : CurrentState) : list (Policy * Origin) :=
  omap (λ h, (λ p, (p, cu_Origin h)) <$> cu_Policy h) (cs_Policies current).
Definition base_set (current : CurrentState) : PolicySet := mkSet (cs_Schema current) (map fst (held current)).

Lemma owner_map_foldl (m : gmap string (Policy * Origin)) ps :
  foldl (λ m h, match cu_Policy h with None => m | Some p => <[p_ID p := (p, cu_Origin h)]> m end) m ps =
  foldl (λ m (x : Policy * Origin), <[p_ID x.1 := x]> m) m (omap (M := list) (λ h, (λ p, (p, cu_Origin h)) <$> cu_Policy h) ps).
Proof. revert m. induction ps as [|h ps IH]; intros m; [done|]. cbn [foldl omap list_omap]. destruct (cu_Policy h); simpl; apply IH. Qed.

Lemma foldl_insert_lookup (l : list (Policy * Origin)) (m : gmap string (Policy * Origin)) id x : NoDup (map (λ x, p_ID x.1) l) →
  foldl (λ m (x : Policy * Origin), <[p_ID x.1 := x]> m) m l !! id = Some x ↔
  (x ∈ l ∧ p_ID x.1 = id) ∨ (m !! id = Some x ∧ id ∉ map (λ x, p_ID x.1) l).
Proof.
  revert m. induction l as [|y l IH]; intros m Hnd; simpl; [set_solver|].
  simpl in Hnd. apply NoDup_cons in Hnd as [Hy Hnd]. rewrite IH by done. destruct (decide (p_ID y.1 = id)) as [<-|Hne].
  - rewrite lookup_insert_eq. split.
    + intros [[Hx E]|[[= <-] _]]; [left; set_solver|]. left. split; [apply elem_of_cons; by left|done].
    + intros [[[->|Hx]%elem_of_cons E]|[_ Hn]]; [by right|by left|set_solver].
  - rewrite lookup_insert_ne by done. split.
    + intros [[Hx E]|[Hm Hn]]; [left; set_solver|right; set_solver].
    + intros [[[->|Hx]%elem_of_cons E]|[Hm Hn]]; [done|by left|right; set_solver].
Qed.

Section plan.
Context `{Codec} (current : CurrentState) (want : PolicySet) (adopt : list string).
Context (Hheld : NoDup (map (λ x, p_ID x.1) (held current))) (Hwant : NoDup (map p_ID (set_Policies want))).

Let owner := owner_map (cs_Policies current).
Let seen := map p_ID (set_Policies want).

Lemma owner_spec id x : owner !! id = Some x ↔ x ∈ held current ∧ p_ID x.1 = id.
Proof. unfold owner, owner_map. rewrite owner_map_foldl, foldl_insert_lookup by done. rewrite lookup_empty. unfold held. naive_solver. Qed.

Lemma owner_None id : owner !! id = None ↔ id ∉ map p_ID (map fst (held current)).
Proof.
  rewrite eq_None_not_Some. apply not_iff_compat. rewrite map_map, elem_of_map. split.
  - intros [x [Hx <-]%owner_spec]. eauto.
  - intros (x & -> & Hx). exists x. by apply owner_spec.
Qed.

(** What the change for one policy is. *)
Inductive planned : Change → Prop :=
  | pl_add p : p ∈ set_Policies want → owner !! p_ID p = None → planned (mkChange ChangeAdd (p_ID p) None (Some p) no_origin no_origin)
  | pl_modify p h : p ∈ set_Policies want → owner !! p_ID p = Some (h, OriginFile) → samePolicy (Some h) (Some p) = false →
      planned (mkChange ChangeModify (p_ID p) (Some h) (Some p) no_origin no_origin)
  | pl_adopt p h o : p ∈ set_Policies want → owner !! p_ID p = Some (h, o) → o ≠ OriginFile → p_ID p ∈ adopt →
      planned (mkChange ChangeTakeOwnership (p_ID p) (Some h) (Some p) o OriginFile)
  | pl_delete id h : owner !! id = Some (h, OriginFile) → id ∉ seen → planned (mkChange ChangeDelete id (Some h) None no_origin no_origin).

(** A desired policy asks for no change when the state in force says the same. *)
Definition settled (p : Policy) : Prop :=
  ∃ h o, owner !! p_ID p = Some (h, o) ∧ samePolicy (Some h) (Some p) = true ∧ (o = OriginFile ∨ p_ID p ∉ adopt).

Lemma plan_one_spec p cs : p ∈ set_Policies want → plan_one owner adopt p = Ok cs →
  (∃ c, cs = [c] ∧ planned c ∧ ch_After c = Some p ∧ ¬ settled p) ∨ (cs = [] ∧ settled p).
Proof.
  intros Hp. unfold plan_one, settled. destruct (IsReserved (p_ID p)); [done|]. destruct (owner !! p_ID p) as [[h o]|] eqn:Eo.
  - case_bool_decide as Ef.
    + subst o. destruct (samePolicy _ _) eqn:Es; intros [= <-]; [right; split; [done|]; by exists h, OriginFile; auto|]. left. eexists. split_and!; [done|by apply pl_modify|done|].
      intros (h' & o' & [= <- <-] & Hs & _). congruence.
    + destruct (contains adopt (p_ID p)) eqn:Ea.
      * apply contains_spec in Ea. intros [= <-]. left. eexists. split_and!; [done|by apply pl_adopt|done|].
        intros (h' & o' & [= <- <-] & _ & [?|?]); done.
      * destruct (samePolicy _ _) eqn:Es; [|done]. intros [= <-]. right. split; [done|]. exists h, o. split_and!; try done.
        right. rewrite <-contains_spec. by rewrite Ea.
  - intros [= <-]. left. eexists. split_and!; [done|by apply pl_add|done|]. by intros (h & o & [=] & _).
Qed.

Lemma changes_of_policies l css : (∀ p, p ∈ l → p ∈ set_Policies want) → Forall2 (λ p cs, plan_one owner adopt p = Ok cs) l css →
  map ch_PolicyID (concat css) `sublist_of` map p_ID l ∧
  (∀ c, c ∈ concat css → planned c ∧ is_Some (ch_After c)) ∧
  ∀ p, p ∈ l → settled p ∨ ∃ c, c ∈ concat css ∧ planned c ∧ ch_After c = Some p.
Proof.
  intros Hin Hall. induction Hall as [|p cs l css Hp _ IH]; [split_and!; [done|set_solver|set_solver]|].
  destruct IH as (Hs & Hc & Hl); [set_solver|]. destruct (plan_one_spec p cs) as [(c & -> & Hpl & Ha & Hns)|[-> Hset]]; [set_solver|done| |]; simpl.
  - assert (ch_PolicyID c = p_ID p) as Eid by (by destruct Hpl; simpl in Ha; simplify_eq).
    split_and!; [rewrite Eid; by constructor| |].
    + intros c' [->|Hc']%elem_of_cons; [by rewrite Ha|by apply Hc].
    + intros q [->|Hq]%elem_of_cons; [right; exists c; set_solver|]. destruct (Hl q Hq) as [?|(c' & ? & ? & ?)]; [by left|right; exists c'; set_solver].
  - split_and!; [by constructor|done|]. intros q [->|Hq]%elem_of_cons; [by left|by apply Hl].
Qed.

Lemma deletions_spec c : c ∈ plan_deletions owner seen ↔ planned c ∧ ch_After c = None.
Proof.
  unfold plan_deletions. rewrite elem_of_map. setoid_rewrite elem_of_sort_by. setoid_rewrite list_elem_of_In. setoid_rewrite filter_In. setoid_rewrite <-list_elem_of_In. split.
  - intros ([id [h o]] & -> & Hm & Hb). apply elem_of_map_to_list in Hm. simpl in *. apply andb_true_iff in Hb as [->%bool_decide_eq_true Hn].
    split; [|done]. apply pl_delete; [done|]. apply negb_true_iff in Hn. rewrite <-contains_spec. by rewrite Hn.
  - intros [Hpl Ha]. destruct Hpl as [| | |id h Ho Hn]; try done. exists (id, (h, OriginFile)). simpl. split; [done|]. split; [by apply elem_of_map_to_list|].
    apply negb_true_iff, not_true_is_false. by rewrite contains_spec.
Qed.

Lemma deletions_ids : NoDup (map ch_PolicyID (plan_deletions owner seen)) ∧ ∀ id, id ∈ map ch_PolicyID (plan_deletions owner seen) → id ∉ seen.
Proof.
  split.
  - unfold plan_deletions. rewrite map_map. simpl. rewrite sort_by_Permutation. apply NoDup_map_filter, (NoDup_fst_map_to_list owner).
  - intros id (c & -> & [Hpl Ha]%deletions_spec)%elem_of_map. by destruct Hpl.
Qed.

Lemma PlanApply_changes d : PlanApply current (Some want) adopt = Ok d →
  NoDup (map ch_PolicyID (de_Changes d)) ∧ (∀ c, c ∈ de_Changes d → planned c) ∧
  (∀ c, planned c → ch_After c = None → c ∈ de_Changes d) ∧
  (∀ p, p ∈ set_Policies want → settled p ∨ ∃ c, c ∈ de_Changes d ∧ ch_After c = Some p) ∧
  (∀ id, id ∈ adopt → adoptable owner seen id = true) ∧
  de_SchemaBefore d = Some (cs_Schema current) ∧ de_SchemaAfter d = Some (set_Schema want).
Proof.
  unfold PlanApply. cbn [default from_option id]. fold owner seen. intros (css & Hcss & Hrest)%res_bind_Ok. apply res_map_Ok in Hcss.
  destruct (forallb _ adopt) eqn:Had; [|done]. simpl in Hrest. injection Hrest as <-. simpl.
  destruct (changes_of_policies (set_Policies want) css (λ _ H, H) Hcss) as (Hsub & Hc & Hl). destruct deletions_ids as [Hnd Hdis].
  split_and!; [| | | | |done|done].
  - rewrite sort_by_Permutation, map_app. apply NoDup_app. split_and!; [by apply (sublist_NoDup _ _ Hwant Hsub)| |done].
    intros id Hid Hid'. apply (Hdis id Hid'). exact (elem_of_sublist _ _ _ Hid Hsub).
  - intros c. rewrite elem_of_sort_by, elem_of_app. intros [?%Hc|?%deletions_spec]; naive_solver.
  - intros c Hpl Ha. rewrite elem_of_sort_by, elem_of_app. right. by apply deletions_spec.
  - intros p Hp. destruct (Hl p Hp) as [?|(c & ? & _ & ?)]; [by left|]. right. exists c. rewrite elem_of_sort_by, elem_of_app. auto.
  - rewrite forallb_true in Had. done.
Qed.

(** ** The outcome *)

Context (Howners : ∀ x, x ∈ held current → Origin_Valid x.2 = true).

Lemma planned_shape c : planned c → ChangeKind_Valid (ch_Kind c) = true ∧ validateShape c = Ok tt.
Proof.
  destruct 1 as [p Hp Ho|p h Hp Ho Hs|p h o Hp Ho Hne Ha|id h Ho Hn]; unfold validateShape; simpl.
  - split; [done|]. by rewrite bool_decide_true.
  - apply owner_spec in Ho as [_ E]. simpl in E. split; [done|]. by rewrite E, !bool_decide_true.
  - apply owner_spec in Ho as [Hh E]. simpl in E. specialize (Howners _ Hh). simpl in Howners. split; [done|].
    rewrite E, !(bool_decide_true (p_ID p = p_ID p)), Howners, bool_decide_false by done. done.
  - apply owner_spec in Ho as [_ E]. simpl in E. split; [done|]. by rewrite E, bool_decide_true.
Qed.

Lemma base_ids : map p_ID (set_Policies (base_set current)) = map (λ x, p_ID x.1) (held current).
Proof. unfold base_set. simpl. by rewrite map_map. Qed.

Lemma planned_applies c : planned c → ch_Kind c = ChangeAdd ↔ ch_PolicyID c ∉ map p_ID (set_Policies (base_set current)).
Proof.
  rewrite <-owner_None. destruct 1 as [p Hp Ho|p h Hp Ho Hs|p h o Hp Ho Hne Ha|id h Ho Hn]; simpl; rewrite Ho; naive_solver.
Qed.

(** A held policy is touched when the plan deletes it, or changes it for one the
    directory carries. *)
Lemma touched c h o : planned c → (h, o) ∈ held current → ch_PolicyID c = p_ID h →
  (o = OriginFile ∧ p_ID h ∉ seen ∧ ch_After c = None) ∨
  ∃ p, p ∈ set_Policies want ∧ ch_After c = Some p ∧ p_ID p = p_ID h ∧ ¬ settled p ∧ (o = OriginFile ∨ ch_Kind c = ChangeTakeOwnership ∧ p_ID h ∈ adopt).
Proof.
  intros Hpl Hin. assert (owner !! p_ID h = Some (h, o)) as Hx by (by apply owner_spec).
  destruct Hpl as [p Hp Eo|p h' Hp Eo Hs|p h' o' Hp Eo Hne Ha|id h' Eo Hn]; simpl; intros E; rewrite E, Hx in Eo; simplify_eq.
  - right. exists p. split_and!; try done; [|by left]. intros (h1 & o1 & E1 & Hs1 & _). rewrite E, Hx in E1. simplify_eq. congruence.
  - right. exists p. split_and!; try done; [|right; split; congruence]. intros (h1 & o1 & E1 & _ & [?|?]); rewrite E, Hx in E1; by simplify_eq.
  - by left.
Qed.

Lemma planned_after c q : planned c → ch_After c = Some q → p_ID q = ch_PolicyID c ∧ q ∈ set_Policies want.
Proof. destruct 1; simpl; intros; by simplify_eq. Qed.
End plan.

(** C21. Planning a file apply.  When the plan of a directory against the state in force
    succeeds, its changes apply, and the outcome has the directory's schema and one
    policy per identifier; every policy of the directory is in it, as written or as an
    equal document already held; a policy the directory does not carry is deleted if
    the file path owns it and kept as it is if the console owns it; nothing else
    is there; and a policy of the console is changed only by a declared handover. *)
Theorem file_apply_outcome `{Codec} current want adopt d :
  NoDup (map (λ x, p_ID x.1) (held current)) → NoDup (map p_ID (set_Policies want)) →
  (∀ x, x ∈ held current → Origin_Valid x.2 = true) →
  PlanApply current (Some want) adopt = Ok d →
  ∃ out, Result d (Some (base_set current)) = Ok out ∧ set_Schema out = set_Schema want ∧ NoDup (map p_ID (set_Policies out)) ∧
    (∀ p, p ∈ set_Policies want → ∃ q, q ∈ set_Policies out ∧ p_ID q = p_ID p ∧ (q = p ∨ samePolicy (Some q) (Some p) = true)) ∧
    (∀ h o, (h, o) ∈ held current → p_ID h ∉ map p_ID (set_Policies want) → h ∈ set_Policies out ↔ o ≠ OriginFile) ∧
    (∀ q, q ∈ set_Policies out → p_ID q ∈ map p_ID (set_Policies want) ∨ ∃ o, (q, o) ∈ held current ∧ o ≠ OriginFile) ∧
    ∀ c h o, c ∈ de_Changes d → (h, o) ∈ held current → p_ID h = ch_PolicyID c → o ≠ OriginFile →
      ch_Kind c = ChangeTakeOwnership ∧ ch_PolicyID c ∈ adopt.
Proof.
  intros Hh Hw Ho Hp. destruct (PlanApply_changes current want adopt Hh Hw d Hp) as (Hnd & Hpl & Hdel & Hset & _ & _ & Hsch).
  pose proof (owner_spec current Hh) as Hown. pose proof Hh as Hb. rewrite <-base_ids in Hb.
  destruct (Result_changes d (base_set current)) as [Hs Hout]; [|done|done|].
  { apply Forall_forall. intros c Hc. apply (planned_shape current want adopt); [done|done|by apply Hpl]. }
  destruct (proj2 Hs) as [out Eout]. { intros c Hc. apply (planned_applies current want adopt); [done|by apply Hpl]. }
  destruct (Hout out Eout) as [Hndo Hel]. exists out. split; [done|]. split.
  { unfold Result in Eout. apply res_bind_Ok in Eout as (st & _ & [= <-]). simpl. by rewrite Hsch. }
  assert (∀ id, Touches d id = true ↔ id ∈ map ch_PolicyID (de_Changes d)) as Htouch.
  { intros id. unfold Touches. rewrite existsb_true, elem_of_map. setoid_rewrite bool_decide_eq_true. naive_solver. }
  assert (∀ h o, (h, o) ∈ held current → h ∈ set_Policies (base_set current)) as Hbase.
  { intros h o Hin. apply elem_of_map. by exists (h, o). }
  assert (∀ h, (h, OriginFile) ∈ held current → p_ID h ∉ map p_ID (set_Policies want) → Touches d (p_ID h) = true) as Hgone.
  { intros h Hin Hn. apply Htouch, elem_of_map. eexists. split; [|apply Hdel; [by apply (pl_delete current want adopt (p_ID h) h); [apply Hown|]|done]]. done. }
  split_and!; [done|..].
  - intros p Hpw. destruct (Hset p Hpw) as [Hst|(c & Hc & Ea)]; [|exists p; split_and!; [apply Hel; left; eauto|done|by left]].
    pose proof Hst as (h & o & [Hin Eid]%Hown & Es & _). simpl in Eid. exists h. split_and!; [|done|by right]. apply Hel. right. split; [by eapply Hbase|].
    apply not_true_is_false. rewrite Htouch. intros (c & E & Hc)%elem_of_map.
    destruct (touched current want adopt Hh c h o (Hpl c Hc) Hin) as [(_ & Hn & _)|(q & Hq & _ & Eq & Hns & _)]; [done| |].
    + apply Hn. rewrite Eid. apply elem_of_map. eauto.
    + apply Hns. rewrite <-(NoDup_map_inj p_ID _ _ _ Hw Hpw Hq) by congruence. done.
  - intros h o Hin Hn. split.
    + intros Hq ->. apply Hel in Hq as [(c & Hc & Ea)|[_ Ht]]; [|by rewrite Hgone in Ht].
      destruct (planned_after current want adopt c h (Hpl c Hc) Ea) as [_ Hq]. apply Hn, elem_of_map. eauto.
    + intros Hne. apply Hel. right. split; [by eapply Hbase|]. apply not_true_is_false. rewrite Htouch. intros (c & E & Hc)%elem_of_map.
      destruct (touched current want adopt Hh c h o (Hpl c Hc) Hin) as [(? & _)|(q & Hq & _ & Eq & _)]; [done|done|].
      apply Hn. rewrite <-Eq. apply elem_of_map. eauto.
  - intros q [(c & Hc & Ea)|[Hq Ht]]%Hel; [left; apply elem_of_map; exists q; by destruct (planned_after current want adopt c q (Hpl c Hc) Ea)|].
    destruct (decide (p_ID q ∈ map p_ID (set_Policies want))) as [|Hn]; [by left|]. right. apply elem_of_map in Hq as ([q' o] & -> & Hq). simpl in *.
    exists o. split; [done|]. intros ->. by rewrite Hgone in Ht.
  - intros c h o Hc Hin E Hne. destruct (touched current want adopt Hh c h o (Hpl c Hc) Hin) as [(? & _)|(q & Hq & _ & Eq & _ & [?|[? ?]])]; [done|done|done|]. by rewrite <-E.
Qed.

(** ** A directory *)

Module ApplyDemo.
Definition pol (id action : string) : Policy := mkPolicy id "" "user" "account" "" [action] NodeNil [].

Definition documents : table :=
  [(one_policy (pol "limits" "read"), "limits-1"); (one_policy (pol "limits" "write"), "limits-2"); (one_policy (pol "old" "read"), "old-1");
   (one_policy (pol "new" "read"), "new-1"); (one_policy (pol "console" "read"), "console-1"); (one_policy (pol "shared" "read"), "shared-1")].
#[local] Instance codec : Codec := table_codec documents.

(** The console owns two policies and the file path two. *)
Definition current : CurrentState :=
  mkCurrentState no_schema
    [mkCurrentPolicy (Some (pol "console" "read")) OriginForm; mkCurrentPolicy (Some (pol "limits" "read")) OriginFile;
     mkCurrentPolicy (Some (pol "old" "read")) OriginFile; mkCurrentPolicy (Some (pol "shared" "read")) OriginForm].

Definition directory : PolicySet := mkSet no_schema [pol "limits" "write"; pol "new" "read"; pol "shared" "read"].

Definition changes (adopt : list string) : result (list (ChangeKind * string)) :=
  let? d := PlanApply current (Some directory) adopt in Ok (map (λ c, (ch_Kind c, ch_PolicyID c)) (de_Changes d)).

Lemma file_apply_outcome_witness :
  changes [] = Ok [(ChangeModify, "limits"); (ChangeAdd, "new"); (ChangeDelete, "old")] ∧
  ∃ out, set_Policies out = [pol "console" "read"; pol "limits" "write"; pol "shared" "read"; pol "new" "read"] ∧
    ∀ h o, (h, o) ∈ held current → p_ID h ∉ map p_ID (set_Policies directory) → h ∈ set_Policies out ↔ o ≠ OriginFile.
Proof.
  split; [vm_compute; reflexivity|].
  destruct (PlanApply current (Some directory) []) as [d|] eqn:E; [|vm_compute in E; discriminate E].
  destruct (file_apply_outcome current directory [] d) as (out & Hout & _ & _ & _ & Hdel & _).
  - apply (bool_decide_unpack _). vm_compute. exact I.
  - apply (bool_decide_unpack _). vm_compute. exact I.
  - intros x Hx. unfold held, current in Hx. simpl in Hx. repeat (apply elem_of_cons in Hx as [->|Hx]; [reflexivity|]). by apply not_elem_of_nil in Hx.
  - exact E.
  - exists out. split; [|exact Hdel]. vm_compute in E. injection E as <-. vm_compute in Hout. injection Hout as <-. vm_compute. reflexivity.
Defined.

(** A directory that takes a console policy over says so. *)
Example handover : changes ["shared"] = Ok [(ChangeModify, "limits"); (ChangeAdd, "new"); (ChangeDelete, "old"); (ChangeTakeOwnership, "shared")].
Proof. vm_compute. reflexivity. Qed.
Example unowned_handover : changes ["limits"] = Err [ErrInvalidApplyPayload].
Proof. vm_compute. reflexivity. Qed.

(** Applying what is in force proposes nothing. *)
Example nothing_to_do : (let? d := PlanApply current (Some (base_set current)) [] in Ok (de_Changes d)) = Ok [].
Proof. vm_compute. reflexivity. Qed.
End ApplyDemo.
