(* ===== verification/Json.v ===== *)
(** * JSON documents

    What the program uses of encoding/json: documents as trees, the canonical form
    the store writes (store/audit.go [canonicalJSON]), and the decoding of fields
    into Go structs.

    A number is its value: decoding into [any] goes through float64, so an integer
    is rounded to 53 bits.  The string form of a [time.Time] is kept as the instant
    it denotes.  Field names are matched exactly, and no object
    repeats one. *)
From S2P Require Import Prelude GoLib Policy.

Inductive json :=
  | JNull
  | JBool (b : bool)
  | JInt (z : Z)
  | JFloat (f : Float64.t)
  | JStr (s : string)
  | JTime (t : Time.t)
  | JArr (l : list json)
  | JObj (fs : list (string * json)).

Section json_induction.
Context (P : json → Prop).
Context (Harr : ∀ l, Forall P l → P (JArr l)) (Hobj : ∀ fs, Forall (λ kv, P kv.2) fs → P (JObj fs))
          (Hleaf : ∀ j, match j with JArr _ | JObj _ => False | _ => True end → P j).
Fixpoint json_nested_ind (j : json) : P j :=
    match j with
    | JArr l => Harr l ((fix go l : Forall P l :=
        match l with [] => List.Forall_nil P | x :: l => List.Forall_cons P x l (json_nested_ind x) (go l) end) l)
    | JObj fs => Hobj fs ((fix go l : Forall (λ kv, P kv.2) l :=
        match l with [] => List.Forall_nil _ | x :: l => List.Forall_cons _ x l (json_nested_ind x.2) (go l) end) fs)
    | JNull => Hleaf JNull I | JBool b => Hleaf (JBool b) I | JInt z => Hleaf (JInt z) I
    | JFloat f => Hleaf (JFloat f) I | JStr s => Hleaf (JStr s) I | JTime t => Hleaf (JTime t) I
    end.
End json_induction.

(** ** Encoding values *)

(** A float64 that is an integer no larger than 2^53 is written as one; NaN and
    the infinities do not encode. *)
Definition float_json (f : Float64.t) : result json :=
  match f with
  | Float64.NaN | Float64.Inf _ => Err []
  | Float64.NegZero => Ok (JFloat f)
  | Float64.Fin m e =>
      let int v := if Float64.exact_int v then JInt v else JFloat f in
      Ok (if (0 <=? e)%Z then int (m * 2 ^ e)%Z
          else if (m mod 2 ^ (- e) =? 0)%Z then int (m / 2 ^ (- e))%Z else JFloat f)
  end.

Fixpoint marshal_value (v : value) : result json :=
  match v with
  | VNil => Ok JNull
  | VBool b => Ok (JBool b)
  | VInt z | VNarrowInt z | VDuration z => Ok (JInt z)
  | VDouble f | VFloat32 f => float_json f
  | VString s => Ok (JStr s)
  | VTime t => Ok (JTime t)
  | VList l => let? js := res_map marshal_value l in Ok (JArr js)
  | VOther _ => Err []
  end.

(** ** The canonical form: keys sorted, integers through float64 *)

Definition sort_fields {A} (fs : list (string * A)) : list (string * A) := sort_by fst String.le fs.

Fixpoint canonical (j : json) : json :=
  match j with
  | JInt z => JInt (Float64.round53 z)
  | JArr l => JArr (map canonical l)
  | JObj fs => JObj (sort_fields (map (λ kv, (kv.1, canonical kv.2)) fs))
  | _ => j
  end.

(** [canonicalJSON] and [canonicalJSONList]: a nil value is an empty object or list. *)
Definition canonicalJSON (v : option json) : json := match v with None => JObj [] | Some j => canonical j end.
Definition canonicalJSONList (v : option json) : json := match v with None => JArr [] | Some j => canonical j end.

(** [decodeJSON]: a document decoded into [any]. *)
Definition decodeJSON (raw : json) : json := canonical raw.

(** ** Reading fields *)

Definition field (k : string) (fs : list (string * json)) : option json :=
  (λ p, p.2.2) <$> list_find (λ kv, kv.1 = k) fs.

Definition dec_string (o : option json) : result string :=
  match o with
  | None | Some JNull => Ok ""
  | Some (JStr s) => Ok s
  | Some (JTime t) => Ok (Time.Format_RFC3339Nano t)
  | _ => Err []
  end.

Definition dec_int (o : option json) : result Z :=
  match o with None | Some JNull => Ok 0%Z | Some (JInt z) => Ok z | _ => Err [] end.

Definition dec_strings (o : option json) : result (list string) :=
  match o with
  | None | Some JNull => Ok []
  | Some (JArr l) => res_map (λ j, dec_string (Some j)) l
  | _ => Err []
  end.

Definition dec_time (o : option json) : result Time.t :=
  match o with None | Some JNull => Ok Time.zero | Some (JTime t) => Ok t | _ => Err [] end.

Definition dec_time_opt (o : option json) : result (option Time.t) :=
  match o with None | Some JNull => Ok None | Some (JTime t) => Ok (Some t) | _ => Err [] end.

(** A document decoded into a struct: null leaves the zero value. *)
Definition fields_of (j : json) : result (list (string * json)) :=
  match j with JObj fs => Ok fs | JNull => Ok [] | _ => Err [] end.

(** [omitempty]. *)
Definition opt_string (k s : string) : list (string * json) :=
  if bool_decide (s = "") then [] else [(k, JStr s)].
Definition opt_strings (k : string) (l : list string) : list (string * json) :=
  match l with [] => [] | _ => [(k, JArr (map JStr l))] end.

Definition dec_bool (o : option json) : result bool :=
  match o with None | Some JNull => Ok false | Some (JBool b) => Ok b | _ => Err [] end.

(** The members of a struct in order, those left out by [omitempty] as [None]. *)
Definition omit (l : list (string * option json)) : list (string * json) :=
  l ≫= λ '(k, o), match o with Some j => [(k, j)] | None => [] end.

Definition omit_string (s : string) : option json := if bool_decide (s = "") then None else Some (JStr s).
Definition omit_strings (l : list string) : option json := match l with [] => None | _ => Some (JArr (map JStr l)) end.
Definition omit_bool (b : bool) : option json := if b then Some (JBool true) else None.
Definition omit_time (t : option Time.t) : option json := JTime <$> t.

(** ** Canonicalization *)

Lemma canonical_keys (fs : list (string * json)) : map fst (map (λ kv, (kv.1, canonical kv.2)) fs) = map fst fs.
Proof. by rewrite map_map. Qed.

Lemma canonical_idemp j : canonical (canonical j) = canonical j.
Proof.
  induction j as [l IH|fs IH|j Hj] using json_nested_ind; simpl.
  - f_equal. rewrite map_map. by apply map_ext_Forall.
  - f_equal. unfold sort_fields. rewrite map_fixed; [apply sort_by_idemp; apply _|].
    intros kv. rewrite elem_of_sort_by, elem_of_map. intros (kv' & -> & Hin). simpl. f_equal.
    rewrite Forall_forall in IH. by apply IH.
  - destruct j; simpl; try done. by rewrite Float64.round53_idemp.
Qed.

Lemma field_elem k fs j : NoDup (map fst fs) → field k fs = Some j ↔ (k, j) ∈ fs.
Proof.
  intros Hnd. unfold field. split.
  - intros ((i & [k' j']) & Hf & Ej)%fmap_Some. apply list_find_Some in Hf as (Hi & Ek & _).
    simpl in Ek, Ej. subst. by eapply list_elem_of_lookup_2.
  - intros Hin. induction fs as [|[k' j'] fs IH]; [set_solver|]. simpl in Hnd. apply NoDup_cons in Hnd as [Hn Hd].
    simpl. destruct (decide (k' = k)) as [->|Hne].
    + apply elem_of_cons in Hin as [[= ->]|Hin]; [done|]. destruct Hn. apply elem_of_map. by exists (k, j).
    + apply elem_of_cons in Hin as [[= -> _]|Hin]; [done|]. specialize (IH Hd Hin).
      destruct (list_find _ fs) as [[i kv]|] eqn:E; simpl in *; [|done]. unfold prod_map. done.
Qed.

(** Decoding reads the same fields from the stored form of a document. *)
Lemma field_canonical k fs :
  NoDup (map fst fs) →
  field k (sort_fields (map (λ kv, (kv.1, canonical kv.2)) fs)) = canonical <$> field k fs.
Proof.
  intros Hnd. set (fs' := map (λ kv, (kv.1, canonical kv.2)) fs).
  assert (NoDup (map fst fs')) as Hnd1 by (subst fs'; by rewrite canonical_keys).
  assert (NoDup (map fst (sort_fields fs'))) as Hnd2.
  { unfold sort_fields. eapply (NoDup_Permutation_proper _ (map fst fs')); [|done].
    apply Permutation_map, sort_by_Permutation. }
  apply option_eq. intros j. rewrite (field_elem _ _ _ Hnd2). unfold sort_fields. rewrite elem_of_sort_by.
  subst fs'. rewrite elem_of_map. split.
  - intros ([k' j'] & [= -> ->] & Hin). apply (field_elem _ _ _ Hnd) in Hin. by rewrite Hin.
  - intros (j' & Hf & ->)%fmap_Some. exists (k, j'). split; [done|]. by apply field_elem.
Qed.

(** ** Structs read back *)

Fixpoint member (k : string) (l : list (string * option json)) : option json :=
  match l with [] => None | (k', o) :: l => if String.eqb k' k then o else member k l end.

Lemma omit_keys l k : k ∈ map fst (omit l) → k ∈ map fst l.
Proof.
  induction l as [|[k' [j|]] l IH]; simpl; [done|..]; rewrite ?elem_of_cons; [|by right; apply IH].
  intros [->|Hk]; [by left|right; by apply IH].
Qed.

Lemma omit_NoDup l : NoDup (map fst l) → NoDup (map fst (omit l)).
Proof.
  induction l as [|[k o] l IH]; simpl; [done|]. intros [Hn Hd]%NoDup_cons.
  destruct o; simpl; [|by apply IH]. apply NoDup_cons. split; [|by apply IH]. by intros ?%omit_keys.
Qed.

Lemma field_absent k fs : k ∉ map fst fs → field k fs = None.
Proof.
  intros Hn. unfold field. apply fmap_None, list_find_None, Forall_forall. intros [k' j] Hin E. simpl in E. subst.
  apply Hn, elem_of_map. by exists (k, j).
Qed.

Lemma field_head k j fs : field k ((k, j) :: fs) = Some j.
Proof. unfold field. simpl. by destruct (decide (k = k)). Qed.

Lemma field_skip k k' j fs : k' ≠ k → field k ((k', j) :: fs) = field k fs.
Proof. intros Hne. unfold field. simpl. destruct (decide (k' = k)); [done|]. by destruct (list_find _ fs) as [[i y]|]. Qed.

Lemma field_omit k l : NoDup (map fst l) → field k (omit l) = member k l.
Proof.
  induction l as [|[k' o] l IH]; [done|]. simpl. intros [Hn Hd]%NoDup_cons.
  destruct (String.eqb_spec k' k) as [->|Hne].
  - destruct o as [j|]; simpl; [apply field_head|]. apply field_absent. by intros ?%omit_keys.
  - destruct o as [j|]; simpl; [|by apply IH]. rewrite field_skip by done. by apply IH.
Qed.

(** A member of a struct, read from its stored form. *)
Lemma field_stored k l :
  NoDup (map fst l) →
  field k (sort_fields (map (λ kv, (kv.1, canonical kv.2)) (omit l))) = canonical <$> member k l.
Proof. intros Hnd. by rewrite field_canonical, field_omit by eauto using omit_NoDup. Qed.

Lemma dec_omit_string s : dec_string (canonical <$> omit_string s) = Ok s.
Proof. unfold omit_string. case_bool_decide as E; simpl; [by rewrite E|done]. Qed.
Lemma dec_omit_strings l : dec_strings (canonical <$> omit_strings l) = Ok l.
Proof.
  assert (∀ l, res_map (λ j, dec_string (Some j)) (map canonical (map JStr l)) = Ok l) as Hl.
  { clear l. induction l as [|y l IH]; simpl in *; [done|]. by rewrite IH. }
  destruct l as [|x l]; [done|]. exact (Hl (x :: l)).
Qed.
Lemma dec_omit_bool b : dec_bool (canonical <$> omit_bool b) = Ok b.
Proof. by destruct b. Qed.
Lemma dec_omit_time t : dec_time_opt (canonical <$> omit_time t) = Ok t.
Proof. by destruct t. Qed.

Ltac stored_struct := rewrite ?field_stored by (apply (bool_decide_unpack _); vm_compute; exact I); cbn [member String.eqb Ascii.eqb Bool.eqb].
