(* ===== verification/Store.v ===== *)
(** * The decision store

    Models internal/store/decisions.go and the tables it writes (migrations
    000002, 000008, 000009).  The database is one value; each store call is one
    transaction, a function from the database to either an error, which leaves the
    database alone, or a result and the database it leaves behind.  Identifiers are
    taken to be well-formed UUIDs. *)
From S2P Require Import Prelude GoLib Policy Json.

(** ** States *)

Inductive DecisionState :=
  | DecisionPending | DecisionAllowed | DecisionDenied | DecisionExpired | DecisionCancelled
  | DecisionOther (s : string).

#[export] Instance DecisionState_eq_dec : EqDecision DecisionState.
Proof. solve_decision. Defined.

Definition DecisionState_string (s : DecisionState) : string :=
  match s with
  | DecisionPending => "pending" | DecisionAllowed => "allowed" | DecisionDenied => "denied"
  | DecisionExpired => "expired" | DecisionCancelled => "cancelled" | DecisionOther s => s
  end.

Definition DecisionState_Terminal (s : DecisionState) : bool := negb (bool_decide (s = DecisionPending)).

(** [store.ChallengeState] and [challenge.State] are string types with the same
    spellings, converted to each other by a cast: one type here. *)
Inductive CState := StatePending | StateSatisfied | StateFailed | StateCancelled | StateOther (s : string).

#[export] Instance CState_eq_dec : EqDecision CState.
Proof. solve_decision. Defined.

Definition CState_string (s : CState) : string :=
  match s with
  | StatePending => "pending" | StateSatisfied => "satisfied" | StateFailed => "failed"
  | StateCancelled => "cancelled" | StateOther s => s
  end.

Definition CState_Valid (s : CState) : bool := match s with StateOther _ => false | _ => true end.
Definition CState_Terminal (s : CState) : bool := CState_Valid s && negb (bool_decide (s = StatePending)).

Inductive DeadlineKind := DeadlineNone | DeadlineExpiry | DeadlineChallenge.

#[export] Instance DeadlineKind_eq_dec : EqDecision DeadlineKind.
Proof. solve_decision. Defined.

Definition DeadlineKind_string (k : DeadlineKind) : string :=
  match k with DeadlineNone => "" | DeadlineExpiry => "expiry" | DeadlineChallenge => "challenge" end.

Definition ChallengeType_string (t : ChallengeType) : string :=
  match t with
  | ChallengeQuorum => "quorum" | ChallengeMFA => "mfa" | ChallengeDelay => "delay"
  | ChallengeExternal => "external" | ChallengeOther s => s
  end.

(** ** Rows *)

Record Decision := mkDecision {
  d_ID : string; d_CallerID : string; d_PolicyID : string; d_PolicyVersion : Z;
  d_SubjectID : string; d_ResourceID : string; d_Action : string;
  d_Request : json; d_FactSnapshot : json; d_Obligations : json;
  d_State : DecisionState;
  d_CreatedAt : Time.t; d_UpdatedAt : Time.t; d_ExpiresAt : Time.t;
  d_NextDeadline : option Time.t; d_NextDeadlineKind : DeadlineKind;
  d_ResolvedAt : option Time.t;
  d_IdempotencyKey : string; d_IdempotencyFingerprint : string }.

Definition Expired (d : Decision) (now : Time.t) : bool := negb (Time.Before now (d_ExpiresAt d)).

Record ChallengeProgress := mkProgress {
  cp_DecisionID : string; cp_Ordinal : Z; cp_Kind : ChallengeType; cp_State : CState;
  cp_Deadline : option Time.t; cp_SatisfiedAt : option Time.t; cp_Detail : json }.

Record Approval := mkApproval {
  ap_ID : string; ap_DecisionID : string; ap_Ordinal : Z; ap_ApproverID : string;
  ap_Verdict : string; ap_BindingHash : string; ap_Detail : json; ap_SubmittedAt : Time.t }.

Record AuditEntry := mkAudit { au_Kind : string; au_Subject : string; au_Payload : json }.

Definition AuditKindDecisionCreated : string := "decision.created".
Definition AuditKindDecisionResolved : string := "decision.resolved".
Definition AuditKindChallengeProgress : string := "challenge.progress".
Definition AuditKindApproval : string := "approval.recorded".

Definition VerdictApprove : string := "approve".
Definition VerdictReject : string := "reject".

(** The tables, and the policy versions the decisions' foreign key refers to. *)
Record DB := mkDB {
  db_decisions : gmap string Decision;
  db_progress : list ChallengeProgress;
  db_approvals : list Approval;
  db_audit : list AuditEntry;
  db_policies : list (string * Z) }.

Definition with_decisions (f : gmap string Decision → gmap string Decision) (db : DB) : DB :=
  mkDB (f (db_decisions db)) (db_progress db) (db_approvals db) (db_audit db) (db_policies db).
Definition with_progress (f : list ChallengeProgress → list ChallengeProgress) (db : DB) : DB :=
  mkDB (db_decisions db) (f (db_progress db)) (db_approvals db) (db_audit db) (db_policies db).
Definition with_approvals (f : list Approval → list Approval) (db : DB) : DB :=
  mkDB (db_decisions db) (db_progress db) (f (db_approvals db)) (db_audit db) (db_policies db).

(** [Appender.Append] inside the caller's transaction. *)
Definition append (e : AuditEntry) (db : DB) : DB :=
  mkDB (db_decisions db) (db_progress db) (db_approvals db) (db_audit db ++ [e]) (db_policies db).

(** ** Creating a decision *)

Record NewChallenge := mkNewChallenge {
  nc_Ordinal : Z; nc_Kind : ChallengeType; nc_Deadline : option Time.t; nc_Detail : option json }.

Record NewDecision := mkNewDecision {
  nd_ID : string; nd_CallerID : string; nd_PolicyID : string; nd_PolicyVersion : Z;
  nd_SubjectID : string; nd_ResourceID : string; nd_Action : string;
  nd_Request : option json; nd_FactSnapshot : option json; nd_Obligations : option json;
  nd_ExpiresAt : Time.t; nd_Challenges : list NewChallenge;
  nd_IdempotencyKey : string; nd_IdempotencyFingerprint : string }.

Definition truncPtr (t : option Time.t) : option Time.t := Time.trunc_us <$> t.

Definition nextDeadline (expiresAt : Time.t) (chs : list NewChallenge) : Time.t * DeadlineKind :=
  foldl (λ acc ch,
    match nc_Deadline ch with
    | None => acc
    | Some t => let d := Time.trunc_us t in
                if Time.Before d acc.1 then (d, DeadlineChallenge) else acc
    end) (expiresAt, DeadlineExpiry) chs.

(** The table constraints on an inserted decision and its challenge rows. *)
Definition key_taken (db : DB) (caller key : string) : bool :=
  negb (bool_decide (key = "")) &&
  existsb (λ p, bool_decide (d_CallerID p.2 = caller) && bool_decide (d_IdempotencyKey p.2 = key))
    (map_to_list (db_decisions db)).

Definition key_checks (key fingerprint : string) : bool :=
  bool_decide (key = "") ||
  ((String.length key <=? 255)%nat && (String.length fingerprint =? 64)%nat).

Definition challenge_rows (id : string) (chs : list NewChallenge) : list ChallengeProgress :=
  map (λ c, mkProgress id (nc_Ordinal c) (nc_Kind c) StatePending (truncPtr (nc_Deadline c)) None
              (canonicalJSON (nc_Detail c))) chs.

Definition rows_ok (db : DB) (rows : list ChallengeProgress) : bool :=
  bool_decide (NoDup (map (λ r, (cp_DecisionID r, cp_Ordinal r)) (db_progress db ++ rows))) &&
  forallb (λ r, ChallengeType_Valid (cp_Kind r) && (0 <=? cp_Ordinal r)%Z) rows.

Definition created_audit (d : Decision) (n : nat) : AuditEntry :=
  mkAudit AuditKindDecisionCreated (d_ID d) (JObj
    [("action", JStr (d_Action d)); ("caller_id", JStr (d_CallerID d));
     ("challenge_count", JInt (Z.of_nat n)); ("expires_at", JTime (d_ExpiresAt d));
     ("fact_snapshot", d_FactSnapshot d);
     ("next_deadline_kind", JStr (DeadlineKind_string (d_NextDeadlineKind d)));
     ("obligations", d_Obligations d); ("policy_id", JStr (d_PolicyID d));
     ("policy_version", JInt (d_PolicyVersion d)); ("resource_id", JStr (d_ResourceID d));
     ("subject_id", JStr (d_SubjectID d))]).

Definition new_decision_row (now : Time.t) (in_ : NewDecision) : Decision :=
  let expiresAt := Time.trunc_us (nd_ExpiresAt in_) in
  let nd := nextDeadline expiresAt (nd_Challenges in_) in
  mkDecision (nd_ID in_) (nd_CallerID in_) (nd_PolicyID in_) (nd_PolicyVersion in_)
    (nd_SubjectID in_) (nd_ResourceID in_) (nd_Action in_)
    (canonicalJSON (nd_Request in_)) (canonicalJSON (nd_FactSnapshot in_)) (canonicalJSONList (nd_Obligations in_))
    DecisionPending now now expiresAt (Some nd.1) nd.2 None
    (nd_IdempotencyKey in_) (nd_IdempotencyFingerprint in_).

(** The identifier is already chosen: the one caller, the decision service, names
    it before the challenges are issued. *)
Definition CreateDecision (in_ : NewDecision) (now : Time.t) (db : DB) : result (Decision * DB) :=
  if bool_decide (nd_PolicyID in_ = "") || (nd_PolicyVersion in_ <=? 0)%Z then Err []
  else if Time.IsZero (nd_ExpiresAt in_) then Err []
  else if negb (bool_decide ((nd_IdempotencyKey in_ = "") ↔ (nd_IdempotencyFingerprint in_ = ""))) then Err []
  else
    let out := new_decision_row now in_ in
    if negb (key_checks (d_IdempotencyKey out) (d_IdempotencyFingerprint out)) then Err []
    else if bool_decide (is_Some (db_decisions db !! d_ID out)) then Err [ErrConflict]
    else if key_taken db (d_CallerID out) (d_IdempotencyKey out) then Err [ErrConflict]
    else if negb (contains (db_policies db) (d_PolicyID out, d_PolicyVersion out)) then Err []
    else
      let rows := challenge_rows (d_ID out) (nd_Challenges in_) in
      if negb (rows_ok db rows) then Err []
      else Ok (out, append (created_audit out (length (nd_Challenges in_)))
                      (with_progress (λ l, l ++ rows) (with_decisions (<[d_ID out := out]>) db))).

(** ** Reading *)

Definition GetDecision (id : string) (db : DB) : result Decision :=
  match db_decisions db !! id with Some d => Ok d | None => Err [ErrNotFound] end.

Definition DecisionByIdempotencyKey (caller key : string) (db : DB) : result Decision :=
  if bool_decide (key = "") then Err [ErrNotFound]
  else match list_find (λ p, d_CallerID p.2 = caller ∧ d_IdempotencyKey p.2 = key)
               (map_to_list (db_decisions db)) with
  | Some (_, (_, d)) => Ok d
  | None => Err [ErrNotFound]
  end.

Definition EnsureActive (d : Decision) (now : Time.t) : result unit :=
  if Expired d now then Err [ErrDecisionExpired] else Ok tt.

Definition ActiveDecisionTx (id : string) (now : Time.t) (db : DB) : result Decision :=
  let? d := GetDecision id db in
  let? _ := EnsureActive d now in
  Ok d.

Definition ChallengeProgressFor (id : string) (db : DB) : list ChallengeProgress :=
  sort_by cp_Ordinal Z.le (filter (λ r, cp_DecisionID r = id) (db_progress db)).

(** ** Challenge progress *)

(** [min(deadline)] over the pending challenge rows of a decision. *)
Definition soonest (id : string) (rows : list ChallengeProgress) : option Time.t :=
  foldr (λ r acc,
    if bool_decide (cp_DecisionID r = id) && bool_decide (cp_State r = StatePending) then
      match cp_Deadline r, acc with
      | Some t, Some u => Some (Z.min t u) | Some t, None => Some t | None, _ => acc
      end
    else acc) None rows.

Definition with_deadline (now : Time.t) (s : option Time.t) (d : Decision) : Decision :=
  let '(t, k) := match s with
                 | Some t => if Time.Before t (d_ExpiresAt d) then (t, DeadlineChallenge)
                             else (d_ExpiresAt d, DeadlineExpiry)
                 | None => (d_ExpiresAt d, DeadlineExpiry)
                 end in
  mkDecision (d_ID d) (d_CallerID d) (d_PolicyID d) (d_PolicyVersion d) (d_SubjectID d) (d_ResourceID d)
    (d_Action d) (d_Request d) (d_FactSnapshot d) (d_Obligations d) (d_State d) (d_CreatedAt d) now
    (d_ExpiresAt d) (Some t) k (d_ResolvedAt d) (d_IdempotencyKey d) (d_IdempotencyFingerprint d).

Definition refreshNextDeadline (id : string) (now : Time.t) (db : DB) : DB :=
  match db_decisions db !! id with
  | Some d => if bool_decide (d_State d = DecisionPending)
              then with_decisions (<[id := with_deadline now (soonest id (db_progress db)) d]>) db else db
  | None => db
  end.

Definition is_row (id : string) (ordinal : Z) (r : ChallengeProgress) : bool :=
  bool_decide (cp_DecisionID r = id) && (cp_Ordinal r =? ordinal)%Z.

Definition set_row (now : Time.t) (s : CState) (detail : json) (r : ChallengeProgress) : ChallengeProgress :=
  mkProgress (cp_DecisionID r) (cp_Ordinal r) (cp_Kind r) s (cp_Deadline r)
    (if bool_decide (s = StateSatisfied) then Some now else cp_SatisfiedAt r) detail.

Definition progress_audit (id : string) (ordinal : Z) (s : CState) (detail : json) : AuditEntry :=
  mkAudit AuditKindChallengeProgress id
    (JObj [("detail", detail); ("ordinal", JInt ordinal); ("state", JStr (CState_string s))]).

Definition SetChallengeState (id : string) (ordinal : Z) (s : CState) (detail : option json)
    (now : Time.t) (db : DB) : result (unit * DB) :=
  let detailJSON := canonicalJSON detail in
  if negb (existsb (is_row id ordinal) (db_progress db)) then Err [ErrNotFound]
  else if negb (CState_Valid s) then Err []
  else
    let db1 := with_progress (map (λ r, if is_row id ordinal r then set_row now s detailJSON r else r)) db in
    Ok (tt, append (progress_audit id ordinal s detailJSON) (refreshNextDeadline id now db1)).

(** ** Resolution *)

Definition resolved_row (now : Time.t) (s : DecisionState) (obligations : option json) (d : Decision) : Decision :=
  mkDecision (d_ID d) (d_CallerID d) (d_PolicyID d) (d_PolicyVersion d) (d_SubjectID d) (d_ResourceID d)
    (d_Action d) (d_Request d) (d_FactSnapshot d)
    (match obligations with Some o => canonical o | None => d_Obligations d end)
    s (d_CreatedAt d) now (d_ExpiresAt d) None DeadlineNone (Some now)
    (d_IdempotencyKey d) (d_IdempotencyFingerprint d).

Definition resolved_audit (id : string) (s : DecisionState) (actor : string) (obligations : json) : AuditEntry :=
  mkAudit AuditKindDecisionResolved id
    (JObj [("actor", JStr actor); ("obligations", obligations); ("state", JStr (DecisionState_string s))]).

Definition ResolveDecision (id : string) (s : DecisionState) (obligations : option json) (actor : string)
    (now : Time.t) (db : DB) : result (Decision * DB) :=
  if negb (DecisionState_Terminal s) then Err []
  else match db_decisions db !! id with
  | None => Err [ErrConflict]
  | Some d =>
      if negb (bool_decide (d_State d = DecisionPending)) then Err [ErrConflict]
      else match s with
      | DecisionOther _ => Err []
      | _ =>
          let out := resolved_row now s obligations d in
          Ok (out, append (resolved_audit id s actor (d_Obligations out)) (with_decisions (<[id := out]>) db))
      end
  end.

(** ** The scheduler's claim

    Rows another transaction holds are skipped.  Equal deadlines come back in an
    unspecified order. *)
Definition due (now : Time.t) (locked : gset string) (d : Decision) : bool :=
  bool_decide (d_State d = DecisionPending) && negb (bool_decide (d_ID d ∈ locked)) &&
  match d_NextDeadline d with Some t => (t <=? now)%Z | None => false end.

Definition ClaimDue (now : Time.t) (limit : Z) (locked : gset string) (db : DB) : result (list Decision) :=
  if (limit <=? 0)%Z then Err []
  else Ok (take (Z.to_nat limit)
             (sort_by (λ d, default 0%Z (d_NextDeadline d)) Z.le
                (List.filter (due now locked) (map snd (map_to_list (db_decisions db)))))).

(** ** Approvals *)

Record NewApproval := mkNewApproval {
  na_ID : string; na_DecisionID : string; na_Ordinal : Z; na_ApproverID : string;
  na_Verdict : string; na_BindingHash : string; na_Detail : option json }.

Definition approval_audit (a : Approval) : AuditEntry :=
  mkAudit AuditKindApproval (ap_DecisionID a) (JObj
    [("approval_id", JStr (ap_ID a)); ("approver_id", JStr (ap_ApproverID a));
     ("binding_hash", JStr (ap_BindingHash a)); ("ordinal", JInt (ap_Ordinal a));
     ("verdict", JStr (ap_Verdict a))]).

Definition same_vote (id : string) (ordinal : Z) (who : string) (a : Approval) : bool :=
  bool_decide (ap_DecisionID a = id) && (ap_Ordinal a =? ordinal)%Z && bool_decide (ap_ApproverID a = who).

Definition RecordApproval (in_ : NewApproval) (now : Time.t) (db : DB) : result (Approval * DB) :=
  if negb (contains [VerdictApprove; VerdictReject] (na_Verdict in_)) then Err []
  else
    let out := mkApproval (na_ID in_) (na_DecisionID in_) (na_Ordinal in_) (na_ApproverID in_)
                 (na_Verdict in_) (na_BindingHash in_) (canonicalJSON (na_Detail in_)) now in
    if existsb (λ a, bool_decide (ap_ID a = ap_ID out)) (db_approvals db) ||
       existsb (same_vote (ap_DecisionID out) (ap_Ordinal out) (ap_ApproverID out)) (db_approvals db)
    then Err [ErrConflict]
    else if negb (existsb (is_row (ap_DecisionID out) (ap_Ordinal out)) (db_progress db)) then Err []
    else Ok (out, append (approval_audit out) (with_approvals (λ l, l ++ [out]) db)).

Definition approvers (id : string) (ordinal : Z) (verdict : string) (db : DB) : list string :=
  remove_dups (map ap_ApproverID
    (filter (λ a, ap_DecisionID a = id ∧ ap_Ordinal a = ordinal ∧ ap_Verdict a = verdict) (db_approvals db))).

Definition CountApprovals (id : string) (ordinal : Z) (verdict : string) (db : DB) : Z :=
  Z.of_nat (length (approvers id ordinal verdict db)).
