(* ===== verification/StoreInv.v ===== *)
(** * The invariant of the decision store

    What the tables guarantee whatever sequence of store calls ran: keys, references
    and uniqueness, the scheduler column, and the audit rows that go with each
    decision. *)
From S2P Require Import Prelude GoLib Policy Json Store.

(** The scheduler column, as its definition reads: the earlier of the decision's
    own expiry and its soonest unmet challenge timer, expiry winning a tie. *)
Definition deadline_of (expires : Time.t) (s : option Time.t) : Time.t * DeadlineKind :=
  match s with
  | Some t => if Time.Before t expires then (t, DeadlineChallenge) else (expires, DeadlineExpiry)
  | None => (expires, DeadlineExpiry)
  end.

Definition min_opt (a b : option Time.t) : option Time.t :=
  match a, b with Some t, Some u => Some (Z.min t u) | Some t, None => Some t | None, _ => b end.

Definition resolutions (id : string) (l : list AuditEntry) : list AuditEntry :=
  filter (λ e, au_Kind e = AuditKindDecisionResolved ∧ au_Subject e = id) l.
Definition creations (id : string) (l : list AuditEntry) : list AuditEntry :=
  filter (λ e, au_Kind e = AuditKindDecisionCreated ∧ au_Subject e = id) l.

Record db_ok (db : DB) : Prop := {
  ok_id : ∀ id d, db_decisions db !! id = Some d → d_ID d = id;
  ok_rows : NoDup (map (λ r, (cp_DecisionID r, cp_Ordinal r)) (db_progress db));
  ok_row_ref : ∀ r, r ∈ db_progress db → is_Some (db_decisions db !! cp_DecisionID r);
  ok_row_state : ∀ r, r ∈ db_progress db → CState_Valid (cp_State r) = true;
  ok_votes : NoDup (map (λ a, (ap_DecisionID a, ap_Ordinal a, ap_ApproverID a)) (db_approvals db));
  ok_vote_ref : ∀ a, a ∈ db_approvals db → existsb (is_row (ap_DecisionID a) (ap_Ordinal a)) (db_progress db) = true;
  ok_keys : ∀ id1 id2 d1 d2, db_decisions db !! id1 = Some d1 → db_decisions db !! id2 = Some d2 →
      d_IdempotencyKey d1 ≠ "" → d_CallerID d1 = d_CallerID d2 → d_IdempotencyKey d1 = d_IdempotencyKey d2 → id1 = id2;
  ok_pairing : ∀ id d, db_decisions db !! id = Some d → d_IdempotencyKey d = "" ↔ d_IdempotencyFingerprint d = "";
  ok_deadline : ∀ id d, db_decisions db !! id = Some d →
      if bool_decide (d_State d = DecisionPending)
      then d_NextDeadline d = Some (deadline_of (d_ExpiresAt d) (soonest id (db_progress db))).1 ∧
           d_NextDeadlineKind d = (deadline_of (d_ExpiresAt d) (soonest id (db_progress db))).2
      else d_NextDeadline d = None ∧ d_NextDeadlineKind d = DeadlineNone;
  ok_created : ∀ id, length (creations id (db_audit db)) = if db_decisions db !! id then 1 else 0;
  ok_resolved : ∀ id, length (resolutions id (db_audit db)) =
      match db_decisions db !! id with Some d => if DecisionState_Terminal (d_State d) then 1 else 0 | None => 0 end }.

(** ** The scheduler column *)

Lemma min_opt_assoc a b c : min_opt a (min_opt b c) = min_opt (min_opt a b) c.
Proof. destruct a, b, c; simpl; try done. f_equal. lia. Qed.
Lemma min_opt_none_r a : min_opt a None = a.
Proof. by destruct a. Qed.

Lemma nextDeadline_deadline_of e chs :
  nextDeadline e chs = deadline_of e (foldr (λ c acc, min_opt (Time.trunc_us <$> nc_Deadline c) acc) None chs).
Proof.
  unfold nextDeadline. change (e, DeadlineExpiry) with (deadline_of e None).
  assert (∀ s, foldl (λ acc ch, match nc_Deadline ch with
      | None => acc
      | Some t => let d := Time.trunc_us t in if Time.Before d acc.1 then (d, DeadlineChallenge) else acc
      end) (deadline_of e s) chs =
    deadline_of e (min_opt s (foldr (λ c acc, min_opt (Time.trunc_us <$> nc_Deadline c) acc) None chs))) as Hgen.
  { induction chs as [|c chs IH]; intros s; simpl; [by rewrite min_opt_none_r|].
    rewrite min_opt_assoc, <-IH. f_equal. destruct (nc_Deadline c) as [t|]; simpl; [|by rewrite min_opt_none_r].
    unfold deadline_of, min_opt, Time.Before. destruct s as [u|]; simpl.
    - destruct (Z.ltb_spec u e); simpl; destruct (Z.ltb_spec (Time.trunc_us t) u), (Z.ltb_spec (Z.min u (Time.trunc_us t)) e),
        (Z.ltb_spec (Time.trunc_us t) e); try lia; try done; f_equal; lia.
    - by destruct (_ <? e)%Z. }
  exact (Hgen None).
Qed.

Lemma soonest_app id p1 p2 : soonest id (p1 ++ p2) = min_opt (soonest id p1) (soonest id p2).
Proof.
  unfold soonest. induction p1 as [|r p1 IH]; simpl; [done|]. rewrite IH.
  destruct (_ && _); [|done]. apply min_opt_assoc.
Qed.

Lemma soonest_none id rows : (∀ r, r ∈ rows → cp_DecisionID r ≠ id) → soonest id rows = None.
Proof.
  unfold soonest. induction rows as [|r l IH]; intros Hn; simpl; [done|].
  rewrite bool_decide_eq_false_2 by (apply Hn; set_solver). simpl. apply IH. set_solver.
Qed.

Lemma soonest_rows id chs :
  soonest id (challenge_rows id chs) = foldr (λ c acc, min_opt (Time.trunc_us <$> nc_Deadline c) acc) None chs.
Proof.
  unfold soonest, challenge_rows. induction chs as [|c chs IH]; simpl; [done|].
  rewrite !bool_decide_eq_true_2 by done. simpl. by rewrite IH.
Qed.

(** Rows of other decisions do not matter. *)
Lemma soonest_other id f rows :
  (∀ r, cp_DecisionID (f r) = cp_DecisionID r) → (∀ r, cp_DecisionID r = id → f r = r) →
  soonest id (map f rows) = soonest id rows.
Proof.
  intros Hid Hf. unfold soonest. induction rows as [|r l IH]; simpl; [done|].
  rewrite IH, Hid. case_bool_decide as E; simpl; [|done]. by rewrite (Hf r E).
Qed.

(** ** Audit rows *)

Lemma creations_append id e l :
  length (creations id (l ++ [e])) = length (creations id l) +
  (if bool_decide (au_Kind e = AuditKindDecisionCreated ∧ au_Subject e = id) then 1 else 0).
Proof.
  unfold creations. rewrite filter_app, length_app. f_equal. rewrite filter_cons, filter_nil.
  case_decide as E; [by rewrite bool_decide_eq_true_2|by rewrite bool_decide_eq_false_2].
Qed.

Lemma resolutions_append id e l :
  length (resolutions id (l ++ [e])) = length (resolutions id l) +
  (if bool_decide (au_Kind e = AuditKindDecisionResolved ∧ au_Subject e = id) then 1 else 0).
Proof.
  unfold resolutions. rewrite filter_app, length_app. f_equal. rewrite filter_cons, filter_nil.
  case_decide as E; [by rewrite bool_decide_eq_true_2|by rewrite bool_decide_eq_false_2].
Qed.

(** ** Each write keeps the invariant *)

Lemma key_taken_false db caller key :
  key_taken db caller key = false → key ≠ "" →
  ∀ id d, db_decisions db !! id = Some d → d_CallerID d = caller → d_IdempotencyKey d ≠ key.
Proof.
  unfold key_taken. rewrite andb_false_iff. intros [Hk|Hk] Hne id d Hd Hc Ek.
  - rewrite bool_decide_eq_false_2 in Hk by done. done.
  - rewrite <-not_true_iff_false, existsb_true in Hk. apply Hk. exists (id, d).
    split; [by apply elem_of_map_to_list|]. simpl. by rewrite !bool_decide_eq_true_2.
Qed.

(** What a successful creation did. *)
Lemma CreateDecision_inv in_ now db d db' :
  CreateDecision in_ now db = Ok (d, db') →
  d = new_decision_row now in_ ∧
  db' = append (created_audit d (length (nd_Challenges in_)))
          (with_progress (λ l, l ++ challenge_rows (d_ID d) (nd_Challenges in_)) (with_decisions (<[d_ID d := d]>) db)) ∧
  db_decisions db !! d_ID d = None ∧ key_taken db (d_CallerID d) (d_IdempotencyKey d) = false ∧
  (d_IdempotencyKey d = "" ↔ d_IdempotencyFingerprint d = "") ∧
  rows_ok db (challenge_rows (d_ID d) (nd_Challenges in_)) = true.
Proof.
  unfold CreateDecision. destruct (_ || _); [done|]. destruct (Time.IsZero _); [done|].
  case_bool_decide as Hp; simpl; [|done].
  destruct (key_checks _ _); simpl; [|done]. case_bool_decide as Hid; [done|].
  destruct (key_taken _ _ _) eqn:Ek; [done|]. destruct (contains _ _); simpl; [|done].
  destruct (rows_ok _ _) eqn:Er; simpl; [|done]. intros [= <- <-].
  split_and!; try done. by apply eq_None_not_Some.
Qed.

Lemma CreateDecision_ok in_ now db d db' :
  CreateDecision in_ now db = Ok (d, db') → db_ok db → db_ok db'.
Proof.
  intros (Ed & -> & Hid & Hkey & Hpair & Hrows)%CreateDecision_inv Hok.
  unfold rows_ok in Hrows. apply andb_true_iff in Hrows as [Hnd%bool_decide_eq_true _].
  assert (∀ r, r ∈ challenge_rows (d_ID d) (nd_Challenges in_) → cp_DecisionID r = d_ID d ∧ cp_State r = StatePending) as Hnew.
  { unfold challenge_rows. intros r (c & -> & _)%elem_of_map. done. }
  assert (∀ r, r ∈ db_progress db → cp_DecisionID r ≠ d_ID d) as Hold.
  { intros r Hr E. destruct (ok_row_ref _ Hok r Hr) as [x Hx]. rewrite E in Hx. congruence. }
  split; simpl.
  - intros id x. rewrite lookup_insert_Some. intros [[<- <-]|[_ Hx]]; [done|]. by eapply ok_id.
  - done.
  - intros r [Hr|Hr]%elem_of_app.
    + rewrite lookup_insert_ne by (by apply not_eq_sym, Hold). by apply (ok_row_ref _ Hok).
    + rewrite (proj1 (Hnew r Hr)), lookup_insert_eq. eauto.
  - intros r [Hr|Hr]%elem_of_app; [by apply (ok_row_state _ Hok)|]. by rewrite (proj2 (Hnew r Hr)).
  - apply (ok_votes _ Hok).
  - intros a Ha. rewrite existsb_app. by rewrite (ok_vote_ref _ Hok a Ha).
  - intros id1 id2 d1 d2. rewrite !lookup_insert_Some. intros [[<- <-]|[N1 H1]] [[<- <-]|[N2 H2]] Hne Hc Hk; try done.
    + exfalso. eapply (key_taken_false _ _ _ Hkey Hne id2 d2); [done|done|]. by symmetry.
    + exfalso. eapply (key_taken_false _ _ _ Hkey); [by rewrite <-Hk|exact H1|done|done].
    + by eapply (ok_keys _ Hok).
  - intros id x. rewrite lookup_insert_Some. intros [[<- <-]|[_ Hx]]; [done|]. by eapply ok_pairing.
  - intros id x. rewrite lookup_insert_Some. intros [[<- <-]|[N Hx]].
    + rewrite bool_decide_eq_true_2 by (by rewrite Ed). rewrite soonest_app.
      rewrite (soonest_none _ (db_progress db)) by done. simpl. rewrite soonest_rows.
      rewrite Ed. simpl. by rewrite nextDeadline_deadline_of.
    + rewrite soonest_app. rewrite (soonest_none _ (challenge_rows _ _)).
      2:{ intros r Hr. by rewrite (proj1 (Hnew r Hr)). }
      rewrite min_opt_none_r. apply (ok_deadline _ Hok id x Hx).
  - intros id. rewrite creations_append. rewrite (ok_created _ Hok id).
    destruct (decide (d_ID d = id)) as [<-|Hne].
    + rewrite lookup_insert_eq, Hid, bool_decide_eq_true_2 by done. done.
    + rewrite lookup_insert_ne, bool_decide_eq_false_2 by naive_solver. lia.
  - intros id. rewrite resolutions_append. rewrite bool_decide_eq_false_2 by (intros [? _]; done).
    rewrite (ok_resolved _ Hok id), Nat.add_0_r. destruct (decide (d_ID d = id)) as [<-|Hne].
    + rewrite lookup_insert_eq, Hid. by rewrite Ed.
    + by rewrite lookup_insert_ne.
Qed.

Lemma ResolveDecision_inv id s ob actor now db d db' :
  ResolveDecision id s ob actor now db = Ok (d, db') →
  DecisionState_Terminal s = true ∧
  ∃ d0, db_decisions db !! id = Some d0 ∧ d_State d0 = DecisionPending ∧ d = resolved_row now s ob d0 ∧
    db' = append (resolved_audit id s actor (d_Obligations d)) (with_decisions (<[id := d]>) db).
Proof.
  unfold ResolveDecision. destruct (DecisionState_Terminal s); simpl; [|done].
  destruct (db_decisions db !! id) as [d0|]; [|done]. case_bool_decide as Hp; simpl; [|done].
  intros Hr. split; [done|]. exists d0. destruct s; by simplify_eq.
Qed.

Lemma ResolveDecision_ok id s ob actor now db d db' :
  ResolveDecision id s ob actor now db = Ok (d, db') → db_ok db → db_ok db'.
Proof.
  intros (Ht & d0 & Hd0 & Hp & -> & ->)%ResolveDecision_inv Hok.
  split; simpl.
  - intros i x. rewrite lookup_insert_Some. intros [[<- <-]|[_ Hx]]; [by apply (ok_id _ Hok) in Hd0|by eapply ok_id].
  - apply (ok_rows _ Hok).
  - intros r Hr. apply lookup_insert_is_Some'. right. by apply (ok_row_ref _ Hok).
  - apply (ok_row_state _ Hok).
  - apply (ok_votes _ Hok).
  - apply (ok_vote_ref _ Hok).
  - intros id1 id2 d1 d2. rewrite !lookup_insert_Some. intros [[<- <-]|[N1 H1]] [[<- <-]|[N2 H2]] Hne Hc Hk; try done;
      by eapply (ok_keys _ Hok).
  - intros i x. rewrite lookup_insert_Some. intros [[<- <-]|[_ Hx]]; [by apply (ok_pairing _ Hok _ _ Hd0)|by eapply ok_pairing].
  - intros i x. rewrite lookup_insert_Some. intros [[<- <-]|[_ Hx]].
    + rewrite bool_decide_eq_false_2; [done|]. simpl. intros ->. done.
    + apply (ok_deadline _ Hok i x Hx).
  - intros i. rewrite creations_append. rewrite bool_decide_eq_false_2 by (intros [? _]; done).
    rewrite (ok_created _ Hok i), Nat.add_0_r. destruct (decide (id = i)) as [<-|Hne].
    + by rewrite lookup_insert_eq, Hd0.
    + by rewrite lookup_insert_ne.
  - intros i. rewrite resolutions_append. rewrite (ok_resolved _ Hok i). destruct (decide (id = i)) as [<-|Hne].
    + rewrite lookup_insert_eq, Hd0, bool_decide_eq_true_2, Hp by done. simpl. by rewrite Ht.
    + rewrite lookup_insert_ne, bool_decide_eq_false_2 by naive_solver. lia.
Qed.

Lemma RecordApproval_inv in_ now db a db' :
  RecordApproval in_ now db = Ok (a, db') →
  a = mkApproval (na_ID in_) (na_DecisionID in_) (na_Ordinal in_) (na_ApproverID in_)
        (na_Verdict in_) (na_BindingHash in_) (canonicalJSON (na_Detail in_)) now ∧
  db' = append (approval_audit a) (with_approvals (λ l, l ++ [a]) db) ∧
  (∀ b, b ∈ db_approvals db → (ap_DecisionID b, ap_Ordinal b, ap_ApproverID b) ≠ (ap_DecisionID a, ap_Ordinal a, ap_ApproverID a)) ∧
  existsb (is_row (ap_DecisionID a) (ap_Ordinal a)) (db_progress db) = true.
Proof.
  unfold RecordApproval. destruct (contains _ _); simpl; [|done].
  destruct (_ || _) eqn:Eo; [done|]. destruct (existsb (is_row _ _) _) eqn:Er; simpl; [|done].
  intros [= <- <-]. split_and!; try done. apply orb_false_iff in Eo as [_ Eo].
  intros b Hb [= E1 E2 E3]. rewrite <-not_true_iff_false, existsb_true in Eo. apply Eo. exists b. split; [done|].
  unfold same_vote. simpl. rewrite E1, E2, E3, Z.eqb_refl. by rewrite !bool_decide_eq_true_2.
Qed.

Lemma RecordApproval_ok in_ now db a db' :
  RecordApproval in_ now db = Ok (a, db') → db_ok db → db_ok db'.
Proof.
  intros (_ & -> & Hnew & Hrow)%RecordApproval_inv Hok. split; simpl; try apply Hok.
  - rewrite map_app. apply NoDup_app. split_and!; [apply (ok_votes _ Hok)| |apply NoDup_singleton].
    intros x (b & -> & Hb)%elem_of_map. simpl. rewrite list_elem_of_singleton. by apply Hnew.
  - intros b [Hb| ->%list_elem_of_singleton]%elem_of_app; [by apply (ok_vote_ref _ Hok)|done].
  - intros i. rewrite creations_append, bool_decide_eq_false_2 by (intros [? _]; done).
    rewrite Nat.add_0_r. apply (ok_created _ Hok).
  - intros i. rewrite resolutions_append, bool_decide_eq_false_2 by (intros [? _]; done).
    rewrite Nat.add_0_r. apply (ok_resolved _ Hok).
Qed.

Definition update_rows (now : Time.t) (id : string) (ordinal : Z) (s : CState) (detail : json) (r : ChallengeProgress) :=
  if is_row id ordinal r then set_row now s detail r else r.

Lemma SetChallengeState_inv id ordinal s detail now db u db' :
  SetChallengeState id ordinal s detail now db = Ok (u, db') →
  CState_Valid s = true ∧ existsb (is_row id ordinal) (db_progress db) = true ∧
  db' = append (progress_audit id ordinal s (canonicalJSON detail))
          (refreshNextDeadline id now (with_progress (map (update_rows now id ordinal s (canonicalJSON detail))) db)).
Proof.
  unfold SetChallengeState. destruct (existsb _ _); simpl; [|done]. destruct (CState_Valid s); simpl; [|done].
  by intros [= _ <-].
Qed.

Lemma update_rows_keys now id ordinal s detail r :
  cp_DecisionID (update_rows now id ordinal s detail r) = cp_DecisionID r ∧
  cp_Ordinal (update_rows now id ordinal s detail r) = cp_Ordinal r.
Proof. unfold update_rows. by destruct (is_row id ordinal r). Qed.

Lemma refresh_lookup id now db i :
  db_decisions (refreshNextDeadline id now db) !! i =
  (λ d, if bool_decide (i = id ∧ d_State d = DecisionPending)
        then with_deadline now (soonest id (db_progress db)) d else d) <$> db_decisions db !! i.
Proof.
  unfold refreshNextDeadline. destruct (db_decisions db !! id) as [d|] eqn:Ed.
  - case_bool_decide as Hp; simpl.
    + destruct (decide (id = i)) as [<-|Hne].
      * rewrite lookup_insert_eq, Ed. simpl. by rewrite bool_decide_eq_true_2.
      * rewrite lookup_insert_ne by done. destruct (db_decisions db !! i); simpl; [|done].
        rewrite bool_decide_eq_false_2; [done|naive_solver].
    + destruct (db_decisions db !! i) as [x|] eqn:Ei; simpl; [|done].
      rewrite bool_decide_eq_false_2; [done|]. intros [-> ?]. congruence.
  - destruct (db_decisions db !! i) as [x|] eqn:Ei; simpl; [|done].
    rewrite bool_decide_eq_false_2; [done|]. intros [-> ?]. congruence.
Qed.

Lemma refresh_rest id now db :
  db_progress (refreshNextDeadline id now db) = db_progress db ∧
  db_approvals (refreshNextDeadline id now db) = db_approvals db ∧
  db_audit (refreshNextDeadline id now db) = db_audit db.
Proof. unfold refreshNextDeadline. destruct (_ !! id) as [d|]; [|done]. by destruct (bool_decide _). Qed.

Lemma with_deadline_fields now s d :
  d_ID (with_deadline now s d) = d_ID d ∧ d_CallerID (with_deadline now s d) = d_CallerID d ∧
  d_State (with_deadline now s d) = d_State d ∧ d_ExpiresAt (with_deadline now s d) = d_ExpiresAt d ∧
  d_IdempotencyKey (with_deadline now s d) = d_IdempotencyKey d ∧
  d_IdempotencyFingerprint (with_deadline now s d) = d_IdempotencyFingerprint d ∧
  d_NextDeadline (with_deadline now s d) = Some (deadline_of (d_ExpiresAt d) s).1 ∧
  d_NextDeadlineKind (with_deadline now s d) = (deadline_of (d_ExpiresAt d) s).2.
Proof.
  unfold with_deadline, deadline_of. destruct s as [t|]; [|done]. by destruct (Time.Before t _).
Qed.

(** A decision after a challenge write: the same row, its deadline recomputed. *)
Lemma refresh_row id now db i x :
  db_decisions (refreshNextDeadline id now db) !! i = Some x →
  ∃ d, db_decisions db !! i = Some d ∧ d_ID x = d_ID d ∧ d_CallerID x = d_CallerID d ∧ d_State x = d_State d ∧
    d_ExpiresAt x = d_ExpiresAt d ∧ d_IdempotencyKey x = d_IdempotencyKey d ∧
    d_IdempotencyFingerprint x = d_IdempotencyFingerprint d ∧
    (if bool_decide (i = id ∧ d_State d = DecisionPending)
     then d_NextDeadline x = Some (deadline_of (d_ExpiresAt d) (soonest id (db_progress db))).1 ∧
          d_NextDeadlineKind x = (deadline_of (d_ExpiresAt d) (soonest id (db_progress db))).2
     else x = d).
Proof.
  rewrite refresh_lookup. intros (d & Hd & ->)%fmap_Some. exists d. split; [done|].
  destruct (bool_decide _); [|done].
  destruct (with_deadline_fields now (soonest id (db_progress db)) d) as (E1 & E2 & E3 & E4 & E5 & E6 & E7 & E8).
  rewrite E1, E2, E3, E4, E5, E6. done.
Qed.

Lemma SetChallengeState_ok id ordinal s detail now db u db' :
  SetChallengeState id ordinal s detail now db = Ok (u, db') → db_ok db → db_ok db'.
Proof.
  intros (Hv & _ & ->)%SetChallengeState_inv Hok.
  set (f := update_rows now id ordinal s (canonicalJSON detail)).
  set (db1 := with_progress (map f) db). destruct (refresh_rest id now db1) as (Ep & Ea & Eu).
  assert (∀ r, (cp_DecisionID (f r), cp_Ordinal (f r)) = (cp_DecisionID r, cp_Ordinal r)) as Hkeys.
  { intros r. destruct (update_rows_keys now id ordinal s (canonicalJSON detail) r) as [E1 E2]. fold f in E1, E2. by rewrite E1, E2. }
  assert (∀ i r, cp_DecisionID r = i → i ≠ id → f r = r) as Hfix.
  { intros i r <- Hne. unfold f, update_rows, is_row. by rewrite bool_decide_eq_false_2. }
  split; simpl; rewrite ?Ep, ?Ea, ?Eu.
  - intros i x (d & Hd & E & _)%refresh_row. rewrite E. by eapply ok_id.
  - unfold db1. simpl. rewrite map_map. rewrite (map_ext_Forall _ (λ r, (cp_DecisionID r, cp_Ordinal r))); [apply (ok_rows _ Hok)|].
    apply Forall_forall. intros r _. apply Hkeys.
  - unfold db1. simpl. intros r (r0 & -> & Hr)%elem_of_map. pose proof (Hkeys r0) as [= E _]. rewrite E, refresh_lookup.
    apply fmap_is_Some. by apply (ok_row_ref _ Hok).
  - unfold db1. simpl. intros r (r0 & -> & Hr)%elem_of_map. unfold f, update_rows.
    destruct (is_row id ordinal r0); [done|]. by apply (ok_row_state _ Hok).
  - apply (ok_votes _ Hok).
  - intros a Ha. apply (ok_vote_ref _ Hok) in Ha. rewrite existsb_true in Ha |- *. destruct Ha as (r & Hr & Hi).
    exists (f r). split; [unfold db1; apply elem_of_map; eauto|]. unfold is_row in *. pose proof (Hkeys r) as [= E1 E2].
    by rewrite E1, E2.
  - intros id1 id2 x1 x2 (d1 & H1 & _ & C1 & _ & _ & K1 & _)%refresh_row (d2 & H2 & _ & C2 & _ & _ & K2 & _)%refresh_row.
    rewrite C1, C2, K1, K2. by eapply (ok_keys _ Hok).
  - intros i x (d & Hd & _ & _ & _ & _ & K & F & _)%refresh_row. rewrite K, F. by eapply ok_pairing.
  - intros i x (d & Hd & _ & _ & S & X & _ & _ & N)%refresh_row. rewrite S, X.
    pose proof (ok_deadline _ Hok i d Hd) as Hdl.
    destruct (decide (i = id)) as [->|Hne].
    + destruct (decide (d_State d = DecisionPending)) as [Hp|Hp].
      * rewrite bool_decide_eq_true_2 in N |- * by done. done.
      * rewrite bool_decide_eq_false_2 in N by naive_solver. subst x.
        by rewrite bool_decide_eq_false_2 in Hdl |- * by done.
    + rewrite bool_decide_eq_false_2 in N by naive_solver. subst x.
      assert (soonest i (db_progress db1) = soonest i (db_progress db)) as ->; [|done].
      apply (soonest_other i f); [intros r; by injection (Hkeys r)|]. intros r Hr. by eapply Hfix.
  - intros i. rewrite creations_append, bool_decide_eq_false_2 by (intros [? _]; done).
    change (db_audit db1) with (db_audit db). rewrite Nat.add_0_r, refresh_lookup, (ok_created _ Hok i).
    change (db_decisions db1) with (db_decisions db). by destruct (db_decisions db !! i).
  - intros i. rewrite resolutions_append, bool_decide_eq_false_2 by (intros [? _]; done).
    change (db_audit db1) with (db_audit db). rewrite Nat.add_0_r, (ok_resolved _ Hok i).
    destruct (db_decisions (refreshNextDeadline id now db1) !! i) as [x|] eqn:Ex.
    + destruct (refresh_row _ _ _ _ _ Ex) as (d & Hd & _ & _ & S & _). unfold db1 in Hd. simpl in Hd. by rewrite Hd, S.
    + rewrite refresh_lookup in Ex. apply fmap_None in Ex. unfold db1 in Ex. simpl in Ex. by rewrite Ex.
Qed.

(** ** Histories of store calls *)

(** Any one write of the store, by any instance, with any arguments. *)
Inductive store_step (db : DB) : DB → Prop :=
  | step_create in_ now d db' : CreateDecision in_ now db = Ok (d, db') → store_step db db'
  | step_progress id ordinal s detail now u db' :
      SetChallengeState id ordinal s detail now db = Ok (u, db') → store_step db db'
  | step_resolve id s ob actor now d db' : ResolveDecision id s ob actor now db = Ok (d, db') → store_step db db'
  | step_approve in_ now a db' : RecordApproval in_ now db = Ok (a, db') → store_step db db'
  | step_append e : au_Kind e ≠ AuditKindDecisionCreated → au_Kind e ≠ AuditKindDecisionResolved →
      store_step db (append e db).

Definition empty_db (policies : list (string * Z)) : DB := mkDB ∅ [] [] [] policies.

Lemma empty_db_ok policies : db_ok (empty_db policies).
Proof. split; simpl; try done; intros; try (by rewrite lookup_empty in *); try constructor; set_solver. Qed.

Lemma append_ok e db :
  au_Kind e ≠ AuditKindDecisionCreated → au_Kind e ≠ AuditKindDecisionResolved → db_ok db → db_ok (append e db).
Proof.
  intros H1 H2 Hok. split; simpl; try apply Hok.
  - intros i. rewrite creations_append, bool_decide_eq_false_2 by (by intros [? _]).
    rewrite Nat.add_0_r. apply (ok_created _ Hok).
  - intros i. rewrite resolutions_append, bool_decide_eq_false_2 by (by intros [? _]).
    rewrite Nat.add_0_r. apply (ok_resolved _ Hok).
Qed.

Lemma store_step_ok db db' : store_step db db' → db_ok db → db_ok db'.
Proof.
  intros [] Hok; eauto using CreateDecision_ok, SetChallengeState_ok, ResolveDecision_ok, RecordApproval_ok, append_ok.
Qed.

(** Whatever writes ran, in whatever order, the tables keep their invariant:
    keys and references hold, no approver is counted twice, an idempotency key names
    one decision per caller, the scheduler column is the earlier of the expiry and
    the soonest pending challenge timer and is empty once resolved, every decision
    has exactly one creation row in the audit log, and exactly one resolution row if
    it is resolved and none if it is not. *)
Theorem store_invariant policies db : rtc store_step (empty_db policies) db → db_ok db.
Proof.
  intros Hs. assert (db_ok (empty_db policies)) as H0 by apply empty_db_ok.
  revert H0. induction Hs; eauto using store_step_ok.
Qed.

Record later (db db' : DB) : Prop := {
  later_audit : ∃ l, db_audit db' = db_audit db ++ l;
  later_votes : ∃ l, db_approvals db' = db_approvals db ++ l;
  later_terminal : ∀ id d, db_decisions db !! id = Some d → DecisionState_Terminal (d_State d) = true →
      db_decisions db' !! id = Some d;
  later_frozen : ∀ id d, db_decisions db !! id = Some d →
      ∃ d', db_decisions db' !! id = Some d' ∧ d_CallerID d' = d_CallerID d ∧ d_PolicyID d' = d_PolicyID d ∧
        d_PolicyVersion d' = d_PolicyVersion d ∧ d_SubjectID d' = d_SubjectID d ∧ d_ResourceID d' = d_ResourceID d ∧
        d_Action d' = d_Action d ∧ d_Request d' = d_Request d ∧ d_FactSnapshot d' = d_FactSnapshot d ∧
        d_ExpiresAt d' = d_ExpiresAt d ∧ d_IdempotencyKey d' = d_IdempotencyKey d ∧
        d_IdempotencyFingerprint d' = d_IdempotencyFingerprint d }.

#[export] Instance later_refl : Reflexive later.
Proof. intros db. split; eauto 20; exists []; by rewrite app_nil_r. Qed.

#[export] Instance later_trans : Transitive later.
Proof.
  intros a b c [[la A1] [va V1] T1 F1] [[lb A2] [vb V2] T2 F2]. split.
  - exists (la ++ lb). by rewrite A2, A1, (assoc_L (++)).
  - exists (va ++ vb). by rewrite V2, V1, (assoc_L (++)).
  - intros id d Hd Ht. apply T2; [by apply T1|done].
  - intros id d Hd. destruct (F1 id d Hd) as (d1 & H1 & E1). destruct (F2 id d1 H1) as (d2 & H2 & E2).
    exists d2. split; [done|]. destruct_and!. split_and!; congruence.
Qed.

Lemma with_deadline_frozen now s d :
  d_PolicyID (with_deadline now s d) = d_PolicyID d ∧ d_PolicyVersion (with_deadline now s d) = d_PolicyVersion d ∧
  d_SubjectID (with_deadline now s d) = d_SubjectID d ∧ d_ResourceID (with_deadline now s d) = d_ResourceID d ∧
  d_Action (with_deadline now s d) = d_Action d ∧ d_Request (with_deadline now s d) = d_Request d ∧
  d_FactSnapshot (with_deadline now s d) = d_FactSnapshot d.
Proof. unfold with_deadline. destruct s as [t|]; [|done]. by destruct (Time.Before t _). Qed.

Lemma store_step_later db db' : store_step db db' → later db db'.
Proof.
  intros [in_ now d db2 (_ & -> & Hid & _)%CreateDecision_inv
         |id ordinal s detail now u db2 (_ & _ & ->)%SetChallengeState_inv
         |id s ob actor now d db2 (_ & d0 & Hd0 & Hp & -> & ->)%ResolveDecision_inv
         |in_ now a db2 (_ & -> & _)%RecordApproval_inv|e _ _].
  - assert (∀ i x, db_decisions db !! i = Some x → <[d_ID d := d]> (db_decisions db) !! i = Some x) as Hk.
    { intros i x Hx. rewrite lookup_insert_ne; [done|]. intros <-. congruence. }
    split; simpl; eauto 20. exists []. by rewrite app_nil_r.
  - set (db1 := with_progress _ db). destruct (refresh_rest id now db1) as (_ & Ea & Eu). split; simpl.
    + rewrite Eu. eauto.
    + rewrite Ea. exists []. by rewrite app_nil_r.
    + intros i d Hd Ht. rewrite refresh_lookup. unfold db1. simpl. rewrite Hd. simpl.
      rewrite bool_decide_eq_false_2; [done|]. intros [_ E]. by rewrite E in Ht.
    + intros i d Hd. rewrite refresh_lookup. unfold db1. simpl. rewrite Hd. simpl. eexists. split; [done|].
      destruct (bool_decide _); [|done]. pose proof (with_deadline_fields now (soonest id (map (update_rows now id ordinal s (canonicalJSON detail)) (db_progress db))) d).
      pose proof (with_deadline_frozen now (soonest id (map (update_rows now id ordinal s (canonicalJSON detail)) (db_progress db))) d). naive_solver.
  - split; simpl; eauto.
    + exists []. by rewrite app_nil_r.
    + intros i x Hx Ht. rewrite lookup_insert_ne; [done|]. intros ->. rewrite Hd0 in Hx. simplify_eq. by rewrite Hp in Ht.
    + intros i x Hx. destruct (decide (id = i)) as [<-|Hne].
      * rewrite lookup_insert_eq. rewrite Hd0 in Hx. simplify_eq. eexists. split; [done|]. done.
      * rewrite lookup_insert_ne by done. eauto 20.
  - split; simpl; eauto 20.
  - split; simpl; eauto 20. exists []. by rewrite app_nil_r.
Qed.

(** History is never rewritten: later states of the store extend the audit log
    and the recorded approvals, leave every resolved decision exactly as it was
    resolved, and keep the caller, policy version, request, facts and expiry every
    decision was created with. *)
Theorem store_history db db' : rtc store_step db db' → later db db'.
Proof. induction 1 as [|x y z H1 _ IH]; [done|]. etrans; [by apply store_step_later|done]. Qed.

(** A sweep claims only pending decisions whose scheduler column has passed, no
    more than asked for, the most overdue first; and if it claims fewer than asked
    for, every such decision that no other transaction holds is among them. *)
Theorem ClaimDue_spec now limit locked db ds :
  ClaimDue now limit locked db = Ok ds →
  length ds ≤ Z.to_nat limit ∧
  StronglySorted (λ a b, (default 0 (d_NextDeadline a) ≤ default 0 (d_NextDeadline b))%Z) ds ∧
  (∀ d, d ∈ ds → d_State d = DecisionPending ∧ (∃ id, db_decisions db !! id = Some d) ∧
     ∃ t, d_NextDeadline d = Some t ∧ (t ≤ now)%Z) ∧
  (length ds < Z.to_nat limit →
     ∀ id d t, db_decisions db !! id = Some d → d_State d = DecisionPending → d_ID d ∉ locked →
       d_NextDeadline d = Some t → (t ≤ now)%Z → d ∈ ds).
Proof.
  unfold ClaimDue. destruct (limit <=? 0)%Z; [done|]. intros [= <-].
  set (all := List.filter (due now locked) (map snd (map_to_list (db_decisions db)))).
  set (sorted := sort_by (λ d, default 0%Z (d_NextDeadline d)) Z.le all).
  assert (∀ d, d ∈ sorted ↔ due now locked d = true ∧ ∃ id, db_decisions db !! id = Some d) as Hel.
  { intros d. unfold sorted. rewrite elem_of_sort_by. unfold all.
    rewrite list_elem_of_In, filter_In, <-list_elem_of_In, elem_of_map. split.
    - intros [([id x] & -> & Hx%elem_of_map_to_list) Hd]. eauto.
    - intros [Hd [id Hx]]. split; [|done]. exists (id, d). split; [done|]. by apply elem_of_map_to_list. }
  assert (∀ d, due now locked d = true ↔
    d_State d = DecisionPending ∧ d_ID d ∉ locked ∧ ∃ t, d_NextDeadline d = Some t ∧ (t ≤ now)%Z) as Hdue.
  { intros d. unfold due. rewrite !andb_true_iff, negb_true_iff, bool_decide_eq_true, bool_decide_eq_false.
    destruct (d_NextDeadline d); rewrite ?Z.leb_le; naive_solver. }
  rewrite length_take. split_and!.
  - lia.
  - assert (StronglySorted (λ a b, (default 0 (d_NextDeadline a) ≤ default 0 (d_NextDeadline b))%Z) sorted) as Hs.
    { apply (sort_by_StronglySorted (λ d, default 0%Z (d_NextDeadline d)) Z.le). }
    rewrite <-(take_drop (Z.to_nat limit) sorted) in Hs. by apply StronglySorted_app_1_l in Hs.
  - intros d Hd. assert (d ∈ sorted) as Hin.
    { rewrite <-(take_drop (Z.to_nat limit) sorted). apply elem_of_app. by left. }
    apply Hel in Hin as [(? & _ & ?)%Hdue ?]. done.
  - intros Hlt id d t Hd Hp Hl Ht Hle. rewrite take_ge by lia. apply Hel. split; [|eauto]. apply Hdue. eauto.
Qed.
