(* ===== verification/World.v ===== *)
(** * Running against a shared database

    An instance of the program runs its store calls against a database other
    instances write too, over a connection that can fail.  A computation is a
    function of a world: the database, and a schedule that says, for each of its
    transactions in turn, what the other instances did just before it, whether the
    call fails and how, and the database clock.  A call that fails either left
    nothing behind or committed and lost its reply. *)
From S2P Require Import Prelude GoLib Policy Json Store.

Inductive fault := NoFault | Lost | LostReply.

Record step := mkStep {
  sp_env : DB → DB; sp_fault : fault; sp_now : Time.t; sp_locked : gset string }.

(** [w_ids] is the supply of random identifiers [store.NewDecisionID] draws from. *)
Record World := mkWorld { w_db : DB; w_steps : list step; w_ids : list string }.

Definition M (A : Type) : Type := World → result A * World.

Definition ret {A} (a : A) : M A := λ w, (Ok a, w).
Definition throw {A} (e : error) : M A := λ w, (Err e, w).
Definition lift {A} (r : result A) : M A := λ w, (r, w).

Definition bindM {A B} (m : M A) (k : A → M B) : M B := λ w,
  match m w with
  | (Ok a, w') => k a w'
  | (Err e, w') => (Err e, w')
  end.

(** Look at a call's outcome instead of returning its error. *)
Definition attempt {A} (m : M A) : M (result A) := λ w, let '(r, w') := m w in (Ok r, w').

Notation "'let!' x ':=' m 'in' k" := (bindM m (fun x => k))
  (at level 10, x name, m at level 100, k at level 200) : stamp_scope.

Definition quiet_step : step := mkStep (λ db, db) NoFault 0%Z ∅.

Definition next_step (w : World) : step * list step :=
  match w_steps w with [] => (quiet_step, []) | s :: l => (s, l) end.

(** One transaction. *)
Definition txn {A} (op : Time.t → DB → result (A * DB)) : M A := λ w,
  let '(s, rest) := next_step w in
  let db := sp_env s (w_db w) in
  match sp_fault s with
  | Lost => (Err [ErrDatabase], mkWorld db rest (w_ids w))
  | f =>
      match op (sp_now s) db with
      | Err e => (Err e, mkWorld db rest (w_ids w))
      | Ok (a, db') =>
          (match f with LostReply => Err [ErrDatabase] | _ => Ok a end, mkWorld db' rest (w_ids w))
      end
  end.

Definition query {A} (f : DB → result A) : M A := txn (λ _ db, let? a := f db in Ok (a, db)).

(** [AuditWriter.Append] in a transaction of its own. *)
Definition Append (e : AuditEntry) : M unit := txn (λ _ db, Ok (tt, append e db)).

Definition NewDecisionID : M string := λ w,
  match w_ids w with
  | [] => (Err [], w)
  | id :: ids => (Ok id, mkWorld (w_db w) (w_steps w) ids)
  end.

(** The claim runs in its own transaction and reports which rows were free. *)
Definition claim (now : Time.t) (limit : Z) : M (list Decision) := λ w,
  let locked := sp_locked (next_step w).1 in
  query (ClaimDue now limit locked) w.

(** ** Invariants kept under interference and faults *)

(** The other instances keep the invariant too. *)
Definition rely (I : DB → Prop) (w : World) : Prop :=
  Forall (λ s, ∀ db, I db → I (sp_env s db)) (w_steps w).

Definition keeps (I : DB → Prop) {A} (m : M A) : Prop :=
  ∀ w, I (w_db w) → rely I w → I (w_db (m w).2) ∧ rely I (m w).2.

Create HintDb keeps.

Section keeps.
Context (I : DB → Prop).

Lemma keeps_ret {A} (a : A) : keeps I (ret a).
  Proof. by intros w. Qed.
Lemma keeps_throw {A} e : keeps I (throw (A:=A) e).
  Proof. by intros w. Qed.
Lemma keeps_lift {A} (r : result A) : keeps I (lift r).
  Proof. by intros w. Qed.
Lemma keeps_newID : keeps I NewDecisionID.
  Proof. intros w Hw Hr. unfold NewDecisionID. by destruct (w_ids w). Qed.

Lemma keeps_bind {A B} (m : M A) (k : A → M B) : keeps I m → (∀ a, keeps I (k a)) → keeps I (bindM m k).
  Proof.
    intros Hm Hk w Hw Hr. destruct (Hm w Hw Hr) as [Hw' Hr']. unfold bindM.
    destruct (m w) as [[a|e] w']; simpl in *; [by apply Hk|done].
  Qed.

Lemma keeps_attempt {A} (m : M A) : keeps I m → keeps I (attempt m).
  Proof. intros Hm w Hw Hr. destruct (Hm w Hw Hr). unfold attempt. by destruct (m w). Qed.

Lemma keeps_txn {A} (op : Time.t → DB → result (A * DB)) :
    (∀ now db a db', I db → op now db = Ok (a, db') → I db') → keeps I (txn op).
  Proof.
    intros Hop w Hw Hr. unfold txn, next_step, rely in *. destruct (w_steps w) as [|s l]; simpl.
    - destruct (op 0%Z (w_db w)) as [[a db']|e] eqn:E; simpl; eauto.
    - apply Forall_cons in Hr as [Hs Hl]. specialize (Hs _ Hw).
      destruct (sp_fault s); [|done|]; destruct (op (sp_now s) _) as [[a db']|e] eqn:E; simpl; eauto.
  Qed.

Lemma keeps_query {A} (f : DB → result A) : keeps I (query f).
  Proof.
    apply keeps_txn. intros now db a db' Hdb (x & _ & [= <- <-])%res_bind_Ok. done.
  Qed.

Lemma keeps_claim now limit : keeps I (claim now limit).
  Proof. intros w. unfold claim. apply keeps_query. Qed.
End keeps.

#[export] Hint Resolve keeps_ret keeps_throw keeps_lift keeps_newID keeps_query keeps_claim : keeps.

(** Walk a computation: binds, branches, and calls the hint database knows. *)
Ltac keeps_tac :=
  repeat first
    [ solve [eauto with keeps]
    | progress intros
    | apply keeps_bind
    | apply keeps_attempt
    | case_match ].

(** ** Triples in a calm world

    No other instance interferes, but any call may fail, before or after it took
    effect.  [E] holds when the computation ends in an error. *)
Definition calm (w : World) : Prop := Forall (λ s, ∀ db, sp_env s db = db) (w_steps w).

Definition triple {A} (P : DB → Prop) (m : M A) (Q : A → DB → Prop) (E : DB → Prop) : Prop :=
  ∀ w, calm w → P (w_db w) →
    calm (m w).2 ∧ match (m w).1 with Ok a => Q a (w_db (m w).2) | Err _ => E (w_db (m w).2) end.

Section triples.
Context {A B : Type}.
Implicit Types (P E : DB → Prop).

Lemma triple_ret P (a : A) Q E : (∀ db, P db → Q a db) → triple P (ret a) Q E.
  Proof. intros H w Hc Hp. split; [done|]. by apply H. Qed.

Lemma triple_throw P e (Q : A → DB → Prop) E : (∀ db, P db → E db) → triple P (throw e) Q E.
  Proof. intros H w Hc Hp. split; [done|]. by apply H. Qed.

Lemma triple_lift P (r : result A) Q E :
    (∀ db a, P db → r = Ok a → Q a db) → (∀ db, P db → E db) → triple P (lift r) Q E.
  Proof. intros H1 H2 w Hc Hp. split; [done|]. unfold lift. simpl. destruct r; auto. Qed.

Lemma triple_bind P (m : M A) Q (k : A → M B) R E :
    triple P m Q E → (∀ a, triple (Q a) (k a) R E) → triple P (bindM m k) R E.
  Proof.
    intros Hm Hk w Hc Hp. destruct (Hm w Hc Hp) as [Hc' Hq]. unfold bindM.
    destruct (m w) as [[a|e] w']; simpl in *; [by apply Hk|done].
  Qed.

Lemma triple_attempt P (m : M A) Q E0 E :
    triple P m Q E0 → triple P (attempt m) (λ r db, match r with Ok a => Q a db | Err _ => E0 db end) E.
  Proof. intros Hm w Hc Hp. destruct (Hm w Hc Hp) as [Hc' Hq]. unfold attempt. by destruct (m w) as [[a|e] w']. Qed.

Lemma triple_txn P (op : Time.t → DB → result (A * DB)) Q E :
    (∀ now db a db', P db → op now db = Ok (a, db') → Q a db' ∧ E db') → (∀ db, P db → E db) →
    triple P (txn op) Q E.
  Proof.
    intros Hop He w Hc Hp. unfold txn, next_step, calm in *. destruct (w_steps w) as [|s l]; simpl.
    - split; [destruct (op 0%Z (w_db w)) as [[a db']|e]; simpl; constructor|].
      destruct (op 0%Z (w_db w)) as [[a db']|e] eqn:Eo; simpl; [by eapply Hop|by apply He].
    - apply Forall_cons in Hc as [Hs Hl]. rewrite Hs. destruct (sp_fault s); simpl; [|auto|];
        destruct (op (sp_now s) (w_db w)) as [[a db']|e] eqn:Eo; simpl; (split; [done|]); try (by eapply Hop); auto.
  Qed.

Lemma triple_query P (f : DB → result A) Q E :
    (∀ db a, P db → f db = Ok a → Q a db) → (∀ db, P db → E db) → triple P (query f) Q E.
  Proof.
    intros H1 H2. apply triple_txn; [|done]. intros now db a db' Hp (x & Hx & [= <- <-])%res_bind_Ok. auto.
  Qed.

Lemma triple_conseq P P' (m : M A) Q Q' E :
    triple P' m Q' E → (∀ db, P db → P' db) → (∀ a db, Q' a db → Q a db) → triple P m Q E.
  Proof.
    intros Hm Hp Hq w Hc Hw. destruct (Hm w Hc (Hp _ Hw)) as [Hc' Hr]. split; [done|].
    destruct (m w) as [[a|e] w']; simpl in *; auto.
  Qed.

(** What the precondition says outside the database. *)
Lemma triple_pure (φ : Prop) P (m : M A) Q E : (∀ db, P db → φ) → (φ → triple P m Q E) → triple P m Q E.
Proof. intros Hφ Hm w Hc Hp. by apply Hm; [eapply Hφ|..]. Qed.

Lemma calm_rely I w : calm w → rely I w.
Proof. unfold calm, rely. intros Hc. eapply Forall_impl; [done|]. intros st Hs db. by rewrite Hs. Qed.

(** An invariant kept under interference, next to a triple. *)
Lemma triple_keeps I P (m : M A) Q E :
  keeps I m → triple P m Q E → triple (λ db, P db ∧ I db) m (λ a db, Q a db ∧ I db) (λ db, E db ∧ I db).
Proof.
  intros Hk Hm w Hc [Hp Hi]. destruct (Hm w Hc Hp) as [Hc' Hq]. split; [done|].
  destruct (Hk w Hi (calm_rely _ _ Hc)) as [Hi' _]. by destruct (m w) as [[a|e] w'].
Qed.

End triples.

Lemma triple_newID P Q E : (∀ db id, P db → Q id db) → (∀ db, P db → E db) → triple P NewDecisionID Q E.
Proof. intros H1 H2 w Hc Hp. unfold NewDecisionID. destruct (w_ids w); simpl; split; auto. Qed.

(** A read in a calm world answers from the database, or the connection failed. *)
Lemma query_calm {A} (f : DB → result A) w :
  calm w → calm (query f w).2 ∧ w_db (query f w).2 = w_db w ∧
  ((query f w).1 = f (w_db w) ∨ (query f w).1 = Err [ErrDatabase]).
Proof.
  intros Hc. unfold query, txn, next_step, calm in *. destruct (w_steps w) as [|st l]; simpl.
  - destruct (f (w_db w)); simpl; auto.
  - apply Forall_cons in Hc as [Hs Hl]. rewrite Hs. destruct (sp_fault st); simpl; destruct (f (w_db w)); simpl; auto.
Qed.
