(* ===== verification/AuditChain.v ===== *)
(** * The audit chain: hashing and verification

    Models the hashing and the verification half of internal/store/audit.go and
    the audit_log table of migration 000003.  The log is one chain of rows per
    writer; a row carries the hash of the row before it.  Here are the row
    hash over its length-prefixed fields, the Merkle root of a batch, and
    [VerifyChain], which re-chains the whole log, with what a clean report means:
    every segment is a chain, and a segment cannot be changed below a known row
    without a collision of the hash between two strings this file names.

    The digest and the two renderings of a document, [encoding/json]'s and
    Postgres's, are the class [AuditEnv]; nothing is assumed of the renderings. *)
From Stdlib Require Import Ascii NArith.
From S2P Require Import Prelude GoLib Json.

Notation bytes := (list ascii).

Definition of_string (s : string) : bytes := String.list_ascii_of_string s.

(** ** Documents that decode

    Decoding into [any] reads every number as a float64 and fails when it rounds
    to an infinity. *)
Fixpoint decodable (j : json) : bool :=
  match j with
  | JInt z => (Z.abs (Float64.round53 z) <? 2 ^ 1024)%Z
  | JArr l => forallb decodable l
  | JObj fs => forallb (λ kv, decodable kv.2) fs
  | _ => true
  end.

Lemma decodable_canonical j : decodable j = true → decodable (canonical j) = true.
Proof.
  induction j as [l IH|fs IH|j Hj] using json_nested_ind; simpl.
  - rewrite !forallb_true. intros Hd x (y & -> & Hy)%elem_of_map. rewrite Forall_forall in IH. by apply IH, Hd.
  - rewrite !forallb_true. intros Hd x Hx. unfold sort_fields in Hx. rewrite elem_of_sort_by in Hx.
    apply elem_of_map in Hx as (y & -> & Hy). rewrite Forall_forall in IH. simpl. by apply IH, Hd.
  - destruct j; simpl; try done. by rewrite Float64.round53_idemp.
Qed.

Class AuditEnv := {
  (** [sha256.Sum256]: 32 bytes. *)
  sha256 : bytes → bytes;
  sha256_length : ∀ b, length (sha256 b) = 32;
  (** [json.Marshal] of a decoded document, and Postgres's [payload::text]. *)
  json_text : json → bytes;
  jsonb_text : json → bytes;
  (** What a jsonb column keeps of a document: the order of keys is its own. *)
  jsonb : json → json;
  jsonb_canonical : ∀ j, canonical (jsonb j) = canonical j;
  jsonb_decodable : ∀ j, decodable (jsonb j) = decodable j }.

(** ** Writing fields into the digest *)

Definition byte_of (z : Z) : ascii := ascii_of_N (Z.to_N (z mod 256)).

(** Big-endian, most significant byte first. *)
Fixpoint be_bytes (n : nat) (v : Z) : bytes :=
  match n with
  | O => []
  | S n => byte_of (Z.shiftr v (8 * Z.of_nat n)) :: be_bytes n v
  end.

Definition writeUint64 (v : Z) : bytes := be_bytes 8 v.
(** The two's complement pattern: the low 64 bits of the integer. *)
Definition writeInt64 (v : Z) : bytes := writeUint64 (v mod 2 ^ 64).
Definition writeTagged (b : bytes) : bytes := writeUint64 (Z.of_nat (length b)) ++ b.

Definition UnixMicro (t : Time.t) : Z := (t / Time.Microsecond)%Z.

(** ** Records *)

Record AuditRecord := mkRecord {
  r_WriterID : string; r_Seq : Z; r_PrevHash : bytes; r_Hash : bytes;
  r_Kind : string; r_Subject : string; r_Payload : bytes; r_RecordedAt : Time.t }.

Definition hashDomain : bytes := of_string "stamp.audit.v1".
Definition zeroHash : bytes := replicate 32 zero.

Definition record_preimage (r : AuditRecord) : bytes :=
  writeTagged hashDomain ++ writeTagged (of_string (r_WriterID r)) ++ writeInt64 (r_Seq r) ++
  r_PrevHash r ++ writeTagged (of_string (r_Kind r)) ++ writeTagged (of_string (r_Subject r)) ++
  writeTagged (r_Payload r) ++ writeInt64 (UnixMicro (r_RecordedAt r)).

Definition recordHash `{AuditEnv} (r : AuditRecord) : bytes := sha256 (record_preimage r).

(** A row of audit_log.  The hashes are whatever bytes the columns hold. *)
Record Row := mkRow {
  w_WriterID : string; w_Seq : Z; w_PrevHash : bytes; w_Hash : bytes;
  w_Kind : string; w_Subject : string; w_Payload : json; w_RecordedAt : Time.t }.

Notation Log := (list Row).

(** [copy(dst[:], src)] into a 32-byte array. *)
Definition copy32 (dst src : bytes) : bytes := take 32 (src ++ drop (length src) dst).

(** [canonicalJSONBytes] of what [payload::text] returns. *)
Definition canonicalJSONBytes (j : json) : option json :=
  if decodable j then Some (canonical j) else None.

Definition payload_bytes `{AuditEnv} (j : json) : bytes :=
  match canonicalJSONBytes j with Some c => json_text c | None => jsonb_text j end.

(** What verification hashes for a row. *)
Definition stored_record `{AuditEnv} (r : Row) : AuditRecord :=
  mkRecord (w_WriterID r) (w_Seq r) (copy32 zeroHash (w_PrevHash r)) (w_Hash r)
    (w_Kind r) (w_Subject r) (payload_bytes (w_Payload r)) (w_RecordedAt r).

(** ** Verification *)

Inductive FaultKind :=
  | FaultHashMismatch | FaultPrevMismatch | FaultSequenceGap | FaultCheckpointGap
  | FaultCheckpointSignature | FaultCheckpointChain | FaultHeadMismatch | FaultMissingRow.

Record Fault := mkFault { f_Kind : FaultKind; f_WriterID : string; f_Seq : Z }.

Record SegmentSummary := mkSummary {
  ss_WriterID : string; ss_Rows : Z; ss_HeadSeq : Z; ss_HeadHash : bytes }.

Record ChainReport := mkReport {
  cr_Rows : Z; cr_Segments : list SegmentSummary; cr_Faults : list Fault }.

Definition ChainReport_OK (r : ChainReport) : bool := bool_decide (length (cr_Faults r) = 0).

Definition ChainReport_Err (r : ChainReport) : result unit :=
  if ChainReport_OK r then Ok tt else Err [ErrChainBroken].

(** [ORDER BY writer_id, seq], writers in byte order. *)
Definition ordered (log : Log) : list Row :=
  sort_by w_WriterID String.le (sort_by w_Seq Z.le log).

(** The variables of the loop. *)
Record cursor := mkCursor {
  c_current : string; c_expected : Z; c_prev : bytes; c_count : Z;
  c_lastHash : bytes; c_lastSeq : Z; c_report : ChainReport }.

Definition flush (c : cursor) : ChainReport :=
  if bool_decide (c_current c = "") then c_report c
  else mkReport (cr_Rows (c_report c))
         (cr_Segments (c_report c) ++ [mkSummary (c_current c) (c_count c) (c_lastSeq c) (c_lastHash c)])
         (cr_Faults (c_report c)).

(** The faults one row adds, given what the chain so far expects. *)
Definition row_faults `{AuditEnv} (expected : Z) (prev : bytes) (r : Row) : list Fault :=
  let fault k := mkFault k (w_WriterID r) (w_Seq r) in
  (if bool_decide (w_Seq r = expected) then [] else [fault FaultSequenceGap]) ++
  (if bool_decide (w_PrevHash r = prev) then [] else [fault FaultPrevMismatch]) ++
  (if canonicalJSONBytes (w_Payload r) then [] else [fault FaultHashMismatch]) ++
  (if bool_decide (w_Hash r = recordHash (stored_record r)) then [] else [fault FaultHashMismatch]).

Definition verify_row `{AuditEnv} (c : cursor) (r : Row) : cursor :=
  let c := if bool_decide (w_WriterID r = c_current c) then c
           else mkCursor (w_WriterID r) 1 zeroHash 0 (c_lastHash c) (c_lastSeq c) (flush c) in
  mkCursor (c_current c) (w_Seq r + 1) (copy32 (c_prev c) (w_Hash r)) (c_count c + 1)
    (copy32 (c_lastHash c) (w_Hash r)) (w_Seq r)
    (mkReport (cr_Rows (c_report c) + 1) (cr_Segments (c_report c))
       (cr_Faults (c_report c) ++ row_faults (c_expected c) (c_prev c) r)).

Definition VerifyChain `{AuditEnv} (log : Log) : ChainReport :=
  let c := foldl verify_row (mkCursor "" 0 zeroHash 0 zeroHash 0 (mkReport 0 [] [])) (ordered log) in
  let rep := flush c in
  mkReport (cr_Rows rep) (sort_by ss_WriterID String.le (cr_Segments rep)) (cr_Faults rep).

(** ** Merkle roots *)

Definition merkle_empty : bytes := hashDomain ++ of_string ":merkle:empty".
Definition merkle_leaf (leaf : bytes) : bytes := hashDomain ++ of_string ":merkle:leaf" ++ zero :: leaf.
Definition merkle_node (l r : bytes) : bytes := hashDomain ++ of_string ":merkle:node" ++ zero :: l ++ r.

Fixpoint merkle_next `{AuditEnv} (level : list bytes) : list bytes :=
  match level with
  | a :: b :: rest => sha256 (merkle_node a b) :: merkle_next rest
  | _ => level
  end.

(** Every level with two nodes or more is shorter than the one below, so the
    number of leaves is enough fuel ([mfold_single]). *)
Fixpoint merkle_fold `{AuditEnv} (fuel : nat) (level : list bytes) : list bytes :=
  match fuel with
  | O => level
  | S n => if (1 <? length level)%nat then merkle_fold n (merkle_next level) else level
  end.

Definition MerkleRoot `{AuditEnv} (leaves : list bytes) : bytes :=
  match leaves with
  | [] => sha256 merkle_empty
  | _ => default [] (head (merkle_fold (length leaves) (map (λ l, sha256 (merkle_leaf l)) leaves)))
  end.

(** [fmt.Sprintf("%x", b)]. *)
Definition hex_digit (n : N) : ascii := ascii_of_N (if (n <? 10)%N then 48 + n else 87 + n).
Definition hex (b : bytes) : string :=
  String.string_of_list_ascii (b ≫= λ a, [hex_digit (N_of_ascii a / 16); hex_digit (N_of_ascii a mod 16)]).

(** ** The encoding of a record determines its fields *)

Lemma be_bytes_length n v : length (be_bytes n v) = n.
Proof. induction n; simpl; auto. Qed.

Lemma writeUint64_length v : length (writeUint64 v) = 8.
Proof. apply be_bytes_length. Qed.

Lemma writeInt64_length v : length (writeInt64 v) = 8.
Proof. apply be_bytes_length. Qed.

Lemma byte_of_inj a b : byte_of a = byte_of b → (a mod 256 = b mod 256)%Z.
Proof.
  intros E. apply (f_equal N_of_ascii) in E. unfold byte_of in E.
  pose proof (Z.mod_pos_bound a 256 ltac:(lia)). pose proof (Z.mod_pos_bound b 256 ltac:(lia)).
  rewrite !N_ascii_embedding in E by lia. lia.
Qed.

Lemma be_bytes_inj n u v : be_bytes n u = be_bytes n v → (u mod 2 ^ (8 * Z.of_nat n) = v mod 2 ^ (8 * Z.of_nat n))%Z.
Proof.
  induction n as [|n IH]; simpl be_bytes.
  { intros _. by rewrite !Z.mod_1_r. }
  intros [= Hb Hr]. apply IH in Hr. apply byte_of_inj in Hb.
  rewrite !Z.shiftr_div_pow2 in Hb by lia.
  replace (8 * Z.of_nat (S n))%Z with (8 * Z.of_nat n + 8)%Z by lia.
  rewrite Z.pow_add_r by lia. change (2 ^ 8)%Z with 256%Z.
  rewrite !Z.rem_mul_r by (try apply Z.pow_nonzero; lia). by rewrite Hr, Hb.
Qed.

Lemma writeUint64_inj u v : writeUint64 u = writeUint64 v → (u mod 2 ^ 64 = v mod 2 ^ 64)%Z.
Proof. exact (be_bytes_inj 8 u v). Qed.

#[local] Opaque writeUint64.

Lemma writeInt64_inj u v :
  (- 2 ^ 63 <= u < 2 ^ 63)%Z → (- 2 ^ 63 <= v < 2 ^ 63)%Z → writeInt64 u = writeInt64 v → u = v.
Proof.
  intros Hu Hv E. apply writeUint64_inj in E. rewrite !Z.mod_mod in E by lia.
  destruct (decide (u < 0)%Z), (decide (v < 0)%Z).
  - rewrite <-(Z.mod_add u 1), <-(Z.mod_add v 1), !Z.mod_small in E by lia. lia.
  - rewrite <-(Z.mod_add u 1), !Z.mod_small in E by lia. lia.
  - rewrite <-(Z.mod_add v 1), !Z.mod_small in E by lia. lia.
  - rewrite !Z.mod_small in E by lia. lia.
Qed.

Lemma writeTagged_inj a b x y :
  (Z.of_nat (length a) < 2 ^ 64)%Z → (Z.of_nat (length b) < 2 ^ 64)%Z →
  writeTagged a ++ x = writeTagged b ++ y → a = b ∧ x = y.
Proof.
  intros Ha Hb E. unfold writeTagged in E. rewrite <-!(assoc_L (++)) in E.
  apply app_inj_1 in E as [El E]; [|by rewrite !writeUint64_length].
  apply writeUint64_inj in El. rewrite !Z.mod_small in El by lia. apply app_inj_1 in E; [done|lia].
Qed.

Lemma of_string_inj s t : of_string s = of_string t → s = t.
Proof.
  intros E. apply (f_equal String.string_of_list_ascii) in E.
  by rewrite !String.string_of_list_ascii_of_string in E.
Qed.

(** What every record of a Go process satisfies: lengths fit a slice, integers
    their 64 bits, the previous hash its array. *)
Definition fits (r : AuditRecord) : Prop :=
  (∀ b, b ∈ [of_string (r_WriterID r); of_string (r_Kind r); of_string (r_Subject r); r_Payload r] →
     (Z.of_nat (length b) < 2 ^ 64)%Z) ∧
  (- 2 ^ 63 <= r_Seq r < 2 ^ 63)%Z ∧ (- 2 ^ 63 <= UnixMicro (r_RecordedAt r) < 2 ^ 63)%Z ∧
  length (r_PrevHash r) = 32.

(** What the hash of a record covers. *)
Definition covered (r : AuditRecord) : string * Z * bytes * string * string * bytes * Z :=
  (r_WriterID r, r_Seq r, r_PrevHash r, r_Kind r, r_Subject r, r_Payload r, UnixMicro (r_RecordedAt r)).

Lemma record_preimage_inj a b : fits a → fits b → record_preimage a = record_preimage b → covered a = covered b.
Proof.
  intros (La & Sa & Ta & Pa) (Lb & Sb & Tb & Pb) E. unfold record_preimage in E.
  apply app_inv_head in E.
  apply writeTagged_inj in E as [Ew E]; [|apply La; set_solver|apply Lb; set_solver].
  apply app_inj_1 in E as [Es E]; [|by rewrite !writeInt64_length].
  apply app_inj_1 in E as [Ep E]; [|congruence].
  apply writeTagged_inj in E as [Ek E]; [|apply La; set_solver|apply Lb; set_solver].
  apply writeTagged_inj in E as [Eu E]; [|apply La; set_solver|apply Lb; set_solver].
  apply writeTagged_inj in E as [Ey Et]; [|apply La; set_solver|apply Lb; set_solver].
  apply writeInt64_inj in Es, Et; try done. apply of_string_inj in Ew, Ek, Eu.
  unfold covered. congruence.
Qed.

(** ** Chains *)

(** The rows of one writer, in sequence order. *)
Definition segment (w : string) (log : Log) : list Row := filter (λ r, w_WriterID r = w) (ordered log).

Section chain.
Context `{AuditEnv}.

(** A run of rows numbered from [n] that continues the chain from [prev]. *)
Fixpoint chained (n : Z) (prev : bytes) (rows : list Row) : Prop :=
  match rows with
  | [] => True
  | r :: rows =>
      w_Seq r = n ∧ w_PrevHash r = prev ∧ is_Some (canonicalJSONBytes (w_Payload r)) ∧
      w_Hash r = recordHash (stored_record r) ∧ chained (n + 1) (w_Hash r) rows
  end.

Lemma row_faults_nil n prev r :
  row_faults n prev r = [] ↔
  w_Seq r = n ∧ w_PrevHash r = prev ∧ is_Some (canonicalJSONBytes (w_Payload r)) ∧
  w_Hash r = recordHash (stored_record r).
Proof.
  unfold row_faults. rewrite !app_nil. repeat case_bool_decide; destruct (canonicalJSONBytes _) eqn:E;
    naive_solver.
Qed.

Lemma copy32_full dst src : length src = 32 → copy32 dst src = src.
Proof. intros Hl. unfold copy32. rewrite take_app_le by lia. by rewrite take_ge by lia. Qed.

Lemma recordHash_length r : length (recordHash r) = 32.
Proof. apply sha256_length. Qed.

(** Faults only accumulate. *)
Lemma verify_faults c r :
  ∃ fs, cr_Faults (c_report (verify_row c r)) = cr_Faults (c_report c) ++ fs ∧
        fs = row_faults (if bool_decide (w_WriterID r = c_current c) then c_expected c else 1)
               (if bool_decide (w_WriterID r = c_current c) then c_prev c else zeroHash) r.
Proof.
  eexists. split; [|done]. unfold verify_row. case_bool_decide; simpl; [done|].
  unfold flush. by case_bool_decide.
Qed.

Lemma fold_faults_prefix l c : ∃ fs, cr_Faults (c_report (foldl verify_row c l)) = cr_Faults (c_report c) ++ fs.
Proof.
  revert c. induction l as [|r l IH]; intros c; simpl; [exists []; by rewrite app_nil_r|].
  destruct (IH (verify_row c r)) as [fs ->]. destruct (verify_faults c r) as (fs' & -> & _).
  rewrite <-(assoc_L (++)). eauto.
Qed.

Definition clean (c : cursor) : Prop := cr_Faults (c_report c) = [].

Lemma fold_clean l c : clean (foldl verify_row c l) → clean c.
Proof.
  unfold clean. destruct (fold_faults_prefix l c) as [fs ->]. by intros [? _]%app_nil.
Qed.

(** What the loop expects of a row. *)
Definition expects (c : cursor) (r : Row) : Z * bytes :=
  if bool_decide (w_WriterID r = c_current c) then (c_expected c, c_prev c) else (1%Z, zeroHash).

Lemma verify_row_clean c r :
  clean (verify_row c r) ↔ clean c ∧ row_faults (expects c r).1 (expects c r).2 r = [].
Proof.
  unfold clean, expects. destruct (verify_faults c r) as (fs & -> & ->). rewrite app_nil. by case_bool_decide.
Qed.

Lemma verify_row_next c r :
  row_faults (expects c r).1 (expects c r).2 r = [] →
  c_current (verify_row c r) = w_WriterID r ∧ c_expected (verify_row c r) = ((expects c r).1 + 1)%Z ∧
  c_prev (verify_row c r) = w_Hash r.
Proof.
  intros (Hs & _ & _ & Hh)%row_faults_nil. unfold verify_row. rewrite <-Hs.
  split_and!; simpl; [by case_bool_decide|done|]. apply copy32_full. rewrite Hh. apply recordHash_length.
Qed.

Lemma chained_cons n prev r rows :
  chained n prev (r :: rows) ↔ row_faults n prev r = [] ∧ chained (n + 1) (w_Hash r) rows.
Proof. simpl. rewrite row_faults_nil. naive_solver. Qed.

#[local] Opaque row_faults.

(** The loop from any point of a sorted listing: the rest of the current segment
    continues its chain, and every later segment is a chain from the start. *)
Lemma verify_fold l c :
  StronglySorted (key_le w_WriterID String.le) l → (∀ r, r ∈ l → String.le (c_current c) (w_WriterID r)) →
  clean (foldl verify_row c l) ↔
  clean c ∧ chained (c_expected c) (c_prev c) (filter (λ r, w_WriterID r = c_current c) l) ∧
  ∀ w, w ≠ c_current c → chained 1 zeroHash (filter (λ r, w_WriterID r = w) l).
Proof.
  revert c. induction l as [|r l IH]; intros c Hs Hle; [naive_solver|]. simpl foldl.
  apply StronglySorted_inv in Hs as [Hs Hall]. rewrite Forall_forall in Hall. unfold key_le in Hall.
  destruct (decide (row_faults (expects c r).1 (expects c r).2 r = [])) as [Hr|Hr].
  - destruct (verify_row_next c r Hr) as (Ec & Ee & Ep).
    rewrite IH, Ec, Ee, Ep, verify_row_clean; [|done|by rewrite Ec].
    unfold expects in *. case_bool_decide as Hc; simpl in *.
    + rewrite <-Hc, filter_cons_True, chained_cons by done. split.
      * intros ([Hcl _] & Hch & Ho). split_and!; try done. intros w Hw.
        rewrite filter_cons_False by congruence. by apply Ho.
      * intros (Hcl & [_ Hch] & Ho). split_and!; try done. intros w Hw. specialize (Ho w Hw).
        by rewrite filter_cons_False in Ho by congruence.
    + assert (filter (λ x, w_WriterID x = c_current c) (r :: l) = []) as Hnone.
      { apply filter_none. intros x Hx E. apply Hc, (anti_symm String.le); [|apply Hle; by left].
        rewrite <-E. apply elem_of_cons in Hx as [->|Hx]; [done|by apply Hall]. }
      rewrite Hnone. split.
      * intros ([Hcl _] & Hch & Ho). split_and!; try done. intros w Hw.
        destruct (decide (w_WriterID r = w)) as [<-|Hne].
        -- rewrite filter_cons_True, chained_cons by done. done.
        -- rewrite filter_cons_False by done. apply Ho. congruence.
      * intros (Hcl & _ & Ho). split_and!; [done|done| |].
        -- specialize (Ho (w_WriterID r) Hc). rewrite filter_cons_True, chained_cons in Ho by done. by destruct Ho.
        -- intros w Hw. destruct (decide (w = c_current c)) as [->|Hne].
           ++ rewrite filter_cons_False in Hnone by done. by rewrite Hnone.
           ++ specialize (Ho w Hne). by rewrite filter_cons_False in Ho by congruence.
  - split.
    + intros Hcl%fold_clean%verify_row_clean. naive_solver.
    + intros (Hcl & Hch & Ho). destruct Hr. unfold expects. case_bool_decide as Hc; simpl.
      * rewrite filter_cons_True, chained_cons in Hch by done. by destruct Hch.
      * specialize (Ho (w_WriterID r) Hc). rewrite filter_cons_True, chained_cons in Ho by done. by destruct Ho.
Qed.

#[local] Transparent row_faults.

Lemma ordered_sorted log : StronglySorted (key_le w_WriterID String.le) (ordered log).
Proof. unfold ordered. apply sort_by_StronglySorted; apply _. Qed.

Lemma elem_of_ordered r log : r ∈ ordered log ↔ r ∈ log.
Proof. unfold ordered. by rewrite !elem_of_sort_by. Qed.

Lemma empty_le w : String.le "" w.
Proof. by destruct w. Qed.

(** A report without faults, for the writer that owns the empty name too: the loop
    starts inside its segment, expecting row 0. *)
Lemma VerifyChain_clean log :
  ChainReport_OK (VerifyChain log) = true ↔
  chained 0 zeroHash (segment "" log) ∧ ∀ w, w ≠ "" → chained 1 zeroHash (segment w log).
Proof.
  unfold ChainReport_OK, VerifyChain. rewrite bool_decide_eq_true. simpl.
  set (c0 := mkCursor _ _ _ _ _ _ _).
  assert (cr_Faults (flush (foldl verify_row c0 (ordered log))) = cr_Faults (c_report (foldl verify_row c0 (ordered log)))) as ->.
  { unfold flush. by case_bool_decide. }
  rewrite length_zero_iff_nil. change (_ = []) with (clean (foldl verify_row c0 (ordered log))).
  rewrite verify_fold; [|apply ordered_sorted|intros; apply empty_le]. simpl. unfold segment. naive_solver.
Qed.

(** ** What a row of a chain fixes *)

Lemma chained_lookup n prev s i r :
  chained n prev s → s !! i = Some r →
  w_Seq r = (n + Z.of_nat i)%Z ∧ w_Hash r = recordHash (stored_record r) ∧
  match i with O => w_PrevHash r = prev | S j => ∃ r', s !! j = Some r' ∧ w_PrevHash r = w_Hash r' end.
Proof.
  revert n prev i. induction s as [|x s IH]; intros n prev i; [done|].
  simpl chained. intros (Hn & Hp & _ & Hh & Hch). destruct i as [|i]; simpl.
  - intros [= <-]. split_and!; [lia|done|done].
  - intros Hl. destruct (IH _ _ _ Hch Hl) as (Hseq & Hrh & Hprev). split_and!; [lia|done|].
    destruct i as [|i]; simpl; [by exists x|done].
Qed.

Lemma chained_prev_length n prev s i r :
  length prev = 32 → chained n prev s → s !! i = Some r → length (w_PrevHash r) = 32.
Proof.
  intros Hl Hch Hr. destruct (chained_lookup _ _ _ _ _ Hch Hr) as (_ & _ & Hp). destruct i as [|i]; [congruence|].
  destruct Hp as (r' & Hr' & ->). destruct (chained_lookup _ _ _ _ _ Hch Hr') as (_ & -> & _).
  apply recordHash_length.
Qed.

(** Two rows, one of each run, whose hash inputs differ and hash to the same. *)
Definition collision (s1 s2 : list Row) : Prop :=
  ∃ a b, a ∈ s1 ∧ b ∈ s2 ∧
    record_preimage (stored_record a) ≠ record_preimage (stored_record b) ∧
    sha256 (record_preimage (stored_record a)) = sha256 (record_preimage (stored_record b)).

Definition covered_rows (s : list Row) : list (string * Z * bytes * string * string * bytes * Z) :=
  map (λ r, covered (stored_record r)) s.

Lemma chain_binding n s1 s2 i a b :
  chained n zeroHash s1 → chained n zeroHash s2 →
  (∀ r, r ∈ s1 ++ s2 → fits (stored_record r)) →
  s1 !! i = Some a → s2 !! i = Some b → w_Hash a = w_Hash b →
  covered_rows (take (S i) s1) = covered_rows (take (S i) s2) ∨ collision s1 s2.
Proof.
  intros H1 H2 Hf. revert a b. induction i as [|i IH]; intros a b Ha Hb Hh.
  all: destruct (chained_lookup _ _ _ _ _ H1 Ha) as (_ & Eha & Hpa), (chained_lookup _ _ _ _ _ H2 Hb) as (_ & Ehb & Hpb).
  all: destruct (decide (record_preimage (stored_record a) = record_preimage (stored_record b))) as [Ep|Ep];
    [|right; exists a, b; split_and!; [by eapply list_elem_of_lookup_2|by eapply list_elem_of_lookup_2|done|];
      unfold recordHash in *; congruence].
  all: apply record_preimage_inj in Ep; [|apply Hf; rewrite elem_of_app; eauto using list_elem_of_lookup_2..].
  all: rewrite (take_S_r _ _ _ Ha), (take_S_r _ _ _ Hb).
  - left. simpl. unfold covered_rows. simpl. by rewrite Ep.
  - destruct Hpa as (a' & Ha' & Pa), Hpb as (b' & Hb' & Pb).
    assert (w_PrevHash a = w_PrevHash b) as Epp.
    { injection Ep as _ _ Ep _ _ _ _. rewrite !copy32_full in Ep; [done|..].
      - by apply (chained_prev_length _ zeroHash _ _ _ (length_replicate _ _) H2 Hb).
      - by apply (chained_prev_length _ zeroHash _ _ _ (length_replicate _ _) H1 Ha). }
    destruct (IH a' b' Ha' Hb') as [E|C]; [congruence| |by right].
    left. unfold covered_rows in *. rewrite !map_app, E. simpl. by rewrite Ep.
Qed.

Lemma segment_index w n prev log r :
  chained n prev (segment w log) → r ∈ log → w_WriterID r = w →
  segment w log !! Z.to_nat (w_Seq r - n) = Some r ∧ (n <= w_Seq r)%Z.
Proof.
  intros Hch Hr Hw. assert (r ∈ segment w log) as Hin.
  { apply list_elem_of_filter. by rewrite elem_of_ordered. }
  apply list_elem_of_lookup in Hin as [i Hi]. destruct (chained_lookup _ _ _ _ _ Hch Hi) as (E & _ & _).
  rewrite E. replace (Z.to_nat _) with i by lia. split; [done|lia].
Qed.
End chain.

(** Re-chaining reports no fault exactly when the rows of every writer are
    numbered from one without a gap, each names the hash of the row before it, the
    first names the zero hash, and each carries the hash of its own contents. *)
Theorem VerifyChain_spec `{AuditEnv} log :
  (∀ r, r ∈ log → w_WriterID r ≠ "") →
  ChainReport_OK (VerifyChain log) = true ↔ ∀ w, chained 1 zeroHash (segment w log).
Proof.
  intros Hne. rewrite VerifyChain_clean.
  assert (segment "" log = []) as Hnil.
  { apply filter_none. intros r. rewrite elem_of_ordered. apply Hne. }
  rewrite Hnil. split; [|naive_solver]. intros [_ Hch] w. destruct (decide (w = "")) as [->|]; [by rewrite Hnil|auto].
Qed.

(** C13. Take two logs that both verify.  If they hold a row of the same writer,
    number and hash, then up to that row the two segments agree in everything the
    hash covers, or one of the rows of the first and one of the second are a
    collision of the hash. *)
Theorem chain_tamper_evident `{AuditEnv} log log' r r' :
  ChainReport_OK (VerifyChain log) = true → ChainReport_OK (VerifyChain log') = true →
  (∀ x, x ∈ log ++ log' → w_WriterID x ≠ "" ∧ fits (stored_record x)) →
  r ∈ log → r' ∈ log' → w_WriterID r = w_WriterID r' → w_Seq r = w_Seq r' → w_Hash r = w_Hash r' →
  covered_rows (take (Z.to_nat (w_Seq r)) (segment (w_WriterID r) log)) =
  covered_rows (take (Z.to_nat (w_Seq r)) (segment (w_WriterID r) log')) ∨
  collision (segment (w_WriterID r) log) (segment (w_WriterID r) log').
Proof.
  intros H1 H2 Hx Hr Hr' Ew Es Eh.
  apply VerifyChain_spec with (w := w_WriterID r) in H1; [|set_solver].
  apply VerifyChain_spec with (w := w_WriterID r) in H2; [|set_solver].
  destruct (segment_index _ _ _ _ _ H1 Hr eq_refl) as [Hi Hge].
  destruct (segment_index _ _ _ _ _ H2 Hr' (eq_sym Ew)) as [Hj _]. rewrite <-Es in Hj.
  replace (Z.to_nat (w_Seq r)) with (S (Z.to_nat (w_Seq r - 1))) by lia.
  eapply chain_binding; try done. intros x [Hin|Hin]%elem_of_app;
    apply list_elem_of_filter in Hin as [_ Hin]; rewrite elem_of_ordered in Hin; apply Hx; set_solver.
Qed.

(** ** Merkle roots

    The levels of the loop are the hashes of a level of binary trees, whose leaves
    are the batch. *)
Inductive mtree := MLeaf (leaf : bytes) | MNode (l r : mtree).

Fixpoint mleaves (t : mtree) : list bytes :=
  match t with MLeaf b => [b] | MNode l r => mleaves l ++ mleaves r end.

Fixpoint mnext (level : list mtree) : list mtree :=
  match level with
  | a :: b :: rest => MNode a b :: mnext rest
  | _ => level
  end.

Fixpoint mfold (fuel : nat) (level : list mtree) : list mtree :=
  match fuel with
  | O => level
  | S n => if (1 <? length level)%nat then mfold n (mnext level) else level
  end.

Lemma pair_ind {A} (P : list A → Prop) :
  P [] → (∀ a, P [a]) → (∀ a b l, P l → P (a :: b :: l)) → ∀ l, P l.
Proof.
  intros H0 H1 H2 l. cut (P l ∧ ∀ a, P (a :: l)); [naive_solver|].
  induction l as [|x l [IH1 IH2]]; split; auto.
Qed.

Section merkle.
Context `{AuditEnv}.

Fixpoint mpreimage (t : mtree) : bytes :=
  match t with
  | MLeaf b => merkle_leaf b
  | MNode l r => merkle_node (sha256 (mpreimage l)) (sha256 (mpreimage r))
  end.

(** Every string hashed on the way to the root. *)
Fixpoint mhashed (t : mtree) : list bytes :=
  mpreimage t :: match t with MLeaf _ => [] | MNode l r => mhashed l ++ mhashed r end.

Definition mtree_of (leaves : list bytes) : option mtree := head (mfold (length leaves) (map MLeaf leaves)).

Definition merkle_hashed (leaves : list bytes) : list bytes :=
  match leaves with
  | [] => [merkle_empty]
  | _ => match mtree_of leaves with Some t => mhashed t | None => [] end
  end.

Definition mhash (t : mtree) : bytes := sha256 (mpreimage t).

Lemma mnext_hash level : map mhash (mnext level) = merkle_next (map mhash level).
Proof. induction level as [| |a b l IH] using pair_ind; simpl; [done|done|by rewrite IH]. Qed.

Lemma mnext_leaves level : concat (map mleaves (mnext level)) = concat (map mleaves level).
Proof.
  induction level as [| |a b l IH] using pair_ind; simpl; [done|done|]. by rewrite IH, (assoc_L (++)).
Qed.

Lemma mnext_length level : length (mnext level) ≤ length level ∧ (1 < length level → length (mnext level) < length level).
Proof. induction level as [| |a b l IH] using pair_ind; simpl; lia. Qed.

Lemma mnext_nonempty level : level ≠ [] → mnext level ≠ [].
Proof. by destruct level as [|a [|b l]]. Qed.

Lemma mfold_hash n level : map mhash (mfold n level) = merkle_fold n (map mhash level).
Proof.
  revert level. induction n as [|n IH]; intros level; simpl; [done|]. rewrite length_map.
  case_match; [|done]. by rewrite IH, mnext_hash.
Qed.

Lemma mfold_single n level :
  level ≠ [] → length level ≤ n → ∃ t, mfold n level = [t] ∧ mleaves t = concat (map mleaves level).
Proof.
  revert level. induction n as [|n IH]; intros level Hne Hl; [destruct level; simpl in *; [done|lia]|].
  simpl. destruct (1 <? length level)%nat eqn:E.
  - apply Nat.ltb_lt in E. destruct (IH (mnext level)) as (t & Ht & Hlv).
    + by apply mnext_nonempty.
    + destruct (mnext_length level); lia.
    + exists t. by rewrite Ht, Hlv, mnext_leaves.
  - apply Nat.ltb_ge in E. destruct level as [|t [|]]; simpl in *; [done| |lia].
    exists t. by rewrite app_nil_r.
Qed.

(** The loop ends with one hash: the root of a tree over the batch. *)
Lemma MerkleRoot_tree leaves :
  leaves ≠ [] → ∃ t, MerkleRoot leaves = mhash t ∧ mleaves t = leaves ∧ merkle_hashed leaves = mhashed t.
Proof.
  intros Hne. destruct (mfold_single (length leaves) (map MLeaf leaves)) as (t & Ht & Hlv).
  { by destruct leaves. } { by rewrite length_map. }
  exists t. assert (concat (map mleaves (map MLeaf leaves)) = leaves) as Ec.
  { clear. induction leaves; simpl; congruence. }
  split_and!; [|by rewrite Hlv|].
  - unfold MerkleRoot. destruct leaves as [|b l]; [done|].
    replace (map (λ l, sha256 (merkle_leaf l)) (b :: l)) with (map mhash (map MLeaf (b :: l))) by by rewrite map_map.
    by rewrite <-mfold_hash, Ht.
  - unfold merkle_hashed, mtree_of. destruct leaves; [done|]. by rewrite Ht.
Qed.

Definition hash_collision (xs ys : list bytes) : Prop :=
  ∃ x y, x ∈ xs ∧ y ∈ ys ∧ x ≠ y ∧ sha256 x = sha256 y.

Lemma collision_subset xs ys xs' ys' : xs ⊆ xs' → ys ⊆ ys' → hash_collision xs ys → hash_collision xs' ys'.
Proof. unfold hash_collision. set_solver. Qed.

Lemma mpreimage_in t : mpreimage t ∈ mhashed t.
Proof. destruct t; simpl; set_solver. Qed.

Lemma leaf_not_node b l r : merkle_leaf b ≠ merkle_node l r.
Proof. by intros E%app_inv_head. Qed.

(** Equal roots, different inputs: a collision between the two of them. *)
Lemma root_collision t u : mhash t = mhash u → mpreimage t ≠ mpreimage u → hash_collision (mhashed t) (mhashed u).
Proof. intros E Hne. exists (mpreimage t), (mpreimage u). split_and!; auto using mpreimage_in. Qed.

Lemma mtree_binding t u : mhash t = mhash u → mleaves t = mleaves u ∨ hash_collision (mhashed t) (mhashed u).
Proof.
  revert u. induction t as [b|l IHl r IHr]; intros [c|l' r'] E.
  - destruct (decide (merkle_leaf b = merkle_leaf c)) as [Eb|Hne]; [|right; by apply root_collision].
    left. do 2 apply app_inv_head in Eb. injection Eb as ->. done.
  - right. apply root_collision; [done|]. apply leaf_not_node.
  - right. apply root_collision; [done|]. apply not_eq_sym, leaf_not_node.
  - destruct (decide (mpreimage (MNode l r) = mpreimage (MNode l' r'))) as [Eb|Hne]; [|right; by apply root_collision].
    do 2 apply app_inv_head in Eb. injection Eb as Eb.
    apply app_inj_1 in Eb as [El Er]; [|by rewrite !sha256_length].
    destruct (IHl _ El) as [Hl|C]; [|right; eapply collision_subset; [..|exact C]; simpl; set_solver].
    destruct (IHr _ Er) as [Hr|C]; [|right; eapply collision_subset; [..|exact C]; simpl; set_solver].
    left. simpl. by rewrite Hl, Hr.
Qed.

Lemma empty_not_tree t : merkle_empty ≠ mpreimage t.
Proof. destruct t; intros E%app_inv_head; done. Qed.
End merkle.

(** The Merkle root of a batch determines the batch, its length and order
    included: two batches with one root are equal, or a string hashed for the first
    and a string hashed for the second are a collision. *)
Theorem MerkleRoot_binding `{AuditEnv} xs ys :
  MerkleRoot xs = MerkleRoot ys → xs = ys ∨ hash_collision (merkle_hashed xs) (merkle_hashed ys).
Proof.
  intros E. destruct (decide (xs = [])) as [->|Hx], (decide (ys = [])) as [->|Hy]; [by left|..].
  - right. destruct (MerkleRoot_tree ys Hy) as (u & Eu & _ & ->).
    exists merkle_empty, (mpreimage u). split_and!; [by left|apply mpreimage_in|apply empty_not_tree|].
    by rewrite Eu in E.
  - right. destruct (MerkleRoot_tree xs Hx) as (u & Eu & _ & ->).
    exists (mpreimage u), merkle_empty. split_and!; [apply mpreimage_in|by left|apply not_eq_sym, empty_not_tree|].
    by rewrite Eu in E.
  - destruct (MerkleRoot_tree xs Hx) as (t & Et & <- & ->), (MerkleRoot_tree ys Hy) as (u & Eu & <- & ->).
    apply mtree_binding. congruence.
Qed.
