(* ===== verification/AuditWriter.v ===== *)
(** * The audit writer

    Models the writing half of internal/store/audit.go: claiming a segment,
    appending inside a transaction, the head that advances only on an observed
    commit, the conflict a lost commit leaves behind and its reconciliation.

    A writer runs against a database other sessions use too, over a connection that
    can fail: each statement or transaction takes the next step of a schedule, which
    says what the others did just before it, whether it fails, before or after it
    took effect, and what the clock shows when a row is stamped.  The closure of
    [InTx] is a program whose only access to the log is [Appender.Append]; whatever
    else it writes lands or is lost with the same transaction. *)
From Stdlib Require Import Ascii NArith.
From S2P Require Import Prelude GoLib Json Store World AuditChain.

(** ** The database *)

(** A row of audit_writers. *)
Record WriterRow := mkWriterRow { wr_lock_key : Z; wr_instance : string; wr_released : bool }.

(** The log, the claims, and the session that holds each advisory lock. *)
Record ADB := mkADB { a_log : Log; a_writers : gmap string WriterRow; a_locks : gmap Z nat }.

Definition with_log (log : Log) (db : ADB) : ADB := mkADB log (a_writers db) (a_locks db).
Definition with_writers (f : gmap string WriterRow → gmap string WriterRow) (db : ADB) : ADB :=
  mkADB (a_log db) (f (a_writers db)) (a_locks db).
Definition with_locks (f : gmap Z nat → gmap Z nat) (db : ADB) : ADB :=
  mkADB (a_log db) (a_writers db) (f (a_locks db)).

(** [as_clock n] is the clock as the row numbered [n] is stamped. *)
Record astep := mkAStep { as_env : ADB → ADB; as_fault : fault; as_clock : Z → Time.t }.

Definition quiet : astep := mkAStep (λ db, db) NoFault (λ _, 0%Z).

Record AuditWriter := mkWriter {
  aw_id : string; aw_lockKey : Z; aw_conn : nat;
  aw_headSeq : Z; aw_headHash : bytes; aw_broken : bool; aw_closed : bool }.

Definition set_head (n : Z) (h : bytes) (w : AuditWriter) : AuditWriter :=
  mkWriter (aw_id w) (aw_lockKey w) (aw_conn w) n h (aw_broken w) (aw_closed w).
Definition set_broken (b : bool) (w : AuditWriter) : AuditWriter :=
  mkWriter (aw_id w) (aw_lockKey w) (aw_conn w) (aw_headSeq w) (aw_headHash w) b (aw_closed w).
Definition set_closed (w : AuditWriter) : AuditWriter :=
  mkWriter (aw_id w) (aw_lockKey w) (aw_conn w) (aw_headSeq w) (aw_headHash w) (aw_broken w) true.

(** The state a method of the writer runs in. *)
Record AState := mkAState { st_w : AuditWriter; st_db : ADB; st_steps : list astep }.

Definition AM (A : Type) : Type := AState → result A * AState.

Definition aret {A} (a : A) : AM A := λ s, (Ok a, s).
Definition athrow {A} (e : error) : AM A := λ s, (Err e, s).
Definition abind {A B} (m : AM A) (k : A → AM B) : AM B := λ s,
  match m s with (Ok a, s') => k a s' | (Err e, s') => (Err e, s') end.

Notation "'let@' x ':=' m 'in' k" := (abind m (fun x => k))
  (at level 10, x name, m at level 100, k at level 200) : stamp_scope.

Definition get_writer : AM AuditWriter := λ s, (Ok (st_w s), s).
Definition put_writer (f : AuditWriter → AuditWriter) : AM unit := λ s,
  (Ok tt, mkAState (f (st_w s)) (st_db s) (st_steps s)).

Definition next_astep (s : AState) : astep * list astep :=
  match st_steps s with [] => (quiet, []) | a :: l => (a, l) end.

(** One statement outside a transaction. *)
Definition stmt {A} (op : ADB → result (A * ADB)) : AM A := λ s,
  let '(a, rest) := next_astep s in
  let db := as_env a (st_db s) in
  match as_fault a with
  | Lost => (Err [ErrDatabase], mkAState (st_w s) db rest)
  | f =>
      match op db with
      | Err e => (Err e, mkAState (st_w s) db rest)
      | Ok (x, db') => (match f with LostReply => Err [ErrDatabase] | _ => Ok x end, mkAState (st_w s) db' rest)
      end
  end.

(** ** Entries *)

(** The value handed over as payload: nil, a document, or one [json.Marshal]
    refuses. *)
Inductive payload := PNil | PDoc (j : json) | PUnmarshalable.

Record Entry := mkEntry { e_Kind : string; e_Subject : string; e_Payload : payload }.

Definition AuditKindWriterReconciled : string := "audit.writer.reconciled".
Definition AuditKindCheckBatch : string := "check.batch".
Definition AuditKindCheckGap : string := "check.gap".

Definition canonical_payload (p : payload) : result json :=
  match p with
  | PNil => Ok (JObj [])
  | PUnmarshalable => Err []
  | PDoc j => match canonicalJSONBytes j with Some c => Ok c | None => Err [] end
  end.

(** ** Appending inside a transaction *)

Record Appender := mkAppender { ap_seq : Z; ap_prev : bytes; ap_staged : list AuditRecord }.

(** The open transaction: the log as it sees it, whether a failed statement has
    aborted it, the appender, and the flag the writer keeps whatever happens to the
    transaction. *)
Record tx := mkTx { tx_log : Log; tx_aborted : bool; tx_ap : Appender; tx_broken : bool }.

Definition same_key (w : string) (n : Z) (r : Row) : bool :=
  bool_decide (w_WriterID r = w) && bool_decide (w_Seq r = n).

Section writer.
Context `{AuditEnv}.

Definition new_record (id : string) (a : Appender) (kind subject : string) (doc : json) (now : Time.t) : AuditRecord :=
  let rec_ h := mkRecord id (ap_seq a + 1) (ap_prev a) h kind subject (json_text doc) (Time.trunc_us now) in
  rec_ (recordHash (rec_ zeroHash)).

Definition row_of (r : AuditRecord) (doc : json) : Row :=
  mkRow (r_WriterID r) (r_Seq r) (r_PrevHash r) (r_Hash r) (r_Kind r) (r_Subject r) (jsonb doc) (r_RecordedAt r).

Definition row_checks (r : Row) : bool :=
  (0 <? w_Seq r)%Z && bool_decide (length (w_Hash r) = 32) && bool_decide (length (w_PrevHash r) = 32).

Definition abort (t : tx) : tx := mkTx (tx_log t) true (tx_ap t) (tx_broken t).

Definition append_entry (id : string) (clock : Z → Time.t) (e : Entry) (t : tx) : result AuditRecord * tx :=
  match canonical_payload (e_Payload e) with
  | Err err => (Err err, t)
  | Ok doc =>
      if bool_decide (e_Kind e = "") then (Err [], t)
      else
        let a := tx_ap t in
        let rec_ := new_record id a (e_Kind e) (e_Subject e) doc (clock (ap_seq a + 1)%Z) in
        let row := row_of rec_ doc in
        if tx_aborted t || negb (row_checks row) then (Err [], abort t)
        else if existsb (same_key id (w_Seq row)) (tx_log t)
        then (Err [ErrChainConflict], mkTx (tx_log t) true a true)
        else (Ok rec_, mkTx (tx_log t ++ [row]) false
                         (mkAppender (r_Seq rec_) (r_Hash rec_) (ap_staged a ++ [rec_])) (tx_broken t))
  end.

(** [Appender.Append]: an error leaves what was staged before it. *)
Fixpoint Appender_Append (id : string) (clock : Z → Time.t) (es : list Entry) (t : tx) : result (list AuditRecord) * tx :=
  match es with
  | [] => (Ok [], t)
  | e :: es =>
      match append_entry id clock e t with
      | (Err err, t') => (Err err, t')
      | (Ok r, t') =>
          match Appender_Append id clock es t' with
          | (Err err, t'') => (Err err, t'')
          | (Ok rs, t'') => (Ok (r :: rs), t'')
          end
      end
  end.

(** ** Transactions *)

(** The closure handed to [InTx]. *)
Inductive prog :=
  | PDone (r : result unit)
  | PAppend (es : list Entry) (k : result (list AuditRecord) → prog).

Fixpoint run_prog (id : string) (clock : Z → Time.t) (p : prog) (t : tx) : result unit * tx :=
  match p with
  | PDone r => (r, t)
  | PAppend es k => let '(r, t') := Appender_Append id clock es t in run_prog id clock (k r) t'
  end.

(** The head after the commit. *)
Definition advance_head (staged : list AuditRecord) (w : AuditWriter) : AuditWriter :=
  match last staged with Some r => set_head (r_Seq r) (r_Hash r) w | None => w end.

Definition inTxLocked (p : prog) : AM unit := λ s,
  let '(a, rest) := next_astep s in
  let db := as_env a (st_db s) in
  let w := st_w s in
  match as_fault a with
  | Lost => (Err [ErrDatabase], mkAState w db rest)
  | f =>
      let t0 := mkTx (a_log db) false (mkAppender (aw_headSeq w) (aw_headHash w) []) (aw_broken w) in
      let '(r, t) := run_prog (aw_id w) (as_clock a) p t0 in
      let w' := set_broken (tx_broken t) w in
      match r with
      | Err e => (Err e, mkAState w' db rest)
      | Ok _ =>
          if tx_aborted t then (Err [], mkAState w' db rest)
          else match f with
          | LostReply => (Err [ErrDatabase], mkAState w' (with_log (tx_log t) db) rest)
          | _ => (Ok tt, mkAState (advance_head (ap_staged (tx_ap t)) w') (with_log (tx_log t) db) rest)
          end
      end
  end.

(** ** Claiming and reading the head *)

Definition is_alnum (a : ascii) : bool :=
  let n := N_of_ascii a in
  ((48 <=? n)%N && (n <=? 57)%N) || ((65 <=? n)%N && (n <=? 90)%N) || ((97 <=? n)%N && (n <=? 122)%N).

(** [writerIDPattern]. *)
Definition writerID_ok (id : string) : bool :=
  match String.list_ascii_of_string id with
  | [] => false
  | a :: l => is_alnum a && (length l <=? 63)%nat &&
              forallb (λ c, is_alnum c || bool_decide (c ∈ ["."; "_"; "-"]%char)) l
  end.

(** fnv-1a, 64 bits, read as a signed integer. *)
Definition fnv64a (b : bytes) : Z :=
  foldl (λ h c, (Z.lxor h (Z.of_N (N_of_ascii c)) * 1099511628211) mod 2 ^ 64)%Z 14695981039346656037%Z b.
Definition advisoryKey (name : string) : Z :=
  let h := fnv64a (of_string name) in if (h <? 2 ^ 63)%Z then h else (h - 2 ^ 64)%Z.

Definition head_row (id : string) (log : Log) : option Row := last (segment id log).

Definition reloadHeadLocked : AM unit :=
  let@ w := get_writer in
  let@ h := stmt (λ db, Ok (head_row (aw_id w) (a_log db), db)) in
  match h with
  | None => put_writer (set_head 0 zeroHash)
  | Some r => if bool_decide (length (w_Hash r) = 32) then put_writer (set_head (w_Seq r) (w_Hash r))
              else athrow [ErrChainBroken]
  end.

Definition ReloadHead : AM unit :=
  let@ _ := reloadHeadLocked in put_writer (set_broken false).

Definition unlock (key : Z) (session : nat) (db : ADB) : ADB :=
  with_locks (λ l, if bool_decide (l !! key = Some session) then delete key l else l) db.

(** The claim upsert: a second writer id with the same lock key is refused. *)
Definition record_claim (id : string) (key : Z) (instance : string) (db : ADB) : result (unit * ADB) :=
  if existsb (λ p, negb (bool_decide (p.1 = id)) && bool_decide (wr_lock_key p.2 = key)) (map_to_list (a_writers db))
  then Err []
  else Ok (tt, with_writers (λ ws, <[id := mkWriterRow (match ws !! id with Some r => wr_lock_key r | None => key end) instance false]> ws) db).

(** The failures after the lock was taken release it. *)
Definition or_unlock {A} (m : AM A) : AM A := λ s,
  match m s with
  | (Ok a, s') => (Ok a, s')
  | (Err e, s') =>
      (Err e, (stmt (λ db, Ok (tt, unlock (aw_lockKey (st_w s')) (aw_conn (st_w s')) db)) s').2)
  end.

(** [ClaimWriter] on a session of its own; the writer it returns is the one left in
    the state. *)
Definition ClaimWriter (id instance : string) (session : nat) : AM unit :=
  if negb (writerID_ok id) then athrow []
  else
    let key := advisoryKey ("stamp:audit-writer:" +:+ id) in
    let@ got := stmt (λ db,
      match a_locks db !! key with
      | Some s => Ok (bool_decide (s = session), db)
      | None => Ok (true, with_locks (<[key := session]>) db)
      end) in
    if negb got then athrow [ErrWriterTaken]
    else
      let@ _ := put_writer (λ _, mkWriter id key session 0 zeroHash false false) in
      let@ _ := or_unlock (stmt (record_claim id key instance)) in
      or_unlock reloadHeadLocked.

(** [Close] reports the first of its failures and attempts both statements. *)
Definition Close : AM unit := λ s,
  if aw_closed (st_w s) then (Ok tt, s)
  else
    let w := st_w s in
    let '(r1, s1) := stmt (λ db, Ok (tt, with_writers (alter (λ r, mkWriterRow (wr_lock_key r) (wr_instance r) true) (aw_id w)) db))
                       (mkAState (set_closed w) (st_db s) (st_steps s)) in
    let '(r2, s2) := stmt (λ db, Ok (tt, unlock (aw_lockKey w) (aw_conn w) db)) s1 in
    (match r1 with Err e => Err e | Ok _ => r2 end, s2).

Definition verifyHoldLocked : AM unit :=
  let@ w := get_writer in
  if aw_closed w then athrow []
  else
    let@ held := stmt (λ db, Ok (bool_decide (a_locks db !! aw_lockKey w = Some (aw_conn w)), db)) in
    if held then aret tt else athrow [ErrWriterTaken].

(** ** Reconciliation *)

Definition maxReconcilableDrift : nat := 1024.

(** A row of the tail as [readTail] scans it. *)
Definition scan_tail (r : Row) : result AuditRecord :=
  if negb (bool_decide (length (w_PrevHash r) = 32) && bool_decide (length (w_Hash r) = 32)) then Err [ErrUnreconciled]
  else match canonicalJSONBytes (w_Payload r) with
  | None => Err [ErrUnreconciled]
  | Some c => Ok (mkRecord (w_WriterID r) (w_Seq r) (w_PrevHash r) (w_Hash r) (w_Kind r) (w_Subject r)
                    (json_text c) (w_RecordedAt r))
  end.

Definition readTail (seq : Z) : AM (list AuditRecord) :=
  let@ w := get_writer in
  stmt (λ db, let? l := res_map scan_tail
                 (take (maxReconcilableDrift + 1) (filter (λ r, (seq < w_Seq r)%Z) (segment (aw_id w) (a_log db)))) in
              Ok (l, db)).

(** Every row ahead of the believed head re-chains from it. *)
Fixpoint rechains (prev : bytes) (expected : Z) (tail : list AuditRecord) : bool :=
  match tail with
  | [] => true
  | r :: tail =>
      bool_decide (r_Seq r = expected) && bool_decide (r_PrevHash r = prev) &&
      bool_decide (recordHash r = r_Hash r) && rechains (r_Hash r) (r_Seq r + 1) tail
  end.

Definition reconcile_entry (id : string) (believedSeq : Z) (believedHash : bytes) (adopted : AuditRecord) (n : nat) : Entry :=
  mkEntry AuditKindWriterReconciled id (PDoc (JObj
    [("believed_seq", JInt believedSeq); ("believed_hash", JStr (hex believedHash));
     ("adopted_seq", JInt (r_Seq adopted)); ("adopted_hash", JStr (hex (r_Hash adopted)));
     ("adopted_rows", JInt (Z.of_nat n)); ("reason", JStr "rows committed without the commit being observed")])).

(** The closure that appends and returns what appending returned. *)
Definition append_only (es : list Entry) : prog :=
  PAppend es (λ r, PDone (match r with Ok _ => Ok tt | Err e => Err e end)).

(** Run, and on failure put the head back. *)
Definition or_restore (n : Z) (h : bytes) (m : AM unit) : AM unit := λ s,
  match m s with
  | (Ok a, s') => (Ok a, s')
  | (Err e, s') => (Err e, (put_writer (set_head n h) s').2)
  end.

Definition wrap_error {A} (e : error) (m : AM A) : AM A := λ s,
  match m s with (Ok a, s') => (Ok a, s') | (Err e', s') => (Err (e ++ e'), s') end.

Definition reconcileLocked : AM unit :=
  let@ w := get_writer in
  let '(believedSeq, believedHash) := (aw_headSeq w, aw_headHash w) in
  let@ _ := wrap_error [ErrUnreconciled] verifyHoldLocked in
  let@ tail := readTail believedSeq in
  match last tail with
  | None => athrow [ErrUnreconciled]
  | Some adopted =>
      if (maxReconcilableDrift <? length tail)%nat then athrow [ErrUnreconciled]
      else if negb (rechains believedHash (believedSeq + 1) tail) then athrow [ErrUnreconciled]
      else
        let@ _ := put_writer (set_head (r_Seq adopted) (r_Hash adopted)) in
        let@ _ := or_restore believedSeq believedHash
                    (inTxLocked (append_only [reconcile_entry (aw_id w) believedSeq believedHash adopted (length tail)])) in
        put_writer (set_broken false)
  end.

(** ** The entry points *)

Definition AuditWriter_InTx (p : prog) : AM unit :=
  let@ w := get_writer in
  if aw_closed w then athrow []
  else
    let@ _ := if aw_broken w then wrap_error [ErrChainConflict] reconcileLocked else aret tt in
    inTxLocked p.

(** The records an append returns are those the transaction staged. *)
Definition appendOnce (es : list Entry) : AM unit := AuditWriter_InTx (append_only es).

Definition AuditWriter_Append (es : list Entry) : AM unit := λ s,
  match appendOnce es s with
  | (Err e, s') => if errors_Is e ErrChainConflict then appendOnce es s' else (Err e, s')
  | r => r
  end.

Record CheckBatch := mkCheckBatch { cb_From : Time.t; cb_To : Time.t; cb_Count : Z; cb_Root : bytes; cb_Digest : string }.

Definition AppendCheckBatch (b : CheckBatch) : AM unit :=
  AuditWriter_Append [mkEntry AuditKindCheckBatch "" (PDoc (JObj
    [("from", JTime (cb_From b)); ("to", JTime (cb_To b)); ("count", JInt (cb_Count b));
     ("root", JStr (hex (cb_Root b))); ("digest", JStr (cb_Digest b))]))].

Record CheckGap := mkCheckGap { cg_From : Time.t; cg_To : Time.t; cg_Dropped : Z; cg_Reason : string }.

Definition AppendCheckGap (g : CheckGap) : AM unit :=
  AuditWriter_Append [mkEntry AuditKindCheckGap "" (PDoc (JObj
    [("from", JTime (cg_From g)); ("to", JTime (cg_To g)); ("dropped", JInt (cg_Dropped g));
     ("reason", JStr (cg_Reason g))]))].

End writer.
