(* ===== verification/AuditLog.v ===== *)
(** * The audit writer implements an append-only log

    The promise the rest of the program builds on (Store.v models an audit write as
    appending an entry to a list) and its proof for the writer of AuditWriter.v:
    whatever its commits do, the segment stays a chain, an acknowledged append is in
    the log once, one that failed is there once or not at all, and nothing else is
    added but the marker of a reconciliation. *)
From S2P Require Import Prelude GoLib Json Store World AuditChain AuditWriter.

(** ** Segments of a growing log *)

Lemma segment_eq w log : segment w log = sort_by w_Seq Z.le (filter (λ r, w_WriterID r = w) log).
Proof. unfold segment, ordered. rewrite (sort_by_filter w_WriterID String.le). apply (filter_sort_by w_Seq Z.le); apply _. Qed.

Lemma segment_snoc_other w log r : w_WriterID r ≠ w → segment w (log ++ [r]) = segment w log.
Proof. intros Hw. by rewrite !segment_eq, filter_app, (filter_cons_False _ r), app_nil_r. Qed.

Lemma segment_elem w log r : r ∈ segment w log ↔ r ∈ log ∧ w_WriterID r = w.
Proof. unfold segment. rewrite list_elem_of_filter, elem_of_ordered. tauto. Qed.

Lemma segment_snoc_same w log r :
  w_WriterID r = w → (∀ x, x ∈ segment w log → (w_Seq x < w_Seq r)%Z) →
  segment w (log ++ [r]) = segment w log ++ [r].
Proof.
  intros Hw Hlt. rewrite !segment_eq, filter_app, (filter_cons_True _ r), filter_nil by done.
  apply (sort_by_snoc w_Seq Z.le). intros y Hy Hle.
  assert (y ∈ segment w log) as Hs%Hlt by (rewrite segment_eq, elem_of_sort_by; done). lia.
Qed.

Definition tip (p : bytes) (s : list Row) : bytes := default p (w_Hash <$> last s).

(** The entries a list of rows records. *)
Definition entry_of (r : Row) : AuditEntry := mkAudit (w_Kind r) (w_Subject r) (canonical (w_Payload r)).

Definition entries (w : string) (log : Log) : list AuditEntry := map entry_of (segment w log).

Section chains.
Context `{AuditEnv}.

Lemma chained_app n p s1 s2 :
  chained n p (s1 ++ s2) ↔ chained n p s1 ∧ chained (n + Z.of_nat (length s1)) (tip p s1) s2.
Proof.
  revert n p. induction s1 as [|r s IH]; intros n p; simpl.
  { unfold tip. simpl. rewrite Z.add_0_r. tauto. }
  rewrite IH. replace (n + 1 + Z.of_nat (length s))%Z with (n + Z.of_nat (S (length s)))%Z by lia.
  assert (tip (w_Hash r) s = tip p (r :: s)) as -> by (unfold tip; rewrite last_cons; by destruct (last s)). tauto.
Qed.

Lemma zeroHash_length : length zeroHash = 32.
Proof. apply length_replicate. Qed.

Lemma chained_take k n p s : chained n p s → chained n p (take k s).
Proof. rewrite <-(take_drop k s) at 1. rewrite chained_app. tauto. Qed.

Lemma tip_length n p s : length p = 32 → chained n p s → length (tip p s) = 32.
Proof.
  intros Hl Hch. unfold tip. destruct (last s) as [r|] eqn:E; simpl; [|done].
  rewrite last_lookup in E. destruct (chained_lookup _ _ _ _ _ Hch E) as (_ & -> & _). apply recordHash_length.
Qed.

(** A believed head: some point of the segment. *)
Definition at_point (s : list Row) (n : Z) (h : bytes) : Prop :=
  ∃ k, k ≤ length s ∧ n = Z.of_nat k ∧ h = tip zeroHash (take k s).

Lemma at_point_tip s : at_point s (Z.of_nat (length s)) (tip zeroHash s).
Proof. exists (length s). by rewrite take_ge. Qed.

Lemma at_point_length s n h : chained 1 zeroHash s → at_point s n h → length h = 32.
Proof.
  intros Hch (k & _ & _ & ->). eapply tip_length; [apply length_replicate|]. by apply chained_take.
Qed.

Lemma chained_seq_bound s r : chained 1 zeroHash s → r ∈ s → (1 <= w_Seq r <= Z.of_nat (length s))%Z.
Proof.
  intros Hch [i Hi]%list_elem_of_lookup. destruct (chained_lookup _ _ _ _ _ Hch Hi) as (-> & _).
  apply lookup_lt_Some in Hi. lia.
Qed.

Lemma key_taken_iff id log n :
  chained 1 zeroHash (segment id log) →
  existsb (same_key id n) log = true ↔ (1 <= n <= Z.of_nat (length (segment id log)))%Z.
Proof.
  intros Hch. rewrite existsb_true. unfold same_key. split.
  - intros (r & Hr & [Hw%bool_decide_eq_true Hs%bool_decide_eq_true]%andb_true_iff). rewrite <-Hs.
    apply chained_seq_bound; [done|]. by apply segment_elem.
  - intros Hn. destruct (lookup_lt_is_Some_2 (segment id log) (Z.to_nat (n - 1))) as [r Hr]; [lia|].
    destruct (chained_lookup _ _ _ _ _ Hch Hr) as (Hs & _).
    apply list_elem_of_lookup_2, segment_elem in Hr as [Hr Hw]. exists r. split; [done|].
    rewrite !bool_decide_eq_true_2; [done|lia|done].
Qed.

(** ** Inside a transaction *)

(** The entry an append asks for, when it is one the appender takes. *)
Definition abstract_entry (e : Entry) : option AuditEntry :=
  match canonical_payload (e_Payload e) with
  | Ok doc => if bool_decide (e_Kind e = "") then None else Some (mkAudit (e_Kind e) (e_Subject e) doc)
  | Err _ => None
  end.

Record tx_inv (id : string) (log0 : Log) (n0 : Z) (h0 : bytes) (t : tx) : Prop := {
  ti_chain : chained 1 zeroHash (segment id (tx_log t));
  ti_point : at_point (segment id (tx_log t)) (ap_seq (tx_ap t)) (ap_prev (tx_ap t));
  ti_head : match last (ap_staged (tx_ap t)) with
            | None => tx_log t = log0 ∧ ap_seq (tx_ap t) = n0 ∧ ap_prev (tx_ap t) = h0
            | Some r => r_Seq r = ap_seq (tx_ap t) ∧ r_Hash r = ap_prev (tx_ap t) ∧
                        ap_seq (tx_ap t) = Z.of_nat (length (segment id (tx_log t)))
            end;
  ti_grows : ∃ new, segment id (tx_log t) = segment id log0 ++ new;
  ti_others : ∀ w, w ≠ id → segment w (tx_log t) = segment w log0 }.

Lemma canonical_payload_stored p doc :
  canonical_payload p = Ok doc → canonical doc = doc ∧ decodable doc = true.
Proof.
  destruct p as [|j|]; simpl; [by intros [= <-]| |done].
  unfold canonicalJSONBytes. destruct (decodable j) eqn:E; [|done]. intros [= <-].
  split; [apply canonical_idemp|]. by apply decodable_canonical.
Qed.

(** A row written with the tip of a chain extends it. *)
Lemma new_row_chained id a kind subject doc now log :
  chained 1 zeroHash (segment id log) →
  ap_seq a = Z.of_nat (length (segment id log)) → ap_prev a = tip zeroHash (segment id log) →
  canonical doc = doc → decodable doc = true →
  let row := row_of (new_record id a kind subject doc now) doc in
  segment id (log ++ [row]) = segment id log ++ [row] ∧ chained 1 zeroHash (segment id (log ++ [row])).
Proof.
  intros Hch Hseq Hprev Hcan Hdec row.
  assert (segment id (log ++ [row]) = segment id log ++ [row]) as E.
  { apply segment_snoc_same; [done|]. intros x Hx. apply chained_seq_bound in Hx; [|done]. simpl. lia. }
  split; [done|]. rewrite E, chained_app. split; [done|]. simpl.
  assert (is_Some (canonicalJSONBytes (jsonb doc))) as Hj.
  { unfold canonicalJSONBytes. rewrite jsonb_decodable, Hdec. eauto. }
  split_and!; [lia|done|done| |done].
  unfold recordHash, record_preimage. simpl. do 2 f_equal.
  assert (length (ap_prev a) = 32) as Hl.
  { rewrite Hprev. eapply tip_length; [apply length_replicate|done]. }
  rewrite (copy32_full _ _ Hl). unfold payload_bytes, canonicalJSONBytes.
  by rewrite jsonb_decodable, Hdec, jsonb_canonical, Hcan.
Qed.

Lemma append_entry_spec id log0 n0 h0 clock e t :
  tx_inv id log0 n0 h0 t →
  match append_entry id clock e t with
  | (Ok r, t') =>
      tx_inv id log0 n0 h0 t' ∧ tx_aborted t' = false ∧ tx_aborted t = false ∧ tx_broken t' = tx_broken t ∧
      ∃ ae, abstract_entry e = Some ae ∧ entries id (tx_log t') = entries id (tx_log t) ++ [ae]
  | (Err err, t') =>
      tx_inv id log0 n0 h0 t' ∧ tx_log t' = tx_log t ∧ tx_ap t' = tx_ap t ∧
      (tx_aborted t' = false → t' = t ∧ abstract_entry e = None) ∧
      (tx_broken t' = true → tx_broken t = true ∨ (n0 < Z.of_nat (length (segment id log0)))%Z) ∧
      (errors_Is err ErrChainConflict = true → tx_broken t' = true)
  end.
Proof.
  intros Hi. unfold append_entry, abstract_entry. destruct (canonical_payload (e_Payload e)) as [doc|err] eqn:Ep.
  2:{ split_and!; try done; [auto|]. destruct (e_Payload e); simpl in Ep; try done; [|by injection Ep as <-].
      case_match; simplify_eq. done. }
  case_bool_decide as Hk. { split_and!; try done. auto. }
  destruct (canonical_payload_stored _ _ Ep) as [Hcan Hdec].
  set (row := row_of _ doc). destruct (tx_aborted t) eqn:Ea; simpl.
  { split_and!; try done; [by destruct Hi|auto]. }
  destruct (row_checks row) eqn:Er; simpl; [|split_and!; try done; [by destruct Hi|auto]].
  pose proof Hi as [Hch Hpt Hhd [new Hgr] Hot]. pose proof Hpt as (k & Hk' & Hseq & Hprev).
  destruct (existsb (same_key id (ap_seq (tx_ap t) + 1)) (tx_log t)) eqn:Ex.
  { apply key_taken_iff in Ex; [|done]. split_and!; try done; [by destruct Hi|]. intros _. right. simpl in Ex.
    destruct (last (ap_staged (tx_ap t))); [lia|]. destruct Hhd as (Hlog & Hn & _). rewrite Hlog in Ex. lia. }
  assert (k = length (segment id (tx_log t))) as ->.
  { destruct (decide (k = length (segment id (tx_log t)))) as [|Hne]; [done|].
    assert (existsb (same_key id (ap_seq (tx_ap t) + 1)) (tx_log t) = true) as E'; [|congruence].
    apply key_taken_iff; [done|]. lia. }
  rewrite take_ge in Hprev by lia.
  destruct (new_row_chained id (tx_ap t) (e_Kind e) (e_Subject e) doc (clock (ap_seq (tx_ap t) + 1)%Z) (tx_log t))
    as [Eseg Hch']; try done. fold row in Eseg, Hch'.
  split_and!; try done.
  - split; simpl; [done| | |exists (new ++ [row]); by rewrite Eseg, Hgr, (assoc_L (++))|].
    + rewrite Eseg. exists (S (length (segment id (tx_log t)))). rewrite length_app. simpl. split_and!; [lia|lia|].
      rewrite take_ge by (rewrite length_app; simpl; lia). unfold tip. by rewrite last_snoc.
    + rewrite last_snoc, Eseg, length_app. simpl. split_and!; [done|done|lia].
    + intros w Hw. rewrite segment_snoc_other by done. by apply Hot.
  - eexists. split; [done|]. unfold entries. simpl. rewrite Eseg, map_app. simpl. do 3 f_equal.
    unfold entry_of. simpl. f_equal. by rewrite jsonb_canonical.
Qed.

Lemma Appender_Append_spec id log0 n0 h0 clock es t :
  tx_inv id log0 n0 h0 t →
  let '(r, t') := Appender_Append id clock es t in
  tx_inv id log0 n0 h0 t' ∧ (tx_aborted t' = false → tx_aborted t = false ∧ tx_broken t' = tx_broken t) ∧
  (tx_broken t' = true → tx_broken t = true ∨ (n0 < Z.of_nat (length (segment id log0)))%Z) ∧
  match r with
  | Ok _ => ∃ aes, mapM abstract_entry es = Some aes ∧ entries id (tx_log t') = entries id (tx_log t) ++ aes
  | Err e => (errors_Is e ErrChainConflict = true → tx_broken t' = true) ∧
      (tx_aborted t' = false →
        ∃ good bad rest aes, es = good ++ bad :: rest ∧ mapM abstract_entry good = Some aes ∧
          abstract_entry bad = None ∧ entries id (tx_log t') = entries id (tx_log t) ++ aes)
  end.
Proof.
  revert t. induction es as [|e es IH]; intros t Hi; simpl.
  { split_and!; auto. exists []. by rewrite app_nil_r. }
  pose proof (append_entry_spec id log0 n0 h0 clock e t Hi) as Hs.
  destruct (append_entry id clock e t) as [[r|err] t'].
  - destruct Hs as (Hi' & Ha' & Ha & Hb & ae & Hae & Hen). specialize (IH t' Hi').
    destruct (Appender_Append id clock es t') as [[rs|err] t'']; destruct IH as (Hi'' & Ha'' & Hb'' & IH).
    + split_and!; [done|naive_solver|by rewrite <-Hb|]. destruct IH as (aes & Hm & Hen'). exists (ae :: aes).
      rewrite Hae, Hm, Hen', Hen, <-(assoc_L (++)). done.
    + destruct IH as [Hc IH]. split_and!; [done|naive_solver|by rewrite <-Hb|done|].
      intros Hab. destruct (IH Hab) as (good & bad & rest & aes & -> & Hm & Hbad & Hen').
      exists (e :: good), bad, rest, (ae :: aes). split_and!; [done| |done|].
      * simpl. by rewrite Hae, Hm.
      * rewrite Hen', Hen, <-(assoc_L (++)). done.
  - destruct Hs as (Hi' & Hlog & Hap & Hab & Hb & Hc). split_and!; [done| |done|done|].
    + intros Ha'. by destruct (Hab Ha') as [-> _].
    + intros Ha'. destruct (Hab Ha') as [-> Hnone]. exists [], e, es, []. split_and!; [done..|]. by rewrite app_nil_r.
Qed.

(** ** What a closure adds when it commits *)

Inductive emits : prog → list AuditEntry → Prop :=
  | emits_done : emits (PDone (Ok tt)) []
  | emits_append es k rs aes rest :
      mapM abstract_entry es = Some aes → emits (k (Ok rs)) rest → emits (PAppend es k) (aes ++ rest)
  | emits_refused good bad es k e aes rest :
      mapM abstract_entry good = Some aes → abstract_entry bad = None → emits (k (Err e)) rest →
      emits (PAppend (good ++ bad :: es) k) (aes ++ rest).

Lemma run_prog_spec id log0 n0 h0 clock p t :
  tx_inv id log0 n0 h0 t →
  let '(r, t') := run_prog id clock p t in
  tx_inv id log0 n0 h0 t' ∧ (tx_aborted t' = false → tx_aborted t = false ∧ tx_broken t' = tx_broken t) ∧
  (tx_broken t' = true → tx_broken t = true ∨ (n0 < Z.of_nat (length (segment id log0)))%Z) ∧
  (r = Ok tt → tx_aborted t' = false → ∃ es, emits p es ∧ entries id (tx_log t') = entries id (tx_log t) ++ es).
Proof.
  revert t. induction p as [r|es k IH]; intros t Hi; simpl.
  { split_and!; auto. intros -> _. exists []. rewrite app_nil_r. split; [constructor|done]. }
  pose proof (Appender_Append_spec id log0 n0 h0 clock es t Hi) as Hs.
  destruct (Appender_Append id clock es t) as [r t']. destruct Hs as (Hi' & Ha' & Hb' & Hr).
  specialize (IH r t' Hi'). destruct (run_prog id clock (k r) t') as [r' t'']. destruct IH as (Hi'' & Ha'' & Hb'' & IH).
  split_and!; [done|naive_solver|naive_solver|]. intros Hok Hab. destruct (IH Hok Hab) as (rest & Hem & Hen).
  destruct r as [rs|e].
  - destruct Hr as (aes & Hm & Hen'). exists (aes ++ rest). split; [by econstructor|].
    by rewrite Hen, Hen', (assoc_L (++)).
  - destruct Hr as [_ Hr]. destruct (Hr (proj1 (Ha'' Hab))) as (good & bad & tl & aes & -> & Hm & Hbad & Hen').
    exists (aes ++ rest). split; [by econstructor|]. by rewrite Hen, Hen', (assoc_L (++)).
Qed.

(** ** The writer between transactions *)

(** The claim keeps every other session off the writer's segment. *)
Definition exclusive (id : string) (a : astep) : Prop :=
  ∀ db, segment id (a_log (as_env a db)) = segment id (a_log db).

Definition seg (id : string) (s : AState) : list Row := segment id (a_log (st_db s)).

Record winv (id : string) (s : AState) : Prop := {
  wi_id : aw_id (st_w s) = id;
  wi_chain : chained 1 zeroHash (seg id s);
  wi_point : at_point (seg id s) (aw_headSeq (st_w s)) (aw_headHash (st_w s));
  wi_env : Forall (exclusive id) (st_steps s) }.

(** The writer has not seen the last rows of its own segment. *)
Definition behind (id : string) (s : AState) : Prop := (aw_headSeq (st_w s) < Z.of_nat (length (seg id s)))%Z.

Definition log_of (id : string) (s : AState) : list AuditEntry := map entry_of (seg id s).

Lemma next_astep_env id s :
  Forall (exclusive id) (st_steps s) →
  exclusive id (next_astep s).1 ∧ Forall (exclusive id) (next_astep s).2.
Proof.
  unfold next_astep. destruct (st_steps s); simpl; [done|]. by intros [? ?]%Forall_cons.
Qed.

Lemma stmt_spec {A} id (op : ADB → result (A * ADB)) s :
  winv id s → (∀ db x db', op db = Ok (x, db') → segment id (a_log db') = segment id (a_log db)) →
  let '(r, s') := stmt op s in
  winv id s' ∧ st_w s' = st_w s ∧ seg id s' = seg id s ∧
  (∀ x, r = Ok x → ∃ db db', segment id (a_log db) = seg id s ∧ op db = Ok (x, db')).
Proof.
  intros [Hid Hch Hpt Henv] Hop. unfold stmt. destruct (next_astep_env id s Henv) as [He Hrest].
  destruct (next_astep s) as [a rest]. simpl in *. specialize (He (st_db s)). fold (seg id s) in He.
  set (db := as_env a (st_db s)) in *.
  assert (∀ db1, segment id (a_log db1) = seg id s → winv id (mkAState (st_w s) db1 rest)) as Hw.
  { intros db1 E. split; unfold seg; simpl; try done; by rewrite E. }
  destruct (as_fault a); [|by split_and!; auto|];
    destruct (op db) as [[x db']|e] eqn:Eo; simpl; split_and!; try done; auto;
    try (apply Hw; by rewrite (Hop _ _ _ Eo)); try (unfold seg; simpl; by rewrite (Hop _ _ _ Eo)).
  - intros y [= <-]. by exists db, db'.
Qed.

Lemma winv_head id s n h :
  winv id s → at_point (seg id s) n h → winv id (mkAState (set_head n h (st_w s)) (st_db s) (st_steps s)).
Proof. intros [] Hp. by split. Qed.

Lemma winv_broken id s b : winv id s → winv id (mkAState (set_broken b (st_w s)) (st_db s) (st_steps s)).
Proof. intros []. by split. Qed.

(** A point of a chain stays one as the chain grows. *)
Lemma at_point_app s s' n h : at_point s n h → at_point (s ++ s') n h.
Proof. intros (k & Hk & -> & ->). exists k. rewrite length_app, take_app_le by lia. split_and!; [lia|done..]. Qed.

Lemma inTxLocked_spec id p s :
  winv id s →
  let '(r, s') := inTxLocked p s in
  winv id s' ∧ aw_closed (st_w s') = aw_closed (st_w s) ∧
  (aw_broken (st_w s) = false → aw_broken (st_w s') = true → behind id s') ∧
  ((∃ e, r = Err e) ∧ seg id s' = seg id s ∨
   ∃ es, emits p es ∧ log_of id s' = log_of id s ++ es ∧ (∃ new, seg id s' = seg id s ++ new) ∧
         (r = Ok tt ∨ r = Err [ErrDatabase])).
Proof.
  intros [Hid Hch Hpt Henv]. unfold inTxLocked. destruct (next_astep_env id s Henv) as [He Hrest].
  destruct (next_astep s) as [a rest]. simpl in *. specialize (He (st_db s)). fold (seg id s) in He.
  set (db := as_env a (st_db s)) in *.
  assert (∀ b, winv id (mkAState (set_broken b (st_w s)) db rest) ∧ seg id (mkAState (set_broken b (st_w s)) db rest) = seg id s) as Hsame.
  { intros b. split; [split; unfold seg; simpl; try done; by rewrite He|done]. }
  set (t0 := mkTx _ _ _ _).
  assert (tx_inv id (a_log db) (aw_headSeq (st_w s)) (aw_headHash (st_w s)) t0) as Hi.
  { split; simpl; [by rewrite He|by rewrite He|done|exists []; by rewrite app_nil_r|done]. }
  pose proof (run_prog_spec id _ _ _ (as_clock a) p t0 Hi) as Hs. rewrite Hid.
  destruct (run_prog id (as_clock a) p t0) as [r t]. destruct Hs as ([Tch Tpt Thd [new Tgr] Toth] & Hab & Hbr & Hem).
  rewrite He in *. simpl in Hab, Hbr, Hem.
  assert (aw_broken (st_w s) = false → tx_broken t = true →
          behind id (mkAState (set_broken (tx_broken t) (st_w s)) db rest)) as Hbehind.
  { intros Hf Ht. destruct (Hbr Ht) as [Ht'|Hlt]; [congruence|]. unfold behind, seg. simpl. by rewrite He. }
  assert (winv id (mkAState (st_w s) db rest)) as Hlost by (destruct (Hsame (aw_broken (st_w s))) as [Hw _]; by destruct (st_w s)).
  destruct r as [[]|e].
  2:{ destruct (as_fault a); (split_and!; [..|left; eauto]); try done; first [apply Hsame|apply Hbehind|simpl; congruence]. }
  destruct (tx_aborted t) eqn:Ea.
  { destruct (as_fault a); (split_and!; [..|left; eauto]); try done; first [apply Hsame|apply Hbehind|simpl; congruence]. }
  destruct (Hem eq_refl eq_refl) as (es & Hes & Hen). destruct (Hab eq_refl) as [_ Hbt]. clear Hem Hab Hbr.
  assert (∀ w', aw_id w' = id → at_point (segment id (tx_log t)) (aw_headSeq w') (aw_headHash w') →
    winv id (mkAState w' (with_log (tx_log t) db) rest)) as Hwin by (intros w' E Hp; by split).
  assert (log_of id (mkAState (st_w s) (with_log (tx_log t) db) rest) = log_of id s ++ es) as Hlog.
  { unfold log_of, seg. simpl. unfold entries in Hen. by rewrite Hen, He. }
  destruct (as_fault a).
  - split_and!.
    + apply Hwin; [unfold advance_head; by case_match|]. unfold advance_head. simpl in Thd.
      destruct (last (ap_staged (tx_ap t))) as [rl|]; simpl.
      * destruct Thd as (-> & -> & _). done.
      * rewrite Tgr. by apply at_point_app.
    + unfold advance_head. by case_match.
    + unfold advance_head. simpl. case_match; simpl; congruence.
    + right. exists es. split_and!; [done|done|by exists new|by left].
  - split_and!; [done|done|simpl; congruence|left; eauto].
  - split_and!.
    + apply Hwin; [done|]. simpl. rewrite Tgr. by apply at_point_app.
    + done.
    + simpl. congruence.
    + right. exists es. split_and!; [done|done|by exists new|by right].
Qed.

(** The marker a reconciliation leaves. *)
Definition is_marker (id : string) (e : AuditEntry) : Prop :=
  au_Kind e = AuditKindWriterReconciled ∧ au_Subject e = id.

Lemma emits_append_only es aes : emits (append_only es) aes → mapM abstract_entry es = Some aes.
Proof.
  inversion 1 as [|? ? rs aes' rest Hm Hr|? ? ? ? ? ? rest Hg Hb Hr]; simplify_eq.
  - inversion Hr; subst. by rewrite app_nil_r.
  - inversion Hr.
Qed.

Lemma reconcile_entry_marker id n h r k ae :
  abstract_entry (reconcile_entry id n h r k) = Some ae → is_marker id ae.
Proof.
  unfold abstract_entry. destruct (canonical_payload _); [|done]. simpl.
  by intros [= <-].
Qed.

Lemma at_point_row s i r : s !! i = Some r → at_point s (Z.of_nat (S i)) (w_Hash r).
Proof.
  intros Hi. exists (S i). pose proof (lookup_lt_Some _ _ _ Hi). split_and!; [lia|done|].
  unfold tip. by rewrite (take_S_r _ _ _ Hi), last_snoc.
Qed.

Lemma at_point_elem s r : chained 1 zeroHash s → r ∈ s → at_point s (w_Seq r) (w_Hash r).
Proof.
  intros Hch [i Hi]%list_elem_of_lookup. destruct (chained_lookup _ _ _ _ _ Hch Hi) as (-> & _).
  replace (1 + Z.of_nat i)%Z with (Z.of_nat (S i)) by lia. by apply at_point_row.
Qed.

Lemma scan_tail_last rows tail r :
  res_map scan_tail rows = Ok tail → last tail = Some r →
  ∃ row, row ∈ rows ∧ w_Seq row = r_Seq r ∧ w_Hash row = r_Hash r.
Proof.
  intros Hm%res_map_Ok Hl. rewrite last_lookup in Hl.
  destruct (Forall2_lookup_r _ _ _ _ _ Hm Hl) as (row & Hrow & Hs). exists row.
  split; [by eapply list_elem_of_lookup_2|]. unfold scan_tail in Hs. case_match; [done|].
  destruct (canonicalJSONBytes _); [|done]. by injection Hs as <-.
Qed.

(** What a method may do to the state: keep the invariant, the claim and the rows
    that were there, and add the entries [es]. *)
Record grows (id : string) (s s' : AState) (es : list AuditEntry) : Prop := {
  gr_inv : winv id s';
  gr_closed : aw_closed (st_w s') = aw_closed (st_w s);
  gr_seg : ∃ new, seg id s' = seg id s ++ new;
  gr_log : log_of id s' = log_of id s ++ es }.

Lemma grows_refl id s : winv id s → grows id s s [].
Proof. intros Hw. split; [done|done|exists []; by rewrite app_nil_r|by rewrite app_nil_r]. Qed.

Lemma grows_trans id s1 s2 s3 es es' : grows id s1 s2 es → grows id s2 s3 es' → grows id s1 s3 (es ++ es').
Proof.
  intros [_ C1 [n1 S1] L1] [I2 C2 [n2 S2] L2]. split; [done|congruence| |].
  - exists (n1 ++ n2). by rewrite S2, S1, (assoc_L (++)).
  - by rewrite L2, L1, (assoc_L (++)).
Qed.

Lemma grows_same id s s' : winv id s' → aw_closed (st_w s') = aw_closed (st_w s) → seg id s' = seg id s → grows id s s' [].
Proof. intros Hw Hc Hs. split; [done|done|exists []|unfold log_of]; by rewrite Hs, app_nil_r. Qed.

Lemma inTxLocked_grows id p s :
  winv id s →
  let '(r, s') := inTxLocked p s in
  ∃ es, grows id s s' es ∧
    (es = [] ∧ (∃ e, r = Err e) ∨ emits p es ∧ (r = Ok tt ∨ r = Err [ErrDatabase])) ∧
    (aw_broken (st_w s) = false → aw_broken (st_w s') = true → behind id s').
Proof.
  intros Hw. pose proof (inTxLocked_spec id p s Hw) as Hs. destruct (inTxLocked p s) as [r s'].
  destruct Hs as (Hw' & Hc & Hb & [[He Hs]|(es & Hem & Hl & Hs & Hr)]).
  - exists []. split_and!; [by apply grows_same|by left|done].
  - exists es. split_and!; [by split|by right|done].
Qed.

(** A writer whose conflict flag is up is behind its log. *)
Definition winv_ok (id : string) (s : AState) : Prop :=
  winv id s ∧ (aw_broken (st_w s) = true → behind id s).

Lemma behind_grows id s s' es :
  grows id s s' es → (aw_headSeq (st_w s') <= aw_headSeq (st_w s))%Z → behind id s → behind id s'.
Proof. intros [_ _ [new Hs] _] Hle Hb. unfold behind in *. rewrite Hs, length_app. lia. Qed.

Lemma verifyHold_spec id s :
  winv id s → let '(r, s') := verifyHoldLocked s in grows id s s' [] ∧ st_w s' = st_w s.
Proof.
  intros Hw. unfold verifyHoldLocked, abind, get_writer. destruct (aw_closed (st_w s)).
  { split; [by apply grows_refl|done]. }
  pose proof (stmt_spec id (λ db, Ok (bool_decide (a_locks db !! aw_lockKey (st_w s) = Some (aw_conn (st_w s))), db)) s Hw)
    as Hs.
  destruct (stmt _ s) as [[b|e] s']; destruct Hs as (Hw' & Hst & Hsg & _); try (by intros ? ? ? [= _ <-]).
  all: assert (grows id s s' []) by (apply grows_same; [done|by rewrite Hst|done]).
  - by destruct b.
  - done.
Qed.

Lemma readTail_spec id s n :
  winv id s →
  let '(r, s') := readTail n s in
  grows id s s' [] ∧ st_w s' = st_w s ∧
  (∀ tail, r = Ok tail →
     res_map scan_tail (take (maxReconcilableDrift + 1) (filter (λ r, (n < w_Seq r)%Z) (seg id s))) = Ok tail).
Proof.
  intros Hw. unfold readTail, abind, get_writer. rewrite (wi_id _ _ Hw).
  set (op := λ db : ADB, _). pose proof (stmt_spec id op s Hw) as Hs.
  destruct (stmt op s) as [r s']. destruct Hs as (Hw' & Hst & Hsg & Hr).
  { intros db x db' (l & _ & [= _ <-])%res_bind_Ok. done. }
  split_and!; [apply grows_same; [done|by rewrite Hst|done]|done|].
  intros tail ->. destruct (Hr tail eq_refl) as (db & db' & Hdb & (l & Hl & [= <- _])%res_bind_Ok). by rewrite <-Hdb.
Qed.

(** Adopting: the head moves to the last row found, the marker goes in, and a
    failure puts the head back. *)
Definition adopt (id : string) (n : Z) (h : bytes) (adopted : AuditRecord) (k : nat) : AM unit :=
  let@ _ := put_writer (set_head (r_Seq adopted) (r_Hash adopted)) in
  let@ _ := or_restore n h (inTxLocked (append_only [reconcile_entry id n h adopted k])) in
  put_writer (set_broken false).

Lemma adopt_spec id s adopted k :
  winv id s → behind id s → at_point (seg id s) (r_Seq adopted) (r_Hash adopted) →
  let '(r, s') := adopt id (aw_headSeq (st_w s)) (aw_headHash (st_w s)) adopted k s in
  ∃ ms, grows id s s' ms ∧ Forall (is_marker id) ms ∧ (aw_broken (st_w s') = true → behind id s') ∧
        (r = Ok tt → aw_broken (st_w s') = false).
Proof.
  intros Hw Hb Hpt. unfold adopt, abind, or_restore. simpl.
  set (s1 := mkAState _ _ _). assert (winv id s1) as Hw1 by by apply winv_head.
  set (p := append_only _). pose proof (inTxLocked_grows id p s1 Hw1) as Hs.
  destruct (inTxLocked p s1) as [r s2]. destruct Hs as (ms & [Hw2 Hc2 [new Hs2] Hl2] & Hem & _).
  change (seg id s1) with (seg id s) in Hs2. change (log_of id s1) with (log_of id s) in Hl2. simpl in Hc2.
  assert (Forall (is_marker id) ms) as Hms.
  { destruct Hem as [[-> _]|[Hem%emits_append_only _]]; [constructor|]. simpl in Hem.
    destruct (abstract_entry _) as [ae|] eqn:E; [|done]. injection Hem as <-.
    by repeat constructor; apply reconcile_entry_marker in E as []. }
  destruct r as [[]|e]; simpl; exists ms.
  - split_and!; [split; simpl; eauto using winv_broken|done|done|done].
  - split_and!; [|done| |done].
    + split; simpl; [|done|by exists new|done]. apply winv_head; [done|]. rewrite Hs2. apply at_point_app, Hw.
    + intros _. unfold behind in *. simpl. change (seg id (mkAState _ (st_db s2) _)) with (seg id s2).
      rewrite Hs2, length_app. lia.
Qed.

Lemma reconcileLocked_spec id s :
  winv id s → behind id s →
  let '(r, s') := reconcileLocked s in
  ∃ ms, grows id s s' ms ∧ Forall (is_marker id) ms ∧ (aw_broken (st_w s') = true → behind id s') ∧
        (r = Ok tt → aw_broken (st_w s') = false).
Proof.
  intros Hw Hb. unfold reconcileLocked. unfold abind at 1. simpl.
  assert (∀ s', grows id s s' [] → st_w s' = st_w s → behind id s') as Hbe.
  { intros s' Hg Est. eapply behind_grows; [done| |done]. by rewrite Est. }
  pose proof (verifyHold_spec id s Hw) as H1. unfold abind at 1, wrap_error. 
  destruct (verifyHoldLocked s) as [[u|e] s1]; destruct H1 as [G1 E1].
  2:{ exists []. split_and!; [done|constructor|intros _; by apply Hbe|done]. }
  pose proof (readTail_spec id s1 (aw_headSeq (st_w s)) (gr_inv _ _ _ _ G1)) as H2. unfold abind at 1.
  destruct (readTail _ s1) as [[tail|e] s2]; destruct H2 as (G2 & E2 & Ht); rewrite E1 in E2;
    pose proof (grows_trans _ _ _ _ _ _ G1 G2) as G; simpl in G.
  2:{ exists []. split_and!; [done|constructor|intros _; by apply Hbe|done]. }
  assert (∀ e, ∃ ms, grows id s s2 ms ∧ Forall (is_marker id) ms ∧ (aw_broken (st_w s2) = true → behind id s2) ∧
            (Err (A:=unit) e = Ok tt → aw_broken (st_w s2) = false)) as Hfail.
  { intros e. exists []. split_and!; [done|constructor|intros _; by apply Hbe|done]. }
  destruct (last tail) as [adopted|] eqn:El; [|apply (Hfail [ErrUnreconciled])].
  destruct (maxReconcilableDrift <? length tail)%nat; [apply (Hfail [ErrUnreconciled])|].
  destruct (rechains _ _ tail); [|apply (Hfail [ErrUnreconciled])]. cbn [negb].
  destruct (scan_tail_last _ _ _ (Ht tail eq_refl) El) as (row & Hrow & Eseq & Ehash).
  apply elem_of_take in Hrow as (i & Hrow & _). apply list_elem_of_lookup_2, list_elem_of_filter in Hrow as [_ Hrow].
  assert (seg id s2 = seg id s1) as Hs2 by (destruct G2 as [_ _ [new Hn] Hl]; unfold log_of in Hl; rewrite Hn, map_app in Hl;
    rewrite Hn; destruct new; [by rewrite app_nil_r|]; apply app_inv_head in Hl; done).
  pose proof (adopt_spec id s2 adopted (length tail) (gr_inv _ _ _ _ G) (Hbe _ G E2)) as Ha.
  rewrite E2, (wi_id _ _ Hw) in *. unfold adopt in Ha.
  destruct (abind _ _ s2) as [r s3]. destruct Ha as (ms & G3 & Hms & Hb3 & Hok).
  { rewrite Hs2, <-Eseq, <-Ehash. apply at_point_elem; [apply G1|done]. }
  exists ms. split_and!; [by eapply (grows_trans _ _ _ _ [])|done..].
Qed.

(** ** The promise, and the writer's runs against it *)

Inductive wcall := CInTx (p : prog) | CAppend (es : list Entry) | CReload.

Definition run_call (c : wcall) : AM unit :=
  match c with CInTx p => AuditWriter_InTx p | CAppend es => AuditWriter_Append es | CReload => ReloadHead end.

(** What a call asks to have appended. *)
Definition asks (c : wcall) (es : list AuditEntry) : Prop :=
  match c with
  | CInTx p => emits p es
  | CAppend l => mapM abstract_entry l = Some es
  | CReload => es = []
  end.

(** An append-only log whose calls may fail: markers aside, an acknowledged call
    adds what it asked for, a failed one adds it or nothing. *)
Inductive log_step (id : string) (l : list AuditEntry) (c : wcall) : result unit → list AuditEntry → Prop :=
  | step_acknowledged ms es :
      Forall (is_marker id) ms → asks c es → log_step id l c (Ok tt) (l ++ ms ++ es)
  | step_unacknowledged ms es e :
      Forall (is_marker id) ms → asks c es → log_step id l c (Err e) (l ++ ms ++ es)
  | step_failed ms e :
      Forall (is_marker id) ms → log_step id l c (Err e) (l ++ ms).

Inductive log_run (id : string) : list AuditEntry → list wcall → list (result unit) → list AuditEntry → Prop :=
  | run_nil l : log_run id l [] [] l
  | run_cons l c cs r rs l1 l2 :
      log_step id l c r l1 → log_run id l1 cs rs l2 → log_run id l (c :: cs) (r :: rs) l2.

Fixpoint run_calls (cs : list wcall) (s : AState) : list (result unit) * AState :=
  match cs with
  | [] => ([], s)
  | c :: cs => let '(r, s1) := run_call c s in let '(rs, s2) := run_calls cs s1 in (r :: rs, s2)
  end.

Lemma InTx_spec id p s :
  winv_ok id s →
  let '(r, s') := AuditWriter_InTx p s in
  ∃ ms es, grows id s s' (ms ++ es) ∧ Forall (is_marker id) ms ∧ winv_ok id s' ∧
    (es = [] ∧ (∃ e, r = Err e) ∨ emits p es ∧ (r = Ok tt ∨ r = Err [ErrDatabase])).
Proof.
  intros [Hw Hb]. unfold AuditWriter_InTx. unfold abind at 1. simpl.
  destruct (aw_closed (st_w s)).
  { exists [], []. split_and!; [by apply grows_refl|constructor|done|left; eauto]. }
  unfold abind.
  destruct (aw_broken (st_w s)) eqn:Ebr.
  - pose proof (reconcileLocked_spec id s Hw (Hb eq_refl)) as H1. unfold wrap_error.
    destruct (reconcileLocked s) as [[[]|e] s1]; destruct H1 as (ms & G1 & Hms & Hb1 & Hok); simpl.
    2:{ exists ms, []. rewrite app_nil_r. split_and!; [done|done|split; [apply G1|done]|left; eauto]. }
    pose proof (inTxLocked_grows id p s1 (gr_inv _ _ _ _ G1)) as H2.
    destruct (inTxLocked p s1) as [r s2]. destruct H2 as (es & G2 & Hem & Hb2).
    exists ms, es. split_and!; [by eapply grows_trans|done|split; [apply G2|auto]|done].
  - pose proof (inTxLocked_grows id p s Hw) as H2. simpl.
    destruct (inTxLocked p s) as [r s2]. destruct H2 as (es & G2 & Hem & Hb2).
    exists [], es. split_and!; [done|constructor|split; [apply G2|auto]|done].
Qed.

Lemma Append_spec id l s :
  winv_ok id s →
  let '(r, s') := AuditWriter_Append l s in
  ∃ ms es, grows id s s' (ms ++ es) ∧ Forall (is_marker id) ms ∧ winv_ok id s' ∧
    (es = [] ∧ (∃ e, r = Err e) ∨ mapM abstract_entry l = Some es).
Proof.
  intros Hw. unfold AuditWriter_Append, appendOnce.
  pose proof (InTx_spec id (append_only l) s Hw) as H1.
  destruct (AuditWriter_InTx (append_only l) s) as [[[]|e] s1]; destruct H1 as (ms & es & G1 & Hms & Hw1 & Hr).
  { exists ms, es. split_and!; try done. destruct Hr as [[_ [? ?]]|[Hem _]]; [done|right; by apply emits_append_only]. }
  destruct (errors_Is e ErrChainConflict) eqn:Ec.
  - assert (es = []) as ->.
    { destruct Hr as [[-> _]|[_ [?|[= ->]]]]; [done|done|]. by vm_compute in Ec. }
    rewrite app_nil_r in G1. pose proof (InTx_spec id (append_only l) s1 Hw1) as H2.
    destruct (AuditWriter_InTx (append_only l) s1) as [r s2]. destruct H2 as (ms' & es & G2 & Hms' & Hw2 & Hr').
    exists (ms ++ ms'), es. rewrite <-(assoc_L (++)).
    split_and!; [by eapply grows_trans|by apply Forall_app|done|].
    destruct Hr' as [?|[Hem _]]; [by left|right; by apply emits_append_only].
  - exists ms, es. split_and!; try done. destruct Hr as [[-> _]|[Hem _]]; [left; eauto|right; by apply emits_append_only].
Qed.

Lemma ReloadHead_spec id s :
  winv_ok id s → let '(r, s') := ReloadHead s in grows id s s' [] ∧ winv_ok id s'.
Proof.
  intros [Hw Hb]. unfold ReloadHead, reloadHeadLocked, abind. simpl. rewrite (wi_id _ _ Hw).
  set (op := λ db : ADB, _). pose proof (stmt_spec id op s Hw) as Hs.
  destruct (stmt op s) as [[h|e] s1]; destruct Hs as (Hw1 & Hst & Hsg & Hr); try (by intros ? ? ? [= _ <-]).
  2:{ split; [apply grows_same; [done|by rewrite Hst|done]|]. split; [done|]. unfold behind. rewrite Hst, Hsg. exact Hb. }
  destruct (Hr h eq_refl) as (db & db' & Hdb & [= Eh _]). unfold head_row in Eh. rewrite Hdb in Eh.
  assert (∀ n hh, at_point (seg id s1) n hh → let s2 := mkAState (set_broken false (set_head n hh (st_w s1))) (st_db s1) (st_steps s1) in
    grows id s s2 [] ∧ winv_ok id s2) as Hset.
  { intros n hh Hp s2. assert (winv id s2) as Hw2 by by apply (winv_broken id (mkAState _ _ _)), winv_head.
    split; [apply grows_same; [done|simpl; by rewrite Hst|done]|]. by split. }
  rewrite Hsg in Hset. destruct h as [row|]; simpl.
  - rewrite last_lookup in Eh. pose proof (at_point_row _ _ _ Eh) as Hp.
    destruct (chained_lookup _ _ _ _ _ (wi_chain _ _ Hw) Eh) as (Eseq & Ehash & _).
    rewrite bool_decide_eq_true_2 by (rewrite Ehash; apply recordHash_length). simpl. apply Hset.
    rewrite Eseq. by replace (1 + _)%Z with (Z.of_nat (S (pred (length (seg id s))))) by lia.
  - apply Hset. exists 0. split_and!; [lia|done|done].
Qed.
End chains.

(** C12. The audit writer refines an append-only log.  From a segment that is a chain
    and a head the writer believes to be any point of it, whatever the schedule does
    to its commits (a failure before a commit, a commit whose reply is lost), as long
    as the claim keeps other sessions off the segment, any sequence of transactions,
    appends and reloads matches a run of the abstract log with the same answers: an
    acknowledged call added its entries once and in order, a failed one added them
    once or not at all, and nothing else was added but reconciliation markers.  The
    segment is a chain again at the end. *)
Theorem writer_refines_log `{AuditEnv} id s cs :
  winv_ok id s →
  let '(rs, s') := run_calls cs s in
  winv_ok id s' ∧ log_run id (log_of id s) cs rs (log_of id s').
Proof.
  revert s. induction cs as [|c cs IH]; intros s Hw; simpl; [split; [done|constructor]|].
  assert (let '(r, s1) := run_call c s in winv_ok id s1 ∧ log_step id (log_of id s) c r (log_of id s1)) as Hc.
  { destruct c as [p|es|]; simpl.
    - pose proof (InTx_spec id p s Hw) as Hs. destruct (AuditWriter_InTx p s) as [r s1].
      destruct Hs as (ms & es & [_ _ _ ->] & Hms & Hw1 & Hr). split; [done|].
      destruct Hr as [[-> [e ->]]|[Hem [->| ->]]]; [rewrite app_nil_r|..]; by constructor.
    - pose proof (Append_spec id es s Hw) as Hs. destruct (AuditWriter_Append es s) as [r s1].
      destruct Hs as (ms & aes & [_ _ _ ->] & Hms & Hw1 & Hr). split; [done|].
      destruct Hr as [[-> [e ->]]|Hem]; [rewrite app_nil_r; by constructor|]. destruct r as [[]|e]; by constructor.
    - pose proof (ReloadHead_spec id s Hw) as Hs. destruct (ReloadHead s) as [r s1]. destruct Hs as [[_ _ _ ->] Hw1].
      split; [done|]. destruct r as [[]|e]; [apply (step_acknowledged _ _ _ [] [])|apply (step_failed _ _ _ [])]; done. }
  destruct (run_call c s) as [r s1]. destruct Hc as [Hw1 Hstep]. specialize (IH s1 Hw1).
  destruct (run_calls cs s1) as [rs s2]. destruct IH as [Hw2 Hrun]. split; [done|by econstructor].
Qed.

(** ** Recovery

    On a connection that works and with the claim still held, one append brings a
    writer that is behind its log back, and lands. *)
Definition healthy (s : AState) : Prop :=
  aw_closed (st_w s) = false ∧ a_locks (st_db s) !! aw_lockKey (st_w s) = Some (aw_conn (st_w s)) ∧
  Forall (λ a, as_fault a = NoFault ∧ ∀ db, as_env a db = db) (st_steps s).

Section recovery.
Context `{AuditEnv}.

Lemma healthy_step s :
  healthy s → as_fault (next_astep s).1 = NoFault ∧ as_env (next_astep s).1 (st_db s) = st_db s ∧
  Forall (λ a, as_fault a = NoFault ∧ ∀ db, as_env a db = db) (next_astep s).2.
Proof.
  intros (_ & _ & Hf). unfold next_astep. destruct (st_steps s); [done|]. apply Forall_cons in Hf as [[Ef He] Hl]. by simpl.
Qed.

Lemma healthy_stmt {A} (f : ADB → A) s :
  healthy s → ∃ rest, stmt (λ db, Ok (f db, db)) s = (Ok (f (st_db s)), mkAState (st_w s) (st_db s) rest) ∧
                      healthy (mkAState (st_w s) (st_db s) rest).
Proof.
  intros Hh. destruct (healthy_step s Hh) as (Ef & Ee & Hr). unfold stmt.
  destruct (next_astep s) as [a rest]. simpl in *. rewrite Ef, Ee. eexists. split; [done|].
  destruct Hh as (Hc & Hl & _). by split_and!.
Qed.

(** Appending at the tip of a chain cannot fail. *)
Lemma Append_at_tip id log0 n0 h0 clock es aes t :
  tx_inv id log0 n0 h0 t → tx_aborted t = false → ap_seq (tx_ap t) = Z.of_nat (length (segment id (tx_log t))) →
  mapM abstract_entry es = Some aes →
  ∃ rs t', Appender_Append id clock es t = (Ok rs, t') ∧ tx_aborted t' = false ∧ tx_broken t' = tx_broken t.
Proof.
  revert t aes. induction es as [|e es IH]; intros t aes Hi Ha Hseq Hm; simpl; [by exists [], t|].
  simpl in Hm. destruct (abstract_entry e) as [ae|] eqn:Ee; [|done]. simpl in Hm.
  destruct (mapM abstract_entry es) as [aes'|] eqn:Em; [|done].
  pose proof (append_entry_spec id log0 n0 h0 clock e t Hi) as Hs.
  assert (∃ r t1, append_entry id clock e t = (Ok r, t1) ∧ ap_seq (tx_ap t1) = Z.of_nat (length (segment id (tx_log t1))))
    as (r & t1 & E1 & Hseq1).
  { unfold abstract_entry in Ee. unfold append_entry in *. destruct (canonical_payload _) as [doc|]; [|done].
    case_bool_decide; [done|]. rewrite Ha in *. simpl in *.
    assert (row_checks (row_of (new_record id (tx_ap t) (e_Kind e) (e_Subject e) doc (clock (ap_seq (tx_ap t) + 1)%Z)) doc) = true) as Hc.
    { unfold row_checks. simpl. rewrite !bool_decide_eq_true_2; [rewrite !andb_true_r; lia|..].
      - apply (at_point_length _ _ _ (ti_chain _ _ _ _ _ Hi) (ti_point _ _ _ _ _ Hi)).
      - apply recordHash_length. }
    rewrite Hc in *. simpl in *. destruct (existsb _ _) eqn:Ex.
    { apply key_taken_iff in Ex; [lia|]. apply Hi. }
    eexists _, _. split; [done|]. destruct Hs as ([_ _ Hh _ _] & _). simpl in *. rewrite last_snoc in Hh. tauto. }
  rewrite E1 in Hs |- *. destruct Hs as (Hi1 & Ha1 & _ & Hb1 & _).
  destruct (IH t1 aes' Hi1 Ha1 Hseq1 eq_refl) as (rs & t2 & -> & Ha2 & Hb2). eexists _, _. split; [done|]. split; [done|congruence].
Qed.

Lemma inTx_at_tip id s es aes :
  winv id s → healthy s → aw_headSeq (st_w s) = Z.of_nat (length (seg id s)) → mapM abstract_entry es = Some aes →
  ∃ s', inTxLocked (append_only es) s = (Ok tt, s') ∧ winv id s' ∧ healthy s' ∧
        aw_broken (st_w s') = aw_broken (st_w s) ∧ log_of id s' = log_of id s ++ aes ∧
        aw_headSeq (st_w s') = Z.of_nat (length (seg id s')).
Proof.
  intros Hw Hh Ht Hm. pose proof (inTxLocked_spec id (append_only es) s Hw) as Hs.
  destruct (healthy_step s Hh) as (Ef & Ee & Hr). unfold inTxLocked in *. destruct (next_astep s) as [a rest]. simpl in Ef, Ee, Hr.
  rewrite Ef, Ee, (wi_id _ _ Hw) in *. set (t0 := mkTx _ _ _ _) in *.
  assert (tx_inv id (a_log (st_db s)) (aw_headSeq (st_w s)) (aw_headHash (st_w s)) t0) as Hi.
  { destruct Hw as [_ Hch Hpt _]. split; simpl; [done|done|done|exists []; by rewrite app_nil_r|done]. }
  destruct (Append_at_tip id _ _ _ (as_clock a) es aes t0 Hi eq_refl Ht Hm) as (rs & t & Er & Ea & Eb).
  pose proof (Appender_Append_spec id _ _ _ (as_clock a) es t0 Hi) as Ha. rewrite Er in Ha.
  destruct Ha as ([_ _ Hhd _ _] & _). simpl in Hs |- *. rewrite Er in Hs |- *. simpl in Hs |- *. rewrite Ea in Hs |- *.
  eexists. split; [done|]. destruct Hs as (Hw' & Hc & _ & [[[e ?] _]|(aes' & Hem & Hl & _)]); [done|].
  apply emits_append_only in Hem. rewrite Hm in Hem. injection Hem as <-.
  assert (∀ w, aw_closed (advance_head (ap_staged (tx_ap t)) w) = aw_closed w ∧
               aw_lockKey (advance_head (ap_staged (tx_ap t)) w) = aw_lockKey w ∧
               aw_conn (advance_head (ap_staged (tx_ap t)) w) = aw_conn w ∧
               aw_broken (advance_head (ap_staged (tx_ap t)) w) = aw_broken w) as Hadv.
  { intros w. unfold advance_head. by case_match. }
  split_and!; [done| |simpl; by rewrite (proj2 (proj2 (proj2 (Hadv _))))|done|].
  - unfold healthy. simpl. destruct (Hadv (set_broken (tx_broken t) (st_w s))) as (-> & -> & -> & _). simpl.
    destruct Hh as (H1 & H2 & _). by split_and!.
  - unfold seg. simpl. unfold advance_head. destruct (last (ap_staged (tx_ap t))) as [r|]; simpl.
    + destruct Hhd as (-> & _ & ->). done.
    + destruct Hhd as (-> & _). done.
Qed.

(** The rows ahead of a point of the chain, as the reconciliation reads them. *)
Lemma filter_ahead k s : chained 1 zeroHash s → filter (λ r, (Z.of_nat k < w_Seq r)%Z) s = drop k s.
Proof.
  intros Hch. rewrite <-(take_drop k s) at 1. rewrite filter_app, filter_none, filter_all; [done|..].
  - intros x [i Hi]%list_elem_of_lookup. rewrite lookup_drop in Hi.
    destruct (chained_lookup _ _ _ _ _ Hch Hi) as (-> & _). lia.
  - intros x (i & Hi & Hlt)%elem_of_take. destruct (chained_lookup _ _ _ _ _ Hch Hi) as (-> & _). lia.
Qed.

Lemma scan_chained n p s :
  length p = 32 → chained n p s →
  res_map scan_tail s = Ok (map stored_record s) ∧ rechains p n (map stored_record s) = true.
Proof.
  revert n p. induction s as [|r s IH]; intros n p Hp; simpl; [done|].
  intros (Hs & Hprev & [c Hc] & Hh & Hch). assert (length (w_Hash r) = 32) as Hl by (rewrite Hh; apply recordHash_length).
  destruct (IH _ _ Hl Hch) as [-> Hre].
  assert (stored_record r = mkRecord (w_WriterID r) (w_Seq r) (w_PrevHash r) (w_Hash r) (w_Kind r) (w_Subject r)
            (json_text c) (w_RecordedAt r)) as Est.
  { unfold stored_record, payload_bytes. by rewrite Hc, copy32_full by congruence. }
  unfold scan_tail at 1. rewrite Hprev, !bool_decide_eq_true_2, Hc by done. simpl. split; [by rewrite Est, Hprev|].
  rewrite Hs, (copy32_full zeroHash p Hp), <-Hh, !bool_decide_eq_true_2 by done. exact Hre.
Qed.

Lemma small_int z : (Z.abs z < 2 ^ 63)%Z → decodable (JInt z) = true.
Proof.
  intros Hz. simpl. pose proof (Float64.round53_bound z). apply Z.ltb_lt. assert (2 * 2 ^ 63 < 2 ^ 1024)%Z by done. lia.
Qed.

Lemma reconcile_entry_valid id n h r k :
  (Z.abs n < 2 ^ 63)%Z → (Z.abs (r_Seq r) < 2 ^ 63)%Z → (Z.of_nat k < 2 ^ 63)%Z →
  ∃ ae, mapM abstract_entry [reconcile_entry id n h r k] = Some [ae].
Proof.
  intros H1 H2 H3. assert (∃ c, canonicalJSONBytes (JObj
    [("believed_seq", JInt n); ("believed_hash", JStr (hex h)); ("adopted_seq", JInt (r_Seq r));
     ("adopted_hash", JStr (hex (r_Hash r))); ("adopted_rows", JInt (Z.of_nat k));
     ("reason", JStr "rows committed without the commit being observed")]) = Some c) as [c Hc].
  { unfold canonicalJSONBytes. simpl. pose proof (small_int n H1) as E1. pose proof (small_int (r_Seq r) H2) as E2.
    pose proof (small_int (Z.of_nat k) ltac:(lia)) as E3. simpl in E1, E2, E3. rewrite E1, E2, E3. simpl. eauto. }
  simpl. unfold abstract_entry. cbn [reconcile_entry e_Payload canonical_payload e_Kind]. rewrite Hc. eauto.
Qed.

#[local] Opaque maxReconcilableDrift.

(** Behind its log, a writer collides with the row it has not seen. *)
Lemma append_entry_behind id log0 n0 h0 clock e ae t :
  tx_inv id log0 n0 h0 t → tx_aborted t = false → (ap_seq (tx_ap t) < Z.of_nat (length (segment id (tx_log t))))%Z →
  abstract_entry e = Some ae →
  append_entry id clock e t = (Err [ErrChainConflict], mkTx (tx_log t) true (tx_ap t) true).
Proof.
  intros Hi Ha Hlt He. unfold abstract_entry in He. unfold append_entry. destruct (canonical_payload _) as [doc|]; [|done].
  case_bool_decide; [done|]. rewrite Ha. simpl. pose proof (ti_point _ _ _ _ _ Hi) as (k & _ & Hk & _).
  unfold row_checks. simpl. rewrite !bool_decide_eq_true_2.
  - replace (0 <? ap_seq (tx_ap t) + 1)%Z with true by lia. simpl.
    rewrite (proj2 (key_taken_iff id _ _ (ti_chain _ _ _ _ _ Hi))); [done|lia].
  - apply (at_point_length _ _ _ (ti_chain _ _ _ _ _ Hi) (ti_point _ _ _ _ _ Hi)).
  - apply recordHash_length.
Qed.

Lemma inTx_behind id s e es ae :
  winv id s → healthy s → behind id s → abstract_entry e = Some ae →
  ∃ s', inTxLocked (append_only (e :: es)) s = (Err [ErrChainConflict], s') ∧ winv id s' ∧ healthy s' ∧
        st_w s' = set_broken true (st_w s) ∧ st_db s' = st_db s.
Proof.
  intros Hw Hh Hb He. destruct (healthy_step s Hh) as (Ef & Ee & Hr). unfold inTxLocked.
  pose proof (next_astep_env id s (wi_env _ _ Hw)) as [_ Hx].
  destruct (next_astep s) as [a rest]. simpl in Ef, Ee, Hr, Hx. rewrite Ef, Ee, (wi_id _ _ Hw). simpl.
  erewrite append_entry_behind; [|split; simpl; [apply Hw|apply Hw|done|exists []; by rewrite app_nil_r|done]|done|done|done].
  simpl. eexists. split; [done|]. destruct Hh as (H1 & H2 & _). split_and!; try done.
  destruct Hw as [W1 W2 W3 _]. by split.
Qed.

Lemma verifyHold_healthy s :
  healthy s → ∃ rest, verifyHoldLocked s = (Ok tt, mkAState (st_w s) (st_db s) rest) ∧ healthy (mkAState (st_w s) (st_db s) rest).
Proof.
  intros Hh. pose proof Hh as (Hcl & Hlock & _). unfold verifyHoldLocked, abind. simpl. rewrite Hcl.
  destruct (healthy_stmt (λ db, bool_decide (a_locks db !! aw_lockKey (st_w s) = Some (aw_conn (st_w s)))) s Hh) as (rest & -> & Hh1).
  rewrite bool_decide_eq_true_2 by done. by exists rest.
Qed.

Lemma readTail_healthy id k s :
  winv id s → healthy s → length (seg id s) - k ≤ maxReconcilableDrift →
  ∃ rest, readTail (Z.of_nat k) s = (Ok (map stored_record (drop k (seg id s))), mkAState (st_w s) (st_db s) rest) ∧
          healthy (mkAState (st_w s) (st_db s) rest).
Proof.
  intros Hw Hh Hd. destruct (healthy_step s Hh) as (Ef & Ee & Hr). destruct Hw as [Hid Hch _ _].
  unfold readTail, abind, stmt. simpl. destruct (next_astep s) as [a rest]. simpl in *. rewrite Ef, Ee, Hid.
  change (segment id (a_log (st_db s))) with (seg id s).
  rewrite filter_ahead, take_ge by (try done; rewrite length_drop; lia).
  assert (chained (1 + Z.of_nat (length (take k (seg id s)))) (tip zeroHash (take k (seg id s))) (drop k (seg id s))) as Hcd.
  { rewrite <-(take_drop k (seg id s)) in Hch at 1. by apply chained_app in Hch as [_ Hch]. }
  destruct (scan_chained _ _ _ (tip_length _ _ _ zeroHash_length (chained_take k _ _ _ Hch)) Hcd) as [-> _].
  eexists. split; [done|]. destruct Hh as (H1 & H2 & _). by split_and!.
Qed.

Lemma adopt_healthy id s n h adopted k :
  winv id s → healthy s → r_Seq adopted = Z.of_nat (length (seg id s)) → at_point (seg id s) (r_Seq adopted) (r_Hash adopted) →
  (Z.abs n < 2 ^ 63)%Z → (Z.of_nat (length (seg id s)) < 2 ^ 63)%Z → (Z.of_nat k < 2 ^ 63)%Z →
  ∃ s' m, adopt id n h adopted k s = (Ok tt, s') ∧ winv id s' ∧ healthy s' ∧ aw_broken (st_w s') = false ∧
          is_marker id m ∧ log_of id s' = log_of id s ++ [m] ∧ aw_headSeq (st_w s') = Z.of_nat (length (seg id s')).
Proof.
  intros Hw Hh Hseq Hpt Hn Hlen Hk. unfold adopt, abind, or_restore. simpl. set (s1 := mkAState _ _ _).
  assert (winv id s1) as Hw1 by by apply winv_head. assert (healthy s1) as Hh1 by done.
  destruct (reconcile_entry_valid id n h adopted k) as [m Hm]; [done|lia|done|].
  destruct (inTx_at_tip id s1 _ _ Hw1 Hh1 Hseq Hm) as (s2 & -> & Hw2 & Hh2 & _ & Hl2 & Ht2).
  eexists _, m. split; [done|]. split_and!; try done.
  - by apply winv_broken.
  - simpl in Hm. destruct (abstract_entry _) eqn:E; [|done]. injection Hm as <-. by apply reconcile_entry_marker in E.
Qed.

Lemma reconcile_recovers id s :
  winv id s → healthy s → behind id s → (Z.of_nat (length (seg id s)) < 2 ^ 63)%Z →
  (Z.of_nat (length (seg id s)) - aw_headSeq (st_w s) <= Z.of_nat maxReconcilableDrift)%Z →
  ∃ s' m, reconcileLocked s = (Ok tt, s') ∧ winv id s' ∧ healthy s' ∧ aw_broken (st_w s') = false ∧
          is_marker id m ∧ log_of id s' = log_of id s ++ [m] ∧ aw_headSeq (st_w s') = Z.of_nat (length (seg id s')).
Proof.
  intros Hw Hh Hb Hlen Hdrift. pose proof Hw as [Hid Hch Hpt Henv]. destruct Hpt as (k & Hk & Hseq & Hhash).
  unfold behind in Hb. unfold reconcileLocked. unfold abind at 1. cbn [get_writer].
  unfold abind at 1, wrap_error. destruct (verifyHold_healthy s Hh) as (rest1 & -> & Hh1).
  unfold abind at 1. rewrite Hseq.
  assert (∀ rest, healthy (mkAState (st_w s) (st_db s) rest) → winv id (mkAState (st_w s) (st_db s) rest)) as Hrest.
  { intros rest (_ & _ & Hf). split; [done|done|apply Hw|]. eapply Forall_impl; [exact Hf|]. intros a [_ Ha] db. by rewrite Ha. }
  destruct (readTail_healthy id k _ (Hrest _ Hh1) Hh1) as (rest2 & -> & Hh2).
  { change (seg id (mkAState _ _ _)) with (seg id s). lia. }
  change (seg id (mkAState _ _ _)) with (seg id s). cbn [st_w st_db].
  set (d := drop k (seg id s)). assert (length d = length (seg id s) - k) as Hd by apply length_drop.
  change (map stored_record d) with (stored_record <$> d). rewrite fmap_last.
  destruct (last d) as [row|] eqn:El; [|apply last_None in El; rewrite El in Hd; simpl in Hd; lia]. simpl.
  rewrite length_fmap. replace (maxReconcilableDrift <? length d)%nat with false by (symmetry; apply Nat.ltb_ge; lia).
  assert (chained (1 + Z.of_nat k) (tip zeroHash (take k (seg id s))) d) as Hcd.
  { pose proof Hch as Hch'. rewrite <-(take_drop k (seg id s)) in Hch'. apply chained_app in Hch' as [_ Hch'].
    by rewrite length_take, Nat.min_l in Hch' by lia. }
  destruct (scan_chained _ _ _ (tip_length _ _ _ zeroHash_length (chained_take k _ _ _ Hch)) Hcd) as [_ Hre].
  rewrite Z.add_comm in Hre. change (map stored_record d) with (stored_record <$> d) in Hre.
  rewrite Hhash, Hre. cbn [negb]. rewrite last_lookup in El. unfold d in El. rewrite lookup_drop in El. fold d in El.
  destruct (chained_lookup _ _ _ _ _ Hch El) as (Erow & _). apply list_elem_of_lookup_2 in El.
  rewrite Hid. apply (adopt_healthy id (mkAState (st_w s) (st_db s) rest2)); try done; try (change (seg id (mkAState _ _ _)) with (seg id s)).
  - by apply Hrest.
  - simpl. rewrite Erow. lia.
  - simpl. by apply at_point_elem.
  - lia.
  - lia.
Qed.

Lemma InTx_at_tip id s es aes :
  winv id s → healthy s → aw_broken (st_w s) = false → aw_headSeq (st_w s) = Z.of_nat (length (seg id s)) →
  mapM abstract_entry es = Some aes →
  ∃ s', AuditWriter_InTx (append_only es) s = (Ok tt, s') ∧ winv_ok id s' ∧ healthy s' ∧ log_of id s' = log_of id s ++ aes.
Proof.
  intros Hw Hh Hb Ht Hm. unfold AuditWriter_InTx, abind. cbn [get_writer]. rewrite (proj1 Hh), Hb. simpl.
  destruct (inTx_at_tip id s es aes Hw Hh Ht Hm) as (s' & -> & Hw' & Hh' & Hbr & Hl & _).
  exists s'. split_and!; try done. split; [done|congruence].
Qed.

Lemma InTx_reconciles id s es aes :
  winv id s → healthy s → aw_broken (st_w s) = true → behind id s → mapM abstract_entry es = Some aes →
  (Z.of_nat (length (seg id s)) < 2 ^ 63)%Z →
  (Z.of_nat (length (seg id s)) - aw_headSeq (st_w s) <= Z.of_nat maxReconcilableDrift)%Z →
  ∃ s' m, AuditWriter_InTx (append_only es) s = (Ok tt, s') ∧ winv_ok id s' ∧ healthy s' ∧
    log_of id s' = log_of id s ++ [m] ++ aes ∧ Forall (is_marker id) [m].
Proof.
  intros Hw Hh Hb Hbe Hm Hlen Hd. unfold AuditWriter_InTx, abind, wrap_error. cbn [get_writer]. rewrite (proj1 Hh), Hb.
  destruct (reconcile_recovers id s Hw Hh Hbe Hlen Hd) as (s2 & m & -> & Hw2 & Hh2 & Hb2 & Hm2 & Hl2 & Ht2).
  destruct (InTx_at_tip id s2 es aes Hw2 Hh2 Hb2 Ht2 Hm) as (s3 & E3 & Hw3 & Hh3 & Hl3).
  unfold AuditWriter_InTx, abind in E3. cbn [get_writer] in E3. rewrite (proj1 Hh2), Hb2 in E3. simpl in E3.
  exists s3, m. split_and!; try done; [by rewrite Hl3, Hl2, <-(assoc_L (++))|by repeat constructor; destruct Hm2].
Qed.
End recovery.

(** A lost reply is recovered from.  Take a writer whose believed head is behind
    its segment by no more rows than the drift it may adopt, on a working connection
    and with its claim held: its next append of valid entries is acknowledged, and
    adds those entries once, after at most one reconciliation marker. *)
Theorem append_recovers `{AuditEnv} id s es aes :
  winv_ok id s → healthy s → mapM abstract_entry es = Some aes →
  (Z.of_nat (length (seg id s)) < 2 ^ 63)%Z →
  (Z.of_nat (length (seg id s)) - aw_headSeq (st_w s) <= Z.of_nat maxReconcilableDrift)%Z →
  ∃ s' ms, AuditWriter_Append es s = (Ok tt, s') ∧ winv_ok id s' ∧ healthy s' ∧
    log_of id s' = log_of id s ++ ms ++ aes ∧ Forall (is_marker id) ms ∧ length ms ≤ 1.
Proof.
  intros [Hw Hb] Hh Hm Hlen Hdrift.
  unfold AuditWriter_Append, appendOnce. destruct (aw_broken (st_w s)) eqn:Ebr.
  { destruct (InTx_reconciles id s es aes) as (s' & m & -> & Hw' & Hh' & Hl & Hmk); auto. exists s', [m]. by split_and!. }
  destruct (decide (aw_headSeq (st_w s) = Z.of_nat (length (seg id s)))) as [Ht|Hnt].
  { destruct (InTx_at_tip id s es aes) as (s' & -> & Hw' & Hh' & Hl); [done..|]. exists s', []. split_and!; try done; simpl; lia. }
  assert (behind id s) as Hbe by (destruct (wi_point _ _ Hw) as (k & Hk & Hs & _); unfold behind; lia).
  destruct es as [|e es].
  { injection Hm as <-. pose proof (inTxLocked_grows id (append_only []) s Hw) as Hg. destruct (healthy_step s Hh) as (Ef & Ee & Hr).
    unfold AuditWriter_InTx, abind. cbn [get_writer]. rewrite (proj1 Hh), Ebr. unfold aret.
    unfold inTxLocked in *. destruct (next_astep s) as [a rest]. simpl in *. rewrite Ef, Ee in *.
    destruct Hg as (new & [Hw' _ _ Hl] & [[_ [? ?]]|[Hem _]] & Hb'); [done|].
    apply emits_append_only in Hem. injection Hem as <-. eexists _, []. split; [done|].
    split_and!; try done; [|simpl; lia]. destruct Hh as (H1 & H2 & _). by split_and!. }
  assert (∃ ae, abstract_entry e = Some ae) as [ae Ee] by (simpl in Hm; destruct (abstract_entry e); [eauto|done]).
  destruct (inTx_behind id s e es ae Hw Hh Hbe Ee) as (s1 & E1 & Hw1 & Hh1 & Ew1 & Ed1).
  unfold AuditWriter_InTx at 1, abind at 1. cbn [get_writer]. rewrite (proj1 Hh), Ebr. unfold abind at 1, aret. rewrite E1.
  change (errors_Is [ErrChainConflict] ErrChainConflict) with true. cbv iota.
  assert (seg id s1 = seg id s) as Hsg by (unfold seg; by rewrite Ed1).
  destruct (InTx_reconciles id s1 (e :: es) aes) as (s' & m & -> & Hw' & Hh' & Hl & Hmk);
    rewrite ?Hsg, ?Ew1; unfold behind; rewrite ?Hsg, ?Ew1; try done.
  exists s', [m]. split_and!; try done. rewrite Hl. unfold log_of. by rewrite Hsg.
Qed.
