(* ===== verification/Checkpoint.v ===== *)
(** * Signed checkpoints

    Models internal/store/checkpoint.go and the audit_checkpoints table: the signed
    series of segment heads, its delivery to the file sink outside the database, the
    repair of a missed delivery, and [VerifyCheckpoints], which checks the sink's
    copy against the log.  A log that verifies and agrees with its checkpoints
    cannot differ from the log that was checkpointed below the checkpointed rows.

    Ed25519 is the class [Signing].  A line of the sink is the document on it. *)
From Stdlib Require Import Ascii NArith.
From S2P Require Import Prelude GoLib Json Store World AuditChain AuditWriter.

Class Signing := {
  pubkey : Type; privkey : Type;
  public : privkey → pubkey;
  ed_sign : privkey → bytes → bytes;
  ed_verify : pubkey → bytes → bytes → bool;
  ed_correct : ∀ k m, ed_verify (public k) m (ed_sign k m) = true }.

(** ** Data *)

Record WriterHead := mkHead { wh_WriterID : string; wh_Seq : Z; wh_Hash : bytes }.

Record Checkpoint := mkCheckpoint {
  ck_Seq : Z; ck_CreatedAt : Time.t; ck_Heads : list WriterHead; ck_HeadsHash : bytes;
  ck_PrevHash : bytes; ck_KeyID : string; ck_Signature : bytes }.

#[export] Instance WriterHead_eq_dec : EqDecision WriterHead.
Proof. solve_decision. Defined.
#[export] Instance Checkpoint_eq_dec : EqDecision Checkpoint.
Proof. solve_decision. Defined.

(** ** The wire form *)

Definition hex_value (a : ascii) : option N :=
  let n := N_of_ascii a in
  if ((48 <=? n) && (n <=? 57))%N then Some (n - 48)%N
  else if ((97 <=? n) && (n <=? 102))%N then Some (n - 87)%N
  else if ((65 <=? n) && (n <=? 70))%N then Some (n - 55)%N
  else None.

(** [hex.DecodeString]. *)
Fixpoint hex_bytes (l : bytes) : result bytes :=
  match l with
  | [] => Ok []
  | [_] => Err []
  | a :: b :: l =>
      match hex_value a, hex_value b with
      | Some x, Some y => let? r := hex_bytes l in Ok (ascii_of_N (16 * x + y) :: r)
      | _, _ => Err []
      end
  end.
Definition hex_DecodeString (s : string) : result bytes := hex_bytes (of_string s).

Definition head_json (h : WriterHead) : json :=
  JObj [("writer_id", JStr (wh_WriterID h)); ("seq", JInt (wh_Seq h)); ("hash", JStr (hex (wh_Hash h)))].

Definition head_of_json (j : json) : result WriterHead :=
  let? fs := fields_of j in
  let? w := dec_string (field "writer_id" fs) in
  let? n := dec_int (field "seq" fs) in
  let? hs := dec_string (field "hash" fs) in
  let? raw := hex_DecodeString hs in
  if bool_decide (length raw = 32) then Ok (mkHead w n raw) else Err [].

(** A nil slice is null. *)
Definition heads_json (hs : list WriterHead) : json :=
  match hs with [] => JNull | _ => JArr (map head_json hs) end.

Definition checkpoint_json (c : Checkpoint) : json :=
  JObj [("seq", JInt (ck_Seq c)); ("created_at", JTime (ck_CreatedAt c));
        ("heads", heads_json (ck_Heads c));
        ("heads_hash", JStr (hex (ck_HeadsHash c))); ("prev_hash", JStr (hex (ck_PrevHash c)));
        ("key_id", JStr (ck_KeyID c)); ("signature", JStr (hex (ck_Signature c)))].

Definition dec_heads (o : option json) : result (list WriterHead) :=
  match o with
  | None | Some JNull => Ok []
  | Some (JArr l) => res_map head_of_json l
  | _ => Err []
  end.

Definition checkpoint_of_json (j : json) : result Checkpoint :=
  let? fs := fields_of j in
  let? seq := dec_int (field "seq" fs) in
  let? at_ := dec_time (field "created_at" fs) in
  let? heads := dec_heads (field "heads" fs) in
  let? hh := dec_string (field "heads_hash" fs) in
  let? ph := dec_string (field "prev_hash" fs) in
  let? key := dec_string (field "key_id" fs) in
  let? sg := dec_string (field "signature" fs) in
  let? headsHash := hex_DecodeString hh in
  let? prevHash := hex_DecodeString ph in
  let? sig := hex_DecodeString sg in
  if bool_decide (length headsHash = 32) && bool_decide (length prevHash = 32)
  then Ok (mkCheckpoint seq at_ heads headsHash prevHash key sig) else Err [].

(** ** Digest, signer and verifier *)

Definition checkpointDomain : bytes := of_string "stamp.audit.checkpoint.v1".

Definition head_bytes (h : WriterHead) : bytes :=
  writeTagged (of_string (wh_WriterID h)) ++ writeInt64 (wh_Seq h) ++ wh_Hash h.

Definition checkpoint_preimage (seq : Z) (createdAt : Time.t) (prev : bytes) (heads : list WriterHead) : bytes :=
  writeTagged checkpointDomain ++ writeInt64 seq ++ writeInt64 (UnixMicro createdAt) ++ prev ++
  writeUint64 (Z.of_nat (length heads)) ++ (heads ≫= head_bytes).

Definition checkpointDigest `{AuditEnv} (seq : Z) (createdAt : Time.t) (prev : bytes) (heads : list WriterHead) : bytes :=
  sha256 (checkpoint_preimage seq createdAt prev heads).

Record CheckpointSigner `{Signing} := mkSigner { cs_keyID : string; cs_priv : privkey }.

(** [priv_len] is the length of the key handed in: 64 bytes for Ed25519. *)
Definition NewCheckpointSigner `{Signing} (keyID : string) (priv : privkey) (priv_len : Z) : result CheckpointSigner :=
  if bool_decide (keyID = "") then Err []
  else if bool_decide (priv_len = 64%Z) then Ok (mkSigner _ keyID priv) else Err [].

Notation CheckpointVerifier := (gmap string pubkey).

Definition Verify `{AuditEnv, Signing} (v : CheckpointVerifier) (c : Checkpoint) : result unit :=
  match v !! ck_KeyID c with
  | None => Err [ErrNoSignature]
  | Some pub =>
      if negb (bool_decide (checkpointDigest (ck_Seq c) (ck_CreatedAt c) (ck_PrevHash c) (ck_Heads c) = ck_HeadsHash c))
      then Err []
      else if ed_verify pub (ck_HeadsHash c) (ck_Signature c) then Ok tt else Err [ErrNoSignature]
  end.

(** ** Creating and delivering checkpoints *)

(** The log, the table, and the lines of the sink's file. *)
Record CkState := mkCkState { k_log : Log; k_table : list Checkpoint; k_sink : list json }.

Definition writers (log : Log) : list string := compact (Strings.sort_strings (map w_WriterID log)).

(** One head per segment: its row with the greatest number. *)
Definition headsTx (log : Log) : list WriterHead :=
  omap (λ w, (λ r, mkHead w (w_Seq r) (copy32 zeroHash (w_Hash r))) <$> last (segment w log)) (writers log).

Definition last_checkpoint (table : list Checkpoint) : option Checkpoint := last (sort_by ck_Seq Z.le table).

Section checkpoints.
Context `{AuditEnv, Signing}.

Definition new_checkpoint (signer : CheckpointSigner) (now : Time.t) (st : CkState) : Checkpoint :=
  let lastSeq := match last_checkpoint (k_table st) with Some c => ck_Seq c | None => 0%Z end in
  let prev := match last_checkpoint (k_table st) with Some c => copy32 zeroHash (ck_HeadsHash c) | None => zeroHash end in
  let heads := headsTx (k_log st) in
  let createdAt := Time.trunc_us now in
  let digest := checkpointDigest (lastSeq + 1) createdAt prev heads in
  mkCheckpoint (lastSeq + 1) createdAt heads digest prev (cs_keyID signer) (ed_sign (cs_priv signer) digest).

(** [FileSink.Publish]: one line appended, which may fail before or after. *)
Definition Publish (f : fault) (c : Checkpoint) (st : CkState) : result unit * CkState :=
  let st' := mkCkState (k_log st) (k_table st) (k_sink st ++ [checkpoint_json c]) in
  match f with Lost => (Err [], st) | NoFault => (Ok tt, st') | LostReply => (Err [], st') end.

(** [Checkpointer.Checkpoint]: the row is stored in a transaction, which [ftx] may
    fail, and then delivered, which [fpub] may fail. *)
Definition Checkpointer_Checkpoint (signer : option CheckpointSigner) (ftx fpub : fault) (now : Time.t) (st : CkState)
    : result Checkpoint * CkState :=
  match signer with
  | None => (Err [], st)
  | Some signer =>
      let cp := new_checkpoint signer now st in
      let st1 := mkCkState (k_log st) (k_table st ++ [cp]) (k_sink st) in
      match ftx with
      | Lost => (Err [ErrDatabase], st)
      | LostReply => (Err [ErrDatabase], st1)
      | NoFault =>
          match Publish fpub cp st1 with
          | (Ok _, st2) => (Ok cp, st2)
          | (Err e, st2) => (Err e, st2)
          end
      end
  end.

(** [FileSink.Checkpoints] and [Store.Checkpoints]. *)
Definition sink_Checkpoints (st : CkState) : result (list Checkpoint) := res_map checkpoint_of_json (k_sink st).
Definition Store_Checkpoints (st : CkState) : list Checkpoint := sort_by ck_Seq Z.le (k_table st).

(** [Sync]: publish what the sink does not have, one delivery fault per attempt. *)
Fixpoint sync_all (present : list Z) (stored : list Checkpoint) (fs : list fault) (published : Z) (st : CkState)
    : result Z * CkState :=
  match stored with
  | [] => (Ok published, st)
  | cp :: stored =>
      if contains present (ck_Seq cp) then sync_all present stored fs published st
      else match Publish (default NoFault (head fs)) cp st with
      | (Err e, st') => (Err e, st')
      | (Ok _, st') => sync_all present stored (tail fs) (published + 1) st'
      end
  end.

Definition Sync (fs : list fault) (st : CkState) : result Z * CkState :=
  match sink_Checkpoints st with
  | Err e => (Err e, st)
  | Ok have => sync_all (map ck_Seq have) (Store_Checkpoints st) fs 0 st
  end.

(** ** Verification *)

Definition by_seq (l : list Checkpoint) : gmap Z Checkpoint := foldl (λ m c, <[ck_Seq c := c]> m) ∅ l.

Definition find_row (w : string) (n : Z) (log : Log) : option Row :=
  (λ p, p.2) <$> list_find (λ r, w_WriterID r = w ∧ w_Seq r = n) log.

Definition head_faults (log : Log) (h : WriterHead) : list Fault :=
  match find_row (wh_WriterID h) (wh_Seq h) log with
  | None => [mkFault FaultMissingRow (wh_WriterID h) (wh_Seq h)]
  | Some r => if bool_decide (w_Hash r = wh_Hash h) then [] else [mkFault FaultHeadMismatch (wh_WriterID h) (wh_Seq h)]
  end.

Fixpoint external_faults (log : Log) (stored : gmap Z Checkpoint) (verifier : option CheckpointVerifier)
    (prev : bytes) (expected : Z) (l : list Checkpoint) : list Fault :=
  match l with
  | [] => []
  | cp :: l =>
      let fault k := mkFault k "" (ck_Seq cp) in
      (if bool_decide (ck_Seq cp = expected) then [] else [fault FaultCheckpointGap]) ++
      (if bool_decide (ck_PrevHash cp = prev) then [] else [fault FaultCheckpointChain]) ++
      (match verifier with
       | Some v => if is_ok (Verify v cp) then [] else [fault FaultCheckpointSignature]
       | None => []
       end) ++
      (match stored !! ck_Seq cp with
       | Some db => if bool_decide (ck_HeadsHash db = ck_HeadsHash cp) then [] else [fault FaultCheckpointChain]
       | None => []
       end) ++
      (ck_Heads cp ≫= head_faults log) ++
      external_faults log stored verifier (ck_HeadsHash cp) (ck_Seq cp + 1) l
  end.

Definition VerifyCheckpoints (verifier : option CheckpointVerifier) (st : CkState) : result (list Fault) :=
  let? ext := sink_Checkpoints st in
  let external := sort_by ck_Seq Z.le ext in
  let stored := Store_Checkpoints st in
  Ok ((stored ≫= λ cp, match by_seq external !! ck_Seq cp with
                       | None => [mkFault FaultCheckpointGap "" (ck_Seq cp)]
                       | Some _ => []
                       end) ++
      external_faults (k_log st) (by_seq stored) verifier zeroHash 1 external).

End checkpoints.

(** ** The wire form reads back *)

Lemma hex_digits_back a :
  hex_value (hex_digit (N_of_ascii a / 16)) = Some (N_of_ascii a / 16)%N ∧
  hex_value (hex_digit (N_of_ascii a mod 16)) = Some (N_of_ascii a mod 16)%N ∧
  ascii_of_N (16 * (N_of_ascii a / 16) + N_of_ascii a mod 16) = a.
Proof. destruct a as [[] [] [] [] [] [] [] []]; vm_compute; auto. Qed.

Lemma hex_back b : hex_DecodeString (hex b) = Ok b.
Proof.
  unfold hex_DecodeString, hex, of_string. rewrite String.list_ascii_of_string_of_list_ascii.
  induction b as [|a b IH]; [done|]. rewrite bind_cons. cbn [app hex_bytes].
  destruct (hex_digits_back a) as (-> & -> & E). rewrite IH. simpl. by rewrite E.
Qed.

#[local] Opaque hex hex_DecodeString.

Definition head_wf (h : WriterHead) : Prop := length (wh_Hash h) = 32.

Definition checkpoint_wf (c : Checkpoint) : Prop :=
  Forall head_wf (ck_Heads c) ∧ length (ck_HeadsHash c) = 32 ∧ length (ck_PrevHash c) = 32.

Lemma head_round_trip h : head_wf h → head_of_json (head_json h) = Ok h.
Proof.
  intros Hw. unfold head_of_json, head_json. simpl. rewrite hex_back. simpl.
  rewrite bool_decide_eq_true_2 by done. by destruct h.
Qed.

Lemma heads_round_trip hs :
  Forall head_wf hs → dec_heads (Some (heads_json hs)) = Ok hs.
Proof.
  intros Hw. destruct hs as [|h hs]; [done|]. cbn [dec_heads]. apply res_map_Ok.
  induction Hw as [|x l Hx Hl IH]; simpl; constructor; auto using head_round_trip.
Qed.

#[local] Opaque dec_heads heads_json.

Lemma checkpoint_round_trip c : checkpoint_wf c → checkpoint_of_json (checkpoint_json c) = Ok c.
Proof.
  intros (Hh & H1 & H2). unfold checkpoint_of_json, checkpoint_json. cbn [fields_of res_bind].
  unfold field. simpl. rewrite (heads_round_trip (ck_Heads c) Hh). simpl. rewrite !hex_back. simpl.
  rewrite !bool_decide_eq_true_2 by done. by destruct c.
Qed.

Lemma res_map_round_trip l : Forall checkpoint_wf l → res_map checkpoint_of_json (map checkpoint_json l) = Ok l.
Proof.
  intros Hw. apply res_map_Ok. induction Hw; simpl; constructor; auto using checkpoint_round_trip.
Qed.

(** ** The digest covers the series number, the time, the link and every head *)

Definition ck_fits (c : Checkpoint) : Prop :=
  checkpoint_wf c ∧ (- 2 ^ 63 <= ck_Seq c < 2 ^ 63)%Z ∧ (- 2 ^ 63 <= UnixMicro (ck_CreatedAt c) < 2 ^ 63)%Z ∧
  (Z.of_nat (length (ck_Heads c)) < 2 ^ 64)%Z ∧
  Forall (λ h, (Z.of_nat (length (of_string (wh_WriterID h))) < 2 ^ 64)%Z ∧ (- 2 ^ 63 <= wh_Seq h < 2 ^ 63)%Z) (ck_Heads c).

Definition preimage_of (c : Checkpoint) : bytes :=
  checkpoint_preimage (ck_Seq c) (ck_CreatedAt c) (ck_PrevHash c) (ck_Heads c).

Lemma head_bytes_inj h1 h2 x y :
  head_wf h1 → head_wf h2 →
  (Z.of_nat (length (of_string (wh_WriterID h1))) < 2 ^ 64)%Z ∧ (- 2 ^ 63 <= wh_Seq h1 < 2 ^ 63)%Z →
  (Z.of_nat (length (of_string (wh_WriterID h2))) < 2 ^ 64)%Z ∧ (- 2 ^ 63 <= wh_Seq h2 < 2 ^ 63)%Z →
  head_bytes h1 ++ x = head_bytes h2 ++ y → h1 = h2 ∧ x = y.
Proof.
  intros W1 W2 [L1 S1] [L2 S2] E. unfold head_bytes in E. rewrite <-!(assoc_L (++)) in E.
  apply writeTagged_inj in E as [Ew%of_string_inj E]; [|done..].
  apply app_inj_1 in E as [Es%writeInt64_inj E]; [|done|done|by rewrite !writeInt64_length].
  apply app_inj_1 in E as [Eh E]; [|congruence]. split; [|done]. destruct h1, h2; simpl in *; congruence.
Qed.

Lemma preimage_of_inj a b :
  ck_fits a → ck_fits b → preimage_of a = preimage_of b →
  ck_Seq a = ck_Seq b ∧ UnixMicro (ck_CreatedAt a) = UnixMicro (ck_CreatedAt b) ∧
  ck_PrevHash a = ck_PrevHash b ∧ ck_Heads a = ck_Heads b.
Proof.
  intros ((Wa & _ & Pa) & Sa & Ta & La & Fa) ((Wb & _ & Pb) & Sb & Tb & Lb & Fb) E.
  unfold preimage_of, checkpoint_preimage in E. apply app_inv_head in E.
  apply app_inj_1 in E as [Es%writeInt64_inj E]; [|done|done|by rewrite !writeInt64_length].
  apply app_inj_1 in E as [Et%writeInt64_inj E]; [|done|done|by rewrite !writeInt64_length].
  apply app_inj_1 in E as [Ep E]; [|congruence].
  apply app_inj_1 in E as [El%writeUint64_inj E]; [|by rewrite !writeUint64_length].
  split_and!; [done|done|done|]. rewrite !Z.mod_small in El by lia. apply Nat2Z.inj in El.
  clear -Wa Fa Wb Fb El E. revert Wb Fb El E. generalize (ck_Heads b) as hb.
  induction (ck_Heads a) as [|h l IH]; intros [|h' l'] Wb Fb El E; try done.
  apply Forall_cons in Wa as [Wa1 Wa], Wb as [Wb1 Wb], Fa as [Fa1 Fa], Fb as [Fb1 Fb].
  rewrite !bind_cons in E. apply head_bytes_inj in E as [-> E]; try done. f_equal. apply IH; auto.
Qed.
