(* ===== verification/CheckpointSpec.v ===== *)
(** * What the checkpoints show

    The two halves of what a signed series is worth: a log that verifies and agrees
    with its delivered checkpoints extends every log that was checkpointed, unless
    the hash collides; and an honest history never raises a fault.  The last part runs
    chains, the writer and checkpoints on concrete logs. *)
From Stdlib Require Import Ascii NArith.
From S2P Require Import Prelude GoLib Json Store World AuditChain AuditWriter AuditLog Checkpoint.

Lemma find_row_Some w n log r : find_row w n log = Some r → r ∈ log ∧ w_WriterID r = w ∧ w_Seq r = n.
Proof.
  unfold find_row. intros ([i x] & Hf & ->)%fmap_Some. apply list_find_Some in Hf as (Hi & [E1 E2] & _). simpl.
  split; [by eapply list_elem_of_lookup_2|done].
Qed.

Lemma find_row_elem w n log r : r ∈ log → w_WriterID r = w → w_Seq r = n → is_Some (find_row w n log).
Proof.
  intros Hr Hw Hn. unfold find_row. apply fmap_is_Some.
  apply (list_find_elem_of _ _ _ Hr). done.
Qed.

Lemma head_faults_nil log h :
  head_faults log h = [] → ∃ r, r ∈ log ∧ w_WriterID r = wh_WriterID h ∧ w_Seq r = wh_Seq h ∧ w_Hash r = wh_Hash h.
Proof.
  unfold head_faults. destruct (find_row _ _ log) as [r|] eqn:E; [|done]. apply find_row_Some in E as (Hr & Hw & Hn).
  case_bool_decide; [|done]. intros _. by exists r.
Qed.

Lemma bind_nil_Forall {A B} (f : A → list B) l : l ≫= f = [] ↔ Forall (λ x, f x = []) l.
Proof.
  induction l as [|x l IH]; [done|]. rewrite bind_cons, app_nil, Forall_cons, IH. done.
Qed.

Lemma writers_elem w log : w ∈ writers log ↔ ∃ r, r ∈ log ∧ w_WriterID r = w.
Proof.
  unfold writers, Strings.sort_strings. rewrite elem_of_compact, merge_sort_Permutation, elem_of_map. naive_solver.
Qed.

Lemma headsTx_elem h log :
  h ∈ headsTx log ↔ ∃ r, last (segment (wh_WriterID h) log) = Some r ∧ wh_Seq h = w_Seq r ∧ wh_Hash h = copy32 zeroHash (w_Hash r).
Proof.
  unfold headsTx. rewrite list_elem_of_omap. split.
  - intros (w & Hw & (r & Hr & ->)%fmap_Some). by exists r.
  - intros (r & Hr & Hs & Hh). exists (wh_WriterID h). split.
    + apply writers_elem. exists r. apply last_Some_elem_of, segment_elem in Hr. done.
    + rewrite Hr. simpl. destruct h; simpl in *. congruence.
Qed.

Section pinned.
Context `{AuditEnv}.

(** A verified log that still has the heads of an earlier verified log extends it. *)
Lemma heads_pin_log log log' w :
  ChainReport_OK (VerifyChain log) = true → ChainReport_OK (VerifyChain log') = true →
  (∀ x, x ∈ log ++ log' → w_WriterID x ≠ "" ∧ fits (stored_record x)) →
  Forall (λ h, head_faults log' h = []) (headsTx log) →
  covered_rows (segment w log) = covered_rows (take (length (segment w log)) (segment w log')) ∨
  collision (segment w log) (segment w log').
Proof.
  intros H1 H2 Hx Hh. destruct (last (segment w log)) as [r|] eqn:El.
  2:{ apply last_None in El. rewrite El. by left. }
  pose proof El as Hr%last_Some_elem_of%segment_elem. destruct Hr as [Hr Hw].
  assert (chained 1 zeroHash (segment w log)) as Hch by (apply VerifyChain_spec; [set_solver|done]).
  rewrite last_lookup in El. destruct (chained_lookup _ _ _ _ _ Hch El) as (Hseq & Hhash & _).
  assert (0 < length (segment w log)) as Hpos by (apply lookup_lt_Some in El; lia).
  rewrite Forall_forall in Hh. destruct (head_faults_nil log' (mkHead w (w_Seq r) (w_Hash r))) as (r' & Hr' & Ew & Es & Eh).
  { apply Hh, headsTx_elem. exists r. simpl. rewrite last_lookup. split_and!; [done|done|].
    rewrite copy32_full; [done|]. rewrite Hhash. apply recordHash_length. }
  simpl in *. destruct (chain_tamper_evident log log' r r' H1 H2 Hx Hr Hr') as [E|C]; [congruence..| |].
  - left. rewrite Hw in E. replace (Z.to_nat (w_Seq r)) with (length (segment w log)) in E by lia.
    by rewrite (take_ge (segment w log)) in E.
  - right. by rewrite Hw in C.
Qed.
End pinned.

Section verified.
Context `{AuditEnv, Signing}.

Lemma external_faults_nil log stored v prev n l :
  external_faults log stored (Some v) prev n l = [] →
  map ck_Seq l = seqZ n (Z.of_nat (length l)) ∧
  Forall (λ c, Verify v c = Ok tt ∧ Forall (λ h, head_faults log h = []) (ck_Heads c)) l.
Proof.
  revert prev n. induction l as [|c l IH]; intros prev n; [done|]. cbn [external_faults].
  rewrite !app_nil. intros (E1 & _ & E3 & _ & E5 & E6). case_bool_decide as Es; [|done].
  destruct (Verify v c) as [[]|] eqn:Ev; [|done]. apply IH in E6 as [Hs Hf]. split.
  - simpl length. rewrite Nat2Z.inj_succ, seqZ_cons, Z.pred_succ by lia. simpl. by rewrite Hs, Es, <-Z.add_1_r.
  - constructor; [|done]. split; [done|]. by apply bind_nil_Forall.
Qed.

Lemma Verify_Ok v c :
  Verify v c = Ok tt →
  ∃ pub, v !! ck_KeyID c = Some pub ∧ sha256 (preimage_of c) = ck_HeadsHash c ∧
         ed_verify pub (ck_HeadsHash c) (ck_Signature c) = true.
Proof.
  unfold Verify. destruct (v !! ck_KeyID c) as [pub|]; [|done]. case_bool_decide as E; [|done]. simpl.
  destruct (ed_verify _ _ _) eqn:Ev; [|done]. intros _. by exists pub.
Qed.

(** A record of the checkpoints that were made: when, over which database. *)
Definition made (signer : CheckpointSigner) (issued : list (Time.t * CkState)) (c : Checkpoint) (st : CkState) : Prop :=
  ∃ now, (now, st) ∈ issued ∧ c = new_checkpoint signer now st.

End verified.

(** C14. Rewriting the log is detected.  Let the signer have made the checkpoints
    [issued], each over a log that verified, and let the signature be unforgeable: a
    digest in the sink whose signature verifies is one the signer signed.  If re-chaining
    and the checkpoint check of a database report nothing, then the sink holds the
    checkpoints 1 to m without a gap, each agrees in number and heads with one that was
    made, and every segment of the log begins with the segment that was checkpointed;
    anything else needs a collision of the hash. *)
Theorem checkpoints_detect_rewrite `{AuditEnv, Signing} signer issued st ext :
  let v : CheckpointVerifier := {[cs_keyID signer := public (cs_priv signer)]} in
  (∀ c st0, made signer issued c st0 →
     ck_fits c ∧ ChainReport_OK (VerifyChain (k_log st0)) = true ∧
     ∀ x, x ∈ k_log st0 → w_WriterID x ≠ "" ∧ fits (stored_record x)) →
  sink_Checkpoints st = Ok ext →
  (∀ cp, cp ∈ ext → ck_fits cp ∧
     (ed_verify (public (cs_priv signer)) (ck_HeadsHash cp) (ck_Signature cp) = true →
      ∃ c st0, made signer issued c st0 ∧ ck_HeadsHash c = ck_HeadsHash cp)) →
  (∀ x, x ∈ k_log st → w_WriterID x ≠ "" ∧ fits (stored_record x)) →
  ChainReport_OK (VerifyChain (k_log st)) = true →
  VerifyCheckpoints (Some v) st = Ok [] →
  map ck_Seq (sort_by ck_Seq Z.le ext) = seqZ 1 (Z.of_nat (length ext)) ∧
  ∀ cp, cp ∈ ext → ∃ c st0, made signer issued c st0 ∧
    (preimage_of cp ≠ preimage_of c ∧ sha256 (preimage_of cp) = sha256 (preimage_of c) ∨
     ck_Seq cp = ck_Seq c ∧ ck_Heads cp = ck_Heads c ∧
     ∀ w, covered_rows (segment w (k_log st0)) =
            covered_rows (take (length (segment w (k_log st0))) (segment w (k_log st))) ∨
          collision (segment w (k_log st0)) (segment w (k_log st))).
Proof.
  intros v Hmade Hext Hsink Hrows Hchain Hver. unfold VerifyCheckpoints in Hver. rewrite Hext in Hver. simpl in Hver.
  injection Hver as [_ Hex]%app_nil. apply external_faults_nil in Hex as [Hseq Hall].
  rewrite length_sort_by in Hseq. split; [done|]. intros cp Hcp. rewrite Forall_forall in Hall.
  destruct (Hall cp) as [(pub & Hpub & Hdig & Hsig)%Verify_Ok Hheads]; [by rewrite elem_of_sort_by|].
  unfold v in Hpub. apply lookup_singleton_Some in Hpub as [_ <-].
  destruct (Hsink cp Hcp) as [Hfit Hun]. destruct (Hun Hsig) as (c & st0 & Hc & Eh). exists c, st0. split; [done|].
  destruct (Hmade c st0 Hc) as (Hcfit & Hchain0 & Hrows0).
  destruct Hc as (now & _ & Ec). assert (ck_HeadsHash c = sha256 (preimage_of c)) as Ehc by by rewrite Ec.
  destruct (decide (preimage_of cp = preimage_of c)) as [Ep|Ep]; [|left; split; [done|congruence]].
  right. apply preimage_of_inj in Ep as (Es & _ & _ & Ehd); [|done..]. split_and!; [done|done|]. intros w.
  apply heads_pin_log; [done|done| |]. { intros x [Hx|Hx]%elem_of_app; auto. }
  assert (ck_Heads c = headsTx (k_log st0)) as <- by by rewrite Ec. by rewrite <-Ehd.
Qed.

(** ** An honest history *)

Definition honest_log (log : Log) : Prop :=
  (∀ r1 r2, r1 ∈ log → r2 ∈ log → w_WriterID r1 = w_WriterID r2 → w_Seq r1 = w_Seq r2 → r1 = r2) ∧
  ∀ r, r ∈ log → length (w_Hash r) = 32.

Section honest.
Context `{AuditEnv, Signing} (signer : CheckpointSigner).

(** The log only grows, checkpoints are made and deliveries repaired. *)
Inductive ck_step (st : CkState) : CkState → Prop :=
  | step_log log' :
      (∀ r, r ∈ k_log st → r ∈ log') → honest_log log' → ck_step st (mkCkState log' (k_table st) (k_sink st))
  | step_checkpoint ftx fpub now : ck_step st (Checkpointer_Checkpoint (Some signer) ftx fpub now st).2
  | step_sync fs : ck_step st (Sync fs st).2.

Definition head_in (log : Log) (h : WriterHead) : Prop :=
  ∃ r, r ∈ log ∧ w_WriterID r = wh_WriterID h ∧ w_Seq r = wh_Seq h ∧ w_Hash r = wh_Hash h.

Fixpoint series (log : Log) (prev : bytes) (n : Z) (l : list Checkpoint) : Prop :=
  match l with
  | [] => True
  | c :: l =>
      ck_Seq c = n ∧ ck_PrevHash c = prev ∧ ck_HeadsHash c = sha256 (preimage_of c) ∧
      ck_KeyID c = cs_keyID signer ∧ ck_Signature c = ed_sign (cs_priv signer) (ck_HeadsHash c) ∧
      checkpoint_wf c ∧ Forall (head_in log) (ck_Heads c) ∧ series log (ck_HeadsHash c) (n + 1) l
  end.

Definition ck_tip (l : list Checkpoint) : bytes := match last l with Some c => ck_HeadsHash c | None => zeroHash end.

Record ck_inv (st : CkState) : Prop := {
  ki_log : honest_log (k_log st);
  ki_table : series (k_log st) zeroHash 1 (k_table st);
  ki_sink : ∃ l, k_sink st = map checkpoint_json l ∧ NoDup (map ck_Seq l) ∧ ∀ c, c ∈ l → c ∈ k_table st }.

Lemma series_app log prev n l1 l2 :
  series log prev n (l1 ++ l2) ↔
  series log prev n l1 ∧
  series log (match last l1 with Some c => ck_HeadsHash c | None => prev end) (n + Z.of_nat (length l1)) l2.
Proof.
  revert prev n. induction l1 as [|c l IH]; intros prev n; simpl; [rewrite Z.add_0_r; tauto|].
  rewrite IH. replace (n + 1 + Z.of_nat (length l))%Z with (n + Z.of_nat (S (length l)))%Z by lia.
  rewrite last_cons. destruct (last l); tauto.
Qed.

Lemma series_elem log prev n l i c :
  series log prev n l → l !! i = Some c →
  ck_Seq c = (n + Z.of_nat i)%Z ∧ checkpoint_wf c ∧ Forall (head_in log) (ck_Heads c).
Proof.
  revert prev n i. induction l as [|x l IH]; intros prev n i; [done|]. simpl.
  intros (Hs & _ & _ & _ & _ & Hw & Hh & Hl). destruct i as [|i]; simpl.
  - intros [= <-]. split_and!; [lia|done|done].
  - intros Hi. destruct (IH _ _ _ Hl Hi) as (-> & ? & ?). split_and!; [lia|done|done].
Qed.

Lemma series_seqs log prev n l : series log prev n l → map ck_Seq l = seqZ n (Z.of_nat (length l)).
Proof.
  revert prev n. induction l as [|c l IH]; intros prev n; simpl; [done|].
  intros (-> & _ & _ & _ & _ & _ & _ & Hl). rewrite (IH _ _ Hl).
  rewrite Nat2Z.inj_succ, (seqZ_cons n) by lia. by rewrite Z.pred_succ, Z.add_1_r.
Qed.

Lemma series_sorted log prev n l : series log prev n l → sort_by ck_Seq Z.le l = l.
Proof.
  intros Hs. apply sort_by_sorted. revert prev n Hs. induction l as [|c l IH]; intros prev n Hs; [constructor|].
  simpl in Hs. destruct Hs as (Hc & _ & _ & _ & _ & _ & _ & Hl). constructor; [by eapply IH|].
  apply Forall_forall. intros x [i Hi]%list_elem_of_lookup. destruct (series_elem _ _ _ _ _ _ Hl Hi) as (Hx & _).
  unfold key_le. lia.
Qed.

Lemma series_log log log' prev n l :
  (∀ r, r ∈ log → r ∈ log') → series log prev n l → series log' prev n l.
Proof.
  intros Hsub. revert prev n. induction l as [|c l IH]; intros prev n; simpl; [done|].
  intros (? & ? & ? & ? & ? & ? & Hh & ?). split_and!; auto. eapply Forall_impl; [done|].
  intros h (r & Hr & ?). exists r. auto.
Qed.

(** A checkpoint continues the series. *)
Lemma new_checkpoint_series now st :
  ck_inv st → series (k_log st) zeroHash 1 (k_table st ++ [new_checkpoint signer now st]).
Proof.
  intros [[Hk Hl] Ht _]. apply series_app. split; [done|].
  assert (last_checkpoint (k_table st) = last (k_table st)) as El by (unfold last_checkpoint; by rewrite (series_sorted _ _ _ _ Ht)).
  assert (Forall (head_in (k_log st)) (headsTx (k_log st)) ∧ Forall head_wf (headsTx (k_log st))) as [Hin Hwf].
  { split; apply Forall_forall; intros h (r & Hr & Es & Eh)%headsTx_elem; apply last_Some_elem_of, segment_elem in Hr as [Hr Hw];
      rewrite copy32_full in Eh by auto.
    - exists r. auto.
    - unfold head_wf. rewrite Eh. auto. }
  unfold new_checkpoint. rewrite El. rewrite last_lookup. destruct (k_table st !! _) as [c|] eqn:Ec.
  - destruct (series_elem _ _ _ _ _ _ Ht Ec) as (Hs & (_ & Hh & _) & _). pose proof (lookup_lt_Some _ _ _ Ec).
    rewrite copy32_full by done. simpl. split_and!; try done; [lia|]. split_and!; simpl; [done|apply sha256_length|done].
  - assert (k_table st = []) as -> by (destruct (k_table st); [done|]; apply lookup_ge_None in Ec; simpl in *; lia).
    simpl. split_and!; try done. split_and!; simpl; [done|apply sha256_length|done].
Qed.

Definition sink_ok (table : list Checkpoint) (l : list Checkpoint) : Prop :=
  NoDup (map ck_Seq l) ∧ ∀ c, c ∈ l → c ∈ table.

Lemma sink_ok_snoc table l c : sink_ok table l → c ∈ table → ck_Seq c ∉ map ck_Seq l → sink_ok table (l ++ [c]).
Proof.
  intros [Hnd Hsub] Hc Hn. split.
  - rewrite map_app. apply NoDup_app. split_and!; [done|set_solver|apply NoDup_singleton].
  - set_solver.
Qed.

Lemma sync_all_inv present stored fs n log table sink l :
  honest_log log → series log zeroHash 1 table → sink = map checkpoint_json l → sink_ok table l →
  NoDup (map ck_Seq stored) → (∀ c, c ∈ stored → c ∈ table ∧ (ck_Seq c ∉ present → ck_Seq c ∉ map ck_Seq l)) →
  ck_inv (sync_all present stored fs n (mkCkState log table sink)).2.
Proof.
  intros Hl Ht. revert fs n sink l. induction stored as [|c stored IH]; intros fs n sink l Es Hok Hnd Hst; simpl.
  { split; [done|done|]. by exists l. }
  apply NoDup_cons in Hnd as [Hc Hnd]. destruct (contains present (ck_Seq c)) eqn:Ep.
  { apply (IH _ _ _ l); auto. intros x Hx. apply Hst. by right. }
  destruct (Hst c) as [Hct Hcn]; [by left|].
  assert (ck_Seq c ∉ map ck_Seq l) as Hn by (apply Hcn; intros E%contains_spec; congruence).
  pose proof (sink_ok_snoc _ _ _ Hok Hct Hn) as Hok'.
  assert (ck_inv (mkCkState log table (sink ++ [checkpoint_json c]))) as Hinv.
  { split; [done|done|]. exists (l ++ [c]). simpl. by rewrite Es, map_app. }
  unfold Publish. destruct (default NoFault (head fs)); simpl; [|split; [done|done|by exists l]|done].
  apply (IH _ _ _ (l ++ [c])); [by rewrite Es, map_app|done|done|]. intros x Hx. split; [apply Hst; by right|].
  intros Hp. rewrite map_app, elem_of_app. intros [Hin|Hin%list_elem_of_singleton].
  - revert Hin. apply Hst; [by right|done].
  - apply Hc. rewrite <-Hin. apply elem_of_map. eauto.
Qed.

Lemma ck_step_inv st st' : ck_inv st → ck_step st st' → ck_inv st'.
Proof.
  intros Hi Hs. pose proof Hi as [Hl Ht (l & Es & Hok)]. destruct Hs as [log' Hsub Hl'|ftx fpub now|fs].
  - split; [done|by eapply series_log|by exists l].
  - pose proof (new_checkpoint_series now st Hi) as Hnew. unfold Checkpointer_Checkpoint. set (cp := new_checkpoint _ _ _) in *.
    assert (ck_Seq cp ∉ map ck_Seq l) as Hn.
    { intros (x & Ex & Hx)%elem_of_map. apply Hok in Hx.
      pose proof (series_seqs _ _ _ _ Hnew) as Hsq. rewrite length_app, map_app in Hsq.
      assert (NoDup (map ck_Seq (k_table st) ++ [ck_Seq cp])) as Hnd by (change ([ck_Seq cp]) with (map ck_Seq [cp]); rewrite Hsq; apply NoDup_seqZ).
      apply NoDup_app in Hnd as (_ & Hd & _). apply (Hd (ck_Seq x)); [apply elem_of_map; eauto|]. rewrite Ex. by left. }
    assert (sink_ok (k_table st ++ [cp]) l) as Hok1 by (split; [apply Hok|]; intros c Hc; apply elem_of_app; left; by apply Hok).
    destruct ftx; simpl; [|done|split; [done|done|by exists l]].
    unfold Publish. simpl. destruct fpub; simpl; (split; [done|done|]); simpl; try (by exists l).
    all: exists (l ++ [cp]); rewrite Es, map_app; split; [done|]; apply sink_ok_snoc; [done|set_solver|done].
  - unfold Sync. destruct (sink_Checkpoints st) as [have|e] eqn:Eh; [|done].
    assert (have = l) as ->.
    { unfold sink_Checkpoints in Eh. rewrite Es, res_map_round_trip in Eh by
        (apply Forall_forall; intros c Hc%Hok; apply list_elem_of_lookup in Hc as [i Hi']; by eapply (series_elem _ _ _ _ _ _ Ht Hi')).
      by injection Eh as ->. }
    destruct st as [log table sink]. unfold Store_Checkpoints. simpl in *. rewrite (series_sorted _ _ _ _ Ht).
    apply (sync_all_inv _ _ _ _ _ _ _ l); try done. rewrite (series_seqs _ _ _ _ Ht). apply NoDup_seqZ.
Qed.

Lemma by_seq_lookup l c : NoDup (map ck_Seq l) → c ∈ l → by_seq l !! ck_Seq c = Some c.
Proof.
  intros Hnd Hc. unfold by_seq. assert (∀ m : gmap Z Checkpoint, (c ∈ l ∨ m !! ck_Seq c = Some c ∧ ck_Seq c ∉ map ck_Seq l) →
    foldl (λ m c, <[ck_Seq c := c]> m) m l !! ck_Seq c = Some c) as Hg; [|auto].
  clear Hc. induction l as [|x l IH]; intros m Hm; simpl; [set_solver|]. simpl in Hnd. apply NoDup_cons in Hnd as [Hx Hnd].
  apply IH; [done|]. destruct Hm as [[->|Hc]%elem_of_cons|[Hm Hn]].
  - right. by rewrite lookup_insert_eq.
  - by left.
  - right. simpl in Hn. rewrite lookup_insert_ne by set_solver. set_solver.
Qed.

Lemma series_clean log stored prev n l :
  honest_log log → series log prev n l → (∀ c, c ∈ l → stored !! ck_Seq c = Some c) →
  external_faults log stored (Some {[cs_keyID signer := public (cs_priv signer)]}) prev n l = [].
Proof.
  intros [Hk Hl]. revert prev n. induction l as [|c l IH]; intros prev n Hs Hst; [done|]. cbn [series external_faults] in *.
  destruct Hs as (Hseq & Hprev & Hdig & Hkey & Hsig & _ & Hh & Hrest).
  rewrite !bool_decide_eq_true_2 by done. simpl.
  assert (Verify {[cs_keyID signer := public (cs_priv signer)]} c = Ok tt) as ->.
  { unfold Verify. rewrite Hkey, lookup_singleton_eq. rewrite bool_decide_eq_true_2 by done. simpl.
    by rewrite Hsig, ed_correct. }
  simpl. rewrite (Hst c) by by left. rewrite bool_decide_eq_true_2 by done. simpl.
  rewrite Hseq, IH, app_nil_r by (try done; intros; apply Hst; by right).
  apply bind_nil_Forall. eapply Forall_impl; [exact Hh|]. intros h (r & Hr & Hw & Hn & Hhash).
  unfold head_faults. destruct (find_row_elem _ _ _ _ Hr Hw Hn) as [r' Hf]. rewrite Hf.
  apply find_row_Some in Hf as (Hr' & Hw' & Hn'). rewrite (Hk r' r) by congruence. by rewrite bool_decide_eq_true_2.
Qed.
End honest.

(** An honest history raises no alarm.  However transactions and deliveries fail,
    after any sequence of log growth, checkpoints and repairs, once every stored
    checkpoint has been delivered (in whatever order) the checkpoint check with the
    signer's key reports nothing. *)
Theorem honest_history_verifies `{AuditEnv, Signing} signer st l :
  rtc (ck_step signer) (mkCkState [] [] []) st → sink_Checkpoints st = Ok l → (∀ c, c ∈ k_table st → c ∈ l) →
  VerifyCheckpoints (Some {[cs_keyID signer := public (cs_priv signer)]}) st = Ok [].
Proof.
  intros Hrun Hl Hall. assert (ck_inv signer st) as Hi.
  { assert (ck_inv signer (mkCkState [] [] [])) as Hinit.
    { split; simpl; [split; set_solver|done|]. exists []. split; [done|]. split; [constructor|set_solver]. }
    clear Hl Hall. induction Hrun; eauto using ck_step_inv. }
  destruct Hi as [Hlog Ht (l' & Es & Hnd & Hsub)].
  assert (l' = l) as ->.
  { unfold sink_Checkpoints in Hl. rewrite Es, res_map_round_trip in Hl by
      (apply Forall_forall; intros c Hc%Hsub; apply list_elem_of_lookup in Hc as [i Hi']; by eapply (series_elem _ _ _ _ _ _ _ Ht Hi')).
    by injection Hl as ->. }
  assert (sort_by ck_Seq Z.le l = k_table st) as Esort.
  { rewrite <-(series_sorted _ _ _ _ _ Ht). apply (sort_by_unique ck_Seq Z.le); [done|].
    apply NoDup_Permutation; [by eapply NoDup_fmap_1| |naive_solver].
    eapply (NoDup_fmap_1 ck_Seq). change (ck_Seq <$> k_table st) with (map ck_Seq (k_table st)).
    rewrite (series_seqs _ _ _ _ _ Ht). apply NoDup_seqZ. }
  assert (NoDup (map ck_Seq (k_table st))) as Hndt by (rewrite (series_seqs _ _ _ _ _ Ht); apply NoDup_seqZ).
  unfold VerifyCheckpoints. rewrite Hl. simpl. unfold Store_Checkpoints. rewrite Esort, (series_sorted _ _ _ _ _ Ht).
  rewrite series_clean; [|done|done|intros; by apply by_seq_lookup]. rewrite app_nil_r. f_equal.
  apply bind_nil_Forall, Forall_forall. intros c Hc. by rewrite by_seq_lookup.
Qed.

(** ** The audit theorems at work

    A small deployment: a writer that loses the reply of a commit and recovers, a
    log checkpointed and verified.  The digest and the signature are toys with the
    shape of the real ones. *)

Definition toy_sha (b : bytes) : bytes := be_bytes 32 (fnv64a b).

Definition toy_env : AuditEnv :=
  Build_AuditEnv toy_sha (λ b, be_bytes_length 32 (fnv64a b)) (λ _, of_string "{}") (λ _, of_string "{}") (λ j, j)
    (λ _, eq_refl) (λ _, eq_refl).
#[local] Existing Instance toy_env.

Definition toy_signing : Signing :=
  Build_Signing nat nat (λ k, k) (λ k m, m ++ [ascii_of_nat k]) (λ k m s, bool_decide (s = m ++ [ascii_of_nat k]))
    (λ k m, bool_decide_eq_true_2 _ eq_refl).
#[local] Existing Instance toy_signing.

Definition a_key : Z := advisoryKey "stamp:audit-writer:w1".
Definition start (steps : list astep) : AState :=
  mkAState (mkWriter "w1" a_key 7 0 zeroHash false false) (mkADB [] ∅ {[a_key := 7]}) steps.
Definition entry (k : string) : Entry := mkEntry k "s" (PDoc (JObj [("n", JInt 1)])).

Definition lossy : list astep := [mkAStep (λ db, db) LostReply (λ n, n)].

Lemma start_inv steps : Forall (exclusive "w1") steps → winv_ok "w1" (start steps).
Proof. intros Hs. split; [|done]. split; simpl; [done|done|exists 0; split_and!; [simpl; lia|done|done]|done]. Qed.

Lemma lossy_exclusive : Forall (exclusive "w1") lossy.
Proof. repeat constructor. Qed.

(** The first append is committed and its reply lost; the second collides, adopts
    it and lands after the marker. *)
Example lost_then_recovered :
  let '(rs, s) := run_calls [CAppend [entry "a"]; CAppend [entry "b"]] (start lossy) in
  rs = [Err [ErrDatabase]; Ok tt] ∧
  map au_Kind (log_of "w1" s) = ["a"; AuditKindWriterReconciled; "b"] ∧
  ChainReport_OK (VerifyChain (a_log (st_db s))) = true.
Proof. vm_compute. auto. Qed.

Lemma writer_refines_log_witness :
  winv_ok "w1" (start lossy) ∧
  let '(rs, s') := run_calls [CAppend [entry "a"]; CAppend [entry "b"]] (start lossy) in
  winv_ok "w1" s' ∧ log_run "w1" (log_of "w1" (start lossy)) [CAppend [entry "a"]; CAppend [entry "b"]] rs (log_of "w1" s').
Proof.
  split; [apply start_inv, lossy_exclusive|].
  exact (writer_refines_log "w1" (start lossy) [CAppend [entry "a"]; CAppend [entry "b"]] (start_inv _ lossy_exclusive)).
Defined.

Definition lagging : AState := (AuditWriter_Append [entry "a"] (start lossy)).2.

Lemma lagging_inv : winv_ok "w1" lagging.
Proof.
  pose proof (Append_spec "w1" [entry "a"] (start lossy) (start_inv _ lossy_exclusive)) as Hs. unfold lagging.
  destruct (AuditWriter_Append _ _) as [r s]. by destruct Hs as (? & ? & _ & _ & Hw & _).
Qed.

Lemma append_recovers_witness :
  ∃ s' ms, AuditWriter_Append [entry "b"] lagging = (Ok tt, s') ∧ winv_ok "w1" s' ∧ healthy s' ∧
    log_of "w1" s' = log_of "w1" lagging ++ ms ++ [mkAudit "b" "s" (JObj [("n", JInt 1)])] ∧
    Forall (is_marker "w1") ms ∧ length ms ≤ 1.
Proof.
  apply (append_recovers "w1" lagging [entry "b"] [mkAudit "b" "s" (JObj [("n", JInt 1)])] lagging_inv).
  - split_and!; vm_compute; [reflexivity|reflexivity|constructor].
  - vm_compute. reflexivity.
  - vm_compute. reflexivity.
  - vm_compute. intros [=].
Defined.

(** ** Chains *)

Definition demo_log : Log := a_log (st_db (run_calls [CAppend [entry "a"; entry "b"]] (start [])).2).

(** [fits] as a test. *)
Definition int64_b (z : Z) : bool := (- 2 ^ 63 <=? z)%Z && (z <? 2 ^ 63)%Z.
Definition short_b (b : bytes) : bool := (Z.of_nat (length b) <? 2 ^ 64)%Z.
Definition fits_b (r : AuditRecord) : bool :=
  forallb short_b [of_string (r_WriterID r); of_string (r_Kind r); of_string (r_Subject r); r_Payload r] &&
  int64_b (r_Seq r) && int64_b (UnixMicro (r_RecordedAt r)) && bool_decide (length (r_PrevHash r) = 32).

Lemma int64_b_true z : int64_b z = true → (- 2 ^ 63 <= z < 2 ^ 63)%Z.
Proof. unfold int64_b. lia. Qed.

Lemma fits_b_true r : fits_b r = true → fits r.
Proof.
  unfold fits_b. rewrite !andb_true_iff, forallb_true. intros [[[Hs Hn%int64_b_true] Ht%int64_b_true] Hp%bool_decide_eq_true].
  split_and!; try apply Hn; try apply Ht; [|done]. intros b Hb%Hs. unfold short_b in Hb. lia.
Qed.

Definition demo_rows_ok (log : Log) : bool :=
  forallb (λ x, negb (bool_decide (w_WriterID x = "")) && fits_b (stored_record x)) log.

Lemma demo_rows_ok_true log x : demo_rows_ok log = true → x ∈ log → w_WriterID x ≠ "" ∧ fits (stored_record x).
Proof.
  unfold demo_rows_ok. rewrite forallb_true. intros Hl [Hn Hf]%Hl%andb_true_iff.
  apply negb_true_iff, bool_decide_eq_false in Hn. split; [done|by apply fits_b_true].
Qed.

Lemma demo_rows x : x ∈ demo_log → w_WriterID x ≠ "" ∧ fits (stored_record x).
Proof. apply demo_rows_ok_true. vm_compute. reflexivity. Qed.

Lemma VerifyChain_spec_witness :
  ChainReport_OK (VerifyChain demo_log) = true ↔ ∀ w, chained 1 zeroHash (segment w demo_log).
Proof. apply (VerifyChain_spec demo_log). intros r Hr. by apply demo_rows. Defined.

Definition demo_row (n : nat) : Row := default (mkRow "" 0 [] [] "" "" JNull 0%Z) (demo_log !! n).

Lemma chain_tamper_evident_witness :
  covered_rows (take 2 (segment "w1" demo_log)) = covered_rows (take 2 (segment "w1" (demo_log ++ [])))
  ∨ collision (segment "w1" demo_log) (segment "w1" (demo_log ++ [])).
Proof.
  apply (chain_tamper_evident demo_log (demo_log ++ []) (demo_row 1) (demo_row 1)).
  - vm_compute. reflexivity.
  - vm_compute. reflexivity.
  - intros x [Hx|Hx]%elem_of_app; [by apply demo_rows|]. rewrite app_nil_r in Hx. by apply demo_rows.
  - apply (list_elem_of_lookup_2 _ 1). vm_compute. reflexivity.
  - apply (list_elem_of_lookup_2 _ 1). vm_compute. reflexivity.
  - reflexivity.
  - reflexivity.
  - reflexivity.
Defined.

Lemma MerkleRoot_binding_witness :
  let xs := [of_string "a"; of_string "b"; of_string "c"] in
  xs = xs ∨ hash_collision (merkle_hashed xs) (merkle_hashed xs).
Proof. intros xs. exact (MerkleRoot_binding xs xs eq_refl). Defined.

(** ** Checkpoints *)

Definition signer : CheckpointSigner := mkSigner _ "k1" 3.
Definition st_logged : CkState := mkCkState demo_log [] [].
Definition st_done : CkState := (Checkpointer_Checkpoint (Some signer) NoFault NoFault 5000%Z st_logged).2.
Definition demo_cp : Checkpoint := new_checkpoint signer 5000%Z st_logged.

Definition ck_fits_b (c : Checkpoint) : bool :=
  forallb (λ h, bool_decide (length (wh_Hash h) = 32) && short_b (of_string (wh_WriterID h)) && int64_b (wh_Seq h)) (ck_Heads c) &&
  bool_decide (length (ck_HeadsHash c) = 32) && bool_decide (length (ck_PrevHash c) = 32) &&
  int64_b (ck_Seq c) && int64_b (UnixMicro (ck_CreatedAt c)) && (Z.of_nat (length (ck_Heads c)) <? 2 ^ 64)%Z.

Lemma ck_fits_b_true c : ck_fits_b c = true → ck_fits c.
Proof.
  unfold ck_fits_b. rewrite !andb_true_iff, forallb_true.
  intros [[[[[Hh H1%bool_decide_eq_true] H2%bool_decide_eq_true] H3%int64_b_true] H4%int64_b_true] H5].
  assert (∀ h, h ∈ ck_Heads c → length (wh_Hash h) = 32 ∧ (Z.of_nat (length (of_string (wh_WriterID h))) < 2 ^ 64)%Z ∧
    (- 2 ^ 63 <= wh_Seq h < 2 ^ 63)%Z) as Hall.
  { intros h Hx. apply Hh in Hx. unfold short_b in Hx. rewrite !andb_true_iff in Hx. destruct Hx as [[Ha%bool_decide_eq_true Hb] Hc%int64_b_true]. split_and!; [done|lia|apply Hc|apply Hc]. }
  split_and!; try apply H3; try apply H4; [split_and!| |]; try done; [|lia|]; apply Forall_forall; intros h Hx; by apply Hall in Hx as (? & ? & ?).
Qed.

Lemma demo_made c st0 : made signer [(5000%Z, st_logged)] c st0 → c = demo_cp ∧ st0 = st_logged.
Proof. intros (now & [= -> ->]%list_elem_of_singleton & ->). done. Qed.

Lemma demo_cp_fits : ck_fits demo_cp.
Proof. apply ck_fits_b_true. vm_compute. reflexivity. Qed.

Lemma checkpoints_detect_rewrite_witness :
  map ck_Seq (sort_by ck_Seq Z.le [demo_cp]) = seqZ 1 1 ∧
  ∀ cp, cp ∈ [demo_cp] → ∃ c st0, made signer [(5000%Z, st_logged)] c st0 ∧
    (preimage_of cp ≠ preimage_of c ∧ sha256 (preimage_of cp) = sha256 (preimage_of c) ∨
     ck_Seq cp = ck_Seq c ∧ ck_Heads cp = ck_Heads c ∧
     ∀ w, covered_rows (segment w (k_log st0)) =
            covered_rows (take (length (segment w (k_log st0))) (segment w (k_log st_done))) ∨
          collision (segment w (k_log st0)) (segment w (k_log st_done))).
Proof.
  apply (checkpoints_detect_rewrite signer [(5000%Z, st_logged)] st_done [demo_cp]).
  - intros c st0 [-> ->]%demo_made. split_and!; [apply demo_cp_fits|vm_compute; reflexivity|apply demo_rows].
  - vm_compute. reflexivity.
  - intros cp Hcp. apply list_elem_of_singleton in Hcp as ->. split; [apply demo_cp_fits|]. intros _. exists demo_cp, st_logged.
    split; [|reflexivity]. exists 5000%Z. split; [by apply list_elem_of_singleton|reflexivity].
  - apply demo_rows.
  - vm_compute. reflexivity.
  - vm_compute. reflexivity.
Defined.

Lemma honest_history_verifies_witness :
  VerifyCheckpoints (Some {[cs_keyID signer := public (cs_priv signer)]}) st_done = Ok [].
Proof.
  apply (honest_history_verifies signer st_done [demo_cp]).
  - eapply rtc_l; [apply (step_log _ _ demo_log)|eapply rtc_l; [apply (step_checkpoint _ _ NoFault NoFault 5000%Z)|apply rtc_refl]].
    + intros r Hr. by apply elem_of_nil in Hr.
    + assert (demo_log = [demo_row 0; demo_row 1]) as -> by (vm_compute; reflexivity). split.
      * intros r1 r2 H1 H2 _ E. rewrite elem_of_cons, list_elem_of_singleton in H1, H2.
        destruct H1 as [->| ->], H2 as [->| ->]; try done; vm_compute in E; done.
      * intros r Hr. rewrite elem_of_cons, list_elem_of_singleton in Hr. destruct Hr as [->| ->]; vm_compute; reflexivity.
  - vm_compute. reflexivity.
  - intros c Hc. exact Hc.
Defined.
