(* ===== verification/Velocity.v ===== *)
(** * Velocity aggregates

    Models the ingestion port and the bucket store: internal/stream/port.go,
    aggregate.go, internal/store/buckets.go (tables of migration 000004) and the
    retention sweep of internal/runtime/wiring.go.  An event is deduplicated on
    caller, identifier and metric and folded into a fixed-width bucket in one
    transaction; a window sums buckets. *)
From S2P Require Import Prelude GoLib Policy Json World.

(** ** The port *)

Record Event := mkEvent {
  ev_CallerID : string; ev_EventID : string; ev_Metric : string; ev_SubjectID : string;
  ev_Value : Float64.t; ev_ProducedAt : Time.t }.

#[export] Instance Event_eq_dec : EqDecision Event.
Proof. solve_decision. Defined.

Definition MaxClockSkew : Time.duration := (5 * Time.Minute)%Z.

Definition Event_Validate (e : Event) : result unit :=
  if bool_decide (ev_CallerID e = "") then Err [ErrNoCaller; ErrRejected]
  else if bool_decide (ev_EventID e = "") then Err [ErrNoEventID; ErrRejected]
  else if bool_decide (ev_Metric e = "") then Err [ErrNoMetric; ErrRejected]
  else if bool_decide (ev_SubjectID e = "") then Err [ErrNoSubject; ErrRejected]
  else if Time.IsZero (ev_ProducedAt e) then Err [ErrNoProducedAt; ErrRejected]
  else if negb (Float64.is_finite (ev_Value e)) then Err [ErrValueNotFinite; ErrRejected]
  else Ok tt.

Record Result_ := mkResult { rs_Applied : Z; rs_Duplicates : Z }.

(** [LagTracker]: the newest confirmed producer timestamp. *)
Definition LagTracker := Time.t.

Definition newest (events : list Event) : Time.t :=
  foldl (λ n e, if Time.After (ev_ProducedAt e) n then ev_ProducedAt e else n) Time.zero events.

Definition Observe (t : LagTracker) (events : list Event) : LagTracker :=
  let n := newest events in
  if Time.IsZero n then t else if Time.After n t then n else t.

Definition LagTracker_Lag (t : LagTracker) (now : Time.t) : option Time.duration :=
  if Time.IsZero t then None
  else let lag := Time.Sub now t in Some (if (lag <? 0)%Z then 0%Z else lag).

(** ** Buckets *)

Definition Hour : Time.duration := (3600 * Time.Second)%Z.
Definition MaxDeclarableWindow : Time.duration := (30 * 24 * Hour)%Z.
Definition DedupRetentionSlack : Time.duration := (24 * Hour)%Z.
Definition DefaultDedupRetention : Time.duration := (MaxDeclarableWindow + DedupRetentionSlack)%Z.

Record BucketEvent := mkBucketEvent {
  be_CallerID : string; be_EventID : string; be_Metric : string; be_SubjectID : string;
  be_Value : Float64.t; be_At : Time.t; be_Width : Time.duration }.

#[export] Instance BucketEvent_eq_dec : EqDecision BucketEvent.
Proof. solve_decision. Defined.

Notation event_key := (string * string * string)%type.
Notation bucket_key := (string * string * Z * Z)%type.

(** processed_events, and velocity_buckets with the count and the sum of each. *)
Record VDB := mkVDB { v_events : gmap event_key Z; v_buckets : gmap bucket_key (Z * Float64.t) }.

Definition widthSeconds (width : Time.duration) : result Z :=
  if (width <=? 0)%Z then Err []
  else if (MaxDeclarableWindow <? width)%Z then Err []
  else Ok (Z.quot width Time.Second).

(** [Truncate] counts from the zero time. *)
Definition BucketStart (at_ : Time.t) (width : Time.duration) : Time.t :=
  (at_ - (at_ - Time.zero) mod width)%Z.

Definition dedup_key (ev : BucketEvent) : event_key := (be_CallerID ev, be_EventID ev, be_Metric ev).

(** [float8pl]: a sum of finite values that overflows is an error. *)
Definition float8_add (x y : Float64.t) : result Float64.t :=
  let s := Float64.add x y in if Float64.is_finite s then Ok s else Err [].

(** [bucket_start] as the column keeps it. *)
Definition bucket_of (seconds : Z) (at_ : Time.t) (ev : BucketEvent) : bucket_key :=
  (be_SubjectID ev, be_Metric ev, seconds, Time.trunc_us (BucketStart at_ (be_Width ev))).

Definition upsert (k : bucket_key) (v : Float64.t) (m : gmap bucket_key (Z * Float64.t))
    : result (gmap bucket_key (Z * Float64.t)) :=
  match m !! k with
  | None => Ok (<[k := (1%Z, v)]> m)
  | Some (n, s) => let? s' := float8_add s v in Ok (<[k := ((n + 1)%Z, s')]> m)
  end.

(** [now] is the clock an event without a timestamp is stamped from. *)
Definition RecordEventTx (now : Time.t) (ev : BucketEvent) (db : VDB) : result (bool * VDB) :=
  let? seconds := widthSeconds (be_Width ev) in
  if bool_decide (be_CallerID ev = "") || bool_decide (be_EventID ev = "") || bool_decide (be_Metric ev = "") then Err []
  else
    let at_ := if Time.IsZero (be_At ev) then now else be_At ev in
    match v_events db !! dedup_key ev with
    | Some _ => Ok (false, db)
    | None =>
        if (seconds <=? 0)%Z then Err []
        else
          let? buckets := upsert (bucket_of seconds at_ ev) (be_Value ev) (v_buckets db) in
          Ok (true, mkVDB (<[dedup_key ev := Time.trunc_us at_]> (v_events db)) buckets)
    end.

Record BucketWindow := mkWindow { bw_Count : Z; bw_Sum : Float64.t }.

(** The buckets a window reads. *)
Definition in_window (subject metric : string) (seconds : Z) (lo hi : Time.t) (k : bucket_key) : bool :=
  let '(s, m, w, start) := k in
  bool_decide (s = subject) && bool_decide (m = metric) && (w =? seconds)%Z &&
  (Time.trunc_us lo <=? start)%Z && (start <? Time.trunc_us hi)%Z.

(** [sum] over a column: nothing is null, which [coalesce] makes zero.  The rows come
    in no particular order. *)
Fixpoint float8_sum (acc : option Float64.t) (l : list Float64.t) : result Float64.t :=
  match l with
  | [] => Ok (default (Float64.of_Z 0) acc)
  | x :: l => match acc with
              | None => float8_sum (Some x) l
              | Some a => let? s := float8_add a x in float8_sum (Some s) l
              end
  end.

Definition window_rows (subject metric : string) (seconds : Z) (lo hi : Time.t) (db : VDB) : list (Z * Float64.t) :=
  map snd (filter (λ kv, in_window subject metric seconds lo hi kv.1 = true) (map_to_list (v_buckets db))).

Definition WindowTx (subject metric : string) (width : Time.duration) (from to : Time.t) (db : VDB) : result BucketWindow :=
  let? seconds := widthSeconds width in
  let rows := window_rows subject metric seconds (BucketStart from width) to db in
  let? s := float8_sum None (map snd rows) in
  Ok (mkWindow (foldr Z.add 0%Z (map fst rows)) s).

Definition PruneProcessedEvents (retention : Time.duration) (now : Time.t) (db : VDB) : result VDB :=
  if (retention <? DefaultDedupRetention)%Z then Err []
  else Ok (mkVDB (filter (λ kv, ¬ (kv.2 < Time.trunc_us (now - retention))%Z) (v_events db)) (v_buckets db)).

Definition PruneBuckets (retention : Time.duration) (now : Time.t) (db : VDB) : result VDB :=
  if (retention <? MaxDeclarableWindow)%Z then Err []
  else Ok (mkVDB (v_events db) (filter (λ kv, ¬ (kv.1.2 < Time.trunc_us (now - retention))%Z) (v_buckets db))).

(** One tick of the retention loop: a failure of the first pass skips the second. *)
Definition prune_pass (f : fault) (op : VDB → result VDB) (db : VDB) : result unit * VDB :=
  match f with
  | Lost => (Err [ErrDatabase], db)
  | _ => match op db with
         | Err e => (Err e, db)
         | Ok db' => (match f with LostReply => Err [ErrDatabase] | _ => Ok tt end, db')
         end
  end.

Definition sweepOnce (f1 f2 : fault) (now : Time.t) (db : VDB) : VDB :=
  match prune_pass f1 (PruneProcessedEvents DefaultDedupRetention now) db with
  | (Err _, db1) => db1
  | (Ok _, db1) => (prune_pass f2 (PruneBuckets MaxDeclarableWindow now) db1).2
  end.

(** ** The aggregator *)

Record MetricSpec := mkSpec { ms_Metric : string; ms_BucketWidth : Time.duration; ms_AllowDeduction : bool }.

#[export] Instance MetricSpec_eq_dec : EqDecision MetricSpec.
Proof. solve_decision. Defined.

Notation Aggregator := (gmap string MetricSpec).

Fixpoint add_metrics (a : Aggregator) (specs : list MetricSpec) : result Aggregator :=
  match specs with
  | [] => Ok a
  | spec :: specs =>
      if bool_decide (ms_Metric spec = "") then Err []
      else if (ms_BucketWidth spec <=? 0)%Z then Err []
      else if (MaxDeclarableWindow <? ms_BucketWidth spec)%Z then Err []
      else match a !! ms_Metric spec with
      | Some existing => if bool_decide (existing = spec) then add_metrics a specs else Err []
      | None => add_metrics (<[ms_Metric spec := spec]> a) specs
      end
  end.

(** The store the aggregator is built over is the [VDB] its calls take. *)
Definition NewAggregator (metrics : list MetricSpec) : result Aggregator :=
  match metrics with [] => Err [] | _ => add_metrics ∅ metrics end.

Definition check (a : Aggregator) (now : Time.t) (e : Event) : result MetricSpec :=
  let? _ := Event_Validate e in
  match a !! ev_Metric e with
  | None => Err [ErrUnknownMetric; ErrRejected]
  | Some spec =>
      if Float64.ltb (ev_Value e) (Float64.of_Z 0) && negb (ms_AllowDeduction spec) then Err [ErrDeductionNotAllowed; ErrRejected]
      else if Time.Before (ev_ProducedAt e) (Time.Add now (- MaxDeclarableWindow)%Z) then Err [ErrTooOld; ErrRejected]
      else if Time.After (ev_ProducedAt e) (Time.Add now MaxClockSkew) then Err [ErrTooFarAhead; ErrRejected]
      else Ok spec
  end.

Definition bucket_event (spec : MetricSpec) (e : Event) : BucketEvent :=
  mkBucketEvent (ev_CallerID e) (ev_EventID e) (ev_Metric e) (ev_SubjectID e) (ev_Value e) (ev_ProducedAt e)
    (ms_BucketWidth spec).

Definition bucket_events (a : Aggregator) (now : Time.t) (events : list Event) : result (list BucketEvent) :=
  res_map (λ e, let? spec := check a now e in Ok (bucket_event spec e)) events.

(** The body of the transaction. *)
Fixpoint record_all (now : Time.t) (res : Result_) (buckets : list BucketEvent) (db : VDB) : result (Result_ * VDB) :=
  match buckets with
  | [] => Ok (res, db)
  | b :: buckets =>
      let? applied := RecordEventTx now b db in
      let '(applied, db') := applied in
      record_all now (if applied then mkResult (rs_Applied res + 1) (rs_Duplicates res)
                      else mkResult (rs_Applied res) (rs_Duplicates res + 1)) buckets db'
  end.

(** [Accept]: every check first, then one transaction. *)
Definition Accept (a : Aggregator) (f : fault) (now : Time.t) (events : list Event) (db : VDB) : result Result_ * VDB :=
  match events with
  | [] => (Ok (mkResult 0 0), db)
  | _ =>
      match bucket_events a now events with
      | Err e => (Err e, db)
      | Ok buckets =>
          match f with
          | Lost => (Err [ErrDatabase], db)
          | _ => match record_all now (mkResult 0 0) buckets db with
                 | Err e => (Err e, db)
                 | Ok (res, db') => (match f with LostReply => Err [ErrDatabase] | _ => Ok res end, db')
                 end
          end
      end
  end.

Definition Aggregator_Window (a : Aggregator) (metric subject : string) (window : Time.duration) (now : Time.t) (db : VDB)
    : result BucketWindow :=
  match a !! metric with
  | None => Err [ErrUnknownMetric; ErrRejected]
  | Some spec =>
      if (window <=? 0)%Z then Err []
      else if (MaxDeclarableWindow <? window)%Z then Err []
      else WindowTx subject metric (ms_BucketWidth spec) (Time.Add now (- window)%Z) (Time.Add now MaxClockSkew) db
  end.
