(* ===== verification/VelocitySpec.v ===== *)
(** * What a velocity window counts

    Every accepted event is counted once, however often it is delivered again and
    however transactions and retention sweeps interleave, as long as the clocks of
    the instances agree to within the retention slack; a window counts exactly the
    accepted events of its buckets as long as no sweep has cut into it. *)
From S2P Require Import Prelude GoLib Policy Json World Velocity.

(** ** Histories *)

Inductive vop :=
  | OAccept (f : fault) (now : Time.t) (events : list Event)
  | OSweep (f1 f2 : fault) (now : Time.t).

(** The events a transaction applies, in order. *)
Fixpoint applied (now : Time.t) (buckets : list BucketEvent) (db : VDB) : list BucketEvent :=
  match buckets with
  | [] => []
  | b :: buckets =>
      match RecordEventTx now b db with
      | Err _ => []
      | Ok (true, db') => b :: applied now buckets db'
      | Ok (false, db') => applied now buckets db'
      end
  end.

(** The database, the events applied so far, and the horizons of the sweeps so far. *)
Record history := mkHistory {
  g_db : VDB; g_hist : list BucketEvent; g_seen : list Time.t; g_cut : list Time.t }.

Definition committed (a : Aggregator) (f : fault) (now : Time.t) (events : list Event) (db : VDB) : list BucketEvent :=
  match f, bucket_events a now events with
  | Lost, _ | _, Err _ => []
  | _, Ok buckets => if is_ok (record_all now (mkResult 0 0) buckets db) then applied now buckets db else []
  end.

Definition run_op (a : Aggregator) (g : history) (op : vop) : history :=
  match op with
  | OAccept f now events =>
      mkHistory (Accept a f now events (g_db g)).2 (g_hist g ++ committed a f now events (g_db g)) (g_seen g) (g_cut g)
  | OSweep f1 f2 now =>
      mkHistory (sweepOnce f1 f2 now (g_db g)) (g_hist g)
        (match f1 with Lost => g_seen g | _ => Time.trunc_us (now - DefaultDedupRetention)%Z :: g_seen g end)
        (match f1, f2 with
         | NoFault, Lost => g_cut g
         | NoFault, _ => Time.trunc_us (now - MaxDeclarableWindow)%Z :: g_cut g
         | _, _ => g_cut g
         end)
  end.

Definition run_ops (a : Aggregator) (ops : list vop) : history :=
  foldl (run_op a) (mkHistory (mkVDB ∅ ∅) [] [] []) ops.

(** The clock that stamps a batch is at most the slack behind the clock of any
    sweep before it. *)
Fixpoint clocks_agree (sweeps : list Time.t) (ops : list vop) : Prop :=
  match ops with
  | [] => True
  | OAccept _ now _ :: ops => Forall (λ t, (t <= now + DedupRetentionSlack)%Z) sweeps ∧ clocks_agree sweeps ops
  | OSweep _ _ now :: ops => clocks_agree (now :: sweeps) ops
  end.

(** What a redelivery of an event repeats: who sent it, its identifier, its metric. *)
Definition named (caller id metric : string) (e : BucketEvent) : Prop :=
  be_CallerID e = caller ∧ be_EventID e = id ∧ be_Metric e = metric.

Lemma named_dedup_key e e' : named (be_CallerID e) (be_EventID e) (be_Metric e) e' ↔ dedup_key e' = dedup_key e.
Proof. unfold named, dedup_key. split; [by intros (-> & -> & ->)|]. by intros [= -> -> ->]. Qed.

(** Two applied events of one name: the horizon of a sweep had passed the first before
    the second was produced. *)
Definition apart (horizons : list Time.t) (e e' : BucketEvent) : Prop :=
  ∃ h, h ∈ horizons ∧ (Time.trunc_us (be_At e) < h <= Time.trunc_us (be_At e'))%Z.

Definition counted_once (horizons : list Time.t) (hist : list BucketEvent) : Prop :=
  ∀ i j e e', i < j → hist !! i = Some e → hist !! j = Some e' →
    named (be_CallerID e) (be_EventID e) (be_Metric e) e' → apart horizons e e'.

Definition bkey (e : BucketEvent) : bucket_key := bucket_of (Z.quot (be_Width e) Time.Second) (be_At e) e.

Definition fold_in (acc : option (Z * Float64.t)) (v : Float64.t) : option (Z * Float64.t) :=
  match acc with None => Some (1%Z, v) | Some (n, s) => Some ((n + 1)%Z, Float64.add s v) end.

(** What a bucket holds after the events of a history. *)
Definition tally (b : bucket_key) (hist : list BucketEvent) : option (Z * Float64.t) :=
  foldl fold_in None (map be_Value (filter (λ e, bkey e = b) hist)).

Record vinv (g : history) : Prop := {
  vi_dedup : ∀ e, e ∈ g_hist g →
    v_events (g_db g) !! dedup_key e = Some (Time.trunc_us (be_At e)) ∨
    ∃ h, h ∈ g_seen g ∧ (Time.trunc_us (be_At e) < h)%Z;
  vi_known : ∀ k t, v_events (g_db g) !! k = Some t → ∃ e, e ∈ g_hist g ∧ dedup_key e = k;
  vi_once : counted_once (g_seen g) (g_hist g);
  vi_tally : ∀ b, (∀ h, h ∈ g_cut g → (h <= b.2)%Z) → v_buckets (g_db g) !! b = tally b (g_hist g) }.

Lemma tally_snoc b hist e :
  tally b (hist ++ [e]) = if decide (bkey e = b) then fold_in (tally b hist) (be_Value e) else tally b hist.
Proof.
  unfold tally. rewrite filter_app, filter_cons. case_decide; [|by rewrite app_nil_r].
  rewrite filter_nil, map_app, foldl_app. done.
Qed.

Lemma upsert_lookup k v m m' :
  upsert k v m = Ok m' → m' !! k = fold_in (m !! k) v ∧ ∀ b, b ≠ k → m' !! b = m !! b.
Proof.
  unfold upsert. destruct (m !! k) as [[n s]|] eqn:E.
  - intros (s' & Hs & [= <-])%res_bind_Ok. unfold float8_add in Hs. case_match; [|done]. injection Hs as <-.
    rewrite lookup_insert_eq. split; [done|]. intros b Hb. by rewrite lookup_insert_ne.
  - intros [= <-]. rewrite lookup_insert_eq. split; [done|]. intros b Hb. by rewrite lookup_insert_ne.
Qed.

Lemma widthSeconds_Ok w n : widthSeconds w = Ok n → n = Z.quot w Time.Second ∧ (0 < w)%Z.
Proof. unfold widthSeconds. case_match eqn:E1; [done|]. case_match; [done|]. intros [= <-]. split; [done|lia]. Qed.

Lemma RecordEventTx_Ok now ev db b db' :
  Time.IsZero (be_At ev) = false → RecordEventTx now ev db = Ok (b, db') →
  (b = false ∧ db' = db ∧ is_Some (v_events db !! dedup_key ev)) ∨
  (b = true ∧ v_events db !! dedup_key ev = None ∧
   v_events db' = <[dedup_key ev := Time.trunc_us (be_At ev)]> (v_events db) ∧
   upsert (bkey ev) (be_Value ev) (v_buckets db) = Ok (v_buckets db')).
Proof.
  intros Hz. unfold RecordEventTx. intros (secs & Hw & Hr)%res_bind_Ok. rewrite Hz in Hr.
  assert (secs = Z.quot (be_Width ev) Time.Second) as ->.
  { by apply widthSeconds_Ok in Hw as []. }
  case_match; [done|]. destruct (v_events db !! dedup_key ev) eqn:E.
  - injection Hr as <- <-. left. eauto.
  - case_match; [done|]. apply res_bind_Ok in Hr as (bs & Hb & [= <- <-]). right. done.
Qed.

Lemma vinv_apply now db hist seen cut e db' :
  vinv (mkHistory db hist seen cut) → Time.IsZero (be_At e) = false → RecordEventTx now e db = Ok (true, db') →
  (∀ h, h ∈ seen → (h <= Time.trunc_us (be_At e))%Z) → vinv (mkHistory db' (hist ++ [e]) seen cut).
Proof.
  intros [Hd Hkn Ho Ht] Hz Hr Hseen. destruct (RecordEventTx_Ok _ _ _ _ _ Hz Hr) as [(? & _)|(_ & Hnone & Hev & Hup)]; [done|].
  simpl in *. split; simpl.
  - intros x [Hx|Hx%list_elem_of_singleton]%elem_of_app; [|subst x; left; by rewrite Hev, lookup_insert_eq].
    destruct (Hd x Hx) as [Hl|Hp]; [|by right]. left. rewrite Hev, lookup_insert_ne; [done|]. intros E. rewrite E in Hnone. congruence.
  - intros k t. rewrite Hev. destruct (decide (dedup_key e = k)) as [<-|Hne].
    + intros _. exists e. split; [set_solver|done].
    + rewrite lookup_insert_ne by done. intros (x & Hx & Ex)%Hkn. exists x. split; [set_solver|done].
  - intros i j x y Hij Hx Hy Hn%named_dedup_key.
    assert (i < length hist) as Hi.
    { apply lookup_lt_Some in Hy. rewrite length_app in Hy. simpl in Hy. lia. }
    rewrite lookup_app_l in Hx by done. apply list_elem_of_lookup_2 in Hx as Hxin.
    destruct (decide (j < length hist)) as [Hj|Hj].
    { rewrite lookup_app_l in Hy by done. eapply (Ho i j); [done..|]. by apply named_dedup_key. }
    rewrite lookup_app_r in Hy by lia. assert (j - length hist = 0) as E0.
    { apply lookup_lt_Some in Hy. simpl in Hy. lia. }
    rewrite E0 in Hy. injection Hy as <-. destruct (Hd x Hxin) as [Hl|(h & Hh & Hlt)]; [congruence|].
    exists h. specialize (Hseen h Hh). split; [done|lia].
  - intros b Hb. rewrite tally_snoc. destruct (upsert_lookup _ _ _ _ Hup) as [He Hne]. case_decide as Eb.
    + subst b. rewrite He. f_equal. by apply Ht.
    + rewrite Hne by congruence. by apply Ht.
Qed.

Lemma vinv_record now buckets db hist seen cut res r :
  vinv (mkHistory db hist seen cut) →
  Forall (λ e, Time.IsZero (be_At e) = false ∧ ∀ h, h ∈ seen → (h <= Time.trunc_us (be_At e))%Z) buckets →
  record_all now res buckets db = Ok r →
  vinv (mkHistory r.2 (hist ++ applied now buckets db) seen cut).
Proof.
  revert db hist res. induction buckets as [|e l IH]; intros db hist res Hi Hf; simpl.
  { intros [= <-]. by rewrite app_nil_r. }
  apply Forall_cons in Hf as [[Hz Hs] Hf]. intros ([b db'] & Hr & Hrec)%res_bind_Ok. rewrite Hr.
  destruct b.
  - replace (hist ++ e :: applied now l db') with ((hist ++ [e]) ++ applied now l db') by by rewrite <-(assoc_L (++)).
    eapply IH; [by eapply vinv_apply|done|done].
  - destruct (RecordEventTx_Ok _ _ _ _ _ Hz Hr) as [(_ & -> & _)|(? & _)]; [|done]. by eapply IH.
Qed.

Lemma check_Ok a now e spec :
  check a now e = Ok spec →
  a !! ev_Metric e = Some spec ∧ Time.IsZero (ev_ProducedAt e) = false ∧
  (now - MaxDeclarableWindow <= ev_ProducedAt e <= now + MaxClockSkew)%Z.
Proof.
  unfold check. intros (u & Hv & Hc)%res_bind_Ok.
  assert (Time.IsZero (ev_ProducedAt e) = false) as Hz.
  { unfold Event_Validate in Hv. destruct (Time.IsZero _); [|done]. by split_ifs. }
  destruct (a !! ev_Metric e) as [sp|]; [|done].
  destruct (_ && negb (ms_AllowDeduction sp)); [done|]. destruct (Time.Before _ _) eqn:Eb; [done|].
  destruct (Time.After _ _) eqn:Ea; [done|]. injection Hc as ->. unfold Time.Before, Time.After, Time.Add in *.
  split_and!; [done|done|lia|lia].
Qed.

(** The sweeps behind the horizons. *)
Lemma horizons_below sweeps seen now at_ :
  Forall (λ t, (t <= now + DedupRetentionSlack)%Z) sweeps →
  Forall (λ h, ∃ t, t ∈ sweeps ∧ h = Time.trunc_us (t - DefaultDedupRetention)%Z) seen →
  (now - MaxDeclarableWindow <= at_)%Z → ∀ h, h ∈ seen → (h <= Time.trunc_us at_)%Z.
Proof.
  rewrite !Forall_forall. intros Hs Hh Hat h (t & Ht & ->)%Hh. apply Hs in Ht. apply Time.trunc_us_mono.
  unfold DefaultDedupRetention. lia.
Qed.

Lemma bucket_events_spec a now events buckets :
  bucket_events a now events = Ok buckets →
  Forall (λ b, Time.IsZero (be_At b) = false ∧ (now - MaxDeclarableWindow <= be_At b <= now + MaxClockSkew)%Z ∧
               ∃ spec, a !! be_Metric b = Some spec ∧ be_Width b = ms_BucketWidth spec) buckets.
Proof.
  intros Hb%res_map_Ok. induction Hb as [|e b es bs He _ IH]; [constructor|]. constructor; [|done].
  apply res_bind_Ok in He as (spec & Hc & [= <-]). apply check_Ok in Hc as (Ha & Hz & Ht). split_and!; try done; [apply Ht|apply Ht|].
  by exists spec.
Qed.

Lemma prune_events_inv now db hist seen cut db' :
  vinv (mkHistory db hist seen cut) → PruneProcessedEvents DefaultDedupRetention now db = Ok db' →
  vinv (mkHistory db' hist (Time.trunc_us (now - DefaultDedupRetention)%Z :: seen) cut).
Proof.
  intros [Hd Hkn Ho Ht] Hp. unfold PruneProcessedEvents in Hp. rewrite Z.ltb_irrefl in Hp. injection Hp as <-.
  split; simpl in *; [|by intros k t [Hk _]%map_lookup_filter_Some; eapply Hkn| |done].
  2:{ intros i j e e' Hij Hi Hj Hn. destruct (Ho i j e e' Hij Hi Hj Hn) as (h & Hh & Hlt). exists h. split; [by right|done]. }
  intros e He. set (h := Time.trunc_us (now - DefaultDedupRetention)%Z).
  destruct (Hd e He) as [Hl|(h' & Hh' & Hlt)]; [|right; exists h'; split; [by right|done]].
  destruct (decide (Time.trunc_us (be_At e) < h)%Z) as [Hlt|Hge]; [right; exists h; split; [by left|done]|].
  left. apply map_lookup_filter_Some. done.
Qed.

Lemma prune_buckets_inv now db hist seen cut db' :
  vinv (mkHistory db hist seen cut) → PruneBuckets MaxDeclarableWindow now db = Ok db' →
  vinv (mkHistory db' hist seen (Time.trunc_us (now - MaxDeclarableWindow)%Z :: cut)).
Proof.
  intros [Hd Hkn Ho Ht] Hp. unfold PruneBuckets in Hp. rewrite Z.ltb_irrefl in Hp. injection Hp as <-.
  split; simpl in *; [done|done|done|]. intros b Hb.
  rewrite <-Ht by (intros h Hh; apply Hb; by right). apply option_eq. intros v. rewrite map_lookup_filter_Some. simpl.
  split; [tauto|]. intros Hv. split; [done|]. assert (Time.trunc_us (now - MaxDeclarableWindow)%Z <= b.2)%Z by (apply Hb; by left). lia.
Qed.

Definition sweep_horizons (sweeps seen : list Time.t) : Prop :=
  Forall (λ h, ∃ t, t ∈ sweeps ∧ h = Time.trunc_us (t - DefaultDedupRetention)%Z) seen.

(** Events of the history are those of configured metrics, in their width. *)
Definition configured (a : Aggregator) (hist : list BucketEvent) : Prop :=
  Forall (λ b, ∃ spec, a !! be_Metric b = Some spec ∧ be_Width b = ms_BucketWidth spec) hist.

Lemma applied_sublist now buckets db : applied now buckets db ⊆ buckets.
Proof.
  revert db. induction buckets as [|b l IH]; intros db; simpl; [done|].
  destruct (RecordEventTx now b db) as [[[] db']|e]; [set_solver..|apply list_subseteq_nil].
Qed.

Lemma Accept_inv a f now events db hist seen cut sweeps :
  vinv (mkHistory db hist seen cut) → sweep_horizons sweeps seen → configured a hist →
  Forall (λ t, (t <= now + DedupRetentionSlack)%Z) sweeps →
  let g := run_op a (mkHistory db hist seen cut) (OAccept f now events) in
  vinv g ∧ configured a (g_hist g).
Proof.
  intros Hi Hs Hc Ht. unfold run_op, Accept, committed. simpl.
  assert (vinv (mkHistory db (hist ++ []) seen cut) ∧ configured a (hist ++ [])) as Hsame by by rewrite app_nil_r.
  destruct events as [|e0 events].
  { destruct f; simpl; done. }
  destruct (bucket_events a now (e0 :: events)) as [buckets|err] eqn:Eb; [|by destruct f].
  apply bucket_events_spec in Eb.
  destruct (record_all now (mkResult 0 0) buckets db) as [[res db']|err] eqn:Er; [|by destruct f].
  assert (vinv (mkHistory db' (hist ++ applied now buckets db) seen cut) ∧ configured a (hist ++ applied now buckets db)) as Hnew.
  { split.
    - apply (vinv_record now buckets db hist seen cut (mkResult 0 0) (res, db') Hi); [|done].
      eapply Forall_impl; [exact Eb|]. intros b (Hz & [Hlo _] & _). split; [done|]. by eapply horizons_below.
    - apply Forall_app. split; [done|]. apply Forall_forall. intros b Hb%applied_sublist.
      rewrite Forall_forall in Eb. by destruct (Eb b Hb) as (_ & _ & ?). }
  by destruct f.
Qed.

Lemma sweep_inv a f1 f2 now g : vinv g → vinv (run_op a g (OSweep f1 f2 now)).
Proof.
  destruct g as [db hist seen cut]. intros Hi. simpl. unfold sweepOnce, prune_pass.
  destruct (PruneProcessedEvents DefaultDedupRetention now db) as [db1|e] eqn:E1;
    [|unfold PruneProcessedEvents in E1; by rewrite Z.ltb_irrefl in E1].
  pose proof (prune_events_inv now db hist seen cut db1 Hi E1) as H1.
  destruct f1; [|done|done].
  destruct (PruneBuckets MaxDeclarableWindow now db1) as [db2|e] eqn:E2; [|unfold PruneBuckets in E2; by rewrite Z.ltb_irrefl in E2].
  pose proof (prune_buckets_inv now db1 hist _ cut db2 H1 E2) as H2. by destruct f2.
Qed.

Lemma run_ops_inv a ops g sweeps :
  vinv g → sweep_horizons sweeps (g_seen g) → configured a (g_hist g) → clocks_agree sweeps ops →
  vinv (foldl (run_op a) g ops) ∧ configured a (g_hist (foldl (run_op a) g ops)).
Proof.
  revert g sweeps. induction ops as [|op ops IH]; intros g sweeps Hi Hs Hc Hk; [done|]. simpl foldl.
  destruct op as [f now events|f1 f2 now]; simpl in Hk.
  - destruct Hk as [Ht Hk]. destruct g as [db hist seen cut].
    destruct (Accept_inv a f now events db hist seen cut sweeps Hi Hs Hc Ht) as [Hi' Hc']. by apply (IH _ sweeps).
  - apply (IH _ (now :: sweeps)); [by apply sweep_inv| |done|done].
    assert (sweep_horizons (now :: sweeps) (g_seen g)) as Hs'.
    { eapply Forall_impl; [exact Hs|]. intros h (t & Ht & ->). exists t. split; [by right|done]. }
    simpl. destruct f1; [|done|]; (constructor; [exists now; split; [by left|done]|done]).
Qed.

(** ** Counting *)

Definition counted (subject metric : string) (seconds : Z) (lo hi : Time.t) (e : BucketEvent) : Prop :=
  in_window subject metric seconds lo hi (bkey e) = true.

#[export] Instance counted_dec subject metric seconds lo hi e : Decision (counted subject metric seconds lo hi e).
Proof. unfold counted. apply _. Defined.

Lemma tally_count b hist n s : tally b hist = Some (n, s) → n = Z.of_nat (length (filter (λ e, bkey e = b) hist)).
Proof.
  unfold tally. generalize (filter (λ e, bkey e = b) hist) as l. intros l. revert n s.
  induction l as [|x l IH] using rev_ind; intros n s; simpl; [done|].
  rewrite map_app, foldl_app, length_app. simpl. destruct (foldl fold_in None (map be_Value l)) as [[m t]|] eqn:E; simpl.
  - intros [= <- _]. rewrite (IH _ _ eq_refl). lia.
  - intros [= <- _]. destruct l as [|y l _] using rev_ind; [done|]. rewrite map_app, foldl_app in E. simpl in E.
    destruct (foldl fold_in None (map be_Value l)) as [[? ?]|]; done.
Qed.

Lemma tally_Some b hist e : e ∈ hist → bkey e = b → is_Some (tally b hist).
Proof.
  intros He Hb. unfold tally. assert (e ∈ filter (λ e, bkey e = b) hist) as Hin by by apply list_elem_of_filter.
  destruct (filter (λ e, bkey e = b) hist) as [|x l _] using rev_ind; [by apply elem_of_nil in Hin|].
  rewrite map_app, foldl_app. simpl. destruct (foldl fold_in None (map be_Value l)) as [[? ?]|]; simpl; eauto.
Qed.

Lemma length_filter_cover {A K} `{EqDecision K} (f : A → K) (ks : list K) (l : list A) :
  NoDup ks →
  foldr Z.add 0%Z (map (λ k, Z.of_nat (length (filter (λ x, f x = k) l))) ks) =
  Z.of_nat (length (filter (λ x, f x ∈ ks) l)).
Proof.
  intros Hnd. induction ks as [|k ks IH]; simpl.
  { rewrite filter_none; [done|]. intros x _. apply not_elem_of_nil. }
  apply NoDup_cons in Hnd as [Hk Hnd]. rewrite (IH Hnd). clear IH.
  induction l as [|x l IH]; [done|]. rewrite !filter_cons.
  destruct (decide (f x = k)) as [Ek|Ek], (decide (f x ∈ ks)) as [Es|Es], (decide (f x ∈ k :: ks)) as [Ec|Ec]; simpl; try lia.
  all: exfalso; set_solver.
Qed.

Lemma window_rows_spec g subject metric seconds lo hi :
  vinv g → (∀ h, h ∈ g_cut g → (h <= Time.trunc_us lo)%Z) →
  foldr Z.add 0%Z (map fst (window_rows subject metric seconds lo hi (g_db g))) =
  Z.of_nat (length (filter (counted subject metric seconds lo hi) (g_hist g))).
Proof.
  intros Hi Hcut. unfold window_rows. set (P := λ k, in_window subject metric seconds lo hi k = true).
  set (kvs := filter (λ kv : bucket_key * (Z * Float64.t), P kv.1) (map_to_list (v_buckets (g_db g)))).
  assert (∀ k, P k → v_buckets (g_db g) !! k = tally k (g_hist g)) as Hlook.
  { intros k Hk. apply (vi_tally _ Hi). intros h Hh. apply Hcut in Hh. unfold P, in_window in Hk. destruct k as [[[s m] w] st].
    rewrite !andb_true_iff in Hk. simpl. lia. }
  assert (∀ kv, kv ∈ kvs → P kv.1 ∧ v_buckets (g_db g) !! kv.1 = Some kv.2) as Hkvs.
  { intros [k v] Hin. apply list_elem_of_filter in Hin as [Hp Hin]. by apply elem_of_map_to_list in Hin. }
  change (foldr Z.add 0%Z (map fst (map snd kvs)) = Z.of_nat (length (filter (counted subject metric seconds lo hi) (g_hist g)))).
  assert (map fst (map snd kvs) = map (λ k, Z.of_nat (length (filter (λ e, bkey e = k) (g_hist g)))) (map fst kvs)) as ->.
  { rewrite !map_map. apply map_ext_in. intros [k [n s]] Hin%list_elem_of_In. apply Hkvs in Hin as [Hp Hl]. simpl in *.
    rewrite (Hlook k Hp) in Hl. by apply tally_count in Hl. }
  rewrite length_filter_cover.
  2:{ eapply sublist_NoDup; [apply (NoDup_fst_map_to_list (v_buckets (g_db g)))|].
      apply (fmap_sublist fst), sublist_filter. }
  do 2 f_equal. apply filter_ext_in. intros e He. unfold counted. fold (P (bkey e)). split.
  - intros (kv & -> & Hkv)%elem_of_map. by apply Hkvs.
  - intros Hp. destruct (tally_Some (bkey e) (g_hist g) e He eq_refl) as [v Hv]. rewrite <-(Hlook _ Hp) in Hv.
    apply elem_of_map. exists (bkey e, v). split; [done|]. apply list_elem_of_filter. split; [done|]. by apply elem_of_map_to_list.
Qed.

Lemma BucketStart_le at_ w : (0 < w)%Z → (BucketStart at_ w <= at_)%Z.
Proof. intros Hw. unfold BucketStart. pose proof (Z.mod_pos_bound (at_ - Time.zero) w Hw). lia. Qed.

Lemma BucketStart_mono x y w : (0 < w)%Z → (x <= y)%Z → (BucketStart x w <= BucketStart y w)%Z.
Proof.
  intros Hw Hxy. unfold BucketStart. rewrite !Z.mod_eq by lia.
  assert ((x - Time.zero) / w <= (y - Time.zero) / w)%Z by (apply Z.div_le_mono; lia). nia.
Qed.

(** ** Nothing accepted is left out *)

Lemma record_all_known now buckets db res r :
  Forall (λ e, Time.IsZero (be_At e) = false) buckets → record_all now res buckets db = Ok r →
  (∀ k, is_Some (v_events db !! k) → is_Some (v_events r.2 !! k)) ∧
  ∀ b, b ∈ buckets → is_Some (v_events r.2 !! dedup_key b).
Proof.
  revert db res. induction buckets as [|e l IH]; intros db res Hf; simpl.
  { intros [= <-]. split; [done|]. set_solver. }
  apply Forall_cons in Hf as [Hz Hf]. intros ([b db'] & Hr & Hrec)%res_bind_Ok.
  destruct (IH _ _ Hf Hrec) as [Hm Hl].
  assert ((∀ k, is_Some (v_events db !! k) → is_Some (v_events db' !! k)) ∧ is_Some (v_events db' !! dedup_key e)) as [Hm' He].
  { destruct (RecordEventTx_Ok _ _ _ _ _ Hz Hr) as [(_ & -> & Hs)|(_ & _ & -> & _)]; [done|].
    split; [|by rewrite lookup_insert_eq]. intros k Hk. destruct (decide (dedup_key e = k)) as [<-|Hne];
      [by rewrite lookup_insert_eq|by rewrite lookup_insert_ne]. }
  split; [auto|]. intros x [->|Hx]%elem_of_cons; auto.
Qed.

Lemma run_ops_grow a ops g : g_hist g `prefix_of` g_hist (foldl (run_op a) g ops).
Proof.
  revert g. induction ops as [|op ops IH]; intros g; [done|]. simpl. etrans; [|apply IH].
  destruct op; simpl; [by eexists|done].
Qed.

(** The history holds what the batches carried. *)
Definition carried (a : Aggregator) (ops : list vop) (b : BucketEvent) : Prop :=
  ∃ f now events e spec, OAccept f now events ∈ ops ∧ e ∈ events ∧ check a now e = Ok spec ∧ b = bucket_event spec e.

Lemma run_ops_carried a all ops g :
  ops ⊆ all → (∀ b, b ∈ g_hist g → carried a all b) → ∀ b, b ∈ g_hist (foldl (run_op a) g ops) → carried a all b.
Proof.
  revert g. induction ops as [|op ops IH]; intros g Hall Hg; [done|]. simpl. apply IH; [set_solver|].
  destruct op as [f now events|]; simpl; [|done]. intros b [Hb|Hb]%elem_of_app; [by apply Hg|].
  unfold committed in Hb. assert (∃ buckets, bucket_events a now events = Ok buckets ∧ b ∈ buckets) as (buckets & Eb & Hin).
  { destruct f, (bucket_events a now events) as [buckets|]; try by apply elem_of_nil in Hb.
    all: destruct (is_ok _); [|by apply elem_of_nil in Hb]; exists buckets; split; [done|]; by eapply applied_sublist. }
  apply res_map_Ok in Eb. apply list_elem_of_lookup in Hin as [n Hn].
  destruct (Forall2_lookup_r _ _ _ _ _ Eb Hn) as (e & He & (spec & Hc & [= <-])%res_bind_Ok).
  exists f, now, events, e, spec. split_and!; [apply Hall; by left|by eapply list_elem_of_lookup_2|done|done].
Qed.

Lemma ops_history_inv a ops : clocks_agree [] ops → vinv (run_ops a ops) ∧ configured a (g_hist (run_ops a ops)).
Proof.
  intros Hk. apply (run_ops_inv a ops (mkHistory (mkVDB ∅ ∅) [] [] []) []); [|constructor|constructor|done].
  split; simpl; [set_solver|by intros k t; rewrite lookup_empty|by intros i j e e' _ []|]. intros b _. by rewrite lookup_empty.
Qed.

Lemma clocks_agree_app sweeps ops ops' : clocks_agree sweeps (ops ++ ops') → clocks_agree sweeps ops.
Proof. revert sweeps. induction ops as [|[] ops IH]; intros sweeps; simpl; [done| |by apply IH]. intros [? ?]. split; [done|by apply IH]. Qed.

Lemma acknowledged_counted a ops1 f now events ops2 res :
  clocks_agree [] (ops1 ++ OAccept f now events :: ops2) → (Accept a f now events (g_db (run_ops a ops1))).1 = Ok res →
  ∀ e, e ∈ events → ∃ b, b ∈ g_hist (run_ops a (ops1 ++ OAccept f now events :: ops2)) ∧
    named (ev_CallerID e) (ev_EventID e) (ev_Metric e) b.
Proof.
  intros Hk Ha e He. assert (clocks_agree [] (ops1 ++ [OAccept f now events])) as Hk1.
  { apply (clocks_agree_app _ _ ops2). by rewrite <-(assoc_L (++)). }
  destruct (ops_history_inv a _ Hk1) as [Hi _]. unfold run_ops in *. rewrite foldl_app in *. simpl in *.
  set (g := foldl (run_op a) _ ops1) in *.
  unfold Accept in Ha. destruct events as [|e0 events]; [by apply elem_of_nil in He|].
  destruct (bucket_events a now (e0 :: events)) as [buckets|] eqn:Eb; [|done].
  assert (f ≠ Lost ∧ ∃ r, record_all now (mkResult 0 0) buckets (g_db g) = Ok r ∧
          v_events (Accept a f now (e0 :: events) (g_db g)).2 = v_events r.2) as (_ & r & Hr & Ev).
  { unfold Accept. rewrite Eb. destruct f; [|done|]; destruct (record_all _ _ _ _) as [[res' db']|]; try done;
      split; try done; by eexists. }
  pose proof (bucket_events_spec _ _ _ _ Eb) as Hf. apply res_map_Ok in Eb. apply list_elem_of_lookup in He as [n Hn].
  destruct (Forall2_lookup_l _ _ _ _ _ Eb Hn) as (b & Hb & (spec & _ & [= <-])%res_bind_Ok).
  destruct (record_all_known now buckets (g_db g) (mkResult 0 0) r) as [_ Hall]; [|done|].
  { eapply Forall_impl; [exact Hf|]. by intros x [? _]. }
  destruct (Hall _ (list_elem_of_lookup_2 _ _ _ Hb)) as [t Ht].
  destruct (vi_known _ Hi (dedup_key (bucket_event spec e)) t) as (x & Hx & Ex).
  { cbn [g_db]. rewrite Ev. exact Ht. }
  exists x. split; [|by apply (named_dedup_key (bucket_event spec e))].
  eapply elem_of_prefix; [exact Hx|]. apply (run_ops_grow a ops2 (run_op a g (OAccept f now (e0 :: events)))).
Qed.

Lemma window_counts a ops metric subject window now spec w :
  clocks_agree [] ops → a !! metric = Some spec →
  let g := run_ops a ops in
  let lo := BucketStart (now - window) (ms_BucketWidth spec) in
  let hi := (now + MaxClockSkew)%Z in
  let seconds := Z.quot (ms_BucketWidth spec) Time.Second in
  (∀ h, h ∈ g_cut g → (h <= Time.trunc_us lo)%Z) →
  Aggregator_Window a metric subject window now (g_db g) = Ok w →
  bw_Count w = Z.of_nat (length (filter (counted subject metric seconds lo hi) (g_hist g))) ∧
  ∀ e, e ∈ g_hist g → be_SubjectID e = subject → be_Metric e = metric →
    (now - window <= be_At e < Time.trunc_us hi)%Z → counted subject metric seconds lo hi e.
Proof.
  intros Hk Ha g lo hi seconds Hcut Hw. destruct (ops_history_inv a ops Hk) as [Hi Hc]. fold g in Hi, Hc.
  unfold Aggregator_Window in Hw. rewrite Ha in Hw.
  destruct (window <=? 0)%Z; [done|]. destruct (MaxDeclarableWindow <? window)%Z; [done|].
  unfold WindowTx in Hw. apply res_bind_Ok in Hw as (secs & Hsec & (s & _ & [= <-])%res_bind_Ok).
  apply widthSeconds_Ok in Hsec as [-> Hpos]. split; [by apply window_rows_spec|].
  intros e He <- Hm [Hlo Hhi]. unfold configured in Hc. rewrite Forall_forall in Hc. destruct (Hc e He) as (sp & Hsp & Hwd).
  rewrite Hm, Ha in Hsp. injection Hsp as <-. unfold counted, in_window, bkey, bucket_of. rewrite Hwd.
  rewrite !bool_decide_eq_true_2 by done. fold seconds. rewrite Z.eqb_refl. simpl.
  pose proof (Time.trunc_us_mono _ _ (BucketStart_mono _ _ _ Hpos Hlo)). unfold lo, hi in *.
  pose proof (Time.trunc_us_le (BucketStart (be_At e) (ms_BucketWidth spec))). pose proof (BucketStart_le (be_At e) _ Hpos). lia.
Qed.

(** C38. Velocity counts each accepted event once.  Run any sequence of batches and
    retention sweeps, with transactions failing before or after they took effect and the
    clock of a batch at most a day behind that of an earlier sweep.  The events applied are
    ones the batches carried and the checks passed; every event of a batch that was
    acknowledged is among them, or an event of the same caller, identifier and metric is;
    of two with the same three, the horizon of a deduplication sweep had passed the
    timestamp of the first and not that of the second, so a redelivery is never applied
    again; and a window that starts after every bucket horizon swept so far counts exactly
    the applied events whose bucket it covers, among them every one produced inside the
    window. *)
Theorem window_counts_once a ops metric subject window now spec w :
  clocks_agree [] ops → a !! metric = Some spec →
  let g := run_ops a ops in
  let lo := BucketStart (now - window) (ms_BucketWidth spec) in
  let hi := (now + MaxClockSkew)%Z in
  let seconds := Z.quot (ms_BucketWidth spec) Time.Second in
  (∀ h, h ∈ g_cut g → (h <= Time.trunc_us lo)%Z) →
  Aggregator_Window a metric subject window now (g_db g) = Ok w →
  (∀ b, b ∈ g_hist g → carried a ops b) ∧
  (∀ ops1 f at_ events ops2 res e, ops = ops1 ++ OAccept f at_ events :: ops2 →
     (Accept a f at_ events (g_db (run_ops a ops1))).1 = Ok res → e ∈ events →
     ∃ b, b ∈ g_hist g ∧ named (ev_CallerID e) (ev_EventID e) (ev_Metric e) b) ∧
  counted_once (g_seen g) (g_hist g) ∧
  bw_Count w = Z.of_nat (length (filter (counted subject metric seconds lo hi) (g_hist g))) ∧
  ∀ e, e ∈ g_hist g → be_SubjectID e = subject → be_Metric e = metric →
    (now - window <= be_At e < Time.trunc_us hi)%Z → counted subject metric seconds lo hi e.
Proof.
  intros Hk Ha g lo hi seconds Hcut Hw. split_and!.
  - apply (run_ops_carried a ops ops (mkHistory (mkVDB ∅ ∅) [] [] [])); [done|]. simpl. set_solver.
  - intros ops1 f at_ events ops2 res e Eo He. subst g. rewrite Eo in *. by eapply acknowledged_counted.
  - apply (vi_once _ (proj1 (ops_history_inv a ops Hk))).
  - by apply (window_counts a ops metric subject window now spec w).
  - by apply (window_counts a ops metric subject window now spec w).
Qed.

(** ** A metric, on concrete days *)

Module VelocityDemo.

Definition spec : MetricSpec := mkSpec "login" Hour false.
Definition metrics : Aggregator := {[ "login" := spec ]}.
Definition day (n : Z) : Time.t := (n * 24 * Hour)%Z.
Definition login (id : string) (at_ : Time.t) : Event := mkEvent "c" id "login" "alice" (Float64.of_Z 2) at_.

(** A batch whose reply is lost, its redelivery, a sweep and another event. *)
Definition ops : list vop :=
  [OAccept LostReply (day 100) [login "e1" (day 100); login "e2" (day 99)];
   OAccept NoFault (day 100) [login "e1" (day 100); login "e2" (day 99)];
   OSweep NoFault NoFault (day 101);
   OAccept NoFault (day 101) [login "e3" (day 101)]].

Lemma window_counts_once_witness :
  let g := run_ops metrics ops in
  Aggregator_Window metrics "login" "alice" (day 7) (day 101) (g_db g) = Ok (mkWindow 3 (Float64.add (Float64.of_Z 2) (Float64.of_Z 4))) ∧
  ∃ b, b ∈ g_hist g ∧ named "c" "e2" "login" b.
Proof.
  split; [vm_compute; reflexivity|].
  assert (clocks_agree [] ops) as Hk by (simpl; repeat split; repeat constructor; vm_compute; discriminate).
  refine (proj1 (proj2 (window_counts_once metrics ops "login" "alice" (day 7) (day 101) spec
     (mkWindow 3 (Float64.add (Float64.of_Z 2) (Float64.of_Z 4))) Hk _ _ _)) (take 1 ops) NoFault (day 100)
     [login "e1" (day 100); login "e2" (day 99)] (drop 2 ops) (mkResult 0 2) (login "e2" (day 99)) eq_refl _ _).
  - reflexivity.
  - intros h Hh. assert (Forall (λ h, (h <= Time.trunc_us (BucketStart (day 101 - day 7) Hour))%Z) (g_cut (run_ops metrics ops))) as Hf
      by (repeat constructor; vm_compute; discriminate).
    rewrite Forall_forall in Hf. by apply Hf.
  - vm_compute. reflexivity.
  - vm_compute. reflexivity.
  - right. left.
Defined.

(** The retention of buckets is the longest declarable window exactly, although a
    window reads from the start of the bucket it begins in: a sweep at the instant of
    the query deletes that bucket, and an event produced inside the window is no
    longer counted. *)
Theorem retention_undercounts :
  let db := (Accept metrics NoFault (day 100) [login "e1" (day 100 + 2 * Time.Minute)%Z] (mkVDB ∅ ∅)).2 in
  let now := (day 130 + Time.Minute)%Z in
  (now - MaxDeclarableWindow < day 100 + 2 * Time.Minute)%Z ∧
  Aggregator_Window metrics "login" "alice" MaxDeclarableWindow now db = Ok (mkWindow 1 (Float64.of_Z 2)) ∧
  Aggregator_Window metrics "login" "alice" MaxDeclarableWindow now (sweepOnce NoFault NoFault now db) =
    Ok (mkWindow 0 (Float64.of_Z 0)).
Proof. split; [vm_compute; reflexivity|]. split; vm_compute; reflexivity. Qed.

End VelocityDemo.
