(* ===== verification/Limiter.v ===== *)
(** * Rate limits

    Models the token buckets of internal/stream/ingest.go ([RateLimit], [Limiter])
    and the decide surface's use of them, internal/api/ratelimit.go.  Tokens are
    float64 values, with the rounding of the hardware; a clock reading is an
    argument. *)
From S2P Require Import Prelude GoLib.

(** ** Budgets *)

Record RateLimit := mkRate { rl_PerSecond : Float64.t; rl_Burst : Float64.t }.

#[export] Instance RateLimit_eq_dec : EqDecision RateLimit.
Proof. solve_decision. Defined.

Definition f0 : Float64.t := Float64.of_Z 0.
Definition f1 : Float64.t := Float64.of_Z 1.

Definition Unlimited (r : RateLimit) : bool := Float64.leb (rl_PerSecond r) f0.

Definition WithZeroDefault (r fallback : RateLimit) : RateLimit :=
  mkRate (if Float64.eqb (rl_PerSecond r) f0 then rl_PerSecond fallback else rl_PerSecond r)
         (if Float64.eqb (rl_Burst r) f0 then rl_Burst fallback else rl_Burst r).

Definition withDefaults (r : RateLimit) : RateLimit :=
  if Float64.leb (rl_Burst r) f0 then mkRate (rl_PerSecond r) (rl_PerSecond r) else r.

(** The conversion of a float64 to an int64 rounds toward zero; out of range the
    language leaves the result to the hardware, which [overflow] stands for. *)
Definition to_int64 (overflow : Z) (x : Float64.t) : Z :=
  match x with
  | Float64.NegZero => 0%Z
  | Float64.Fin m e =>
      let v := if (0 <=? e)%Z then (m * 2 ^ e)%Z else Z.quot m (2 ^ (- e)) in
      if ((- 2 ^ 63 <=? v) && (v <? 2 ^ 63))%Z then v else overflow
  | _ => overflow
  end.

Definition RefillInterval (overflow : Z) (r : RateLimit) : Time.duration :=
  if Unlimited r then 0%Z
  else to_int64 overflow (Float64.div (Float64.of_Z Time.Second) (rl_PerSecond r)).

(** ** The table *)

Record tokenBucket := mkBucket { tb_tokens : Float64.t; tb_at : Time.t; tb_limit : RateLimit }.

Record Limiter := mkLimiter { lm_max : Z; lm_entries : gmap string tokenBucket }.

Definition NewLimiter (max : Z) : Limiter := mkLimiter max ∅.

(** [elapsed.Seconds() * limit.PerSecond]. *)
Definition earned (now at_ : Time.t) (limit : RateLimit) : Float64.t :=
  Float64.mul (Float64.seconds (Time.Sub now at_)) (rl_PerSecond limit).

Definition refilled (now : Time.t) (b : tokenBucket) : bool :=
  Float64.leb (rl_Burst (tb_limit b)) (Float64.add (tb_tokens b) (earned now (tb_at b) (tb_limit b))).

(** What a sweep leaves, and how many entries it freed. *)
Definition sweepLocked (now : Time.t) (entries : gmap string tokenBucket) : Z * gmap string tokenBucket :=
  let kept := filter (λ kv, refilled now kv.2 = false) entries in
  (Z.of_nat (size entries) - Z.of_nat (size kept), kept)%Z.

(** A charge against one bucket: the new limit takes effect, time refills, and the
    cost is taken if it is covered. *)
Definition charge_bucket (limit : RateLimit) (cost : Float64.t) (now : Time.t) (b : tokenBucket) : bool * tokenBucket :=
  let tokens := Float64.min (tb_tokens b) (rl_Burst limit) in
  let '(tokens, at_) :=
    if (0 <? Time.Sub now (tb_at b))%Z
    then (Float64.min (rl_Burst limit) (Float64.add tokens (earned now (tb_at b) limit)), now)
    else (tokens, tb_at b) in
  if Float64.ltb tokens cost then (false, mkBucket tokens at_ limit)
  else (true, mkBucket (Float64.sub tokens cost) at_ limit).

Definition AllowAt (key : string) (limit : RateLimit) (cost : Float64.t) (now : Time.t) (l : Limiter) : bool * Limiter :=
  if Unlimited limit then (true, l)
  else
    let limit := withDefaults limit in
    let charge b entries :=
      let '(ok, b') := charge_bucket limit cost now b in (ok, mkLimiter (lm_max l) (<[key := b']> entries)) in
    match lm_entries l !! key with
    | Some b => charge b (lm_entries l)
    | None =>
        let '(freed, entries) :=
          if (lm_max l <=? Z.of_nat (size (lm_entries l)))%Z then sweepLocked now (lm_entries l)
          else (1%Z, lm_entries l) in
        if (freed =? 0)%Z then (false, mkLimiter (lm_max l) entries)
        else charge (mkBucket (rl_Burst limit) now limit) entries
    end.

(** [Allow] reads the clock of the limiter. *)
Definition Allow := AllowAt.

(** ** The decide surface (api/ratelimit.go) *)

Definition DefaultDecideRate : RateLimit := mkRate (Float64.of_Z 50) (Float64.of_Z 100).
Definition DefaultDecideSubjectRate : RateLimit := mkRate (Float64.of_Z 5) (Float64.of_Z 10).

Definition maxRetryAfterSeconds : Z := 3600%Z.

(** [math.Ceil], as the integer it is. *)
Definition ceil (x : Float64.t) : option Z :=
  match x with
  | Float64.NegZero => Some 0%Z
  | Float64.Fin m e => Some (if (0 <=? e)%Z then (m * 2 ^ e)%Z else - ((- m) / 2 ^ (- e)))%Z
  | _ => None
  end.

Definition retryAfterSecondsFor (d : Time.duration) : Z :=
  if (d <=? 0)%Z then 1%Z
  else match ceil (Float64.seconds d) with
       | None => maxRetryAfterSeconds
       | Some interval => if (interval <? 1)%Z then 1%Z
                          else if (maxRetryAfterSeconds <? interval)%Z then maxRetryAfterSeconds else interval
       end.

Definition retryAfterSeconds (overflow : Z) (l : RateLimit) : Z := retryAfterSecondsFor (RefillInterval overflow l).

Record decideLimiter := mkDecideLimiter {
  dl_callers : Limiter; dl_subjects : Limiter; dl_caller : RateLimit; dl_subject : RateLimit }.

Definition newDecideLimiter (caller subject : RateLimit) (maxEntries : Z) : decideLimiter :=
  mkDecideLimiter (NewLimiter maxEntries) (NewLimiter maxEntries)
    (WithZeroDefault caller DefaultDecideRate) (WithZeroDefault subject DefaultDecideSubjectRate).

Definition allowCaller (callerID : string) (now : Time.t) (l : decideLimiter) : bool * decideLimiter :=
  let '(ok, c) := Allow callerID (dl_caller l) f1 now (dl_callers l) in
  (ok, mkDecideLimiter c (dl_subjects l) (dl_caller l) (dl_subject l)).

Definition allowSubject (subjectID : string) (now : Time.t) (l : decideLimiter) : bool * decideLimiter :=
  let '(ok, s) := Allow subjectID (dl_subject l) f1 now (dl_subjects l) in
  (ok, mkDecideLimiter (dl_callers l) s (dl_caller l) (dl_subject l)).
