(* ===== verification/LimiterSpec.v ===== *)
(** * What the rate limiter promises

    First whole numbers as float64: subtraction, comparison and minimum of float64
    values that are whole numbers below 2^53 are exact, which is what is needed of the
    arithmetic for counting.  Then the limiter: its table is bounded, and the burst caps
    what a caller gets in one instant. *)
From Stdlib Require Import SpecFloat.
From S2P Require Import Prelude GoLib.

Local Open Scope Z_scope.

(** [m * 2^e = n]. *)
Definition dyadic (m e n : Z) : Prop := m * 2 ^ Z.max e 0 = n * 2 ^ Z.max (- e) 0.

Definition is_int (x : Float64.t) (n : Z) : Prop :=
  match x with
  | Float64.Fin m e => dyadic m e n
  | Float64.NegZero => n = 0
  | _ => False
  end.

Definition digits (n : Z) : Z := Z.log2 n + 1.

Lemma digits2_log2 p : Zpos (digits2_pos p) = digits (Zpos p).
Proof.
  unfold digits. induction p as [p IH|p IH|]; simpl digits2_pos; [..|done].
  - rewrite Pos2Z.inj_succ, IH. rewrite Pos2Z.inj_xI, Z.log2_succ_double by lia. lia.
  - rewrite Pos2Z.inj_succ, IH. rewrite Pos2Z.inj_xO, Z.log2_double by lia. lia.
Qed.

Lemma dyadic_digits m e n : 0 < m → 0 < n → dyadic m e n → digits m + e = digits n.
Proof.
  intros Hm Hn Hd. apply (f_equal Z.log2) in Hd. rewrite !Z.log2_mul_pow2 in Hd by lia. unfold digits. lia.
Qed.

Lemma dyadic_neg m e n : e <= 0 → dyadic m e n → m = n * 2 ^ (- e).
Proof. unfold dyadic. intros He. rewrite Z.max_r, (Z.max_l (- e)) by lia. rewrite Z.pow_0_r. lia. Qed.

Lemma dyadic_of_neg n e : e <= 0 → dyadic (n * 2 ^ (- e)) e n.
Proof. unfold dyadic. intros He. rewrite Z.max_r, (Z.max_l (- e)) by lia. rewrite Z.pow_0_r. lia. Qed.

Lemma iter_pos_nat {A} (f : A → A) p x : SpecFloat.iter_pos f p x = Nat.iter (Pos.to_nat p) f x.
Proof.
  revert x. induction p as [p IH|p IH|]; intros x; cbn [SpecFloat.iter_pos]; [..|done].
  - rewrite Pos2Nat.inj_xI, !IH, <-Nat.iter_add, Nat.iter_succ_r. f_equal. lia.
  - rewrite Pos2Nat.inj_xO, !IH, <-Nat.iter_add. f_equal. lia.
Qed.

Lemma shr_1_exact m : 0 < m → shr_1 (Build_shr_record (2 * m) false false) = Build_shr_record m false false.
Proof. by destruct m. Qed.

Lemma shr_exact k m : 0 < m →
  Nat.iter k shr_1 (Build_shr_record (m * 2 ^ Z.of_nat k) false false) = Build_shr_record m false false.
Proof.
  intros Hm. induction k as [|k IH]; [simpl; f_equal; lia|]. rewrite Nat.iter_succ_r.
  assert (m * 2 ^ Z.of_nat (S k) = 2 * (m * 2 ^ Z.of_nat k)) as ->; [|rewrite shr_1_exact; [done|]].
  - rewrite Nat2Z.inj_succ, Z.pow_succ_r by lia. lia.
  - pose proof (Z.pow_pos_nonneg 2 (Z.of_nat k)). nia.
Qed.

Lemma fexp_int n : 0 < n < 2 ^ 53 → fexp 53 1024 (digits n) = digits n - 53 ∧ 1 <= digits n <= 53.
Proof.
  intros [Hn Hlt]. unfold fexp, emin, digits. pose proof (Z.log2_nonneg n). apply Z.log2_lt_pow2 in Hlt; [|done]. lia.
Qed.

Lemma shr_fexp_int m e n :
  0 < n < 2 ^ 53 → 0 < m → e <= digits n - 53 → dyadic m e n →
  shr_fexp 53 1024 m e loc_Exact = (Build_shr_record (n * 2 ^ (53 - digits n)) false false, digits n - 53).
Proof.
  intros Hn Hm He Hd. destruct (fexp_int n Hn) as [Hf Hdn]. unfold shr_fexp.
  assert (Zdigits2 m = digits m) as -> by (destruct m; [done|apply digits2_log2|done]).
  rewrite (dyadic_digits m e n), Hf by (done || lia). simpl shr_record_of_loc.
  apply dyadic_neg in Hd; [|lia]. unfold shr.
  destruct (digits n - 53 - e) as [|p|p] eqn:E; [|rewrite iter_pos_nat|lia].
  - assert (e = digits n - 53) as -> by lia. rewrite Hd. repeat f_equal; lia.
  - f_equal; [|lia]. rewrite Hd.
    replace (- e) with ((53 - digits n) + Z.of_nat (Pos.to_nat p)) by lia.
    rewrite Z.pow_add_r, Z.mul_assoc by lia. apply shr_exact. pose proof (Z.pow_pos_nonneg 2 (53 - digits n)). nia.
Qed.

Lemma iter_xO k m : Zpos (Pos.iter xO m k) = Zpos m * 2 ^ Zpos k.
Proof.
  induction k as [|k IH] using Pos.peano_ind; [simpl; lia|].
  rewrite Pos.iter_succ, Pos2Z.inj_succ, Z.pow_succ_r, Pos2Z.inj_xO, IH by lia. lia.
Qed.

Lemma shl_align_dyadic m e e' n :
  dyadic (Zpos m) e n → let '(m', e'') := shl_align m e e' in dyadic (Zpos m') e'' n ∧ e'' = Z.min e e'.
Proof.
  intros Hd. unfold shl_align. destruct (e' - e) as [|p|p] eqn:E; [split; [done|lia]..|].
  rewrite iter_xO. split; [|lia]. unfold dyadic in *.
  assert (Zpos p + Z.max e' 0 + Z.max (- e) 0 = Z.max e 0 + Z.max (- e') 0) as Hp by lia.
  apply (Z.mul_reg_r _ _ (2 ^ Z.max (- e) 0)); [pose proof (Z.pow_pos_nonneg 2 (Z.max (- e) 0)); lia|].
  rewrite <-!Z.mul_assoc, <-!Z.pow_add_r by lia.
  replace (Zpos p + (Z.max e' 0 + Z.max (- e) 0)) with (Z.max e 0 + Z.max (- e') 0) by lia.
  rewrite Z.pow_add_r, Z.mul_assoc, Hd by lia. rewrite <-Z.mul_assoc, <-Z.pow_add_r by lia. f_equal. f_equal. lia.
Qed.

Lemma round_aux_int s m e n :
  0 < n < 2 ^ 53 → e <= digits n - 53 → dyadic (Zpos m) e n →
  binary_round_aux 53 1024 s (Zpos m) e loc_Exact = S754_finite s (Z.to_pos (n * 2 ^ (53 - digits n))) (digits n - 53).
Proof.
  intros Hn He Hd. destruct (fexp_int n Hn) as [Hf Hdn]. unfold binary_round_aux.
  rewrite (shr_fexp_int _ _ n) by (done || lia). simpl.
  assert (0 < n * 2 ^ (53 - digits n)) as Hpos by (pose proof (Z.pow_pos_nonneg 2 (53 - digits n)); nia).
  assert (dyadic (n * 2 ^ (53 - digits n)) (digits n - 53) n) as Hc.
  { replace (53 - digits n) with (- (digits n - 53)) by lia. apply dyadic_of_neg. lia. }
  rewrite (shr_fexp_int _ _ n) by (done || lia). cbn [shr_m].
  destruct (n * 2 ^ (53 - digits n)) as [|p|p]; [lia| |lia].
  change (1024 - 53) with 971. rewrite (Zle_imp_le_bool _ 971) by lia. done.
Qed.

Lemma binary_round_int s m e n :
  0 < n < 2 ^ 53 → dyadic (Zpos m) e n →
  binary_round 53 1024 s m e = S754_finite s (Z.to_pos (n * 2 ^ (53 - digits n))) (digits n - 53).
Proof.
  intros Hn Hd. destruct (fexp_int n Hn) as [Hf Hdn]. unfold binary_round. rewrite digits2_log2.
  rewrite (dyadic_digits _ e n), Hf by (done || lia).
  pose proof (shl_align_dyadic m e (digits n - 53) n Hd) as Ha. destruct (shl_align m e (digits n - 53)) as [mz ez].
  destruct Ha as [Hz ->]. apply round_aux_int; [done|lia|done].
Qed.

(** A spec float that denotes a whole number. *)
Definition spec_int (x : spec_float) (n : Z) : Prop :=
  match x with
  | S754_zero _ => n = 0
  | S754_finite s m e => dyadic (cond_Zopp s (Zpos m)) e n ∧ n ≠ 0
  | _ => False
  end.

Lemma dyadic_opp m e n : dyadic m e n → dyadic (- m) e (- n).
Proof. unfold dyadic. lia. Qed.

Lemma dyadic_zero e n : dyadic 0 e n → n = 0.
Proof. unfold dyadic. pose proof (Z.pow_pos_nonneg 2 (Z.max (- e) 0)). nia. Qed.

Lemma dyadic_sign m e n : dyadic m e n → Z.sgn m = Z.sgn n.
Proof.
  unfold dyadic. intros Hd. apply (f_equal Z.sgn) in Hd. rewrite !Z.sgn_mul in Hd.
  rewrite !(Z.sgn_pos (2 ^ _)) in Hd by (apply Z.pow_pos_nonneg; lia). lia.
Qed.

Lemma normalize_int m e s n : Z.abs n < 2 ^ 53 → dyadic m e n → spec_int (binary_normalize 53 1024 m e s) n.
Proof.
  intros Hn Hd. pose proof (dyadic_sign _ _ _ Hd) as Hs.
  assert (∀ k, 0 < k < 2 ^ 53 → dyadic (Zpos (Z.to_pos (k * 2 ^ (53 - digits k)))) (digits k - 53) k) as Hc.
  { intros k Hk. destruct (fexp_int k Hk). rewrite Z2Pos.id.
    - replace (53 - digits k) with (- (digits k - 53)) by lia. apply dyadic_of_neg. lia.
    - pose proof (Z.pow_pos_nonneg 2 (53 - digits k)). nia. }
  unfold binary_normalize. destruct m as [|m|m]; [by apply dyadic_zero in Hd|..].
  - assert (0 < n) by (apply Z.sgn_pos_iff; by rewrite <-Hs). rewrite (binary_round_int _ _ _ n) by (done || lia).
    split; [apply Hc|]; lia.
  - assert (n < 0) by (apply Z.sgn_neg_iff; by rewrite <-Hs).
    rewrite (binary_round_int _ _ _ (- n)); [|lia|by apply (dyadic_opp (Zneg m))].
    split; [|lia]. specialize (Hc (- n)). apply dyadic_opp in Hc; [|lia]. by rewrite Z.opp_involutive in Hc.
Qed.

Lemma to_spec_int x n : Z.abs n < 2 ^ 53 → is_int x n → spec_int (Float64.to_spec x) n.
Proof. intros Hn. destruct x; simpl; try done. by apply normalize_int. Qed.

Lemma of_spec_int x n : spec_int x n → is_int (Float64.of_spec x) n.
Proof.
  destruct x as [[]| | |s m e]; simpl; try done.
  - intros ->. done.
  - intros [Hd _]. by destruct s.
Qed.

Lemma align_int s m e e' n :
  dyadic (cond_Zopp s (Zpos m)) e n → e' <= e → dyadic (cond_Zopp s (Zpos (shl_align m e e').1)) e' n.
Proof.
  intros Hd He. assert (dyadic (Zpos m) e (cond_Zopp s n)) as Hp.
  { destruct s; simpl in *; [|done]. by apply (dyadic_opp (Zneg m)). }
  pose proof (shl_align_dyadic m e e' _ Hp) as Ha. destruct (shl_align m e e') as [m' e'']. destruct Ha as [Ha ->].
  rewrite Z.min_r in Ha by lia. simpl. destruct s; simpl in *; [|done]. rewrite <-(Z.opp_involutive n).
  by apply (dyadic_opp (Zpos m')).
Qed.

Lemma dyadic_sub a b e x y : dyadic a e x → dyadic b e y → dyadic (a - b) e (x - y).
Proof. unfold dyadic. lia. Qed.

(** Subtraction is exact. *)
Lemma sub_int x y a b :
  Z.abs a < 2 ^ 53 → Z.abs b < 2 ^ 53 → Z.abs (a - b) < 2 ^ 53 → is_int x a → is_int y b → is_int (Float64.sub x y) (a - b).
Proof.
  intros Ha Hb Hab Hx%to_spec_int Hy%to_spec_int; [|done..]. apply of_spec_int.
  destruct (Float64.to_spec x) as [sx| | |sx mx ex], (Float64.to_spec y) as [sy| | |sy my ey]; simpl in *; try done.
  - subst. by destruct sx, sy.
  - subst. destruct Hy as [Hy Hb0]. split; [|lia]. apply dyadic_opp in Hy. by destruct sy.
  - subst. destruct Hx as [Hx Ha0]. split; [|lia]. by rewrite Z.sub_0_r.
  - destruct Hx as [Hx _], Hy as [Hy _]. apply normalize_int; [done|]. apply dyadic_sub; apply align_int; (done || lia).
Qed.

Lemma compare_int x y a b : is_int x a → is_int y b → Float64.compare x y = Some (a ?= b).
Proof.
  intros Hx Hy.
  assert (∀ m e m' e', dyadic m e a → dyadic m' e' b → Float64.compare_fin m e m' e' = (a ?= b)) as Hfin.
  { intros m e m' e' Hm Hm'. rewrite (Float64.compare_fin_at _ _ _ _ (Z.min (Z.min e e') 0)) by lia.
    assert (∀ m e k n, dyadic m e n → k <= e → k <= 0 → Float64.scaled m e k = n * 2 ^ (- k)) as Hsc.
    { intros m0 e0 k n Hd Hk H0. unfold Float64.scaled, dyadic in *.
      apply (Z.mul_reg_r _ _ (2 ^ Z.max (- e0) 0)); [pose proof (Z.pow_pos_nonneg 2 (Z.max (- e0) 0)); lia|].
      rewrite <-!Z.mul_assoc, <-!Z.pow_add_r by lia.
      replace (e0 - k + Z.max (- e0) 0) with (Z.max e0 0 + - k) by lia.
      rewrite Z.pow_add_r, Z.mul_assoc, Hd, <-Z.mul_assoc, <-Z.pow_add_r by lia. f_equal. f_equal. lia. }
    rewrite !(Hsc m e _ a), !(Hsc m' e' _ b) by (done || lia). symmetry.
    pose proof (Z.pow_pos_nonneg 2 (- Z.min (Z.min e e') 0)) as Hp.
    destruct (Z.compare_spec a b); symmetry; [apply Z.compare_eq_iff|apply Z.compare_lt_iff|apply Z.compare_gt_iff]; nia. }
  destruct x as [| | |m e], y as [| | |m' e']; simpl in *; try done; subst; unfold Float64.compare; simpl;
    f_equal; apply Hfin; done || (unfold dyadic; lia).
Qed.

Lemma ltb_int x y a b : is_int x a → is_int y b → Float64.ltb x y = (a <? b).
Proof.
  intros Hx Hy. unfold Float64.ltb, Z.ltb. rewrite (compare_int x y a b) by done.
  by destruct (a ?= b).
Qed.

Lemma leb_int x y a b : is_int x a → is_int y b → Float64.leb x y = (a <=? b).
Proof.
  intros Hx Hy. unfold Float64.leb, Float64.ltb, Float64.eqb, Z.leb. rewrite (compare_int x y a b) by done.
  by destruct (a ?= b).
Qed.

Lemma min_int x y a b : is_int x a → is_int y b → is_int (Float64.min x y) (Z.min a b).
Proof.
  intros Hx Hy. pose proof (leb_int y x b a Hy Hx) as Hle. pose proof (ltb_int y x b a Hy Hx) as Hlt.
  destruct x as [| | |m e]; [done|done|..]; destruct y as [| | |m' e']; try done; unfold Float64.min.
  1,2: rewrite Hlt. 3,4: rewrite Hle. all: case_match; [rewrite Z.min_r by lia|rewrite Z.min_l by lia]; done.
Qed.

Lemma of_Z_int n : is_int (Float64.of_Z n) n.
Proof. done. Qed.

Lemma dyadic_add a b e x y : dyadic a e x → dyadic b e y → dyadic (a + b) e (x + y).
Proof. unfold dyadic. lia. Qed.

Lemma add_int x y a b :
  Z.abs a < 2 ^ 53 → Z.abs b < 2 ^ 53 → Z.abs (a + b) < 2 ^ 53 → is_int x a → is_int y b → is_int (Float64.add x y) (a + b).
Proof.
  intros Ha Hb Hab Hx%to_spec_int Hy%to_spec_int; [|done..]. apply of_spec_int.
  destruct (Float64.to_spec x) as [sx| | |sx mx ex], (Float64.to_spec y) as [sy| | |sy my ey]; simpl in *; try done.
  - subst. by destruct sx, sy.
  - by subst.
  - subst. by rewrite Z.add_0_r.
  - destruct Hx as [Hx _], Hy as [Hy _]. apply normalize_int; [done|]. apply dyadic_add; apply align_int; (done || lia).
Qed.

(** Multiplication of whole numbers is exact below 2^53. *)
Lemma to_spec_pos x n : 0 < n < 2 ^ 53 → is_int x n →
  Float64.to_spec x = S754_finite false (Z.to_pos (n * 2 ^ (53 - digits n))) (digits n - 53).
Proof.
  intros Hn Hx. destruct x as [| | |m e]; simpl in *; [done|done|lia|]. unfold binary_normalize.
  pose proof (dyadic_sign _ _ _ Hx) as Hs. rewrite (Z.sgn_pos n) in Hs by lia.
  destruct m as [|m|m]; [done| |done]. by apply binary_round_int.
Qed.

Lemma mul_int x y a b :
  0 < a → 0 < b → a * b < 2 ^ 53 → is_int x a → is_int y b → is_int (Float64.mul x y) (a * b).
Proof.
  intros Ha Hb Hab Hx Hy. unfold Float64.mul. rewrite (to_spec_pos x a), (to_spec_pos y b) by (done || nia). cbn [SFmul xorb].
  destruct (fexp_int a) as [_ Hda]; [nia|]. destruct (fexp_int b) as [_ Hdb]; [nia|].
  assert (0 < a * 2 ^ (53 - digits a)) as Hpa by (pose proof (Z.pow_pos_nonneg 2 (53 - digits a)); nia).
  assert (0 < b * 2 ^ (53 - digits b)) as Hpb by (pose proof (Z.pow_pos_nonneg 2 (53 - digits b)); nia).
  pose proof (Z.log2_mul_below a b Ha Hb) as Hlog.
  rewrite (round_aux_int _ _ _ (a * b)).
  - apply of_spec_int. split; [|nia]. cbn [cond_Zopp]. destruct (fexp_int (a * b)) as [_ Hdab]; [nia|].
    rewrite Z2Pos.id by (pose proof (Z.pow_pos_nonneg 2 (53 - digits (a * b))); nia).
    replace (53 - digits (a * b)) with (- (digits (a * b) - 53)) by lia. apply dyadic_of_neg. lia.
  - nia.
  - unfold digits in *. lia.
  - rewrite Pos2Z.inj_mul, !Z2Pos.id by done.
    replace (a * 2 ^ (53 - digits a) * (b * 2 ^ (53 - digits b))) with (a * b * 2 ^ (- (digits a - 53 + (digits b - 53)))).
    { apply dyadic_of_neg. lia. }
    replace (- (digits a - 53 + (digits b - 53))) with ((53 - digits a) + (53 - digits b)) by lia.
    rewrite Z.pow_add_r by lia. lia.
Qed.

(** ** What the rate limiter promises

    The table never holds more buckets than its bound, whatever keys requests
    invent; and at any one instant a key that starts with no bucket is admitted no
    more than its burst, whatever other keys are charged meanwhile and however the
    table is swept. *)
From S2P Require Import Limiter.
Local Close Scope Z_scope.

(** A charge as the surfaces make it: the cost is a number of requests or events. *)
Record charge := mkCharge { c_key : string; c_limit : RateLimit; c_cost : Z; c_at : Time.t }.

Definition charge_step (l : Limiter) (c : charge) : bool * Limiter :=
  AllowAt (c_key c) (c_limit c) (Float64.of_Z (c_cost c)) (c_at c) l.

Definition run_charges (l : Limiter) (cs : list charge) : Limiter := foldl (λ l c, (charge_step l c).2) l cs.

(** ** The bound of the table *)

Lemma size_filter_le {A} (P : string * A → Prop) `{!∀ x, Decision (P x)} (m : gmap string A) : size (filter P m) ≤ size m.
Proof. rewrite <-!size_dom. apply subseteq_size, dom_filter_subseteq. Qed.

Lemma size_insert_le {A} k (a : A) (m : gmap string A) : size (<[k := a]> m) ≤ S (size m).
Proof. rewrite map_size_insert. destruct (m !! k); simpl; lia. Qed.

Lemma sweepLocked_size now entries :
  let '(freed, kept) := sweepLocked now entries in (0 <= freed ∧ Z.of_nat (size kept) = Z.of_nat (size entries) - freed)%Z.
Proof. unfold sweepLocked. pose proof (size_filter_le (λ kv, refilled now kv.2 = false) entries). lia. Qed.

Lemma AllowAt_size key limit cost now l :
  (Z.of_nat (size (lm_entries l)) <= Z.max 0 (lm_max l))%Z →
  let l' := (AllowAt key limit cost now l).2 in
  lm_max l' = lm_max l ∧ (Z.of_nat (size (lm_entries l')) <= Z.max 0 (lm_max l))%Z.
Proof.
  intros Hs. unfold AllowAt. destruct (Unlimited limit); [done|].
  destruct (lm_entries l !! key) as [b|] eqn:E.
  { destruct (charge_bucket _ _ _ b) as [ok b']. simpl. split; [done|]. by rewrite map_size_insert_Some by eauto. }
  pose proof (sweepLocked_size now (lm_entries l)) as Hsw.
  destruct (Z.leb_spec (lm_max l) (Z.of_nat (size (lm_entries l)))) as [Hfull|Hroom].
  - destruct (sweepLocked now (lm_entries l)) as [freed kept]. case_match eqn:E0; [simpl; split; [done|lia]|].
    destruct (charge_bucket _ _ _ _) as [ok b']. simpl. split; [done|].
    pose proof (size_insert_le key b' kept). lia.
  - simpl. destruct (charge_bucket _ _ _ _) as [ok b']. simpl. split; [done|].
    pose proof (size_insert_le key b' (lm_entries l)). lia.
Qed.

(** A limiter never holds more buckets than the bound it was built with, whatever
    the keys, limits, costs and instants of the charges made against it. *)
Theorem limiter_bounded max cs :
  (Z.of_nat (size (lm_entries (run_charges (NewLimiter max) cs))) <= Z.max 0 max)%Z.
Proof.
  unfold run_charges. cut (∀ l, lm_max l = max → (Z.of_nat (size (lm_entries l)) <= Z.max 0 max)%Z →
    (Z.of_nat (size (lm_entries (foldl (λ l c, (charge_step l c).2) l cs))) <= Z.max 0 max)%Z).
  { intros Hc. apply Hc; [done|]. simpl. rewrite map_size_empty. lia. }
  induction cs as [|c cs IH]; intros l Hm Hs; [done|]. subst max. simpl.
  destruct (AllowAt_size (c_key c) (c_limit c) (Float64.of_Z (c_cost c)) (c_at c) l Hs) as [Hm' Hs'].
  by apply IH.
Qed.

Lemma AllowAt_keys key limit cost now l k :
  is_Some (lm_entries (AllowAt key limit cost now l).2 !! k) → k = key ∨ is_Some (lm_entries l !! k).
Proof.
  unfold AllowAt. destruct (Unlimited limit); [auto|].
  assert (∀ e b', (∀ k b, e !! k = Some b → is_Some (lm_entries l !! k)) →
    is_Some ((<[key := b']> e : gmap string tokenBucket) !! k) → k = key ∨ is_Some (lm_entries l !! k)) as Hins.
  { intros e b' He [b Hb]. apply lookup_insert_Some in Hb as [[<- _]|[_ Hb]]; [auto|]. right. by eapply He. }
  assert (∀ k b, (sweepLocked now (lm_entries l)).2 !! k = Some b → is_Some (lm_entries l !! k)) as Hsw.
  { intros k' b Hb. unfold sweepLocked in Hb. simpl in Hb. apply map_lookup_filter_Some in Hb as [Hb _]. eauto. }
  destruct (lm_entries l !! key) as [b|] eqn:E.
  - destruct (charge_bucket _ _ _ b). apply Hins. eauto.
  - destruct (_ <=? _)%Z.
    + destruct (sweepLocked now (lm_entries l)) as [freed kept]. simpl in Hsw. case_match.
      * simpl. intros [b Hb]. right. by eapply Hsw.
      * destruct (charge_bucket _ _ _ _). by apply Hins.
    + simpl. destruct (charge_bucket _ _ _ _). apply Hins. eauto.
Qed.

Lemma AllowAt_max key limit cost now l : lm_max (AllowAt key limit cost now l).2 = lm_max l.
Proof. unfold AllowAt. repeat (case_match; simplify_eq; try done). Qed.

(** ** The burst *)

Fixpoint admitted (key : string) (l : Limiter) (cs : list charge) : Z :=
  match cs with
  | [] => 0
  | c :: cs =>
      let '(ok, l') := charge_step l c in
      ((if ok && bool_decide (c_key c = key) then c_cost c else 0) + admitted key l' cs)%Z
  end.

Lemma Sub_self x : Time.Sub x x = 0%Z.
Proof. unfold Time.Sub, Time.minDuration, Time.maxDuration. lia. Qed.

Section burst.
Context (key : string) (limit : RateLimit) (burst : Z) (now : Time.t).
Context (Hlimited : Unlimited limit = false) (Hburst : is_int (rl_Burst (withDefaults limit)) burst).
Context (Hrange : (0 <= burst < 2 ^ 53)%Z).

(** [n] tokens are left in the bucket of the key. *)
Definition left_over (l : Limiter) (n : Z) : Prop :=
  match lm_entries l !! key with
  | None => n = burst
  | Some b => is_int (tb_tokens b) n ∧ tb_at b = now ∧ tb_limit b = withDefaults limit
  end.

Lemma earned_now r : is_int (earned now now r) 0 ∨ earned now now r = Float64.NaN.
Proof.
  unfold earned. rewrite Sub_self.
  change (Float64.seconds 0) with (Float64.Fin 0 0). unfold Float64.mul.
  destruct (Float64.to_spec (rl_PerSecond r)) as [[]|[]| |[]]; simpl; (by left) || (by right).
Qed.

Lemma refilled_now b n :
  is_int (tb_tokens b) n → (0 <= n <= burst)%Z → tb_at b = now → tb_limit b = withDefaults limit →
  refilled now b = true → n = burst.
Proof.
  intros Hn Hr Hat Hl. unfold refilled. rewrite Hat, Hl. destruct (earned_now (withDefaults limit)) as [He| ->].
  - rewrite (leb_int _ _ burst (n + 0)); [lia|done|]. apply add_int; (done || lia).
  - unfold Float64.add. simpl. destruct (Float64.to_spec (tb_tokens b)); simpl;
      unfold Float64.leb, Float64.ltb, Float64.eqb; destruct (rl_Burst (withDefaults limit)); done.
Qed.

(** A sweep takes the bucket only when nothing is missing from it. *)
Lemma sweep_left_over entries n m :
  left_over (mkLimiter m entries) n → (0 <= n <= burst)%Z → left_over (mkLimiter m (sweepLocked now entries).2) n.
Proof.
  unfold left_over. simpl. intros Hl Hr. rewrite map_lookup_filter. destruct (entries !! key) as [b|] eqn:E; simpl; [|done].
  destruct Hl as (Hn & Hat & Hlim). destruct (refilled now b) eqn:Ef.
  - rewrite option_guard_False by (simpl; congruence). by apply (refilled_now b).
  - by rewrite option_guard_True.
Qed.

Lemma charge_bucket_left b n cost ok b' :
  is_int (tb_tokens b) n → (0 <= n <= burst)%Z → tb_at b = now → (0 <= cost < 2 ^ 53)%Z →
  charge_bucket (withDefaults limit) (Float64.of_Z cost) now b = (ok, b') →
  tb_at b' = now ∧ tb_limit b' = withDefaults limit ∧
  is_int (tb_tokens b') (if ok then n - cost else n) ∧ (ok = true ↔ cost <= n)%Z.
Proof.
  intros Hn Hr Hat Hc. unfold charge_bucket. rewrite Hat.
  rewrite Sub_self. simpl.
  pose proof (min_int _ _ _ _ Hn Hburst) as Hm. rewrite Z.min_l in Hm by lia.
  rewrite (ltb_int _ _ n cost) by (done || apply of_Z_int). destruct (Z.ltb_spec n cost); intros [= <- <-]; simpl.
  - split_and!; (done || lia).
  - split; [done|]. split; [done|]. split; [|lia]. apply sub_int; (done || lia || apply of_Z_int).
Qed.

Lemma charge_own m entries b n cost :
  is_int (tb_tokens b) n → (0 <= n <= burst)%Z → tb_at b = now → (0 <= cost < 2 ^ 53)%Z →
  let '(ok, b') := charge_bucket (withDefaults limit) (Float64.of_Z cost) now b in
  let n' := (n - (if ok && true then cost else 0))%Z in
  left_over (mkLimiter m (<[key := b']> entries)) n' ∧ (0 <= n' <= burst)%Z.
Proof.
  intros Hn Hr Hat Hc. destruct (charge_bucket _ _ _ b) as [ok b'] eqn:Ec.
  destruct (charge_bucket_left b n cost ok b') as (Hat' & Hlim' & Hn' & Hok); [done..|].
  unfold left_over. simpl. rewrite lookup_insert_eq, andb_true_r. destruct ok.
  - apply proj1 in Hok. specialize (Hok eq_refl). repeat split; (done || lia).
  - rewrite Z.sub_0_r. repeat split; (done || lia).
Qed.

Lemma charge_other l n k lim cost :
  k ≠ key → left_over l n → (0 <= n <= burst)%Z → left_over (AllowAt k lim cost now l).2 n.
Proof.
  intros Hne Hl Hr. destruct l as [m entries]. unfold AllowAt. simpl.
  assert (∀ e b', left_over (mkLimiter m e) n → left_over (mkLimiter m (<[k := b']> e)) n) as Hins.
  { intros e b'. unfold left_over. simpl. by rewrite lookup_insert_ne. }
  pose proof (sweep_left_over entries n m Hl Hr) as Hsw.
  destruct (Unlimited lim); [done|]. destruct (entries !! k) as [b|] eqn:E.
  - destruct (charge_bucket _ _ _ b) as [ok b']. by apply Hins.
  - destruct (Z.leb_spec m (Z.of_nat (size entries))) as [_|_].
    + destruct (sweepLocked now entries) as [freed kept]. case_match; [done|].
      destruct (charge_bucket _ _ _ _) as [ok b']. by apply Hins.
    + simpl. destruct (charge_bucket _ _ _ _) as [ok b']. by apply Hins.
Qed.

Lemma charge_left_over l n c :
  left_over l n → (0 <= n <= burst)%Z → c_at c = now → (0 <= c_cost c < 2 ^ 53)%Z → (c_key c = key → c_limit c = limit) →
  let '(ok, l') := charge_step l c in
  let n' := (n - (if ok && bool_decide (c_key c = key) then c_cost c else 0))%Z in
  left_over l' n' ∧ (0 <= n' <= burst)%Z.
Proof.
  intros Hl Hr Hat Hc Hk. destruct c as [k lim cost t]. unfold charge_step. simpl in *. subst t.
  destruct (decide (k = key)) as [->|Hne].
  2:{ rewrite bool_decide_eq_false_2 by done. pose proof (charge_other l n k lim (Float64.of_Z cost) Hne Hl Hr) as Ho.
      destruct (AllowAt _ _ _ _ _) as [ok l']. by rewrite andb_false_r, Z.sub_0_r. }
  destruct l as [m entries]. unfold AllowAt. simpl.
  rewrite (Hk eq_refl), Hlimited, bool_decide_eq_true_2 by done. pose proof Hl as Hl0. unfold left_over in Hl. simpl in Hl.
  destruct (entries !! key) as [b|] eqn:E.
  { destruct Hl as (Hn & Hat & _). pose proof (charge_own m entries b n cost Hn Hr Hat Hc) as Ho.
    by destruct (charge_bucket _ _ _ b). }
  subst n. pose proof (λ e, charge_own m e (mkBucket (rl_Burst (withDefaults limit)) now (withDefaults limit)) burst cost
    Hburst Hr eq_refl Hc) as Ho.
  destruct (Z.leb_spec m (Z.of_nat (size entries))) as [_|_].
  - pose proof (sweep_left_over entries burst m Hl0 Hr) as Hsw. destruct (sweepLocked now entries) as [freed kept].
    simpl in Hsw. destruct (freed =? 0)%Z; [by rewrite Z.sub_0_r|]. specialize (Ho kept). by destruct (charge_bucket _ _ _ _).
  - simpl. specialize (Ho entries). by destruct (charge_bucket _ _ _ _).
Qed.

(** What is left is admitted, where the table can hold the bucket. *)
Lemma charge_admits l n c :
  c_key c = key → c_limit c = limit → c_at c = now → (0 <= c_cost c < 2 ^ 53)%Z → (c_cost c <= n <= burst)%Z → left_over l n →
  is_Some (lm_entries l !! key) ∨ (Z.of_nat (size (lm_entries l)) < lm_max l)%Z → (charge_step l c).1 = true.
Proof.
  destruct c as [k lim cost t]. unfold charge_step. simpl. intros -> -> -> Hc Hn Hl Hroom.
  destruct l as [m entries]. unfold AllowAt, left_over in *. simpl in *. rewrite Hlimited.
  assert (∀ b, is_int (tb_tokens b) n → tb_at b = now →
    (charge_bucket (withDefaults limit) (Float64.of_Z cost) now b).1 = true) as Hb.
  { intros b Hb Hat. destruct (charge_bucket _ _ _ b) as [ok b'] eqn:E.
    apply (charge_bucket_left b n cost ok b') in E as (_ & _ & _ & E); [|done|lia|done|lia]. simpl. apply E. lia. }
  destruct (entries !! key) as [b|] eqn:Eb.
  - destruct Hl as (H1 & H2 & _). specialize (Hb b H1 H2). by destruct (charge_bucket _ _ _ b).
  - subst n. destruct Hroom as [[? ?]|Hroom]; [congruence|]. rewrite (proj2 (Z.leb_gt _ _)) by lia. simpl.
    specialize (Hb (mkBucket (rl_Burst (withDefaults limit)) now (withDefaults limit)) Hburst eq_refl).
    by destruct (charge_bucket _ _ _ _).
Qed.

Lemma admitted_le l n cs :
  left_over l n → (0 <= n <= burst)%Z →
  Forall (λ c, c_at c = now ∧ (0 <= c_cost c < 2 ^ 53)%Z ∧ (c_key c = key → c_limit c = limit)) cs →
  (admitted key l cs <= n)%Z.
Proof.
  intros Hl Hr Hcs. revert l n Hl Hr. induction Hcs as [|c cs (Hat & Hc & Hk) _ IH]; intros l n Hl Hr; simpl; [lia|].
  pose proof (charge_left_over l n c Hl Hr Hat Hc Hk) as Hstep. destruct (charge_step l c) as [ok l'].
  destruct Hstep as [Hl' Hr']. apply IH in Hl'; [|done]. lia.
Qed.
End burst.

(** A burst bounds an instant: starting from a table without a bucket for a key,
    charges made at one instant, for that key under one limited budget and for any
    other key under any, in any order, are admitted for that key up to its burst at
    most, even when the table fills up and is swept in between. *)
Theorem burst_caps_an_instant key limit burst now l cs :
  lm_entries l !! key = None → Unlimited limit = false →
  is_int (rl_Burst (withDefaults limit)) burst → (0 <= burst < 2 ^ 53)%Z →
  Forall (λ c, c_at c = now ∧ (0 <= c_cost c < 2 ^ 53)%Z ∧ (c_key c = key → c_limit c = limit)) cs →
  (admitted key l cs <= burst)%Z.
Proof.
  intros Hl Hlim Hb Hr Hcs. apply (admitted_le key limit burst now); [done|done|done| |lia|done].
  unfold left_over. by rewrite Hl.
Qed.

(** A table of two entries, a budget of two with three requests, and a second key. *)
Lemma burst_caps_an_instant_witness :
  let limit := mkRate (Float64.of_Z 1) (Float64.of_Z 2) in
  let cs := [mkCharge "a" limit 1 0; mkCharge "b" limit 1 0; mkCharge "a" limit 1 0; mkCharge "c" limit 2 0; mkCharge "a" limit 1 0] in
  admitted "a" (NewLimiter 2) cs = 2%Z ∧ (admitted "a" (NewLimiter 2) cs <= 2)%Z.
Proof.
  intros limit cs. split; [vm_compute; reflexivity|].
  apply (burst_caps_an_instant "a" limit 2 0 (NewLimiter 2) cs).
  - reflexivity.
  - vm_compute. reflexivity.
  - vm_compute. reflexivity.
  - vm_compute. split; [discriminate|reflexivity].
  - repeat constructor; vm_compute; discriminate || reflexivity || (intros; congruence).
Defined.
