(* ===== verification/Ingest.v ===== *)
(** * Ingestion adapters

    Models the adapters that feed the aggregator: the HTTP adapter
    (internal/stream/ingest.go from [ScopeEntry] on), the in-memory adapter
    (memory.go) and the Kafka adapter (kafka.go).  The sink an adapter delivers into
    is an interface of the port, the class [Sink]; the aggregator is its instance.
    The broker's client is a library: a poll is given the records it fetched, and
    what the broker answers to a commit. *)
From S2P Require Import Prelude GoLib Policy Json World Velocity Limiter.

(** ** The sink *)

Class Sink (S : Type) := sink_Accept : list Event → S → result Result_ * S.

(** The aggregator over its database: what happens to each call, and the clock. *)
Record AggSink := mkAggSink { as_agg : Aggregator; as_db : VDB; as_calls : list (fault * Time.t) }.

#[export] Instance Aggregator_Sink : Sink AggSink := λ events s,
  let '(f, now, rest) := match as_calls s with (f, now) :: rest => (f, now, rest) | [] => (NoFault, 0%Z, []) end in
  let '(r, db) := Accept (as_agg s) f now events (as_db s) in
  (r, mkAggSink (as_agg s) db rest).

(** ** Source declarations (source.go) *)

Record Declaration := mkDecl {
  dc_Name : string; dc_Metric : string; dc_Adapter : string; dc_Window : Time.duration; dc_BucketWidth : Time.duration;
  dc_Freshness : Time.duration; dc_AllowDeduction : bool; dc_Params : list Param; dc_Returns : Typ; dc_OnError : OnError }.

Definition indexDeclarations (decls : list Declaration) : gmap string Declaration :=
  foldl (λ m d, <[dc_Name d := d]> m) ∅ decls.

(** ** The HTTP adapter *)

Definition DefaultMaxBatchEvents : Z := 500%Z.
Definition DefaultMaxRateEntries : Z := 8192%Z.

Notation ScopeEntry := (string * string)%type.

Record IngestCredential := mkCredential {
  ic_CallerID : string; ic_Scope : list ScopeEntry; ic_AllowDeduction : bool; ic_Rate : RateLimit; ic_SubjectRate : RateLimit }.

Record IngestEvent := mkIngestEvent {
  ie_EventID : string; ie_Subject : string; ie_Value : Float64.t; ie_ProducedAt : Time.t }.

Record IngestBatch := mkIngestBatch { ib_Source : string; ib_Events : list IngestEvent }.

Record IngestConfig := mkIngestConfig {
  cf_Name : string; cf_Declarations : list Declaration; cf_Sink : bool; cf_Credentials : list IngestCredential;
  cf_DefaultRate : RateLimit; cf_DefaultSubjectRate : RateLimit; cf_MaxBatchEvents : Z; cf_MaxRateEntries : Z }.

Record resolvedCredential := mkResolved { rc_cred : IngestCredential; rc_scope : gset ScopeEntry }.

Record Ingest := mkIngest {
  ig_name : string; ig_decls : gmap string Declaration; ig_creds : gmap string resolvedCredential;
  ig_maxBatch : Z; ig_lag : LagTracker; ig_limiter : Limiter }.

(** Every scope entry names a configured source and that source's metric. *)
Fixpoint resolve_scope (decls : gmap string Declaration) (scope : list ScopeEntry) (acc : gset ScopeEntry) : result (gset ScopeEntry) :=
  match scope with
  | [] => Ok acc
  | entry :: scope =>
      match decls !! entry.1 with
      | None => Err []
      | Some decl => if bool_decide (entry.2 ≠ dc_Metric decl) then Err [] else resolve_scope decls scope ({[entry]} ∪ acc)
      end
  end.

Definition resolve_rates (cfg : IngestConfig) (c : IngestCredential) : IngestCredential :=
  let rate := if Unlimited (ic_Rate c) then cf_DefaultRate cfg else ic_Rate c in
  let subject := if Unlimited (ic_SubjectRate c) then cf_DefaultSubjectRate cfg else ic_SubjectRate c in
  mkCredential (ic_CallerID c) (ic_Scope c) (ic_AllowDeduction c) (withDefaults rate) (withDefaults subject).

Fixpoint resolve_credentials (cfg : IngestConfig) (decls : gmap string Declaration) (cs : list IngestCredential)
    (acc : gmap string resolvedCredential) : result (gmap string resolvedCredential) :=
  match cs with
  | [] => Ok acc
  | c :: cs =>
      if bool_decide (ic_CallerID c = "") then Err []
      else if bool_decide (is_Some (acc !! ic_CallerID c)) then Err []
      else if bool_decide (ic_Scope c = []) then Err []
      else
        let? scope := resolve_scope decls (ic_Scope c) ∅ in
        resolve_credentials cfg decls cs (<[ic_CallerID c := mkResolved (resolve_rates cfg c) scope]> acc)
  end.

(** [cf_Sink] says whether a sink was given. *)
Definition NewIngest (cfg : IngestConfig) : result Ingest :=
  if bool_decide (cf_Name cfg = "") then Err []
  else if bool_decide (cf_Declarations cfg = []) then Err []
  else if negb (cf_Sink cfg) then Err []
  else
    let decls := indexDeclarations (cf_Declarations cfg) in
    let maxBatch := if (cf_MaxBatchEvents cfg <=? 0)%Z then DefaultMaxBatchEvents else cf_MaxBatchEvents cfg in
    let maxEntries := if (cf_MaxRateEntries cfg <=? 0)%Z then DefaultMaxRateEntries else cf_MaxRateEntries cfg in
    let? creds := resolve_credentials cfg decls (cf_Credentials cfg) ∅ in
    Ok (mkIngest (cf_Name cfg) decls creds maxBatch Time.zero (NewLimiter maxEntries)).

Definition ScopeEntry_String (s : ScopeEntry) : string := s.1 +:+ "/" +:+ s.2.

Definition Scopes (i : Ingest) (callerID : string) : list ScopeEntry :=
  match ig_creds i !! callerID with
  | None => []
  | Some cred => sort_by ScopeEntry_String String.le (elements (rc_scope cred))
  end.

Definition sep : string := String (Ascii.ascii_of_nat 31) "".

Definition make_events (callerID : string) (decl : Declaration) (cred : IngestCredential) (events : list IngestEvent)
    : result (list Event) :=
  res_map (λ ev, if Float64.ltb (ie_Value ev) f0 && negb (ic_AllowDeduction cred) then Err [ErrDeductionNotPermitted; ErrRejected]
                 else Ok (mkEvent callerID (ie_EventID ev) (dc_Metric decl) (ie_Subject ev) (ie_Value ev) (ie_ProducedAt ev))) events.

Definition subject_counts (events : list Event) : gmap string Z :=
  foldl (λ m e, <[ev_SubjectID e := (default 0 (m !! ev_SubjectID e) + 1)%Z]> m) ∅ events.

Fixpoint charge_subjects (callerID : string) (rate : RateLimit) (now : Time.t) (counts : list (string * Z)) (l : Limiter)
    : result unit * Limiter :=
  match counts with
  | [] => (Ok tt, l)
  | (subject, n) :: counts =>
      match Allow ("subject" +:+ sep +:+ callerID +:+ sep +:+ subject) rate (Float64.of_Z n) now l with
      | (false, l') => (Err [ErrRateLimited], l')
      | (true, l') => charge_subjects callerID rate now counts l'
      end
  end.

Section ingest.
(** Go ranges over a map in no particular order: [ranged] is the order it takes. *)
Context (ranged : gmap string Z → list (string * Z)).

Definition charge (cred : resolvedCredential) (callerID : string) (events : list Event) (now : Time.t) (l : Limiter)
    : result unit * Limiter :=
  let rate := ic_Rate (rc_cred cred) in
  let subjectRate := ic_SubjectRate (rc_cred cred) in
  match (if Unlimited rate then (true, l)
         else Allow ("caller" +:+ sep +:+ callerID) rate (Float64.of_Z (Z.of_nat (length events))) now l) with
  | (false, l') => (Err [ErrRateLimited], l')
  | (true, l') =>
      if Unlimited subjectRate then (Ok tt, l')
      else charge_subjects callerID subjectRate now (ranged (subject_counts events)) l'
  end.

(** [Submit]: scope, then size and deduction, then the budgets, then the sink. *)
Definition Submit {S} `{Sink S} (i : Ingest) (now : Time.t) (callerID : string) (batch : IngestBatch) (s : S)
    : result Result_ * Ingest * S :=
  if bool_decide (callerID = "") then (Err [ErrNoCaller; ErrRejected], i, s)
  else match ig_creds i !! callerID with
  | None => (Err [ErrNoIngestGrant; ErrRejected], i, s)
  | Some cred =>
      match ig_decls i !! ib_Source batch with
      | None => (Err [ErrUnknownSource; ErrRejected], i, s)
      | Some decl =>
          if negb (bool_decide ((ib_Source batch, dc_Metric decl) ∈ rc_scope cred)) then (Err [ErrOutOfScope; ErrRejected], i, s)
          else if bool_decide (ib_Events batch = []) then (Ok (mkResult 0 0), i, s)
          else if (ig_maxBatch i <? Z.of_nat (length (ib_Events batch)))%Z then (Err [ErrBatchTooLarge; ErrRejected], i, s)
          else match make_events callerID decl (rc_cred cred) (ib_Events batch) with
          | Err e => (Err e, i, s)
          | Ok events =>
              let '(r, l) := charge cred callerID events now (ig_limiter i) in
              let i := mkIngest (ig_name i) (ig_decls i) (ig_creds i) (ig_maxBatch i) (ig_lag i) l in
              match r with
              | Err e => (Err e, i, s)
              | Ok _ =>
                  match sink_Accept events s with
                  | (Err e, s') => (Err e, i, s')
                  | (Ok res, s') =>
                      (Ok res, mkIngest (ig_name i) (ig_decls i) (ig_creds i) (ig_maxBatch i) (Observe (ig_lag i) events) l, s')
                  end
              end
          end
      end
  end.
End ingest.

(** ** The in-memory adapter (memory.go) *)

Record MemoryAdapter := mkMemory {
  mm_name : string; mm_reportsLag : bool; mm_batch : nat; mm_lag : LagTracker; mm_log : list Event; mm_cursor : nat }.

Inductive MemoryAdapterOption := WithoutLagReporting | WithMemoryBatch (n : Z).

Definition DefaultMemoryBatch : nat := 64.

Definition memory_option (m : MemoryAdapter) (o : MemoryAdapterOption) : MemoryAdapter :=
  match o with
  | WithoutLagReporting => mkMemory (mm_name m) false (mm_batch m) (mm_lag m) (mm_log m) (mm_cursor m)
  | WithMemoryBatch n =>
      if (0 <? n)%Z then mkMemory (mm_name m) (mm_reportsLag m) (Z.to_nat n) (mm_lag m) (mm_log m) (mm_cursor m) else m
  end.

Definition NewMemoryAdapter (name : string) (opts : list MemoryAdapterOption) : MemoryAdapter :=
  foldl memory_option (mkMemory name true DefaultMemoryBatch Time.zero [] 0) opts.

Definition Memory_Lag (m : MemoryAdapter) (now : Time.t) : option Time.duration :=
  if mm_reportsLag m then LagTracker_Lag (mm_lag m) now else None.

Definition Publish (m : MemoryAdapter) (events : list Event) : MemoryAdapter :=
  mkMemory (mm_name m) (mm_reportsLag m) (mm_batch m) (mm_lag m) (mm_log m ++ events) (mm_cursor m).

(** A cursor below zero is moved to zero. *)
Definition Rewind (m : MemoryAdapter) (n : Z) : MemoryAdapter :=
  mkMemory (mm_name m) (mm_reportsLag m) (mm_batch m) (mm_lag m) (mm_log m) (Z.to_nat (Z.of_nat (mm_cursor m) - n)).

Definition Pending (m : MemoryAdapter) : Z := (Z.of_nat (length (mm_log m)) - Z.of_nat (mm_cursor m))%Z.

Definition deliverOnce {S} `{Sink S} (m : MemoryAdapter) (s : S) : result nat * MemoryAdapter * S :=
  if length (mm_log m) <=? mm_cursor m then (Ok 0, m, s)
  else
    let end_ := Nat.min (mm_cursor m + mm_batch m) (length (mm_log m)) in
    let batch := take (end_ - mm_cursor m) (drop (mm_cursor m) (mm_log m)) in
    match sink_Accept batch s with
    | (Err e, s') => (Err e, m, s')
    | (Ok _, s') =>
        (Ok (length batch), mkMemory (mm_name m) (mm_reportsLag m) (mm_batch m) (Observe (mm_lag m) batch) (mm_log m) end_, s')
    end.

(** [None]: the fuel ran out. *)
Fixpoint Drain {S} `{Sink S} (fuel : nat) (m : MemoryAdapter) (s : S) : option (result unit * MemoryAdapter * S) :=
  match fuel with
  | O => None
  | Datatypes.S fuel =>
      match deliverOnce m s with
      | (Err e, m', s') => Some (Err e, m', s')
      | (Ok O, m', s') => Some (Ok tt, m', s')
      | (Ok _, m', s') => Drain fuel m' s'
      end
  end.

(** ** The Kafka adapter (kafka.go) *)

Definition DefaultKafkaPollRecords : Z := 200%Z.

Record KafkaTopic := mkTopic { kt_Topic : string; kt_Source : string; kt_CallerID : string; kt_AllowDeduction : bool }.

(** A record's value is a document, or bytes that are not one. *)
Record Record_ := mkRecord { kr_Topic : string; kr_Partition : Z; kr_Offset : Z; kr_Value : option json }.

Record KafkaRecord := mkKafkaRecord { kd_EventID : string; kd_Subject : string; kd_Value : Float64.t; kd_ProducedAt : Time.t }.

Record kafkaBinding := mkBinding { kb_topic : KafkaTopic; kb_metric : string }.

Record KafkaConfig := mkKafkaConfig {
  kc_Name : string; kc_Brokers : list string; kc_Group : string; kc_Topics : list KafkaTopic; kc_Declarations : list Declaration;
  kc_PollRecords : Z; kc_OnReject : bool }.

(** The adapter, with what it has reported to [OnReject] and the records it has
    committed. *)
Record Kafka := mkKafka {
  kf_name : string; kf_topics : gmap string kafkaBinding; kf_poll : Z; kf_onReject : bool; kf_lag : LagTracker;
  kf_rejected : list (Record_ * error); kf_committed : list Record_ }.

Fixpoint bind_topics (decls : gmap string Declaration) (ts : list KafkaTopic) (acc : gmap string kafkaBinding)
    : result (gmap string kafkaBinding) :=
  match ts with
  | [] => Ok acc
  | t :: ts =>
      if bool_decide (kt_Topic t = "") then Err []
      else if bool_decide (kt_CallerID t = "") then Err []
      else if bool_decide (is_Some (acc !! kt_Topic t)) then Err []
      else match decls !! kt_Source t with
      | None => Err []
      | Some decl => if kt_AllowDeduction t && negb (dc_AllowDeduction decl) then Err []
                     else bind_topics decls ts (<[kt_Topic t := mkBinding t (dc_Metric decl)]> acc)
      end
  end.

Definition NewKafka (cfg : KafkaConfig) : result Kafka :=
  if bool_decide (kc_Name cfg = "") then Err []
  else if bool_decide (kc_Brokers cfg = []) then Err []
  else if bool_decide (kc_Group cfg = "") then Err []
  else if bool_decide (kc_Topics cfg = []) then Err []
  else if bool_decide (kc_Declarations cfg = []) then Err []
  else
    let poll := if (kc_PollRecords cfg <=? 0)%Z then DefaultKafkaPollRecords else kc_PollRecords cfg in
    let? topics := bind_topics (indexDeclarations (kc_Declarations cfg)) (kc_Topics cfg) ∅ in
    Ok (mkKafka (kc_Name cfg) topics poll (kc_OnReject cfg) Time.zero [] []).

Definition dec_float (o : option json) : result Float64.t :=
  match o with
  | None | Some JNull => Ok f0
  | Some (JInt z) => Ok (Float64.of_int64 z)
  | Some (JFloat f) => Ok f
  | _ => Err []
  end.

(** [json.Unmarshal] into a [KafkaRecord]. *)
Definition unmarshal_record (v : option json) : result KafkaRecord :=
  match v with
  | None => Err []
  | Some j =>
      let? fs := fields_of j in
      let? id := dec_string (field "event_id" fs) in
      let? subject := dec_string (field "subject" fs) in
      let? value := dec_float (field "value" fs) in
      let? at_ := dec_time (field "produced_at" fs) in
      Ok (mkKafkaRecord id subject value at_)
  end.

Definition kafka_decode (k : Kafka) (r : Record_) : result Event :=
  match kf_topics k !! kr_Topic r with
  | None => Err [ErrRejected]
  | Some binding =>
      match unmarshal_record (kr_Value r) with
      | Err _ => Err [ErrRejected]
      | Ok rec =>
          if Float64.ltb (kd_Value rec) f0 && negb (kt_AllowDeduction (kb_topic binding)) then Err [ErrDeductionNotPermitted; ErrRejected]
          else
            let ev := mkEvent (kt_CallerID (kb_topic binding)) (kd_EventID rec) (kb_metric binding) (kd_Subject rec)
                        (kd_Value rec) (kd_ProducedAt rec) in
            let? _ := Event_Validate ev in Ok ev
      end
  end.

(** A nil record is not reported. *)
Definition reject (k : Kafka) (r : option Record_) (e : error) : Kafka :=
  match r with
  | Some r => if kf_onReject k
              then mkKafka (kf_name k) (kf_topics k) (kf_poll k) (kf_onReject k) (kf_lag k) (kf_rejected k ++ [(r, e)]) (kf_committed k)
              else k
  | None => k
  end.

Definition recordKey (r : Record_) : string :=
  match unmarshal_record (kr_Value r) with
  | Err _ => ""
  | Ok rec => kr_Topic r +:+ sep +:+ kd_EventID rec
  end.

Definition eventKey (e : Event) : string := ev_Metric e +:+ sep +:+ ev_EventID e.

Definition kafka_observe (k : Kafka) (events : list Event) : Kafka :=
  mkKafka (kf_name k) (kf_topics k) (kf_poll k) (kf_onReject k) (Observe (kf_lag k) events) (kf_rejected k) (kf_committed k).

(** The fallback: one event at a time. *)
Fixpoint apply_each {S} `{Sink S} (byID : gmap string Record_) (k : Kafka) (accepted events : list Event) (s : S)
    : result (list Event) * Kafka * S :=
  match events with
  | [] => (Ok accepted, k, s)
  | ev :: events =>
      match sink_Accept [ev] s with
      | (Ok _, s') => apply_each byID k (accepted ++ [ev]) events s'
      | (Err e, s') =>
          if negb (errors_Is e ErrRejected) then (Err e, k, s')
          else apply_each byID (reject k (byID !! eventKey ev) e) accepted events s'
      end
  end.

Definition kafka_apply {S} `{Sink S} (k : Kafka) (events : list Event) (records : list Record_) (s : S) : result unit * Kafka * S :=
  match sink_Accept events s with
  | (Ok _, s') => (Ok tt, kafka_observe k events, s')
  | (Err e, s') =>
      if negb (errors_Is e ErrRejected) then (Err e, k, s')
      else
        let byID := foldl (λ m r, <[recordKey r := r]> m) ∅ records in
        match apply_each byID k [] events s' with
        | (Err e, k', s'') => (Err e, k', s'')
        | (Ok accepted, k', s'') => (Ok tt, kafka_observe k' accepted, s'')
        end
  end.

(** The records of a fetch decoded, and the undecodable ones rejected. *)
Fixpoint decode_all (k : Kafka) (records : list Record_) : Kafka * list Event :=
  match records with
  | [] => (k, [])
  | r :: records =>
      match kafka_decode k r with
      | Err e => decode_all (reject k (Some r) e) records
      | Ok ev => let '(k', evs) := decode_all k records in (k', ev :: evs)
      end
  end.

(** One poll: [fetched] is what the client returned, [commit] what the broker says
    of the commit. *)
Definition pollOnce {S} `{Sink S} (fetched : result (list Record_)) (commit : fault) (k : Kafka) (s : S) : result unit * Kafka * S :=
  match fetched with
  | Err e => (Err e, k, s)
  | Ok [] => (Ok tt, k, s)
  | Ok records =>
      let '(k1, events) := decode_all k records in
      let '(r, k2, s') := match events with [] => (Ok tt, k1, s) | _ => kafka_apply k1 events records s end in
      match r with
      | Err e => (Err e, k2, s')
      | Ok _ =>
          let k3 := mkKafka (kf_name k2) (kf_topics k2) (kf_poll k2) (kf_onReject k2) (kf_lag k2) (kf_rejected k2)
                      (kf_committed k2 ++ records) in
          match commit with
          | Lost => (Err [], k2, s')
          | LostReply => (Err [], k3, s')
          | NoFault => (Ok tt, k3, s')
          end
      end
  end.

(** [EncodeKafkaRecord]. *)
Definition EncodeKafkaRecord (rec : KafkaRecord) : result json :=
  let? v := float_json (kd_Value rec) in
  Ok (JObj [("event_id", JStr (kd_EventID rec)); ("subject", JStr (kd_Subject rec)); ("value", v);
            ("produced_at", JTime (kd_ProducedAt rec))]).
