(* ===== verification/IngestSpec.v ===== *)
(** * What the adapters promise

    The HTTP adapter writes only what the caller's grant covers; the Kafka adapter
    commits only records whose events were applied or can never be; the in-memory
    adapter drains its log. *)
From S2P Require Import Prelude GoLib Policy Json World Velocity Limiter Ingest.

(** ** What an accepted batch leaves behind *)

Definition event_id (e : Event) : event_key := (ev_CallerID e, ev_EventID e, ev_Metric e).

Definition recorded (db : VDB) (e : Event) : Prop := is_Some (v_events db !! event_id e).

Lemma RecordEventTx_records now b db ok db' :
  RecordEventTx now b db = Ok (ok, db') →
  is_Some (v_events db' !! dedup_key b) ∧ ∀ k, is_Some (v_events db !! k) → is_Some (v_events db' !! k).
Proof.
  unfold RecordEventTx. intros (secs & _ & Hr)%res_bind_Ok. case_match; [done|].
  destruct (v_events db !! dedup_key b) eqn:E; [injection Hr as <- <-; by rewrite E|].
  case_match; [done|]. apply res_bind_Ok in Hr as (bs & _ & [= <- <-]). simpl. rewrite lookup_insert_eq.
  split; [done|]. intros k Hk. destruct (decide (k = dedup_key b)) as [->|]; [by rewrite lookup_insert_eq|].
  by rewrite lookup_insert_ne.
Qed.

Lemma record_all_records now res bs db res' db' :
  record_all now res bs db = Ok (res', db') →
  (∀ b, b ∈ bs → is_Some (v_events db' !! dedup_key b)) ∧ ∀ k, is_Some (v_events db !! k) → is_Some (v_events db' !! k).
Proof.
  revert res db. induction bs as [|b bs IH]; intros res db; simpl; [intros [= <- <-]; split; [set_solver|done]|].
  intros ([ok db1] & H1 & H2)%res_bind_Ok. apply RecordEventTx_records in H1 as [Hb Hm]. apply IH in H2 as [Hbs Hm'].
  split; [|eauto]. intros b' [->|Hb']%elem_of_cons; eauto.
Qed.

Lemma record_all_error now res bs db e : record_all now res bs db = Err e → ErrRejected ∉ e.
Proof.
  revert res db. induction bs as [|b bs IH]; intros res db; simpl; [done|].
  intros [H|([ok db1] & _ & H)]%res_bind_Err; [|by eapply IH]. unfold RecordEventTx in H.
  apply res_bind_Err in H as [H|(secs & _ & H)].
  { unfold widthSeconds in H. repeat case_match; simplify_eq; apply not_elem_of_nil. }
  case_match; [injection H as <-; apply not_elem_of_nil|]. case_match; [done|].
  case_match; [injection H as <-; apply not_elem_of_nil|]. apply res_bind_Err in H as [H|(? & _ & H)]; [|done].
  unfold upsert in H. case_match; [|done]. case_match. apply res_bind_Err in H as [H|(? & _ & H)]; [|done].
  unfold float8_add in H. case_match; [done|]. injection H as <-. apply not_elem_of_nil.
Qed.

Lemma bucket_events_Ok a now events bs :
  bucket_events a now events = Ok bs → Forall2 (λ e b, ∃ spec, check a now e = Ok spec ∧ b = bucket_event spec e) events bs.
Proof.
  unfold bucket_events. rewrite res_map_Ok. intros Hf. eapply Forall2_impl; [exact Hf|].
  intros e b (spec & Hs & [= <-])%res_bind_Ok. eauto.
Qed.

Lemma Accept_Ok a f now events db res db' :
  Accept a f now events db = (Ok res, db') →
  Forall (λ e, recorded db' e ∧ ∃ spec, check a now e = Ok spec) events ∧ ∀ e, recorded db e → recorded db' e.
Proof.
  unfold Accept. destruct events as [|e0 es] eqn:Ev; [intros [= <- <-]; split; [constructor|done]|rewrite <-Ev; clear Ev].
  destruct (bucket_events a now events) as [bs|] eqn:Eb; [|done]. apply bucket_events_Ok in Eb.
  destruct f; [|done|by destruct (record_all _ _ _ _) as [[]|]].
  destruct (record_all _ _ bs db) as [[res' db1]|] eqn:Er; [|done]. intros [= _ <-].
  apply record_all_records in Er as [Hb Hm]. split; [|intros e; apply Hm].
  apply Forall_forall. intros e (i & He)%list_elem_of_lookup_1. destruct (Forall2_lookup_l _ _ _ _ _ Eb He) as (b & Hbi & spec & Hs & ->).
  split; [|eauto]. apply (Hb (bucket_event spec e)). by eapply list_elem_of_lookup_2.
Qed.

(** A batch refused for good has an event that the port rejects. *)
Lemma Accept_rejected a f now events db e db' :
  Accept a f now events db = (Err e, db') → ErrRejected ∈ e →
  db' = db ∧ Exists (λ ev, check a now ev = Err e) events.
Proof.
  intros H He. unfold Accept in H. destruct events as [|e0 es] eqn:Ev; [done|rewrite <-Ev in *; clear Ev].
  destruct (bucket_events a now events) as [bs|e'] eqn:Eb.
  - destruct f as [| |]; [|injection H as <- <-; set_solver|].
    all: destruct (record_all _ _ bs db) as [[res' db1]|] eqn:Er; [|apply record_all_error in Er; by injection H as <- <-].
    1: done. injection H as <- <-. set_solver.
  - injection H as <- <-. split; [done|]. clear He. unfold bucket_events in Eb.
    induction events as [|x events IH]; simpl in Eb; [done|].
    apply res_bind_Err in Eb as [Eb|(b & _ & Eb)].
    + left. apply res_bind_Err in Eb as [Eb|(? & _ & Eb)]; done.
    + right. apply res_bind_Err in Eb as [Eb|(? & _ & Eb)]; [by apply IH|done].
Qed.

Lemma Accept_recorded a f now events db r db' e :
  Accept a f now events db = (r, db') → recorded db e → recorded db' e.
Proof.
  intros H. unfold Accept in H. destruct events as [|e0 es] eqn:Ev; [by injection H as _ <-|rewrite <-Ev in *; clear Ev].
  destruct (bucket_events a now events) as [bs|e']; [|by injection H as _ <-].
  destruct f; [|by injection H as _ <-|].
  all: destruct (record_all _ _ bs db) as [[res' db1]|] eqn:Er; [|by injection H as _ <-].
  all: injection H as _ <-; apply record_all_records in Er as [_ Hm]; apply Hm.
Qed.

Lemma sink_Accept_eq events (s : AggSink) :
  ∃ f now rest, sink_Accept events s =
    let '(r, db) := Accept (as_agg s) f now events (as_db s) in (r, mkAggSink (as_agg s) db rest).
Proof. unfold sink_Accept, Aggregator_Sink. destruct (as_calls s) as [|[f now] rest]; eauto. Qed.

(** ** Scope *)

Section scope.
Context (ranged : gmap string Z → list (string * Z)) (cfg : IngestConfig).

(** The states of an adapter: as built, and after a submission into any sink. *)
Inductive ingest_reach : Ingest → Prop :=
  | reach_new i : NewIngest cfg = Ok i → ingest_reach i
  | reach_submit i now callerID batch (s : AggSink) :
      ingest_reach i → ingest_reach (Submit ranged i now callerID batch s).1.2.

Lemma resolve_scope_sub decls scope acc out :
  resolve_scope decls scope acc = Ok out → ∀ entry, entry ∈ out → entry ∈ scope ∨ entry ∈ acc.
Proof.
  revert acc. induction scope as [|x scope IH]; intros acc; simpl; [intros [= <-]; auto|].
  case_match; [|done]. case_bool_decide; [done|]. intros H1 entry He. apply IH with (entry := entry) in H1; [|done].
  set_solver.
Qed.

(** A resolved grant is a configured one. *)
Definition granted (callerID : string) (rc : resolvedCredential) : Prop :=
  ∃ c, c ∈ cf_Credentials cfg ∧ ic_CallerID c = callerID ∧ rc_cred rc = resolve_rates cfg c ∧
    ∀ entry, entry ∈ rc_scope rc → entry ∈ ic_Scope c.

Lemma resolve_credentials_granted decls cs acc out :
  cs ⊆ cf_Credentials cfg → (∀ k rc, acc !! k = Some rc → granted k rc) →
  resolve_credentials cfg decls cs acc = Ok out → ∀ k rc, out !! k = Some rc → granted k rc.
Proof.
  revert acc. induction cs as [|c cs IH]; intros acc Hsub Hacc; simpl; [intros [= <-]; done|].
  case_bool_decide; [done|]. case_bool_decide; [done|]. case_bool_decide; [done|].
  intros (scope & Hs & Hr)%res_bind_Ok. revert Hr. apply IH; [set_solver|].
  intros k rc [[<- <-]|[_ Hk]]%lookup_insert_Some; [|by apply Hacc].
  exists c. split; [set_solver|]. split; [done|]. split; [done|]. simpl. intros entry He.
  destruct (resolve_scope_sub _ _ _ _ Hs entry He); [done|set_solver].
Qed.

Definition batch_cap : Z := if (cf_MaxBatchEvents cfg <=? 0)%Z then DefaultMaxBatchEvents else cf_MaxBatchEvents cfg.

Lemma Submit_config {S} `{Sink S} i now callerID batch (s : S) :
  let i' := (Submit ranged i now callerID batch s).1.2 in
  ig_decls i' = ig_decls i ∧ ig_creds i' = ig_creds i ∧ ig_maxBatch i' = ig_maxBatch i.
Proof. unfold Submit. repeat (case_match; simplify_eq/=; try done). Qed.

Lemma ingest_reach_config i :
  ingest_reach i →
  ig_decls i = indexDeclarations (cf_Declarations cfg) ∧ ig_maxBatch i = batch_cap ∧
  ∀ k rc, ig_creds i !! k = Some rc → granted k rc.
Proof.
  induction 1 as [i Hn|i now callerID batch s _ (Hd & Hm & Hc)].
  - unfold NewIngest in Hn. repeat (case_match; [done|]). apply res_bind_Ok in Hn as (creds & Hr & [= <-]). simpl.
    split; [done|]. split; [done|]. revert Hr. apply resolve_credentials_granted; [done|]. intros k rc. by rewrite lookup_empty.
  - destruct (Submit_config i now callerID batch s) as (-> & -> & ->). done.
Qed.

Lemma make_events_Ok callerID decl cred evs events :
  make_events callerID decl cred evs = Ok events →
  length events = length evs ∧
  Forall (λ e, ev_CallerID e = callerID ∧ ev_Metric e = dc_Metric decl ∧
    (Float64.ltb (ev_Value e) f0 = true → ic_AllowDeduction cred = true)) events.
Proof.
  unfold make_events. rewrite res_map_Ok. intros Hf. split; [symmetry; by eapply Forall2_length|].
  eapply Forall2_Forall_r; [exact Hf|]. apply Forall_true. intros ev e.
  destruct (Float64.ltb (ie_Value ev) f0) eqn:El, (ic_AllowDeduction cred) eqn:Ed; simpl; intros [= <-]; simpl;
    rewrite ?El; done.
Qed.

(** What a submission hands to the sink. *)
Lemma Submit_forwards {S} `{Sink S} i now callerID batch (s : S) r i' s' :
  Submit ranged i now callerID batch s = (r, i', s') →
  (s' = s ∧ ∀ res, r = Ok res → ib_Events batch = []) ∨
  ∃ rc decl events,
    ig_creds i !! callerID = Some rc ∧ ig_decls i !! ib_Source batch = Some decl ∧
    (ib_Source batch, dc_Metric decl) ∈ rc_scope rc ∧ (Z.of_nat (length (ib_Events batch)) <= ig_maxBatch i)%Z ∧
    make_events callerID decl (rc_cred rc) (ib_Events batch) = Ok events ∧
    charge ranged rc callerID events now (ig_limiter i) = (Ok tt, ig_limiter i') ∧
    sink_Accept events s = (r, s').
Proof.
  unfold Submit. case_bool_decide; [intros [= <- <- <-]; by left|].
  destruct (ig_creds i !! callerID) as [rc|]; [|intros [= <- <- <-]; by left].
  destruct (ig_decls i !! ib_Source batch) as [decl|]; [|intros [= <- <- <-]; by left].
  case_bool_decide as Hsc; simpl; [|intros [= <- <- <-]; by left].
  case_bool_decide; [intros [= <- <- <-]; by left|].
  destruct (Z.ltb_spec (ig_maxBatch i) (Z.of_nat (length (ib_Events batch)))); [intros [= <- <- <-]; by left|].
  destruct (make_events _ _ _ _) as [events|] eqn:Em; [|intros [= <- <- <-]; by left].
  destruct (charge ranged rc callerID events now (ig_limiter i)) as [[[]|] l] eqn:Ec; [|intros [= <- <- <-]; by left].
  destruct (sink_Accept events s) as [[res|e] s1] eqn:Ea; intros [= <- <- <-]; right; exists rc, decl, events; done.
Qed.

(** A caller writes what its grant covers and nothing else.  Whatever was submitted
    before, a submission that changes the aggregate comes from a caller with a
    configured grant that names the source it writes together with the metric of that
    source, is no larger than the configured cap, and was charged to the caller's
    budgets; every event it applied bears that caller and that metric, and a negative
    one needs both the grant's permission and the metric's. *)
Theorem ingest_stays_in_scope i now callerID batch (s s' : AggSink) r i' :
  ingest_reach i → Submit ranged i now callerID batch s = (r, i', s') → as_db s' ≠ as_db s →
  ∃ c decl events rc,
    c ∈ cf_Credentials cfg ∧ ic_CallerID c = callerID ∧
    indexDeclarations (cf_Declarations cfg) !! ib_Source batch = Some decl ∧
    (ib_Source batch, dc_Metric decl) ∈ ic_Scope c ∧
    (Z.of_nat (length events) <= batch_cap)%Z ∧
    charge ranged rc callerID events now (ig_limiter i) = (Ok tt, ig_limiter i') ∧ rc_cred rc = resolve_rates cfg c ∧
    sink_Accept events s = (r, s') ∧
    Forall (λ e, ev_CallerID e = callerID ∧ ev_Metric e = dc_Metric decl ∧
      (Float64.ltb (ev_Value e) f0 = true →
        ic_AllowDeduction c = true ∧ ∃ spec, as_agg s !! dc_Metric decl = Some spec ∧ ms_AllowDeduction spec = true)) events.
Proof.
  intros Hi Hs Hdb. destruct (ingest_reach_config i Hi) as (Hd & Hm & Hc).
  apply Submit_forwards in Hs as [[-> _]|(rc & decl & events & Hrc & Hdecl & Hscope & Hlen & Hmk & Hch & Ha)]; [done|].
  destruct (Hc _ _ Hrc) as (c & Hin & Hid & Hrates & Hsub). apply make_events_Ok in Hmk as [Hl He].
  exists c, decl, events, rc. rewrite <-Hd, <-Hm, Hl. repeat (split; [by auto|]).
  destruct (sink_Accept_eq events s) as (f & t & rest & Hacc). rewrite Hacc in Ha.
  destruct (Accept (as_agg s) f t events (as_db s)) as [r0 db] eqn:E. injection Ha as -> <-. simpl in Hdb.
  assert (Forall (λ e, ∃ spec, check (as_agg s) t e = Ok spec) events) as Hck.
  { unfold Accept in E. destruct events as [|e0 es] eqn:Ev; [constructor|rewrite <-Ev in *; clear Ev].
    destruct (bucket_events (as_agg s) t events) as [bs|] eqn:Eb; [|by injection E as _ <-]. apply bucket_events_Ok in Eb.
    eapply Forall2_Forall_l; [exact Eb|]. apply Forall_true. intros e b (spec & Hs & _). eauto. }
  apply Forall_forall. intros e Hein. rewrite Forall_forall in He, Hck. destruct (He e Hein) as (H1 & H2 & H3).
  split; [done|]. split; [done|]. intros Hneg. specialize (H3 Hneg). rewrite Hrates in H3. split; [done|].
  destruct (Hck e Hein) as (spec & Hcheck). unfold check in Hcheck. apply res_bind_Ok in Hcheck as ([] & _ & Hcheck).
  rewrite H2 in Hcheck. destruct (as_agg s !! dc_Metric decl) as [sp|]; [|done]. exists sp. split; [done|].
  unfold f0 in Hneg. rewrite Hneg in Hcheck. by destruct (ms_AllowDeduction sp).
Qed.
End scope.

(** ** Kafka: a committed record is applied or can never be *)

(** The port refuses the event for good, at the clock of some call. *)
Definition unacceptable (a : Aggregator) (e : Event) : Prop :=
  ∃ now err, check a now e = Err err ∧ ErrRejected ∈ err.

Definition settled (s : AggSink) (e : Event) : Prop := recorded (as_db s) e ∨ unacceptable (as_agg s) e.

(** What happened to the sink: it aggregates the same metrics and forgets nothing. *)
Definition sink_le (s s' : AggSink) : Prop := as_agg s' = as_agg s ∧ ∀ e, recorded (as_db s) e → recorded (as_db s') e.

#[export] Instance sink_le_preorder : PreOrder sink_le.
Proof. split; [done|]. intros s1 s2 s3 [E1 H1] [E2 H2]. split; [congruence|eauto]. Qed.

Lemma settled_le s s' e : sink_le s s' → settled s e → settled s' e.
Proof. intros [Ea Hr] [H|H]; [left; by apply Hr|right; by rewrite Ea]. Qed.

Lemma sink_Accept_le events s r s' : sink_Accept events s = (r, s') → sink_le s s'.
Proof.
  destruct (sink_Accept_eq events s) as (f & now & rest & ->). destruct (Accept _ _ _ _ _) as [r0 db] eqn:E.
  intros [= -> <-]. split; [done|]. simpl. intros e. by eapply Accept_recorded.
Qed.

Lemma sink_Accept_settles events s r s' :
  sink_Accept events s = (r, s') →
  (is_ok r = true → Forall (settled s') events) ∧
  (∀ e err, events = [e] → r = Err err → ErrRejected ∈ err → settled s' e).
Proof.
  destruct (sink_Accept_eq events s) as (f & now & rest & ->). destruct (Accept _ _ _ _ _) as [r0 db] eqn:E.
  intros [= -> <-]. split.
  - destruct r as [res|]; [|done]. intros _. apply Accept_Ok in E as [Hf _]. eapply Forall_impl; [exact Hf|].
    intros e [He _]. by left.
  - intros e err -> -> He. right. apply Accept_rejected in E as [_ Hx]; [|done]. apply Exists_cons in Hx as [Hx|Hx%Exists_nil]; [|done].
    by exists now, err.
Qed.

(** The adapter only reports and observes on the way: its bindings and what it has
    committed stay. *)
Definition same_position (k k' : Kafka) : Prop := kf_committed k' = kf_committed k ∧ kf_topics k' = kf_topics k.

Lemma reject_position k r e : same_position k (reject k r e).
Proof. unfold reject. by repeat case_match. Qed.

Lemma apply_each_settles byID k acc events (s : AggSink) r k' s' :
  apply_each byID k acc events s = (r, k', s') →
  same_position k k' ∧ sink_le s s' ∧ (is_ok r = true → Forall (settled s') events).
Proof.
  revert k acc s. induction events as [|ev events IH]; intros k acc s; simpl; [intros [= <- <- <-]; done|].
  destruct (sink_Accept [ev] s) as [ra s1] eqn:Ea. pose proof (sink_Accept_le _ _ _ _ Ea) as Hle.
  apply sink_Accept_settles in Ea as [Hok Herr].
  assert (∀ k1 acc1, settled s1 ev → same_position k k1 → apply_each byID k1 acc1 events s1 = (r, k', s') →
    same_position k k' ∧ sink_le s s' ∧ (is_ok r = true → Forall (settled s') (ev :: events))) as Hrest.
  { intros k1 acc1 Hev [Hc Ht] ([Hc' Ht'] & Hs & Hf)%IH. split; [split; congruence|]. split; [by etrans|].
    intros Hr. constructor; [by eapply settled_le|by apply Hf]. }
  destruct ra as [res|err].
  - apply Hrest; [|done]. specialize (Hok eq_refl). by inversion Hok.
  - unfold errors_Is. case_bool_decide as He; simpl; [|intros [= <- <- <-]; done].
    apply Hrest; [by eapply Herr|apply reject_position].
Qed.

Lemma kafka_apply_settles k events records (s : AggSink) r k' s' :
  kafka_apply k events records s = (r, k', s') →
  same_position k k' ∧ sink_le s s' ∧ (is_ok r = true → Forall (settled s') events).
Proof.
  unfold kafka_apply. destruct (sink_Accept events s) as [ra s1] eqn:Ea. pose proof (sink_Accept_le _ _ _ _ Ea) as Hle.
  apply sink_Accept_settles in Ea as [Hok _]. destruct ra as [res|err].
  { intros [= <- <- <-]. split; [done|]. split; [done|]. intros _. by apply Hok. }
  case_match; [intros [= <- <- <-]; done|].
  destruct (apply_each _ k [] events s1) as [[re k1] s2] eqn:Ee. apply apply_each_settles in Ee as (Hp & Hs & Hf).
  assert (sink_le s s2) by (by etrans).
  destruct re as [acc|e]; intros [= <- <- <-]; (split; [done|]); (split; [done|]); [|done]. intros _. by apply Hf.
Qed.

Lemma decode_all_spec k records k' events :
  decode_all k records = (k', events) →
  same_position k k' ∧ ∀ rec ev, rec ∈ records → kafka_decode k rec = Ok ev → ev ∈ events.
Proof.
  revert k events. induction records as [|x records IH]; intros k events; cbn [decode_all]; [intros [= <- <-]; split; [done|set_solver]|].
  assert (∀ k1, kf_topics k1 = kf_topics k → ∀ rec, kafka_decode k1 rec = kafka_decode k rec) as Hdec.
  { intros k1 Ht rec. unfold kafka_decode. by rewrite Ht. }
  destruct (kafka_decode k x) as [ev|e] eqn:E.
  - destruct (decode_all k records) as [k1 evs] eqn:Ed. intros [= <- <-]. apply IH in Ed as [Hp Hin].
    split; [done|]. intros rec ev' [->|Hr]%elem_of_cons Hk; [rewrite E in Hk; injection Hk as ->; by left|]. right. eauto.
  - intros Hd. apply IH in Hd as [[Hc Ht] Hin]. destruct (reject_position k (Some x) e) as [Hc0 Ht0].
    split; [split; congruence|]. intros rec ev' [->|Hr]%elem_of_cons Hk; [congruence|]. apply (Hin rec); [done|].
    by rewrite Hdec.
Qed.

(** Kafka ingestion loses nothing acceptable.  Whatever the aggregator's calls meet
    with, when a poll moves the committed position, every record it fetched that
    decodes to an event is in the deduplication table of the aggregate, or is one that
    the port refuses for good; an error or a lost commit leaves the position where it
    was or covers only such records. *)
Theorem kafka_commits_settled records commit k (s : AggSink) r k' s' :
  pollOnce (Ok records) commit k s = (r, k', s') →
  kf_committed k' = kf_committed k ∨
  kf_committed k' = kf_committed k ++ records ∧
  ∀ rec ev, rec ∈ records → kafka_decode k rec = Ok ev → settled s' ev.
Proof.
  unfold pollOnce. destruct records as [|x rs] eqn:Er; [intros [= <- <- <-]; by left|]. rewrite <-Er. clear Er.
  destruct (decode_all k records) as [k1 events] eqn:Ed. apply decode_all_spec in Ed as [[Hc Ht] Hin].
  destruct (match events with [] => (Ok tt, k1, s) | _ => kafka_apply k1 events records s end) as [[ra k2] s2] eqn:Ea.
  assert (same_position k1 k2 ∧ (is_ok ra = true → Forall (settled s2) events)) as [[Hc2 _] Hset].
  { destruct events as [|ev evs]; [injection Ea as <- <- <-; done|].
    apply kafka_apply_settles in Ea as (Hp & _ & Hf). done. }
  destruct ra as [u|e]; [|intros [= <- <- <-]; left; congruence]. specialize (Hset eq_refl).
  destruct commit; intros [= <- <- <-]; simpl; [right|left; congruence|right].
  all: split; [by rewrite Hc2, Hc|]; intros rec ev Hr Hk; rewrite Forall_forall in Hset; eapply Hset; eauto.
Qed.

(** ** The in-memory adapter drains *)

Lemma deliverOnce_step (m : MemoryAdapter) (s : AggSink) r m' s' :
  (0 < mm_batch m)%nat → deliverOnce m s = (r, m', s') →
  mm_log m' = mm_log m ∧ mm_batch m' = mm_batch m ∧ sink_le s s' ∧
  (∀ n, r = Ok n → (mm_cursor m' = mm_cursor m + n)%nat ∧ (n <= length (mm_log m) - mm_cursor m)%nat ∧
    (n = 0%nat → (length (mm_log m) <= mm_cursor m)%nat) ∧
    Forall (settled s') (take n (drop (mm_cursor m) (mm_log m)))).
Proof.
  intros Hb. unfold deliverOnce. destruct (Nat.leb_spec (length (mm_log m)) (mm_cursor m)) as [Hle|Hlt].
  { intros [= <- <- <-]. repeat (split; [done|]). intros n [= <-]. split; [lia|]. split; [lia|]. split; [done|constructor]. }
  set (end_ := (mm_cursor m + mm_batch m) `min` length (mm_log m)).
  assert (mm_cursor m < end_ ≤ length (mm_log m))%nat as He by (unfold end_; lia).
  set (batch := take (end_ - mm_cursor m) (drop (mm_cursor m) (mm_log m))).
  assert (length batch = end_ - mm_cursor m)%nat as Hl by (unfold batch; rewrite length_take, length_drop; lia).
  destruct (sink_Accept batch s) as [ra s1] eqn:Ea. pose proof (sink_Accept_le _ _ _ _ Ea) as Hs.
  apply sink_Accept_settles in Ea as [Hok _]. destruct ra as [res|e]; intros [= <- <- <-]; simpl; [|done].
  repeat (split; [done|]). intros n [= <-]. split; [lia|]. split; [lia|]. split; [lia|]. rewrite Hl. by apply Hok.
Qed.

Lemma Drain_fuel fuel (m : MemoryAdapter) (s : AggSink) :
  (0 < mm_batch m)%nat → (length (mm_log m) - mm_cursor m < fuel)%nat →
  ∃ r m' s', Drain fuel m s = Some (r, m', s') ∧ mm_log m' = mm_log m ∧ sink_le s s' ∧
    (r = Ok tt → (length (mm_log m) <= mm_cursor m')%nat ∧ Forall (settled s') (drop (mm_cursor m) (mm_log m))).
Proof.
  revert m s. induction fuel as [|fuel IH]; intros m s Hb Hf; [lia|]. simpl.
  destruct (deliverOnce m s) as [[r m1] s1] eqn:Ed.
  destruct (deliverOnce_step m s r m1 s1 Hb Ed) as (Hlog & Hbatch & Hle & Hok).
  destruct r as [[|d]|e].
  - destruct (Hok 0%nat eq_refl) as (Hcur & _ & Hdone & _). eexists _, _, _. repeat (split; [done|]).
    intros _. specialize (Hdone eq_refl). split; [lia|]. rewrite drop_ge by lia. constructor.
  - destruct (Hok (S d) eq_refl) as (Hcur & Hroom & _ & Hset).
    destruct (IH m1 s1) as (r & m' & s' & HD & Hlog' & Hle' & Hres); [by rewrite Hbatch|rewrite Hlog; lia|].
    exists r, m', s'. split; [done|]. split; [congruence|]. split; [by etrans|]. intros Hr.
    rewrite Hlog, Hcur in Hres. destruct (Hres Hr) as [Hend Hrest]. split; [done|].
    rewrite <-(take_drop (S d) (drop (mm_cursor m) (mm_log m))), drop_drop. apply Forall_app. split; [|done].
    eapply Forall_impl; [exact Hset|]. intros e. by apply settled_le.
  - eexists _, _, _. by repeat (split; [done|]).
Qed.

(** Draining the in-memory adapter terminates, with fuel one more than the events
    it has pending; when it reports no error, nothing is pending and every event that
    was is settled: in the aggregate, or refused by the port for good. *)
Theorem Drain_terminates m (s : AggSink) :
  (0 < mm_batch m)%nat →
  ∃ r m' s', Drain (S (length (mm_log m) - mm_cursor m)) m s = Some (r, m', s') ∧ mm_log m' = mm_log m ∧
    (r = Ok tt → (Pending m' <= 0)%Z ∧ Forall (settled s') (drop (mm_cursor m) (mm_log m))).
Proof.
  intros Hb. destruct (Drain_fuel (S (length (mm_log m) - mm_cursor m)) m s Hb) as (r & m' & s' & HD & Hlog & _ & Hres); [lia|].
  exists r, m', s'. split; [done|]. split; [done|]. intros Hr. destruct (Hres Hr). unfold Pending. rewrite Hlog. split; [lia|done].
Qed.

(** ** A deployment *)

Module IngestDemo.

Definition decl : Declaration :=
  mkDecl "logins" "login" "in" (7 * 24 * Hour)%Z Hour 0%Z false [mkParam "subject" TypeString] TypeInt OnErrorDeny.
Definition metrics : Aggregator := {[ "login" := mkSpec "login" Hour false ]}.
Definition now : Time.t := (100 * 24 * Hour)%Z.
Definition rate : RateLimit := mkRate (Float64.of_Z 5) (Float64.of_Z 10).
Definition cfg : IngestConfig :=
  mkIngestConfig "in" [decl] true [mkCredential "app" [("logins", "login")] false rate rate] rate rate 0 0.
Definition in_order : gmap string Z → list (string * Z) := map_to_list.
Definition sink (calls : list (fault * Time.t)) : AggSink := mkAggSink metrics (mkVDB ∅ ∅) calls.
Definition batch : IngestBatch := mkIngestBatch "logins" [mkIngestEvent "e1" "alice" f1 now; mkIngestEvent "e2" "bob" f1 now].

Definition built : Ingest := match NewIngest cfg with Ok i => i | Err _ => mkIngest "" ∅ ∅ 0 Time.zero (NewLimiter 0) end.

Lemma triple_eta {A B C} (p : A * B * C) : p = (p.1.1, p.1.2, p.2).
Proof. by destruct p as [[? ?] ?]. Qed.

Lemma ingest_stays_in_scope_witness :
  let out := Submit in_order built now "app" batch (sink [(NoFault, now)]) in
  out.1.1 = Ok (mkResult 2 0) ∧ ∃ c, c ∈ cf_Credentials cfg ∧ ic_CallerID c = "app".
Proof.
  intros out. split; [vm_compute; reflexivity|].
  destruct (ingest_stays_in_scope in_order cfg built now "app" batch (sink [(NoFault, now)]) out.2 out.1.1 out.1.2)
    as (c & _ & _ & _ & Hc & Hid & _).
  - apply reach_new. vm_compute. reflexivity.
  - apply triple_eta.
  - intros Heq. apply (f_equal (λ d, size (v_events d))) in Heq. vm_compute in Heq. discriminate Heq.
  - exists c. exact (conj Hc Hid).
Defined.

(** Out of scope, out of budget, and a deduction without permission. *)
Example refusals :
  let submit caller b := (Submit in_order built now caller b (sink [])).1.1 in
  submit "other" batch = Err [ErrNoIngestGrant; ErrRejected] ∧
  submit "app" (mkIngestBatch "other" []) = Err [ErrUnknownSource; ErrRejected] ∧
  submit "app" (mkIngestBatch "logins" [mkIngestEvent "e" "alice" (Float64.of_Z (-1)) now]) = Err [ErrDeductionNotPermitted; ErrRejected] ∧
  submit "app" (mkIngestBatch "logins" (replicate 11 (mkIngestEvent "e" "alice" f1 now))) = Err [ErrRateLimited].
Proof. vm_compute. auto. Qed.

Definition kafka : Kafka :=
  match NewKafka (mkKafkaConfig "k" ["b"] "g" [mkTopic "logins.v1" "logins" "app" false] [decl] 0 true) with
  | Ok k => k | Err _ => mkKafka "" ∅ 0 false Time.zero [] []
  end.

Definition kafka_record (offset : Z) (id : string) (at_ : Time.t) : Record_ :=
  mkRecord "logins.v1" 0 offset
    (match EncodeKafkaRecord (mkKafkaRecord id "alice" f1 at_) with Ok j => Some j | Err _ => None end).

Definition good : Record_ := kafka_record 0 "e1" now.
Definition too_old : Record_ := kafka_record 1 "e2" 0%Z.
Definition garbled : Record_ := mkRecord "logins.v1" 0 2 None.

(** The sink accepts the batch in spite of a lost reply to an earlier attempt. *)
Lemma kafka_commits_settled_witness :
  let out1 := pollOnce (Ok [good]) NoFault kafka (sink [(LostReply, now); (NoFault, now)]) in
  let out2 := pollOnce (Ok [good]) NoFault out1.1.2 out1.2 in
  out1.1.1 = Err [ErrDatabase] ∧ kf_committed out1.1.2 = [] ∧ out2.1.1 = Ok tt ∧ kf_committed out2.1.2 = [good] ∧
  (kf_committed out2.1.2 = kf_committed out1.1.2 ∨
   kf_committed out2.1.2 = kf_committed out1.1.2 ++ [good] ∧
   ∀ rec ev, rec ∈ [good] → kafka_decode out1.1.2 rec = Ok ev → settled out2.2 ev).
Proof.
  intros out1 out2. repeat (split; [vm_compute; reflexivity|]).
  apply (kafka_commits_settled [good] NoFault out1.1.2 out1.2 out2.1.1 out2.1.2 out2.2), triple_eta.
Defined.

(** A record that is refused in the one-at-a-time fallback is committed without being
    reported: the fallback looks the record up under its topic, but the event names
    its metric. *)
Theorem kafka_rejects_in_silence :
  let '(r, k', s') := pollOnce (Ok [good; too_old; garbled]) NoFault kafka (sink (replicate 3 (NoFault, now))) in
  r = Ok tt ∧ kf_onReject kafka = true ∧ kf_committed k' = [good; too_old; garbled] ∧
  kf_rejected k' = [(garbled, [ErrRejected])] ∧
  (let? ev := kafka_decode kafka too_old in check metrics now ev) = Err [ErrTooOld; ErrRejected].
Proof. vm_compute. repeat (split; [reflexivity|]). reflexivity. Qed.

Definition memory : MemoryAdapter :=
  Publish (NewMemoryAdapter "in" [WithMemoryBatch 1])
    [mkEvent "app" "e1" "login" "alice" f1 now; mkEvent "app" "e2" "login" "alice" f1 now].

Lemma Drain_terminates_witness :
  let s := sink (replicate 3 (NoFault, now)) in
  (λ out, (out.1.1, Pending out.1.2)) <$> Drain 3 memory s = Some (Ok tt, 0%Z) ∧
  ∃ r m' s', Drain 3 memory s = Some (r, m', s') ∧ mm_log m' = mm_log memory ∧
    (r = Ok tt → (Pending m' <= 0)%Z ∧ Forall (settled s') (mm_log memory)).
Proof.
  intros s. split; [vm_compute; reflexivity|]. apply (Drain_terminates memory s). vm_compute. lia.
Defined.

End IngestDemo.
