(* ===== verification/Text.v ===== *)
(** * Rendered numbers, durations and instants

    A decimal number can be read back, an instant is the only one with its
    RFC 3339 spelling, and a text that is cut at the first character of a class is
    cut in one way: what is needed to show that a rendering is an identity.  Then
    [time.ParseDuration] and [time.Parse] for RFC 3339, and that both read back what
    was printed. *)
From stdpp Require Import pretty.
From Stdlib Require Import Ascii.
From S2P Require Import Prelude GoLib Policy.

(** ** Cutting a text *)

(** [r] is empty or starts with a character of the class. *)
Definition ends_at (P : ascii → Prop) (r : list ascii) : Prop := match r with [] => True | a :: _ => P a end.

Lemma span_eq (P : ascii → Prop) s1 s2 r1 r2 :
  Forall (λ a, ¬ P a) s1 → Forall (λ a, ¬ P a) s2 → ends_at P r1 → ends_at P r2 →
  s1 ++ r1 = s2 ++ r2 → s1 = s2 ∧ r1 = r2.
Proof.
  intros H1. revert s2. induction H1 as [|a s1 Ha _ IH]; intros [|b s2] H2 He1 He2; simpl; try done.
  - intros ->. inversion H2; subst. by simpl in He1.
  - intros <-. by simpl in He2.
  - inversion H2; subst. intros [= <- Heq]. destruct (IH s2) as [-> ->]; done.
Qed.

(** ** Digits *)

Definition digit (a : ascii) : Prop := (48 <= nat_of_ascii a <= 57)%nat.
Definition digit_val (a : ascii) : Z := (Z.of_nat (nat_of_ascii a) - 48)%Z.

Definition undigits (l : list ascii) : Z := foldl (λ n a, 10 * n + digit_val a)%Z 0%Z l.

Lemma undigits_app l k : undigits (l ++ k) = (undigits l * 10 ^ Z.of_nat (length k) + undigits k)%Z.
Proof.
  assert (∀ l a, undigits (l ++ [a]) = (10 * undigits l + digit_val a)%Z) as Hsnoc.
  { intros l' a. unfold undigits. by rewrite foldl_app. }
  induction k as [|a k IH] using rev_ind; [rewrite app_nil_r; change (undigits []) with 0%Z; rewrite Z.pow_0_r; lia|].
  rewrite app_assoc, !Hsnoc, IH, length_app, Nat2Z.inj_add, Z.pow_add_r by lia.
  change (10 ^ Z.of_nat (length [a]))%Z with 10%Z. lia.
Qed.

Lemma undigits_one a : undigits [a] = digit_val a.
Proof. unfold undigits. cbn [foldl]. lia. Qed.

Lemma pretty_N_char_digit x : digit (pretty_N_char x).
Proof. unfold pretty_N_char, digit. repeat case_match; vm_compute; lia. Qed.

Lemma pretty_N_char_val x : (x < 10)%N → digit_val (pretty_N_char x) = Z.of_N x.
Proof.
  intros Hx. assert (x = 0 ∨ x = 1 ∨ x = 2 ∨ x = 3 ∨ x = 4 ∨ x = 5 ∨ x = 6 ∨ x = 7 ∨ x = 8 ∨ x = 9)%N as H by lia.
  by repeat destruct H as [->|H]; [..|subst].
Qed.

Lemma pretty_N_go_spec x s :
  ∃ l, bytes (pretty_N_go x s) = l ++ bytes s ∧ Forall digit l ∧ undigits l = Z.of_N x ∧
    ∀ w, (x < 10 ^ N.of_nat w)%N → (length l <= w)%nat.
Proof.
  revert s. induction (N.lt_wf_0 x) as [x _ IH]; intros s.
  destruct (decide (x = 0)%N) as [->|Hx].
  { exists []. rewrite pretty_N_go_0. split; [done|]. split; [constructor|]. split; [done|]. simpl. lia. }
  rewrite pretty_N_go_step by lia.
  destruct (IH (x `div` 10)%N ltac:(apply N.div_lt; lia) (String (pretty_N_char (x `mod` 10)) s)) as (l & Hl & Hd & Hu & Hw).
  exists (l ++ [pretty_N_char (x `mod` 10)]). split; [rewrite Hl; simpl; by rewrite <-app_assoc|].
  split; [apply Forall_app; split; [done|]; constructor; [apply pretty_N_char_digit|constructor]|]. split.
  - rewrite undigits_app, Hu, undigits_one, pretty_N_char_val by (apply N.mod_lt; lia).
    change (10 ^ Z.of_nat (length [pretty_N_char (x `mod` 10)]))%Z with 10%Z. rewrite N2Z.inj_div, N2Z.inj_mod. pose proof (Z.div_mod (Z.of_N x) 10). lia.
  - intros w Hlt. rewrite length_app. simpl. destruct w as [|w]; [simpl in Hlt; lia|].
    specialize (Hw w). rewrite Nat2N.inj_succ, N.pow_succ_r' in Hlt.
    assert (x `div` 10 < 10 ^ N.of_nat w)%N by (apply N.Div0.div_lt_upper_bound; lia). lia.
Qed.

(** The decimal digits of a natural number. *)
Lemma pretty_spec n : (0 <= n)%Z →
  Forall digit (bytes (pretty n)) ∧ undigits (bytes (pretty n)) = n ∧
  ∀ w, (0 < w)%nat → (n < 10 ^ Z.of_nat w)%Z → (length (bytes (pretty n)) <= w)%nat.
Proof.
  intros Hn. destruct n as [|p|p]; [|clear Hn|done].
  { split; [repeat constructor; vm_compute; lia|]. split; [done|]. intros w Hw _. simpl. lia. }
  change (pretty (Zpos p)) with (pretty_N_go (Npos p) "").
  destruct (pretty_N_go_spec (Npos p) "") as (l & -> & Hd & Hu & Hw). rewrite app_nil_r.
  split; [done|]. split; [done|]. intros w _ Hlt. apply Hw.
  apply N2Z.inj_lt. rewrite N2Z.inj_pow, nat_N_Z. done.
Qed.

Lemma pretty_pos_head n : (0 <= n)%Z → ∃ a l, bytes (pretty n) = a :: l ∧ digit a.
Proof.
  intros Hn. destruct (pretty_spec n Hn) as (Hd & Hu & _). destruct (bytes (pretty n)) as [|a l] eqn:E.
  - destruct n as [|p|p]; [done| |done]. by rewrite <-Hu in *.
  - inversion Hd; subst. eauto.
Qed.

Lemma bytes_length s : length (bytes s) = String.length s.
Proof. induction s as [|a s IH]; simpl; [done|]. by rewrite IH. Qed.

Lemma zeros_bytes n : bytes (Time.zeros n) = replicate n "0"%char.
Proof.
  induction n as [|n IH]; [done|]. change (bytes (Time.zeros (S n))) with ("0"%char :: bytes (Time.zeros n)). by rewrite IH.
Qed.

Lemma undigits_zeros n l : undigits (replicate n "0"%char ++ l) = undigits l.
Proof. rewrite undigits_app. replace (undigits (replicate n "0"%char)) with 0%Z; [lia|]. by induction n. Qed.

Lemma pad_spec w n : (0 <= n)%Z → Forall digit (bytes (Time.pad w n)) ∧ undigits (bytes (Time.pad w n)) = n.
Proof.
  intros Hn. destruct (pretty_spec n Hn) as (Hd & Hu & _). unfold Time.pad. rewrite bytes_app, zeros_bytes, undigits_zeros.
  split; [|done]. apply Forall_app. split; [|done]. apply Forall_replicate. vm_compute. lia.
Qed.

Lemma pad_length w n : (0 <= n < 10 ^ Z.of_nat w)%Z → (0 < w)%nat → length (bytes (Time.pad w n)) = w.
Proof.
  intros Hn Hw. destruct (pretty_spec n) as (_ & _ & Hl); [lia|]. specialize (Hl w Hw ltac:(lia)).
  unfold Time.pad. rewrite bytes_app, zeros_bytes, length_app, length_replicate, <-bytes_length. lia.
Qed.

(** ** Fractions *)

Lemma strip_zeros_spec l : ∃ n, l = replicate n "0"%char ++ Time.strip_zeros l.
Proof.
  induction l as [|a l [n IH]]; simpl; [by exists 0%nat|]. case_bool_decide as Ha; [|by exists 0%nat].
  exists (S n). simpl. by rewrite <-IH, Ha.
Qed.

Lemma strip_zeros_incl l a : a ∈ Time.strip_zeros l → a ∈ l.
Proof. destruct (strip_zeros_spec l) as [n Hn]. rewrite Hn at 2. set_solver. Qed.

Lemma strip_zeros_length (l k : list ascii) :
  length l = length k → Time.strip_zeros l = Time.strip_zeros k → l = k.
Proof.
  destruct (strip_zeros_spec l) as [n Hn], (strip_zeros_spec k) as [m Hm]. intros Hl Hs.
  rewrite Hn, Hm, Hs in Hl. rewrite !length_app, !length_replicate in Hl. rewrite Hn, Hm, Hs. f_equal. f_equal. lia.
Qed.

(** The fraction is empty, or a point and digits. *)
Lemma fraction_bytes w n : (0 <= n)%Z →
  bytes (Time.fraction w n) = [] ∨ ∃ l, bytes (Time.fraction w n) = "."%char :: l ∧ Forall digit l.
Proof.
  intros Hn. unfold Time.fraction. change String.list_ascii_of_string with bytes.
  destruct (Time.strip_zeros (reverse (bytes (Time.pad w n)))) as [|a l] eqn:E; [by left|]. right.
  exists (reverse (a :: l)). rewrite bytes_app. change (bytes ".") with ["."%char].
  change (bytes (String.string_of_list_ascii ?x)) with (bytes (unbytes x)).
  unfold bytes, unbytes. rewrite String.list_ascii_of_string_of_list_ascii. split; [done|].
  apply Forall_forall. intros x Hx. rewrite elem_of_reverse in Hx. rewrite <-E in Hx.
  apply strip_zeros_incl in Hx. rewrite elem_of_reverse in Hx. destruct (pad_spec w n Hn) as [Hd _].
  rewrite Forall_forall in Hd. by apply Hd.
Qed.

Lemma fraction_inj w n m :
  (0 < w)%nat → (0 <= n < 10 ^ Z.of_nat w)%Z → (0 <= m < 10 ^ Z.of_nat w)%Z →
  bytes (Time.fraction w n) = bytes (Time.fraction w m) → n = m.
Proof.
  intros Hw Hn Hm Heq.
  assert (Time.strip_zeros (reverse (bytes (Time.pad w n))) = Time.strip_zeros (reverse (bytes (Time.pad w m)))) as Hs.
  { unfold Time.fraction in Heq. change String.list_ascii_of_string with bytes in Heq.
    destruct (Time.strip_zeros (reverse (bytes (Time.pad w n)))) as [|a l], (Time.strip_zeros (reverse (bytes (Time.pad w m)))) as [|b k]; try done.
    rewrite !bytes_app in Heq. apply app_inj_1 in Heq as [_ Heq]; [|done]. unfold bytes in Heq.
    rewrite !String.list_ascii_of_string_of_list_ascii in Heq. by apply (inj reverse) in Heq. }
  apply strip_zeros_length in Hs; [|by rewrite !length_reverse, !pad_length].
  apply (inj reverse) in Hs. destruct (pad_spec w n) as [_ <-]; [lia|]. rewrite Hs. apply pad_spec. lia.
Qed.

(** ** Instants *)

Section calendar.
Local Open Scope Z_scope.

Lemma yoe_range doe :
  0 <= doe < 146097 → 0 <= (doe - doe / 1460 + doe / 36524 - doe / 146096) / 365 < 400.
Proof.
  intros H. split; [apply Z.div_pos; [|done]|apply Z.div_lt_upper_bound; [done|]]; Z.div_mod_to_equations; lia.
Qed.

Lemma doy_range doe :
  0 <= doe < 146097 →
  let yoe := (doe - doe / 1460 + doe / 36524 - doe / 146096) / 365 in 0 <= doe - (365 * yoe + yoe / 4 - yoe / 100) <= 365.
Proof. intros H yoe. pose proof (yoe_range doe H). subst yoe. Z.div_mod_to_equations. lia. Qed.

(** A day number is determined by its calendar date, whose month and day are not
    negative. *)
Lemma civil_inj d1 d2 : Time.civil d1 = Time.civil d2 → d1 = d2.
Proof.
  unfold Time.civil. set (z1 := d1 + 719468). set (z2 := d2 + 719468).
  pose proof (Z.mod_pos_bound z1 146097 ltac:(done)) as B1. pose proof (Z.mod_pos_bound z2 146097 ltac:(done)) as B2.
  pose proof (Z.div_mod z1 146097 ltac:(done)) as E1. pose proof (Z.div_mod z2 146097 ltac:(done)) as E2.
  set (doe1 := z1 mod 146097) in *. set (doe2 := z2 mod 146097) in *.
  pose proof (yoe_range doe1 B1) as Y1. pose proof (yoe_range doe2 B2) as Y2.
  pose proof (doy_range doe1 B1) as D1. pose proof (doy_range doe2 B2) as D2. cbn zeta in D1, D2.
  set (yoe1 := (doe1 - doe1 / 1460 + doe1 / 36524 - doe1 / 146096) / 365) in *.
  set (yoe2 := (doe2 - doe2 / 1460 + doe2 / 36524 - doe2 / 146096) / 365) in *.
  set (doy1 := doe1 - (365 * yoe1 + yoe1 / 4 - yoe1 / 100)) in *.
  set (doy2 := doe2 - (365 * yoe2 + yoe2 / 4 - yoe2 / 100)) in *.
  set (mp1 := (5 * doy1 + 2) / 153). set (mp2 := (5 * doy2 + 2) / 153).
  assert (0 <= mp1 <= 11) as M1 by (unfold mp1; Z.div_mod_to_equations; lia).
  assert (0 <= mp2 <= 11) as M2 by (unfold mp2; Z.div_mod_to_equations; lia).
  intros [= Hy Hm Hd].
  assert (mp1 = mp2) as Emp by (destruct (Z.ltb_spec mp1 10), (Z.ltb_spec mp2 10); lia).
  rewrite <-Emp in Hd, Hy. assert (doy1 = doy2) as Edoy by lia.
  assert (yoe1 + z1 / 146097 * 400 = yoe2 + z2 / 146097 * 400) as Ey by (repeat case_match; lia).
  assert (z1 / 146097 = z2 / 146097 ∧ yoe1 = yoe2) as [Eera Eyoe] by lia.
  unfold doy1, doy2 in Edoy. rewrite Eyoe in Edoy. unfold z1, z2 in *. lia.
Qed.

Lemma civil_nonneg n : let '(_, m, d) := Time.civil n in 0 <= m ∧ 0 <= d.
Proof.
  unfold Time.civil. set (doe := (n + 719468) mod 146097).
  pose proof (Z.mod_pos_bound (n + 719468) 146097 ltac:(done)) as B. fold doe in B.
  pose proof (doy_range doe B) as D. cbn zeta in D. set (yoe := (doe - doe / 1460 + doe / 36524 - doe / 146096) / 365) in *.
  set (doy := doe - (365 * yoe + yoe / 4 - yoe / 100)) in *. clearbody doy. split; [case_match|]; Z.div_mod_to_equations; lia.
Qed.

(** The year an instant falls in, as the spelling writes it. *)
Definition year (x : Time.t) : Z := (Time.civil (x / 10 ^ 9 / 86400)).1.1.

Lemma field_eq w a b c r1 r2 :
  0 <= a → 0 <= b → ¬ digit c →
  bytes (Time.pad w a) ++ c :: r1 = bytes (Time.pad w b) ++ c :: r2 → a = b ∧ r1 = r2.
Proof.
  intros Ha Hb Hc Heq. destruct (pad_spec w a Ha) as [Da Ua], (pad_spec w b Hb) as [Db Ub].
  apply (span_eq (λ x, ¬ digit x)) in Heq as [Hs [= Hr]]; [|by eapply Forall_impl; [done|]; intros ? ? []..|done|done].
  split; [congruence|done].
Qed.

Lemma Format_inj x y :
  0 <= year x → 0 <= year y → Time.Format_RFC3339Nano x = Time.Format_RFC3339Nano y → x = y.
Proof.
  unfold year, Time.Format_RFC3339Nano. intros Hx Hy Heq.
  pose proof (civil_nonneg (x / 10 ^ 9 / 86400)) as Nx. pose proof (civil_nonneg (y / 10 ^ 9 / 86400)) as Ny.
  destruct (Time.civil (x / 10 ^ 9 / 86400)) as [[y1 m1] d1] eqn:E1, (Time.civil (y / 10 ^ 9 / 86400)) as [[y2 m2] d2] eqn:E2.
  simpl in Hx, Hy. apply (f_equal bytes) in Heq. rewrite !bytes_app in Heq.
  set (s1 := x / 10 ^ 9) in *. set (s2 := y / 10 ^ 9) in *.
  assert (∀ s, 0 <= s mod 86400 / 3600 ∧ 0 <= s mod 86400 / 60 mod 60 ∧ 0 <= s mod 86400 mod 60) as Hnn.
  { intros s. Z.div_mod_to_equations. lia. }
  destruct (Hnn s1) as (Ha1 & Hb1 & Hc1), (Hnn s2) as (Ha2 & Hb2 & Hc2). clear Hnn.
  apply field_eq in Heq as [<- Heq]; [|done|done|vm_compute; lia].
  apply field_eq in Heq as [<- Heq]; [|lia|lia|vm_compute; lia].
  apply field_eq in Heq as [<- Heq]; [|lia|lia|vm_compute; lia].
  apply field_eq in Heq as [Eh Heq]; [|done|done|vm_compute; lia].
  apply field_eq in Heq as [Em Heq]; [|done|done|vm_compute; lia].
  assert (∀ n, 0 <= n mod 10 ^ 9 < 10 ^ Z.of_nat 9) as Hns by (intros n; by apply Z.mod_pos_bound).
  assert (∀ n, ends_at (λ a, ¬ digit a) (bytes (Time.fraction 9 (n mod 10 ^ 9)) ++ bytes "Z")) as Hends.
  { intros n. destruct (fraction_bytes 9 (n mod 10 ^ 9)) as [->|(l & -> & _)]; [apply Hns|..]; vm_compute; lia. }
  destruct (pad_spec 2 (s1 mod 86400 mod 60) Hc1) as [D1 U1], (pad_spec 2 (s2 mod 86400 mod 60) Hc2) as [D2 U2].
  apply (span_eq (λ a, ¬ digit a)) in Heq as [Es Hf]; [|by eapply Forall_impl; [done|]; intros ? ? []..|apply Hends|apply Hends].
  apply app_inj_2 in Hf as [Hf _]; [|done]. apply fraction_inj in Hf; [|lia|apply Hns|apply Hns].
  assert (s1 mod 86400 mod 60 = s2 mod 86400 mod 60) as Es' by congruence. rewrite <-E2 in E1. apply civil_inj in E1.
  assert (s1 mod 86400 = s2 mod 86400) as Esod by (Z.div_mod_to_equations; lia).
  assert (s1 = s2) as Esec by (rewrite (Z.div_mod s1 86400), (Z.div_mod s2 86400) by done; congruence).
  unfold s1, s2 in Esec. rewrite (Z.div_mod x (10 ^ 9)), (Z.div_mod y (10 ^ 9)) by done. congruence.
Qed.
End calendar.

(** ** Reading durations and instants

    [time.ParseDuration] and [time.Parse] with the layout [time.RFC3339Nano], as Go's
    standard library defines them; Time.Duration_String and Time.Format_RFC3339Nano
    are the other direction.  A duration that was written reads back. *)
From S2P Require Import Limiter LimiterSpec.

Local Open Scope Z_scope.

(** ** [leadingInt] and [leadingFraction] *)

Fixpoint leadingInt (x : Z) (l : list ascii) : result (Z * list ascii) :=
  match l with
  | a :: l' =>
      if negb (is_digit a) then Ok (x, l)
      else if 2 ^ 63 / 10 <? x then Err []
      else if 2 ^ 63 <? 10 * x + digit_val a then Err []
      else leadingInt (10 * x + digit_val a) l'
  | [] => Ok (x, [])
  end.

(** Digits that no longer fit are read and dropped. *)
Fixpoint leadingFraction (x : Z) (scale : Float64.t) (overflow : bool) (l : list ascii) : Z * Float64.t * list ascii :=
  match l with
  | a :: l' =>
      if negb (is_digit a) then (x, scale, l)
      else if overflow || ((2 ^ 63 - 1) / 10 <? x) || (2 ^ 63 <? 10 * x + digit_val a) then leadingFraction x scale true l'
      else leadingFraction (10 * x + digit_val a) (Float64.mul scale (Float64.of_Z 10)) false l'
  | [] => (x, scale, [])
  end.

(** ** Units *)

(** The two spellings of a microsecond besides "us": U+00B5 is [Time.micro], and
    U+03BC. *)
Definition micro_greek : string := String (ascii_of_nat 206) (String (ascii_of_nat 188) "s").

Definition unit_of (u : string) : option Z :=
  if bool_decide (u = "ns") then Some 1
  else if contains ["us"; Time.micro; micro_greek] u then Some (10 ^ 3)
  else if bool_decide (u = "ms") then Some (10 ^ 6)
  else if bool_decide (u = "s") then Some (10 ^ 9)
  else if bool_decide (u = "m") then Some (60 * 10 ^ 9)
  else if bool_decide (u = "h") then Some (3600 * 10 ^ 9)
  else None.

Definition starts_number (a : ascii) : bool := bool_decide (a = "."%char) || is_digit a.

Fixpoint span_unit (l : list ascii) : list ascii * list ascii :=
  match l with
  | a :: l' => if starts_number a then ([], l) else let '(u, r) := span_unit l' in (a :: u, r)
  | [] => ([], [])
  end.

(** ** One component: an integer, a fraction and a unit *)

Definition fraction_part (f : Z) (unit_ : Z) (scale : Float64.t) : Z :=
  if 0 <? f then to_int64 0 (Float64.mul (Float64.of_int64 f) (Float64.div (Float64.of_Z unit_) scale)) else 0.

Definition component (l : list ascii) : result (Z * list ascii) :=
  match l with
  | [] => Err []
  | a :: _ =>
      if negb (starts_number a) then Err []
      else
        let? p := leadingInt 0 l in
        let '(v, l1) := p in
        let pre := negb (length l1 =? length l)%nat in
        let '(f, scale, l2, post) :=
          match l1 with
          | b :: l2 =>
              if bool_decide (b = "."%char) then
                let '(f, scale, l3) := leadingFraction 0 (Float64.of_Z 1) false l2 in
                (f, scale, l3, negb (length l3 =? length l2)%nat)
              else (0, Float64.of_Z 1, l1, false)
          | [] => (0, Float64.of_Z 1, l1, false)
          end in
        if negb pre && negb post then Err []
        else
          let '(u, rest) := span_unit l2 in
          match u, unit_of (unbytes u) with
          | [], _ | _, None => Err []
          | _, Some unit_ =>
              if 2 ^ 63 / unit_ <? v then Err []
              else
                let v := v * unit_ + fraction_part f unit_ scale in
                if 2 ^ 63 <? v then Err [] else Ok (v, rest)
          end
  end.

Fixpoint components (fuel : nat) (d : Z) (l : list ascii) : result Z :=
  match l, fuel with
  | [], _ => Ok d
  | _, O => Err []
  | _, S fuel =>
      let? p := component l in
      let '(v, rest) := p in
      if 2 ^ 63 <? d + v then Err [] else components fuel (d + v) rest
  end.

Definition ParseDuration (s : string) : result Time.duration :=
  let '(neg, l) := match bytes s with
                   | a :: l => if bool_decide (a = "-"%char) then (true, l)
                               else if bool_decide (a = "+"%char) then (false, l) else (false, a :: l)
                   | [] => (false, [])
                   end in
  if bool_decide (l = ["0"%char]) then Ok 0
  else match l with
  | [] => Err []
  | _ =>
      let? d := components (length l) 0 l in
      if neg then Ok (- d) else if 2 ^ 63 - 1 <? d then Err [] else Ok d
  end.

Example parse_duration_ex :
  map ParseDuration ["1h30m"; "1.5s"; "-5ns"; "0"; ""; "3"; "1h-2m"; "0.000000001s"; "2562047h47m16.854775807s"; ".5h"; "1d"] =
  [Ok (5400 * 10 ^ 9); Ok 1500000000; Ok (-5); Ok 0; Err []; Err []; Err []; Ok 1; Ok (2 ^ 63 - 1); Ok (1800 * 10 ^ 9); Err []].
Proof. vm_compute. reflexivity. Qed.

(** ** A duration that was written reads back *)

Lemma is_digit_iff a : is_digit a = true ↔ digit a.
Proof. unfold is_digit, in_range, digit. rewrite andb_true_iff, !Nat.leb_le. done. Qed.

Lemma digit_val_range a : digit a → 0 <= digit_val a <= 9.
Proof. unfold digit, digit_val. lia. Qed.

Definition read_digits (x : Z) (l : list ascii) : Z := foldl (λ n a, 10 * n + digit_val a) x l.

Lemma read_digits_grows x l : 0 <= x → Forall digit l → x <= read_digits x l.
Proof.
  unfold read_digits. revert x. induction l as [|a l IH]; intros x Hx Hd; simpl; [lia|].
  apply Forall_cons in Hd as [Ha%digit_val_range Hd]. etrans; [|apply IH; [lia|done]]. lia.
Qed.

Lemma leadingInt_digits x l r :
  0 <= x → Forall digit l → ends_at (λ a, is_digit a = false) r → read_digits x l <= 2 ^ 63 →
  leadingInt x (l ++ r) = Ok (read_digits x l, r).
Proof.
  revert x. induction l as [|a l IH]; intros x Hx Hd He Hb; simpl.
  - destruct r as [|b r]; [done|]. simpl in He |- *. by rewrite He.
  - apply Forall_cons in Hd as [Ha Hd]. pose proof (digit_val_range a Ha) as Hv. apply is_digit_iff in Ha. rewrite Ha. simpl.
    change (read_digits x (a :: l)) with (read_digits (10 * x + digit_val a) l) in *.
    pose proof (read_digits_grows (10 * x + digit_val a) l ltac:(lia) Hd).
    rewrite (proj2 (Z.ltb_ge (2 ^ 63 / 10) x)) by (apply Z.div_le_lower_bound; lia).
    rewrite (proj2 (Z.ltb_ge (2 ^ 63) _)) by lia. by apply IH; [lia|..].
Qed.

Definition scale_after (k : nat) : Float64.t := Nat.iter k (λ s, Float64.mul s (Float64.of_Z 10)) (Float64.of_Z 1).

Lemma leadingFraction_digits x k l r :
  0 <= x → Forall digit l → ends_at (λ a, is_digit a = false) r → read_digits x l < 2 ^ 60 →
  leadingFraction x (scale_after k) false (l ++ r) = (read_digits x l, scale_after (k + length l), r).
Proof.
  revert x k. induction l as [|a l IH]; intros x k Hx Hd He Hb; simpl.
  - rewrite Nat.add_0_r. destruct r as [|b r]; [done|]. simpl in He |- *. by rewrite He.
  - apply Forall_cons in Hd as [Ha Hd]. pose proof (digit_val_range a Ha) as Hv. apply is_digit_iff in Ha. rewrite Ha. simpl.
    change (read_digits x (a :: l)) with (read_digits (10 * x + digit_val a) l) in *.
    pose proof (read_digits_grows (10 * x + digit_val a) l ltac:(lia) Hd).
    assert ((2 ^ 63 - 1) / 10 <? x = false) as ->.
    { apply Z.ltb_ge. transitivity (2 ^ 59); [lia|]. vm_compute. discriminate. }
    rewrite (proj2 (Z.ltb_ge (2 ^ 63) _)) by lia. simpl.
    change (Float64.mul (scale_after k) (Float64.of_Z 10)) with (scale_after (S k)).
    rewrite (IH _ (S k)) by (done || lia). by rewrite Nat.add_succ_comm.
Qed.

(** The digits a fraction is written with. *)
Lemma fraction_digits w n : (0 < w)%nat → 0 <= n < 10 ^ Z.of_nat w →
  (n = 0 ∧ Time.fraction w n = "") ∨
  ∃ l, 0 < n ∧ bytes (Time.fraction w n) = "."%char :: l ∧ Forall digit l ∧ (1 <= length l <= w)%nat ∧
    undigits l * 10 ^ Z.of_nat (w - length l) = n.
Proof.
  intros Hw Hn. destruct (pad_spec w n) as [Hd Hu]; [lia|]. pose proof (pad_length w n Hn Hw) as Hl.
  unfold Time.fraction. change String.list_ascii_of_string with bytes.
  destruct (strip_zeros_spec (reverse (bytes (Time.pad w n)))) as [k Hk].
  assert (bytes (Time.pad w n) = reverse (Time.strip_zeros (reverse (bytes (Time.pad w n)))) ++ replicate k "0"%char) as Hsplit.
  { rewrite <-(reverse_involutive (bytes (Time.pad w n))) at 1. rewrite Hk at 1. by rewrite reverse_app, reverse_replicate. }
  destruct (Time.strip_zeros (reverse (bytes (Time.pad w n)))) as [|a l] eqn:E.
  - left. split; [|done]. rewrite Hsplit in Hu. change (reverse [] ++ ?x) with x in Hu.
    rewrite <-(app_nil_r (replicate k _)), undigits_zeros in Hu. by rewrite <-Hu.
  - right. exists (reverse (a :: l)). rewrite bytes_app. unfold bytes at 2. rewrite String.list_ascii_of_string_of_list_ascii.
    set (m := reverse (a :: l)) in *. assert (length m + k = w)%nat as Hlen.
    { rewrite <-Hl, Hsplit, length_app, length_replicate. done. }
    assert (1 <= length m)%nat by (unfold m; rewrite length_reverse; simpl; lia).
    assert (undigits m * 10 ^ Z.of_nat (w - length m) = n) as Hval.
    { rewrite <-Hu, Hsplit, undigits_app, length_replicate. replace (w - length m)%nat with k by lia.
      rewrite <-(app_nil_r (replicate k _)), undigits_zeros. unfold undigits at 3. simpl. lia. }
    split_and!; [|done| |lia|lia|done].
    + destruct (decide (n = 0)) as [->|]; [|lia]. exfalso.
      assert (a ≠ "0"%char) as Ha.
      { intros ->. clear -E. induction (reverse (bytes (Time.pad w 0))) as [|b r IH]; simpl in E; [done|].
        case_bool_decide; [by apply IH|congruence]. }
      assert (a ∈ reverse (bytes (Time.pad w 0))) as Hin by (apply strip_zeros_incl; rewrite E; set_solver).
      rewrite elem_of_reverse in Hin. unfold Time.pad in Hin. rewrite bytes_app, zeros_bytes in Hin.
      apply elem_of_app in Hin as [Hin|Hin]; [apply elem_of_replicate in Hin as [Hin _]; done|].
      change (bytes (pretty 0)) with ["0"%char] in Hin. set_solver.
    + rewrite Hsplit in Hd. by apply Forall_app in Hd as [Hd _].
Qed.

(** The division by the scale and the product are exact: the unit and the scale are
    powers of ten. *)
Lemma to_int64_int x n : is_int x n → 0 <= n < 2 ^ 63 → to_int64 0 x = n.
Proof.
  intros Hx Hn. destruct x as [| | |m e]; simpl in *; try done. unfold dyadic in Hx. destruct (Z.leb_spec 0 e).
  - rewrite Z.max_l, Z.max_r, Z.mul_1_r in Hx by lia. rewrite Hx.
    rewrite (proj2 (Z.leb_le (- 2 ^ 63) n)), (proj2 (Z.ltb_lt n (2 ^ 63))) by lia. done.
  - rewrite Z.max_r, Z.max_l, Z.mul_1_r in Hx by lia. rewrite Hx, Z.quot_mul by (apply Z.pow_nonzero; lia).
    rewrite (proj2 (Z.leb_le (- 2 ^ 63) n)), (proj2 (Z.ltb_lt n (2 ^ 63))) by lia. done.
Qed.

Lemma width_cases w : w ∈ [3; 6; 9]%nat → (w = 3 ∨ w = 6 ∨ w = 9)%nat.
Proof. rewrite !elem_of_cons. intros [?|[?|[?|[]%elem_of_nil]]]; auto. Qed.

Lemma unit_over_scale w k : w ∈ [3; 6; 9]%nat → (1 <= k <= w)%nat →
  is_int (Float64.div (Float64.of_Z (10 ^ Z.of_nat w)) (scale_after k)) (10 ^ Z.of_nat (w - k)).
Proof.
  intros Hc%width_cases Hk.
  destruct Hc as [->|[->| ->]]; do 10 (destruct k as [|k]; [first [lia|vm_compute; reflexivity]|]); lia.
Qed.

Lemma fraction_part_exact w l :
  w ∈ [3; 6; 9]%nat → (1 <= length l <= w)%nat → Forall digit l → 0 < undigits l * 10 ^ Z.of_nat (w - length l) < 10 ^ Z.of_nat w →
  fraction_part (undigits l) (10 ^ Z.of_nat w) (scale_after (length l)) = undigits l * 10 ^ Z.of_nat (w - length l).
Proof.
  intros Hw Hk Hd Hr. unfold fraction_part. assert (10 ^ Z.of_nat w <= 10 ^ 9) as Hw9.
  { apply width_cases in Hw. apply Z.pow_le_mono_r; lia. }
  pose proof (Z.pow_pos_nonneg 10 (Z.of_nat (w - length l)) ltac:(lia) ltac:(lia)) as Hp.
  assert (0 < undigits l) as Hu by nia. rewrite (proj2 (Z.ltb_lt 0 _)) by done.
  apply to_int64_int; [|lia]. apply mul_int; [done|done|lia| |by apply unit_over_scale].
  unfold Float64.of_int64. rewrite Float64.round53_exact; [|apply Z.leb_le; nia]. apply of_Z_int.
Qed.

Definition unit_text (u : string) : Prop := bytes u ≠ [] ∧ Forall (λ a, starts_number a = false) (bytes u).

Lemma span_unit_app u r :
  Forall (λ a, starts_number a = false) u → ends_at (λ a, starts_number a = true) r → span_unit (u ++ r) = (u, r).
Proof.
  intros Hu Hr. induction Hu as [|a u Ha _ IH]; simpl.
  - destruct r as [|b r]; [done|]. simpl in *. by rewrite Hr.
  - by rewrite Ha, IH.
Qed.

(** One component of the written form reads back. *)
Lemma component_spec v w n u unit_ rest :
  0 <= v → (0 < w)%nat → 0 <= n < 10 ^ Z.of_nat w → (n = 0 ∨ unit_ = 10 ^ Z.of_nat w ∧ w ∈ [3; 6; 9]%nat) →
  unit_text u → unit_of u = Some unit_ → 0 < unit_ → v * unit_ + n <= 2 ^ 63 → ends_at (λ a, starts_number a = true) rest →
  component (bytes (pretty v) ++ bytes (Time.fraction w n) ++ bytes u ++ rest) = Ok (v * unit_ + n, rest).
Proof.
  intros Hv Hw Hn Hunit [Hu0 Hu] Hof Hpos Hb Hr. destruct (pretty_spec v Hv) as (Hd & Hval & _).
  destruct (pretty_pos_head v Hv) as (a0 & l0 & E0 & Ha0).
  assert (leadingInt 0 (bytes (pretty v) ++ bytes (Time.fraction w n) ++ bytes u ++ rest) =
    Ok (v, bytes (Time.fraction w n) ++ bytes u ++ rest)) as Hli.
  { replace (Ok (v, _)) with (Ok (A:=Z * list ascii) (read_digits 0 (bytes (pretty v)), bytes (Time.fraction w n) ++ bytes u ++ rest))
      by (unfold read_digits; fold (undigits (bytes (pretty v))); by rewrite Hval).
    apply leadingInt_digits; [lia|done| |unfold read_digits; fold (undigits (bytes (pretty v))); rewrite Hval; nia].
    destruct (fraction_bytes w n) as [->|(l & -> & _)]; [lia| |done].
    destruct (bytes u) as [|b u'] eqn:Eu; [done|]. simpl. apply Forall_cons in Hu as [Hb' _]. unfold starts_number in Hb'.
    by apply orb_false_iff in Hb' as [_ ?]. }
  assert (unbytes (bytes u) = u) as Eu by apply unbytes_bytes.
  unfold component. rewrite E0 in *. cbn [app]. assert (starts_number a0 = true) as ->.
  { unfold starts_number. apply orb_true_iff. right. by apply is_digit_iff. }
  cbn [negb]. change (a0 :: l0 ++ ?x) with ((a0 :: l0) ++ x). rewrite Hli. cbn [res_bind].
  assert (∀ k, (length (bytes (Time.fraction w n) ++ bytes u ++ rest) =?
     length ((a0 :: l0) ++ bytes (Time.fraction w n) ++ bytes u ++ rest))%nat = k → k = false) as Hpre.
  { intros k <-. apply Nat.eqb_neq. rewrite !length_app. simpl. lia. }
  rewrite (Hpre _ eq_refl). cbn [negb andb].
  assert (2 ^ 63 / unit_ <? v = false) as Hov.
  { apply Z.ltb_ge. apply Z.div_le_lower_bound; nia. }
  destruct (fraction_digits w n Hw Hn) as [[-> ->]|(l & Hn0 & -> & Hdl & Hlen & Hl)].
  - change (bytes "") with (@nil ascii). cbn [app]. destruct (bytes u) as [|b u'] eqn:Ebu; [done|]. cbn [app].
    assert (bool_decide (b = "."%char) = false) as ->.
    { apply Forall_cons in Hu as [Hb' _]. unfold starts_number in Hb'. by apply orb_false_iff in Hb' as [? _]. }
    change (b :: u' ++ rest) with ((b :: u') ++ rest). rewrite (span_unit_app (b :: u')) by done. rewrite Eu, Hof, Hov.
    unfold fraction_part. simpl. rewrite (proj2 (Z.ltb_ge (2 ^ 63) _)) by lia. done.
  - destruct Hunit as [->|[-> Hw9]]; [lia|]. cbn [app]. rewrite bool_decide_eq_true_2 by done.
    change (Float64.of_Z 1) with (scale_after 0). rewrite leadingFraction_digits; [|lia|done| |].
    + unfold read_digits. fold (undigits l). cbn [plus].
      rewrite (span_unit_app (bytes u)) by done. destruct (bytes u) as [|b u'] eqn:Ebu; [done|]. rewrite Eu, Hof, Hov.
      rewrite fraction_part_exact, Hl by (done || lia). rewrite (proj2 (Z.ltb_ge (2 ^ 63) _)) by lia. done.
    + destruct (bytes u) as [|b u'] eqn:Ebu; [done|]. simpl. apply Forall_cons in Hu as [Hb' _]. unfold starts_number in Hb'.
      by apply orb_false_iff in Hb' as [_ ?].
    + unfold read_digits. fold (undigits l). pose proof (Z.pow_pos_nonneg 10 (Z.of_nat (w - length l)) ltac:(lia) ltac:(lia)).
      assert (10 ^ Z.of_nat w <= 10 ^ 9) as Hw10.
      { apply width_cases in Hw9. apply Z.pow_le_mono_r; lia. }
      assert (10 ^ 9 < 2 ^ 60) by done. nia.
Qed.

(** A component as it is written. *)
Record piece := mkPiece { pc_whole : Z; pc_width : nat; pc_fraction : Z; pc_unit : string }.

Definition spell (p : piece) : list ascii :=
  bytes (pretty (pc_whole p)) ++ bytes (Time.fraction (pc_width p) (pc_fraction p)) ++ bytes (pc_unit p).
Definition piece_value (p : piece) : Z := pc_whole p * default 0 (unit_of (pc_unit p)) + pc_fraction p.

Record piece_ok (p : piece) : Prop := {
  po_whole : 0 <= pc_whole p;
  po_fraction : 0 <= pc_fraction p < 10 ^ Z.of_nat (pc_width p);
  po_width : (0 < pc_width p)%nat;
  po_unit : pc_unit p ∈ ["ns"; Time.micro; "ms"; "s"; "m"; "h"];
  po_exact : pc_fraction p = 0 ∨ unit_of (pc_unit p) = Some (10 ^ Z.of_nat (pc_width p)) ∧ pc_width p ∈ [3; 6; 9]%nat }.

Lemma unit_texts u : u ∈ ["ns"; Time.micro; "ms"; "s"; "m"; "h"] → unit_text u ∧ ∃ n, unit_of u = Some n ∧ 0 < n.
Proof.
  intros Hu. repeat (apply elem_of_cons in Hu as [->|Hu]; [split; [split; [done|repeat constructor]|by eexists]|]). set_solver.
Qed.

Lemma piece_component p rest :
  piece_ok p → piece_value p <= 2 ^ 63 → ends_at (λ a, starts_number a = true) rest →
  component (spell p ++ rest) = Ok (piece_value p, rest) ∧ 0 <= piece_value p ∧ (2 <= length (spell p))%nat.
Proof.
  intros [Hv Hn Hw Hu He] Hb Hr. destruct (unit_texts _ Hu) as [Ht (unit_ & Hof & Hpos)].
  unfold piece_value, spell in *. rewrite Hof in *. simpl in *. rewrite <-!app_assoc. split_and!.
  - apply component_spec; try done. destruct He as [?|[[= ->] ?]]; auto.
  - nia.
  - destruct (pretty_pos_head _ Hv) as (a & l & E & _). rewrite E, !length_app. destruct Ht as [Ht _].
    destruct (bytes (pc_unit p)); [done|]. simpl. lia.
Qed.

Lemma spell_starts p rest : piece_ok p → ∃ a l, spell p ++ rest = a :: l ∧ digit a.
Proof.
  intros [Hv _ _ _ _]. destruct (pretty_pos_head _ Hv) as (a & l & E & Ha). unfold spell. rewrite E. simpl. by eexists _, _.
Qed.

(** A sequence of pieces reads as the sum of their values. *)
Lemma components_pieces ps fuel d :
  Forall piece_ok ps → Forall (λ p, 0 <= piece_value p) ps → d + foldr Z.add 0 (map piece_value ps) <= 2 ^ 63 → 0 <= d →
  (length (concat (map spell ps)) <= fuel)%nat →
  components fuel d (concat (map spell ps)) = Ok (d + foldr Z.add 0 (map piece_value ps)).
Proof.
  revert fuel d. induction ps as [|p ps IH]; intros fuel d Hok Hpos Hb Hd Hf; simpl.
  { rewrite Z.add_0_r. by destruct fuel. }
  apply Forall_cons in Hok as [Hp Hok]. apply Forall_cons in Hpos as [Hp0 Hpos]. simpl in Hb, Hf.
  assert (0 <= foldr Z.add 0 (map piece_value ps)) as Hs.
  { clear -Hpos. induction Hpos; simpl; lia. }
  destruct (piece_component p (concat (map spell ps)) Hp) as (Hc & _ & Hlen); [lia| |].
  { destruct ps as [|q ps]; [done|]. simpl. apply Forall_cons in Hok as [Hq _].
    destruct (spell_starts q (concat (map spell ps)) Hq) as (a & l & -> & Ha). simpl. unfold starts_number.
    apply orb_true_iff. right. by apply is_digit_iff. }
  destruct (spell_starts p (concat (map spell ps)) Hp) as (a & l & E & Ha). rewrite length_app in Hf.
  rewrite E in *. destruct fuel as [|fuel]; [lia|]. cbn [components]. rewrite Hc. cbn [res_bind].
  rewrite (proj2 (Z.ltb_ge (2 ^ 63) _)) by lia. rewrite IH by (done || lia). f_equal. lia.
Qed.

(** The pieces of a spelling without its sign. *)
Definition magnitude (u : Z) : list piece :=
  if u =? 0 then [mkPiece 0 1 0 "s"]
  else if u <? 10 ^ 3 then [mkPiece u 1 0 "ns"]
  else if u <? 10 ^ 6 then [mkPiece (u / 10 ^ 3) 3 (u mod 10 ^ 3) Time.micro]
  else if u <? 10 ^ 9 then [mkPiece (u / 10 ^ 6) 6 (u mod 10 ^ 6) "ms"]
  else
    let s := u / 10 ^ 9 in
    let secs := mkPiece (s mod 60) 9 (u mod 10 ^ 9) "s" in
    let m := s / 60 in
    if m =? 0 then [secs]
    else let h := m / 60 in
         if h =? 0 then [mkPiece (m mod 60) 1 0 "m"; secs] else [mkPiece h 1 0 "h"; mkPiece (m mod 60) 1 0 "m"; secs].

Lemma magnitude_String d :
  bytes (Time.Duration_String d) = (if d <? 0 then ["-"%char] else []) ++ concat (map spell (magnitude (Z.abs d))).
Proof.
  assert (∀ s : string, bytes ((if d <? 0 then "-" +:+ s else s)) = (if d <? 0 then ["-"%char] else []) ++ bytes s) as Hneg.
  { intros s. by destruct (d <? 0). }
  assert (bytes (Time.fraction 1 0) = []) as Hf by done. assert (pretty 0 = "0") as Hp by done.
  unfold Time.Duration_String. rewrite Hneg. f_equal. unfold magnitude.
  repeat case_match; unfold spell; cbn [map concat pc_whole pc_width pc_fraction pc_unit];
    rewrite ?Hf, ?Hp, ?app_nil_r, ?bytes_app, ?app_nil_l, <-?app_assoc; done.
Qed.

Lemma magnitude_ok u : 0 <= u → Forall piece_ok (magnitude u) ∧ foldr Z.add 0 (map piece_value (magnitude u)) = u.
Proof.
  intros Hu. unfold magnitude.
  assert (∀ v w n t, 0 <= v → 0 <= n < 10 ^ Z.of_nat w → (0 < w)%nat → t ∈ ["ns"; Time.micro; "ms"; "s"; "m"; "h"] →
    (n = 0 ∨ unit_of t = Some (10 ^ Z.of_nat w) ∧ w ∈ [3; 6; 9]%nat) → piece_ok (mkPiece v w n t)) as Hok by (by split).
  assert (∀ v w n t x, unit_of t = Some x → piece_value (mkPiece v w n t) = v * x + n) as Hval.
  { intros v w n t x E. unfold piece_value. simpl. by rewrite E. }
  repeat case_match; cbn [map foldr]; rewrite ?(Hval _ _ _ "s" (10 ^ 9)), ?(Hval _ _ _ "ns" 1), ?(Hval _ _ _ "ms" (10 ^ 6)),
    ?(Hval _ _ _ Time.micro (10 ^ 3)), ?(Hval _ _ _ "m" (60 * 10 ^ 9)), ?(Hval _ _ _ "h" (3600 * 10 ^ 9)) by done.
  all: pose proof (Z.div_mod u (10 ^ 3) ltac:(lia)); pose proof (Z.mod_pos_bound u (10 ^ 3) ltac:(lia));
       pose proof (Z.div_mod u (10 ^ 6) ltac:(lia)); pose proof (Z.mod_pos_bound u (10 ^ 6) ltac:(lia));
       pose proof (Z.div_mod u (10 ^ 9) ltac:(lia)); pose proof (Z.mod_pos_bound u (10 ^ 9) ltac:(lia));
       pose proof (Z.div_mod (u / 10 ^ 9) 60 ltac:(lia)); pose proof (Z.mod_pos_bound (u / 10 ^ 9) 60 ltac:(lia));
       pose proof (Z.div_mod (u / 10 ^ 9 / 60) 60 ltac:(lia)); pose proof (Z.mod_pos_bound (u / 10 ^ 9 / 60) 60 ltac:(lia)).
  all: split; [|lia].
  all: repeat (apply Forall_cons; split; [apply Hok; [lia|simpl Z.of_nat; lia|lia|set_solver|]|]); try apply Forall_nil_2.
  all: first [by left|right; split; [done|set_solver]].
Qed.

(** Every duration reads back from its spelling: [time.ParseDuration] of
    [Duration.String] is the identity on the int64 range, fractions read through
    float64 included. *)
Theorem ParseDuration_String d : - 2 ^ 63 <= d < 2 ^ 63 → ParseDuration (Time.Duration_String d) = Ok d.
Proof.
  intros Hd. destruct (magnitude_ok (Z.abs d)) as [Hok Hsum]; [lia|]. set (l := concat (map spell (magnitude (Z.abs d)))).
  assert (Forall (λ p, 0 <= piece_value p) (magnitude (Z.abs d))) as Hpos.
  { eapply Forall_impl; [exact Hok|]. intros p [Hv Hn _ Hu _]. destruct (unit_texts _ Hu) as [_ (x & Hx & Hx0)].
    unfold piece_value. rewrite Hx. simpl. nia. }
  assert (components (length l) 0 l = Ok (Z.abs d)) as Hc.
  { unfold l. rewrite components_pieces by (done || lia). f_equal. lia. }
  assert (∃ a b r, l = a :: b :: r ∧ digit a) as (a & b & r & E & Ha).
  { unfold l. destruct (magnitude (Z.abs d)) as [|p ps] eqn:Em; [exfalso; unfold magnitude in Em; repeat case_match; done|].
    apply Forall_cons in Hok as [Hp _]. simpl. destruct (spell_starts p (concat (map spell ps)) Hp) as (a & l' & E & Ha).
    assert (2 <= length (a :: l'))%nat as Hl.
    { rewrite <-E, length_app. destruct Hp as [Hv _ _ Hu _]. destruct (pretty_pos_head _ Hv) as (x & y & E' & _).
      unfold spell. rewrite E', !length_app. destruct (unit_texts _ Hu) as [[Hu' _] _]. destruct (bytes (pc_unit p)); [done|]. simpl. lia. }
    rewrite E. destruct l' as [|b r]; [simpl in Hl; lia|]. by exists a, b, r. }
  assert (a ≠ "-"%char ∧ a ≠ "+"%char) as [Hm Hp].
  { unfold digit in Ha. split; intros ->; vm_compute in Ha; lia. }
  unfold ParseDuration. rewrite magnitude_String. fold l. rewrite E in *.
  destruct (Z.ltb_spec d 0); cbn [app].
  - rewrite bool_decide_eq_true_2 by done. rewrite bool_decide_eq_false_2 by done. rewrite Hc. cbn [res_bind]. f_equal. lia.
  - rewrite !bool_decide_eq_false_2 by (done || congruence). rewrite Hc. cbn [res_bind].
    rewrite (proj2 (Z.ltb_ge _ _)) by lia. f_equal. lia.
Qed.

(** ** [time.Parse(time.RFC3339Nano, s)]

    Year, month, day, minute and second have a fixed number of digits; the hour has
    one or two; the fraction follows a point or a comma and counts to nine digits. *)

Definition is_leap (y : Z) : bool := (y mod 4 =? 0) && (negb (y mod 100 =? 0) || (y mod 400 =? 0)).
Definition daysIn (m y : Z) : Z :=
  if m =? 2 then if is_leap y then 29 else 28 else if (m =? 4) || (m =? 6) || (m =? 9) || (m =? 11) then 30 else 31.

(** The day number of a date, counted from the epoch. *)
Definition day_number (y m d : Z) : Z :=
  let y := if m <=? 2 then y - 1 else y in
  let era := y / 400 in
  let yoe := y mod 400 in
  let doy := (153 * (if 2 <? m then m - 3 else m + 9) + 2) / 5 + d - 1 in
  era * 146097 + (yoe * 365 + yoe / 4 - yoe / 100 + doy) - 719468.

(** [n] digits, no more and no fewer. *)
Fixpoint take_digits (n : nat) (x : Z) (l : list ascii) : option (Z * list ascii) :=
  match n, l with
  | O, _ => Some (x, l)
  | S n, a :: l => if is_digit a then take_digits n (10 * x + digit_val a) l else None
  | S _, [] => None
  end.

(** [getnum] without a fixed width: one or two digits. *)
Definition take_hour (l : list ascii) : option (Z * list ascii) :=
  match take_digits 2 0 l with Some r => Some r | None => take_digits 1 0 l end.

Definition expect (a : ascii) (l : list ascii) : option (list ascii) :=
  match l with b :: l => if bool_decide (a = b) then Some l else None | [] => None end.

Fixpoint span_digits (l : list ascii) : list ascii * list ascii :=
  match l with
  | a :: l' => if is_digit a then let '(d, r) := span_digits l' in (a :: d, r) else ([], l)
  | [] => ([], [])
  end.

Definition take_fraction (l : list ascii) : Z * list ascii :=
  match l with
  | p :: a :: l' =>
      if (bool_decide (p = "."%char) || bool_decide (p = ","%char)) && is_digit a then
        let '(ds, r) := span_digits (a :: l') in
        (undigits (take 9 (ds ++ replicate 9 "0"%char)), r)
      else (0, l)
  | _ => (0, l)
  end.

(** The offset in seconds. *)
Definition take_zone (l : list ascii) : option (Z * list ascii) :=
  match l with
  | a :: l' =>
      if bool_decide (a = "Z"%char) then Some (0, l')
      else if bool_decide (a = "+"%char) || bool_decide (a = "-"%char) then
        '(h, l1) ← take_digits 2 0 l'; l2 ← expect ":"%char l1; '(m, l3) ← take_digits 2 0 l2;
        if (24 <? h) || (60 <? m) then None
        else Some ((if bool_decide (a = "+"%char) then 1 else -1) * ((h * 60 + m) * 60), l3)
      else None
  | [] => None
  end.

Definition Parse_RFC3339Nano (s : string) : result Time.t :=
  match
    '(y, l) ← take_digits 4 0 (bytes s); l ← expect "-"%char l;
    '(mo, l) ← take_digits 2 0 l; l ← expect "-"%char l;
    '(d, l) ← take_digits 2 0 l; l ← expect "T"%char l;
    '(h, l) ← take_hour l; l ← expect ":"%char l;
    '(mi, l) ← take_digits 2 0 l; l ← expect ":"%char l;
    '(se, l) ← take_digits 2 0 l;
    let '(ns, l) := take_fraction l in
    '(off, l) ← take_zone l;
    if bool_decide (l = []) && (1 <=? mo) && (mo <=? 12) && (1 <=? d) && (d <=? daysIn mo y) && (h <? 24) && (mi <? 60) && (se <? 60)
    then Some ((day_number y mo d * 86400 + h * 3600 + mi * 60 + se - off) * 10 ^ 9 + ns) else None
  with Some t => Ok t | None => Err [] end.

Example parse_time_ex :
  map Parse_RFC3339Nano ["2023-11-14T22:13:20.00000012Z"; "2024-02-29T1:00:00+01:00"; "2023-02-29T00:00:00Z"; "1970-01-01"; "1969-12-31T23:59:59Z"] =
  [Ok (1700000000 * 10 ^ 9 + 120); Ok (1709164800 * 10 ^ 9); Err []; Err []; Ok (- 10 ^ 9)].
Proof. vm_compute. reflexivity. Qed.
