(* ===== verification/Strconv.v ===== *)
(** * Numbers, booleans and instants as text

    What the policy document codec uses of Go's strconv and time packages:
    [ParseBool], [ParseInt] and [Atoi], [ParseFloat], [FormatFloat(v, 'g', -1, 64)],
    and the round trips of integers, booleans and RFC 3339 instants.  A document's
    duration is in Text.v. *)
From Stdlib Require Import Ascii.
From stdpp Require Import pretty.
From S2P Require Import Prelude GoLib Policy Text.
Import Strings.
Local Open Scope Z_scope.

(** ** Booleans *)

Definition ParseBool (s : string) : result bool :=
  if contains ["1"; "t"; "T"; "true"; "TRUE"; "True"] s then Ok true
  else if contains ["0"; "f"; "F"; "false"; "FALSE"; "False"] s then Ok false
  else Err [].

Definition FormatBool (b : bool) : string := if b then "true" else "false".

(** ** Integers: [ParseInt(s, 10, 64)], [Atoi] on a 64-bit machine, [FormatInt], [Itoa] *)

(** A leading sign, and the text after it. *)
Definition split_sign (l : list ascii) : bool * list ascii :=
  match l with
  | a :: l' => if bool_decide (a = "-"%char) then (true, l') else if bool_decide (a = "+"%char) then (false, l') else (false, l)
  | [] => (false, [])
  end.

Definition ParseInt (s : string) : result Z :=
  let '(neg, l) := split_sign (bytes s) in
  if bool_decide (l = []) || negb (forallb is_digit l) then Err []
  else
    let n := undigits l in
    if neg then if n <=? 2 ^ 63 then Ok (- n) else Err []
    else if n <? 2 ^ 63 then Ok n else Err [].

Definition FormatInt (n : Z) : string := pretty n.

Definition int64 (n : Z) : bool := (- 2 ^ 63 <=? n) && (n <? 2 ^ 63).

(** ** Decimal text to binary64

    The double nearest to [num / den], ties to even, in the form the arithmetic of
    [Float64] produces; [None] when it is out of range. *)

(** The integer nearest to [n / d], ties to even. *)
Definition round_div (n d : Z) : Z :=
  let q := n / d in
  match Z.compare (2 * (n mod d)) d with
  | Lt => q
  | Gt => q + 1
  | Eq => if Z.even q then q else q + 1
  end.

(** [n / d * 2^k] as a fraction. *)
Definition shift (n d k : Z) : Z * Z := if 0 <=? k then (n * 2 ^ k, d) else (n, d * 2 ^ (- k)).

(** The binary logarithm of [n / d], rounded down. *)
Definition ilog2 (n d : Z) : Z :=
  let l := Z.log2 n - Z.log2 d in
  let '(a, b) := shift n d (- l) in if a <? b then l - 1 else l.

Definition round64 (neg : bool) (n d : Z) : option Float64.t :=
  if n =? 0 then Some (if neg then Float64.NegZero else Float64.Fin 0 0)
  else
    let e := Z.max (ilog2 n d - 52) (-1074) in
    let '(a, b) := shift n d (- e) in
    let m := round_div a b in
    let '(m, e) := if m =? 2 ^ 53 then (2 ^ 52, e + 1) else (m, e) in
    if 971 <? e then None
    else if m =? 0 then Some (if neg then Float64.NegZero else Float64.Fin 0 0)
    else Some (Float64.Fin (if neg then - m else m) e).

(** *** The syntax *)

Definition lower (a : ascii) : ascii := if in_range a 65 90 then ascii_of_nat (nat_of_ascii a + 32) else a.

(** [strings.ToLower] of ASCII text. *)
Definition ToLower (s : string) : string := unbytes (map lower (bytes s)).

Definition hex_val (a : ascii) : option Z :=
  if is_digit a then Some (digit_val a)
  else if in_range (lower a) 97 102 then Some (Z.of_nat (nat_of_ascii (lower a)) - 87) else None.

Definition in_base (hex : bool) (a : ascii) : option Z :=
  if hex then hex_val a else if is_digit a then Some (digit_val a) else None.

(** The mantissa: its value, the number of digits after the point ([None] before a
    point), whether it had a digit and an underscore, and the rest. *)
Record mantissa := mkMantissa { mn_value : Z; mn_after : option Z; mn_digits : bool; mn_under : bool }.

Fixpoint take_mantissa (hex : bool) (m : mantissa) (l : list ascii) : mantissa * list ascii :=
  match l with
  | [] => (m, [])
  | a :: l' =>
      if bool_decide (a = "_"%char) then take_mantissa hex (mkMantissa (mn_value m) (mn_after m) (mn_digits m) true) l'
      else if bool_decide (a = "."%char) then
        match mn_after m with
        | Some _ => (m, l)
        | None => take_mantissa hex (mkMantissa (mn_value m) (Some 0) (mn_digits m) (mn_under m)) l'
        end
      else
        match in_base hex a with
        | Some v =>
            take_mantissa hex (mkMantissa ((if hex then 16 else 10) * mn_value m + v) (Z.succ <$> mn_after m) true (mn_under m)) l'
        | None => (m, l)
        end
  end.

(** The digits of an exponent; its value stops growing at 10000. *)
Fixpoint take_exponent (e : Z) (under : bool) (l : list ascii) : Z * bool * list ascii :=
  match l with
  | a :: l' =>
      if bool_decide (a = "_"%char) then take_exponent e true l'
      else if is_digit a then take_exponent (if e <? 10000 then 10 * e + digit_val a else e) under l'
      else (e, under, l)
  | [] => (e, under, [])
  end.

(** [None]: an exponent mark without an exponent. *)
Definition exponent (mark : ascii) (required : bool) (l : list ascii) : option (Z * bool * list ascii) :=
  match l with
  | a :: l' =>
      if bool_decide (lower a = mark) then
        let '(neg, l1) := split_sign l' in
        match l1 with
        | b :: _ =>
            if is_digit b then let '(e, u, r) := take_exponent 0 false l1 in Some ((if neg then - e else e), u, r) else None
        | [] => None
        end
      else if required then None else Some (0, false, l)
  | [] => if required then None else Some (0, false, [])
  end.

(** An underscore stands between two digits, or after a base prefix. *)
Inductive seen := SeenStart | SeenDigit | SeenUnderscore | SeenOther.

Fixpoint underscores (hex : bool) (saw : seen) (l : list ascii) : bool :=
  match l with
  | [] => match saw with SeenUnderscore => false | _ => true end
  | a :: l =>
      if bool_decide (is_Some (in_base hex a)) then underscores hex SeenDigit l
      else if bool_decide (a = "_"%char) then match saw with SeenDigit => underscores hex SeenUnderscore l | _ => false end
      else match saw with SeenUnderscore => false | _ => underscores hex SeenOther l end
  end.

(** The text after the sign of a hexadecimal number, past its prefix. *)
Definition hex_prefix (l : list ascii) : option (list ascii) :=
  match l with
  | z :: x :: (_ :: _) as l' => if bool_decide (z = "0"%char) && bool_decide (lower x = "x"%char) then Some (drop 2 l) else None
  | _ => None
  end.

Definition special (neg signed : bool) (l : list ascii) : option Float64.t :=
  let w := unbytes (map lower l) in
  if bool_decide (w = "inf") || bool_decide (w = "infinity") then Some (Float64.Inf neg)
  else if bool_decide (w = "nan") && negb signed then Some Float64.NaN else None.

Definition ParseFloat (s : string) : result Float64.t :=
  let '(neg, l) := split_sign (bytes s) in
  match special neg (bool_decide (l ≠ bytes s)) l with
  | Some f => Ok f
  | None =>
      let '(hex, body) := match hex_prefix l with Some body => (true, body) | None => (false, l) end in
      let '(m, r) := take_mantissa hex (mkMantissa 0 None false false) body in
      if negb (mn_digits m) then Err []
      else
        match exponent (if hex then "p"%char else "e"%char) hex r with
        | Some (e, u, []) =>
            if (mn_under m || u) && negb (underscores hex (if hex then SeenDigit else SeenStart) body) then Err []
            else
              let e := e - (if hex then 4 else 1) * default 0 (mn_after m) in
              let base := if hex then 2 else 10 in
              match (if 0 <=? e then round64 neg (mn_value m * base ^ e) 1 else round64 neg (mn_value m) (base ^ (- e))) with
              | Some f => Ok f
              | None => Err []
              end
        | _ => Err []
        end
  end.

Example parse_float_ex :
  map ParseFloat ["0.1"; "-1e3"; "1_0.5"; "0x1p-2"; "1e400"; "4.9e-324"; "1e-400"; "1."; "."; "1e"; "+Inf"; "9007199254740993"] =
  [Ok (Float64.Fin 7205759403792794 (-56)); Ok (Float64.Fin (- 1000 * 2 ^ 43) (-43)); Ok (Float64.Fin (21 * 2 ^ 48) (-49));
   Ok (Float64.Fin (2 ^ 52) (-54)); Err []; Ok (Float64.Fin 1 (-1074)); Ok (Float64.Fin 0 0); Ok (Float64.Fin (2 ^ 52) (-52));
   Err []; Err []; Ok (Float64.Inf false); Ok (Float64.Fin (2 ^ 52) 1)].
Proof. vm_compute. reflexivity. Qed.

(** ** [FormatFloat(v, 'g', -1, 64)]: the fewest digits that read back *)

(** [n / d * 10^k] as a fraction. *)
Definition shift10 (n d k : Z) : Z * Z := if 0 <=? k then (n * 10 ^ k, d) else (n, d * 10 ^ (- k)).

(** The number of digits before the decimal point: the least [k] with [n / d < 10^k]. *)
Fixpoint point (fuel : nat) (k : Z) (n d : Z) : Z :=
  match fuel with
  | O => k
  | S fuel => let '(a, b) := shift10 n d (- k) in if a <? b then k else point fuel (k + 1) n d
  end.

(** The integer [c] such that [c * 10^s] is nearest to [n / d], then the one on the
    other side. *)
Definition neighbours (n d s : Z) : list Z :=
  let '(a, b) := shift10 n d (- s) in
  let c := round_div a b in
  if c =? a / b then [c; c + 1] else [c; c - 1].

Definition reads (c s : Z) : option Float64.t :=
  let '(a, b) := shift10 c 1 s in round64 false a b.

(** The first digit count whose decimals read back as [f = n / d]. *)
Fixpoint shortest (count : nat) (f : Float64.t) (n d s : Z) : Z * Z :=
  match count with
  | O => (round_div (shift10 n d (- s)).1 (shift10 n d (- s)).2, s)
  | S count =>
      match List.filter (λ c, bool_decide (reads c s = Some f)) (neighbours n d s) with
      | c :: _ => (c, s)
      | [] => shortest count f n d (s - 1)
      end
  end.

(** Significant digits and the position of the point, for a positive [m * 2^e]. *)
Definition decimal (m e : Z) : list ascii * Z :=
  let '(n, d) := shift m 1 e in
  let k := point 640 (-324) n d in
  let '(c, s) := shortest 16 (Float64.Fin m e) n d (k - 1) in
  let ds := bytes (pretty c) in
  (reverse (Time.strip_zeros (reverse ds)), s + Z.of_nat (length ds)).

(** [%e]: one digit, the rest after a point, an exponent of two digits or more. *)
Definition fmtE (ds : list ascii) (dp : Z) : list ascii :=
  let x := dp - 1 in
  take 1 ds ++ (if (1 <? length ds)%nat then "."%char :: drop 1 ds else []) ++
  "e"%char :: (if x <? 0 then "-"%char else "+"%char) :: bytes (Time.pad 2 (Z.abs x)).

(** [%f] with as many digits after the point as there are. *)
Definition fmtF (ds : list ascii) (dp : Z) : list ascii :=
  let p := Z.to_nat dp in
  (if dp <=? 0 then ["0"%char] else take p ds ++ replicate (p - length ds) "0"%char) ++
  (if Z.of_nat (length ds) <=? dp then [] else "."%char :: replicate (Z.to_nat (- dp)) "0"%char ++ drop p ds).

Definition fmtG (neg : bool) (ds : list ascii) (dp : Z) : string :=
  unbytes ((if neg then ["-"%char] else []) ++ if (dp - 1 <? -4) || (6 <=? dp - 1) then fmtE ds dp else fmtF ds dp).

Definition FormatFloat (f : Float64.t) : string :=
  match f with
  | Float64.NaN => "NaN"
  | Float64.Inf neg => if neg then "-Inf" else "+Inf"
  | Float64.NegZero => "-0"
  | Float64.Fin m e =>
      if m =? 0 then "0" else let '(ds, dp) := decimal (Z.abs m) e in fmtG (m <? 0) ds dp
  end.

(** A finite double in the form the arithmetic produces. *)
Definition canonical (f : Float64.t) : bool :=
  match f with
  | Float64.Fin m e =>
      ((m =? 0) && (e =? 0)) ||
      ((2 ^ 52 <=? Z.abs m) && (Z.abs m <? 2 ^ 53) && (-1074 <=? e) && (e <=? 971)) ||
      ((0 <? Z.abs m) && (Z.abs m <? 2 ^ 52) && (e =? -1074))
  | Float64.NegZero => true
  | _ => false
  end.

Example format_float_ex :
  map (λ s, FormatFloat <$> match ParseFloat s with Ok f => Some f | Err _ => None end)
    ["0.1"; "1000000"; "123456"; "-0.000012"; "524288.00048828125"; "5e-324"; "1.7976931348623157e308"; "100"; "0.3"; "2.2250738585072014e-308"; "0.0001"] =
  map Some ["0.1"; "1e+06"; "123456"; "-1.2e-05"; "524288.0004882812"; "5e-324"; "1.7976931348623157e+308"; "100"; "0.3";
            "2.2250738585072014e-308"; "0.0001"].
Proof. vm_compute. reflexivity. Qed.

(** ** Round trips *)

Lemma ParseBool_FormatBool b : ParseBool (FormatBool b) = Ok b.
Proof. by destruct b. Qed.

Lemma digits_forallb l : Forall digit l → forallb is_digit l = true.
Proof. intros H. apply forallb_forall. intros a Ha. apply is_digit_iff. rewrite Forall_forall in H. apply H. by apply list_elem_of_In. Qed.

Lemma digit_no_sign a : digit a → a ≠ "-"%char ∧ a ≠ "+"%char.
Proof. unfold digit. split; intros ->; vm_compute in H; lia. Qed.

Lemma split_sign_digits a l : digit a → split_sign (a :: l) = (false, a :: l).
Proof. intros [? ?]%digit_no_sign. unfold split_sign. by rewrite !bool_decide_eq_false_2. Qed.

Lemma ParseInt_FormatInt n : int64 n = true → ParseInt (FormatInt n) = Ok n.
Proof.
  unfold int64, ParseInt, FormatInt. intros [Hlo%Z.leb_le Hhi%Z.ltb_lt]%andb_true_iff.
  assert (bytes (pretty n) = (if n <? 0 then ["-"%char] else []) ++ bytes (pretty (Z.abs n))) as -> by by destruct n.
  destruct (pretty_spec (Z.abs n)) as (Hd & Hu & _); [lia|]. destruct (pretty_pos_head (Z.abs n)) as (a & l & E & Ha); [lia|].
  rewrite E in *. destruct (Z.ltb_spec n 0); cbn [app].
  - cbn [split_sign]. rewrite bool_decide_eq_true_2 by done. rewrite bool_decide_eq_false_2 by done. cbn [orb].
    rewrite digits_forallb by done. cbn [negb]. rewrite Hu, (proj2 (Z.leb_le _ _)) by lia. f_equal. lia.
  - rewrite split_sign_digits by done. rewrite bool_decide_eq_false_2 by done. cbn [orb].
    rewrite digits_forallb by done. cbn [negb]. rewrite Hu, (proj2 (Z.ltb_lt _ _)) by lia. f_equal. lia.
Qed.

Lemma leap_doy doe :
  0 <= doe < 146097 →
  let yoe := (doe - doe / 1460 + doe / 36524 - doe / 146096) / 365 in
  let doy := doe - (365 * yoe + yoe / 4 - yoe / 100) in
  doy = 365 → (yoe + 1) mod 4 = 0 ∧ ((yoe + 1) mod 100 ≠ 0 ∨ (yoe + 1) mod 400 = 0).
Proof.
  intros H yoe doy Hd. pose proof (yoe_range doe H) as Hy. fold yoe in Hy. subst doy.
  assert (yoe = (doe - doe / 1460 + doe / 36524 - doe / 146096) / 365) as E by done. clearbody yoe.
  Z.div_mod_to_equations. lia.
Qed.

(** The day within a March-based year, by its month. *)
Lemma march_month doy mp :
  0 <= mp <= 11 → 153 * mp <= 5 * doy + 2 < 153 * mp + 153 →
  1 <= doy - (153 * mp + 2) / 5 + 1 <= (if mp =? 11 then doy - 336 else if (mp =? 1) || (mp =? 3) || (mp =? 6) || (mp =? 8) then 30 else 31).
Proof.
  intros M H.
  assert (mp = 0 ∨ mp = 1 ∨ mp = 2 ∨ mp = 3 ∨ mp = 4 ∨ mp = 5 ∨ mp = 6 ∨ mp = 7 ∨ mp = 8 ∨ mp = 9 ∨ mp = 10 ∨ mp = 11) as Hin by lia.
  destruct_or! Hin; subst; cbn [Z.eqb Pos.eqb orb]; Z.div_mod_to_equations; lia.
Qed.

Lemma leap_era y k : is_leap (y + k * 400) = is_leap y.
Proof. unfold is_leap. replace ((y + k * 400) mod 4) with (y mod 4) by (Z.div_mod_to_equations; lia).
  replace ((y + k * 400) mod 100) with (y mod 100) by (Z.div_mod_to_equations; lia).
  by rewrite Z_mod_plus_full. Qed.

Lemma civil_date n : let '(y, m, d) := Time.civil n in day_number y m d = n ∧ 1 <= m <= 12 ∧ 1 <= d <= daysIn m y.
Proof.
  unfold Time.civil. set (z := n + 719468).
  pose proof (Z.mod_pos_bound z 146097 ltac:(done)) as B. pose proof (Z.div_mod z 146097 ltac:(done)) as E.
  set (doe := z mod 146097) in *. set (era := z / 146097) in *.
  pose proof (yoe_range doe B) as Y. pose proof (doy_range doe B) as D. pose proof (leap_doy doe B) as L. cbn zeta in D, L.
  set (yoe := (doe - doe / 1460 + doe / 36524 - doe / 146096) / 365) in *.
  set (doy := doe - (365 * yoe + yoe / 4 - yoe / 100)) in *.
  assert (doe = 365 * yoe + yoe / 4 - yoe / 100 + doy) as Edoe by (unfold doy; lia).
  clearbody doy yoe doe era. set (mp := (5 * doy + 2) / 153).
  assert (0 <= mp <= 11 ∧ 153 * mp <= 5 * doy + 2 < 153 * mp + 153) as [M M'] by (unfold mp; Z.div_mod_to_equations; lia).
  clearbody mp. pose proof (march_month doy mp M M') as Md. set (d := doy - (153 * mp + 2) / 5 + 1) in *.
  assert (∀ y m, m = (if mp <? 10 then mp + 3 else mp - 9) → y = yoe + era * 400 →
    day_number (if m <=? 2 then y + 1 else y) m d = n ∧ 1 <= m <= 12 ∧ 1 <= d <= daysIn m (if m <=? 2 then y + 1 else y)) as H; [|by apply H].
  intros y m Hm ->. split; [|split].
  - unfold day_number. replace (if m <=? 2 then (if m <=? 2 then yoe + era * 400 + 1 else yoe + era * 400) - 1 else if m <=? 2 then yoe + era * 400 + 1 else yoe + era * 400)
      with (yoe + era * 400) by (destruct (m <=? 2); lia).
    rewrite Z_div_plus_full, Z_mod_plus_full by done. rewrite (Z.div_small yoe 400), (Z.mod_small yoe 400) by lia.
    replace (if 2 <? m then m - 3 else m + 9) with mp by (destruct (Z.ltb_spec mp 10), (Z.ltb_spec 2 m); lia). unfold d. subst z. lia.
  - destruct (Z.ltb_spec mp 10); lia.
  - split; [lia|]. unfold daysIn. destruct (Z.eqb_spec mp 11) as [->|].
    + subst m. change (11 <? 10) with false. cbv iota. change (11 - 9) with 2. change (2 <=? 2) with true. change (2 =? 2) with true. cbv iota. replace (yoe + era * 400 + 1) with (yoe + 1 + era * 400) by lia. rewrite leap_era.
      unfold is_leap. destruct (Z.eq_dec doy 365) as [->|].
      * destruct (L eq_refl) as [-> L']. cbn.
        destruct (Z.eqb_spec ((yoe + 1) mod 100) 0), (Z.eqb_spec ((yoe + 1) mod 400) 0); cbn; lia.
      * case_match; lia.
    + revert Md. destruct (Z.ltb_spec mp 10); subst m; repeat (case_match; try lia).
Qed.

Lemma take_digits_pad w n r : (0 < w)%nat → 0 <= n < 10 ^ Z.of_nat w →
  take_digits w 0 (bytes (Time.pad w n) ++ r) = Some (n, r).
Proof.
  intros Hw Hn. destruct (pad_spec w n) as [Hd Hu]; [lia|]. pose proof (pad_length w n Hn Hw) as Hl.
  assert (∀ l x k, Forall digit l → length l = k → take_digits k x (l ++ r) = Some (foldl (λ n a, 10 * n + digit_val a) x l, r)) as H.
  { clear. induction l as [|a l IH]; intros x k Hd <-; simpl; [done|]. apply Forall_cons in Hd as [Ha%is_digit_iff Hd]. rewrite Ha. by apply IH. }
  rewrite (H _ _ w) by done. do 2 f_equal. exact Hu.
Qed.

Lemma expect_sep a r : expect a (bytes (String a "") ++ r) = Some r.
Proof. simpl. by rewrite bool_decide_eq_true_2. Qed.

Lemma span_digits_app l r : Forall digit l → ends_at (λ a, is_digit a = false) r → span_digits (l ++ r) = (l, r).
Proof.
  intros Hd He. induction l as [|a l IH]; simpl.
  - destruct r as [|b r]; [done|]. simpl in *. by rewrite He.
  - apply Forall_cons in Hd as [Ha%is_digit_iff Hd]. by rewrite Ha, IH.
Qed.

Lemma take_fraction_spec n : 0 <= n < 10 ^ 9 → take_fraction (bytes (Time.fraction 9 n) ++ ["Z"%char]) = (n, ["Z"%char]).
Proof.
  intros Hn. destruct (fraction_digits 9 n) as [[-> ->]|(l & _ & -> & Hd & Hl & Hv)]; [lia|done|done|].
  destruct l as [|a l]; [simpl in Hl; lia|]. cbn [app take_fraction]. rewrite bool_decide_eq_true_2 by done.
  pose proof Hd as Ha. apply Forall_cons in Ha as [Ha%is_digit_iff _]. rewrite Ha. cbn [orb andb].
  change (a :: l ++ ["Z"%char]) with ((a :: l) ++ ["Z"%char]). rewrite span_digits_app by done. f_equal.
  set (m := a :: l) in *. rewrite take_app_ge by lia. rewrite take_replicate. rewrite undigits_app, length_replicate.
  rewrite <-(app_nil_r (replicate _ _)), undigits_zeros. rewrite Nat.min_l by lia. unfold undigits at 2. simpl foldl. lia.
Qed.

(** An instant of the years 0 to 9999 reads back from its spelling. *)
Lemma Parse_Format x : 0 <= year x <= 9999 → Parse_RFC3339Nano (Time.Format_RFC3339Nano x) = Ok x.
Proof.
  unfold year, Time.Format_RFC3339Nano, Parse_RFC3339Nano. intros Hy.
  pose proof (civil_date (x / 10 ^ 9 / 86400)) as C.
  destruct (Time.civil (x / 10 ^ 9 / 86400)) as [[y m] d]. cbn [fst snd] in *. destruct C as (C & Hm & Hd).
  set (s := x / 10 ^ 9) in *.
  assert (0 <= s mod 86400 / 3600 < 24 ∧ 0 <= s mod 86400 / 60 mod 60 < 60 ∧ 0 <= s mod 86400 mod 60 < 60 ∧
          s mod 86400 = s mod 86400 / 3600 * 3600 + s mod 86400 / 60 mod 60 * 60 + s mod 86400 mod 60) as (Hh & Hi & Hs & Hsum)
    by (Z.div_mod_to_equations; lia).
  set (h := s mod 86400 / 3600) in *. set (i := s mod 86400 / 60 mod 60) in *. set (c := s mod 86400 mod 60) in *.
  assert (daysIn m y <= 31) as H31 by (unfold daysIn; repeat case_match; lia).
  pose proof (Z.mod_pos_bound x (10 ^ 9) ltac:(done)) as Hn.
  rewrite !bytes_app. unfold take_hour.
  repeat (rewrite take_digits_pad by lia; cbn [mbind option_bind]; try (rewrite expect_sep; cbn [mbind option_bind])).
  change (bytes "Z") with ["Z"%char]. rewrite take_fraction_spec by done. cbn -[Z.leb Z.ltb Z.mul Z.add Z.pow Z.opp Z.sub daysIn].
  rewrite !(proj2 (Z.leb_le _ _)), !(proj2 (Z.ltb_lt _ _)) by lia. cbn [andb]. f_equal. rewrite C.
  pose proof (Z.div_mod s 86400 ltac:(done)). pose proof (Z.div_mod x (10 ^ 9) ltac:(done)). fold s in H0. lia.
Qed.
