(* ===== verification/Netip.v ===== *)
(** * Addresses of the internet

    What the egress gate uses of Go's net/netip: addresses of both families with the
    zone of an IPv6 one, reading and printing them, the predicates on ranges, and
    prefixes.  An address that is printed reads back as itself ([ParseAddr_String]), so
    the text a dialler is handed names the address that was checked. *)
From stdpp Require Import pretty.
From Stdlib Require Import Ascii.
From S2P Require Import Prelude GoLib Policy Cel Engine Text Strconv.
#[local] Open Scope Z_scope.

(** ** Addresses *)

(** The zero [Addr], an IPv4 address of 32 bits, an IPv6 address of 128 bits with its
    zone, empty when it has none. *)
Inductive Addr := AddrZero | Addr4 (a : Z) | Addr6 (a : Z) (zone : string).

#[export] Instance Addr_eq_dec : EqDecision Addr.
Proof. solve_decision. Defined.

Definition IsValid (ip : Addr) : bool := negb (bool_decide (ip = AddrZero)).

(** The i-th byte of an IPv4 address, the i-th byte and 16-bit group of an IPv6 one. *)
Definition v4 (a i : Z) : Z := Z.land (Z.shiftr a (8 * (3 - i))) 255.
Definition v6 (a i : Z) : Z := Z.land (Z.shiftr a (8 * (15 - i))) 255.
Definition v6u16 (a i : Z) : Z := Z.land (Z.shiftr a (16 * (7 - i))) 65535.

Definition mapped (a : Z) : bool := Z.shiftr a 32 =? 65535.
Definition Is6 (ip : Addr) : bool := match ip with Addr6 _ _ => true | _ => false end.
Definition Is4In6 (ip : Addr) : bool := match ip with Addr6 a _ => mapped a | _ => false end.
Definition Unmap (ip : Addr) : Addr := match ip with Addr6 a _ => if mapped a then Addr4 (Z.land a (Z.ones 32)) else ip | _ => ip end.

Definition IsUnspecified (ip : Addr) : bool := bool_decide (ip = Addr4 0) || bool_decide (ip = Addr6 0 "").

Definition IsLinkLocalUnicast (ip : Addr) : bool :=
  match Unmap ip with
  | Addr4 a => (v4 a 0 =? 169) && (v4 a 1 =? 254)
  | Addr6 a _ => Z.land (v6u16 a 0) 65472 =? 65152
  | AddrZero => false
  end.
Definition IsLoopback (ip : Addr) : bool :=
  match Unmap ip with Addr4 a => v4 a 0 =? 127 | Addr6 a _ => a =? 1 | AddrZero => false end.
Definition IsMulticast (ip : Addr) : bool :=
  match Unmap ip with Addr4 a => Z.land (v4 a 0) 240 =? 224 | Addr6 a _ => v6 a 0 =? 255 | AddrZero => false end.
Definition IsInterfaceLocalMulticast (ip : Addr) : bool :=
  match Unmap ip with Addr6 a _ => Z.land (v6u16 a 0) 65295 =? 65281 | _ => false end.
Definition IsLinkLocalMulticast (ip : Addr) : bool :=
  match Unmap ip with
  | Addr4 a => (v4 a 0 =? 224) && (v4 a 1 =? 0) && (v4 a 2 =? 0)
  | Addr6 a _ => Z.land (v6u16 a 0) 65295 =? 65282
  | AddrZero => false
  end.
Definition IsPrivate (ip : Addr) : bool :=
  match Unmap ip with
  | Addr4 a => (v4 a 0 =? 10) || (v4 a 0 =? 172) && (Z.land (v4 a 1) 240 =? 16) || (v4 a 0 =? 192) && (v4 a 1 =? 168)
  | Addr6 a _ => Z.land (v6 a 0) 254 =? 252
  | AddrZero => false
  end.

(** ** Reading *)

(** [parseIPv4Fields]: the fields before the current one, the value of the current one
    and its digits. *)
Fixpoint v4_fields (fields : list Z) (val : Z) (digLen : nat) (s : list ascii) : option (list Z) :=
  match s with
  | [] => if (length fields <? 3)%nat then None else Some (fields ++ [val])
  | a :: s =>
      if is_digit a then
        if (digLen =? 1)%nat && (val =? 0) then None
        else
          let val := val * 10 + digit_val a in
          if 255 <? val then None else v4_fields fields val (S digLen) s
      else if bool_decide (a = "."%char) then
        if (digLen =? 0)%nat || bool_decide (s = []) then None
        else if (length fields =? 3)%nat then None
        else v4_fields (fields ++ [val]) 0 0 s
      else None
  end.

Definition octets (fields : list Z) : Z := foldl (λ n b, 256 * n + b) 0 fields.
Definition parseIPv4 (s : list ascii) : option Addr := fields ← v4_fields [] 0 0 s; Some (Addr4 (octets fields)).

Fixpoint span_hex (s : list ascii) : list Z * list ascii :=
  match s with
  | a :: s' => match hex_val a with Some d => let '(ds, r) := span_hex s' in (d :: ds, r) | None => ([], s) end
  | [] => ([], [])
  end.

(** The loop of [parseIPv6]: the groups read, where the ellipsis stands among them, and
    the text left; [room] is how many groups there is still place for. *)
Fixpoint v6_loop (room : nat) (groups : list Z) (ellipsis : option nat) (s : list ascii)
    : option (list Z * option nat * list ascii) :=
  match room with
  | O => Some (groups, ellipsis, s)
  | S room =>
      let '(ds, r) := span_hex s in
      if (length ds =? 0)%nat || (4 <? length ds)%nat then None
      else
        let acc := foldl (λ n d, 16 * n + d) 0 ds in
        match r with
        | a :: r' =>
            if bool_decide (a = "."%char) then
              if bool_decide (ellipsis = None) && negb (length groups =? 6)%nat then None
              else if (room =? 0)%nat then None
              else
                match v4_fields [] 0 0 s with
                | Some [b0; b1; b2; b3] => Some (groups ++ [256 * b0 + b1; 256 * b2 + b3], ellipsis, [])
                | _ => None
                end
            else
              let groups := groups ++ [acc] in
              if negb (bool_decide (a = ":"%char)) then None
              else match r' with
              | [] => None
              | b :: r'' =>
                  if bool_decide (b = ":"%char) then
                    match ellipsis with
                    | Some _ => None
                    | None => if bool_decide (r'' = []) then Some (groups, Some (length groups), [])
                              else v6_loop room groups (Some (length groups)) r''
                    end
                  else v6_loop room groups ellipsis r'
              end
        | [] => Some (groups ++ [acc], ellipsis, [])
        end
  end.

Definition ungroup (groups : list Z) : Z := foldl (λ n g, 65536 * n + g) 0 groups.

(** The ellipsis is expanded to the groups that are missing, at least one. *)
Definition v6_expand (groups : list Z) (ellipsis : option nat) : option (list Z) :=
  if (length groups <? 8)%nat then
    e ← ellipsis; Some (take e groups ++ replicate (8 - length groups) 0 ++ drop e groups)
  else match ellipsis with Some _ => None | None => Some groups end.

Fixpoint cut_at (c : ascii) (s : list ascii) : list ascii * option (list ascii) :=
  match s with
  | [] => ([], None)
  | a :: s => if bool_decide (a = c) then ([], Some s) else let '(b, r) := cut_at c s in (a :: b, r)
  end.

Definition parseIPv6 (text : list ascii) : option Addr :=
  let '(s, zone) := cut_at "%" text in
  if bool_decide (zone = Some []) then None
  else
    let z := unbytes (default [] zone) in
    let '(ellipsis, s) := match s with
                          | a :: b :: s' => if bool_decide (a = ":"%char) && bool_decide (b = ":"%char) then (Some O, s') else (None, s)
                          | _ => (None, s)
                          end in
    if bool_decide (ellipsis = Some O) && bool_decide (s = []) then Some (Addr6 0 z)
    else
      '(groups, ellipsis, rest) ← v6_loop 8 [] ellipsis s;
      if negb (bool_decide (rest = [])) then None
      else groups ← v6_expand groups ellipsis; Some (Addr6 (ungroup groups) z).

Fixpoint addr_family (s : list ascii) : option ascii :=
  match s with
  | [] => None
  | a :: s => if bool_decide (a = "."%char) || bool_decide (a = ":"%char) || bool_decide (a = "%"%char) then Some a else addr_family s
  end.

Definition ParseAddr (text : string) : option Addr :=
  let s := bytes text in
  match addr_family s with
  | Some a => if bool_decide (a = "."%char) then parseIPv4 s else if bool_decide (a = ":"%char) then parseIPv6 s else None
  | None => None
  end.

(** ** Printing *)

Definition hex_char (d : Z) : ascii := ascii_of_nat (if (d <? 10)%Z then 48 + Z.to_nat d else 87 + Z.to_nat d)%nat.
Definition appendHex (x : Z) : list ascii :=
  (if 4096 <=? x then [hex_char (x / 4096 mod 16)] else []) ++ (if 256 <=? x then [hex_char (x / 256 mod 16)] else []) ++
  (if 16 <=? x then [hex_char (x / 16 mod 16)] else []) ++ [hex_char (x mod 16)].

Definition groups_of (a : Z) : list Z := map (v6u16 a) [0; 1; 2; 3; 4; 5; 6; 7].

Fixpoint zero_run (gs : list Z) : nat := match gs with g :: gs => if g =? 0 then S (zero_run gs) else O | [] => O end.

(** The first of the longest runs of at least two zero groups: where it starts and how
    long it is. *)
Fixpoint longest_zeros (i : nat) (best : option (nat * nat)) (gs : list Z) : option (nat * nat) :=
  match gs with
  | [] => best
  | _ :: gs' =>
      let l := zero_run gs in
      let best := if (2 <=? l)%nat && (from_option snd 0 best <? l)%nat then Some (i, l) else best in
      longest_zeros (S i) best gs'
  end.

Fixpoint colons (gs : list Z) : list ascii :=
  match gs with
  | [] => []
  | g :: gs' => appendHex g ++ match gs' with [] => [] | _ => ":"%char :: colons gs' end
  end.

Definition string6 (gs : list Z) : list ascii :=
  match longest_zeros 0 None gs with
  | Some (start, l) => colons (take start gs) ++ [":"%char; ":"%char] ++ colons (drop (start + l) gs)
  | None => colons gs
  end.
Definition string4 (a : Z) : list ascii :=
  bytes (pretty (v4 a 0) +:+ "." +:+ pretty (v4 a 1) +:+ "." +:+ pretty (v4 a 2) +:+ "." +:+ pretty (v4 a 3)).
Definition zone_suffix (zone : string) : list ascii := if bool_decide (zone = "") then [] else "%"%char :: bytes zone.

Definition Addr_String (ip : Addr) : string :=
  match ip with
  | AddrZero => "invalid IP"
  | Addr4 a => unbytes (string4 a)
  | Addr6 a zone =>
      if mapped a then unbytes (bytes "::ffff:" ++ string4 (Z.land a (Z.ones 32)) ++ zone_suffix zone)
      else unbytes (string6 (groups_of a) ++ zone_suffix zone)
  end.

(** [netip.AddrPortFrom(ip, port).String()] of a valid address that is not mapped. *)
Definition AddrPort_String (ip : Addr) (port : Z) : string :=
  match ip with
  | Addr6 _ _ => "[" +:+ Addr_String ip +:+ "]:" +:+ pretty port
  | _ => Addr_String ip +:+ ":" +:+ pretty port
  end.

(** ** Prefixes *)

Record Prefix := mkPrefix { px_ip : Addr; px_bits : Z }.

(** An address with a zone is in no prefix. *)
Definition Prefix_Contains (p : Prefix) (ip : Addr) : bool :=
  match px_ip p, ip with
  | Addr4 b, Addr4 a => Z.shiftr (Z.lxor a b) (32 - px_bits p) =? 0
  | Addr6 b _, Addr6 a zone =>
      bool_decide (zone = "") && (Z.land (Z.lxor a b) (Z.shiftl (Z.ones (px_bits p)) (128 - px_bits p)) =? 0)
  | _, _ => false
  end.

Fixpoint cut_last (c : ascii) (s : list ascii) : option (list ascii * list ascii) :=
  match s with
  | [] => None
  | a :: s =>
      match cut_last c s with
      | Some (b, r) => Some (a :: b, r)
      | None => if bool_decide (a = c) then Some ([], s) else None
      end
  end.

Definition ParsePrefix (s : string) : option Prefix :=
  '(host, bits) ← cut_last "/" (bytes s);
  ip ← ParseAddr (unbytes host);
  let max := match ip with Addr4 _ => 32 | _ => 128 end in
  match ip with
  | Addr6 _ zone => if negb (bool_decide (zone = "")) then None else Some tt
  | _ => Some tt
  end;;
  match bits with
  | [] => None
  | a :: r =>
      if negb (forallb is_digit bits) || (bool_decide (a = "0"%char) && negb (bool_decide (r = []))) then None
      else if max <? undigits bits then None else Some (mkPrefix ip (undigits bits))
  end.

Example netip_ex :
  map ParseAddr ["169.254.169.254"; "::ffff:169.254.169.254"; "::1"; "1::8"; "fe80::1%eth0"; "1.2.3"; "01.2.3.4"; "::1::2"; "1:2:3:4:5:6:7:8:9"; "1:2:3:4:5:6:7::"; "::%"] =
    [Some (Addr4 2852039166); Some (Addr6 (65535 * 2 ^ 32 + 2852039166) ""); Some (Addr6 1 ""); Some (Addr6 (2 ^ 112 + 8) "");
     Some (Addr6 (65152 * 2 ^ 112 + 1) "eth0"); None; None; None; None; Some (Addr6 (ungroup [1; 2; 3; 4; 5; 6; 7; 0]) ""); None] ∧
  map Addr_String [Addr4 2852039166; Addr6 1 ""; Addr6 0 "x"; Addr6 (65535 * 2 ^ 32 + 1) ""; Addr6 (ungroup [8193; 3512; 0; 0; 1; 0; 0; 0]) ""] =
    ["169.254.169.254"; "::1"; "::%x"; "::ffff:0.0.0.1"; "2001:db8:0:0:1::"] ∧
  map ParsePrefix ["64:ff9b::/96"; "10.0.0.0/08"; "10.0.0.0/33"] =
    [Some (mkPrefix (Addr6 (ungroup [100; 65435; 0; 0; 0; 0; 0; 0]) "") 96); None; None].
Proof. vm_compute. done. Qed.

(** ** Addresses read back

    An address that is printed reads as itself, and prefixes are ranges of numbers. *)
#[local] Open Scope Z_scope.

(** What an [Addr] value holds. *)
Definition addr_wf (ip : Addr) : Prop :=
  match ip with AddrZero => True | Addr4 a => 0 <= a < 2 ^ 32 | Addr6 a _ => 0 <= a < 2 ^ 128 end.

(** ** Numbers and their parts *)

Lemma land_255 a i : Z.land (Z.shiftr a i) 255 = a / 2 ^ i mod 256 ∨ i < 0.
Proof. destruct (decide (i < 0)); [by right|left]. rewrite Z.shiftr_div_pow2 by lia. by rewrite (Z.land_ones _ 8) by lia. Qed.

Lemma v4_byte a i : 0 <= i <= 3 → v4 a i = a / 2 ^ (8 * (3 - i)) mod 256.
Proof. intros. unfold v4. destruct (land_255 a (8 * (3 - i))); [done|lia]. Qed.

Lemma v6_byte a i : 0 <= i <= 15 → v6 a i = a / 2 ^ (8 * (15 - i)) mod 256.
Proof. intros. unfold v6. destruct (land_255 a (8 * (15 - i))); [done|lia]. Qed.

Lemma v6u16_group a i : 0 <= i <= 7 → v6u16 a i = a / 2 ^ (16 * (7 - i)) mod 65536.
Proof. intros. unfold v6u16. rewrite Z.shiftr_div_pow2 by lia. by rewrite (Z.land_ones _ 16) by lia. Qed.

Lemma low32 a : Z.land a (Z.ones 32) = a mod 2 ^ 32.
Proof. rewrite Z.land_ones by lia. done. Qed.

Lemma mapped_iff a : mapped a = true ↔ a / 2 ^ 32 = 65535.
Proof. unfold mapped. rewrite Z.shiftr_div_pow2, Z.eqb_eq by lia. done. Qed.

Lemma Unmap_wf ip : addr_wf ip → addr_wf (Unmap ip).
Proof.
  destruct ip as [|a|a z]; [done..|]. intros Ha. unfold Unmap. destruct (mapped a); [|done]. unfold addr_wf. rewrite low32. by apply Z.mod_pos_bound.
Qed.

Lemma Unmap_Unmap ip : Unmap (Unmap ip) = Unmap ip.
Proof. destruct ip as [|a|a z]; [done..|]. unfold Unmap. destruct (mapped a) eqn:E; [done|]. by rewrite E. Qed.

Lemma octets_of a : 0 <= a < 2 ^ 32 → octets [v4 a 0; v4 a 1; v4 a 2; v4 a 3] = a.
Proof.
  intros Ha. rewrite !v4_byte by lia. change (8 * (3 - 0)) with (8 + (8 + 8)). change (8 * (3 - 1)) with (8 + 8).
  change (8 * (3 - 2)) with 8. change (8 * (3 - 3)) with 0. rewrite !(Z.pow_add_r 2) by lia. rewrite <-!Z.div_div by lia. rewrite Z.pow_0_r, Z.div_1_r.
  change (2 ^ 8) with 256. change (2 ^ 32) with 4294967296 in Ha. unfold octets. cbn [foldl]. Z.div_mod_to_equations. lia.
Qed.

Lemma ungroup_app gs hs : ungroup (gs ++ hs) = ungroup gs * 65536 ^ Z.of_nat (length hs) + ungroup hs.
Proof.
  unfold ungroup. rewrite foldl_app. generalize (foldl (λ n g, 65536 * n + g) 0 gs). clear gs.
  induction hs as [|h hs IH] using rev_ind; intros n; [simpl; lia|].
  rewrite !foldl_app, length_app. cbn [foldl length]. rewrite IH, Nat2Z.inj_add, Z.pow_add_r by lia. change (65536 ^ Z.of_nat 1) with 65536. lia.
Qed.

Lemma ungroup_groups a : 0 <= a < 2 ^ 128 → ungroup (groups_of a) = a.
Proof.
  intros Ha. assert (∀ n i, n = Z.to_nat i → 0 <= i <= 7 →
    ungroup (map (v6u16 a) (map Z.of_nat (seq 0 (S n)))) = a / 2 ^ (16 * (7 - i)) mod 2 ^ (16 * (i + 1))) as H.
  { induction n as [|n IH]; intros i Hi Hr.
    - assert (i = 0) as -> by lia. simpl. rewrite v6u16_group by lia. done.
    - replace (S n) with (n + 1)%nat by lia. rewrite seq_S, !map_app. unfold ungroup. rewrite foldl_app.
      fold (ungroup (map (v6u16 a) (map Z.of_nat (seq 0 (n + 1))))). replace (n + 1)%nat with (S n) by lia. rewrite (IH (i - 1)) by lia. cbn [map foldl].
      replace (Z.of_nat (0 + S n)) with i by lia. rewrite v6u16_group by lia.
      replace (16 * (7 - (i - 1))) with (16 * (7 - i) + 16) by lia. rewrite Z.pow_add_r, <-Z.div_div by lia. set (x := a / 2 ^ (16 * (7 - i))).
      replace (16 * (i + 1)) with (16 + 16 * (i - 1 + 1)) by lia. rewrite (Z.pow_add_r 2 16) by lia. change (2 ^ 16) with 65536.
      rewrite Z.rem_mul_r by lia. lia. }
  specialize (H 7%nat 7 eq_refl ltac:(lia)). change (map Z.of_nat (seq 0 8)) with [0; 1; 2; 3; 4; 5; 6; 7] in H. unfold groups_of. rewrite H.
  change (16 * (7 - 7)) with 0. change (2 ^ 0) with 1. rewrite Z.div_1_r. by rewrite Z.mod_small.
Qed.

Definition group (g : Z) : Prop := 0 <= g < 65536.
Lemma groups_range a : Forall group (groups_of a).
Proof.
  unfold groups_of. apply Forall_map, Forall_forall. intros i Hi. assert (0 <= i <= 7) by (repeat (apply elem_of_cons in Hi as [->|Hi]; [lia|]); by apply not_elem_of_nil in Hi).
  unfold group. simpl. rewrite v6u16_group by lia. by apply Z.mod_pos_bound.
Qed.

(** ** IPv4 *)

(** What the digits of one field come to. *)
Fixpoint v4_digits (val : Z) (digLen : nat) (s : list ascii) : option Z :=
  match s with
  | [] => Some val
  | a :: s =>
      if negb (is_digit a) || (digLen =? 1)%nat && (val =? 0) || (255 <? val * 10 + digit_val a) then None
      else v4_digits (val * 10 + digit_val a) (S digLen) s
  end.

Lemma v4_fields_digits fields s val digLen n rest : v4_digits val digLen s = Some n →
  v4_fields fields val digLen (s ++ rest) = v4_fields fields n (digLen + length s) rest.
Proof.
  revert val digLen. induction s as [|a s IH]; intros val digLen; cbn [v4_digits app v4_fields length]; [intros [= ->]; by rewrite Nat.add_0_r|].
  destruct (negb (is_digit a) || _) eqn:E; cbn [orb]; [done|]. apply orb_false_iff in E as [Ed Ez]. apply negb_false_iff in Ed. rewrite Ed, Ez.
  destruct (255 <? _); [done|]. intros H. rewrite (IH _ _ H). f_equal. lia.
Qed.

Lemma octet_digits n : 0 <= n <= 255 → v4_digits 0 0 (bytes (pretty n)) = Some n ∧ (0 < length (bytes (pretty n)))%nat.
Proof.
  intros Hn. assert (forallb (λ n, bool_decide (v4_digits 0 0 (bytes (pretty n)) = Some n) && (0 <? length (bytes (pretty n)))%nat) (map Z.of_nat (seq 0 256)) = true) as H
    by (vm_compute; reflexivity).
  rewrite forallb_true in H. specialize (H n). rewrite andb_true_iff, bool_decide_eq_true, Nat.ltb_lt in H. apply H. apply elem_of_map. exists (Z.to_nat n).
  split; [lia|]. apply elem_of_seq. lia.
Qed.

Lemma v4_octet fields n rest : 0 <= n <= 255 → ∃ k, (0 < k)%nat ∧
  v4_fields fields 0 0 (bytes (pretty n) ++ rest) = v4_fields fields n k rest.
Proof. intros [Hd Hl]%octet_digits. exists (length (bytes (pretty n))). split; [done|]. by apply v4_fields_digits. Qed.

(** An octet, a point, and more. *)
Lemma v4_octet_dot fields n s : 0 <= n <= 255 → (length fields < 3)%nat → s ≠ [] →
  v4_fields fields 0 0 (bytes (pretty n) ++ "."%char :: s) = v4_fields (fields ++ [n]) 0 0 s.
Proof.
  intros Hn Hf Hs. destruct (v4_octet fields n ("."%char :: s) Hn) as (k & Hk & ->). cbn [v4_fields].
  change (is_digit ".") with false. cbn iota. rewrite bool_decide_eq_true_2, (bool_decide_eq_false_2 (s = [])) by done.
  rewrite (proj2 (Nat.eqb_neq k 0)), (proj2 (Nat.eqb_neq _ 3)) by lia. done.
Qed.

Lemma v4_range a i : 0 <= i <= 3 → 0 <= v4 a i <= 255.
Proof. intros. rewrite v4_byte by done. pose proof (Z.mod_pos_bound (a / 2 ^ (8 * (3 - i))) 256 ltac:(lia)). lia. Qed.

Lemma pretty_nonempty n rest : 0 <= n → bytes (pretty n) ++ rest ≠ [].
Proof. intros H. destruct (pretty_pos_head n H) as (a & l & -> & _). done. Qed.

Lemma string4_fields a : v4_fields [] 0 0 (string4 a) = Some [v4 a 0; v4 a 1; v4 a 2; v4 a 3].
Proof.
  unfold string4. rewrite !bytes_app. change (bytes ".") with ["."%char]. cbn [app].
  pose proof (λ i, v4_range a i) as Hr. rewrite <-(app_nil_r (bytes (pretty (v4 a 3)))).
  do 3 (rewrite v4_octet_dot; [|apply Hr; lia|simpl; lia|apply pretty_nonempty; apply Hr; lia]).
  destruct (v4_octet [v4 a 0; v4 a 1; v4 a 2] (v4 a 3) [] ltac:(apply Hr; lia)) as (k & _ & H). cbn [app] in *. by rewrite H.
Qed.

(** ** IPv6 *)

Lemma hex_val_char d : 0 <= d < 16 → hex_val (hex_char d) = Some d ∧ hex_char d ≠ ":"%char ∧ hex_char d ≠ "."%char ∧ hex_char d ≠ "%"%char.
Proof.
  intros Hd. assert (forallb (λ d, bool_decide (hex_val (hex_char d) = Some d) && bool_decide (hex_char d ≠ ":"%char ∧ hex_char d ≠ "."%char ∧ hex_char d ≠ "%"%char))
    (map Z.of_nat (seq 0 16)) = true) as H by (vm_compute; reflexivity).
  rewrite forallb_true in H. specialize (H d). rewrite andb_true_iff, !bool_decide_eq_true in H. apply H. apply elem_of_map. exists (Z.to_nat d).
  split; [lia|]. apply elem_of_seq. lia.
Qed.

(** The digits of a group. *)
Definition hex_digits (x : Z) : list Z :=
  (if 4096 <=? x then [x / 4096 mod 16] else []) ++ (if 256 <=? x then [x / 256 mod 16] else []) ++ (if 16 <=? x then [x / 16 mod 16] else []) ++ [x mod 16].

Lemma appendHex_digits x : appendHex x = map hex_char (hex_digits x).
Proof. unfold appendHex, hex_digits. repeat case_match; done. Qed.

Lemma hex_digits_spec x : group x → Forall (λ d, 0 <= d < 16) (hex_digits x) ∧ (0 < length (hex_digits x) <= 4)%nat ∧ foldl (λ n d, 16 * n + d) 0 (hex_digits x) = x.
Proof.
  intros Hx. unfold group in Hx. unfold hex_digits. split_and!.
  - rewrite !Forall_app. split_and!; repeat case_match; repeat constructor; apply Z.mod_pos_bound; lia.
  - repeat case_match; simpl; lia.
  - repeat case_match; simpl; lia.
  - change 4096 with (16 * (16 * 16)). change 256 with (16 * 16). rewrite <-!Z.div_div by lia.
    destruct (16 * (16 * 16) <=? x) eqn:E1, (16 * 16 <=? x) eqn:E2, (16 <=? x) eqn:E3; cbn [app foldl]; Z.div_mod_to_equations; lia.
Qed.

(** Text that ends the digits of a group. *)
Definition hex_end (s : list ascii) : Prop := ends_at (λ a, hex_val a = None) s.

Lemma span_hex_app ds r : Forall (λ d, 0 <= d < 16) ds → hex_end r → span_hex (map hex_char ds ++ r) = (ds, r).
Proof.
  induction 1 as [|d ds Hd _ IH]; intros Hr; cbn [map app].
  - destruct r as [|a r]; [done|]. simpl in *. by rewrite Hr.
  - cbn [span_hex]. rewrite (proj1 (hex_val_char d Hd)), IH by done. done.
Qed.

Lemma span_hex_group x r : group x → hex_end r → span_hex (appendHex x ++ r) = (hex_digits x, r).
Proof. intros Hx Hr. rewrite appendHex_digits. apply span_hex_app; [apply (hex_digits_spec x Hx)|done]. Qed.

Lemma hex_digits_length x : group x → (length (hex_digits x) =? 0)%nat || (4 <? length (hex_digits x))%nat = false.
Proof. intros Hx. destruct (hex_digits_spec x Hx) as (_ & Hl & _). apply orb_false_iff. split; [apply Nat.eqb_neq|apply Nat.ltb_ge]; lia. Qed.

(** One step of the loop: the last group; a group and a colon; a group and the ellipsis. *)
Lemma v6_last room groups ellipsis x : group x →
  v6_loop (S room) groups ellipsis (appendHex x) = Some (groups ++ [x], ellipsis, []).
Proof.
  intros Hx. rewrite <-(app_nil_r (appendHex x)). cbn [v6_loop]. rewrite span_hex_group by done. rewrite hex_digits_length by done.
  by rewrite (proj2 (proj2 (hex_digits_spec x Hx))).
Qed.

Lemma v6_colon room groups ellipsis x y s : group x → group y →
  v6_loop (S room) groups ellipsis (appendHex x ++ ":"%char :: appendHex y ++ s) = v6_loop room (groups ++ [x]) ellipsis (appendHex y ++ s).
Proof.
  intros Hx Hy. cbn [v6_loop]. rewrite span_hex_group by done. rewrite hex_digits_length by done. rewrite (proj2 (proj2 (hex_digits_spec x Hx))).
  rewrite bool_decide_eq_false_2, (bool_decide_eq_true_2 (":"%char = ":"%char)) by done. cbn [negb].
  assert (∃ a r, appendHex y ++ s = a :: r ∧ a ≠ ":"%char) as (a & r & -> & Ha).
  { rewrite appendHex_digits. destruct (hex_digits_spec y Hy) as (Hd & Hl & _). destruct (hex_digits y) as [|d ds]; [simpl in Hl; lia|].
    apply Forall_cons in Hd as [Hd _]. eexists _, _. split; [done|]. apply (hex_val_char d Hd). }
  by rewrite bool_decide_eq_false_2.
Qed.

Lemma v6_ellipsis room groups x s : group x →
  v6_loop (S room) groups None (appendHex x ++ ":"%char :: ":"%char :: s) =
  if bool_decide (s = []) then Some (groups ++ [x], Some (length (groups ++ [x])), []) else v6_loop room (groups ++ [x]) (Some (length (groups ++ [x]))) s.
Proof.
  intros Hx. cbn [v6_loop]. rewrite span_hex_group by done. rewrite hex_digits_length by done. rewrite (proj2 (proj2 (hex_digits_spec x Hx))).
  rewrite bool_decide_eq_false_2, (bool_decide_eq_true_2 (":"%char = ":"%char)) by done. done.
Qed.

Lemma v6_colons gs room groups ellipsis : gs ≠ [] → Forall group gs → (length gs <= room)%nat →
  v6_loop room groups ellipsis (colons gs) = Some (groups ++ gs, ellipsis, []).
Proof.
  revert room groups. induction gs as [|x [|y gs] IH]; intros room groups Hne Hg Hl; [done|..]; destruct room as [|room]; simpl in Hl; try lia; apply Forall_cons in Hg as [Hx Hg].
  - cbn [colons]. rewrite app_nil_r. by apply v6_last.
  - change (colons (x :: y :: gs)) with (appendHex x ++ ":"%char :: colons (y :: gs)). apply Forall_cons in Hg as Hg'. destruct Hg' as [Hy _].
    assert (∃ s, colons (y :: gs) = appendHex y ++ s) as [s Hs] by (cbn [colons]; eauto). rewrite Hs, v6_colon by done. rewrite <-Hs.
    rewrite IH; [|done..|simpl; lia]. by rewrite <-app_assoc.
Qed.

(** Groups, the ellipsis, and more groups. *)
Lemma v6_around gs hs room groups : gs ≠ [] → Forall group gs → Forall group hs → (length gs + length hs <= room)%nat →
  v6_loop room groups None (colons gs ++ ":"%char :: ":"%char :: colons hs) = Some (groups ++ gs ++ hs, Some (length (groups ++ gs)), []).
Proof.
  revert room groups. induction gs as [|x [|y gs] IH]; intros room groups Hne Hg Hh Hl; [done|..]; destruct room as [|room]; simpl in Hl; try lia; apply Forall_cons in Hg as [Hx Hg].
  - cbn [colons]. rewrite app_nil_r. rewrite v6_ellipsis by done. destruct hs as [|h hs]; [by rewrite bool_decide_eq_true_2|].
    rewrite bool_decide_eq_false_2. { rewrite v6_colons; [|done..|simpl in *; lia]. by rewrite <-app_assoc. }
    cbn [colons]. rewrite appendHex_digits. apply Forall_cons in Hh as [Hh _]. destruct (hex_digits_spec h Hh) as (_ & Hl' & _). destruct (hex_digits h); [simpl in Hl'; lia|done].
  - change (colons (x :: y :: gs)) with (appendHex x ++ ":"%char :: colons (y :: gs)). apply Forall_cons in Hg as Hg'. destruct Hg' as [Hy _].
    rewrite <-app_assoc. cbn [app].
    assert (∃ s, colons (y :: gs) ++ ":"%char :: ":"%char :: colons hs = appendHex y ++ s) as [s Hs] by (cbn [colons]; rewrite <-app_assoc; eauto). rewrite Hs, v6_colon by done. rewrite <-Hs.
    rewrite IH; [|done..|simpl in *; lia]. by rewrite <-!app_assoc.
Qed.

Lemma zero_run_spec gs : take (zero_run gs) gs = replicate (zero_run gs) 0 ∧ (zero_run gs <= length gs)%nat.
Proof.
  induction gs as [|g gs [IHt IHl]]; [done|]. simpl. destruct (Z.eqb_spec g 0) as [->|_]; simpl; [|by split; [|lia]]. rewrite IHt. split; [done|lia].
Qed.

(** The run that is left out is one of zeros. *)
Lemma longest_zeros_spec all pre best gs start l : all = pre ++ gs →
  (∀ s k, best = Some (s, k) → (2 <= k)%nat ∧ take k (drop s all) = replicate k 0 ∧ (s + k <= length all)%nat) →
  longest_zeros (length pre) best gs = Some (start, l) →
  (2 <= l)%nat ∧ take l (drop start all) = replicate l 0 ∧ (start + l <= length all)%nat.
Proof.
  revert pre best. induction gs as [|g gs IH]; intros pre best Hall Hb Hl; [by apply Hb|]. cbn [longest_zeros] in Hl.
  replace (S (length pre)) with (length (pre ++ [g])) in Hl by (rewrite length_app; simpl; lia). apply IH in Hl; [done|by rewrite <-app_assoc|].
  intros s k. destruct (_ && _) eqn:E; [|by apply Hb]. apply andb_true_iff in E as [E _]. apply Nat.leb_le in E. intros [= <- <-].
  destruct (zero_run_spec (g :: gs)) as [Ht Hlen]. split; [done|]. rewrite Hall, drop_app_length. split; [done|]. rewrite length_app. simpl in *. lia.
Qed.

Lemma string6_shape gs : string6 gs = colons gs ∧ longest_zeros 0 None gs = None ∨
  ∃ pre l post, gs = pre ++ replicate l 0 ++ post ∧ (2 <= l)%nat ∧ string6 gs = colons pre ++ [":"%char; ":"%char] ++ colons post.
Proof.
  unfold string6. destruct (longest_zeros 0 None gs) as [[start l]|] eqn:E; [right|by left].
  apply (longest_zeros_spec gs []) in E as (Hl & Ht & Hb); [|done..]. exists (take start gs), l, (drop (start + l) gs). split_and!; [|done..].
  rewrite <-Ht, <-drop_drop, !take_drop. done.
Qed.

(** ** Reading what was printed *)

Lemma cut_at_none c s : c ∉ s → cut_at c s = (s, None).
Proof. induction s as [|a s IH]; intros Hn; [done|]. apply not_elem_of_cons in Hn as [Ha Hn]. simpl. rewrite bool_decide_eq_false_2 by done. by rewrite IH. Qed.
Lemma cut_at_some c s r : c ∉ s → cut_at c (s ++ c :: r) = (s, Some r).
Proof.
  induction s as [|a s IH]; intros Hn; simpl; [by rewrite bool_decide_eq_true_2|]. apply not_elem_of_cons in Hn as [Ha Hn]. rewrite bool_decide_eq_false_2 by done. by rewrite IH.
Qed.

Definition addr_char (a : ascii) : Prop := a ≠ "."%char ∧ a ≠ "%"%char.

Lemma appendHex_chars x : group x → Forall addr_char (appendHex x) ∧ ∃ a s, appendHex x = a :: s ∧ a ≠ ":"%char.
Proof.
  intros Hx. rewrite appendHex_digits. destruct (hex_digits_spec x Hx) as (Hd & Hl & _). split.
  - apply Forall_map. eapply Forall_impl; [done|]. intros d (_ & _ & ? & ?)%hex_val_char. done.
  - destruct (hex_digits x) as [|d ds]; [simpl in Hl; lia|]. apply Forall_cons in Hd as [Hd _]. eexists _, _. split; [done|]. apply (hex_val_char d Hd).
Qed.

Lemma colons_chars gs : Forall group gs → Forall addr_char (colons gs) ∧ (gs ≠ [] → ∃ a s, colons gs = a :: s ∧ a ≠ ":"%char).
Proof.
  induction 1 as [|x gs Hx Hg IH]; [by split; [constructor|]|]. destruct (appendHex_chars x Hx) as [Hc (a & s & Hs & Ha)]. split.
  - cbn [colons]. apply Forall_app. split; [done|]. destruct gs; [constructor|]. constructor; [done|]. apply IH.
  - intros _. cbn [colons]. rewrite Hs. by eexists _, _.
Qed.

Definition leading (s : list ascii) : option nat * list ascii :=
  match s with a :: b :: s' => if bool_decide (a = ":"%char) && bool_decide (b = ":"%char) then (Some O, s') else (None, s) | _ => (None, s) end.

Lemma leading_none a s : a ≠ ":"%char → leading (a :: s) = (None, a :: s).
Proof. intros Ha. destruct s; [done|]. simpl. by rewrite (bool_decide_eq_false_2 (a = ":"%char)). Qed.

(** The body of [parseIPv6], once the zone is off. *)
Definition v6_body (s : list ascii) (z : string) : option Addr :=
  let '(ellipsis, s) := leading s in
  if bool_decide (ellipsis = Some O) && bool_decide (s = []) then Some (Addr6 0 z)
  else
    '(groups, ellipsis, rest) ← v6_loop 8 [] ellipsis s;
    if negb (bool_decide (rest = [])) then None
    else groups ← v6_expand groups ellipsis; Some (Addr6 (ungroup groups) z).

Lemma v6_expand_around pre post l : (2 <= l)%nat → (length pre + l + length post = 8)%nat →
  v6_expand (pre ++ post) (Some (length pre)) = Some (pre ++ replicate l 0 ++ post).
Proof.
  intros Hl Hn. unfold v6_expand. rewrite length_app, (proj2 (Nat.ltb_lt _ _)) by lia. simpl. rewrite take_app_length, drop_app_length.
  by replace (8 - (length pre + length post))%nat with l by lia.
Qed.

Lemma v6_body_string gs z : length gs = 8%nat → Forall group gs → v6_body (string6 gs) z = Some (Addr6 (ungroup gs) z).
Proof.
  intros Hlen Hg. unfold v6_body. destruct (string6_shape gs) as [[-> _]|(pre & l & post & -> & Hl & ->)].
  - assert (gs ≠ []) as Hne by (by intros ->). destruct (proj2 (colons_chars gs Hg) Hne) as (a & s & Hs & Ha).
    pose proof (v6_colons gs 8 [] None Hne Hg ltac:(lia)) as Hloop. rewrite Hs in *. rewrite leading_none by done. cbn beta iota.
    rewrite bool_decide_eq_false_2 by done. cbn [andb]. rewrite Hloop. simpl. unfold v6_expand. rewrite Hlen. done.
  - rewrite !length_app, length_replicate in Hlen. rewrite !Forall_app in Hg. destruct Hg as (Hp & _ & Hq). destruct pre as [|p pre].
    + cbn [colons app leading]. rewrite !bool_decide_eq_true_2 by done. cbn [andb]. destruct post as [|q post].
      { cbn [colons]. rewrite bool_decide_eq_true_2 by done. simpl in Hlen. replace l with 8%nat by lia. done. }
      rewrite (bool_decide_eq_true_2 (Some 0%nat = Some 0%nat)), (bool_decide_eq_false_2 (colons (q :: post) = [])); [|..|done].
      { cbn [andb]. rewrite v6_colons by (try done; simpl in *; lia). cbn [mbind option_bind]. rewrite bool_decide_eq_true_2 by done. cbn [negb].
        pose proof (v6_expand_around [] (q :: post) l) as He. cbn [app length] in He. cbn [app]. rewrite He by (simpl in *; lia). done. }
      destruct (proj2 (colons_chars _ Hq) ltac:(done)) as (a & s & -> & _). done.
    + destruct (proj2 (colons_chars _ Hp) ltac:(done)) as (a & s & Hs & Ha).
      pose proof (v6_around (p :: pre) post 8 [] ltac:(done) Hp Hq ltac:(lia)) as Hloop. rewrite Hs in *. cbn [app] in *. rewrite leading_none by done. cbn beta iota.
      rewrite bool_decide_eq_false_2 by done. cbn [andb]. rewrite Hloop. simpl bool_decide. cbn [mbind option_bind negb].
      rewrite (bool_decide_eq_true_2 ([] = [])) by done. cbn [negb]. rewrite app_comm_cons. rewrite (v6_expand_around (p :: pre) post l) by (try done; simpl in *; lia). done.
Qed.

Lemma parseIPv6_body s zone : Forall addr_char s → parseIPv6 (s ++ zone_suffix zone) = v6_body s zone.
Proof.
  intros Hs. assert ("%"%char ∉ s) as Hn. { intros Hin. rewrite Forall_forall in Hs. by destruct (Hs _ Hin). }
  unfold parseIPv6, zone_suffix. case_bool_decide as Hz.
  - subst. rewrite app_nil_r, cut_at_none by done. done.
  - rewrite cut_at_some by done. rewrite bool_decide_eq_false_2.
    { cbn [default from_option id]. by rewrite unbytes_bytes. }
    intros [= E]. apply Hz. apply (f_equal unbytes) in E. by rewrite unbytes_bytes in E.
Qed.

Definition marks (a : ascii) : bool := bool_decide (a = "."%char) || bool_decide (a = ":"%char) || bool_decide (a = "%"%char).
Lemma addr_family_app s a r : Forall (λ a, marks a = false) s → marks a = true → addr_family (s ++ a :: r) = Some a.
Proof.
  intros Hs Ha. induction Hs as [|b s Hb _ IH]; unfold marks in *; simpl; [by rewrite Ha|by rewrite Hb].
Qed.

Lemma digit_no_mark a : digit a → marks a = false.
Proof. intros Hd. unfold marks. rewrite !bool_decide_eq_false_2; [done|..]; intros ->; unfold digit in Hd; vm_compute in Hd; lia. Qed.

Lemma string4_family a : addr_family (string4 a) = Some "."%char.
Proof.
  unfold string4. rewrite bytes_app. change (bytes ("." +:+ ?s)) with ("."%char :: bytes s). apply addr_family_app; [|done].
  eapply Forall_impl; [apply pretty_spec, (v4_range a 0); lia|]. apply digit_no_mark.
Qed.

Lemma group_no_mark x : group x → Forall (λ a, marks a = false) (appendHex x).
Proof.
  intros Hx. rewrite appendHex_digits. apply Forall_map. eapply Forall_impl; [apply (hex_digits_spec x Hx)|]. intros d (_ & ? & ? & ?)%hex_val_char.
  unfold marks. by rewrite !bool_decide_eq_false_2.
Qed.

Lemma string6_family gs r : (2 <= length gs)%nat → Forall group gs → addr_family (string6 gs ++ r) = Some ":"%char.
Proof.
  intros Hl Hg. assert (∀ gs r, gs ≠ [] → Forall group gs → (2 <= length gs)%nat ∨ (∃ r', r = ":"%char :: r') → addr_family (colons gs ++ r) = Some ":"%char) as Hc.
  { clear. intros gs r Hne Hg Hor. destruct gs as [|x gs]; [done|]. apply Forall_cons in Hg as [Hx _]. cbn [colons]. rewrite <-app_assoc.
    assert (∃ r', match gs with [] => [] | _ => ":"%char :: colons gs end ++ r = ":"%char :: r') as [r' ->].
    { destruct gs; [|by eexists]. destruct Hor as [?|[r' ->]]; [simpl in *; lia|by eexists]. }
    apply addr_family_app; [by apply group_no_mark|done]. }
  destruct (string6_shape gs) as [[-> _]|(pre & l & post & -> & _ & ->)]; [apply Hc; [intros ->; simpl in Hl; lia|done|by left]|].
  rewrite <-app_assoc. rewrite !Forall_app in Hg. destruct pre as [|x pre]; [done|]. apply Hc; [done|apply Hg|right; by eexists].
Qed.

Lemma string6_chars gs : Forall group gs → Forall addr_char (string6 gs).
Proof.
  intros Hg. destruct (string6_shape gs) as [[-> _]|(pre & l & post & -> & _ & ->)]; [by apply colons_chars|].
  rewrite !Forall_app in Hg. rewrite !Forall_app. split; [apply colons_chars, Hg|]. split; [by repeat constructor|apply colons_chars, Hg].
Qed.

(** An address that is not a mapped one reads back from its text. *)
Lemma ParseAddr_String ip : addr_wf ip → IsValid ip = true → Unmap ip = ip → ParseAddr (Addr_String ip) = Some ip.
Proof.
  intros Hwf Hv Hu. destruct ip as [|a|a zone]; [done|..]; unfold addr_wf in Hwf; unfold ParseAddr.
  - unfold Addr_String. rewrite bytes_unbytes, string4_family. rewrite bool_decide_eq_true_2 by done. unfold parseIPv4. rewrite string4_fields. cbn [mbind option_bind]. by rewrite octets_of.
  - unfold Addr_String. unfold Unmap in Hu. destruct (mapped a) eqn:E; [done|]. rewrite bytes_unbytes. pose proof (groups_range a) as Hg.
    rewrite string6_family by (try done; simpl; lia). rewrite bool_decide_eq_false_2, bool_decide_eq_true_2 by done.
    rewrite parseIPv6_body by (by apply string6_chars). rewrite v6_body_string by done. by rewrite ungroup_groups.
Qed.

(** ** Prefixes are ranges *)

Lemma lxor_high a b k : 0 <= k → Z.shiftr (Z.lxor a b) k = 0 ↔ a / 2 ^ k = b / 2 ^ k.
Proof. intros Hk. rewrite Z.shiftr_lxor, Z.lxor_eq_0_iff, !Z.shiftr_div_pow2 by done. done. Qed.

Lemma land_mask x n k : 0 <= n → 0 <= k → 0 <= x < 2 ^ (n + k) → Z.land x (Z.shiftl (Z.ones n) k) = 0 ↔ Z.shiftr x k = 0.
Proof.
  intros Hn Hk Hx. split; intros H; apply Z.bits_inj'; intros i Hi; rewrite Z.bits_0.
  - rewrite Z.shiftr_spec by done. destruct (decide (i < n)) as [Hi'|Hi'].
    + assert (Z.testbit (Z.land x (Z.shiftl (Z.ones n) k)) (i + k) = false) as Ht by (by rewrite H, Z.bits_0).
      rewrite Z.land_spec, Z.shiftl_spec in Ht by lia. replace (i + k - k) with i in Ht by lia. rewrite Z.ones_spec_low in Ht by lia. by rewrite andb_true_r in Ht.
    + destruct (decide (x = 0)) as [->|]; [apply Z.bits_0|]. apply Z.bits_above_log2; [lia|]. apply Z.log2_lt_pow2; [lia|].
      eapply Z.lt_le_trans; [apply Hx|]. apply Z.pow_le_mono_r; lia.
  - rewrite Z.land_spec. destruct (decide (i < k)); [rewrite Z.shiftl_spec_low by done; apply andb_false_r|].
    assert (Z.testbit (Z.shiftr x k) (i - k) = false) as Ht by (by rewrite H, Z.bits_0). rewrite Z.shiftr_spec in Ht by lia. replace (i - k + k) with i in Ht by lia. by rewrite Ht.
Qed.

Lemma contains4 b bits a : 0 <= bits <= 32 → Prefix_Contains (mkPrefix (Addr4 b) bits) (Addr4 a) = true ↔ a / 2 ^ (32 - bits) = b / 2 ^ (32 - bits).
Proof. intros Hb. unfold Prefix_Contains. cbn [px_ip px_bits]. rewrite Z.eqb_eq. apply lxor_high. lia. Qed.

Lemma contains6 b zb bits a zone : 0 <= bits <= 128 → 0 <= a < 2 ^ 128 → 0 <= b < 2 ^ 128 →
  Prefix_Contains (mkPrefix (Addr6 b zb) bits) (Addr6 a zone) = true ↔ zone = "" ∧ a / 2 ^ (128 - bits) = b / 2 ^ (128 - bits).
Proof.
  intros Hb Ha Hb'. unfold Prefix_Contains. cbn [px_ip px_bits]. rewrite andb_true_iff, bool_decide_eq_true, Z.eqb_eq, land_mask; [by rewrite lxor_high by lia|lia..|].
  replace (bits + (128 - bits)) with 128 by lia. split; [apply Z.lxor_nonneg; lia|]. destruct (decide (Z.lxor a b = 0)) as [->|Hne]; [by vm_compute|].
  assert (0 <= Z.lxor a b) by (apply Z.lxor_nonneg; lia). apply Z.log2_lt_pow2; [lia|]. pose proof (Z.log2_lxor a b ltac:(lia) ltac:(lia)).
  assert (∀ x, 0 <= x < 2 ^ 128 → Z.log2 x < 128) as Hlog. { intros x Hx. destruct (decide (x = 0)) as [->|]; [by vm_compute|]. apply Z.log2_lt_pow2; lia. }
  pose proof (Hlog a Ha). pose proof (Hlog b Hb'). lia.
Qed.
