(* ===== verification/Url.v ===== *)
(** * URLs

    What the program uses of Go's net/url and net: the parts of a URL, its host and
    port, query strings, and host:port pairs.  Reading and printing a whole URL is the
    class [NetURL].  A query string that was encoded reads back ([ParseQuery_Encode]). *)
From stdpp Require Import pretty.
From Stdlib Require Import Ascii.
From S2P Require Import Prelude GoLib Policy Text Strconv Netip.

(** ** URLs *)

Record URL := mkURL {
  u_Scheme : string; u_Opaque : string; u_User : option string; u_Host : string; u_Path : string;
  u_RawQuery : string; u_Fragment : string }.

Definition with_RawQuery (u : URL) (q : string) : URL :=
  mkURL (u_Scheme u) (u_Opaque u) (u_User u) (u_Host u) (u_Path u) q (u_Fragment u).

Definition validOptionalPort (port : list ascii) : bool :=
  match port with [] => true | a :: ds => bool_decide (a = ":"%char) && forallb is_digit ds end.

(** The brackets around an IPv6 address come off. *)
Definition unbracket (s : list ascii) : list ascii :=
  match s with
  | a :: s' => match reverse s' with
               | b :: r => if bool_decide (a = "["%char) && bool_decide (b = "]"%char) then reverse r else s
               | [] => s
               end
  | [] => []
  end.

Definition url_splitHostPort (hostPort : string) : string * string :=
  let s := bytes hostPort in
  let '(host, port) := match cut_last ":" s with
                       | Some (h, p) => if forallb is_digit p then (h, p) else (s, [])
                       | None => (s, [])
                       end in
  (unbytes (unbracket host), unbytes port).

Definition Hostname (u : URL) : string := (url_splitHostPort (u_Host u)).1.
Definition Port (u : URL) : string := (url_splitHostPort (u_Host u)).2.

(** [strconv.ParseUint(s, 10, 16)]. *)
Definition ParseUint16 (s : string) : option Z :=
  let l := bytes s in
  if bool_decide (l = []) || negb (forallb is_digit l) then None
  else if (undigits l <? 65536)%Z then Some (undigits l) else None.

(** [net.SplitHostPort]. *)
Definition SplitHostPort (hostport : string) : option (string * string) :=
  let s := bytes hostport in
  '(before, port) ← cut_last ":" s;
  match before with
  | a :: r =>
      if bool_decide (a = "["%char) then
        match cut_at "]" r with
        | (host, Some []) =>
            if bool_decide ("["%char ∈ r ++ port) || bool_decide ("]"%char ∈ port) then None else Some (unbytes host, unbytes port)
        | _ => None
        end
      else if bool_decide (":"%char ∈ before) || bool_decide ("["%char ∈ s) || bool_decide ("]"%char ∈ s) then None
      else Some (unbytes before, unbytes port)
  | [] => if bool_decide ("["%char ∈ s) || bool_decide ("]"%char ∈ s) then None else Some ("", unbytes port)
  end.

Example hosts_ex :
  map url_splitHostPort ["h:80"; "[::1]:443"; "[::1]"; "h"; "::1"] = [("h", "80"); ("::1", "443"); ("::1", ""); ("h", ""); (":", "1")] ∧
  map SplitHostPort ["h:80"; "[::1%eth0]:443"; "::1:80"; "h"; "[::1]"; "[a]b:1"] = [Some ("h", "80"); Some ("::1%eth0", "443"); None; None; None; None].
Proof. vm_compute. done. Qed.

(** ** Query strings *)

(** [url.Values]: the values of each key, in order. *)
Notation Values := (gmap string (list string)).

Definition Values_Del (q : Values) (key : string) : Values := delete key q.
Definition Values_Set (q : Values) (key value : string) : Values := <[key := [value]]> q.
Definition Values_Add (q : Values) (key value : string) : Values := <[key := default [] (q !! key) ++ [value]]> q.

Definition upper_hex (d : Z) : ascii := ascii_of_nat (if (d <? 10)%Z then 48 + Z.to_nat d else 55 + Z.to_nat d).
Definition unreserved (a : ascii) : bool :=
  is_digit a || in_range a 65 90 || in_range a 97 122 || contains ["-"; "_"; "."; "~"]%char a.

Definition escape_byte (a : ascii) : list ascii :=
  if unreserved a then [a]
  else if bool_decide (a = " "%char) then ["+"%char]
  else let n := Z.of_nat (nat_of_ascii a) in ["%"%char; upper_hex (n / 16); upper_hex (n mod 16)].
Definition QueryEscape (s : string) : list ascii := concat (map escape_byte (bytes s)).

(** A percent sign starts two hexadecimal digits; a plus is a space. *)
Fixpoint unescape (s : list ascii) : option (list ascii) :=
  match s with
  | [] => Some []
  | a :: s =>
      if bool_decide (a = "%"%char) then
        match s with
        | h :: l :: s => match hex_val h, hex_val l with
                         | Some x, Some y => r ← unescape s; Some (ascii_of_nat (Z.to_nat (16 * x + y)) :: r)
                         | _, _ => None
                         end
        | _ => None
        end
      else r ← unescape s; Some ((if bool_decide (a = "+"%char) then " "%char else a) :: r)
  end.
Definition QueryUnescape (s : list ascii) : option string := r ← unescape s; Some (unbytes r).

Fixpoint split_on (c : ascii) (s : list ascii) : list (list ascii) :=
  match s with
  | [] => [[]]
  | a :: s =>
      if bool_decide (a = c) then [] :: split_on c s
      else match split_on c s with p :: ps => (a :: p) :: ps | [] => [[a]] end
  end.

(** One piece: a pair it stands for, if it is well formed. *)
Definition query_piece (p : list ascii) : option (string * string) :=
  if bool_decide (";"%char ∈ p) || bool_decide (p = []) then None
  else let '(k, v) := cut_at "=" p in
    key ← QueryUnescape k; value ← QueryUnescape (default [] v); Some (key, value).

(** [ParseQuery], and [URL.Query], which drops the errors. *)
Definition ParseQuery (query : string) : Values :=
  foldl (λ q p, match query_piece p with Some (k, v) => Values_Add q k v | None => q end) ∅ (split_on "&" (bytes query)).
Definition URL_Query (u : URL) : Values := ParseQuery (u_RawQuery u).

Fixpoint join (sep : ascii) (ps : list (list ascii)) : list ascii :=
  match ps with [] => [] | [p] => p | p :: ps => p ++ sep :: join sep ps end.

Definition sorted_pairs (q : Values) : list (string * list string) := sort_by fst String.le (map_to_list q).
Definition pair_text (k v : string) : list ascii := QueryEscape k ++ "="%char :: QueryEscape v.
Definition Values_Encode (q : Values) : string :=
  unbytes (join "&" (concat (map (λ kv, map (pair_text kv.1) kv.2) (sorted_pairs q)))).

Example query_ex : Values_Encode (ParseQuery "b=2&a=x+y%26z&b=%41&bad=%zz&c;d&e") = "a=x+y%26z&b=2&b=A&e=".
Proof. vm_compute. reflexivity. Qed.

(** ** Reading and printing *)

(** [url.Parse], [URL.String], [URL.EscapedPath] and the host:port pair net/http dials for a URL.  A URL
    that was read and is printed with an encoded query instead of its own reads back with the
    scheme, host and credentials it had and that query: an encoded query has none of the
    characters, such as a number sign, that end a query or make a URL unreadable
    ([QueryEscape_plain]). *)
Class NetURL := {
  url_Parse : string → option URL;
  URL_String : URL → string;
  canonicalAddr : URL → string;
  EscapedPath : URL → string;
  url_reparse : ∀ raw u (values : Values), url_Parse raw = Some u → let q := Values_Encode values in
    ∃ u', url_Parse (URL_String (with_RawQuery u q)) = Some u' ∧ u_Scheme u' = u_Scheme u ∧ u_Host u' = u_Host u ∧ u_User u' = u_User u ∧ u_RawQuery u' = q }.

(** ** What was encoded reads back *)

Lemma upper_hex_val d : (0 <= d < 16)%Z → hex_val (upper_hex d) = Some d.
Proof.
  intros Hd. assert (forallb (λ d, bool_decide (hex_val (upper_hex d) = Some d)) (map Z.of_nat (seq 0 16)) = true) as H by (vm_compute; reflexivity).
  rewrite forallb_true in H. specialize (H d). rewrite bool_decide_eq_true in H. apply H. apply elem_of_map. exists (Z.to_nat d).
  split; [lia|]. apply elem_of_seq. lia.
Qed.

(** What is escaped has letters, digits and - _ . ~ + % only. *)
Lemma QueryEscape_plain s a : a ∈ QueryEscape s → unreserved a = true ∨ a = "+"%char ∨ a = "%"%char.
Proof.
  unfold QueryEscape. intros Ha. apply list_elem_of_In, in_concat in Ha as (l & Hl & Ha). apply in_map_iff in Hl as (b & <- & _).
  assert (forallb (λ n, forallb (λ b, unreserved b || bool_decide (b = "+"%char) || bool_decide (b = "%"%char)) (escape_byte (ascii_of_nat n))) (seq 0 256) = true) as H by (vm_compute; reflexivity).
  rewrite forallb_true in H. specialize (H (nat_of_ascii b)). rewrite ascii_nat_embedding in H.
  assert (nat_of_ascii b ∈ seq 0 256) as Hb by (apply elem_of_seq; pose proof (nat_ascii_bounded b); lia).
  specialize (H Hb). rewrite forallb_true in H. apply list_elem_of_In, H in Ha. rewrite !orb_true_iff, !bool_decide_eq_true in Ha. tauto.
Qed.

(** The characters with a meaning in a query. *)
Definition query_mark (a : ascii) : Prop := a ∈ ["&"; "="; ";"]%char.

Lemma escape_byte_marks a b : b ∈ escape_byte a → ¬ query_mark b.
Proof.
  assert (forallb (λ n, forallb (λ b, negb (bool_decide (b ∈ ["&"; "="; ";"]%char))) (escape_byte (ascii_of_nat n))) (seq 0 256) = true) as H by (vm_compute; reflexivity).
  rewrite forallb_true in H. intros Hb Hm. specialize (H (nat_of_ascii a)). rewrite ascii_nat_embedding in H.
  assert (nat_of_ascii a ∈ seq 0 256) as Ha by (apply elem_of_seq; pose proof (nat_ascii_bounded a); lia).
  specialize (H Ha). rewrite forallb_true in H. specialize (H b Hb). rewrite bool_decide_eq_true_2 in H; done.
Qed.

Lemma unescape_byte a s : unescape (escape_byte a ++ s) = r ← unescape s; Some (a :: r).
Proof.
  unfold escape_byte. destruct (unreserved a) eqn:E.
  - cbn [app unescape]. rewrite !bool_decide_eq_false_2; [done|intros ->; done..].
  - case_bool_decide as Hsp; [by subst|]. cbn [app unescape]. rewrite bool_decide_eq_true_2 by done.
    pose proof (nat_ascii_bounded a) as Hn. set (n := Z.of_nat (nat_of_ascii a)). assert (0 <= n < 256)%Z as Hr by lia.
    rewrite (upper_hex_val (n / 16)), (upper_hex_val (n mod 16)) by (Z.div_mod_to_equations; lia).
    replace (16 * (n / 16) + n mod 16)%Z with n by (Z.div_mod_to_equations; lia). unfold n.
    rewrite Nat2Z.id, ascii_nat_embedding. done.
Qed.

Lemma QueryUnescape_Escape s : QueryUnescape (QueryEscape s) = Some s.
Proof.
  unfold QueryUnescape, QueryEscape. assert (∀ l, unescape (concat (map escape_byte l)) = Some l) as ->.
  { induction l as [|a l IH]; [done|]. cbn [map concat]. rewrite unescape_byte, IH. done. }
  cbn [mbind option_bind]. by rewrite unbytes_bytes.
Qed.

Lemma QueryEscape_marks s a : a ∈ QueryEscape s → ¬ query_mark a.
Proof.
  unfold QueryEscape. intros Ha. apply list_elem_of_In, in_concat in Ha as (l & Hl & Ha). apply in_map_iff in Hl as (b & <- & _).
  by eapply escape_byte_marks, list_elem_of_In.
Qed.

Lemma pair_text_piece k v : query_piece (pair_text k v) = Some (k, v) ∧ "&"%char ∉ pair_text k v.
Proof.
  unfold pair_text. pose proof (QueryEscape_marks k) as Hk. pose proof (QueryEscape_marks v) as Hv. unfold query_mark in *. split.
  - unfold query_piece. rewrite bool_decide_eq_false_2, (bool_decide_eq_false_2 (_ = [])).
    + cbn [orb]. rewrite cut_at_some by (intros H; by apply (Hk _ H); set_solver). cbn [default from_option id]. rewrite !QueryUnescape_Escape. done.
    + by destruct (QueryEscape k).
    + rewrite elem_of_app, elem_of_cons. intros [H|[H|H]]; [by apply (Hk _ H); set_solver|done|by apply (Hv _ H); set_solver].
  - rewrite elem_of_app, elem_of_cons. intros [H|[H|H]]; [by apply (Hk _ H); set_solver|done|by apply (Hv _ H); set_solver].
Qed.

Lemma split_on_none c p : c ∉ p → split_on c p = [p].
Proof.
  induction p as [|a p IH]; intros Hn; [done|]. apply not_elem_of_cons in Hn as [Ha Hn]. simpl. rewrite bool_decide_eq_false_2 by done. by rewrite IH.
Qed.

Lemma split_on_app c p s : c ∉ p → split_on c (p ++ c :: s) = p :: split_on c s.
Proof.
  induction p as [|a p IH]; intros Hn; simpl; [by rewrite bool_decide_eq_true_2|].
  apply not_elem_of_cons in Hn as [Ha Hn]. rewrite bool_decide_eq_false_2 by done. by rewrite IH.
Qed.

Lemma split_on_join c ps : ps ≠ [] → Forall (λ p, c ∉ p) ps → split_on c (join c ps) = ps.
Proof.
  intros Hne Hp. induction Hp as [|p ps Hp _ IH]; [done|]. destruct ps as [|p' ps]; [by apply split_on_none|].
  change (join c (p :: p' :: ps)) with (p ++ c :: join c (p' :: ps)). rewrite split_on_app by done. by rewrite IH.
Qed.

Definition add_pair (q : Values) (kv : string * string) : Values := Values_Add q kv.1 kv.2.

Lemma add_values q k vs : vs ≠ [] → foldl add_pair q (map (pair k) vs) = <[k := default [] (q !! k) ++ vs]> q.
Proof.
  revert q. induction vs as [|v vs IH]; intros q Hne; [done|]. destruct vs as [|w vs]; [done|].
  change (foldl add_pair q (map (pair k) (v :: w :: vs))) with (foldl add_pair (add_pair q (k, v)) (map (pair k) (w :: vs))).
  rewrite IH by done. unfold add_pair, Values_Add. cbn [fst snd]. rewrite lookup_insert_eq, insert_insert_eq. cbn [default from_option id]. by rewrite <-app_assoc.
Qed.

Definition flatten (l : list (string * list string)) : list (string * string) := concat (map (λ kv, map (pair kv.1) kv.2) l).

Lemma add_flatten (l : list (string * list string)) (q : Values) : NoDup (map fst l) → Forall (λ kv, kv.2 ≠ []) l → (∀ kv, kv ∈ l → q !! kv.1 = None) →
  foldl add_pair q (flatten l) = list_to_map l ∪ q.
Proof.
  revert q. induction l as [|[k vs] l IH]; intros q Hnd Hne Hq; [simpl; by rewrite map_empty_union|].
  cbn [map fst] in Hnd. apply NoDup_cons in Hnd as [Hk Hnd]. apply Forall_cons in Hne as [Hvs Hne]. unfold flatten. cbn [map concat fst snd]. rewrite foldl_app.
  rewrite add_values by done. assert (q !! k = None) as -> by (apply (Hq (k, vs)); set_solver). cbn [default from_option id app]. fold (flatten l). rewrite IH; [|done..|].
  - simpl. rewrite <-insert_union_l, <-insert_union_r; [done|]. apply not_elem_of_list_to_map_1. done.
  - intros [k' vs'] Hin. rewrite lookup_insert_ne; [apply (Hq (k', vs')); set_solver|]. intros ->. apply Hk, elem_of_map. by exists (k', vs').
Qed.

(** Values without a key that has none. *)
Definition values_wf (q : Values) : Prop := ∀ k vs, q !! k = Some vs → vs ≠ [].

Lemma ParseQuery_Encode q : values_wf q → ParseQuery (Values_Encode q) = q.
Proof.
  intros Hq. unfold ParseQuery, Values_Encode. rewrite bytes_unbytes.
  assert (concat (map (λ kv, map (pair_text kv.1) kv.2) (sorted_pairs q)) = map (λ kv, pair_text kv.1 kv.2) (flatten (sorted_pairs q))) as ->.
  { unfold flatten. rewrite concat_map, map_map. f_equal. apply map_ext. intros kv. by rewrite map_map. }
  assert (∀ (l : list (string * string)) q, foldl (λ q p, match query_piece p with Some (k, v) => Values_Add q k v | None => q end) q (map (λ kv, pair_text kv.1 kv.2) l) = foldl add_pair q l) as Hfold.
  { induction l as [|[k v] l IH]; intros q'; [done|]. cbn [map foldl fst snd]. rewrite (proj1 (pair_text_piece k v)). apply IH. }
  destruct (flatten (sorted_pairs q)) as [|kv l] eqn:E.
  - simpl. symmetry. apply map_empty. intros k. destruct (q !! k) as [vs|] eqn:Ek; [|done]. exfalso.
    assert ((k, vs) ∈ sorted_pairs q) as Hin by (by apply elem_of_sort_by, elem_of_map_to_list). destruct vs as [|v vs]; [by apply (Hq k [])|].
    assert ((k, v) ∈ flatten (sorted_pairs q)) as Hf; [|rewrite E in Hf; by apply not_elem_of_nil in Hf].
    unfold flatten. apply list_elem_of_In, in_concat. eexists. split; [apply in_map_iff; exists (k, v :: vs); split; [done|by apply list_elem_of_In]|by left].
  - rewrite split_on_join; [|done|]. { rewrite Hfold, <-E. rewrite add_flatten.
      - rewrite map_union_empty. unfold sorted_pairs. rewrite (list_to_map_proper _ (map_to_list q)); [apply list_to_map_to_list| |apply sort_by_Permutation].
        change (map fst ?l) with (l.*1). rewrite sort_by_Permutation. apply NoDup_fst_map_to_list.
      - change (map fst ?l) with (l.*1). unfold sorted_pairs. rewrite sort_by_Permutation. apply NoDup_fst_map_to_list.
      - apply Forall_forall. intros [k vs] Hin. apply elem_of_sort_by, elem_of_map_to_list in Hin. by eapply Hq.
      - intros. apply lookup_empty. }
    apply Forall_map, Forall_forall. intros [k v] _. apply pair_text_piece.
Qed.
