(* ===== verification/Encode.v ===== *)
(** * Writing policy documents

    The tree gopkg.in/yaml.v3 reads and writes ([yaml.Node]: kind, tag, value and
    content; positions and styles are left out), and what the program relies on of
    that package: a stream the encoder wrote reads back as the same documents.  Then the
    first half of internal/policy/codec.go: the encoder, from a policy set to a list of
    such trees. *)
From Stdlib Require Import Ascii.
From S2P Require Import Prelude GoLib Policy.
Import Strings.

Inductive ykind := DocumentNode | SequenceNode | MappingNode | ScalarNode | AliasNode.

#[export] Instance ykind_eq_dec : EqDecision ykind.
Proof. solve_decision. Defined.

(** A mapping's content alternates keys and values. *)
Inductive ynode := YNode (kind : ykind) (tag value : string) (content : list ynode).

Definition Kind (n : ynode) : ykind := let 'YNode k _ _ _ := n in k.
Definition Tag (n : ynode) : string := let 'YNode _ t _ _ := n in t.
Definition Value (n : ynode) : string := let 'YNode _ _ v _ := n in v.
Definition Content (n : ynode) : list ynode := let 'YNode _ _ _ c := n in c.

(** The loop [for i := 0; i+1 < len(Content); i += 2]. *)
Fixpoint entries (content : list ynode) : list (ynode * ynode) :=
  match content with k :: v :: rest => (k, v) :: entries rest | _ => [] end.

(** A Go map from keys to nodes filled in that order: the last entry of a key counts. *)
Definition present (es : list (ynode * ynode)) (key : string) : option ynode :=
  foldl (λ found kv, if bool_decide (Value kv.1 = key) then Some kv.2 else found) None es.

Section induction.
Context (P : ynode → Prop) (H : ∀ k t v c, Forall P c → P (YNode k t v c)).
Fixpoint ynode_nested_ind (n : ynode) : P n :=
  match n with
  | YNode k t v c =>
      H k t v c ((fix go l : Forall P l :=
        match l with
        | [] => List.Forall_nil P
        | x :: l => List.Forall_cons P x l (ynode_nested_ind x) (go l)
        end) c)
  end.
End induction.

#[export] Instance ynode_eq_dec : EqDecision ynode.
Proof.
  refine (fix go n1 n2 : base.Decision (n1 = n2) :=
    match n1, n2 with
    | YNode k1 t1 v1 c1, YNode k2 t2 v2 c2 =>
        match decide (k1 = k2), decide (t1 = t2), decide (v1 = v2), @list_eq_dec _ go c1 c2 with
        | left _, left _, left _, left _ => left _
        | _, _, _, _ => right _
        end
    end); congruence.
Defined.

(** The depth of a tree, which bounds the recursion of whoever walks it. *)
Fixpoint depth (n : ynode) : nat := let 'YNode _ _ _ c := n in S (foldr Nat.max 0%nat (map depth c)).

(** The tag the parser gives a node that was written without one. *)
Fixpoint resolved (n : ynode) : ynode :=
  let 'YNode k t v c := n in
  YNode k (match k, t with MappingNode, "" => "!!map" | SequenceNode, "" => "!!seq" | _, _ => t end) v (map resolved c).

(** [yaml.NewEncoder] over a list of documents, and the documents [yaml.NewDecoder]
    gives before the end of the stream, or before the error when the flag is set. *)
Class YamlText := {
  yaml_write : list ynode → result string;
  yaml_read : string → list ynode * bool;
  yaml_read_write docs text : yaml_write docs = Ok text → yaml_read text = (map resolved docs, false) }.

(** ** Lookup and depth *)

Lemma child_depth n c : c ∈ Content n → (depth c < depth n)%nat.
Proof.
  destruct n as [k t v l]. simpl. intros Hc. assert (depth c <= foldr Nat.max 0 (map depth l))%nat; [|lia].
  induction Hc; simpl; lia.
Qed.

Lemma entries_content es kv : kv ∈ entries es → kv.2 ∈ es.
Proof.
  revert es. fix IH 1. intros [|k [|v es]]; simpl; [intros []%elem_of_nil..|].
  intros H. apply elem_of_cons in H as [H|H]; [clear IH; set_solver|]. specialize (IH es H). set_solver.
Qed.

Lemma present_elem es key n : present es key = Some n → ∃ kv, kv ∈ es ∧ Value kv.1 = key ∧ n = kv.2.
Proof.
  unfold present. assert (∀ acc, foldl (λ found kv, if bool_decide (Value kv.1 = key) then Some kv.2 else found) acc es = Some n →
    acc = Some n ∨ ∃ kv, kv ∈ es ∧ Value kv.1 = key ∧ n = kv.2) as H.
  { induction es as [|kv es IH]; simpl; intros acc Hf; [by left|].
    apply IH in Hf as [Hf|(kv' & Hin & Hk)]; [|right; exists kv'; set_solver]. case_bool_decide; [|by left].
    right. exists kv. injection Hf as ->. set_solver. }
  intros [?|?]%H; done.
Qed.

Lemma present_depth n key c : present (entries (Content n)) key = Some c → (depth c < depth n)%nat.
Proof. intros (kv & Hin & _ & ->)%present_elem. apply child_depth, entries_content, Hin. Qed.

(** ** Writing policy documents

    Models the first half of internal/policy/codec.go: a normalized policy set becomes
    a stream of YAML documents, the schema first, then one document per policy, with a
    fixed key order and every default left out. *)
From S2P Require Import Strconv.

(** ** String types with declared constants *)

(** The conversions [string(x)] and [T(s)]. *)
Class Spelled (A : Type) := {
  spelling : A → string;
  spelled : string → A;
  spelling_spelled s : spelling (spelled s) = s }.

(** A value written with the constructor of its spelling. *)
Definition proper `{Spelled A} (x : A) : Prop := spelled (spelling x) = x.
#[export] Instance proper_dec `{Spelled A, EqDecision A} (x : A) : base.Decision (proper x).
Proof. unfold proper. apply _. Defined.

(** The constant with a spelling, or the value [other] makes of it. *)
Definition constant {A} (spell : A → string) (constants : list A) (other : string → A) (s : string) : A :=
  match List.find (λ c, bool_decide (spell c = s)) constants with Some c => c | None => other s end.

Lemma spell_constant {A} (spell : A → string) constants other s :
  (∀ s, spell (other s) = s) → spell (constant spell constants other s) = s.
Proof.
  intros Ho. unfold constant. destruct (List.find _ _) as [c|] eqn:E; [|done]. apply find_some in E as [_ E]. by apply bool_decide_eq_true in E.
Qed.

Definition SourceKind_spelling (k : SourceKind) : string :=
  match k with SourceStatic => "static" | SourceHTTP => "http" | SourceEvent => "event" | SourceIdPGroup => "idp_group" | SourceKindOther s => s end.
Definition OnError_spelling (e : OnError) : string :=
  match e with OnErrorUnset => "" | OnErrorDeny => "deny" | OnErrorAllow => "allow" | OnErrorOther s => s end.
Definition CompareOp_spelling (op : CompareOp) : string :=
  match op with OpEq => "eq" | OpNe => "ne" | OpLt => "lt" | OpLe => "le" | OpGt => "gt" | OpGe => "ge" | OpOther s => s end.
Definition LogicOp_spelling (op : LogicOp) : string :=
  match op with LogicAll => "all" | LogicAny => "any" | LogicNot => "not" | LogicOther s => s end.
Definition MFAMode_spelling (m : MFAMode) : string :=
  match m with MFAUnset => "" | MFADelegated => "delegated" | MFADirect => "direct" | MFAOther s => s end.
Definition ChallengeType_spelling (t : ChallengeType) : string :=
  match t with
  | ChallengeQuorum => "quorum" | ChallengeMFA => "mfa" | ChallengeDelay => "delay" | ChallengeExternal => "external" | ChallengeOther s => s
  end.

#[export] Program Instance Role_spelled : Spelled Role :=
  {| spelling := Role_string; spelled := constant Role_string Roles RoleOther |}.
Next Obligation. intros. by apply spell_constant. Qed.
#[export] Program Instance SourceKind_spelled : Spelled SourceKind :=
  {| spelling := SourceKind_spelling; spelled := constant SourceKind_spelling SourceKinds SourceKindOther |}.
Next Obligation. intros. by apply spell_constant. Qed.
#[export] Program Instance OnError_spelled : Spelled OnError :=
  {| spelling := OnError_spelling; spelled := constant OnError_spelling [OnErrorUnset; OnErrorDeny; OnErrorAllow] OnErrorOther |}.
Next Obligation. intros. by apply spell_constant. Qed.
#[export] Program Instance CompareOp_spelled : Spelled CompareOp :=
  {| spelling := CompareOp_spelling; spelled := constant CompareOp_spelling CompareOps OpOther |}.
Next Obligation. intros. by apply spell_constant. Qed.
#[export] Program Instance LogicOp_spelled : Spelled LogicOp :=
  {| spelling := LogicOp_spelling; spelled := constant LogicOp_spelling [LogicAll; LogicAny; LogicNot] LogicOther |}.
Next Obligation. intros. by apply spell_constant. Qed.
#[export] Program Instance MFAMode_spelled : Spelled MFAMode :=
  {| spelling := MFAMode_spelling; spelled := constant MFAMode_spelling [MFAUnset; MFADelegated; MFADirect] MFAOther |}.
Next Obligation. intros. by apply spell_constant. Qed.
#[export] Program Instance ChallengeType_spelled : Spelled ChallengeType :=
  {| spelling := ChallengeType_spelling; spelled := constant ChallengeType_spelling ChallengeTypes ChallengeOther |}.
Next Obligation. intros. by apply spell_constant. Qed.

(** ** Building nodes *)

Definition APIVersion : string := "stamp/v1".
Definition KindSchema : string := "Schema".
Definition KindPolicy : string := "Policy".

Definition scalar (tag value : string) : ynode := YNode ScalarNode tag value [].
Definition str (value : string) : ynode := scalar "!!str" value.
Definition sequence (items : list ynode) : ynode := YNode SequenceNode "" "" items.

(** [mapBuilder] holds the content of the mapping it builds. *)
Definition mapBuilder := list ynode.
Definition mapping (m : mapBuilder) : ynode := YNode MappingNode "" "" m.
Definition newMapping : mapBuilder := [].
Definition put (m : mapBuilder) (key : string) (value : ynode) : mapBuilder := m ++ [str key; value].
Definition putString (m : mapBuilder) (key value : string) : mapBuilder := put m key (str value).
Definition putStringIf (m : mapBuilder) (key value omitWhen : string) : mapBuilder :=
  if bool_decide (value = omitWhen) then m else putString m key value.

Definition envelope (kind : string) : mapBuilder := putString (putString newMapping "apiVersion" APIVersion) "kind" kind.
Definition documentOf (root : ynode) : ynode := YNode DocumentNode "" "" [root].

Definition stringSequenceNode (values : list string) : ynode := sequence (map str values).

(** ** Constants *)

Definition inferableType (t : Typ) : bool := contains [TypeBool; TypeInt; TypeDouble; TypeString] t.

Definition has_point_or_exponent (s : string) : bool := existsb (λ a, contains ["."; "e"; "E"]%char a) (bytes s).
Definition formatDouble (v : Float64.t) : string :=
  let s := FormatFloat v in if has_point_or_exponent s then s else s +:+ ".0".

(** [fmt.Sprint] of an arbitrary Go value, which is written for a type the language
    does not have. *)
Class GoFmt := { Sprint : value → string }.

(** A failed type assertion leaves the zero value. *)
Definition scalarLiteralNode `{GoFmt} (t : Typ) (data : value) : ynode :=
  if bool_decide (t = TypeBool) then
    scalar "!!bool" (FormatBool (match data with VBool b => b | _ => false end))
  else if bool_decide (t = TypeInt) then
    scalar "!!int" (FormatInt (match data with VInt n => n | _ => 0%Z end))
  else if bool_decide (t = TypeDouble) then
    scalar "!!float" (formatDouble (match data with VDouble f => f | _ => Float64.Fin 0 0 end))
  else if bool_decide (t = TypeString) then
    str (match data with VString s => s | _ => "" end)
  else if bool_decide (t = TypeTimestamp) then
    str (Time.Format_RFC3339Nano (match data with VTime x => x | _ => Time.zero end))
  else if bool_decide (t = TypeDuration) then
    str (Time.Duration_String (match data with VDuration d => d | _ => 0%Z end))
  else str (Sprint data).

Definition literalNode `{GoFmt} (l : Literal) : ynode :=
  if IsList (lit_Type l) then
    match lit_Data l with
    | VList items =>
        let elem := Elem (lit_Type l) in
        let nodes := map (scalarLiteralNode elem) items in
        if (0 <? length items)%nat && inferableType elem then sequence nodes
        else mapping (putString (put newMapping "value" (sequence nodes)) "type" (lit_Type l))
    | _ => mapping newMapping
    end
  else if inferableType (lit_Type l) then scalarLiteralNode (lit_Type l) (lit_Data l)
  else mapping (putString (put newMapping "value" (scalarLiteralNode (lit_Type l) (lit_Data l))) "type" (lit_Type l)).

(** ** Operands and conditions *)

Fixpoint operandNode `{GoFmt} (o : Operand) : ynode :=
  match o with
  | FieldRef role attribute => mapping (putString newMapping "field" (spelling role +:+ "." +:+ attribute))
  | SourceRef name args =>
      let m := putString newMapping "source" name in
      mapping (if (0 <? length args)%nat then put m "args" (sequence (map operandNode args)) else m)
  | Lit l => literalNode l
  | OperandNil => mapping newMapping
  end.

Fixpoint conditionNode `{GoFmt} (n : Node) : ynode :=
  match n with
  | Logic op operands =>
      if bool_decide (op = LogicNot) then
        match operands with
        | [inner] => mapping (put newMapping "not" (conditionNode inner))
        | _ => mapping (put newMapping "not" (sequence []))
        end
      else mapping (put newMapping (spelling op) (sequence (map conditionNode operands)))
  | Compare l op r =>
      mapping (put (putString (put newMapping "left" (operandNode l)) "op" (spelling op)) "right" (operandNode r))
  | Member l collection negate =>
      mapping (put (put newMapping "left" (operandNode l)) (if negate then "not_in" else "in") (operandNode collection))
  | NodeNil => mapping newMapping
  end.

(** ** Challenges *)

Definition approverSetNode `{GoFmt} (a : ApproverSet) : ynode :=
  match as_Source a with
  | Some (name, args) => operandNode (SourceRef name args)
  | None =>
      if bool_decide (as_Claim a ≠ "") then mapping (putString newMapping "claim" (as_Claim a))
      else mapping (put newMapping "members" (stringSequenceNode (as_Members a)))
  end.

Definition challengeNode `{GoFmt} (c : Challenge) : ynode :=
  let m := putString newMapping "type" (spelling (Challenge_ChallengeType c)) in
  mapping
    match c with
    | CQuorum v =>
        put (put m "threshold" (scalar "!!int" (FormatInt (q_Threshold v)))) "approvers" (approverSetNode (q_Approvers v))
    | CMFA v =>
        let m := putStringIf m "mode" (spelling (mfa_Mode v)) (spelling DefaultMFAMode) in
        if (0 <? length (mfa_ACRValues v))%nat then put m "acr_values" (stringSequenceNode (mfa_ACRValues v)) else m
    | CDelay v =>
        let m := putString m "duration" (Time.Duration_String (d_Duration v)) in
        match d_CancellableBy v with Some a => put m "cancellable_by" (approverSetNode a) | None => m end
    | CExternal v => putString m "target" (e_Target v)
    end.

(** ** Documents *)

Definition entityNode (e : EntityType) : ynode :=
  let em := putString newMapping "name" (ent_Name e) in
  mapping
    (if (0 <? length (ent_Attributes e))%nat then
       put em "attributes" (mapping (foldl (λ m a, putString m (attr_Name a) (attr_Type a)) newMapping (ent_Attributes e)))
     else em).

Definition actionNode (a : Action) : ynode :=
  if bool_decide (act_Description a = "") then str (act_Name a)
  else mapping (putString (putString newMapping "name" (act_Name a)) "description" (act_Description a)).

Definition sourceNode (src : SourceDecl) : ynode :=
  let sm := putString (putString newMapping "name" (src_Name src)) "kind" (spelling (src_Kind src)) in
  let sm :=
    if (0 <? length (src_Params src))%nat then
      put sm "params" (sequence (map (λ p, mapping (putString newMapping (par_Name p) (par_Type p))) (src_Params src)))
    else sm in
  mapping (putStringIf (putString sm "returns" (src_Returns src)) "on_error" (spelling (src_OnError src)) (spelling DefaultOnError)).

Definition schemaDocumentNode (s : Schema) : ynode :=
  let m := envelope KindSchema in
  let m := if (0 <? length (sch_Entities s))%nat then put m "entities" (sequence (map entityNode (sch_Entities s))) else m in
  let m := if (0 <? length (sch_Actions s))%nat then put m "actions" (sequence (map actionNode (sch_Actions s))) else m in
  let m := if (0 <? length (sch_Sources s))%nat then put m "sources" (sequence (map sourceNode (sch_Sources s))) else m in
  documentOf (mapping m).

Definition policyDocumentNode `{GoFmt} (p : Policy) : ynode :=
  let m := putString (envelope KindPolicy) "id" (p_ID p) in
  let m := putStringIf m "description" (p_Description p) "" in
  let m := putString m "subject" (p_Subject p) in
  let m := putString m "resource" (p_Resource p) in
  let m := putStringIf m "context" (p_Context p) "" in
  let m := put m "actions" (stringSequenceNode (p_Actions p)) in
  let m := match p_Condition p with NodeNil => m | c => put m "condition" (conditionNode c) end in
  let m := if (0 <? length (p_Challenges p))%nat then put m "challenges" (sequence (map challengeNode (p_Challenges p))) else m in
  documentOf (mapping m).

Definition schemaEmpty (s : Schema) : bool :=
  (length (sch_Entities s) =? 0)%nat && (length (sch_Actions s) =? 0)%nat && (length (sch_Sources s) =? 0)%nat.

(** The documents of a set, and [Encode] and [Marshal], which write them. *)
Definition documents `{GoFmt} (s : PolicySet) : list ynode :=
  let normalized := Normalize s in
  (if schemaEmpty (set_Schema normalized) then [] else [schemaDocumentNode (set_Schema normalized)]) ++
  map policyDocumentNode (set_Policies normalized).

Definition Encode `{GoFmt, YamlText} (s : PolicySet) : result string := yaml_write (documents s).
