(* ===== verification/FloatText.v ===== *)
(** * A double reads back from its text

    [FormatFloat] writes the fewest digits that [ParseFloat] reads as the same double,
    and seventeen are always enough. *)
From Stdlib Require Import Ascii Reals Lra.
From stdpp Require Import pretty.
From S2P Require Import Prelude GoLib Policy Text Strconv Encode.
Import Strings.
Local Open Scope Z_scope.

(** ** Fractions as reals *)

Definition val (n d : Z) : R := (IZR n / IZR d)%R.
Definition pw (b k : Z) : R := powerRZ (IZR b) k.

Lemma pw_pos b k : 0 < b → (0 < pw b k)%R.
Proof. intros Hb. apply powerRZ_lt. by apply IZR_lt. Qed.

Lemma pw_add b j k : 0 < b → pw b (j + k) = (pw b j * pw b k)%R.
Proof. intros Hb. apply powerRZ_add. apply not_0_IZR. lia. Qed.

Lemma pw_Z b k : 0 <= k → pw b k = IZR (b ^ k).
Proof. intros Hk. unfold pw. rewrite <-(Z2Nat.id k) by done. rewrite <-pow_powerRZ, pow_IZR. done. Qed.

Lemma pw_neg b k : 0 < b → pw b (- k) = (/ pw b k)%R.
Proof. intros Hb. apply powerRZ_neg'. Qed.

Lemma pw_le b j k : 1 <= b → j <= k → (pw b j <= pw b k)%R.
Proof.
  intros Hb Hjk. replace k with (j + (k - j)) by lia. rewrite pw_add by lia. rewrite (pw_Z b (k - j)) by lia.
  assert (1 <= IZR (b ^ (k - j)))%R by (apply IZR_le; pose proof (Z.pow_pos_nonneg b (k - j)); lia).
  pose proof (pw_pos b j ltac:(lia)). nra.
Qed.

Lemma pw_lt_inv b j k : 1 <= b → (pw b j < pw b k)%R → j < k.
Proof. intros Hb H. destruct (Z.lt_ge_cases j k); [done|]. pose proof (pw_le b k j Hb ltac:(lia)). lra. Qed.

Lemma shift_val n d k : 0 < d → 0 < (shift n d k).2 ∧ val (shift n d k).1 (shift n d k).2 = (val n d * pw 2 k)%R.
Proof.
  intros Hd. assert (IZR d ≠ 0%R) as Hd0 by (apply not_0_IZR; lia). unfold shift. destruct (Z.leb_spec 0 k); cbn [fst snd].
  - split; [done|]. unfold val. rewrite pw_Z, mult_IZR by done. field. done.
  - assert (0 < 2 ^ (- k)) by (apply Z.pow_pos_nonneg; lia). split; [nia|].
    replace k with (- (- k)) at 2 by lia. rewrite pw_neg, pw_Z by lia. unfold val. rewrite mult_IZR.
    assert (IZR (2 ^ (- k)) ≠ 0%R) by (apply not_0_IZR; lia). field. done.
Qed.

Lemma shift10_val n d k : 0 < d → 0 < (shift10 n d k).2 ∧ val (shift10 n d k).1 (shift10 n d k).2 = (val n d * pw 10 k)%R.
Proof.
  intros Hd. assert (IZR d ≠ 0%R) as Hd0 by (apply not_0_IZR; lia). unfold shift10. destruct (Z.leb_spec 0 k); cbn [fst snd].
  - split; [done|]. unfold val. rewrite pw_Z, mult_IZR by done. field. done.
  - assert (0 < 10 ^ (- k)) by (apply Z.pow_pos_nonneg; lia). split; [nia|].
    replace k with (- (- k)) at 2 by lia. rewrite pw_neg, pw_Z by lia. unfold val. rewrite mult_IZR.
    assert (IZR (10 ^ (- k)) ≠ 0%R) by (apply not_0_IZR; lia). field. done.
Qed.

Lemma IZR_pos b : 0 < b → (0 < IZR b)%R.
Proof. apply IZR_lt. Qed.

Lemma val_mul a b : 0 < b → (val a b * IZR b)%R = IZR a.
Proof. intros Hb%IZR_pos. unfold val. field. lra. Qed.

Lemma val_1 a : val a 1 = IZR a.
Proof. unfold val. field. Qed.

Lemma abs_scale x y p : (0 < p → Rabs (x * / p - y) <= 1 / 2 → Rabs (y * p - x) <= p / 2)%R.
Proof.
  intros Hp H. rewrite Rabs_minus_sym. replace (x - y * p)%R with ((x * / p - y) * p)%R by (field; lra).
  rewrite Rabs_mult, (Rabs_pos_eq p) by lra. nra.
Qed.

Lemma val_lt a b : 0 < b → (a <? b) = true ↔ (val a b < 1)%R.
Proof.
  intros Hb. rewrite Z.ltb_lt. pose proof (val_mul a b Hb) as E. apply IZR_pos in Hb. split.
  - intros H1%IZR_lt. nra.
  - intros H1. apply lt_IZR. nra.
Qed.

Lemma Rabs_between x a : (Rabs x <= a → - a <= x <= a)%R.
Proof. unfold Rabs. destruct (Rcase_abs x); lra. Qed.

(** ** Rounding to an integer *)

Lemma round_div_Z a b m : 0 < b → 2 * Z.abs (m * b - a) < b → round_div a b = m.
Proof.
  intros Hb H. unfold round_div. pose proof (Z.div_mod a b ltac:(lia)) as E. pose proof (Z.mod_pos_bound a b Hb) as B.
  set (q := a / b) in *. set (r := a mod b) in *. replace (m * b - a) with ((m - q) * b - r) in H by lia.
  assert (m = q ∨ m = q + 1) as [->| ->]; [|destruct (Z.compare_spec (2 * r) b); lia..].
  destruct (Z.lt_trichotomy (m - q) 0) as [Ht|[Ht|Ht]]; [nia|lia|]. destruct (Z.eq_dec (m - q) 1); [lia|nia].
Qed.

Lemma round_div_near a b : 0 < b → 2 * Z.abs (round_div a b * b - a) <= b.
Proof.
  intros Hb. unfold round_div. pose proof (Z.div_mod a b ltac:(lia)) as E. pose proof (Z.mod_pos_bound a b Hb) as B.
  set (q := a / b) in *. set (r := a mod b) in *. destruct (Z.compare_spec (2 * r) b); [destruct (Z.even q)|..]; lia.
Qed.

Lemma round_div_scale k a b : 0 < k → 0 < b → round_div (k * a) (k * b) = round_div a b.
Proof.
  intros Hk Hb. unfold round_div. rewrite Z.div_mul_cancel_l, Z.mul_mod_distr_l by lia.
  replace (2 * (k * (a mod b)) ?= k * b) with (2 * (a mod b) ?= b); [done|].
  rewrite (Zmult_compare_compat_l _ _ k) by lia. f_equal. lia.
Qed.

Lemma round_div_val a b a' b' : 0 < b → 0 < b' → val a b = val a' b' → round_div a b = round_div a' b'.
Proof.
  intros Hb Hb' H. assert (a * b' = a' * b) as E.
  { apply eq_IZR. rewrite !mult_IZR. unfold val in H. pose proof (val_mul a b Hb) as E1. pose proof (val_mul a' b' Hb') as E2. unfold val in *. rewrite <-E1, <-E2, H. ring. }
  rewrite <-(round_div_scale b' a b), <-(round_div_scale b a' b') by done. f_equal; lia.
Qed.

Lemma abs_val a b m : 0 < b → (Rabs (val a b - IZR m) < 1 / 2)%R → round_div a b = m.
Proof.
  intros Hb H. apply round_div_Z; [done|]. assert (0 < IZR b)%R as Hb' by by apply IZR_lt. apply lt_IZR. rewrite mult_IZR, abs_IZR, minus_IZR, mult_IZR.
  replace (IZR m * IZR b - IZR a)%R with (- (val a b - IZR m) * IZR b)%R by (unfold val; field; lra).
  rewrite Rabs_mult, Rabs_Ropp, (Rabs_pos_eq (IZR b)) by lra. nra.
Qed.

Lemma val_near a b : 0 < b → (Rabs (val a b - IZR (round_div a b)) <= 1 / 2)%R.
Proof.
  intros Hb. pose proof (round_div_near a b Hb) as H. apply IZR_le in H. rewrite mult_IZR, abs_IZR, minus_IZR, mult_IZR in H.
  assert (0 < IZR b)%R as Hb' by by apply IZR_lt.
  replace (IZR (round_div a b) * IZR b - IZR a)%R with (- (val a b - IZR (round_div a b)) * IZR b)%R in H by (unfold val; field; lra).
  rewrite Rabs_mult, Rabs_Ropp, (Rabs_pos_eq (IZR b)) in H by lra. nra.
Qed.

(** ** Rounding to a double *)

Lemma log2_val n : 0 < n → (pw 2 (Z.log2 n) <= IZR n < 2 * pw 2 (Z.log2 n))%R.
Proof.
  intros Hn. pose proof (Z.log2_spec n Hn) as [H1 H2]. pose proof (Z.log2_nonneg n). rewrite pw_Z by done.
  rewrite Z.pow_succ_r in H2 by done. apply IZR_le in H1. apply IZR_lt in H2. rewrite mult_IZR in H2. lra.
Qed.

Lemma val_pos n d : 0 < n → 0 < d → (0 < val n d)%R.
Proof. intros Hn%IZR_pos Hd%IZR_pos. by apply Rdiv_lt_0_compat. Qed.

Lemma ilog2_spec n d : 0 < n → 0 < d → (pw 2 (ilog2 n d) <= val n d < 2 * pw 2 (ilog2 n d))%R.
Proof.
  intros Hn Hd. unfold ilog2. set (l := Z.log2 n - Z.log2 d).
  destruct (shift_val n d (- l) Hd) as [Hb Hv]. destruct (shift n d (- l)) as [a b]. cbn [fst snd] in *.
  pose proof (val_lt a b Hb) as Hlt. rewrite Hv, pw_neg in Hlt by done. pose proof (pw_pos 2 l ltac:(done)) as Hp.
  pose proof (val_mul n d Hd) as E. pose proof (log2_val n Hn) as [N1 N2]. pose proof (log2_val d Hd) as [D1 D2].
  assert (pw 2 (Z.log2 n) = pw 2 l * pw 2 (Z.log2 d))%R as El by (rewrite <-pw_add by done; f_equal; lia).
  pose proof (pw_pos 2 (Z.log2 d) ltac:(done)) as Hpd. pose proof (val_pos n d Hn Hd) as Hx.
  assert (pw 2 l < 2 * val n d)%R as H1 by nra. assert (val n d < 2 * pw 2 l)%R as H2 by nra.
  assert (val n d * / pw 2 l < 1 ↔ val n d < pw 2 l)%R as Hq.
  { split; intros Hq; [apply (Rmult_lt_compat_r (pw 2 l)) in Hq; [|done]; rewrite Rmult_assoc, Rinv_l in Hq; lra|].
    apply (Rmult_lt_reg_r (pw 2 l)); [done|]. rewrite Rmult_assoc, Rinv_l; lra. }
  rewrite Hq in Hlt. destruct (a <? b).
  - replace (pw 2 (l - 1)) with (pw 2 l / 2)%R; [destruct Hlt as [Hlt _]; specialize (Hlt eq_refl); lra|].
    replace (pw 2 l) with (pw 2 (l - 1) * pw 2 1)%R by (rewrite <-pw_add by done; f_equal; lia). rewrite (pw_Z 2 1) by done. change (2 ^ 1) with 2. field.
  - assert (¬ (val n d < pw 2 l)%R) as Hn' by (intros Hc; by apply Hlt in Hc). lra.
Qed.

Lemma ilog2_unique n d l : 0 < n → 0 < d → (pw 2 l <= val n d < 2 * pw 2 l)%R → ilog2 n d = l.
Proof.
  intros Hn Hd H. pose proof (ilog2_spec n d Hn Hd) as H'. set (l' := ilog2 n d) in *.
  assert (∀ j, 2 * pw 2 j = pw 2 (j + 1))%R as E2 by (intros j; rewrite pw_add by done; rewrite (pw_Z 2 1) by done; change (2 ^ 1) with 2; ring).
  rewrite !E2 in *. assert (pw 2 l' < pw 2 (l + 1))%R as H1 by lra. assert (pw 2 l < pw 2 (l' + 1))%R as H2 by lra.
  apply pw_lt_inv in H1; [|done]. apply pw_lt_inv in H2; [|done]. lia.
Qed.

Lemma round64_val neg n d n' d' : 0 < n → 0 < d → 0 < n' → 0 < d' → val n d = val n' d' → round64 neg n d = round64 neg n' d'.
Proof.
  intros Hn Hd Hn' Hd' H. unfold round64. rewrite !(proj2 (Z.eqb_neq _ _)) by lia.
  assert (ilog2 n d = ilog2 n' d') as -> by (apply ilog2_unique; [done..|]; rewrite H; by apply ilog2_spec).
  set (e := Z.max _ _). destruct (shift_val n d (- e) Hd) as [Hb Hv], (shift_val n' d' (- e) Hd') as [Hb' Hv'].
  destruct (shift n d (- e)) as [a b], (shift n' d' (- e)) as [a' b']. cbn [fst snd] in *.
  by rewrite (round_div_val a b a' b') by (done || congruence).
Qed.

Lemma pw2_succ j : pw 2 (j + 1) = (2 * pw 2 j)%R.
Proof. rewrite pw_add by done. rewrite (pw_Z 2 1) by done. change (2 ^ 1) with 2. ring. Qed.

Lemma pw2_split k e : 0 <= k → pw 2 (k + e) = (IZR (2 ^ k) * pw 2 e)%R.
Proof. intros Hk. rewrite pw_add by done. by rewrite (pw_Z 2 k). Qed.

(** Rounding at an exponent. *)
Lemma round_at n d e m : 0 < d → (Rabs (val n d - IZR m * pw 2 e) < pw 2 e / 2)%R →
  round_div (shift n d (- e)).1 (shift n d (- e)).2 = m.
Proof.
  intros Hd H. destruct (shift_val n d (- e) Hd) as [Hb Hv]. apply abs_val; [done|]. rewrite Hv, pw_neg by done.
  pose proof (pw_pos 2 e ltac:(done)) as Hp.
  replace (val n d * / pw 2 e - IZR m)%R with ((val n d - IZR m * pw 2 e) * / pw 2 e)%R by (field; lra).
  pose proof (Rinv_0_lt_compat _ Hp) as Hi. rewrite Rabs_mult, (Rabs_pos_eq (/ pw 2 e)) by lra.
  apply (Rmult_lt_compat_r (/ pw 2 e)) in H; [|done]. replace (pw 2 e / 2 * / pw 2 e)%R with (1 / 2)%R in H by (field; lra). done.
Qed.

Lemma canonical_pos m e : 0 < m → canonical (Float64.Fin m e) = true → m < 2 ^ 53 ∧ -1074 <= e <= 971 ∧ (2 ^ 52 <= m ∨ e = -1074).
Proof. unfold canonical. intros Hm H. rewrite Z.abs_eq in H by lia. rewrite !orb_true_iff, !andb_true_iff, !Z.eqb_eq, !Z.leb_le, !Z.ltb_lt in H. lia. Qed.

(** A fraction within half a unit of a double, a quarter below a power of two, rounds to it. *)
Lemma round64_near neg n d m e : 0 < n → 0 < d → 0 < m → canonical (Float64.Fin m e) = true →
  (Rabs (val n d - IZR m * pw 2 e) < pw 2 e / 2)%R → (m = (2 ^ 52)%Z → (IZR m * pw 2 e - val n d < pw 2 e / 4)%R) →
  round64 neg n d = Some (Float64.Fin (if neg then - m else m) e).
Proof.
  intros Hn Hd Hm (Hm' & He & Hlow)%canonical_pos Hx Hq; [|done]. unfold round64. rewrite (proj2 (Z.eqb_neq _ _)) by lia.
  pose proof (pw_pos 2 e ltac:(done)) as Hu. apply Rabs_def2 in Hx as Hx'. destruct Hx' as [Hx1 Hx2].
  assert (IZR m <= IZR (2 ^ 53) - 1)%R as Hm53 by (rewrite <-minus_IZR; apply IZR_le; lia).
  destruct (Rlt_le_dec (val n d) (pw 2 (52 + e))) as [Hb|Ha].
  - destruct (Z.eq_dec e (-1074)) as [->|Hne].
    + replace (Z.max (ilog2 n d - 52) (-1074)) with (-1074).
      2:{ pose proof (ilog2_spec n d Hn Hd) as [Hi _]. assert (pw 2 (ilog2 n d) < pw 2 (52 + -1074))%R as Hl%pw_lt_inv by lra; [lia|done]. }
      pose proof (round_at n d (-1074) m Hd Hx) as Hr. destruct (shift n d (- -1074)) as [a b]. cbn [fst snd] in Hr. rewrite Hr.
      rewrite !(proj2 (Z.eqb_neq _ _)) by lia. done.
    + destruct Hlow as [Hlow|]; [|done]. rewrite pw2_split in Hb by done.
      assert (m = 2 ^ 52) as ->.
      { assert (IZR m < IZR (2 ^ 52 + 1))%R as Hlt%lt_IZR; [rewrite plus_IZR; nra|lia]. }
      specialize (Hq eq_refl). pose proof (pw2_succ (e - 1)) as Ee. replace (e - 1 + 1) with e in Ee by lia.
      assert (ilog2 n d = 51 + e) as ->.
      { apply ilog2_unique; [done..|]. rewrite <-pw2_succ. replace (51 + e + 1) with (52 + e) by lia. rewrite !pw2_split by done.
        replace (IZR (2 ^ 52)) with (2 * IZR (2 ^ 51))%R in * by (rewrite <-mult_IZR; done). assert (1 <= IZR (2 ^ 51))%R by (apply IZR_le; done). nra. }
      replace (Z.max (51 + e - 52) (-1074)) with (e - 1) by lia.
      assert (round_div (shift n d (- (e - 1))).1 (shift n d (- (e - 1))).2 = 2 ^ 53) as Hr.
      { apply round_at; [done|]. replace (IZR (2 ^ 53)) with (2 * IZR (2 ^ 52))%R by (rewrite <-mult_IZR; done). apply Rabs_def1; nra. }
      destruct (shift n d (- (e - 1))) as [a b]. cbn [fst snd] in Hr. rewrite Hr. rewrite Z.eqb_refl. replace (e - 1 + 1) with e by lia.
      rewrite (proj2 (Z.ltb_ge 971 e)) by lia. done.
  - assert (ilog2 n d = 52 + e) as ->.
    { apply ilog2_unique; [done..|]. split; [done|]. rewrite pw2_split in * by done.
      replace (2 * (IZR (2 ^ 52) * pw 2 e))%R with (IZR (2 ^ 53) * pw 2 e)%R by (replace (IZR (2 ^ 53)) with (2 * IZR (2 ^ 52))%R by (rewrite <-mult_IZR; done); ring). nra. }
    replace (Z.max (52 + e - 52) (-1074)) with e by lia.
    pose proof (round_at n d e m Hd Hx) as Hr. destruct (shift n d (- e)) as [a b]. cbn [fst snd] in Hr. rewrite Hr.
    rewrite !(proj2 (Z.eqb_neq _ _)) by lia. rewrite (proj2 (Z.ltb_ge 971 e)) by lia. done.
Qed.

(** ** The decimal digits *)

Lemma val_pw10 n d k : 0 < d → let '(a, b) := shift10 n d (- k) in 0 < b ∧ ((a <? b) = true ↔ (val n d < pw 10 k)%R).
Proof.
  intros Hd. destruct (shift10_val n d (- k) Hd) as [Hb Hv]. destruct (shift10 n d (- k)) as [a b]. cbn [fst snd] in *. split; [done|].
  rewrite (val_lt a b Hb), Hv, pw_neg by done. pose proof (pw_pos 10 k ltac:(done)) as Hp.
  split; intros Hq; [apply (Rmult_lt_compat_r (pw 10 k)) in Hq; [|done]; rewrite Rmult_assoc, Rinv_l in Hq; lra|].
  apply (Rmult_lt_reg_r (pw 10 k)); [done|]. rewrite Rmult_assoc, Rinv_l; lra.
Qed.

Lemma point_spec fuel k n d : 0 < d → (pw 10 (k - 1) <= val n d)%R → (val n d < pw 10 (k + Z.of_nat fuel))%R →
  (pw 10 (point fuel k n d - 1) <= val n d < pw 10 (point fuel k n d))%R.
Proof.
  intros Hd. revert k. induction fuel as [|fuel IH]; intros k Hlo Hhi; cbn [point].
  - by rewrite Z.add_0_r in Hhi.
  - pose proof (val_pw10 n d k Hd) as Hk. destruct (shift10 n d (- k)) as [a b]. destruct Hk as [_ Hk]. destruct (a <? b).
    + split; [done|by apply Hk].
    + apply IH.
      * replace (k + 1 - 1) with k by lia. destruct (Rlt_le_dec (val n d) (pw 10 k)) as [Hc|]; [by apply Hk in Hc|done].
      * replace (k + 1 + Z.of_nat fuel) with (k + Z.of_nat (S fuel)) by lia. done.
Qed.

Lemma point_range fuel k n d : k <= point fuel k n d <= k + Z.of_nat fuel.
Proof.
  revert k. induction fuel as [|fuel IH]; intros k; cbn [point]; [lia|]. destruct (shift10 n d (- k)) as [a b].
  destruct (a <? b); [lia|]. specialize (IH (k + 1)). lia.
Qed.

(** The double [m * 2^e] as the fraction its digits are found from. *)
Section digits.
Context (m e : Z) (Hm : 0 < m) (Hc : canonical (Float64.Fin m e) = true).
Let n : Z := (shift m 1 e).1.
Let d : Z := (shift m 1 e).2.
Let k : Z := point 640 (-324) n d.

Lemma fraction_pos : 0 < n ∧ 0 < d ∧ val n d = (IZR m * pw 2 e)%R.
Proof using Hm.
  destruct (shift_val m 1 e ltac:(done)) as [Hd Hv]. fold n d in Hd, Hv. split_and!; [|done|rewrite Hv; unfold val; field].
  unfold n, shift. destruct (Z.leb_spec 0 e); cbn [fst]; [|done]. pose proof (Z.pow_pos_nonneg 2 e). nia.
Qed.

Lemma digits_point : (pw 10 (k - 1) <= val n d < pw 10 k)%R.
Proof using Hm Hc.
  destruct fraction_pos as (Hn & Hd & Hv). destruct (canonical_pos m e Hm Hc) as (Hm' & He & _).
  assert (1 <= IZR m)%R by (apply IZR_le; lia). assert (IZR m <= IZR (2 ^ 53))%R by (apply IZR_le; lia).
  apply point_spec; [done|..]; rewrite Hv.
  - trans (pw 2 (-1074)); [|pose proof (pw_le 2 (-1074) e ltac:(done) ltac:(lia)); pose proof (pw_pos 2 (-1074) ltac:(done)); nra].
    change (-324 - 1) with (- (325)). change (-1074) with (- (1074)). rewrite !pw_neg, !pw_Z by done.
    apply Rinv_le_contravar; [apply IZR_lt; done|apply IZR_le; vm_compute; discriminate].
  - apply (Rle_lt_trans _ (pw 2 1024)).
    + replace 1024 with (53 + 971) by done. rewrite pw2_split by done. pose proof (pw_le 2 e 971 ltac:(done) ltac:(lia)).
      pose proof (pw_pos 2 e ltac:(done)). nra.
    + change (-324 + Z.of_nat 640) with 316. rewrite !pw_Z by done. apply IZR_lt. vm_compute. reflexivity.
Qed.

Lemma seventeen c : c = round_div (shift10 n d (- (k - 17))).1 (shift10 n d (- (k - 17))).2 → 0 < c ∧ reads c (k - 17) = Some (Float64.Fin m e).
Proof using Hm Hc.
  intros ->. destruct fraction_pos as (Hn & Hd & Hv). pose proof digits_point as [Hk _]. destruct (canonical_pos m e Hm Hc) as (Hm' & He & _).
  set (s := k - 17) in *. destruct (shift10_val n d (- s) Hd) as [Hb Hvs].
  pose proof (val_near (shift10 n d (- s)).1 (shift10 n d (- s)).2 Hb) as Hr. set (c := round_div _ _) in *. rewrite Hvs in Hr.
  pose proof (pw_pos 10 s ltac:(done)) as Hp. pose proof (pw_pos 2 e ltac:(done)) as Hu.
  assert (pw 10 s * IZR (10 ^ 16) <= IZR m * pw 2 e)%R as Hbig.
  { rewrite <-Hv. replace (k - 1) with (16 + s) in Hk by lia. rewrite pw_add in Hk by done. rewrite (pw_Z 10 16) in Hk by done. lra. }
  assert (Rabs (IZR c * pw 10 s - IZR m * pw 2 e) <= pw 10 s / 2)%R as Hnear.
  { rewrite <-Hv. rewrite pw_neg in Hr by done. by apply abs_scale. }
  assert (IZR m < IZR (2 ^ 53))%R as Hm53 by (apply IZR_lt; lia).
  assert (IZR (2 ^ 53) < IZR (10 ^ 16))%R as H16 by (apply IZR_lt; done).
  assert (pw 10 s < pw 2 e)%R as Hs by nra.
  assert (0 < c) as Hcpos.
  { apply lt_IZR. apply Rabs_between in Hnear. assert (1 <= IZR m)%R by (apply IZR_le; lia). nra. }
  split; [done|]. unfold reads. destruct (shift10_val c 1 s ltac:(done)) as [Hb1 Hv1].
  assert (0 < (shift10 c 1 s).1) as Ha1 by (unfold shift10; destruct (0 <=? s) eqn:Es; cbn [fst]; [pose proof (Z.pow_pos_nonneg 10 s); lia|done]).
  destruct (shift10 c 1 s) as [a b]. cbn [fst snd] in *. apply (round64_near false); [done..| |].
  - rewrite Hv1. rewrite val_1. lra.
  - intros ->. rewrite Hv1. rewrite val_1.
    assert (2 * IZR (2 ^ 52) < IZR (10 ^ 16))%R by (rewrite <-mult_IZR; apply IZR_lt; done). apply Rabs_between in Hnear. nra.
Qed.

Lemma candidate_bound c t : t <= k - 1 → c <= (shift10 n d (- t)).1 / (shift10 n d (- t)).2 + 1 → c <= 10 ^ (k - t).
Proof using Hm Hc.
  intros Ht Hle. destruct fraction_pos as (Hn & Hd & _). pose proof digits_point as [_ Hk]. destruct (shift10_val n d (- t) Hd) as [Hb Hv].
  set (a := (shift10 n d (- t)).1) in *. set (b := (shift10 n d (- t)).2) in *.
  assert (a / b < 10 ^ (k - t)); [|lia]. apply lt_IZR. rewrite <-pw_Z by lia.
  replace (k - t) with (k + - t) by lia. rewrite pw_add by done. pose proof (pw_pos 10 (- t) ltac:(done)) as Hp.
  apply (Rle_lt_trans _ (val a b)); [|rewrite Hv; nra].
  pose proof (Z.mul_div_le a b Hb) as Hdiv%IZR_le. rewrite mult_IZR in Hdiv. pose proof (val_mul a b Hb). apply IZR_pos in Hb. nra.
Qed.

Lemma round_div_le a b : round_div a b <= a / b + 1 ∧ a / b <= round_div a b.
Proof. unfold round_div. destruct (_ ?= _); [destruct (Z.even _)|..]; lia. Qed.

Lemma shortest_reads count s c t : s - Z.of_nat count = k - 17 → s <= k - 1 → shortest count (Float64.Fin m e) n d s = (c, t) →
  0 < c <= 10 ^ (k - t) ∧ k - 17 <= t <= k - 1 ∧ reads c t = Some (Float64.Fin m e).
Proof using Hm Hc.
  revert s. induction count as [|count IH]; intros s Hs Hle; cbn [shortest].
  - intros [= <- <-]. assert (s = k - 17) as -> by lia. destruct (seventeen _ eq_refl) as [Hpos Hr]. split_and!; [done| |lia|lia|done].
    apply candidate_bound; [lia|]. apply round_div_le.
  - destruct (List.filter _ _) as [|c' l] eqn:E; [apply IH; lia|]. intros [= -> ->].
    assert (In c (List.filter (λ c, bool_decide (reads c t = Some (Float64.Fin m e))) (neighbours n d t))) as Hin by (rewrite E; by left).
    apply filter_In in Hin as [Hin Hr%bool_decide_eq_true].
    assert (0 <= c ∧ c <= (shift10 n d (- t)).1 / (shift10 n d (- t)).2 + 1) as [Hc0 Hc1].
    { destruct fraction_pos as (Hn & Hd & _). unfold neighbours in Hin. destruct (shift10_val n d (- t) Hd) as [Hb _].
      assert (0 <= (shift10 n d (- t)).1) as Ha by (unfold shift10; destruct (0 <=? - t) eqn:Et; cbn [fst]; [pose proof (Z.pow_nonneg 10 (- t)); nia|lia]).
      destruct (shift10 n d (- t)) as [a b]. cbn [fst snd] in *. pose proof (Z.div_pos a b Ha Hb) as Hq. pose proof (round_div_le a b).
      destruct (Z.eqb_spec (round_div a b) (a / b)), Hin as [<-|[<-|[]]]; lia. }
    split_and!; [|by apply candidate_bound|lia|lia|done]. destruct (Z.eq_dec c 0) as [->|]; [|lia].
    unfold reads, shift10 in Hr. exfalso. assert (round64 false 0 1 = Some (Float64.Fin m e)) as Hz by (by destruct (0 <=? t)). injection Hz as <- <-. lia.
Qed.
End digits.

(** ** Reading the text *)

Definition spell_exp (E : option (bool * list ascii)) : list ascii :=
  match E with None => [] | Some (neg, ds) => "e"%char :: (if neg then "-"%char else "+"%char) :: ds end.
Definition exp_value (E : option (bool * list ascii)) : Z :=
  match E with None => 0 | Some (neg, ds) => if neg then - undigits ds else undigits ds end.
Definition exp_ok (E : option (bool * list ascii)) : Prop :=
  match E with None => True | Some (_, ds) => ds ≠ [] ∧ Forall digit ds ∧ undigits ds < 10000 end.

Definition number (neg : bool) (int : list ascii) (point : bool) (frac : list ascii) (E : option (bool * list ascii)) : list ascii :=
  (if neg then ["-"%char] else []) ++ int ++ (if point then "."%char :: frac else []) ++ spell_exp E.

Definition round10 (neg : bool) (v t : Z) : option Float64.t :=
  if 0 <=? t then round64 neg (v * 10 ^ t) 1 else round64 neg v (10 ^ (- t)).

Lemma digit_other a : digit a → a ≠ "_"%char ∧ a ≠ "."%char ∧ lower a = a ∧ a ≠ "i"%char ∧ a ≠ "n"%char ∧ a ≠ "x"%char.
Proof.
  intros Ha. unfold lower, in_range. unfold digit in Ha. destruct (_ && _) eqn:E.
  - apply andb_true_iff in E as [E1%Nat.leb_le _]. lia.
  - split_and!; try done; intros ->; vm_compute in Ha; lia.
Qed.

Lemma mantissa_digits l v a dg r : Forall digit l →
  take_mantissa false (mkMantissa v a dg false) (l ++ r) =
  take_mantissa false (mkMantissa (read_digits v l) ((λ x, x + Z.of_nat (length l)) <$> a) (dg || (0 <? length l)%nat) false) r.
Proof.
  revert v a dg. induction l as [|b l IH]; intros v a dg Hd; cbn [app].
  - f_equal. rewrite orb_false_r. f_equal. destruct a as [x|]; [|done]. simpl. f_equal. lia.
  - apply Forall_cons in Hd as [Hb Hd]. destruct (digit_other b Hb) as (H1 & H2 & _). apply is_digit_iff in Hb.
    cbn [take_mantissa]. rewrite !bool_decide_eq_false_2 by done. unfold in_base. rewrite Hb. cbn [mn_value mn_after mn_under]. rewrite IH by done.
    f_equal. rewrite orb_true_r. f_equal. destruct a as [x|]; [|done]. simpl. f_equal. lia.
Qed.

Lemma exponent_digits ds e : 0 <= e → Forall digit ds → read_digits e ds < 10000 → take_exponent e false ds = (read_digits e ds, false, []).
Proof.
  revert e. induction ds as [|b ds IH]; intros e He Hd Hlt; [done|]. apply Forall_cons in Hd as [Hb Hd].
  pose proof (digit_val_range b Hb). change (read_digits e (b :: ds)) with (read_digits (10 * e + digit_val b) ds) in *.
  pose proof (read_digits_grows (10 * e + digit_val b) ds ltac:(lia) Hd). destruct (digit_other b Hb) as (H1 & _). apply is_digit_iff in Hb.
  cbn [take_exponent]. rewrite bool_decide_eq_false_2 by done. rewrite Hb, (proj2 (Z.ltb_lt e 10000)) by lia. apply IH; [lia|done|lia].
Qed.

Lemma exponent_spell E : exp_ok E → exponent "e"%char false (spell_exp E) = Some (exp_value E, false, []).
Proof.
  destruct E as [[neg ds]|]; [|done]. intros (Hne & Hd & Hlt). destruct ds as [|b ds]; [done|].
  pose proof (exponent_digits (b :: ds) 0 ltac:(done) Hd Hlt) as He. pose proof (Forall_inv Hd) as Hb%is_digit_iff.
  unfold exponent, spell_exp. rewrite bool_decide_eq_true_2 by done. 
  assert (split_sign ((if neg then "-"%char else "+"%char) :: b :: ds) = (neg, b :: ds)) as -> by by destruct neg.
  rewrite Hb, He. by destruct neg.
Qed.

Lemma special_digit neg signed a l : digit a → special neg signed (a :: l) = None.
Proof.
  intros Ha. destruct (digit_other a Ha) as (_ & _ & El & Hi & Hn & _). unfold special. cbn [map unbytes String.string_of_list_ascii]. rewrite El.
  rewrite !bool_decide_eq_false_2; [done|by intros [= ? _]..].
Qed.

Lemma no_hex a l : digit a → match l with b :: _ => lower b ≠ "x"%char | [] => True end → hex_prefix (a :: l) = None.
Proof.
  intros Ha Hl. unfold hex_prefix. destruct l as [|b [|c l]]; [done..|]. by rewrite (bool_decide_eq_false_2 (lower b = _)), andb_false_r by done.
Qed.

Lemma ParseFloat_number neg int point frac E : int ≠ [] → Forall digit int → Forall digit frac → (point = false → frac = []) → exp_ok E →
  ParseFloat (unbytes (number neg int point frac E)) =
  match round10 neg (undigits (int ++ frac)) (exp_value E - Z.of_nat (length frac)) with Some f => Ok f | None => Err [] end.
Proof.
  intros Hne Hi Hf Hp HE. unfold ParseFloat. unfold bytes, unbytes. rewrite String.list_ascii_of_string_of_list_ascii. unfold number.
  destruct int as [|a int]; [done|]. pose proof (Forall_inv Hi) as Ha. set (body := (a :: int) ++ (if point then "."%char :: frac else []) ++ spell_exp E).
  assert (split_sign ((if neg then ["-"%char] else []) ++ body) = (neg, body)) as ->.
  { destruct neg; [done|]. by apply split_sign_digits. }
  assert (special neg (bool_decide (body ≠ (if neg then ["-"%char] else []) ++ body)) body = None) as -> by by apply special_digit.
  assert (hex_prefix body = None) as ->.
  { apply no_hex; [done|]. destruct int as [|b int]; cbn [app].
    - destruct point; [done|]. destruct E as [[? ?]|]; done.
    - apply Forall_cons in Hi as [_ Hi]. pose proof (Forall_inv Hi) as Hb. destruct (digit_other b Hb) as (_ & _ & -> & _ & _ & Hx). done. }
  assert (take_mantissa false (mkMantissa 0 None false false) body =
    (mkMantissa (undigits ((a :: int) ++ frac)) (if point then Some (Z.of_nat (length frac)) else None) true false, spell_exp E)) as ->.
  { assert (∀ m, take_mantissa false m (spell_exp E) = (m, spell_exp E)) as Hend by (destruct E as [[? ?]|]; done).
    unfold body. rewrite mantissa_digits by done. cbn [fmap option_fmap option_map length Nat.ltb Nat.leb orb].
    destruct point; [|rewrite Hp, app_nil_r by done; by rewrite app_nil_l, Hend].
    cbn [app take_mantissa]. rewrite bool_decide_eq_false_2, bool_decide_eq_true_2 by done. cbn [mn_after mn_value mn_digits mn_under].
    rewrite mantissa_digits, Hend by done. cbn. do 2 f_equal. unfold undigits, read_digits. by rewrite foldl_app. }
  cbn [mn_digits mn_under negb]. rewrite exponent_spell by done. cbn [orb andb mn_after mn_value]. unfold round10.
  replace (exp_value E - 1 * default 0 (if point then Some (Z.of_nat (length frac)) else None)) with (exp_value E - Z.of_nat (length frac)); [done|].
  destruct point; [simpl; lia|]. by rewrite Hp.
Qed.

Lemma round10_val neg v t w u : 0 < v → 0 < w → (IZR v * pw 10 t = IZR w * pw 10 u)%R → round10 neg v t = round10 neg w u.
Proof.
  assert (∀ v t, round10 neg v t = round64 neg (shift10 v 1 t).1 (shift10 v 1 t).2) as Hr.
  { intros v' t'. unfold round10, shift10. destruct (0 <=? t'); cbn [fst snd]; [done|]. by rewrite Z.mul_1_l. }
  assert (∀ v t, 0 < v → 0 < (shift10 v 1 t).1) as Hp.
  { intros v' t' Hv'. unfold shift10. destruct (Z.leb_spec 0 t'); cbn [fst]; [|done]. pose proof (Z.pow_pos_nonneg 10 t'). nia. }
  intros Hv Hw E. rewrite !Hr. destruct (shift10_val v 1 t ltac:(done)) as [Hb1 H1], (shift10_val w 1 u ltac:(done)) as [Hb2 H2].
  apply round64_val; auto. by rewrite H1, H2, !val_1.
Qed.

Lemma round64_sign neg n d m e : 0 < m → round64 false n d = Some (Float64.Fin m e) → round64 neg n d = Some (Float64.Fin (if neg then - m else m) e).
Proof.
  intros Hm. destruct neg; [|done]. unfold round64. destruct (n =? 0); [intros [= <- _]; lia|].
  destruct (shift n d _) as [a b]. destruct (if round_div a b =? 2 ^ 53 then _ else _) as [m' e']. destruct (971 <? e'); [done|].
  destruct (m' =? 0); [intros [= <- _]; lia|]. by intros [= <- <-].
Qed.

(** The digits and the point of [decimal] denote what was read. *)
Lemma decimal_value m e ds dp : 0 < m → canonical (Float64.Fin m e) = true → decimal m e = (ds, dp) →
  ds ≠ [] ∧ Forall digit ds ∧ 0 < undigits ds ∧ -400 < dp < 400 ∧
  ∀ neg v t, 0 < v → (IZR v * pw 10 t = IZR (undigits ds) * pw 10 (dp - Z.of_nat (length ds)))%R →
    round10 neg v t = Some (Float64.Fin (if neg then - m else m) e).
Proof.
  intros Hm Hc. unfold decimal. destruct (shift m 1 e) as [n d] eqn:Es.
  assert (n = (shift m 1 e).1 ∧ d = (shift m 1 e).2) as [Hn Hd] by by rewrite Es. rewrite Hn, Hd. clear Es Hn Hd n d.
  set (k := point _ _ _ _). destruct (shortest 16 _ _ _ _) as [c s] eqn:Esh.
  apply (shortest_reads m e Hm Hc) in Esh as ([Hc0 Hc1] & Hs & Hr); [|fold k; lia..]. fold k in Hc1, Hs.
  assert (-324 <= k <= -324 + Z.of_nat 640) as Hk by apply point_range.
  destruct (pretty_spec c) as (Hd & Hu & Hl); [lia|]. set (cs := bytes (pretty c)) in *.
  assert (length cs <= 19)%nat as Hlen.
  { apply (Hl 19%nat); [lia|]. apply (Z.le_lt_trans _ (10 ^ (k - s))); [done|]. apply Z.pow_lt_mono_r; lia. }
  destruct (strip_zeros_spec (reverse cs)) as [z Hz].
  assert (cs = reverse (Time.strip_zeros (reverse cs)) ++ replicate z "0"%char) as Hsplit.
  { rewrite <-(reverse_involutive cs) at 1. rewrite Hz at 1. by rewrite reverse_app, reverse_replicate. }
  set (r := reverse (Time.strip_zeros (reverse cs))) in *. intros [= <- <-].
  assert (c = undigits r * 10 ^ Z.of_nat z) as Ec.
  { rewrite <-Hu, Hsplit, undigits_app, length_replicate. rewrite <-(app_nil_r (replicate z _)), undigits_zeros. change (undigits []) with 0. lia. }
  assert (0 < undigits r) as Hpos by (pose proof (Z.pow_pos_nonneg 10 (Z.of_nat z)); nia).
  split_and!; [by intros ->| |done|lia|lia|].
  - rewrite Hsplit in Hd. by apply Forall_app in Hd as [Hd _].
  - intros neg v t Hv E. rewrite (round10_val neg v t c s Hv Hc0).
    + unfold round10. unfold reads, shift10 in Hr. destruct (0 <=? s); [|rewrite Z.mul_1_l in Hr]; by apply round64_sign.
    + rewrite E, Ec, mult_IZR, <-pw_Z by lia. rewrite Rmult_assoc, <-pw_add by done. do 2 f_equal.
      rewrite Hsplit, length_app, length_replicate. lia.
Qed.

(** ** [formatDouble] *)

Lemma has_mark a l r : a ∈ ["."; "e"; "E"]%char → has_point_or_exponent (unbytes (l ++ a :: r)) = true.
Proof.
  intros Ha. unfold has_point_or_exponent, bytes, unbytes. rewrite String.list_ascii_of_string_of_list_ascii, existsb_app. simpl existsb.
  apply contains_spec in Ha. by rewrite Ha, orb_true_r.
Qed.

Lemma no_mark neg l : Forall digit l → has_point_or_exponent (unbytes ((if neg : bool then ["-"%char] else []) ++ l)) = false.
Proof.
  intros Hd. unfold has_point_or_exponent, bytes, unbytes. rewrite String.list_ascii_of_string_of_list_ascii, existsb_app.
  replace (existsb _ (if neg then _ else _)) with false by (by destruct neg). cbn [orb].
  induction l as [|a l IH]; [done|]. apply Forall_cons in Hd as [Ha Hd]. cbn [existsb]. rewrite IH, orb_false_r by done.
  destruct (contains _ a) eqn:E; [|done]. apply contains_spec in E. rewrite !elem_of_cons, elem_of_nil in E. unfold digit in Ha.
  destruct_or! E; subst; vm_compute in Ha; lia.
Qed.

Lemma undigits_pos_app a l : Forall digit l → 0 < undigits a → 0 < undigits (a ++ l).
Proof.
  intros Hd Ha. unfold undigits in *. rewrite foldl_app. pose proof (read_digits_grows (foldl (λ n a, 10 * n + digit_val a) 0 a) l ltac:(lia) Hd) as H.
  unfold read_digits in H. lia.
Qed.

Lemma unbytes_app l r : unbytes (l ++ r) = unbytes l +:+ unbytes r.
Proof. induction l as [|a l IH]; [done|]. cbn [app unbytes String.string_of_list_ascii]. unfold unbytes in IH. by rewrite IH. Qed.

Lemma zeros_digit k : Forall digit (replicate k "0"%char).
Proof. apply Forall_replicate. vm_compute. lia. Qed.

(** What [formatDouble] makes of the digits reads as the number they denote. *)
Lemma fmtG_reads neg ds dp : ds ≠ [] → Forall digit ds → 0 < undigits ds → -400 < dp < 400 →
  ∃ v t, 0 < v ∧ (IZR v * pw 10 t = IZR (undigits ds) * pw 10 (dp - Z.of_nat (length ds)))%R ∧
    ParseFloat (let s := fmtG neg ds dp in if has_point_or_exponent s then s else s +:+ ".0") =
    match round10 neg v t with Some f => Ok f | None => Err [] end.
Proof.
  intros Hne Hd Hpos Hdp. unfold fmtG. set (sgn := if neg then ["-"%char] else []). destruct ds as [|a ds']; [done|]. set (ds := a :: ds') in *.
  assert (length ds = S (length ds')) as Hlen by done.
  destruct ((dp - 1 <? -4) || (6 <=? dp - 1)) eqn:Ex.
  - (* exponent form *)
    set (x := dp - 1). set (E := Some (x <? 0, bytes (Time.pad 2 (Z.abs x)))).
    assert (exp_ok E) as HE.
    { destruct (pad_spec 2 (Z.abs x) ltac:(lia)) as [H1 H2]. split_and!; [|done|rewrite H2; lia].
      intros Hnil. unfold Time.pad in Hnil. rewrite bytes_app in Hnil. destruct (pretty_pos_head (Z.abs x) ltac:(lia)) as (b & l & Hb & _).
      rewrite Hb in Hnil. by apply app_eq_nil in Hnil as [_ Hnil]. }
    assert (exp_value E = x) as Hx.
    { unfold exp_value, E. destruct (pad_spec 2 (Z.abs x) ltac:(lia)) as [_ ->]. destruct (Z.ltb_spec x 0); lia. }
    exists (undigits ds), (x - Z.of_nat (length ds')). split_and!; [done|do 2 f_equal; lia|].
    assert (sgn ++ fmtE ds dp = number neg [a] (1 <? length ds)%nat (if (1 <? length ds)%nat then ds' else []) E) as ->.
    { unfold number, fmtE, ds. fold sgn. f_equal. destruct ds'; simpl; fold x; by destruct (x <? 0). }
    assert (has_point_or_exponent (unbytes (number neg [a] (1 <? length ds)%nat (if (1 <? length ds)%nat then ds' else []) E)) = true) as ->.
    { unfold number, E. rewrite !app_assoc. apply has_mark. set_solver. }
    apply Forall_cons in Hd as [Ha Hd'].
    rewrite ParseFloat_number; [|done|by constructor|by destruct (1 <? length ds)%nat|by intros ->|done]. rewrite Hx. unfold ds. by destruct ds'.
  - unfold fmtF. destruct (Z.leb_spec dp 0) as [H0|H0].
    + (* 0.000ddd *)
      rewrite (proj2 (Z.leb_gt (Z.of_nat (length ds)) dp)) by lia. replace (Z.to_nat dp) with 0%nat by lia. change (drop 0 ds) with ds.
      set (z := Z.to_nat (- dp)). exists (undigits ds), (dp - Z.of_nat (length ds)). split_and!; [done|done|].
      rewrite !app_assoc. rewrite has_mark by set_solver.
      pose proof (ParseFloat_number neg ["0"%char] true (replicate z "0"%char ++ ds) None) as H. unfold number in H. fold sgn in H. cbn [spell_exp] in H.
      rewrite app_nil_r in H. rewrite <-app_assoc. cbn [app] in H |- *. rewrite H; clear H; [|done|repeat constructor; vm_compute; lia| |done|done].
      * change ("0"%char :: replicate z "0"%char ++ ds) with (replicate (S z) "0"%char ++ ds). rewrite undigits_zeros, length_app, length_replicate.
        replace (exp_value None - Z.of_nat (z + length ds)) with (dp - Z.of_nat (length ds)) by (simpl exp_value; lia). done.
      * apply Forall_app. split; [apply zeros_digit|done].
    + destruct (Z.leb_spec (Z.of_nat (length ds)) dp) as [H1|H1].
      * (* ddd000.0 *)
        set (z := (Z.to_nat dp - length ds)%nat). rewrite take_ge by lia. rewrite app_nil_r.
        assert (Forall digit (ds ++ replicate z "0"%char)) as Hall by (apply Forall_app; split; [done|apply zeros_digit]).
        unfold sgn. rewrite no_mark by done. fold sgn. exists (undigits ((ds ++ replicate z "0"%char) ++ ["0"%char])), (-1). split_and!.
        -- apply undigits_pos_app; [repeat constructor; vm_compute; lia|]. apply undigits_pos_app; [apply zeros_digit|done].
        -- rewrite <-app_assoc, undigits_app. change ["0"%char] with (replicate 1 "0"%char). rewrite <-replicate_add.
           rewrite <-(app_nil_r (replicate (z + 1) _)) at 2. rewrite undigits_zeros. change (undigits []) with 0. rewrite Z.add_0_r, mult_IZR.
           rewrite <-pw_Z by lia. rewrite Rmult_assoc, <-pw_add by done. do 2 f_equal. rewrite length_replicate. lia.
        -- pose proof (ParseFloat_number neg (ds ++ replicate z "0"%char) true ["0"%char] None) as H. unfold number in H. fold sgn in H.
           assert (unbytes (sgn ++ ds ++ replicate z "0"%char) +:+ ".0" = unbytes (sgn ++ (ds ++ replicate z "0"%char) ++ ["."; "0"]%char ++ spell_exp None)) as ->.
           { trans (unbytes ((sgn ++ ds ++ replicate z "0"%char) ++ ["."; "0"]%char)); [symmetry; apply unbytes_app|by rewrite <-(app_assoc sgn)]. }
           rewrite H; [done|by destruct ds|done|repeat constructor; vm_compute; lia|done|done].
      * (* dd.ddd *)
        replace (Z.to_nat dp - length ds)%nat with 0%nat by lia. replace (Z.to_nat (- dp)) with 0%nat by lia. cbn [replicate app]. rewrite app_nil_r.
        exists (undigits ds), (dp - Z.of_nat (length ds)). split_and!; [done|done|]. rewrite app_assoc, has_mark by set_solver.
        pose proof (ParseFloat_number neg (take (Z.to_nat dp) ds) true (drop (Z.to_nat dp) ds) None) as H. unfold number in H. fold sgn in H.
        cbn [spell_exp] in H. rewrite app_nil_r in H. rewrite <-app_assoc. rewrite H; clear H.
        -- rewrite take_drop, length_drop. simpl exp_value. replace (0 - Z.of_nat (length ds - Z.to_nat dp)) with (dp - Z.of_nat (length ds)) by lia. done.
        -- destruct (Z.to_nat dp) eqn:Ed; [lia|]. done.
        -- by apply Forall_take.
        -- by apply Forall_drop.
        -- done.
        -- done.
Qed.

Lemma ParseFloat_formatDouble f : canonical f = true → ParseFloat (formatDouble f) = Ok f.
Proof.
  destruct f as [| | |M e]; try done. intros Hc. destruct (Z.eq_dec M 0) as [->|Hne].
  { assert (e = 0) as -> by (unfold canonical in Hc; rewrite !orb_true_iff, !andb_true_iff, !Z.eqb_eq, !Z.leb_le, !Z.ltb_lt in Hc; lia). done. }
  assert (canonical (Float64.Fin (Z.abs M) e) = true) as Hc'.
  { unfold canonical in Hc |- *. rewrite Z.abs_involutive. rewrite !orb_true_iff, !andb_true_iff, !Z.eqb_eq in *. lia. }
  unfold formatDouble, FormatFloat. rewrite (proj2 (Z.eqb_neq M 0)) by done. destruct (decimal (Z.abs M) e) as [ds dp] eqn:E.
  apply decimal_value in E as (H1 & H2 & H3 & H4 & H5); [|lia|done].
  destruct (fmtG_reads (M <? 0) ds dp H1 H2 H3 H4) as (v & t & Hv & Hval & Hp). cbv zeta in Hp |- *. rewrite Hp. rewrite (H5 _ v t Hv Hval).
  do 2 f_equal. destruct (Z.ltb_spec M 0); lia.
Qed.

(** ** Every finite double that is read has the form the arithmetic produces *)

Lemma round_div_between a b lo hi : 0 < b → (IZR lo <= val a b)%R → (val a b < IZR hi)%R → lo <= round_div a b <= hi.
Proof.
  intros Hb H1 H2. pose proof (val_near a b Hb) as Hn%Rabs_between. set (r := round_div a b) in *. split.
  - assert (IZR (lo - 1) < IZR r)%R as H%lt_IZR; [rewrite minus_IZR; lra|lia].
  - assert (IZR r < IZR (hi + 1))%R as H%lt_IZR; [rewrite plus_IZR; lra|lia].
Qed.

Lemma round64_canonical neg n d f : 0 <= n → 0 < d → round64 neg n d = Some f → canonical f = true.
Proof.
  intros Hn Hd. unfold round64. destruct (Z.eqb_spec n 0) as [->|Hn0]; [by destruct neg; intros [= <-]|].
  set (e := Z.max _ _). destruct (shift_val n d (- e) Hd) as [Hb Hv]. destruct (shift n d (- e)) as [a b]. cbn [fst snd] in *.
  destruct (ilog2_spec n d) as [Hl1 Hl2]; [lia|done|]. set (l := ilog2 n d) in *.
  assert (0 <= round_div a b <= 2 ^ 53 ∧ (e = -1074 ∨ 2 ^ 52 <= round_div a b)) as [Hr Hlow].
  { rewrite <-pw2_succ in Hl2. pose proof (pw_pos 2 (- e) ltac:(done)) as Hp.
    assert (∀ j, pw 2 j * pw 2 (- e) = pw 2 (j - e))%R as Hj by (intros j; rewrite <-pw_add by done; f_equal; lia).
    assert (val a b < pw 2 53)%R as Hhi.
    { rewrite Hv. apply (Rlt_le_trans _ (pw 2 (l + 1 - e))); [rewrite <-Hj; nra|]. apply pw_le; lia. }
    assert (0 <= val a b)%R as H0 by (rewrite Hv; pose proof (pw_pos 2 l ltac:(done)); nra).
    split; [apply round_div_between; [done|done|by rewrite <-pw_Z]|]. destruct (Z.eq_dec e (-1074)); [by left|right].
    apply (round_div_between a b (2 ^ 52) (2 ^ 53)); [done| |by rewrite <-pw_Z]. rewrite <-pw_Z by done. rewrite Hv.
    trans (pw 2 (l - e)); [apply pw_le; lia|]. rewrite <-Hj. nra. }
  destruct (Z.eqb_spec (round_div a b) (2 ^ 53)) as [E|E].
  - destruct (Z.ltb_spec 971 (e + 1)); [done|]. change (2 ^ 52 =? 0) with false. cbv iota. intros [= <-]. unfold canonical.
    rewrite !orb_true_iff, !andb_true_iff, !Z.leb_le, !Z.ltb_lt. left. right. destruct neg; lia.
  - destruct (Z.ltb_spec 971 e); [done|]. destruct (Z.eqb_spec (round_div a b) 0); [by destruct neg; intros [= <-]|]. intros [= <-]. unfold canonical.
    rewrite !orb_true_iff, !andb_true_iff, !Z.leb_le, !Z.ltb_lt, !Z.eqb_eq. destruct neg; lia.
Qed.

Lemma hex_val_range a v : hex_val a = Some v → 0 <= v.
Proof.
  unfold hex_val. destruct (is_digit a) eqn:E; [intros [= <-]; apply is_digit_iff in E; by apply digit_val_range|].
  destruct (in_range _ _ _) eqn:E'; [|done]. intros [= <-]. unfold in_range in E'. apply andb_true_iff in E' as [H%Nat.leb_le _]. lia.
Qed.

Lemma mantissa_nonneg hex m l : 0 <= mn_value m → 0 <= mn_value (take_mantissa hex m l).1.
Proof.
  revert m. induction l as [|a l IH]; intros m Hm; cbn [take_mantissa]; [done|].
  case_bool_decide; [by apply IH|]. case_bool_decide; [destruct (mn_after m); [done|by apply IH]|].
  destruct (in_base hex a) as [v|] eqn:E; [|done]. apply IH. simpl.
  assert (0 <= v).
  { destruct hex; simpl in E; [by eapply hex_val_range|]. destruct (is_digit a) eqn:Ed; [|done]. injection E as <-. apply is_digit_iff in Ed. by apply digit_val_range. }
  destruct hex; lia.
Qed.

Lemma ParseFloat_canonical s f : ParseFloat s = Ok f → Float64.is_finite f = true → canonical f = true.
Proof.
  unfold ParseFloat. destruct (split_sign (bytes s)) as [neg l]. destruct (special neg _ l) as [g|] eqn:Es.
  { intros [= <-] Hf. exfalso. unfold special in Es. destruct (_ || _); [by injection Es as <-|]. destruct (_ && _); [by injection Es as <-|done]. }
  destruct (match hex_prefix l with Some _ => _ | None => _ end) as [hex body].
  pose proof (mantissa_nonneg hex (mkMantissa 0 None false false) body ltac:(done)) as Hm. destruct (take_mantissa _ _ body) as [m r]. cbn [fst] in Hm.
  destruct (negb _); [done|]. destruct (exponent _ hex r) as [[[e u] [|]]|]; [|done..]. destruct (_ && negb _); [done|].
  set (t := e - _). set (b := if hex then 2 else 10). assert (∀ k, 0 < b ^ Z.max 0 k) as Hb by (intros k; apply Z.pow_pos_nonneg; destruct hex; lia).
  destruct (Z.leb_spec 0 t).
  - destruct (round64 neg _ 1) as [g|] eqn:E; [|done]. intros [= <-] _. apply round64_canonical in E; [done| |done].
    specialize (Hb t). rewrite Z.max_r in Hb by done. nia.
  - destruct (round64 neg _ _) as [g|] eqn:E; [|done]. intros [= <-] _. apply round64_canonical in E; [done|done|].
    specialize (Hb (- t)). rewrite Z.max_r in Hb by lia. done.
Qed.
