(* ===== verification/Decode.v ===== *)
(** * Reading policy documents

    Models the second half of internal/policy/codec.go: a stream of YAML documents
    becomes a policy set, or the diagnostics of everything malformed in it.  Reading
    does not stop at the first problem, so each reader returns what it made of a node
    together with what it reported, in order; the wording of a report is left out.
    Conditions and operands nest, and their readers recurse with the depth of the node
    as fuel. *)
From Stdlib Require Import Ascii.
From S2P Require Import Prelude GoLib Policy Cel Validate Strconv Text Encode.
Import Strings.

Definition CodeInvalidYAML : Code := "invalid_yaml".
Definition CodeUnknownAPIVersion : Code := "unknown_api_version".
Definition CodeUnknownKind : Code := "unknown_kind".
Definition CodeUnknownKey : Code := "unknown_key".
Definition CodeUnknownChallenge : Code := "unknown_challenge".

(** ** Values with reports *)

Definition W (A : Type) : Type := A * Diagnostics.
Definition wret {A} (a : A) : W A := (a, []).
Definition wbind {A B} (m : W A) (f : A → W B) : W B := let '(a, ds) := m in let '(b, ds') := f a in (b, ds ++ ds').
Definition report {A} (a : A) (ptr : string) (code : Code) : W A := (a, [mkDiagnostic ptr code]).
Notation "'let+' x ':=' m 'in' k" := (wbind m (λ x, k)) (at level 200, x name, m at level 100, k at level 200).

Definition is_kind (k : ykind) (n : ynode) : bool := bool_decide (Kind n = k).

(** [walk]: each entry of a mapping goes to the handler of its key, which updates the
    value being read; an unknown key is reported. *)
Definition handler (S : Type) : Type := S → ynode → W S.
Definition handler_of {S} (hs : list (string * handler S)) (key : string) : option (handler S) :=
  snd <$> List.find (λ h, bool_decide (h.1 = key)) hs.

Fixpoint walk_entries {S} (ptr : string) (hs : list (string * handler S)) (es : list (ynode * ynode)) (s : S) : W S :=
  match es with
  | [] => wret s
  | (k, v) :: es =>
      let+ s1 := match handler_of hs (Value k) with
                 | Some h => h s v
                 | None => report s (jptr [Seg ptr; Seg (Value k)]) CodeUnknownKey
                 end in
      walk_entries ptr hs es s1
  end.

Definition walk {S} (node : ynode) (ptr : string) (hs : list (string * handler S)) (s : S) : W S :=
  if is_kind MappingNode node then walk_entries ptr hs (entries (Content node)) s
  else report s ptr CodeInvalidDocument.

Definition skip {S} : handler S := λ s _, wret s.

Definition scalarString (node : ynode) (ptr : string) : W string :=
  if is_kind ScalarNode node then wret (Value node) else report "" ptr CodeInvalidValue.

(** A handler that stores a scalar. *)
Definition text_into {S} (ptr key : string) (store : S → string → S) : string * handler S :=
  (key, λ s n, let+ v := scalarString n (jptr [Seg ptr; Seg key]) in wret (store s v)).

Fixpoint items_from {A} (read : ynode → nat → W A) (i : nat) (items : list ynode) : W (list A) :=
  match items with
  | [] => wret []
  | item :: items => let+ a := read item i in let+ l := items_from read (S i) items in wret (a :: l)
  end.

Definition stringSequence (node : ynode) (ptr : string) : W (list string) :=
  if is_kind SequenceNode node then items_from (λ item i, scalarString item (jptr [Seg ptr; Idx i])) 0 (Content node)
  else report [] ptr CodeInvalidValue.

(** ** Constants *)

Definition typeForTag (tag : string) : option Typ :=
  if bool_decide (tag = "!!bool") then Some TypeBool
  else if bool_decide (tag = "!!int") then Some TypeInt
  else if bool_decide (tag = "!!float") then Some TypeDouble
  else if bool_decide (tag = "!!str") then Some TypeString
  else if bool_decide (tag = "!!timestamp") then Some TypeTimestamp
  else None.

Definition parsed_or {A} (r : result A) (mk : A → value) (ptr : string) : W (option value) :=
  match r with Ok a => wret (Some (mk a)) | Err _ => report None ptr CodeInvalidValue end.

Definition finite (r : result Float64.t) : result Float64.t :=
  let? f := r in if Float64.is_finite f then Ok f else Err [].

Definition scalarData (t : Typ) (node : ynode) (ptr : string) : W (option value) :=
  let raw := Value node in
  if negb (is_kind ScalarNode node) then report None ptr CodeInvalidValue
  else if bool_decide (t = TypeBool) then parsed_or (ParseBool raw) VBool ptr
  else if bool_decide (t = TypeInt) then parsed_or (ParseInt raw) VInt ptr
  else if bool_decide (t = TypeDouble) then parsed_or (finite (ParseFloat raw)) VDouble ptr
  else if bool_decide (t = TypeString) then wret (Some (VString raw))
  else if bool_decide (t = TypeTimestamp) then parsed_or (Parse_RFC3339Nano raw) VTime ptr
  else if bool_decide (t = TypeDuration) then parsed_or (ParseDuration raw) VDuration ptr
  else report None ptr CodeUnknownType.

Definition literal (t : Typ) (data : option value) : Operand :=
  match data with Some v => Lit (mkLiteral t v) | None => OperandNil end.

(** The elements up to the first that cannot be read. *)
Fixpoint all_items {A} (read : ynode → nat → W (option A)) (i : nat) (items : list ynode) : W (option (list A)) :=
  match items with
  | [] => wret (Some [])
  | item :: items =>
      let+ a := read item i in
      match a with
      | None => wret None
      | Some a => let+ l := all_items read (S i) items in wret (cons a <$> l)
      end
  end.

Definition inferredScalar (node : ynode) (ptr : string) : W Operand :=
  match typeForTag (Tag node) with
  | None => report OperandNil ptr CodeInvalidValue
  | Some t => let+ data := scalarData t node ptr in wret (literal t data)
  end.

Definition inferredList (node : ynode) (ptr : string) : W Operand :=
  match Content node with
  | [] => report OperandNil ptr CodeInvalidValue
  | first :: _ =>
      match typeForTag (Tag first) with
      | None => report OperandNil (jptr [Seg ptr; Idx 0]) CodeInvalidValue
      | Some elem =>
          let+ items := all_items (λ item i,
            let p := jptr [Seg ptr; Idx i] in
            if bool_decide (typeForTag (Tag item) = Some elem) then scalarData elem item p
            else report None p CodeTypeMismatch) 0 (Content node) in
          wret (literal (ListOf elem) (VList <$> items))
      end
  end.

Definition typedValue (value : ynode) (typeNode : option ynode) (ptr : string) : W Operand :=
  let vptr := jptr [Seg ptr; Seg "value"] in
  match typeNode with
  | None =>
      match Kind value with
      | ScalarNode => inferredScalar value vptr
      | SequenceNode => inferredList value vptr
      | _ => report OperandNil vptr CodeInvalidValue
      end
  | Some typeNode =>
      let+ declared := scalarString typeNode (jptr [Seg ptr; Seg "type"]) in
      if negb (Type_Valid declared) then report OperandNil (jptr [Seg ptr; Seg "type"]) CodeUnknownType
      else if IsList declared then
        if negb (is_kind SequenceNode value) then report OperandNil vptr CodeInvalidValue
        else
          let+ items := all_items (λ item i, scalarData (Elem declared) item (jptr [Seg ptr; Seg "value"; Idx i])) 0 (Content value) in
          wret (literal declared (VList <$> items))
      else let+ data := scalarData declared value vptr in wret (literal declared data)
  end.

(** ** Operands *)

(** [strings.Cut(s, ".")]. *)
Fixpoint cut_dot (l : list ascii) : option (list ascii * list ascii) :=
  match l with
  | [] => None
  | a :: l => if bool_decide (a = "."%char) then Some ([], l) else '(b, r) ← cut_dot l; Some (a :: b, r)
  end.

Definition fieldRef (node : ynode) (ptr : string) : W Operand :=
  let fptr := jptr [Seg ptr; Seg "field"] in
  let+ raw := scalarString node fptr in
  match cut_dot (bytes raw) with
  | None => report OperandNil fptr CodeInvalidValue
  | Some (role, attribute) => wret (FieldRef (spelled (unbytes role)) (unbytes attribute))
  end.

(** The first key an operand may not have. *)
Definition stray_key (es : list (ynode * ynode)) : option string :=
  List.find (λ k, negb (contains ["field"; "source"; "args"; "value"; "type"] k)) (map (λ kv, Value kv.1) es).

(** A nil operand ends the loop over the arguments. *)
Definition non_nil (m : W Operand) : W (option Operand) :=
  let+ o := m in wret (match o with OperandNil => None | _ => Some o end).

Definition operandMapping (operand : ynode → string → W Operand) (node : ynode) (ptr : string) : W Operand :=
  let es := entries (Content node) in
  match stray_key es with
  | Some key => report OperandNil (jptr [Seg ptr; Seg key]) CodeUnknownKey
  | None =>
      match present es "field", present es "source", present es "value" with
      | Some field, _, _ => fieldRef field ptr
      | None, Some source, _ =>
          let+ name := scalarString source (jptr [Seg ptr; Seg "source"]) in
          match present es "args" with
          | None => wret (SourceRef name [])
          | Some args =>
              if negb (is_kind SequenceNode args) then report OperandNil (jptr [Seg ptr; Seg "args"]) CodeInvalidValue
              else
                let+ l := all_items (λ item i, non_nil (operand item (jptr [Seg ptr; Seg "args"; Idx i]))) 0 (Content args) in
                wret (match l with Some l => SourceRef name l | None => OperandNil end)
          end
      | None, None, Some value => typedValue value (present es "type") ptr
      | None, None, None => report OperandNil ptr CodeInvalidOperand
      end
  end.

Definition operand_body (operand : ynode → string → W Operand) (node : ynode) (ptr : string) : W Operand :=
  match Kind node with
  | ScalarNode => inferredScalar node ptr
  | SequenceNode => inferredList node ptr
  | MappingNode => operandMapping operand node ptr
  | _ => report OperandNil ptr CodeInvalidOperand
  end.

Fixpoint operand_go (fuel : nat) (node : ynode) (ptr : string) : W Operand :=
  match fuel with
  | O => wret OperandNil
  | S fuel => operand_body (operand_go fuel) node ptr
  end.

Definition operand (node : ynode) (ptr : string) : W Operand := operand_go (depth node) node ptr.

(** ** Conditions *)

Definition is_nil_operand (o : Operand) : bool := match o with OperandNil => true | _ => false end.

Definition leaf (es : list (ynode * ynode)) (left_node : ynode) (ptr : string) : W Node :=
  let+ l := operand left_node (jptr [Seg ptr; Seg "left"]) in
  if negb (is_Reference l) then report NodeNil (jptr [Seg ptr; Seg "left"]) CodeInvalidOperand
  else
    let member key negate collection :=
      let+ c := operand collection (jptr [Seg ptr; Seg key]) in
      wret (if is_nil_operand l || is_nil_operand c then NodeNil else Member l c negate) in
    match present es "in", present es "not_in" with
    | Some collection, _ => member "in" false collection
    | None, Some collection => member "not_in" true collection
    | None, None =>
        match present es "op", present es "right" with
        | Some op, Some right_node =>
            let+ r := operand right_node (jptr [Seg ptr; Seg "right"]) in
            if is_nil_operand l || is_nil_operand r then wret NodeNil
            else let+ name := scalarString op (jptr [Seg ptr; Seg "op"]) in wret (Compare l (spelled name) r)
        | _, _ => report NodeNil ptr CodeMissingField
        end
    end.

Definition non_nil_node (m : W Node) : W (option Node) :=
  let+ n := m in wret (match n with NodeNil => None | _ => Some n end).

Definition logic (condition : ynode → string → W Node) (op : LogicOp) (seq : ynode) (ptr : string) : W Node :=
  if negb (is_kind SequenceNode seq) then report NodeNil (jptr [Seg ptr; Seg (spelling op)]) CodeInvalidValue
  else
    let+ operands := all_items (λ item i, non_nil_node (condition item (jptr [Seg ptr; Seg (spelling op); Idx i]))) 0 (Content seq) in
    wret (match operands with Some l => Logic op l | None => NodeNil end).

Definition condition_body (condition : ynode → string → W Node) (node : ynode) (ptr : string) : W Node :=
  if negb (is_kind MappingNode node) then report NodeNil ptr CodeInvalidDocument
  else
    let es := entries (Content node) in
    match present es "all", present es "any", present es "not", present es "left" with
    | Some seq, _, _, _ => logic condition LogicAll seq ptr
    | None, Some seq, _, _ => logic condition LogicAny seq ptr
    | None, None, Some inner, _ =>
        let+ n := condition inner (jptr [Seg ptr; Seg "not"]) in
        wret (match n with NodeNil => NodeNil | _ => Logic LogicNot [n] end)
    | None, None, None, Some left_node => leaf es left_node ptr
    | None, None, None, None => report NodeNil ptr CodeInvalidDocument
    end.

Fixpoint condition_go (fuel : nat) (node : ynode) (ptr : string) : W Node :=
  match fuel with
  | O => wret NodeNil
  | S fuel => condition_body (condition_go fuel) node ptr
  end.

Definition condition (node : ynode) (ptr : string) : W Node := condition_go (depth node) node ptr.

(** ** Challenges *)

Definition scalarInt (node : ynode) (ptr : string) : W Z :=
  let+ raw := scalarString node ptr in
  match ParseInt raw with Ok v => wret v | Err _ => report 0%Z ptr CodeInvalidValue end.

Definition scalarDuration (node : ynode) (ptr : string) : W Time.duration :=
  let+ raw := scalarString node ptr in
  match ParseDuration raw with Ok v => wret v | Err _ => report 0%Z ptr CodeInvalidValue end.

(** The set read so far, and whether nothing was wrong with it. *)
Definition approvers : Type := ApproverSet * bool.

Definition set_source (a : ApproverSet) (src : string * list Operand) : ApproverSet := mkApproverSet (as_Members a) (as_Claim a) (Some src).
Definition source_of (a : ApproverSet) : string * list Operand := default ("", []) (as_Source a).

(** Arguments that can be read are kept even when another one cannot. *)
Fixpoint approver_args (ptr : string) (i : nat) (items : list ynode) : W (list Operand * bool) :=
  match items with
  | [] => wret ([], true)
  | item :: items =>
      let+ o := operand item (jptr [Seg ptr; Seg "args"; Idx i]) in
      let+ r := approver_args ptr (S i) items in
      wret (if is_nil_operand o then (r.1, false) else (o :: r.1, r.2))
  end.

Definition approver_entry (ptr : string) (s : approvers) (k v : ynode) : W approvers :=
  let '(a, ok) := s in
  let key := Value k in
  if bool_decide (key = "members") then
    let+ l := stringSequence v (jptr [Seg ptr; Seg "members"]) in wret (mkApproverSet l (as_Claim a) (as_Source a), ok)
  else if bool_decide (key = "claim") then
    let+ c := scalarString v (jptr [Seg ptr; Seg "claim"]) in wret (mkApproverSet (as_Members a) c (as_Source a), ok)
  else if bool_decide (key = "source") then
    let+ n := scalarString v (jptr [Seg ptr; Seg "source"]) in wret (set_source a (n, (source_of a).2), ok)
  else if bool_decide (key = "args") then
    if negb (is_kind SequenceNode v) then
      report (set_source a (source_of a), false) (jptr [Seg ptr; Seg "args"]) CodeInvalidValue
    else
      let+ r := approver_args ptr 0 (Content v) in
      wret (set_source a ((source_of a).1, (source_of a).2 ++ r.1), ok && r.2)
  else report (a, false) (jptr [Seg ptr; Seg key]) CodeUnknownKey.

Fixpoint approver_entries (ptr : string) (es : list (ynode * ynode)) (s : approvers) : W approvers :=
  match es with
  | [] => wret s
  | (k, v) :: es => let+ s1 := approver_entry ptr s k v in approver_entries ptr es s1
  end.

Definition approverSet (node : ynode) (ptr : string) : W (option ApproverSet) :=
  if negb (is_kind MappingNode node) then report None ptr CodeInvalidValue
  else
    let+ s := approver_entries ptr (entries (Content node)) (mkApproverSet [] "" None, true) in
    wret (if s.2 then Some s.1 else None).

Definition no_approvers : ApproverSet := mkApproverSet [] "" None.

Definition quorum_handlers (ptr : string) : list (string * handler Quorum) :=
  [("type", skip);
   ("threshold", λ c n, let+ v := scalarInt n (jptr [Seg ptr; Seg "threshold"]) in wret (mkQuorum v (q_Approvers c)));
   ("approvers", λ c n,
      let+ set := approverSet n (jptr [Seg ptr; Seg "approvers"]) in
      wret (match set with Some a => mkQuorum (q_Threshold c) a | None => c end))].

Definition mfa_handlers (ptr : string) : list (string * handler MFA) :=
  [("type", skip);
   text_into ptr "mode" (λ c v, mkMFA (spelled v) (mfa_ACRValues c));
   ("acr_values", λ c n, let+ l := stringSequence n (jptr [Seg ptr; Seg "acr_values"]) in wret (mkMFA (mfa_Mode c) l))].

Definition delay_handlers (ptr : string) : list (string * handler Delay) :=
  [("type", skip);
   ("duration", λ c n, let+ v := scalarDuration n (jptr [Seg ptr; Seg "duration"]) in wret (mkDelay v (d_CancellableBy c)));
   ("cancellable_by", λ c n,
      let+ set := approverSet n (jptr [Seg ptr; Seg "cancellable_by"]) in wret (mkDelay (d_Duration c) set))].

Definition external_handlers (ptr : string) : list (string * handler External) :=
  [("type", skip); text_into ptr "target" (λ _ v, mkExternal v)].

Definition read_as {S} (mk : S → Challenge) (node : ynode) (ptr : string) (hs : list (string * handler S)) (zero : S) : W (option Challenge) :=
  let+ c := walk node ptr hs zero in wret (Some (mk c)).

Definition challenge (node : ynode) (ptr : string) : W (option Challenge) :=
  if negb (is_kind MappingNode node) then report None ptr CodeInvalidValue
  else
    match spelled (match present (entries (Content node)) "type" with Some n => Value n | None => "" end) with
    | ChallengeQuorum => read_as CQuorum node ptr (quorum_handlers ptr) (mkQuorum 0 no_approvers)
    | ChallengeMFA => read_as CMFA node ptr (mfa_handlers ptr) (mkMFA DefaultMFAMode [])
    | ChallengeDelay => read_as CDelay node ptr (delay_handlers ptr) (mkDelay 0%Z None)
    | ChallengeExternal => read_as CExternal node ptr (external_handlers ptr) (mkExternal "")
    | ChallengeOther _ => report None (jptr [Seg ptr; Seg "type"]) CodeUnknownChallenge
    end.

(** A challenge that cannot be read is left out. *)
Definition challenges (node : ynode) (ptr : string) : W (list Challenge) :=
  if is_kind SequenceNode node then
    let+ l := items_from (λ item i, challenge item (jptr [Seg ptr; Idx i])) 0 (Content node) in wret (omap id l)
  else report [] ptr CodeInvalidValue.

(** ** The schema document *)

Fixpoint attributes_from (ptr : string) (es : list (ynode * ynode)) : W (list Attribute) :=
  match es with
  | [] => wret []
  | (k, v) :: es =>
      let+ t := scalarString v (jptr [Seg ptr; Seg (Value k)]) in
      let+ l := attributes_from ptr es in wret (mkAttribute (Value k) t :: l)
  end.

Definition attributes (node : ynode) (ptr : string) : W (list Attribute) :=
  if is_kind MappingNode node then attributes_from ptr (entries (Content node)) else report [] ptr CodeInvalidValue.

Definition entity_handlers (ptr : string) : list (string * handler EntityType) :=
  [text_into ptr "name" (λ e v, mkEntityType v (ent_Attributes e));
   ("attributes", λ e n, let+ l := attributes n (jptr [Seg ptr; Seg "attributes"]) in wret (mkEntityType (ent_Name e) l))].

(** A pointer counts from the declarations read before. *)
Definition entities (before : list EntityType) (node : ynode) : W (list EntityType) :=
  if is_kind SequenceNode node then
    let+ l := items_from (λ item i,
      let ptr := jptr [Seg "schema"; Seg "entities"; Idx i] in walk item ptr (entity_handlers ptr) (mkEntityType "" []))
      (length before) (Content node) in
    wret (before ++ l)
  else report before "/schema/entities" CodeInvalidValue.

Definition action_handlers (ptr : string) : list (string * handler Action) :=
  [text_into ptr "name" (λ a v, mkAction v (act_Description a));
   text_into ptr "description" (λ a v, mkAction (act_Name a) v)].

Definition actions (before : list Action) (node : ynode) : W (list Action) :=
  if is_kind SequenceNode node then
    let+ l := items_from (λ item i,
      let ptr := jptr [Seg "schema"; Seg "actions"; Idx i] in
      if is_kind ScalarNode item then wret (mkAction (Value item) "") else walk item ptr (action_handlers ptr) (mkAction "" ""))
      (length before) (Content node) in
    wret (before ++ l)
  else report before "/schema/actions" CodeInvalidValue.

(** A parameter that is not a mapping of one entry is reported and left out. *)
Definition param (ptr : string) (item : ynode) (i : nat) : W (option Param) :=
  match Content item with
  | [k; v] =>
      if is_kind MappingNode item then
        let+ t := scalarString v (jptr [Seg ptr; Idx i]) in wret (Some (mkParam (Value k) t))
      else report None (jptr [Seg ptr; Idx i]) CodeInvalidValue
  | _ => report None (jptr [Seg ptr; Idx i]) CodeInvalidValue
  end.

Definition params (node : ynode) (ptr : string) : W (list Param) :=
  if is_kind SequenceNode node then
    let+ l := items_from (param ptr) 0 (Content node) in wret (omap id l)
  else report [] ptr CodeInvalidValue.

Definition source_handlers (ptr : string) : list (string * handler SourceDecl) :=
  [text_into ptr "name" (λ s v, mkSourceDecl v (src_Kind s) (src_Params s) (src_Returns s) (src_OnError s));
   text_into ptr "kind" (λ s v, mkSourceDecl (src_Name s) (spelled v) (src_Params s) (src_Returns s) (src_OnError s));
   text_into ptr "returns" (λ s v, mkSourceDecl (src_Name s) (src_Kind s) (src_Params s) v (src_OnError s));
   text_into ptr "on_error" (λ s v, mkSourceDecl (src_Name s) (src_Kind s) (src_Params s) (src_Returns s) (spelled v));
   ("params", λ s n,
      let+ l := params n (jptr [Seg ptr; Seg "params"]) in
      wret (mkSourceDecl (src_Name s) (src_Kind s) l (src_Returns s) (src_OnError s)))].

Definition no_source : SourceDecl := mkSourceDecl "" (SourceKindOther "") [] "" DefaultOnError.

Definition sources (before : list SourceDecl) (node : ynode) : W (list SourceDecl) :=
  if is_kind SequenceNode node then
    let+ l := items_from (λ item i,
      let ptr := jptr [Seg "schema"; Seg "sources"; Idx i] in walk item ptr (source_handlers ptr) no_source)
      (length before) (Content node) in
    wret (before ++ l)
  else report before "/schema/sources" CodeInvalidValue.

Definition schema_handlers : list (string * handler Schema) :=
  [("apiVersion", skip); ("kind", skip);
   ("entities", λ s n, let+ l := entities (sch_Entities s) n in wret (mkSchema l (sch_Actions s) (sch_Sources s)));
   ("actions", λ s n, let+ l := actions (sch_Actions s) n in wret (mkSchema (sch_Entities s) l (sch_Sources s)));
   ("sources", λ s n, let+ l := sources (sch_Sources s) n in wret (mkSchema (sch_Entities s) (sch_Actions s) l))].

Definition schemaDocument (set : PolicySet) (root : ynode) : W PolicySet :=
  let+ s := walk root "/schema" schema_handlers (set_Schema set) in wret (mkSet s (set_Policies set)).

(** ** The policy document *)

Definition policy_handlers (ptr : string) : list (string * handler Policy) :=
  [("apiVersion", skip); ("kind", skip);
   text_into ptr "id" (λ p v, mkPolicy v (p_Description p) (p_Subject p) (p_Resource p) (p_Context p) (p_Actions p) (p_Condition p) (p_Challenges p));
   text_into ptr "description" (λ p v, mkPolicy (p_ID p) v (p_Subject p) (p_Resource p) (p_Context p) (p_Actions p) (p_Condition p) (p_Challenges p));
   text_into ptr "subject" (λ p v, mkPolicy (p_ID p) (p_Description p) v (p_Resource p) (p_Context p) (p_Actions p) (p_Condition p) (p_Challenges p));
   text_into ptr "resource" (λ p v, mkPolicy (p_ID p) (p_Description p) (p_Subject p) v (p_Context p) (p_Actions p) (p_Condition p) (p_Challenges p));
   text_into ptr "context" (λ p v, mkPolicy (p_ID p) (p_Description p) (p_Subject p) (p_Resource p) v (p_Actions p) (p_Condition p) (p_Challenges p));
   ("actions", λ p n,
      let+ l := stringSequence n (jptr [Seg ptr; Seg "actions"]) in
      wret (mkPolicy (p_ID p) (p_Description p) (p_Subject p) (p_Resource p) (p_Context p) l (p_Condition p) (p_Challenges p)));
   ("condition", λ p n,
      let+ c := condition n (jptr [Seg ptr; Seg "condition"]) in
      wret (mkPolicy (p_ID p) (p_Description p) (p_Subject p) (p_Resource p) (p_Context p) (p_Actions p) c (p_Challenges p)));
   ("challenges", λ p n,
      let+ l := challenges n (jptr [Seg ptr; Seg "challenges"]) in
      wret (mkPolicy (p_ID p) (p_Description p) (p_Subject p) (p_Resource p) (p_Context p) (p_Actions p) (p_Condition p) l))].

Definition empty_policy : Policy := mkPolicy "" "" "" "" "" [] NodeNil [].

Definition policyDocument (set : PolicySet) (root : ynode) : W PolicySet :=
  let ptr := jptr [Seg "policies"; Idx (length (set_Policies set))] in
  let+ p := walk root ptr (policy_handlers ptr) empty_policy in wret (mkSet (set_Schema set) (set_Policies set ++ [p])).

(** ** Streams *)

Definition document (set : PolicySet) (root : ynode) : W PolicySet :=
  if negb (is_kind MappingNode root) then report set "" CodeInvalidDocument
  else
    let field key := match present (entries (Content root)) key with Some n => Value n | None => "" end in
    if bool_decide (field "apiVersion" ≠ APIVersion) then report set "" CodeUnknownAPIVersion
    else if bool_decide (field "kind" = KindSchema) then schemaDocument set root
    else if bool_decide (field "kind" = KindPolicy) then policyDocument set root
    else report set "" CodeUnknownKind.

Fixpoint stream (docs : list ynode) (bad : bool) (set : PolicySet) : W PolicySet :=
  match docs with
  | [] => if bad then report set "" CodeInvalidYAML else wret set
  | doc :: docs =>
      match Content doc with
      | [] => stream docs bad set
      | root :: _ => let+ set1 := document set root in stream docs bad set1
      end
  end.

Definition readCapped (data : string) (maxBytes : Z) : option string :=
  if (maxBytes <=? 0)%Z then Some data
  else if (maxBytes <? Z.of_nat (String.length data))%Z then None else Some data.

(** [DecodeWithLimits]: a normalized set, or the diagnostics. *)
Definition decode_with_limits `{YamlText} (limits : Limits) (doc : string) : PolicySet + Diagnostics :=
  match readCapped doc (lm_MaxDocumentBytes limits) with
  | None => inr [mkDiagnostic "" CodeLimitExceeded]
  | Some data =>
      let '(docs, bad) := yaml_read data in
      let '(set, ds) := stream docs bad (mkSet (mkSchema [] [] []) []) in
      match ds with [] => inl (Normalize set) | _ => inr ds end
  end.

(** ** Reading policy documents: the readers as equations

    The depth of a node is fuel enough: [operand] and [condition] satisfy the recursive
    equations of the code.  The combinators read back what was written element by
    element. *)

(** ** Enough fuel *)

Lemma wbind_ext {A B} (m : W A) (f g : A → W B) : (∀ a, f a = g a) → wbind m f = wbind m g.
Proof. intros H. unfold wbind. destruct m. by rewrite H. Qed.

Lemma all_items_ext {A} (f g : ynode → nat → W (option A)) i items :
  (∀ item j, item ∈ items → f item j = g item j) → all_items f i items = all_items g i items.
Proof.
  revert i. induction items as [|item items IH]; intros i H; simpl; [done|]. rewrite H by set_solver.
  apply wbind_ext. intros [a|]; [|done]. rewrite (IH (S i)); [done|]. set_solver.
Qed.

Section fuel.
Context {A : Type} (body : (ynode → string → W A) → ynode → string → W A).
Context (body_ext : ∀ f g n ptr, (∀ c p, (depth c < depth n)%nat → f c p = g c p) → body f n ptr = body g n ptr).
Context (go : nat → ynode → string → W A) (go_S : ∀ fuel n ptr, go (S fuel) n ptr = body (go fuel) n ptr).

Lemma go_enough f1 f2 n ptr : (depth n ≤ f1)%nat → (depth n ≤ f2)%nat → go f1 n ptr = go f2 n ptr.
Proof using All.
  revert f2 n ptr. induction f1 as [|f1 IH]; intros f2 n ptr H1 H2; [destruct n; simpl in *; lia|].
  destruct f2 as [|f2]; [destruct n; simpl in *; lia|]. rewrite !go_S. apply body_ext. intros c p Hc. apply IH; lia.
Qed.

Lemma go_unfold n ptr : go (depth n) n ptr = body (λ c p, go (depth c) c p) n ptr.
Proof using All.
  rewrite (go_enough _ (S (depth n))), go_S by lia. apply body_ext. intros c p Hc. apply go_enough; lia.
Qed.
End fuel.

Lemma operand_body_ext f g n ptr : (∀ c p, (depth c < depth n)%nat → f c p = g c p) → operand_body f n ptr = operand_body g n ptr.
Proof.
  intros H. unfold operand_body, operandMapping. destruct (Kind n); [done..| |done|done].
  destruct (stray_key _); [done|]. destruct (present _ "field"); [done|]. destruct (present _ "source"); [|done].
  apply wbind_ext. intros name. destruct (present _ "args") as [args|] eqn:E; [|done]. destruct (negb _); [done|].
  rewrite (all_items_ext _ (λ item i, non_nil (g item (jptr [Seg ptr; Seg "args"; Idx i])))); [done|].
  intros item j Hin. rewrite H; [done|]. apply present_depth in E. apply child_depth in Hin. lia.
Qed.

Lemma operand_unfold n ptr : operand n ptr = operand_body operand n ptr.
Proof. apply (go_unfold operand_body operand_body_ext operand_go). done. Qed.

Lemma condition_body_ext f g n ptr : (∀ c p, (depth c < depth n)%nat → f c p = g c p) → condition_body f n ptr = condition_body g n ptr.
Proof.
  intros H. unfold condition_body. destruct (negb _); [done|].
  assert (∀ op key seq, present (entries (Content n)) key = Some seq → logic f op seq ptr = logic g op seq ptr) as Hl.
  { intros op key seq E. unfold logic. destruct (negb _); [done|].
    rewrite (all_items_ext _ (λ item i, non_nil_node (g item (jptr [Seg ptr; Seg (spelling op); Idx i])))); [done|].
    intros item j Hin. rewrite H; [done|]. apply present_depth in E. apply child_depth in Hin. lia. }
  destruct (present _ "all") eqn:E1; [by eapply Hl|]. destruct (present _ "any") eqn:E2; [by eapply Hl|].
  destruct (present _ "not") eqn:E3; [|done]. rewrite H; [done|]. by eapply present_depth.
Qed.

Lemma condition_unfold n ptr : condition n ptr = condition_body condition n ptr.
Proof. apply (go_unfold condition_body condition_body_ext condition_go). done. Qed.
