(* ===== verification/CodecRead.v ===== *)
(** * The document format: what reads back

    The policy sets the format can represent, and that reading a document the encoder
    built gives the value it was built from, without a report, for constants, operands,
    conditions, challenges and whole documents. *)
From Stdlib Require Import Ascii.
From S2P Require Import Prelude GoLib Policy Cel Validate Text Strconv Encode FloatText Decode.
Import Strings.

(** ** Representable values

    Which instants and which approver sets are taken is a parameter of the definitions:
    the reader produces more of both than the writer can write. *)

Definition is_type (t u : Typ) : bool := bool_decide (t = u).

Section shape.
Context (instant : Time.t → bool) (form : ApproverSet → bool).

Definition scalar_shape (t : Typ) (v : value) : bool :=
  match v with
  | VBool _ => is_type t TypeBool
  | VInt n => is_type t TypeInt && int64 n
  | VDouble f => is_type t TypeDouble && canonical f
  | VString _ => is_type t TypeString
  | VTime x => is_type t TypeTimestamp && instant x
  | VDuration d => is_type t TypeDuration && int64 d
  | _ => false
  end.

Definition literal_shape (l : Literal) : bool :=
  if IsList (lit_Type l) then
    match lit_Data l with
    | VList items => IsScalar (Elem (lit_Type l)) && forallb (scalar_shape (Elem (lit_Type l))) items
    | _ => false
    end
  else scalar_shape (lit_Type l) (lit_Data l).

Definition no_dot (s : string) : bool := forallb (λ a, negb (bool_decide (a = "."%char))) (bytes s).

Fixpoint operand_shape (o : Operand) : bool :=
  match o with
  | FieldRef r _ => bool_decide (proper r) && no_dot (spelling r)
  | SourceRef _ args => forallb operand_shape args
  | Lit l => literal_shape l
  | OperandNil => false
  end.

Definition reference_shape (o : Operand) : bool := is_Reference o && operand_shape o.

Fixpoint condition_shape (n : Node) : bool :=
  match n with
  | Logic op ops =>
      (if bool_decide (op = LogicNot) then (length ops =? 1)%nat else contains [LogicAll; LogicAny] op) && forallb condition_shape ops
  | Compare l op r => reference_shape l && bool_decide (proper op) && operand_shape r
  | Member l c _ => reference_shape l && operand_shape c
  | NodeNil => false
  end.

Definition approvers_shape (a : ApproverSet) : bool :=
  form a && match as_Source a with Some (_, args) => forallb operand_shape args | None => true end.

Definition challenge_shape (c : Challenge) : bool :=
  match c with
  | CQuorum q => int64 (q_Threshold q) && approvers_shape (q_Approvers q)
  | CMFA m => bool_decide (proper (mfa_Mode m))
  | CDelay d => int64 (d_Duration d) && match d_CancellableBy d with Some a => approvers_shape a | None => true end
  | CExternal _ => true
  end.

Definition policy_shape (p : Policy) : bool :=
  match p_Condition p with NodeNil => true | c => condition_shape c end && forallb challenge_shape (p_Challenges p).

Definition source_ok (s : SourceDecl) : bool := bool_decide (proper (src_Kind s)) && bool_decide (proper (src_OnError s)).

Definition set_shape (s : PolicySet) : bool :=
  forallb source_ok (sch_Sources (set_Schema s)) && forallb policy_shape (set_Policies s).
End shape.

(** A year of four digits. *)
Definition four_digit_year (x : Time.t) : bool := ((0 <=? year x) && (year x <=? 9999))%Z.

(** One of the three forms, and nothing of the other two. *)
Definition one_form (a : ApproverSet) : bool :=
  match as_Source a with
  | Some _ => bool_decide (as_Members a = []) && bool_decide (as_Claim a = "")
  | None => bool_decide (as_Claim a = "") || bool_decide (as_Members a = [])
  end.

Notation scalar_ok := (scalar_shape four_digit_year).
Notation literal_ok := (literal_shape four_digit_year).
Notation operand_ok := (operand_shape four_digit_year).
Notation reference_ok := (reference_shape four_digit_year).
Notation condition_ok := (condition_shape four_digit_year).
Notation approvers_ok := (approvers_shape four_digit_year one_form).
Notation challenge_ok := (challenge_shape four_digit_year one_form).
Notation policy_ok := (policy_shape four_digit_year one_form).

(** The sets the format represents. *)
Notation encodable := (set_shape four_digit_year one_form).

(** ** Lists *)

Lemma items_from_ok {A B} (read : ynode → nat → W B) (f : A → ynode) (g : A → B) l : (∀ x i, x ∈ l → read (f x) i = wret (g x)) →
  ∀ i, items_from read i (map f l) = wret (map g l).
Proof.
  intros H. induction l as [|x l IH]; intros i; simpl; [done|]. rewrite H by set_solver.
  rewrite IH by set_solver. done.
Qed.

Lemma all_items_ok {A B} (read : ynode → nat → W (option B)) (f : A → ynode) (g : A → B) l :
  (∀ x i, x ∈ l → read (f x) i = wret (Some (g x))) → ∀ i, all_items read i (map f l) = wret (Some (map g l)).
Proof.
  intros H. induction l as [|x l IH]; intros i; simpl; [done|]. rewrite H by set_solver.
  simpl. rewrite IH by set_solver. done.
Qed.

Lemma omap_Some_id {A} (l : list A) : omap id (map Some l) = l.
Proof. induction l as [|x l IH]; [done|]. change (x :: omap id (map Some l) = x :: l). by rewrite IH. Qed.

Lemma forallb_elem {A} (f : A → bool) l x : forallb f l = true → x ∈ l → f x = true.
Proof. rewrite forallb_forall. intros H Hx. apply H. by apply list_elem_of_In. Qed.

Lemma strings_ok l ptr : stringSequence (resolved (stringSequenceNode l)) ptr = wret l.
Proof.
  unfold stringSequence, stringSequenceNode, sequence. simpl. rewrite map_map.
  rewrite (items_from_ok _ _ id); [by rewrite map_id|]. done.
Qed.

(** ** Mappings

    A mapping that is being built reads as a value: the handlers of the entries put so
    far take the value [s0] to [s]. *)

Section builds.
Context {S : Type} (ptr : string) (hs : list (string * handler S)) (s0 : S).

Definition builds (m : mapBuilder) (s : S) : Prop :=
  (∃ n, length m = 2 * n)%nat ∧ walk_entries ptr hs (entries (map resolved m)) s0 = wret s.

Lemma entries_app l1 l2 : (∃ n, length l1 = 2 * n)%nat → entries (l1 ++ l2) = entries l1 ++ entries l2.
Proof.
  intros [n Hn]. revert l1 Hn. induction n as [|n IH]; intros [|k [|v l]] Hn; simpl in *; try done; try lia. by rewrite IH by lia.
Qed.

Lemma walk_app es1 es2 s s1 : walk_entries ptr hs es1 s = wret s1 → walk_entries ptr hs (es1 ++ es2) s = walk_entries ptr hs es2 s1.
Proof.
  revert s. induction es1 as [|[k v] es1 IH]; intros s; simpl; [by intros [= ->]|]. unfold wbind, wret.
  destruct (match handler_of hs (Value k) with Some h => h s v | None => _ end) as [s2 ds].
  destruct (walk_entries ptr hs es1 s2) as [s3 ds'] eqn:E. intros [= -> [-> ->]%app_eq_nil].
  rewrite (IH s2 E). by destruct (walk_entries ptr hs es2 s1).
Qed.

Lemma builds_new : builds newMapping s0.
Proof. split; [by exists 0%nat|done]. Qed.

Lemma builds_put m s key v h s1 : builds m s → handler_of hs key = Some h → h s (resolved v) = wret s1 → builds (put m key v) s1.
Proof.
  intros [[n Hn] Hw] Hh Hv. unfold put. split; [exists (n + 1)%nat; rewrite length_app; simpl; lia|].
  rewrite map_app, entries_app by (exists n; by rewrite length_map). rewrite (walk_app _ _ _ s) by done. simpl.
  rewrite Hh, Hv. done.
Qed.

Lemma builds_string m s key v store :
  builds m s → handler_of hs key = Some (text_into ptr key store).2 → builds (putString m key v) (store s v).
Proof. intros Hm Hh. by eapply builds_put. Qed.

Lemma builds_stringIf m s key v omit store : builds m s → handler_of hs key = Some (text_into ptr key store).2 →
  (v = omit → store s v = s) → builds (putStringIf m key v omit) (store s v).
Proof. intros Hm Hh Ho. unfold putStringIf. case_bool_decide; [by rewrite Ho|by apply builds_string]. Qed.

(** The header of a document stays what the envelope made it. *)
Definition headed (kind : string) (m : mapBuilder) (s : S) : Prop :=
  builds m s ∧ present (entries (map resolved m)) "apiVersion" = Some (str APIVersion) ∧ present (entries (map resolved m)) "kind" = Some (str kind).

Lemma present_put m s key v k : builds m s →
  present (entries (map resolved (put m key v))) k = if bool_decide (key = k) then Some (resolved v) else present (entries (map resolved m)) k.
Proof.
  intros [[n Hn] _]. unfold put, present. rewrite map_app, entries_app by (exists n; by rewrite length_map). by rewrite foldl_app.
Qed.

Lemma headed_put kind m s key v h s1 : headed kind m s → key ∉ ["apiVersion"; "kind"] →
  handler_of hs key = Some h → h s (resolved v) = wret s1 → headed kind (put m key v) s1.
Proof.
  intros (Hb & Ha & Hk) Hkey Hh Hs. split; [by eapply builds_put|]. rewrite !(present_put m s) by done.
  rewrite !bool_decide_eq_false_2 by set_solver. done.
Qed.

Lemma headed_string kind m s key v store : headed kind m s → key ∉ ["apiVersion"; "kind"] →
  handler_of hs key = Some (text_into ptr key store).2 → headed kind (putString m key v) (store s v).
Proof. intros Hm Hk Hh. by eapply headed_put. Qed.

Lemma headed_stringIf kind m s key v omit store : headed kind m s → key ∉ ["apiVersion"; "kind"] →
  handler_of hs key = Some (text_into ptr key store).2 → (v = omit → store s v = s) → headed kind (putStringIf m key v omit) (store s v).
Proof. intros Hm Hk Hh Ho. unfold putStringIf. case_bool_decide; [by rewrite Ho|by apply headed_string]. Qed.

Lemma headed_put_if kind (b : bool) m s key v h s1 : headed kind m s → key ∉ ["apiVersion"; "kind"] → handler_of hs key = Some h →
  (if b then h s (resolved v) = wret s1 else s1 = s) → headed kind (if b then put m key v else m) s1.
Proof. destruct b; intros Hm Hk Hh Hs; [by eapply headed_put|by subst]. Qed.

Lemma headed_envelope kind : handler_of hs "apiVersion" = Some skip → handler_of hs "kind" = Some skip → headed kind (envelope kind) s0.
Proof.
  intros Ha Hk. split; [|done]. eapply builds_put; [eapply builds_put; [apply builds_new|done|done]|done|done].
Qed.

Lemma builds_walk m s : builds m s → walk (resolved (mapping m)) ptr hs s0 = wret s.
Proof. by intros [_ Hw]. Qed.
End builds.

(** ** Constants *)

Section read.
Context `{GoFmt}.

Lemma scalarData_ok t v ptr : scalar_ok t v = true → scalarData t (scalarLiteralNode t v) ptr = wret (Some v).
Proof.
  destruct v as [|b|n| |f| |s|x|d| |]; simpl; try done; unfold is_type.
  - intros ->%bool_decide_eq_true. by destruct b.
  - intros [->%bool_decide_eq_true Hn]%andb_true_iff. trans (parsed_or (ParseInt (FormatInt n)) VInt ptr); [done|]. by rewrite ParseInt_FormatInt.
  - intros [->%bool_decide_eq_true Hf]%andb_true_iff. trans (parsed_or (finite (ParseFloat (formatDouble f))) VDouble ptr); [done|].
    rewrite ParseFloat_formatDouble by done. by destruct f.
  - intros ->%bool_decide_eq_true. done.
  - intros [->%bool_decide_eq_true [Hlo%Z.leb_le Hhi%Z.leb_le]%andb_true_iff]%andb_true_iff.
    trans (parsed_or (Parse_RFC3339Nano (Time.Format_RFC3339Nano x)) VTime ptr); [done|]. by rewrite Parse_Format.
  - intros [->%bool_decide_eq_true [Hlo%Z.leb_le Hhi%Z.ltb_lt]%andb_true_iff]%andb_true_iff.
    trans (parsed_or (ParseDuration (Time.Duration_String d)) VDuration ptr); [done|]. by rewrite ParseDuration_String.
Qed.

Lemma inferred_tag t v : scalar_ok t v = true → inferableType t = true → typeForTag (Tag (scalarLiteralNode t v)) = Some t.
Proof.
  unfold inferableType. intros _ Hc. apply contains_spec in Hc. rewrite !elem_of_cons in Hc. destruct_or! Hc; subst; try done. by apply elem_of_nil in Hc.
Qed.

Lemma scalar_nodes t l : map resolved (map (scalarLiteralNode t) l) = map (scalarLiteralNode t) l.
Proof. rewrite map_map. apply map_ext. intros v. unfold scalarLiteralNode. repeat case_bool_decide; done. Qed.

Lemma scalar_kind t v : is_kind ScalarNode (scalarLiteralNode t v) = true ∧ Kind (scalarLiteralNode t v) = ScalarNode ∧ resolved (scalarLiteralNode t v) = scalarLiteralNode t v.
Proof. unfold scalarLiteralNode. repeat case_bool_decide; done. Qed.

Lemma typed_node (v : ynode) (t : Typ) ptr :
  operand (resolved (mapping (putString (put newMapping "value" v) "type" t))) ptr =
  if negb (Type_Valid t) then report OperandNil (jptr [Seg ptr; Seg "type"]) CodeUnknownType
  else typedValue (resolved v) (Some (str t)) ptr.
Proof.
  rewrite operand_unfold. trans (typedValue (resolved v) (Some (str t)) ptr); [done|].
  unfold typedValue at 1. cbn [scalarString]. simpl. by destruct (Type_Valid t).
Qed.

Lemma typed_list e items ptr : IsScalar e = true → forallb (scalar_ok e) items = true →
  typedValue (resolved (sequence (map (scalarLiteralNode e) items))) (Some (str (ListOf e))) ptr = wret (Lit (mkLiteral (ListOf e) (VList items))).
Proof.
  intros He Hi. assert (Type_Valid (ListOf e) = true) as Hv by (unfold Type_Valid; by rewrite IsList_ListOf, Elem_ListOf).
  unfold typedValue. simpl. rewrite Hv, IsList_ListOf, Elem_ListOf, scalar_nodes. simpl.
  rewrite (all_items_ok _ _ id); [by rewrite map_id|]. intros v i Hin. apply scalarData_ok. by eapply forallb_elem.
Qed.

Lemma inferred_list e items ptr : items ≠ [] → inferableType e = true → forallb (scalar_ok e) items = true →
  operand (resolved (sequence (map (scalarLiteralNode e) items))) ptr = wret (Lit (mkLiteral (ListOf e) (VList items))).
Proof.
  intros Hne He Hi. rewrite operand_unfold. unfold operand_body. simpl. rewrite scalar_nodes. unfold inferredList. simpl.
  destruct items as [|v items]; [done|]. cbn [map].
  assert (∀ x, x ∈ v :: items → typeForTag (Tag (scalarLiteralNode e x)) = Some e) as Ht.
  { intros x Hx. apply inferred_tag; [|done]. by eapply forallb_elem. }
  rewrite Ht by set_solver. change (scalarLiteralNode e v :: map (scalarLiteralNode e) items) with (map (scalarLiteralNode e) (v :: items)).
  rewrite (all_items_ok _ _ id); [by rewrite map_id|]. intros x i Hx. rewrite Ht, bool_decide_eq_true_2 by done.
  apply scalarData_ok. by eapply forallb_elem.
Qed.

Lemma literal_reads l ptr : literal_ok l = true → operand (resolved (literalNode l)) ptr = wret (Lit l).
Proof.
  destruct l as [t v]. unfold literal_shape, literalNode. simpl. destruct (IsList t) eqn:El.
  - apply IsList_inv in El as [e ->]. rewrite Elem_ListOf. destruct v as [| | | | | | | | |items|]; try done.
    intros [He Hi]%andb_true_iff. destruct (_ && _) eqn:Hinf.
    + apply andb_true_iff in Hinf as [Hne%Nat.ltb_lt Hinf]. apply inferred_list; [|done..]. by intros ->; simpl in Hne; lia.
    + rewrite typed_node. unfold Type_Valid. rewrite IsList_ListOf, Elem_ListOf, He. simpl negb. cbv iota. by apply typed_list.
  - intros Hs. destruct (inferableType t) eqn:Hinf.
    + destruct (scalar_kind t v) as (_ & Hk & ->). rewrite operand_unfold. unfold operand_body. rewrite Hk. unfold inferredScalar.
      rewrite inferred_tag by done. by rewrite scalarData_ok.
    + assert (Type_Valid t = true) as Hv.
      { unfold Type_Valid. rewrite El. clear -Hs. unfold scalar_shape, is_type in Hs.
        destruct v; try done; try apply andb_true_iff in Hs as [Hs _]; by apply bool_decide_eq_true in Hs as ->. }
      rewrite typed_node, Hv. simpl negb. cbv iota. unfold typedValue. simpl. rewrite Hv, El. simpl.
      destruct (scalar_kind t v) as (_ & _ & ->). by rewrite scalarData_ok.
Qed.
(** ** Operands *)

Lemma cut_dot_app l r : forallb (λ a, negb (bool_decide (a = "."%char))) l = true → cut_dot (l ++ "."%char :: r) = Some (l, r).
Proof.
  induction l as [|a l IH]; simpl; [done|]. intros [Ha Hl]%andb_true_iff. case_bool_decide; [done|]. by rewrite IH.
Qed.

Lemma field_reads r a ptr : proper r → no_dot (spelling r) = true → operand (resolved (operandNode (FieldRef r a))) ptr = wret (FieldRef r a).
Proof.
  intros Hp Hd. rewrite operand_unfold. trans (fieldRef (str (spelling r +:+ "." +:+ a)) ptr); [done|].
  assert (cut_dot (bytes (spelling r +:+ "." +:+ a)) = Some (bytes (spelling r), bytes a)) as Hcut by (rewrite !bytes_app; by apply cut_dot_app).
  unfold fieldRef. change (scalarString (str ?x) ?p) with (wret x). cbn [wbind wret]. rewrite Hcut, !unbytes_bytes. by rewrite Hp.
Qed.

Definition source_call (name : string) (args : list ynode) : ynode :=
  YNode MappingNode "!!map" "" [str "source"; str name; str "args"; YNode SequenceNode "!!seq" "" args].

Lemma source_call_reads name args ptr :
  operand_body operand (source_call name args) ptr =
  let+ r := all_items (λ item i, non_nil (operand item (jptr [Seg ptr; Seg "args"; Idx i]))) 0 args in
  wret (match r with Some l => SourceRef name l | None => OperandNil end).
Proof. unfold operand_body, operandMapping. simpl. by destruct (all_items _ _ _). Qed.

Lemma operand_reads o ptr : operand_ok o = true → operand (resolved (operandNode o)) ptr = wret o.
Proof.
  revert ptr. induction o as [|r a|name args IH|l] using Operand_nested_ind; intros ptr; simpl operand_shape; [done|..].
  - intros [Hp%bool_decide_eq_true Hd]%andb_true_iff. by apply field_reads.
  - intros Ha. rewrite operand_unfold. destruct args as [|arg args]; [done|]. set (l := arg :: args) in *.
    assert (∀ p, all_items (λ item i, non_nil (operand item (jptr [Seg p; Seg "args"; Idx i]))) 0 (map resolved (map operandNode l)) = wret (Some l)) as Hall.
    { intros p. rewrite map_map, (all_items_ok _ _ id); [by rewrite map_id|]. intros x i Hx. rewrite Forall_forall in IH.
      rewrite IH by (done || by eapply forallb_elem). eapply forallb_elem in Ha; [|done]. by destruct x. }
    change (resolved (operandNode (SourceRef name l))) with (source_call name (map resolved (map operandNode l))).
    by rewrite source_call_reads, Hall.
  - apply literal_reads.
Qed.

Lemma operand_ok_non_nil o : operand_ok o = true → is_nil_operand o = false.
Proof. by destruct o. Qed.

(** ** Conditions *)

Lemma leaf_member l c neg ptr : reference_ok l = true → operand_ok c = true →
  condition (resolved (conditionNode (Member l c neg))) ptr = wret (Member l c neg).
Proof.
  intros [Hr Hl]%andb_true_iff Hc. rewrite condition_unfold.
  assert (∀ es, present es "left" = Some (resolved (operandNode l)) →
    (if neg then present es "in" = None ∧ present es "not_in" = Some (resolved (operandNode c)) else present es "in" = Some (resolved (operandNode c))) →
    leaf es (resolved (operandNode l)) ptr = wret (Member l c neg)) as Hleaf.
  { intros es _ Hp. unfold leaf. rewrite operand_reads by done. simpl. rewrite Hr. simpl.
    destruct neg; [destruct Hp as [-> ->]|rewrite Hp]; rewrite operand_reads by done; simpl; rewrite !operand_ok_non_nil by done; done. }
  destruct neg; unfold condition_body; simpl; apply Hleaf; done.
Qed.

Lemma leaf_compare l op r ptr : reference_ok l = true → proper op → operand_ok r = true →
  condition (resolved (conditionNode (Compare l op r))) ptr = wret (Compare l op r).
Proof.
  intros [Hr Hl]%andb_true_iff Hop Hc. rewrite condition_unfold. unfold condition_body. simpl. unfold leaf.
  rewrite operand_reads by done. simpl. rewrite Hr. simpl. rewrite operand_reads by done. simpl.
  rewrite !operand_ok_non_nil by done. simpl. rewrite Hop. done.
Qed.

Lemma logic_reads op ops ptr : contains [LogicAll; LogicAny] op = true →
  Forall (λ n, ∀ ptr, condition_ok n = true → condition (resolved (conditionNode n)) ptr = wret n) ops → forallb condition_ok ops = true →
  condition (resolved (conditionNode (Logic op ops))) ptr = wret (Logic op ops).
Proof.
  intros Hop%contains_spec IH Ho.
  assert (∀ q, all_items (λ item i, non_nil_node (condition item (jptr [Seg ptr; Seg q; Idx i]))) 0 (map resolved (map conditionNode ops)) = wret (Some ops)) as Hall.
  { intros p. rewrite map_map, (all_items_ok _ _ id); [by rewrite map_id|]. intros x i Hx. rewrite Forall_forall in IH.
    rewrite IH by (done || by eapply forallb_elem). eapply forallb_elem in Ho; [|done]. by destruct x. }
  rewrite condition_unfold. trans (logic condition op (YNode SequenceNode "!!seq" "" (map resolved (map conditionNode ops))) ptr).
  - rewrite !elem_of_cons, elem_of_nil in Hop. by destruct Hop as [->|[->|[]]].
  - unfold logic. change (negb _) with false. cbv iota. cbn [Content]. by rewrite Hall.
Qed.

Lemma condition_reads n ptr : condition_ok n = true → condition (resolved (conditionNode n)) ptr = wret n.
Proof.
  revert ptr. induction n as [|op ops IH|l op r|l c neg] using Node_nested_ind; intros ptr; simpl condition_shape; [done|..].
  - intros [Hop Ho]%andb_true_iff. case_bool_decide as Hn; [|by apply logic_reads]. subst op.
    destruct ops as [|x [|]]; try done. apply Forall_cons in IH as [IH _]. simpl in Ho. rewrite andb_true_r in Ho.
    rewrite condition_unfold. unfold condition_body. simpl. rewrite IH by done. by destruct x.
  - intros [[Hl Hop%bool_decide_eq_true]%andb_true_iff Hr]%andb_true_iff. by apply leaf_compare.
  - intros [Hl Hc]%andb_true_iff. by apply leaf_member.
Qed.
(** ** Challenges *)

Lemma approver_args_read args ptr i : forallb operand_ok args = true →
  approver_args ptr i (map resolved (map operandNode args)) = wret (args, true).
Proof.
  revert i. induction args as [|a args IH]; intros i; simpl; [done|]. intros [Ha Hl]%andb_true_iff.
  rewrite operand_reads by done. simpl. rewrite IH by done. simpl. by rewrite operand_ok_non_nil.
Qed.

Lemma approvers_read a ptr : approvers_ok a = true → approverSet (resolved (approverSetNode a)) ptr = wret (Some a).
Proof.
  destruct a as [members claim [[name args]|]]; unfold approvers_shape, one_form, approverSetNode; cbn [as_Source as_Claim as_Members].
  - intros [[->%bool_decide_eq_true ->%bool_decide_eq_true]%andb_true_iff Ha]%andb_true_iff. destruct args as [|arg args]; [done|].
    trans (approverSet (source_call name (map resolved (map operandNode (arg :: args)))) ptr); [done|].
    pose proof (approver_args_read (arg :: args) ptr 0 Ha) as Hn. revert Hn. generalize (map resolved (map operandNode (arg :: args))).
    intros nodes Hn. unfold approverSet. simpl. by rewrite Hn.
  - rewrite andb_true_r. intros Hc. destruct (decide (claim = "")) as [->|Hclaim].
    2:{ rewrite bool_decide_eq_true_2 by done. rewrite bool_decide_eq_false_2 in Hc by done. by apply bool_decide_eq_true in Hc as ->. }
    + unfold approverSet. simpl. change (map resolved (map str members)) with (Content (resolved (stringSequenceNode members))).
      pose proof (strings_ok members (jptr [Seg ptr; Seg "members"])) as Hs.
      unfold approver_entry. simpl. unfold stringSequenceNode, sequence in Hs. simpl in Hs. rewrite Hs. done.
Qed.

Lemma quorum_reads q ptr : int64 (q_Threshold q) = true → approvers_ok (q_Approvers q) = true →
  challenge (resolved (challengeNode (CQuorum q))) ptr = wret (Some (CQuorum q)).
Proof.
  destruct q as [n a]. simpl q_Threshold. simpl q_Approvers. intros Hn Ha.
  trans (read_as CQuorum (resolved (challengeNode (CQuorum (mkQuorum n a)))) ptr (quorum_handlers ptr) (mkQuorum 0 no_approvers)); [done|].
  unfold read_as, challengeNode. cbv zeta iota beta. erewrite builds_walk; [done|]. cbn [q_Threshold q_Approvers].
  eapply (builds_put _ _ _ _ (mkQuorum n no_approvers)); [|done|simpl; by rewrite approvers_read].
  eapply (builds_put _ _ _ _ (mkQuorum 0 no_approvers)); [|done|].
  - eapply builds_put; [apply builds_new|done|done].
  - unfold scalarInt. simpl. by rewrite ParseInt_FormatInt.
Qed.
Lemma mfa_reads m ptr : proper (mfa_Mode m) → challenge (resolved (challengeNode (CMFA m))) ptr = wret (Some (CMFA m)).
Proof.
  destruct m as [mode acr]. simpl mfa_Mode. intros Hm.
  trans (read_as CMFA (resolved (challengeNode (CMFA (mkMFA mode acr)))) ptr (mfa_handlers ptr) (mkMFA DefaultMFAMode [])).
  { unfold challenge, challengeNode. cbn [Challenge_ChallengeType mfa_Mode mfa_ACRValues]. unfold putStringIf.
    case_bool_decide; by destruct acr. }
  unfold read_as, challengeNode. cbv zeta iota beta. erewrite builds_walk; [done|]. cbn [mfa_Mode mfa_ACRValues].
  assert (builds ptr (mfa_handlers ptr) (mkMFA DefaultMFAMode [])
    (putStringIf (putString newMapping "type" (spelling ChallengeMFA)) "mode" (spelling mode) (spelling DefaultMFAMode)) (mkMFA mode [])) as Hb.
  { replace (mkMFA mode []) with (mkMFA (spelled (spelling mode)) []) by (by rewrite Hm). eapply (builds_stringIf _ _ _ _ (mkMFA DefaultMFAMode [])) with (store := λ c v, mkMFA (spelled v) (mfa_ACRValues c)).
    - eapply builds_put; [apply builds_new|done|done].
    - done.
    - intros Hd. cbv beta. by rewrite Hd. }
  destruct acr as [|x acr]; [done|]. cbn [length Nat.ltb Nat.leb]. eapply builds_put; [done|done|]. simpl.
  pose proof (strings_ok (x :: acr)) as Hs. unfold stringSequenceNode, sequence in Hs. simpl in Hs. by rewrite Hs.
Qed.

Lemma delay_reads d ptr : int64 (d_Duration d) = true → match d_CancellableBy d with Some a => approvers_ok a | None => true end = true →
  challenge (resolved (challengeNode (CDelay d))) ptr = wret (Some (CDelay d)).
Proof.
  destruct d as [x by_]. simpl d_Duration. simpl d_CancellableBy. intros [Hlo%Z.leb_le Hhi%Z.ltb_lt]%andb_true_iff Ha.
  trans (read_as CDelay (resolved (challengeNode (CDelay (mkDelay x by_)))) ptr (delay_handlers ptr) (mkDelay 0%Z None)); [by destruct by_|].
  unfold read_as, challengeNode. cbv zeta iota beta. erewrite builds_walk; [done|]. cbn [d_Duration d_CancellableBy].
  assert (builds ptr (delay_handlers ptr) (mkDelay 0%Z None)
    (putString (putString newMapping "type" (spelling ChallengeDelay)) "duration" (Time.Duration_String x)) (mkDelay x None)) as Hb.
  { eapply builds_put; [eapply builds_put; [apply builds_new|done|done]|done|]. simpl. unfold scalarDuration. simpl. by rewrite ParseDuration_String. }
  destruct by_ as [a|]; [|done]. eapply builds_put; [done|done|]. simpl. by rewrite approvers_read.
Qed.

Lemma challenge_reads c ptr : challenge_ok c = true → challenge (resolved (challengeNode c)) ptr = wret (Some c).
Proof.
  destruct c as [q|m|d|e]; simpl challenge_shape.
  - intros [? ?]%andb_true_iff. by apply quorum_reads.
  - intros ?%bool_decide_eq_true. by apply mfa_reads.
  - intros [? ?]%andb_true_iff. by apply delay_reads.
  - intros _. by destruct e.
Qed.

Lemma challenges_read l ptr : forallb challenge_ok l = true → challenges (resolved (sequence (map challengeNode l))) ptr = wret l.
Proof.
  intros Hl. unfold challenges. simpl. rewrite map_map, (items_from_ok _ _ Some).
  - simpl. by rewrite omap_Some_id.
  - intros c i Hc. apply challenge_reads. by eapply forallb_elem.
Qed.
(** ** Documents *)

Lemma attributes_read attrs ptr m l :
  (∃ n, length m = 2 * n)%nat → attributes_from ptr (entries (map resolved m)) = wret l →
  attributes_from ptr (entries (map resolved (foldl (λ m a, putString m (attr_Name a) (attr_Type a)) m attrs))) = wret (l ++ attrs).
Proof.
  revert m l. induction attrs as [|a attrs IH]; intros m l Hm Hl; simpl; [by rewrite app_nil_r|].
  replace (l ++ a :: attrs) with ((l ++ [a]) ++ attrs) by (by rewrite <-app_assoc). destruct Hm as [n Hn]. apply IH.
  - exists (n + 1)%nat. unfold putString, put. rewrite length_app. simpl. lia.
  - unfold putString, put. rewrite map_app, entries_app by (exists n; by rewrite length_map). simpl.
    revert l Hl. generalize (entries (map resolved m)). clear. intros es.
    induction es as [|[k v] es IH]; intros l Hl; simpl in *; [injection Hl as <-; by destruct a|].
    destruct (scalarString v _) as [t ds]. simpl in Hl. destruct (attributes_from ptr es) as [l' ds'].
    simpl in Hl. injection Hl as <- E. apply app_eq_nil in E as [-> E]. rewrite app_nil_r in E. subst ds'. simpl.
    by rewrite (IH l').
Qed.

Lemma attributes_mapping attrs ptr :
  attributes (resolved (mapping (foldl (λ m a, putString m (attr_Name a) (attr_Type a)) newMapping attrs))) ptr = wret attrs.
Proof. apply (attributes_read attrs ptr newMapping []); [by exists 0%nat|done]. Qed.

Lemma entity_reads e ptr : walk (resolved (entityNode e)) ptr (entity_handlers ptr) (mkEntityType "" []) = wret e.
Proof.
  destruct e as [name attrs]. unfold entityNode. cbv zeta. erewrite builds_walk; [done|]. cbn [ent_Name ent_Attributes].
  assert (builds ptr (entity_handlers ptr) (mkEntityType "" []) (putString newMapping "name" name) (mkEntityType name [])) as Hb.
  { eapply builds_put; [apply builds_new|done|done]. }
  destruct attrs as [|a attrs]; [done|]. cbn [length Nat.ltb Nat.leb]. eapply builds_put; [done|done|].
  pose proof (attributes_mapping (a :: attrs)) as Hr. simpl in Hr |- *. by rewrite Hr.
Qed.

Lemma action_reads a ptr :
  (if is_kind ScalarNode (resolved (actionNode a)) then wret (mkAction (Value (resolved (actionNode a))) "")
   else walk (resolved (actionNode a)) ptr (action_handlers ptr) (mkAction "" "")) = wret a.
Proof. destruct a as [name desc]. unfold actionNode. cbn [act_Name act_Description]. case_bool_decide; by subst. Qed.

Lemma params_read l ptr : params (resolved (sequence (map (λ p, mapping (putString newMapping (par_Name p) (par_Type p))) l))) ptr = wret l.
Proof.
  unfold params. simpl. rewrite map_map, (items_from_ok _ _ Some); [simpl; by rewrite omap_Some_id|]. by intros [] i _.
Qed.

Lemma source_reads s ptr : source_ok s = true → walk (resolved (sourceNode s)) ptr (source_handlers ptr) no_source = wret s.
Proof.
  destruct s as [name kind ps ret oe]. unfold source_ok, sourceNode. cbn [src_Name src_Kind src_Params src_Returns src_OnError].
  intros [Hk%bool_decide_eq_true Ho%bool_decide_eq_true]%andb_true_iff. cbv zeta. apply builds_walk.
  set (k := mkSourceDecl name kind [] "" DefaultOnError).
  assert (builds ptr (source_handlers ptr) no_source (putString (putString newMapping "name" name) "kind" (spelling kind)) k) as H1.
  { unfold k. replace (mkSourceDecl name kind [] "" DefaultOnError) with (mkSourceDecl name (spelled (spelling kind)) [] "" DefaultOnError) by (by rewrite Hk).
    eapply builds_put; [eapply builds_put; [apply builds_new|done|done]|done|done]. }
  match goal with |- builds _ _ _ (putStringIf (putString ?m _ _) _ _ _) _ => set (m1 := m) end.
  assert (builds ptr (source_handlers ptr) no_source m1 (mkSourceDecl name kind ps "" DefaultOnError)) as H2.
  { unfold m1. destruct ps as [|p ps]; [done|]. cbn [length Nat.ltb Nat.leb]. eapply builds_put; [done|done|].
    pose proof (params_read (p :: ps)) as Hp. simpl in Hp |- *. by rewrite Hp. }
  replace (mkSourceDecl name kind ps ret oe) with (mkSourceDecl name kind ps ret (spelled (spelling oe))) by (by rewrite Ho).
  eapply (builds_stringIf _ _ _ _ (mkSourceDecl name kind ps ret DefaultOnError))
    with (store := λ s v, mkSourceDecl (src_Name s) (src_Kind s) (src_Params s) (src_Returns s) (spelled v)).
  - by eapply builds_put.
  - done.
  - intros Hd. cbv beta. by rewrite Hd.
Qed.
Lemma some_items {A} (l : list A) : (0 <? length l)%nat = false → l = [].
Proof. by destruct l. Qed.

Lemma schema_builds s : forallb source_ok (sch_Sources s) = true →
  ∃ m, schemaDocumentNode s = documentOf (mapping m) ∧ headed "/schema" schema_handlers (mkSchema [] [] []) KindSchema m s.
Proof.
  destruct s as [es acts srcs]. cbn [sch_Sources]. intros Hs. eexists. split; [done|]. cbn [sch_Entities sch_Actions sch_Sources].
  eapply (headed_put_if _ _ _ _ _ _ (mkSchema es acts [])); [|set_solver|done|].
  - eapply (headed_put_if _ _ _ _ _ _ (mkSchema es [] [])); [|set_solver|done|].
    + eapply headed_put_if; [by apply headed_envelope|set_solver|done|]. destruct (_ <? _)%nat eqn:E; [|by apply some_items in E as ->].
      unfold entities. simpl. rewrite map_map, (items_from_ok _ _ id), map_id; [done|]. intros e i _. apply entity_reads.
    + destruct (_ <? _)%nat eqn:E; [|by apply some_items in E as ->].
      unfold actions. simpl. rewrite map_map, (items_from_ok _ _ id), map_id; [done|]. intros a i _. apply action_reads.
  - destruct (_ <? _)%nat eqn:E; [|by apply some_items in E as ->].
    unfold sources. simpl. rewrite map_map, (items_from_ok _ _ id), map_id; [done|]. intros src i Hsrc. apply source_reads. by eapply forallb_elem.
Qed.
Lemma policy_builds p ptr : policy_ok p = true →
  ∃ m, policyDocumentNode p = documentOf (mapping m) ∧ headed ptr (policy_handlers ptr) empty_policy KindPolicy m p.
Proof.
  destruct p as [id desc subj res ctx acts cond chs]. unfold policy_shape. cbn [p_Condition p_Challenges]. intros [Hc Hch]%andb_true_iff.
  eexists. split; [done|]. cbn [p_ID p_Description p_Subject p_Resource p_Context p_Actions p_Condition p_Challenges].
  set (P d s r c a n := mkPolicy id d s r c a n []).
  assert (headed ptr (policy_handlers ptr) empty_policy KindPolicy
    (put (putStringIf (putString (putString (putStringIf (putString (envelope KindPolicy) "id" id) "description" desc "") "subject" subj)
      "resource" res) "context" ctx "") "actions" (stringSequenceNode acts)) (P desc subj res ctx acts NodeNil)) as H0.
  { eapply (headed_put _ _ _ _ _ (P desc subj res ctx [] NodeNil)); [|set_solver|done|].
    2:{ pose proof (strings_ok acts) as Ha. unfold stringSequenceNode, sequence in *. simpl in Ha |- *. by rewrite Ha. }
    eapply (headed_stringIf _ _ _ _ _ (P desc subj res "" [] NodeNil) _ _ _ (λ p v, mkPolicy (p_ID p) (p_Description p) (p_Subject p) (p_Resource p) v (p_Actions p) (p_Condition p) (p_Challenges p)));
      [|set_solver|done|by intros ->].
    eapply (headed_put _ _ _ _ _ (P desc subj "" "" [] NodeNil)); [|set_solver|done|done].
    eapply (headed_put _ _ _ _ _ (P desc "" "" "" [] NodeNil)); [|set_solver|done|done].
    eapply (headed_stringIf _ _ _ _ _ (P "" "" "" "" [] NodeNil) _ _ _ (λ p v, mkPolicy (p_ID p) v (p_Subject p) (p_Resource p) (p_Context p) (p_Actions p) (p_Condition p) (p_Challenges p)));
      [|set_solver|done|by intros ->].
    eapply headed_put; [by apply headed_envelope|set_solver|done|done]. }
  eapply (headed_put_if _ _ _ _ _ _ (P desc subj res ctx acts cond)); [|set_solver|done|].
  - assert (condition_ok cond = true → headed ptr (policy_handlers ptr) empty_policy KindPolicy
      (put (put (putStringIf (putString (putString (putStringIf (putString (envelope KindPolicy) "id" id) "description" desc "") "subject" subj)
        "resource" res) "context" ctx "") "actions" (stringSequenceNode acts)) "condition" (conditionNode cond)) (P desc subj res ctx acts cond)) as H1.
    { intros Hok. eapply headed_put; [done|set_solver|done|]. pose proof (condition_reads cond) as Hr. simpl. by rewrite Hr. }
    destruct cond; [done|by apply H1..].
  - destruct (_ <? _)%nat eqn:E; [|by apply some_items in E as ->]. pose proof (challenges_read chs) as Hr. simpl in Hr |- *. by rewrite Hr.
Qed.

Lemma document_kind set m kind :
  present (entries (map resolved m)) "apiVersion" = Some (str APIVersion) → present (entries (map resolved m)) "kind" = Some (str kind) →
  document set (resolved (mapping m)) =
  if bool_decide (kind = KindSchema) then schemaDocument set (resolved (mapping m))
  else if bool_decide (kind = KindPolicy) then policyDocument set (resolved (mapping m)) else report set "" CodeUnknownKind.
Proof.
  intros Ha Hk. unfold document. change (negb (is_kind MappingNode (resolved (mapping m)))) with false. cbv iota.
  change (Content (resolved (mapping m))) with (map resolved m). by rewrite Ha, Hk.
Qed.

Lemma document_schema s : forallb source_ok (sch_Sources s) = true →
  ∃ root, Content (resolved (schemaDocumentNode s)) = [root] ∧ document (mkSet (mkSchema [] [] []) []) root = wret (mkSet s []).
Proof.
  intros (m & -> & Hb & Ha & Hk)%schema_builds. eexists. split; [done|].
  rewrite (document_kind _ m KindSchema) by done. change (schemaDocument (mkSet (mkSchema [] [] []) []) (resolved (mapping m)) = wret (mkSet s [])).
  unfold schemaDocument. cbn [set_Schema]. by rewrite (builds_walk _ _ _ m s Hb).
Qed.

Lemma document_policy p set : policy_ok p = true →
  ∃ root, Content (resolved (policyDocumentNode p)) = [root] ∧ document set root = wret (mkSet (set_Schema set) (set_Policies set ++ [p])).
Proof.
  intros Hp. destruct (policy_builds p (jptr [Seg "policies"; Idx (length (set_Policies set))]) Hp) as (m & -> & Hb & Ha & Hk). eexists. split; [done|].
  rewrite (document_kind _ m KindPolicy) by done.
  change (policyDocument set (resolved (mapping m)) = wret (mkSet (set_Schema set) (set_Policies set ++ [p]))).
  unfold policyDocument. by rewrite (builds_walk _ _ _ m p Hb).
Qed.

Lemma stream_policies ps set : forallb policy_ok ps = true →
  stream (map resolved (map policyDocumentNode ps)) false set = wret (mkSet (set_Schema set) (set_Policies set ++ ps)).
Proof.
  revert set. induction ps as [|p ps IH]; intros set; [intros _; destruct set; simpl; by rewrite app_nil_r|].
  cbn [forallb map]. intros [Hp Hps]%andb_true_iff. destruct (document_policy p set Hp) as (root & Hc & Hd).
  cbn [stream]. rewrite Hc, Hd. simpl. rewrite IH by done. simpl. by rewrite <-app_assoc.
Qed.

(** Reading the documents of a set gives the set, and reports nothing. *)
Lemma stream_documents s : encodable (Normalize s) = true →
  stream (map resolved (documents s)) false (mkSet (mkSchema [] [] []) []) = wret (Normalize s).
Proof.
  unfold set_shape, documents. intros [Hs Hp]%andb_true_iff. destruct (Normalize s) as [sch ps]. cbn [set_Schema set_Policies] in *.
  destruct (schemaEmpty sch) eqn:E.
  - unfold schemaEmpty in E. destruct sch as [[|] [|] [|]]; try done. rewrite app_nil_l. by rewrite stream_policies.
  - destruct (document_schema sch Hs) as (root & Hc & Hd). cbn [map app stream]. rewrite Hc, Hd. simpl. by rewrite stream_policies.
Qed.
End read.
