(* ===== verification/DecodeShape.v ===== *)
(** * What the reader produces

    A policy set read without a report has the shape the format represents, but for the
    instants, which may fall outside the years of four digits, and the approver sets,
    which may mix two forms. *)
From Stdlib Require Import Ascii SpecFloat.
From S2P Require Import Prelude GoLib Policy Cel Validate Limiter Text Strconv Encode FloatText Decode CodecRead.
Import Strings.

(** ** Durations *)

Section durations.
Local Open Scope Z_scope.

Definition spec_nonneg (x : spec_float) : Prop :=
  match x with S754_zero b | S754_infinity b | S754_finite b _ _ => b = false | S754_nan => True end.
Definition nonneg (x : Float64.t) : Prop :=
  match x with Float64.NegZero => False | Float64.Inf b => b = false | Float64.Fin m _ => 0 <= m | Float64.NaN => True end.

Lemma round_aux_sign p e s m x l : s = false → spec_nonneg (binary_round_aux p e s m x l).
Proof. intros ->. unfold binary_round_aux. destruct (shr_fexp _ _ _ _ _) as [mr e']. destruct (shr_fexp _ _ _ _ _) as [mr' e'']. destruct (shr_m mr'); simpl; try done. by destruct (_ <=? _). Qed.

Lemma to_spec_nonneg x : nonneg x → spec_nonneg (Float64.to_spec x).
Proof.
  destruct x as [|b| |m e]; simpl; [done..|]. intros Hm. unfold binary_normalize. destruct m as [|p|p]; [done| |lia].
  unfold binary_round. destruct (shl_align _ _ _) as [mz ez]. by apply round_aux_sign.
Qed.

Lemma of_spec_nonneg x : spec_nonneg x → nonneg (Float64.of_spec x).
Proof. destruct x as [[]|[]| |[] p e]; simpl; done. Qed.

Lemma mul_nonneg x y : nonneg x → nonneg y → nonneg (Float64.mul x y).
Proof.
  intros Hx%to_spec_nonneg Hy%to_spec_nonneg. unfold Float64.mul. apply of_spec_nonneg.
  destruct (Float64.to_spec x), (Float64.to_spec y); simpl in *; subst; try done. by apply round_aux_sign.
Qed.

Lemma div_nonneg x y : nonneg x → nonneg y → nonneg (Float64.div x y).
Proof.
  intros Hx%to_spec_nonneg Hy%to_spec_nonneg. unfold Float64.div. apply of_spec_nonneg.
  destruct (Float64.to_spec x), (Float64.to_spec y); simpl in *; subst; try done. unfold SFdiv.
  destruct (SFdiv_core_binary _ _ _ _ _ _) as [[mz ez] lz]. by apply round_aux_sign.
Qed.

Lemma to_int64_nonneg x : nonneg x → 0 <= to_int64 0 x.
Proof.
  destruct x as [|b| |m e]; simpl; try done. intros Hm. destruct (Z.leb_spec 0 e).
  - case_match; [|done]. pose proof (Z.pow_nonneg 2 e). nia.
  - case_match; [|done]. apply Z.quot_pos; [done|]. apply Z.pow_pos_nonneg; lia.
Qed.

Lemma leadingInt_nonneg x l n r : 0 <= x → leadingInt x l = Ok (n, r) → 0 <= n.
Proof.
  revert x. induction l as [|a l IH]; intros x Hx; simpl; [by intros [= <- _]|].
  destruct (is_digit a) eqn:E; simpl; [|by intros [= <- _]]. apply is_digit_iff, digit_val_range in E.
  destruct (_ <? x); [done|]. destruct (_ <? _); [done|]. apply IH. lia.
Qed.

Lemma leadingFraction_nonneg x s o l f s' r : 0 <= x → nonneg s → leadingFraction x s o l = (f, s', r) → 0 <= f ∧ nonneg s'.
Proof.
  revert x s o. induction l as [|a l IH]; intros x s o Hx Hs; simpl; [by intros [= <- <- _]|].
  destruct (is_digit a) eqn:E; simpl; [|by intros [= <- <- _]]. apply is_digit_iff, digit_val_range in E.
  destruct (_ || _); [by apply IH|]. apply IH; [lia|]. by apply mul_nonneg.
Qed.

Lemma unit_pos u n : unit_of u = Some n → 0 < n.
Proof. unfold unit_of. intros H. repeat case_match; simplify_eq; done. Qed.

Lemma round53_nonneg n : 0 <= n → 0 <= Float64.round53 n.
Proof. intros Hn. destruct (Z.eq_dec n 0) as [->|]; [done|]. pose proof (Float64.round53_pos n). lia. Qed.

Lemma component_range l v r : component l = Ok (v, r) → 0 <= v <= 2 ^ 63.
Proof.
  unfold component. destruct l as [|a l]; [done|]. destruct (negb _); [done|]. intros ([n l1] & Hn & H)%res_bind_Ok.
  apply leadingInt_nonneg in Hn; [|done].
  destruct (match l1 with b :: l2 => _ | [] => _ end) as [[[f scale] l2] post] eqn:Ef.
  assert (0 <= f ∧ nonneg scale) as [Hf Hs].
  { destruct l1 as [|b l1']; [by injection Ef as <- <- _ _|]. case_bool_decide; [|by injection Ef as <- <- _ _].
    destruct (leadingFraction _ _ _ _) as [[f' s'] l3] eqn:El. injection Ef as <- <- _ _. by eapply leadingFraction_nonneg in El. }
  destruct (_ && _); [done|]. destruct (span_unit l2) as [u rest]. destruct u as [|c u]; [done|]. destruct (unit_of _) as [n'|] eqn:Eu; [|done].
  apply unit_pos in Eu. destruct (_ <? n); [done|]. destruct (Z.ltb_spec (2 ^ 63) (n * n' + fraction_part f n' scale)); [done|]. injection H as <- _.
  assert (0 <= fraction_part f n' scale); [|nia]. unfold fraction_part. destruct (0 <? f); [|done]. apply to_int64_nonneg, mul_nonneg; [by apply round53_nonneg|].
  apply div_nonneg; [simpl; lia|done].
Qed.

Lemma components_range fuel d l n : 0 <= d <= 2 ^ 63 → components fuel d l = Ok n → 0 <= n <= 2 ^ 63.
Proof.
  revert d l. induction fuel as [|fuel IH]; intros d [|a l] Hd; cbn [components]; try done; try by intros [= <-].
  intros ([v r] & Hv & H)%res_bind_Ok. apply component_range in Hv. destruct (Z.ltb_spec (2 ^ 63) (d + v)); [done|]. eapply IH; [|done]. lia.
Qed.

Lemma ParseDuration_range s d : ParseDuration s = Ok d → int64 d = true.
Proof.
  unfold ParseDuration, int64. destruct (match bytes s with a :: l => _ | [] => _ end) as [neg l]. case_bool_decide; [by intros [= <-]|].
  destruct l as [|a l]; [done|]. intros (n & Hn & H')%res_bind_Ok. apply components_range in Hn; [|lia].
  rewrite andb_true_iff, Z.leb_le, Z.ltb_lt. destruct neg; [injection H' as <-; lia|].
  destruct (Z.ltb_spec (2 ^ 63 - 1) n); [done|]. injection H' as <-. lia.
Qed.

Lemma undigits_nonneg l : Forall digit l → 0 <= undigits l.
Proof. intros Hd. apply (read_digits_grows 0 l); done. Qed.

Lemma ParseInt_range s n : ParseInt s = Ok n → int64 n = true.
Proof.
  unfold ParseInt, int64. destruct (split_sign (bytes s)) as [neg l]. destruct (bool_decide _ || _) eqn:E; [done|].
  apply orb_false_iff in E as [_ Hd%negb_false_iff]. rewrite forallb_forall in Hd.
  assert (0 <= undigits l) by (apply undigits_nonneg, Forall_forall; intros a Ha; apply is_digit_iff, Hd; by apply list_elem_of_In).
  rewrite andb_true_iff, Z.leb_le, Z.ltb_lt. destruct neg.
  - destruct (Z.leb_spec (undigits l) (2 ^ 63)); [|done]. intros [= <-]. lia.
  - destruct (Z.ltb_spec (undigits l) (2 ^ 63)); [|done]. intros [= <-]. lia.
Qed.
End durations.

(** ** Constants and operands *)

Definition any {A} (_ : A) : bool := true.

Lemma proper_spelled `{Spelled A} s : proper (spelled s : A).
Proof. unfold proper. by rewrite spelling_spelled. Qed.

Lemma wbind_inv {A B} (m : W A) (f : A → W B) b ds : wbind m f = (b, ds) → ∃ a d1 d2, m = (a, d1) ∧ f a = (b, d2) ∧ ds = d1 ++ d2.
Proof. unfold wbind. destruct m as [a d1]. destruct (f a) as [b' d2] eqn:E. intros [= <- <-]. eauto 10. Qed.

Ltac wstep H := apply wbind_inv in H as (? & ? & ? & ? & H & ->).

Lemma parsed_or_inv {A} (r : result A) mk ptr v ds : parsed_or r mk ptr = (Some v, ds) → ∃ a, r = Ok a ∧ v = mk a.
Proof. destruct r; simpl; [intros [= <- _]; eauto|done]. Qed.

(** One case per type of the chain of comparisons. *)
Ltac type_cases t := case_bool_decide; [subst t|try type_cases t].

Lemma scalarData_shape t n ptr v ds : scalarData t n ptr = (Some v, ds) → scalar_shape any t v = true ∧ IsScalar t = true.
Proof.
  unfold scalarData. destruct (negb _); [done|].
  type_cases t; [..|intros [=]]; try (intros (a & Ha & ->)%parsed_or_inv); simpl.
  - done.
  - by rewrite (ParseInt_range _ _ Ha).
  - apply res_bind_Ok in Ha as (f & Hf & Hg). destruct (Float64.is_finite f) eqn:E; [|done]. injection Hg as <-. by rewrite (ParseFloat_canonical _ _ Hf E).
  - by intros [= <- _].
  - done.
  - by rewrite (ParseDuration_range _ _ Ha).
Qed.

Lemma all_items_inv {A} (P : A → Prop) (read : ynode → nat → W (option A)) i items l ds :
  (∀ item j v d, item ∈ items → read item j = (Some v, d) → P v) → all_items read i items = (Some l, ds) → Forall P l.
Proof.
  revert i l ds. induction items as [|item items IH]; intros i l ds HP H; simpl in H; [injection H as <- _; constructor|].
  wstep H. destruct x as [a|]; [|done]. wstep H. destruct x as [l'|]; [|done]. injection H as <- _. constructor.
  - eapply HP; [|done]. set_solver.
  - eapply IH; [|done]. intros. eapply HP; [|done]. set_solver.
Qed.

Lemma literal_scalar t v : scalar_shape any t v = true → IsScalar t = true → literal_shape any (mkLiteral t v) = true.
Proof. intros Hv Ht. unfold literal_shape. simpl. rewrite (scalar_not_list t); [done|]. by apply IsScalar_iff. Qed.

Lemma read_literal_list t items : IsScalar t = true → Forall (λ v, scalar_shape any t v = true) items →
  literal_shape any (mkLiteral (ListOf t) (VList items)) = true.
Proof.
  intros Ht Hi. unfold literal_shape. simpl. rewrite IsList_ListOf, Elem_ListOf, Ht. simpl. apply forallb_forall.
  intros v Hv%list_elem_of_In. rewrite Forall_forall in Hi. by apply Hi.
Qed.

Lemma typeForTag_scalar tag t : typeForTag tag = Some t → IsScalar t = true.
Proof. unfold typeForTag. intros H. repeat case_match; simplify_eq; done. Qed.

Definition good (o : Operand) : Prop := o = OperandNil ∨ operand_shape any o = true.

Lemma inferredScalar_shape n ptr o ds : inferredScalar n ptr = (o, ds) → good o.
Proof.
  unfold inferredScalar. destruct (typeForTag (Tag n)) as [t|] eqn:E; [|intros [= <- _]; by left]. intros H. wstep H.
  injection H as <- _. destruct x as [v|]; [|by left]. right. apply scalarData_shape in H0 as [Hv Ht]. by apply literal_scalar.
Qed.

Lemma inferredList_shape n ptr o ds : inferredList n ptr = (o, ds) → good o.
Proof.
  unfold inferredList. destruct (Content n) as [|c l]; [intros [= <- _]; by left|].
  destruct (typeForTag (Tag c)) as [t|] eqn:E; [|intros [= <- _]; by left]. intros H. wstep H. injection H as <- _.
  destruct x as [items|]; [|by left]. right. apply read_literal_list; [by eapply typeForTag_scalar|].
  eapply all_items_inv; [|done]. intros item j v d _ Hr. cbv beta zeta in Hr. case_bool_decide; [|done]. by apply scalarData_shape in Hr as [? _].
Qed.

Lemma typedValue_shape v tn ptr o ds : typedValue v tn ptr = (o, ds) → good o.
Proof.
  unfold typedValue. destruct tn as [tn|].
  - intros H. wstep H. destruct (Type_Valid x) eqn:Ev; [|injection H as <- _; by left]. simpl in H. unfold Type_Valid in Ev. destruct (IsList x) eqn:El.
    + destruct (negb _); [injection H as <- _; by left|]. wstep H. injection H as <- _. destruct x2 as [items|]; [|by left]. right.
      apply IsList_inv in El as [e ->]. rewrite Elem_ListOf in *. apply read_literal_list; [done|].
      eapply all_items_inv; [|done]. intros item j w d _ Hr. by apply scalarData_shape in Hr as [? _].
    + wstep H. injection H as <- _. destruct x2 as [w|]; [|by left]. right. apply scalarData_shape in H1 as [? ?]. by apply literal_scalar.
  - destruct (Kind v); try (intros [= <- _]; by left); [apply inferredList_shape|apply inferredScalar_shape].
Qed.

Lemma cut_dot_no_dot l a b : cut_dot l = Some (a, b) → forallb (λ c, negb (bool_decide (c = "."%char))) a = true.
Proof.
  revert a b. induction l as [|c l IH]; intros a b; simpl; [done|]. case_bool_decide; [by intros [= <- _]|].
  destruct (cut_dot l) as [[a' b']|] eqn:E; simpl; [|done]. intros [= <- _]. simpl. rewrite bool_decide_eq_false_2 by done. by eapply IH.
Qed.

Lemma fieldRef_shape n ptr o ds : fieldRef n ptr = (o, ds) → good o.
Proof.
  unfold fieldRef. intros H. wstep H. destruct (cut_dot (bytes x)) as [[r a]|] eqn:E; [|injection H as <- _; by left].
  assert (o = FieldRef (spelled (unbytes r)) (unbytes a)) as -> by (unfold wret in H; congruence). right.
  cbn [operand_shape]. rewrite bool_decide_eq_true_2 by apply proper_spelled. cbn [andb]. unfold no_dot. rewrite spelling_spelled. unfold bytes, unbytes. rewrite String.list_ascii_of_string_of_list_ascii.
  by eapply cut_dot_no_dot.
Qed.

Lemma operand_go_shape fuel n ptr o ds : operand_go fuel n ptr = (o, ds) → good o.
Proof.
  revert n ptr o ds. induction fuel as [|fuel IH]; intros n ptr o ds; simpl; [intros [= <- _]; by left|].
  unfold operand_body. destruct (Kind n); try (intros [= <- _]; by left); [apply inferredList_shape| |apply inferredScalar_shape].
  unfold operandMapping. destruct (stray_key _); [intros [= <- _]; by left|].
  destruct (present _ "field"); [apply fieldRef_shape|]. destruct (present _ "source") as [src|].
  - intros H. wstep H. destruct (present _ "args") as [args|]; [|injection H as <- _; by right].
    destruct (negb _); [injection H as <- _; by left|]. wstep H. injection H as <- _. destruct x2 as [l|]; [|by left]. right. simpl.
    apply forallb_forall. intros a Ha%list_elem_of_In. apply (all_items_inv (λ o, operand_shape any o = true)) in H1.
    + rewrite Forall_forall in H1. by apply H1.
    + intros item j v d _ Hr. unfold non_nil in Hr. apply wbind_inv in Hr as (y & ? & ? & Hy%IH & Hr & _). destruct Hy as [->|Hy]; [done|]. destruct y; unfold wret in Hr; by simplify_eq.
  - destruct (present _ "value"); [apply typedValue_shape|intros [= <- _]; by left].
Qed.

Lemma operand_good n ptr o ds : operand n ptr = (o, ds) → good o.
Proof. apply operand_go_shape. Qed.

(** ** Conditions *)

Definition good_node (n : Node) : Prop := n = NodeNil ∨ condition_shape any n = true.

Lemma good_inv o : good o → is_nil_operand o = false → operand_shape any o = true.
Proof. intros [->|H]; done. Qed.

Lemma leaf_shape es l ptr n ds : leaf es l ptr = (n, ds) → good_node n.
Proof.
  unfold leaf. intros H. apply wbind_inv in H as (left_ & ? & ? & Hl%operand_good & H & _).
  destruct (is_Reference left_) eqn:Er; [|injection H as <- _; by left]. cbn [negb] in H. cbv zeta in H.
  assert (∀ key neg coll d, (let+ c := operand coll (jptr [Seg ptr; Seg key]) in
    wret (if is_nil_operand left_ || is_nil_operand c then NodeNil else Member left_ c neg)) = (n, d) → good_node n) as Hm.
  { intros key neg coll d Hc. apply wbind_inv in Hc as (c & ? & ? & Hc%operand_good & Hn & _). injection Hn as <- _.
    destruct (_ || _) eqn:En; [by left|]. apply orb_false_iff in En as [E1 E2]. right. simpl. unfold reference_shape. by rewrite Er, !good_inv. }
  destruct (present es "in"); [by eapply Hm|]. destruct (present es "not_in"); [by eapply Hm|].
  destruct (present es "op") as [op|]; [|injection H as <- _; by left]. destruct (present es "right") as [r|]; [|injection H as <- _; by left].
  apply wbind_inv in H as (right_ & ? & ? & Hr%operand_good & H & _). destruct (_ || _) eqn:En; [injection H as <- _; by left|].
  apply orb_false_iff in En as [E1 E2]. apply wbind_inv in H as (name & ? & ? & _ & H & _).
  assert (n = Compare left_ (spelled name) right_) as -> by (unfold wret in H; congruence). right.
  cbn [condition_shape]. unfold reference_shape. rewrite Er, !good_inv by done. by rewrite bool_decide_eq_true_2 by apply proper_spelled.
Qed.

Lemma non_nil_nodes (read : ynode → string → W Node) (p : nat → string) i items l ds :
  (∀ n ptr c d, read n ptr = (c, d) → good_node c) →
  all_items (λ item i, non_nil_node (read item (p i))) i items = (Some l, ds) → forallb (condition_shape any) l = true.
Proof.
  intros Hr H. apply (all_items_inv (λ n, condition_shape any n = true)) in H.
  - apply forallb_forall. intros n Hn%list_elem_of_In. rewrite Forall_forall in H. by apply H.
  - intros item j v d _ Hv. apply wbind_inv in Hv as (c & ? & ? & Hc%Hr & Hv & _). destruct Hc as [->|Hc]; [done|]. destruct c; unfold wret in Hv; by simplify_eq.
Qed.

Lemma condition_go_shape fuel n ptr c ds : condition_go fuel n ptr = (c, ds) → good_node c.
Proof.
  revert n ptr c ds. induction fuel as [|fuel IH]; intros n ptr c ds; simpl; [intros [= <- _]; by left|].
  unfold condition_body. destruct (negb _); [intros [= <- _]; by left|].
  assert (∀ op seq, contains [LogicAll; LogicAny] op = true → logic (condition_go fuel) op seq ptr = (c, ds) → good_node c) as Hl.
  { intros op seq Hop H. unfold logic in H. destruct (negb _); [injection H as <- _; by left|].
    apply wbind_inv in H as ([l|] & ? & ? & Hi & H & _); [|injection H as <- _; by left]. injection H as <- _. right. simpl.
    rewrite (non_nil_nodes _ _ _ _ _ _ IH Hi), andb_true_r. case_bool_decide as En; [by subst|done]. }
  destruct (present _ "all"); [by apply Hl|]. destruct (present _ "any"); [by apply Hl|]. destruct (present _ "not").
  - intros H. apply wbind_inv in H as (m & ? & ? & Hm%IH & H & _). destruct Hm as [->|Hm]; [injection H as <- _; by left|].
    assert (c = Logic LogicNot [m]) as -> by (destruct m; unfold wret in H; by simplify_eq). right. simpl. by rewrite Hm.
  - destruct (present _ "left"); [apply leaf_shape|intros [= <- _]; by left].
Qed.

(** ** Mappings and lists *)

Lemma walk_inv {S} (P : S → Prop) node ptr hs s s' ds :
  Forall (λ h : string * handler S, ∀ s n s' d, P s → h.2 s n = (s', d) → P s') hs → P s → walk node ptr hs s = (s', ds) → P s'.
Proof.
  intros Hh Hs. unfold walk. destruct (is_kind _ _); [|by intros [= <- _]]. generalize (entries (Content node)). intros es. revert s ds Hs.
  induction es as [|[k v] es IH]; intros s ds Hs H; simpl in H; [by injection H as <- _|].
  apply wbind_inv in H as (s1 & ? & ? & H1 & H & _). eapply IH; [|done].
  destruct (handler_of hs (Value k)) as [h|] eqn:E; [|by injection H1 as <- _].
  unfold handler_of in E. destruct (List.find _ hs) as [kh|] eqn:Ef; [|done]. injection E as <-. apply find_some in Ef as [Hin _].
  rewrite Forall_forall in Hh. eapply Hh; [|done..]. by apply list_elem_of_In.
Qed.

Lemma items_from_inv {A} (P : A → Prop) (read : ynode → nat → W A) i items l ds :
  (∀ item j a d, read item j = (a, d) → P a) → items_from read i items = (l, ds) → Forall P l.
Proof.
  intros HP. revert i l ds. induction items as [|item items IH]; intros i l ds H; simpl in H; [injection H as <- _; constructor|].
  apply wbind_inv in H as (a & ? & ? & Ha & H & _). apply wbind_inv in H as (l' & ? & ? & Hl & H & _). injection H as <- _.
  constructor; [by eapply HP|by eapply IH].
Qed.

(** ** Challenges *)

Definition args_good (a : ApproverSet) : Prop := approvers_shape any any a = true.

Lemma approver_args_shape ptr i items r ds : approver_args ptr i items = (r, ds) → forallb (operand_shape any) r.1 = true.
Proof.
  revert i r ds. induction items as [|item items IH]; intros i r ds H; simpl in H; [by injection H as <- _|].
  apply wbind_inv in H as (o & ? & ? & Ho%operand_good & H & _). apply wbind_inv in H as (r' & ? & ? & Hr%IH & H & _). injection H as <- _.
  destruct (is_nil_operand o) eqn:E; [done|]. simpl. by rewrite good_inv.
Qed.

Lemma source_args_good a : args_good a → forallb (operand_shape any) (source_of a).2 = true.
Proof. unfold args_good, approvers_shape, source_of. by destruct (as_Source a) as [[]|]. Qed.

Lemma set_source_good a src : forallb (operand_shape any) src.2 = true → args_good (set_source a src).
Proof. destruct src. done. Qed.

Lemma approver_entry_shape ptr s k v s' ds : args_good s.1 → approver_entry ptr s k v = (s', ds) → args_good s'.1.
Proof.
  destruct s as [a ok]. simpl. intros Ha. pose proof (source_args_good a Ha) as Hsrc. unfold approver_entry.
  case_bool_decide; [intros (l & ? & ? & _ & H' & _)%wbind_inv; injection H' as <- _; done|].
  case_bool_decide; [intros (c & ? & ? & _ & H' & _)%wbind_inv; injection H' as <- _; done|].
  case_bool_decide; [intros (nm & ? & ? & _ & H' & _)%wbind_inv; injection H' as <- _; by apply set_source_good|].
  case_bool_decide; [|by intros [= <- _]].
  destruct (negb _); [intros [= <- _]; by apply set_source_good|]. intros (r & ? & ? & Hr%approver_args_shape & H' & _)%wbind_inv. injection H' as <- _.
  apply set_source_good. simpl. by rewrite forallb_app, Hsrc.
Qed.

Lemma approverSet_shape n ptr a ds : approverSet n ptr = (Some a, ds) → args_good a.
Proof.
  unfold approverSet. destruct (negb _); [done|]. intros (s & ? & ? & Hs & H & _)%wbind_inv. destruct s.2 eqn:E; [|done]. injection H as <- _.
  assert (args_good (mkApproverSet [] "" None, true).1) as H0 by done. revert H0 Hs. generalize (mkApproverSet [] "" None, true). generalize (entries (Content n)).
  intros es. clear. revert x. induction es as [|[k v] es IH]; intros d s0 H0 H; simpl in H; [by injection H as <- _|].
  apply wbind_inv in H as (s1 & ? & ? & H1 & H & _). eapply IH; [|done]. by eapply approver_entry_shape.
Qed.

Lemma scalarInt_range n ptr v ds : scalarInt n ptr = (v, ds) → int64 v = true.
Proof.
  unfold scalarInt. intros (raw & ? & ? & _ & H & _)%wbind_inv. destruct (ParseInt raw) eqn:E; injection H as <- _; [by eapply ParseInt_range|done].
Qed.

Lemma scalarDuration_range n ptr v ds : scalarDuration n ptr = (v, ds) → int64 v = true.
Proof.
  unfold scalarDuration. intros (raw & ? & ? & _ & H & _)%wbind_inv. destruct (ParseDuration raw) eqn:E; injection H as <- _; [by eapply ParseDuration_range|done].
Qed.

Definition good_challenge (o : option Challenge) : Prop := match o with Some c => challenge_shape any any c = true | None => True end.

Lemma read_as_shape {S} (mk : S → Challenge) node ptr hs zero o ds :
  Forall (λ h : string * handler S, ∀ s n s' d, challenge_shape any any (mk s) = true → h.2 s n = (s', d) → challenge_shape any any (mk s') = true) hs →
  challenge_shape any any (mk zero) = true → read_as mk node ptr hs zero = (o, ds) → good_challenge o.
Proof.
  intros Hh Hz. unfold read_as. intros (c & ? & ? & Hc & H & _)%wbind_inv. injection H as <- _. simpl.
  by apply (walk_inv (λ s, challenge_shape any any (mk s) = true)) in Hc.
Qed.

Lemma challenge_good n ptr o ds : challenge n ptr = (o, ds) → good_challenge o.
Proof.
  unfold challenge. destruct (negb _); [by intros [= <- _]|]. destruct (spelled _); [..|by intros [= <- _]].
  - apply read_as_shape; [|done]. repeat apply Forall_cons_2; [..|apply Forall_nil_2]; cbn [snd]; intros s c s' d Hs Hh.
    + by injection Hh as <- _.
    + apply wbind_inv in Hh as (v & ? & ? & Hv%scalarInt_range & Hh & _). injection Hh as <- _. simpl in *. apply andb_true_iff in Hs as [_ Hs]. by rewrite Hv.
    + apply wbind_inv in Hh as (a & ? & ? & Ha & Hh & _). injection Hh as <- _. destruct a as [a|]; [|done]. apply approverSet_shape in Ha.
      simpl in *. apply andb_true_iff in Hs as [Hs _]. by rewrite Hs.
  - apply read_as_shape; [|done]. repeat apply Forall_cons_2; [..|apply Forall_nil_2]; cbn [snd text_into]; intros s c s' d Hs Hh.
    + by injection Hh as <- _.
    + apply wbind_inv in Hh as (v & ? & ? & _ & Hh & _). unfold wret in Hh. assert (s' = mkMFA (spelled v) (mfa_ACRValues s)) as -> by congruence.
      cbn [challenge_shape mfa_Mode]. apply bool_decide_eq_true_2, proper_spelled.
    + apply wbind_inv in Hh as (v & ? & ? & _ & Hh & _). by injection Hh as <- _.
  - apply read_as_shape; [|done]. repeat apply Forall_cons_2; [..|apply Forall_nil_2]; cbn [snd]; intros s c s' d Hs Hh.
    + by injection Hh as <- _.
    + apply wbind_inv in Hh as (v & ? & ? & Hv%scalarDuration_range & Hh & _). injection Hh as <- _. simpl in *. apply andb_true_iff in Hs as [_ Hs]. by rewrite Hv.
    + apply wbind_inv in Hh as (a & ? & ? & Ha & Hh & _). injection Hh as <- _. simpl in *. apply andb_true_iff in Hs as [-> _].
      destruct a as [a|]; [|done]. by apply approverSet_shape in Ha.
  - apply read_as_shape; [|done]. repeat apply Forall_cons_2; [..|apply Forall_nil_2]; done.
Qed.

Lemma challenges_shape n ptr l ds : challenges n ptr = (l, ds) → forallb (challenge_shape any any) l = true.
Proof.
  unfold challenges. destruct (is_kind _ _); [|by intros [= <- _]]. intros (cs & ? & ? & Hc & H & _)%wbind_inv. injection H as <- _.
  apply (items_from_inv good_challenge) in Hc; [|intros; by eapply challenge_good]. induction Hc as [|[c|] cs Hc _ IH]; [done|simpl; by rewrite Hc|done].
Qed.

(** ** Documents *)

(** A handler that stores a scalar keeps what does not depend on the scalar. *)
Lemma text_into_inv {S} (P : S → Prop) ptr key store : (∀ s v, P s → P (store s v)) →
  ∀ s n s' d, P s → (text_into ptr key store).2 s n = (s', d) → P s'.
Proof. intros Hst s n s' d Hs. simpl. intros (v & ? & ? & _ & H & _)%wbind_inv. unfold wret in H. assert (s' = store s v) as -> by congruence. by apply Hst. Qed.

Definition source_good (s : SourceDecl) : Prop := proper (src_Kind s) ∧ proper (src_OnError s).

Lemma source_walk node ptr s ds : walk node ptr (source_handlers ptr) no_source = (s, ds) → source_good s.
Proof.
  apply (walk_inv source_good); [|done]. repeat apply Forall_cons_2; [..|apply Forall_nil_2].
  1-4: apply text_into_inv; intros s0 v [H1 H2]; split; cbn [src_Kind src_OnError]; try done; apply proper_spelled.
  intros s0 n s' d Hs Hh. simpl in Hh. apply wbind_inv in Hh as (l & ? & ? & _ & Hh & _). by injection Hh as <- _.
Qed.

Definition sources_good (s : Schema) : Prop := forallb source_ok (sch_Sources s) = true.

Lemma source_good_ok s : source_good s → source_ok s = true.
Proof. intros [H1 H2]. unfold source_ok. by rewrite !bool_decide_eq_true_2. Qed.

Lemma sources_shape before n l ds : forallb source_ok before = true → sources before n = (l, ds) → forallb source_ok l = true.
Proof.
  intros Hb. unfold sources. destruct (is_kind _ _); [|by intros [= <- _]]. intros (l' & ? & ? & Hl & H & _)%wbind_inv. injection H as <- _.
  rewrite forallb_app, Hb. simpl. apply (items_from_inv source_good) in Hl; [|intros ? ? ? ? Hw; by apply source_walk in Hw].
  apply forallb_forall. intros s Hs%list_elem_of_In. rewrite Forall_forall in Hl. by apply source_good_ok, Hl.
Qed.

Lemma schema_walk node ptr s0 s ds : sources_good s0 → walk node ptr schema_handlers s0 = (s, ds) → sources_good s.
Proof.
  apply (walk_inv sources_good). repeat apply Forall_cons_2; [..|apply Forall_nil_2]; cbn [snd]; intros s1 n s' d Hs Hh; try by injection Hh as <- _.
  1,2: apply wbind_inv in Hh as (l & ? & ? & _ & Hh & _); by injection Hh as <- _.
  apply wbind_inv in Hh as (l & ? & ? & Hl & Hh & _). injection Hh as <- _. by eapply sources_shape.
Qed.

Definition policy_good (p : Policy) : Prop := policy_shape any any p = true.

Lemma policy_walk node ptr p ds : walk node ptr (policy_handlers ptr) empty_policy = (p, ds) → policy_good p.
Proof.
  apply (walk_inv policy_good); [|done]. repeat apply Forall_cons_2; [..|apply Forall_nil_2].
  1,2: intros s n s' d Hs Hh; by injection Hh as <- _.
  1-5: by apply text_into_inv.
  all: intros s n s' d Hs Hh; cbn [snd] in Hh; apply wbind_inv in Hh as (v & ? & ? & Hv & Hh & _); injection Hh as <- _; try exact Hs;
    unfold policy_good, policy_shape in *; cbn [p_Condition p_Challenges] in *; apply andb_true_iff in Hs as [H1 H2].
  - apply condition_go_shape in Hv. rewrite H2, andb_true_r. destruct Hv as [->|Hv]; [done|]. by destruct v.
  - rewrite H1. by eapply challenges_shape.
Qed.

Definition set_good (s : PolicySet) : Prop := set_shape any any s = true.

Lemma document_shape set root set' ds : set_good set → document set root = (set', ds) → set_good set'.
Proof.
  unfold document, set_good, set_shape. intros [H1 H2]%andb_true_iff. destruct (negb _); [intros [= <- _]; by rewrite H1|]. cbv zeta.
  destruct (bool_decide _); [intros [= <- _]; by rewrite H1|]. destruct (bool_decide _).
  { unfold schemaDocument. intros (s & ? & ? & Hw & H & _)%wbind_inv. injection H as <- _. simpl. apply schema_walk in Hw; [|done]. by rewrite Hw. }
  destruct (bool_decide _); [|intros [= <- _]; by rewrite H1].
  unfold policyDocument. intros (p & ? & ? & Hw & H & _)%wbind_inv. injection H as <- _. simpl. rewrite H1, forallb_app, H2. simpl.
  by rewrite (policy_walk _ _ _ _ Hw).
Qed.

Lemma stream_shape docs bad set set' ds : set_good set → stream docs bad set = (set', ds) → set_good set'.
Proof.
  revert set ds. induction docs as [|doc docs IH]; intros set ds Hs; cbn [stream]; [destruct bad; by intros [= <- _]|].
  destruct (Content doc) as [|root rest]; [by apply IH|]. intros (s1 & ? & ? & H1 & H & _)%wbind_inv. eapply IH; [|done]. by eapply document_shape.
Qed.

(** ** Normalization keeps the shape *)

Lemma normalizeOperand_shape o : operand_shape any o = true → normalizeOperand o = o.
Proof.
  induction o as [|r a|name args IH|l] using Operand_nested_ind; simpl; [done..| |].
  - intros Ha. f_equal. rewrite <-(map_id args) at 2. apply map_ext_in. intros x Hx%list_elem_of_In. rewrite Forall_forall in IH. apply IH; [done|].
    by eapply forallb_elem.
  - unfold literal_shape. destruct (IsList (lit_Type l)); [|done]. by destruct (lit_Data l).
Qed.

Lemma normalizeNode_shape n : condition_shape any n = true → normalizeNode n = n.
Proof.
  induction n as [|op ops IH|l op r|l c b] using Node_nested_ind; simpl; [done|..].
  - intros [_ Ha]%andb_true_iff. f_equal. rewrite <-(map_id ops) at 2. apply map_ext_in. intros x Hx%list_elem_of_In. rewrite Forall_forall in IH. apply IH; [done|].
    by eapply forallb_elem.
  - intros [[[Hr Hl]%andb_true_iff _]%andb_true_iff Ho]%andb_true_iff. unfold normalizeReference. rewrite (normalizeOperand_shape r Ho). f_equal.
    destruct l; [done|..]; by apply normalizeOperand_shape.
  - intros [[Hr Hl]%andb_true_iff Ho]%andb_true_iff. unfold normalizeReference. rewrite (normalizeOperand_shape c Ho). f_equal.
    destruct l; [done|..]; by apply normalizeOperand_shape.
Qed.

Lemma normalizeApproverSet_shape a : args_good a → normalizeApproverSet a = a.
Proof.
  unfold args_good, approvers_shape, normalizeApproverSet. destruct a as [m c [[name args]|]]; simpl; [|done]. intros Ha. do 3 f_equal.
  rewrite <-(map_id args) at 2. apply map_ext_in. intros x Hx%list_elem_of_In. apply normalizeOperand_shape. by eapply forallb_elem.
Qed.

Lemma normalizeChallenge_shape c : challenge_shape any any c = true → challenge_shape any any (normalizeChallenge c) = true.
Proof.
  destruct c as [q|m|d|e]; [..|done]; simpl.
  - intros [Hq Ha]%andb_true_iff. by rewrite normalizeApproverSet_shape, Hq, Ha.
  - intros Hm. by destruct (bool_decide (mfa_Mode m = MFAUnset)).
  - intros [Hd Ha]%andb_true_iff. destruct (d_CancellableBy d) as [a|]; simpl in *; [by rewrite normalizeApproverSet_shape, Hd, Ha|by rewrite Hd].
Qed.

Lemma forallb_sort_by {A B} (f : A → bool) (key : A → B) (R : relation B) `{!RelDecision R} l :
  forallb f l = true → forallb f (sort_by key R l) = true.
Proof.
  intros H. apply forallb_forall. intros x Hx%list_elem_of_In. eapply forallb_elem; [done|]. by apply elem_of_sort_by in Hx.
Qed.

Lemma forallb_map_shape {A} (f : A → bool) (g : A → A) l : (∀ x, f x = true → f (g x) = true) → forallb f l = true → forallb f (map g l) = true.
Proof. intros Hg Hl. apply forallb_forall. intros y (x & <- & Hx%list_elem_of_In)%in_map_iff. apply Hg. by eapply forallb_elem. Qed.

Lemma normalizePolicy_shape p : policy_good p → policy_good (normalizePolicy p).
Proof.
  unfold policy_good, policy_shape, normalizePolicy. cbn [p_Condition p_Challenges]. intros [Hc Hch]%andb_true_iff.
  rewrite forallb_sort_by by (apply forallb_map_shape; [apply normalizeChallenge_shape|done]). rewrite andb_true_r.
  destruct (p_Condition p) eqn:E; [done|..]; by rewrite normalizeNode_shape.
Qed.

Lemma Normalize_shape s : set_good s → set_good (Normalize s).
Proof.
  unfold set_good, set_shape, Normalize. cbn [set_Schema set_Policies normalizeSchema sch_Sources]. intros [H1 H2]%andb_true_iff.
  apply andb_true_iff. split; apply forallb_sort_by, forallb_map_shape; [|done|apply normalizePolicy_shape|done].
  intros src. unfold source_ok. simpl. intros [Hk Ho]%andb_true_iff. rewrite Hk. by destruct (bool_decide (src_OnError src = OnErrorUnset)).
Qed.

(** A set that was read has the shape of the format. *)
Lemma decoded_shape `{YamlText} limits doc s : decode_with_limits limits doc = inl s → set_good s ∧ Normalize s = s.
Proof.
  unfold decode_with_limits. destruct (readCapped _ _); [|done]. destruct (yaml_read _) as [docs bad]. destruct (stream _ _ _) as [set ds] eqn:E.
  destruct ds; [|done]. intros [= <-]. split; [|apply Normalize_idempotent]. apply Normalize_shape. eapply stream_shape; [|exact E]. done.
Qed.
