(* ===== verification/PolicyCodec.v ===== *)
(** * The policy document format

    The codec of internal/policy/codec.go as the [Codec] the policy store, the stored
    deltas and the file apply are written against, and what it guarantees: a set it can
    represent reads back as its normal form, a set that was loaded survives being
    stored, and the set in force, planned against itself, asks for no change. *)
From Stdlib Require Import Ascii.
From S2P Require Import Prelude GoLib Policy Cel Validate ValidateSpec Delta PolicyStore ApplyPlan ApplyPlanSpec.
From S2P Require Import Text Strconv Encode FloatText Decode CodecRead DecodeShape.
Import Strings.

(** [hash] is the SHA-256 of a document in hex. *)
Definition policy_codec `{GoFmt, YamlText} (hash : string → string) : Codec := {|
  PolicyStore.Marshal := Encode;
  PolicyStore.DecodeWithLimits limits doc := match decode_with_limits limits doc with inl s => Ok s | inr _ => Err [] end;
  PolicyStore.content_hash := hash |}.

(** A text within the size limit. *)
Definition fits (limits : Limits) (doc : string) : Prop := is_Some (readCapped doc (lm_MaxDocumentBytes limits)).

Lemma fits_read limits doc : fits limits doc → readCapped doc (lm_MaxDocumentBytes limits) = Some doc.
Proof. unfold fits, readCapped. intros Hf. destruct (_ <=? _)%Z; [done|]. destruct (_ <? _)%Z; [by destruct Hf|done]. Qed.

(** ** Directories *)

(** A tree of files: each file's name and its content, or [None] when it cannot be
    read, in the order [fs.WalkDir] visits them. *)
Definition files := list (string * option string).

(** [path.Ext]: from the last dot of the last element. *)
Fixpoint ext_from (acc : list ascii) (l : list ascii) : list ascii :=
  match l with
  | [] => []
  | a :: l =>
      if bool_decide (a = "/"%char) then []
      else if bool_decide (a = "."%char) then "."%char :: acc
      else ext_from (a :: acc) l
  end.
Definition Ext (name : string) : string := unbytes (ext_from [] (reverse (bytes name))).

Definition policyFileNames (fsys : files) : list string :=
  sort_by id String.le (List.filter (λ name, contains [".yaml"; ".yml"] (ToLower (Ext name))) (map fst fsys)).

Definition read_file (fsys : files) (name : string) : result string :=
  match List.find (λ f, bool_decide (f.1 = name)) fsys with Some (_, Some content) => Ok content | _ => Err [] end.

Definition merge_sets (a b : PolicySet) : PolicySet :=
  mkSet (mkSchema (sch_Entities (set_Schema a) ++ sch_Entities (set_Schema b)) (sch_Actions (set_Schema a) ++ sch_Actions (set_Schema b))
           (sch_Sources (set_Schema a) ++ sch_Sources (set_Schema b)))
        (set_Policies a ++ set_Policies b).

(** The diagnostics of the first file that does not read; a diagnostic names its file
    in its message, which is left out. *)
Fixpoint merge_files `{YamlText} (fsys : files) (limits : Limits) (names : list string) (merged : PolicySet) : PolicySet + Diagnostics :=
  match names with
  | [] => inl merged
  | name :: names =>
      match read_file fsys name with
      | Err _ => inr []
      | Ok data =>
          match decode_with_limits limits data with
          | inr ds => inr ds
          | inl set => merge_files fsys limits names (merge_sets merged set)
          end
      end
  end.

Definition LoadFSWithLimits `{YamlText, CEL} (fsys : files) (limits : Limits) : PolicySet + Diagnostics :=
  match merge_files fsys limits (policyFileNames fsys) (mkSet (mkSchema [] [] []) []) with
  | inr ds => inr ds
  | inl merged =>
      let set := Normalize merged in
      match ValidateWithLimits set limits with [] => inl set | ds => inr ds end
  end.

(** ** The round trip *)

Section codec.
Context `{GoFmt, YamlText} (hash : string → string).

Lemma decode_encode limits s doc : encodable (Normalize s) = true → Encode s = Ok doc → fits limits doc → decode_with_limits limits doc = inl (Normalize s).
Proof.
  intros Hs Hw Hf. unfold decode_with_limits. rewrite fits_read by done. unfold Encode in Hw. rewrite (yaml_read_write _ _ Hw).
  rewrite stream_documents by done. simpl. by rewrite Normalize_idempotent.
Qed.

Lemma Encode_Normalize s : Encode (Normalize s) = Encode s.
Proof. unfold Encode, documents. by rewrite Normalize_idempotent. Qed.
End codec.

(** C17. The format loses nothing: a policy set the format represents, written and read
    back, is the set in normal form, and writing that gives the same text again. *)
Theorem codec_round_trip `{GoFmt, YamlText} limits s doc :
  encodable (Normalize s) = true → Encode s = Ok doc → fits limits doc →
  decode_with_limits limits doc = inl (Normalize s) ∧ Encode (Normalize s) = Ok doc.
Proof. intros Hs Hw Hf. rewrite Encode_Normalize. split; [by apply decode_encode|done]. Qed.

(** ** What was loaded can be stored *)

(** The instants a set mentions. *)
Definition value_instants (v : value) : list Time.t :=
  match v with VTime x => [x] | VList l => omap (λ v, match v with VTime x => Some x | _ => None end) l | _ => [] end.
Fixpoint operand_instants (o : Operand) : list Time.t :=
  match o with Lit l => value_instants (lit_Data l) | SourceRef _ args => concat (map operand_instants args) | _ => [] end.
Fixpoint condition_instants (n : Node) : list Time.t :=
  match n with
  | Logic _ ops => concat (map condition_instants ops)
  | Compare l _ r => operand_instants l ++ operand_instants r
  | Member l c _ => operand_instants l ++ operand_instants c
  | NodeNil => []
  end.
Definition approver_instants (a : ApproverSet) : list Time.t :=
  match as_Source a with Some (_, args) => concat (map operand_instants args) | None => [] end.
Definition challenge_instants (c : Challenge) : list Time.t :=
  match c with
  | CQuorum q => approver_instants (q_Approvers q)
  | CDelay d => match d_CancellableBy d with Some a => approver_instants a | None => [] end
  | _ => []
  end.
Definition policy_instants (p : Policy) : list Time.t := condition_instants (p_Condition p) ++ concat (map challenge_instants (p_Challenges p)).
Definition instants (s : PolicySet) : list Time.t := concat (map policy_instants (set_Policies s)).

Definition in_years (l : list Time.t) : Prop := Forall (λ x, four_digit_year x = true) l.

Lemma in_years_concat {A} (f : A → list Time.t) l x : in_years (concat (map f l)) → x ∈ l → in_years (f x).
Proof. unfold in_years. intros H Hx. apply Forall_concat in H. rewrite Forall_forall in H. apply H. apply list_elem_of_In, in_map. by apply list_elem_of_In. Qed.

Lemma scalar_years t v : scalar_shape any t v = true → in_years (value_instants v) → scalar_shape four_digit_year t v = true.
Proof. destruct v; simpl; try done. rewrite !andb_true_iff. intros [Ht _] Hy. apply Forall_inv in Hy. by split. Qed.

Lemma literal_years l : literal_shape any l = true → in_years (value_instants (lit_Data l)) → literal_shape four_digit_year l = true.
Proof.
  unfold literal_shape. destruct (IsList _); [|by apply scalar_years]. destruct (lit_Data l) as [| | | | | | | | |items|]; try done. simpl.
  rewrite !andb_true_iff, !forallb_forall. intros [He Hi] Hy. split; [done|]. intros v Hv. specialize (Hi v Hv). apply scalar_years; [done|].
  destruct v; try done; try apply List.Forall_nil. unfold in_years in *. apply Forall_singleton. rewrite Forall_forall in Hy. apply Hy.
  apply list_elem_of_omap. eexists. split; [by apply list_elem_of_In|done].
Qed.

Lemma operand_years o : operand_shape any o = true → in_years (operand_instants o) → operand_shape four_digit_year o = true.
Proof.
  induction o as [|r a|name args IH|l] using Operand_nested_ind; simpl; [done..| |apply literal_years].
  intros Ha Hy. apply forallb_forall. intros x Hx%list_elem_of_In. rewrite Forall_forall in IH. apply IH; [done|by eapply forallb_elem|by eapply in_years_concat].
Qed.

Lemma args_years args : forallb (operand_shape any) args = true → in_years (concat (map operand_instants args)) → forallb (operand_shape four_digit_year) args = true.
Proof.
  intros Ha Hy. apply forallb_forall. intros x Hx%list_elem_of_In. apply operand_years; [by eapply forallb_elem|by eapply in_years_concat].
Qed.

Lemma condition_years n : condition_shape any n = true → in_years (condition_instants n) → condition_shape four_digit_year n = true.
Proof.
  induction n as [|op ops IH|l op r|l c b] using Node_nested_ind; simpl; [done|..]; unfold reference_shape; rewrite !andb_true_iff.
  - intros [Hop Ha] Hy. split; [done|]. apply forallb_forall. intros x Hx%list_elem_of_In. rewrite Forall_forall in IH.
    apply IH; [done|by eapply forallb_elem|by eapply in_years_concat].
  - intros [[[? ?] ?] ?] [? ?]%Forall_app. split_and!; try done; by apply operand_years.
  - intros [[? ?] ?] [? ?]%Forall_app. split_and!; try done; by apply operand_years.
Qed.

Lemma approvers_years a : approvers_shape any any a = true → one_form a = true → in_years (approver_instants a) →
  approvers_shape four_digit_year one_form a = true.
Proof. unfold approvers_shape, approver_instants. intros [_ Ha]%andb_true_iff -> Hy. destruct (as_Source a) as [[name args]|]; [|done]. by apply args_years. Qed.

(** Every approver set of a challenge has one form. *)
Definition single_form (c : Challenge) : Prop :=
  match c with
  | CQuorum q => one_form (q_Approvers q) = true
  | CDelay d => match d_CancellableBy d with Some a => one_form a = true | None => True end
  | _ => True
  end.

Lemma challenge_years c : challenge_shape any any c = true → single_form c → in_years (challenge_instants c) →
  challenge_shape four_digit_year one_form c = true.
Proof.
  destruct c as [q|m|d|e]; simpl; try done.
  - intros [-> Ha]%andb_true_iff Hf Hy. by rewrite approvers_years.
  - intros [-> Ha]%andb_true_iff Hf Hy. destruct (d_CancellableBy d); [|done]. by rewrite approvers_years.
Qed.

Lemma set_years s : set_good s → Forall (λ p, Forall single_form (p_Challenges p)) (set_Policies s) → in_years (instants s) → encodable s = true.
Proof.
  unfold set_good, set_shape. intros [-> Hp]%andb_true_iff Hf Hy. simpl. apply forallb_forall. intros p Hin%list_elem_of_In.
  rewrite Forall_forall in Hf. specialize (Hf p Hin). apply (forallb_elem _ _ p) in Hp; [|done]. apply (in_years_concat _ _ p) in Hy; [|done].
  unfold policy_shape in *. apply andb_true_iff in Hp as [Hc Hch]. apply Forall_app in Hy as [Hy1 Hy2]. apply andb_true_iff. split.
  - destruct (p_Condition p); [done|..]; by apply condition_years.
  - apply forallb_forall. intros c Hcin%list_elem_of_In. rewrite Forall_forall in Hf.
    apply challenge_years; [by eapply forallb_elem|by apply Hf|by eapply in_years_concat].
Qed.

Lemma validated_forms `{CEL} s limits : ValidateWithLimits s limits = [] → Forall (λ p, Forall single_form (p_Challenges p)) (set_Policies s).
Proof.
  unfold ValidateWithLimits. destruct (validateStatic s limits) eqn:E; [|done]. intros _. apply validateStatic_nil in E. destruct E as [_ _ _ Hps].
  eapply Forall_impl; [done|]. intros p [_ _ _ _ _ Hch _]. eapply Forall_impl; [done|].
  assert (∀ a th, ValidateSpec.approvers_ok (set_Schema s) p a th → one_form a = true) as Ha.
  { intros a th Ha. destruct Ha; unfold one_form; simpl; [done| |done]. by rewrite bool_decide_eq_false_2. }
  intros [q|m|d|e]; simpl; [|done| |done].
  - intros [_ Hq]. by eapply Ha.
  - intros [_ Hd]. destruct (d_CancellableBy d); [by eapply Ha|done].
Qed.

(** C18. A policy set that was loaded survives being stored.  If a document loads and
    the instants in it have years of four digits in UTC, then the text the set is
    written as, within the size limit, reads back as exactly that set and loads again. *)
Theorem loaded_set_survives_storage `{GoFmt, YamlText, CEL} limits text s doc (hash : string → string) :
  @LoadWithLimits (policy_codec hash) _ limits text = Ok s → in_years (instants s) → Encode s = Ok doc → fits limits doc →
  decode_with_limits limits doc = inl s ∧ @LoadWithLimits (policy_codec hash) _ limits doc = Ok s.
Proof.
  unfold LoadWithLimits. intros (s' & Hd & Hv)%res_bind_Ok Hy Hw Hf. case_bool_decide as Hval; [|done]. injection Hv as ->. simpl in *.
  destruct (decode_with_limits limits text) as [s'|] eqn:E; [|done]. injection Hd as ->. apply decoded_shape in E as [Hg Hn].
  assert (decode_with_limits limits doc = inl s) as Hdec.
  { rewrite <-Hn. apply decode_encode; [|done..]. rewrite Hn. apply set_years; [done|by eapply validated_forms|done]. }
  split; [done|]. rewrite Hdec. simpl. by rewrite bool_decide_eq_true_2.
Qed.

(** ** The plan of the set in force *)

Section export.
Context `{GoFmt, YamlText} (hash : string → string).

Lemma same_normalized p text : Encode (one_policy p) = Ok text → @samePolicy (policy_codec hash) (Some p) (Some (normalizePolicy p)) = true.
Proof.
  intros Hw. unfold samePolicy, EncodePolicy. cbn [Marshal policy_codec].
  change (one_policy (normalizePolicy p)) with (Normalize (one_policy p)). rewrite Encode_Normalize, Hw. by rewrite bool_decide_eq_true_2.
Qed.

Lemma schema_normalized s text : Encode (only_schema s) = Ok text →
  @SchemaChanged (policy_codec hash) (mkDelta [] (Some s) (Some (normalizeSchema s))) = false.
Proof.
  intros Hw. unfold SchemaChanged, EncodeSchema. cbn [de_SchemaBefore de_SchemaAfter Marshal policy_codec].
  change (only_schema (normalizeSchema s)) with (Normalize (only_schema s)). rewrite Encode_Normalize, Hw. by rewrite bool_decide_eq_true_2.
Qed.

Context (current : CurrentState) (Hnd : NoDup (map (λ x, p_ID x.1) (held current))).
Context (Hres : ∀ x, x ∈ held current → IsReserved (p_ID x.1) = false).
Context (Hwrite : ∀ x, x ∈ held current → ∃ text, Encode (one_policy x.1) = Ok text).

Lemma exported_policy p : p ∈ set_Policies (Normalize (base_set current)) ↔ ∃ x, x ∈ held current ∧ p = normalizePolicy x.1.
Proof using Type.
  unfold Normalize, base_set. cbn [set_Policies]. rewrite elem_of_sort_by, !elem_of_map. split.
  - intros (q & -> & (x & -> & Hx)%elem_of_map). eauto.
  - intros (x & Hx & ->). eexists. split; [done|]. apply elem_of_map. eauto.
Qed.

Lemma exported_plan p : p ∈ set_Policies (Normalize (base_set current)) → @plan_one (policy_codec hash) (owner_map (cs_Policies current)) [] p = Ok [].
Proof using Hnd Hres Hwrite.
  intros (x & Hx & ->)%exported_policy. unfold plan_one. cbn [normalizePolicy p_ID]. rewrite Hres by done.
  rewrite (proj2 (owner_spec current Hnd (p_ID x.1) x)) by done. destruct x as [h o]. destruct (Hwrite _ Hx) as [text Ht].
  pose proof (same_normalized h text Ht) as Hs. simpl in *. rewrite Hs. by case_bool_decide.
Qed.

Lemma exported_deletions : plan_deletions (owner_map (cs_Policies current)) (map p_ID (set_Policies (Normalize (base_set current)))) = [].
Proof using All.
  destruct (plan_deletions _ _) as [|c l] eqn:E; [done|]. exfalso. assert (c ∈ c :: l) as Hc by set_solver. rewrite <-E in Hc.
  apply (@deletions_spec (policy_codec hash) current (Normalize (base_set current)) []) in Hc as [Hp Ha].
  destruct Hp as [| | |id h Ho Hn]; try done. apply Hn, elem_of_map. apply (owner_spec current Hnd) in Ho as [Hh <-].
  exists (normalizePolicy h). split; [done|]. apply exported_policy. by exists (h, OriginFile).
Qed.
End export.

(** The set in force plans nothing: compared with itself in normal form, with nothing to
    adopt, it asks for no change to any policy and none to the schema. *)
Lemma same_set_plans_nothing `{GoFmt, YamlText} (hash : string → string) current text :
  NoDup (map (λ x, p_ID x.1) (held current)) → (∀ x, x ∈ held current → IsReserved (p_ID x.1) = false) →
  Encode (only_schema (cs_Schema current)) = Ok text → (∀ x, x ∈ held current → ∃ text, Encode (one_policy x.1) = Ok text) →
  ∃ d, @PlanApply (policy_codec hash) current (Some (Normalize (base_set current))) [] = Ok d ∧ de_Changes d = [] ∧ @SchemaChanged (policy_codec hash) d = false.
Proof.
  intros Hnd Hres Hsch Hone. exists (mkDelta [] (Some (cs_Schema current)) (Some (normalizeSchema (cs_Schema current)))).
  split_and!; [|done|by eapply schema_normalized].
  unfold PlanApply. cbn [default from_option id forallb negb].
  assert (res_map (@plan_one (policy_codec hash) (owner_map (cs_Policies current)) []) (set_Policies (Normalize (base_set current))) =
    Ok (map (λ _, []) (set_Policies (Normalize (base_set current))))) as ->.
  { pose proof (exported_plan hash current Hnd Hres Hone) as Hp. induction (set_Policies (Normalize (base_set current))) as [|p l IH]; [done|].
    simpl. rewrite Hp by set_solver. simpl. rewrite IH by set_solver. done. }
  cbn [res_bind]. rewrite (exported_deletions hash current Hnd Hres Hone). rewrite app_nil_r.
  replace (concat (map (λ _, []) (set_Policies (Normalize (base_set current))))) with (@nil Change); [done|]. by induction (set_Policies _).
Qed.

(** ** The document format at work

    A reference for the YAML package, which writes a tree as a bracketed text and reads
    it back, a policy set that uses every construct of the format, and the cases the
    theorems on the format leave out. *)
From S2P Require Import CelRef.

(** ** A bracketed text for trees *)

Module YamlRef.
Definition kinds : list (ykind * ascii) :=
  [(DocumentNode, "d"%char); (SequenceNode, "q"%char); (MappingNode, "m"%char); (ScalarNode, "s"%char); (AliasNode, "a"%char)].
Definition kind_char (k : ykind) : ascii :=
  match k with DocumentNode => "d" | SequenceNode => "q" | MappingNode => "m" | ScalarNode => "s" | AliasNode => "a" end%char.
Definition char_kind (a : ascii) : option ykind := fst <$> List.find (λ p, bool_decide (p.2 = a)) kinds.

Definition quote (s : string) : list ascii := concat (map (λ a, ["'"%char; a]) (bytes s)) ++ [";"%char].
Fixpoint unquote (l : list ascii) : option (list ascii * list ascii) :=
  match l with
  | q :: l =>
      if bool_decide (q = ";"%char) then Some ([], l)
      else if bool_decide (q = "'"%char) then
        match l with a :: l => '(s, r) ← unquote l; Some (a :: s, r) | [] => None end
      else None
  | [] => None
  end.

Fixpoint write (n : ynode) : list ascii :=
  let 'YNode k t v c := n in kind_char k :: quote t ++ quote v ++ concat (map write c) ++ [")"%char].

(** The nodes up to the closing bracket or the end of the text. *)
Fixpoint parse (fuel : nat) (l : list ascii) : option (list ynode * list ascii) :=
  match fuel, l with
  | O, _ => None
  | S _, [] => Some ([], [])
  | S fuel, a :: l =>
      if bool_decide (a = ")"%char) then Some ([], l)
      else
        k ← char_kind a; '(t, l1) ← unquote l; '(v, l2) ← unquote l1; '(c, l3) ← parse fuel l2; '(ns, l4) ← parse fuel l3;
        Some (YNode k (unbytes t) (unbytes v) c :: ns, l4)
  end.

Fixpoint size (n : ynode) : nat := let 'YNode _ _ _ c := n in S (sum_list (map size c)).

Lemma unquote_quote s r : unquote (quote s ++ r) = Some (bytes s, r).
Proof.
  unfold quote. induction (bytes s) as [|a l IH]; [done|]. cbn [map concat app]. rewrite <-app_assoc in *. cbn [unquote].
  rewrite bool_decide_eq_false_2, bool_decide_eq_true_2 by done. cbn [app] in *. by rewrite IH.
Qed.

Lemma parse_write fuel ns r : (sum_list (map size ns) < fuel)%nat → parse fuel (concat (map write ns) ++ ")"%char :: r) = Some (ns, r).
Proof.
  revert ns r. induction fuel as [|fuel IH]; intros ns r Hf; [lia|]. destruct ns as [|[k t v c] ns]; [done|]. simpl in Hf.
  cbn [map concat write]. cbn [app]. cbn [parse]. rewrite bool_decide_eq_false_2 by (by destruct k).
  assert (char_kind (kind_char k) = Some k) as -> by by destruct k. cbn [mbind option_bind].
  rewrite <-!app_assoc, unquote_quote. cbn [mbind option_bind]. rewrite unquote_quote. cbn [mbind option_bind].
  cbn [app]. rewrite IH by lia. cbn [mbind option_bind]. rewrite IH by lia. cbn [mbind option_bind]. by rewrite !unbytes_bytes.
Qed.

Definition read (text : string) : list ynode * bool :=
  match parse (S (String.length text)) (bytes text) with Some (ns, []) => (ns, false) | _ => ([], true) end.

Lemma size_length n : (size n <= length (write n))%nat.
Proof.
  induction n as [k t v c IH] using ynode_nested_ind. simpl. rewrite !length_app. simpl.
  assert (sum_list (map size c) <= length (concat (map write c)))%nat; [|lia].
  induction IH as [|n c Hn _ IHc]; simpl; [lia|]. rewrite length_app. lia.
Qed.

#[export] Program Instance yaml_ref : YamlText :=
  {| yaml_write docs := Ok (unbytes (concat (map write (map resolved docs)) ++ [")"%char])); yaml_read := read |}.
Next Obligation.
  intros docs text [= <-]. unfold read. set (ns := map resolved docs). rewrite <-bytes_length. unfold bytes, unbytes.
  rewrite String.list_ascii_of_string_of_list_ascii. rewrite parse_write; [done|]. rewrite length_app. simpl.
  assert (sum_list (map size ns) <= length (concat (map write ns)))%nat; [|lia].
  induction ns as [|n ns IH]; simpl; [lia|]. rewrite length_app. pose proof (size_length n). lia.
Qed.

#[export] Instance fmt_ref : GoFmt := {| Sprint _ := "?" |}.
End YamlRef.

(** ** A set with every construct *)

Module CodecDemo.
Import YamlRef.

Definition dept : Operand := FieldRef RoleSubject "dept".
Definition calls : Operand := SourceRef "calls" [dept].

Definition schema : Schema := mkSchema
  [mkEntityType "user" [mkAttribute "dept" TypeString; mkAttribute "age" TypeInt; mkAttribute "score" TypeDouble; mkAttribute "ok" TypeBool; mkAttribute "since" TypeTimestamp;
     mkAttribute "idle" TypeDuration];
   mkEntityType "account" []]
  [mkAction "read" ""; mkAction "close" "closes the account"]
  [mkSourceDecl "calls" SourceEvent [mkParam "who" TypeString] TypeInt OnErrorAllow;
   mkSourceDecl "group" SourceIdPGroup [mkParam "name" TypeString] (ListOf TypeString) OnErrorDeny].

Definition lit (t : Typ) (v : value) : Operand := Lit (mkLiteral t v).
Definition since (x : Time.t) : Node := Compare (FieldRef RoleSubject "since") OpLt (lit TypeTimestamp (VTime x)).

Definition guarded (x : Time.t) : Policy :=
  mkPolicy "close" "closing" "user" "account" "" ["close"]
    (Logic LogicAll
       [Compare calls OpLe (lit TypeInt (VInt 3));
        Logic LogicAny [Compare (FieldRef RoleSubject "score") OpGt (lit TypeDouble (VDouble (Float64.Fin (5 * 2 ^ 50) (-52)))); since x];
        Logic LogicNot [Member dept (lit (ListOf TypeString) (VList [VString "sales"; VString "1e3"])) false];
        Member (FieldRef RoleSubject "age") (lit (ListOf TypeInt) (VList [])) true;
        Compare (FieldRef RoleSubject "ok") OpNe (lit TypeBool (VBool true));
        Compare (FieldRef RoleSubject "idle") OpEq (lit TypeDuration (VDuration 5400000000000))])
    [CQuorum (mkQuorum 2 (mkApproverSet [] "" (Some ("group", [lit TypeString (VString "risk")]))));
     CMFA (mkMFA MFADelegated ["phr"]);
     CDelay (mkDelay 3600000000000 (Some (mkApproverSet [] "role" None)));
     CExternal (mkExternal "fraud")].

Definition plain : Policy := mkPolicy "audit" "" "user" "account" "" ["read"] NodeNil [].
Definition set (x : Time.t) : PolicySet := mkSet schema [guarded x; plain].

Definition noon : Time.t := (1700000000 * 10 ^ 9)%Z.
Definition text : string := match Encode (set noon) with Ok t => t | Err _ => "" end.

Lemma codec_round_trip_witness :
  ValidateWithLimits (set noon) DefaultLimits = [] ∧ decode_with_limits DefaultLimits text = inl (Normalize (set noon)) ∧ Encode (Normalize (set noon)) = Ok text.
Proof.
  split; [vm_compute; reflexivity|]. apply (codec_round_trip DefaultLimits (set noon) text).
  - vm_compute. reflexivity.
  - vm_compute. reflexivity.
  - vm_compute. eexists. reflexivity.
Defined.

(** A hash for the codec, which the examples do not use. *)
Definition no_hash (_ : string) : string := "".

Lemma loaded_set_survives_storage_witness :
  decode_with_limits DefaultLimits text = inl (Normalize (set noon)) ∧
  @LoadWithLimits (policy_codec no_hash) _ DefaultLimits text = Ok (Normalize (set noon)).
Proof.
  apply (loaded_set_survives_storage DefaultLimits text (Normalize (set noon)) text no_hash).
  - vm_compute. reflexivity.
  - apply (bool_decide_unpack _). vm_compute. exact I.
  - vm_compute. reflexivity.
  - vm_compute. eexists. reflexivity.
Defined.

(** ** Reports *)

Definition reports (roots : list ynode) : Diagnostics :=
  (stream (map documentOf roots) false (mkSet (mkSchema [] [] []) [])).2.

Definition policy_with (key : string) (v : ynode) : ynode :=
  mapping (put (putString (envelope KindPolicy) "id" "p") key v).

(** A typing error in a hand-written file is pointed at, and reading goes on. *)
Example unknown_keys :
  reports [policy_with "subjekt" (str "user"); mapping (envelope "Polizy"); str "x";
           policy_with "challenges" (sequence [mapping (putString (putString newMapping "type" "delay") "threshold" "2")])] =
  [mkDiagnostic "/policies/0/subjekt" CodeUnknownKey; mkDiagnostic "" CodeUnknownKind; mkDiagnostic "" CodeInvalidDocument;
   mkDiagnostic "/policies/1/challenges/0/threshold" CodeUnknownKey].
Proof. vm_compute. reflexivity. Qed.

Example bad_constants :
  reports [policy_with "condition" (mapping (put (putString (put newMapping "left" (operandNode dept)) "op" "eq") "right" (sequence [scalar "!!int" "1"; str "a"])));
           policy_with "condition" (mapping (put newMapping "all" (sequence [mapping newMapping; mapping newMapping])));
           policy_with "condition" (mapping (put (put newMapping "left" (str "x")) "in" (sequence [str "x"])))] =
  [mkDiagnostic "/policies/0/condition/right/1" CodeTypeMismatch; mkDiagnostic "/policies/1/condition/all/0" CodeInvalidDocument;
   mkDiagnostic "/policies/2/condition/left" CodeInvalidOperand].
Proof. vm_compute. reflexivity. Qed.

(** ** The last hours of the year 9999 *)

(** 9999-12-31T23:59:59-01:00, which is in the year 10000 in UTC. *)
Definition late : Time.t := (253402304399 * 10 ^ 9)%Z.
Definition late_policy : Policy := mkPolicy "old" "" "user" "account" "" ["read"] (since late) [].
Definition late_set : PolicySet := mkSet schema [late_policy].

(** A document that spells it. *)
Definition late_documents : list ynode :=
  [schemaDocumentNode schema;
   documentOf (mapping
     (put (put (putString (putString (putString (envelope KindPolicy) "id" "old") "subject" "user") "resource" "account") "actions" (stringSequenceNode ["read"]))
        "condition" (mapping (put (putString (put newMapping "left" (operandNode (FieldRef RoleSubject "since"))) "op" "lt")
           "right" (mapping (putString (putString newMapping "value" "9999-12-31T23:59:59-01:00") "type" TypeTimestamp))))))].
End CodecDemo.

(** An instant past the year 9999 in UTC loads and cannot be read again.  The
    document with the constant 9999-12-31T23:59:59-01:00 reads and passes every check,
    and the policy it holds is written with the year 10000, which the reader refuses:
    the stored policy no longer decodes, whatever the YAML package and the size limit. *)
Theorem late_instant_is_lost `{GoFmt, YamlText} limits text doc (hash : string → string) :
  yaml_write CodecDemo.late_documents = Ok text → fits limits text →
  @Marshal (policy_codec hash) (one_policy CodecDemo.late_policy) = Ok doc → fits limits doc →
  decode_with_limits limits text = inl (Normalize CodecDemo.late_set) ∧ ValidateWithLimits (Normalize CodecDemo.late_set) DefaultLimits = [] ∧
  decode_with_limits limits doc = inr [mkDiagnostic "/policies/0/condition/right/value" CodeInvalidValue].
Proof.
  intros Ht Hft Hd Hfd. split; [|split; [vm_compute; reflexivity|]].
  - unfold decode_with_limits. rewrite fits_read by done. rewrite (yaml_read_write _ _ Ht). vm_compute. reflexivity.
  - unfold decode_with_limits. rewrite fits_read by done. rewrite (yaml_read_write _ _ Hd). vm_compute. reflexivity.
Qed.

Import YamlRef.
Lemma late_instant_is_lost_witness :
  decode_with_limits DefaultLimits (match yaml_write CodecDemo.late_documents with Ok t => t | Err _ => "" end) = inl (Normalize CodecDemo.late_set) ∧
  ∃ doc, Encode (one_policy CodecDemo.late_policy) = Ok doc ∧
    decode_with_limits DefaultLimits doc = inr [mkDiagnostic "/policies/0/condition/right/value" CodeInvalidValue].
Proof.
  destruct (late_instant_is_lost DefaultLimits (match yaml_write CodecDemo.late_documents with Ok t => t | Err _ => "" end)
    (match Encode (one_policy CodecDemo.late_policy) with Ok t => t | Err _ => "" end) CodecDemo.no_hash) as (H1 & _ & H2).
  - vm_compute. reflexivity.
  - vm_compute. eexists. reflexivity.
  - vm_compute. reflexivity.
  - vm_compute. eexists. reflexivity.
  - split; [exact H1|]. eexists. split; [|exact H2]. vm_compute. reflexivity.
Defined.
