(* ===== verification/Fact.v ===== *)
(** * The fact plane

    Models internal/fact: source.go (values, declarations, the registry and its
    load gate, [Lookup]), cache.go (the TTL cache and its keys), static.go, and
    internal/api/facts.go, which hands the registry to the evaluator.  The transport
    of an http source is behind Go's [Source] interface (Egress.v has it): what a fetch
    returns is an argument, and so are the egress gate's two answers about a target. *)
From stdpp Require Import pretty.
From Stdlib Require Import HexadecimalString HexadecimalN Ascii.
From S2P Require Import Prelude GoLib Policy Cel Engine.

(** ** Failures and values *)

Inductive FactReason :=
  | FactUnknownSource | FactBadArgument | FactTimeout | FactEgressBlocked | FactRedirect | FactTransport
  | FactStatus | FactTooLarge | FactDecode
  (* stream *)
  | FactLagUnknown | FactStale | FactAggregate
  (* idpgroup *)
  | FactUnknownGroup | FactDirectoryDenied | FactDirectoryPaged.

#[export] Instance FactReason_eq_dec : EqDecision FactReason.
Proof. solve_decision. Defined.

#[export] Instance Param_eq_dec : EqDecision Param.
Proof. solve_decision. Defined.

Record Failure := mkFailure { fl_Source : string; fl_Reason : FactReason; fl_OnError : OnError; fl_At : Time.t }.

Definition FailsClosed (f : Failure) : bool := bool_decide (fl_OnError f ≠ OnErrorAllow).

Record Value := mkValue { fv_Type : Typ; fv_Data : value }.

Definition scalarMatches (t : Typ) (v : value) : bool :=
  if bool_decide (t = TypeBool) then match v with VBool _ => true | _ => false end
  else if bool_decide (t = TypeInt) then match v with VInt _ => true | _ => false end
  else if bool_decide (t = TypeDouble) then match v with VDouble _ => true | _ => false end
  else if bool_decide (t = TypeString) then match v with VString _ => true | _ => false end
  else if bool_decide (t = TypeTimestamp) then match v with VTime _ => true | _ => false end
  else if bool_decide (t = TypeDuration) then match v with VDuration _ => true | _ => false end
  else false.

Definition CheckType (v : Value) (t : Typ) : bool :=
  if bool_decide (fv_Type v ≠ t) then false
  else if IsList t then
    match fv_Data v with VList items => forallb (scalarMatches (Elem t)) items | _ => false end
  else scalarMatches t (fv_Data v).

(** ** The TTL cache (cache.go) *)

Section cache.
Context {A : Type}.

Record cacheEntry := mkCacheEntry { ce_value : A; ce_expires : Time.t }.
Record cache := mkTTLCache { ch_max : Z; ch_entries : gmap string cacheEntry }.

Definition newCache (max : Z) : cache := mkTTLCache max ∅.

(** An entry at or past its expiry is evicted and reported as a miss. *)
Definition cache_get (now : Time.t) (key : string) (c : cache) : option A * cache :=
  match ch_entries c !! key with
  | None => (None, c)
  | Some entry =>
      if Time.Before now (ce_expires entry) then (Some (ce_value entry), c)
      else (None, mkTTLCache (ch_max c) (delete key (ch_entries c)))
  end.

(** Go ranges over a map in no particular order: [ranged] is the order it takes. *)
Context (ranged : gmap string cacheEntry → list (string * cacheEntry)).

(** [soonestKey] and [soonest] as the loop leaves them. *)
Definition soonest (entries : gmap string cacheEntry) : string :=
  (foldl (λ acc kv, if bool_decide (acc.1 = "") || Time.Before (ce_expires kv.2) acc.2 then (kv.1, ce_expires kv.2) else acc)
     ("", Time.zero) (ranged entries)).1.

Definition evictLocked (now : Time.t) (c : cache) : cache :=
  let live := filter (λ kv, Time.Before now (ce_expires kv.2) = true) (ch_entries c) in
  mkTTLCache (ch_max c) (if (Z.of_nat (size live) <? ch_max c)%Z then live else delete (soonest live) live).

(** [evict_now] and [now] are the clock as the eviction and the expiry read it. *)
Definition cache_put (evict_now now : Time.t) (key : string) (v : A) (ttl : Time.duration) (c : cache) : cache :=
  if (ttl <=? 0)%Z then c
  else
    let c := match ch_entries c !! key with
             | None => if (ch_max c <=? Z.of_nat (size (ch_entries c)))%Z then evictLocked evict_now c else c
             | Some _ => c
             end in
    mkTTLCache (ch_max c) (<[key := mkCacheEntry v (Time.Add now ttl)]> (ch_entries c)).
End cache.
Arguments cacheEntry : clear implicits.
Arguments cache : clear implicits.

(** ** Keys *)

(** [math.Float64bits] of a float64 in its binary64 form; a NaN of the language's
    own. *)
Definition Float64bits (f : Float64.t) : Z :=
  match f with
  | Float64.NaN => 9221120237041090561
  | Float64.Inf s => (if s then 2 ^ 63 else 0) + 2047 * 2 ^ 52
  | Float64.NegZero => 2 ^ 63
  | Float64.Fin m e =>
      (if m <? 0 then 2 ^ 63 else 0) +
      (if Z.abs m <? 2 ^ 52 then Z.abs m else (e + 1075) * 2 ^ 52 + (Z.abs m - 2 ^ 52))
  end%Z.

Definition FormatHex (n : Z) : string := NilZero.string_of_uint (N.to_hex_uint (Z.to_N n)).

Definition chr (n : nat) : string := String (ascii_of_nat n) "".
Definition fieldSep : string := chr 31.
Definition valueSep : string := chr 30.

Definition fold_zero (f : Float64.t) : Float64.t := if Float64.eqb f (Float64.of_Z 0) then Float64.of_Z 0 else f.

Definition encodeScalar (t : Typ) (data : value) : string :=
  match data with
  | VBool b => if b then "true" else "false"
  | VInt z => pretty z
  | VDouble f => FormatHex (Float64bits (fold_zero f))
  | VString s => pretty (String.length s) +:+ ":" +:+ s
  | VTime x => Time.Format_RFC3339Nano x
  | VDuration d => pretty d
  | _ => "?" +:+ t
  end.

Definition encodeArg (t : Typ) (data : value) : string :=
  if IsList t then
    match data with
    | VList items =>
        pretty (length items) +:+ foldr (λ item s, valueSep +:+ encodeScalar (Elem t) item +:+ s) "" items
    | _ => "!"
    end
  else encodeScalar t data.

Definition cacheKey (name : string) (args : list Value) : string :=
  pretty (String.length name) +:+ ":" +:+ name +:+
  foldr (λ arg s, fieldSep +:+ fv_Type arg +:+ valueSep +:+ encodeArg (fv_Type arg) (fv_Data arg) +:+ s) "" args.

(** ** Declarations *)

Record Declaration := mkFactDecl {
  fd_Name : string; fd_Kind : SourceKind; fd_Params : list Param; fd_Returns : Typ; fd_OnError : OnError;
  fd_TTL : Time.duration; fd_Timeout : Time.duration; fd_URL : string; fd_Values : option (list value) }.

Definition default_OnError (e : OnError) : OnError := if bool_decide (e = OnErrorUnset) then DefaultOnError else e.

Definition Declaration_SourceDecl (d : Declaration) : SourceDecl :=
  mkSourceDecl (fd_Name d) (fd_Kind d) (fd_Params d) (fd_Returns d) (default_OnError (fd_OnError d)).

Definition FromSourceDecl (sd : SourceDecl) : Declaration :=
  mkFactDecl (src_Name sd) (src_Kind sd) (src_Params sd) (src_Returns sd) (src_OnError sd) 0 0 "" None.

(** [newStaticSource]: the value the source always returns. *)
Definition newStaticSource (d : Declaration) : result Value :=
  if bool_decide (fd_URL d ≠ "") then Err []
  else if negb (fd_TTL d =? 0)%Z then Err []
  else if negb (fd_Timeout d =? 0)%Z then Err []
  else if bool_decide (fd_Params d ≠ []) then Err []
  else if negb (IsList (fd_Returns d)) then Err []
  else
    let v := mkValue (fd_Returns d) (VList (default [] (fd_Values d))) in
    if CheckType v (fd_Returns d) then Ok v else Err [].

(** ** The registry *)

(** The two egress checks of a target (egress.go). *)
Record Gate := mkGate { gt_CheckURL : string → result unit; gt_Preflight : string → result unit }.

Inductive Source := StaticSource (v : Value) | HTTPSource.

Record resolvedSource := mkResolvedSource { rs_decl : Declaration; rs_src : Source }.

Definition DefaultMaxCacheEntries : Z := 4096%Z.

(** [rg_audit] is what the auditor was handed; a registry without one hands nothing on. *)
Record Registry := mkFactRegistry {
  rg_AllowFailOpen : bool; rg_cache : cache Value; rg_sources : gmap string resolvedSource; rg_audit : option (list Failure) }.

Definition resolveHTTP (g : Gate) (d : Declaration) : result Source :=
  if bool_decide (is_Some (fd_Values d)) then Err []
  else if (fd_TTL d <=? 0)%Z then Err []
  else if (fd_Timeout d <=? 0)%Z then Err []
  else if bool_decide (fd_URL d = "") then Err []
  else let? _ := gt_CheckURL g (fd_URL d) in let? _ := gt_Preflight g (fd_URL d) in Ok HTTPSource.

Definition with_OnError (d : Declaration) (e : OnError) : Declaration :=
  mkFactDecl (fd_Name d) (fd_Kind d) (fd_Params d) (fd_Returns d) e (fd_TTL d) (fd_Timeout d) (fd_URL d) (fd_Values d).

(** [errors.Join] and [failWith]: every rejection wraps [ErrLoad]. *)
Definition load_error {A} (r : result A) : result A :=
  match r with Ok a => Ok a | Err e => Err (ErrLoad :: e) end.

Fixpoint params_ok (seen : list string) (ps : list Param) : bool :=
  match ps with
  | [] => true
  | p :: ps => ValidIdent (par_Name p) && Type_Valid (par_Type p) && negb (contains seen (par_Name p)) &&
               params_ok (par_Name p :: seen) ps
  end.

Definition fact_resolve (failOpen : bool) (g : Gate) (d : Declaration) : result resolvedSource :=
  if negb (ValidIdent (fd_Name d)) then Err [ErrLoad]
  else if negb (Type_Valid (fd_Returns d)) then Err [ErrLoad]
  else if negb (params_ok [] (fd_Params d)) then Err [ErrLoad]
  else
    let onErr := default_OnError (fd_OnError d) in
    if negb (OnError_Valid onErr) then Err [ErrLoad]
    else if bool_decide (onErr = OnErrorAllow) && negb failOpen then Err [ErrLoad]
    else
      let d := with_OnError d onErr in
      match fd_Kind d with
      | SourceStatic => load_error (let? v := newStaticSource d in Ok (mkResolvedSource d (StaticSource v)))
      | SourceHTTP => load_error (let? s := resolveHTTP g d in Ok (mkResolvedSource d s))
      | _ => Err [ErrLoad]
      end.

(** Rejections are collected; any one refuses the whole set. *)
Fixpoint resolve_sources (failOpen : bool) (g : Gate) (ds : list Declaration) (errs : list error)
    (acc : gmap string resolvedSource) : result (gmap string resolvedSource) :=
  match ds with
  | [] => match errs with [] => Ok acc | _ => Err (concat errs) end
  | d :: ds =>
      match acc !! fd_Name d with
      | Some _ => resolve_sources failOpen g ds (errs ++ [[ErrLoad]]) acc
      | None =>
          match fact_resolve failOpen g d with
          | Err e => resolve_sources failOpen g ds (errs ++ [e]) acc
          | Ok r => resolve_sources failOpen g ds errs (<[fd_Name d := r]> acc)
          end
      end
  end.

Definition NewFactRegistry (ds : list Declaration) (failOpen audit : bool) (maxEntries : Z) (g : result Gate) : result Registry :=
  match g with
  | Err e => Err (ErrLoad :: e)
  | Ok g =>
      let max := if (maxEntries <=? 0)%Z then DefaultMaxCacheEntries else maxEntries in
      let? sources := resolve_sources failOpen g ds [] ∅ in
      Ok (mkFactRegistry failOpen (newCache max) sources (if audit then Some [] else None))
  end.

(** [sameSignature]; a schema that leaves the failure behaviour out does not match. *)
Definition sameSignature (configured declared : SourceDecl) : bool :=
  bool_decide (src_Kind configured = src_Kind declared) && bool_decide (src_Returns configured = src_Returns declared) &&
  bool_decide (src_Params configured = src_Params declared) && bool_decide (src_OnError configured = src_OnError declared).

Definition VerifySource (r : Registry) (sd : SourceDecl) : bool :=
  negb (bool_decide (default_OnError (src_OnError sd) = OnErrorAllow) && negb (rg_AllowFailOpen r)) &&
  match src_Kind sd with
  | SourceStatic | SourceHTTP =>
      match rg_sources r !! src_Name sd with
      | None => false
      | Some s => sameSignature (Declaration_SourceDecl (rs_decl s)) sd
      end
  | _ => true
  end.

Definition VerifySchema (r : Registry) (s : option Schema) : result unit :=
  match s with
  | None => Ok tt
  | Some s => if forallb (VerifySource r) (sch_Sources s) then Ok tt else Err [ErrLoad]
  end.

(** ** Lookup *)

Definition checkArgs (d : Declaration) (args : list Value) : bool :=
  bool_decide (length args = length (fd_Params d)) &&
  forallb (λ ap, CheckType ap.1 (par_Type ap.2)) (zip args (fd_Params d)).

(** What a fetch gives: a value, a failure of its own, or another error. *)
Inductive Fetched := FetchValue (v : Value) | FetchFailure (source : string) (r : FactReason) | FetchError.

(** What one lookup meets with: the clock when the cache is read, when it evicts,
    when it stores and when a failure is recorded; the answer of an http source; and
    whether the declared timeout, not the caller's deadline, ran out. *)
Record LookupEnv := mkLookupEnv {
  le_get : Time.t; le_evict : Time.t; le_put : Time.t; le_record : Time.t; le_fetch : Fetched; le_timed_out : bool }.

Section lookup.
Context (ranged : gmap string (cacheEntry Value) → list (string * cacheEntry Value)).

Definition Fetch (s : Source) (env : LookupEnv) : Fetched :=
  match s with StaticSource v => FetchValue v | HTTPSource => le_fetch env end.

Definition record_failure (r : Registry) (source : string) (reason : FactReason) (onErr : OnError) (now : Time.t) : Failure * Registry :=
  let f := mkFailure source reason (default_OnError onErr) now in
  (f, mkFactRegistry (rg_AllowFailOpen r) (rg_cache r) (rg_sources r) ((λ l, l ++ [f]) <$> rg_audit r)).

Definition failed (r : Registry) (source : string) (reason : FactReason) (onErr : OnError) (now : Time.t)
    : (Value + Failure) * Registry :=
  let '(f, r') := record_failure r source reason onErr now in (inr f, r').

Definition with_cache (r : Registry) (c : cache Value) : Registry :=
  mkFactRegistry (rg_AllowFailOpen r) c (rg_sources r) (rg_audit r).

Definition Lookup (r : Registry) (name : string) (args : list Value) (env : LookupEnv) : (Value + Failure) * Registry :=
  match rg_sources r !! name with
  | None => failed r name FactUnknownSource OnErrorDeny (le_record env)
  | Some s =>
      let d := rs_decl s in
      if negb (checkArgs d args) then failed r name FactBadArgument (fd_OnError d) (le_record env)
      else
        let key := cacheKey name args in
        match cache_get (le_get env) key (rg_cache r) with
        | (Some v, c) => (inl v, with_cache r c)
        | (None, c) =>
            let r := with_cache r c in
            match Fetch (rs_src s) env with
            | FetchFailure source reason =>
                let reason := if bool_decide (reason = FactTransport) && le_timed_out env then FactTimeout else reason in
                failed r (if bool_decide (source = "") then name else source) reason (fd_OnError d) (le_record env)
            | FetchError =>
                failed r name (if le_timed_out env then FactTimeout else FactTransport) (fd_OnError d) (le_record env)
            | FetchValue v =>
                if negb (CheckType v (fd_Returns d)) then failed r name FactDecode (fd_OnError d) (le_record env)
                else if (0 <? fd_TTL d)%Z
                then (inl v, with_cache r (cache_put ranged (le_evict env) (le_put env) key v (fd_TTL d) (rg_cache r)))
                else (inl v, r)
            end
        end
  end.

(** ** The evaluator's view (api/facts.go) *)

Fixpoint resolve_calls (r : Registry) (calls : list (SourceCall * LookupEnv)) (facts : Facts) : result Facts * Registry :=
  match calls with
  | [] => (Ok facts, r)
  | (call, env) :: calls =>
      match rg_sources r !! call_Name call with
      | None => (Err [], r)
      | Some s =>
          let d := rs_decl s in
          if negb (bool_decide (length (fd_Params d) = length (call_Args call))) then (Err [], r)
          else
            let args := zip_with (λ p a, mkValue (par_Type p) a) (fd_Params d) (call_Args call) in
            match Lookup r (call_Name call) args env with
            | (inr f, r') => (Err (if FailsClosed f then [] else [ErrFactFailOpen]), r')
            | (inl v, r') => resolve_calls r' calls (Facts_Set facts call (fv_Data v))
            end
      end
  end.

(** [ResolveSources]: each lookup of the batch meets with its own environment. *)
Definition Fact_ResolveSources (r : Registry) (envs : list LookupEnv) (calls : list SourceCall) : result Facts * Registry :=
  resolve_calls r (zip calls envs) [].
End lookup.
