(* ===== verification/FactSpec.v ===== *)
(** * What the fact plane promises

    The key of a lookup identifies its source and its arguments, so the cache never
    answers one lookup with another's value; an answer was fetched for these
    arguments within the freshness bound of its declaration; the cache stays within
    its bound. *)
From stdpp Require Import pretty.
From Stdlib Require Import HexadecimalString HexadecimalN HexadecimalFacts Ascii SpecFloat.
From S2P Require Import Prelude GoLib Policy Cel Engine Text Fact.

(** ** Scalars *)

Definition is_sep (a : ascii) : Prop := nat_of_ascii a = 30%nat ∨ nat_of_ascii a = 31%nat.

Definition plain (l : list ascii) : Prop := Forall (λ a, ¬ is_sep a) l.

Lemma digits_plain l : Forall digit l → plain l.
Proof. intros H. eapply Forall_impl; [exact H|]. unfold digit, is_sep. lia. Qed.

(** Not a digit: a class that contains the separators. *)
Definition stop (a : ascii) : Prop := ¬ digit a.

Lemma digits_run l : Forall digit l → Forall (λ a, ¬ stop a) l.
Proof. intros H. eapply Forall_impl; [exact H|]. intros a Ha Hs. by apply Hs. Qed.

Lemma sep_stop r : ends_at is_sep r → ends_at stop r.
Proof. destruct r as [|a r]; [done|]. simpl. unfold is_sep, stop, digit. lia. Qed.

Lemma pretty_Z_plain (z : Z) : plain (bytes (pretty z)).
Proof.
  destruct (decide (0 <= z)%Z) as [Hz|Hz]; [apply digits_plain, pretty_spec; done|].
  destruct z as [|p|p]; [lia|lia|]. change (bytes (pretty (Zneg p))) with ("-"%char :: bytes (pretty (Zpos p))).
  constructor; [vm_compute; lia|]. apply digits_plain, pretty_spec. done.
Qed.

Lemma hex_plain n : plain (bytes (FormatHex n)).
Proof.
  unfold FormatHex. generalize (N.to_hex_uint (Z.to_N n)) as u. intros u.
  assert (∀ u, plain (bytes (NilEmpty.string_of_uint u))) as Hu.
  { clear u. induction u; simpl; [constructor|..]; (constructor; [vm_compute; lia|done]). }
  destruct u; simpl; try apply Hu; repeat constructor; vm_compute; try lia; apply Hu.
Qed.

Lemma to_hex_nonnil n : N.to_hex_uint n ≠ Hexadecimal.Nil.
Proof. intros H. pose proof (Unsigned.of_to n) as Hn. rewrite H in Hn. by subst n. Qed.

Lemma FormatHex_inj n m : (0 <= n)%Z → (0 <= m)%Z → FormatHex n = FormatHex m → n = m.
Proof.
  unfold FormatHex. intros Hn Hm Heq. apply (f_equal NilZero.uint_of_string) in Heq.
  rewrite !NilZero.usu in Heq by apply to_hex_nonnil.
  injection Heq as Heq. apply Unsigned.to_uint_inj in Heq. lia.
Qed.

(** *** Floats in their binary64 form *)

Definition float_ok (f : Float64.t) : bool :=
  match f with
  | Float64.Fin m e => bool_decide (m = 0%Z ∧ e = 0%Z) || (negb (m =? 0)%Z && bounded 53 1024 (Z.to_pos (Z.abs m)) e)
  | _ => true
  end.

Lemma digits2_bound p k : Zpos (digits2_pos p) = k → (2 ^ (k - 1) <= Zpos p < 2 ^ k)%Z.
Proof.
  revert k. induction p as [p IH|p IH|]; intros k Hk; simpl in Hk.
  - destruct (IH (k - 1)%Z ltac:(lia)) as [H1 H2]. rewrite (Z.pow_sub_r 2 (k - 1) 1) in H1 by lia.
    replace k with (Z.succ (k - 1)) by lia. rewrite Z.pow_succ_r by lia.
    replace (Z.succ (k - 1) - 1)%Z with (Z.succ (k - 1 - 1)) by lia. rewrite Z.pow_succ_r by lia.
    destruct (IH (k - 1)%Z ltac:(lia)) as [H3 _]. lia.
  - destruct (IH (k - 1)%Z ltac:(lia)) as [H1 H2].
    replace k with (Z.succ (k - 1)) by lia. rewrite Z.pow_succ_r by lia.
    replace (Z.succ (k - 1) - 1)%Z with (Z.succ (k - 1 - 1)) by lia. rewrite Z.pow_succ_r by lia. lia.
  - subst k. simpl. lia.
Qed.

(** A nonzero binary64 number is normal or subnormal. *)
Lemma float_ok_Fin m e :
  float_ok (Float64.Fin m e) = true →
  (m = 0 ∧ e = 0)%Z ∨ (2 ^ 52 <= Z.abs m < 2 ^ 53 ∧ -1074 <= e <= 971)%Z ∨ (0 < Z.abs m < 2 ^ 52 ∧ e = -1074)%Z.
Proof.
  unfold float_ok. case_bool_decide as H0; [by left|]. simpl. intros Hb. right.
  apply andb_true_iff in Hb as [Hm Hb]. apply negb_true_iff in Hm. apply Z.eqb_neq in Hm. unfold bounded, canonical_mantissa, fexp, emin in Hb.
  apply andb_true_iff in Hb as [Hc He]. apply Z.leb_le in He. apply Z.eqb_eq in Hc.
  pose proof (digits2_bound (Z.to_pos (Z.abs m)) _ eq_refl) as Hd. set (d := Zpos (digits2_pos (Z.to_pos (Z.abs m)))) in *.
  rewrite Z2Pos.id in Hd by lia. assert (d <= 53)%Z as Hd53 by lia. destruct (decide (d = 53)%Z) as [Ed|Hne].
  - left. rewrite Ed in Hd. split; [exact Hd|lia].
  - right. assert (e = -1074)%Z as -> by lia. split; [|done]. split; [lia|].
    apply (Z.lt_le_trans _ (2 ^ d)); [lia|]. apply Z.pow_le_mono_r; lia.
Qed.

Ltac float_cases H :=
  match type of H with
  | float_ok (Float64.Fin _ _) = true => apply float_ok_Fin in H as [[-> ->]|[H|H]]
  | _ => idtac
  end.

Lemma Float64bits_inj f g : float_ok f = true → float_ok g = true → Float64bits f = Float64bits g → f = g.
Proof.
  intros Hf Hg. unfold Float64bits.
  destruct f as [|[]| |m e], g as [|[]| |m' e']; try done; float_cases Hf; float_cases Hg; try done.
  all: repeat match goal with |- context [(?a <? ?b)%Z] => destruct (Z.ltb_spec a b) end.
  all: intros Heq; try (exfalso; lia). all: f_equal; lia.
Qed.

Lemma Float64bits_nonneg f : float_ok f = true → (0 <= Float64bits f)%Z.
Proof.
  intros Hf. unfold Float64bits. destruct f as [|[]| |m e]; try done. float_cases Hf; [done|..].
  all: repeat match goal with |- context [(?a <? ?b)%Z] => destruct (Z.ltb_spec a b) end; lia.
Qed.

Lemma fold_zero_ok f : float_ok f = true → float_ok (fold_zero f) = true.
Proof. unfold fold_zero. by case_match. Qed.

(** *** A scalar is read back up to the sign of zero *)

Definition scalar_ok (v : value) : Prop :=
  match v with VDouble f => float_ok f = true | VTime x => (0 <= year x)%Z | _ => True end.

Definition fold_scalar (v : value) : value := match v with VDouble f => VDouble (fold_zero f) | _ => v end.

Lemma scalarMatches_shape t v :
  scalarMatches t v = true →
  (t = TypeBool ∧ ∃ b, v = VBool b) ∨ (t = TypeInt ∧ ∃ z, v = VInt z) ∨ (t = TypeDouble ∧ ∃ f, v = VDouble f) ∨
  (t = TypeString ∧ ∃ s, v = VString s) ∨ (t = TypeTimestamp ∧ ∃ x, v = VTime x) ∨ (t = TypeDuration ∧ ∃ d, v = VDuration d).
Proof. unfold scalarMatches. repeat case_bool_decide; subst; destruct v; try done; naive_solver. Qed.

Lemma Format_plain x : (0 <= year x)%Z → plain (bytes (Time.Format_RFC3339Nano x)).
Proof.
  unfold year, Time.Format_RFC3339Nano. pose proof (civil_nonneg (x / 10 ^ 9 / 86400)) as Hc.
  destruct (Time.civil _) as [[y m] d]. simpl. intros Hy. rewrite !bytes_app. set (s := (x / 10 ^ 9)%Z).
  assert (∀ w n, (0 <= n)%Z → plain (bytes (Time.pad w n))) as Hpad by (intros; by apply digits_plain, pad_spec).
  assert (0 <= s mod 86400 / 3600 ∧ 0 <= s mod 86400 / 60 mod 60 ∧ 0 <= s mod 86400 mod 60)%Z as (? & ? & ?)
    by (Z.div_mod_to_equations; lia).
  assert (∀ c, (nat_of_ascii c < 30 ∨ 31 < nat_of_ascii c)%nat → plain [c]) as Hone.
  { intros c Hn. repeat constructor. unfold is_sep. lia. }
  unfold plain in *. rewrite !Forall_app. repeat split; try (apply Hpad; lia); try (apply Hone; vm_compute; lia).
  destruct (fraction_bytes 9 (x mod 10 ^ 9)) as [->|(l & -> & Hl)]; [by apply Z.mod_pos_bound|constructor|].
  constructor; [vm_compute; lia|]. by apply digits_plain.
Qed.

Lemma plain_eq s1 s2 r1 r2 :
  plain s1 → plain s2 → ends_at is_sep r1 → ends_at is_sep r2 → s1 ++ r1 = s2 ++ r2 → s1 = s2 ∧ r1 = r2.
Proof. apply span_eq. Qed.

Lemma bytes_inj s t : bytes s = bytes t → s = t.
Proof. intros H. by rewrite <-(unbytes_bytes s), <-(unbytes_bytes t), H. Qed.

(** A number and what follows it, which does not go on with a digit. *)
Lemma number_eq (n m : nat) r1 r2 :
  ends_at stop r1 → ends_at stop r2 → bytes (pretty n) ++ r1 = bytes (pretty m) ++ r2 → n = m ∧ r1 = r2.
Proof.
  intros He1 He2 Heq. assert (∀ k : nat, pretty k = pretty (Z.of_nat k)) as Hp by (by intros [|k]).
  rewrite !Hp in Heq. apply (span_eq stop) in Heq as [Hs Hr]; [|apply digits_run, pretty_spec; lia..|done|done].
  split; [|done]. apply bytes_inj, (inj pretty) in Hs. lia.
Qed.

(** A text after its length. *)
Lemma sized_eq s t r1 r2 :
  bytes (pretty (String.length s) +:+ ":" +:+ s) ++ r1 = bytes (pretty (String.length t) +:+ ":" +:+ t) ++ r2 → s = t ∧ r1 = r2.
Proof.
  rewrite !bytes_app, <-!app_assoc. intros Heq. apply number_eq in Heq as [Hl [= Heq]]; [|vm_compute; lia..].
  apply app_inj_1 in Heq as [Hs Hr]; [|by rewrite !bytes_length]. split; [by apply bytes_inj|done].
Qed.

Lemma encodeScalar_eq t v w r1 r2 :
  scalarMatches t v = true → scalarMatches t w = true → scalar_ok v → scalar_ok w →
  ends_at is_sep r1 → ends_at is_sep r2 →
  bytes (encodeScalar t v) ++ r1 = bytes (encodeScalar t w) ++ r2 → fold_scalar v = fold_scalar w ∧ r1 = r2.
Proof.
  intros Hv%scalarMatches_shape Hw%scalarMatches_shape Ov Ow E1 E2 Heq.
  destruct Hv as [[-> [b ->]]|[[-> [z ->]]|[[-> [f ->]]|[[-> [s ->]]|[[-> [x ->]]|[-> [d ->]]]]]]],
    Hw as [[Ht [b' ->]]|[[Ht [z' ->]]|[[Ht [f' ->]]|[[Ht [s' ->]]|[[Ht [x' ->]]|[Ht [d' ->]]]]]]]; try discriminate Ht;
    cbn [encodeScalar fold_scalar scalar_ok] in *.
  - apply plain_eq in Heq as [Hs ->]; [|destruct b; repeat constructor; vm_compute; lia|destruct b'; repeat constructor; vm_compute; lia|done|done].
    by destruct b, b'.
  - apply plain_eq in Heq as [Hs ->]; [|apply pretty_Z_plain..|done|done]. by apply bytes_inj, (inj pretty) in Hs as ->.
  - apply plain_eq in Heq as [Hs ->]; [|apply hex_plain..|done|done].
    apply bytes_inj, FormatHex_inj in Hs; [|apply Float64bits_nonneg, fold_zero_ok; done..].
    apply Float64bits_inj in Hs; [by rewrite Hs|by apply fold_zero_ok..].
  - by apply sized_eq in Heq as [-> ->].
  - apply plain_eq in Heq as [Hs ->]; [|by apply Format_plain..|done|done]. by apply bytes_inj, Format_inj in Hs as ->.
  - apply plain_eq in Heq as [Hs ->]; [|apply pretty_Z_plain..|done|done]. by apply bytes_inj, (inj pretty) in Hs as ->.
Qed.

(** ** Arguments *)

Definition fold_value (v : value) : value := match v with VList l => VList (map fold_scalar l) | _ => fold_scalar v end.

(** An argument in the representation Go has for it: binary64 numbers, instants of
    our era. *)
Definition arg_ok (a : Value) : Prop := match fv_Data a with VList l => Forall scalar_ok l | v => scalar_ok v end.

(** Two arguments that differ at most in the sign of a zero. *)
Definition same_arg (a b : Value) : Prop := fv_Type a = fv_Type b ∧ fold_value (fv_Data a) = fold_value (fv_Data b).

Lemma chr_bytes n s : bytes (chr n +:+ s) = ascii_of_nat n :: bytes s.
Proof. done. Qed.

Lemma encode_items_eq t l k r1 r2 :
  length l = length k → forallb (scalarMatches t) l = true → forallb (scalarMatches t) k = true →
  Forall scalar_ok l → Forall scalar_ok k → ends_at is_sep r1 → ends_at is_sep r2 →
  let items := foldr (λ item s, valueSep +:+ encodeScalar t item +:+ s) "" in
  bytes (items l) ++ r1 = bytes (items k) ++ r2 → map fold_scalar l = map fold_scalar k ∧ r1 = r2.
Proof.
  intros Hlen Hl Hk Ol Ok E1 E2. revert k Hlen Hk Ok. induction l as [|v l IH]; intros [|w k] Hlen Hk Ok; try done.
  cbn [foldr forallb map] in *. unfold valueSep. rewrite !chr_bytes, !bytes_app. simpl. intros [= Heq].
  apply andb_true_iff in Hl as [Hv Hl], Hk as [Hw Hk]. inversion Ol; subst. inversion Ok; subst.
  assert (∀ l0, ends_at is_sep (bytes (foldr (λ item s, chr 30 +:+ encodeScalar t item +:+ s) "" l0) ++ r1)) as Hend.
  { intros [|x l0]; [done|]. cbn [foldr]. rewrite chr_bytes. simpl. by left. }
  assert (∀ l0, ends_at is_sep (bytes (foldr (λ item s, chr 30 +:+ encodeScalar t item +:+ s) "" l0) ++ r2)) as Hend'.
  { intros [|x l0]; [done|]. cbn [foldr]. rewrite chr_bytes. simpl. by left. }
  rewrite <-!app_assoc in Heq. apply encodeScalar_eq in Heq as [-> Heq]; [|done..|apply Hend|apply Hend'].
  apply IH in Heq as [-> ->]; auto.
Qed.

Lemma encodeArg_eq a b t r1 r2 :
  CheckType a t = true → CheckType b t = true → arg_ok a → arg_ok b → ends_at is_sep r1 → ends_at is_sep r2 →
  bytes (encodeArg t (fv_Data a)) ++ r1 = bytes (encodeArg t (fv_Data b)) ++ r2 →
  fold_value (fv_Data a) = fold_value (fv_Data b) ∧ r1 = r2.
Proof.
  unfold CheckType, encodeArg. intros Ca Cb Oa Ob E1 E2. case_bool_decide; [done|]. case_bool_decide; [done|].
  destruct (IsList t).
  - unfold arg_ok in *. destruct (fv_Data a) as [| | | | | | | | |l|]; try done. destruct (fv_Data b) as [| | | | | | | | |k|]; try done.
    rewrite !bytes_app, <-!app_assoc. intros Heq.
    assert (∀ l0 r, ends_at is_sep r →
      ends_at stop (bytes (foldr (λ item s, valueSep +:+ encodeScalar (Elem t) item +:+ s) "" l0) ++ r)) as Hend.
    { intros [|x l0] r Hr; [by apply sep_stop|]. cbn [foldr]. unfold valueSep. rewrite chr_bytes. vm_compute. lia. }
    apply number_eq in Heq as [Hlen Heq]; [|by apply Hend..].
    apply encode_items_eq in Heq as [Hm ->]; [|done..]. simpl. by rewrite Hm.
  - intros Heq. assert (∀ v, scalarMatches t v = true → fold_value v = fold_scalar v) as Hfold.
    { intros v Hv%scalarMatches_shape. naive_solver. }
    assert (∀ x, scalarMatches t (fv_Data x) = true → arg_ok x → scalar_ok (fv_Data x)) as Hok.
    { intros x Hx%scalarMatches_shape. unfold arg_ok. destruct (fv_Data x); naive_solver. }
    rewrite !Hfold by done. apply encodeScalar_eq in Heq as [-> ->]; [done|done|done|by apply Hok|by apply Hok|done|done].
Qed.

(** The key of a lookup says which source it is for. *)
Lemma cacheKey_name n1 n2 args1 args2 : cacheKey n1 args1 = cacheKey n2 args2 → n1 = n2.
Proof.
  unfold cacheKey. intros Heq%(f_equal bytes). rewrite !bytes_app, <-!bytes_app in Heq.
  assert (∀ n s, bytes (pretty (String.length n) +:+ ":" +:+ n +:+ s) = bytes (pretty (String.length n) +:+ ":" +:+ n) ++ bytes s) as Hb.
  { intros n s. rewrite !bytes_app. by rewrite <-!app_assoc. }
  rewrite !Hb in Heq. by apply sized_eq in Heq as [-> _].
Qed.

Lemma fold_zero_idemp f : fold_zero (fold_zero f) = fold_zero f.
Proof. unfold fold_zero. destruct (Float64.eqb f (Float64.of_Z 0)) eqn:E; [done|]. by rewrite E. Qed.

Lemma encodeScalar_fold t v : encodeScalar t (fold_scalar v) = encodeScalar t v.
Proof. destruct v; cbn [encodeScalar fold_scalar]; try done. by rewrite fold_zero_idemp. Qed.

Lemma encodeArg_fold t v w : fold_value v = fold_value w → encodeArg t v = encodeArg t w.
Proof.
  intros Heq. unfold encodeArg. destruct (IsList t).
  - destruct v as [| | | | | | | | |l|], w as [| | | | | | | | |k|]; simpl in Heq; try done. injection Heq as Heq.
    assert (length l = length k) as Hlen by by rewrite <-(length_map fold_scalar l), Heq, length_map.
    rewrite Hlen. f_equal. clear Hlen. revert k Heq. induction l as [|x l IH]; intros [|y k]; simpl; try done.
    intros [= Hx Hl]. rewrite <-(encodeScalar_fold _ x), Hx, encodeScalar_fold. by rewrite (IH k).
  - destruct v, w; simpl in Heq; try done; try (by injection Heq as ->).
    injection Heq as Heq. simpl. by rewrite Heq.
Qed.

Lemma cacheKey_same name args1 args2 : Forall2 same_arg args1 args2 → cacheKey name args1 = cacheKey name args2.
Proof.
  intros H. unfold cacheKey. do 3 f_equal. induction H as [|a b args1 args2 [Ht Hd] _ IH]; [done|]. simpl.
  by rewrite Ht, IH, (encodeArg_fold _ _ _ Hd).
Qed.

Lemma cacheKey_args d name1 name2 args1 args2 :
  checkArgs d args1 = true → checkArgs d args2 = true → Forall arg_ok args1 → Forall arg_ok args2 →
  cacheKey name1 args1 = cacheKey name2 args2 → name1 = name2 ∧ Forall2 same_arg args1 args2.
Proof.
  intros C1 C2 O1 O2 Heq. pose proof (cacheKey_name _ _ _ _ Heq) as <-. split; [done|].
  unfold cacheKey in Heq. apply (f_equal bytes) in Heq. rewrite !bytes_app in Heq. repeat apply app_inv_head in Heq.
  unfold checkArgs in C1, C2. apply andb_true_iff in C1 as [L1%bool_decide_eq_true C1], C2 as [L2%bool_decide_eq_true C2].
  revert args1 args2 C1 C2 L1 L2 O1 O2 Heq. generalize (fd_Params d) as ps. clear d name1.
  induction ps as [|p ps IH]; intros [|a args1] [|b args2] C1 C2 L1 L2 O1 O2 Heq; try done.
  cbn [zip zip_with forallb fst snd] in C1, C2. apply andb_true_iff in C1 as [Ca C1], C2 as [Cb C2].
  inversion O1; subst. inversion O2; subst. cbn [foldr] in Heq. unfold fieldSep in Heq. rewrite !chr_bytes in Heq. injection Heq as Heq.
  assert (fv_Type a = par_Type p ∧ fv_Type b = par_Type p) as [Ta Tb].
  { unfold CheckType in Ca, Cb. by do 2 case_bool_decide. }
  rewrite Ta, Tb, !bytes_app in Heq. apply app_inv_head in Heq. unfold valueSep in Heq. apply app_inv_head in Heq.
  assert (∀ l, ends_at is_sep (bytes (foldr (λ arg s, chr 31 +:+ fv_Type arg +:+ chr 30 +:+ encodeArg (fv_Type arg) (fv_Data arg) +:+ s) "" l))) as Hend.
  { intros [|x l]; [done|]. cbn [foldr]. rewrite chr_bytes. simpl. by right. }
  apply encodeArg_eq in Heq as [Hf Heq]; [|done..|apply Hend|apply Hend].
  constructor; [split; [congruence|done]|]. apply IH; auto.
Qed.

(** The key of a fact lookup identifies it: two lookups whose arguments fit a
    declaration have one cache key exactly when they name one source and their
    arguments are the same, the sign of a zero apart. *)
Theorem cacheKey_injective d name1 name2 args1 args2 :
  checkArgs d args1 = true → checkArgs d args2 = true → Forall arg_ok args1 → Forall arg_ok args2 →
  cacheKey name1 args1 = cacheKey name2 args2 ↔ name1 = name2 ∧ Forall2 same_arg args1 args2.
Proof.
  intros C1 C2 O1 O2. split; [by apply (cacheKey_args d)|]. intros [<- H]. by apply cacheKey_same.
Qed.

(** ** The cache *)

Section bound.
Context {A : Type} (ranged : gmap string (cacheEntry A) → list (string * cacheEntry A)).
Context (Hranged : ∀ m, ranged m ≡ₚ map_to_list m).

Lemma soonest_in (m : gmap string (cacheEntry A)) : m ≠ ∅ → is_Some (m !! soonest ranged m).
Proof.
  intros Hne. unfold soonest.
  set (step := λ (acc : string * Time.t) (kv : string * cacheEntry A),
    if bool_decide (acc.1 = "") || Time.Before (ce_expires kv.2) acc.2 then (kv.1, ce_expires kv.2) else acc).
  assert (∀ l acc, (∀ kv, kv ∈ l → is_Some (m !! kv.1)) → (acc.1 = "" ∧ l ≠ [] ∨ is_Some (m !! acc.1)) →
    is_Some (m !! (foldl step acc l).1)) as Hfold.
  { induction l as [|kv l IH]; intros acc Hl Hacc; simpl; [by destruct Hacc as [[_ ?]|?]|].
    apply IH; [set_solver|]. right. unfold step. destruct (bool_decide (acc.1 = "")) eqn:E; simpl; [apply Hl; by left|].
    case_match; [apply Hl; by left|]. destruct Hacc as [[H0 _]|]; [by rewrite H0 in E|done]. }
  apply Hfold.
  - intros [k e]. rewrite Hranged. intros H%elem_of_map_to_list. simpl. by rewrite H.
  - left. split; [done|]. intros Hnil. pose proof (Hranged m) as Hp. rewrite Hnil in Hp. symmetry in Hp. apply Permutation_nil_r in Hp.
    by apply map_to_list_empty_iff in Hp.
Qed.

Lemma size_filter_bound {B} (P : string * B → Prop) `{!∀ x, Decision (P x)} (m : gmap string B) : size (filter P m) ≤ size m.
Proof. rewrite <-!size_dom. apply subseteq_size, dom_filter_subseteq. Qed.

Lemma cache_put_bound en now key v ttl (c : cache A) :
  (0 < ch_max c)%Z → (Z.of_nat (size (ch_entries c)) <= ch_max c)%Z →
  let c' := cache_put ranged en now key v ttl c in
  ch_max c' = ch_max c ∧ (Z.of_nat (size (ch_entries c')) <= ch_max c)%Z.
Proof.
  intros Hpos Hs. unfold cache_put. case_match; [done|]. destruct (ch_entries c !! key) as [e|] eqn:E.
  { simpl. split; [done|]. by rewrite map_size_insert_Some by eauto. }
  assert (∀ c', (Z.of_nat (size (ch_entries c')) < ch_max c)%Z →
    (Z.of_nat (size (<[key := mkCacheEntry v (Time.Add now ttl)]> (ch_entries c'))) <= ch_max c)%Z) as Hins.
  { intros c' Hc. rewrite map_size_insert. destruct (ch_entries c' !! key); simpl; lia. }
  destruct (Z.leb_spec (ch_max c) (Z.of_nat (size (ch_entries c)))) as [Hfull|]; simpl; (split; [done|]); [|by apply Hins].
  apply (Hins (evictLocked ranged en c)). unfold evictLocked. simpl.
  set (live := filter _ (ch_entries c)). pose proof (size_filter_bound (λ kv, Time.Before en (ce_expires kv.2) = true) (ch_entries c)) as Hl.
  fold live in Hl. destruct (Z.ltb_spec (Z.of_nat (size live)) (ch_max c)) as [|Hge]; [done|].
  assert (live ≠ ∅) as Hne. { intros Hz. rewrite Hz, map_size_empty in Hge. lia. }
  rewrite map_size_delete_Some by by apply soonest_in. lia.
Qed.
End bound.

(** ** Freshness *)

Section fresh.
Context (ranged : gmap string (cacheEntry Value) → list (string * cacheEntry Value)).

Record fact_call := mkFactCall { fc_name : string; fc_args : list Value; fc_env : LookupEnv }.

Definition run_calls (r : Registry) (calls : list fact_call) : Registry :=
  foldl (λ r c, (Lookup ranged r (fc_name c) (fc_args c) (fc_env c)).2) r calls.

(** A call that fetched [v] from the source and could store it. *)
Definition fetched_by (sources : gmap string resolvedSource) (c : fact_call) (s : resolvedSource) (v : Value) : Prop :=
  sources !! fc_name c = Some s ∧ checkArgs (rs_decl s) (fc_args c) = true ∧
  Fetch (rs_src s) (fc_env c) = FetchValue v ∧ CheckType v (fd_Returns (rs_decl s)) = true.

(** Every entry was fetched by an earlier call under its key, and expires its
    declaration's freshness bound after it was stored. *)
Definition cache_explained (sources : gmap string resolvedSource) (calls : list fact_call) (c : cache Value) : Prop :=
  ∀ key e, ch_entries c !! key = Some e →
    ∃ call s, call ∈ calls ∧ fetched_by sources call s (ce_value e) ∧ key = cacheKey (fc_name call) (fc_args call) ∧
      ce_expires e = Time.Add (le_put (fc_env call)) (fd_TTL (rs_decl s)).

Lemma cache_get_sub {A} now key (c : cache A) k e :
  ch_entries (cache_get now key c).2 !! k = Some e → ch_entries c !! k = Some e.
Proof.
  unfold cache_get. case_match; [|done]. case_match; [done|]. simpl. by intros [_ ?]%lookup_delete_Some.
Qed.

Lemma evict_sub {A} (rg : gmap string (cacheEntry A) → list (string * cacheEntry A)) now (c : cache A) k e :
  ch_entries (evictLocked rg now c) !! k = Some e → ch_entries c !! k = Some e.
Proof.
  unfold evictLocked. simpl. case_match.
  - by intros [? _]%map_lookup_filter_Some.
  - by intros [_ [? _]%map_lookup_filter_Some]%lookup_delete_Some.
Qed.

Lemma Lookup_sources r name args env : rg_sources (Lookup ranged r name args env).2 = rg_sources r.
Proof. unfold Lookup, failed, record_failure. repeat (case_match; simplify_eq/=; try done). Qed.

Lemma Lookup_explained r sources calls name args env :
  rg_sources r = sources → cache_explained sources calls (rg_cache r) →
  cache_explained sources (calls ++ [mkFactCall name args env]) (rg_cache (Lookup ranged r name args env).2).
Proof.
  intros Hs Hc.
  assert (∀ c', (∀ k e, ch_entries c' !! k = Some e → ch_entries (rg_cache r) !! k = Some e) →
    cache_explained sources (calls ++ [mkFactCall name args env]) c') as Hsub.
  { intros c' Hsub key e He. apply Hsub, Hc in He as (call & s & Hin & Hrest). exists call, s. split; [set_solver|done]. }
  unfold Lookup. rewrite Hs. destruct (sources !! name) as [s|] eqn:Es; [|apply Hsub; done].
  destruct (checkArgs (rs_decl s) args) eqn:Ea; simpl; [|apply Hsub; done].
  destruct (cache_get (le_get env) (cacheKey name args) (rg_cache r)) as [hit c1] eqn:Eg.
  assert (∀ k e, ch_entries c1 !! k = Some e → ch_entries (rg_cache r) !! k = Some e) as H1.
  { intros k e. change c1 with (hit, c1).2. rewrite <-Eg. apply cache_get_sub. }
  destruct hit as [v|]; [by apply Hsub|].
  destruct (Fetch (rs_src s) env) as [v|src reason|] eqn:Ef; [|by apply Hsub..].
  destruct (CheckType v (fd_Returns (rs_decl s))) eqn:Et; simpl; [|by apply Hsub].
  destruct (0 <? fd_TTL (rs_decl s))%Z eqn:Ettl; simpl; [|by apply Hsub].
  unfold cache_put. case_match; [by apply Hsub|]. intros k e. simpl. intros [[<- <-]|[_ He]]%lookup_insert_Some.
  - exists (mkFactCall name args env), s. split; [set_solver|]. done.
  - apply (Hsub c1 H1). case_match; [done|]. case_match; [by apply evict_sub in He|done].
Qed.

Lemma run_explained r calls :
  ch_entries (rg_cache r) = ∅ →
  rg_sources (run_calls r calls) = rg_sources r ∧ cache_explained (rg_sources r) calls (rg_cache (run_calls r calls)).
Proof.
  intros Hempty. induction calls as [|c calls [IHs IHc]] using rev_ind.
  - split; [done|]. intros k e. simpl. by rewrite Hempty.
  - unfold run_calls. rewrite !foldl_app. simpl. fold (run_calls r calls). split; [by rewrite Lookup_sources|].
    destruct c as [name args env]. by apply Lookup_explained.
Qed.

(** A fact is fresh and is the answer to the question asked.  After any lookups, an
    answer to a lookup has the declared type and was fetched from the named source,
    either by this lookup, or by an earlier one of that source with the same arguments
    (the sign of a zero apart), stored less than the declared freshness bound before
    the clock this lookup read. *)
Theorem fact_answer_fresh ds failOpen audit max gate r calls name args env v r' :
  NewFactRegistry ds failOpen audit max gate = Ok r →
  Forall (λ c, Forall arg_ok (fc_args c)) calls → Forall arg_ok args →
  Lookup ranged (run_calls r calls) name args env = (inl v, r') →
  ∃ s, rg_sources r !! name = Some s ∧ CheckType v (fd_Returns (rs_decl s)) = true ∧
    (Fetch (rs_src s) env = FetchValue v ∨
     ∃ c, c ∈ calls ∧ fc_name c = name ∧ Forall2 same_arg (fc_args c) args ∧
       Fetch (rs_src s) (fc_env c) = FetchValue v ∧
       (le_get env < le_put (fc_env c) + fd_TTL (rs_decl s))%Z).
Proof.
  intros Hnew Hok Hargs HL.
  assert (ch_entries (rg_cache r) = ∅) as Hempty.
  { unfold NewFactRegistry in Hnew. destruct gate as [g|]; [|done]. by apply res_bind_Ok in Hnew as (srcs & _ & [= <-]). }
  destruct (run_explained r calls Hempty) as [Hs Hc]. unfold Lookup in HL. rewrite Hs in HL.
  destruct (rg_sources r !! name) as [s|] eqn:Es; [|done]. exists s. split; [done|].
  destruct (checkArgs (rs_decl s) args) eqn:Ea; simpl in HL; [|done].
  destruct (cache_get _ _ _) as [[v'|] c1] eqn:Eg.
  - injection HL as -> _. unfold cache_get in Eg. destruct (ch_entries _ !! _) as [e|] eqn:Ee; [|done].
    destruct (Time.Before _ _) eqn:Et; [|done]. injection Eg as <- _.
    apply Hc in Ee as (call & s' & Hin & (Hs' & Ha' & Hf & Ht) & Hkey & Hexp).
    rewrite Forall_forall in Hok. pose proof (cacheKey_name _ _ _ _ Hkey) as Hname.
    rewrite <-Hname, Es in Hs'. injection Hs' as <-. split; [done|]. right. exists call.
    destruct (cacheKey_args (rs_decl s) (fc_name call) name (fc_args call) args) as [_ Hsame]; [done|done|by apply Hok|done|done|].
    unfold Time.Before, Time.Add in *. rewrite Hexp in Et. repeat (split; [done|]). lia.
  - destruct (Fetch (rs_src s) env) as [v'|src reason|]; [|done..].
    destruct (CheckType v' _) eqn:Et; simpl in HL; [|done]. case_match; injection HL as -> _; by split; [|left].
Qed.
End fresh.

(** ** Failing closed *)

Lemma resolve_sources_closed g ds errs acc out :
  resolve_sources false g ds errs acc = Ok out →
  (∀ k s, acc !! k = Some s → fd_OnError (rs_decl s) ≠ OnErrorAllow) →
  ∀ k s, out !! k = Some s → fd_OnError (rs_decl s) ≠ OnErrorAllow.
Proof.
  revert errs acc. induction ds as [|d ds IH]; intros errs acc; simpl; [destruct errs; [intros [= <-]|]; done|].
  destruct (acc !! fd_Name d) as [x|]; [apply IH|]. destruct (fact_resolve false g d) as [rs|e] eqn:E; [|apply IH].
  intros Hr Hacc. apply (IH _ _ Hr). intros k s [[_ <-]|[_ Hk]]%lookup_insert_Some; [|by eapply Hacc].
  unfold fact_resolve in E. repeat (case_match; [done|]). rewrite andb_true_r in *.
  assert (fd_OnError (rs_decl rs) = default_OnError (fd_OnError d)) as ->.
  { destruct (fd_Kind (with_OnError d (default_OnError (fd_OnError d)))); unfold load_error in E; try done;
      destruct (res_bind _ _) as [x|] eqn:Er; try done; injection E as <-; by apply res_bind_Ok in Er as (y & _ & [= <-]). }
  by eapply bool_decide_eq_false_1.
Qed.

Lemma Lookup_audited ranged r name args env : is_Some (rg_audit (Lookup ranged r name args env).2) ↔ is_Some (rg_audit r).
Proof.
  assert (∀ {A} (g : A → A) o, is_Some (g <$> o) ↔ is_Some o) as Hf by (intros A g o; apply fmap_is_Some).
  unfold Lookup, failed, record_failure. repeat (case_match; simplify_eq/=; rewrite ?Hf; try done).
Qed.

Lemma run_audited ranged r calls : is_Some (rg_audit (run_calls ranged r calls)) ↔ is_Some (rg_audit r).
Proof.
  revert r. induction calls as [|c calls IH]; intros r; [done|]. unfold run_calls in *. simpl. rewrite IH. apply Lookup_audited.
Qed.

(** C39. Without the operator's flag nothing fails open.  Whatever was looked up before, a
    lookup that fails in a deployment that did not enable fail-open carries the behaviour
    deny; and it is handed to the auditor, once and after what was handed on before, when
    the registry was built with one, and to nobody when it was not. *)
Theorem fact_failure_denies ranged ds audit max gate r calls name args env f r' :
  NewFactRegistry ds false audit max gate = Ok r →
  Lookup ranged (run_calls ranged r calls) name args env = (inr f, r') →
  FailsClosed f = true ∧ (is_Some (rg_audit r') ↔ audit = true) ∧
  rg_audit r' = (λ l, l ++ [f]) <$> rg_audit (run_calls ranged r calls).
Proof.
  intros Hnew HL.
  assert (ch_entries (rg_cache r) = ∅ ∧ (is_Some (rg_audit r) ↔ audit = true) ∧
    ∀ k s, rg_sources r !! k = Some s → fd_OnError (rs_decl s) ≠ OnErrorAllow) as (Hempty & Haud & Hcl).
  { unfold NewFactRegistry in Hnew. destruct gate as [g|]; [|done]. apply res_bind_Ok in Hnew as (srcs & Hr & [= <-]). split; [done|].
    split; [simpl; destruct audit; split; [done|by eexists|by intros []|done]|]. simpl. intros k s. apply (resolve_sources_closed _ _ _ _ _ Hr). intros k' s'. by rewrite lookup_empty. }
  destruct (run_explained ranged r calls Hempty) as [Hs _].
  rewrite <-(run_audited ranged r calls) in Haud.
  assert (∀ r0 src reason onErr now, failed r0 src reason onErr now = (inr f, r') → onErr ≠ OnErrorAllow →
    rg_audit r0 = rg_audit (run_calls ranged r calls) →
    FailsClosed f = true ∧ (is_Some (rg_audit r') ↔ audit = true) ∧
    rg_audit r' = (λ l, l ++ [f]) <$> rg_audit (run_calls ranged r calls)) as Hfail.
  { intros r0 src reason onErr now [= <- <-] Hne E0. simpl. rewrite E0, fmap_is_Some. split; [|done].
    unfold FailsClosed, default_OnError. simpl. apply bool_decide_eq_true. case_bool_decide; done. }
  unfold Lookup in HL. rewrite Hs in HL. destruct (rg_sources r !! name) as [s|] eqn:Es; [|by eapply Hfail].
  specialize (Hcl _ _ Es). case_match; [by eapply Hfail|]. destruct (cache_get _ _ _) as [[v|] c]; [done|].
  destruct (Fetch (rs_src s) env); [|by eapply Hfail..]. case_match; [by eapply Hfail|]. by case_match.
Qed.

(** ** A deployment *)

Module FactDemo.

Definition country : Declaration :=
  mkFactDecl "country" SourceHTTP [mkParam "ip" TypeString; mkParam "score" TypeDouble; mkParam "at" TypeTimestamp] TypeString OnErrorUnset
    (60 * Time.Second) Time.Second "https://facts.example/country" None.
Definition office : Declaration :=
  mkFactDecl "office" SourceStatic [] (ListOf TypeString) OnErrorDeny 0 0 "" (Some [VString "berlin"; VString "lisbon"]).
Definition gate : result Gate := Ok (mkGate (λ _, Ok tt) (λ _, Ok tt)).
Definition registry : Registry :=
  match NewFactRegistry [country; office] false true 0 gate with Ok r => r | Err _ => mkFactRegistry false (newCache 0) ∅ None end.
Definition in_order : gmap string (cacheEntry Value) → list (string * cacheEntry Value) := map_to_list.

Definition args (f : Float64.t) : list Value :=
  [mkValue TypeString (VString "10.0.0.1"); mkValue TypeDouble (VDouble f); mkValue TypeTimestamp (VTime 0)].
Definition env (now : Time.t) (answer : Fetched) : LookupEnv := mkLookupEnv now now now now answer false.
Definition de : Value := mkValue TypeString (VString "DE").
Definition first : fact_call := mkFactCall "country" (args Float64.NegZero) (env 0 (FetchValue de)).

Lemma args_ok f : float_ok f = true → Forall arg_ok (args f).
Proof. intros Hf. repeat constructor; simpl; [done|]. vm_compute. discriminate. Qed.

Lemma cacheKey_injective_witness :
  cacheKey "country" (args Float64.NegZero) = cacheKey "country" (args (Float64.of_Z 0)) ∧
  Forall2 same_arg (args Float64.NegZero) (args (Float64.of_Z 0)).
Proof.
  assert (cacheKey "country" (args Float64.NegZero) = cacheKey "country" (args (Float64.of_Z 0))) as Heq by (vm_compute; reflexivity).
  split; [exact Heq|].
  apply (cacheKey_injective country "country" "country" (args Float64.NegZero) (args (Float64.of_Z 0))).
  - vm_compute. reflexivity.
  - vm_compute. reflexivity.
  - apply args_ok. reflexivity.
  - apply args_ok. reflexivity.
  - exact Heq.
Defined.

(** Half a minute later the answer comes from the cache, although the source is down;
    a minute later it does not. *)
Lemma fact_answer_fresh_witness :
  let later := Lookup in_order (run_calls in_order registry [first]) "country" (args (Float64.of_Z 0)) (env (30 * Time.Second) FetchError) in
  let too_late := Lookup in_order (run_calls in_order registry [first]) "country" (args (Float64.of_Z 0)) (env (60 * Time.Second) FetchError) in
  later.1 = inl de ∧ is_ok (match too_late.1 with inl v => Ok v | inr _ => Err [] end) = false ∧
  ∃ s, rg_sources registry !! "country" = Some s ∧ CheckType de (fd_Returns (rs_decl s)) = true.
Proof.
  intros later too_late. split; [vm_compute; reflexivity|]. split; [vm_compute; reflexivity|].
  destruct (fact_answer_fresh in_order [country; office] false true 0 gate registry [first] "country" (args (Float64.of_Z 0))
    (env (30 * Time.Second) FetchError) de later.2) as (s & Hs & Ht & _).
  - vm_compute. reflexivity.
  - constructor; [|constructor]. apply args_ok. reflexivity.
  - apply args_ok. reflexivity.
  - unfold later. vm_compute. reflexivity.
  - exists s. exact (conj Hs Ht).
Defined.

Lemma fact_failure_denies_witness :
  let out := Lookup in_order (run_calls in_order registry []) "country" (args (Float64.of_Z 0)) (env 0 FetchError) in
  ∃ f, out.1 = inr f ∧ FailsClosed f = true ∧ rg_audit out.2 = Some [f].
Proof.
  intros out. set (f := mkFailure "country" FactTransport OnErrorDeny 0). exists f. split; [vm_compute; reflexivity|].
  destruct (fact_failure_denies in_order [country; office] true 0 gate registry [] "country" (args (Float64.of_Z 0)) (env 0 FetchError) f out.2)
    as (H1 & _ & H2).
  - vm_compute. reflexivity.
  - vm_compute. reflexivity.
  - split; [exact H1|]. rewrite H2. vm_compute. reflexivity.
Defined.

End FactDemo.
