(* ===== verification/Egress.v ===== *)
(** * The egress gate

    Models internal/fact/egress.go: the operator's allowlist of origins, the ranges of
    addresses that may be dialled, the check of a declared target at load time, and the
    dialler, which resolves a name, refuses the answer if any address in it is
    forbidden, and dials literals.  What the resolver answers and which dials succeed are
    arguments; they may differ from one call to the next.  The HTTP client over the
    dialler is net/http: a request goes out on an idle connection that was opened for the
    same scheme and host, or on a new one.  Then internal/fact/httpcall.go: the request of a
    fact source, the judgement of its answer and the decoding of its value. *)
From stdpp Require Import pretty.
From Stdlib Require Import Ascii.
From S2P Require Import Prelude GoLib Policy Cel Engine Text Strconv Encode Netip Url Fact.

Import Strings.

(** ** The gate *)

Definition DefaultMaxResponseBytes : Z := 2 ^ 20.
Definition egressMaxIdleConns : nat := 32.

Record EgressConfig := mkEgressConfig {
  ec_Allow : list string; ec_AllowLoopback : bool; ec_AllowPrivate : bool; ec_MaxResponseBytes : Z }.

Definition maxResponseBytes (c : EgressConfig) : Z :=
  if (ec_MaxResponseBytes c <=? 0)%Z then DefaultMaxResponseBytes else ec_MaxResponseBytes c.

Record EgressGate := mkEgressGate { eg_origins : gset string; eg_allowLoopback : bool; eg_allowPrivate : bool }.

(** [originOf]: the scheme and host in lower case, with the port always written out; an
    address in its own spelling. *)
Definition canonical_host (host : string) : string :=
  match ParseAddr host with
  | Some addr =>
      let text := Addr_String (Unmap addr) in
      if Is6 addr && negb (Is4In6 addr) then "[" +:+ text +:+ "]" else text
  | None => host
  end.

Definition effective_port (u : URL) : string :=
  if bool_decide (Port u = "") then if bool_decide (ToLower (u_Scheme u) = "https") then "443" else "80" else Port u.

Definition originOf (u : URL) : result string :=
  let scheme := ToLower (u_Scheme u) in
  if negb (bool_decide (scheme = "http")) && negb (bool_decide (scheme = "https")) then Err []
  else
    let host := ToLower (Hostname u) in
    if bool_decide (host = "") then Err []
    else
      let port := effective_port u in
      match ParseUint16 port with
      | None => Err []
      | Some _ => Ok (scheme +:+ "://" +:+ canonical_host host +:+ ":" +:+ port)
      end.

Section url.
Context `{NetURL}.

Definition parseOrigin (entry : string) : result string :=
  match url_Parse (TrimSpace entry) with
  | None => Err []
  | Some u =>
      if bool_decide (is_Some (u_User u)) then Err []
      else if negb (bool_decide (u_Path u = "")) && negb (bool_decide (u_Path u = "/")) then Err []
      else if negb (bool_decide (u_RawQuery u = "")) || negb (bool_decide (u_Fragment u = "")) then Err []
      else originOf u
  end.

Fixpoint add_origins (allow : list string) (origins : gset string) : result (gset string) :=
  match allow with
  | [] => Ok origins
  | entry :: allow => let? origin := parseOrigin entry in add_origins allow ({[ origin ]} ∪ origins)
  end.

Definition NewGate (cfg : EgressConfig) : result EgressGate :=
  let? origins := add_origins (ec_Allow cfg) ∅ in
  Ok (mkEgressGate origins (ec_AllowLoopback cfg) (ec_AllowPrivate cfg)).
End url.

(** ** Addresses *)

Definition MustParsePrefix (s : string) : Prefix := default (mkPrefix AddrZero 0) (ParsePrefix s).

Definition neverDialable : list Prefix :=
  map MustParsePrefix
    ["100.64.0.0/10"; "192.0.0.0/24"; "198.18.0.0/15"; "240.0.0.0/4"; "::/128"; "::/96"; "64:ff9b::/96"; "64:ff9b:1::/48";
     "2002::/16"; "fec0::/10"].

Definition CheckAddr (g : EgressGate) (addr : Addr) : result unit :=
  if negb (IsValid addr) then Err [ErrBlocked]
  else
    let addr := Unmap addr in
    let reserved := if existsb (λ p, Prefix_Contains p addr) neverDialable then Err [ErrBlocked] else Ok tt in
    if IsUnspecified addr then Err [ErrBlocked]
    else if IsLinkLocalUnicast addr || IsLinkLocalMulticast addr then Err [ErrBlocked]
    else if IsInterfaceLocalMulticast addr || IsMulticast addr then Err [ErrBlocked]
    else if IsLoopback addr then if negb (eg_allowLoopback g) then Err [ErrBlocked] else Ok tt
    else if IsPrivate addr then if negb (eg_allowPrivate g) then Err [ErrBlocked] else reserved
    else reserved.

(** The first forbidden address refuses the whole answer, and so does an empty one. *)
Fixpoint check_each (g : EgressGate) (addrs : list Addr) : result unit :=
  match addrs with [] => Ok tt | addr :: addrs => let? _ := CheckAddr g addr in check_each g addrs end.
Definition checkAll (g : EgressGate) (addrs : list Addr) : result unit :=
  match addrs with [] => Err [ErrBlocked] | _ => check_each g addrs end.

(** ** Targets *)

(** What a resolver answers for a name. *)
Definition resolver := string → result (list Addr).

Section url.
Context `{NetURL}.

Definition CheckURL (g : EgressGate) (raw : string) : result unit :=
  match url_Parse raw with
  | None => Err [ErrBlocked]
  | Some u =>
      if bool_decide (is_Some (u_User u)) then Err [ErrBlocked]
      else match originOf u with
      | Err e => Err (ErrBlocked :: e)
      | Ok origin =>
          if negb (bool_decide (origin ∈ eg_origins g)) then Err [ErrBlocked]
          else match ParseAddr (Hostname u) with
          | Some addr => CheckAddr g addr
          | None => Ok tt
          end
      end
  end.

Definition Preflight (g : EgressGate) (resolve : resolver) (raw : string) : result unit :=
  match url_Parse raw with
  | None => Err [ErrBlocked]
  | Some u =>
      let host := Hostname u in
      match ParseAddr host with
      | Some addr => CheckAddr g addr
      | None => match resolve host with Err _ => Ok tt | Ok addrs => checkAll g addrs end
      end
  end.

(** The two answers the registries ask for. *)
Definition load_gate (g : EgressGate) (resolve : resolver) : Gate := mkGate (CheckURL g) (Preflight g resolve).
End url.

(** ** Dialling *)

(** An open connection: the peer it was dialled to. *)
Record Conn := mkConn { cn_peer : Addr; cn_port : Z }.

(** One dial after the other: the texts handed to the system dialler, in order, and the
    first connection that opens. *)
Fixpoint dial_each (dial : string → bool) (port : Z) (addrs : list Addr) : list string * result Conn :=
  match addrs with
  | [] => ([], Err [])
  | a :: addrs =>
      let text := AddrPort_String (Unmap a) port in
      if dial text then ([text], Ok (mkConn (Unmap a) port))
      else let '(texts, r) := dial_each dial port addrs in (text :: texts, r)
  end.

Definition DialContext (g : EgressGate) (resolve : resolver) (dial : string → bool) (addr : string) : list string * result Conn :=
  match SplitHostPort addr with
  | None => ([], Err [ErrBlocked])
  | Some (host, port) =>
      match ParseUint16 port with
      | None => ([], Err [ErrBlocked])
      | Some portNum =>
          let answer := match ParseAddr host with Some literal => Ok [literal] | None => resolve host end in
          match answer with
          | Err e => ([], Err e)
          | Ok addrs => match checkAll g addrs with Err e => ([], Err e) | Ok _ => dial_each dial portNum addrs end
          end
      end
  end.

(** ** The client *)

(** Idle connections, each under the scheme and the host:port pair it was opened for. *)
Definition pool := list ((string * string) * Conn).

(** What one call meets with: whether the client takes an idle connection, the resolver,
    the dials, what is answered, and whether the connection is kept. *)
Record Net (A : Type) := mkNet {
  n_reuse : bool; n_resolve : resolver; n_dial : string → bool; n_answer : result A; n_keep : bool }.
Arguments mkNet {A}. Arguments n_reuse {A}. Arguments n_resolve {A}. Arguments n_dial {A}. Arguments n_answer {A}. Arguments n_keep {A}.

(** What it did: the texts it dialled, the connection the request went out on, the
    answer, the idle connections afterwards. *)
Record Outcome (A : Type) := mkOutcome { oc_dialled : list string; oc_conn : option Conn; oc_answer : result A; oc_pool : pool }.
Arguments mkOutcome {A}. Arguments oc_dialled {A}. Arguments oc_conn {A}. Arguments oc_answer {A}. Arguments oc_pool {A}.

Definition remove_conn (key : string * string) (c : Conn) (p : pool) : pool :=
  List.filter (λ e, negb (bool_decide (e.1 = key) && bool_decide (cn_peer e.2 = cn_peer c) && bool_decide (cn_port e.2 = cn_port c))) p.

Definition keep_conn (keep : bool) (key : string * string) (c : Conn) (p : pool) : pool :=
  if keep then take egressMaxIdleConns ((key, c) :: p) else p.

(** [Client.Do] of the client [newEgressClient] builds: no proxy, no cookies, redirects
    handed back. *)
Definition client_Do `{NetURL} {A} (g : EgressGate) (n : Net A) (p : pool) (u : URL) : Outcome A :=
  let key := (ToLower (u_Scheme u), canonicalAddr u) in
  match if n_reuse n then List.find (λ e, bool_decide (e.1 = key)) p else None with
  | Some (_, c) => mkOutcome [] (Some c) (n_answer n) (keep_conn (n_keep n) key c (remove_conn key c p))
  | None =>
      match DialContext g (n_resolve n) (n_dial n) (canonicalAddr u) with
      | (texts, Err e) => mkOutcome texts None (Err e) p
      | (texts, Ok c) => mkOutcome texts (Some c) (n_answer n) (keep_conn (n_keep n) key c p)
      end
  end.

(** ** Facts over HTTP

    Models internal/fact/httpcall.go: building the request of a fact source, judging the
    answer, and decoding its value as the declared type.  The text of a JSON document is
    the class [JsonText]; the client is that of Egress.v.  The wording of failures is left
    out, and with it the note that a redirect leads outside the allowlist. *)

(** ** Values from JSON *)

(** A document decoded into [any] with [UseNumber]: a number is its text. *)
Inductive decoded :=
  | GNull | GBool (b : bool) | GNumber (text : string) | GString (s : string)
  | GList (items : list decoded) | GObject (fields : list (string * decoded)).

(** [json.Decoder]: the first value of a text, fields in the order they stand in and
    repeated if they are repeated. *)
Class JsonText := { json_Decode : string → option decoded }.

Definition some_value (t : Typ) (data : option value) : option Value := d ← data; Some (mkValue t d).
Definition of_result {A} (r : result A) : option A := match r with Ok a => Some a | Err _ => None end.

Fixpoint convertValue (j : decoded) (want : Typ) : option Value :=
  if IsList want then
    match j with
    | GList items =>
        data ← (fix go (items : list decoded) : option (list value) :=
                  match items with
                  | [] => Some []
                  | item :: items => v ← convertValue item (Elem want); vs ← go items; Some (fv_Data v :: vs)
                  end) items;
        Some (mkValue want (VList data))
    | _ => None
    end
  else if bool_decide (want = TypeBool) then match j with GBool b => Some (mkValue TypeBool (VBool b)) | _ => None end
  else if bool_decide (want = TypeInt) then
    match j with GNumber n => some_value TypeInt (i ← of_result (ParseInt n); Some (VInt i)) | _ => None end
  else if bool_decide (want = TypeDouble) then
    match j with GNumber n => some_value TypeDouble (f ← of_result (ParseFloat n); Some (VDouble f)) | _ => None end
  else if bool_decide (want = TypeString) then match j with GString s => Some (mkValue TypeString (VString s)) | _ => None end
  else if bool_decide (want = TypeTimestamp) then
    match j with GString s => some_value TypeTimestamp (x ← of_result (Parse_RFC3339Nano s); Some (VTime x)) | _ => None end
  else if bool_decide (want = TypeDuration) then
    match j with GString s => some_value TypeDuration (d ← of_result (ParseDuration s); Some (VDuration d)) | _ => None end
  else None.

(** [factResponse]: one field, whose name is matched in any case; the last one counts,
    and a null leaves none. *)
Fixpoint envelope_value (fields : list (string * decoded)) (acc : option decoded) : option (option decoded) :=
  match fields with
  | [] => Some acc
  | (name, v) :: fields =>
      if bool_decide (ToLower name = "value") then envelope_value fields (match v with GNull => None | _ => Some v end)
      else None
  end.

Definition decodeResponse `{JsonText} (body : string) (want : Typ) : option Value :=
  match json_Decode body with
  | Some (GObject fields) => v ← envelope_value fields None; raw ← v; convertValue raw want
  | _ => None
  end.

(** ** The request *)

(** [scalarString] of an argument. *)
Definition fact_scalarString `{GoFmt} (data : value) : string :=
  match data with
  | VBool b => FormatBool b
  | VInt z => FormatInt z
  | VDouble f => FormatFloat f
  | VString s => s
  | VTime x => Time.Format_RFC3339Nano x
  | VDuration d => Time.Duration_String d
  | _ => Sprint data
  end.

Definition queryValues `{GoFmt} (v : Value) : list string :=
  if IsList (fv_Type v) then match fv_Data v with VList items => map fact_scalarString items | _ => [] end
  else [fact_scalarString (fv_Data v)].

Record Request := mkRequest { rq_Method : string; rq_URL : URL; rq_Header : list (string * string) }.

Definition with_param `{GoFmt} (q : Values) (pa : Param * Value) : Values :=
  foldl (λ q encoded, Values_Add q (par_Name pa.1) encoded) (Values_Del q (par_Name pa.1)) (queryValues pa.2).

(** The lookup has checked that there is an argument for every parameter. *)
Definition fact_request `{NetURL, GoFmt} (d : Declaration) (args : list Value) : result Request :=
  match url_Parse (fd_URL d) with
  | None => Err []
  | Some u =>
      let q := foldl with_param (URL_Query u) (zip (fd_Params d) args) in
      match url_Parse (URL_String (with_RawQuery u (Values_Encode q))) with
      | None => Err []
      | Some u' => Ok (mkRequest "GET" u' [("Accept", "application/json"); ("User-Agent", "stamp-fact/1")])
      end
  end.

(** ** The answer *)

(** The bytes the body gives and whether reading then fails. *)
Record Response := mkResponse { rp_Status : Z; rp_Body : string; rp_Broken : bool }.

Definition isRedirect (status : Z) : bool := contains [301; 302; 303; 307; 308; 300]%Z status.

(** [classifyTransport]: [expired] when the deadline of the call ran out. *)
Definition classifyTransport (expired : bool) (e : error) : FactReason :=
  if errors_Is e ErrBlocked then FactEgressBlocked else if expired then FactTimeout else FactTransport.

(** The body up to one byte past the cap. *)
Definition read_body (maxBytes : Z) (r : Response) : result string :=
  let limit := Z.to_nat (maxBytes + 1) in
  if (limit <=? String.length (rp_Body r))%nat then Ok (unbytes (take limit (bytes (rp_Body r))))
  else if rp_Broken r then Err [] else Ok (rp_Body r).

Record httpSource := mkHTTPSource { hs_decl : Declaration; hs_gate : EgressGate; hs_maxBytes : Z }.

Section fetch.
Context `{NetURL, GoFmt, JsonText}.

(** What becomes of the client's answer. *)
Definition judge (s : httpSource) (expired : bool) (answer : result Response) : Fetched :=
  let fail := FetchFailure (fd_Name (hs_decl s)) in
  match answer with
  | Err e => fail (classifyTransport expired e)
  | Ok resp =>
      if isRedirect (rp_Status resp) then fail FactRedirect
      else if negb (rp_Status resp =? 200)%Z then fail FactStatus
      else match read_body (hs_maxBytes s) resp with
      | Err e => fail (classifyTransport expired e)
      | Ok body =>
          if (hs_maxBytes s <? Z.of_nat (String.length body))%Z then fail FactTooLarge
          else match decodeResponse body (fd_Returns (hs_decl s)) with
          | None => fail FactDecode
          | Some v => FetchValue v
          end
      end
  end.

(** [Fetch]: what it gives, and what the client did, if it was called at all. *)
Definition http_Fetch (s : httpSource) (args : list Value) (n : Net Response) (expired : bool) (p : pool) : Fetched * option (Request * Outcome Response) :=
  let fail := FetchFailure (fd_Name (hs_decl s)) in
  match CheckURL (hs_gate s) (fd_URL (hs_decl s)) with
  | Err _ => (fail FactEgressBlocked, None)
  | Ok _ =>
      match fact_request (hs_decl s) args with
      | Err e => (fail (if errors_Is e ErrBlocked then FactEgressBlocked else FactTransport), None)
      | Ok req =>
          let out := client_Do (hs_gate s) n p (rq_URL req) in
          (judge s expired (oc_answer out), Some (req, out))
      end
  end.
End fetch.
