(* ===== verification/EgressSpec.v ===== *)
(** * What the egress gate promises

    The addresses it admits, as ranges; that every connection a fact call uses goes to
    an address it admits and was opened for the request's own host, whatever the resolver
    answers and however connections are reused; that a request goes to an origin of the
    allowlist and carries its arguments unchanged. *)
From stdpp Require Import pretty.
From Stdlib Require Import Ascii.
From S2P Require Import Prelude GoLib Policy Cel Engine Text Strconv Encode Netip Url Fact FactSpec Egress.
Import Strings.

(** ** Ranges *)

(** A range of addresses from its first and its last. *)
Definition in_range4 (r : list Z * list Z) (a : Z) : Prop := (octets r.1 <= a <= octets r.2)%Z.
Definition in_range6 (r : list Z * list Z) (a : Z) : Prop := (ungroup r.1 <= a <= ungroup r.2)%Z.

(** IPv4: this host, link-local, multicast, carrier-grade NAT, protocol assignments,
    benchmarking, reserved. *)
Definition forbidden4 : list (list Z * list Z) :=
  [([0; 0; 0; 0], [0; 0; 0; 0]); ([169; 254; 0; 0], [169; 254; 255; 255]); ([224; 0; 0; 0], [239; 255; 255; 255]);
   ([100; 64; 0; 0], [100; 127; 255; 255]); ([192; 0; 0; 0], [192; 0; 0; 255]); ([198; 18; 0; 0], [198; 19; 255; 255]);
   ([240; 0; 0; 0], [255; 255; 255; 255])]%Z.
Definition loopback4 : list (list Z * list Z) := [([127; 0; 0; 0], [127; 255; 255; 255])]%Z.
Definition private4 : list (list Z * list Z) :=
  [([10; 0; 0; 0], [10; 255; 255; 255]); ([172; 16; 0; 0], [172; 31; 255; 255]); ([192; 168; 0; 0], [192; 168; 255; 255])]%Z.

Definition from6 (gs : list Z) : list Z := gs ++ replicate (8 - length gs) 0%Z.
Definition upto6 (gs : list Z) : list Z := gs ++ replicate (8 - length gs) 65535%Z.

(** IPv6: link-local and multicast; then IPv4-compatible, NAT64, 6to4, site-local. *)
Definition forbidden6 : list (list Z * list Z) := [(from6 [65152], upto6 [65215]); (from6 [65280], upto6 [65535])]%Z.
Definition reserved6 : list (list Z * list Z) :=
  [(from6 [0; 0; 0; 0; 0; 0], upto6 [0; 0; 0; 0; 0; 0]); (from6 [100; 65435; 0; 0; 0; 0], upto6 [100; 65435; 0; 0; 0; 0]);
   (from6 [100; 65435; 1], upto6 [100; 65435; 1]); (from6 [8194], upto6 [8194]); (from6 [65216], upto6 [65279])]%Z.
Definition private6 : list (list Z * list Z) := [(from6 [64512], upto6 [65023])]%Z.

Definition within4 (rs : list (list Z * list Z)) (a : Z) : Prop := Exists (λ r, in_range4 r a) rs.
Definition within6 (rs : list (list Z * list Z)) (a : Z) : Prop := Exists (λ r, in_range6 r a) rs.

(** What may be dialled, as the comments of the code have it: nothing in a forbidden or
    reserved range, whatever its zone, nor a loopback or private address without its
    option; a mapped address is the IPv4 address it holds. *)
Definition dialable (g : EgressGate) (ip : Addr) : Prop :=
  match Unmap ip with
  | AddrZero => False
  | Addr4 a => ¬ within4 forbidden4 a ∧ (within4 loopback4 a → eg_allowLoopback g = true) ∧ (within4 private4 a → eg_allowPrivate g = true)
  | Addr6 a _ =>
      ¬ within6 forbidden6 a ∧ (a = 1%Z → eg_allowLoopback g = true) ∧ (within6 private6 a → eg_allowPrivate g = true) ∧
      (a ≠ 1%Z → ¬ within6 reserved6 a)
  end.

(** The part of it that no zone evades. *)
Definition opted_in (g : EgressGate) (ip : Addr) : Prop :=
  match Unmap ip with
  | AddrZero => False
  | Addr4 a => dialable g (Addr4 a)
  | Addr6 a _ => ¬ within6 forbidden6 a ∧ (a = 1%Z → eg_allowLoopback g = true) ∧ (within6 private6 a → eg_allowPrivate g = true)
  end.

Definition Zone (ip : Addr) : string := match ip with Addr6 _ zone => zone | _ => "" end.

(** *** The predicates, as ranges *)

Lemma div_range a k q : (0 <= k)%Z → (a / 2 ^ k = q ↔ q * 2 ^ k <= a <= q * 2 ^ k + (2 ^ k - 1))%Z.
Proof. intros Hk. pose proof (Z.pow_pos_nonneg 2 k ltac:(lia) Hk). split; intros; [subst; Z.div_mod_to_equations; nia|]. symmetry. apply Z.div_unique with (a - q * 2 ^ k)%Z; lia. Qed.

Ltac open_ranges :=
  unfold within4, within6, in_range4, in_range6, forbidden4, loopback4, private4, forbidden6, reserved6, private6, from6, upto6;
  rewrite ?Exists_cons, ?Exists_nil; cbn [fst snd]; unfold octets, ungroup; cbn [foldl app length replicate Nat.sub].

#[local] Open Scope Z_scope.

Lemma land_high x n k : 0 <= n → 0 <= k → Z.land x (Z.shiftl (Z.ones n) k) = x / 2 ^ k mod 2 ^ n * 2 ^ k.
Proof.
  intros Hn Hk. rewrite <-Z.land_ones, <-Z.shiftr_div_pow2, <-Z.shiftl_mul_pow2 by done. apply Z.bits_inj'. intros i Hi.
  rewrite Z.land_spec. destruct (decide (i < k)); [rewrite !Z.shiftl_spec_low by done; apply andb_false_r|].
  rewrite !Z.shiftl_spec, Z.land_spec, Z.shiftr_spec by lia. by replace (i - k + k) with i by lia.
Qed.

Section v4.
Context (a : Z) (Ha : 0 <= a < 2 ^ 32).
Local Ltac bytes4 := rewrite ?v4_byte by lia; change (8 * (3 - 0)) with 24; change (8 * (3 - 1)) with 16; change (8 * (3 - 2)) with 8;
  change 240 with (Z.shiftl (Z.ones 4) 4); rewrite ?land_high by lia; change (Z.shiftl (Z.ones 4) 4) with 240;
  change (2 ^ 24) with 16777216; change (2 ^ 16) with 65536; change (2 ^ 8) with 256; change (2 ^ 4) with 16; change (2 ^ 32) with 4294967296 in *.

Lemma link_local4 : IsLinkLocalUnicast (Addr4 a) = true ↔ in_range4 ([169; 254; 0; 0], [169; 254; 255; 255]) a.
Proof. unfold IsLinkLocalUnicast, Unmap. rewrite andb_true_iff, !Z.eqb_eq. open_ranges. bytes4. Z.div_mod_to_equations. lia. Qed.
Lemma multicast4 : IsMulticast (Addr4 a) = true ↔ in_range4 ([224; 0; 0; 0], [239; 255; 255; 255]) a.
Proof. unfold IsMulticast, Unmap. rewrite Z.eqb_eq. open_ranges. bytes4. Z.div_mod_to_equations. lia. Qed.
Lemma local_multicast4 : IsLinkLocalMulticast (Addr4 a) = true → IsMulticast (Addr4 a) = true.
Proof. rewrite multicast4. unfold IsLinkLocalMulticast, Unmap. rewrite !andb_true_iff, !Z.eqb_eq. open_ranges. bytes4. Z.div_mod_to_equations. lia. Qed.
Lemma loopback4_iff : IsLoopback (Addr4 a) = true ↔ within4 loopback4 a.
Proof. unfold IsLoopback, Unmap. rewrite Z.eqb_eq. open_ranges. bytes4. Z.div_mod_to_equations. lia. Qed.
Lemma private4_iff : IsPrivate (Addr4 a) = true ↔ within4 private4 a.
Proof. unfold IsPrivate, Unmap. rewrite !orb_true_iff, !andb_true_iff, !Z.eqb_eq. open_ranges. bytes4. Z.div_mod_to_equations. lia. Qed.
End v4.

Section v6.
Context (a : Z) (zone : string) (Ha : 0 <= a < 2 ^ 128) (Hm : mapped a = false).

Lemma group0 : v6u16 a 0 = a / 2 ^ 112.
Proof. rewrite v6u16_group by lia. change (16 * (7 - 0)) with 112. apply Z.mod_small. split; [apply Z.div_pos; lia|]. apply Z.div_lt_upper_bound; [lia|]. change (2 ^ 112 * 65536) with (2 ^ 128). lia. Qed.
Lemma byte0 : v6 a 0 = a / 2 ^ 120.
Proof. rewrite v6_byte by lia. change (8 * (15 - 0)) with 120. apply Z.mod_small. split; [apply Z.div_pos; lia|]. apply Z.div_lt_upper_bound; [lia|]. change (2 ^ 120 * 256) with (2 ^ 128). lia. Qed.

Lemma unmapped : Unmap (Addr6 a zone) = Addr6 a zone.
Proof. unfold Unmap. by rewrite Hm. Qed.

Lemma link_local6 : IsLinkLocalUnicast (Addr6 a zone) = true ↔ in_range6 (from6 [65152], upto6 [65215]) a.
Proof.
  unfold IsLinkLocalUnicast. rewrite unmapped, group0, Z.eqb_eq. change 65472 with (Z.shiftl (Z.ones 10) 6). rewrite land_high by lia.
  rewrite Z.div_div by lia. change (2 ^ 112 * 2 ^ 6) with (2 ^ 118). rewrite Z.mod_small.
  { transitivity (a / 2 ^ 118 = 1018); [split; intros; lia|]. rewrite div_range by lia. open_ranges. lia. }
  split; [apply Z.div_pos; lia|]. apply Z.div_lt_upper_bound; [lia|]. change (2 ^ 118 * 2 ^ 10) with (2 ^ 128). lia.
Qed.

Lemma multicast6 : IsMulticast (Addr6 a zone) = true ↔ in_range6 (from6 [65280], upto6 [65535]) a.
Proof. unfold IsMulticast. rewrite unmapped, byte0, Z.eqb_eq, div_range by lia. open_ranges. lia. Qed.

Lemma local_multicast6 : IsLinkLocalMulticast (Addr6 a zone) = true ∨ IsInterfaceLocalMulticast (Addr6 a zone) = true → IsMulticast (Addr6 a zone) = true.
Proof.
  unfold IsLinkLocalMulticast, IsInterfaceLocalMulticast, IsMulticast. rewrite unmapped, group0, byte0, !Z.eqb_eq. intros Hor.
  assert (Z.land (a / 2 ^ 112) 65280 = 65280) as Hl.
  { destruct Hor as [H|H]; apply (f_equal (λ x, Z.land x 65280)) in H; rewrite <-Z.land_assoc in H; exact H. }
  change 65280 with (Z.shiftl (Z.ones 8) 8) in Hl at 1. rewrite land_high in Hl by lia. rewrite Z.div_div in Hl by lia. change (2 ^ 112 * 2 ^ 8) with (2 ^ 120) in Hl.
  rewrite Z.mod_small in Hl; [lia|]. split; [apply Z.div_pos; lia|]. apply Z.div_lt_upper_bound; [lia|]. change (2 ^ 120 * 2 ^ 8) with (2 ^ 128). lia.
Qed.

Lemma loopback6_iff : IsLoopback (Addr6 a zone) = true ↔ a = 1.
Proof. unfold IsLoopback. rewrite unmapped. apply Z.eqb_eq. Qed.

Lemma private6_iff : IsPrivate (Addr6 a zone) = true ↔ within6 private6 a.
Proof.
  unfold IsPrivate. rewrite unmapped, byte0, Z.eqb_eq. change 254 with (Z.shiftl (Z.ones 7) 1). rewrite land_high by lia. rewrite Z.div_div by lia.
  change (2 ^ 120 * 2 ^ 1) with (2 ^ 121). rewrite Z.mod_small.
  { transitivity (a / 2 ^ 121 = 126); [split; intros; lia|]. rewrite div_range by lia. open_ranges. lia. }
  split; [apply Z.div_pos; lia|]. apply Z.div_lt_upper_bound; [lia|]. change (2 ^ 121 * 2 ^ 7) with (2 ^ 128). lia.
Qed.
End v6.

(** *** The reserved prefixes *)

Lemma neverDialable_eq : neverDialable =
  [mkPrefix (Addr4 (octets [100; 64; 0; 0])) 10; mkPrefix (Addr4 (octets [192; 0; 0; 0])) 24; mkPrefix (Addr4 (octets [198; 18; 0; 0])) 15;
   mkPrefix (Addr4 (octets [240; 0; 0; 0])) 4; mkPrefix (Addr6 0 "") 128; mkPrefix (Addr6 0 "") 96; mkPrefix (Addr6 (ungroup (from6 [100; 65435])) "") 96;
   mkPrefix (Addr6 (ungroup (from6 [100; 65435; 1])) "") 48; mkPrefix (Addr6 (ungroup (from6 [8194])) "") 16; mkPrefix (Addr6 (ungroup (from6 [65216])) "") 10].
Proof. vm_compute. reflexivity. Qed.

(** Quotients of numbers, evaluated. *)
Ltac closed_div := repeat match goal with |- context [?x / ?y] => let v := eval vm_compute in (x / y) in change (x / y) with v end.

Definition reserved (ip : Addr) : bool := existsb (λ p, Prefix_Contains p ip) neverDialable.

Lemma reserved4_iff a : 0 <= a < 2 ^ 32 → reserved (Addr4 a) = true ↔
  in_range4 ([100; 64; 0; 0], [100; 127; 255; 255]) a ∨ in_range4 ([192; 0; 0; 0], [192; 0; 0; 255]) a ∨
  in_range4 ([198; 18; 0; 0], [198; 19; 255; 255]) a ∨ in_range4 ([240; 0; 0; 0], [255; 255; 255; 255]) a.
Proof.
  intros Ha. unfold reserved. rewrite neverDialable_eq. cbn [existsb]. rewrite !orb_true_iff, !contains4 by lia. cbn [Prefix_Contains px_ip].
  rewrite !div_range by lia. open_ranges. closed_div. lia.
Qed.

Lemma reserved6_iff a : 0 <= a < 2 ^ 128 → reserved (Addr6 a "") = true ↔ within6 reserved6 a.
Proof.
  intros Ha. unfold reserved. rewrite neverDialable_eq. cbn [existsb]. rewrite !orb_true_iff, !contains6; [|first [lia|by vm_compute]..].
  cbn [Prefix_Contains px_ip]. assert (∀ P, ("" = "" ∧ P) ↔ P) as Hz by tauto. rewrite !Hz, !div_range by lia. open_ranges. closed_div. lia.
Qed.

Lemma reserved_zone a zone : zone ≠ "" → reserved (Addr6 a zone) = false.
Proof.
  intros Hz. apply not_true_iff_false. unfold reserved. rewrite existsb_true. intros (p & _ & Hp). unfold Prefix_Contains in Hp. destruct (px_ip p); [done..|].
  by rewrite bool_decide_eq_false_2 in Hp.
Qed.

(** *** The check *)

Lemma CheckAddr_cases g ip : CheckAddr g ip = Ok tt ↔ IsValid ip = true ∧ let ip := Unmap ip in
  IsUnspecified ip = false ∧ IsLinkLocalUnicast ip = false ∧ IsLinkLocalMulticast ip = false ∧ IsInterfaceLocalMulticast ip = false ∧ IsMulticast ip = false ∧
  (IsLoopback ip = true → eg_allowLoopback g = true) ∧
  (IsLoopback ip = false → (IsPrivate ip = true → eg_allowPrivate g = true) ∧ reserved ip = false).
Proof.
  unfold CheckAddr. fold (reserved (Unmap ip)). cbv zeta.
  destruct (IsValid ip), (IsUnspecified (Unmap ip)), (IsLinkLocalUnicast (Unmap ip)), (IsLinkLocalMulticast (Unmap ip)), (IsInterfaceLocalMulticast (Unmap ip)),
    (IsMulticast (Unmap ip)); simpl; try (split; [done|by intuition congruence]).
  destruct (IsLoopback (Unmap ip)), (IsPrivate (Unmap ip)), (eg_allowLoopback g), (eg_allowPrivate g), (reserved (Unmap ip)); simpl; intuition congruence.
Qed.

Lemma not_true (b : bool) : b = false ↔ ¬ b = true.
Proof. by destruct b. Qed.

Lemma within4_cons r rs a : within4 (r :: rs) a ↔ in_range4 r a ∨ within4 rs a.
Proof. apply Exists_cons. Qed.
Lemma within6_cons r rs a : within6 (r :: rs) a ↔ in_range6 r a ∨ within6 rs a.
Proof. apply Exists_cons. Qed.
Lemma within_nil a : (within4 [] a ↔ False) ∧ (within6 [] a ↔ False).
Proof. split; apply Exists_nil. Qed.

Lemma dialable4 g a : 0 <= a < 2 ^ 32 → CheckAddr g (Addr4 a) = Ok tt ↔ dialable g (Addr4 a).
Proof.
  intros Ha. rewrite CheckAddr_cases. unfold dialable. change (Unmap (Addr4 a)) with (Addr4 a). cbv zeta beta iota.
  rewrite !not_true, link_local4, multicast4, loopback4_iff, private4_iff, reserved4_iff by done.
  change (IsInterfaceLocalMulticast (Addr4 a)) with false. pose proof (local_multicast4 a Ha) as Hlm. rewrite multicast4 in Hlm by done.
  assert (IsUnspecified (Addr4 a) = true ↔ in_range4 ([0; 0; 0; 0], [0; 0; 0; 0]) a) as ->.
  { unfold IsUnspecified. rewrite orb_true_iff, !bool_decide_eq_true. open_ranges. split; [intros [[= ->]|[=]]; lia|intros; left; f_equal; lia]. }
  assert (within4 loopback4 a → ¬ within4 private4 a) as H1 by (open_ranges; lia).
  assert (within4 loopback4 a → ¬ (in_range4 ([100; 64; 0; 0], [100; 127; 255; 255]) a ∨ in_range4 ([192; 0; 0; 0], [192; 0; 0; 255]) a ∨
    in_range4 ([198; 18; 0; 0], [198; 19; 255; 255]) a ∨ in_range4 ([240; 0; 0; 0], [255; 255; 255; 255]) a)) as H2 by (open_ranges; lia).
  assert (within4 loopback4 a ∨ ¬ within4 loopback4 a) as Hd by (open_ranges; lia).
  set (loop := within4 loopback4 a) in *. set (priv := within4 private4 a) in *. unfold forbidden4. rewrite !within4_cons, (proj1 (within_nil a)).
  change (IsValid (Addr4 a)) with true. rewrite <-!not_true in *. unfold not in *. destruct (IsLinkLocalMulticast (Addr4 a)); intuition congruence.
Qed.

Lemma CheckAddr6 g a zone : 0 <= a < 2 ^ 128 → mapped a = false → CheckAddr g (Addr6 a zone) = Ok tt ↔
  ¬ within6 forbidden6 a ∧ (a = 1%Z → eg_allowLoopback g = true) ∧ (within6 private6 a → eg_allowPrivate g = true) ∧ (zone = "" → a ≠ 1%Z → ¬ within6 reserved6 a).
Proof.
  intros Ha Hm. rewrite CheckAddr_cases, unmapped by done. cbv zeta beta iota.
  rewrite !not_true, link_local6, multicast6, loopback6_iff, private6_iff by done.
  pose proof (local_multicast6 a zone Ha Hm) as Hlm. rewrite multicast6 in Hlm by done.
  assert (IsUnspecified (Addr6 a zone) = true ↔ a = 0 ∧ zone = "") as ->.
  { unfold IsUnspecified. rewrite orb_true_iff, !bool_decide_eq_true. split; [by intros [[=]|[= -> ->]]|]. intros [-> ->]. by right. }
  assert (within6 private6 1 → False) as Hp by (open_ranges; lia).
  assert (within6 forbidden6 a ↔ in_range6 (from6 [65152], upto6 [65215]) a ∨ in_range6 (from6 [65280], upto6 [65535]) a) as ->.
  { unfold forbidden6. rewrite !within6_cons, (proj2 (within_nil a)). tauto. }
  change (IsValid (Addr6 a zone)) with true.
  destruct (decide (zone = "")) as [->|Hz].
  - rewrite reserved6_iff by done. assert (a = 0 → within6 reserved6 a) by (open_ranges; lia). destruct (decide (a = 1)) as [->|]; unfold not in *; intuition (first [congruence|lia|done]).
  - rewrite reserved_zone by done. destruct (decide (a = 1)) as [->|]; unfold not in *; intuition (first [congruence|lia|done]).
Qed.

(** C37. The gate admits what may be dialled and nothing else, with one exception.  Every
    address outside the forbidden and reserved ranges, whose option the operator gave where
    it is a loopback or private one, is admitted.  An admitted address without a zone is
    such an address, so never an unspecified, link-local, multicast or reserved one, and a
    mapped IPv4 address is judged as the address it holds.  An admitted IPv6 address with
    a zone is never link-local or multicast and is loopback or private only with the
    option; that it may lie in a reserved range is the fault
    [zone_evades_the_reserved_ranges] shows. *)
Theorem gate_admits_dialable g ip : addr_wf ip →
  (dialable g ip → CheckAddr g ip = Ok tt) ∧
  (CheckAddr g ip = Ok tt → Zone (Unmap ip) = "" → dialable g ip) ∧
  (CheckAddr g ip = Ok tt → opted_in g ip).
Proof.
  intros Hwf. assert (addr_wf (Unmap ip)) as Hw by (by apply Unmap_wf).
  assert (CheckAddr g ip = Ok tt ↔ IsValid ip = true ∧ CheckAddr g (Unmap ip) = Ok tt) as ->.
  { rewrite !CheckAddr_cases, Unmap_Unmap. assert (IsValid ip = true → IsValid (Unmap ip) = true) by (destruct ip as [|a|a z]; [done..|]; unfold Unmap; by destruct (mapped a)). tauto. }
  assert (Unmap ip ≠ AddrZero → IsValid ip = true) as Hv by (by destruct ip). unfold dialable at 1 2, opted_in. destruct (Unmap ip) as [|a|a zone] eqn:E; [split_and!; [done|by intros [_ ?]..]|..].
  - specialize (Hv ltac:(done)). rewrite dialable4 by done. unfold dialable. cbn [Unmap]. tauto.
  - assert (mapped a = false) as Hm. { destruct (mapped a) eqn:Em; [|done]. pose proof (Unmap_Unmap ip) as Hu. rewrite E in Hu. unfold Unmap in Hu. by rewrite Em in Hu. }
    specialize (Hv ltac:(done)). rewrite CheckAddr6 by done. cbn [Zone]. tauto.
Qed.

(** A zone keeps an address out of every prefix: the NAT64 form of the metadata address,
    refused as it stands, is admitted with a zone. *)
Lemma zone_evades_the_reserved_ranges g :
  let nat64 := ungroup [100; 65435; 0; 0; 0; 0; 43518; 43518] in
  CheckAddr g (Addr6 nat64 "") = Err [ErrBlocked] ∧ CheckAddr g (Addr6 nat64 "eth0") = Ok tt ∧ CheckAddr g (Addr6 0 "lo") = Ok tt.
Proof. destruct g as [o [] []]; vm_compute; done. Qed.

(** ** The dialler *)

#[local] Close Scope Z_scope.

Definition admitted (g : EgressGate) (ip : Addr) : Prop := CheckAddr g ip = Ok tt.

Lemma admitted_Unmap g ip : admitted g ip → admitted g (Unmap ip).
Proof.
  unfold admitted. rewrite !CheckAddr_cases, Unmap_Unmap. intros [Hv H]. split; [|done]. destruct ip as [|a|a z]; [done..|]. unfold Unmap. by destruct (mapped a).
Qed.

Lemma checkAll_Ok g addrs : checkAll g addrs = Ok tt ↔ addrs ≠ [] ∧ Forall (admitted g) addrs.
Proof.
  unfold checkAll. assert (check_each g addrs = Ok tt ↔ Forall (admitted g) addrs) as Hc.
  { induction addrs as [|a addrs IH]; [by split; [constructor|]|]. cbn [check_each]. rewrite res_bind_Ok, Forall_cons, <-IH. unfold admitted.
    split; [by intros ([] & H1 & H2)|]. intros [H1 H2]. by exists tt. }
  destruct addrs; [by split; [|intros [? _]]|]. rewrite Hc. naive_solver.
Qed.

Lemma dial_each_spec dial port addrs texts r : dial_each dial port addrs = (texts, r) →
  texts ⊆ map (λ a, AddrPort_String (Unmap a) port) addrs ∧ ∀ c, r = Ok c → ∃ a, a ∈ addrs ∧ c = mkConn (Unmap a) port.
Proof.
  revert texts r. induction addrs as [|a addrs IH]; intros texts r; cbn [dial_each]; [intros [= <- <-]; done|].
  destruct (dial _) eqn:E; [intros [= <- <-]|destruct (dial_each dial port addrs) as [ts r'] eqn:Er; intros [= <- <-]].
  - split; [set_solver|]. intros c [= <-]. exists a. set_solver.
  - destruct (IH ts r' eq_refl) as [Hs Hc]. split; [set_solver|]. intros c (a' & Ha & ->)%Hc. exists a'. set_solver.
Qed.

(** Either nothing is dialled and there is no connection, or every address of the answer
    is admitted, and what is dialled are addresses of the answer, as literals. *)
Lemma DialContext_spec g resolve dial addr texts r : DialContext g resolve dial addr = (texts, r) →
  (texts = [] ∧ ∃ e, r = Err e) ∨
  ∃ host port n addrs, SplitHostPort addr = Some (host, port) ∧ ParseUint16 port = Some n ∧
    (ParseAddr host = None ∧ resolve host = Ok addrs ∨ ∃ ip, ParseAddr host = Some ip ∧ addrs = [ip]) ∧
    Forall (admitted g) addrs ∧ texts ⊆ map (λ a, AddrPort_String (Unmap a) n) addrs ∧ ∀ c, r = Ok c → ∃ a, a ∈ addrs ∧ c = mkConn (Unmap a) n.
Proof.
  unfold DialContext. destruct (SplitHostPort addr) as [[host port]|] eqn:Es; [|intros [= <- <-]; left; eauto].
  destruct (ParseUint16 port) as [n|] eqn:Ep; [|intros [= <- <-]; left; eauto].
  destruct (match ParseAddr host with Some literal => _ | None => _ end) as [addrs|e] eqn:Ea; [|intros [= <- <-]; left; eauto].
  destruct (checkAll g addrs) as [[]|e] eqn:Ec; [|intros [= <- <-]; left; eauto]. apply checkAll_Ok in Ec as [_ Ec]. intros [Ht Hc]%dial_each_spec. right.
  exists host, port, n, addrs. split_and!; try done. destruct (ParseAddr host) as [ip|]; [|by left]. injection Ea as <-. right. eauto.
Qed.

Lemma ParseUint16_range s n : ParseUint16 s = Some n → (0 <= n < 65536)%Z.
Proof.
  unfold ParseUint16. destruct (_ || _) eqn:E; [done|]. destruct (Z.ltb_spec (undigits (bytes s)) 65536); [|done]. intros [= <-]. split; [|done].
  apply orb_false_iff in E as [_ E]. apply negb_false_iff in E. rewrite forallb_true in E. unfold undigits. revert E. generalize (bytes s). intros l E.
  apply (read_digits_grows 0 l); [lia|]. apply Forall_forall. intros a Ha. by apply is_digit_iff, E.
Qed.

(** What the gate's dialler does: it dials admitted addresses only. *)
Lemma dialled_admitted g resolve dial addr texts r : DialContext g resolve dial addr = (texts, r) →
  (∀ text, text ∈ texts → ∃ ip port, text = AddrPort_String ip port ∧ Unmap ip = ip ∧ admitted g ip ∧ (0 <= port < 65536)%Z) ∧
  ∀ c, r = Ok c → admitted g (cn_peer c) ∧ Unmap (cn_peer c) = cn_peer c.
Proof.
  intros [(-> & e & ->)|(host & port & n & addrs & _ & Hp & _ & Ha & Ht & Hc)]%DialContext_spec; [split; [|done]; intros text H; by apply not_elem_of_nil in H|].
  rewrite Forall_forall in Ha. split.
  - intros text Hin%Ht. apply elem_of_map in Hin as (a & -> & Hin). exists (Unmap a), n. split_and!; [done|apply Unmap_Unmap|by apply admitted_Unmap, Ha|by apply (ParseUint16_range port)..].
  - intros c (a & Hin & ->)%Hc. simpl. split; [by apply admitted_Unmap, Ha|apply Unmap_Unmap].
Qed.

(** ** What the dialler is handed *)

(** The address and port a text names to a dialler that resolves nothing. *)
Definition dial_target (text : string) : option (Addr * Z) :=
  '(host, port) ← SplitHostPort text; ip ← ParseAddr host; n ← ParseUint16 port; Some (ip, n).

Definition plain_zone (ip : Addr) : Prop :=
  match ip with Addr6 _ zone => "["%char ∉ bytes zone ∧ "]"%char ∉ bytes zone | _ => True end.

Lemma cut_last_app c s r : c ∉ r → cut_last c (s ++ c :: r) = Some (s, r).
Proof.
  intros Hr. assert (cut_last c r = None) as Hn.
  { induction r as [|a r IH]; [done|]. apply not_elem_of_cons in Hr as [Ha Hr]. simpl. rewrite IH by done. by rewrite bool_decide_eq_false_2. }
  induction s as [|a s IH]; simpl; [|by rewrite IH]. rewrite Hn. by rewrite bool_decide_eq_true_2.
Qed.

Definition addr_text (a : ascii) : bool := negb (contains [":"; "["; "]"]%char a).
Lemma digit_text l : Forall digit l → Forall (λ a, addr_text a = true) l.
Proof. intros Hd. eapply Forall_impl; [done|]. intros a Ha. unfold addr_text, contains. rewrite bool_decide_eq_false_2; [done|]. intros Hin. unfold digit in Ha.
  repeat (apply elem_of_cons in Hin as [->|Hin]; [vm_compute in Ha; lia|]). by apply not_elem_of_nil in Hin. Qed.
Lemma text_not (l : list ascii) c : Forall (λ a, addr_text a = true) l → c ∈ [":"; "["; "]"]%char → c ∉ l.
Proof. intros Hl Hc Hin. rewrite Forall_forall in Hl. specialize (Hl c Hin). unfold addr_text, contains in Hl. by rewrite bool_decide_eq_true_2 in Hl. Qed.

Lemma string4_text a : Forall (λ a, addr_text a = true) (string4 a).
Proof.
  unfold string4. rewrite !bytes_app, !Forall_app. assert (∀ i, (0 <= i <= 3)%Z → Forall (λ a, addr_text a = true) (bytes (pretty (v4 a i)))) as Hd.
  { intros i Hi. apply digit_text. pose proof (v4_range a i Hi). apply (pretty_spec (v4 a i)). lia. }
  split_and!; try (apply Hd; lia); by repeat constructor.
Qed.

Lemma string6_brackets gs : Forall group gs → "["%char ∉ string6 gs ∧ "]"%char ∉ string6 gs.
Proof.
  intros Hg. assert (∀ gs, Forall group gs → Forall (λ a, a ≠ "["%char ∧ a ≠ "]"%char) (colons gs)) as Hc.
  { clear. induction 1 as [|x gs Hx _ IH]; [constructor|]. cbn [colons]. apply Forall_app. split; [|destruct gs; [constructor|constructor; [done|apply IH]]].
    rewrite appendHex_digits. apply Forall_map. eapply Forall_impl; [apply (hex_digits_spec x Hx)|]. intros d (Hv & _)%hex_val_char. simpl. split; intros E; rewrite E in Hv; done. }
  assert (Forall (λ a, a ≠ "["%char ∧ a ≠ "]"%char) (string6 gs)) as Hs.
  { destruct (string6_shape gs) as [[-> _]|(pre & l & post & -> & _ & ->)]; [by apply Hc|]. rewrite !Forall_app in Hg. rewrite !Forall_app.
    split_and!; [apply Hc, Hg|by repeat constructor|apply Hc, Hg]. }
  rewrite Forall_forall in Hs. split; intros Hin; by destruct (Hs _ Hin).
Qed.

(** The text of an admitted address names that address: there is nothing left to
    resolve. *)
Lemma literal_names ip n : addr_wf ip → IsValid ip = true → Unmap ip = ip → plain_zone ip → (0 <= n < 65536)%Z → dial_target (AddrPort_String ip n) = Some (ip, n).
Proof.
  intros Hwf Hv Hu Hz Hn. pose proof (ParseAddr_String ip Hwf Hv Hu) as Hp. clear Hwf. destruct (pretty_spec n ltac:(lia)) as (Hd & Hval & _). pose proof (digit_text _ Hd) as Ht.
  assert (ParseUint16 (pretty n) = Some n) as Hport.
  { unfold ParseUint16. rewrite Hval. destruct (pretty_pos_head n ltac:(lia)) as (a & l & Hal & _). rewrite bool_decide_eq_false_2 by (by rewrite Hal).
    rewrite digits_forallb by done. cbn [orb negb]. rewrite (proj2 (Z.ltb_lt n 65536) (proj2 Hn)). reflexivity. }
  assert (∀ c, c ∈ [":"; "["; "]"]%char → c ∉ bytes (pretty n)) as Hpn by (intros c; by apply text_not).
  clear Hval Hn. unfold dial_target. enough (SplitHostPort (AddrPort_String ip n) = Some (Addr_String ip, pretty n)) as ->. { cbn [mbind option_bind]. rewrite Hp. cbn [mbind option_bind]. by rewrite Hport. }
  unfold SplitHostPort. destruct ip as [|a|a zone]; [done|..].
  - unfold AddrPort_String, Addr_String. rewrite !bytes_app, bytes_unbytes. change (bytes ":") with [":"%char]. cbn [app]. rewrite cut_last_app by (apply Hpn; repeat constructor).
    cbn [mbind option_bind]. pose proof (string4_text a) as H4. assert (∀ c, c ∈ [":"; "["; "]"]%char → c ∉ string4 a) as Hn4 by (intros c; by apply text_not).
    assert (∀ c, c ∈ ["["; "]"]%char → c ∉ string4 a ++ ":"%char :: bytes (pretty n)) as Hs.
    { intros c Hc. rewrite elem_of_app, elem_of_cons. intros [H1|[->|H1]]; [by apply (Hn4 c); [by right|]|by repeat (apply elem_of_cons in Hc as [?|Hc]; [done|]); apply not_elem_of_nil in Hc|by apply (Hpn c); [by right|]]. }
    destruct (string4 a) as [|b r] eqn:E; [by pose proof (string4_family a) as Hf; rewrite E in Hf|].
    rewrite (bool_decide_eq_false_2 (b = "["%char)). 2: { intros ->. apply (Hn4 "["%char); repeat constructor. }
    rewrite !bool_decide_eq_false_2; [cbn [orb]; by rewrite unbytes_bytes|apply Hs; repeat constructor..|apply Hn4; repeat constructor].
  - unfold AddrPort_String. unfold Unmap in Hu. destruct (mapped a) eqn:Em; [done|]. destruct Hz as [Hz1 Hz2].
    assert ("["%char ∉ bytes (Addr_String (Addr6 a zone)) ∧ "]"%char ∉ bytes (Addr_String (Addr6 a zone))) as [Hb1 Hb2].
    { unfold Addr_String. rewrite Em, bytes_unbytes. destruct (string6_brackets (groups_of a) (groups_range a)) as [H1 H2]. unfold zone_suffix. case_bool_decide; [by rewrite app_nil_r|].
      rewrite !elem_of_app, !elem_of_cons. split; intros [?|[?|?]]; done. }
    rewrite !bytes_app. change (bytes "[") with ["["%char]. change (bytes "]:") with ["]"%char; ":"%char]. cbn [app].
    set (t := bytes (Addr_String (Addr6 a zone))) in *. replace ("["%char :: t ++ "]"%char :: ":"%char :: bytes (pretty n)) with (("["%char :: t ++ ["]"%char]) ++ ":"%char :: bytes (pretty n)) by (cbn [app]; rewrite <-app_assoc; reflexivity).
    rewrite cut_last_app by (apply Hpn; repeat constructor). cbn [mbind option_bind]. rewrite bool_decide_eq_true_2 by done. rewrite cut_at_some by done.
    rewrite !bool_decide_eq_false_2; [cbn [orb]; unfold t; by rewrite !unbytes_bytes|apply Hpn; repeat constructor|].
    rewrite !elem_of_app, elem_of_cons. intros [[?|[?|Hin]]|Hin]; [done|done|by apply not_elem_of_nil in Hin|by apply (Hpn "["%char); [repeat constructor|]].
Qed.

(** ** The client *)

Section client.
Context `{NetURL} (g : EgressGate).

Definition conn_key (u : URL) : string * string := (ToLower (u_Scheme u), canonicalAddr u).
(** A call that dialled and got a connection. *)
Definition opens {A} (n : Net A) (u : URL) (c : Conn) : Prop := (DialContext g (n_resolve n) (n_dial n) (canonicalAddr u)).2 = Ok c.

Lemma opens_admitted {A} (n : Net A) u c : opens n u c → admitted g (cn_peer c) ∧ Unmap (cn_peer c) = cn_peer c.
Proof. unfold opens. destruct (DialContext _ _ _ _) as [texts r] eqn:E. intros Hr. by apply dialled_admitted in E as [_ Hc]; apply Hc. Qed.

Lemma keep_conn_elem keep key c (p : pool) e : e ∈ keep_conn keep key c p → e = (key, c) ∨ e ∈ p.
Proof.
  unfold keep_conn. destruct keep; [|by right]. intros Hin. assert (e ∈ (key, c) :: p) as Hin' by (rewrite <-(take_drop egressMaxIdleConns (_ :: p)); apply elem_of_app; by left).
  by apply elem_of_cons in Hin' as [->|?]; [left|right].
Qed.

Lemma client_Do_spec {A} (n : Net A) p u : let out := client_Do g n p u in
  (∀ text, text ∈ oc_dialled out → ∃ ip port, text = AddrPort_String ip port ∧ Unmap ip = ip ∧ admitted g ip ∧ (0 <= port < 65536)%Z) ∧
  (∀ c, oc_conn out = Some c → (conn_key u, c) ∈ p ∨ opens n u c) ∧
  (∀ e, e ∈ oc_pool out → e ∈ p ∨ e.1 = conn_key u ∧ opens n u e.2).
Proof.
  unfold client_Do. fold (conn_key u).
  destruct (if n_reuse n then _ else None) as [[k c]|] eqn:E.
  - destruct (n_reuse n); [|done]. apply find_some in E as [Hin Hk]. simpl in Hk. apply bool_decide_eq_true in Hk as ->. apply list_elem_of_In in Hin. simpl. split_and!.
    + intros text Ht. by apply not_elem_of_nil in Ht.
    + intros c' [= <-]. by left.
    + intros e [->|He]%keep_conn_elem; [by left|]. left. apply list_elem_of_In, filter_In in He as [He _]. by apply list_elem_of_In.
  - unfold opens. destruct (DialContext _ _ _ _) as [texts [c|e]] eqn:Ed; pose proof (dialled_admitted _ _ _ _ _ _ Ed) as [Ht _]; simpl; split_and!; try done.
    + intros c' [= <-]. by right.
    + intros e [->|He]%keep_conn_elem; [by right|by left].
    + intros e' He. by left.
Qed.
End client.

(** ** Fact calls *)

Section calls.
Context `{NetURL, GoFmt, JsonText}.

Record FactCall := mkFactCall { fc_source : httpSource; fc_args : list Value; fc_net : Net Response; fc_expired : bool }.

Definition fetch_call (p : pool) (c : FactCall) : Fetched * option (Request * Outcome Response) :=
  http_Fetch (fc_source c) (fc_args c) (fc_net c) (fc_expired c) p.
Definition pool_after (p : pool) (r : Fetched * option (Request * Outcome Response)) : pool :=
  match r.2 with Some (_, out) => oc_pool out | None => p end.

(** One call after the other, over the client they share. *)
Fixpoint run_calls (p : pool) (calls : list FactCall) : list (Fetched * option (Request * Outcome Response)) :=
  match calls with [] => [] | c :: calls => let r := fetch_call p c in r :: run_calls (pool_after p r) calls end.

Lemma originOf_ext u v : u_Scheme u = u_Scheme v → u_Host u = u_Host v → originOf u = originOf v.
Proof. intros Hs Hh. unfold originOf, effective_port, Hostname, Port. by rewrite Hs, Hh. Qed.

Definition on_allowlist (g : EgressGate) (u : URL) : Prop := u_User u = None ∧ ∃ origin, originOf u = Ok origin ∧ origin ∈ eg_origins g.

Lemma CheckURL_Ok g raw : CheckURL g raw = Ok tt → ∃ u, url_Parse raw = Some u ∧ on_allowlist g u ∧ (∀ ip, ParseAddr (Hostname u) = Some ip → admitted g ip).
Proof.
  unfold CheckURL. destruct (url_Parse raw) as [u|]; [|done]. case_bool_decide as Hu; [done|]. destruct (originOf u) as [origin|] eqn:Eo; [|done].
  case_bool_decide as Hin; [|done]. cbn [negb]. intros Ha. exists u. split; [done|]. split; [split; [by apply eq_None_not_Some|eauto]|].
  intros ip Hip. by rewrite Hip in Ha.
Qed.

Lemma fact_request_url d args req : fact_request d args = Ok req →
  ∃ u, url_Parse (fd_URL d) = Some u ∧ u_Scheme (rq_URL req) = u_Scheme u ∧ u_Host (rq_URL req) = u_Host u ∧ u_User (rq_URL req) = u_User u ∧
    u_RawQuery (rq_URL req) = Values_Encode (foldl with_param (URL_Query u) (zip (fd_Params d) args)) ∧ rq_Method req = "GET" ∧
    rq_Header req = [("Accept", "application/json"); ("User-Agent", "stamp-fact/1")].
Proof.
  unfold fact_request. destruct (url_Parse (fd_URL d)) as [u|] eqn:Eu; [|done].
  destruct (url_reparse _ _ (foldl with_param (URL_Query u) (zip (fd_Params d) args)) Eu) as (u' & -> & ? & ? & ? & ?).
  intros [= <-]. exists u. done.
Qed.

Lemma fetch_call_spec g p c f req out : hs_gate (fc_source c) = g → fetch_call p c = (f, Some (req, out)) →
  on_allowlist g (rq_URL req) ∧ out = client_Do g (fc_net c) p (rq_URL req).
Proof.
  intros Hg. unfold fetch_call, http_Fetch. rewrite Hg. destruct (CheckURL g _) as [[]|] eqn:Ec; [|done].
  destruct (fact_request _ _) as [rq|] eqn:Er; [|done]. intros [= _ <- <-]. split; [|done].
  apply CheckURL_Ok in Ec as (u & Hu & [Hn (o & Ho & Hin)] & _). apply fact_request_url in Er as (u' & Hu' & Hs & Hh & Hus & _). rewrite Hu in Hu'. injection Hu' as <-.
  split; [congruence|]. exists o. split; [|done]. rewrite <-Ho. by apply originOf_ext.
Qed.

Lemma run_calls_conn g calls p i c f req out conn : (∀ c, c ∈ calls → hs_gate (fc_source c) = g) →
  run_calls p calls !! i = Some (f, Some (req, out)) → calls !! i = Some c → oc_conn out = Some conn →
  (conn_key (rq_URL req), conn) ∈ p ∨
  ∃ j c' f' req' out', j <= i ∧ calls !! j = Some c' ∧ run_calls p calls !! j = Some (f', Some (req', out')) ∧
    conn_key (rq_URL req') = conn_key (rq_URL req) ∧ opens g (fc_net c') (rq_URL req') conn.
Proof.
  revert p i. induction calls as [|c0 calls IH]; intros p i Hg Hr Hc Hconn; [done|]. destruct i as [|i]; simpl in Hr, Hc.
  - injection Hc as <-. destruct (fetch_call_spec g p c0 f req out) as [_ ->]; [apply Hg; set_solver|congruence|].
    destruct (client_Do_spec g (fc_net c0) p (rq_URL req)) as (_ & Hcn & _). destruct (Hcn conn Hconn) as [?|Ho]; [by left|]. right.
    exists 0, c0, f, req, (client_Do g (fc_net c0) p (rq_URL req)). split_and!; [lia|done|simpl; congruence|done|done].
  - destruct (IH (pool_after p (fetch_call p c0)) i ltac:(set_solver) Hr Hc Hconn) as [Hp|(j & c' & f' & req' & out' & ? & ? & ? & ? & ?)].
    2: { right. exists (S j), c', f', req', out'. split_and!; try done. lia. }
    unfold pool_after in Hp. destruct (fetch_call p c0) as [f0 [[req0 out0]|]] eqn:E; simpl in Hp; [|by left].
    pose proof (fetch_call_spec g p c0 f0 req0 out0 ltac:(apply Hg; set_solver) E) as [_ ->].
    destruct (client_Do_spec g (fc_net c0) p (rq_URL req0)) as (_ & _ & Hpl). destruct (Hpl _ Hp) as [?|[Hk Ho]]; [by left|]. right. simpl in Hk, Ho.
    exists 0, c0, f0, req0, (client_Do g (fc_net c0) p (rq_URL req0)). split_and!; [lia|done|simpl; by rewrite E|done|done].
Qed.
End calls.

(** C36. Fact calls stay inside.  Over any sequence of fact calls through one gate, with a
    resolver that may answer differently every time and connections that may be reused,
    each request goes to an origin of the operator's allowlist and carries no
    credentials; every text handed to the system dialler is the literal of an address the
    gate admits, and it reads back as that address, so that nothing is left to resolve,
    when the address is one of 32 or 128 bits and its zone, if it has one, contains no
    bracket; and the connection a request goes out on leads to an admitted address and was
    opened by a dial, in this or an earlier call, for the same scheme and host.  Reading
    and printing URLs is the class [NetURL]; its one law is about encoded queries. *)
Theorem fact_calls_stay_inside `{NetURL, GoFmt, JsonText} g calls i c f req out :
  (∀ c, c ∈ calls → hs_gate (fc_source c) = g) → calls !! i = Some c → run_calls [] calls !! i = Some (f, Some (req, out)) →
  on_allowlist g (rq_URL req) ∧
  (∀ text, text ∈ oc_dialled out → ∃ ip port, text = AddrPort_String ip port ∧ admitted g ip ∧ (addr_wf ip → plain_zone ip → dial_target text = Some (ip, port))) ∧
  (∀ conn, oc_conn out = Some conn → admitted g (cn_peer conn) ∧
    ∃ j c' f' req' out', j <= i ∧ calls !! j = Some c' ∧ run_calls [] calls !! j = Some (f', Some (req', out')) ∧
      conn_key (rq_URL req') = conn_key (rq_URL req) ∧ opens g (fc_net c') (rq_URL req') conn).
Proof.
  intros Hg Hc Hr. assert (∃ p, fetch_call p c = (f, Some (req, out))) as [p Hf].
  { revert Hr Hc. clear Hg. generalize ([] : pool). revert i. induction calls as [|c0 calls IH]; intros i p Hr Hc; [done|]. destruct i as [|i]; simpl in *; [|by eapply IH].
    injection Hc as ->. injection Hr as Hr. by exists p. }
  destruct (fetch_call_spec g p c f req out) as [Ha Ho]; [apply Hg; by eapply list_elem_of_lookup_2|done|].
  split; [done|]. split.
  { intros text Ht. rewrite Ho in Ht. apply client_Do_spec in Ht as (ip & port & -> & Hu & Had & Hport). exists ip, port. split_and!; [done..|]. intros Hwf Hz.
    apply literal_names; try done. by apply CheckAddr_cases in Had as [? _]. }
  intros conn Hconn.
  destruct (run_calls_conn g calls [] i c f req out conn Hg Hr Hc Hconn) as [Hin|Hj]; [by apply not_elem_of_nil in Hin|]. split; [|done].
  destruct Hj as (j & c' & f' & req' & out' & _ & _ & _ & _ & Hop). by apply opens_admitted in Hop as [? _].
Qed.

(** ** Arguments *)

Section arguments.
Context `{GoFmt}.

Lemma with_param_lookup (q : Values) p a k : with_param q (p, a) !! k =
  if bool_decide (k = par_Name p) then match queryValues a with [] => None | vs => Some vs end else q !! k.
Proof.
  unfold with_param. cbn [fst snd]. assert (∀ vs q, foldl (λ q encoded, Values_Add q (par_Name p) encoded) q vs = foldl add_pair q (map (pair (par_Name p)) vs)) as ->.
  { induction vs as [|v vs IH]; intros q'; [done|]. apply IH. }
  unfold Values_Del. destruct (queryValues a) as [|v vs] eqn:E.
  - cbn [map foldl]. case_bool_decide; [subst; by rewrite lookup_delete_eq|by rewrite lookup_delete_ne].
  - rewrite add_values by done. rewrite lookup_delete_eq. cbn [default from_option id app]. case_bool_decide; [subst; by rewrite lookup_insert_eq|].
    rewrite lookup_insert_ne by done. by rewrite lookup_delete_ne.
Qed.

Lemma values_wf_Add q k v : values_wf q → values_wf (Values_Add q k v).
Proof.
  intros Hq k' vs. unfold Values_Add. destruct (decide (k' = k)) as [->|]; [rewrite lookup_insert_eq|rewrite lookup_insert_ne by done; apply Hq].
  intros [= <-]. by destruct (default [] (q !! k)).
Qed.

Lemma ParseQuery_wf s : values_wf (ParseQuery s).
Proof.
  unfold ParseQuery. assert (∀ ps q, values_wf q → values_wf (foldl (λ q p, match query_piece p with Some (k, v) => Values_Add q k v | None => q end) q ps)) as Hf.
  { induction ps as [|p ps IH]; intros q Hq; [done|]. apply IH. destruct (query_piece p) as [[k v]|]; [by apply values_wf_Add|done]. }
  apply Hf. intros k vs Hk. by rewrite lookup_empty in Hk.
Qed.

Lemma with_param_wf q pa : values_wf q → values_wf (with_param q pa).
Proof. intros Hq k vs. destruct pa as [p a]. rewrite with_param_lookup. case_bool_decide; [|apply Hq]. destruct (queryValues a); [done|]. by intros [= <-]. Qed.

Lemma with_params_lookup pas q k : NoDup (map (λ pa, par_Name pa.1) pas) →
  foldl with_param q pas !! k = match List.find (λ pa, bool_decide (k = par_Name pa.1)) pas with
                                | Some (_, a) => match queryValues a with [] => None | vs => Some vs end
                                | None => q !! k
                                end.
Proof.
  revert q. induction pas as [|[p a] pas IH]; intros q Hnd; [done|]. cbn [foldl map fst] in *. apply NoDup_cons in Hnd as [Hp Hnd]. rewrite IH by done. cbn [List.find fst].
  rewrite with_param_lookup. case_bool_decide as Hk; [|done]. subst. destruct (List.find _ pas) as [[p' a']|] eqn:E; [|done].
  apply find_some in E as [Hin He]. simpl in He. apply bool_decide_eq_true in He. exfalso. apply Hp, elem_of_map. exists (p', a'). split; [done|by apply list_elem_of_In].
Qed.
End arguments.

(** C40. A fact request carries its arguments unchanged.  For a declaration whose
    parameters have distinct names, called with an argument for each, what the endpoint
    reads from the query under the name of a parameter are the values of its argument, one
    per element of a list, whatever characters they have; every other key is as the
    declared URL has it. *)
Theorem request_carries_arguments `{NetURL, GoFmt} d args req u :
  fact_request d args = Ok req → url_Parse (fd_URL d) = Some u → NoDup (map par_Name (fd_Params d)) → length args = length (fd_Params d) →
  (∀ i p a, fd_Params d !! i = Some p → args !! i = Some a → default [] (URL_Query (rq_URL req) !! par_Name p) = queryValues a) ∧
  (∀ k, k ∉ map par_Name (fd_Params d) → URL_Query (rq_URL req) !! k = URL_Query u !! k).
Proof.
  intros Hr Hu Hnd Hlen. apply fact_request_url in Hr as (u' & Hu' & _ & _ & _ & Hq & _). rewrite Hu in Hu'. injection Hu' as <-.
  set (pas := zip (fd_Params d) args) in *. assert (map (λ pa, par_Name pa.1) pas = map par_Name (fd_Params d)) as Hn.
  { rewrite <-(map_map fst par_Name). f_equal. unfold pas. change (map fst ?l) with (l.*1). by apply fst_zip, Nat.eq_le_incl. }
  unfold URL_Query in *. rewrite Hq, ParseQuery_Encode.
  2: { clear. generalize (ParseQuery_wf (u_RawQuery u)). generalize (ParseQuery (u_RawQuery u)). induction pas as [|pa pas IH]; intros q Hw; [done|]. by apply IH, with_param_wf. }
  split.
  - intros i p a Hp Ha. rewrite with_params_lookup by (by rewrite Hn). destruct (List.find _ pas) as [[p' a']|] eqn:E.
    + apply find_some in E as [Hin He]. simpl in He. apply bool_decide_eq_true in He. apply list_elem_of_In in Hin.
      assert ((p, a) = (p', a')) as [= <- <-]; [|by destruct (queryValues a)].
      apply (NoDup_map_inj (λ pa, par_Name pa.1) pas); [by rewrite Hn| |done|done]. apply list_elem_of_lookup. exists i. unfold pas. rewrite lookup_zip_with, Hp. simpl. by rewrite Ha.
    + exfalso. assert ((p, a) ∈ pas) as Hin by (apply list_elem_of_lookup; exists i; unfold pas; rewrite lookup_zip_with, Hp; simpl; by rewrite Ha).
      apply list_elem_of_In, (find_none _ _ E) in Hin. simpl in Hin. by rewrite bool_decide_eq_true_2 in Hin.
  - intros k Hk. rewrite with_params_lookup by (by rewrite Hn). destruct (List.find _ pas) as [[p a]|] eqn:E; [|done]. exfalso.
    apply find_some in E as [Hin He]. simpl in He. apply bool_decide_eq_true in He as ->. apply Hk. rewrite <-Hn. apply elem_of_map. exists (p, a). split; [done|by apply list_elem_of_In].
Qed.

(** ** Answers *)

Lemma convert_scalar j t v : IsList t = false → convertValue j t = Some v → fv_Type v = t ∧ scalarMatches t (fv_Data v) = true.
Proof.
  intros Hl. destruct j; cbn [convertValue]; rewrite Hl; unfold scalarMatches, some_value, of_result; repeat case_bool_decide; subst; try done; intros Hv;
    repeat (apply bind_Some in Hv as (? & Hb & Hv); try (apply bind_Some in Hb as (? & _ & Hb))); simplify_eq; done.
Qed.

Lemma convertValue_typed j t v : Type_Valid t = true → convertValue j t = Some v → CheckType v t = true.
Proof.
  unfold Type_Valid. destruct (IsList t) eqn:Hl; intros Ht Hv; unfold CheckType.
  - assert (IsList (Elem t) = false) as He. { unfold IsScalar, ScalarTypes in Ht. apply existsb_true in Ht as (s & Hs & Hd). apply bool_decide_eq_true in Hd as ->.
      repeat (apply elem_of_cons in Hs as [->|Hs]; [done|]). by apply not_elem_of_nil in Hs. }
    destruct j as [| | | |items|]; cbn [convertValue] in Hv; rewrite Hl in Hv; try done. apply bind_Some in Hv as (data & Hd & [= <-]). cbn [fv_Type fv_Data].
    rewrite bool_decide_eq_false_2 by (intros Hn; by apply Hn). rewrite Hl. revert data Hd. induction items as [|item items IH]; intros data Hd; [by injection Hd as <-|].
    apply bind_Some in Hd as (w & Hw & Hd). apply bind_Some in Hd as (ws & Hws & [= <-]). cbn [forallb]. rewrite (IH ws Hws), andb_true_r.
    by apply convert_scalar in Hw as [_ ?].
  - apply convert_scalar in Hv as [<- Hm]; [|done]. rewrite bool_decide_eq_false_2 by (intros Hn; by apply Hn). by rewrite Hl.
Qed.

Lemma read_body_within maxBytes r body : (0 <= maxBytes)%Z → read_body maxBytes r = Ok body → (Z.of_nat (String.length body) <= maxBytes)%Z →
  body = rp_Body r ∧ rp_Broken r = false.
Proof.
  intros Hm. unfold read_body. destruct (Z.to_nat (maxBytes + 1) <=? String.length (rp_Body r)) eqn:E.
  - intros [= <-] Hb. apply Nat.leb_le in E. rewrite <-bytes_length, bytes_unbytes, length_take, bytes_length in Hb. lia.
  - destruct (rp_Broken r); [done|]. by intros [= <-].
Qed.

(** A value an http source gives is one its endpoint answered: a 200 whose whole body,
    within the cap, is an envelope that decodes to it, and it has the declared type; the
    target is on the allowlist.  A redirect, another status, a body that breaks off or is
    too long, or a value of another type gives a failure of the source. *)
Theorem http_value_sound `{NetURL, GoFmt, JsonText} s args n expired p v r :
  (0 <= hs_maxBytes s)%Z → Type_Valid (fd_Returns (hs_decl s)) = true → http_Fetch s args n expired p = (FetchValue v, r) →
  CheckType v (fd_Returns (hs_decl s)) = true ∧
  ∃ req resp, on_allowlist (hs_gate s) (rq_URL req) ∧ r = Some (req, client_Do (hs_gate s) n p (rq_URL req)) ∧
    oc_answer (client_Do (hs_gate s) n p (rq_URL req)) = Ok resp ∧ rp_Status resp = 200%Z ∧ rp_Broken resp = false ∧
    (Z.of_nat (String.length (rp_Body resp)) <= hs_maxBytes s)%Z ∧ decodeResponse (rp_Body resp) (fd_Returns (hs_decl s)) = Some v.
Proof.
  intros Hm Ht Hf. destruct r as [[req out]|].
  2: { unfold http_Fetch in Hf. destruct (CheckURL _ _); [|done]. by destruct (fact_request _ _). }
  pose proof (fetch_call_spec (hs_gate s) p (mkFactCall s args n expired) (FetchValue v) req out eq_refl Hf) as [Ha Ho]. simpl in Ho.
  assert (judge s expired (oc_answer out) = FetchValue v) as Hj.
  { unfold http_Fetch in Hf. destruct (CheckURL _ _); [|done]. destruct (fact_request _ _); [|done]. by injection Hf as Hj <- <-. }
  unfold judge in Hj. destruct (oc_answer out) as [resp|] eqn:Ea; [|done]. destruct (isRedirect _); [done|]. destruct (Z.eqb_spec (rp_Status resp) 200) as [Hs|]; [|done]. cbn [negb] in Hj.
  destruct (read_body _ resp) as [body|] eqn:Eb; [|done]. destruct (Z.ltb_spec (hs_maxBytes s) (Z.of_nat (String.length body))) as [|Hb]; [done|].
  destruct (decodeResponse body _) as [v'|] eqn:Ed; [|done]. injection Hj as ->. destruct (read_body_within _ _ _ Hm Eb Hb) as [-> Hbr]. split.
  - unfold decodeResponse in Ed. destruct (json_Decode _) as [[]|]; try done. apply bind_Some in Ed as (? & _ & Ed). apply bind_Some in Ed as (? & _ & Ed). by apply convertValue_typed in Ed.
  - exists req, resp. rewrite <-Ho. split_and!; done.
Qed.

(** ** The egress gate at work

    An instance of [NetURL] that reads URLs of the form scheme://authority/path?query, one
    of [JsonText] that reads a table, and concrete calls: a resolver that is rebound to
    the metadata address between two calls is refused, a pooled connection is not led
    astray by it. *)

(** ** Reading URLs *)

Lemma cut_at_spec c s b r : cut_at c s = (b, r) → c ∉ b ∧ s = b ++ match r with Some r => c :: r | None => [] end.
Proof.
  revert b r. induction s as [|a s IH]; intros b r; cbn [cut_at]; [intros [= <- <-]; split; [apply not_elem_of_nil|done]|].
  case_bool_decide as Ha; [intros [= <- <-]; subst; split; [apply not_elem_of_nil|done]|]. destruct (cut_at c s) as [b' r'] eqn:E. intros [= <- <-].
  destruct (IH b' r' eq_refl) as [Hn ->]. split; [|done]. apply not_elem_of_cons. done.
Qed.

Lemma cut_last_spec c s b r : cut_last c s = Some (b, r) → s = b ++ c :: r.
Proof.
  revert b. induction s as [|a s IH]; intros b; cbn [cut_last]; [done|]. destruct (cut_last c s) as [[b' r']|] eqn:E.
  - intros [= <- <-]. by rewrite (IH b').
  - case_bool_decide; [|done]. intros [= <- <-]. by subst.
Qed.

Module RefUrl.
Definition authority (auth : list ascii) : option string * string :=
  match cut_last "@" auth with Some (user, host) => (Some (unbytes user), unbytes host) | None => (None, unbytes auth) end.
Definition with_slash (p : option (list ascii)) : list ascii := match p with Some p => "/"%char :: p | None => [] end.
Definition query (q : option (list ascii)) : string := unbytes (default [] q).

Definition parse (raw : string) : option URL :=
  match cut_at ":" (bytes raw) with
  | (scheme, Some (a :: b :: rest)) =>
      if bool_decide (a = "/"%char) && bool_decide (b = "/"%char) then
        let '(before, q) := cut_at "?" rest in
        let '(auth, path) := cut_at "/" before in
        let '(user, host) := authority auth in
        Some (mkURL (unbytes scheme) "" user host (unbytes (with_slash path)) (query q) "")
      else None
  | _ => None
  end.

Definition print_authority (u : URL) : list ascii :=
  match u_User u with Some user => bytes user ++ "@"%char :: bytes (u_Host u) | None => bytes (u_Host u) end.
Definition print (u : URL) : string :=
  unbytes (bytes (u_Scheme u) ++ ":"%char :: "/"%char :: "/"%char :: (print_authority u ++ bytes (u_Path u)) ++ "?"%char :: bytes (u_RawQuery u)).

Definition default_port (u : URL) : string := if bool_decide (u_Scheme u = "https") then "443" else "80".
Definition addr (u : URL) : string :=
  let port := if bool_decide (Port u = "") then default_port u else Port u in
  if bool_decide (":"%char ∈ bytes (Hostname u)) then "[" +:+ Hostname u +:+ "]:" +:+ port else Hostname u +:+ ":" +:+ port.

Lemma authority_print auth user host u : authority auth = (user, host) → u_User u = user → u_Host u = host → print_authority u = auth.
Proof.
  unfold authority, print_authority. intros Ha -> ->. destruct (cut_last "@" auth) as [[us h]|] eqn:E; injection Ha as <- <-; rewrite ?bytes_unbytes; [|done].
  by apply cut_last_spec in E.
Qed.

#[export] Program Instance ref : NetURL := {| url_Parse := parse; URL_String := print; canonicalAddr := addr; EscapedPath := u_Path |}.
Next Obligation.
  intros raw u values. set (q := Values_Encode values). cbv zeta. clearbody q. unfold parse. destruct (cut_at ":" (bytes raw)) as [scheme [[|a [|b rest]]|]] eqn:E; try done. apply cut_at_spec in E as [Hs _].
  case_bool_decide; [|done]. case_bool_decide; [|done]. cbn [andb]. destruct (cut_at "?" rest) as [before q0] eqn:Eq. apply cut_at_spec in Eq as [Hq _].
  destruct (cut_at "/" before) as [auth path] eqn:Ep. destruct (authority auth) as [user host] eqn:Ea. intros [= <-].
  unfold print, with_RawQuery. cbn [u_Scheme u_Path u_RawQuery]. rewrite !bytes_unbytes. rewrite (authority_print auth user host) by done.
  rewrite cut_at_some by done. rewrite !bool_decide_eq_true_2 by done. cbn [andb].
  assert (auth ++ with_slash path = before) as -> by (apply cut_at_spec in Ep as [_ ->]; by destruct path).
  rewrite cut_at_some by done. rewrite Ep, Ea. eexists. split; [done|]. unfold query. cbn [default from_option id u_Scheme u_Host u_User u_RawQuery]. by rewrite unbytes_bytes.
Qed.
End RefUrl.

Module EgressDemo.
Import RefUrl.

#[export] Instance fmt : GoFmt := {| Sprint _ := "?" |}.
Definition body : string := "{value: 42}".
#[export] Instance table : JsonText := {| json_Decode s := if bool_decide (s = body) then Some (GObject [("value", GNumber "42")]) else None |}.

Definition cfg : EgressConfig := mkEgressConfig ["https://facts.example:443"; " http://10.0.0.7:8080/ "] false true 0.
Definition gate : EgressGate := mkEgressGate {["https://facts.example:443"; "http://10.0.0.7:8080"]} false true.
Definition decl (url : string) : Declaration :=
  mkFactDecl "score" SourceHTTP [mkParam "who" TypeString; mkParam "tags" (ListOf TypeString)] TypeInt OnErrorDeny 1 1 url None.
Definition source (url : string) : httpSource := mkHTTPSource (decl url) gate (maxResponseBytes cfg).
Definition args : list Value := [mkValue TypeString (VString "a&b=c d"); mkValue (ListOf TypeString) (VList [VString "x"; VString "y,z"])].

(** 203.0.113.9, and the metadata address as a mapped one. *)
Definition public : Addr := Addr4 (octets [203; 0; 113; 9]%Z).
Definition metadata : Addr := Addr6 (65535 * 2 ^ 32 + octets [169; 254; 169; 254])%Z "".
Definition net (reuse : bool) (answer : list Addr) : Net Response := mkNet reuse (λ _, Ok answer) (λ _, true) (Ok (mkResponse 200 body false)) true.
Definition call (reuse : bool) (answer : list Addr) : FactCall := mkFactCall (source "https://facts.example/score?v=1") args (net reuse answer) false.

(** A name that is rebound: the first call dials, the second goes out on the pooled
    connection, the third, which dials again, is refused, also when the forbidden address
    stands behind a permitted one. *)
Definition calls : list FactCall := [call true [public]; call true [metadata]; call false [public; metadata]].

Example gate_built : NewGate cfg = Ok gate.
Proof. vm_compute. reflexivity. Qed.

Example rebinding :
  map (λ r, (r.1, match r.2 with Some (_, out) => Some (oc_dialled out, from_option cn_peer AddrZero (oc_conn out)) | None => None end)) (run_calls [] calls) =
  [(FetchValue (mkValue TypeInt (VInt 42)), Some (["203.0.113.9:443"], public)); (FetchValue (mkValue TypeInt (VInt 42)), Some ([], public));
   (FetchFailure "score" FactEgressBlocked, Some ([], AddrZero))].
Proof. vm_compute. reflexivity. Qed.

Example targets : map (CheckURL gate) ["https://facts.example/x"; "HTTPS://Facts.Example:443/"; "https://facts.example:444/"; "https://user@facts.example/"; "http://10.0.0.7:8080"; "http://[::ffff:10.0.0.7]:8080"] =
  [Ok tt; Ok tt; Err [ErrBlocked]; Err [ErrBlocked]; Ok tt; Ok tt].
Proof. vm_compute. reflexivity. Qed.

Lemma gate_admits_dialable_witness : dialable gate public ∧ ¬ dialable gate metadata.
Proof.
  split.
  - refine (proj1 (proj2 (gate_admits_dialable gate public _)) _ _); [vm_compute; done|vm_compute; reflexivity|reflexivity].
  - intros Hd. apply (gate_admits_dialable gate metadata) in Hd; [by vm_compute in Hd|]. unfold addr_wf, metadata. vm_compute. done.
Defined.

Lemma fact_calls_stay_inside_witness : ∃ f req out, run_calls [] calls !! 1 = Some (f, Some (req, out)) ∧ on_allowlist gate (rq_URL req).
Proof.
  eexists _, _, _. split; [vm_compute; reflexivity|].
  refine (proj1 (fact_calls_stay_inside gate calls 1 (call true [metadata]) _ _ _ _ _ _)); [|done|vm_compute; reflexivity].
  intros c Hc. unfold calls in Hc. repeat (apply elem_of_cons in Hc as [->|Hc]; [done|]). by apply not_elem_of_nil in Hc.
Defined.

Lemma request_carries_arguments_witness : ∃ req, fact_request (decl "https://facts.example/score?v=1") args = Ok req ∧
  default [] (URL_Query (rq_URL req) !! "who") = ["a&b=c d"].
Proof.
  destruct (fact_request (decl "https://facts.example/score?v=1") args) as [req|] eqn:E; [|by vm_compute in E]. exists req. split; [done|].
  destruct (url_Parse "https://facts.example/score?v=1") as [u|] eqn:Eu; [|by vm_compute in Eu].
  refine (proj1 (request_carries_arguments _ _ _ u E Eu _ eq_refl) 0 (mkParam "who" TypeString) _ eq_refl eq_refl).
  apply (bool_decide_unpack _). vm_compute. exact I.
Defined.

Lemma http_value_sound_witness : CheckType (mkValue TypeInt (VInt 42)) TypeInt = true.
Proof.
  destruct (http_Fetch (source "https://facts.example/score?v=1") args (net true [public]) false []) as [f r] eqn:E.
  assert (f = FetchValue (mkValue TypeInt (VInt 42))) as -> by (vm_compute in E; by injection E as <- _).
  refine (proj1 (http_value_sound (source "https://facts.example/score?v=1") args (net true [public]) false [] _ r _ _ E)); vm_compute; done.
Defined.
End EgressDemo.
