(* ===== verification/VelocitySource.v ===== *)
(** * Velocity sources

    Models internal/stream/source.go: the load gate of velocity declarations, the
    freshness check, the lookup of a trailing aggregate and the split of a batch
    between this plane and the one behind it; then what an answer is worth. *)
From S2P Require Import Prelude GoLib Policy Json World Cel Engine Fact Velocity Limiter Ingest.

Notation VDecl := Ingest.Declaration.

(** ** Declarations *)

Definition VDecl_SourceDecl (d : VDecl) : SourceDecl :=
  mkSourceDecl (dc_Name d) SourceEvent (dc_Params d) (dc_Returns d) (default_OnError (dc_OnError d)).

Definition Declaration_MetricSpec (d : VDecl) : MetricSpec :=
  mkSpec (dc_Metric d) (dc_BucketWidth d) (dc_AllowDeduction d).

(** The last declaration of a metric wins; the result is sorted. *)
Definition MetricSpecsFor (decls : list VDecl) : list MetricSpec :=
  let seen := foldl (λ m d, <[dc_Metric d := Declaration_MetricSpec d]> m) (∅ : gmap string MetricSpec) decls in
  sort_by ms_Metric String.le (map snd (map_to_list seen)).

(** [Adapter]: its name, whether it reports lag at all, and the lag it reports now. *)
Record Adapter := mkAdapter { ad_Name : string; ad_ReportsLag : bool; ad_Lag : Time.t → option Time.duration }.

Definition ingest_Adapter (i : Ingest) : Adapter := mkAdapter (ig_name i) true (LagTracker_Lag (ig_lag i)).
Definition kafka_Adapter (k : Kafka) : Adapter := mkAdapter (kf_name k) true (LagTracker_Lag (kf_lag k)).
Definition memory_Adapter (m : MemoryAdapter) : Adapter := mkAdapter (mm_name m) (mm_reportsLag m) (Memory_Lag m).

(** ** The load gate *)

(** [vs_audit] is what the auditor was handed; without one nothing is. *)
Record Sources := mkSources {
  vs_agg : Aggregator; vs_adapters : gmap string Adapter; vs_decls : gmap string VDecl; vs_audit : option (list Failure) }.

Fixpoint add_adapters (adapters : list Adapter) (acc : gmap string Adapter) : result (gmap string Adapter) :=
  match adapters with
  | [] => Ok acc
  | a :: adapters =>
      match acc !! ad_Name a with
      | Some _ => Err [ErrLoad]
      | None => add_adapters adapters (<[ad_Name a := a]> acc)
      end
  end.

Definition with_deny (d : VDecl) : VDecl :=
  mkDecl (dc_Name d) (dc_Metric d) (dc_Adapter d) (dc_Window d) (dc_BucketWidth d) (dc_Freshness d) (dc_AllowDeduction d)
    (dc_Params d) (dc_Returns d) OnErrorDeny.

Definition velocity_resolve (agg : Aggregator) (adapters : gmap string Adapter) (d : VDecl) : result VDecl :=
  if negb (ValidIdent (dc_Name d)) then Err [ErrLoad]
  else if bool_decide (dc_Metric d = "") then Err [ErrLoad]
  else match agg !! dc_Metric d with
  | None => Err [ErrLoad]
  | Some spec =>
      if negb (dc_BucketWidth d =? ms_BucketWidth spec)%Z then Err [ErrLoad]
      else if negb (bool_decide (dc_AllowDeduction d = ms_AllowDeduction spec)) then Err [ErrLoad]
      else if (dc_Window d <=? 0)%Z then Err [ErrLoad]
      else if (dc_Window d <? dc_BucketWidth d)%Z then Err [ErrLoad]
      else if negb (Z.rem (dc_Window d) (dc_BucketWidth d) =? 0)%Z then Err [ErrLoad]
      else if (MaxDeclarableWindow <? dc_Window d)%Z then Err [ErrLoad]
      else if bool_decide (dc_Adapter d = "") then Err [ErrLoad]
      else match adapters !! dc_Adapter d with
      | None => Err [ErrLoad]
      | Some a =>
          if (dc_Freshness d <? 0)%Z then Err [ErrLoad]
          else if (0 <? dc_Freshness d)%Z && negb (ad_ReportsLag a) then Err [ErrLoad]
          else if negb (bool_decide (default_OnError (dc_OnError d) = OnErrorDeny)) then Err [ErrLoad]
          else match dc_Params d with
          | [p] => if negb (bool_decide (par_Type p = TypeString)) then Err [ErrLoad]
                   else if negb (ValidIdent (par_Name p)) then Err [ErrLoad]
                   else if negb (bool_decide (dc_Returns d = TypeDouble) || bool_decide (dc_Returns d = TypeInt)) then Err [ErrLoad]
                   else Ok (with_deny d)
          | _ => Err [ErrLoad]
          end
      end
  end.

(** Rejections are collected; any one refuses the whole set. *)
Fixpoint resolve_decls (agg : Aggregator) (adapters : gmap string Adapter) (ds : list VDecl) (errs : list error)
    (acc : gmap string VDecl) : result (gmap string VDecl) :=
  match ds with
  | [] => match errs with [] => Ok acc | _ => Err (concat errs) end
  | d :: ds =>
      match acc !! dc_Name d with
      | Some _ => resolve_decls agg adapters ds (errs ++ [[ErrLoad]]) acc
      | None =>
          match velocity_resolve agg adapters d with
          | Err e => resolve_decls agg adapters ds (errs ++ [e]) acc
          | Ok r => resolve_decls agg adapters ds errs (<[dc_Name d := r]> acc)
          end
      end
  end.

Definition NewSources (decls : list VDecl) (agg : option Aggregator) (adapters : list Adapter) (audit : bool) : result Sources :=
  match agg with
  | None => Err [ErrLoad]
  | Some agg =>
      let? ads := add_adapters adapters ∅ in
      let? ds := resolve_decls agg ads decls [] ∅ in
      Ok (mkSources agg ads ds (if audit then Some [] else None))
  end.

Definition Names (s : Sources) : list string := sort_by id String.le (map fst (map_to_list (vs_decls s))).

Definition Sources_Adapter (s : Sources) (name : string) : option Adapter :=
  match vs_decls s !! name with None => None | Some d => vs_adapters s !! dc_Adapter d end.

Definition Sources_Lag (s : Sources) (name : string) (now : Time.t) : option Time.duration :=
  match Sources_Adapter s name with None => None | Some a => ad_Lag a now end.

Definition sameEventSignature (configured declared : SourceDecl) : bool :=
  bool_decide (src_Returns configured = src_Returns declared) && bool_decide (src_Params configured = src_Params declared) &&
  bool_decide (default_OnError (src_OnError declared) = OnErrorDeny).

Definition Velocity_VerifySchema (s : Sources) (schema : option Schema) : result unit :=
  match schema with
  | None => Ok tt
  | Some sch =>
      if forallb (λ sd, match src_Kind sd with
                        | SourceEvent => match vs_decls s !! src_Name sd with
                                         | None => false
                                         | Some d => sameEventSignature (VDecl_SourceDecl d) sd
                                         end
                        | _ => true
                        end) (sch_Sources sch)
      then Ok tt else Err [ErrLoad]
  end.

(** ** Lookup *)

Definition checkFreshness (s : Sources) (d : VDecl) (now : Time.t) : option FactReason :=
  match vs_adapters s !! dc_Adapter d with
  | None => Some FactLagUnknown
  | Some a =>
      match ad_Lag a now with
      | None => Some FactLagUnknown
      | Some lag => if (dc_Freshness d <? lag)%Z then Some FactStale else None
      end
  end.

Definition velocity_failed (s : Sources) (name : string) (reason : FactReason) (now : Time.t) : (Value + Failure) * Sources :=
  let f := mkFailure name reason OnErrorDeny now in
  (inr f, mkSources (vs_agg s) (vs_adapters s) (vs_decls s) ((λ l, l ++ [f]) <$> vs_audit s)).

(** [query] says what happens to the database connection. *)
Definition Velocity_Lookup (s : Sources) (name : string) (args : list Value) (now record_now : Time.t) (query : fault) (db : VDB)
    : (Value + Failure) * Sources :=
  match vs_decls s !! name with
  | None => velocity_failed s name FactUnknownSource record_now
  | Some d =>
      match args with
      | [a] =>
          match (if bool_decide (fv_Type a = TypeString) then fv_Data a else VNil) with
          | VString subject =>
              match (if (0 <? dc_Freshness d)%Z then checkFreshness s d now else None) with
              | Some reason => velocity_failed s (dc_Name d) reason record_now
              | None =>
                  match query, Aggregator_Window (vs_agg s) (dc_Metric d) subject (dc_Window d) now db with
                  | NoFault, Ok w =>
                      (inl (if bool_decide (dc_Returns d = TypeInt) then mkValue TypeInt (VInt (bw_Count w))
                            else mkValue TypeDouble (VDouble (bw_Sum w))), s)
                  | _, _ => velocity_failed s name FactAggregate record_now
                  end
              end
          | _ => velocity_failed s name FactBadArgument record_now
          end
      | _ => velocity_failed s name FactBadArgument record_now
      end
  end.

(** ** Batches *)

(** The calls of a batch a plane serves, and the ones it passes on. *)
Definition split_calls (mine : SourceCall → bool) (calls : list SourceCall) : list SourceCall * list SourceCall :=
  (filter (λ c, mine c = true) calls, filter (λ c, mine c = false) calls).

(** The answers of the plane behind, taken over. *)
Fixpoint take_over (delegated : Facts) (calls : list SourceCall) (facts : Facts) : result Facts :=
  match calls with
  | [] => Ok facts
  | call :: calls =>
      match Facts_Value delegated call with
      | None => Err []
      | Some v => take_over delegated calls (Facts_Set facts call v)
      end
  end.

Definition delegate (fallback : option SourceResolver) (theirs : list SourceCall) : result Facts :=
  match theirs, fallback with
  | [], _ => Ok []
  | _, None => Err []
  | _, Some f => let? d := f theirs in take_over d theirs []
  end.

(** [clock] is the clock as each lookup of the batch reads it. *)
Fixpoint answer_mine (s : Sources) (clock : SourceCall → Time.t) (query : SourceCall → fault) (db : VDB) (calls : list SourceCall) (facts : Facts)
    : result Facts * Sources :=
  match calls with
  | [] => (Ok facts, s)
  | call :: calls =>
      match vs_decls s !! call_Name call, call_Args call with
      | Some d, [a] =>
          match dc_Params d with
          | p :: _ =>
              match Velocity_Lookup s (call_Name call) [mkValue (par_Type p) a] (clock call) (clock call) (query call) db with
              | (inr _, s') => (Err [], s')
              | (inl v, s') => answer_mine s' clock query db calls (Facts_Set facts call (fv_Data v))
              end
          | [] => (Err [], s)
          end
      | _, _ => (Err [], s)
      end
  end.

Definition Velocity_ResolveSources (s : Sources) (fallback : option SourceResolver) (clock : SourceCall → Time.t) (query : SourceCall → fault) (db : VDB)
    (calls : list SourceCall) : result Facts * Sources :=
  let '(mine, theirs) := split_calls (λ c, bool_decide (is_Some (vs_decls s !! call_Name c))) calls in
  match delegate fallback theirs with
  | Err e => (Err e, s)
  | Ok facts => answer_mine s clock query db mine facts
  end.

(** ** What a velocity source answers

    A lookup that answers did so over a lag known to be within the declared limit,
    and its number is the count, or the sum, of the buckets of the declared window;
    one that does not answer denies. *)
From S2P Require Import VelocitySpec.

Lemma add_adapters_spec adapters acc out :
  add_adapters adapters acc = Ok out →
  (∀ k a, acc !! k = Some a → ad_Name a = k) →
  ∀ k a, out !! k = Some a → ad_Name a = k ∧ (a ∈ adapters ∨ acc !! k = Some a).
Proof.
  revert acc. induction adapters as [|x adapters IH]; intros acc; simpl; [intros [= <-]; auto|].
  destruct (acc !! ad_Name x) eqn:E; [done|]. intros H Hacc k a Hk.
  apply (IH _ H) in Hk as [Hn [Hin|[[<- <-]|[_ Hk]]%lookup_insert_Some]]; [split; [done|left; by right]|split; [done|left; by left]|by auto|].
  intros k' a' [[<- <-]|[_ Hk']]%lookup_insert_Some; [done|by apply Hacc].
Qed.

(** What the load gate admits. *)
Record admitted (agg : Aggregator) (adapters : gmap string Adapter) (d : VDecl) : Prop := {
  vd_window : (0 < dc_Window d <= MaxDeclarableWindow)%Z;
  vd_whole : ∃ n, (dc_Window d = n * dc_BucketWidth d)%Z;
  vd_metric : ∃ spec, agg !! dc_Metric d = Some spec ∧ ms_BucketWidth spec = dc_BucketWidth d ∧ ms_AllowDeduction spec = dc_AllowDeduction d;
  vd_adapter : ∃ a, adapters !! dc_Adapter d = Some a ∧ ((0 < dc_Freshness d)%Z → ad_ReportsLag a = true);
  vd_returns : dc_Returns d = TypeDouble ∨ dc_Returns d = TypeInt;
  vd_denies : dc_OnError d = OnErrorDeny }.

Lemma velocity_resolve_Ok agg adapters d d' :
  velocity_resolve agg adapters d = Ok d' → d' = with_deny d ∧ admitted agg adapters d'.
Proof.
  unfold velocity_resolve. destruct (agg !! dc_Metric d) as [spec|] eqn:Es; [|by repeat case_match].
  destruct (adapters !! dc_Adapter d) as [a|] eqn:Ea; [|by repeat case_match].
  destruct (dc_Params d) as [|p [|? ?]]; [by repeat case_match| |by repeat case_match].
  repeat (case_match; [done|]). intros [= <-]. split; [done|].
  repeat match goal with
  | H : negb _ = false |- _ => apply negb_false_iff in H
  | H : bool_decide _ = true |- _ => apply bool_decide_eq_true in H
  end.
  split; simpl.
  - lia.
  - exists (Z.quot (dc_Window d) (dc_BucketWidth d)). pose proof (Z.quot_rem' (dc_Window d) (dc_BucketWidth d)). lia.
  - exists spec. split; [done|]. split; [lia|done].
  - exists a. split; [done|]. intros Hf. destruct (Z.ltb_spec 0 (dc_Freshness d)); [|lia]. by destruct (ad_ReportsLag a).
  - destruct (bool_decide (dc_Returns d = TypeDouble)) eqn:E1; [apply bool_decide_eq_true in E1; by left|].
    destruct (bool_decide (dc_Returns d = TypeInt)) eqn:E2; [apply bool_decide_eq_true in E2; by right|done].
  - done.
Qed.

Lemma resolve_decls_admitted agg adapters ds errs acc out :
  resolve_decls agg adapters ds errs acc = Ok out →
  ∀ k d, out !! k = Some d →
    acc !! k = Some d ∨ (dc_Name d = k ∧ admitted agg adapters d ∧ ∃ d0, d0 ∈ ds ∧ d = with_deny d0).
Proof.
  revert errs acc. induction ds as [|x ds IH]; intros errs acc; simpl; [destruct errs; [intros [= <-]; auto|done]|].
  assert (∀ errs' acc', resolve_decls agg adapters ds errs' acc' = Ok out → ∀ k d, out !! k = Some d →
    acc' !! k = Some d ∨ (dc_Name d = k ∧ admitted agg adapters d ∧ ∃ d0, d0 ∈ x :: ds ∧ d = with_deny d0)) as IH'.
  { intros errs' acc' Hr k d Hk. destruct (IH _ _ Hr k d Hk) as [?|(Hn & Ha & d0 & Hd0 & ->)]; [by left|]. right.
    split; [done|]. split; [done|]. exists d0. split; [by right|done]. }
  destruct (acc !! dc_Name x); [apply IH'|]. destruct (velocity_resolve agg adapters x) as [r|e] eqn:E; [|apply IH'].
  apply velocity_resolve_Ok in E as [-> Hadm]. intros Hr k d Hk.
  destruct (IH' _ _ Hr k d Hk) as [[[<- <-]|[_ ?]]%lookup_insert_Some|?]; [|by left|by right].
  right. split; [done|]. split; [done|]. exists x. split; [by left|done].
Qed.

(** The state of the plane between lookups: only the audit trail grows, if there is one. *)
Definition trail_le (a b : option (list Failure)) : Prop :=
  match a, b with Some l, Some l' => l `prefix_of` l' | None, None => True | _, _ => False end.
Definition velocity_le (s s' : Sources) : Prop :=
  vs_agg s' = vs_agg s ∧ vs_adapters s' = vs_adapters s ∧ vs_decls s' = vs_decls s ∧ trail_le (vs_audit s) (vs_audit s').

Lemma Velocity_Lookup_le s name args now rnow q db : velocity_le s (Velocity_Lookup s name args now rnow q db).2.
Proof.
  unfold Velocity_Lookup, velocity_failed, velocity_le. repeat case_match; simplify_eq/=; split_and!; try done; destruct (vs_audit s); simpl; try done; by apply prefix_app_r.
Qed.

(** A velocity limit is enforced on known, fresh and exact numbers.  Over the
    aggregate that any sequence of batches and sweeps left, with agreeing clocks and
    no sweep into the window, a lookup that answers names a loaded source whose
    window is a whole number of buckets within the longest declarable window; if the
    source declares a freshness limit, its adapter reports a lag within it; and an
    event count is exactly the number of applied events of that subject and metric in
    the buckets of the window.  A lookup that does not answer denies, and is handed to the
    auditor where there is one. *)
Theorem velocity_answer_sound decls agg ops adapters audit s0 s name args now rnow q out s' :
  NewSources decls (Some agg) adapters audit = Ok s0 → velocity_le s0 s → clocks_agree [] ops →
  let g := run_ops agg ops in
  (∀ d, vs_decls s0 !! name = Some d →
    ∀ h, h ∈ g_cut g → (h <= Time.trunc_us (BucketStart (now - dc_Window d) (dc_BucketWidth d)))%Z) →
  Velocity_Lookup s name args now rnow q (g_db g) = (out, s') →
  match out with
  | inr f => FailsClosed f = true ∧ vs_audit s' = (λ l, l ++ [f]) <$> vs_audit s
  | inl v =>
      ∃ d subject, vs_decls s0 !! name = Some d ∧ args = [mkValue TypeString (VString subject)] ∧
        (0 < dc_Window d <= MaxDeclarableWindow)%Z ∧ (∃ n, dc_Window d = n * dc_BucketWidth d)%Z ∧
        ((0 < dc_Freshness d)%Z → ∃ a lag, a ∈ adapters ∧ ad_Name a = dc_Adapter d ∧ ad_ReportsLag a = true ∧
          ad_Lag a now = Some lag ∧ (lag <= dc_Freshness d)%Z) ∧
        (dc_Returns d = TypeInt → fv_Data v = VInt (Z.of_nat (length (filter
          (counted subject (dc_Metric d) (Z.quot (dc_BucketWidth d) Time.Second)
             (BucketStart (now - dc_Window d) (dc_BucketWidth d)) (now + MaxClockSkew)%Z) (g_hist g)))))
  end.
Proof.
  intros Hnew (Hagg & Hads & Hdecls & _) Hclk g Hcut HL.
  unfold NewSources in Hnew. apply res_bind_Ok in Hnew as (ads & Hads0 & (ds & Hds0 & [= <-])%res_bind_Ok). simpl in *.
  assert (∀ nm reason t, velocity_failed s nm reason t = (out, s') →
    match out with inr f => FailsClosed f = true ∧ vs_audit s' = (λ l, l ++ [f]) <$> vs_audit s | inl _ => False end) as Hfail.
  { intros nm reason t [= <- <-]. by simpl. }
  assert (∀ X, (match out with inr f => FailsClosed f = true ∧ vs_audit s' = (λ l, l ++ [f]) <$> vs_audit s | inl _ => False end) →
    match out with inr f => FailsClosed f = true ∧ vs_audit s' = (λ l, l ++ [f]) <$> vs_audit s | inl v => X v end) as Hweak by (destruct out; done).
  unfold Velocity_Lookup in HL. rewrite Hdecls, Hagg in HL.
  destruct (ds !! name) as [d|] eqn:Ed; [|by eapply Hweak, Hfail].
  destruct (resolve_decls_admitted _ _ _ _ _ _ Hds0 name d Ed) as [?|(Hn & Hadm & _)]; [by rewrite lookup_empty in *|].
  destruct args as [|[t v] [|? ?]]; [by eapply Hweak, Hfail| |by eapply Hweak, Hfail]. simpl in HL.
  destruct (bool_decide (t = TypeString)) eqn:Et; [apply bool_decide_eq_true in Et as ->|by eapply Hweak, Hfail].
  destruct v as [| | | | | |subject| | | |]; try by eapply Hweak, Hfail.
  destruct (if (0 <? dc_Freshness d)%Z then checkFreshness s d now else None) as [reason|] eqn:Ef; [by eapply Hweak, Hfail|].
  destruct q; [|by eapply Hweak, Hfail..].
  destruct (Aggregator_Window agg (dc_Metric d) subject (dc_Window d) now (g_db g)) as [w|] eqn:Ew; [|by eapply Hweak, Hfail].
  injection HL as <- _. exists d, subject. destruct Hadm as [Hwin Hwhole (spec & Hspec & Hwidth & _) (a & Ha & Hlag) _ _].
  split; [done|]. split; [done|]. split; [done|]. split; [done|]. split.
  - intros Hf. rewrite (proj2 (Z.ltb_lt 0 (dc_Freshness d)) Hf) in Ef. unfold checkFreshness in Ef. rewrite Hads, Ha in Ef.
    destruct (ad_Lag a now) as [lag|] eqn:El; [|done]. destruct (Z.ltb_spec (dc_Freshness d) lag); [done|].
    destruct (add_adapters_spec _ _ _ Hads0 ltac:(intros ? ?; by rewrite lookup_empty) _ _ Ha) as [Hname [Hin|?]]; [|by rewrite lookup_empty in *].
    exists a, lag. auto.
  - intros Hint. rewrite bool_decide_eq_true_2 by done. simpl. f_equal.
    specialize (Hcut d eq_refl). rewrite <-Hwidth in Hcut |- *.
    by apply (window_counts agg ops (dc_Metric d) subject (dc_Window d) now spec w Hclk Hspec Hcut).
Qed.

(** ** A deployment *)

Module VelocitySourceDemo.
Import VelocityDemo.

Definition logins : VDecl :=
  mkDecl "logins" "login" "in" (7 * 24 * Hour)%Z Hour (5 * Time.Minute)%Z false [mkParam "subject" TypeString] TypeInt OnErrorUnset.

(** An adapter whose last confirmed event was produced [at_]. *)
Definition adapter (at_ : Time.t) : Adapter := mkAdapter "in" true (LagTracker_Lag at_).

Definition sources (at_ : Time.t) : Sources :=
  match NewSources [logins] (Some metrics) [adapter at_] true with Ok s => s | Err _ => mkSources ∅ ∅ ∅ None end.

Definition alice : list Value := [mkValue TypeString (VString "alice")].

(** Three events, a minute of lag: the count; an hour of lag: denied. *)
Lemma velocity_answer_sound_witness :
  let g := run_ops metrics ops in
  let now := (day 101 + Time.Minute)%Z in
  let fresh := Velocity_Lookup (sources (day 101)) "logins" alice now now NoFault (g_db g) in
  let stale := Velocity_Lookup (sources (day 100)) "logins" alice now now NoFault (g_db g) in
  fresh.1 = inl (mkValue TypeInt (VInt 3)) ∧ stale.1 = inr (mkFailure "logins" FactStale OnErrorDeny now) ∧
  ∃ d, vs_decls (sources (day 101)) !! "logins" = Some d.
Proof.
  intros g now fresh stale. assert (fresh.1 = inl (mkValue TypeInt (VInt 3))) as Hf by (vm_compute; reflexivity).
  split; [exact Hf|]. split; [vm_compute; reflexivity|].
  pose proof (velocity_answer_sound [logins] metrics ops [adapter (day 101)] true (sources (day 101)) (sources (day 101)) "logins" alice
    now now NoFault fresh.1 fresh.2) as H. rewrite Hf in H. destruct H as (d & _ & Hd & _).
  - reflexivity.
  - split_and!; try reflexivity; vm_compute; exists []; reflexivity.
  - simpl. repeat split; repeat constructor; vm_compute; discriminate.
  - intros d Hd h Hh. vm_compute in Hd. injection Hd as <-.
    assert (Forall (λ h, (h <= Time.trunc_us (BucketStart (now - 7 * 24 * Hour) Hour))%Z) (g_cut (run_ops metrics ops))) as Hc
      by (repeat constructor; vm_compute; discriminate).
    rewrite Forall_forall in Hc. by apply Hc.
  - rewrite <-Hf. apply surjective_pairing.
  - exists d. exact Hd.
Defined.

End VelocitySourceDemo.
