(* ===== verification/Challenge.v ===== *)
(** * The challenge contract

    Models internal/challenge/contract.go (states, requests, the handler interface
    and the registry) and what the handlers read of an authenticated subject
    (internal/identity/workload.go). *)
From S2P Require Import Prelude GoLib Policy Json Store World.
Import Strings.

(** ** Callers *)

Inductive SubjectKind := SubjectUser | SubjectWorkload | SubjectOther (s : string).

#[export] Instance SubjectKind_eq_dec : EqDecision SubjectKind.
Proof. solve_decision. Defined.

Definition SubjectKind_string (k : SubjectKind) : string :=
  match k with SubjectUser => "user" | SubjectWorkload => "workload" | SubjectOther s => s end.

(** An authenticated caller; a certificate carries no claims.  [su_AuthTime] is the
    zero time for a token that reports none. *)
Record Subject := mkSubject {
  su_Kind : SubjectKind; su_Issuer : string; su_ID : string; su_ClientID : string; su_Audience : list string;
  su_AuthTime : Time.t; su_ACR : string; su_AMR : list string; su_claims : option json }.

Definition CallerID (s : Subject) : string :=
  SubjectKind_string (su_Kind s) +:+ ":" +:+ su_Issuer s +:+ "#" +:+ su_ID s.

(** ** Requests and answers *)

Record Instance_ := mkInstance { i_DecisionID : string; i_Ordinal : Z; i_Kind : ChallengeType }.

Record DecisionContext := mkContext {
  dc_DecisionID : string; dc_CallerID : string; dc_SubjectID : string; dc_ResourceID : string;
  dc_Action : string; dc_PolicyID : string;
  dc_Request : json; dc_FactSnapshot : json; dc_Obligations : json;
  dc_CreatedAt : Time.t; dc_ExpiresAt : Time.t }.

Record IssueRequest := mkIssueRequest {
  ir_Instance : Instance_; ir_Spec : Challenge; ir_Decision : DecisionContext; ir_Now : Time.t }.

Record IssueResult := mkIssueResult {
  is_State : CState; is_Detail : option json; is_Deadline : option Time.t;
  is_Shed : bool; is_RetryAfter : Time.duration }.

(** [sr_Submitter] is nil for an unauthenticated submission; an absent payload is
    [None]. *)
Record SubmitRequest := mkSubmitRequest {
  sr_Instance : Instance_; sr_Decision : DecisionContext; sr_Detail : json;
  sr_Submitter : option Subject; sr_Payload : option json; sr_Now : Time.t }.

Record SubmitResult := mkSubmitResult {
  so_State : CState; so_Have : Z; so_Need : Z; so_Detail : option json }.

Record StatusRequest := mkStatusRequest {
  st_Instance : Instance_; st_Decision : DecisionContext; st_Detail : json;
  st_Stored : CState; st_Deadline : option Time.t; st_Now : Time.t }.

Record Status := mkStatus {
  ss_State : CState; ss_Have : Z; ss_Need : Z; ss_Deadline : option Time.t;
  ss_Detail : option json; ss_Shed : bool }.

Record TargetRequest := mkTargetRequest {
  tr_Instance : Instance_; tr_Decision : DecisionContext; tr_Detail : json; tr_Subject : option Subject }.

Record ViewRequest := mkViewRequest {
  vr_Instance : Instance_; vr_Decision : DecisionContext; vr_Detail : json; vr_Now : Time.t }.

Record View := mkView { v_AuthorizationURL : string }.

Record RedeemRequest := mkRedeemRequest {
  rr_Instance : Instance_; rr_Decision : DecisionContext; rr_Detail : json;
  rr_Params : gmap string string; rr_Now : Time.t }.

Record Redemption := mkRedemption { rd_Credential : string; rd_Payload : json }.

(** ** Handlers

    The [Handler] interface and the optional interfaces a handler may implement
    as well ([Targeter], [Viewer], [Redeemer]). *)
Record Handler := mkHandler {
  h_Kind : ChallengeType;
  h_Issue : IssueRequest → M IssueResult;
  h_Submit : SubmitRequest → M SubmitResult;
  h_Status : StatusRequest → M Status;
  h_IsTarget : option (TargetRequest → M bool);
  h_View : option (ViewRequest → M View);
  h_Redeem : option (RedeemRequest → M Redemption) }.

(** What the decision service needs of a handler to keep an invariant of the
    store: none of its calls breaks it. *)
Class HandlerKeeps (I : DB → Prop) (h : Handler) : Prop := {
  hk_issue : ∀ r, keeps I (h_Issue h r);
  hk_submit : ∀ r, keeps I (h_Submit h r);
  hk_status : ∀ r, keeps I (h_Status h r);
  hk_target : ∀ f r, h_IsTarget h = Some f → keeps I (f r);
  hk_view : ∀ f r, h_View h = Some f → keeps I (f r);
  hk_redeem : ∀ f r, h_Redeem h = Some f → keeps I (f r) }.

(** A call that leaves the store alone: whatever it answers, and whatever randomness it
    draws, it runs no transaction. *)
Definition aloof {A} (m : M A) : Prop := ∀ w, w_db (m w).2 = w_db w ∧ w_steps (m w).2 = w_steps w.

(** A handler none of whose calls touches the store. *)
Class Aloof (h : Handler) : Prop := {
  al_issue : ∀ r, aloof (h_Issue h r);
  al_submit : ∀ r, aloof (h_Submit h r);
  al_status : ∀ r, aloof (h_Status h r);
  al_target : ∀ f r, h_IsTarget h = Some f → aloof (f r);
  al_view : ∀ f r, h_View h = Some f → aloof (f r);
  al_redeem : ∀ f r, h_Redeem h = Some f → aloof (f r) }.

Lemma aloof_lift {A} (r : result A) : aloof (lift r).
Proof. by intros w. Qed.

Lemma aloof_triple {A} (m : M A) (P E : DB → Prop) : aloof m → (∀ db, P db → E db) → triple P m (λ _, P) E.
Proof.
  intros Hm HE w Hc Hp. destruct (Hm w) as [Hd Hs]. unfold calm in *. rewrite Hs, Hd.
  split; [done|]. destruct (m w).1; auto.
Qed.

(** What every answer of an aloof call has, next to what the store keeps. *)
Lemma aloof_triple_answers {A} (m : M A) (φ : A → Prop) (P E : DB → Prop) :
  aloof m → (∀ w a, (m w).1 = Ok a → φ a) → (∀ db, P db → E db) → triple P m (λ a db, P db ∧ φ a) E.
Proof.
  intros Hm Hφ HE w Hc Hp. destruct (aloof_triple m P E Hm HE w Hc Hp) as [Hc' Hr]. split; [done|].
  destruct (m w).1 eqn:Em; [|done]. split; [done|]. by eapply Hφ.
Qed.

#[export] Instance Aloof_keeps I h : Aloof h → HandlerKeeps I h.
Proof.
  intros Ha. assert (∀ A (m : M A), aloof m → keeps I m) as Hk.
  { intros A m Hm w Hw Hr. destruct (Hm w) as [Hd Hs]. unfold rely in *. by rewrite Hd, Hs. }
  split; intros; apply Hk; [apply al_issue|apply al_submit|apply al_status|by eapply al_target|by eapply al_view|by eapply al_redeem].
Qed.

(** ** The registry *)

Definition Registry := list (ChallengeType * Handler).

Definition Registry_lookup (r : Registry) (k : ChallengeType) : option Handler :=
  (λ p, p.2.2) <$> list_find (λ kv, kv.1 = k) r.

Definition Register (r : Registry) (h : Handler) : result Registry :=
  if negb (ChallengeType_Valid (h_Kind h)) then Err []
  else match Registry_lookup r (h_Kind h) with
  | Some _ => Err [ErrDuplicateHandler]
  | None => Ok (r ++ [(h_Kind h, h)])
  end.

Fixpoint register_all (r : Registry) (hs : list Handler) : result Registry :=
  match hs with
  | [] => Ok r
  | h :: hs => let? r' := Register r h in register_all r' hs
  end.
Definition NewRegistry (hs : list Handler) : result Registry := register_all [] hs.

Definition Registry_Handler (r : Registry) (k : ChallengeType) : result Handler :=
  match Registry_lookup r k with Some h => Ok h | None => Err [ErrNoHandler] end.

Definition Kinds (r : Registry) : list ChallengeType :=
  List.filter (λ k, bool_decide (is_Some (Registry_lookup r k))) ChallengeTypes.

Lemma Registry_lookup_elem r k h : Registry_lookup r k = Some h → (k, h) ∈ r.
Proof.
  unfold Registry_lookup. intros ([i [k' h']] & Hf & Eh)%fmap_Some. simpl in Eh. subst h'.
  apply list_find_Some in Hf as (Hi & Ek & _). simpl in Ek. subst k'. by eapply list_elem_of_lookup_2.
Qed.

Lemma register_all_spec r hs r' :
  register_all r hs = Ok r' → (∀ k h, (k, h) ∈ r → h_Kind h = k ∧ ChallengeType_Valid k = true) → NoDup (map fst r) →
  r' = r ++ map (λ h, (h_Kind h, h)) hs ∧ NoDup (map fst r') ∧
  (∀ k h, (k, h) ∈ r' → h_Kind h = k ∧ ChallengeType_Valid k = true).
Proof.
  revert r. induction hs as [|h hs IH]; intros r; simpl.
  { intros [= <-] ? ?. by rewrite app_nil_r. }
  intros (r1 & H1 & H2)%res_bind_Ok Hk Hnd. unfold Register in H1.
  destruct (ChallengeType_Valid (h_Kind h)) eqn:Ev; [|done]. simpl in H1.
  destruct (Registry_lookup r (h_Kind h)) as [|] eqn:El; [done|]. injection H1 as <-.
  destruct (IH _ H2) as (-> & Hnd' & Hk').
  - intros k x [Hx|[= -> ->]%list_elem_of_singleton]%elem_of_app; [by apply Hk|done].
  - rewrite map_app. apply NoDup_app. split_and!; [done| |apply NoDup_singleton].
    intros k Hin. simpl. rewrite list_elem_of_singleton. intros ->.
    apply elem_of_map in Hin as ([k x] & Ek & Hin). simpl in Ek.
    unfold Registry_lookup in El. apply fmap_None, list_find_None in El.
    rewrite Forall_forall in El. by apply (El (k, x) Hin).
  - split_and!; try done. by rewrite <-(assoc_L (++)).
Qed.

(** A registry answers for exactly the kinds it was built with: if it is built,
    no two handlers declared one kind, every handler's kind is one the policy
    language has, and looking a kind up gives the handler that declared it. *)
Theorem NewRegistry_spec hs r :
  NewRegistry hs = Ok r →
  NoDup (map h_Kind hs) ∧ (∀ h, h ∈ hs → h_Kind h ∈ ChallengeTypes) ∧
  ∀ k h, Registry_Handler r k = Ok h ↔ h ∈ hs ∧ h_Kind h = k.
Proof.
  intros Hr. destruct (register_all_spec [] hs r Hr) as (-> & Hnd & Hk); [set_solver|constructor|].
  simpl in *. rewrite map_map in Hnd. simpl in Hnd. split_and!; [done| |].
  - intros h Hh. destruct (Hk (h_Kind h) h) as [_ Hv]; [apply elem_of_map; eauto|]. by apply contains_spec.
  - intros k h. unfold Registry_Handler. split.
    + destruct (Registry_lookup _ k) as [x|] eqn:E; [|done]. intros [= ->].
      apply Registry_lookup_elem in E. apply elem_of_map in E as (y & [= -> ->] & Hy). done.
    + intros [Hh <-]. destruct (Registry_lookup _ (h_Kind h)) as [x|] eqn:E.
      * apply Registry_lookup_elem in E. apply elem_of_map in E as (y & [= Ey ->] & Hy). f_equal.
        apply list_elem_of_lookup in Hh as [i Hi]. apply list_elem_of_lookup in Hy as [j Hj].
        assert (i = j) as <-; [|congruence]. apply (NoDup_lookup (map h_Kind hs) i j (h_Kind h)); [done|..];
          rewrite list_lookup_fmap; [by rewrite Hi|by rewrite Hj; simpl; f_equal].
      * exfalso. unfold Registry_lookup in E. apply fmap_None, list_find_None in E. rewrite Forall_forall in E.
        apply (E (h_Kind h, h)); [apply elem_of_map; eauto|done].
Qed.
