(* ===== verification/Quorum.v ===== *)
(** * The quorum handler

    Models internal/challenge/quorum.go.  Group resolution is an external system
    and an argument.  The digest of a JSON document (SHA-256 over its encoding, in
    hex) is the method of a class: what is used of it is its length, and, where a
    theorem says so, that it does not collide. *)
From Stdlib Require Import Ascii.
From S2P Require Import Prelude GoLib Policy Json Store World Challenge.
Import Strings.

(** 32 bytes as [hex.EncodeToString] writes them. *)
Definition lower_hex (s : string) : bool :=
  (String.length s =? 64)%nat && forallb (λ a, is_digit a || in_range a 97 102) (bytes s).

Class Digest := {
  digest_json : json → string;
  digest_json_hex : ∀ j, lower_hex (digest_json j) = true;
  digest_labelled : string → json → string;
  digest_labelled_length : ∀ l j, String.length (digest_labelled l j) = 64 }.

(** ** Text *)

Definition lower (a : ascii) : ascii :=
  let n := nat_of_ascii a in if (65 <=? n)%nat && (n <=? 90)%nat then ascii_of_nat (n + 32) else a.
Definition ToLower (s : string) : string := unbytes (map lower (bytes s)).

(** [strings.EqualFold] on the ASCII digests it is used for. *)
Definition EqualFold (s t : string) : bool := bool_decide (ToLower s = ToLower t).

Definition is_hex (a : ascii) : bool := is_digit a || in_range a 97 102 || in_range a 65 70.
Definition valid_hex (s : string) : bool :=
  Nat.even (String.length s) && forallb is_hex (bytes s).

(** ** Resolution modes and details *)

Definition ResolveMembers : string := "members".
Definition ResolveClaim : string := "claim".
Definition ResolveGroupSource : string := "source".

Record QuorumDetail := mkQuorumDetail {
  qd_Threshold : Z; qd_Mode : string; qd_Issuer : string; qd_Members : list string;
  qd_Claim : string; qd_Source : string; qd_BindingHash : string }.

Definition encodeQuorumDetail (d : QuorumDetail) : json :=
  JObj ([("threshold", JInt (qd_Threshold d)); ("mode", JStr (qd_Mode d)); ("issuer", JStr (qd_Issuer d))] ++
        opt_strings "members" (qd_Members d) ++ opt_string "claim" (qd_Claim d) ++
        opt_string "source" (qd_Source d) ++ [("binding_hash", JStr (qd_BindingHash d))]).

Definition unmarshalQuorumDetail (raw : json) : result QuorumDetail :=
  let? fs := fields_of raw in
  let? th := dec_int (field "threshold" fs) in
  let? mode := dec_string (field "mode" fs) in
  let? issuer := dec_string (field "issuer" fs) in
  let? members := dec_strings (field "members" fs) in
  let? claim := dec_string (field "claim" fs) in
  let? source := dec_string (field "source" fs) in
  let? hash := dec_string (field "binding_hash" fs) in
  Ok (mkQuorumDetail th mode issuer members claim source hash).

Definition decodeQuorumDetail (raw : json) : result QuorumDetail :=
  match unmarshalQuorumDetail raw with
  | Err _ => Err [ErrInvalidPayload]
  | Ok d => if bool_decide (qd_Mode d = "") then Err [ErrInvalidPayload] else Ok d
  end.

Definition normalizeMembers (members : list string) : list string := trimmed_set members.

(** ** The approver set *)

Record ApproverGroup := mkGroup { ag_Issuer : string; ag_Members : list string }.
Definition GroupResolver := string * list Operand → DecisionContext → result ApproverGroup.

(** [qc_Store] says whether the handler was given a store. *)
Record QuorumConfig := mkQuorumConfig {
  qc_Store : bool; qc_Groups : option GroupResolver; qc_Issuer : string }.

Definition NewQuorum (audit db : bool) (groups : option GroupResolver) (issuer : string) : result QuorumConfig :=
  if bool_decide (audit ≠ db) then Err [] else Ok (mkQuorumConfig audit groups (TrimSpace issuer)).

Definition resolve_set (q : QuorumConfig) (spec : Quorum) (dec : DecisionContext) : result QuorumDetail :=
  let set := q_Approvers spec in
  let th := q_Threshold spec in
  match as_Source set with
  | Some src =>
      match qc_Groups q with
      | None => Err [ErrUnsupportedSpec; ErrGroupSourceUnsupported]
      | Some groups =>
          let? g := groups src dec in
          Ok (mkQuorumDetail th ResolveGroupSource (TrimSpace (ag_Issuer g)) (normalizeMembers (ag_Members g)) "" src.1 "")
      end
  | None =>
      if bool_decide (as_Claim set ≠ "")
      then Ok (mkQuorumDetail th ResolveClaim (qc_Issuer q) [] (as_Claim set) "" "")
      else Ok (mkQuorumDetail th ResolveMembers (qc_Issuer q) (normalizeMembers (as_Members set)) "" "" "")
  end.

Definition quorum_resolve (q : QuorumConfig) (spec : Quorum) (dec : DecisionContext) : result QuorumDetail :=
  if (q_Threshold spec <? 1)%Z then Err [ErrUnsupportedSpec]
  else
    let? detail := resolve_set q spec dec in
    if bool_decide (qd_Issuer detail = "") then Err [ErrUnsupportedSpec; ErrApproverIssuerUndesignated]
    else if negb (bool_decide (qd_Mode detail = ResolveClaim)) &&
            (Z.of_nat (length (qd_Members detail)) <? qd_Threshold detail)%Z
    then Err [ErrUnsupportedSpec]
    else Ok detail.

Definition approverID (s : option Subject) : result string :=
  match s with
  | None => Err [ErrNotTarget]
  | Some s =>
      if negb (bool_decide (su_Kind s = SubjectUser)) then Err [ErrNotTarget]
      else if bool_decide (TrimSpace (su_ID s) = "") then Err [ErrNotTarget]
      else Ok (su_ID s)
  end.

Definition assertsClaim (s : Subject) (name : string) : bool :=
  if bool_decide (name = "") then false
  else match su_claims s with
  | Some (JObj fs) =>
      match field name fs with
      | None | Some JNull => false
      | Some (JBool b) => b
      | Some (JStr v) => bool_decide (TrimSpace v ≠ "")
      | Some (JTime _) => true
      | Some (JInt z) => negb (z =? 0)%Z
      | Some (JFloat f) => negb (Float64.eqb f (Float64.Fin 0 0))
      | Some (JArr l) => bool_decide (0 < length l)
      | Some (JObj l) => bool_decide (0 < length l)
      end
  | _ => false
  end.

Definition isTarget (detail : QuorumDetail) (s : option Subject) : result bool :=
  match approverID s, s with
  | Err _, _ | _, None => Ok false
  | Ok _, Some s =>
      if bool_decide (qd_Issuer detail = "") || negb (bool_decide (su_Issuer s = qd_Issuer detail)) then Ok false
      else if contains [ResolveMembers; ResolveGroupSource] (qd_Mode detail)
      then Ok (contains (qd_Members detail) (su_ID s))
      else if bool_decide (qd_Mode detail = ResolveClaim) then Ok (assertsClaim s (qd_Claim detail))
      else Err [ErrInvalidPayload]
  end.

(** ** The binding hash *)

Definition ApprovalBindingContext : string := "stamp.approval-binding.v1".

Section quorum.
Context `{Digest}.

Definition binding_approvers (detail : QuorumDetail) : result json :=
  let base := [("mode", JStr (qd_Mode detail)); ("issuer", JStr (qd_Issuer detail))] in
  let members := ("members", JArr (map JStr (normalizeMembers (qd_Members detail)))) in
  if bool_decide (qd_Mode detail = ResolveClaim) then Ok (JObj (base ++ [("claim", JStr (qd_Claim detail))]))
  else if bool_decide (qd_Mode detail = ResolveGroupSource)
  then Ok (JObj (base ++ [("source", JStr (qd_Source detail)); members]))
  else if bool_decide (qd_Mode detail = ResolveMembers) then Ok (JObj (base ++ [members]))
  else Err [ErrInvalidPayload].

Definition binding_material (dec : DecisionContext) (detail : QuorumDetail) : result json :=
  let? approvers := binding_approvers detail in
  Ok (JObj
    [("binding", JStr ApprovalBindingContext);
     ("decision", JObj
        [("id", JStr (dc_DecisionID dec)); ("caller_id", JStr (dc_CallerID dec));
         ("subject_id", JStr (dc_SubjectID dec)); ("resource_id", JStr (dc_ResourceID dec));
         ("action", JStr (dc_Action dec)); ("policy_id", JStr (dc_PolicyID dec))]);
     ("request", decodeJSON (dc_Request dec)); ("fact_snapshot", decodeJSON (dc_FactSnapshot dec));
     ("obligations", decodeJSON (dc_Obligations dec));
     ("challenge", JObj [("kind", JStr (ChallengeType_string ChallengeQuorum)); ("approvers", approvers)])]).

Definition ApprovalBindingHash (dec : DecisionContext) (detail : QuorumDetail) : result string :=
  let? m := binding_material dec detail in Ok (digest_json m).

Definition with_hash (d : QuorumDetail) (h : string) : QuorumDetail :=
  mkQuorumDetail (qd_Threshold d) (qd_Mode d) (qd_Issuer d) (qd_Members d) (qd_Claim d) (qd_Source d) h.

(** ** Issue *)

Definition quorum_issue (q : QuorumConfig) (req : IssueRequest) : result IssueResult :=
  match ir_Spec req with
  | CQuorum spec =>
      let? detail := quorum_resolve q spec (ir_Decision req) in
      let? sum := ApprovalBindingHash (ir_Decision req) detail in
      Ok (mkIssueResult StatePending (Some (encodeQuorumDetail (with_hash detail sum))) None false 0%Z)
  | _ => Err [ErrUnsupportedSpec]
  end.

(** ** Submit *)

Record QuorumSubmission := mkQuorumSubmission { qs_Verdict : string; qs_BindingHash : string }.

(** An absent or null body approves; unknown fields are refused. *)
Definition decodeQuorumSubmission (raw : option json) : result QuorumSubmission :=
  match raw with
  | None | Some JNull => Ok (mkQuorumSubmission "" "")
  | Some (JObj fs) =>
      if negb (forallb (λ kv, contains ["verdict"; "binding_hash"] kv.1) fs) then Err [ErrInvalidPayload]
      else match dec_string (field "verdict" fs), dec_string (field "binding_hash" fs) with
      | Ok verdict, Ok hash =>
          let v := ToLower (TrimSpace verdict) in
          if bool_decide (v = "") || bool_decide (v = VerdictApprove) then
            if bool_decide (hash ≠ "") && negb (valid_hex hash) then Err [ErrInvalidPayload]
            else Ok (mkQuorumSubmission VerdictApprove hash)
          else if bool_decide (v = VerdictReject) then Err [ErrVerdictUnsupported]
          else Err [ErrInvalidPayload]
      | _, _ => Err [ErrInvalidPayload]
      end
  | Some _ => Err [ErrInvalidPayload]
  end.

Definition reached (have need : Z) : CState := if (need <=? have)%Z then StateSatisfied else StatePending.

Definition quorum_count (q : QuorumConfig) (i : Instance_) : M Z :=
  if negb (qc_Store q) then throw []
  else query (λ db, Ok (CountApprovals (i_DecisionID i) (i_Ordinal i) VerdictApprove db)).

(** The checks before anything is written: who, over what material. *)
Definition quorum_admit (req : SubmitRequest) : result (QuorumDetail * string * string) :=
  let? detail := decodeQuorumDetail (sr_Detail req) in
  let? body := decodeQuorumSubmission (sr_Payload req) in
  let? approver := approverID (sr_Submitter req) in
  let? target := isTarget detail (sr_Submitter req) in
  if negb target then Err [ErrNotTarget]
  else
    let? sum := ApprovalBindingHash (sr_Decision req) detail in
    if negb (EqualFold sum (qd_BindingHash detail)) then Err [ErrBindingChanged]
    else if bool_decide (qs_BindingHash body ≠ "") && negb (EqualFold (qs_BindingHash body) (qd_BindingHash detail))
    then Err [ErrBindingChanged]
    else Ok (detail, approver, sum).

Definition approval_detail (detail : QuorumDetail) (req : SubmitRequest) : json :=
  JObj [("mode", JStr (qd_Mode detail));
        ("issuer", JStr (match sr_Submitter req with Some s => su_Issuer s | None => "" end));
        ("caller_id", JStr (match sr_Submitter req with Some s => CallerID s | None => "anonymous" end));
        ("at", JTime (sr_Now req))].

Definition quorum_submit (q : QuorumConfig) (req : SubmitRequest) : M SubmitResult :=
  if negb (qc_Store q) then throw []
  else
    let! admitted := lift (quorum_admit req) in
    let '(detail, approver, sum) := admitted in
    let! id := NewDecisionID in
    let! recorded := attempt (txn (RecordApproval
      (mkNewApproval id (i_DecisionID (sr_Instance req)) (i_Ordinal (sr_Instance req)) approver
         VerdictApprove sum (Some (approval_detail detail req))))) in
    match recorded with
    | Err e =>
        if errors_Is e ErrConflict then
          let! have := quorum_count q (sr_Instance req) in
          ret (mkSubmitResult (reached have (qd_Threshold detail)) have (qd_Threshold detail) None)
        else throw e
    | Ok _ =>
        let! have := quorum_count q (sr_Instance req) in
        ret (mkSubmitResult (reached have (qd_Threshold detail)) have (qd_Threshold detail) None)
    end.

(** ** Status and targets *)

Definition quorum_state (stored : CState) (have need : Z) (deadline : option Time.t) (now : Time.t) : CState :=
  if CState_Terminal stored then stored
  else if (need <=? have)%Z then StateSatisfied
  else match deadline with
       | Some t => if Time.Before now t then StatePending else StateFailed
       | None => StatePending
       end.

Definition quorum_status (q : QuorumConfig) (req : StatusRequest) : M Status :=
  let! detail := lift (decodeQuorumDetail (st_Detail req)) in
  let! have := quorum_count q (st_Instance req) in
  ret (mkStatus (quorum_state (st_Stored req) have (qd_Threshold detail) (st_Deadline req) (st_Now req))
         have (qd_Threshold detail) (st_Deadline req) None false).

Definition quorum_IsTarget (req : TargetRequest) : result bool :=
  let? detail := decodeQuorumDetail (tr_Detail req) in
  isTarget detail (tr_Subject req).

Definition QuorumHandler (q : QuorumConfig) : Handler :=
  mkHandler ChallengeQuorum (λ r, lift (quorum_issue q r)) (quorum_submit q) (quorum_status q)
    (Some (λ r, lift (quorum_IsTarget r))) None None.

(** ** Review: what an approver is shown *)

Record QuorumReview := mkReview {
  qr_Ordinal : Z; qr_State : CState; qr_Have : Z; qr_Need : Z; qr_Approvers : list string;
  qr_Mode : string; qr_Issuer : string; qr_Claim : string; qr_Source : string;
  qr_BindingHash : string; qr_Decision : Decision }.

Definition Review (q : QuorumConfig) (id : string) (ordinal : Z) (s : option Subject) (now : Time.t) : M QuorumReview :=
  if negb (qc_Store q) then throw []
  else
    let! d := query (GetDecision id) in
    let! progress := query (λ db, Ok (ChallengeProgressFor id db)) in
    match list_find (λ p, cp_Ordinal p = ordinal) progress with
    | Some (_, row) =>
        if negb (bool_decide (cp_Kind row = ChallengeQuorum)) then throw [ErrNotFound]
        else
          let! detail := lift (decodeQuorumDetail (cp_Detail row)) in
          let! target := lift (isTarget detail s) in
          if negb target then throw [ErrNotTarget]
          else
            let! _ := lift (EnsureActive d now) in
            let! have := quorum_count q (mkInstance id ordinal ChallengeQuorum) in
            ret (mkReview ordinal (cp_State row) have (qd_Threshold detail) (qd_Members detail) (qd_Mode detail)
                   (qd_Issuer detail) (qd_Claim detail) (qd_Source detail) (qd_BindingHash detail) d)
    | None => throw [ErrNotFound]
    end.

End quorum.

(** ** Who and what an admitted submission is *)

Lemma isTarget_member detail sub :
  isTarget detail (Some sub) = Ok true → qd_Mode detail = ResolveClaim ∨ su_ID sub ∈ qd_Members detail.
Proof.
  unfold isTarget. destruct (approverID _); [|done]. destruct (_ || _); [done|].
  destruct (contains [ResolveMembers; ResolveGroupSource] _); [|case_bool_decide; auto; done].
  intros [= Hm%contains_spec]. auto.
Qed.

Lemma quorum_admit_inv `{Digest} req detail approver sum :
  quorum_admit req = Ok (detail, approver, sum) →
  decodeQuorumDetail (sr_Detail req) = Ok detail ∧
  ∃ sub, sr_Submitter req = Some sub ∧ approver = su_ID sub ∧ isTarget detail (Some sub) = Ok true ∧
  ApprovalBindingHash (sr_Decision req) detail = Ok sum ∧ EqualFold sum (qd_BindingHash detail) = true.
Proof.
  unfold quorum_admit. intros (det & Hdet & (body & _ & (who & Hw & (tgt & Ht & Hrest)%res_bind_Ok)%res_bind_Ok)%res_bind_Ok)%res_bind_Ok.
  destruct tgt; [|done]. simpl in Hrest. apply res_bind_Ok in Hrest as (h & Hh & Hrest).
  destruct (EqualFold h _) eqn:Ef; [|done]. simpl in Hrest. destruct (_ && _); [done|]. simplify_eq.
  split; [done|]. destruct (sr_Submitter req) as [sub|]; [|done]. exists sub. split_and!; try done.
  unfold approverID in Hw. destruct (negb _); [done|]. case_bool_decide; [done|]. by injection Hw as <-.
Qed.
