(* ===== verification/Delay.v ===== *)
(** * The delay handler

    Models internal/challenge/delay.go. *)
From S2P Require Import Prelude GoLib Policy Json Store World Challenge Quorum.
Import Strings.

Definition DelayActionCancel : string := "cancel".

Record CancelAuthority := mkAuthority {
  ca_Mode : string; ca_Issuer : string; ca_Members : list string; ca_Claim : string; ca_Source : string }.

Definition CancelAuthority_Equal (a b : CancelAuthority) : bool :=
  bool_decide (ca_Mode a = ca_Mode b) && bool_decide (ca_Issuer a = ca_Issuer b) &&
  bool_decide (ca_Claim a = ca_Claim b) && bool_decide (ca_Source a = ca_Source b) &&
  bool_decide (ca_Members a = ca_Members b).

Definition admits (a : CancelAuthority) (s : option Subject) : result bool :=
  isTarget (mkQuorumDetail 0 (ca_Mode a) (ca_Issuer a) (ca_Members a) (ca_Claim a) (ca_Source a) "") s.

Record DelayDetail := mkDelayDetail {
  dd_Duration : string; dd_ReleaseAt : Time.t; dd_CancellableBy : option CancelAuthority;
  dd_CancelledBy : string; dd_CancelledAt : option Time.t }.

(** ** Encoding *)

Definition encodeAuthority (a : CancelAuthority) : json :=
  JObj ([("mode", JStr (ca_Mode a)); ("issuer", JStr (ca_Issuer a))] ++ opt_strings "members" (ca_Members a) ++
        opt_string "claim" (ca_Claim a) ++ opt_string "source" (ca_Source a)).

Definition encodeDelayDetail (d : DelayDetail) : json :=
  JObj ([("duration", JStr (dd_Duration d)); ("release_at", JTime (dd_ReleaseAt d))] ++
        (match dd_CancellableBy d with Some a => [("cancellable_by", encodeAuthority a)] | None => [] end) ++
        opt_string "cancelled_by" (dd_CancelledBy d) ++
        (match dd_CancelledAt d with Some t => [("cancelled_at", JTime t)] | None => [] end)).

Definition unmarshalAuthority (o : option json) : result (option CancelAuthority) :=
  match o with
  | None | Some JNull => Ok None
  | Some (JObj fs) =>
      let? mode := dec_string (field "mode" fs) in
      let? issuer := dec_string (field "issuer" fs) in
      let? members := dec_strings (field "members" fs) in
      let? claim := dec_string (field "claim" fs) in
      let? source := dec_string (field "source" fs) in
      Ok (Some (mkAuthority mode issuer members claim source))
  | Some _ => Err []
  end.

Definition unmarshalDelayDetail (raw : json) : result DelayDetail :=
  let? fs := fields_of raw in
  let? duration := dec_string (field "duration" fs) in
  let? release := dec_time (field "release_at" fs) in
  let? authority := unmarshalAuthority (field "cancellable_by" fs) in
  let? by_ := dec_string (field "cancelled_by" fs) in
  let? at_ := dec_time_opt (field "cancelled_at" fs) in
  Ok (mkDelayDetail duration release authority by_ at_).

Definition decodeDelayDetail (raw : json) : result DelayDetail :=
  match unmarshalDelayDetail raw with
  | Err _ => Err [ErrInvalidPayload]
  | Ok d => if Time.IsZero (dd_ReleaseAt d) then Err [ErrInvalidPayload] else Ok d
  end.

(** ** Issue *)

Record DelayConfig := mkDelayConfig { dl_Groups : option GroupResolver; dl_Issuer : string }.

Definition NewDelay (groups : option GroupResolver) (issuer : string) : DelayConfig :=
  mkDelayConfig groups (TrimSpace issuer).

Definition qualified (a : CancelAuthority) : result CancelAuthority :=
  if bool_decide (ca_Issuer a = "") then Err [ErrUnsupportedSpec; ErrApproverIssuerUndesignated] else Ok a.

Definition resolveAuthority (d : DelayConfig) (set : ApproverSet) (dec : DecisionContext) : result CancelAuthority :=
  match as_Source set with
  | Some src =>
      match dl_Groups d with
      | None => Err [ErrUnsupportedSpec; ErrGroupSourceUnsupported]
      | Some groups =>
          let? g := groups src dec in
          qualified (mkAuthority ResolveGroupSource (TrimSpace (ag_Issuer g)) (normalizeMembers (ag_Members g)) "" src.1)
      end
  | None =>
      if bool_decide (as_Claim set ≠ "")
      then qualified (mkAuthority ResolveClaim (dl_Issuer d) [] (as_Claim set) "")
      else match normalizeMembers (as_Members set) with
           | [] => Err [ErrUnsupportedSpec]
           | members => qualified (mkAuthority ResolveMembers (dl_Issuer d) members "" "")
           end
  end.

Definition delay_issue (d : DelayConfig) (req : IssueRequest) : result IssueResult :=
  match ir_Spec req with
  | CDelay spec =>
      if (d_Duration spec <=? 0)%Z then Err [ErrUnsupportedSpec]
      else
        let release := Time.Add (ir_Now req) (d_Duration spec) in
        let? authority := match d_CancellableBy spec with
                          | None => Ok None
                          | Some set => let? a := resolveAuthority d set (ir_Decision req) in Ok (Some a)
                          end in
        let detail := mkDelayDetail (Time.Duration_String (d_Duration spec)) release authority "" None in
        Ok (mkIssueResult StatePending (Some (encodeDelayDetail detail)) (Some release) false 0%Z)
  | _ => Err [ErrUnsupportedSpec]
  end.

(** ** Submit: a cancellation *)

Definition decodeDelaySubmission (raw : option json) : result unit :=
  match raw with
  | Some (JObj fs) =>
      if negb (forallb (λ kv, contains ["action"] kv.1) fs) then Err [ErrInvalidPayload]
      else match dec_string (field "action" fs) with
      | Ok a => if bool_decide (ToLower (TrimSpace a) = DelayActionCancel) then Ok tt else Err [ErrInvalidPayload]
      | Err _ => Err [ErrInvalidPayload]
      end
  | _ => Err [ErrInvalidPayload]
  end.

Definition delay_submit (req : SubmitRequest) : result SubmitResult :=
  let? detail := decodeDelayDetail (sr_Detail req) in
  match dd_CancellableBy detail with
  | None => Err [ErrNotSubmittable]
  | Some authority =>
      let? _ := decodeDelaySubmission (sr_Payload req) in
      let? canceller := approverID (sr_Submitter req) in
      let? admitted := admits authority (sr_Submitter req) in
      if negb admitted then Err [ErrNotTarget]
      else
        let by_ := match sr_Submitter req with Some s => CallerID s | None => "anonymous" end in
        Ok (mkSubmitResult StateFailed 0%Z 0%Z
              (Some (encodeDelayDetail (mkDelayDetail (dd_Duration detail) (dd_ReleaseAt detail) (Some authority)
                                          by_ (Some (sr_Now req))))))
  end.

(** ** Status and targets *)

Definition delay_state (stored : CState) (detail : DelayDetail) (now : Time.t) : CState :=
  if CState_Terminal stored then stored
  else match dd_CancelledAt detail with
       | Some _ => StateFailed
       | None => if Time.Before now (dd_ReleaseAt detail) then StatePending else StateSatisfied
       end.

Definition delay_status (req : StatusRequest) : result Status :=
  let? detail := decodeDelayDetail (st_Detail req) in
  Ok (mkStatus (delay_state (st_Stored req) detail (st_Now req)) 0%Z 0%Z (Some (dd_ReleaseAt detail)) None false).

Definition delay_IsTarget (req : TargetRequest) : result bool :=
  let? detail := decodeDelayDetail (tr_Detail req) in
  match dd_CancellableBy detail with
  | None => Ok false
  | Some authority => admits authority (tr_Subject req)
  end.

Definition DelayHandler (d : DelayConfig) : Handler :=
  mkHandler ChallengeDelay (λ r, lift (delay_issue d r)) (λ r, lift (delay_submit r)) (λ r, lift (delay_status r))
    (Some (λ r, lift (delay_IsTarget r))) None None.
