(* ===== verification/HandlerSpec.v ===== *)
(** * What the quorum and delay handlers promise

    Round trips of the stored details, the stability of the approval binding from
    issue to submission, and what an admitted approval commits to. *)
From S2P Require Import Prelude GoLib Policy Delta Weakening Json Store StoreInv World Challenge Quorum Delay.
Import Strings.

(** ** Details through the store *)

Lemma dec_strings_JStr l : dec_strings (Some (Json.canonical (JArr (map JStr l)))) = Ok l.
Proof. simpl. rewrite map_map. simpl. induction l as [|x l IH]; simpl in *; [done|]. by rewrite IH. Qed.

Lemma field_opt_strings k j l fs :
  j ≠ k → field j (opt_strings k l ++ fs) = field j fs.
Proof.
  intros Hne. unfold opt_strings. destruct l; [done|]. unfold field. simpl.
  destruct (decide (k = j)) as [->|]; [done|]. destruct (list_find _ fs) as [[i y]|]; done.
Qed.

Lemma field_opt_string k j v fs :
  j ≠ k → field j (opt_string k v ++ fs) = field j fs.
Proof.
  intros Hne. unfold opt_string. case_bool_decide; [done|]. unfold field. simpl.
  destruct (decide (k = j)) as [->|]; [done|]. destruct (list_find _ fs) as [[i y]|]; done.
Qed.

Lemma field_cons k v fs : field k ((k, v) :: fs) = Some v.
Proof. unfold field. simpl. by destruct (decide (k = k)). Qed.

Lemma field_cons_ne k k' v fs : k' ≠ k → field k ((k', v) :: fs) = field k fs.
Proof.
  intros Hne. unfold field. simpl. destruct (decide (k' = k)); [done|]. by destruct (list_find _ fs) as [[i y]|].
Qed.

Lemma dec_string_opt k v fs :
  field k fs = None → dec_string (Json.canonical <$> field k (opt_string k v ++ fs)) = Ok v.
Proof.
  intros Hn. unfold opt_string. case_bool_decide as E; simpl; [by rewrite Hn, E|]. by rewrite field_cons.
Qed.

Lemma dec_strings_opt k l fs :
  field k fs = None → dec_strings (Json.canonical <$> field k (opt_strings k l ++ fs)) = Ok l.
Proof.
  intros Hn. unfold opt_strings. destruct l as [|s l]; simpl; [by rewrite Hn|]. rewrite field_cons. apply (dec_strings_JStr (s :: l)).
Qed.

(** Keys, one after the other. *)
Ltac read_field :=
  repeat match goal with
  | |- context [field ?k ((?k, ?v) :: ?fs)] => rewrite (field_cons k v fs)
  | |- context [field ?j ((?k, ?v) :: ?fs)] => rewrite (field_cons_ne j k v fs) by done
  | |- context [field ?j (opt_strings ?k ?l ++ ?fs)] => rewrite (field_opt_strings k j l fs) by done
  | |- context [field ?j (opt_string ?k ?v ++ ?fs)] => rewrite (field_opt_string k j v fs) by done
  end.

Lemma keys_opt_string k v : map fst (opt_string k v) = (if bool_decide (v = "") then [] else [k]).
Proof. unfold opt_string. by case_bool_decide. Qed.
Lemma keys_opt_strings k l : map fst (opt_strings k l) = (match l with [] => [] | _ => [k] end).
Proof. by destruct l. Qed.

Lemma quorum_keys d : NoDup (map fst
  ([("threshold", JInt (qd_Threshold d)); ("mode", JStr (qd_Mode d)); ("issuer", JStr (qd_Issuer d))] ++
        opt_strings "members" (qd_Members d) ++ opt_string "claim" (qd_Claim d) ++
        opt_string "source" (qd_Source d) ++ [("binding_hash", JStr (qd_BindingHash d))])).
Proof.
  rewrite !map_app, keys_opt_strings, !keys_opt_string.
  destruct (qd_Members d); repeat case_bool_decide; by apply (bool_decide_unpack _).
Qed.

Lemma quorum_detail_decodes d :
  qd_Mode d ≠ "" → decodeQuorumDetail (canonicalJSON (Some (encodeQuorumDetail d))) =
  Ok (mkQuorumDetail (Float64.round53 (qd_Threshold d)) (qd_Mode d) (qd_Issuer d) (qd_Members d) (qd_Claim d)
        (qd_Source d) (qd_BindingHash d)).
Proof.
  intros Hm. unfold decodeQuorumDetail, unmarshalQuorumDetail, encodeQuorumDetail. unfold canonicalJSON.
  cbn [Json.canonical fields_of res_bind]. rewrite !field_canonical by apply quorum_keys.
  cbn [app]. read_field.
  rewrite dec_strings_opt by (read_field; done). rewrite (dec_string_opt "claim") by (read_field; done).
  read_field. rewrite (dec_string_opt "source") by done. simpl. by rewrite bool_decide_eq_false_2.
Qed.

Lemma authority_keys a : NoDup (map fst
  ([("mode", JStr (ca_Mode a)); ("issuer", JStr (ca_Issuer a))] ++ opt_strings "members" (ca_Members a) ++
        opt_string "claim" (ca_Claim a) ++ opt_string "source" (ca_Source a))).
Proof.
  rewrite !map_app, keys_opt_strings, !keys_opt_string.
  destruct (ca_Members a); repeat case_bool_decide; by apply (bool_decide_unpack _).
Qed.

Lemma authority_decodes a : unmarshalAuthority (Some (Json.canonical (encodeAuthority a))) = Ok (Some a).
Proof.
  unfold unmarshalAuthority, encodeAuthority. cbn [Json.canonical]. rewrite !field_canonical by apply authority_keys.
  cbn [app]. read_field. rewrite dec_strings_opt by (unfold opt_string; repeat case_bool_decide; done).
  rewrite (dec_string_opt "claim") by (unfold opt_string; case_bool_decide; done).
  rewrite <-(app_nil_r (opt_string "source" (ca_Source a))). rewrite (dec_string_opt "source") by done.
  by destruct a.
Qed.

Definition opt_authority (o : option CancelAuthority) : list (string * json) :=
  match o with Some a => [("cancellable_by", encodeAuthority a)] | None => [] end.
Definition opt_cancelled (o : option Time.t) : list (string * json) :=
  match o with Some t => [("cancelled_at", JTime t)] | None => [] end.

Lemma delay_keys d : NoDup (map fst
  ([("duration", JStr (dd_Duration d)); ("release_at", JTime (dd_ReleaseAt d))] ++
    opt_authority (dd_CancellableBy d) ++ opt_string "cancelled_by" (dd_CancelledBy d) ++ opt_cancelled (dd_CancelledAt d))).
Proof.
  rewrite !map_app, keys_opt_string.
  destruct (dd_CancellableBy d), (dd_CancelledAt d); case_bool_decide; by apply (bool_decide_unpack _).
Qed.

Lemma delay_detail_decodes d :
  dd_ReleaseAt d ≠ Time.zero → decodeDelayDetail (canonicalJSON (Some (encodeDelayDetail d))) = Ok d.
Proof.
  intros Hz. unfold decodeDelayDetail, unmarshalDelayDetail, encodeDelayDetail, canonicalJSON.
  fold (opt_authority (dd_CancellableBy d)) (opt_cancelled (dd_CancelledAt d)).
  cbn [Json.canonical fields_of res_bind]. rewrite !field_canonical by apply delay_keys.
  cbn [app]. read_field.
  assert (unmarshalAuthority (Json.canonical <$> field "cancellable_by" (opt_authority (dd_CancellableBy d) ++
    opt_string "cancelled_by" (dd_CancelledBy d) ++ opt_cancelled (dd_CancelledAt d))) = Ok (dd_CancellableBy d)) as ->.
  { destruct (dd_CancellableBy d) as [a|]; cbn [opt_authority app]; read_field; [apply authority_decodes|].
    by destruct (dd_CancelledAt d). }
  assert (∀ k, k ≠ "cancellable_by" → field k (opt_authority (dd_CancellableBy d) ++
    opt_string "cancelled_by" (dd_CancelledBy d) ++ opt_cancelled (dd_CancelledAt d)) =
    field k (opt_string "cancelled_by" (dd_CancelledBy d) ++ opt_cancelled (dd_CancelledAt d))) as Hskip.
  { intros k Hk. destruct (dd_CancellableBy d); cbn [opt_authority app]; [by rewrite field_cons_ne|done]. }
  rewrite !Hskip by done. rewrite dec_string_opt by (by destruct (dd_CancelledAt d)). read_field.
  assert (dec_time_opt (Json.canonical <$> field "cancelled_at" (opt_cancelled (dd_CancelledAt d))) = Ok (dd_CancelledAt d)) as ->.
  { by destruct (dd_CancelledAt d). }
  simpl. unfold Time.IsZero. rewrite bool_decide_eq_false_2 by done. by destruct d.
Qed.

(** What the quorum and the delay handler store is what they read back.  A
    detail written to the challenge row, through the store's canonical form and the
    database, decodes to the same detail; a quorum's threshold survives as long as
    it fits the 53 bits a JSON number keeps. *)
Theorem details_round_trip :
  (∀ d, qd_Mode d ≠ "" → Float64.exact_int (qd_Threshold d) = true →
     decodeQuorumDetail (canonicalJSON (Some (encodeQuorumDetail d))) = Ok d) ∧
  (∀ d, dd_ReleaseAt d ≠ Time.zero → decodeDelayDetail (canonicalJSON (Some (encodeDelayDetail d))) = Ok d).
Proof.
  split; [|apply delay_detail_decodes]. intros d Hm He. rewrite (quorum_detail_decodes d Hm).
  rewrite (Float64.round53_exact _ He). by destruct d.
Qed.

(** ** What a binding covers *)

(** Two contexts put the same decision before an approver: the same identities and
    the same documents, however those are written. *)
Record same_decision (a b : DecisionContext) : Prop := {
  sd_ids : (dc_DecisionID a, dc_CallerID a, dc_SubjectID a, dc_ResourceID a, dc_Action a, dc_PolicyID a) =
           (dc_DecisionID b, dc_CallerID b, dc_SubjectID b, dc_ResourceID b, dc_Action b, dc_PolicyID b);
  sd_request : decodeJSON (dc_Request a) = decodeJSON (dc_Request b);
  sd_facts : decodeJSON (dc_FactSnapshot a) = decodeJSON (dc_FactSnapshot b);
  sd_obligations : decodeJSON (dc_Obligations a) = decodeJSON (dc_Obligations b) }.

#[export] Instance same_decision_equiv : Equivalence same_decision.
Proof.
  split.
  - by intros a.
  - intros a b []. by split.
  - intros a b c [] []. split; by etrans.
Qed.

(** Two details name the same approvers. *)
Record same_approvers (a b : QuorumDetail) : Prop := {
  sa_mode : qd_Mode a = qd_Mode b;
  sa_issuer : qd_Issuer a = qd_Issuer b;
  sa_claim : qd_Mode a = ResolveClaim → qd_Claim a = qd_Claim b;
  sa_source : qd_Mode a = ResolveGroupSource → qd_Source a = qd_Source b;
  sa_members : qd_Mode a ≠ ResolveClaim → normalizeMembers (qd_Members a) = normalizeMembers (qd_Members b) }.

Section binding.
Context `{Digest}.

Lemma map_JStr_inj : Inj (=) (=) (map JStr).
Proof. intros l. induction l as [|x l IH]; intros [|y k]; simpl; intros E; simplify_eq; [done|]. f_equal. by apply IH. Qed.

Lemma binding_approvers_inj a b j :
  binding_approvers a = Ok j → binding_approvers b = Ok j → same_approvers a b.
Proof.
  unfold binding_approvers, ResolveClaim, ResolveGroupSource, ResolveMembers. intros Ha Hb.
  repeat case_bool_decide; simplify_eq; split; unfold ResolveClaim, ResolveGroupSource; try congruence; intros;
    (congruence || by apply map_JStr_inj).
Qed.

Lemma binding_approvers_proper a b : same_approvers a b → binding_approvers a = binding_approvers b.
Proof.
  intros [E1 E2 E3 E4 E5]. unfold binding_approvers. rewrite <-E1, <-E2.
  case_bool_decide as Hc; [by rewrite E3|]. rewrite (E5 Hc). case_bool_decide; [by rewrite E4|done].
Qed.

#[export] Instance binding_material_proper : Proper (same_decision ==> same_approvers ==> eq) binding_material.
Proof.
  intros x y [E1 E2 E3 E4] a b Hab. unfold binding_material. rewrite (binding_approvers_proper _ _ Hab).
  injection E1 as -> -> -> -> -> ->. by rewrite E2, E3, E4.
Qed.

Lemma binding_material_inj x y a b m :
  binding_material x a = Ok m → binding_material y b = Ok m → same_decision x y ∧ same_approvers a b.
Proof.
  unfold binding_material. intros (ja & Ha & [= Em])%res_bind_Ok (jb & Hb & E)%res_bind_Ok.
  rewrite <-Em in E. clear Em. simplify_eq.
  split; [|by eapply binding_approvers_inj]. split; congruence.
Qed.
End binding.

(** ** Issuing a quorum *)

Lemma quorum_resolve_inv q spec dec det :
  quorum_resolve q spec dec = Ok det →
  qd_Threshold det = q_Threshold spec ∧ (1 ≤ q_Threshold spec)%Z ∧ qd_Issuer det ≠ "" ∧ qd_BindingHash det = "" ∧
  qd_Mode det ∈ [ResolveMembers; ResolveClaim; ResolveGroupSource] ∧
  normalizeMembers (qd_Members det) = qd_Members det ∧
  (qd_Mode det ≠ ResolveClaim → (q_Threshold spec ≤ Z.of_nat (length (qd_Members det)))%Z) ∧
  (as_Source (q_Approvers spec) = None → as_Claim (q_Approvers spec) = "" →
     qd_Mode det = ResolveMembers ∧ qd_Members det = normalizeMembers (as_Members (q_Approvers spec))).
Proof.
  unfold quorum_resolve. destruct (Z.ltb_spec (q_Threshold spec) 1); [done|].
  intros (x & Hx & Hrest)%res_bind_Ok. case_bool_decide as Hi; [done|].
  destruct (_ && _) eqn:Eb in Hrest; [done|]. injection Hrest as ->.
  assert (qd_Threshold det = q_Threshold spec ∧ qd_BindingHash det = "" ∧
    qd_Mode det ∈ [ResolveMembers; ResolveClaim; ResolveGroupSource] ∧
    normalizeMembers (qd_Members det) = qd_Members det ∧
    (as_Source (q_Approvers spec) = None → as_Claim (q_Approvers spec) = "" →
     qd_Mode det = ResolveMembers ∧ qd_Members det = normalizeMembers (as_Members (q_Approvers spec)))) as (E & Hh & Hm & Hn & Hp).
  { unfold resolve_set in Hx. destruct (as_Source (q_Approvers spec)) as [src|].
    - destruct (qc_Groups q) as [groups|]; [|done]. apply res_bind_Ok in Hx as (g & _ & [= <-]). simpl.
      split_and!; [done|done|set_solver|apply trimmed_set_idemp|done].
    - case_bool_decide as Hc; injection Hx as <-; simpl; (split_and!; [done|done|set_solver|done || apply trimmed_set_idemp|done]). }
  rewrite E in *. split_and!; try done. intros Hne. rewrite bool_decide_eq_false_2 in Eb by done. simpl in Eb.
  by apply Z.ltb_ge in Eb.
Qed.

Lemma resolved_mode m : m ∈ [ResolveMembers; ResolveClaim; ResolveGroupSource] → m ≠ "".
Proof. intros Hm ->. revert Hm. by apply (bool_decide_unpack (_ ∉ _)). Qed.

Section issue.
Context `{Digest}.

Lemma quorum_issue_inv q req r :
  quorum_issue q req = Ok r →
  ∃ spec det sum, ir_Spec req = CQuorum spec ∧ quorum_resolve q spec (ir_Decision req) = Ok det ∧
    ApprovalBindingHash (ir_Decision req) det = Ok sum ∧
    r = mkIssueResult StatePending (Some (encodeQuorumDetail (with_hash det sum))) None false 0%Z.
Proof.
  unfold quorum_issue. destruct (ir_Spec req); try done.
  intros (det & Hd & (sum & Hs & [= <-])%res_bind_Ok)%res_bind_Ok. eauto 10.
Qed.

Lemma with_hash_approvers det h : same_approvers (with_hash det h) det.
Proof. by split. Qed.

(** What issuing leaves in the row: the policy's own threshold and set, and the
    hash of the decision it was issued for. *)
Lemma quorum_issue_stored q req r :
  quorum_issue q req = Ok r → (∀ spec, ir_Spec req = CQuorum spec → Float64.exact_int (q_Threshold spec) = true) →
  ∃ spec det, ir_Spec req = CQuorum spec ∧ decodeQuorumDetail (canonicalJSON (is_Detail r)) = Ok det ∧
    quorum_resolve q spec (ir_Decision req) = Ok (with_hash det "") ∧
    ApprovalBindingHash (ir_Decision req) det = Ok (qd_BindingHash det).
Proof.
  intros (spec & det & sum & Hs & Hd & Hh & ->)%quorum_issue_inv He.
  exists spec, (with_hash det sum). apply quorum_resolve_inv in Hd as Hinv.
  destruct Hinv as (Et & _ & _ & E0 & Hm & _). split_and!; [done| | |].
  - simpl is_Detail. rewrite quorum_detail_decodes by (by apply resolved_mode). simpl. rewrite Et.
    rewrite (Float64.round53_exact _ (He _ Hs)), <-Et. done.
  - rewrite Hd. f_equal. destruct det. simpl in *. by subst.
  - simpl. rewrite <-Hh. unfold ApprovalBindingHash. by rewrite (with_hash_approvers det sum).
Qed.
End issue.

(** ** The handlers' contracts *)

Section contracts.
Context `{Digest}.

(** An issued quorum is the policy's.  What issuing stores decodes to a detail
    with the threshold the policy wrote, at least one, and a designated issuer; the
    set it names, when it names one, has no repeated member and is large enough to
    reach the threshold, and for an explicit list it is exactly the trimmed
    non-blank members; and the hash it carries is the binding hash of the decision
    it was issued for. *)
Theorem issued_quorum_is_the_policys q req r spec :
  quorum_issue q req = Ok r → ir_Spec req = CQuorum spec → Float64.exact_int (q_Threshold spec) = true →
  ∃ det, decodeQuorumDetail (canonicalJSON (is_Detail r)) = Ok det ∧ is_State r = StatePending ∧
    qd_Threshold det = q_Threshold spec ∧ (1 ≤ qd_Threshold det)%Z ∧ qd_Issuer det ≠ "" ∧
    NoDup (qd_Members det) ∧
    (qd_Mode det ≠ ResolveClaim → (qd_Threshold det ≤ Z.of_nat (length (qd_Members det)))%Z) ∧
    (as_Source (q_Approvers spec) = None → as_Claim (q_Approvers spec) = "" →
       ∀ m, m ∈ qd_Members det ↔ m ≠ "" ∧ ∃ raw, raw ∈ as_Members (q_Approvers spec) ∧ m = TrimSpace raw) ∧
    ApprovalBindingHash (ir_Decision req) det = Ok (qd_BindingHash det).
Proof.
  intros Hr Hs He. pose proof (quorum_issue_inv _ _ _ Hr) as (sp & dt & sm & _ & _ & _ & Er).
  destruct (quorum_issue_stored _ _ _ Hr) as (spec' & det & Hs' & Hd & Hres & Hh).
  { intros x Hx. rewrite Hs in Hx. by injection Hx as <-. }
  rewrite Hs in Hs'. injection Hs' as <-. exists det.
  apply quorum_resolve_inv in Hres as (E1 & E2 & E3 & _ & _ & E5 & E6 & E7). simpl in *.
  split_and!; try done; [by rewrite Er|lia|rewrite <-E5; apply trimmed_set_sorted|rewrite E1; auto|].
  intros Hsrc Hcl m. destruct (E7 Hsrc Hcl) as [_ ->]. apply elem_of_trimmed_set.
Qed.

Lemma decodeQuorumSubmission_None : decodeQuorumSubmission None = Ok (mkQuorumSubmission "" "").
Proof. done. Qed.

Lemma isTarget_approverID det who : isTarget det (Some who) = Ok true → approverID (Some who) = Ok (su_ID who).
Proof.
  unfold isTarget. destruct (approverID (Some who)) eqn:E; [|done]. intros _.
  unfold approverID in E. destruct (negb _); [done|]. by case_bool_decide.
Qed.

(** C24. An approval commits to the decision the approver was asked about.  Against a
    stored quorum, a bare approval is admitted exactly when the submitter is a
    target of it and the decision it is submitted to is the decision the quorum was
    issued for: same identities, and the same request, facts and obligations once
    decoded, so that a round trip through the store does not refuse an approver and
    any change of the material does.  The digest enters only as: these two materials
    do not collide. *)
Theorem approval_commits_to_the_decision q issue r det sub who :
  quorum_issue q issue = Ok r →
  (∀ spec, ir_Spec issue = CQuorum spec → Float64.exact_int (q_Threshold spec) = true) →
  sr_Detail sub = canonicalJSON (is_Detail r) → decodeQuorumDetail (sr_Detail sub) = Ok det →
  sr_Submitter sub = Some who → sr_Payload sub = None →
  (∀ m m', binding_material (ir_Decision issue) det = Ok m → binding_material (sr_Decision sub) det = Ok m' →
     ToLower (digest_json m) = ToLower (digest_json m') → m = m') →
  is_ok (quorum_admit sub) = true ↔
    isTarget det (Some who) = Ok true ∧ same_decision (ir_Decision issue) (sr_Decision sub).
Proof.
  intros Hr He Hdet Hd Hwho Hpay Hcoll.
  destruct (quorum_issue_stored _ _ _ Hr He) as (spec & det' & _ & Hd' & _ & Hh).
  rewrite Hdet, Hd' in Hd. injection Hd as ->. unfold ApprovalBindingHash in Hh.
  apply res_bind_Ok in Hh as (m & Hm & [= Eh]).
  unfold quorum_admit. rewrite Hdet, Hd', Hpay, Hwho, decodeQuorumSubmission_None. cbn [res_bind]. unfold ApprovalBindingHash. split.
  - destruct (approverID (Some who)); [|done]. cbn [res_bind]. destruct (isTarget det (Some who)) as [[]|]; try done. simpl.
    destruct (binding_material (sr_Decision sub) det) as [m'|] eqn:Em; [|done]. simpl.
    unfold EqualFold. case_bool_decide as Ef; [|done]. intros _. split; [done|].
    rewrite <-Eh in Ef. rewrite <-(Hcoll m m' Hm eq_refl) in Em by done.
    by apply (binding_material_inj _ _ _ _ _ Hm Em).
  - intros [Ht Hsame]. rewrite (isTarget_approverID _ _ Ht), Ht. simpl.
    assert (same_approvers det det) as Hrefl by (by split).
    rewrite <-(binding_material_proper _ _ Hsame _ _ Hrefl), Hm. simpl. rewrite Eh. unfold EqualFold.
    by rewrite bool_decide_eq_true_2.
Qed.

(** *** Counting *)

(** [who] voted on the challenge before, whichever way. *)
Definition voted (id : string) (o : Z) (who : string) (db : DB) : bool :=
  existsb (same_vote id o who) (db_approvals db).

Lemma elem_of_approvers id o v db x :
  x ∈ approvers id o v db ↔ ∃ a, a ∈ db_approvals db ∧ ap_ApproverID a = x ∧ ap_DecisionID a = id ∧ ap_Ordinal a = o ∧ ap_Verdict a = v.
Proof. unfold approvers. rewrite elem_of_remove_dups, elem_of_map. setoid_rewrite list_elem_of_filter. naive_solver. Qed.

Lemma voted_true id o who db :
  voted id o who db = true ↔ ∃ a, a ∈ db_approvals db ∧ ap_DecisionID a = id ∧ ap_Ordinal a = o ∧ ap_ApproverID a = who.
Proof.
  unfold voted. rewrite existsb_true. unfold same_vote. setoid_rewrite andb_true_iff. setoid_rewrite andb_true_iff.
  setoid_rewrite bool_decide_eq_true. setoid_rewrite Z.eqb_eq. naive_solver.
Qed.

Lemma reached_spec have need : reached have need = StateSatisfied ↔ (need ≤ have)%Z.
Proof. unfold reached. destruct (Z.leb_spec need have); split; intros; (done || (exfalso; lia)). Qed.

(** One approver, one vote.  An admitted submission, in a quiet world and with a
    fresh identifier, always answers with a count, and the set of approvers of that
    challenge gains exactly the submitter, unless they had voted on it before, when
    nothing at all is written; the answer counts distinct approvers, and says the
    quorum is met exactly when they reach the threshold. *)
Theorem submission_counts_each_approver_once q req det who sum w id ids :
  qc_Store q = true → quorum_admit req = Ok (det, who, sum) →
  w_steps w = [] → w_ids w = id :: ids → (∀ a, a ∈ db_approvals (w_db w) → ap_ID a ≠ id) →
  let D := i_DecisionID (sr_Instance req) in let o := i_Ordinal (sr_Instance req) in
  existsb (is_row D o) (db_progress (w_db w)) = true →
  ∃ out, (quorum_submit q req w).1 = Ok out ∧
    let db' := w_db (quorum_submit q req w).2 in
    (∀ x, x ∈ approvers D o VerdictApprove db' ↔
          x ∈ approvers D o VerdictApprove (w_db w) ∨ (x = who ∧ voted D o who (w_db w) = false)) ∧
    (voted D o who (w_db w) = true → db' = w_db w) ∧
    so_Have out = Z.of_nat (length (approvers D o VerdictApprove db')) ∧
    (so_State out = StateSatisfied ↔ (qd_Threshold det ≤ so_Have out)%Z).
Proof.
  intros Hst Had Hw Hids Hfresh D o Hrow. unfold quorum_submit. rewrite Hst, Had. simpl.
  unfold bindM, lift, NewDecisionID. rewrite Hids. unfold attempt, txn, next_step. simpl. rewrite Hw. simpl.
  fold D o. unfold RecordApproval. rewrite (proj2 (contains_spec _ _)) by set_solver. simpl.
  assert (existsb (λ a, bool_decide (ap_ID a = id)) (db_approvals (w_db w)) = false) as ->.
  { apply not_true_is_false. intros (a & Ha & E%bool_decide_eq_true)%existsb_true. by eapply Hfresh. }
  simpl. fold (voted D o who (w_db w)). destruct (voted D o who (w_db w)) eqn:Ev; simpl.
  - unfold quorum_count. rewrite Hst. simpl. eexists. split; [done|]. simpl. split_and!; try done.
    + naive_solver.
    + apply reached_spec.
  - rewrite Hrow. simpl. unfold quorum_count. rewrite Hst. simpl. eexists. split; [done|]. simpl. split_and!; try done.
    + intros x. rewrite !elem_of_approvers. simpl. setoid_rewrite elem_of_app. setoid_rewrite list_elem_of_singleton. split.
      * intros (a & [Ha| ->] & E1 & E2 & E3 & E4); [left; eauto 10|]. right. by simpl in E1.
      * intros [(a & Ha & E)|[-> _]]; [exists a; auto|]. eexists. split; [by right|done].
    + apply reached_spec.
Qed.

(** *** A quorum a revision leaves behind can be issued *)

Lemma binding_approvers_ok det :
  qd_Mode det ∈ [ResolveMembers; ResolveClaim; ResolveGroupSource] → is_ok (binding_approvers det) = true.
Proof.
  unfold binding_approvers. rewrite !elem_of_cons, elem_of_nil. intros Hm. repeat case_bool_decide; try done. naive_solver.
Qed.

Lemma quorum_issue_ok q inst spec dec now det :
  quorum_resolve q spec dec = Ok det → is_ok (quorum_issue q (mkIssueRequest inst (CQuorum spec) dec now)) = true.
Proof.
  intros Hd. unfold quorum_issue, ApprovalBindingHash, binding_material. simpl. rewrite Hd. simpl.
  apply quorum_resolve_inv in Hd as (_ & _ & _ & _ & Hm & _). apply binding_approvers_ok in Hm.
  by destruct (binding_approvers det).
Qed.

Lemma CheckSatisfiable_quorum d c p spec :
  CheckSatisfiable d = Ok tt → c ∈ de_Changes d → ch_After c = Some p → CQuorum spec ∈ p_Challenges p →
  quorum_satisfiable spec = true.
Proof.
  unfold CheckSatisfiable. destruct (forallb _ (de_Changes d)) eqn:E; [|done]. intros _ Hc Hp Hs.
  rewrite forallb_true in E. specialize (E c Hc). rewrite Hp in E. rewrite forallb_true in E. by apply (E (CQuorum spec)).
Qed.

(** A revision the satisfiability check passes locks nobody out: every quorum over
    an explicit list that it leaves behind is one the quorum handler of a deployment
    with a designated issuer will issue, for any decision. *)
Theorem satisfiable_quorums_issue d c p spec q inst dec now :
  CheckSatisfiable d = Ok tt → c ∈ de_Changes d → ch_After c = Some p → CQuorum spec ∈ p_Challenges p →
  approverMode (q_Approvers spec) = ModeMembers → qc_Issuer q ≠ "" →
  is_ok (quorum_issue q (mkIssueRequest inst (CQuorum spec) dec now)) = true.
Proof.
  intros Hd Hc Hp Hin Hm Hi. pose proof (CheckSatisfiable_quorum _ _ _ _ Hd Hc Hp Hin) as Hs.
  unfold quorum_satisfiable in Hs. rewrite Hm in Hs. destruct (q_Threshold spec <? 1)%Z eqn:E1; [done|]. simpl in Hs.
  unfold approverMode in Hm. destruct (as_Source (q_Approvers spec)) eqn:Esrc; [done|]. case_bool_decide as Hcl; [done|].
  eapply (quorum_issue_ok _ _ _ _ _ (mkQuorumDetail (q_Threshold spec) ResolveMembers (qc_Issuer q)
    (normalizeMembers (as_Members (q_Approvers spec))) "" "" "")).
  unfold quorum_resolve, resolve_set. rewrite E1, Esrc, (bool_decide_eq_false_2 (as_Claim _ ≠ _)) by (intros X; by apply X). simpl.
  rewrite bool_decide_eq_false_2 by done. unfold normalizeMembers. unfold distinctMembers in Hs.
  apply negb_true_iff in Hs. by rewrite Hs.
Qed.
End contracts.

(** ** The timeline of a delay *)

Lemma delay_issue_inv d req r :
  delay_issue d req = Ok r →
  ∃ spec authority, ir_Spec req = CDelay spec ∧ (0 < d_Duration spec)%Z ∧
    is_State r = StatePending ∧ is_Deadline r = Some (Time.Add (ir_Now req) (d_Duration spec)) ∧
    (is_Some authority ↔ is_Some (d_CancellableBy spec)) ∧
    is_Detail r = Some (encodeDelayDetail (mkDelayDetail (Time.Duration_String (d_Duration spec))
       (Time.Add (ir_Now req) (d_Duration spec)) authority "" None)).
Proof.
  unfold delay_issue. destruct (ir_Spec req) as [| |spec|]; try done. destruct (Z.leb_spec (d_Duration spec) 0); [done|].
  intros (a & Ha & [= <-])%res_bind_Ok. exists spec, a. simpl. split_and!; try done.
  destruct (d_CancellableBy spec); [|by injection Ha as <-]. apply res_bind_Ok in Ha as (x & _ & [= <-]). by split.
Qed.

(** A delay holds until its release and then lets go.  The row a delay is issued
    with is pending at every instant before now plus the duration and satisfied at
    every instant from then on, across the round trip through the store; once it is
    cancelled it has failed at every instant, and only a delay the policy declared
    cancellable, by a subject its authority admits, can be. *)
Theorem delay_timeline d req r release :
  delay_issue d req = Ok r → is_Deadline r = Some release → release ≠ Time.zero →
  (∀ inst dec deadline t,
     delay_status (mkStatusRequest inst dec (canonicalJSON (is_Detail r)) StatePending deadline t) =
     Ok (mkStatus (if Time.Before t release then StatePending else StateSatisfied) 0 0 (Some release) None false)) ∧
  (∀ sub out, sr_Detail sub = canonicalJSON (is_Detail r) → delay_submit sub = Ok out →
     so_State out = StateFailed ∧
     (∃ spec, ir_Spec req = CDelay spec ∧ is_Some (d_CancellableBy spec)) ∧
     (∃ a, unmarshalDelayDetail (sr_Detail sub) = Ok (mkDelayDetail (dd_Duration a) release (dd_CancellableBy a) "" None) ∧
        ∃ auth, dd_CancellableBy a = Some auth ∧ admits auth (sr_Submitter sub) = Ok true) ∧
     ∀ inst dec deadline t,
       delay_status (mkStatusRequest inst dec (canonicalJSON (so_Detail out)) StatePending deadline t) =
       Ok (mkStatus StateFailed 0 0 (Some release) None false)).
Proof.
  intros (spec & auth & Hs & Hpos & Est & Edl & Hauth & Edet)%delay_issue_inv. rewrite Edl. intros [= Erel] Hz.
  rewrite Edet, Erel. set (dd := mkDelayDetail _ release auth "" None) in *.
  pose proof (delay_detail_decodes dd Hz) as Hdec. split.
  - intros inst dec deadline t. unfold delay_status. cbn [st_Detail st_Stored st_Now]. by rewrite Hdec.
  - intros sub out Hsub. unfold delay_submit. rewrite Hsub, Hdec. cbn [res_bind].
    destruct (dd_CancellableBy dd) as [a|] eqn:Ea; [|done].
    intros (? & _ & (who & _ & (adm & Hadm & Hout)%res_bind_Ok)%res_bind_Ok)%res_bind_Ok.
    destruct adm; [|done]. simpl in Hout. injection Hout as <-. simpl so_State. split_and!; [done| | |].
    + exists spec. split; [done|]. apply Hauth. unfold dd in Ea. simpl in Ea. rewrite Ea. eauto.
    + exists dd. split; [|eauto]. unfold decodeDelayDetail in Hdec. destruct (unmarshalDelayDetail _) as [y|]; [|done].
      destruct (Time.IsZero _); [done|]. by injection Hdec as ->.
    + intros inst dec deadline t. simpl so_Detail. unfold delay_status. cbn [st_Detail st_Stored st_Now].
      rewrite (delay_detail_decodes (mkDelayDetail _ release (Some a) _ _)) by done. done.
Qed.
