(* ===== verification/Identity.v ===== *)
(** * Identity: who is calling

    Models internal/identity: oidc.go (the pinned trust boundary, [Verify], the guard on
    unknown signing keys), workload.go (subjects, client certificates) and middleware.go
    (the authentication of an HTTP request and its record).

    Verifying a signature and reading the standard claims is the OIDC library, so what it
    did for one token is an argument ([LibCall]): the key set fetches it made, whether it
    asked for the signature and whether it held, and the token it returned.  A segment of
    a token as JSON is the class [TokenText].  Every failure wraps exactly one sentinel of
    the package, so an error is that sentinel. *)
From Stdlib Require Import Ascii.
From S2P Require Import Prelude GoLib Policy Json Limiter Challenge Netip Url.

(** ** Configuration *)

Inductive AuthError :=
  | ErrMalformedToken | ErrAlgorithmNotAllowed | ErrIssuerNotAllowed | ErrAudienceMismatch | ErrTokenExpired
  | ErrSignatureInvalid | ErrUnknownKey | ErrRefetchThrottled | ErrTokenACRNotAllowed
  | ErrMissingCredential | ErrWrongSubjectKind | ErrPeerCertificateUnverified | ErrWorkloadNotAllowed.

#[export] Instance AuthError_eq_dec : EqDecision AuthError.
Proof. solve_decision. Defined.

Definition asymmetricAlgs : list string :=
  ["RS256"; "RS384"; "RS512"; "ES256"; "ES384"; "ES512"; "PS256"; "PS384"; "PS512"; "EdDSA"].

Definition DefaultJWKSRefetchBurst : Z := 5.
Definition DefaultJWKSRefetchInterval : Time.duration := Time.Minute.
Definition DefaultUnknownKeyTTL : Time.duration := 30 * Time.Second.
Definition DefaultUnknownKeyCacheSize : Z := 1024.
Definition DefaultMaxTokenBytes : Z := 8 * 1024.
Definition DefaultMaxJWKSBytes : Z := 2 ^ 20.

Record IssuerConfig := mkIssuerConfig { ic_Issuer : string; ic_JWKSURL : string; ic_WorkloadClients : list string }.

Record IdentityConfig := mkIdentityConfig {
  cf_Issuers : list IssuerConfig; cf_Audience : string; cf_Algorithms : list string; cf_AllowedACRValues : list string;
  cf_JWKSRefetchBurst : Z; cf_JWKSRefetchInterval : Time.duration; cf_UnknownKeyTTL : Time.duration; cf_UnknownKeyCacheSize : Z;
  cf_MaxTokenBytes : Z; cf_MaxJWKSBytes : Z; cf_AllowInsecureTransport : bool }.

(** [orDefaultInt] and [orDefaultDuration]. *)
Definition orDefault (v def : Z) : Z := if (v <=? 0)%Z then def else v.

Definition checkTransport `{NetURL} (raw : string) (allowInsecure : bool) : result unit :=
  match url_Parse raw with
  | None => Err []
  | Some u => if bool_decide (u_Scheme u = "https") then Ok tt else if allowInsecure then Ok tt else Err []
  end.

(** ** The guard on unknown keys *)

Record keyGuard := mkKeyGuard {
  kg_served : gset string; kg_negative : gmap string Time.t; kg_negTTL : Time.duration; kg_negMax : Z;
  kg_tokens : Float64.t; kg_burst : Float64.t; kg_perSec : Float64.t; kg_last : option Time.t; kg_fetchCount : Z }.

Definition newKeyGuard (cfg : IdentityConfig) : keyGuard :=
  let burst := orDefault (cf_JWKSRefetchBurst cfg) DefaultJWKSRefetchBurst in
  let interval := orDefault (cf_JWKSRefetchInterval cfg) DefaultJWKSRefetchInterval in
  mkKeyGuard ∅ ∅ (orDefault (cf_UnknownKeyTTL cfg) DefaultUnknownKeyTTL) (orDefault (cf_UnknownKeyCacheSize cfg) DefaultUnknownKeyCacheSize)
    (Float64.of_int64 burst) (Float64.of_int64 burst) (Float64.div f1 (Float64.seconds interval)) None 0.

Definition with_negative (g : keyGuard) (n : gmap string Time.t) : keyGuard :=
  mkKeyGuard (kg_served g) n (kg_negTTL g) (kg_negMax g) (kg_tokens g) (kg_burst g) (kg_perSec g) (kg_last g) (kg_fetchCount g).

Definition refillLocked (now : Time.t) (g : keyGuard) : keyGuard :=
  let tokens := match kg_last g with
                | Some last => Float64.min (Float64.add (kg_tokens g) (Float64.mul (Float64.seconds (Time.Sub now last)) (kg_perSec g))) (kg_burst g)
                | None => kg_tokens g
                end in
  mkKeyGuard (kg_served g) (kg_negative g) (kg_negTTL g) (kg_negMax g) tokens (kg_burst g) (kg_perSec g) (Some now) (kg_fetchCount g).

(** [keyGuard.admit]: whether a token bearing [kid] may reach the key set; the budget is
    looked at and not spent. *)
Definition guard_admits (now : Time.t) (kid : string) (g : keyGuard) : option AuthError * keyGuard :=
  if bool_decide (kid ∈ kg_served g) then (None, g)
  else match kg_negative g !! kid with
  | Some until =>
      if Time.Before now until then (Some ErrUnknownKey, g)
      else
        let g := refillLocked now (with_negative g (delete kid (kg_negative g))) in
        ((if Float64.ltb (kg_tokens g) f1 then Some ErrRefetchThrottled else None), g)
  | None =>
      let g := refillLocked now g in
      ((if Float64.ltb (kg_tokens g) f1 then Some ErrRefetchThrottled else None), g)
  end.

Definition spend (now : Time.t) (g : keyGuard) : bool * keyGuard :=
  let g := refillLocked now g in
  if Float64.ltb (kg_tokens g) f1 then (false, g)
  else (true, mkKeyGuard (kg_served g) (kg_negative g) (kg_negTTL g) (kg_negMax g) (Float64.sub (kg_tokens g) f1) (kg_burst g) (kg_perSec g)
                (kg_last g) (kg_fetchCount g + 1)).

(** Go ranges over a map in no particular order: [ranged] is the order it takes. *)
Section eviction.
Context (ranged : gmap string Time.t → list string).

Fixpoint evict_until (max : Z) (keys : list string) (m : gmap string Time.t) : gmap string Time.t :=
  match keys with
  | [] => m
  | k :: keys => if (Z.of_nat (size m) <? max)%Z then m else evict_until max keys (delete k m)
  end.

Definition guard_evict (now : Time.t) (g : keyGuard) : keyGuard :=
  if (Z.of_nat (size (kg_negative g)) <? kg_negMax g)%Z then g
  else
    let live := filter (λ kv, Time.Before now kv.2 = true) (kg_negative g) in
    with_negative g (evict_until (kg_negMax g) (ranged live) live).

(** [evict_now] and [now] are the clock as the eviction and the entry read it. *)
Definition observeFailure (evict_now now : Time.t) (kid : string) (g : keyGuard) : keyGuard :=
  if bool_decide (kid ∈ kg_served g) then g
  else
    let g := guard_evict evict_now g in
    with_negative g (<[kid := Time.Add now (kg_negTTL g)]> (kg_negative g)).
End eviction.

Definition recordKeySet (kids : list string) (g : keyGuard) : keyGuard :=
  mkKeyGuard (list_to_set kids) (foldl (λ m k, delete k m) (kg_negative g) kids) (kg_negTTL g) (kg_negMax g) (kg_tokens g) (kg_burst g)
    (kg_perSec g) (kg_last g) (kg_fetchCount g).

(** [jwksTransport.RoundTrip]: what the endpoint answered, the length of its body and the
    key identifiers in it if it is a key set. *)
Inductive JWKSAnswer := JWKSError | JWKSStatus | JWKSBroken | JWKSBody (bytes : Z) (kids : option (list string)).

Definition roundTrip (max : Z) (now : Time.t) (answer : JWKSAnswer) (g : keyGuard) : keyGuard :=
  let '(ok, g) := spend now g in
  if negb ok then g
  else match answer with
  | JWKSBody n (Some kids) => if (max <? n)%Z then g else recordKeySet kids g
  | _ => g
  end.

(** ** The verifier *)

Record issuerVerifier := mkIssuerVerifier { iv_cfg : IssuerConfig; iv_workload : gset string; iv_guard : keyGuard }.

Record Verifier := mkVerifier {
  ve_audience : string; ve_allowedAlgs : list string; ve_allowedACR : list string; ve_maxToken : Z; ve_maxJWKS : Z;
  ve_issuers : gmap string issuerVerifier }.

Section new.
Context `{NetURL}.

Fixpoint add_issuers (cfg : IdentityConfig) (ics : list IssuerConfig) (issuers : gmap string issuerVerifier) : result (gmap string issuerVerifier) :=
  match ics with
  | [] => Ok issuers
  | ic :: ics =>
      if bool_decide (ic_Issuer ic = "") then Err []
      else match issuers !! ic_Issuer ic with
      | Some _ => Err []
      | None =>
          if bool_decide (ic_JWKSURL ic = "") then Err []
          else
            let? _ := checkTransport (ic_Issuer ic) (cf_AllowInsecureTransport cfg) in
            let? _ := checkTransport (ic_JWKSURL ic) (cf_AllowInsecureTransport cfg) in
            let iv := mkIssuerVerifier ic (list_to_set (ic_WorkloadClients ic)) (newKeyGuard cfg) in
            add_issuers cfg ics (<[ic_Issuer ic := iv]> issuers)
      end
  end.

Definition NewVerifier (cfg : IdentityConfig) : result Verifier :=
  if bool_decide (cf_Issuers cfg = []) then Err []
  else if bool_decide (cf_Audience cfg = "") then Err []
  else if bool_decide (cf_Algorithms cfg = []) then Err []
  else if negb (forallb (contains asymmetricAlgs) (cf_Algorithms cfg)) then Err []
  else
    let? issuers := add_issuers cfg (cf_Issuers cfg) ∅ in
    Ok (mkVerifier (cf_Audience cfg) (cf_Algorithms cfg) (cf_AllowedACRValues cfg) (orDefault (cf_MaxTokenBytes cfg) DefaultMaxTokenBytes)
          (orDefault (cf_MaxJWKSBytes cfg) DefaultMaxJWKSBytes) issuers).
End new.

(** ** Tokens *)

(** [decodeSegment]: a base64url segment as the JSON document it holds. *)
Class TokenText := { segment_json : string → option json }.

Definition splitJWS (raw : string) : (string * string * string) + AuthError :=
  match map unbytes (split_on "." (bytes raw)) with
  | [header; payload; signature] =>
      if bool_decide (header = "") || bool_decide (payload = "") then inr ErrMalformedToken else inl (header, payload, signature)
  | _ => inr ErrMalformedToken
  end.

(** The string field of a segment, empty where it is absent; [None] when the segment does
    not decode into the struct that has it. *)
Definition decoded_fields `{TokenText} (seg : string) : option (list (string * json)) :=
  j ← segment_json seg; match fields_of j with Ok fs => Some fs | Err _ => None end.
Definition string_field (key : string) (fs : list (string * json)) : option string :=
  match dec_string (field key fs) with Ok s => Some s | Err _ => None end.

(** The [IDToken] the library returns; [it_Claims] is its payload. *)
Record IDToken := mkIDToken {
  it_Issuer : string; it_Subject : string; it_Audience : list string; it_Expiry : Time.t; it_IssuedAt : Time.t; it_Claims : json }.

Inductive LibResult := LibToken (t : IDToken) | LibExpired | LibFailed.

(** What the library did for one token: its key set fetches with their instants, the
    outcome of the signature check if it asked for one, the clock as a failure is
    recorded, and its result. *)
Record LibCall := mkLibCall {
  lb_now : Time.t; lb_rounds : list (Time.t * JWKSAnswer); lb_signature : option bool; lb_evict : Time.t; lb_observe : Time.t;
  lb_result : LibResult }.

Definition classifyVerifyError (verified expired : bool) : AuthError :=
  if negb verified then ErrSignatureInvalid else if expired then ErrTokenExpired else ErrMalformedToken.

Inductive CredentialMethod := MethodBearerJWT | MethodMTLS.

(** A [Subject] with how and for how long it was proved. *)
Record Authenticated := mkAuthenticated {
  au_Subject : Subject; au_Method : CredentialMethod; au_IssuedAt : Time.t; au_ExpiresAt : Time.t }.

Definition firstNonEmpty (vals : list string) : string :=
  default "" (List.find (λ s, negb (bool_decide (s = ""))) vals).

(** The claims the package reads itself. *)
Record tokenClaims := mkTokenClaims { tc_AuthTime : option Z; tc_ACR : string; tc_AMR : list string; tc_AZP : string; tc_ClientID : string }.

Definition dec_int64_opt (o : option json) : result (option Z) :=
  match o with
  | None | Some JNull => Ok None
  | Some (JInt z) => if ((- 2 ^ 63 <=? z) && (z <? 2 ^ 63))%Z then Ok (Some z) else Err []
  | _ => Err []
  end.

Definition decode_claims (j : json) : result tokenClaims :=
  let? fs := fields_of j in
  let? auth := dec_int64_opt (field "auth_time" fs) in
  let? acr := dec_string (field "acr" fs) in
  let? amr := dec_strings (field "amr" fs) in
  let? azp := dec_string (field "azp" fs) in
  let? client := dec_string (field "client_id" fs) in
  Ok (mkTokenClaims auth acr amr azp client).

Section verify.
Context `{TokenText} (ranged : gmap string Time.t → list string).

(** The guard after the library ran. *)
Definition after_library (maxJWKS : Z) (kid : string) (c : LibCall) (g : keyGuard) : keyGuard :=
  let g := foldl (λ g r, roundTrip maxJWKS r.1 r.2 g) g (lb_rounds c) in
  match lb_signature c with Some false => observeFailure ranged (lb_evict c) (lb_observe c) kid g | _ => g end.

(** The checks on a token the library returned. *)
Definition subject_of (v : Verifier) (iv : issuerVerifier) (tok : IDToken) : Authenticated + AuthError :=
  if negb (contains (it_Audience tok) (ve_audience v)) then inr ErrAudienceMismatch
  else if bool_decide (it_Subject tok = "") then inr ErrMalformedToken
  else match decode_claims (it_Claims tok) with
  | Err _ => inr ErrMalformedToken
  | Ok claims =>
      let clientID := firstNonEmpty [tc_AZP claims; tc_ClientID claims; it_Subject tok] in
      let kind := if bool_decide (clientID ∈ iv_workload iv) then SubjectWorkload else SubjectUser in
      if bool_decide (kind = SubjectUser) && negb (bool_decide (ve_allowedACR v = [])) && negb (contains (ve_allowedACR v) (tc_ACR claims))
      then inr ErrTokenACRNotAllowed
      else
        let auth := match tc_AuthTime claims with Some s => (s * Time.Second)%Z | None => Time.zero end in
        inl (mkAuthenticated
          (mkSubject kind (it_Issuer tok) (it_Subject tok) clientID (it_Audience tok) auth (tc_ACR claims) (tc_AMR claims) (Some (it_Claims tok)))
          MethodBearerJWT (it_IssuedAt tok) (it_Expiry tok))
  end.

Definition with_guard (v : Verifier) (issuer : string) (iv : issuerVerifier) (g : keyGuard) : Verifier :=
  mkVerifier (ve_audience v) (ve_allowedAlgs v) (ve_allowedACR v) (ve_maxToken v) (ve_maxJWKS v)
    (<[issuer := mkIssuerVerifier (iv_cfg iv) (iv_workload iv) g]> (ve_issuers v)).

(** The part of [Verify] that reads the token without trusting it: its key identifier
    and the issuer whose verifier runs. *)
Definition preliminary (v : Verifier) (raw : string) : (string * string * issuerVerifier) + AuthError :=
  if bool_decide (raw = "") then inr ErrMalformedToken
  else if (ve_maxToken v <? Z.of_nat (String.length raw))%Z then inr ErrMalformedToken
  else match splitJWS raw with
  | inr e => inr e
  | inl (header, payload, signature) =>
      if bool_decide (signature = "") then inr ErrAlgorithmNotAllowed
      else match (fs ← decoded_fields header; alg ← string_field "alg" fs; kid ← string_field "kid" fs; Some (alg, kid)) with
      | None => inr ErrMalformedToken
      | Some (alg, kid) =>
          if negb (contains (ve_allowedAlgs v) alg) then inr ErrAlgorithmNotAllowed
          else match (fs ← decoded_fields payload; string_field "iss" fs) with
          | None => inr ErrMalformedToken
          | Some issuer => match ve_issuers v !! issuer with None => inr ErrIssuerNotAllowed | Some iv => inl (kid, issuer, iv) end
          end
      end
  end.

Definition Verify (v : Verifier) (raw : string) (c : LibCall) : (Authenticated + AuthError) * Verifier :=
  match preliminary v raw with
  | inr e => (inr e, v)
  | inl (kid, issuer, iv) =>
      match guard_admits (lb_now c) kid (iv_guard iv) with
      | (Some e, g) => (inr e, with_guard v issuer iv g)
      | (None, g) =>
          let v' := with_guard v issuer iv (after_library (ve_maxJWKS v) kid c g) in
          match lb_result c with
          | LibToken tok => (subject_of v iv tok, v')
          | LibExpired => (inr (classifyVerifyError (bool_decide (lb_signature c = Some true)) true), v')
          | LibFailed => (inr (classifyVerifyError (bool_decide (lb_signature c = Some true)) false), v')
          end
      end
  end.
End verify.

Definition JWKSFetches (v : Verifier) (issuer : string) : Z :=
  match ve_issuers v !! issuer with Some iv => kg_fetchCount (iv_guard iv) | None => 0 end.

(** ** Client certificates *)

Record Certificate := mkCertificate {
  ct_URIs : list string; ct_DNSNames : list string; ct_CommonName : string; ct_Issuer : string; ct_NotBefore : Time.t; ct_NotAfter : Time.t }.
Record ConnectionState := mkConnectionState { cs_PeerCertificates : list Certificate; cs_VerifiedChains : nat }.

Definition TLSIdentity := gset string.

Definition NewTLSIdentity (allowed : list string) : result TLSIdentity :=
  if bool_decide (allowed = []) then Err [] else if contains allowed "" then Err [] else Ok (list_to_set allowed).

Definition certificate_names (leaf : Certificate) : list string :=
  ct_URIs leaf ++ ct_DNSNames leaf ++ (if bool_decide (ct_CommonName leaf = "") then [] else ["CN=" +:+ ct_CommonName leaf]).

Definition TLS_Subject (t : TLSIdentity) (state : option ConnectionState) : Authenticated + AuthError :=
  match state with
  | None | Some (mkConnectionState [] _) => inr ErrMissingCredential
  | Some (mkConnectionState (leaf :: _) chains) =>
      if (chains =? 0)%nat then inr ErrPeerCertificateUnverified
      else match List.find (λ c, bool_decide (c ∈ t)) (certificate_names leaf) with
      | Some c => inl (mkAuthenticated (mkSubject SubjectWorkload (ct_Issuer leaf) c "" [] Time.zero "" [] None) MethodMTLS (ct_NotBefore leaf) (ct_NotAfter leaf))
      | None => inr ErrWorkloadNotAllowed
      end
  end.

Definition requireKind (s : Subject) (kinds : list SubjectKind) : option AuthError :=
  if bool_decide (kinds = []) then None else if contains kinds (su_Kind s) then None else Some ErrWrongSubjectKind.

(** ** The middleware *)

Definition ReasonFor (err : option AuthError) : string :=
  match err with
  | None => "authenticated"
  | Some ErrMissingCredential => "missing_credential"
  | Some ErrAlgorithmNotAllowed => "algorithm_not_allowed"
  | Some ErrIssuerNotAllowed => "issuer_not_allowed"
  | Some ErrAudienceMismatch => "audience_mismatch"
  | Some ErrTokenExpired => "token_expired"
  | Some ErrSignatureInvalid => "signature_invalid"
  | Some ErrUnknownKey => "unknown_key"
  | Some ErrRefetchThrottled => "refetch_throttled"
  | Some ErrTokenACRNotAllowed => "acr_not_allowed"
  | Some ErrWrongSubjectKind => "wrong_subject_kind"
  | Some ErrPeerCertificateUnverified => "peer_certificate_unverified"
  | Some ErrWorkloadNotAllowed => "workload_not_allowed"
  | Some ErrMalformedToken => "malformed_token"
  end.

Definition StatusFor (err : option AuthError) : Z :=
  match err with
  | None => 200
  | Some ErrRefetchThrottled => 503
  | Some ErrWrongSubjectKind | Some ErrWorkloadNotAllowed => 403
  | Some _ => 401
  end.

Record AuthRecord := mkAuthRecord {
  ar_Time : Time.t; ar_CallerID : string; ar_Kind : option SubjectKind; ar_Method : option CredentialMethod; ar_Issuer : string;
  ar_Allowed : bool; ar_Reason : string; ar_HTTPMethod : string; ar_Path : string; ar_RemoteAddr : string }.

Record HTTPRequest := mkHTTPRequest {
  hr_Authorization : string; hr_TLS : option ConnectionState; hr_Method : string; hr_Path : string; hr_RemoteAddr : string }.

Record Middleware := mkMiddleware { mw_verifier : Verifier; mw_tls : option TLSIdentity }.

Definition lowercase (s : list ascii) : list ascii := map Strconv.lower s.

Definition bearerToken (r : HTTPRequest) : option string :=
  let h := bytes (hr_Authorization r) in
  let prefix := bytes "bearer " in
  if (length h <=? length prefix)%nat || negb (bool_decide (lowercase (take (length prefix) h) = lowercase prefix)) then None
  else Some (unbytes (drop (length prefix) h)).

(** What the middleware answers a request: the handler runs for a subject, or a status,
    an error code and whether to retry. *)
Inductive Answer := Handled (a : Authenticated) | Rejected (status : Z) (code : string) (retry : bool).

Definition reject (err : AuthError) : Answer :=
  let status := StatusFor (Some err) in
  if (status =? 403)%Z then Rejected status "insufficient_scope" false
  else if (status =? 503)%Z then Rejected status "temporarily_unavailable" true
  else Rejected status "invalid_token" false.

Definition anonymousCaller : string := "anonymous".

Definition record_auth (now : Time.t) (r : HTTPRequest) (sub : option Authenticated) (err : option AuthError) : AuthRecord :=
  let allowed := bool_decide (err = None) in
  match sub with
  | None => mkAuthRecord now anonymousCaller None None "" allowed (ReasonFor err) (hr_Method r) (hr_Path r) (hr_RemoteAddr r)
  | Some a => mkAuthRecord now (CallerID (au_Subject a)) (Some (su_Kind (au_Subject a))) (Some (au_Method a)) (su_Issuer (au_Subject a)) allowed
                (ReasonFor err) (hr_Method r) (hr_Path r) (hr_RemoteAddr r)
  end.

Section middleware.
Context `{TokenText} (ranged : gmap string Time.t → list string).

Definition authenticate (m : Middleware) (r : HTTPRequest) (c : LibCall) : (Authenticated + AuthError) * Middleware :=
  match bearerToken r with
  | Some token => let '(a, v) := Verify ranged (mw_verifier m) token c in (a, mkMiddleware v (mw_tls m))
  | None =>
      match mw_tls m, hr_TLS r with
      | Some t, Some state =>
          if bool_decide (length (cs_PeerCertificates state) = 0) then (inr ErrMissingCredential, m) else (TLS_Subject t (Some state), m)
      | _, _ => (inr ErrMissingCredential, m)
      end
  end.

(** [Require]: the answer, the record written before it, and the middleware after. *)
Definition Require_ (m : Middleware) (kinds : list SubjectKind) (now : Time.t) (r : HTTPRequest) (c : LibCall) : Answer * AuthRecord * Middleware :=
  let '(a, m') := authenticate m r c in
  let sub := match a with inl s => Some s | inr _ => None end in
  let err := match a with inl s => requireKind (au_Subject s) kinds | inr e => Some e end in
  let answer := match a with
                | inl s => match requireKind (au_Subject s) kinds with None => Handled s | Some e => reject e end
                | inr e => reject e
                end in
  (answer, record_auth now r sub err, m').
End middleware.
