(* ===== verification/IdentitySpec.v ===== *)
(** * What authentication promises

    A subject that comes out of [Verify] is pinned by the configuration in everything a
    caller could lie about; the guard on unknown keys stays bounded, spends no more than
    its budget and never turns away a key the issuer serves; a handler behind the
    middleware runs only for a subject of the kinds it asked for, and every attempt is
    recorded. *)
From Stdlib Require Import Ascii.
From S2P Require Import Prelude GoLib Policy Json Limiter LimiterSpec Challenge Netip Url Identity.

(** ** Histories *)

Section history.
Context `{TokenText} (ranged : gmap string Time.t → list string).

Definition verify_step (v : Verifier) (rc : string * LibCall) : Verifier := (Verify ranged v rc.1 rc.2).2.
(** The verifier after a sequence of tokens. *)
Definition run_verify (v : Verifier) (calls : list (string * LibCall)) : Verifier := foldl verify_step v calls.

(** [v] has the pins of [v0]: only guards differ. *)
Record same_pins (v0 v : Verifier) : Prop := {
  sp_audience : ve_audience v = ve_audience v0;
  sp_algs : ve_allowedAlgs v = ve_allowedAlgs v0;
  sp_acr : ve_allowedACR v = ve_allowedACR v0;
  sp_issuers : ∀ issuer, (λ iv, (iv_cfg iv, iv_workload iv)) <$> ve_issuers v !! issuer = (λ iv, (iv_cfg iv, iv_workload iv)) <$> ve_issuers v0 !! issuer }.

Lemma preliminary_Ok v raw kid issuer iv : preliminary v raw = inl (kid, issuer, iv) →
  ve_issuers v !! issuer = Some iv ∧ ∃ header payload signature fs alg, splitJWS raw = inl (header, payload, signature) ∧ signature ≠ "" ∧
    decoded_fields header = Some fs ∧ string_field "alg" fs = Some alg ∧ string_field "kid" fs = Some kid ∧ alg ∈ ve_allowedAlgs v.
Proof.
  unfold preliminary. case_bool_decide; [done|]. case_match; [done|]. destruct (splitJWS raw) as [[[header payload] signature]|] eqn:Es; [|done].
  case_bool_decide as Hsig; [done|]. destruct (decoded_fields header) as [fs|] eqn:Eh; [|done]. cbn [mbind option_bind].
  destruct (string_field "alg" fs) as [alg|] eqn:Ea; [|done]. cbn [mbind option_bind]. destruct (string_field "kid" fs) as [k|] eqn:Ek; [|done]. cbn [mbind option_bind].
  destruct (contains (ve_allowedAlgs v) alg) eqn:Ec; [|done]. apply contains_spec in Ec. cbn [negb].
  destruct (decoded_fields payload ≫= _) as [iss|]; [|done]. destruct (ve_issuers v !! iss) as [iv'|] eqn:Ei; [|done].
  intros [= <- <- <-]. split; [done|]. exists header, payload, signature, fs, alg. done.
Qed.

Lemma with_guard_pins v issuer iv g : ve_issuers v !! issuer = Some iv → same_pins v (with_guard v issuer iv g).
Proof.
  intros Hi. split; [done..|]. intros issuer'. simpl. destruct (decide (issuer' = issuer)) as [->|]; [by rewrite lookup_insert_eq, Hi|by rewrite lookup_insert_ne].
Qed.

(** What one call changes: the guard of the issuer it selected. *)
Lemma Verify_guard v raw c : (Verify ranged v raw c).2 = v ∨
  ∃ kid issuer iv g, preliminary v raw = inl (kid, issuer, iv) ∧ (Verify ranged v raw c).2 = with_guard v issuer iv g ∧
    (g = (guard_admits (lb_now c) kid (iv_guard iv)).2 ∨ g = after_library ranged (ve_maxJWKS v) kid c (guard_admits (lb_now c) kid (iv_guard iv)).2).
Proof.
  unfold Verify. destruct (preliminary v raw) as [[[kid issuer] iv]|] eqn:Ep; [right|by left].
  destruct (guard_admits _ _ _) as [[e|] g] eqn:Eg; [exists kid, issuer, iv, g; rewrite Eg; naive_solver|].
  exists kid, issuer, iv, (after_library ranged (ve_maxJWKS v) kid c g). split; [done|]. rewrite Eg. destruct (lb_result c); naive_solver.
Qed.

Lemma Verify_pins v raw c : same_pins v (Verify ranged v raw c).2.
Proof.
  destruct (Verify_guard v raw c) as [->|(kid & issuer & iv & g & Hp & -> & _)]; [by split|]. apply with_guard_pins. by apply preliminary_Ok in Hp as [? _].
Qed.

Lemma run_verify_pins v calls : same_pins v (run_verify v calls).
Proof.
  revert v. induction calls as [|rc calls IH]; intros v; [by split|]. simpl. destruct (IH (verify_step v rc)) as [H1 H2 H3 H4].
  destruct (Verify_pins v rc.1 rc.2) as [G1 G2 G3 G4]. fold (verify_step v rc) in *. split; [congruence..|]. intros issuer. by rewrite H4.
Qed.
End history.

(** ** Configuration *)

Definition transport_ok `{NetURL} (allowInsecure : bool) (raw : string) : Prop :=
  ∃ u, url_Parse raw = Some u ∧ (u_Scheme u = "https" ∨ allowInsecure = true).

Lemma checkTransport_Ok `{NetURL} raw b : checkTransport raw b = Ok tt → transport_ok b raw.
Proof. unfold checkTransport, transport_ok. destruct (url_Parse raw) as [u|]; [|done]. case_bool_decide; [eauto|]. destruct b; [eauto|done]. Qed.

(** What the configuration pins about an issuer. *)
Definition pinned `{NetURL} (cfg : IdentityConfig) (issuer : string) (iv : issuerVerifier) : Prop :=
  iv_cfg iv ∈ cf_Issuers cfg ∧ ic_Issuer (iv_cfg iv) = issuer ∧ iv_workload iv = list_to_set (ic_WorkloadClients (iv_cfg iv)) ∧
  iv_guard iv = newKeyGuard cfg ∧ transport_ok (cf_AllowInsecureTransport cfg) (ic_JWKSURL (iv_cfg iv)).

Lemma add_issuers_pinned `{NetURL} cfg ics issuers out :
  add_issuers cfg ics issuers = Ok out → (∀ ic, ic ∈ ics → ic ∈ cf_Issuers cfg) → (∀ issuer iv, issuers !! issuer = Some iv → pinned cfg issuer iv) →
  ∀ issuer iv, out !! issuer = Some iv → pinned cfg issuer iv.
Proof.
  revert issuers. induction ics as [|ic ics IH]; intros issuers; simpl; [intros [= <-]; eauto|]. case_bool_decide; [done|].
  destruct (issuers !! ic_Issuer ic); [done|]. case_bool_decide; [done|]. intros ([] & Ht1 & ([] & Ht2 & Ha)%res_bind_Ok)%res_bind_Ok Hin Hp.
  apply checkTransport_Ok in Ht1, Ht2. apply (IH _ Ha); [set_solver|]. intros issuer iv. destruct (decide (issuer = ic_Issuer ic)) as [->|]; [|rewrite lookup_insert_ne by done; apply Hp].
  rewrite lookup_insert_eq. intros [= <-]. split_and!; try done. apply Hin. set_solver.
Qed.

Lemma NewVerifier_Ok `{NetURL} cfg v : NewVerifier cfg = Ok v →
  ve_audience v = cf_Audience cfg ∧ ve_allowedAlgs v = cf_Algorithms cfg ∧ ve_allowedACR v = cf_AllowedACRValues cfg ∧
  (∀ alg, alg ∈ cf_Algorithms cfg → alg ∈ asymmetricAlgs) ∧ ∀ issuer iv, ve_issuers v !! issuer = Some iv → pinned cfg issuer iv.
Proof.
  unfold NewVerifier. repeat (case_bool_decide; [done|]). destruct (forallb _ _) eqn:Ea; [|done]. cbn [negb].
  intros (issuers & Hi & [= <-])%res_bind_Ok. simpl. split_and!; [done..| |].
  - intros alg Hin. rewrite forallb_true in Ea. by apply contains_spec, Ea.
  - eapply add_issuers_pinned; [done|done|]. intros issuer iv Hl. by rewrite lookup_empty in Hl.
Qed.

(** ** Tokens *)

(** What the library documents: a token it returns was signed by a key of the issuer's
    key set, names the issuer it was asked to verify for, and has not expired. *)
Definition lib_honest (issuer : string) (c : LibCall) : Prop :=
  ∀ tok, lb_result c = LibToken tok → lb_signature c = Some true ∧ it_Issuer tok = issuer ∧ (lb_now c <= it_Expiry tok)%Z.

Lemma subject_of_Ok v iv tok a : subject_of v iv tok = inl a →
  ve_audience v ∈ it_Audience tok ∧ it_Subject tok ≠ "" ∧ au_Method a = MethodBearerJWT ∧ au_ExpiresAt a = it_Expiry tok ∧
  su_Issuer (au_Subject a) = it_Issuer tok ∧ su_ID (au_Subject a) = it_Subject tok ∧ su_Audience (au_Subject a) = it_Audience tok ∧
  su_Kind (au_Subject a) = (if bool_decide (su_ClientID (au_Subject a) ∈ iv_workload iv) then SubjectWorkload else SubjectUser) ∧
  (su_Kind (au_Subject a) = SubjectUser → ve_allowedACR v ≠ [] → su_ACR (au_Subject a) ∈ ve_allowedACR v).
Proof.
  unfold subject_of. destruct (contains (it_Audience tok) _) eqn:Ea; [|done]. apply contains_spec in Ea. cbn [negb]. case_bool_decide as Hs; [done|].
  destruct (decode_claims _) as [cl|]; [|done]. set (client := firstNonEmpty _). set (kind := if bool_decide (client ∈ iv_workload iv) then SubjectWorkload else SubjectUser).
  destruct (bool_decide (kind = SubjectUser) && _ && _) eqn:Ek; [done|]. intros [= <-]. simpl. split_and!; try done.
  intros Hk Hne. rewrite bool_decide_eq_true_2, bool_decide_eq_false_2 in Ek by done. cbn [andb negb] in Ek. apply negb_false_iff in Ek. by apply contains_spec.
Qed.

(** C28. An accepted token is pinned by the configuration.  Whatever tokens came before,
    if [Verify] returns a subject for a token, then the token has a signature under an
    algorithm the operator listed, which is an asymmetric one; the signature held for the
    key set of a configured issuer, fetched over a transport the operator allowed; the
    token names the configured audience, has a subject and has not expired; the subject is
    a workload exactly when its client is listed for that issuer; and a person
    authenticated with a class the operator allows. *)
Theorem accepted_token_is_pinned `{NetURL, TokenText} ranged cfg v0 calls raw c a :
  NewVerifier cfg = Ok v0 → let v := run_verify ranged v0 calls in
  (∀ kid issuer iv, preliminary v raw = inl (kid, issuer, iv) → lib_honest issuer c) → (Verify ranged v raw c).1 = inl a →
  (∃ header payload signature fs alg, splitJWS raw = inl (header, payload, signature) ∧ signature ≠ "" ∧ decoded_fields header = Some fs ∧
     string_field "alg" fs = Some alg ∧ alg ∈ cf_Algorithms cfg ∧ alg ∈ asymmetricAlgs) ∧
  lb_signature c = Some true ∧ cf_Audience cfg ∈ su_Audience (au_Subject a) ∧ su_ID (au_Subject a) ≠ "" ∧ (lb_now c <= au_ExpiresAt a)%Z ∧
  ∃ ic, ic ∈ cf_Issuers cfg ∧ su_Issuer (au_Subject a) = ic_Issuer ic ∧ transport_ok (cf_AllowInsecureTransport cfg) (ic_JWKSURL ic) ∧
    (su_Kind (au_Subject a) = if bool_decide (su_ClientID (au_Subject a) ∈ ic_WorkloadClients ic) then SubjectWorkload else SubjectUser) ∧
    (su_Kind (au_Subject a) = SubjectUser → cf_AllowedACRValues cfg ≠ [] → su_ACR (au_Subject a) ∈ cf_AllowedACRValues cfg).
Proof.
  intros Hv0 v Hlib Hver. apply NewVerifier_Ok in Hv0 as (Haud & Halg & Hacr & Has & Hpin). destruct (run_verify_pins ranged v0 calls) as [S1 S2 S3 S4]. fold v in S1, S2, S3, S4.
  unfold Verify in Hver. destruct (preliminary v raw) as [[[kid issuer] iv]|] eqn:Ep; [|done]. specialize (Hlib _ _ _ eq_refl).
  destruct (guard_admits _ _ _) as [[e|] g]; [done|]. destruct (lb_result c) as [tok| |] eqn:El; [|done..]. simpl in Hver.
  destruct (Hlib tok El) as (Hsig & Hiss & Hexp). apply preliminary_Ok in Ep as (Hi & header & payload & signature & fs & alg & H1 & H2 & H3 & H4 & _ & H5).
  apply subject_of_Ok in Hver as (A1 & A2 & _ & A3 & A4 & A5 & A6 & A7 & A8).
  pose proof (S4 issuer) as Hs4. rewrite Hi in Hs4. destruct (ve_issuers v0 !! issuer) as [iv0|] eqn:Hi0; [|done]. simpl in Hs4. injection Hs4 as Hcfg Hw.
  destruct (Hpin _ _ Hi0) as (Hin & Hid & Hwk & _ & Htr). split_and!.
  - exists header, payload, signature, fs, alg. rewrite S2, Halg in H5. split_and!; try done. by apply Has.
  - done.
  - rewrite A6, <-Haud, <-S1. done.
  - by rewrite A5.
  - by rewrite A3.
  - exists (iv_cfg iv0). split_and!; [done|by rewrite A4, Hiss, Hid|done| |by rewrite <-Hacr, <-S3].
    rewrite A7, Hw, Hwk. erewrite bool_decide_ext; [done|]. apply elem_of_list_to_set.
Qed.

(** A token that is not even worth a look costs nothing: no fetch, no change. *)
Lemma foreign_token_costs_nothing `{TokenText} ranged v raw c e : preliminary v raw = inr e → Verify ranged v raw c = (inr e, v).
Proof. unfold Verify. by intros ->. Qed.

(** ** The guard *)

(** A property of guards that every step of a verification keeps, holds of every issuer's
    guard after any history. *)
Section guards.
Context `{TokenText} (ranged : gmap string Time.t → list string) (P : string → keyGuard → Prop).

Definition guards_hold (v : Verifier) : Prop := ∀ issuer iv, ve_issuers v !! issuer = Some iv → P issuer (iv_guard iv).

(** What a step asks of [P] for one token and what the library did for it. *)
Definition step_keeps (maxJWKS : Z) (raw : string) (c : LibCall) : Prop :=
  ∀ issuer kid g, P issuer g → P issuer (guard_admits (lb_now c) kid g).2 ∧ P issuer (after_library ranged maxJWKS kid c (guard_admits (lb_now c) kid g).2).

Lemma run_guards v calls : (∀ rc, rc ∈ calls → step_keeps (ve_maxJWKS v) rc.1 rc.2) → guards_hold v → guards_hold (run_verify ranged v calls).
Proof.
  revert v. induction calls as [|[raw c] calls IH]; intros v Hk Hv; [done|]. simpl. assert (ve_maxJWKS (verify_step ranged v (raw, c)) = ve_maxJWKS v) as Hm.
  { unfold verify_step. simpl. destruct (Verify_guard ranged v raw c) as [->|(? & ? & ? & ? & _ & -> & _)]; done. }
  apply IH; [intros rc Hin; rewrite Hm; apply Hk; set_solver|]. unfold verify_step. simpl.
  destruct (Verify_guard ranged v raw c) as [->|(kid & issuer & iv & g & Hp & -> & Hg)]; [done|]. apply preliminary_Ok in Hp as [Hi _].
  assert (P issuer g) as HP. { destruct (Hk (raw, c) ltac:(set_solver) issuer kid (iv_guard iv) (Hv _ _ Hi)) as [H1 H2]. by destruct Hg as [-> | ->]. }
  intros issuer' iv'. simpl. destruct (decide (issuer' = issuer)) as [->|]; [rewrite lookup_insert_eq; by intros [= <-]|rewrite lookup_insert_ne by done; apply Hv].
Qed.
End guards.

(** The cache of unknown keys is bounded and lists no key the issuer serves. *)
Record guard_ok (g : keyGuard) : Prop := {
  go_max : (1 <= kg_negMax g)%Z;
  go_size : (Z.of_nat (size (kg_negative g)) <= kg_negMax g)%Z;
  go_served : ∀ kid, kid ∈ kg_served g → kg_negative g !! kid = None }.

Lemma refill_ok now g : guard_ok g → guard_ok (refillLocked now g).
Proof. by intros [? ? ?]. Qed.

Lemma delete_size {A} k (m : gmap string A) : size (delete k m) <= size m.
Proof. apply map_subseteq_size, delete_subseteq. Qed.

Lemma guard_admits_ok now kid g : guard_ok g → guard_ok (guard_admits now kid g).2.
Proof.
  intros Hg. unfold guard_admits. case_bool_decide; [done|]. destruct (kg_negative g !! kid); [|by apply refill_ok]. case_match; [done|]. apply refill_ok.
  destruct Hg as [H1 H2 H3]. split; simpl; [done| |].
  - pose proof (delete_size kid (kg_negative g)). lia.
  - intros k Hk. apply lookup_delete_None. right. by apply H3.
Qed.

Lemma spend_ok now g : guard_ok g → guard_ok (spend now g).2.
Proof. intros Hg%(refill_ok now). unfold spend. case_match; [done|]. by destruct Hg. Qed.

Lemma delete_all_lookup (kids : list string) (m : gmap string Time.t) k : foldl (λ m k, delete k m) m kids !! k = if bool_decide (k ∈ kids) then None else m !! k.
Proof.
  revert m. induction kids as [|k' kids IH]; intros m; [done|]. simpl. rewrite IH. destruct (decide (k = k')) as [->|].
  - rewrite (bool_decide_eq_true_2 (k' ∈ k' :: kids)) by set_solver. case_bool_decide; [done|]. apply lookup_delete_eq.
  - rewrite lookup_delete_ne by done. erewrite bool_decide_ext; [done|]. set_solver.
Qed.

Lemma delete_all_size (kids : list string) (m : gmap string Time.t) : size (foldl (λ m k, delete k m) m kids) <= size m.
Proof. revert m. induction kids as [|k kids IH]; intros m; [done|]. simpl. etrans; [apply IH|apply delete_size]. Qed.

Lemma roundTrip_ok max now ans g : guard_ok g → guard_ok (roundTrip max now ans g).
Proof.
  intros Hg%(spend_ok now). unfold roundTrip. destruct (spend now g) as [ok g']. simpl in Hg. destruct ok; [|done]. cbn [negb].
  destruct ans as [| | |n [kids|]]; try done. case_match; [done|]. destruct Hg as [H1 H2 H3]. split; simpl; [done| |].
  - pose proof (delete_all_size kids (kg_negative g')). lia.
  - intros kid Hk. rewrite delete_all_lookup. rewrite elem_of_list_to_set in Hk. by rewrite bool_decide_eq_true_2.
Qed.

Lemma evict_until_spec max (keys : list string) (m : gmap string Time.t) : (1 <= max)%Z → (∀ k, is_Some (m !! k) → k ∈ keys) →
  (Z.of_nat (size (evict_until max keys m)) < max)%Z ∧ ∀ k x, evict_until max keys m !! k = Some x → m !! k = Some x.
Proof.
  intros Hm. revert m. induction keys as [|k keys IH]; intros m Hk; simpl.
  - assert (m = ∅) as ->. { apply map_empty. intros k. destruct (m !! k) eqn:E; [|done]. assert (k ∈ ([] : list string)) as Hin by (apply Hk; eauto). by apply not_elem_of_nil in Hin. }
    rewrite map_size_empty. split; [lia|done].
  - destruct (Z.ltb_spec (Z.of_nat (size m)) max); [done|]. destruct (IH (delete k m)) as [H1 H2].
    + intros k' [x Hx]. apply lookup_delete_Some in Hx as [Hne Hx]. assert (k' ∈ k :: keys) by (apply Hk; eauto). set_solver.
    + split; [done|]. intros k' x Hx%H2. by apply lookup_delete_Some in Hx as [_ ?].
Qed.

Section evict.
Context (ranged : gmap string Time.t → list string) (Hranged : ∀ m k, is_Some (m !! k) → k ∈ ranged m).

Lemma guard_evict_ok now g : guard_ok g →
  guard_ok (guard_evict ranged now g) ∧ kg_served (guard_evict ranged now g) = kg_served g ∧ kg_negMax (guard_evict ranged now g) = kg_negMax g ∧
  (Z.of_nat (size (kg_negative (guard_evict ranged now g))) < kg_negMax g)%Z.
Proof.
  intros [H1 H2 H3]. unfold guard_evict. destruct (Z.ltb_spec (Z.of_nat (size (kg_negative g))) (kg_negMax g)); [by split_and!|].
  set (live := filter _ (kg_negative g)). destruct (evict_until_spec (kg_negMax g) (ranged live) live H1 (Hranged live)) as [Hs Hl]. split_and!; [|done..].
  split; simpl; [done|lia|]. intros kid Hk. destruct (evict_until _ _ _ !! kid) as [x|] eqn:E; [|done]. apply Hl, map_lookup_filter_Some in E as [E _]. by rewrite H3 in E.
Qed.

Lemma observe_ok e now kid g : guard_ok g → guard_ok (observeFailure ranged e now kid g).
Proof.
  intros Hg. unfold observeFailure. case_bool_decide as Hk; [done|]. destruct (guard_evict_ok e g Hg) as ([H1 H2 H3] & Hs & Hm & Hlt). split; simpl; [done| |].
  - pose proof (size_insert_le kid (Time.Add now (kg_negTTL (guard_evict ranged e g))) (kg_negative (guard_evict ranged e g))). lia.
  - intros k Hin. rewrite lookup_insert_ne; [by apply H3|]. intros ->. apply Hk. by rewrite <-Hs.
Qed.

Lemma after_library_ok max kid c g : guard_ok g → guard_ok (after_library ranged max kid c g).
Proof.
  intros Hg. unfold after_library. assert (guard_ok (foldl (λ g r, roundTrip max r.1 r.2 g) g (lb_rounds c))) as Hr.
  { revert g Hg. induction (lb_rounds c) as [|r rs IH]; intros g Hg; [done|]. apply IH. by apply roundTrip_ok. }
  destruct (lb_signature c) as [[]|]; [done|by apply observe_ok|done].
Qed.
End evict.

(** [kid] is served, and stays so while every key set that is fetched lists it. *)
Definition lists_key (kid : string) (c : LibCall) : Prop := ∀ now n kids, (now, JWKSBody n (Some kids)) ∈ lb_rounds c → kid ∈ kids.

Lemma served_kept ranged kid max k c g : lists_key kid c → kid ∈ kg_served g → kid ∈ kg_served (after_library ranged max k c g).
Proof.
  intros Hl Hs. unfold after_library, lists_key in *. assert (kid ∈ kg_served (foldl (λ g r, roundTrip max r.1 r.2 g) g (lb_rounds c))) as Hr.
  { revert g Hs. induction (lb_rounds c) as [|[now ans] rs IH]; intros g Hs; [done|]. simpl. apply IH; [intros now' n kids Hin; eapply Hl; by right|].
    unfold roundTrip. destruct (spend now g) as [ok g'] eqn:Es. assert (kid ∈ kg_served g') as Hs' by (unfold spend in Es; case_match; injection Es as _ <-; done).
    destruct ok; [|done]. cbn [negb]. destruct ans as [| | |n [kids|]]; try done. case_match; [done|]. simpl. apply elem_of_list_to_set. eapply (Hl now n kids). by left. }
  destruct (lb_signature c) as [[]|]; [done| |done]. unfold observeFailure. case_bool_decide; [done|]. simpl. unfold guard_evict. by case_match.
Qed.

Lemma admits_served now kid k g : kid ∈ kg_served g → kid ∈ kg_served (guard_admits now k g).2.
Proof. intros Hs. unfold guard_admits. case_bool_decide; [done|]. destruct (kg_negative g !! k); [|done]. by case_match. Qed.


(** C35. Forged tokens lock nobody out and cannot grow the guard.  After any history of
    tokens, the cache of unknown keys of every issuer stays within its size and lists no
    key that the issuer serves; and once an issuer serves a key, as long as every key set
    fetched since lists it, no sequence of failed tokens makes the guard turn away a token
    that bears it. *)
Theorem forged_tokens_lock_nobody_out `{NetURL, TokenText} ranged cfg v0 before calls issuer iv1 iv kid now :
  (∀ m k, is_Some (m !! k) → k ∈ ranged m) → NewVerifier cfg = Ok v0 →
  let v1 := run_verify ranged v0 before in let v2 := run_verify ranged v1 calls in
  ve_issuers v1 !! issuer = Some iv1 → ve_issuers v2 !! issuer = Some iv →
  guard_ok (iv_guard iv1) ∧ guard_ok (iv_guard iv) ∧
  (kid ∈ kg_served (iv_guard iv1) → (∀ rc, rc ∈ calls → lists_key kid rc.2) → guard_admits now kid (iv_guard iv) = (None, iv_guard iv)).
Proof.
  intros Hr Hv0 v1 v2 Hi1 Hi. apply NewVerifier_Ok in Hv0 as (_ & _ & _ & _ & Hpin).
  assert (guards_hold (λ _, guard_ok) v0) as Hok0.
  { intros i iv0 (_ & _ & _ & -> & _)%Hpin. split; simpl; [|rewrite map_size_empty|done]; unfold orDefault, DefaultUnknownKeyCacheSize; case_match; lia. }
  assert (∀ calls v, guards_hold (λ _, guard_ok) v → guards_hold (λ _, guard_ok) (run_verify ranged v calls)) as Hok.
  { intros cs v Hv. apply run_guards; [|done]. intros rc _ i k g Hg. split; [by apply guard_admits_ok|by apply after_library_ok, guard_admits_ok]. }
  assert (guards_hold (λ _, guard_ok) v1) as H1 by (by apply Hok). split; [by apply (H1 issuer)|]. split; [by apply (Hok calls v1 H1 issuer)|].
  intros Hs Hl. assert (guards_hold (λ i g, i = issuer → kid ∈ kg_served g) v2) as H2.
  { apply run_guards.
    - intros rc Hin i k g Hg. split; intros ->; [by apply admits_served, Hg|]. apply served_kept; [by apply Hl|by apply admits_served, Hg].
    - intros i iv' Hi' ->. congruence. }
  unfold guard_admits. by rewrite bool_decide_eq_true_2 by (by apply (H2 issuer)).
Qed.

(** ** The budget *)

(** A refill rate that is a number of float64. *)
Definition finite_rate (x : Float64.t) : bool :=
  match Float64.to_spec x with SpecFloat.S754_zero _ | SpecFloat.S754_finite _ _ _ => true | _ => false end.

(** [n] refetches are left at the instant [now]. *)
Definition budget (now : Time.t) (burst : Z) (g : keyGuard) : Prop :=
  finite_rate (kg_perSec g) = true ∧ is_int (kg_burst g) burst ∧ (kg_last g = None ∨ kg_last g = Some now) ∧
  ∃ n, is_int (kg_tokens g) n ∧ (0 <= n <= burst)%Z ∧ (n + kg_fetchCount g = burst)%Z.

Section budget.
Context (now : Time.t) (burst : Z) (Hburst : (0 <= burst < 2 ^ 53)%Z).

Lemma refill_budget g : budget now burst g → budget now burst (refillLocked now g).
Proof.
  intros (Hf & Hb & Hl & n & Hn & Hr & Hc). unfold budget, refillLocked. cbn [kg_perSec kg_burst kg_last kg_tokens kg_fetchCount]. split; [done|]. split; [done|]. split; [by right|].
  exists n. split; [|done]. destruct (kg_last g) as [last|]; [|done]. destruct Hl as [|[= ->]]; [done|]. rewrite Sub_self.
  assert (is_int (Float64.mul (Float64.seconds 0) (kg_perSec g)) 0) as H0.
  { change (Float64.seconds 0) with (Float64.Fin 0 0). unfold Float64.mul, finite_rate in *. destruct (Float64.to_spec (kg_perSec g)) as [[]|[]| |[]]; done. }
  replace n with (Z.min (n + 0) burst) by lia. apply min_int; [|done]. apply add_int; (done || lia).
Qed.

Lemma spend_budget g : budget now burst g → budget now burst (spend now g).2.
Proof.
  intros (Hf & Hb & Hl & n & Hn & Hr & Hc)%refill_budget. unfold spend. destruct (Float64.ltb (kg_tokens (refillLocked now g)) f1) eqn:E; [by repeat (split; [done|]); eauto|].
  rewrite (ltb_int _ _ n 1) in E by (done || apply of_Z_int). apply Z.ltb_ge in E. unfold budget. cbn [snd kg_perSec kg_burst kg_last kg_tokens kg_fetchCount].
  split; [done|]. split; [done|]. split; [done|]. exists (n - 1)%Z. split; [apply sub_int; (done || lia || apply of_Z_int)|]. lia.
Qed.

Lemma admits_budget kid g : budget now burst g → budget now burst (guard_admits now kid g).2.
Proof. intros Hg. unfold guard_admits. case_bool_decide; [done|]. destruct (kg_negative g !! kid); [|by apply refill_budget]. case_match; [done|]. by apply refill_budget. Qed.

Lemma library_budget ranged max kid c g : (∀ r, r ∈ lb_rounds c → r.1 = now) → budget now burst g → budget now burst (after_library ranged max kid c g).
Proof.
  intros Hr Hg. unfold after_library. assert (budget now burst (foldl (λ g r, roundTrip max r.1 r.2 g) g (lb_rounds c))) as Hrs.
  { revert g Hg. induction (lb_rounds c) as [|r rs IH]; intros g Hg; [done|]. simpl. apply IH; [intros r' Hin; apply Hr; by right|]. rewrite (Hr r) by (by left).
    apply spend_budget in Hg. unfold roundTrip. destruct (spend now g) as [ok g']. simpl in Hg. destruct ok; [|done]. cbn [negb]. destruct r.2 as [| | |n [kids|]]; try done. by case_match. }
  destruct (lb_signature c) as [[]|]; [done| |done]. unfold observeFailure. case_bool_decide; [done|]. unfold guard_evict. by case_match.
Qed.
End budget.

(** A flood costs a bounded number of fetches: however many tokens arrive in one
    instant, with whatever key identifiers, and whatever the library does with them, the
    endpoint of an issuer is asked for its key set at most as often as the burst of the
    budget. *)
Theorem flood_costs_the_burst `{NetURL, TokenText} ranged cfg v0 now calls issuer :
  NewVerifier cfg = Ok v0 → let burst := orDefault (cf_JWKSRefetchBurst cfg) DefaultJWKSRefetchBurst in
  (burst < 2 ^ 53)%Z → finite_rate (kg_perSec (newKeyGuard cfg)) = true →
  (∀ rc, rc ∈ calls → lb_now rc.2 = now ∧ ∀ r, r ∈ lb_rounds rc.2 → r.1 = now) →
  (0 <= JWKSFetches (run_verify ranged v0 calls) issuer <= burst)%Z.
Proof.
  intros Hv0 burst Hb Hf Hnow. assert (0 <= burst)%Z as Hb0 by (unfold burst, orDefault, DefaultJWKSRefetchBurst; case_match; lia).
  apply NewVerifier_Ok in Hv0 as (_ & _ & _ & _ & Hpin). assert (guards_hold (λ _, budget now burst) (run_verify ranged v0 calls)) as Hbud.
  { apply run_guards.
    - intros [raw c] Hin i k g Hg. simpl. destruct (Hnow _ Hin) as [Hn Hr]. simpl in Hn, Hr. rewrite Hn. split; [by apply admits_budget|]. apply library_budget; [lia|done|]. by apply admits_budget.
    - intros i iv0 (_ & _ & _ & -> & _)%Hpin. assert (is_int (Float64.of_int64 burst) burst) as Hbi.
      { unfold Float64.of_int64. rewrite Float64.round53_exact; [apply of_Z_int|]. unfold Float64.exact_int. apply Z.leb_le. lia. }
      split; [done|]. split; [done|]. split; [by left|]. exists burst. simpl. split; [done|]. lia. }
  unfold JWKSFetches. destruct (ve_issuers _ !! issuer) as [iv|] eqn:E; [|lia]. destruct (Hbud _ _ E) as (_ & _ & _ & n & _ & Hn & Hc). lia.
Qed.

(** ** The middleware *)

Lemma TLS_Subject_Ok t state a : TLS_Subject t (Some state) = inl a →
  ∃ leaf, head (cs_PeerCertificates state) = Some leaf ∧ cs_VerifiedChains state ≠ 0 ∧ su_ID (au_Subject a) ∈ t ∧
    su_ID (au_Subject a) ∈ certificate_names leaf ∧ su_Kind (au_Subject a) = SubjectWorkload ∧ au_Method a = MethodMTLS.
Proof.
  unfold TLS_Subject. destruct state as [[|leaf certs] chains]; [done|]. destruct (Nat.eqb_spec chains 0); [done|].
  destruct (List.find _ (certificate_names leaf)) as [name|] eqn:E; [|done]. intros [= <-]. apply find_some in E as [Hin Hname]. apply bool_decide_eq_true in Hname.
  exists leaf. simpl. split_and!; try done. by apply list_elem_of_In.
Qed.

(** How a request came to have a subject. *)
Definition credential `{TokenText} ranged (m : Middleware) (r : HTTPRequest) (c : LibCall) (a : Authenticated) : Prop :=
  match bearerToken r with
  | Some token => (Verify ranged (mw_verifier m) token c).1 = inl a
  | None => ∃ t state leaf, mw_tls m = Some t ∧ hr_TLS r = Some state ∧ head (cs_PeerCertificates state) = Some leaf ∧ cs_VerifiedChains state ≠ 0 ∧
      su_ID (au_Subject a) ∈ t ∧ su_ID (au_Subject a) ∈ certificate_names leaf ∧ su_Kind (au_Subject a) = SubjectWorkload
  end.

Lemma authenticate_Ok `{TokenText} ranged m r c a m' : authenticate ranged m r c = (inl a, m') → credential ranged m r c a.
Proof.
  unfold authenticate, credential. destruct (bearerToken r) as [token|].
  - destruct (Verify _ _ _ _) as [x v]. by intros [= -> _].
  - destruct (mw_tls m) as [t|]; [|done]. destruct (hr_TLS r) as [state|]; [|done]. case_bool_decide; [done|]. intros [= Ha _].
    apply TLS_Subject_Ok in Ha as (leaf & ? & ? & ? & ? & ? & _). by exists t, state, leaf.
Qed.

Lemma requireKind_None s kinds : requireKind s kinds = None → kinds = [] ∨ su_Kind s ∈ kinds.
Proof. unfold requireKind. case_bool_decide; [by left|]. destruct (contains kinds _) eqn:E; [|done]. right. by apply contains_spec. Qed.

(** A handler runs only for a caller of a kind it accepts, who proved itself with a
    bearer token the verifier accepted or, in its absence, a client certificate with a
    verified chain and a name the operator listed; whatever happens is recorded under the
    caller's name, as allowed exactly when the handler runs; and a refused credential is
    answered in one and the same way whatever was wrong with it. *)
Theorem handler_runs_for_its_kind `{TokenText} ranged m kinds now r c :
  let '(answer, record, _) := Require_ ranged m kinds now r c in
  (ar_Allowed record = true ↔ ∃ a, answer = Handled a) ∧
  (∀ a, answer = Handled a → (kinds = [] ∨ su_Kind (au_Subject a) ∈ kinds) ∧ credential ranged m r c a ∧
     ar_CallerID record = CallerID (au_Subject a) ∧ ar_Reason record = "authenticated") ∧
  ((∀ a, answer ≠ Handled a) → answer = Rejected 401 "invalid_token" false ∨ answer = Rejected 403 "insufficient_scope" false ∨
     answer = Rejected 503 "temporarily_unavailable" true) ∧
  (ar_CallerID record = anonymousCaller ∨ ∃ a, credential ranged m r c a ∧ ar_CallerID record = CallerID (au_Subject a)).
Proof.
  unfold Require_. destruct (authenticate ranged m r c) as [[a|e] m'] eqn:Ea.
  - apply authenticate_Ok in Ea. unfold record_auth. destruct (requireKind (au_Subject a) kinds) as [e|] eqn:Ek; simpl.
    + assert (e = ErrWrongSubjectKind) as -> by (unfold requireKind in Ek; repeat case_match; congruence).
      split_and!; [split; [done|by intros [a' Ha']]|done|intros _; right; by left|right; eauto].
    + apply requireKind_None in Ek. split_and!; [split; eauto|intros a' [= <-]; by split_and!|intros Hn; by destruct (Hn a)|right; eauto].
  - simpl. split_and!; [split; [by destruct e|intros [a' Ha']; by destruct e]|intros a' Ha'; by destruct e|intros _; destruct e; naive_solver|by left].
Qed.
