(* ===== verification/StepUp.v ===== *)
(** * Step-up requests

    Models internal/identity/stepup.go: the authorization request a subject is sent away
    with, the check of where it may come back to, and the redemption of the code it comes
    back with.  Writing and reading JSON text, of the essential claim and of the token
    endpoint's answers, is the class [StepUpText]; what the endpoint answers is an argument.  The PKCE pair is
    made of random bytes and SHA-256 and is not modelled. *)
From Stdlib Require Import Ascii.
From S2P Require Import Prelude GoLib Policy Json Netip Url Identity.
Import Strings.

Inductive StepUpError := ErrStepUpRequest | ErrStepUpExchange | ErrCodeRejected.

Class StepUpText := {
  (** [json.Marshal]. *)
  claims_text : json → string;
  (** A token endpoint's body as the document it holds. *)
  token_json : string → option json }.

Record StepUpConfig := mkStepUpConfig {
  sc_AuthorizationEndpoint : string; sc_ClientID : string; sc_RedirectURI : string; sc_Scopes : list string; sc_ResponseType : string;
  sc_ExtraParams : gmap string string; sc_TokenEndpoint : string; sc_ClientSecret : string; sc_AllowInsecureTransport : bool }.

Record StepUp := mkStepUp {
  st_endpoint : URL; st_clientID : string; st_redirectURI : string; st_redirectBase : URL; st_scope : string; st_responseType : string;
  st_extra : gmap string string; st_tokenEndpoint : string; st_clientSecret : string }.

Definition DefaultStepUpScopes : list string := ["openid"].
Definition PKCEMethod : string := "S256".
Definition maxTokenResponseBytes : nat := Z.to_nat (2 ^ 20).

Definition reservedStepUpParams : list string :=
  ["response_type"; "client_id"; "redirect_uri"; "scope"; "state"; "nonce"; "acr_values"; "max_age"; "claims"; "code_challenge"; "code_challenge_method"].

(** [strings.Join] with spaces. *)
Fixpoint join_spaces (l : list string) : string :=
  match l with [] => "" | [s] => s | s :: l => s +:+ " " +:+ join_spaces l end.

Definition stepup_result (A : Type) : Type := A + StepUpError.

Section stepup.
Context `{NetURL, StepUpText}.

Definition refused (r : result unit) : bool := negb (is_ok r).

Definition NewStepUp (cfg : StepUpConfig) : stepup_result StepUp :=
  if bool_decide (TrimSpace (sc_AuthorizationEndpoint cfg) = "") then inr ErrStepUpRequest
  else if bool_decide (TrimSpace (sc_ClientID cfg) = "") then inr ErrStepUpRequest
  else if bool_decide (TrimSpace (sc_RedirectURI cfg) = "") then inr ErrStepUpRequest
  else match url_Parse (sc_AuthorizationEndpoint cfg) with
  | None => inr ErrStepUpRequest
  | Some endpoint =>
      if refused (checkTransport (sc_AuthorizationEndpoint cfg) (sc_AllowInsecureTransport cfg)) then inr ErrStepUpRequest
      else if refused (checkTransport (sc_RedirectURI cfg) (sc_AllowInsecureTransport cfg)) then inr ErrStepUpRequest
      else if negb (bool_decide (TrimSpace (sc_TokenEndpoint cfg) = "")) && refused (checkTransport (sc_TokenEndpoint cfg) (sc_AllowInsecureTransport cfg))
      then inr ErrStepUpRequest
      else match url_Parse (sc_RedirectURI cfg) with
      | None => inr ErrStepUpRequest
      | Some redirectBase =>
          if existsb (contains reservedStepUpParams) (map fst (map_to_list (sc_ExtraParams cfg))) then inr ErrStepUpRequest
          else
            let scopes := match sc_Scopes cfg with [] => DefaultStepUpScopes | l => l end in
            let responseType := if bool_decide (sc_ResponseType cfg = "") then "code" else sc_ResponseType cfg in
            inl (mkStepUp endpoint (sc_ClientID cfg) (sc_RedirectURI cfg) redirectBase (join_spaces scopes) responseType (sc_ExtraParams cfg)
                   (TrimSpace (sc_TokenEndpoint cfg)) (sc_ClientSecret cfg))
      end
  end.

(** ** Where a completion may land *)

Definition redirectFor (s : StepUp) (requested : string) : stepup_result string :=
  if bool_decide (TrimSpace requested = "") then inl (st_redirectURI s)
  else match url_Parse requested with
  | None => inr ErrStepUpRequest
  | Some u =>
      let b := st_redirectBase s in
      if negb (bool_decide (u_Scheme u = u_Scheme b)) || negb (bool_decide (u_Host u = u_Host b)) || bool_decide (is_Some (u_User u)) then inr ErrStepUpRequest
      else
        let base := TrimSuffix (EscapedPath b) "/" in
        let path := EscapedPath u in
        if negb (bool_decide (path = base)) && negb (HasPrefix path (base +:+ "/")) then inr ErrStepUpRequest else inl requested
  end.

(** ** The authorization request *)

Record StepUpRequest := mkStepUpRequest {
  sq_State : string; sq_Nonce : string; sq_ACRValues : list string; sq_LoginHint : string; sq_RedirectURI : string; sq_CodeChallenge : string }.

Definition trimmedNonEmpty (values : list string) : list string :=
  List.filter (λ v, negb (bool_decide (v = ""))) (map TrimSpace values).

(** The essential-claim form of the classes asked for. *)
Definition essentialACRClaims (values : list string) : string :=
  claims_text (JObj [("id_token", JObj [("acr", JObj [("essential", JBool true); ("values", JArr (map JStr values))])])]).

Definition set_if (cond : bool) (key value : string) (q : Values) : Values := if cond then Values_Set q key value else q.

Definition stepup_query (s : StepUp) (redirect : string) (req : StepUpRequest) : Values :=
  let q := ((λ v, [v]) <$> st_extra s) ∪ URL_Query (st_endpoint s) in
  let q := Values_Set q "response_type" (st_responseType s) in
  let q := Values_Set q "client_id" (st_clientID s) in
  let q := Values_Set q "redirect_uri" redirect in
  let q := Values_Set q "scope" (st_scope s) in
  let q := Values_Set q "state" (sq_State req) in
  let q := Values_Set q "nonce" (sq_Nonce req) in
  let q := Values_Set q "max_age" "0" in
  let pkce := negb (bool_decide (sq_CodeChallenge req = "")) in
  let q := set_if pkce "code_challenge_method" PKCEMethod (set_if pkce "code_challenge" (sq_CodeChallenge req) q) in
  let q := set_if (negb (bool_decide (sq_LoginHint req = ""))) "login_hint" (sq_LoginHint req) q in
  let values := trimmedNonEmpty (sq_ACRValues req) in
  let acr := negb (bool_decide (values = [])) in
  set_if acr "claims" (essentialACRClaims values) (set_if acr "acr_values" (join_spaces values) q).

Definition AuthorizationURL (s : StepUp) (req : StepUpRequest) : stepup_result string :=
  if bool_decide (TrimSpace (sq_State req) = "") then inr ErrStepUpRequest
  else if bool_decide (TrimSpace (sq_Nonce req) = "") then inr ErrStepUpRequest
  else match redirectFor s (sq_RedirectURI req) with
  | inr e => inr e
  | inl redirect => inl (URL_String (with_RawQuery (st_endpoint s) (Values_Encode (stepup_query s redirect req))))
  end.

(** ** Redeeming the code *)

Record CodeExchange := mkCodeExchange { ce_Code : string; ce_CodeVerifier : string; ce_RedirectURI : string }.

(** The token request: the form in the body and the credentials of a confidential client. *)
Record TokenRequest := mkTokenRequest { tq_URL : string; tq_Form : Values; tq_BasicAuth : option (string * string) }.

Definition exchange_form (s : StepUp) (redirect : string) (req : CodeExchange) : Values :=
  let q := Values_Set ∅ "grant_type" "authorization_code" in
  let q := Values_Set q "code" (ce_Code req) in
  let q := Values_Set q "redirect_uri" redirect in
  let q := set_if (bool_decide (st_clientSecret s = "")) "client_id" (st_clientID s) q in
  set_if (negb (bool_decide (ce_CodeVerifier req = ""))) "code_verifier" (ce_CodeVerifier req) q.

Definition exchange_request (s : StepUp) (req : CodeExchange) : stepup_result TokenRequest :=
  if bool_decide (st_tokenEndpoint s = "") then inr ErrStepUpExchange
  else if bool_decide (TrimSpace (ce_Code req) = "") then inr ErrStepUpExchange
  else match redirectFor s (ce_RedirectURI req) with
  | inr e => inr e
  | inl redirect =>
      let auth := if bool_decide (st_clientSecret s = "") then None
                  else Some (unbytes (QueryEscape (st_clientID s)), unbytes (QueryEscape (st_clientSecret s))) in
      inl (mkTokenRequest (st_tokenEndpoint s) (exchange_form s redirect req) auth)
  end.

(** The error document of the endpoint. *)
Definition tokenEndpointError (body : string) : StepUpError :=
  match token_json body with
  | Some j => match fields_of j with
              | Ok fs => match dec_string (field "error" fs) with
                         | Ok e => if bool_decide (e = "invalid_grant") then ErrCodeRejected else ErrStepUpExchange
                         | Err _ => ErrStepUpExchange
                         end
              | Err _ => ErrStepUpExchange
              end
  | None => ErrStepUpExchange
  end.

(** What the token call gave: a status and the bytes of the body, cut at the limit, or
    nothing. *)
Definition read_token (answer : option (Z * string)) : stepup_result string :=
  match answer with
  | None => inr ErrStepUpExchange
  | Some (status, full) =>
      let body := unbytes (take maxTokenResponseBytes (bytes full)) in
      if (status <? 200)%Z || (300 <=? status)%Z then inr (tokenEndpointError body)
      else match (j ← token_json body; match fields_of j with Ok fs => Some fs | Err _ => None end) with
      | None => inr ErrStepUpExchange
      | Some fs => match dec_string (field "id_token" fs) with
                   | Ok t => if bool_decide (t = "") then inr ErrStepUpExchange else inl t
                   | Err _ => inr ErrStepUpExchange
                   end
      end
  end.

Definition Exchange (s : StepUp) (req : CodeExchange) (call : TokenRequest → option (Z * string)) : stepup_result string :=
  match exchange_request s req with inr e => inr e | inl tq => read_token (call tq) end.
End stepup.
