(* ===== verification/StepUpSpec.v ===== *)
(** * What a step-up request promises

    The parameters the request owns reach the identity provider once and with the values
    it gave them, whatever the configured endpoint and the extra parameters say; the
    subject comes back under the configured target; and the redemption of the code
    repeats the redirect of the request. *)
From Stdlib Require Import Ascii.
From S2P Require Import Prelude GoLib Policy Json Strconv Encode Netip Url Fact FactSpec Egress EgressSpec.
From S2P Require Import LimiterSpec Challenge Identity IdentitySpec StepUp.
Import Strings.

(** ** Queries *)

Lemma Set_lookup (q : Values) k v k' : Values_Set q k v !! k' = if bool_decide (k' = k) then Some [v] else q !! k'.
Proof. unfold Values_Set. case_bool_decide; [subst; apply lookup_insert_eq|by rewrite lookup_insert_ne]. Qed.

Lemma set_if_lookup b k v (q : Values) k' : set_if b k v q !! k' = if b && bool_decide (k' = k) then Some [v] else q !! k'.
Proof. destruct b; [|done]. cbn [set_if andb]. apply Set_lookup. Qed.

Lemma values_wf_Set q k v : values_wf q → values_wf (Values_Set q k v).
Proof. intros Hq k' vs. rewrite Set_lookup. case_bool_decide; [by intros [= <-]|apply Hq]. Qed.

Lemma values_wf_set_if b k v q : values_wf q → values_wf (set_if b k v q).
Proof. destruct b; [apply values_wf_Set|done]. Qed.

(** Decide which key a constant name is. *)
Ltac known_keys :=
  repeat match goal with |- context [bool_decide (String ?c ?x = String ?d ?y)] =>
    (rewrite (bool_decide_eq_true_2 (String c x = String d y)) by done) || (rewrite (bool_decide_eq_false_2 (String c x = String d y)) by done) end;
  rewrite ?andb_false_r.

Section request.
Context `{NetURL, StepUpText}.

Lemma stepup_query_wf s redirect req : values_wf (stepup_query s redirect req).
Proof.
  unfold stepup_query. cbv zeta. repeat first [apply values_wf_set_if|apply values_wf_Set]. intros k vs Hk.
  apply lookup_union_Some_raw in Hk as [Hk|[_ Hk]]; [|by apply ParseQuery_wf in Hk]. rewrite lookup_fmap in Hk. destruct (st_extra s !! k); [|done]. by injection Hk as <-.
Qed.

(** *** Where the subject comes back to *)

(** The segments of a path, and what a browser makes of them: a dot segment is dropped, a
    double one takes the segment before it along. *)
Definition segments (path : string) : list (list ascii) := split_on "/" (bytes path).
Definition dot (seg : list ascii) : bool := bool_decide (ToLower (unbytes seg) ∈ ["."; "%2e"]).
Definition dot_dot (seg : list ascii) : bool := bool_decide (ToLower (unbytes seg) ∈ [".."; ".%2e"; "%2e."; "%2e%2e"]).
Definition visit (before : list (list ascii)) (seg : list ascii) : list (list ascii) :=
  if dot seg then before else if dot_dot seg then take (length before - 1) before else before ++ [seg].
Definition visited (path : string) : list (list ascii) := foldl visit [] (segments path).
Definition no_dots (path : string) : Prop := Forall (λ seg, dot seg = false ∧ dot_dot seg = false) (segments path).

(** A target is under the configured one: its scheme and host, no credentials, and the
    path a browser visits is the configured path, without a slash at its end, or one
    below it. *)
Definition under (s : StepUp) (u : URL) : Prop :=
  u_Scheme u = u_Scheme (st_redirectBase s) ∧ u_Host u = u_Host (st_redirectBase s) ∧ u_User u = None ∧
  segments (TrimSuffix (EscapedPath (st_redirectBase s)) "/") `prefix_of` visited (EscapedPath u).

Lemma visited_plain path : no_dots path → visited path = segments path.
Proof.
  unfold no_dots, visited. intros Hn. assert (∀ l acc, Forall (λ seg, dot seg = false ∧ dot_dot seg = false) l → foldl visit acc l = acc ++ l) as Hf; [|by apply (Hf (segments path) [])].
  clear. induction l as [|x l IH]; intros acc Hl; [by rewrite app_nil_r|]. apply Forall_cons in Hl as [[H1 H2] Hl]. cbn [foldl]. rewrite IH by done. unfold visit. rewrite H1, H2. by rewrite <-app_assoc.
Qed.

Lemma segments_prefix base rest : segments base `prefix_of` segments (base +:+ "/" +:+ rest).
Proof.
  unfold segments. rewrite !bytes_app. change (bytes "/") with ["/"%char]. cbn [app]. induction (bytes base) as [|a b [l IH]].
  - cbn [app split_on]. rewrite bool_decide_eq_true_2 by done. by exists (split_on "/" (bytes rest)).
  - cbn [app split_on]. case_bool_decide; [rewrite IH; by exists l|]. rewrite IH. destruct (split_on "/" b) as [|p ps] eqn:E; [|by exists l].
    exfalso. destruct b as [|x b]; [done|]. cbn [split_on] in E. case_bool_decide; [done|]. by destruct (split_on "/" b).
Qed.

(** The redirect of a request: the configured one, or the one asked for, which is under it
    unless its path has dot segments. *)
Lemma redirectFor_spec s requested redirect : redirectFor s requested = inl redirect →
  TrimSpace requested = "" ∧ redirect = st_redirectURI s ∨
  redirect = requested ∧ ∃ u, url_Parse requested = Some u ∧ u_Scheme u = u_Scheme (st_redirectBase s) ∧ u_Host u = u_Host (st_redirectBase s) ∧ u_User u = None ∧
    (no_dots (EscapedPath u) → under s u).
Proof.
  unfold redirectFor, under. case_bool_decide; [intros [= <-]; by left|]. destruct (url_Parse requested) as [u|] eqn:E; [|done].
  destruct (bool_decide (u_Scheme u = _)) eqn:E1; [|done]. apply bool_decide_eq_true in E1. destruct (bool_decide (u_Host u = _)) eqn:E2; [|done]. apply bool_decide_eq_true in E2.
  cbn [negb orb]. case_bool_decide as Hu; [done|]. apply eq_None_not_Some in Hu. case_match eqn:Ep; [done|]. intros [= <-]. right. split; [done|]. exists u. split_and!; try done.
  intros Hn. split_and!; try done. rewrite visited_plain by done.
  apply andb_false_iff in Ep as [Ep|Ep]; apply negb_false_iff in Ep; [apply bool_decide_eq_true in Ep as ->; done|].
  unfold HasPrefix in Ep. apply bool_decide_eq_true in Ep as [r Hr]. apply strip_prefix_Some in Hr.
  replace (EscapedPath u) with (TrimSuffix (EscapedPath (st_redirectBase s)) "/" +:+ "/" +:+ unbytes r); [apply segments_prefix|].
  apply bytes_inj. by rewrite Hr, !bytes_app, bytes_unbytes, <-app_assoc.
Qed.

(** *** What the request owns *)

(** The reserved parameters and the values a request has for them: a challenge and its
    method if there is a challenge, the classes in both forms if it asks for any. *)
Definition owned (s : StepUp) (redirect : string) (req : StepUpRequest) : list (string * option string) :=
  let classes := trimmedNonEmpty (sq_ACRValues req) in
  let when (b : bool) (v : string) : option string := if b then Some v else None in
  let asked := negb (bool_decide (classes = [])) in
  let pkce := negb (bool_decide (sq_CodeChallenge req = "")) in
  [("response_type", Some (st_responseType s)); ("client_id", Some (st_clientID s)); ("redirect_uri", Some redirect); ("scope", Some (st_scope s));
   ("state", Some (sq_State req)); ("nonce", Some (sq_Nonce req)); ("acr_values", when asked (join_spaces classes)); ("max_age", Some "0");
   ("claims", when asked (essentialACRClaims classes)); ("code_challenge", when pkce (sq_CodeChallenge req)); ("code_challenge_method", when pkce PKCEMethod)].

(** A value is set, in place of all there was; without one the key stays as it is. *)
Definition set_over (v : option string) (before : option (list string)) : option (list string) :=
  match v with Some v => Some [v] | None => before end.

Definition extra_key (s : StepUp) (k : string) : option (list string) := set_over (st_extra s !! k) (URL_Query (st_endpoint s) !! k).

Lemma extra_query s k : (((λ v, [v]) <$> st_extra s) ∪ URL_Query (st_endpoint s) : Values) !! k = extra_key s k.
Proof. unfold extra_key. rewrite lookup_union, lookup_fmap. destruct (st_extra s !! k); simpl; [by destruct (URL_Query _ !! k)|by destruct (URL_Query _ !! k)]. Qed.

Lemma owned_lookup s redirect req k v : (k, v) ∈ owned s redirect req → stepup_query s redirect req !! k = set_over v (extra_key s k).
Proof.
  intros Hin. unfold stepup_query. cbv zeta. rewrite !set_if_lookup, !Set_lookup, extra_query. unfold owned in Hin. cbv zeta in Hin.
  repeat (apply elem_of_cons in Hin as [[= -> ->]|Hin]; [known_keys; rewrite ?andb_true_r; try done; by case_bool_decide|]).
  by apply not_elem_of_nil in Hin.
Qed.

Lemma others_lookup s redirect req k : k ∉ reservedStepUpParams → k ≠ "login_hint" → stepup_query s redirect req !! k = extra_key s k.
Proof.
  intros Hk Hh. unfold stepup_query. cbv zeta. rewrite !set_if_lookup, !Set_lookup, extra_query. unfold reservedStepUpParams in Hk. rewrite !not_elem_of_cons in Hk.
  destruct_and! Hk. repeat (rewrite (bool_decide_eq_false_2 (k = _)) by done). by rewrite !andb_false_r.
Qed.

Lemma NewStepUp_spec cfg s : NewStepUp cfg = inl s →
  url_Parse (sc_AuthorizationEndpoint cfg) = Some (st_endpoint s) ∧ st_extra s = sc_ExtraParams cfg ∧ ∀ k, k ∈ reservedStepUpParams → sc_ExtraParams cfg !! k = None.
Proof.
  unfold NewStepUp. intros Hs. repeat (case_bool_decide; [done|]). destruct (url_Parse (sc_AuthorizationEndpoint cfg)) as [e|]; [|done].
  do 3 (case_match; [done|]). destruct (url_Parse (sc_RedirectURI cfg)); [|done]. case_match eqn:Ex; [done|]. injection Hs as <-. split_and!; [done..|].
  intros k Hk. destruct (sc_ExtraParams cfg !! k) as [v|] eqn:El; [|done]. exfalso. apply not_true_iff_false in Ex. apply Ex, existsb_true. exists k. split.
  - apply elem_of_map. exists (k, v). split; [done|]. by apply elem_of_map_to_list.
  - unfold contains. by apply bool_decide_eq_true_2.
Qed.
End request.

(** C34. A step-up request keeps what it owns.  A URL that is rendered reads as one of the
    configured endpoint.  Each of the eleven reserved parameters for which the request has
    a value has exactly that one value there, whatever query the endpoint brings, and one
    for which it has none (the classes when none is asked for, the challenge and its
    method without a challenge) is as the endpoint's own query has it, never as an extra
    parameter says; every other parameter but the login hint is the extra one or the
    endpoint's.  The redirect is the configured target if none was asked for, else the
    one asked for, which has the scheme and host of the configured target and no
    credentials, and, unless its path has dot segments, is its path or one below it
    ([dot_segments_leave_the_target] shows the exception); and a redemption for the same
    redirect names the very same one, with the code and its verifier. *)
Theorem stepup_request_is_owned `{NetURL, StepUpText} cfg s req text code verifier tq :
  NewStepUp cfg = inl s → AuthorizationURL s req = inl text → exchange_request s (mkCodeExchange code verifier (sq_RedirectURI req)) = inl tq →
  ∃ u e redirect, url_Parse text = Some u ∧ url_Parse (sc_AuthorizationEndpoint cfg) = Some e ∧ u_Scheme u = u_Scheme e ∧ u_Host u = u_Host e ∧
    (∀ k, k ∈ reservedStepUpParams → ∃ v, (k, v) ∈ owned s redirect req ∧ URL_Query u !! k = set_over v (URL_Query e !! k)) ∧
    (∀ k, k ∉ reservedStepUpParams → k ≠ "login_hint" → URL_Query u !! k = set_over (sc_ExtraParams cfg !! k) (URL_Query e !! k)) ∧
    (TrimSpace (sq_RedirectURI req) = "" ∧ redirect = st_redirectURI s ∨
     redirect = sq_RedirectURI req ∧ ∃ r, url_Parse redirect = Some r ∧ u_Scheme r = u_Scheme (st_redirectBase s) ∧ u_Host r = u_Host (st_redirectBase s) ∧ u_User r = None ∧
       (no_dots (EscapedPath r) → under s r)) ∧
    tq_Form tq !! "redirect_uri" = Some [redirect] ∧ tq_Form tq !! "code" = Some [code] ∧ (verifier ≠ "" → tq_Form tq !! "code_verifier" = Some [verifier]).
Proof.
  intros (Hep & Hex & Hres)%NewStepUp_spec Ha He.
  unfold AuthorizationURL in Ha. repeat (case_bool_decide; [done|]). unfold exchange_request in He. repeat (case_bool_decide; [done|]). cbn [ce_RedirectURI] in He.
  destruct (redirectFor s (sq_RedirectURI req)) as [redirect|] eqn:Er; [|done]. injection Ha as <-.
  destruct (url_reparse _ _ (stepup_query s redirect req) Hep) as (u & Hu & Hsch & Hh & _ & Hq). exists u, (st_endpoint s), redirect.
  assert (URL_Query u = stepup_query s redirect req) as Hquery by (unfold URL_Query; rewrite Hq; apply ParseQuery_Encode, stepup_query_wf).
  injection He as <-. cbn [tq_Form]. unfold exchange_form. cbv zeta. cbn [ce_CodeVerifier ce_Code]. split_and!; try done.
  - intros k Hk. change reservedStepUpParams with (map fst (owned s redirect req)) in Hk. apply elem_of_map in Hk as ([k' v] & -> & Hin). exists v. split; [done|].
    cbn [fst]. rewrite Hquery, (owned_lookup _ _ _ _ _ Hin). unfold extra_key. rewrite Hex. rewrite Hres; [done|]. change reservedStepUpParams with (map fst (owned s redirect req)). apply elem_of_map. by exists (k', v).
  - intros k Hk Hl. rewrite Hquery, others_lookup by done. unfold extra_key. by rewrite Hex.
  - apply redirectFor_spec in Er as [?|[-> ?]]; [by left|by right].
  - rewrite !set_if_lookup, !Set_lookup. known_keys. done.
  - rewrite !set_if_lookup, !Set_lookup. known_keys. done.
  - intros Hv. rewrite !set_if_lookup, (bool_decide_eq_false_2 (verifier = "")) by done. known_keys. done.
Qed.

(** ** Authentication at work

    A verifier for one issuer, tokens read from a table, an accepted token, forged ones, a
    flood of invented keys, and a step-up; and a redirect that leaves its target by way of
    dot segments. *)
From S2P Require Import Limiter.

Module IdentityDemo.
Import RefUrl.

#[export] Instance tokens : TokenText := {|
  segment_json s :=
    if bool_decide (s = "h1") then Some (JObj [("alg", JStr "RS256"); ("kid", JStr "k1")])
    else if bool_decide (s = "h9") then Some (JObj [("alg", JStr "RS256"); ("kid", JStr "k9")])
    else if bool_decide (s = "hs") then Some (JObj [("alg", JStr "HS256"); ("kid", JStr "k1")])
    else if bool_decide (s = "p") then Some (JObj [("iss", JStr "https://idp")])
    else if bool_decide (s = "q") then Some (JObj [("iss", JStr "https://evil")]) else None |}.

Definition cfg : IdentityConfig :=
  mkIdentityConfig [mkIssuerConfig "https://idp" "https://idp/jwks" ["pep"]] "stamp" ["RS256"; "ES256"] ["gold"] 0 0 0 2 0 0 false.
Definition v0 : Verifier := match NewVerifier cfg with Ok v => v | Err _ => mkVerifier "" [] [] 0 0 ∅ end.
Definition ranged (m : gmap string Time.t) : list string := map fst (map_to_list m).
Definition t0 : Time.t := (1700000000 * 10 ^ 9)%Z.

Definition token (sub acr client : string) : IDToken :=
  mkIDToken "https://idp" sub ["stamp"] (t0 + 60 * Time.Second) t0 (JObj [("acr", JStr acr); ("azp", JStr client)]).
Definition good (tok : IDToken) : LibCall := mkLibCall t0 [(t0, JWKSBody 100 (Some ["k1"]))] (Some true) t0 t0 (LibToken tok).
Definition forged (kids : list string) : LibCall := mkLibCall t0 [(t0, JWKSBody 100 (Some kids))] (Some false) t0 t0 LibFailed.

Example new_ok : NewVerifier cfg = Ok v0.
Proof. vm_compute. reflexivity. Qed.

(** A person, a workload, a person whose class is too weak, an HMAC token, a token of an
    unknown issuer, a forged one. *)
Example verdicts :
  map (λ rc, match (Verify ranged v0 rc.1 rc.2).1 with inl a => inl (su_Kind (au_Subject a)) | inr e => inr e end)
    [("h1.p.s", good (token "alice" "gold" "console")); ("h1.p.s", good (token "svc" "" "pep")); ("h1.p.s", good (token "alice" "" "console"));
     ("hs.p.s", good (token "alice" "gold" "console")); ("h1.q.s", good (token "alice" "gold" "console")); ("h9.p.s", forged ["k1"]); ("h1.p.", good (token "a" "" ""))] =
  [inl SubjectUser; inl SubjectWorkload; inr ErrTokenACRNotAllowed; inr ErrAlgorithmNotAllowed; inr ErrIssuerNotAllowed; inr ErrSignatureInvalid; inr ErrAlgorithmNotAllowed].
Proof. vm_compute. reflexivity. Qed.

(** The first forged token is looked up, the second is turned away. *)
Example negative_cache :
  let v1 := run_verify ranged v0 [("h9.p.s", forged ["k1"])] in
  (Verify ranged v1 "h9.p.s" (forged ["k1"])).1 = inr ErrUnknownKey ∧ JWKSFetches v1 "https://idp" = 1%Z.
Proof. vm_compute. done. Qed.

Lemma ranged_all m k : is_Some (m !! k) → k ∈ ranged m.
Proof. intros [x Hx]. unfold ranged. apply elem_of_map. exists (k, x). split; [done|]. by apply elem_of_map_to_list. Qed.

Lemma accepted_token_is_pinned_witness : lb_signature (good (token "alice" "gold" "console")) = Some true.
Proof.
  destruct (Verify ranged (run_verify ranged v0 [("h9.p.s", forged ["k1"])]) "h1.p.s" (good (token "alice" "gold" "console"))) as [[a|e] v] eqn:E; [|by vm_compute in E].
  refine (proj1 (proj2 (accepted_token_is_pinned ranged cfg v0 [("h9.p.s", forged ["k1"])] "h1.p.s" _ a new_ok _ _))).
  - intros kid issuer iv Hp. vm_compute in Hp. injection Hp as <- <- _. intros tok [= <-]. split_and!; [done..|]. vm_compute. done.
  - by rewrite E.
Defined.

Definition flood : list (string * LibCall) := repeat ("h9.p.s", forged []) 40.

Lemma flood_costs_the_burst_witness : (JWKSFetches (run_verify ranged v0 flood) "https://idp" <= 5)%Z.
Proof.
  refine (proj2 (flood_costs_the_burst ranged cfg v0 t0 flood "https://idp" new_ok _ _ _)); [vm_compute; done..|].
  intros rc Hin. apply list_elem_of_In, repeat_spec in Hin as ->. split; [done|]. intros r Hr. apply elem_of_cons in Hr as [->|Hr]; [done|]. by apply not_elem_of_nil in Hr.
Defined.

Definition served : Verifier := run_verify ranged v0 [("h1.p.s", good (token "alice" "gold" "console"))].

Lemma forged_tokens_lock_nobody_out_witness : ∃ iv,
  ve_issuers (run_verify ranged served (repeat ("h1.p.s", forged ["k1"; "k2"]) 9)) !! "https://idp" = Some iv ∧ guard_admits t0 "k1" (iv_guard iv) = (None, iv_guard iv).
Proof.
  destruct (ve_issuers (run_verify ranged served (repeat ("h1.p.s", forged ["k1"; "k2"]) 9)) !! "https://idp") as [iv|] eqn:E; [|exfalso; vm_compute in E; discriminate E]. exists iv. split; [reflexivity|].
  destruct (ve_issuers served !! "https://idp") as [iv1|] eqn:E1; [|exfalso; vm_compute in E1; discriminate E1].
  refine (proj2 (proj2 (forged_tokens_lock_nobody_out ranged cfg v0 [("h1.p.s", good (token "alice" "gold" "console"))] _ "https://idp" iv1 iv "k1" t0 ranged_all new_ok E1 E)) _ _).
  - vm_compute in E1. injection E1 as <-. apply (bool_decide_unpack _). vm_compute. exact I.
  - intros rc Hin. apply list_elem_of_In, repeat_spec in Hin as ->. intros now n kids Hr. apply list_elem_of_In in Hr. destruct Hr as [[= _ _ <-]|[]]. by left.
Defined.

(** ** Step-up *)

#[export] Instance texts : StepUpText := {| claims_text j := match j with JObj [(_, JObj [(_, JObj [_; (_, JArr [JStr s])])])] => "essential:" +:+ s | _ => "?" end; token_json _ := Some (JObj [("id_token", JStr "jwt")]) |}.

Definition scfg : StepUpConfig :=
  mkStepUpConfig "https://idp/auth?state=evil&kc_idp=x" "stamp" "https://stamp.example/v1/callback" [] "" {["ui_locales" := "ko"]} "https://idp/token" "" false.
Definition step_up : StepUp := match NewStepUp scfg with inl s => s | inr _ => mkStepUp (mkURL "" "" None "" "" "" "") "" "" (mkURL "" "" None "" "" "" "") "" "" ∅ "" "" end.
Definition request : StepUpRequest := mkStepUpRequest "st&te" "n once" ["gold"; " "] "" "https://stamp.example/v1/callback/7/0" "chal".

Example step_up_ok : NewStepUp scfg = inl step_up.
Proof. vm_compute. reflexivity. Qed.

Example authorization_url : AuthorizationURL step_up request =
  inl "https://idp/auth?acr_values=gold&claims=essential%3Agold&client_id=stamp&code_challenge=chal&code_challenge_method=S256&kc_idp=x&max_age=0&nonce=n+once&redirect_uri=https%3A%2F%2Fstamp.example%2Fv1%2Fcallback%2F7%2F0&response_type=code&scope=openid&state=st%26te&ui_locales=ko".
Proof. vm_compute. reflexivity. Qed.

Lemma stepup_request_is_owned_witness : ∃ text u, AuthorizationURL step_up request = inl text ∧ url_Parse text = Some u ∧ URL_Query u !! "state" = Some ["st&te"].
Proof.
  destruct (AuthorizationURL step_up request) as [text|] eqn:Ea; [|by vm_compute in Ea].
  destruct (exchange_request step_up (mkCodeExchange "c" "v" (sq_RedirectURI request))) as [tq|] eqn:Ee; [|by vm_compute in Ee].
  destruct (stepup_request_is_owned scfg step_up request text "c" "v" tq step_up_ok Ea Ee) as (u & e & redirect & Hu & _ & _ & _ & Ho & _). exists text, u.
  refine (conj eq_refl (conj Hu _)). destruct (Ho "state") as (v & Hv & ->); [apply (bool_decide_unpack _); vm_compute; exact I|].
  unfold owned in Hv. cbv zeta in Hv. do 4 (apply elem_of_cons in Hv as [Hv|Hv]; [discriminate Hv|]). apply elem_of_cons in Hv as [Hv|Hv]; [injection Hv as Hv; rewrite Hv; reflexivity|].
  do 6 (apply elem_of_cons in Hv as [Hv|Hv]; [discriminate Hv|]). destruct (not_elem_of_nil _ Hv).
Defined.

(** The prefix test does not look at dot segments: a target that a browser resolves to
    another path of the host passes as one under the configured path. *)
Lemma dot_segments_leave_the_target :
  redirectFor step_up "https://stamp.example/v1/callback/../../other" = inl "https://stamp.example/v1/callback/../../other" ∧
  visited "/v1/callback/../../other" = segments "/other" ∧
  redirectFor step_up "https://stamp.example/other" = inr ErrStepUpRequest.
Proof. vm_compute. done. Qed.

(** The middleware refuses a person at a workload surface and records who it was. *)
Example wrong_kind :
  let m := mkMiddleware v0 None in
  let r := mkHTTPRequest "Bearer h1.p.s" None "POST" "/v1/decide" "192.0.2.1" in
  let '(answer, record, _) := Require_ ranged m [SubjectWorkload] t0 r (good (token "alice" "gold" "console")) in
  answer = Rejected 403 "insufficient_scope" false ∧ ar_CallerID record = "user:https://idp#alice" ∧ ar_Allowed record = false ∧ ar_Reason record = "wrong_subject_kind".
Proof. vm_compute. done. Qed.
End IdentityDemo.
