(* ===== verification/CompileSpec.v ===== *)
(** * What the validator accepts compiles

    The typing rules of CEL for the expressions the builder produces, and that a set
    the static checks accept has, for every policy, a coherent environment in which
    the compiled condition is well typed as a boolean. *)
From Stdlib Require Import Ascii.
From S2P Require Import Prelude GoLib Policy Cel Engine CelRef Validate ValidateSpec Challenge Quorum.
Import Strings.

(** ** The typing rules *)

Definition decl_name (d : celdecl) : string := match d with DVariable n _ => n | DFunction n _ _ _ => n end.

(** An environment declares each name once. *)
Definition coherent (env : list celdecl) : Prop := NoDup (map decl_name env).

Definition ordered_ctype (t : ctype) : bool := match t with CTInt | CTDouble | CTString | CTTimestamp | CTDuration => true | _ => false end.

Definition const_type (c : cconst) : ctype :=
  match c with KBool _ => CTBool | KInt _ => CTInt | KDouble _ => CTDouble | KString _ => CTString end.

Inductive has_type (env : list celdecl) : cexpr → ctype → Prop :=
  | ht_const c : has_type env (EConst c) (const_type c)
  | ht_variable r a t : DVariable (r +:+ "." +:+ a) t ∈ env → has_type env (ESelect (EIdent r) a) t
  | ht_function fn overload ps ret args : DFunction fn overload ps ret ∈ env → Forall2 (has_type env) args ps → has_type env (ECall fn args) ret
  | ht_list es t : Forall (λ e, has_type env e t) es → has_type env (EList es) (CTList t)
  | ht_timestamp e : has_type env e CTString → has_type env (ECall "timestamp" [e]) CTTimestamp
  | ht_duration e : has_type env e CTString → has_type env (ECall "duration" [e]) CTDuration
  | ht_equal fn a b t : fn ∈ ["_==_"; "_!=_"] → has_type env a t → has_type env b t → has_type env (ECall fn [a; b]) CTBool
  | ht_order fn a b t : fn ∈ ["_<_"; "_<=_"; "_>_"; "_>=_"] → ordered_ctype t = true → has_type env a t → has_type env b t →
      has_type env (ECall fn [a; b]) CTBool
  | ht_in a l t : has_type env a t → has_type env l (CTList t) → has_type env (ECall "@in" [a; l]) CTBool
  | ht_not e : has_type env e CTBool → has_type env (ECall "!_" [e]) CTBool
  | ht_logic fn a b : fn ∈ ["_&&_"; "_||_"] → has_type env a CTBool → has_type env b CTBool → has_type env (ECall fn [a; b]) CTBool.

(** ** Types *)

(** Membership in a concrete list. *)
Ltac among := apply (bool_decide_unpack _); vm_compute; exact I.
Ltac each_scalar H := unfold ScalarTypes in H; repeat (apply elem_of_cons in H as [->|H]); [..|by apply not_elem_of_nil in H].

Lemma celType_scalar t : t ∈ ScalarTypes → ∃ ct, celType t = Ok ct ∧ celType (ListOf t) = Ok (CTList ct) ∧ (IsOrdered t = true → ordered_ctype ct = true).
Proof. intros H. each_scalar H; eexists; (split_and!; [vm_compute; reflexivity|vm_compute; reflexivity|vm_compute; done]). Qed.

Lemma celType_valid t : Type_Valid t = true → ∃ ct, celType t = Ok ct.
Proof. intros [Ht|(e & He & ->)]%Type_Valid_iff; [destruct (celType_scalar _ Ht)|destruct (celType_scalar _ He)]; naive_solver. Qed.

Lemma celType_ordered t ct : IsOrdered t = true → celType t = Ok ct → ordered_ctype ct = true.
Proof.
  intros Ho. assert (t ∈ ScalarTypes) as Ht.
  { unfold IsOrdered in Ho. apply contains_spec in Ho. repeat (apply elem_of_cons in Ho as [->|Ho]; [among|]). by apply not_elem_of_nil in Ho. }
  destruct (celType_scalar t Ht) as (ct' & -> & _ & Himp). intros [= <-]. auto.
Qed.

Lemma celType_ListOf t ct ct' : Type_Valid (ListOf t) = true → celType t = Ok ct → celType (ListOf t) = Ok ct' → ct' = CTList ct.
Proof.
  intros Hv Hct. assert (t ∈ ScalarTypes) as Ht.
  { apply Type_Valid_iff in Hv as [Hs%scalar_not_list|(e & He & ->%ListOf_inj)]; [|done]. by rewrite IsList_ListOf in Hs. }
  destruct (celType_scalar t Ht) as (ct1 & H1 & -> & _). rewrite Hct in H1. injection H1 as <-. by intros [= <-].
Qed.

Lemma operand_typed_valid s p o t : operand_typed s p o t → Type_Valid t = true.
Proof.
  destruct 1 as [o t Hp|]; [|done]. destruct Hp as [|l Hl]; [done|]. by apply checkLiteralData_iff, andb_true_iff in Hl as [? _].
Qed.

(** ** Expressions *)

Section builder.
Context (env : list celdecl).

Lemma literal_scalar_typed n t v : scalar_value t v → ∃ e ct, literal_fuel (S n) t v = Ok e ∧ celType t = Ok ct ∧ has_type env e ct.
Proof.
  destruct 1; eexists _, _; (split_and!; [reflexivity|vm_compute; reflexivity|]).
  1: apply (ht_const env (KBool b)). 1: apply (ht_const env (KInt n0)). 1: apply (ht_const env (KDouble f)). 1: apply (ht_const env (KString x)).
  1: apply ht_timestamp, (ht_const env (KString _)). apply ht_duration, (ht_const env (KString _)).
Qed.

Lemma literals_typed n t vs : Forall (scalar_value t) vs →
  ∃ es, res_map (literal_fuel (S n) t) vs = Ok es ∧ ∀ ct, celType t = Ok ct → Forall (λ e, has_type env e ct) es.
Proof.
  induction 1 as [|v vs Hv _ (es & Hes & Hf)]; [by exists []|]. destruct (literal_scalar_typed n t v Hv) as (e & ct & He & Hct & Hty).
  exists (e :: es). rewrite res_map_Ok in *. split; [by constructor|]. intros ct' E. rewrite E in Hct. injection Hct as ->. constructor; [done|by apply Hf].
Qed.

Lemma literal_list n t vs es : res_map (literal_fuel n t) vs = Ok es → literal_fuel (S n) (ListOf t) (VList vs) = Ok (EList es).
Proof.
  intros Hes. cbn [literal_fuel]. by rewrite IsList_ListOf, Elem_ListOf, Hes.
Qed.

Lemma build_literal_typed l : literal_value (lit_Type l) (lit_Data l) →
  ∃ e ct, build_literal l = Ok e ∧ celType (lit_Type l) = Ok ct ∧ has_type env e ct.
Proof.
  destruct l as [t v]. unfold build_literal. cbn [lit_Type lit_Data]. destruct 1 as [t v Hs|t vs Ht Hvs]; [by apply literal_scalar_typed|].
  destruct (literals_typed (pred (String.length (ListOf t))) t vs Hvs) as (es & Hes & Hf).
  apply celType_scalar in Ht as (ct & Hct & Hl & _). exists (EList es), (CTList ct).
  split_and!; [by apply literal_list|done|constructor; by apply Hf].
Qed.

(** The environment declares what the policy can name. *)
Context (s : Schema) (p : Policy).
Context (Hvariables : ∀ r name e a attr ct, r ∈ Roles → EntityFor p r = Some name → Schema_Entity s name = Some e →
  EntityType_Attribute e a = Some attr → celType (attr_Type attr) = Ok ct → DVariable (Role_string r +:+ "." +:+ a) ct ∈ env).
Context (Hfunctions : ∀ name d, Schema_Source s name = Some d → ∃ ov ps ret,
  res_map (λ q, celType (par_Type q)) (src_Params d) = Ok ps ∧ celType (src_Returns d) = Ok ret ∧ DFunction (CELSourceFunction name) ov ps ret ∈ env).

Lemma plain_operand_typed o t : plain_typed s p o t → ∃ e ct, build_operand o = Ok e ∧ celType t = Ok ct ∧ has_type env e ct.
Proof.
  destruct 1 as [r name e a attr Hr Hn He Ha Hv|l Hl]; [|by apply build_literal_typed].
  destruct (celType_valid _ Hv) as [ct Hct]. exists (ESelect (EIdent (Role_string r)) a), ct. split_and!; [done|done|]. apply ht_variable. by eapply Hvariables.
Qed.

Lemma arguments_typed args ps cts :
  Forall2 (λ o q, plain_typed s p o (par_Type q)) args ps → res_map (λ q, celType (par_Type q)) ps = Ok cts →
  ∃ es, res_map build_operand args = Ok es ∧ Forall2 (has_type env) es cts.
Proof.
  intros Hf. revert cts. induction Hf as [|o q args ps Ho _ IH]; intros cts Hcts; rewrite res_map_Ok in Hcts.
  - inversion Hcts; subst. by exists [].
  - inversion Hcts as [|? ct ? cts' Hct Hrest]; subst. destruct (IH cts') as (es & Hes & Hty); [by apply res_map_Ok|].
    destruct (plain_operand_typed _ _ Ho) as (e & ct' & He & Hct' & Hte). rewrite Hct in Hct'. injection Hct' as <-.
    exists (e :: es). rewrite res_map_Ok in *. split; by constructor.
Qed.

Lemma operand_build_typed o t : operand_typed s p o t → ∃ e ct, build_operand o = Ok e ∧ celType t = Ok ct ∧ has_type env e ct.
Proof.
  destruct 1 as [o t Hp|name args d Hd Hargs Hret]; [by apply plain_operand_typed|].
  destruct (Hfunctions _ _ Hd) as (ov & ps & ret & Hps & Hr & Hin). destruct (arguments_typed _ _ _ Hargs Hps) as (es & Hes & Hty).
  exists (ECall (CELSourceFunction name) es), ret. cbn [build_operand]. rewrite Hes. split_and!; [done|done|]. by eapply ht_function.
Qed.

(** ** Conditions *)

Lemma build_fold_typed fn fuel es : fn ∈ ["_&&_"; "_||_"] → es ≠ [] → length es ≤ fuel →
  Forall (λ e, has_type env e CTBool) es → has_type env (build_fold fuel es fn) CTBool.
Proof.
  intros Hfn. revert es. induction fuel as [|n IH]; intros es Hne Hlen Hall; [destruct es; simpl in *; [done|lia]|].
  destruct es as [|e [|e' es]]; [done|by apply Forall_cons in Hall as [? _]|]. set (l := e :: e' :: es) in *.
  change (build_fold (S n) l fn) with (ECall fn [build_fold n (take (Nat.div2 (length l)) l) fn; build_fold n (drop (Nat.div2 (length l)) l) fn]).
  assert (Nat.div2 (length l) < length l) by (apply Nat.lt_div2; subst l; simpl; lia).
  assert (0 < Nat.div2 (length l)) by apply Nat.lt_0_succ. clearbody l.
  apply ht_logic; [done|apply IH|apply IH]; rewrite ?length_take, ?length_drop; try lia; try (by apply Forall_take || by apply Forall_drop).
  - intros Hd%(f_equal length). rewrite length_take in Hd. simpl in Hd. lia.
  - intros Hd%(f_equal length). rewrite length_drop in Hd. simpl in Hd. lia.
Qed.

Lemma compare_typed op l r t el er ct : op ∈ CompareOps → (CompareOp_Ordering op = true → IsOrdered t = true) →
  celType t = Ok ct → has_type env el ct → has_type env er ct →
  build_operand l = Ok el → build_operand r = Ok er → ∃ e, build_node (Compare l op r) = Ok e ∧ has_type env e CTBool.
Proof.
  intros Hop Hord Hct Hl Hr El Er. cbn [build_node]. rewrite El, Er. cbn [res_bind].
  pose proof (λ Ho, celType_ordered t ct (Hord Ho) Hct) as Hoc.
  unfold CompareOps in Hop. repeat (apply elem_of_cons in Hop as [->|Hop]); [..|by apply not_elem_of_nil in Hop].
  all: cbn [celCompareFunction res_bind]; eexists; (split; [reflexivity|]).
  1-2: apply (ht_equal _ _ _ _ ct); [among|done|done].
  all: apply (ht_order _ _ _ _ ct); [among|by apply Hoc|done|done].
Qed.

Lemma operands_typed ops :
  Forall (λ n, condition_ok s p n → ∃ e, build_node n = Ok e ∧ has_type env e CTBool) ops → Forall (condition_ok s p) ops →
  ∃ es, res_map build_node ops = Ok es ∧ Forall (λ e, has_type env e CTBool) es ∧ length es = length ops.
Proof.
  induction ops as [|n ops IH]; [by exists []|]. intros [Hn Hi]%Forall_cons [Hc Hcs]%Forall_cons.
  destruct (Hn Hc) as (e & He & Hty), (IH Hi Hcs) as (es & Hes & Htys & Hlen). exists (e :: es). rewrite res_map_Ok in *.
  split_and!; [by constructor|by constructor|]. simpl. by rewrite Hlen.
Qed.

Lemma build_node_typed n : condition_ok s p n → ∃ e, build_node n = Ok e ∧ has_type env e CTBool.
Proof.
  induction n as [|op ops IH|l op r|l c neg] using Node_nested_ind; intros Hc.
  - by inversion Hc.
  - assert (ops ≠ [] ∧ Forall (condition_ok s p) ops ∧ (op = LogicAll ∨ op = LogicAny ∨ op = LogicNot ∧ length ops = 1)) as (Hne & Hok & Hop).
    { inversion Hc; subst; split_and!; auto. }
    destruct (operands_typed ops IH Hok) as (es & Hes & Hty & Hlen). cbn [build_node]. rewrite Hes. cbn [res_bind].
    assert (es ≠ []) by (by destruct ops, es). destruct ops as [|n ops]; [done|]. destruct Hop as [->|[->|[-> H1]]]; cbn [build_logic].
    1-2: eexists; split; [reflexivity|]; apply build_fold_typed; [among|done|done|done].
    rewrite H1 in Hlen. destruct es as [|e [|]]; [done| |done]. eexists. split; [reflexivity|]. apply ht_not. by apply Forall_cons in Hty as [? _].
  - inversion Hc as [| | |? ? ? t Hop Hl Hr Hord|]; subst.
    destruct (operand_build_typed _ _ Hl) as (el & ct & Hel & Hct & Htl), (operand_build_typed _ _ Hr) as (er & ct' & Her & Hct' & Htr).
    rewrite Hct in Hct'. injection Hct' as <-. exact (compare_typed op l r t el er ct Hop Hord Hct Htl Htr Hel Her).
  - inversion Hc as [| | | |? ? ? t Hl Hr]; subst.
    destruct (operand_build_typed _ _ Hl) as (el & ct & Hel & Hct & Htl), (operand_build_typed _ _ Hr) as (er & ct' & Her & Hct' & Htr).
    assert (has_type env (ECall "@in" [el; er]) CTBool) as Hin.
    { apply (ht_in _ _ _ ct); [done|]. by rewrite <-(celType_ListOf t ct ct' (operand_typed_valid _ _ _ _ Hr) Hct Hct'). }
    cbn [build_node]. rewrite Hel, Her. cbn [res_bind]. destruct neg; eexists; (split; [reflexivity|]); [by apply ht_not|done].
Qed.
End builder.

(** ** Environments *)

Lemma find_by_name {A} (key : A → string) (l : list A) k a :
  list_find (λ x, key x = k) l ≫= (λ q, Some q.2) = Some a → a ∈ l ∧ key a = k.
Proof.
  intros ([i x] & Hf & [= <-])%bind_Some. apply list_find_Some in Hf as (Hi & Hk & _). split; [by eapply list_elem_of_lookup_2|done].
Qed.

Lemma declare_all {A} (f : A → result celdecl) (nm : A → string) l :
  (∀ a, a ∈ l → ∃ d, f a = Ok d ∧ decl_name d = nm a) →
  ∃ ds, res_map f l = Ok ds ∧ map decl_name ds = map nm l ∧ ∀ a d, a ∈ l → f a = Ok d → d ∈ ds.
Proof.
  induction l as [|a l IH]; intros Hall; [exists []; split_and!; [done|done|set_solver]|].
  destruct (Hall a) as (d & Hd & Hn); [set_solver|]. destruct IH as (ds & Hds & Hns & Hin); [set_solver|].
  exists (d :: ds). split_and!; [simpl; by rewrite Hd, Hds|simpl; by rewrite Hn, Hns|].
  intros a' d' [->|Ha']%elem_of_cons Hd'; [|apply elem_of_cons; right; by apply (Hin a')]. apply elem_of_cons. left. congruence.
Qed.

Section environments.
Context (s : Schema) (p : Policy) (limits : Limits).
Context (Hs : schema_ok s) (Hp : policy_ok s p limits).

Definition role_names (r : Role) (names : list string) : Prop := NoDup names ∧ ∀ n, n ∈ names → ∃ a, n = Role_string r +:+ "." +:+ a.

Definition variables_in (r : Role) (vs : list celdecl) : Prop :=
  ∀ name e a attr ct, EntityFor p r = Some name → Schema_Entity s name = Some e → EntityType_Attribute e a = Some attr →
    celType (attr_Type attr) = Ok ct → DVariable (Role_string r +:+ "." +:+ a) ct ∈ vs.

Lemma bound_entity r name : EntityFor p r = Some name → is_Some (Schema_Entity s name).
Proof.
  destruct Hp as [_ [Hsub _] [Hres _] Hctx _ _ _]. destruct r; simpl; try done; case_bool_decide as E; intros [= <-]; try done. by destruct Hctx.
Qed.

Lemma env_variables_ok r : ∃ vs, env_variables s p r = Ok vs ∧ role_names r (map decl_name vs) ∧ variables_in r vs.
Proof.
  unfold env_variables, role_names, variables_in. destruct (EntityFor p r) as [name|] eqn:En.
  2: { exists []. split_and!; [done|constructor|set_solver|done]. }
  destruct (bound_entity r name En) as [e Ee]. rewrite Ee. destruct (find_by_name _ _ _ _ Ee) as [Hin _].
  pose proof (proj2 (sc_entities _ Hs)) as Hents. rewrite Forall_forall in Hents. destruct (Hents e Hin) as [_ [Hnd Hattrs]]. rewrite Forall_forall in Hattrs.
  destruct (declare_all (λ a, let? t := celType (attr_Type a) in Ok (DVariable (Role_string r +:+ "." +:+ attr_Name a) t))
              (λ a, Role_string r +:+ "." +:+ attr_Name a) (ent_Attributes e)) as (vs & Hvs & Hns & Hmem).
  { intros a Ha. destruct (celType_valid _ (ao_type _ (Hattrs a Ha))) as [ct Hct]. rewrite Hct. by eexists. }
  exists vs. rewrite Hns. split_and!; [done| | |].
  - rewrite <-(map_map attr_Name (λ a, Role_string r +:+ "." +:+ a)). assert (Inj eq eq (λ a, Role_string r +:+ "." +:+ a)) as Hinj by (intros a b E; by do 2 apply (inj (String.append _)) in E).
    by apply (NoDup_fmap_2 _).
  - intros n (a & -> & _)%elem_of_map. eauto.
  - intros name' e' a attr ct [= <-] E' Ha Hct. rewrite Ee in E'. injection E' as <-. destruct (find_by_name _ _ _ _ Ha) as [Hina <-].
    apply (Hmem attr); [done|]. by rewrite Hct.
Qed.

Lemma env_functions_ok : ∃ fns, res_map env_source (sch_Sources s) = Ok fns ∧
  NoDup (map decl_name fns) ∧ (∀ n, n ∈ map decl_name fns → ∃ x, n = CELSourceFunction x) ∧
  ∀ name d, Schema_Source s name = Some d → ∃ ov ps ret,
    res_map (λ q, celType (par_Type q)) (src_Params d) = Ok ps ∧ celType (src_Returns d) = Ok ret ∧ DFunction (CELSourceFunction name) ov ps ret ∈ fns.
Proof.
  destruct Hs as [_ _ [Hnd Hsrc]]. rewrite Forall_forall in Hsrc.
  assert (∀ d, d ∈ sch_Sources s → ∃ ps ret, res_map (λ q, celType (par_Type q)) (src_Params d) = Ok ps ∧ celType (src_Returns d) = Ok ret) as Hty.
  { intros d Hd. destruct (Hsrc d Hd) as [_ _ _ Hret [_ Hps]]. destruct (celType_valid _ Hret) as [ret Hr].
    assert (∃ ps, res_map (λ q, celType (par_Type q)) (src_Params d) = Ok ps) as [ps Hps']; [|by exists ps, ret].
    clear -Hps. induction Hps as [|q l [_ Ht] _ [ps IH]]; [by exists []|]. destruct (celType_valid _ Ht) as [ct Hct]. exists (ct :: ps).
    rewrite res_map_Ok in *. by constructor. }
  destruct (declare_all env_source (λ d, CELSourceFunction (src_Name d)) (sch_Sources s)) as (fns & Hfns & Hns & Hmem).
  { intros d (ps & ret & E1 & E2)%Hty. unfold env_source. rewrite E1, E2. by eexists. }
  exists fns. rewrite Hns. split_and!; [done| | |].
  - rewrite <-(map_map src_Name CELSourceFunction). assert (Inj eq eq CELSourceFunction) as Hinj by (intros a b E; by apply (inj (String.append _)) in E).
    by apply (NoDup_fmap_2 _).
  - intros n (d & -> & _)%elem_of_map. eauto.
  - intros name d Hd. destruct (find_by_name _ _ _ _ Hd) as [Hin <-]. destruct (Hty d Hin) as (ps & ret & E1 & E2).
    exists (celSourceOverload (src_Name d)), ps, ret. split_and!; [done..|]. apply (Hmem d); [done|]. unfold env_source. by rewrite E1, E2.
Qed.

Lemma CELEnv_ok : ∃ env, CELEnv s p = Ok env ∧ coherent env ∧ (∀ r, r ∈ Roles → variables_in r env) ∧
  ∀ name d, Schema_Source s name = Some d → ∃ ov ps ret,
    res_map (λ q, celType (par_Type q)) (src_Params d) = Ok ps ∧ celType (src_Returns d) = Ok ret ∧ DFunction (CELSourceFunction name) ov ps ret ∈ env.
Proof.
  destruct (env_variables_ok RoleSubject) as (v1 & E1 & [N1 P1] & V1), (env_variables_ok RoleResource) as (v2 & E2 & [N2 P2] & V2),
    (env_variables_ok RoleContext) as (v3 & E3 & [N3 P3] & V3), env_functions_ok as (fns & E4 & N4 & P4 & V4).
  exists ((v1 ++ v2 ++ v3 ++ []) ++ fns). unfold CELEnv. cbn [Roles map res_concat]. rewrite E1, E2, E3, E4. split_and!; [done| | |].
  - unfold coherent. rewrite app_nil_r, !map_app, !NoDup_app.
    split_and!; try done.
    + intros n [x ->]%P1 [[y E]%P2|[y E]%P3]%elem_of_app; discriminate E.
    + intros n [x ->]%P2 [y E]%P3; discriminate E.
    + intros n [[x ->]%P1|[[x ->]%P2|[x ->]%P3]%elem_of_app]%elem_of_app [y E]%P4; discriminate E.
  - intros r Hr name e a attr ct H1 H2 H3 H4. rewrite !elem_of_app.
    unfold Roles in Hr. repeat (apply elem_of_cons in Hr as [->|Hr]); [..|by apply not_elem_of_nil in Hr].
    + left; left. by eapply V1. + left; right; left. by eapply V2. + left; right; right; left. by eapply V3.
  - intros name d (ov & ps & ret & ? & ? & ?)%V4. exists ov, ps, ret. split_and!; [done..|]. rewrite elem_of_app. by right.
Qed.

Lemma condition_expr_typed : ∃ env e, CELEnv s p = Ok env ∧ condition_expr (p_Condition p) = Ok e ∧ coherent env ∧ has_type env e CTBool.
Proof.
  destruct CELEnv_ok as (env & Henv & Hco & Hvars & Hfns). destruct (py_condition _ _ _ Hp) as [E|(_ & _ & Hc)].
  - exists env, (EConst (KBool true)). rewrite E. split_and!; [done..|]. apply (ht_const env (KBool true)).
  - destruct (build_node_typed env s p) with (n := p_Condition p) as (e & He & Hty); [|done|done|].
    { intros r name en a attr ct Hr. by apply Hvars. }
    exists env, e. split_and!; try done. unfold condition_expr. by destruct (p_Condition p).
Qed.
End environments.

(** C8. What the static checks accept compiles: if the CEL checker implements the typing
    rules (an expression that is well typed as a boolean in an environment that declares
    each name once is accepted as one), then for a set in which the static checks find
    nothing the whole validation finds nothing, and every policy compiles to an
    expression well typed in its environment, so that loading it cannot fail. *)
Theorem accepted_policies_compile `{CEL} set limits :
  (∀ env e, coherent env → has_type env e CTBool → cel_check env e = Ok CTBool) →
  validateStatic set limits = [] →
  ValidateWithLimits set limits = [] ∧
  ∀ p, p ∈ set_Policies set → ∃ env e, Compile (set_Schema set) p = Ok (env, e) ∧ coherent env ∧ has_type env e CTBool.
Proof.
  intros Hcheck Hst.
  assert (∀ p, p ∈ set_Policies set → ∃ env e, Compile (set_Schema set) p = Ok (env, e) ∧ coherent env ∧ has_type env e CTBool) as Hall.
  { intros p Hp. apply validateStatic_nil in Hst as [Hs _ _ Hps]. rewrite Forall_forall in Hps.
    destruct (condition_expr_typed _ p limits Hs (Hps p Hp)) as (env & e & E1 & E2 & Hco & Hty). exists env, e. split_and!; [|done..].
    unfold Compile. rewrite E1, E2. cbn [res_bind]. by rewrite (Hcheck env e Hco Hty). }
  split; [|done]. unfold ValidateWithLimits. rewrite Hst. unfold compile_diags.
  apply (concat_imap_nil _ (λ p, is_ok (Compile (set_Schema set) p) = true)); [intros; apply unless_nil|].
  apply Forall_forall. intros p (env & e & -> & _)%Hall. done.
Qed.

(** ** A set *)

Module ValidateDemo.
Definition schema : Schema :=
  mkSchema [mkEntityType "user" [mkAttribute "tier" TypeString; mkAttribute "joined" TypeTimestamp];
            mkEntityType "transfer" [mkAttribute "amount" TypeInt; mkAttribute "tags" (ListOf TypeString)]]
           [mkAction "transfer.create" ""]
           [mkSourceDecl "spent" SourceHTTP [mkParam "tier" TypeString] TypeInt OnErrorDeny].

Definition condition : Node :=
  Logic LogicAll
    [Compare (FieldRef RoleResource "amount") OpGt (Lit (mkLiteral TypeInt (VInt 1000)));
     Logic LogicNot [Member (FieldRef RoleSubject "tier") (Lit (mkLiteral (ListOf TypeString) (VList [VString "gold"; VString "staff"]))) false];
     Compare (SourceRef "spent" [FieldRef RoleSubject "tier"]) OpLe (Lit (mkLiteral TypeInt (VInt 3)))].

Definition policy (condition : Node) (members : list string) : Policy :=
  mkPolicy "large.transfer" "" "user" "transfer" "" ["transfer.create"] condition
    [CQuorum (mkQuorum 2 (mkApproverSet members "" None))].

Definition set (condition : Node) (members : list string) : PolicySet := mkSet schema [policy condition members].

Lemma accepted_policies_compile_witness :
  validateStatic (set condition ["alice"; "bob"]) DefaultLimits = [] ∧
  ValidateWithLimits (set condition ["alice"; "bob"]) DefaultLimits = [] ∧
  ∀ p, p ∈ set_Policies (set condition ["alice"; "bob"]) →
    ∃ env e, Compile schema p = Ok (env, e) ∧ coherent env ∧ has_type env e CTBool.
Proof.
  split; [vm_compute; reflexivity|].
  apply (accepted_policies_compile (set condition ["alice"; "bob"]) DefaultLimits); [intros; reflexivity|vm_compute; reflexivity].
Defined.

(** What is reported, and where. *)
Example ill_typed_row :
  validateStatic (set (Compare (FieldRef RoleResource "amount") OpGt (Lit (mkLiteral TypeString (VString "1000")))) ["alice"]) DefaultLimits =
  [mkDiagnostic "/policies/0/challenges/0/approvers" CodeInvalidValue; mkDiagnostic "/policies/0/condition/right" CodeTypeMismatch].
Proof. vm_compute. reflexivity. Qed.

(** The validator counts members as they are written and the quorum handler after
    trimming them: a set that passes validation can name a quorum that is always
    refused when the decision is opened. *)
Lemma trimmed_members_undercut_the_threshold q dec : qc_Issuer q ≠ "" →
  Validate (set condition ["alice"; " alice"]) = [] ∧
  quorum_resolve q (mkQuorum 2 (mkApproverSet ["alice"; " alice"] "" None)) dec = Err [ErrUnsupportedSpec].
Proof.
  intros Hi. split; [vm_compute; reflexivity|]. unfold quorum_resolve. simpl. rewrite bool_decide_false by done. vm_compute. reflexivity.
Qed.

(** The pointer of the size diagnostic has no leading slash. *)
Lemma size_diagnostic_pointer : validateStatic (mkSet schema [policy condition ["alice"; "bob"]; policy NodeNil ["alice"; "bob"]]) (mkLimits 0 1 0 0) =
  [mkDiagnostic "policies" CodeLimitExceeded; mkDiagnostic "/policies/1/id" CodeDuplicate].
Proof. vm_compute. reflexivity. Qed.
End ValidateDemo.
