(* ===== verification/External.v ===== *)
(** * The external handler

    Models internal/challenge/external.go: a webhook round trip.  Issuing posts a
    signed notification, within a per-subject budget; the answer is a callback that
    authenticates itself with the nonce of the issuance and a MAC under the secret
    of the target.

    The MAC and the encoding of a document are the class [ExternalEnv]; the egress
    gate and the answer of the target are arguments, as are the random bytes. *)
From Stdlib Require Import Ascii.
From stdpp Require Import pretty.
From S2P Require Import Prelude GoLib Policy Json AuditChain Checkpoint Store World Limiter Fact Challenge Quorum.
Import Strings.

Class ExternalEnv := {
  (** HMAC-SHA-256: 32 bytes. *)
  hmac_sha256 : AuditChain.bytes → AuditChain.bytes → AuditChain.bytes;
  (** [json.Marshal]. *)
  json_marshal : json → AuditChain.bytes }.

(** ** Vocabulary *)

Definition ExternalNotifyContext : string := "stamp.external-notify.v1".
Definition ExternalCallbackContext : string := "stamp.external-callback.v1".
Definition ExternalVerdictApproved : string := "approved".
Definition ExternalVerdictDenied : string := "denied".

Definition ExternalFailureEgressBlocked : string := "egress_blocked".
Definition ExternalFailureTimeout : string := "timeout".
Definition ExternalFailureTransport : string := "transport".
Definition ExternalFailureRedirect : string := "redirect".
Definition ExternalFailureStatus : string := "status".
Definition ExternalFailureRetargeted : string := "retargeted".
Definition ExternalFailureRateLimited : string := "rate_limited".

Definition DefaultExternalTimeout : Time.duration := (5 * Time.Second)%Z.
Definition DefaultExternalResponseBytes : Z := 8192%Z.
Definition MinExternalSecretBytes : nat := 16.
Definition DefaultMaxTrackedSubjects : Z := 4096%Z.
Definition DefaultExternalSubjectRate : RateLimit := mkRate (Float64.of_Z 1) (Float64.of_Z 10).

(** ** Configuration *)

Record ExternalTarget := mkTarget {
  et_Name : string; et_URL : string; et_Secret : string; et_Timeout : Time.duration; et_RespondWithin : Time.duration }.

(** [xc_BaseOK] says whether the callback base is an absolute http or https URL. *)
Record ExternalConfig := mkExternalConfig {
  xc_Gate : option Gate; xc_Targets : list ExternalTarget; xc_CallbackBaseURL : string; xc_BaseOK : bool;
  xc_MaxResponseBytes : Z; xc_SubjectRate : RateLimit; xc_MaxTrackedSubjects : Z }.

Record External_ := mkExternalHandler {
  x_targets : gmap string ExternalTarget; x_gate : Gate; x_callbackURL : string; x_maxBytes : Z;
  x_limiter : Limiter; x_subjectRate : RateLimit }.

(** [strings.TrimRight(s, "/")]. *)
Definition trim_slashes (s : string) : string :=
  let fix drop l := match l with
                    | a :: l' => if bool_decide (a = "/"%char) then drop l' else l
                    | [] => []
                    end in
  unbytes (reverse (drop (reverse (Policy.bytes s)))).

Fixpoint add_targets (g : Gate) (ts : list ExternalTarget) (acc : gmap string ExternalTarget)
    : result (gmap string ExternalTarget) :=
  match ts with
  | [] => Ok acc
  | t :: ts =>
      let name := TrimSpace (et_Name t) in
      if bool_decide (name = "") then Err []
      else if bool_decide (String.length (et_Secret t) < MinExternalSecretBytes) then Err []
      else match acc !! name with
      | Some _ => Err []
      | None =>
          let? _ := gt_CheckURL g (et_URL t) in
          let timeout := if (et_Timeout t <=? 0)%Z then DefaultExternalTimeout else et_Timeout t in
          add_targets g ts (<[name := mkTarget name (et_URL t) (et_Secret t) timeout (et_RespondWithin t)]> acc)
      end
  end.

Definition NewExternal (cfg : ExternalConfig) : result External_ :=
  match xc_Gate cfg with
  | None => Err []
  | Some gate =>
      let maxBytes := if (xc_MaxResponseBytes cfg <=? 0)%Z then DefaultExternalResponseBytes else xc_MaxResponseBytes cfg in
      let rate := WithZeroDefault (xc_SubjectRate cfg) DefaultExternalSubjectRate in
      let tracked := if (xc_MaxTrackedSubjects cfg <=? 0)%Z then DefaultMaxTrackedSubjects else xc_MaxTrackedSubjects cfg in
      if bool_decide (xc_CallbackBaseURL cfg ≠ "") && negb (xc_BaseOK cfg) then Err []
      else
        let? targets := add_targets gate (xc_Targets cfg) ∅ in
        Ok (mkExternalHandler targets gate (trim_slashes (xc_CallbackBaseURL cfg)) maxBytes (NewLimiter tracked) rate)
  end.

(** ** Details *)

Record ExternalDetail := mkExternalDetail {
  xd_Target : string; xd_Nonce : string; xd_RequestedAt : Time.t; xd_RespondBy : option Time.t;
  xd_Acknowledged : bool; xd_Failure : string; xd_Verdict : string; xd_RespondedAt : option Time.t }.

Definition external_members (d : ExternalDetail) : list (string * option json) :=
  [("target", Some (JStr (xd_Target d))); ("nonce", Some (JStr (xd_Nonce d)));
   ("requested_at", Some (JTime (xd_RequestedAt d))); ("respond_by", omit_time (xd_RespondBy d));
   ("acknowledged", omit_bool (xd_Acknowledged d)); ("failure", omit_string (xd_Failure d));
   ("verdict", omit_string (xd_Verdict d)); ("responded_at", omit_time (xd_RespondedAt d))].

Definition encodeExternalDetail (d : ExternalDetail) : json := JObj (omit (external_members d)).

Definition unmarshalExternalDetail (raw : json) : result ExternalDetail :=
  let? fs := fields_of raw in
  let? target := dec_string (field "target" fs) in
  let? nonce := dec_string (field "nonce" fs) in
  let? at_ := dec_time (field "requested_at" fs) in
  let? by_ := dec_time_opt (field "respond_by" fs) in
  let? ack := dec_bool (field "acknowledged" fs) in
  let? failure := dec_string (field "failure" fs) in
  let? verdict := dec_string (field "verdict" fs) in
  let? responded := dec_time_opt (field "responded_at" fs) in
  Ok (mkExternalDetail target nonce at_ by_ ack failure verdict responded).

Definition decodeExternalDetail (raw : json) : result ExternalDetail :=
  match unmarshalExternalDetail raw with
  | Err _ => Err [ErrInvalidPayload]
  | Ok d => if bool_decide (xd_Target d = "") || bool_decide (xd_Nonce d = "") then Err [ErrInvalidPayload] else Ok d
  end.

(** ** Callbacks *)

Record ExternalCallback := mkCallback { cb_Nonce : string; cb_Verdict : string; cb_Signature : string }.

Definition decodeExternalCallback (raw : option json) : result ExternalCallback :=
  match raw with
  | Some (JObj fs) =>
      if negb (forallb (λ kv, contains ["nonce"; "verdict"; "signature"] kv.1) fs) then Err [ErrInvalidPayload]
      else match dec_string (field "nonce" fs), dec_string (field "verdict" fs), dec_string (field "signature" fs) with
      | Ok nonce, Ok verdict, Ok signature =>
          if bool_decide (nonce = "") then Err [ErrInvalidPayload]
          else if negb (contains [ExternalVerdictApproved; ExternalVerdictDenied] verdict) then Err [ErrInvalidPayload]
          else if bool_decide (signature = "") then Err [ErrInvalidPayload]
          else if is_ok (hex_DecodeString signature) then Ok (mkCallback nonce verdict signature)
          else Err [ErrInvalidPayload]
      | _, _, _ => Err [ErrInvalidPayload]
      end
  | _ => Err [ErrInvalidPayload]
  end.

(** ** Signatures *)

Definition newline : ascii := ascii_of_nat 10.

Section external.
Context `{ExternalEnv}.

Definition ExternalNotificationSignature (secret : string) (body : AuditChain.bytes) : string :=
  hex (hmac_sha256 (of_string secret) (of_string ExternalNotifyContext ++ newline :: body)).

(** Each part is terminated. *)
Definition callback_material (decisionID : string) (ordinal : Z) (nonce verdict : string) : AuditChain.bytes :=
  [ExternalCallbackContext; decisionID; pretty ordinal; nonce; verdict] ≫= λ part, of_string part ++ [newline].

Definition ExternalCallbackSignature (secret decisionID : string) (ordinal : Z) (nonce verdict : string) : string :=
  hex (hmac_sha256 (of_string secret) (callback_material decisionID ordinal nonce verdict)).

(** ** The outbound leg *)

Definition CallbackURLFor (x : External_) (i : Instance_) : string :=
  if bool_decide (x_callbackURL x = "") then ""
  else x_callbackURL x +:+ "/external/" +:+ i_DecisionID i +:+ "/" +:+ pretty (i_Ordinal i).

Definition notification (x : External_) (t : ExternalTarget) (d : ExternalDetail) (i : Instance_) (dec : DecisionContext) : json :=
  JObj (omit
    [("context", Some (JStr ExternalNotifyContext)); ("decision_id", Some (JStr (i_DecisionID i)));
     ("challenge_ordinal", Some (JInt (i_Ordinal i))); ("nonce", Some (JStr (xd_Nonce d)));
     ("target", Some (JStr (et_Name t))); ("subject_id", Some (JStr (dc_SubjectID dec)));
     ("resource_id", Some (JStr (dc_ResourceID dec))); ("action", Some (JStr (dc_Action dec)));
     ("policy_id", Some (JStr (dc_PolicyID dec))); ("issued_at", Some (JTime (xd_RequestedAt d)));
     ("respond_by", omit_time (xd_RespondBy d)); ("callback_url", omit_string (CallbackURLFor x i))]).

(** A request put on the wire, and what comes of it: an error of the client, the
    timeout of the target, or a status. *)
Record Post := mkPost { po_URL : string; po_Body : AuditChain.bytes; po_Signature : string }.
Inductive PostAnswer := PostErr (e : error) | PostTimeout | PostStatus (code : Z).

Inductive notify_error := NErr (e : error) | NTimeout | NStatus (redirect : bool).

Definition notify (x : External_) (t : ExternalTarget) (d : ExternalDetail) (i : Instance_) (dec : DecisionContext)
    (answer : PostAnswer) : option notify_error * list Post :=
  match gt_CheckURL (x_gate x) (et_URL t) with
  | Err e => (Some (NErr e), [])
  | Ok _ =>
      let body := json_marshal (notification x t d i dec) in
      let post := mkPost (et_URL t) body ("v1=" +:+ ExternalNotificationSignature (et_Secret t) body) in
      (match answer with
       | PostErr e => Some (NErr e)
       | PostTimeout => Some NTimeout
       | PostStatus code =>
           if ((300 <=? code) && (code <? 400))%Z then Some (NStatus true)
           else if ((code <? 200) || (300 <=? code))%Z then Some (NStatus false) else None
       end, [post])
  end.

Definition externalFailure (e : notify_error) : string :=
  match e with
  | NErr e => if errors_Is e ErrBlocked then ExternalFailureEgressBlocked else ExternalFailureTransport
  | NStatus redirect => if redirect then ExternalFailureRedirect else ExternalFailureStatus
  | NTimeout => ExternalFailureTimeout
  end.

(** The budget: a decision with no subject is not charged. *)
Definition subject_key (subjectID : string) : string := "subject" +:+ String (ascii_of_nat 31) subjectID.

Definition allowNotify (subjectID : string) (now : Time.t) (x : External_) : bool * External_ :=
  let subjectID := TrimSpace subjectID in
  if bool_decide (subjectID = "") then (true, x)
  else let '(ok, l) := AllowAt (subject_key subjectID) (x_subjectRate x) f1 now (x_limiter x) in
       (ok, mkExternalHandler (x_targets x) (x_gate x) (x_callbackURL x) (x_maxBytes x) l (x_subjectRate x)).

Definition newExternalNonce (random : result AuditChain.bytes) : result string := let? b := random in Ok (hex b).

Definition with_failure (d : ExternalDetail) (f : string) : ExternalDetail :=
  mkExternalDetail (xd_Target d) (xd_Nonce d) (xd_RequestedAt d) (xd_RespondBy d) (xd_Acknowledged d) f
    (xd_Verdict d) (xd_RespondedAt d).

Definition external_issue (overflow : Z) (random : result AuditChain.bytes) (answer : PostAnswer) (req : IssueRequest)
    (x : External_) : result IssueResult * External_ * list Post :=
  match ir_Spec req with
  | CExternal spec =>
      match x_targets x !! TrimSpace (e_Target spec) with
      | None => (Err [ErrUnsupportedSpec; ErrTargetUnknown], x, [])
      | Some target =>
          match newExternalNonce random with
          | Err e => (Err e, x, [])
          | Ok nonce =>
              let now := ir_Now req in
              let by_ := if (0 <? et_RespondWithin target)%Z then Some (Time.Add now (et_RespondWithin target)) else None in
              let detail := mkExternalDetail (et_Name target) nonce now by_ false "" "" None in
              let '(ok, x) := allowNotify (dc_SubjectID (ir_Decision req)) now x in
              if negb ok then
                (Ok (mkIssueResult StateFailed (Some (encodeExternalDetail (with_failure detail ExternalFailureRateLimited)))
                       None true (RefillInterval overflow (x_subjectRate x))), x, [])
              else match notify x target detail (ir_Instance req) (ir_Decision req) answer with
              | (Some e, posts) =>
                  (Ok (mkIssueResult StateFailed (Some (encodeExternalDetail (with_failure detail (externalFailure e))))
                         None false 0%Z), x, posts)
              | (None, posts) =>
                  let detail := mkExternalDetail (et_Name target) nonce now by_ true "" "" None in
                  (Ok (mkIssueResult StatePending (Some (encodeExternalDetail detail)) by_ false 0%Z), x, posts)
              end
          end
      end
  | _ => (Err [ErrUnsupportedSpec], x, [])
  end.

(** ** Submit: a callback.  The submitter is not consulted. *)

Definition externalState (verdict : string) : CState :=
  if bool_decide (verdict = ExternalVerdictApproved) then StateSatisfied else StateFailed.

Definition external_submit (x : External_) (req : SubmitRequest) : result SubmitResult :=
  let? detail := decodeExternalDetail (sr_Detail req) in
  match x_targets x !! xd_Target detail with
  | None => Err [ErrUnsupportedSpec; ErrTargetUnknown]
  | Some target =>
      let? body := decodeExternalCallback (sr_Payload req) in
      if negb (bool_decide (cb_Nonce body = xd_Nonce detail)) then Err [ErrNotTarget]
      else
        let want := ExternalCallbackSignature (et_Secret target) (i_DecisionID (sr_Instance req))
                      (i_Ordinal (sr_Instance req)) (xd_Nonce detail) (cb_Verdict body) in
        if negb (bool_decide (ToLower (cb_Signature body) = want)) then Err [ErrNotTarget]
        else
          let detail := mkExternalDetail (xd_Target detail) (xd_Nonce detail) (xd_RequestedAt detail) (xd_RespondBy detail)
                          (xd_Acknowledged detail) (xd_Failure detail) (cb_Verdict body) (Some (sr_Now req)) in
          Ok (mkSubmitResult (externalState (cb_Verdict body)) 0%Z 0%Z (Some (encodeExternalDetail detail)))
  end.

(** ** Status *)

Definition external_deadline (d : ExternalDetail) (stored : option Time.t) : option Time.t :=
  match xd_RespondBy d with Some t => Some t | None => stored end.

Definition external_state (stored : CState) (d : ExternalDetail) (deadline : option Time.t) (now : Time.t) : CState :=
  if CState_Terminal stored then stored
  else if bool_decide (xd_Failure d ≠ "") then StateFailed
  else if bool_decide (xd_Verdict d ≠ "") then externalState (xd_Verdict d)
  else match deadline with
       | Some t => if Time.Before now t then StatePending else StateFailed
       | None => StatePending
       end.

Definition external_status (req : StatusRequest) : result Status :=
  let? detail := decodeExternalDetail (st_Detail req) in
  let deadline := external_deadline detail (st_Deadline req) in
  Ok (mkStatus (external_state (st_Stored req) detail deadline (st_Now req)) 0%Z 0%Z deadline None
        (bool_decide (xd_Failure detail = ExternalFailureRateLimited))).

(** The handler, in a state in which its issuances come out as [issue] says.  It
    vouches for nobody's access. *)
Definition ExternalHandler (issue : IssueRequest → result IssueResult) (x : External_) : Handler :=
  mkHandler ChallengeExternal (λ r, lift (issue r)) (λ r, lift (external_submit x r)) (λ r, lift (external_status r))
    None None None.

End external.
