(* ===== verification/ExternalSpec.v ===== *)
(** * What the external handler promises

    The detail it stores reads back; the material a callback signs names one
    decision, challenge, issuance and verdict; a challenge is satisfied only by an
    approval the target signed for it; and at one instant a subject's decisions
    cause no more notifications than the budget's burst. *)
From Stdlib Require Import Ascii.
From stdpp Require Import pretty.
From S2P Require Import Prelude GoLib Policy Json AuditChain Checkpoint Store World Limiter LimiterSpec Text Fact FactSpec.
From S2P Require Import Challenge Quorum External.
Import Strings.

(** The service's theorems apply: no call of the handler touches the store. *)
#[export] Instance ExternalHandler_aloof `{ExternalEnv} issue x : Aloof (ExternalHandler issue x).
Proof. split; simpl; intros; (done || apply aloof_lift). Qed.

(** ** The stored detail *)

Lemma external_detail_decodes d :
  xd_Target d ≠ "" → xd_Nonce d ≠ "" → decodeExternalDetail (canonicalJSON (Some (encodeExternalDetail d))) = Ok d.
Proof.
  intros Ht Hn. unfold decodeExternalDetail, unmarshalExternalDetail, encodeExternalDetail, canonicalJSON.
  cbn [Json.canonical fields_of res_bind]. unfold external_members. stored_struct.
  rewrite !dec_omit_string, !dec_omit_time, dec_omit_bool. simpl.
  rewrite !bool_decide_eq_false_2 by done. by destruct d.
Qed.

(** ** What a callback signs *)

Definition newline_free (s : string) : Prop := Forall (λ a, a ≠ newline) (of_string s).

Lemma terminated_eq s t r r' :
  newline_free s → newline_free t → (of_string s ++ [newline]) ++ r = (of_string t ++ [newline]) ++ r' → s = t ∧ r = r'.
Proof.
  intros Hs Ht. rewrite <-!(assoc_L (++)). intros [E1 E2]%(span_eq (λ a, a = newline)); [|done..].
  split; [by apply of_string_inj|]. by simplify_list_eq.
Qed.

Lemma hex_newline_free b : newline_free (hex b).
Proof.
  unfold newline_free, hex, of_string. rewrite String.list_ascii_of_string_of_list_ascii.
  apply Forall_bind, Forall_true. intros a. by destruct a as [[] [] [] [] [] [] [] []]; repeat constructor; vm_compute.
Qed.

Lemma digits_newline_free l : Forall digit l → Forall (λ a, a ≠ newline) l.
Proof. intros Hl. eapply Forall_impl; [exact Hl|]. intros a Ha ->. unfold digit in Ha. vm_compute in Ha. lia. Qed.

Lemma pretty_newline_free (z : Z) : newline_free (pretty z).
Proof.
  unfold newline_free. destruct (decide (0 <= z)%Z) as [Hz|Hz]; [by apply digits_newline_free, pretty_spec|].
  destruct z as [|p|p]; [lia|lia|]. change (of_string (pretty (Zneg p))) with ("-"%char :: of_string (pretty (Zpos p))).
  constructor; [done|]. by apply digits_newline_free, (pretty_spec (Zpos p)).
Qed.

Lemma callback_material_inj id id' o o' n n' v v' :
  Forall newline_free [id; id'; n; n'; v; v'] → callback_material id o n v = callback_material id' o' n' v' →
  id = id' ∧ o = o' ∧ n = n' ∧ v = v'.
Proof.
  rewrite !Forall_cons. intros (H1 & H2 & H3 & H4 & H5 & H6 & _) Heq. unfold callback_material in Heq. rewrite !bind_cons in Heq.
  apply terminated_eq in Heq as [_ Heq]; [|by repeat constructor..].
  apply terminated_eq in Heq as [-> Heq]; [|done..].
  apply terminated_eq in Heq as [Ho Heq]; [|apply pretty_newline_free..].
  apply terminated_eq in Heq as [-> Heq]; [|done..].
  apply terminated_eq in Heq as [-> _]; [|done..]. by apply (inj pretty) in Ho as ->.
Qed.

(** ** The life of a challenge row *)

Section runs.
Context `{ExternalEnv}.

(** A handler some configuration built, whatever its budget has been charged. *)
Definition configured (x : External_) : Prop := ∃ cfg x0, NewExternal cfg = Ok x0 ∧ x_targets x = x_targets x0.

(** What can happen to the row of challenge [i], demanded as [spec]: it is issued under
    a nonce made of [random] and stored pending, a callback is accepted by a configured
    handler and recorded, or its status is taken over.  The handler may be reconfigured in
    between.  The run remembers the callbacks accepted and the target each was checked
    against. *)
Inductive ext_run (i : Instance_) (spec : External) (random : AuditChain.bytes) : json → CState → list (ExternalTarget * ExternalCallback) → Prop :=
  | ext_issued overflow answer req x r x' posts j :
      configured x → length random = 32 → external_issue overflow (Ok random) answer req x = (Ok r, x', posts) →
      ir_Instance req = i → ir_Spec req = CExternal spec → is_Detail r = Some j → ext_run i spec random (canonicalJSON (Some j)) StatePending []
  | ext_answered x target d cb req out j' s tr :
      ext_run i spec random (sr_Detail req) s tr → configured x → sr_Instance req = i → external_submit x req = Ok out →
      decodeExternalDetail (sr_Detail req) = Ok d → x_targets x !! xd_Target d = Some target →
      decodeExternalCallback (sr_Payload req) = Ok cb → so_Detail out = Some j' →
      ext_run i spec random (canonicalJSON (Some j')) (so_State out) (tr ++ [(target, cb)])
  | ext_polled req st tr :
      ext_run i spec random (st_Detail req) (st_Stored req) tr → external_status req = Ok st →
      ext_run i spec random (st_Detail req) (ss_State st) tr.

(** A callback for challenge [i], issued with [nonce], verified under the secret of a
    target that has the name asked for and a secret of the minimum length. *)
Definition signed (i : Instance_) (spec : External) (nonce : string) (p : ExternalTarget * ExternalCallback) : Prop :=
  et_Name p.1 = TrimSpace (e_Target spec) ∧ MinExternalSecretBytes ≤ String.length (et_Secret p.1) ∧
  (∃ x, configured x ∧ x_targets x !! et_Name p.1 = Some p.1) ∧ cb_Nonce p.2 = nonce ∧
  ToLower (cb_Signature p.2) = ExternalCallbackSignature (et_Secret p.1) (i_DecisionID i) (i_Ordinal i) nonce (cb_Verdict p.2).

Definition target_ok (n : string) (t : ExternalTarget) : Prop := n ≠ "" ∧ et_Name t = n ∧ MinExternalSecretBytes ≤ String.length (et_Secret t).

Lemma add_targets_ok g ts acc m :
  add_targets g ts acc = Ok m → (∀ n t, acc !! n = Some t → target_ok n t) → ∀ n t, m !! n = Some t → target_ok n t.
Proof.
  revert acc. induction ts as [|t ts IH]; intros acc; simpl; [by intros [= <-]|].
  case_bool_decide as Hn; [done|]. case_bool_decide as Hl; [done|]. destruct (acc !! _); [done|].
  intros (u & _ & Hm)%res_bind_Ok Hacc. apply (IH _ Hm). intros n t'. rewrite lookup_insert_Some.
  intros [[<- <-]|[_ Ht]]; [split_and!; [done|done|simpl; lia]|by eapply Hacc].
Qed.

Lemma configured_ok x n t : configured x → x_targets x !! n = Some t → target_ok n t.
Proof.
  intros (cfg & x0 & Hx & ->). unfold NewExternal in Hx. destruct (xc_Gate cfg); [|done].
  destruct (_ && _); [done|]. apply res_bind_Ok in Hx as (m & Hm & [= <-]). simpl. by eapply add_targets_ok.
Qed.

Lemma external_issue_detail overflow b answer req x r x' posts :
  configured x → external_issue overflow (Ok b) answer req x = (Ok r, x', posts) →
  ∃ d spec, ir_Spec req = CExternal spec ∧ is_Detail r = Some (encodeExternalDetail d) ∧ xd_Nonce d = hex b ∧
       xd_Target d = TrimSpace (e_Target spec) ∧ xd_Target d ≠ "" ∧ xd_Verdict d = "" ∧ (is_State r = StatePending ↔ xd_Failure d = "").
Proof.
  intros Hx. unfold external_issue. destruct (ir_Spec req) as [| | |spec]; try by intros [=]. intros Hi.
  destruct (x_targets x !! _) as [t|] eqn:Et; [|by simplify_eq]. cbn [newExternalNonce res_bind] in Hi.
  destruct (configured_ok _ _ _ Hx Et) as (Hne & Hn & _).
  destruct (allowNotify _ _ x) as [ok x1]. destruct ok; cbn [negb] in Hi.
  - destruct (notify _ _ _ _ _ _) as [[err|] ps]; simplify_eq; cbn; eexists _, spec; (split_and!; [done|done|done|exact Hn|simpl; by rewrite Hn|done|]); simpl; [|done].
    split; [done|]. destruct err as [err| |[]]; simpl; [|done..]. by destruct (errors_Is err ErrBlocked).
  - simplify_eq. eexists _, spec. split_and!; [done|done|done|exact Hn|simpl; by rewrite Hn|done|done].
Qed.

Lemma hex_nonempty b : length b = 32 → hex b ≠ "".
Proof. destruct b as [|a b]; [done|]. by intros _. Qed.

(** What the row knows of the run. *)
Record ext_inv (i : Instance_) (spec : External) (random : AuditChain.bytes) (j : json) (s : CState) (tr : list (ExternalTarget * ExternalCallback)) : Prop := {
  xi_detail : ∃ d, decodeExternalDetail j = Ok d ∧ xd_Nonce d = hex random ∧ xd_Target d = TrimSpace (e_Target spec) ∧ Forall (signed i spec (xd_Nonce d)) tr ∧
      (xd_Verdict d = ExternalVerdictApproved → ∃ p, p ∈ tr ∧ cb_Verdict p.2 = ExternalVerdictApproved);
  xi_state : s = StateSatisfied → ∃ p, p ∈ tr ∧ cb_Verdict p.2 = ExternalVerdictApproved }.

Lemma externalState_satisfied v : externalState v = StateSatisfied ↔ v = ExternalVerdictApproved.
Proof. unfold externalState. by case_bool_decide. Qed.

Lemma external_submit_inv x req out d target cb :
  external_submit x req = Ok out → decodeExternalDetail (sr_Detail req) = Ok d →
  x_targets x !! xd_Target d = Some target → decodeExternalCallback (sr_Payload req) = Ok cb →
  cb_Nonce cb = xd_Nonce d ∧
  ToLower (cb_Signature cb) = ExternalCallbackSignature (et_Secret target) (i_DecisionID (sr_Instance req)) (i_Ordinal (sr_Instance req)) (xd_Nonce d) (cb_Verdict cb) ∧ so_State out = externalState (cb_Verdict cb) ∧
  so_Detail out = Some (encodeExternalDetail (mkExternalDetail (xd_Target d) (xd_Nonce d) (xd_RequestedAt d)
    (xd_RespondBy d) (xd_Acknowledged d) (xd_Failure d) (cb_Verdict cb) (Some (sr_Now req)))).
Proof.
  unfold external_submit. intros Hs Hd Ht Hcb. rewrite Hd in Hs. cbn [res_bind] in Hs. rewrite Ht, Hcb in Hs.
  cbn [res_bind] in Hs. case_bool_decide as En; [|done]. case_bool_decide as Es; [|done]. cbn [negb] in Hs.
  injection Hs as <-. by split_and!.
Qed.

Lemma decoded_named j d : decodeExternalDetail j = Ok d → xd_Target d ≠ "" ∧ xd_Nonce d ≠ "".
Proof.
  unfold decodeExternalDetail. destruct (unmarshalExternalDetail j) as [x|]; [|done].
  do 2 case_bool_decide; cbn [orb]; try done. by intros [= <-].
Qed.

Lemma ext_run_inv i spec random j s tr : ext_run i spec random j s tr → ext_inv i spec random j s tr.
Proof.
  induction 1 as [overflow answer req x r x' posts j Hx Hl Hi Ei Es Ej|x target d cb req out j' s tr _ IH Hx Ei Hs Hd Ht Hcb Ej|req st tr _ IH Hs].
  - destruct (external_issue_detail _ _ _ _ _ _ _ _ Hx Hi) as (d & sp & Esp & Ed & En & Et & Hne & Ev & _). rewrite Es in Esp. rewrite Ej in Ed. simplify_eq.
    split; [|done]. exists d. rewrite external_detail_decodes by (done || rewrite En; by apply hex_nonempty).
    split_and!; [done..|constructor|by rewrite Ev].
  - destruct IH as [(d0 & Hd0 & En & Et & Htr & Hv) Hst]. rewrite Hd in Hd0. simplify_eq.
    destruct (external_submit_inv _ _ _ _ _ _ Hs Hd Ht Hcb) as (Hno & Hsig & Hso & Hdet). rewrite Ej in Hdet. simplify_eq.
    destruct (decoded_named _ _ Hd) as [Hn1 Hn2]. destruct (configured_ok _ _ _ Hx Ht) as (_ & Hname & Hlen). split.
    + eexists. rewrite external_detail_decodes by done. split_and!; [done..| |]; simpl.
      * apply Forall_app. split; [done|]. apply Forall_singleton. split_and!; simpl; [congruence|done| |done|done]. exists x. by rewrite Hname.
      * intros Ev. eexists. rewrite elem_of_app, list_elem_of_singleton. split; [right; reflexivity|done].
    + rewrite Hso, externalState_satisfied. intros Ev. eexists. rewrite elem_of_app, list_elem_of_singleton. split; [right; reflexivity|done].
  - destruct IH as [(d & Hd & En & Et & Htr & Hv) Hst]. split; [by exists d|].
    unfold external_status in Hs. rewrite Hd in Hs. cbn [res_bind] in Hs. simplify_eq. simpl. unfold external_state.
    destruct (CState_Terminal (st_Stored req)); [done|]. case_bool_decide; [done|]. case_bool_decide.
    + rewrite externalState_satisfied. done.
    + destruct (external_deadline d (st_Deadline req)) as [t|]; [|done]. by destruct (Time.Before _ _).
Qed.

(** C27. An external challenge is satisfied only by an approval its target signed for
    it.  Let a challenge be issued by a configured handler, with 32 random bytes, and its
    row be answered by handlers that may be configured anew in between, and polled, in
    any order.  When the row reads satisfied, it holds the nonce of its issuance and the
    name of the target the policy asked for, and a callback with the verdict approved was
    accepted that carries this nonce and the MAC of material naming this decision, this
    challenge, this nonce and the approval, under the secret that a configured target of
    that name had then, of at least the minimum length.  The material of anything else is
    different, if the decision's identifier has no newline, so a callback for another
    challenge or another verdict does not verify unless MACs collide. *)
Theorem external_needs_signed_approval i spec random j tr :
  newline_free (i_DecisionID i) → ext_run i spec random j StateSatisfied tr →
  ∃ d target cb, decodeExternalDetail j = Ok d ∧ xd_Nonce d = hex random ∧ xd_Target d = TrimSpace (e_Target spec) ∧
    (target, cb) ∈ tr ∧ (∃ x, configured x ∧ x_targets x !! xd_Target d = Some target) ∧ MinExternalSecretBytes ≤ String.length (et_Secret target) ∧
    cb_Verdict cb = ExternalVerdictApproved ∧ cb_Nonce cb = xd_Nonce d ∧
    ToLower (cb_Signature cb) = ExternalCallbackSignature (et_Secret target) (i_DecisionID i) (i_Ordinal i) (xd_Nonce d) ExternalVerdictApproved ∧
    ∀ id o n v, Forall newline_free [id; n; v] →
      callback_material id o n v = callback_material (i_DecisionID i) (i_Ordinal i) (xd_Nonce d) ExternalVerdictApproved →
      id = i_DecisionID i ∧ o = i_Ordinal i ∧ n = xd_Nonce d ∧ v = ExternalVerdictApproved.
Proof.
  intros Hid [(d & Hd & En & Et & Htr & _) Hst]%ext_run_inv. destruct (Hst eq_refl) as ([target cb] & Hp & Hv). simpl in Hv.
  rewrite Forall_forall in Htr. destruct (Htr _ Hp) as (Hn & Hl & Hx & Hno & Hs). simpl in *. rewrite Hv in Hs.
  exists d, target, cb. split_and!; try done; [by rewrite Et, <-Hn|].
  intros id o n v Hf. apply callback_material_inj. rewrite !Forall_cons in Hf. destruct Hf as (? & ? & ? & _).
  rewrite En. repeat constructor; try done; try apply hex_newline_free; vm_compute; congruence.
Qed.
End runs.

(** ** The budget of a subject *)

Record issuance := mkIssuance { iu_random : result AuditChain.bytes; iu_answer : PostAnswer; iu_request : IssueRequest }.

Definition subject_of (u : issuance) : string := TrimSpace (dc_SubjectID (ir_Decision (iu_request u))).

(** The notifications sent for one subject. *)
Fixpoint notified `{ExternalEnv} (overflow : Z) (s : string) (x : External_) (us : list issuance) : Z :=
  match us with
  | [] => 0
  | u :: us =>
      let '(_, x', posts) := external_issue overflow (iu_random u) (iu_answer u) (iu_request u) x in
      ((if bool_decide (subject_of u = s) then Z.of_nat (length posts) else 0) + notified overflow s x' us)%Z
  end.

Lemma external_issue_charges `{ExternalEnv} overflow u x r x' posts :
  external_issue overflow (iu_random u) (iu_answer u) (iu_request u) x = (r, x', posts) →
  (x' = x ∧ posts = []) ∨
  ∃ ok, allowNotify (subject_of u) (ir_Now (iu_request u)) x = (ok, x') ∧ (Z.of_nat (length posts) <= if ok then 1 else 0)%Z.
Proof.
  unfold external_issue. destruct (ir_Spec (iu_request u)); try (intros [= <- <- <-]; by left).
  destruct (x_targets x !! _) as [t|]; [|intros [= <- <- <-]; by left].
  destruct (newExternalNonce _) as [n|]; [|intros [= <- <- <-]; by left].
  assert (∀ s, allowNotify (TrimSpace s) (ir_Now (iu_request u)) x = allowNotify s (ir_Now (iu_request u)) x) as Htrim.
  { intros s. unfold allowNotify. by rewrite TrimSpace_idemp. }
  unfold subject_of. rewrite Htrim.
  destruct (allowNotify _ _ x) as [[] x1]; simpl; [|intros [= <- <- <-]; right; by eexists].
  unfold notify. destruct (gt_CheckURL _ _); [|intros [= <- <- <-]; right; by eexists].
  destruct (iu_answer u) as [err| |code]; [intros [= <- <- <-]; right; by eexists..|].
  destruct (_ && _)%Z; [intros [= <- <- <-]; right; by eexists|].
  destruct (_ || _)%Z; intros [= <- <- <-]; right; by eexists.
Qed.

(** The budget of a subject bounds what its decisions may send: issuances made at
    one instant, about this subject and others and to any targets, post no more
    notifications about it than the burst, whatever the targets answer. *)
Theorem notifications_within_budget `{ExternalEnv} overflow s burst now x us :
  s ≠ "" → lm_entries (x_limiter x) !! subject_key s = None →
  Unlimited (x_subjectRate x) = false → is_int (rl_Burst (withDefaults (x_subjectRate x))) burst → (1 <= burst < 2 ^ 53)%Z →
  Forall (λ u, ir_Now (iu_request u) = now) us →
  (notified overflow s x us <= burst)%Z.
Proof.
  intros Hs Hnone Hlim Hb Hr Hus.
  cut (∀ n, left_over (subject_key s) (x_subjectRate x) burst now (x_limiter x) n → (0 <= n <= burst)%Z → (notified overflow s x us <= n)%Z).
  { intros Hc. apply Hc; [|lia]. unfold left_over. by rewrite Hnone. }
  clear Hnone. revert x Hlim Hb. induction Hus as [|u us Hu _ IH]; intros x Hlim Hb n Hl Hn; simpl; [lia|].
  destruct (external_issue _ _ _ _ x) as [[r x'] posts] eqn:Ei.
  destruct (external_issue_charges _ _ _ _ _ _ Ei) as [[-> ->]|(ok & Ha & Hp)].
  { specialize (IH x Hlim Hb n Hl Hn). simpl. destruct (bool_decide _); lia. }
  unfold allowNotify in Ha. unfold subject_of in *. rewrite TrimSpace_idemp in Ha.
  case_bool_decide as E0.
  { simplify_eq. rewrite bool_decide_eq_false_2 by congruence. specialize (IH x' Hlim Hb n Hl Hn). lia. }
  pose (c := mkCharge (subject_key (TrimSpace (dc_SubjectID (ir_Decision (iu_request u))))) (x_subjectRate x) 1 now).
  pose proof (charge_left_over (subject_key s) (x_subjectRate x) burst now Hlim Hb ltac:(lia) (x_limiter x) n c Hl Hn
    eq_refl ltac:(simpl; lia) ltac:(done)) as Hstep.
  change (charge_step (x_limiter x) c) with
    (AllowAt (subject_key (TrimSpace (dc_SubjectID (ir_Decision (iu_request u))))) (x_subjectRate x) f1 now (x_limiter x)) in Hstep.
  rewrite Hu in Ha. destruct (AllowAt _ _ _ _ _) as [ok' l]. simplify_eq. destruct Hstep as [Hl' Hn'].
  apply (IH (mkExternalHandler (x_targets x) (x_gate x) (x_callbackURL x) (x_maxBytes x) l (x_subjectRate x)) Hlim Hb) in Hl'; [|done].
  assert (bool_decide (c_key c = subject_key s) = bool_decide (TrimSpace (dc_SubjectID (ir_Decision (iu_request u))) = s)) as Ek.
  { apply bool_decide_ext. unfold c, subject_key. simpl. split; [|by intros ->]. intros [=]. done. }
  rewrite Ek in Hl', Hn'. destruct (bool_decide (_ = s)), ok; simpl in *; lia.
Qed.

(** ** A target at work *)

Module ExternalDemo.

Definition toy_external : ExternalEnv := Build_ExternalEnv (λ k m, be_bytes 32 (Z.of_nat (length k + length m))) (λ _, []).
#[local] Existing Instance toy_external.

Definition secret : string := "0123456789abcdef".
Definition gate : Gate := mkGate (λ _, Ok tt) (λ _, Ok tt).
Definition config : ExternalConfig :=
  mkExternalConfig (Some gate) [mkTarget " risk " "https://risk.example" secret 0 60000] "" true 0 (mkRate f0 f0) 0.
Definition handler : External_ :=
  match NewExternal config with Ok x => x | Err _ => mkExternalHandler ∅ gate "" 0 (NewLimiter 0) (mkRate f0 f0) end.

Lemma handler_configured : configured handler.
Proof. exists config, handler. split; [vm_compute; reflexivity|done]. Qed.

Definition inst : Instance_ := mkInstance "d1" 0 ChallengeExternal.
Definition context (subject : string) : DecisionContext :=
  mkContext "d1" "app" subject "r" "send" "p" (JObj []) (JObj []) (JArr []) 0 10%Z.
Definition random : AuditChain.bytes := be_bytes 32 7.
Definition issue_request (subject : string) : IssueRequest :=
  mkIssueRequest inst (CExternal (mkExternal "risk")) (context subject) 1000%Z.
Definition issue (answer : PostAnswer) : result IssueResult * External_ * list Post :=
  external_issue 0 (Ok random) answer (issue_request "dave") handler.

Definition stored (r : result IssueResult) : json :=
  match r with Ok r => canonicalJSON (is_Detail r) | Err _ => JNull end.
Definition callback (verdict : string) : json :=
  JObj [("nonce", JStr (hex random)); ("verdict", JStr verdict);
        ("signature", JStr (ExternalCallbackSignature secret "d1" 0 (hex random) verdict))].
Definition answer_with (row : json) (verdict : string) (now : Time.t) : result SubmitResult :=
  external_submit handler (mkSubmitRequest inst (context "dave") row None (Some (callback verdict)) now).
Definition state_of (r : result SubmitResult) : option CState := match r with Ok o => Some (so_State o) | Err _ => None end.

(** The target takes the work and approves later. *)
Definition row1 : json := stored (issue (PostStatus 202)).1.1.
Definition answered : SubmitResult :=
  match answer_with row1 ExternalVerdictApproved 2000%Z with Ok o => o | Err _ => mkSubmitResult StatePending 0 0 None end.
Definition row2 : json := canonicalJSON (so_Detail answered).
Definition approval : ExternalCallback :=
  mkCallback (hex random) ExternalVerdictApproved (ExternalCallbackSignature secret "d1" 0 (hex random) ExternalVerdictApproved).

Definition risk : ExternalTarget := mkTarget "risk" "https://risk.example" secret DefaultExternalTimeout 60000.

Lemma demo_run : ext_run inst (mkExternal "risk") random row2 StateSatisfied [(risk, approval)].
Proof.
  assert (ext_run inst (mkExternal "risk") random row1 StatePending []) as H1.
  { eapply (ext_issued inst _ random 0 (PostStatus 202) (issue_request "dave") handler
      (match (issue (PostStatus 202)).1.1 with Ok r => r | Err _ => mkIssueResult StatePending None None false 0%Z end)).
    - apply handler_configured.
    - reflexivity.
    - vm_compute. reflexivity.
    - reflexivity.
    - reflexivity.
    - vm_compute. reflexivity. }
  pose proof (ext_answered inst (mkExternal "risk") random handler risk
    (match decodeExternalDetail row1 with Ok d => d | Err _ => mkExternalDetail "" "" 0 None false "" "" None end) approval
    (mkSubmitRequest inst (context "dave") row1 None (Some (callback ExternalVerdictApproved)) 2000%Z) answered
    (default JNull (so_Detail answered)) StatePending [] H1 handler_configured) as H2.
  apply H2; vm_compute; reflexivity.
Qed.

Lemma external_needs_signed_approval_witness :
  ext_run inst (mkExternal "risk") random row2 StateSatisfied [(risk, approval)] ∧
  ∃ d target cb, decodeExternalDetail row2 = Ok d ∧ (target, cb) ∈ [(risk, approval)] ∧ cb_Nonce cb = xd_Nonce d ∧ cb_Verdict cb = ExternalVerdictApproved.
Proof.
  split; [exact demo_run|].
  destruct (external_needs_signed_approval inst (mkExternal "risk") random row2 [(risk, approval)]) as (d & target & cb & H1 & _ & _ & H2 & _ & _ & H3 & H4 & _).
  - repeat constructor; vm_compute; discriminate.
  - exact demo_run.
  - exists d, target, cb. exact (conj H1 (conj H2 (conj H4 H3))).
Defined.

(** A burst of ten and twelve issuances at one instant. *)
Definition flood : list issuance := replicate 12 (mkIssuance (Ok random) (PostStatus 500) (issue_request " dave ")).

Lemma notifications_within_budget_witness :
  notified 0 "dave" handler flood = 10%Z ∧ (notified 0 "dave" handler flood <= 10)%Z.
Proof.
  split; [vm_compute; reflexivity|].
  apply (notifications_within_budget 0 "dave" 10 1000%Z handler flood).
  - discriminate.
  - vm_compute. reflexivity.
  - vm_compute. reflexivity.
  - vm_compute. reflexivity.
  - vm_compute. split; [discriminate|reflexivity].
  - repeat constructor.
Defined.

(** A target that received the notification but acknowledged it too late has a
    failed round trip on record; the row is stored pending, and until the failure is
    taken over, its approval is accepted and satisfies the challenge.  The mfa
    handler refuses a completion of a challenge that failed at issue. *)
Theorem failed_round_trip_can_be_approved :
  let row := stored (issue PostTimeout).1.1 in
  match (issue PostTimeout).1.1 with Ok r => is_State r = StateFailed | Err _ => False end ∧
  state_of (answer_with row ExternalVerdictApproved 2000%Z) = Some StateSatisfied.
Proof. vm_compute. auto. Qed.
End ExternalDemo.
