(* ===== verification/Mfa.v ===== *)
(** * The mfa handler

    Models internal/challenge/mfa: the contract (contract.go), the delegated handler
    that opens an authentication and judges what comes back (delegated.go), and the
    step-up, CIBA and fallback transports (stepup.go, ciba.go).  The digest is the
    class of the audit chain; what the identity provider and the authorization
    request builder (identity/stepup.go) answer is an argument, as are random
    values. *)
From Stdlib Require Import Ascii.
From stdpp Require Import pretty.
From S2P Require Import Prelude GoLib Policy Weakening Json AuditChain Store World Limiter Challenge Quorum.
Import Strings.

(** ** base32 and base64, without padding *)

Definition bits (a : ascii) : list bool :=
  match a with Ascii b0 b1 b2 b3 b4 b5 b6 b7 => [b7; b6; b5; b4; b3; b2; b1; b0] end.

Definition bits_value (l : list bool) : nat := foldl (λ n (b : bool), 2 * n + (if b then 1 else 0)) 0 l.

(** Groups of [w] bits, the last one filled up with zeros. *)
Fixpoint groups (fuel w : nat) (l : list bool) : list nat :=
  match fuel, l with
  | S fuel, _ :: _ => bits_value (take w (l ++ replicate w false)) :: groups fuel w (drop w l)
  | _, _ => []
  end.

Definition encode_groups (w : nat) (alphabet : string) (b : AuditChain.bytes) : string :=
  let l := b ≫= bits in
  unbytes (map (λ n, default "A"%char (Policy.bytes alphabet !! n)) (groups (length l) w l)).

Definition base32 : AuditChain.bytes → string := encode_groups 5 "ABCDEFGHIJKLMNOPQRSTUVWXYZ234567".
Definition base64url : AuditChain.bytes → string :=
  encode_groups 6 "ABCDEFGHIJKLMNOPQRSTUVWXYZabcdefghijklmnopqrstuvwxyz0123456789-_".

(** ** Methods, details and submissions *)

Definition MethodStepUp : string := "step_up".
Definition MethodCIBA : string := "ciba".
Definition Method_Valid (m : string) : bool := contains [MethodStepUp; MethodCIBA] m.

Definition ContextBindingContext : string := "stamp.mfa-context.v1".
Definition ReferenceCodeContext : string := "stamp.mfa-reference.v1".
Definition NonceContext : string := "stamp.mfa-nonce.v1".
Definition MaxBindingMessageLength : nat := 50.
Definition ReferenceCodePrefix : string := "STAMP-".
Definition FailureIssueRateLimited : string := "issue_rate_limited".
Definition MFADelegated_string : string := "delegated".

Record Detail := mkDetail {
  md_Mode : string; md_Method : string; md_Correlator : string; md_Reference : string; md_Nonce : string;
  md_SubjectID : string; md_RequiredACRValues : list string; md_AllowedACRValues : list string;
  md_Issuer : string; md_ClientID : string; md_Audience : string; md_IssuedAt : Time.t; md_ContextHash : string;
  md_AuthorizationURL : string; md_AuthReqID : string; md_State : string; md_CodeVerifier : string;
  md_ConsumedAt : option Time.t; md_ConsumedBy : string; md_Failure : string }.

Definition Consumed (d : Detail) : bool := bool_decide (is_Some (md_ConsumedAt d)).

Definition detail_members (d : Detail) : list (string * option json) :=
  [("mode", Some (JStr (md_Mode d))); ("method", Some (JStr (md_Method d)));
   ("correlator", Some (JStr (md_Correlator d))); ("reference", Some (JStr (md_Reference d)));
   ("nonce", Some (JStr (md_Nonce d))); ("subject_id", Some (JStr (md_SubjectID d)));
   ("required_acr_values", omit_strings (md_RequiredACRValues d));
   ("allowed_acr_values", omit_strings (md_AllowedACRValues d));
   ("issuer", Some (JStr (md_Issuer d))); ("client_id", Some (JStr (md_ClientID d)));
   ("audience", Some (JStr (md_Audience d))); ("issued_at", Some (JTime (md_IssuedAt d)));
   ("context_hash", Some (JStr (md_ContextHash d))); ("authorization_url", omit_string (md_AuthorizationURL d));
   ("auth_req_id", omit_string (md_AuthReqID d)); ("state", omit_string (md_State d));
   ("code_verifier", omit_string (md_CodeVerifier d)); ("consumed_at", omit_time (md_ConsumedAt d));
   ("consumed_by", omit_string (md_ConsumedBy d)); ("failure", omit_string (md_Failure d))].

Definition encodeDetail (d : Detail) : json := JObj (omit (detail_members d)).

Definition unmarshalDetail (raw : json) : result Detail :=
  let? fs := fields_of raw in
  let str k := dec_string (field k fs) in
  let? mode := str "mode" in let? method := str "method" in
  let? correlator := str "correlator" in let? reference := str "reference" in
  let? nonce := str "nonce" in let? subject := str "subject_id" in
  let? required := dec_strings (field "required_acr_values" fs) in
  let? allowed := dec_strings (field "allowed_acr_values" fs) in
  let? issuer := str "issuer" in let? client := str "client_id" in let? audience := str "audience" in
  let? issued := dec_time (field "issued_at" fs) in
  let? hash := str "context_hash" in let? url := str "authorization_url" in
  let? req := str "auth_req_id" in let? state := str "state" in let? verifier := str "code_verifier" in
  let? consumed := dec_time_opt (field "consumed_at" fs) in
  let? by_ := str "consumed_by" in let? failure := str "failure" in
  Ok (mkDetail mode method correlator reference nonce subject required allowed issuer client audience issued hash
        url req state verifier consumed by_ failure).

Definition DecodeDetail (raw : json) : result Detail :=
  match unmarshalDetail raw with
  | Err _ => Err [ErrInvalidPayload]
  | Ok d =>
      if bool_decide (md_Failure d ≠ "") then Ok d
      else if bool_decide (md_Correlator d = "") then Err [ErrInvalidPayload]
      else if negb (Method_Valid (md_Method d)) then Err [ErrInvalidPayload]
      else Ok d
  end.

Definition decodeSubmission (raw : option json) : result string :=
  match raw with
  | Some (JObj fs) =>
      if negb (forallb (λ kv, contains ["correlator"] kv.1) fs) then Err [ErrInvalidPayload]
      else match dec_string (field "correlator" fs) with
      | Ok c => if bool_decide (TrimSpace c = "") then Err [ErrInvalidPayload] else Ok c
      | Err _ => Err [ErrInvalidPayload]
      end
  | _ => Err [ErrInvalidPayload]
  end.

Definition encodeSubmission (correlator : string) : json := JObj [("correlator", JStr correlator)].

(** ** Reference codes, nonces and binding messages *)

Definition isPlainBindingRune (a : ascii) : bool :=
  let n := nat_of_ascii a in
  in_range a 65 90 || in_range a 97 122 || in_range a 48 57 || contains [45; 95; 46; 58] n.

(** Any byte that is not plain ASCII ends in the error, so runes can be counted as
    bytes. *)
Definition ValidateBindingMessage (msg : string) : result unit :=
  if bool_decide (msg = "") || bool_decide (MaxBindingMessageLength < String.length msg) ||
     negb (forallb isPlainBindingRune (Policy.bytes msg))
  then Err [ErrBindingMessage] else Ok tt.

Section hashes.
Context `{AuditEnv} `{Digest}.

Definition hashed_with (label correlator : string) : AuditChain.bytes :=
  sha256 (of_string label ++ ascii_of_nat 0 :: of_string correlator).

Definition ReferenceCode (correlator : string) : string :=
  ReferenceCodePrefix +:+ unbytes (take 10 (Policy.bytes (base32 (hashed_with ReferenceCodeContext correlator)))).

Definition NonceFor (correlator : string) : string := base64url (hashed_with NonceContext correlator).

(** ** The decision context *)

Definition context_material (dec : DecisionContext) : json :=
  JObj
    [("binding", JStr ContextBindingContext);
     ("decision", JObj
        [("id", JStr (dc_DecisionID dec)); ("caller_id", JStr (dc_CallerID dec));
         ("subject_id", JStr (dc_SubjectID dec)); ("resource_id", JStr (dc_ResourceID dec));
         ("action", JStr (dc_Action dec)); ("policy_id", JStr (dc_PolicyID dec))]);
     ("request", decodeJSON (dc_Request dec)); ("fact_snapshot", decodeJSON (dc_FactSnapshot dec));
     ("obligations", decodeJSON (dc_Obligations dec));
     ("challenge", JObj [("kind", JStr (ChallengeType_string ChallengeMFA))])].

Definition ContextHash (dec : DecisionContext) : string := digest_json (context_material dec).

Definition PreservesCompletion (stored : json) (dec : DecisionContext) : result bool :=
  let? detail := DecodeDetail stored in
  if bool_decide (md_ContextHash detail = "") then Ok false
  else Ok (EqualFold (ContextHash dec) (md_ContextHash detail)).

Definition PreservesRequirement (stored : json) (spec : MFA) : result bool :=
  let? detail := DecodeDetail stored in
  Ok (bool_decide (md_RequiredACRValues detail = NormalizeACRValues (mfa_ACRValues spec))).
End hashes.

(** ** Initiators *)

Record InitiateRequest := mkInitiate {
  iq_Instance : Instance_; iq_Decision : DecisionContext; iq_SubjectID : string; iq_Correlator : string;
  iq_Reference : string; iq_Nonce : string; iq_ACRValues : list string; iq_RedirectURI : string; iq_Now : Time.t }.

Record InitiateResult := mkInitiated {
  io_Method : string; io_AuthorizationURL : string; io_AuthReqID : string; io_State : string; io_CodeVerifier : string }.

Record RedeemRequest_ := mkRedeem {
  rq_Instance : Instance_; rq_Params : gmap string string; rq_ExpectedState : string; rq_CodeVerifier : string;
  rq_RedirectURI : string }.

(** The [Initiator] interface, with the [Redeemer] a transport may implement too. *)
Record Initiator := mkInitiator {
  in_Initiate : InitiateRequest → result InitiateResult;
  in_Redeem : option (RedeemRequest_ → result string) }.

(** *** Step-up: a redirect *)

Record StepUpRequest := mkStepUp {
  sq_State : string; sq_Nonce : string; sq_ACRValues : list string; sq_LoginHint : string;
  sq_RedirectURI : string; sq_CodeChallenge : string }.

Record CodeExchange := mkExchange { ce_Code : string; ce_CodeVerifier : string; ce_RedirectURI : string }.

(** [identity.StepUp]: the builder of authorization requests and the token call. *)
Record StepUpRequests := mkStepUpRequests {
  sr_AuthorizationURL : StepUpRequest → result string; sr_Exchange : CodeExchange → result string }.

(** [newState] and [pkce] are the fresh state and the PKCE verifier with its
    challenge. *)
Definition StepUp_Initiate (requests : StepUpRequests) (newState : result string) (pkce : result (string * string))
    (req : InitiateRequest) : result InitiateResult :=
  let? state := newState in
  let? p := pkce in
  let? url := sr_AuthorizationURL requests
    (mkStepUp state (iq_Nonce req) (iq_ACRValues req) (iq_SubjectID req) (iq_RedirectURI req) p.2) in
  Ok (mkInitiated MethodStepUp url "" state p.1).

Definition param (k : string) (m : gmap string string) : string := default "" (m !! k).

Definition StepUp_Redeem (requests : StepUpRequests) (req : RedeemRequest_) : result string :=
  if bool_decide (rq_ExpectedState req = "") then Err [ErrRedemptionRefused]
  else if negb (bool_decide (param "state" (rq_Params req) = rq_ExpectedState req)) then Err [ErrRedemptionRefused]
  else if bool_decide (param "error" (rq_Params req) ≠ "") then Err [ErrRedemptionRefused]
  else if bool_decide (param "code" (rq_Params req) = "") then Err [ErrRedemptionRefused]
  else match sr_Exchange requests (mkExchange (param "code" (rq_Params req)) (rq_CodeVerifier req) (rq_RedirectURI req)) with
  | Ok token => Ok token
  | Err e => Err (if errors_Is e ErrAuthorizationCodeRejected then ErrRedemptionRefused :: e else e)
  end.

Definition StepUp (requests : StepUpRequests) (newState : result string) (pkce : result (string * string)) : Initiator :=
  mkInitiator (StepUp_Initiate requests newState pkce) (Some (StepUp_Redeem requests)).

(** *** CIBA: a backchannel request *)

Record CIBA := mkCIBA { cc_scope : string; cc_expiry : Time.duration }.

(** The form of a backchannel request. *)
Definition ciba_form (c : CIBA) (req : InitiateRequest) : list (string * string) :=
  [("scope", cc_scope c); ("binding_message", iq_Reference req)] ++
  (if bool_decide (iq_SubjectID req ≠ "") then [("login_hint", iq_SubjectID req)] else []) ++
  (match NormalizeACRValues (iq_ACRValues req) with [] => [] | l => [("acr_values", String.concat " " l)] end) ++
  (if (0 <? cc_expiry c)%Z then [("requested_expiry", pretty (Z.quot (cc_expiry c) Time.Second))] else []).

(** What the provider answers to a form: nothing, a body with a success status, or an
    error document. *)
Inductive OPAnswer := OPFailed (e : error) | OPBody (body : option json) | OPRefused (status : Z) (body : option json).

Definition cibaError (status : Z) (body : option json) : error :=
  let code := match body with
              | Some (JObj fs) => match dec_string (field "error" fs) with Ok s => s | Err _ => "" end
              | _ => ""
              end in
  if contains ["access_denied"; "expired_token"] code then [ErrAuthorizationDeclined]
  else if bool_decide (code = "invalid_binding_message") then [ErrBindingMessage]
  else if contains ["server_error"; "unsupported_grant_type"; "invalid_grant_type"] code then [ErrInitiationUnsupported]
  else if contains [404; 501]%Z status then [ErrInitiationUnsupported] else [].

Record CIBAAuthentication := mkCIBAAuth { ca_AuthReqID : string; ca_ExpiresIn : Z; ca_Interval : Z }.

(** [time.Duration(n) * time.Second], on 64 bits. *)
Definition seconds_of (n : Z) : Time.duration := ((n * Time.Second + 2 ^ 63) mod 2 ^ 64 - 2 ^ 63)%Z.

Definition DefaultCIBAPollInterval : Time.duration := (5 * Time.Second)%Z.

Definition Authenticate (c : CIBA) (op : list (string * string) → OPAnswer) (req : InitiateRequest) : result CIBAAuthentication :=
  let? _ := ValidateBindingMessage (iq_Reference req) in
  match op (ciba_form c req) with
  | OPFailed e => Err e
  | OPRefused status body => Err (cibaError status body)
  | OPBody None => Err []
  | OPBody (Some body) =>
      let? fs := fields_of body in
      let? id := dec_string (field "auth_req_id" fs) in
      let? expires := dec_int (field "expires_in" fs) in
      let? interval := dec_int (field "interval" fs) in
      if bool_decide (id = "") then Err []
      else
        let interval := seconds_of interval in
        Ok (mkCIBAAuth id (seconds_of expires) (if (interval <=? 0)%Z then DefaultCIBAPollInterval else interval))
  end.

Definition CIBA_Initiate (c : CIBA) (op : list (string * string) → OPAnswer) (req : InitiateRequest) : result InitiateResult :=
  let? auth := Authenticate c op req in
  Ok (mkInitiated MethodCIBA "" (ca_AuthReqID auth) "" "").

Definition CIBA_ (c : CIBA) (op : list (string * string) → OPAnswer) : Initiator := mkInitiator (CIBA_Initiate c op) None.

(** *** Fallback: a second transport where the first cannot serve *)

Definition Fallback_Initiate (primary secondary : Initiator) (req : InitiateRequest) : result InitiateResult :=
  match in_Initiate primary req with
  | Ok out => Ok out
  | Err e => if errors_Is e ErrInitiationUnsupported then in_Initiate secondary req else Err e
  end.

Definition Fallback_Redeem (primary secondary : Initiator) (req : RedeemRequest_) : result string :=
  match in_Redeem primary, in_Redeem secondary with
  | Some r, _ | None, Some r => r req
  | None, None => Err [ErrNotRedeemable]
  end.

Definition Fallback (primary secondary : Initiator) : Initiator :=
  mkInitiator (Fallback_Initiate primary secondary) (Some (Fallback_Redeem primary secondary)).

(** ** The delegated handler *)

Definition DefaultMinReissueInterval : Time.duration := (2 * Time.Minute)%Z.
Definition DefaultMaxTrackedIssues : Z := 4096%Z.
Definition DefaultMaxTrackedSubjects : Z := 4096%Z.
Definition DefaultCallerSubjectIssueRate : RateLimit := mkRate (Float64.div (Float64.of_Z 5) (Float64.of_Z 100)) (Float64.of_Z 5).
Definition DefaultSubjectIssueCeiling : RateLimit := mkRate (Float64.div (Float64.of_Z 20) (Float64.of_Z 3600)) (Float64.of_Z 10).

Record recentIssue := mkRecent { ri_at : Time.t; ri_detail : Detail }.

Record Config := mkConfig {
  mc_Initiator : option Initiator; mc_AllowedACRValues : list string; mc_RequiredAMR : list string;
  mc_Issuer : string; mc_ClientID : string; mc_Audience : string; mc_MinReissueInterval : Time.duration;
  mc_MaxTrackedIssues : Z; mc_CallerSubjectIssueRate : RateLimit; mc_SubjectIssueCeiling : RateLimit;
  mc_MaxTrackedSubjects : Z; mc_CallbackURL : option (Instance_ → string) }.

Record Delegated := mkDelegated {
  dg_initiator : Initiator; dg_allowedACR : list string; dg_requireAMR : list string;
  dg_issuer : string; dg_clientID : string; dg_audience : string; dg_minReissue : Time.duration;
  dg_maxTracked : Z; dg_callbackURL : option (Instance_ → string); dg_callerRate : RateLimit; dg_subjectCeiling : RateLimit;
  dg_recent : gmap string recentIssue; dg_initiations : Z; dg_callerSubjects : Limiter; dg_subjects : Limiter }.

Definition with_budgets (c s : Limiter) (d : Delegated) : Delegated :=
  mkDelegated (dg_initiator d) (dg_allowedACR d) (dg_requireAMR d) (dg_issuer d) (dg_clientID d) (dg_audience d)
    (dg_minReissue d) (dg_maxTracked d) (dg_callbackURL d) (dg_callerRate d) (dg_subjectCeiling d)
    (dg_recent d) (dg_initiations d) c s.
Definition with_recent (m : gmap string recentIssue) (n : Z) (d : Delegated) : Delegated :=
  mkDelegated (dg_initiator d) (dg_allowedACR d) (dg_requireAMR d) (dg_issuer d) (dg_clientID d) (dg_audience d)
    (dg_minReissue d) (dg_maxTracked d) (dg_callbackURL d) (dg_callerRate d) (dg_subjectCeiling d)
    m n (dg_callerSubjects d) (dg_subjects d).

Definition NewDelegated (cfg : Config) : result Delegated :=
  match mc_Initiator cfg with
  | None => Err []
  | Some initiator =>
      match NormalizeACRValues (mc_AllowedACRValues cfg) with
      | [] => Err []
      | allowed =>
          if existsb (λ v, bool_decide (TrimSpace v = "")) [mc_Issuer cfg; mc_ClientID cfg; mc_Audience cfg] then Err []
          else
            let minReissue := if (mc_MinReissueInterval cfg =? 0)%Z then DefaultMinReissueInterval else mc_MinReissueInterval cfg in
            let maxTracked := if (mc_MaxTrackedIssues cfg <=? 0)%Z then DefaultMaxTrackedIssues else mc_MaxTrackedIssues cfg in
            let callerRate := WithZeroDefault (mc_CallerSubjectIssueRate cfg) DefaultCallerSubjectIssueRate in
            let ceiling := WithZeroDefault (mc_SubjectIssueCeiling cfg) DefaultSubjectIssueCeiling in
            if negb (Unlimited callerRate) && negb (Unlimited ceiling) && Float64.leb (rl_Burst ceiling) (rl_Burst callerRate)
            then Err []
            else
              let tracked := if (mc_MaxTrackedSubjects cfg <=? 0)%Z then DefaultMaxTrackedSubjects else mc_MaxTrackedSubjects cfg in
              Ok (mkDelegated initiator allowed (NormalizeACRValues (mc_RequiredAMR cfg)) (mc_Issuer cfg) (mc_ClientID cfg)
                    (mc_Audience cfg) minReissue maxTracked (mc_CallbackURL cfg) callerRate ceiling ∅ 0
                    (NewLimiter tracked) (NewLimiter tracked))
      end
  end.

(** *** Re-issue suppression *)

Definition reuseKey (subjectID contextHash : string) : string := subjectID +:+ String (ascii_of_nat 0) contextHash.

Definition reuse (d : Delegated) (subjectID contextHash : string) (required : list string) (now : Time.t) : option Detail :=
  if (dg_minReissue d <? 0)%Z then None
  else match dg_recent d !! reuseKey subjectID contextHash with
  | None => None
  | Some entry =>
      if Time.Before now (ri_at entry) || (dg_minReissue d <=? Time.Sub now (ri_at entry))%Z then None
      else if bool_decide (md_RequiredACRValues (ri_detail entry) = required) &&
              bool_decide (md_AllowedACRValues (ri_detail entry) = dg_allowedACR d)
      then Some (ri_detail entry) else None
  end.

(** Entries that can no longer be reused go, then arbitrary ones until there is room;
    which ones is not specified. *)
Definition pruneLocked (d : Delegated) (now : Time.t) : gmap string recentIssue :=
  let kept := filter (λ kv : string * recentIssue, (Time.Sub now (ri_at kv.2) < dg_minReissue d)%Z) (dg_recent d) in
  let over := Z.to_nat (Z.of_nat (base.size kept) - dg_maxTracked d + 1) in
  foldr delete kept (take over (map fst (map_to_list kept))).

Definition remember (subjectID contextHash : string) (detail : Detail) (now : Time.t) (d : Delegated) : Delegated :=
  if (dg_minReissue d <? 0)%Z then d
  else
    let m := if (dg_maxTracked d <=? Z.of_nat (base.size (dg_recent d)))%Z then pruneLocked d now else dg_recent d in
    with_recent (<[reuseKey subjectID contextHash := mkRecent now detail]> m) (dg_initiations d) d.

(** *** The two budgets *)

Definition sep : string := String (ascii_of_nat 31) "".
Definition caller_key (callerID subjectID : string) : string :=
  "caller" +:+ sep +:+ callerID +:+ sep +:+ "subject" +:+ sep +:+ subjectID.
Definition ceiling_key (subjectID : string) : string := "subject" +:+ sep +:+ subjectID.

(** The caller's share first; the ceiling is charged only when it admits.  [Some]
    names the budget that ran out. *)
Definition allowIssue (callerID subjectID : string) (now : Time.t) (d : Delegated) : option RateLimit * Delegated :=
  let callerID := TrimSpace callerID in
  let '(ok, c) := if bool_decide (callerID = "") then (true, dg_callerSubjects d)
                  else AllowAt (caller_key callerID subjectID) (dg_callerRate d) f1 now (dg_callerSubjects d) in
  if negb ok then (Some (dg_callerRate d), with_budgets c (dg_subjects d) d)
  else
    let '(ok, s) := AllowAt (ceiling_key subjectID) (dg_subjectCeiling d) f1 now (dg_subjects d) in
    (if ok then None else Some (dg_subjectCeiling d), with_budgets c s d).

Definition callbackFor (d : Delegated) (i : Instance_) : string :=
  match dg_callbackURL d with Some f => f i | None => "" end.

Definition initiate (d : Delegated) (req : InitiateRequest) : result InitiateResult * Delegated :=
  (in_Initiate (dg_initiator d) req, with_recent (dg_recent d) (dg_initiations d + 1) d).

Section delegated.
Context `{AuditEnv} `{Digest}.

Definition open_detail (d : Delegated) (subjectID : string) (required : list string) (now : Time.t) (contextHash : string)
    (correlator : string) (out : InitiateResult) : Detail :=
  mkDetail MFADelegated_string (io_Method out) correlator (ReferenceCode correlator) (NonceFor correlator) subjectID
    required (dg_allowedACR d) (dg_issuer d) (dg_clientID d) (dg_audience d) now contextHash
    (io_AuthorizationURL out) (io_AuthReqID out) (io_State out) (io_CodeVerifier out) None "" "".

Definition shed_detail (d : Delegated) (subjectID : string) (required : list string) (now : Time.t) (contextHash : string) : Detail :=
  mkDetail MFADelegated_string "" "" "" "" subjectID required (dg_allowedACR d) (dg_issuer d) (dg_clientID d)
    (dg_audience d) now contextHash "" "" "" "" None "" FailureIssueRateLimited.

Definition opened_result (detail : Detail) : IssueResult :=
  mkIssueResult StatePending (Some (encodeDetail detail)) None false 0%Z.

(** The part of [Issue] that reaches the identity provider. *)
Definition mfa_open (correlator : result string) (req : IssueRequest) (subjectID : string) (required : list string)
    (contextHash : string) (d : Delegated) : result IssueResult * Delegated :=
  match correlator with
  | Err e => (Err e, d)
  | Ok correlator =>
      match ValidateBindingMessage (ReferenceCode correlator) with
      | Err e => (Err e, d)
      | Ok _ =>
          match initiate d (mkInitiate (ir_Instance req) (ir_Decision req) subjectID correlator (ReferenceCode correlator)
                              (NonceFor correlator) required (callbackFor d (ir_Instance req)) (ir_Now req)) with
          | (Err e, d) => (Err e, d)
          | (Ok out, d) =>
              if negb (Method_Valid (io_Method out)) then (Err [], d)
              else
                let detail := open_detail d subjectID required (ir_Now req) contextHash correlator out in
                (Ok (opened_result detail), remember subjectID contextHash detail (ir_Now req) d)
          end
      end
  end.

Definition mfa_issue (overflow : Z) (correlator : result string) (req : IssueRequest) (d : Delegated)
    : result IssueResult * Delegated :=
  match ir_Spec req with
  | CMFA spec =>
      let mode := if bool_decide (mfa_Mode spec = MFAUnset) then DefaultMFAMode else mfa_Mode spec in
      if negb (bool_decide (mode = MFADelegated)) then (Err [ErrUnsupportedSpec; ErrDirectModeUnimplemented], d)
      else
        let required := NormalizeACRValues (mfa_ACRValues spec) in
        if existsb (λ want, negb (contains (dg_allowedACR d) want)) required then (Err [ErrUnsupportedSpec], d)
        else
          let contextHash := ContextHash (ir_Decision req) in
          let subjectID := TrimSpace (dc_SubjectID (ir_Decision req)) in
          if bool_decide (subjectID = "") then (Err [ErrUnsupportedSpec], d)
          else match reuse d subjectID contextHash required (ir_Now req) with
          | Some detail => (Ok (opened_result detail), d)
          | None =>
              match allowIssue (dc_CallerID (ir_Decision req)) subjectID (ir_Now req) d with
              | (Some refused, d) =>
                  (Ok (mkIssueResult StateFailed
                         (Some (encodeDetail (shed_detail d subjectID required (ir_Now req) contextHash)))
                         None true (RefillInterval overflow refused)), d)
              | (None, d) => mfa_open correlator req subjectID required contextHash d
              end
          end
  | _ => (Err [ErrUnsupportedSpec], d)
  end.

(** *** Submit: the checks, one after the other *)

Definition verifyIssuedBy (detail : Detail) (s : Subject) : result unit :=
  if negb (bool_decide (su_Issuer s = md_Issuer detail)) then Err [ErrCredentialMismatch]
  else if negb (bool_decide (su_ClientID s = md_ClientID detail)) then Err [ErrCredentialMismatch]
  else if negb (contains (su_Audience s) (md_Audience detail)) then Err [ErrCredentialMismatch]
  else Ok tt.

Definition verifyACR (d : Delegated) (detail : Detail) (s : Subject) : result unit :=
  if negb (contains (dg_allowedACR d) (su_ACR s)) then Err [ErrACRNotAllowed]
  else if bool_decide (md_RequiredACRValues detail ≠ []) && negb (contains (md_RequiredACRValues detail) (su_ACR s))
  then Err [ErrACRUnsatisfied] else Ok tt.

Definition verifyAMR (d : Delegated) (s : Subject) : result unit :=
  if bool_decide (dg_requireAMR d = []) || bool_decide (su_AMR s = []) then Ok tt
  else if existsb (contains (dg_requireAMR d)) (su_AMR s) then Ok tt else Err [ErrAMRMismatch].

Definition verifyAuthTime (detail : Detail) (s : Subject) : result unit :=
  if Time.IsZero (su_AuthTime s) then Err [ErrStaleAuthentication]
  else if negb (Time.After (su_AuthTime s) (md_IssuedAt detail)) then Err [ErrStaleAuthentication] else Ok tt.

(** The nonce of the token, empty where the claims have none or do not read. *)
Definition claimed_nonce (s : Subject) : string :=
  match su_claims s with
  | Some (JObj fs) => match dec_string (field "nonce" fs) with Ok n => n | Err _ => "" end
  | _ => ""
  end.

Definition verifyNonce (detail : Detail) (s : Subject) : result unit :=
  if bool_decide (md_Nonce detail = "") || bool_decide (claimed_nonce s = "") then Ok tt
  else if bool_decide (claimed_nonce s = md_Nonce detail) then Ok tt else Err [ErrNonceMismatch].

Definition verifyContext (detail : Detail) (dec : DecisionContext) : result unit :=
  if EqualFold (ContextHash dec) (md_ContextHash detail) then Ok tt else Err [ErrContextChanged].

Definition mfa_target (detail : Detail) (s : option Subject) : result Subject :=
  match s with
  | None => Err [ErrNotTarget]
  | Some s =>
      if negb (bool_decide (su_Kind s = SubjectUser)) then Err [ErrNotTarget]
      else if negb (bool_decide (su_ID s = md_SubjectID detail)) then Err [ErrNotTarget]
      else Ok s
  end.

Definition with_consumed (at_ : Time.t) (by_ : string) (d : Detail) : Detail :=
  mkDetail (md_Mode d) (md_Method d) (md_Correlator d) (md_Reference d) (md_Nonce d) (md_SubjectID d)
    (md_RequiredACRValues d) (md_AllowedACRValues d) (md_Issuer d) (md_ClientID d) (md_Audience d) (md_IssuedAt d)
    (md_ContextHash d) (md_AuthorizationURL d) (md_AuthReqID d) (md_State d) (md_CodeVerifier d) (Some at_) by_ (md_Failure d).

Definition mfa_submit (d : Delegated) (req : SubmitRequest) : result SubmitResult :=
  let? detail := DecodeDetail (sr_Detail req) in
  if bool_decide (md_Failure detail ≠ "") then Err [ErrNotSubmittable]
  else
    let? correlator := decodeSubmission (sr_Payload req) in
    if negb (bool_decide (correlator = md_Correlator detail)) then Err [ErrCorrelatorMismatch]
    else if Consumed detail then Err [ErrCorrelatorConsumed]
    else
      let? subject := mfa_target detail (sr_Submitter req) in
      let? _ := verifyIssuedBy detail subject in
      let? _ := verifyACR d detail subject in
      let? _ := verifyAMR d subject in
      let? _ := verifyAuthTime detail subject in
      let? _ := verifyNonce detail subject in
      let? _ := verifyContext detail (sr_Decision req) in
      Ok (mkSubmitResult StateSatisfied 1 1 (Some (encodeDetail (with_consumed (sr_Now req) (CallerID subject) detail)))).

(** *** Status, view, redemption and targets *)

Definition mfa_state (stored : CState) (detail : Detail) (deadline : option Time.t) (now : Time.t) : CState :=
  if CState_Terminal stored then stored
  else if bool_decide (md_Failure detail ≠ "") then StateFailed
  else if Consumed detail then StateSatisfied
  else match deadline with
       | Some t => if Time.Before now t then StatePending else StateFailed
       | None => StatePending
       end.

Definition mfa_status (req : StatusRequest) : result Status :=
  let? detail := DecodeDetail (st_Detail req) in
  Ok (mkStatus (mfa_state (st_Stored req) detail (st_Deadline req) (st_Now req)) (if Consumed detail then 1 else 0)%Z 1%Z
        (st_Deadline req) None (bool_decide (md_Failure detail = FailureIssueRateLimited))).

Definition mfa_view (req : ViewRequest) : result View :=
  let? detail := DecodeDetail (vr_Detail req) in Ok (mkView (md_AuthorizationURL detail)).

Definition mfa_redeem (d : Delegated) (req : RedeemRequest) : result Redemption :=
  let? detail := DecodeDetail (rr_Detail req) in
  if bool_decide (md_Failure detail ≠ "") then Err [ErrNotRedeemable]
  else if Consumed detail then Err [ErrCorrelatorConsumed]
  else match in_Redeem (dg_initiator d) with
  | None => Err [ErrNotRedeemable]
  | Some redeem =>
      let? token := redeem (mkRedeem (rr_Instance req) (rr_Params req) (md_State detail) (md_CodeVerifier detail)
                              (callbackFor d (rr_Instance req))) in
      Ok (mkRedemption token (encodeSubmission (md_Correlator detail)))
  end.

Definition mfa_IsTarget (req : TargetRequest) : result bool :=
  let? detail := DecodeDetail (tr_Detail req) in
  Ok (match tr_Subject req with
      | Some s => bool_decide (su_Kind s = SubjectUser) && negb (bool_decide (su_ID s = "")) &&
                  bool_decide (su_ID s = md_SubjectID detail)
      | None => false
      end).

(** The handler, in a state in which its issuances come out as [issue] says. *)
Definition MfaHandler (issue : IssueRequest → result IssueResult) (d : Delegated) : Handler :=
  mkHandler ChallengeMFA (λ r, lift (issue r)) (λ r, lift (mfa_submit d r)) (λ r, lift (mfa_status r))
    (Some (λ r, lift (mfa_IsTarget r))) (Some (λ r, lift (mfa_view r))) (Some (λ r, lift (mfa_redeem d r))).
End delegated.
