(* ===== verification/MfaSpec.v ===== *)
(** * What the mfa handler promises

    Reference codes are always messages an identity provider takes; stored details
    read back; a completion is accepted only from the person, the party, the class
    and the moment that were asked for, over the decision it was asked for, and once;
    and the two issue budgets keep callers apart. *)
From Stdlib Require Import Ascii.
From S2P Require Import Prelude GoLib Policy Weakening Json AuditChain CheckpointSpec Store World Limiter LimiterSpec Text.
From S2P Require Import Challenge Quorum HandlerSpec Mfa.
Import Strings.

(** The service's theorems apply: no call of the handler touches the store. *)
#[export] Instance MfaHandler_aloof `{Digest} issue d : Aloof (MfaHandler issue d).
Proof. split; simpl; intros; simplify_eq; apply aloof_lift. Qed.

(** An mfa challenge has no deadline of its own. *)
Lemma mfa_issue_timeless `{AuditEnv} `{Digest} overflow correlator req d r :
  (mfa_issue overflow correlator req d).1 = Ok r → is_Deadline r = None.
Proof.
  unfold mfa_issue, mfa_open, opened_result. intros E. repeat (case_match; simplify_eq/=; try done).
Qed.

(** ** Reference codes *)

Lemma base32_plain b : Forall (λ a, isPlainBindingRune a = true) (Policy.bytes (base32 b)).
Proof.
  unfold base32, encode_groups. rewrite bytes_unbytes. apply Forall_map, Forall_true. intros n.
  assert (∀ l : list ascii, Forall (λ a, isPlainBindingRune a = true) l → isPlainBindingRune (default "A"%char (l !! n)) = true) as Hd.
  { intros l Hl. destruct (l !! n) as [a|] eqn:E; [|done]. by apply (Forall_lookup_1 _ _ _ _ Hl E). }
  apply Hd, (bool_decide_unpack _). vm_compute. exact I.
Qed.

(** The code derived from any correlator is a message an identity provider takes. *)
Lemma reference_code_accepted `{AuditEnv} correlator : ValidateBindingMessage (ReferenceCode correlator) = Ok tt.
Proof.
  unfold ValidateBindingMessage, ReferenceCode. set (l := take 10 _).
  assert (Policy.bytes (ReferenceCodePrefix +:+ unbytes l) = Policy.bytes ReferenceCodePrefix ++ l) as Eb by (by rewrite bytes_app, bytes_unbytes).
  assert (length l <= 10) as Hl by (unfold l; rewrite length_take; lia).
  assert (String.length (ReferenceCodePrefix +:+ unbytes l) = 6 + length l) as El.
  { rewrite <-bytes_length, Eb, length_app. done. }
  rewrite bool_decide_eq_false_2 by done. rewrite bool_decide_eq_false_2; [|rewrite El; unfold MaxBindingMessageLength; lia].
  rewrite Eb, forallb_app. replace (forallb isPlainBindingRune l) with true; [done|]. symmetry.
  apply forallb_true. intros a Ha. pose proof (base32_plain (hashed_with ReferenceCodeContext correlator)) as Hp.
  rewrite Forall_forall in Hp. apply Hp. unfold l in Ha. apply elem_of_take in Ha as (i & Hi & _). by eapply list_elem_of_lookup_2.
Qed.

(** ** The stored detail *)

Definition readable (d : Detail) : Prop := md_Failure d ≠ "" ∨ (md_Correlator d ≠ "" ∧ Method_Valid (md_Method d) = true).

Lemma mfa_detail_decodes d : readable d → DecodeDetail (canonicalJSON (Some (encodeDetail d))) = Ok d.
Proof.
  unfold readable. intros Hr. unfold DecodeDetail, unmarshalDetail, encodeDetail, canonicalJSON.
  cbn [Json.canonical fields_of res_bind]. unfold detail_members. stored_struct.
  rewrite !dec_omit_string, !dec_omit_time, !dec_omit_strings. cbn.
  destruct d; simpl in *. case_bool_decide as Ef; [done|]. destruct Hr as [Hr|[Hc Hm]]; [done|].
  rewrite bool_decide_eq_false_2 by done. by rewrite Hm.
Qed.

(** ** What the handler remembers *)

Section delegated.
Context `{AuditEnv} `{Digest}.

Record remembered (d : Delegated) (k : string) (e : recentIssue) : Prop := {
  rm_key : k = reuseKey (md_SubjectID (ri_detail e)) (md_ContextHash (ri_detail e));
  rm_hash : ∃ dec, md_ContextHash (ri_detail e) = ContextHash dec;
  rm_at : md_IssuedAt (ri_detail e) = ri_at e;
  rm_open : readable (ri_detail e) ∧ md_Failure (ri_detail e) = "" ∧ md_ConsumedAt (ri_detail e) = None;
  rm_party : (md_Issuer (ri_detail e), md_ClientID (ri_detail e), md_Audience (ri_detail e)) =
             (dg_issuer d, dg_clientID d, dg_audience d) }.

Definition remembers (d : Delegated) : Prop := ∀ k e, dg_recent d !! k = Some e → remembered d k e.

(** The configuration of a handler does not change. *)
Definition same_config (d d' : Delegated) : Prop :=
  (dg_issuer d', dg_clientID d', dg_audience d', dg_allowedACR d', dg_requireAMR d', dg_minReissue d') =
  (dg_issuer d, dg_clientID d, dg_audience d, dg_allowedACR d, dg_requireAMR d, dg_minReissue d) ∧
  (dg_callerRate d', dg_subjectCeiling d') = (dg_callerRate d, dg_subjectCeiling d).

#[export] Instance same_config_preorder : PreOrder same_config.
Proof. split; [by intros d|]. intros a b c [E1 E2] [E3 E4]. split; by etrans. Qed.

Lemma remembered_config d d' k e : same_config d d' → remembered d k e → remembered d' k e.
Proof. intros [[=] _] []. split; try done. congruence. Qed.

Lemma reuseKey_inj s t dec dec' :
  reuseKey s (ContextHash dec) = reuseKey t (ContextHash dec') → s = t ∧ ContextHash dec = ContextHash dec'.
Proof.
  intros E. assert (∀ j, length (of_string (digest_json j)) = 64) as Hlen.
  { intros j. pose proof (digest_json_hex j) as Hh. unfold lower_hex in Hh. apply andb_true_iff in Hh as [Hh _].
    apply Nat.eqb_eq in Hh. unfold of_string. by rewrite <-bytes_length in Hh. }
  apply (f_equal Policy.bytes) in E. unfold reuseKey in E. rewrite !bytes_app in E. simpl in E.
  apply app_inj_2 in E as [E1 E2]; [|simpl; f_equal; rewrite !bytes_length; unfold ContextHash].
  - injection E2 as E2. split; by apply of_string_inj.
  - rewrite <-!bytes_length. by rewrite !Hlen.
Qed.

Lemma allowIssue_config callerID subjectID now d o d' :
  allowIssue callerID subjectID now d = (o, d') → same_config d d' ∧ dg_recent d' = dg_recent d.
Proof.
  unfold allowIssue. destruct (if bool_decide _ then _ else _) as [[] c]; simpl.
  - destruct (AllowAt _ _ _ _ _) as [ok s]. by intros [= <- <-].
  - by intros [= <- <-].
Qed.

Lemma remember_lookup s h det now d k e :
  dg_recent (remember s h det now d) !! k = Some e →
  dg_recent d !! k = Some e ∨ (k = reuseKey s h ∧ e = mkRecent now det).
Proof.
  unfold remember. destruct (dg_minReissue d <? 0)%Z; [auto|]. simpl. rewrite lookup_insert_Some.
  intros [[<- <-]|[_ Hl]]; [auto|]. left. destruct (_ <=? _)%Z; [|done]. unfold pruneLocked in Hl.
  assert (∀ l (m : gmap string recentIssue), foldr delete m l !! k = Some e → m !! k = Some e) as Hdel.
  { induction l as [|x l IH]; intros m; simpl; [done|]. rewrite lookup_delete_Some. intros [_ Hx]. by apply IH. }
  apply Hdel in Hl. by apply map_lookup_filter_Some in Hl as [Hl _].
Qed.

(** What [mfa_open] opens, and what it leaves in the handler. *)
Lemma mfa_open_spec corr req s required h d r d' :
  corr ≠ "" → mfa_open (Ok corr) req s required h d = (r, d') →
  same_config d d' ∧
  ((is_ok r = false ∧ dg_recent d' = dg_recent d) ∨
   ∃ out, r = Ok (opened_result (open_detail d s required (ir_Now req) h corr out)) ∧ Method_Valid (io_Method out) = true ∧
     ∀ k e, dg_recent d' !! k = Some e → dg_recent d !! k = Some e ∨
       (k = reuseKey s h ∧ e = mkRecent (ir_Now req) (open_detail d s required (ir_Now req) h corr out))).
Proof.
  intros Hc. unfold mfa_open. rewrite reference_code_accepted. unfold initiate.
  destruct (in_Initiate _ _) as [out|e]; [|intros [= <- <-]; split; [done|by left]].
  destruct (Method_Valid _) eqn:Em; simpl; [|intros [= <- <-]; split; [done|by left]].
  intros [= <- <-]. split.
  - unfold remember. by case_match.
  - right. exists out. split_and!; [done|done|]. intros k e Hk. by apply remember_lookup in Hk as [Hk|[-> ->]]; [left|right].
Qed.

(** What a challenge that [Issue] opened was opened for. *)
Record asked (d : Delegated) (req : IssueRequest) (spec : MFA) (det : Detail) : Prop := {
  ak_readable : readable det;
  ak_open : md_ConsumedAt det = None;
  ak_subject : md_SubjectID det = TrimSpace (dc_SubjectID (ir_Decision req));
  ak_hash : md_ContextHash det = ContextHash (ir_Decision req);
  ak_required : md_RequiredACRValues det = NormalizeACRValues (mfa_ACRValues spec);
  ak_party : (md_Issuer det, md_ClientID det, md_Audience det) = (dg_issuer d, dg_clientID d, dg_audience d);
  ak_at : md_IssuedAt det = ir_Now req ∨
          ((md_IssuedAt det <= ir_Now req)%Z ∧ (Time.Sub (ir_Now req) (md_IssuedAt det) < dg_minReissue d)%Z) }.

Lemma open_asked d d' s req spec corr out :
  corr ≠ "" → Method_Valid (io_Method out) = true → s = TrimSpace (dc_SubjectID (ir_Decision req)) → same_config d d' →
  asked d req spec (open_detail d' s (NormalizeACRValues (mfa_ACRValues spec)) (ir_Now req) (ContextHash (ir_Decision req)) corr out).
Proof. intros Hc Hm Hs [[=] _]. split; simpl; try done; [by right|congruence|by left]. Qed.

Lemma mfa_issue_spec overflow corr req d r d' :
  corr ≠ "" → remembers d → mfa_issue overflow (Ok corr) req d = (r, d') →
  same_config d d' ∧ remembers d' ∧
  ∀ res, r = Ok res → ∃ spec det, ir_Spec req = CMFA spec ∧ is_Detail res = Some (encodeDetail det) ∧ asked d req spec det ∧
    (md_Failure det = "" ↔ is_State res = StatePending).
Proof.
  intros Hc Hrem. unfold mfa_issue. assert (∀ e, (Err e : result IssueResult, d) = (r, d') → same_config d d' ∧ remembers d' ∧
    ∀ res, r = Ok res → ∃ spec det, ir_Spec req = CMFA spec ∧ is_Detail res = Some (encodeDetail det) ∧ asked d req spec det ∧
    (md_Failure det = "" ↔ is_State res = StatePending)) as Herr by (by intros e [= <- <-]).
  destruct (ir_Spec req) as [|spec| |]; try by apply Herr.
  destruct (bool_decide (_ = MFADelegated)); [|by apply Herr]. simpl. destruct (existsb _ _); [by apply Herr|].
  case_bool_decide as Es; [by apply Herr|].
  set (s := TrimSpace (dc_SubjectID (ir_Decision req))) in *. set (h := ContextHash (ir_Decision req)).
  destruct (reuse d s h _ (ir_Now req)) as [det|] eqn:Er.
  { intros [= <- <-]. split_and!; [done|done|]. intros res [= <-]. exists spec, det. unfold reuse in Er.
    destruct (dg_minReissue d <? 0)%Z; [done|]. destruct (dg_recent d !! _) as [e|] eqn:El; [|done].
    destruct (_ || _) eqn:Et; [done|]. destruct (_ && _) eqn:Ea; [|done]. injection Er as <-.
    apply andb_true_iff in Ea as [Ea%bool_decide_eq_true _]. apply orb_false_iff in Et as [Et1 Et2].
    destruct (Hrem _ _ El) as [Hk [dec Hd] Hat (Hro & Hf & Hco) Hp].
    rewrite Hd in Hk. unfold h in Hk. apply reuseKey_inj in Hk as [Hs Hh].
    split_and!; [done|done| |done]. split; try done; [congruence|].
    right. rewrite Hat. unfold Time.Before in Et1. lia. }
  destruct (allowIssue _ s _ d) as [[refused|] d1] eqn:Ea; apply allowIssue_config in Ea as [Hcfg Hrec].
  - intros [= <- <-]. split_and!; [done| |].
    + intros k e Hk. rewrite Hrec in Hk. by apply (remembered_config d), Hrem.
    + intros res [= <-]. exists spec, (shed_detail d1 s (NormalizeACRValues (mfa_ACRValues spec)) (ir_Now req) h).
      split_and!; [done|done| |done]. destruct Hcfg as [[=] _]. split; simpl; try done; [by left|congruence|by left].
  - intros Ho. destruct (mfa_open_spec _ _ _ _ _ _ _ _ Hc Ho) as [Hcfg' Hcase].
    assert (same_config d d') as Hdd by (by etrans). split_and!; [done|..].
    + intros k e Hk. destruct Hcase as [[_ E]|(out & _ & Hm & Hl)].
      * rewrite E, Hrec in Hk. by apply (remembered_config d), Hrem.
      * apply Hl in Hk as [Hk|[-> ->]]; [rewrite Hrec in Hk; by apply (remembered_config d), Hrem|].
        destruct Hcfg' as [[=] _]. split; simpl; try done; [by eexists|split_and!; try done; by right|congruence].
    + intros res ->. destruct Hcase as [[Hf _]|(out & [= ->] & Hm & _)]; [done|]. eexists spec, _. split_and!; [done|done| |done].
      by eapply open_asked.
Qed.

(** ** What an accepted completion answers *)

(** A handler a configuration built, after any issuances. *)
Inductive delegated_reach (cfg : Config) : Delegated → Prop :=
  | dr_new d : NewDelegated cfg = Ok d → delegated_reach cfg d
  | dr_issue d overflow corr req : delegated_reach cfg d → corr ≠ "" → delegated_reach cfg (mfa_issue overflow (Ok corr) req d).2.

Lemma reach_remembers cfg d : delegated_reach cfg d → remembers d.
Proof.
  induction 1 as [d Hn|d overflow corr req _ IH Hc].
  - unfold NewDelegated in Hn. destruct (mc_Initiator cfg); [|done]. destruct (NormalizeACRValues _); [done|].
    destruct (existsb _ _); [done|]. destruct (_ && _); [done|]. injection Hn as <-. intros k e Hk. simpl in Hk. by rewrite lookup_empty in Hk.
  - destruct (mfa_issue overflow (Ok corr) req d) as [r d'] eqn:E. by apply (mfa_issue_spec _ _ _ _ _ _ Hc IH) in E as (_ & ? & _).
Qed.

Lemma mfa_submit_inv d sub det out :
  mfa_submit d sub = Ok out → DecodeDetail (sr_Detail sub) = Ok det →
  md_Failure det = "" ∧ md_ConsumedAt det = None ∧
  ∃ who, sr_Submitter sub = Some who ∧ su_Kind who = SubjectUser ∧ su_ID who = md_SubjectID det ∧
    verifyIssuedBy det who = Ok tt ∧ verifyACR d det who = Ok tt ∧ verifyAuthTime det who = Ok tt ∧
    verifyContext det (sr_Decision sub) = Ok tt ∧
    so_Detail out = Some (encodeDetail (with_consumed (sr_Now sub) (CallerID who) det)).
Proof.
  unfold mfa_submit. intros Hs Hd. rewrite Hd in Hs. cbn [res_bind] in Hs. case_bool_decide as Hf; [done|].
  apply res_bind_Ok in Hs as (c & _ & Hs). destruct (bool_decide (c = _)); [|done]. simpl in Hs.
  unfold Consumed in Hs. case_bool_decide as Hc; [done|]. apply res_bind_Ok in Hs as (who & Hw & Hs).
  apply res_bind_Ok in Hs as ([] & H1 & ([] & H2 & ([] & _ & ([] & H4 & ([] & _ & ([] & H6 & [= <-])%res_bind_Ok)%res_bind_Ok)%res_bind_Ok)%res_bind_Ok)%res_bind_Ok).
  unfold mfa_target in Hw. destruct (sr_Submitter sub) as [s|]; [|done].
  do 2 (case_bool_decide; [simpl in Hw|done]). injection Hw as ->.
  split_and!; [by destruct (decide (md_Failure det = ""))|by apply eq_None_not_Some|]. by exists who.
Qed.

Lemma context_material_inj x y : context_material x = context_material y → same_decision x y.
Proof. unfold context_material. intros [=]. split; [congruence|done..]. Qed.

(** C26. A completion answers the step-up that was asked for.  Take a handler after any
    issuances, a challenge it issues for a decision, stored, and a later submission
    that is accepted against the stored row, by a handler that may be configured
    differently by then.  It comes from the person the decision is about, with a token
    of the issuer, client and audience the challenge was opened for, in a class the
    operator admits now and, if the policy names classes, one of those; the person
    authenticated after the challenge was opened, which is this issuance or one of the
    same content inside the re-issue interval before it; and the decision submitted to
    is the decision that was issued for, unless the two materials collide.  Afterwards
    the row takes no further completion. *)
Theorem step_up_answers_the_question cfg d overflow corr req r d' spec sub d2 out :
  delegated_reach cfg d → corr ≠ "" → mfa_issue overflow (Ok corr) req d = (Ok r, d') → ir_Spec req = CMFA spec →
  sr_Detail sub = canonicalJSON (is_Detail r) → mfa_submit d2 sub = Ok out →
  (∃ who opened, sr_Submitter sub = Some who ∧ su_Kind who = SubjectUser ∧
     su_ID who = TrimSpace (dc_SubjectID (ir_Decision req)) ∧
     (su_Issuer who, su_ClientID who) = (dg_issuer d, dg_clientID d) ∧ dg_audience d ∈ su_Audience who ∧
     su_ACR who ∈ dg_allowedACR d2 ∧
     (NormalizeACRValues (mfa_ACRValues spec) = [] ∨ su_ACR who ∈ NormalizeACRValues (mfa_ACRValues spec)) ∧
     (opened < su_AuthTime who)%Z ∧
     (opened = ir_Now req ∨ (opened <= ir_Now req ∧ Time.Sub (ir_Now req) opened < dg_minReissue d)%Z)) ∧
  (let m := context_material (ir_Decision req) in let m' := context_material (sr_Decision sub) in
   (ToLower (digest_json m) = ToLower (digest_json m') → m = m') → same_decision (ir_Decision req) (sr_Decision sub)) ∧
  (∀ d3 again, sr_Detail again = canonicalJSON (so_Detail out) → is_ok (mfa_submit d3 again) = false).
Proof.
  intros Hd%reach_remembers Hc Hi Hspec Hrow Hs.
  destruct (mfa_issue_spec _ _ _ _ _ _ Hc Hd Hi) as (_ & _ & Hres).
  destruct (Hres r eq_refl) as (spec' & det & Hspec' & Hdet & [Hro Hop Hsu Hh Hreq Hp Hat] & _). assert (spec' = spec) as -> by congruence.
  rewrite Hdet in Hrow. assert (DecodeDetail (sr_Detail sub) = Ok det) as Hdec by (by rewrite Hrow, mfa_detail_decodes).
  destruct (mfa_submit_inv _ _ _ _ Hs Hdec) as (Hf & _ & who & Hw & Hk & Hid & Hby & Hacr & Hauth & Hctx & Hout).
  split_and!.
  - exists who, (md_IssuedAt det). unfold verifyIssuedBy in Hby. do 2 (case_bool_decide; [simpl in Hby|done]).
    destruct (contains (su_Audience who) _) eqn:Ea; [|done]. apply contains_spec in Ea.
    unfold verifyACR in Hacr. destruct (contains (dg_allowedACR d2) _) eqn:Eal; [|done]. apply contains_spec in Eal. simpl in Hacr.
    unfold verifyAuthTime in Hauth. destruct (Time.IsZero _); [done|]. destruct (Time.After _ _) eqn:Et; [|done].
    unfold Time.After in Et. injection Hp as E1 E2 E3. rewrite E1, E2, E3 in *. rewrite <-Hreq.
    split_and!; try done; [congruence|congruence| |lia].
    case_bool_decide as En; [|left; by destruct (md_RequiredACRValues det)]. simpl in Hacr.
    destruct (contains (md_RequiredACRValues det) _) eqn:Er; [|done]. right. by apply contains_spec.
  - intros m m' Hcol. unfold verifyContext in Hctx. rewrite Hh in Hctx. unfold EqualFold, ContextHash in Hctx.
    case_bool_decide as E; [|done]. by apply context_material_inj, Hcol.
  - intros d3 again Ha. destruct (mfa_submit d3 again) as [o|] eqn:Eo; [|done]. rewrite Hout in Ha.
    destruct (mfa_submit_inv d3 again (with_consumed (sr_Now sub) (CallerID who) det) o Eo) as (_ & Hcon & _); [|done].
    by rewrite Ha, mfa_detail_decodes.
Qed.
End delegated.

(** ** The two budgets *)

Record mfa_issuance := mkMfaIssuance { mi_correlator : result string; mi_request : IssueRequest }.

Definition run_issuances `{AuditEnv} `{Digest} (overflow : Z) (d : Delegated) (us : list mfa_issuance) : Delegated :=
  foldl (λ d u, (mfa_issue overflow (mi_correlator u) (mi_request u) d).2) d us.

(** An issuance about [s] for caller [a] at [now]. *)
Definition concerns (now : Time.t) (a s : string) (req : IssueRequest) : Prop :=
  ir_Now req = now ∧ TrimSpace (dc_CallerID (ir_Decision req)) = a ∧ TrimSpace (dc_SubjectID (ir_Decision req)) = s.

Lemma size_at_most_one {A} (m : gmap string A) k : (∀ k', is_Some (m !! k') → k' = k) → base.size m <= 1.
Proof.
  intros Hk. rewrite <-size_dom. transitivity (base.size ({[k]} : gset string)); [|by rewrite size_singleton].
  apply subseteq_size. intros k' [x Hx]%elem_of_dom. apply elem_of_singleton, Hk. eauto.
Qed.

Section fairness.
Context `{AuditEnv} `{Digest}.

Lemma mfa_open_budgets corr req s required h d r d' :
  mfa_open corr req s required h d = (r, d') →
  dg_callerSubjects d' = dg_callerSubjects d ∧ dg_subjects d' = dg_subjects d ∧ same_config d d' ∧
  ∀ res, r = Ok res → is_Shed res = false.
Proof.
  unfold mfa_open. destruct corr as [corr|]; [|by intros [= <- <-]]. rewrite reference_code_accepted. unfold initiate.
  destruct (in_Initiate _ _); [|by intros [= <- <-]]. destruct (negb _); [by intros [= <- <-]|]. intros [= <- <-].
  unfold remember. case_match; (split_and!; [done..|]); by intros res [= <-].
Qed.

(** An issuance charges the budgets through [allowIssue] or not at all, and is shed
    only when a budget ran out. *)
Lemma mfa_issue_budgets overflow corr req d r d' :
  mfa_issue overflow corr req d = (r, d') →
  (dg_callerSubjects d' = dg_callerSubjects d ∧ dg_subjects d' = dg_subjects d ∧ same_config d d' ∧
   ∀ res, r = Ok res → is_Shed res = false) ∨
  ∃ o d1, allowIssue (dc_CallerID (ir_Decision req)) (TrimSpace (dc_SubjectID (ir_Decision req))) (ir_Now req) d = (o, d1) ∧
    dg_callerSubjects d' = dg_callerSubjects d1 ∧ dg_subjects d' = dg_subjects d1 ∧ same_config d d' ∧
    (o = None → ∀ res, r = Ok res → is_Shed res = false).
Proof.
  unfold mfa_issue. destruct (ir_Spec req) as [|spec| |]; try (intros [= <- <-]; by left).
  destruct (negb _); [intros [= <- <-]; by left|]. destruct (existsb _ _); [intros [= <- <-]; by left|].
  case_bool_decide; [intros [= <- <-]; by left|].
  destruct (reuse _ _ _ _ _); [intros [= <- <-]; left; split_and!; [done..|]; by intros res [= <-]|].
  destruct (allowIssue _ _ _ d) as [[refused|] d1] eqn:Ea.
  - intros [= <- <-]. right. exists (Some refused), d1. apply allowIssue_config in Ea as [Hc _]. by split_and!.
  - intros Ho. destruct (mfa_open_budgets _ _ _ _ _ _ _ _ Ho) as (E1 & E2 & Hc & Hs). right. exists None, d1.
    apply allowIssue_config in Ea as [Hc' _]. split_and!; try done. by etrans.
Qed.

Context (now : Time.t) (a s : string) (cr sr : RateLimit) (cb sb tracked : Z).
Context (Ha : a ≠ "") (Hcr : Unlimited cr = false) (Hsr : Unlimited sr = false).
Context (Hcb : is_int (rl_Burst (withDefaults cr)) cb) (Hsb : is_int (rl_Burst (withDefaults sr)) sb).
Context (Hbursts : (1 <= cb < sb)%Z) (Hsb53 : (sb < 2 ^ 53)%Z) (Htr : (2 <= tracked)%Z).

(** One caller has been issuing about [s]: its share covers what is missing from the
    ceiling. *)
Record one_caller (d : Delegated) : Prop := {
  oc_rates : dg_callerRate d = cr ∧ dg_subjectCeiling d = sr;
  oc_max : lm_max (dg_callerSubjects d) = tracked ∧ lm_max (dg_subjects d) = tracked;
  oc_callers : ∀ k, is_Some (lm_entries (dg_callerSubjects d) !! k) → k = caller_key a s;
  oc_subjects : ∀ k, is_Some (lm_entries (dg_subjects d) !! k) → k = ceiling_key s;
  oc_left : ∃ m n, left_over (caller_key a s) cr cb now (dg_callerSubjects d) m ∧
      left_over (ceiling_key s) sr sb now (dg_subjects d) n ∧ (0 <= m <= cb)%Z ∧ (sb - cb + m <= n <= sb)%Z }.

Lemma one_caller_step overflow u d :
  concerns now a s (mi_request u) → one_caller d → one_caller (mfa_issue overflow (mi_correlator u) (mi_request u) d).2.
Proof.
  intros (Hn & Hca & Hsu) [[Er1 Er2] [Em1 Em2] Hks Hss (m & n & Hm & Hl & Hr1 & Hr2)].
  destruct (mfa_issue _ _ _ d) as [r d'] eqn:E. simpl.
  destruct (mfa_issue_budgets _ _ _ _ _ _ E) as [(E1 & E2 & [_ [=]] & _)|(o & d1 & Hal & E1 & E2 & [_ [=]] & _)].
  { split; rewrite ?E1, ?E2; try done; [split; congruence|]. by exists m, n. }
  unfold allowIssue in Hal. rewrite Hca, Hsu, Hn, Er1, Er2, (bool_decide_eq_false_2 (a = "")) in Hal by done.
  pose proof (charge_left_over (caller_key a s) cr cb now Hcr Hcb ltac:(lia) (dg_callerSubjects d) m
    (mkCharge (caller_key a s) cr 1 now) Hm Hr1 eq_refl ltac:(simpl; lia) ltac:(done)) as Hch1.
  pose proof (charge_left_over (ceiling_key s) sr sb now Hsr Hsb ltac:(lia) (dg_subjects d) n
    (mkCharge (ceiling_key s) sr 1 now) Hl ltac:(lia) eq_refl ltac:(simpl; lia) ltac:(done)) as Hch2.
  change (charge_step (dg_callerSubjects d) (mkCharge (caller_key a s) cr 1 now)) with
    (AllowAt (caller_key a s) cr f1 now (dg_callerSubjects d)) in Hch1.
  change (charge_step (dg_subjects d) (mkCharge (ceiling_key s) sr 1 now)) with (AllowAt (ceiling_key s) sr f1 now (dg_subjects d)) in Hch2.
  pose proof (AllowAt_keys (caller_key a s) cr f1 now (dg_callerSubjects d)) as K1.
  pose proof (AllowAt_keys (ceiling_key s) sr f1 now (dg_subjects d)) as K2.
  pose proof (AllowAt_max (caller_key a s) cr f1 now (dg_callerSubjects d)) as M1.
  pose proof (AllowAt_max (ceiling_key s) sr f1 now (dg_subjects d)) as M2.
  cbn [c_key c_cost] in Hch1, Hch2. rewrite bool_decide_eq_true_2 in Hch1, Hch2 by done.
  destruct (AllowAt (caller_key a s) _ _ _ _) as [ok1 c]. destruct (AllowAt (ceiling_key s) _ _ _ _) as [ok2 t].
  simpl in K1, K2, M1, M2. rewrite andb_true_r in Hch1, Hch2. destruct Hch1 as [Hch1 R1], Hch2 as [Hch2 R2].
  destruct ok1; simpl in Hal; injection Hal as <- <-; simpl in E1, E2.
  - split; rewrite ?E1, ?E2; [split; congruence|split; congruence|..].
    + intros k [->|Hk]%K1; auto.
    + intros k [->|Hk]%K2; auto.
    + eexists _, _. split_and!; [exact Hch1|exact Hch2|..]; destruct ok2; lia.
  - split; rewrite ?E1, ?E2; [split; congruence|split; congruence|..|by intros; apply Hss|].
    + intros k [->|Hk]%K1; auto.
    + eexists _, _. split_and!; [exact Hch1|exact Hl|..]; lia.
Qed.

Lemma caller_key_inj b : caller_key b s = caller_key a s → b = a.
Proof.
  unfold caller_key. intros E%(f_equal Policy.bytes). rewrite !bytes_app in E. do 2 apply app_inv_head in E.
  apply app_inv_tail, (f_equal unbytes) in E. by rewrite !unbytes_bytes in E.
Qed.

Lemma other_caller_admitted overflow d b u r d' :
  one_caller d → b ≠ a → concerns now b s (mi_request u) →
  mfa_issue overflow (mi_correlator u) (mi_request u) d = (Ok r, d') → is_Shed r = false.
Proof.
  intros [[Er1 Er2] [Em1 Em2] Hks Hss (m & n & Hm & Hl & Hr1 & Hr2)] Hba (Hn & Hcb' & Hsu) E.
  destruct (mfa_issue_budgets _ _ _ _ _ _ E) as [(_ & _ & _ & Hs)|(o & d1 & Hal & _ & _ & _ & Hs)]; [by apply Hs|].
  apply Hs; [|done]. unfold allowIssue in Hal. rewrite Hcb', Hsu, Hn, Er1, Er2 in Hal.
  assert (∀ l x, lm_max l = tracked → (∀ k, is_Some (lm_entries l !! k) → k = x) → (Z.of_nat (base.size (lm_entries l)) < lm_max l)%Z) as Hroom.
  { intros l x Hmax Hk. pose proof (size_at_most_one _ _ Hk). lia. }
  assert ((AllowAt (ceiling_key s) sr f1 now (dg_subjects d)).1 = true) as Hch2.
  { apply (charge_admits (ceiling_key s) sr sb now Hsr Hsb ltac:(lia) (dg_subjects d) n (mkCharge (ceiling_key s) sr 1 now));
      simpl; try done; [lia|]. right. by eapply Hroom. }
  destruct (AllowAt (ceiling_key s) _ _ _ _) as [ok2 t]. simpl in Hch2. subst ok2.
  case_bool_decide as Eb; [simpl in Hal; congruence|].
  assert ((AllowAt (caller_key b s) cr f1 now (dg_callerSubjects d)).1 = true) as Hch1.
  { apply (charge_admits (caller_key b s) cr cb now Hcr Hcb ltac:(lia) (dg_callerSubjects d) cb (mkCharge (caller_key b s) cr 1 now));
      simpl; try done; [lia| |right; by eapply Hroom].
    unfold left_over. destruct (lm_entries (dg_callerSubjects d) !! caller_key b s) eqn:Ek; [|done].
    exfalso. apply Hba, caller_key_inj, Hks. eauto. }
  destruct (AllowAt (caller_key b s) _ _ _ _) as [ok1 c]. simpl in Hch1. subst ok1. simpl in Hal. congruence.
Qed.
End fairness.

Lemma positive_burst r n : is_int (rl_Burst r) n → (1 <= n)%Z → withDefaults r = r.
Proof. intros Hi Hn. unfold withDefaults. rewrite (leb_int _ f0 n 0 Hi) by done. destruct (n <=? 0)%Z eqn:E; [lia|done]. Qed.

(** One caller cannot shed another.  In a handler as configured, with both budgets
    limiting, however many issuances one named caller makes about a person at one
    instant, an issuance of any other caller about the same person at that instant is
    not shed: the first caller's share runs out before the person's ceiling does. *)
Theorem one_caller_cannot_shed_another `{AuditEnv} `{Digest} overflow cfg d0 us now a b s u r d' cb sb :
  NewDelegated cfg = Ok d0 → Unlimited (dg_callerRate d0) = false → Unlimited (dg_subjectCeiling d0) = false →
  is_int (rl_Burst (dg_callerRate d0)) cb → is_int (rl_Burst (dg_subjectCeiling d0)) sb → (1 <= cb)%Z → (sb < 2 ^ 53)%Z →
  mc_MaxTrackedSubjects cfg ≠ 1%Z →
  a ≠ "" → a ≠ b → Forall (λ v, concerns now a s (mi_request v)) us → concerns now b s (mi_request u) →
  mfa_issue overflow (mi_correlator u) (mi_request u) (run_issuances overflow d0 us) = (Ok r, d') →
  is_Shed r = false.
Proof.
  intros Hnew Hcr Hsr Hcb Hsb Hpos Hsb53 Htr Ha Hab Hus Hu Hi.
  assert (∃ tracked, (2 <= tracked)%Z ∧ dg_callerSubjects d0 = NewLimiter tracked ∧ dg_subjects d0 = NewLimiter tracked ∧
    Float64.leb (rl_Burst (dg_subjectCeiling d0)) (rl_Burst (dg_callerRate d0)) = false) as (tracked & Htr2 & E1 & E2 & Hle).
  { unfold NewDelegated in Hnew. destruct (mc_Initiator cfg); [|done]. destruct (NormalizeACRValues _); [done|].
    destruct (existsb _ _); [done|]. destruct (_ && _) eqn:Hle; [done|]. injection Hnew as <-. simpl in *.
    rewrite Hcr, Hsr in Hle. eexists. split; [|done]. clear -Htr. unfold DefaultMaxTrackedSubjects. destruct (Z.leb_spec (mc_MaxTrackedSubjects cfg) 0); lia. }
  rewrite (leb_int _ _ sb cb Hsb Hcb) in Hle. assert (1 <= cb < sb)%Z as Hbs by lia.
  rewrite <-(positive_burst _ _ Hcb) in Hcb by lia. rewrite <-(positive_burst _ _ Hsb) in Hsb by lia.
  assert (∀ d, one_caller now a s (dg_callerRate d0) (dg_subjectCeiling d0) cb sb tracked d →
    one_caller now a s (dg_callerRate d0) (dg_subjectCeiling d0) cb sb tracked (run_issuances overflow d us)) as Hrun.
  { clear Hi. induction Hus as [|v vs Hv _ IH]; intros d Hd; [done|]. apply IH. by apply one_caller_step. }
  assert (lm_max (NewLimiter tracked) = tracked) as Em by done.
  eapply (other_caller_admitted now a s (dg_callerRate d0) (dg_subjectCeiling d0) cb sb tracked); try done.
  apply Hrun. split; rewrite ?E1, ?E2; try done.
  - intros k [x Hx]. by simpl in Hx; rewrite lookup_empty in Hx.
  - intros k [x Hx]. by simpl in Hx; rewrite lookup_empty in Hx.
  - exists cb, sb. split_and!; try done; lia.
Qed.

(** ** A deployment *)

Module MfaDemo.
#[local] Existing Instance CheckpointSpec.toy_env.

(** A digest that tells decisions apart by the length of their id. *)
Definition padding : string := "000000000000000000000000000000000000000000000000000000000000000".
Definition toy_hash (n : nat) : string := padding +:+ match n with 2 => "2" | 3 => "3" | 4 => "4" | 5 => "5" | 6 => "6" | 7 => "7" | _ => "0" end.
Definition id_length (j : json) : nat :=
  match j with
  | JObj fs => match field "decision" fs with Some (JObj d) => match field "id" d with Some (JStr i) => String.length i | _ => 0 end | _ => 0 end
  | _ => 0
  end.
Lemma toy_hash_hex n : lower_hex (toy_hash n) = true.
Proof. do 8 (destruct n as [|n]; [vm_compute; reflexivity|]). vm_compute. reflexivity. Qed.
Lemma toy_hash_length n : String.length (toy_hash n) = 64.
Proof. do 8 (destruct n as [|n]; [vm_compute; reflexivity|]). vm_compute. reflexivity. Qed.
Definition demo_digest : Digest :=
  Build_Digest (λ j, toy_hash (id_length j)) (λ j, toy_hash_hex _) (λ _ j, toy_hash (id_length j)) (λ _ j, toy_hash_length _).
#[local] Existing Instance demo_digest.

(** A provider that answers with a redirect carrying the state it was given. *)
Definition provider : Initiator :=
  mkInitiator (λ q, Ok (mkInitiated "step_up" ("https://idp.example?state=" +:+ iq_Correlator q) "" (iq_Correlator q) "v")) None.
Definition config : Config :=
  mkConfig (Some provider) ["gold"] [] "https://idp.example" "stamp" "stamp-api" 0 0 (mkRate f0 f0) (mkRate f0 f0) 0 None.
Definition handler : Delegated :=
  match NewDelegated config with Ok d => d
  | Err _ => mkDelegated provider [] [] "" "" "" 0 0 None (mkRate f0 f0) (mkRate f0 f0) ∅ 0 (NewLimiter 0) (NewLimiter 0) end.
Lemma handler_new : NewDelegated config = Ok handler.
Proof. vm_compute. reflexivity. Qed.

Definition context (caller decision : string) : DecisionContext :=
  mkContext decision caller "dave" "r" "send" "p" (JObj []) (JObj []) (JArr []) 0 10%Z.
Definition spec : MFA := mkMFA MFAUnset ["gold"].
Definition request (ordinal : Z) (caller decision : string) : IssueRequest :=
  mkIssueRequest (mkInstance decision ordinal ChallengeMFA) (CMFA spec) (context caller decision) 1000%Z.

Definition issued : result IssueResult * Delegated := mfa_issue 0 (Ok "c0") (request 0 "app" "d1") handler.
Definition issued_result : IssueResult :=
  match issued.1 with Ok r => r | Err _ => mkIssueResult StateFailed None None false 0%Z end.
Definition dave : Subject :=
  mkSubject SubjectUser "https://idp.example" "dave" "stamp" ["stamp-api"] 1500%Z "gold" []
    (Some (JObj [("nonce", JStr (NonceFor "c0"))])).
Definition completion : SubmitRequest :=
  mkSubmitRequest (mkInstance "d1" 0 ChallengeMFA) (context "app" "d1") (canonicalJSON (is_Detail issued_result)) (Some dave)
    (Some (encodeSubmission "c0")) 2000%Z.
Definition completed : SubmitResult :=
  match mfa_submit handler completion with Ok o => o | Err _ => mkSubmitResult StatePending 0 0 None end.

Lemma step_up_answers_the_question_witness :
  so_State completed = StateSatisfied ∧
  (∃ who, sr_Submitter completion = Some who ∧ su_ID who = "dave" ∧ su_ACR who ∈ ["gold"]) ∧
  (∀ d3 again, sr_Detail again = canonicalJSON (so_Detail completed) → is_ok (mfa_submit d3 again) = false).
Proof.
  split; [vm_compute; reflexivity|].
  destruct (step_up_answers_the_question config handler 0 "c0" (request 0 "app" "d1") issued_result issued.2 spec completion handler
    completed) as ((who & opened & H1 & _ & H2 & _ & _ & H3 & _) & _ & H4).
  - apply dr_new, handler_new.
  - discriminate.
  - vm_compute. reflexivity.
  - reflexivity.
  - reflexivity.
  - vm_compute. reflexivity.
  - split; [|exact H4]. exists who. split; [exact H1|]. split; [exact H2|exact H3].
Defined.

(** One caller opens five challenges and is shed at the sixth; another is not. *)
Definition flood : list mfa_issuance :=
  map (λ i, mkMfaIssuance (Ok ("c" +:+ i)) (request 0 "greedy" i)) ["d1"; "d11"; "d111"; "d1111"; "d11111"].
Definition flooded : Delegated := run_issuances 0 handler flood.
Definition shed_of (r : result IssueResult) : option bool := match r with Ok r => Some (is_Shed r) | Err _ => None end.
Definition other : mfa_issuance := mkMfaIssuance (Ok "x") (request 0 "polite" "d111111").
Definition answer (d : Delegated) (u : mfa_issuance) : result IssueResult * Delegated := mfa_issue 0 (mi_correlator u) (mi_request u) d.
Definition answered : IssueResult :=
  match (answer flooded other).1 with Ok r => r | Err _ => mkIssueResult StateFailed None None false 0%Z end.

Lemma one_caller_cannot_shed_another_witness :
  shed_of (answer flooded (mkMfaIssuance (Ok "x") (request 0 "greedy" "d111111"))).1 = Some true ∧
  shed_of (answer flooded other).1 = Some false ∧ is_Shed answered = false.
Proof.
  split; [vm_compute; reflexivity|]. split; [vm_compute; reflexivity|].
  apply (one_caller_cannot_shed_another 0 config handler flood 1000%Z "greedy" "polite" "dave" other answered (answer flooded other).2 5 10).
  - apply handler_new.
  - vm_compute. reflexivity.
  - vm_compute. reflexivity.
  - vm_compute. reflexivity.
  - vm_compute. reflexivity.
  - lia.
  - lia.
  - vm_compute. discriminate.
  - discriminate.
  - discriminate.
  - repeat constructor.
  - repeat constructor.
  - vm_compute. reflexivity.
Defined.

(** Two challenges of one decision that ask for the same classes get one detail: what
    [reuse] looks up names the person and the decision, not the ordinal.  The second
    row publishes the first one's authorization URL, state and correlator. *)
Theorem second_challenge_shares_the_first_detail :
  let '(r1, d1) := mfa_issue 0 (Ok "c0") (request 0 "app" "d1") handler in
  let '(r2, _) := mfa_issue 0 (Ok "c1") (request 1 "app" "d1") d1 in
  r1 = r2 ∧ is_ok r1 = true.
Proof. vm_compute. auto. Qed.
End MfaDemo.
