(* ===== verification/GroupSource.v ===== *)
(** * Group sources

    Models internal/fact/idpgroup: source.go (the load gate, the lookup with its TTL
    cache, the batch resolver and the resolver of approver sets), cache.go,
    directory.go (reading a directory's answer) and approvers.go (the group argument
    of an approver set, read out of the frozen request).  The directory is a remote
    service: what it answers to a request is an argument, and so are the egress gate's
    answers. *)
From stdpp Require Import pretty.
From Stdlib Require Import Ascii.
From S2P Require Import Prelude GoLib Policy Json World Strconv Url Cel Engine Challenge Quorum Fact Velocity Limiter Ingest VelocitySource.
Import Strings.

(** ** Declarations *)

Definition DefaultMaxTTL : Time.duration := (5 * Time.Minute)%Z.
Definition DefaultMaxGroupEntries : Z := 1024%Z.
Definition DefaultMaxMembers : Z := 10000%Z.
Definition DefaultMembersField : string := "members".
Definition DefaultMemberIDField : string := "value".
Definition DefaultTotalField : string := "totalResults".

Record GroupDecl := mkGroupDecl {
  gd_Name : string; gd_Issuer : string; gd_URL : string; gd_Credential : string;
  gd_MembersField : string; gd_MemberIDField : string; gd_TotalField : string;
  gd_TTL : Time.duration; gd_Timeout : Time.duration; gd_Params : list Param; gd_Returns : Typ; gd_OnError : OnError }.

Definition GroupDecl_SourceDecl (d : GroupDecl) : SourceDecl :=
  mkSourceDecl (gd_Name d) SourceIdPGroup (gd_Params d) (gd_Returns d) (default_OnError (gd_OnError d)).

(** ** The load gate *)

Record limits := mkLimits { li_issuers : gset string; li_allowFailOpen : bool; li_maxTTL : Time.duration }.

Definition newLimits (issuers : list string) (allowFailOpen : bool) (maxTTL : Time.duration) : result limits :=
  if contains issuers "" then Err [ErrLoad]
  else Ok (mkLimits (list_to_set issuers) allowFailOpen (if (maxTTL <=? 0)%Z then DefaultMaxTTL else maxTTL)).

Definition or_default (s d : string) : string := if bool_decide (s = "") then d else s.

Definition limits_admit (l : limits) (d : GroupDecl) : result GroupDecl :=
  if negb (ValidIdent (gd_Name d)) then Err [ErrLoad]
  else if bool_decide (gd_Issuer d = "") then Err [ErrLoad]
  else if negb (bool_decide (gd_Issuer d ∈ li_issuers l)) then Err [ErrLoad]
  else match gd_Params d with
  | [p] =>
      if negb (bool_decide (par_Type p = TypeString)) then Err [ErrLoad]
      else if negb (ValidIdent (par_Name p)) then Err [ErrLoad]
      else if negb (bool_decide (gd_Returns d = ListOf TypeString)) then Err [ErrLoad]
      else
        let onErr := default_OnError (gd_OnError d) in
        if negb (OnError_Valid onErr) then Err [ErrLoad]
        else if bool_decide (onErr = OnErrorAllow) && negb (li_allowFailOpen l) then Err [ErrLoad]
        else if (gd_TTL d <=? 0)%Z then Err [ErrLoad]
        else if (li_maxTTL l <? gd_TTL d)%Z then Err [ErrLoad]
        else if (gd_Timeout d <=? 0)%Z then Err [ErrLoad]
        else if bool_decide (gd_URL d = "") then Err [ErrLoad]
        else Ok (mkGroupDecl (gd_Name d) (gd_Issuer d) (gd_URL d) (gd_Credential d)
                   (or_default (gd_MembersField d) DefaultMembersField) (or_default (gd_MemberIDField d) DefaultMemberIDField)
                   (or_default (gd_TotalField d) DefaultTotalField) (gd_TTL d) (gd_Timeout d) (gd_Params d) (gd_Returns d) onErr)
  | _ => Err [ErrLoad]
  end.

(** [Sources.resolve]: what [limits_admit] admits, with its target past the egress gate. *)
Definition group_resolve (l : limits) (g : Gate) (d : GroupDecl) : result GroupDecl :=
  let? d := limits_admit l d in
  load_error (let? _ := gt_CheckURL g (gd_URL d) in let? _ := gt_Preflight g (gd_URL d) in Ok d).

Notation declarations := (gmap string GroupDecl).

Fixpoint resolveAll (accept : GroupDecl → result GroupDecl) (ds : list GroupDecl) (errs : list error) (acc : declarations)
    : result declarations :=
  match ds with
  | [] => match errs with [] => Ok acc | _ => Err (concat errs) end
  | d :: ds =>
      match acc !! gd_Name d with
      | Some _ => resolveAll accept ds (errs ++ [[ErrLoad]]) acc
      | None =>
          match accept d with
          | Err e => resolveAll accept ds (errs ++ [e]) acc
          | Ok r => resolveAll accept ds errs (<[gd_Name d := r]> acc)
          end
      end
  end.

Record GroupSources := mkGroupSources {
  gs_gate : Gate; gs_limits : limits; gs_decls : declarations; gs_maxMembers : Z;
  gs_cache : cache (list string); gs_audit : option (list Failure) }.

Definition NewGroupSources (ds : list GroupDecl) (gate : option Gate) (issuers : list string) (failOpen : bool)
    (maxTTL : Time.duration) (maxEntries maxMembers : Z) (audit : bool) : result GroupSources :=
  match gate with
  | None => Err [ErrLoad]
  | Some g =>
      if bool_decide (issuers = []) then Err [ErrLoad]
      else
        let? l := newLimits issuers failOpen maxTTL in
        let? decls := resolveAll (group_resolve l g) ds [] ∅ in
        Ok (mkGroupSources g l decls (if (maxMembers <=? 0)%Z then DefaultMaxMembers else maxMembers)
              (newCache (if (maxEntries <=? 0)%Z then DefaultMaxGroupEntries else maxEntries)) (if audit then Some [] else None))
  end.

(** [NewGate]: the same admission for a process that never calls a directory. *)
Definition NewGroupGate (ds : list GroupDecl) (issuers : list string) (failOpen : bool) (maxTTL : Time.duration) : result declarations :=
  if bool_decide (issuers = []) then Err [ErrLoad]
  else let? l := newLimits issuers failOpen maxTTL in resolveAll (limits_admit l) ds [] ∅.

Definition sameGroupSignature (configured declared : SourceDecl) : bool :=
  bool_decide (src_Returns configured = src_Returns declared) && bool_decide (src_Params configured = src_Params declared) &&
  bool_decide (src_OnError configured = default_OnError (src_OnError declared)).

Definition Group_VerifySchema (decls : declarations) (schema : option Schema) : result unit :=
  match schema with
  | None => Ok tt
  | Some sch =>
      if forallb (λ sd, match src_Kind sd with
                        | SourceIdPGroup => match decls !! src_Name sd with
                                            | None => false
                                            | Some d => sameGroupSignature (GroupDecl_SourceDecl d) sd
                                            end
                        | _ => true
                        end) (sch_Sources sch)
      then Ok tt else Err [ErrLoad]
  end.

(** ** The directory's answer (directory.go) *)

Definition checkedID (id : string) : result string :=
  if bool_decide (TrimSpace id = "") then Err [] else Ok id.

(** A JSON string, in either of the two forms a document keeps it in. *)
Definition json_string (j : json) : option string :=
  match j with JStr s => Some s | JTime t => Some (Time.Format_RFC3339Nano t) | _ => None end.

Definition decodeMember (idField : string) (j : json) : result string :=
  match j with
  | JObj fs =>
      match field idField fs with
      | None => Err []
      | Some f => match json_string f with None => Err [] | Some id => checkedID id end
      end
  | _ => match json_string j with None => Err [] | Some id => checkedID id end
  end.

(** A null list decodes to none, as do the items of a null. *)
Definition json_items (j : json) : result (list json) :=
  match j with JArr l => Ok l | JNull => Ok [] | _ => Err [] end.

(** The text of a whole JSON number: a sign at most, no leading zero. *)
Definition whole_number (s : string) : bool :=
  match (split_sign (bytes s)).2 with
  | [] => false
  | [a] => is_digit a
  | a :: l => negb (bool_decide (a = "0"%char)) && forallb is_digit (a :: l)
  end && negb (HasPrefix s "+").

(** A [json.Number] and its [Int64]: a number, or a string that spells one, that an int64
    holds. *)
Definition json_int64 (j : json) : result Z :=
  match j with
  | JInt z => if ((- 2 ^ 63 <=? z) && (z <? 2 ^ 63))%Z then Ok z else Err []
  | JStr s => if whole_number s then ParseInt s else Err []
  | _ => Err []
  end.

Example numbers_ex : map json_int64 [JInt 7; JStr "7"; JStr "-7"; JStr "07"; JStr "+7"; JStr "7.0"; JStr ""; JStr "9223372036854775808"; JNull] =
  [Ok 7%Z; Ok 7%Z; Ok (-7)%Z; Err []; Err []; Err []; Err []; Err []; Err []].
Proof. vm_compute. reflexivity. Qed.

(** The members, and whether the directory holds more than it returned. *)
Definition decodeMembership (d : GroupDecl) (maxMembers : Z) (body : json) : result (list string * bool) :=
  let? fs := fields_of body in
  match field (gd_MembersField d) fs with
  | None => Err []
  | Some raw =>
      let? items := json_items raw in
      if (maxMembers <? Z.of_nat (length items))%Z then Err []
      else
        let? ids := res_map (decodeMember (gd_MemberIDField d)) items in
        let out := compact (sort_strings ids) in
        match field (gd_TotalField d) fs with
        | None => Ok (out, false)
        | Some rawTotal =>
            let? total := json_int64 rawTotal in
            Ok (out, (Z.of_nat (length ids) <? total)%Z)
        end
  end.

(** The request: the declared URL with the group as its declared parameter, and the
    operator's credential if there is one.  A loaded declaration has one parameter. *)
Record DirRequest := mkDirRequest { dq_Method : string; dq_URL : URL; dq_Header : list (string * string) }.

Definition group_request `{NetURL} (d : GroupDecl) (group : string) : result DirRequest :=
  match url_Parse (gd_URL d), gd_Params d with
  | Some u, p :: _ =>
      let q := Values_Add (Values_Del (URL_Query u) (par_Name p)) (par_Name p) group in
      match url_Parse (URL_String (with_RawQuery u (Values_Encode q))) with
      | None => Err []
      | Some u' =>
          Ok (mkDirRequest "GET" u'
                ([("Accept", "application/json"); ("User-Agent", "stamp-idpgroup/1")] ++
                 (if bool_decide (gd_Credential d = "") then [] else [("Authorization", "Bearer " +:+ gd_Credential d)])))
      end
  | _, _ => Err []
  end.

(** What the call comes back with. *)
Inductive DirAnswer :=
  | DirBlocked | DirTimeout | DirTransport
  | DirStatus (status : Z)
  | DirTooLarge
  | DirBody (body : option json).

Definition isRedirect (status : Z) : bool := contains [301; 302; 303; 307; 308; 300]%Z status.

Definition group_fetch `{NetURL} (s : GroupSources) (d : GroupDecl) (group : string) (directory : DirRequest → DirAnswer) : list string + FactReason :=
  match gt_CheckURL (gs_gate s) (gd_URL d), group_request d group with
  | Err _, _ => inr FactEgressBlocked
  | Ok _, Err _ => inr FactTransport
  | Ok _, Ok req =>
      match directory req with
      | DirBlocked => inr FactEgressBlocked
      | DirTimeout => inr FactTimeout
      | DirTransport => inr FactTransport
      | DirStatus st =>
          if isRedirect st then inr FactRedirect
          else if (st =? 404)%Z then inr FactUnknownGroup
          else if ((st =? 401) || (st =? 403))%Z then inr FactDirectoryDenied
          else inr FactStatus
      | DirTooLarge => inr FactTooLarge
      | DirBody None => inr FactDecode
      | DirBody (Some body) =>
          match decodeMembership d (gs_maxMembers s) body with
          | Err _ => inr FactDecode
          | Ok (_, true) => inr FactDirectoryPaged
          | Ok (members, false) => inl members
          end
      end
  end.

(** ** Lookup *)

Definition groupCacheKey (name group : string) : string :=
  pretty (String.length name) +:+ ":" +:+ name +:+ chr 31 +:+ group.

Definition groupArgument (args : list Value) : result string :=
  match args with
  | [a] => if negb (bool_decide (fv_Type a = TypeString)) then Err []
           else match fv_Data a with
                | VString g => if bool_decide (TrimSpace g = "") then Err [] else Ok g
                | _ => Err []
                end
  | _ => Err []
  end.

Definition memberValue (members : list string) : Value := mkValue (ListOf TypeString) (VList (map VString members)).

(** What one lookup meets with: the clock as the cache reads it, evicts, stores and
    as a failure is recorded; the directory; whether the declared timeout ran out. *)
Record GroupEnv := mkGroupEnv {
  ge_get : Time.t; ge_evict : Time.t; ge_put : Time.t; ge_record : Time.t; ge_answer : DirRequest → DirAnswer; ge_timed_out : bool }.

Definition group_failed {A} (s : GroupSources) (name : string) (reason : FactReason) (onErr : OnError) (now : Time.t) : (A + Failure) * GroupSources :=
  let f := mkFailure name reason (default_OnError onErr) now in
  (inr f, mkGroupSources (gs_gate s) (gs_limits s) (gs_decls s) (gs_maxMembers s) (gs_cache s) ((λ l, l ++ [f]) <$> gs_audit s)).

Definition with_group_cache (s : GroupSources) (c : cache (list string)) : GroupSources :=
  mkGroupSources (gs_gate s) (gs_limits s) (gs_decls s) (gs_maxMembers s) c (gs_audit s).

Section lookup.
Context `{NetURL}.
Context (ranged : gmap string (cacheEntry (list string)) → list (string * cacheEntry (list string))).

Definition Group_Lookup (s : GroupSources) (name : string) (args : list Value) (env : GroupEnv) : (Value + Failure) * GroupSources :=
  match gs_decls s !! name with
  | None => group_failed s name FactUnknownSource OnErrorDeny (ge_record env)
  | Some d =>
      match groupArgument args with
      | Err _ => group_failed s name FactBadArgument (gd_OnError d) (ge_record env)
      | Ok group =>
          let key := groupCacheKey name group in
          match cache_get (ge_get env) key (gs_cache s) with
          | (Some members, c) => (inl (memberValue members), with_group_cache s c)
          | (None, c) =>
              let s := with_group_cache s c in
              match group_fetch s d group (ge_answer env) with
              | inr reason =>
                  group_failed s (gd_Name d) (if bool_decide (reason = FactTransport) && ge_timed_out env then FactTimeout else reason)
                    (gd_OnError d) (ge_record env)
              | inl members =>
                  (inl (memberValue members),
                   with_group_cache s (cache_put ranged (ge_evict env) (ge_put env) key members (gd_TTL d) (gs_cache s)))
              end
          end
      end
  end.

Fixpoint answer_groups (s : GroupSources) (env : SourceCall → GroupEnv) (calls : list SourceCall) (facts : Facts) : result Facts * GroupSources :=
  match calls with
  | [] => (Ok facts, s)
  | call :: calls =>
      match call_Args call with
      | [a] =>
          match Group_Lookup s (call_Name call) [mkValue TypeString a] (env call) with
          | (inr _, s') => (Err [], s')
          | (inl v, s') => answer_groups s' env calls (Facts_Set facts call (fv_Data v))
          end
      | _ => (Err [], s)
      end
  end.

Definition Group_ResolveSources (s : GroupSources) (fallback : option SourceResolver) (env : SourceCall → GroupEnv) (calls : list SourceCall)
    : result Facts * GroupSources :=
  let '(mine, theirs) := split_calls (λ c, bool_decide (is_Some (gs_decls s !! call_Name c))) calls in
  match delegate fallback theirs with
  | Err e => (Err e, s)
  | Ok facts => answer_groups s env mine facts
  end.

(** ** Approver sets (approvers.go) *)

Definition checkedGroup (s : string) : result string := if bool_decide (TrimSpace s = "") then Err [] else Ok s.

Definition attributes_of (entity : option json) : result (list (string * json)) :=
  match entity with
  | None => Ok []
  | Some e => let? fs := fields_of e in match field "attributes" fs with None => Ok [] | Some a => fields_of a end
  end.

Definition frozenAttribute (request : json) (role : Role) (attribute : string) : result string :=
  let? fs := fields_of request in
  let? subject := attributes_of (field "subject" fs) in
  let? resource := attributes_of (field "resource" fs) in
  let? context := attributes_of (field "context" fs) in
  let? attrs := match role with
                | RoleSubject => Ok subject | RoleResource => Ok resource | RoleContext => Ok context
                | RoleOther _ => Err []
                end in
  match field attribute attrs with
  | None => Err []
  | Some j => match json_string j with None => Err [] | Some s => Ok s end
  end.

Definition frozenOperand (o : Operand) (dec : DecisionContext) : result string :=
  match o with
  | Lit l => if negb (bool_decide (lit_Type l = TypeString)) then Err []
             else match lit_Data l with VString s => checkedGroup s | _ => Err [] end
  | FieldRef role attribute => let? s := frozenAttribute (dc_Request dec) role attribute in checkedGroup s
  | _ => Err []
  end.

Definition ResolveApprovers (s : GroupSources) (ref : string * list Operand) (dec : DecisionContext) (env : GroupEnv)
    : (ApproverGroup + Failure) * GroupSources :=
  match gs_decls s !! ref.1 with
  | None => group_failed s ref.1 FactUnknownSource OnErrorDeny (ge_record env)
  | Some d =>
      match ref.2 with
      | [o] =>
          match frozenOperand o dec with
          | Err _ => group_failed s ref.1 FactBadArgument OnErrorDeny (ge_record env)
          | Ok group =>
              match Group_Lookup s (gd_Name d) [mkValue TypeString (VString group)] env with
              | (inr f, s') => (inr f, s')
              | (inl v, s') =>
                  match fv_Data v with
                  | VList items =>
                      match res_map (λ i, match i with VString m => Ok m | _ => Err [] end) items with
                      | Ok members => (inl (mkGroup (gd_Issuer d) members), s')
                      | Err _ => group_failed s' ref.1 FactDecode OnErrorDeny (ge_record env)
                      end
                  | _ => group_failed s' ref.1 FactDecode OnErrorDeny (ge_record env)
                  end
              end
          end
      | _ => group_failed s ref.1 FactBadArgument OnErrorDeny (ge_record env)
      end
  end.

(** The resolver a quorum handler is given. *)
Definition group_resolver (s : GroupSources) (env : GroupEnv) : GroupResolver := λ ref dec,
  match (ResolveApprovers s ref dec env).1 with inl g => Ok g | inr _ => Err [] end.
End lookup.
