(* ===== verification/GroupSourceSpec.v ===== *)
(** * What a group source promises

    A membership answer is a directory's complete answer for that source and group,
    reused for no longer than the deployment's cap; a quorum resolved from a group
    freezes exactly such an answer, under an issuer the deployment trusts. *)
From stdpp Require Import pretty.
From S2P Require Import Prelude GoLib Policy Json World Cel Engine Challenge.
From S2P Require Import Quorum Text Netip Url Fact FactSpec Velocity Limiter Ingest VelocitySource GroupSource Egress EgressSpec.
Import Strings.

(** ** What a directory answer becomes *)

Lemma decodeMember_Ok f j id : decodeMember f j = Ok id → TrimSpace id ≠ "".
Proof.
  assert (∀ s, checkedID s = Ok id → TrimSpace id ≠ "") as Hc.
  { unfold checkedID. intros s. case_bool_decide; [done|]. by intros [= <-]. }
  unfold decodeMember. destruct j; simpl; try done; try apply Hc. case_match; [|done]. case_match; [|done]. apply Hc.
Qed.

(** The members are distinct, sorted and name somebody; nothing the directory
    returned is left out, and it holds no more than it returned. *)
Lemma decodeMembership_complete d max body members :
  decodeMembership d max body = Ok (members, false) →
  NoDup members ∧ StronglySorted String.le members ∧ Forall (λ m, TrimSpace m ≠ "") members ∧
  ∃ fs raw items ids, fields_of body = Ok fs ∧ field (gd_MembersField d) fs = Some raw ∧ json_items raw = Ok items ∧
    res_map (decodeMember (gd_MemberIDField d)) items = Ok ids ∧ (∀ m, m ∈ members ↔ m ∈ ids) ∧
    (∀ total, (field (gd_TotalField d) fs ≫= λ j, match json_int64 j with Ok n => Some n | Err _ => None end) = Some total →
      (total <= Z.of_nat (length items))%Z).
Proof.
  unfold decodeMembership. intros (fs & Hfs & H)%res_bind_Ok. destruct (field (gd_MembersField d) fs) as [raw|] eqn:Er; [|done].
  apply res_bind_Ok in H as (items & Hi & H). case_match; [done|]. apply res_bind_Ok in H as (ids & Hids & H).
  assert (members = compact (sort_strings ids) ∧
    (∀ total, (field (gd_TotalField d) fs ≫= λ j, match json_int64 j with Ok n => Some n | Err _ => None end) = Some total →
      (total <= Z.of_nat (length items))%Z)) as [-> Htot].
  { assert (length ids = length items) as Hlen by (apply res_map_Ok in Hids; symmetry; by eapply Forall2_length).
    destruct (field (gd_TotalField d) fs) as [j|]; simpl.
    - apply res_bind_Ok in H as (total & Ht & [= <- Hf]). split; [done|]. rewrite Ht. intros n [= <-]. rewrite <-Hlen. lia.
    - by injection H as <-. }
  assert (StronglySorted String.le (sort_strings ids)) as Hs by apply (StronglySorted_merge_sort _).
  destruct (compact_sorted String.le _ Hs) as [Hs' Hnd]. split; [done|]. split; [done|].
  assert (∀ m, m ∈ compact (sort_strings ids) ↔ m ∈ ids) as Hel.
  { intros m. rewrite elem_of_compact. unfold sort_strings. by rewrite merge_sort_Permutation. }
  split.
  - apply Forall_forall. intros m Hm%Hel. apply res_map_Ok in Hids.
    apply list_elem_of_lookup_1 in Hm as (i & Hi'). destruct (Forall2_lookup_r _ _ _ _ _ Hids Hi') as (j & _ & Hj).
    by apply decodeMember_Ok in Hj.
  - exists fs, raw, items, ids. by repeat (split; [done|]).
Qed.

(** ** Loading *)

Lemma resolveAll_spec adm ds errs acc out :
  resolveAll adm ds errs acc = Ok out →
  ∀ k d, out !! k = Some d → acc !! k = Some d ∨ ∃ d0, d0 ∈ ds ∧ gd_Name d0 = k ∧ adm d0 = Ok d.
Proof.
  revert errs acc. induction ds as [|x ds IH]; intros errs acc; simpl; [destruct errs; [intros [= <-]; auto|done]|].
  assert (∀ errs' acc', resolveAll adm ds errs' acc' = Ok out → ∀ k d, out !! k = Some d →
    acc' !! k = Some d ∨ ∃ d0, d0 ∈ x :: ds ∧ gd_Name d0 = k ∧ adm d0 = Ok d) as IH'.
  { intros errs' acc' Hr k d Hk. destruct (IH _ _ Hr k d Hk) as [?|(d0 & Hd0 & ?)]; [by left|]. right.
    exists d0. split; [by right|done]. }
  destruct (acc !! gd_Name x); [apply IH'|]. destruct (adm x) as [r|e] eqn:E; [|apply IH'].
  intros Hr k d Hk. destruct (IH' _ _ Hr k d Hk) as [[[<- <-]|[_ ?]]%lookup_insert_Some|?]; [|by left|by right].
  right. exists x. split; [by left|done].
Qed.

Lemma admit_Ok l d d' :
  limits_admit l d = Ok d' →
  gd_Name d' = gd_Name d ∧ gd_Issuer d' ∈ li_issuers l ∧ (0 < gd_TTL d' <= li_maxTTL l)%Z ∧ ∃ p, gd_Params d' = [p].
Proof.
  unfold limits_admit. destruct (gd_Params d) as [|p [|? ?]]; [by repeat case_match| |by repeat case_match].
  repeat (case_match; [done|]). intros [= <-]. simpl.
  repeat match goal with
  | H : negb _ = false |- _ => apply negb_false_iff in H
  | H : bool_decide _ = true |- _ => apply bool_decide_eq_true in H
  end. split; [done|]. split; [done|]. split; [lia|eauto].
Qed.

(** A deployment's cap: what was configured, or the default. *)
Definition ttl_cap (maxTTL : Time.duration) : Time.duration := if (maxTTL <=? 0)%Z then DefaultMaxTTL else maxTTL.

Lemma NewGroupSources_Ok ds gate issuers fo maxTTL me mm audit s :
  NewGroupSources ds gate issuers fo maxTTL me mm audit = Ok s →
  ch_entries (gs_cache s) = ∅ ∧
  ∀ k d, gs_decls s !! k = Some d → gd_Name d = k ∧ gd_Issuer d ∈ issuers ∧ (0 < gd_TTL d <= ttl_cap maxTTL)%Z ∧ ∃ p, gd_Params d = [p].
Proof.
  unfold NewGroupSources. destruct gate as [g|]; [|done]. case_bool_decide; [done|].
  intros (l & Hl & (decls & Hd & [= <-])%res_bind_Ok)%res_bind_Ok. split; [done|]. simpl. intros k d Hk.
  unfold newLimits in Hl. case_match; [done|]. injection Hl as <-.
  destruct (resolveAll_spec _ _ _ _ _ Hd k d Hk) as [H'|(d0 & _ & Hn & Ha)]; [by rewrite lookup_empty in H'|].
  unfold group_resolve in Ha. apply res_bind_Ok in Ha as (d1 & Ha & Hg).
  assert (d1 = d) as ->.
  { unfold load_error in Hg. destruct (res_bind _ _) as [x|] eqn:Er; [|done]. injection Hg as <-.
    by apply res_bind_Ok in Er as ([] & _ & ([] & _ & [= ->])%res_bind_Ok). }
  apply admit_Ok in Ha as (Hn' & Hi & Ht). simpl in *. split; [congruence|]. split; [by apply elem_of_list_to_set in Hi|done].
Qed.

(** ** The cache *)

Lemma groupCacheKey_inj n1 g1 n2 g2 : groupCacheKey n1 g1 = groupCacheKey n2 g2 → n1 = n2 ∧ g1 = g2.
Proof.
  unfold groupCacheKey. intros Heq%(f_equal bytes).
  assert (∀ n s, bytes (pretty (String.length n) +:+ ":" +:+ n +:+ s) = bytes (pretty (String.length n) +:+ ":" +:+ n) ++ bytes s) as Hb.
  { intros n s. rewrite !bytes_app. by rewrite <-!app_assoc. }
  rewrite !Hb in Heq. apply sized_eq in Heq as [-> Heq]. split; [done|]. rewrite !chr_bytes in Heq. injection Heq as Heq.
  by apply bytes_inj.
Qed.

Section groups.
Context `{NetURL}.
Context (ranged : gmap string (cacheEntry (list string)) → list (string * cacheEntry (list string))).

Record group_call := mkGroupCall { gc_name : string; gc_args : list Value; gc_env : GroupEnv }.

Definition run_groups (s : GroupSources) (calls : list group_call) : GroupSources :=
  foldl (λ s c, (Group_Lookup ranged s (gc_name c) (gc_args c) (gc_env c)).2) s calls.

(** A call for that source and group to which the directory answered [members]. *)
Definition asked_for (s0 : GroupSources) (d : GroupDecl) (group : string) (members : list string) (c : group_call) : Prop :=
  gs_decls s0 !! gc_name c = Some d ∧ groupArgument (gc_args c) = Ok group ∧ group_fetch s0 d group (ge_answer (gc_env c)) = inl members.

Definition same_plane (s0 s : GroupSources) : Prop :=
  gs_gate s = gs_gate s0 ∧ gs_decls s = gs_decls s0 ∧ gs_maxMembers s = gs_maxMembers s0.

Definition groups_explained (s0 : GroupSources) (calls : list group_call) (c : cache (list string)) : Prop :=
  ∀ key e, ch_entries c !! key = Some e →
    ∃ call d group, call ∈ calls ∧ asked_for s0 d group (ce_value e) call ∧ key = groupCacheKey (gc_name call) group ∧
      ce_expires e = Time.Add (ge_put (gc_env call)) (gd_TTL d).

Lemma group_fetch_plane s0 s d group a : same_plane s0 s → group_fetch s d group a = group_fetch s0 d group a.
Proof. intros (Hg & _ & Hm). unfold group_fetch. by rewrite Hg, Hm. Qed.

Lemma Group_Lookup_explained s0 s calls name args env :
  same_plane s0 s → groups_explained s0 calls (gs_cache s) →
  let s' := (Group_Lookup ranged s name args env).2 in
  same_plane s0 s' ∧ groups_explained s0 (calls ++ [mkGroupCall name args env]) (gs_cache s').
Proof.
  intros Hp Hc.
  assert (∀ c', (∀ k e, ch_entries c' !! k = Some e → ch_entries (gs_cache s) !! k = Some e) →
    groups_explained s0 (calls ++ [mkGroupCall name args env]) c') as Hsub.
  { intros c' Hsub key e He. apply Hsub, Hc in He as (call & d & g & Hin & Hrest). exists call, d, g. split; [set_solver|done]. }
  unfold Group_Lookup. destruct (gs_decls s !! name) as [d|] eqn:Ed; [|split; [done|by apply Hsub]].
  destruct (groupArgument args) as [group|] eqn:Eg; [|split; [done|by apply Hsub]].
  destruct (cache_get (ge_get env) (groupCacheKey name group) (gs_cache s)) as [hit c1] eqn:Eh.
  assert (∀ k e, ch_entries c1 !! k = Some e → ch_entries (gs_cache s) !! k = Some e) as H1.
  { intros k e. change c1 with (hit, c1).2. rewrite <-Eh. apply cache_get_sub. }
  destruct hit as [v|]; [split; [done|by apply Hsub]|].
  rewrite (group_fetch_plane s0) by done.
  destruct (group_fetch s0 d group (ge_answer env)) as [members|reason] eqn:Ef; [|split; [done|by apply Hsub]].
  split; [done|]. simpl. unfold cache_put. case_match; [by apply Hsub|]. intros k e. simpl. intros [[<- <-]|[_ He]]%lookup_insert_Some.
  - destruct Hp as (_ & Hd & _). rewrite Hd in Ed. exists (mkGroupCall name args env), d, group. split; [set_solver|]. done.
  - apply (Hsub c1 H1). case_match; [done|]. case_match; [by apply evict_sub in He|done].
Qed.

Lemma run_groups_explained s calls :
  ch_entries (gs_cache s) = ∅ → same_plane s (run_groups s calls) ∧ groups_explained s calls (gs_cache (run_groups s calls)).
Proof.
  intros Hempty. induction calls as [|c calls [IHs IHc]] using rev_ind.
  - split; [done|]. intros k e. simpl. by rewrite Hempty.
  - unfold run_groups. rewrite !foldl_app. simpl. fold (run_groups s calls). destruct c as [name args env].
    by apply Group_Lookup_explained.
Qed.

(** The answer of a lookup, with the call that asked the directory for it. *)
Lemma Group_Lookup_answer s0 calls name args env v s' :
  ch_entries (gs_cache s0) = ∅ → Group_Lookup ranged (run_groups s0 calls) name args env = (inl v, s') →
  ∃ d group members, gs_decls s0 !! name = Some d ∧ groupArgument args = Ok group ∧ v = memberValue members ∧
    (group_fetch s0 d group (ge_answer env) = inl members ∨
     ∃ c, c ∈ calls ∧ gc_name c = name ∧ asked_for s0 d group members c ∧ (ge_get env < ge_put (gc_env c) + gd_TTL d)%Z).
Proof.
  intros Hempty. destruct (run_groups_explained s0 calls Hempty) as [Hp Hc]. unfold Group_Lookup.
  pose proof Hp as (_ & -> & _). destruct (gs_decls s0 !! name) as [d|] eqn:Ed; [|done].
  destruct (groupArgument args) as [group|] eqn:Eg; [|done].
  destruct (cache_get _ _ _) as [[members|] c1] eqn:Eh.
  - intros [= <- <-]. exists d, group, members. do 3 (split; [done|]). right. unfold cache_get in Eh.
    destruct (ch_entries _ !! _) as [e|] eqn:Ee; [|done]. destruct (Time.Before _ _) eqn:Et; [|done]. injection Eh as <- _.
    apply Hc in Ee as (call & d' & g' & Hin & Hask & Hkey & Hexp). apply groupCacheKey_inj in Hkey as [Hn ->].
    pose proof Hask as (Hd' & _ & _). rewrite <-Hn, Ed in Hd'. injection Hd' as <-.
    exists call. split; [done|]. split; [done|]. split; [done|]. unfold Time.Before, Time.Add in *. rewrite Hexp in Et. lia.
  - rewrite (group_fetch_plane s0) by done. destruct (group_fetch s0 d group (ge_answer env)) as [members|reason] eqn:Ef; [|done].
    intros [= <- <-]. exists d, group, members. do 3 (split; [done|]). by left.
Qed.

(** The directory call a membership comes from: this one, or an earlier one for the
    same source and group that the cap still covers. *)
Definition reported_by (s0 : GroupSources) (calls : list group_call) (env : GroupEnv) (cap : Time.duration) (name group : string)
    (answering : GroupEnv) : Prop :=
  answering = env ∨
  (ge_get env < ge_put answering + cap)%Z ∧
  ∃ c, c ∈ calls ∧ gc_env c = answering ∧ gc_name c = name ∧ groupArgument (gc_args c) = Ok group.

(** A directory that was asked, and its answer. *)
Definition directory_said (d : GroupDecl) (group : string) (directory : DirRequest → DirAnswer) (body : json) : Prop :=
  ∃ req, group_request d group = Ok req ∧ directory req = DirBody (Some body).

Lemma group_fetch_body s d group a members :
  group_fetch s d group a = inl members → ∃ body, directory_said d group a body ∧ decodeMembership d (gs_maxMembers s) body = Ok (members, false).
Proof.
  unfold group_fetch, directory_said. destruct (gt_CheckURL _ _); [|done]. destruct (group_request d group) as [req|]; [|done].
  destruct (a req) as [| | |st| |[body|]] eqn:Ea; try done; [by repeat case_match|].
  destruct (decodeMembership d (gs_maxMembers s) body) as [[ms [|]]|] eqn:Em; [done| |done]. intros [= ->]. eauto 6.
Qed.

(** The request asks the declared host for that group and no other. *)
Lemma group_request_asks d group req p : group_request d group = Ok req → gd_Params d = [p] →
  URL_Query (dq_URL req) !! par_Name p = Some [group] ∧
  ∃ u, url_Parse (gd_URL d) = Some u ∧ u_Scheme (dq_URL req) = u_Scheme u ∧ u_Host (dq_URL req) = u_Host u ∧ ∀ k, k ≠ par_Name p → URL_Query (dq_URL req) !! k = URL_Query u !! k.
Proof.
  unfold group_request. intros Hr Hp. destruct (url_Parse (gd_URL d)) as [u|] eqn:Eu; [|done]. rewrite Hp in Hr.
  set (q := Values_Add (Values_Del (URL_Query u) (par_Name p)) (par_Name p) group) in *.
  destruct (url_reparse _ _ q Eu) as (u' & Hu' & Hs & Hh & _ & Hq). rewrite Hu' in Hr. injection Hr as <-. cbn [dq_URL].
  assert (URL_Query u' = q) as Hqu.
  { unfold URL_Query. rewrite Hq. apply ParseQuery_Encode. unfold q. apply values_wf_Add. intros k vs Hk. unfold Values_Del in Hk.
    destruct (decide (k = par_Name p)) as [->|]; [by rewrite lookup_delete_eq in Hk|]. rewrite lookup_delete_ne in Hk by done. by apply (ParseQuery_wf (u_RawQuery u) k). }
  rewrite Hqu. unfold q, Values_Add, Values_Del. rewrite lookup_insert_eq, lookup_delete_eq. split; [done|]. exists u. split_and!; try done.
  intros k Hk. by rewrite lookup_insert_ne, lookup_delete_ne.
Qed.

Lemma ResolveApprovers_answer ds gate issuers fo maxTTL me mm audit s0 calls env ref dec g :
  NewGroupSources ds gate issuers fo maxTTL me mm audit = Ok s0 →
  group_resolver ranged (run_groups s0 calls) env ref dec = Ok g →
  ∃ d o group body answering,
    gs_decls s0 !! ref.1 = Some d ∧ ref.2 = [o] ∧ frozenOperand o dec = Ok group ∧ ag_Issuer g ∈ issuers ∧
    directory_said d group (ge_answer answering) body ∧ decodeMembership d (gs_maxMembers s0) body = Ok (ag_Members g, false) ∧
    reported_by s0 calls env (ttl_cap maxTTL) ref.1 group answering.
Proof.
  intros Hnew Hg. destruct (NewGroupSources_Ok _ _ _ _ _ _ _ _ _ Hnew) as [Hempty Hdecls].
  unfold group_resolver, ResolveApprovers in Hg.
  destruct (run_groups_explained s0 calls Hempty) as [(_ & Hd & _) _]. rewrite Hd in Hg.
  destruct (gs_decls s0 !! ref.1) as [d|] eqn:Ed; [|done]. destruct (Hdecls _ _ Ed) as (Hname & Hiss & Httl & _).
  destruct ref.2 as [|o [|? ?]] eqn:Eo; [done| |done]. destruct (frozenOperand o dec) as [group|] eqn:Ef; [|done].
  destruct (Group_Lookup _ _ _ _ _) as [[v|f] s'] eqn:El; [|done]. rewrite Hname in El.
  apply Group_Lookup_answer in El as (d' & group' & members & Hd' & Hga & -> & Hans); [|done].
  rewrite Ed in Hd'. injection Hd' as <-.
  assert (group' = group) as ->. { simpl in Hga. case_bool_decide; [done|]. by injection Hga. }
  simpl in Hg. assert (res_map (λ i, match i with VString m => Ok m | _ => Err [] end) (map VString members) = Ok members) as Hm.
  { clear. induction members as [|m l IH]; [done|]. simpl. by rewrite IH. }
  rewrite Hm in Hg. injection Hg as <-. simpl.
  destruct Hans as [Hf|(c & Hin & Hn & (_ & Ha & Hf) & Ht)]; apply group_fetch_body in Hf as (body & Hb & Hdec).
  - exists d, o, group, body, env. repeat (split; [done|]). by left.
  - exists d, o, group, body, (gc_env c). repeat (split; [done|]). right. split; [lia|]. by exists c.
Qed.

(** C25. A quorum resolved from a group freezes a membership its directory reported.
    After any lookups, when a quorum over a group source resolves, the members frozen
    into it are those a directory call for that source and that group returned, made
    by this resolution or less than the deployment's cap before the clock it read;
    that call asked the declared host with that group, and no other, as the declared
    parameter; its answer was complete, and its members distinct and not blank; the issuer
    frozen with them is one the deployment trusts. *)
Theorem group_quorum_is_the_directorys ds gate issuers fo maxTTL me mm audit s0 calls env q spec dec ref detail :
  NewGroupSources ds gate issuers fo maxTTL me mm audit = Ok s0 →
  qc_Groups q = Some (group_resolver ranged (run_groups s0 calls) env) → as_Source (q_Approvers spec) = Some ref →
  quorum_resolve q spec dec = Ok detail →
  ∃ d o group members body answering p req u,
    gs_decls s0 !! ref.1 = Some d ∧ ref.2 = [o] ∧ frozenOperand o dec = Ok group ∧
    qd_Members detail = normalizeMembers members ∧ (∃ iss, iss ∈ issuers ∧ qd_Issuer detail = TrimSpace iss) ∧
    gd_Params d = [p] ∧ group_request d group = Ok req ∧ url_Parse (gd_URL d) = Some u ∧ u_Scheme (dq_URL req) = u_Scheme u ∧ u_Host (dq_URL req) = u_Host u ∧
    URL_Query (dq_URL req) !! par_Name p = Some [group] ∧
    ge_answer answering req = DirBody (Some body) ∧ decodeMembership d (gs_maxMembers s0) body = Ok (members, false) ∧
    NoDup members ∧ Forall (λ m, TrimSpace m ≠ "") members ∧
    reported_by s0 calls env (ttl_cap maxTTL) ref.1 group answering.
Proof.
  intros Hnew Hq Href Hres. unfold quorum_resolve in Hres. case_match; [done|]. apply res_bind_Ok in Hres as (det & Hset & Hres).
  assert (det = detail) as -> by (by repeat case_match; simplify_eq). clear Hres.
  unfold resolve_set in Hset. rewrite Href, Hq in Hset. apply res_bind_Ok in Hset as (g & Hg & [= <-]). simpl.
  destruct (ResolveApprovers_answer _ _ _ _ _ _ _ _ _ _ _ _ _ _ Hnew Hg) as (d & o & group & body & answering & Hd & Ho & Hf & Hi & (req & Hreq & Hb) & Hdec & Hr).
  destruct (proj2 (NewGroupSources_Ok _ _ _ _ _ _ _ _ _ Hnew) _ _ Hd) as (_ & _ & _ & p & Hp).
  destruct (group_request_asks _ _ _ _ Hreq Hp) as (Hq' & u & Hu & Hsc & Hho & _).
  destruct (decodeMembership_complete _ _ _ _ Hdec) as (Hnd & _ & Hnb & _).
  exists d, o, group, (ag_Members g), body, answering, p, req, u. repeat (split; [by eauto|]). done.
Qed.
End groups.

(** ** A deployment *)

Module GroupDemo.
Import RefUrl.

Definition leads : GroupDecl :=
  mkGroupDecl "leads" "https://idp" "https://dir/groups" "secret" "" "" "" Time.Minute Time.Second [mkParam "group" TypeString]
    (ListOf TypeString) OnErrorUnset.
Definition gate : Gate := mkGate (λ _, Ok tt) (λ _, Ok tt).
Definition sources : GroupSources :=
  match NewGroupSources [leads] (Some gate) ["https://idp"] false 0 0 0 true with
  | Ok s => s | Err _ => mkGroupSources gate (mkLimits ∅ false 0) ∅ 0 (newCache 0) None
  end.
Definition in_order : gmap string (cacheEntry (list string)) → list (string * cacheEntry (list string)) := map_to_list.

Definition answer : json :=
  JObj [("totalResults", JInt 2); ("members", JArr [JObj [("value", JStr "bob")]; JStr "alice"])].
Definition env (now : Time.t) (a : DirAnswer) : GroupEnv := mkGroupEnv now now now now (λ _, a) false.

(** The directory answers once; half a minute later, while it is down, a quorum over the
    group named by the request resolves to the members it reported. *)
Definition asked : group_call := mkGroupCall "leads" [mkValue TypeString (VString "payments")] (env 0 (DirBody (Some answer))).
Definition later : GroupEnv := env (30 * Time.Second) DirTimeout.
Definition handler : QuorumConfig := mkQuorumConfig true (Some (group_resolver in_order (run_groups in_order sources [asked]) later)) "".
Definition spec : Quorum := mkQuorum 2 (mkApproverSet [] "" (Some ("leads", [FieldRef RoleResource "team"]))).
Definition dec : DecisionContext :=
  mkContext "d" "c" "s" "r" "a" "p" (JObj [("resource", JObj [("attributes", JObj [("team", JStr "payments")])])]) JNull JNull 0 0.

Lemma group_quorum_is_the_directorys_witness :
  match quorum_resolve handler spec dec with
  | Ok detail => qd_Members detail = ["alice"; "bob"] ∧ qd_Issuer detail = "https://idp" ∧ ∃ d, gs_decls sources !! "leads" = Some d
  | Err _ => False
  end.
Proof.
  destruct (quorum_resolve handler spec dec) as [detail|e] eqn:E; [|vm_compute in E; discriminate E].
  destruct (group_quorum_is_the_directorys in_order [leads] (Some gate) ["https://idp"] false 0 0 0 true sources [asked] later handler spec dec
    ("leads", [FieldRef RoleResource "team"]) detail) as (d & _ & _ & _ & _ & _ & _ & _ & _ & Hd & _).
  - reflexivity.
  - reflexivity.
  - reflexivity.
  - exact E.
  - vm_compute in E. injection E as <-. split; [reflexivity|]. split; [reflexivity|]. exists d. exact Hd.
Defined.

(** A truncated answer is refused. *)
Example paged :
  (λ d, group_fetch sources d "payments" (λ _, DirBody (Some (JObj [("totalResults", JStr "9"); ("members", JArr [JStr "a"])])))) <$> gs_decls sources !! "leads"
  = Some (inr FactDirectoryPaged).
Proof. vm_compute. reflexivity. Qed.

End GroupDemo.
