(* ===== verification/Service.v ===== *)
(** * The decision lifecycle and the decision service

    Models internal/decision: lifecycle.go (the transition table and [Next]),
    service.go (deciding, reading, submitting, redeeming, and the advance of a decision
    they share) and sweeper.go (one sweep). *)
From S2P Require Import Prelude GoLib Policy Json Store.

Inductive Trigger :=
  | TriggerChallengesSatisfied | TriggerChallengeFailed | TriggerRevalidation | TriggerExpiry | TriggerCancellation
  | TriggerOther (s : string).

#[export] Instance Trigger_eq_dec : EqDecision Trigger.
Proof. solve_decision. Defined.

Definition Trigger_string (t : Trigger) : string :=
  match t with
  | TriggerChallengesSatisfied => "challenges_satisfied" | TriggerChallengeFailed => "challenge_failed"
  | TriggerRevalidation => "revalidation" | TriggerExpiry => "expiry" | TriggerCancellation => "cancellation"
  | TriggerOther s => s
  end.

Record Transition := mkTransition { tn_trigger : Trigger; tn_to : DecisionState }.

#[export] Instance Transition_eq_dec : EqDecision Transition.
Proof. solve_decision. Defined.

(** The zero value, the only one another package can make. *)
Definition zero_transition : Transition := mkTransition (TriggerOther "") (DecisionOther "").

Definition Satisfy : Transition := mkTransition TriggerChallengesSatisfied DecisionAllowed.
Definition Fail_ : Transition := mkTransition TriggerChallengeFailed DecisionDenied.
Definition Revalidate : Transition := mkTransition TriggerRevalidation DecisionDenied.
Definition Expire : Transition := mkTransition TriggerExpiry DecisionExpired.
Definition Cancel : Transition := mkTransition TriggerCancellation DecisionCancelled.

Definition Transitions : list Transition := [Satisfy; Fail_; Revalidate; Expire; Cancel].
Definition States : list DecisionState :=
  [DecisionPending; DecisionAllowed; DecisionDenied; DecisionExpired; DecisionCancelled].

Definition knownState (s : DecisionState) : bool := contains States s.
Definition knownTransition (t : Transition) : bool := contains Transitions t.

Definition Next (from : DecisionState) (t : Transition) : result DecisionState :=
  if negb (knownState from) then Err [ErrUnknownState]
  else if negb (knownTransition t) then Err [ErrUnknownTransition]
  else if negb (bool_decide (from = DecisionPending)) then Err [ErrIllegalTransition]
  else Ok (tn_to t).

(** A run of the state machine: each step asks [Next]. *)
Inductive moves : DecisionState → DecisionState → Prop :=
  | moves_next s t s' : Next s t = Ok s' → moves s s'.

Lemma Next_Ok s t s' :
  Next s t = Ok s' ↔ s = DecisionPending ∧ t ∈ Transitions ∧ s' = tn_to t.
Proof.
  unfold Next, knownTransition. destruct (knownState s) eqn:Es; simpl.
  - destruct (contains Transitions t) eqn:Et; simpl.
    + apply contains_spec in Et. case_bool_decide; simpl; naive_solver.
    + split; [done|]. intros (_ & Ht & _). apply contains_spec in Ht. congruence.
  - split; [done|]. intros (-> & _). done.
Qed.

Lemma Transitions_terminal t : t ∈ Transitions → DecisionState_Terminal (tn_to t) = true ∧ tn_to t ∈ States.
Proof.
  unfold Transitions. intros H. repeat (apply elem_of_cons in H as [->|H]; [split; [done|set_solver]|]). set_solver.
Qed.

(** The lifecycle has one step.  Every edge leaves pending, lands on a terminal
    state and is one of the five declared; the zero transition, an unknown state and
    every edge out of a terminal state are refused with their own error; so a
    decision moves at most once. *)
Theorem lifecycle_one_step :
  (∀ s t s', Next s t = Ok s' ↔ s = DecisionPending ∧ t ∈ Transitions ∧ s' = tn_to t) ∧
  (∀ s t, s ∉ States → Next s t = Err [ErrUnknownState]) ∧
  (∀ s, s ∈ States → Next s zero_transition = Err [ErrUnknownTransition]) ∧
  (∀ s t, s ∈ States → s ≠ DecisionPending → t ∈ Transitions → Next s t = Err [ErrIllegalTransition]) ∧
  (∀ s s' s'', moves s s' → ¬ moves s' s'').
Proof.
  split_and!.
  - apply Next_Ok.
  - intros s t Hs. unfold Next, knownState. destruct (contains States s) eqn:E; [|done]. by apply contains_spec in E.
  - intros s Hs. unfold Next, knownState. apply contains_spec in Hs. by rewrite Hs.
  - intros s t Hs Hne Ht. unfold Next, knownState, knownTransition. apply contains_spec in Hs, Ht.
    rewrite Hs, Ht. by rewrite bool_decide_eq_false_2.
  - intros s s' s'' [a t b (-> & Ht & ->)%Next_Ok]. intros Hm. inversion Hm as [? u ? (E & _)%Next_Ok]; subst.
    apply Transitions_terminal in Ht as [Ht _]. by rewrite E in Ht.
Qed.

(** ** The decision service and the sweeper

    Models internal/decision/service.go and sweeper.go.  Each entry point reads the
    service clock once; that reading is the argument [now].  The evaluator is what
    Engine.v's decision path answers; its compile cache is invisible (Engine.v), so
    it is a function of the request. *)
From S2P Require Import Cel Engine World Challenge Quorum.

(** ** Configuration *)

Record Obligation := mkObligation { ob_Type : string; ob_Attributes : list (string * json) }.

(** [sv_renderCall] is the readable rendering of a source call, the key of a
    frozen fact ([engine.SourceCall.String]). *)
Record Service := mkService {
  sv_eval : Input → result DecideResult;
  sv_challenges : Registry;
  sv_obligations : option (Input → string → list (option Policy) → result (list Obligation));
  sv_policyVersion : string → M Z;
  sv_renderCall : SourceCall → string;
  sv_ttl : Time.duration;
  sv_maxOutstanding : Z }.

Definition DefaultTTL : Time.duration := (15 * Time.Minute)%Z.
Definition DefaultMaxOutstanding : Z := 32.

(** [New]: unset limits get their defaults. *)
Definition New (cfg : Service) : Service :=
  mkService (sv_eval cfg) (sv_challenges cfg) (sv_obligations cfg) (sv_policyVersion cfg) (sv_renderCall cfg)
    (if (sv_ttl cfg <=? 0)%Z then DefaultTTL else sv_ttl cfg)
    (if (sv_maxOutstanding cfg =? 0)%Z then DefaultMaxOutstanding else sv_maxOutstanding cfg).

Record Request := mkRequest {
  rq_Caller : option Subject; rq_Input : Input; rq_TTL : Time.duration; rq_IdempotencyKey : string }.

Record ChallengeView := mkChallengeView {
  cv_Ordinal : Z; cv_Kind : ChallengeType; cv_State : CState; cv_Have : Z; cv_Need : Z;
  cv_Deadline : option Time.t; cv_AuthorizationURL : string }.

Record Result := mkResult {
  rs_ID : string; rs_State : DecisionState; rs_Outcome : EDecision; rs_Reason : Reason;
  rs_PolicyID : string; rs_PolicyVersion : Z; rs_Obligations : list Obligation;
  rs_Challenges : list ChallengeView; rs_CreatedAt : Time.t; rs_ExpiresAt : Time.t;
  rs_ResolvedAt : option Time.t; rs_RetryAfter : Time.duration }.

Definition Allowed (r : Result) : bool := bool_decide (rs_State r = DecisionAllowed).

Definition Reason_string (r : Reason) : string :=
  match r with
  | ReasonNone => "" | ReasonNoMatchingPolicy => "no_matching_policy"
  | ReasonRequiresDecision => "requires_decision" | ReasonConditionNotMet => "condition_not_met"
  | ReasonPolicyMatched => "policy_matched" | ReasonChallengeRequired => "challenge_required"
  | ReasonPolicySetStale => "policy_set_stale" | ReasonAuditUnavailable => "audit_unavailable"
  | ReasonEvaluationFailed => "evaluation_failed" | ReasonOutstandingCap => "outstanding_cap"
  | ReasonRateLimited => "rate_limited" | ReasonChallengeSatisfied => "challenge_satisfied"
  | ReasonChallengeFailed => "challenge_failed" | ReasonChallengeRateLimited => "challenge_rate_limited"
  | ReasonExpired => "expired" | ReasonRevisionUnmet => "revision_condition_not_met"
  end.

(** ** Documents *)

Definition entity_payload (e : Entity) : result json :=
  let? attrs := res_map (λ '(k, v), let? j := marshal_value v in Ok (k, j)) (map_to_list (en_Attributes e)) in
  Ok (JObj ([("type", JStr (en_Type e)); ("id", JStr (en_ID e))] ++
            match attrs with [] => [] | _ => [("attributes", JObj attrs)] end)).

Definition requestPayload (i : Input) : result json :=
  let? s := entity_payload (in_Subject i) in
  let? r := entity_payload (in_Resource i) in
  let? c := entity_payload (in_Context i) in
  Ok (JObj [("action", JStr (in_Action i)); ("subject", s); ("resource", r); ("context", c)]).

(** [mustJSON]: what does not encode becomes an empty object.  A map encodes with
    its keys sorted. *)
Definition mustJSON (r : result json) : json := match r with Ok j => j | Err _ => JObj [] end.

Fixpoint sort_keys (j : json) : json :=
  match j with
  | JArr l => JArr (map sort_keys l)
  | JObj fs => JObj (sort_fields (map (λ kv, (kv.1, sort_keys kv.2)) fs))
  | _ => j
  end.

Definition idempotencyFingerprintBinding : string := "stamp/idempotency-fingerprint/v1".

Definition requestFingerprint `{Digest} (i : Input) : string :=
  digest_labelled idempotencyFingerprintBinding (sort_keys (mustJSON (requestPayload i))).

Definition fingerprintFor (key fingerprint : string) : string := if bool_decide (key = "") then "" else fingerprint.

Definition sameRequest (stored : Decision) (fingerprint : string) : bool :=
  if bool_decide (d_IdempotencyFingerprint stored = "") then false
  else bool_decide (d_IdempotencyFingerprint stored = fingerprint).

Definition encodeObligation (o : Obligation) : json :=
  JObj ([("type", JStr (ob_Type o))] ++
        match ob_Attributes o with [] => [] | l => [("attributes", JObj l)] end).
Definition encodeObligations (l : list Obligation) : json := JArr (map encodeObligation l).

Definition decodeObligation (j : json) : result Obligation :=
  let? fs := fields_of j in
  let? t := dec_string (field "type" fs) in
  match field "attributes" fs with
  | None | Some JNull => Ok (mkObligation t [])
  | Some (JObj l) => Ok (mkObligation t l)
  | Some _ => Err []
  end.

Definition decodeObligations (raw : json) : result (list Obligation) :=
  match raw with
  | JNull => Ok []
  | JArr l => res_map decodeObligation l
  | _ => Err []
  end.

Definition factsJSON (s : Service) (f : FactSnapshot) : result json :=
  let? fs := res_map (λ '(c, v), let? j := marshal_value v in Ok (sv_renderCall s c, j)) f in Ok (JObj fs).

Definition contextOf (d : Decision) : DecisionContext :=
  mkContext (d_ID d) (d_CallerID d) (d_SubjectID d) (d_ResourceID d) (d_Action d) (d_PolicyID d)
    (d_Request d) (d_FactSnapshot d) (d_Obligations d) (d_CreatedAt d) (d_ExpiresAt d).

(** ** Refusals *)

Definition AuditKindDecisionRefused : string := "decision.refused".
Definition AuditKindAccessRefused : string := "decision.access.refused".

Definition caller_string (c : option Subject) : string :=
  match c with Some s => CallerID s | None => "anonymous" end.

Definition refuse (req : Request) (reason : Reason) (detail : list (string * json)) : M Result :=
  let i := rq_Input req in
  let! _ := Append (mkAudit AuditKindDecisionRefused (en_ID (in_Subject i)) (JObj
    ([("caller_id", JStr (caller_string (rq_Caller req))); ("subject_id", JStr (en_ID (in_Subject i)));
      ("resource_id", JStr (en_ID (in_Resource i))); ("action", JStr (in_Action i));
      ("reason", JStr (Reason_string reason))] ++ detail))) in
  ret (mkResult "" DecisionDenied Deny reason "" 0 [] [] Time.zero Time.zero None 0%Z).

(** The seconds are rounded up exactly; the code rounds them up through float64. *)
Definition refuseShed (req : Request) (retryAfter : Time.duration) (detail : list (string * json)) : M Result :=
  let seconds := ((retryAfter + Time.Second - 1) / Time.Second)%Z in
  let! out := refuse req ReasonChallengeRateLimited (detail ++ [("retry_after_seconds", JInt seconds)]) in
  ret (mkResult (rs_ID out) (rs_State out) (rs_Outcome out) (rs_Reason out) (rs_PolicyID out) (rs_PolicyVersion out)
         (rs_Obligations out) (rs_Challenges out) (rs_CreatedAt out) (rs_ExpiresAt out) (rs_ResolvedAt out) retryAfter).

(** Best effort: the audit row's own failure is not reported. *)
Definition auditAccessRefusal (caller : Subject) (d : Decision) (op : string) : M unit :=
  let! _ := attempt (Append (mkAudit AuditKindAccessRefused (d_ID d) (JObj
    [("caller_id", JStr (CallerID caller)); ("operation", JStr op); ("decision_id", JStr (d_ID d))]))) in
  ret tt.

Definition countOutstanding (subject : string) (now : Time.t) : M Z :=
  query (λ db, Ok (Z.of_nat (length (List.filter
    (λ d, bool_decide (d_SubjectID d = subject) && bool_decide (d_State d = DecisionPending) && Time.After (d_ExpiresAt d) now)
    (map snd (map_to_list (db_decisions db))))))).

(** ** Reading challenges *)

Definition readDecision (id : string) : M Decision := query (GetDecision id).
Definition readProgress (id : string) : M (list ChallengeProgress) := query (λ db, Ok (ChallengeProgressFor id db)).

Definition instance_of (d : Decision) (p : ChallengeProgress) : Instance_ := mkInstance (d_ID d) (cp_Ordinal p) (cp_Kind p).

Definition status (s : Service) (d : Decision) (p : ChallengeProgress) (now : Time.t) : M Status :=
  let! h := lift (Registry_Handler (sv_challenges s) (cp_Kind p)) in
  let! st := h_Status h (mkStatusRequest (instance_of d p) (contextOf d) (cp_Detail p) (cp_State p) (cp_Deadline p) now) in
  if CState_Valid (ss_State st) then ret st else throw [].

Definition publish (s : Service) (d : Decision) (p : ChallengeProgress) (now : Time.t) : M View :=
  let! h := lift (Registry_Handler (sv_challenges s) (cp_Kind p)) in
  match h_View h with
  | None => ret (mkView "")
  | Some view => view (mkViewRequest (instance_of d p) (contextOf d) (cp_Detail p) now)
  end.

Definition reasonFor (challenges : nat) : Reason :=
  match challenges with O => ReasonPolicyMatched | _ => ReasonChallengeSatisfied end.
Definition failureReason (shed : bool) : Reason := if shed then ReasonChallengeRateLimited else ReasonChallengeFailed.

Fixpoint view_challenges (s : Service) (d : Decision) (now : Time.t) (ps : list ChallengeProgress) :
    M (list ChallengeView * bool) :=
  match ps with
  | [] => ret ([], false)
  | p :: ps =>
      let! st := status s d p now in
      let! v := publish s d p now in
      let! rest := view_challenges s d now ps in
      ret (mkChallengeView (cp_Ordinal p) (cp_Kind p) (cp_State p) (ss_Have st) (ss_Need st) (cp_Deadline p)
             (v_AuthorizationURL v) :: rest.1, ss_Shed st || rest.2)
  end.

Definition outcome_of (d : Decision) (n : nat) : EDecision * Reason :=
  match d_State d with
  | DecisionPending => (Challenged, ReasonChallengeRequired)
  | DecisionAllowed => (Allow, reasonFor n)
  | DecisionExpired => (Deny, ReasonExpired)
  | DecisionDenied | DecisionCancelled => (Deny, ReasonChallengeFailed)
  | DecisionOther _ => (Deny, ReasonNone)
  end.

Definition view (s : Service) (d : Decision) (progress : list ChallengeProgress) (now : Time.t) : M Result :=
  let! obligations := lift (decodeObligations (d_Obligations d)) in
  let '(outcome, reason) := outcome_of d (length progress) in
  let! cs := view_challenges s d now progress in
  let reason := if bool_decide (reason = ReasonChallengeFailed) then failureReason cs.2 else reason in
  ret (mkResult (d_ID d) (d_State d) outcome reason (d_PolicyID d) (d_PolicyVersion d) obligations cs.1
         (d_CreatedAt d) (d_ExpiresAt d) (d_ResolvedAt d) 0%Z).

(** ** Advancing *)

Definition resolve (d : Decision) (t : Transition) (reason : Reason) : M bool :=
  let! next := lift (Next (d_State d) t) in
  let! r := attempt (txn (ResolveDecision (d_ID d) next None
                            (Trigger_string (tn_trigger t) +:+ ":" +:+ Reason_string reason))) in
  match r with
  | Ok _ => ret true
  | Err e => if errors_Is e ErrConflict then ret false else throw e
  end.

Definition deadline_passed (p : ChallengeProgress) (now : Time.t) : bool :=
  match cp_Deadline p with Some t => negb (Time.Before now t) | None => false end.

(** What the loop over the challenges accumulates. *)
Record tally := mkTally { ta_changed : bool; ta_satisfied : nat; ta_failed : nat; ta_shed : bool }.

Definition advance_one (s : Service) (d : Decision) (p : ChallengeProgress) (now : Time.t) (t : tally) : M tally :=
  if CState_Terminal (cp_State p) then
    ret (if bool_decide (cp_State p = StateSatisfied)
         then mkTally (ta_changed t) (S (ta_satisfied t)) (ta_failed t) (ta_shed t)
         else mkTally (ta_changed t) (ta_satisfied t) (S (ta_failed t)) (ta_shed t))
  else
    let! st := status s d p now in
    let next := if bool_decide (ss_State st = StatePending) && deadline_passed p now then StateFailed else ss_State st in
    if bool_decide (next = StatePending) then ret t
    else
      let detail := match ss_Detail st with Some j => j | None => cp_Detail p end in
      let! _ := txn (SetChallengeState (d_ID d) (cp_Ordinal p) next (Some detail)) in
      ret (if bool_decide (next = StateSatisfied)
           then mkTally true (S (ta_satisfied t)) (ta_failed t) (ta_shed t)
           else mkTally true (ta_satisfied t) (S (ta_failed t)) (ta_shed t || ss_Shed st)).

Fixpoint advance_loop (s : Service) (d : Decision) (now : Time.t) (ps : list ChallengeProgress) (t : tally) : M tally :=
  match ps with
  | [] => ret t
  | p :: ps => let! t' := advance_one s d p now t in advance_loop s d now ps t'
  end.

Definition reread (s : Service) (id : string) (now : Time.t) : M Result :=
  let! d := readDecision id in
  let! progress := readProgress id in
  view s d progress now.

Definition advance (s : Service) (id : string) (now : Time.t) : M Result :=
  let! d := readDecision id in
  let! progress := readProgress id in
  if negb (bool_decide (d_State d = DecisionPending)) then view s d progress now
  else if Expired d now then view s d progress now
  else
    let! t := advance_loop s d now progress (mkTally false 0 0 false) in
    if bool_decide (0 < ta_failed t) then
      let! _ := resolve d Fail_ (failureReason (ta_shed t)) in reread s id now
    else if bool_decide (ta_satisfied t = length progress) then
      let! _ := resolve d Satisfy (reasonFor (length progress)) in reread s id now
    else if ta_changed t then reread s id now
    else view s d progress now.

(** ** Access *)

Fixpoint target_of_any (s : Service) (caller : Subject) (d : Decision) (ps : list ChallengeProgress) : M bool :=
  match ps with
  | [] => ret false
  | p :: ps =>
      match Registry_Handler (sv_challenges s) (cp_Kind p) with
      | Err _ => target_of_any s caller d ps
      | Ok h =>
          match h_IsTarget h with
          | None => target_of_any s caller d ps
          | Some isT =>
              let! is_ := isT (mkTargetRequest (instance_of d p) (contextOf d) (cp_Detail p) (Some caller)) in
              if is_ : bool then ret true else target_of_any s caller d ps
          end
      end
  end.

Definition mayAccess (s : Service) (caller : Subject) (d : Decision) (ps : list ChallengeProgress) : M bool :=
  if bool_decide (CallerID caller = d_CallerID d) then ret true else target_of_any s caller d ps.

Definition mayActOn (s : Service) (caller : Subject) (d : Decision) (ps : list ChallengeProgress)
    (target : ChallengeProgress) : M bool :=
  let! allowed := mayAccess s caller d ps in
  if allowed : bool then ret true
  else match Registry_Handler (sv_challenges s) (cp_Kind target) with
  | Err _ => ret false
  | Ok h => match h_IsTarget h with
            | Some _ => ret false
            | None => ret (negb (bool_decide (su_Kind caller = SubjectUser)))
            end
  end.

(** ** Get *)

Definition Get (s : Service) (caller : option Subject) (id : string) (now : Time.t) : M Result :=
  match caller with
  | None => throw [ErrUnauthenticated]
  | Some caller =>
      let! d := readDecision id in
      let! progress := readProgress id in
      let! allowed := mayAccess s caller d progress in
      if allowed : bool then view s d progress now
      else
        let! _ := auditAccessRefusal caller d "read" in
        throw [ErrNotAuthorized]
  end.

(** ** Submit and Redeem *)

Definition challengeAt (progress : list ChallengeProgress) (ordinal : Z) : result ChallengeProgress :=
  match list_find (λ p, cp_Ordinal p = ordinal) progress with
  | Some (_, p) => Ok p
  | None => Err [ErrNoSuchChallenge]
  end.

Definition stillCollecting (d : Decision) (target : ChallengeProgress) (now : Time.t) : result unit :=
  let? _ := EnsureActive d now in
  if negb (bool_decide (d_State d = DecisionPending)) then Err [ErrNotPending]
  else if negb (bool_decide (cp_State target = StatePending)) then Err [ErrNotPending]
  else if deadline_passed target now then Err [ErrDecisionExpired]
  else Ok tt.

Definition decisionWithProgress (id : string) : M (Decision * list ChallengeProgress) :=
  let! d := readDecision id in
  let! progress := readProgress (d_ID d) in
  ret (d, progress).

Record Submission := mkSubmission {
  sb_Caller : option Subject; sb_DecisionID : string; sb_Ordinal : Z; sb_Payload : option json }.

Definition Submit (s : Service) (sub : Submission) (now : Time.t) : M Result :=
  match sb_Caller sub with
  | None => throw [ErrUnauthenticated]
  | Some caller =>
      let! dp := decisionWithProgress (sb_DecisionID sub) in
      let d := dp.1 in
      let! target := lift (challengeAt dp.2 (sb_Ordinal sub)) in
      let! allowed := mayActOn s caller d dp.2 target in
      if negb allowed then
        let! _ := auditAccessRefusal caller d "submit" in
        throw [ErrNotAuthorized]
      else
        let! _ := lift (stillCollecting d target now) in
        let! h := lift (Registry_Handler (sv_challenges s) (cp_Kind target)) in
        let! out := attempt (h_Submit h (mkSubmitRequest (instance_of d target) (contextOf d) (cp_Detail target)
                                           (Some caller) (sb_Payload sub) now)) in
        match out with
        | Err e =>
            if errors_Is e ErrNotTarget
            then let! _ := auditAccessRefusal caller d "submit" in throw e
            else throw e
        | Ok out =>
            if negb (CState_Valid (so_State out)) then throw []
            else
              let detail := match so_Detail out with Some j => j | None => cp_Detail target end in
              let! _ := txn (SetChallengeState (d_ID d) (cp_Ordinal target) (so_State out) (Some detail)) in
              advance s (d_ID d) now
        end
  end.

Definition collecting (id : string) (ordinal : Z) (now : Time.t) : M (Decision * ChallengeProgress) :=
  let! dp := decisionWithProgress id in
  let! target := lift (challengeAt dp.2 ordinal) in
  let! _ := lift (stillCollecting dp.1 target now) in
  ret (dp.1, target).

Definition Redeem (s : Service) (id : string) (ordinal : Z) (params : gmap string string) (now : Time.t) : M Redemption :=
  let! dt := collecting id ordinal now in
  let! h := lift (Registry_Handler (sv_challenges s) (cp_Kind dt.2)) in
  match h_Redeem h with
  | None => throw [ErrNotRedeemable]
  | Some redeem => redeem (mkRedeemRequest (instance_of dt.1 dt.2) (contextOf dt.1) (cp_Detail dt.2) params now)
  end.

(** ** Decide *)

Definition obligationsFor (s : Service) (req : Request) (ev : DecideResult) : result (list Obligation) :=
  match sv_obligations s with
  | None => Ok []
  | Some f => f (rq_Input req) (dr_policyID ev) (dr_gates ev)
  end.

(** Issuing the challenges of a decision, in ordinal order.  A handler that sheds
    its challenge ends the attempt; a deadline past the expiry moves the expiry. *)
Inductive opened := Opened (chs : list NewChallenge) (expiresAt : Time.t) | Shed (ordinal : Z) (k : ChallengeType) (n : nat) (retryAfter : Time.duration).

Definition with_expiry (c : DecisionContext) (t : Time.t) : DecisionContext :=
  mkContext (dc_DecisionID c) (dc_CallerID c) (dc_SubjectID c) (dc_ResourceID c) (dc_Action c) (dc_PolicyID c)
    (dc_Request c) (dc_FactSnapshot c) (dc_Obligations c) (dc_CreatedAt c) t.

Fixpoint issue_all (s : Service) (ctx : DecisionContext) (now : Time.t) (ordinal : Z) (specs : list Challenge)
    (acc : list NewChallenge) : M opened :=
  match specs with
  | [] => ret (Opened acc (dc_ExpiresAt ctx))
  | spec :: specs =>
      let k := Challenge_ChallengeType spec in
      let! h := lift (Registry_Handler (sv_challenges s) k) in
      let! issued := h_Issue h (mkIssueRequest (mkInstance (dc_DecisionID ctx) ordinal k) spec ctx now) in
      if negb (CState_Valid (is_State issued)) then throw []
      else if is_Shed issued && bool_decide (is_State issued = StateFailed)
      then ret (Shed ordinal k (length acc) (is_RetryAfter issued))
      else
        let ctx' := match is_Deadline issued with
                    | Some t => if Time.After t (dc_ExpiresAt ctx) then with_expiry ctx t else ctx
                    | None => ctx
                    end in
        issue_all s ctx' now (ordinal + 1)%Z specs
          (acc ++ [mkNewChallenge ordinal k (is_Deadline issued) (is_Detail issued)])
  end.

Section decide.
Context `{Digest}.

(** The tail of [Decide]: open the challenges, create the decision, advance it. *)
Definition decide_create (s : Service) (req : Request) (caller : Subject) (now : Time.t) (ev : DecideResult)
    (obligations : list Obligation) (version : Z) (id : string) : M Result :=
  let i := rq_Input req in
  let fingerprint := requestFingerprint i in
  let key := rq_IdempotencyKey req in
  let ttl := if (rq_TTL req <=? 0)%Z then sv_ttl s else rq_TTL req in
  let expiresAt := Time.Add now ttl in
  let facts := factsJSON s (dr_facts ev) in
  let ctx := mkContext id (CallerID caller) (en_ID (in_Subject i)) (en_ID (in_Resource i)) (in_Action i) (dr_policyID ev)
               (mustJSON (requestPayload i)) (mustJSON facts) (encodeObligations obligations) now expiresAt in
  let! o := issue_all s ctx now 0 (flatten (dr_gates ev)) [] in
  match o with
  | Shed ordinal k n retryAfter =>
      refuseShed req retryAfter [("challenge_ordinal", JInt ordinal); ("challenge_kind", JStr (ChallengeType_string k));
                                 ("opened_before_it", JInt (Z.of_nat n))]
  | Opened chs expires =>
      let! payload := lift (requestPayload i) in
      let! factsj := lift facts in
      let! created := attempt (txn (CreateDecision (mkNewDecision id (CallerID caller) (dr_policyID ev) version
           (en_ID (in_Subject i)) (en_ID (in_Resource i)) (in_Action i)
           (Some payload) (Some factsj) (Some (encodeObligations obligations)) expires chs
           key (fingerprintFor key fingerprint)))) in
      match created with
      | Ok d => advance s (d_ID d) now
      | Err e =>
          if negb (bool_decide (key = "")) && errors_Is e ErrConflict then
            let! winner := attempt (query (DecisionByIdempotencyKey (CallerID caller) key)) in
            match winner with
            | Err _ => throw e
            | Ok winner =>
                if sameRequest winner fingerprint then advance s (d_ID winner) now
                else throw [ErrIdempotencyKeyReused]
            end
          else throw e
      end
  end.

(** Evaluate, then create. *)
Definition decide_evaluate (s : Service) (req : Request) (caller : Subject) (now : Time.t) : M Result :=
  let! ev := lift (sv_eval s (rq_Input req)) in
  if bool_decide (dr_decision ev = Deny) then refuse req (dr_reason ev) [("policy_id", JStr (dr_policyID ev))]
  else
    let! obligations := lift (obligationsFor s req ev) in
    let! version := sv_policyVersion s (dr_policyID ev) in
    let! id := NewDecisionID in
    decide_create s req caller now ev obligations version id.

(** The cap on outstanding decisions, then the evaluation. *)
Definition decide_fresh (s : Service) (req : Request) (caller : Subject) (now : Time.t) : M Result :=
  if (0 <? sv_maxOutstanding s)%Z then
    let! n := countOutstanding (en_ID (in_Subject (rq_Input req))) now in
    if (sv_maxOutstanding s <=? n)%Z
    then refuse req ReasonOutstandingCap [("outstanding", JInt n); ("cap", JInt (sv_maxOutstanding s))]
    else decide_evaluate s req caller now
  else decide_evaluate s req caller now.

Definition Decide (s : Service) (req : Request) (now : Time.t) : M Result :=
  match rq_Caller req with
  | None => throw [ErrUnauthenticated]
  | Some caller =>
      let key := rq_IdempotencyKey req in
      if bool_decide (key = "") then decide_fresh s req caller now
      else
        let! existing := attempt (query (DecisionByIdempotencyKey (CallerID caller) key)) in
        match existing with
        | Ok d =>
            if sameRequest d (requestFingerprint (rq_Input req)) then advance s (d_ID d) now
            else throw [ErrIdempotencyKeyReused]
        | Err e => if errors_Is e ErrNotFound then decide_fresh s req caller now else throw e
        end
  end.
End decide.

(** ** The sweeper (sweeper.go) *)

Definition DefaultSweepBatch : Z := 100.

Record SweepReport := mkSweepReport { sw_Claimed : nat; sw_Expired : nat; sw_Advanced : nat; sw_Skipped : nat }.

Definition sweep_one (s : Service) (now : Time.t) (d : Decision) (r : SweepReport) : M SweepReport :=
  let skip := mkSweepReport (sw_Claimed r) (sw_Expired r) (sw_Advanced r) (S (sw_Skipped r)) in
  if Expired d now then
    let! resolved := attempt (resolve d Expire ReasonExpired) in
    match resolved with
    | Err e => if errors_Is e ErrIllegalTransition then ret skip else throw e
    | Ok true => ret (mkSweepReport (sw_Claimed r) (S (sw_Expired r)) (sw_Advanced r) (sw_Skipped r))
    | Ok false => ret skip
    end
  else
    let! advanced := attempt (advance s (d_ID d) now) in
    match advanced with
    | Err e => if errors_Is e ErrNotFound then ret skip else throw e
    | Ok _ => ret (mkSweepReport (sw_Claimed r) (sw_Expired r) (S (sw_Advanced r)) (sw_Skipped r))
    end.

Fixpoint sweep_loop (s : Service) (now : Time.t) (ds : list Decision) (r : SweepReport) : M SweepReport :=
  match ds with
  | [] => ret r
  | d :: ds => let! r' := sweep_one s now d r in sweep_loop s now ds r'
  end.

Definition SweepOnce (s : Service) (batch : Z) (now : Time.t) : M SweepReport :=
  let! due := claim now batch in
  sweep_loop s now due (mkSweepReport (length due) 0 0 0).
