(* ===== verification/Revalidate.v ===== *)
(** * Revalidation of open decisions

    Models internal/decision/revalidate.go: what a revision that takes effect does to
    the decisions that are still pending.  Everything runs inside the caller's
    transaction, so an operation is a function of the database ([Tx]) that either
    fails, which rolls everything back, or leaves a database behind; the database's
    [now()] is the argument [at_].

    Of a challenge handler the revalidator uses three calls, [TxHandler].  Their
    answers may depend on the handler's own state; a run asks at most once about a
    challenge of a decision, so what it is answered is a function of the request. *)
From Stdlib Require Import Ascii.
From S2P Require Import Prelude GoLib Policy Cel Engine Json Store World Limiter Text.
From S2P Require Import Challenge Quorum Delay External Mfa Service.
Import Strings.

(** ** Transactions *)

Notation Tx := (Tx_ DB).

(** ** Modes *)

Inductive ApplicationMode := ModeUnset | ModeRevaluate | ModeGrandfather | ModeOther (s : string).

#[export] Instance ApplicationMode_eq_dec : EqDecision ApplicationMode.
Proof. solve_decision. Defined.

Definition ApplicationMode_string (m : ApplicationMode) : string :=
  match m with ModeUnset => "" | ModeRevaluate => "revaluate" | ModeGrandfather => "grandfather" | ModeOther s => s end.
Definition ApplicationModes : list ApplicationMode := [ModeRevaluate; ModeGrandfather].
Definition ApplicationMode_Valid (m : ApplicationMode) : bool :=
  bool_decide (m = ModeUnset) || contains ApplicationModes m.
Definition OrDefault (m : ApplicationMode) : ApplicationMode := if bool_decide (m = ModeUnset) then ModeRevaluate else m.

Definition AuditKindGrandfathered : string := "decision.grandfathered".
Definition AuditKindRevalidated : string := "decision.revalidated".
Definition AuditKindApprovalsInvalidated : string := "decision.approvals.invalidated".

Definition DispositionGrandfathered : string := "grandfathered".
Definition DispositionUnchanged : string := "unchanged".
Definition DispositionRebound : string := "rebound".
Definition DispositionResolved : string := "resolved".
Definition DispositionDenied : string := "denied".

(** ** Do approvals survive? *)

Definition sha256Size : nat := 32.

Definition bindingHashOf (raw : json) : result string :=
  match (let? fs := fields_of raw in dec_string (field "binding_hash" fs)) with
  | Err _ => Err [ErrRevalidation]
  | Ok value =>
      if negb (String.length value =? 2 * sha256Size)%nat || negb (valid_hex value) then Ok "" else Ok (ToLower value)
  end.

Definition PreservesApprovals (stored reissued : json) : result bool :=
  let? before := bindingHashOf stored in
  let? after := bindingHashOf reissued in
  Ok (negb (bool_decide (before = "")) && negb (bool_decide (after = "")) && bool_decide (before = after)).

(** A stored document comes back as the text PostgreSQL renders, with a space after
    each colon; what is encoded here has none.  Details are structs, so the two texts
    are equal only when there is no member to separate. *)
Definition same_text (stored fresh : json) : bool :=
  match stored, fresh with JObj [], JObj [] | JNull, JNull => true | _, _ => false end.

(** What a [jsonb] column keeps of a document: its members, in an order of its own. *)
Definition jsonb (j : json) : json := sort_keys j.

(** ** Handlers, configuration and requests *)

Record TxHandler := mkTxHandler {
  th_Issue : IssueRequest → result IssueResult;
  th_Status : StatusRequest → result Status;
  th_ResolveCancelAuthority : option (ApproverSet → DecisionContext → result CancelAuthority) }.

Definition quorum_tx `{Digest} (q : QuorumConfig) : TxHandler := mkTxHandler (quorum_issue q) (λ _, Err []) None.
Definition delay_tx (d : DelayConfig) : TxHandler := mkTxHandler (delay_issue d) delay_status (Some (resolveAuthority d)).

Definition TxRegistry := list (ChallengeType * TxHandler).
Definition TxRegistry_Handler (r : TxRegistry) (k : ChallengeType) : result TxHandler :=
  match list_find (λ kv, kv.1 = k) r with Some (_, (_, h)) => Ok h | None => Err [ErrNoHandler] end.

(** [rv_renderCall] is [engine.SourceCall.String]. *)
Record Revalidator := mkRevalidator {
  rv_challenges : TxRegistry;
  rv_obligations : option (Input → string → list (option Policy) → result (list Obligation));
  rv_renderCall : SourceCall → string }.

Record RevalidateRequest := mkRevalidateRequest {
  vq_Mode : ApplicationMode; vq_Snapshot : Snapshot; vq_Resolver : option SourceResolver;
  vq_PolicyVersion : option (string → DB → result Z); vq_RevisionID : string;
  vq_Skip : option (string → bool); vq_Now : Time.t }.

Record Outcome := mkOutcome {
  oc_DecisionID : string; oc_Disposition : string; oc_Invalidated : Z; oc_Fetched : list string }.

Record RevalidateReport := mkReport {
  rp_Mode : ApplicationMode; rp_Considered : Z; rp_Denied : Z; rp_Invalidated : Z;
  rp_Fetched : list string; rp_Outcomes : list Outcome }.

(** ** Restoring what was frozen *)

(** A document decoded into [any]: every number is a float64. *)
Definition json_number (j : json) : option Float64.t :=
  match j with JInt z => Some (Float64.of_int64 z) | JFloat f => Some f | _ => None end.
Definition json_text (j : json) : option string :=
  match j with JStr s => Some s | JTime t => Some (Time.Format_RFC3339Nano t) | _ => None end.

Fixpoint any_value (j : json) : value :=
  match j with
  | JNull => VNil
  | JBool b => VBool b
  | JInt z => VDouble (Float64.of_int64 z)
  | JFloat f => VDouble f
  | JStr s => VString s
  | JTime t => VString (Time.Format_RFC3339Nano t)
  | JArr l => VList (map any_value l)
  | JObj _ => VOther "map[string]interface {}"
  end.

(** [overflow] is what the hardware makes of a float64 outside int64. *)
Definition restoreScalar (overflow : Z) (t : Typ) (v : json) : result value :=
  if bool_decide (t = TypeInt) then
    match json_number v with
    | None => Ok (any_value v)
    | Some n => let i := to_int64 overflow n in
                if Float64.eqb n (Float64.of_int64 i) then Ok (VInt i) else Err []
    end
  else if bool_decide (t = TypeTimestamp) then
    match v with
    | JTime t => Ok (VTime t)
    | JStr s => let? t := Parse_RFC3339Nano s in Ok (VTime t)
    | _ => Err []
    end
  else if bool_decide (t = TypeDuration) then
    match json_number v, json_text v with
    | Some n, _ => Ok (VDuration (to_int64 overflow n))
    | None, Some s => let? d := ParseDuration s in Ok (VDuration d)
    | None, None => Err []
    end
  else Ok (any_value v).

Fixpoint restore_fuel (fuel : nat) (overflow : Z) (t : Typ) (v : json) : result value :=
  match fuel with
  | O => Err []
  | S fuel =>
      if IsList t then
        match v with
        | JArr items => let? vs := res_map (restore_fuel fuel overflow (Elem t)) items in Ok (VList vs)
        | _ => Err []
        end
      else restoreScalar overflow t v
  end.

(** The element type of a list type is shorter than the type. *)
Definition restoreValue (overflow : Z) (t : Typ) (v : json) : result value := restore_fuel (S (String.length t)) overflow t v.

Definition as_string (o : option json) : string := default "" (o ≫= json_text).

Definition restore_attribute (overflow : Z) (e : EntityType) (kv : string * json) : result (string * value) :=
  match EntityType_Attribute e kv.1 with
  | None => Ok (kv.1, any_value kv.2)
  | Some a => let? v := restoreValue overflow (attr_Type a) kv.2 in Ok (kv.1, v)
  end.

Definition restoreEntity (overflow : Z) (s : Schema) (raw : list (string * json)) : result Entity :=
  match raw with
  | [] => Ok no_entity
  | _ =>
      let ty := as_string (field "type" raw) in
      let id := as_string (field "id" raw) in
      match field "attributes" raw with
      | Some (JObj ((_ :: _) as attrs)) =>
          if bool_decide (ty = "") then Ok (mkEntity ty id ∅)
          else match Schema_Entity s ty with
          | None => Err []
          | Some e => let? l := res_map (restore_attribute overflow e) attrs in Ok (mkEntity ty id (list_to_map l))
          end
      | _ => Ok (mkEntity ty id ∅)
      end
  end.

(** A member decoded into a map: absent and null are the nil map. *)
Definition dec_map (o : option json) : result (list (string * json)) :=
  match o with None | Some JNull => Ok [] | Some (JObj fs) => Ok fs | Some _ => Err [] end.

Definition restoreInput (overflow : Z) (s : Schema) (raw : json) : result Input :=
  let? fs := fields_of raw in
  let? action := dec_string (field "action" fs) in
  let? subject := dec_map (field "subject" fs) in
  let? resource := dec_map (field "resource" fs) in
  let? context := dec_map (field "context" fs) in
  let? subject := restoreEntity overflow s subject in
  let? resource := restoreEntity overflow s resource in
  let? context := restoreEntity overflow s context in
  Ok (mkInput action subject resource context).

(** ** The frozen facts *)

Definition frozen_values (raw : json) : result (list (string * json)) :=
  match fields_of raw with Ok fs => Ok fs | Err _ => Err [ErrRevalidation] end.

Section frozen.
Context (overflow : Z) (schema : Schema) (render : SourceCall → string) (values : list (string * json)).

Definition restore (c : SourceCall) (raw : json) : result value :=
  match Schema_Source schema (call_Name c) with
  | None => Err [ErrRevalidation]
  | Some decl => match restoreValue overflow (src_Returns decl) raw with Ok v => Ok v | Err _ => Err [ErrRevalidation] end
  end.

(** What the snapshot holds, and the calls it does not. *)
Fixpoint answer_frozen (calls : list SourceCall) (facts : Facts) (missing : list SourceCall) : result (Facts * list SourceCall) :=
  match calls with
  | [] => Ok (facts, missing)
  | c :: calls =>
      match field (render c) values with
      | Some raw => let? v := restore c raw in answer_frozen calls (Facts_Set facts c v) missing
      | None => answer_frozen calls facts (missing ++ [c])
      end
  end.

Fixpoint take_fetched (resolved : Facts) (missing : list SourceCall) (facts : Facts) : result Facts :=
  match missing with
  | [] => Ok facts
  | c :: missing =>
      match Facts_Value resolved c with
      | None => Err [ErrRevalidation; ErrUnresolvedFact]
      | Some v => take_fetched resolved missing (Facts_Set facts c v)
      end
  end.

(** [frozenFacts.ResolveSources]. *)
Definition frozen_resolve (live : option SourceResolver) (calls : list SourceCall) : result Facts :=
  let? p := answer_frozen calls [] [] in
  match p.2, live with
  | [], _ => Ok p.1
  | _, None => Err [ErrRevalidation; ErrUnresolvedFact]
  | missing, Some live =>
      match live missing with
      | Err e => Err (ErrRevalidation :: e)
      | Ok resolved => take_fetched resolved missing p.1
      end
  end.

(** What an evaluation that succeeded had to fetch: the calls it asked for that the
    snapshot does not hold.  The evaluator resolves its calls once. *)
Definition fetched_of (facts : FactSnapshot) : FactSnapshot :=
  List.filter (λ cv, bool_decide (field (render cv.1) values = None)) facts.
Definition fetchedNames (fetched : FactSnapshot) : list string :=
  sort_by id String.le (remove_dups (map (λ cv, call_Name cv.1) fetched)).

Definition set_field (k : string) (j : json) (fs : list (string * json)) : list (string * json) :=
  List.filter (λ kv, negb (bool_decide (kv.1 = k))) fs ++ [(k, j)].

(** [frozenFacts.merged]: the snapshot is decoded, extended and encoded. *)
Definition merged (fetched : FactSnapshot) (raw : json) : result json :=
  match (let? fs := fields_of (canonical raw) in
         let? news := res_map (λ '(c, v), let? j := marshal_value v in Ok (render c, j)) fetched in
         Ok (JObj (foldl (λ fs kj, set_field kj.1 kj.2 fs) fs news))) with
  | Ok j => Ok j
  | Err _ => Err [ErrRevalidation]
  end.
End frozen.

(** ** Queries *)

Definition openDecisions (now : Time.t) (db : DB) : list Decision :=
  sort_by d_CreatedAt Z.le
    (List.filter (λ d, bool_decide (d_State d = DecisionPending) && Time.After (d_ExpiresAt d) now)
       (map snd (map_to_list (db_decisions db)))).

Definition countApprovalsOf (id : string) (db : DB) : Z :=
  Z.of_nat (length (filter (λ a, ap_DecisionID a = id) (db_approvals db))).

Definition is_vote (id : string) (ordinal : Z) (a : Approval) : bool :=
  bool_decide (ap_DecisionID a = id) && (ap_Ordinal a =? ordinal)%Z.

Definition dropApprovals (id : string) (ordinal : Z) : Tx Z := λ db,
  Ok (Z.of_nat (length (List.filter (is_vote id ordinal) (db_approvals db))),
      with_approvals (List.filter (λ a, negb (is_vote id ordinal a))) db).

Definition quorumStateAfter (id : string) (ordinal : Z) (detail : json) (db : DB) : result CState :=
  match (let? fs := fields_of detail in dec_int (field "threshold" fs)) with
  | Err _ => Err [ErrRevalidation]
  | Ok threshold =>
      if ((0 <? threshold) && (threshold <=? CountApprovals id ordinal VerdictApprove db))%Z
      then Ok StateSatisfied else Ok StatePending
  end.

Definition challengeTally (id : string) (db : DB) : nat * nat * nat :=
  let rows := filter (λ r, cp_DecisionID r = id) (db_progress db) in
  (length rows, length (filter (λ r, cp_State r = StateSatisfied) rows),
   length (filter (λ r, cp_State r = StateFailed ∨ cp_State r = StateCancelled) rows)).

(** ** Writes *)

Definition tx_append (e : AuditEntry) : Tx unit := tx_write (append e).

(** One row of [challenge_progress]. *)
Definition update_row (id : string) (ordinal : Z) (f : ChallengeProgress → ChallengeProgress) : Tx unit :=
  tx_write (with_progress (map (λ r, if is_row id ordinal r then f r else r))).

Definition rewritten (at_ : Time.t) (policyID : string) (version : Z) (facts obligations : json) (d : Decision) : Decision :=
  mkDecision (d_ID d) (d_CallerID d) policyID version (d_SubjectID d) (d_ResourceID d) (d_Action d) (d_Request d)
    (jsonb facts) (jsonb obligations) (d_State d) (d_CreatedAt d) at_ (d_ExpiresAt d) (d_NextDeadline d)
    (d_NextDeadlineKind d) (d_ResolvedAt d) (d_IdempotencyKey d) (d_IdempotencyFingerprint d).

(** The decision's row, its reference to a policy version checked. *)
Definition rewrite_decision (at_ : Time.t) (id policyID : string) (version : Z) (facts obligations : json) : Tx unit := λ db,
  match db_decisions db !! id with
  | Some d =>
      if negb (bool_decide (d_State d = DecisionPending)) then Ok (tt, db)
      else if negb (contains (db_policies db) (policyID, version)) then Err [ErrRevalidation]
      else Ok (tt, with_decisions (<[id := rewritten at_ policyID version facts obligations d]>) db)
  | None => Ok (tt, db)
  end.

Definition auditInvalidation (id : string) (ordinal dropped : Z) (why revisionID : string) : Tx unit :=
  tx_append (mkAudit AuditKindApprovalsInvalidated id (JObj
    ([("revision_id", JStr revisionID); ("dropped", JInt dropped); ("reason", JStr why)] ++
     if (0 <=? ordinal)%Z then [("ordinal", JInt ordinal)] else []))).

(** [Revalidator.resolve]. *)
Definition resolve_in_tx (at_ : Time.t) (d : Decision) (t : Transition) (reason : Reason) (revisionID : string) : Tx unit :=
  let% next := tx_lift (Next (d_State d) t) in
  let% row := tx_read (λ db, db_decisions db !! d_ID d) in
  match row with
  | Some row =>
      if negb (bool_decide (d_State row = DecisionPending)) then tx_ret tt
      else
        let% _ := tx_write (with_decisions (<[d_ID d := resolved_row at_ next None row]>)) in
        tx_append (mkAudit AuditKindDecisionResolved (d_ID d) (JObj
          [("state", JStr (DecisionState_string next));
           ("actor", JStr (Trigger_string (tn_trigger t) +:+ ":" +:+ Reason_string reason));
           ("revision_id", JStr revisionID); ("obligations", d_Obligations d)]))
  | None => tx_ret tt
  end.

Definition sameShape (stored : list ChallengeProgress) (specs : list Challenge) : bool :=
  (length stored =? length specs)%nat &&
  forallb (λ p, (cp_Ordinal p.2.1 =? Z.of_nat p.1)%Z && bool_decide (cp_Kind p.2.1 = Challenge_ChallengeType p.2.2))
    (imap pair (zip stored specs)).

(** ** Rebinding one challenge *)

Record rebind := mkRebind {
  rb_decision : Decision; rb_context : DecisionContext; rb_ordinal : Z; rb_spec : Challenge;
  rb_stored : ChallengeProgress; rb_revision : string; rb_now : Time.t }.

Definition rebind_instance (i : rebind) : Instance_ :=
  mkInstance (d_ID (rb_decision i)) (rb_ordinal i) (Challenge_ChallengeType (rb_spec i)).

(** [rebound1]: did the row move, how many approvals went, did the timer move. *)
Record rebound := mkRebound { bo_changed : bool; bo_invalidated : Z; bo_timerMoved : bool }.
Definition untouched : rebound := mkRebound false 0 false.

(** Errors are wrapped with the revalidation sentinel. *)
Definition wrapped {A} (r : result A) : result A := match r with Ok a => Ok a | Err e => Err (ErrRevalidation :: e) end.

Definition set_detail (detail : json) (r : ChallengeProgress) : ChallengeProgress :=
  mkProgress (cp_DecisionID r) (cp_Ordinal r) (cp_Kind r) (cp_State r) (cp_Deadline r) (cp_SatisfiedAt r) (jsonb detail).
Definition set_quorum (detail : json) (s : CState) (r : ChallengeProgress) : ChallengeProgress :=
  mkProgress (cp_DecisionID r) (cp_Ordinal r) (cp_Kind r) s (cp_Deadline r)
    (if bool_decide (s = StateSatisfied) then cp_SatisfiedAt r else None) (jsonb detail).
Definition set_mfa (detail : json) (r : ChallengeProgress) : ChallengeProgress :=
  mkProgress (cp_DecisionID r) (cp_Ordinal r) (cp_Kind r) StatePending (cp_Deadline r) None (jsonb detail).
Definition set_delay (at_ : Time.t) (detail : json) (deadline : Time.t) (s : CState) (r : ChallengeProgress) : ChallengeProgress :=
  mkProgress (cp_DecisionID r) (cp_Ordinal r) (cp_Kind r) s (Some (Time.trunc_us deadline))
    (if bool_decide (s = StateSatisfied) then Some (default at_ (cp_SatisfiedAt r)) else None) (jsonb detail).
Definition set_external (detail : json) (r : ChallengeProgress) : ChallengeProgress :=
  mkProgress (cp_DecisionID r) (cp_Ordinal r) (cp_Kind r) StateFailed None None (jsonb detail).

Section revalidator.
Context `{CEL} `{Digest} (r : Revalidator).

(** A nil detail encodes as null. *)
Definition reissue (i : rebind) : result json :=
  let? h := TxRegistry_Handler (rv_challenges r) (Challenge_ChallengeType (rb_spec i)) in
  let? issued := wrapped (th_Issue h (mkIssueRequest (rebind_instance i) (rb_spec i) (rb_context i) (rb_now i))) in
  Ok (default JNull (is_Detail issued)).

Definition statusOf (i : rebind) (detail : json) (deadline : option Time.t) : result CState :=
  let? h := TxRegistry_Handler (rv_challenges r) (Challenge_ChallengeType (rb_spec i)) in
  let? st := wrapped (th_Status h (mkStatusRequest (rebind_instance i) (rb_context i) detail (cp_State (rb_stored i)) deadline (rb_now i))) in
  if CState_Valid (ss_State st) then Ok (ss_State st) else Err [ErrRevalidation].

Definition rebindQuorum (i : rebind) : Tx rebound :=
  let id := d_ID (rb_decision i) in
  let% detail := tx_lift (reissue i) in
  let% preserved := tx_lift (PreservesApprovals (cp_Detail (rb_stored i)) detail) in
  if preserved && same_text (cp_Detail (rb_stored i)) detail then tx_ret untouched
  else
    let% dropped := if preserved : bool then tx_ret 0%Z else dropApprovals id (rb_ordinal i) in
    let% st := λ db, let? s := quorumStateAfter id (rb_ordinal i) detail db in Ok (s, db) in
    let% _ := update_row id (rb_ordinal i) (set_quorum detail st) in
    let% _ := if preserved : bool then tx_ret tt
              else auditInvalidation id (rb_ordinal i) dropped "the approval binding hash changed" (rb_revision i) in
    tx_ret (mkRebound true dropped false).

Definition rebindMFA (i : rebind) : Tx rebound :=
  match rb_spec i with
  | CMFA spec =>
      let% bound := tx_lift (wrapped (PreservesCompletion (cp_Detail (rb_stored i)) (rb_context i))) in
      let% asked := if bound : bool then tx_lift (wrapped (PreservesRequirement (cp_Detail (rb_stored i)) spec)) else tx_ret false in
      if asked : bool then tx_ret untouched
      else
        let% detail := tx_lift (reissue i) in
        if same_text (cp_Detail (rb_stored i)) detail then tx_ret untouched
        else
          let% _ := update_row (d_ID (rb_decision i)) (rb_ordinal i) (set_mfa detail) in
          tx_ret (mkRebound true 0 false)
  | _ => tx_fail [ErrRevalidation]
  end.

(** Who may cancel, and whether that moved. *)
Definition rebindCancelAuthority (detail : DelayDetail) (spec : Delay) (i : rebind) : result (option CancelAuthority * bool) :=
  match d_CancellableBy spec with
  | None => Ok (None, bool_decide (is_Some (dd_CancellableBy detail)))
  | Some set =>
      let? h := TxRegistry_Handler (rv_challenges r) ChallengeDelay in
      match th_ResolveCancelAuthority h with
      | None => Err [ErrRevalidation]
      | Some resolver =>
          let? resolved := wrapped (resolver set (rb_context i)) in
          match dd_CancellableBy detail with
          | Some a => if CancelAuthority_Equal a resolved then Ok (Some a, false) else Ok (Some resolved, true)
          | None => Ok (Some resolved, true)
          end
      end
  end.

(** [-d] on int64. *)
Definition neg64 (d : Time.duration) : Time.duration := ((- d + 2 ^ 63) mod 2 ^ 64 - 2 ^ 63)%Z.

(** The detail of a wait whose declared duration may have changed: the wait starts
    where it started. *)
Definition rebound_delay (stored : DelayDetail) (opened : Time.duration) (spec : Delay) : DelayDetail * bool :=
  if (opened =? d_Duration spec)%Z then (stored, false)
  else
    let issuedAt := Time.Add (dd_ReleaseAt stored) (neg64 opened) in
    (mkDelayDetail (Time.Duration_String (d_Duration spec)) (Time.Add issuedAt (d_Duration spec)) (dd_CancellableBy stored)
       (dd_CancelledBy stored) (dd_CancelledAt stored), true).

Definition with_authority (a : option CancelAuthority) (d : DelayDetail) : DelayDetail :=
  mkDelayDetail (dd_Duration d) (dd_ReleaseAt d) a (dd_CancelledBy d) (dd_CancelledAt d).

Definition rebindDelay (at_ : Time.t) (i : rebind) : Tx rebound :=
  match rb_spec i with
  | CDelay spec =>
      if (d_Duration spec <=? 0)%Z then tx_fail [ErrRevalidation]
      else
        let% stored := tx_lift (wrapped (decodeDelayDetail (cp_Detail (rb_stored i)))) in
        let% opened := tx_lift (wrapped (ParseDuration (dd_Duration stored))) in
        let '(next, timerMoved) := rebound_delay stored opened spec in
        let% authority := tx_lift (rebindCancelAuthority next spec i) in
        let next := with_authority authority.1 next in
        if negb timerMoved && negb authority.2 then tx_ret untouched
        else
          let detail := encodeDelayDetail next in
          if negb timerMoved then
            let% _ := update_row (d_ID (rb_decision i)) (rb_ordinal i) (set_detail detail) in
            tx_ret (mkRebound true 0 false)
          else
            let deadline := dd_ReleaseAt next in
            let% st := tx_lift (statusOf i detail (Some deadline)) in
            let stamped := if Time.After deadline (d_ExpiresAt (rb_decision i)) then d_ExpiresAt (rb_decision i) else deadline in
            let% _ := update_row (d_ID (rb_decision i)) (rb_ordinal i) (set_delay at_ detail stamped st) in
            tx_ret (mkRebound true 0 true)
  | _ => tx_fail [ErrRevalidation]
  end.

Definition rebindExternal (i : rebind) : Tx rebound :=
  match rb_spec i with
  | CExternal spec =>
      let% stored := tx_lift (wrapped (decodeExternalDetail (cp_Detail (rb_stored i)))) in
      if bool_decide (TrimSpace (e_Target spec) = xd_Target stored) then tx_ret untouched
      else if bool_decide (xd_Failure stored ≠ "") then tx_ret untouched
      else
        let% _ := update_row (d_ID (rb_decision i)) (rb_ordinal i)
                    (set_external (encodeExternalDetail (with_failure stored ExternalFailureRetargeted))) in
        tx_ret (mkRebound true 0 true)
  | _ => tx_fail [ErrRevalidation]
  end.

(** The rule of the kind; a kind without one stops the revision. *)
Definition rebind_one (at_ : Time.t) (i : rebind) : Tx rebound :=
  match Challenge_ChallengeType (rb_spec i) with
  | ChallengeQuorum => rebindQuorum i
  | ChallengeMFA => rebindMFA i
  | ChallengeDelay => rebindDelay at_ i
  | ChallengeExternal => rebindExternal i
  | ChallengeOther _ => tx_fail [ErrRevalidation]
  end.

(** ** Rebuilding the challenges *)

Definition issue (d : Decision) (ctx : DecisionContext) (ordinal : Z) (spec : Challenge) (now : Time.t) : Tx unit := λ db,
  let k := Challenge_ChallengeType spec in
  let? h := TxRegistry_Handler (rv_challenges r) k in
  let? issued := wrapped (th_Issue h (mkIssueRequest (mkInstance (d_ID d) ordinal k) spec ctx now)) in
  let deadline := (λ t, if Time.After t (d_ExpiresAt d) then d_ExpiresAt d else t) <$> is_Deadline issued in
  let row := mkProgress (d_ID d) ordinal k (is_State issued) (truncPtr deadline) None (jsonb (default JNull (is_Detail issued))) in
  if CState_Valid (is_State issued) && rows_ok db [row] then Ok (tt, with_progress (λ l, l ++ [row]) db) else Err [ErrRevalidation].

Fixpoint issue_each (d : Decision) (ctx : DecisionContext) (ordinal : Z) (specs : list Challenge) (now : Time.t) : Tx unit :=
  match specs with
  | [] => tx_ret tt
  | spec :: specs =>
      let% _ := issue d ctx ordinal spec now in
      issue_each d ctx (ordinal + 1)%Z specs now
  end.

(** Approvals refer to the row they were given on and go with it. *)
Definition clear_challenges (id : string) : Tx unit :=
  tx_write (λ db, with_approvals (filter (λ a, ap_DecisionID a ≠ id)) (with_progress (filter (λ p, cp_DecisionID p ≠ id)) db)).

Definition reopenChallenges (at_ : Time.t) (d : Decision) (ctx : DecisionContext) (specs : list Challenge)
    (revisionID : string) (now : Time.t) : Tx (bool * Z) :=
  let% invalidated := tx_read (countApprovalsOf (d_ID d)) in
  let% _ := clear_challenges (d_ID d) in
  let% _ := issue_each d ctx 0 specs now in
  let% _ := tx_write (refreshNextDeadline (d_ID d) at_) in
  let% _ := if (0 <? invalidated)%Z
            then auditInvalidation (d_ID d) (-1) invalidated "the revision changed which challenges this decision carries" revisionID
            else tx_ret tt in
  tx_ret (true, invalidated).

Fixpoint rebind_each (at_ : Time.t) (d : Decision) (ctx : DecisionContext) (ordinal : Z)
    (ps : list (ChallengeProgress * Challenge)) (revisionID : string) (now : Time.t) (acc : rebound) : Tx rebound :=
  match ps with
  | [] => tx_ret acc
  | (row, spec) :: ps =>
      let% out := rebind_one at_ (mkRebind d ctx ordinal spec row revisionID now) in
      rebind_each at_ d ctx (ordinal + 1)%Z ps revisionID now
        (mkRebound (bo_changed acc || bo_changed out) (bo_invalidated acc + bo_invalidated out) (bo_timerMoved acc || bo_timerMoved out))
  end.

Definition rebindChallenges (at_ : Time.t) (d : Decision) (specs : list Challenge) (revisionID : string) (now : Time.t) : Tx (bool * Z) :=
  let% stored := tx_read (ChallengeProgressFor (d_ID d)) in
  let ctx := contextOf d in
  if negb (sameShape stored specs) then reopenChallenges at_ d ctx specs revisionID now
  else
    let% out := rebind_each at_ d ctx 0 (zip stored specs) revisionID now untouched in
    let% _ := if bo_timerMoved out then tx_write (refreshNextDeadline (d_ID d) at_) else tx_ret tt in
    tx_ret (bo_changed out, bo_invalidated out).

(** ** One decision *)

Definition grandfather (d : Decision) (revisionID : string) : Tx unit :=
  tx_append (mkAudit AuditKindGrandfathered (d_ID d) (JObj
    [("revision_id", JStr revisionID); ("application_mode", JStr (ApplicationMode_string ModeGrandfather));
     ("policy_id", JStr (d_PolicyID d)); ("policy_version", JInt (d_PolicyVersion d))])).

(** The text of an error is left out of [detail]. *)
Definition deny (at_ : Time.t) (d : Decision) (revisionID detail : string) : Tx Outcome :=
  let% _ := resolve_in_tx at_ d Revalidate ReasonRevisionUnmet revisionID in
  let% _ := tx_append (mkAudit AuditKindRevalidated (d_ID d) (JObj
    [("revision_id", JStr revisionID); ("application_mode", JStr (ApplicationMode_string ModeRevaluate));
     ("disposition", JStr DispositionDenied); ("detail", JStr detail)])) in
  tx_ret (mkOutcome (d_ID d) DispositionDenied 0 []).

Definition obligationsFor (i : Input) (ev : DecideResult) : result (list Obligation) :=
  match rv_obligations r with
  | None => Ok []
  | Some f => wrapped (f i (dr_policyID ev) (dr_gates ev))
  end.

Definition with_revision (policyID : string) (version : Z) (facts obligations : json) (d : Decision) : Decision :=
  mkDecision (d_ID d) (d_CallerID d) policyID version (d_SubjectID d) (d_ResourceID d) (d_Action d) (d_Request d)
    facts obligations (d_State d) (d_CreatedAt d) (d_UpdatedAt d) (d_ExpiresAt d) (d_NextDeadline d)
    (d_NextDeadlineKind d) (d_ResolvedAt d) (d_IdempotencyKey d) (d_IdempotencyFingerprint d).

(** The last part of [revaluate]: where the challenges stand decides. *)
Definition settle (at_ : Time.t) (d : Decision) (revisionID : string) (changed : bool) : Tx string :=
  let% t := tx_read (challengeTally (d_ID d)) in
  let '(total, satisfied, failed) := t in
  if bool_decide (0 < failed) then
    let% _ := resolve_in_tx at_ d Fail_ ReasonChallengeFailed revisionID in tx_ret DispositionDenied
  else if bool_decide (total = satisfied) then
    let% _ := resolve_in_tx at_ d Satisfy ReasonChallengeSatisfied revisionID in tx_ret DispositionResolved
  else tx_ret (if changed then DispositionRebound else DispositionUnchanged).

Definition revaluate_allowed (at_ : Time.t) (req : RevalidateRequest) (now : Time.t) (d : Decision) (i : Input) (ev : DecideResult)
    (values : list (string * json)) : Tx Outcome :=
  let fetched := fetched_of (rv_renderCall r) values (dr_facts ev) in
  let names := fetchedNames fetched in
  let% facts := tx_lift (match names with [] => Ok (d_FactSnapshot d) | _ => merged (rv_renderCall r) fetched (d_FactSnapshot d) end) in
  let policyID := dr_policyID ev in
  let% version := λ db, match vq_PolicyVersion req with
                        | None => Ok (d_PolicyVersion d, db)
                        | Some f => let? v := wrapped (f policyID db) in Ok (v, db)
                        end in
  let% obligations := tx_lift (obligationsFor i ev) in
  let obligationsJSON := encodeObligations obligations in
  let% _ := rewrite_decision at_ (d_ID d) policyID version facts obligationsJSON in
  let d := with_revision policyID version facts obligationsJSON d in
  let% moved := rebindChallenges at_ d (flatten (dr_gates ev)) (vq_RevisionID req) now in
  let% disposition := settle at_ d (vq_RevisionID req) moved.1 in
  let% _ := tx_append (mkAudit AuditKindRevalidated (d_ID d) (JObj
    [("revision_id", JStr (vq_RevisionID req)); ("application_mode", JStr (ApplicationMode_string ModeRevaluate));
     ("policy_id", JStr policyID); ("policy_version", JInt version); ("disposition", JStr disposition);
     ("approvals_invalidated", JInt moved.2);
     ("sources_fetched", match names with [] => JNull | _ => JArr (map JStr names) end)])) in
  tx_ret (mkOutcome (d_ID d) disposition moved.2 names).

Definition revaluate (overflow : Z) (at_ : Time.t) (req : RevalidateRequest) (now : Time.t) (d : Decision) : Tx Outcome :=
  let schema := sn_schema (vq_Snapshot req) in
  match restoreInput overflow schema (d_Request d) with
  | Err _ => deny at_ d (vq_RevisionID req) "the frozen request could not be re-bound: "
  | Ok i =>
      let% values := tx_lift (frozen_values (d_FactSnapshot d)) in
      match (DecideEvaluator_Evaluate (vq_Snapshot req)
               (Some (frozen_resolve overflow schema (rv_renderCall r) values (vq_Resolver req))) i NewCache).1 with
      | Err _ => deny at_ d (vq_RevisionID req) "the revised policy set could not be evaluated: "
      | Ok ev => if bool_decide (dr_decision ev = Deny)
                 then deny at_ d (vq_RevisionID req)
                        ("the revised policy set no longer allows this request: " +:+ Reason_string (dr_reason ev))
                 else revaluate_allowed at_ req now d i ev values
      end
  end.

(** ** The effect hook *)

Definition consider (overflow : Z) (at_ : Time.t) (req : RevalidateRequest) (now : Time.t) (mode : ApplicationMode) (d : Decision)
    (rep : RevalidateReport) : Tx RevalidateReport :=
  if match vq_Skip req with Some skip => skip (d_PolicyID d) | None => false end then tx_ret rep
  else if bool_decide (mode = ModeGrandfather) then
    let% _ := grandfather d (vq_RevisionID req) in
    tx_ret (mkReport (rp_Mode rep) (rp_Considered rep + 1) (rp_Denied rep) (rp_Invalidated rep) (rp_Fetched rep)
              (rp_Outcomes rep ++ [mkOutcome (d_ID d) DispositionGrandfathered 0 []]))
  else
    let% out := revaluate overflow at_ req now d in
    tx_ret (mkReport (rp_Mode rep) (rp_Considered rep + 1)
              (rp_Denied rep + (if bool_decide (oc_Disposition out = DispositionDenied) then 1 else 0))
              (rp_Invalidated rep + oc_Invalidated out) (rp_Fetched rep ++ oc_Fetched out) (rp_Outcomes rep ++ [out])).

Fixpoint consider_each (overflow : Z) (at_ : Time.t) (req : RevalidateRequest) (now : Time.t) (mode : ApplicationMode)
    (ds : list Decision) (rep : RevalidateReport) : Tx RevalidateReport :=
  match ds with
  | [] => tx_ret rep
  | d :: ds =>
      let% rep := consider overflow at_ req now mode d rep in
      consider_each overflow at_ req now mode ds rep
  end.

(** [clock] is the reading of the revalidator's clock, used when the request names no
    instant. *)
Definition Apply (overflow : Z) (clock at_ : Time.t) (req : RevalidateRequest) : Tx RevalidateReport :=
  let mode := OrDefault (vq_Mode req) in
  if negb (ApplicationMode_Valid mode) then tx_fail [ErrRevalidation]
  else
    let now := if Time.IsZero (vq_Now req) then clock else vq_Now req in
    let% open := tx_read (openDecisions now) in
    let% rep := consider_each overflow at_ req now mode open (mkReport mode 0 0 0 [] []) in
    tx_ret (mkReport (rp_Mode rep) (rp_Considered rep) (rp_Denied rep) (rp_Invalidated rep)
              (sort_by id String.le (remove_dups (rp_Fetched rep))) (rp_Outcomes rep)).
End revalidator.
