(* ===== verification/ServiceSafe.v ===== *)
(** * The service under interference and failure

    Whatever the other instances do between two of its store calls, and however its
    calls fail, no entry point of the decision service breaks an invariant that the
    store's own writes keep. *)
From S2P Require Import Prelude GoLib Policy Cel Engine Json Store StoreInv World Challenge Quorum Delay Service.

Section keeps.
Context `{Digest} (I : DB → Prop) (I_step : ∀ db db', store_step db db' → I db → I db').

Lemma keeps_Append e :
  au_Kind e ≠ AuditKindDecisionCreated → au_Kind e ≠ AuditKindDecisionResolved → keeps I (Append e).
Proof. intros H1 H2. apply keeps_txn. intros now db [] db' Hdb [= <-]. eapply I_step; [|done]. by constructor. Qed.

Lemma keeps_SetChallengeState id o st det : keeps I (txn (SetChallengeState id o st det)).
Proof. apply keeps_txn. intros. eapply I_step; [|done]. by eapply step_progress. Qed.
Lemma keeps_ResolveDecision id st ob actor : keeps I (txn (ResolveDecision id st ob actor)).
Proof. apply keeps_txn. intros. eapply I_step; [|done]. by eapply step_resolve. Qed.
Lemma keeps_CreateDecision in_ : keeps I (txn (CreateDecision in_)).
Proof. apply keeps_txn. intros. eapply I_step; [|done]. by eapply step_create. Qed.
Lemma keeps_RecordApproval in_ : keeps I (txn (RecordApproval in_)).
Proof. apply keeps_txn. intros. eapply I_step; [|done]. by eapply step_approve. Qed.

#[local] Hint Resolve keeps_SetChallengeState keeps_ResolveDecision keeps_CreateDecision keeps_RecordApproval : keeps.

(** ** The modelled handlers *)

Lemma keeps_quorum_count q i : keeps I (quorum_count q i).
Proof. unfold quorum_count. keeps_tac. Qed.
#[local] Hint Resolve keeps_quorum_count : keeps.

#[export] Instance QuorumHandler_keeps q : HandlerKeeps I (QuorumHandler q).
Proof.
  split; simpl; intros; try done; simplify_eq; unfold quorum_submit, quorum_status; keeps_tac.
Qed.

#[export] Instance DelayHandler_keeps d : HandlerKeeps I (DelayHandler d).
Proof. split; simpl; intros; try done; simplify_eq; keeps_tac. Qed.

(** ** The service *)

Context (s : Service) (handlers : ∀ k h, Registry_Handler (sv_challenges s) k = Ok h → HandlerKeeps I h)
        (versions : ∀ p, keeps I (sv_policyVersion s p)).

Lemma keeps_handler {A} k (f : Handler → M A) :
  (∀ h, HandlerKeeps I h → keeps I (f h)) → keeps I (let! h := lift (Registry_Handler (sv_challenges s) k) in f h).
Proof.
  intros Hf w Hw Hr. unfold bindM, lift. destruct (Registry_Handler (sv_challenges s) k) as [h|e] eqn:Eh; [|done].
  apply Hf; [|done|done]. by eapply handlers.
Qed.

Lemma keeps_status d p now : keeps I (status s d p now).
Proof. apply keeps_handler. intros h Hh. apply keeps_bind; [apply hk_status|]. keeps_tac. Qed.

Lemma keeps_publish d p now : keeps I (publish s d p now).
Proof.
  apply keeps_handler. intros h Hh. destruct (h_View h) as [f|] eqn:E; [by eapply hk_view|]. keeps_tac.
Qed.
#[local] Hint Resolve keeps_status keeps_publish : keeps.

Lemma keeps_view_challenges d now ps : keeps I (view_challenges s d now ps).
Proof. induction ps; simpl; keeps_tac. Qed.
#[local] Hint Resolve keeps_view_challenges : keeps.

Lemma keeps_view d ps now : keeps I (view s d ps now).
Proof. unfold view. keeps_tac. Qed.

Lemma keeps_resolve d t r : keeps I (resolve d t r).
Proof. unfold resolve. keeps_tac. Qed.

Lemma keeps_readDecision id : keeps I (readDecision id).
Proof. apply keeps_query. Qed.
Lemma keeps_readProgress id : keeps I (readProgress id).
Proof. apply keeps_query. Qed.
#[local] Hint Resolve keeps_view keeps_resolve keeps_readDecision keeps_readProgress : keeps.

Lemma keeps_advance_loop d now ps t : keeps I (advance_loop s d now ps t).
Proof. revert t. induction ps; intros t; simpl; unfold advance_one; keeps_tac. Qed.
#[local] Hint Resolve keeps_advance_loop : keeps.

Lemma keeps_advance id now : keeps I (advance s id now).
Proof. unfold advance, reread. keeps_tac. Qed.
#[local] Hint Resolve keeps_advance : keeps.

Lemma keeps_target_of_any c d ps : keeps I (target_of_any s c d ps).
Proof.
  induction ps as [|p ps IH]; simpl; [keeps_tac|].
  destruct (Registry_Handler _ _) as [h|] eqn:Eh; [|done]. destruct (h_IsTarget h) as [f|] eqn:Ef; [|done].
  apply keeps_bind; [|keeps_tac]. pose proof (handlers _ _ Eh). by eapply hk_target.
Qed.
#[local] Hint Resolve keeps_target_of_any : keeps.

Lemma keeps_mayAccess c d ps : keeps I (mayAccess s c d ps).
Proof. unfold mayAccess. keeps_tac. Qed.
#[local] Hint Resolve keeps_mayAccess : keeps.

Lemma keeps_auditAccessRefusal c d op : keeps I (auditAccessRefusal c d op).
Proof. unfold auditAccessRefusal. apply keeps_bind; [apply keeps_attempt, keeps_Append; done|keeps_tac]. Qed.
Lemma keeps_refuse req r detail : keeps I (refuse req r detail).
Proof. unfold refuse. apply keeps_bind; [apply keeps_Append; done|keeps_tac]. Qed.
#[local] Hint Resolve keeps_auditAccessRefusal keeps_refuse : keeps.

Lemma keeps_Get c id now : keeps I (Get s c id now).
Proof. unfold Get. keeps_tac. Qed.

Lemma keeps_Submit sub now : keeps I (Submit s sub now).
Proof.
  unfold Submit, decisionWithProgress, mayActOn. destruct (sb_Caller sub) as [c|]; [|keeps_tac].
  apply keeps_bind; [keeps_tac|]. intros dp. apply keeps_bind; [keeps_tac|]. intros tg.
  apply keeps_bind; [keeps_tac|]. intros []; simpl; [|keeps_tac].
  apply keeps_bind; [keeps_tac|]. intros _. apply keeps_handler. intros h Hh.
  apply keeps_bind; [apply keeps_attempt, hk_submit|]. keeps_tac.
Qed.

Lemma keeps_issue_all ctx now o specs acc : keeps I (issue_all s ctx now o specs acc).
Proof.
  revert ctx o acc. induction specs as [|sp specs IH]; intros ctx o acc; simpl; [keeps_tac|].
  apply keeps_handler. intros h Hh. apply keeps_bind; [apply hk_issue|]. keeps_tac.
Qed.
#[local] Hint Resolve keeps_issue_all : keeps.

Lemma keeps_decide_create req c now ev ob v id : keeps I (decide_create s req c now ev ob v id).
Proof. unfold decide_create, refuseShed. keeps_tac. Qed.
#[local] Hint Resolve keeps_decide_create : keeps.

Lemma keeps_decide_fresh req c now : keeps I (decide_fresh s req c now).
Proof.
  assert (keeps I (decide_evaluate s req c now)) as He by (unfold decide_evaluate; keeps_tac).
  unfold decide_fresh, countOutstanding. keeps_tac.
Qed.
#[local] Hint Resolve keeps_decide_fresh : keeps.

Lemma keeps_Decide req now : keeps I (Decide s req now).
Proof. unfold Decide. keeps_tac. Qed.

Lemma keeps_Redeem id o ps now : keeps I (Redeem s id o ps now).
Proof.
  unfold Redeem, collecting, decisionWithProgress. apply keeps_bind; [keeps_tac|]. intros dt. apply keeps_handler.
  intros h Hh. destruct (h_Redeem h) as [f|] eqn:E; [by eapply hk_redeem|keeps_tac].
Qed.

Lemma keeps_SweepOnce batch now : keeps I (SweepOnce s batch now).
Proof.
  unfold SweepOnce. apply keeps_bind; [keeps_tac|]. intros ds. generalize (mkSweepReport (length ds) 0 0 0).
  induction ds as [|d ds IH]; intros r; simpl; unfold sweep_one; keeps_tac.
Qed.

End keeps.

(** ** Deployments and calls *)

(** The handlers of a deployment: quorum and delay as they are modelled, and for mfa and
    external challenges any handler that leaves the store alone, as both do. An mfa
    challenge has no deadline of its own. *)
Definition registered `{Digest} (k : ChallengeType) (h : Handler) : Prop :=
  (k = ChallengeQuorum ∧ ∃ q, h = QuorumHandler q) ∨ (k = ChallengeDelay ∧ ∃ d, h = DelayHandler d) ∨
  ((k = ChallengeMFA ∨ k = ChallengeExternal) ∧ Aloof h ∧
   (k = ChallengeMFA → ∀ r w out, (h_Issue h r w).1 = Ok out → is_Deadline out = None)).

(** Every handler is one of these, and a policy version is a read of the store. *)
Definition deployed `{Digest} (s : Service) : Prop :=
  (∀ k h, Registry_Handler (sv_challenges s) k = Ok h → registered k h) ∧
  (∀ p, ∃ f, sv_policyVersion s p = query f).

Lemma registered_keeps `{Digest} (I : DB → Prop) k h :
  (∀ db db', store_step db db' → I db → I db') → registered k h → HandlerKeeps I h.
Proof.
  intros HI [[_ [q ->]]|[[_ [d ->]]|[_ [Ha _]]]]; [by apply QuorumHandler_keeps|by apply DelayHandler_keeps|by apply Aloof_keeps].
Qed.

Inductive call :=
  | CallDecide (req : Request) (now : Time.t)
  | CallGet (c : option Subject) (id : string) (now : Time.t)
  | CallSubmit (sub : Submission) (now : Time.t)
  | CallRedeem (id : string) (o : Z) (ps : gmap string string) (now : Time.t)
  | CallSweep (batch : Z) (now : Time.t).

Definition clock_of (c : call) : Time.t :=
  match c with CallDecide _ t | CallGet _ _ t | CallSubmit _ t | CallRedeem _ _ _ t | CallSweep _ t => t end.

(** The world a call leaves; its answer goes to the caller. *)
Definition run_call `{Digest} (s : Service) (c : call) (w : World) : World :=
  match c with
  | CallDecide req now => (Decide s req now w).2
  | CallGet c id now => (Get s c id now w).2
  | CallSubmit sub now => (Submit s sub now w).2
  | CallRedeem id o ps now => (Redeem s id o ps now w).2
  | CallSweep batch now => (SweepOnce s batch now w).2
  end.

Definition run_calls `{Digest} (s : Service) (cs : list call) (w : World) : World := foldl (λ w c, run_call s c w) w cs.

(** An invariant of the store's writes, after calls among which other instances keep it. *)
Lemma run_calls_rely `{Digest} s (I : DB → Prop) cs w :
  deployed s → (∀ db db', store_step db db' → I db → I db') → I (w_db w) → rely I w →
  I (w_db (run_calls s cs w)) ∧ rely I (run_calls s cs w).
Proof.
  intros [Hh Hv] HI. assert (∀ k h, Registry_Handler (sv_challenges s) k = Ok h → HandlerKeeps I h) as Hk.
  { intros k h Eh. by eapply registered_keeps, Hh. }
  assert (∀ p, keeps I (sv_policyVersion s p)) as Hq by (intros p; destruct (Hv p) as [f ->]; apply keeps_query).
  revert w. induction cs as [|c cs IH]; intros w Hw Hr; [done|]. simpl. cut (I (w_db (run_call s c w)) ∧ rely I (run_call s c w)).
  { intros []. by apply IH. }
  destruct c; simpl; [by apply keeps_Decide|by apply keeps_Get|by apply keeps_Submit|by apply keeps_Redeem|by apply keeps_SweepOnce].
Qed.

(** What the other instances do between two transactions is store calls: decisions
    created and resolved, challenges set, approvals recorded, other audit entries. *)
Definition others_call_the_store (w : World) : Prop := Forall (λ st, ∀ db, rtc store_step db (sp_env st db)) (w_steps w).

(** C3. The decision service is safe under interference and failure.  Let other instances
    make any sequence of store calls (they create and resolve decisions, set challenges,
    record approvals and append audit entries) between any two transactions of a sequence
    of calls, and let any transaction fail, before taking effect or after.  Quorum and
    delay challenges are answered by their handlers, mfa and external ones by any handler
    that runs no store call of its own and gives an mfa challenge no deadline.  Then the tables are still well formed; the audit
    log and the approvals are only extended; every decision keeps what it was created
    with; and a decision that was resolved is unchanged and has exactly one resolution in
    the audit log, as has any that was resolved meanwhile. *)
Theorem service_safe `{Digest} s cs w :
  deployed s → others_call_the_store w → db_ok (w_db w) →
  let w' := run_calls s cs w in
  db_ok (w_db w') ∧ later (w_db w) (w_db w') ∧
  (∀ id d, db_decisions (w_db w) !! id = Some d → DecisionState_Terminal (d_State d) = true → db_decisions (w_db w') !! id = Some d) ∧
  (∀ id d, db_decisions (w_db w') !! id = Some d →
     length (resolutions id (db_audit (w_db w'))) = if DecisionState_Terminal (d_State d) then 1 else 0).
Proof.
  intros Hs Hw Hok w'. set (I := λ db, db_ok db ∧ later (w_db w) db).
  assert (∀ db db', store_step db db' → I db → I db') as HI.
  { intros db db' Hst [Ho Hl]. split; [by eapply store_step_ok|]. etrans; [done|]. by apply store_step_later. }
  destruct (run_calls_rely s I cs w Hs HI) as [[Ho Hl] _]; [by split| |].
  { eapply Forall_impl; [exact Hw|]. intros st Hst db Hi. specialize (Hst db). revert Hi. induction Hst; eauto. }
  split_and!; [done|done|by apply (later_terminal _ _ Hl)|]. intros id d Hd. pose proof (ok_resolved _ Ho id) as Hr. fold w' in Hr. by rewrite Hd in Hr.
Qed.
