(* ===== verification/ServiceInv.v ===== *)
(** * What an allowed decision rests on

    The invariant that ties a decision's state to the evidence its challenges
    collected.  Quorum and delay challenges have evidence of their own here; an mfa or
    external challenge is satisfied when its handler says so. *)
From S2P Require Import Prelude GoLib Policy Cel Engine Json Store StoreInv World Challenge Quorum Delay HandlerSpec Service ServiceSafe.

(** The approvals a quorum row collected reach the threshold it was issued with. *)
Definition quorum_met (id : string) (ordinal : Z) (detail : json) (db : DB) : Prop :=
  ∃ q, decodeQuorumDetail detail = Ok q ∧ (qd_Threshold q ≤ CountApprovals id ordinal VerdictApprove db)%Z.

(** A delay row was not cancelled and its release is not after [T]. *)
Definition delay_met (T : Time.t) (detail : json) : Prop :=
  ∃ dd, decodeDelayDetail detail = Ok dd ∧ dd_CancelledAt dd = None ∧ (dd_ReleaseAt dd ≤ T)%Z.

(** A quorum row's detail asks for at least one approval, names its approvers in
    normal form and carries the binding hash of the decision it belongs to, as the
    store holds it. *)
Definition quorum_bound `{Digest} (dec : DecisionContext) (detail : json) : Prop :=
  ∃ q, decodeQuorumDetail detail = Ok q ∧ (1 ≤ qd_Threshold q)%Z ∧ ApprovalBindingHash dec q = Ok (qd_BindingHash q) ∧
    normalizeMembers (qd_Members q) = qd_Members q.

Section invariant.
Context `{Digest}.

(** [T] bounds the clock readings of the calls that ran so far. *)
Record inv (T : Time.t) (db : DB) : Prop := {
  inv_ok : db_ok db;
  inv_canon : ∀ r, r ∈ db_progress db → canonical (cp_Detail r) = cp_Detail r;
  inv_allowed : ∀ id d r, db_decisions db !! id = Some d → d_State d = DecisionAllowed →
      r ∈ db_progress db → cp_DecisionID r = id → cp_State r = StateSatisfied;
  inv_quorum : ∀ r, r ∈ db_progress db → cp_Kind r = ChallengeQuorum → cp_State r = StateSatisfied →
      quorum_met (cp_DecisionID r) (cp_Ordinal r) (cp_Detail r) db;
  inv_votes : ∀ r q a, r ∈ db_progress db → cp_Kind r = ChallengeQuorum → decodeQuorumDetail (cp_Detail r) = Ok q →
      a ∈ db_approvals db → ap_DecisionID a = cp_DecisionID r → ap_Ordinal a = cp_Ordinal r →
      ap_BindingHash a = qd_BindingHash q ∧ (qd_Mode q = ResolveClaim ∨ ap_ApproverID a ∈ qd_Members q);
  inv_bound : ∀ r d, r ∈ db_progress db → cp_Kind r = ChallengeQuorum → db_decisions db !! cp_DecisionID r = Some d →
      quorum_bound (contextOf d) (cp_Detail r);
  inv_delay : ∀ r, r ∈ db_progress db → cp_Kind r = ChallengeDelay → cp_State r = StateSatisfied →
      delay_met T (cp_Detail r);
  inv_timeless : ∀ r, r ∈ db_progress db → cp_Kind r = ChallengeQuorum ∨ cp_Kind r = ChallengeMFA → cp_Deadline r = None }.

Lemma quorum_bound_proper dec dec' j : same_decision dec dec' → quorum_bound dec j → quorum_bound dec' j.
Proof.
  intros Hs (q & Hq & Ht & Hh & Hm). exists q. split_and!; try done. rewrite <-Hh. unfold ApprovalBindingHash.
  assert (same_approvers q q) as Hr by (by split). by rewrite (binding_material_proper _ _ Hs _ _ Hr).
Qed.

Lemma inv_empty T policies : inv T (empty_db policies).
Proof.
  split; [apply empty_db_ok|..]; simpl; intros; try set_solver.
Qed.

Lemma inv_mono T T' db : (T ≤ T')%Z → inv T db → inv T' db.
Proof.
  intros HT [H1 H2 H3 H4 H5 H7 H6 H8]. split; try done. intros r Hr Hk Hs.
  destruct (H6 r Hr Hk Hs) as (dd & ? & ? & ?). exists dd. split_and!; [done..|lia].
Qed.

(** ** Rows are identified by their keys *)

Lemma row_unique db r r' : db_ok db → r ∈ db_progress db → r' ∈ db_progress db →
  cp_DecisionID r = cp_DecisionID r' → cp_Ordinal r = cp_Ordinal r' → r = r'.
Proof.
  intros Hok [i Hi]%list_elem_of_lookup [j Hj]%list_elem_of_lookup E1 E2.
  assert (i = j) as <-; [|congruence].
  apply (NoDup_lookup _ i j (cp_DecisionID r, cp_Ordinal r) (ok_rows _ Hok)); rewrite list_lookup_fmap.
  - by rewrite Hi.
  - rewrite Hj. simpl. by rewrite E1, E2.
Qed.

Lemma elem_of_ChallengeProgressFor id db r :
  r ∈ ChallengeProgressFor id db ↔ r ∈ db_progress db ∧ cp_DecisionID r = id.
Proof. unfold ChallengeProgressFor. rewrite elem_of_sort_by, list_elem_of_filter. naive_solver. Qed.

Lemma ordinals_nodup id (l : list ChallengeProgress) :
  NoDup (map (λ r, (cp_DecisionID r, cp_Ordinal r)) l) →
  NoDup (map cp_Ordinal (filter (λ r, cp_DecisionID r = id) l)).
Proof.
  induction l as [|r l IH]; simpl; [constructor|]. intros [Hn Hd]%NoDup_cons. rewrite filter_cons.
  destruct (decide (cp_DecisionID r = id)) as [E|]; simpl; [|auto]. constructor; [|auto].
  intros (x & Ex & [Eid Hx]%list_elem_of_filter)%elem_of_map. apply Hn, elem_of_map. exists x. split; [congruence|done].
Qed.

Lemma CountApprovals_mono id o v db db' l :
  db_approvals db' = db_approvals db ++ l → (CountApprovals id o v db ≤ CountApprovals id o v db')%Z.
Proof.
  intros E. unfold CountApprovals. apply inj_le, submseteq_length, NoDup_submseteq; [apply NoDup_remove_dups|].
  intros x. unfold approvers. rewrite !elem_of_remove_dups, !elem_of_map, E, filter_app. set_solver.
Qed.

Lemma CountApprovals_same id o v db db' :
  db_approvals db' = db_approvals db → CountApprovals id o v db' = CountApprovals id o v db.
Proof. unfold CountApprovals, approvers. by intros ->. Qed.

(** ** The writes *)

Lemma inv_append T e db :
  au_Kind e ≠ AuditKindDecisionCreated → au_Kind e ≠ AuditKindDecisionResolved → inv T db → inv T (append e db).
Proof. intros H1 H2 []. split; simpl; try done. by apply append_ok. Qed.

Lemma inv_create T in_ now db d db' :
  CreateDecision in_ now db = Ok (d, db') → inv T db →
  (∀ ch, ch ∈ nd_Challenges in_ → nc_Kind ch = ChallengeQuorum → quorum_bound (contextOf d) (canonicalJSON (nc_Detail ch))) →
  (∀ ch, ch ∈ nd_Challenges in_ → nc_Kind ch = ChallengeQuorum ∨ nc_Kind ch = ChallengeMFA → nc_Deadline ch = None) →
  inv T db'.
Proof.
  intros Hc Hinv Hbound Htimeless. pose proof (CreateDecision_ok _ _ _ _ _ Hc (inv_ok _ _ Hinv)) as Hok'.
  pose proof (inv_ok _ _ Hinv) as Hok. apply CreateDecision_inv in Hc as (Ed & -> & Hid & _).
  set (rows := challenge_rows (d_ID d) (nd_Challenges in_)) in *.
  assert (∀ r, r ∈ rows → cp_DecisionID r = d_ID d ∧ cp_State r = StatePending ∧ canonical (cp_Detail r) = cp_Detail r ∧
            (cp_Kind r = ChallengeQuorum → quorum_bound (contextOf d) (cp_Detail r)) ∧
            (cp_Kind r = ChallengeQuorum ∨ cp_Kind r = ChallengeMFA → cp_Deadline r = None)) as Hnew.
  { unfold rows, challenge_rows. intros r (c & -> & Hin)%elem_of_map. simpl. split_and!; try done; [|by apply Hbound|].
    2: { intros Hk. by rewrite (Htimeless c Hin Hk). }
    destruct (nc_Detail c); simpl; [apply canonical_idemp|done]. }
  split; simpl; [done|..].
  - intros r [Hr|Hr]%elem_of_app; [by apply (inv_canon _ _ Hinv)|by apply Hnew].
  - intros id x r. rewrite lookup_insert_Some. intros [[<- <-]|[N Hx]] Hs; [by rewrite Ed in Hs|].
    intros [Hr|Hr]%elem_of_app E; [by eapply (inv_allowed _ _ Hinv)|].
    apply Hnew in Hr as [Hr _]. congruence.
  - intros r [Hr|Hr]%elem_of_app Hk Hs; [by apply (inv_quorum _ _ Hinv)|].
    apply Hnew in Hr as (_ & E & _). congruence.
  - intros r q a [Hr|Hr]%elem_of_app Hk Hq Ha E1 E2; [by eapply (inv_votes _ _ Hinv)|]. exfalso.
    apply (ok_vote_ref _ Hok) in Ha. apply existsb_true in Ha as (r' & Hr' & Hi). unfold is_row in Hi.
    apply andb_true_iff in Hi as [Hi%bool_decide_eq_true _].
    destruct (ok_row_ref _ Hok r' Hr') as [y Hy]. apply Hnew in Hr as [Hr _]. congruence.
  - intros r x [Hr|Hr]%elem_of_app Hk; rewrite lookup_insert_Some.
    + destruct (ok_row_ref _ Hok r Hr) as [y Hy]. intros [[E _]|[_ Hx]]; [congruence|by apply (inv_bound _ _ Hinv)].
    + apply Hnew in Hr as (E & _ & _ & Hb & _). intros [[_ <-]|[N _]]; [by apply Hb|congruence].
  - intros r [Hr|Hr]%elem_of_app Hk Hs; [by apply (inv_delay _ _ Hinv)|].
    apply Hnew in Hr as (_ & E & _). congruence.
  - intros r [Hr|Hr]%elem_of_app Hk; [by apply (inv_timeless _ _ Hinv)|by apply Hnew].
Qed.

Lemma inv_resolve T id s actor now db d db' :
  ResolveDecision id s None actor now db = Ok (d, db') → inv T db →
  (s = DecisionAllowed → ∀ r, r ∈ db_progress db → cp_DecisionID r = id → cp_State r = StateSatisfied) → inv T db'.
Proof.
  intros Hr Hinv Hall. pose proof (ResolveDecision_ok _ _ _ _ _ _ _ _ Hr (inv_ok _ _ Hinv)) as Hok'.
  apply ResolveDecision_inv in Hr as (_ & d0 & Hd0 & _ & -> & ->). split; simpl; try apply Hinv; [done|..].
  - intros i x r. rewrite lookup_insert_Some. intros [[<- <-]|[N Hx]] Hs; [by apply Hall|by eapply (inv_allowed _ _ Hinv)].
  - intros r x Hr Hk. rewrite lookup_insert_Some. intros [[E <-]|[N Hx]]; [|by apply (inv_bound _ _ Hinv)].
    apply (inv_bound _ _ Hinv r d0 Hr Hk). by rewrite <-E.
Qed.

Lemma inv_record T in_ now db a db' :
  RecordApproval in_ now db = Ok (a, db') → inv T db →
  (∀ r q, r ∈ db_progress db → cp_Kind r = ChallengeQuorum → decodeQuorumDetail (cp_Detail r) = Ok q →
     cp_DecisionID r = na_DecisionID in_ → cp_Ordinal r = na_Ordinal in_ →
     na_BindingHash in_ = qd_BindingHash q ∧ (qd_Mode q = ResolveClaim ∨ na_ApproverID in_ ∈ qd_Members q)) → inv T db'.
Proof.
  intros Hr Hinv Ht. pose proof (RecordApproval_ok _ _ _ _ _ Hr (inv_ok _ _ Hinv)) as Hok'.
  apply RecordApproval_inv in Hr as (Ea & -> & _). split; simpl; try apply Hinv; [done|..].
  - intros r H1 H2 H3. destruct (inv_quorum _ _ Hinv r) as (q & Hq & Hc); [done..|]. exists q. split; [done|].
    etrans; [done|]. by eapply CountApprovals_mono.
  - intros r q b H1 H2 H3 [Hb| ->%list_elem_of_singleton]%elem_of_app E1 E2; [by eapply (inv_votes _ _ Hinv)|].
    rewrite Ea in *. simpl in *. by eapply Ht.
Qed.

Lemma with_deadline_same now t d : same_decision (contextOf d) (contextOf (with_deadline now t d)).
Proof. unfold with_deadline. destruct t as [t|]; [destruct (Time.Before t _)|]; by split. Qed.

(** Rewriting one challenge row of a pending decision. *)
Lemma inv_set T id o s det now db u db' d :
  SetChallengeState id o s (Some det) now db = Ok (u, db') → inv T db →
  db_decisions db !! id = Some d → d_State d = DecisionPending →
  (∀ r, r ∈ db_progress db → cp_DecisionID r = id → cp_Ordinal r = o →
     (cp_Kind r = ChallengeQuorum → det = cp_Detail r ∧
        (s = StateSatisfied → quorum_met id o (cp_Detail r) db)) ∧
     (cp_Kind r = ChallengeDelay → s = StateSatisfied → det = cp_Detail r ∧ delay_met T (cp_Detail r))) →
  inv T db'.
Proof.
  intros Hs Hinv Hd Hp Hev. pose proof (SetChallengeState_ok _ _ _ _ _ _ _ _ Hs (inv_ok _ _ Hinv)) as Hok'.
  apply SetChallengeState_inv in Hs as (_ & _ & ->). simpl in *.
  set (f := update_rows now id o s (canonical det)) in *. set (db1 := with_progress (map f) db) in *.
  assert (db_progress (refreshNextDeadline id now db1) = map f (db_progress db)) as Ep
    by exact (proj1 (refresh_rest id now db1)).
  assert (db_approvals (refreshNextDeadline id now db1) = db_approvals db) as Ea
    by exact (proj1 (proj2 (refresh_rest id now db1))).
  assert (∀ r, r ∈ map f (db_progress db) → (r ∈ db_progress db ∧ is_row id o r = false) ∨
            ∃ r0, r0 ∈ db_progress db ∧ cp_DecisionID r0 = id ∧ cp_Ordinal r0 = o ∧ r = set_row now s (canonical det) r0) as Hcase.
  { intros r (r0 & -> & Hr0)%elem_of_map. unfold f, update_rows. destruct (is_row id o r0) eqn:Er; [|auto]. right.
    exists r0. unfold is_row in Er. apply andb_true_iff in Er as [E1%bool_decide_eq_true E2%Z.eqb_eq]. done. }
  assert (∀ r0, r0 ∈ db_progress db → cp_DecisionID r0 = id → cp_Ordinal r0 = o → det = cp_Detail r0 → canonical det = cp_Detail r0) as Hcan.
  { intros r0 H0 _ _ E. rewrite E at 1. by apply (inv_canon _ _ Hinv). }
  split; simpl; rewrite ?Ep; [done|..].
  - intros r [[Hr _]|(r0 & Hr0 & _ & _ & ->)]%Hcase; [by apply (inv_canon _ _ Hinv)|]. simpl. apply canonical_idemp.
  - intros i x r Hx Hal Hr E. rewrite refresh_lookup in Hx. apply fmap_Some in Hx as (y & Hy & ->). unfold db1 in Hy. simpl in Hy.
    assert (d_State y = DecisionAllowed) as Hya.
    { destruct (bool_decide _) in Hal; [|done]. by rewrite (proj1 (proj2 (proj2 (with_deadline_fields _ _ _)))) in Hal. }
    apply Hcase in Hr as [[Hr _]|(r0 & Hr0 & E0 & _ & ->)]; [by eapply (inv_allowed _ _ Hinv)|].
    simpl in E. exfalso. rewrite <-E, E0, Hd in Hy. simplify_eq. congruence.
  - intros r [[Hr _]|(r0 & Hr0 & E1 & E2 & ->)]%Hcase Hk Hst; unfold quorum_met; rewrite (CountApprovals_same _ _ _ db) by done.
    + by apply (inv_quorum _ _ Hinv).
    + simpl in *. destruct (Hev r0 Hr0 E1 E2) as [Hq0 _]. destruct (Hq0 Hk) as [Edet Hth].
      rewrite (Hcan r0 Hr0 E1 E2 Edet), E1, E2. by apply Hth.
  - simpl. rewrite Ea. intros r q a [[Hr _]|(r0 & Hr0 & E1 & E2 & ->)]%Hcase Hk Hq Ha A1 A2; [by eapply (inv_votes _ _ Hinv)|].
    simpl in *. destruct (Hev r0 Hr0 E1 E2) as [Hq0 _]. destruct (Hq0 Hk) as [Edet _].
    rewrite (Hcan r0 Hr0 E1 E2 Edet) in Hq. by eapply (inv_votes _ _ Hinv).
  - intros r x Hr Hk Hx. rewrite refresh_lookup in Hx. apply fmap_Some in Hx as (y & Hy & ->). unfold db1 in Hy. simpl in Hy.
    apply (quorum_bound_proper (contextOf y)); [destruct (bool_decide _); [apply with_deadline_same|done]|].
    apply Hcase in Hr as [[Hr _]|(r0 & Hr0 & E1 & E2 & ->)]; [by apply (inv_bound _ _ Hinv)|].
    simpl in *. destruct (Hev r0 Hr0 E1 E2) as [Hq0 _]. destruct (Hq0 Hk) as [Edet _].
    rewrite (Hcan r0 Hr0 E1 E2 Edet). by apply (inv_bound _ _ Hinv).
  - intros r [[Hr _]|(r0 & Hr0 & E1 & E2 & ->)]%Hcase Hk Hst; [by eapply (inv_delay _ _ Hinv)|].
    simpl in *. destruct (Hev r0 Hr0 E1 E2) as [_ Hd0]. destruct (Hd0 Hk Hst) as [Edet Hx].
    by rewrite (Hcan r0 Hr0 E1 E2 Edet).
  - intros r [[Hr _]|(r0 & Hr0 & _ & _ & ->)]%Hcase Hk; [by apply (inv_timeless _ _ Hinv)|].
    simpl in *. by apply (inv_timeless _ _ Hinv).
Qed.

End invariant.

(** ** The entry points, in a calm world *)

Section service.
Context `{Digest} (s : Service) (T : Time.t).
Context (reg : ∀ k h, Registry_Handler (sv_challenges s) k = Ok h → registered k h).
Context (versions : ∀ p, ∃ f, sv_policyVersion s p = query f).

Lemma triple_quorum_count q i (P E : DB → Prop) :
  (∀ db, P db → E db) →
  triple P (quorum_count q i) (λ n db, P db ∧ n = CountApprovals (i_DecisionID i) (i_Ordinal i) VerdictApprove db) E.
Proof.
  intros HE. unfold quorum_count. destruct (qc_Store q); simpl; [|by apply triple_throw].
  apply triple_query; [|done]. by intros db n Hp [= <-].
Qed.

Lemma triple_handler {A} k (f : Handler → M A) (P E : DB → Prop) Q :
  (∀ h, Registry_Handler (sv_challenges s) k = Ok h → triple P (f h) Q E) → (∀ db, P db → E db) →
  triple P (let! h := lift (Registry_Handler (sv_challenges s) k) in f h) Q E.
Proof.
  intros Hf HE w Hc Hp. unfold bindM, lift. destruct (Registry_Handler (sv_challenges s) k) as [h|e]; [by apply Hf|].
  split; [done|]. by apply HE.
Qed.

(** What a satisfied answer from [Status] says about a row that was not decided. *)
Definition evidence (id : string) (p : ChallengeProgress) (now : Time.t) (db : DB) : Prop :=
  (cp_Kind p = ChallengeQuorum → quorum_met id (cp_Ordinal p) (cp_Detail p) db) ∧
  (cp_Kind p = ChallengeDelay → delay_met now (cp_Detail p)).

Lemma triple_status d p now (P E : DB → Prop) :
  (∀ db, P db → E db) →
  triple P (status s d p now) (λ st db, P db ∧ (cp_Kind p = ChallengeQuorum ∨ cp_Kind p = ChallengeDelay → ss_Detail st = None) ∧ CState_Valid (ss_State st) = true ∧
    (ss_State st = StateSatisfied → CState_Terminal (cp_State p) = false → evidence (d_ID d) p now db)) E.
Proof.
  intros HE. unfold status. apply triple_handler; [|done]. intros h Eh.
  apply triple_bind with (λ st db, P db ∧ (cp_Kind p = ChallengeQuorum ∨ cp_Kind p = ChallengeDelay → ss_Detail st = None) ∧
    (ss_State st = StateSatisfied → CState_Terminal (cp_State p) = false → evidence (d_ID d) p now db)).
  - destruct (reg _ _ Eh) as [[Ek [q ->]]|[[Ek [dc ->]]|[Ek [Ha _]]]]; simpl.
    + unfold quorum_status. simpl. apply triple_bind with (λ det db, P db ∧ decodeQuorumDetail (cp_Detail p) = Ok det).
      { by apply triple_lift. }
      intros det. eapply triple_bind.
      { apply (triple_quorum_count q _ (λ db, P db ∧ decodeQuorumDetail (cp_Detail p) = Ok det)). naive_solver. }
      intros n. apply triple_ret. simpl. intros db [[Hp Hdet] ->]. split_and!; try done.
      intros Hs Ht. unfold quorum_state in Hs. rewrite Ht in Hs. split; [|by rewrite Ek].
      intros _. exists det. split; [done|].
      destruct (Z.leb_spec (qd_Threshold det) (CountApprovals (d_ID d) (cp_Ordinal p) VerdictApprove db)) as [|Hlt]; [done|].
      destruct (cp_Deadline p); [|done]. by destruct (Time.Before _ _).
    + apply triple_lift; [|done]. simpl. unfold delay_status. simpl.
      intros db st Hp (det & Hdet & [= <-])%res_bind_Ok. split_and!; try done. simpl. intros Hs Ht.
      unfold delay_state in Hs. rewrite Ht in Hs. split; [by rewrite Ek|]. intros _. exists det. split; [done|].
      destruct (dd_CancelledAt det); [done|]. split; [done|]. unfold Time.Before in Hs.
      destruct (Z.ltb_spec now (dd_ReleaseAt det)); [done|lia].
    + eapply triple_conseq; [apply (aloof_triple _ P E); [apply al_status|done]|done|].
      intros st db Hp. split; [done|]. split; [by destruct Ek as [-> | ->]; intros []|]. intros _ _. split; by destruct Ek as [-> | ->].
  - intros st. destruct (CState_Valid (ss_State st)) eqn:Ev; [|apply triple_throw; naive_solver].
    apply triple_ret. naive_solver.
Qed.

Lemma triple_view_challenges d now ps (P E : DB → Prop) :
  (∀ db, P db → E db) → triple P (view_challenges s d now ps) (λ _, P) E.
Proof.
  intros HE. induction ps as [|p ps IH]; simpl; [by apply triple_ret|].
  eapply triple_bind; [by apply (triple_status d p now P E)|]. intros st.
  apply triple_bind with (λ _, P).
  - unfold publish. apply triple_handler; [|naive_solver].
    intros h [[_ [q ->]]|[[_ [dc ->]]|[_ [Ha _]]]]%reg; simpl; [apply triple_ret; naive_solver..|].
    destruct (h_View h) as [f|] eqn:Ef; [|apply triple_ret; naive_solver].
    eapply triple_conseq; [apply (aloof_triple _ P E); [by eapply al_view|done]|naive_solver|done].
  - intros v. eapply triple_bind; [apply IH|]. intros rest. by apply triple_ret.
Qed.

(** An answer that says allowed is about a decision the store holds as allowed. *)
Definition answers (r : Result) (db : DB) : Prop :=
  inv T db ∧ (rs_State r = DecisionAllowed → ∃ d, db_decisions db !! rs_ID r = Some d ∧ d_State d = DecisionAllowed).

Lemma answers_inv r db : answers r db → inv T db.
Proof. by intros []. Qed.

Lemma triple_view d ps now (P : DB → Prop) :
  (∀ db, P db → inv T db ∧ (d_State d = DecisionAllowed → db_decisions db !! d_ID d = Some d)) →
  triple P (view s d ps now) (λ r db, answers r db ∧ rs_ID r = d_ID d) (inv T).
Proof.
  intros HE. unfold view. apply triple_bind with (λ _, P); [apply triple_lift; naive_solver|]. intros ob.
  destruct (outcome_of d (length ps)). eapply triple_bind; [apply triple_view_challenges; by intros db []%HE|].
  intros cs. apply triple_ret. intros db [Hi Hd]%HE. split; [|done]. split; simpl; [done|]. eauto.
Qed.

Lemma triple_readDecision id :
  triple (inv T) (readDecision id) (λ d db, inv T db ∧ db_decisions db !! d_ID d = Some d ∧ d_ID d = id) (inv T).
Proof.
  unfold readDecision. apply triple_query; [|done]. unfold GetDecision. intros db d Hi.
  destruct (db_decisions db !! id) as [x|] eqn:E; [|done]. intros [= ->].
  pose proof (ok_id _ (inv_ok _ _ Hi) _ _ E) as <-. done.
Qed.

Lemma triple_readProgress id (P E : DB → Prop) :
  (∀ db, P db → E db) → triple P (readProgress id) (λ ps db, P db ∧ ps = ChallengeProgressFor id db) E.
Proof. intros HE. unfold readProgress. apply triple_query; [|done]. by intros db ps Hp [= <-]. Qed.

Lemma triple_reread id now : triple (inv T) (reread s id now) (λ r db, answers r db ∧ rs_ID r = id) (inv T).
Proof.
  unfold reread. eapply triple_bind; [apply triple_readDecision|]. intros d.
  eapply triple_bind; [apply triple_readProgress; by intros db []|]. intros ps.
  eapply triple_pure; [by intros db [(_ & _ & E) _]; exact E|]. intros <-. apply triple_view. naive_solver.
Qed.

Lemma triple_resolve d t r :
  triple (λ db, inv T db ∧ (tn_to t = DecisionAllowed →
            ∀ x, x ∈ db_progress db → cp_DecisionID x = d_ID d → cp_State x = StateSatisfied))
    (resolve d t r) (λ _, inv T) (inv T).
Proof.
  unfold resolve. eapply triple_bind.
  { apply (triple_lift _ _ (λ n db, (inv T db ∧ (tn_to t = DecisionAllowed →
            ∀ x, x ∈ db_progress db → cp_DecisionID x = d_ID d → cp_State x = StateSatisfied)) ∧ n = tn_to t)); [|naive_solver].
    intros db n Hp (_ & _ & ->)%Next_Ok. done. }
  intros n. eapply triple_bind.
  { apply (triple_attempt _ _ (λ _, inv T) (inv T)). apply triple_txn; [|naive_solver].
    intros now db a db' [[Hinv Hall] ->] Hr. split; eapply inv_resolve; eauto. }
  intros [a|e]; [by apply triple_ret|]. destruct (errors_Is e ErrConflict); [by apply triple_ret|by apply triple_throw].
Qed.

(** *** The loop of [advance] *)

Record loop_inv (id : string) (done_ todo : list ChallengeProgress) (t : tally) (db : DB) : Prop := {
  li_inv : inv T db;
  li_dec : ∃ d, db_decisions db !! id = Some d ∧ d_State d = DecisionPending;
  li_todo : ∀ p, p ∈ todo → p ∈ db_progress db ∧ cp_DecisionID p = id;
  li_rows : ∀ r, r ∈ db_progress db → cp_DecisionID r = id → ∃ p, p ∈ done_ ++ todo ∧ cp_Ordinal p = cp_Ordinal r;
  li_nodup : NoDup (map cp_Ordinal (done_ ++ todo));
  li_count : ta_satisfied t + ta_failed t ≤ length done_;
  li_sat : ta_satisfied t = length done_ → ∀ r p, r ∈ db_progress db → cp_DecisionID r = id → p ∈ done_ →
             cp_Ordinal p = cp_Ordinal r → cp_State r = StateSatisfied }.

(** Moving past a row without writing it. *)
Lemma loop_skip id done_ p todo t t' db :
  loop_inv id done_ (p :: todo) t db →
  ta_satisfied t' + ta_failed t' ≤ S (length done_) →
  (ta_satisfied t' = S (length done_) → ta_satisfied t = length done_ ∧ cp_State p = StateSatisfied) →
  loop_inv id (done_ ++ [p]) todo t' db.
Proof.
  intros [L1 L2 L3 L4 L5 L6 L7] Hc Hs. split; try done.
  - intros q Hq. apply L3. set_solver.
  - by rewrite <-(assoc_L (++)).
  - by rewrite <-(assoc_L (++)).
  - rewrite length_app. simpl. lia.
  - rewrite length_app, Nat.add_comm. simpl. intros Hall r q Hr Er [Hq| ->%list_elem_of_singleton]%elem_of_app Eo.
    + destruct (Hs Hall) as [Ht _]. by eapply L7.
    + destruct (Hs Hall) as [_ Hp]. destruct (L3 p) as [Hpin Hpid]; [set_solver|].
      rewrite (row_unique _ r p (inv_ok _ _ L1) Hr Hpin); [done|congruence|done].
Qed.

(** Moving past a row that was written. *)
Lemma loop_write id done_ p todo t t' db db' next det now u :
  loop_inv id done_ (p :: todo) t db →
  SetChallengeState id (cp_Ordinal p) next (Some det) now db = Ok (u, db') → inv T db' →
  ta_satisfied t' + ta_failed t' ≤ S (length done_) →
  (ta_satisfied t' = S (length done_) → ta_satisfied t = length done_ ∧ next = StateSatisfied) →
  loop_inv id (done_ ++ [p]) todo t' db'.
Proof.
  intros [L1 (d & Hd & Hp) L3 L4 L5 L6 L7] Hset Hinv' Hc Hs.
  apply SetChallengeState_inv in Hset as (_ & _ & ->).
  set (f := update_rows now id (cp_Ordinal p) next (canonicalJSON (Some det))) in *. set (db1 := with_progress (map f) db) in *.
  assert (db_progress (refreshNextDeadline id now db1) = map f (db_progress db)) as Ep
    by exact (proj1 (refresh_rest id now db1)).
  assert (∀ r, cp_DecisionID (f r) = cp_DecisionID r ∧ cp_Ordinal (f r) = cp_Ordinal r) as Hf by (intros; apply update_rows_keys).
  split; simpl; rewrite ?Ep; try done.
  - rewrite refresh_lookup. unfold db1. simpl. rewrite Hd. simpl. eexists. split; [done|].
    destruct (bool_decide _); [|done]. by rewrite (proj1 (proj2 (proj2 (with_deadline_fields _ _ _)))).
  - intros q Hq. destruct (L3 q) as [Hqin Hqid]; [set_solver|]. split; [|done]. apply elem_of_map. exists q. split; [|done].
    unfold f, update_rows, is_row. destruct (Z.eqb_spec (cp_Ordinal q) (cp_Ordinal p)) as [E|]; [|by rewrite andb_false_r].
    exfalso. rewrite map_app, map_cons in L5. apply NoDup_app in L5 as (_ & _ & [Hn _]%NoDup_cons).
    apply Hn. rewrite <-E. apply elem_of_map. eauto.
  - intros r (r0 & -> & Hr0)%elem_of_map. destruct (Hf r0) as [-> ->]. intros Er.
    rewrite <-(assoc_L (++)). by apply L4.
  - by rewrite <-(assoc_L (++)).
  - rewrite length_app. simpl. lia.
  - rewrite length_app, Nat.add_comm. simpl. intros Hall r q (r0 & -> & Hr0)%elem_of_map.
    destruct (Hf r0) as [-> ->]. intros Er [Hq| ->%list_elem_of_singleton]%elem_of_app Eo; destruct (Hs Hall) as [Ht Hn].
    + unfold f, update_rows. destruct (is_row id (cp_Ordinal p) r0); [done|]. by eapply L7.
    + unfold f, update_rows, is_row. by rewrite bool_decide_eq_true_2, Eo, Z.eqb_refl by done.
Qed.

Lemma triple_advance_one d p now done_ todo t :
  (now ≤ T)%Z →
  triple (loop_inv (d_ID d) done_ (p :: todo) t) (advance_one s d p now t)
    (λ t', loop_inv (d_ID d) (done_ ++ [p]) todo t') (inv T).
Proof.
  intros HT. unfold advance_one. destruct (CState_Terminal (cp_State p)) eqn:Et.
  { apply triple_ret. intros db HL. pose proof (li_count _ _ _ _ _ HL).
    eapply loop_skip; [done|..]; case_bool_decide; simpl; try lia; intros; (split; [lia|done]). }
  eapply triple_bind; [apply (triple_status d p now _ (inv T)); by intros db []|]. intros st. simpl.
  set (next := if bool_decide (ss_State st = StatePending) && deadline_passed p now then StateFailed else ss_State st).
  destruct (bool_decide (next = StatePending)) eqn:En.
  { apply triple_ret. intros db [HL _]. pose proof (li_count _ _ _ _ _ HL). eapply loop_skip; [done|lia|lia]. }
  apply bool_decide_eq_false in En.
  assert (next = StateSatisfied → ss_State st = StateSatisfied) as Hn.
  { unfold next. destruct (_ && _); [done|done]. }
  eapply triple_bind.
  { apply triple_txn with (Q := λ _ db, ta_satisfied t + ta_failed t ≤ length done_ ∧
      ∀ t', ta_satisfied t' + ta_failed t' ≤ S (length done_) →
      (ta_satisfied t' = S (length done_) → ta_satisfied t = length done_ ∧ next = StateSatisfied) →
      loop_inv (d_ID d) (done_ ++ [p]) todo t' db); [|by intros db [[] _]].
    intros nw db u db' (HL & Hdet & Hv & Hev) Hset.
    assert (inv T db') as Hinv'; [|split; [|done]].
    - destruct HL as [L1 (d0 & Hd0 & Hp0) L3 _ _ _ _].
      eapply inv_set; [exact Hset|done|done|done|]. intros r Hr Er Eo. destruct (L3 p) as [Hpin Hpid]; [set_solver|].
      assert (r = p) as -> by (apply (row_unique db); [by apply inv_ok in L1|done..|congruence|done]).
      split; intros Hk; rewrite Hdet by auto.
      + split; [done|]. intros Hsat. by apply (Hev (Hn Hsat) Et).
      + intros Hsat. split; [done|]. destruct (proj2 (Hev (Hn Hsat) Et) Hk) as (dd & ? & ? & ?). exists dd. split_and!; [done..|lia].
    - split; [by apply (li_count _ _ _ _ _ HL)|]. intros t' H1 H2. by eapply loop_write. }
  intros u. apply triple_ret. intros db [Hcnt Hgo]. apply Hgo; case_bool_decide; simpl; try lia; intros; (split; [lia|done]).
Qed.

Lemma triple_advance_loop d now ps done_ t :
  (now ≤ T)%Z →
  triple (loop_inv (d_ID d) done_ ps t) (advance_loop s d now ps t) (λ t', loop_inv (d_ID d) (done_ ++ ps) [] t') (inv T).
Proof.
  intros HT. revert done_ t. induction ps as [|p ps IH]; intros done_ t; simpl.
  { apply triple_ret. intros db. by rewrite app_nil_r. }
  eapply triple_bind; [by apply triple_advance_one|]. intros t'.
  pose proof (IH (done_ ++ [p]) t') as IH'. rewrite <-(assoc_L (++)) in IH'. exact IH'.
Qed.

Lemma triple_advance_id id now :
  (now ≤ T)%Z → triple (inv T) (advance s id now) (λ r db, answers r db ∧ rs_ID r = id) (inv T).
Proof.
  intros HT. unfold advance. eapply triple_bind; [apply triple_readDecision|]. intros d.
  eapply triple_bind; [apply triple_readProgress; by intros db []|]. intros ps.
  eapply triple_pure; [by intros db [(_ & _ & E) _]; exact E|]. intros <-.
  assert (triple (λ db, (inv T db ∧ db_decisions db !! d_ID d = Some d ∧ d_ID d = d_ID d) ∧ ps = ChallengeProgressFor (d_ID d) db)
            (view s d ps now) (λ r db, answers r db ∧ rs_ID r = d_ID d) (inv T)) as Hview by (apply triple_view; naive_solver).
  case_bool_decide as Hp; simpl; [|done]. destruct (Expired d now); [done|].
  apply triple_bind with (λ t, loop_inv (d_ID d) ps [] t).
  { eapply triple_conseq; [by apply (triple_advance_loop d now ps [])| |done].
    intros db [(Hi & Hd & _) ->]. split; simpl; try done; try lia.
    - eauto.
    - intros p Hpp. by apply elem_of_ChallengeProgressFor.
    - intros r Hr Er. exists r. split; [|done]. by apply elem_of_ChallengeProgressFor.
    - unfold ChallengeProgressFor. rewrite (Permutation_map _ (sort_by_Permutation _ _ _)).
      apply ordinals_nodup, (ok_rows _ (inv_ok _ _ Hi)).
    - set_solver. }
  intros t. case_bool_decide as Hf.
  { eapply triple_bind; [|intros u; apply triple_reread]. eapply triple_conseq; [apply (triple_resolve d Fail_)| |done].
    intros db HL. split; [by apply (li_inv _ _ _ _ _ HL)|done]. }
  case_bool_decide as Hall.
  { eapply triple_bind; [|intros u; apply triple_reread]. eapply triple_conseq; [apply (triple_resolve d Satisfy)| |done].
    intros db [L1 L2 L3 L4 L5 L6 L7]. split; [done|]. intros _ r Hr Er.
    destruct (L4 r Hr Er) as (p & Hpp & Eo). rewrite app_nil_r in Hpp. by eapply L7. }
  destruct (ta_changed t).
  { eapply triple_conseq; [apply triple_reread| |done]. by intros db []. }
  apply triple_view. intros db []. split; [done|congruence].
Qed.

Lemma triple_advance id now : (now ≤ T)%Z → triple (inv T) (advance s id now) answers (inv T).
Proof. intros HT. eapply triple_conseq; [by apply triple_advance_id|done|]. by intros r db []. Qed.

(** *** Access and refusals *)

Lemma triple_target_of_any c d ps (P E : DB → Prop) :
  (∀ db, P db → E db) → triple P (target_of_any s c d ps) (λ _, P) E.
Proof.
  intros HE. induction ps as [|p ps IH]; simpl; [by apply triple_ret|].
  destruct (Registry_Handler _ _) as [h|] eqn:Eh; [|done].
  assert (∀ f r, h_IsTarget h = Some f → triple P (f r) (λ _, P) E) as Ht.
  { intros f r. destruct (reg _ _ Eh) as [[_ [q ->]]|[[_ [dc ->]]|[_ [Ha _]]]]; simpl; [intros [= <-]; by apply triple_lift..|].
    intros Ef. apply aloof_triple; [by eapply al_target|done]. }
  destruct (h_IsTarget h) as [f|]; [|done].
  apply triple_bind with (λ _, P); [by apply Ht|]. intros []; [by apply triple_ret|done].
Qed.

Lemma triple_mayAccess c d ps (P E : DB → Prop) :
  (∀ db, P db → E db) → triple P (mayAccess s c d ps) (λ _, P) E.
Proof. intros HE. unfold mayAccess. case_bool_decide; [by apply triple_ret|by apply triple_target_of_any]. Qed.

Lemma triple_mayActOn c d ps t (P E : DB → Prop) :
  (∀ db, P db → E db) → triple P (mayActOn s c d ps t) (λ _, P) E.
Proof.
  intros HE. unfold mayActOn. eapply triple_bind; [by apply triple_mayAccess|]. intros []; [by apply triple_ret|].
  destruct (Registry_Handler _ _) as [h|]; [|by apply triple_ret]. destruct (h_IsTarget h); by apply triple_ret.
Qed.

Lemma triple_Append e :
  au_Kind e ≠ AuditKindDecisionCreated → au_Kind e ≠ AuditKindDecisionResolved →
  triple (inv T) (Append e) (λ _, inv T) (inv T).
Proof.
  intros H1 H2. apply triple_txn; [|done]. intros now db a db' Hi [= _ <-]. split; by apply inv_append.
Qed.

Lemma triple_auditAccessRefusal c d op : triple (inv T) (auditAccessRefusal c d op) (λ _, inv T) (inv T).
Proof.
  unfold auditAccessRefusal. eapply triple_bind; [by eapply triple_attempt, triple_Append|].
  intros []; by apply triple_ret.
Qed.

Lemma triple_refuse req r det : triple (inv T) (refuse req r det) answers (inv T).
Proof. unfold refuse. eapply triple_bind; [by apply triple_Append|]. intros u. apply triple_ret. by split. Qed.

(** *** Submissions *)

(** A decision and one of its challenge rows, as they were read. *)
Definition holds (d : Decision) (p : ChallengeProgress) (db : DB) : Prop :=
  inv T db ∧ db_decisions db !! d_ID d = Some d ∧ p ∈ db_progress db ∧ cp_DecisionID p = d_ID d.

Lemma holds_record in_ now db a db' d p :
  RecordApproval in_ now db = Ok (a, db') → holds d p db →
  (∀ r q, r ∈ db_progress db → cp_Kind r = ChallengeQuorum → decodeQuorumDetail (cp_Detail r) = Ok q →
     cp_DecisionID r = na_DecisionID in_ → cp_Ordinal r = na_Ordinal in_ →
     na_BindingHash in_ = qd_BindingHash q ∧ (qd_Mode q = ResolveClaim ∨ na_ApproverID in_ ∈ qd_Members q)) → holds d p db'.
Proof.
  intros Hr (Hi & Hd & Hp & E) Ht. split; [by eapply inv_record|].
  apply RecordApproval_inv in Hr as (_ & -> & _). done.
Qed.

Lemma triple_quorum_submit q d p c payload now :
  cp_Kind p = ChallengeQuorum →
  triple (holds d p)
    (quorum_submit q (mkSubmitRequest (instance_of d p) (contextOf d) (cp_Detail p) (Some c) payload now))
    (λ out db, holds d p db ∧ so_Detail out = None ∧
       (so_State out = StateSatisfied → quorum_met (d_ID d) (cp_Ordinal p) (cp_Detail p) db)) (inv T).
Proof.
  intros Hk. unfold quorum_submit. destruct (qc_Store q) eqn:Es; simpl; [|apply triple_throw; by intros db []].
  apply triple_bind with (λ '(det, who, sum) db, holds d p db ∧ decodeQuorumDetail (cp_Detail p) = Ok det ∧
      who = su_ID c ∧ isTarget det (Some c) = Ok true ∧ ApprovalBindingHash (contextOf d) det = Ok sum).
  { apply triple_lift; [|by intros db []]. intros db [[det who] sum] Hh Ha.
    apply quorum_admit_inv in Ha as (Hdet & sub & [= <-] & -> & Ht & Hh' & _). done. }
  intros [[det who] sum]. set (P := λ db, holds d p db ∧ decodeQuorumDetail (cp_Detail p) = Ok det).
  eapply triple_bind with (λ _ db, P db ∧ who = su_ID c ∧ isTarget det (Some c) = Ok true ∧ ApprovalBindingHash (contextOf d) det = Ok sum).
  { apply triple_newID; [unfold P; naive_solver|by intros db [[] _]]. }
  intros id. eapply triple_bind.
  { apply (triple_attempt _ _ (λ _, P) P). apply triple_txn; [|by intros db [? _]].
    intros nw db a db' ([Hh Hdet] & -> & Ht & Hsum) Hr. assert (holds d p db') as Hh'; [|done].
    eapply holds_record; [done|done|]. simpl. intros r x Hr0 Hkr Hx E1 E2.
    destruct Hh as (Hi & Hd & Hp & E). assert (r = p) as -> by (apply (row_unique db); try done; [apply Hi|congruence]).
    rewrite Hdet in Hx. injection Hx as <-. split; [|by apply isTarget_member].
    destruct (inv_bound _ _ Hi p d Hp Hk) as (y & Hy & _ & Hb & _); [by rewrite E|]. rewrite Hdet in Hy. congruence. }
  assert (triple P (let! have := quorum_count q (instance_of d p) in
                    ret (mkSubmitResult (reached have (qd_Threshold det)) have (qd_Threshold det) None))
    (λ out db, holds d p db ∧ so_Detail out = None ∧
       (so_State out = StateSatisfied → quorum_met (d_ID d) (cp_Ordinal p) (cp_Detail p) db)) (inv T)) as Hcount.
  { eapply triple_bind; [apply (triple_quorum_count q _ P); by intros db [[] _]|]. intros n. apply triple_ret. simpl.
    intros db [[Hh Hdet] ->]. split_and!; try done. unfold reached. intros Hs. exists det. split; [done|].
    by destruct (Z.leb_spec (qd_Threshold det) (CountApprovals (d_ID d) (cp_Ordinal p) VerdictApprove db)). }
  intros [a|e]; [done|]. destruct (errors_Is e ErrConflict); [done|]. apply triple_throw. by intros db [[] _].
Qed.

Lemma holds_inv d p db : holds d p db → inv T db.
Proof. by intros []. Qed.

Lemma triple_write d p st det now :
  (now ≤ T)%Z → d_State d = DecisionPending →
  triple (λ db, holds d p db ∧
      (cp_Kind p = ChallengeQuorum → det = cp_Detail p ∧ (st = StateSatisfied → quorum_met (d_ID d) (cp_Ordinal p) (cp_Detail p) db)) ∧
      (cp_Kind p = ChallengeDelay → st ≠ StateSatisfied))
    (let! _ := txn (SetChallengeState (d_ID d) (cp_Ordinal p) st (Some det)) in advance s (d_ID d) now)
    answers (inv T).
Proof.
  intros HT Hp. apply triple_bind with (λ _, inv T); [|intros u; by apply triple_advance].
  apply triple_txn; [|by intros db [[] _]]. intros nw db u db' ((Hi & Hd & Hin & E) & Hq & Hdl) Hs.
  assert (inv T db'); [|done]. eapply inv_set; [done..|]. intros r Hr E1 E2.
  assert (r = p) as -> by (apply (row_unique db); try done; [apply Hi|congruence]). split; [done|].
  intros Hk Hsat. by destruct (Hdl Hk).
Qed.

Lemma triple_decisionWithProgress id :
  triple (inv T) (decisionWithProgress id)
    (λ dp db, inv T db ∧ db_decisions db !! d_ID dp.1 = Some dp.1 ∧
       ∀ p, p ∈ dp.2 → p ∈ db_progress db ∧ cp_DecisionID p = d_ID dp.1) (inv T).
Proof.
  unfold decisionWithProgress. eapply triple_bind; [apply triple_readDecision|]. intros d.
  eapply triple_bind; [apply triple_readProgress; by intros db []|]. intros ps.
  apply triple_ret. simpl. intros db [(Hi & Hd & _) ->]. split_and!; try done.
  intros p. by rewrite elem_of_ChallengeProgressFor.
Qed.

Lemma challengeAt_elem ps o p : challengeAt ps o = Ok p → p ∈ ps.
Proof.
  unfold challengeAt. destruct (list_find _ ps) as [[i x]|] eqn:E; [|done]. intros [= <-].
  apply list_find_Some in E as (Hi & _). by eapply list_elem_of_lookup_2.
Qed.

Lemma stillCollecting_pending d p now : stillCollecting d p now = Ok tt → d_State d = DecisionPending.
Proof.
  unfold stillCollecting. intros (_ & _ & Hr)%res_bind_Ok. by destruct (bool_decide (d_State d = DecisionPending)) eqn:E; [apply bool_decide_eq_true in E|].
Qed.

Lemma triple_submit_handler d p h c payload now :
  (now ≤ T)%Z → d_State d = DecisionPending → Registry_Handler (sv_challenges s) (cp_Kind p) = Ok h →
  triple (holds d p)
    (let! out := attempt (h_Submit h (mkSubmitRequest (instance_of d p) (contextOf d) (cp_Detail p) (Some c) payload now)) in
     match out with
     | Err e => if errors_Is e ErrNotTarget then let! _ := auditAccessRefusal c d "submit" in throw e else throw e
     | Ok out =>
         if negb (CState_Valid (so_State out)) then throw []
         else
           let detail := match so_Detail out with Some j => j | None => cp_Detail p end in
           let! _ := txn (SetChallengeState (d_ID d) (cp_Ordinal p) (so_State out) (Some detail)) in
           advance s (d_ID d) now
     end) answers (inv T).
Proof.
  intros HT Hpend Eh.
  apply triple_bind with (λ r db, match r with
    | Ok out => holds d p db ∧
        (cp_Kind p = ChallengeQuorum → so_Detail out = None ∧ (so_State out = StateSatisfied → quorum_met (d_ID d) (cp_Ordinal p) (cp_Detail p) db)) ∧
        (cp_Kind p = ChallengeDelay → so_State out ≠ StateSatisfied)
    | Err _ => inv T db end).
  { apply triple_attempt. destruct (reg _ _ Eh) as [[Ek [q ->]]|[[Ek [dc ->]]|[Ek [Ha _]]]]; simpl.
    - eapply triple_conseq; [by apply triple_quorum_submit|done|]. simpl. rewrite Ek. naive_solver.
    - apply triple_lift; [|by intros db []]. intros db out Hh Hs. split; [done|]. rewrite Ek. split; [done|]. intros _.
      unfold delay_submit in Hs. apply res_bind_Ok in Hs as (det & _ & Hs). destruct (dd_CancellableBy det); [|done].
      apply res_bind_Ok in Hs as (? & _ & (who & _ & (adm & _ & Hs)%res_bind_Ok)%res_bind_Ok).
      destruct adm; [|done]. by injection Hs as <-.
    - eapply triple_conseq; [apply (aloof_triple _ (holds d p) (inv T)); [apply al_submit|by intros db []]|done|].
      intros out db Hh. split; [done|]. by destruct Ek as [-> | ->]. }
  intros [out|e].
  - destruct (CState_Valid _); simpl; [|apply triple_throw; by intros db [[] _]].
    eapply triple_conseq; [by apply triple_write| |done]. simpl. intros db (Hh & Hq & Hd). split_and!; try done.
    intros Hk. destruct (Hq Hk) as [-> Hx]. done.
  - destruct (errors_Is e ErrNotTarget); [|by apply triple_throw].
    eapply triple_bind; [apply triple_auditAccessRefusal|]. intros u. by apply triple_throw.
Qed.

Lemma triple_Submit sub now : (now ≤ T)%Z → triple (inv T) (Submit s sub now) answers (inv T).
Proof.
  intros HT. unfold Submit. destruct (sb_Caller sub) as [c|]; [|by apply triple_throw].
  eapply triple_bind; [apply triple_decisionWithProgress|]. intros [d ps]. simpl.
  apply triple_bind with (λ t db, holds d t db).
  { apply triple_lift; [|by intros db []]. intros db t (Hi & Hd & Hps) Ht. apply challengeAt_elem in Ht.
    by destruct (Hps _ Ht). }
  intros t. eapply triple_bind; [apply triple_mayActOn; by intros db []|]. intros []; simpl.
  - apply triple_bind with (λ _ db, holds d t db ∧ d_State d = DecisionPending).
    { apply triple_lift; [|by intros db []]. intros db [] Hh Hs%stillCollecting_pending. done. }
    intros []. apply triple_handler; [|by intros db [[] _]]. intros h Eh.
    eapply triple_pure; [by intros db [_ Hp]; exact Hp|]. intros Hp.
    eapply triple_conseq; [by apply triple_submit_handler|naive_solver|done].
  - eapply triple_bind; [eapply triple_conseq; [apply triple_auditAccessRefusal|by intros db []|done]|].
    intros u. by apply triple_throw.
Qed.

Lemma triple_Get c id now : triple (inv T) (Get s c id now) answers (inv T).
Proof.
  unfold Get. destruct c as [c|]; [|by apply triple_throw]. eapply triple_bind; [apply triple_readDecision|]. intros d.
  eapply triple_bind; [apply triple_readProgress; by intros db []|]. intros ps.
  eapply triple_bind; [apply triple_mayAccess; naive_solver|]. intros [].
  { eapply triple_conseq; [apply triple_view with (P := λ db, inv T db ∧ db_decisions db !! d_ID d = Some d)|naive_solver|];
      naive_solver. }
  eapply triple_bind; [eapply triple_conseq; [apply triple_auditAccessRefusal|naive_solver|done]|].
  intros u. by apply triple_throw.
Qed.

Lemma triple_Redeem id o ps now : triple (inv T) (Redeem s id o ps now) (λ _, inv T) (inv T).
Proof.
  unfold Redeem, collecting. apply triple_bind with (λ _, inv T).
  { eapply triple_bind; [apply triple_decisionWithProgress|]. intros dp.
    apply triple_bind with (λ _, inv T); [apply triple_lift; naive_solver|]. intros t.
    apply triple_bind with (λ _, inv T); [by apply triple_lift|]. intros u. by apply triple_ret. }
  intros dt. apply triple_handler; [|done].
  intros h [[_ [q ->]]|[[_ [dc ->]]|[_ [Ha _]]]]%reg; [by apply triple_throw..|].
  destruct (h_Redeem h) as [f|] eqn:Ef; [|by apply triple_throw]. apply aloof_triple; [by eapply al_redeem|done].
Qed.

(** *** New decisions *)

(** The decision that holds a caller's idempotency key, and the request it answers. *)
Definition keyed (id c key fp : string) (db : DB) : Prop :=
  ∃ d, db_decisions db !! id = Some d ∧ d_CallerID d = c ∧ d_IdempotencyKey d = key ∧ d_IdempotencyFingerprint d = fp.

Lemma keyed_step id c key fp db db' : store_step db db' → keyed id c key fp db → keyed id c key fp db'.
Proof.
  intros Hs%store_step_later (d & Hd & E1 & E2 & E3). destruct (later_frozen _ _ Hs id d Hd) as (d' & Hd' & Hf).
  exists d'. destruct_and!. split_and!; congruence.
Qed.

Lemma handlers_keep (I : DB → Prop) : (∀ db db', store_step db db' → I db → I db') →
  ∀ k h, Registry_Handler (sv_challenges s) k = Ok h → HandlerKeeps I h.
Proof. intros HI k h Hh%reg. by eapply registered_keeps. Qed.

Lemma versions_keep (I : DB → Prop) p : keeps I (sv_policyVersion s p).
Proof. destruct (versions p) as [f ->]. apply keeps_query. Qed.

(** What [Decide] answers with: a refusal without a decision, or, under a key, the
    decision that holds the key for this very request. *)
Definition decided (req : Request) (c : Subject) (r : Result) (db : DB) : Prop :=
  answers r db ∧ (rq_IdempotencyKey req ≠ "" → rs_ID r = "" ∨
    keyed (rs_ID r) (CallerID c) (rq_IdempotencyKey req) (requestFingerprint (rq_Input req)) db).

Lemma triple_advance_keyed id c key fp now :
  (now ≤ T)%Z → triple (λ db, inv T db ∧ keyed id c key fp db) (advance s id now)
    (λ r db, answers r db ∧ rs_ID r = id ∧ keyed id c key fp db) (inv T).
Proof.
  intros HT w Hc Hp. assert (keeps (keyed id c key fp) (advance s id now)) as Hk.
  { apply keeps_advance; eauto using keyed_step, handlers_keep, versions_keep. }
  destruct (triple_keeps _ _ _ _ _ Hk (triple_advance_id id now HT) w Hc Hp) as [Hc' Hr]. split; [done|].
  destruct (advance s id now w) as [[r|e] w']; simpl in *; naive_solver.
Qed.

Lemma triple_advance_decided req c id now :
  (now ≤ T)%Z →
  triple (λ db, inv T db ∧ (rq_IdempotencyKey req ≠ "" →
            keyed id (CallerID c) (rq_IdempotencyKey req) (requestFingerprint (rq_Input req)) db))
    (advance s id now) (decided req c) (inv T).
Proof.
  intros HT. destruct (decide (rq_IdempotencyKey req = "")) as [E|Hne].
  - eapply triple_conseq; [by apply triple_advance|naive_solver|]. by intros r db Ha.
  - eapply triple_conseq; [by apply (triple_advance_keyed id (CallerID c) (rq_IdempotencyKey req))|naive_solver|].
    intros r db (Ha & <- & Hk). split; [done|]. auto.
Qed.

Lemma triple_refuse_decided req c r det : triple (inv T) (refuse req r det) (decided req c) (inv T).
Proof.
  unfold refuse. eapply triple_bind; [by apply triple_Append|]. intros u. apply triple_ret. split; [by split|]. by left.
Qed.

(** The lookup under a key. *)
Lemma triple_lookup_key c key (P : DB → Prop) :
  (∀ db, P db → inv T db) →
  triple P (query (DecisionByIdempotencyKey c key))
    (λ d db, inv T db ∧ keyed (d_ID d) c key (d_IdempotencyFingerprint d) db) (inv T).
Proof.
  intros HP. apply triple_query; [|done]. intros db d Hp%HP. unfold DecisionByIdempotencyKey. case_bool_decide; [done|].
  destruct (list_find _ _) as [[i [id x]]|] eqn:Ef; [|done]. intros [= ->]. split; [done|].
  apply list_find_Some in Ef as (Hi & [E1 E2] & _). apply list_elem_of_lookup_2, elem_of_map_to_list in Hi. simpl in *.
  exists d. split_and!; try done. by rewrite (ok_id _ (inv_ok _ _ Hp) _ _ Hi).
Qed.

Lemma sameRequest_fp d fp : sameRequest d fp = true → d_IdempotencyFingerprint d = fp.
Proof. unfold sameRequest. case_bool_decide; [done|]. by intros ?%bool_decide_eq_true. Qed.

Lemma quorum_issue_bound q req r dec :
  quorum_issue q req = Ok r → same_decision (ir_Decision req) dec → quorum_bound dec (canonicalJSON (is_Detail r)).
Proof.
  intros (spec & det & sum & _ & Hd & Hh & ->)%quorum_issue_inv Hs. simpl.
  apply quorum_resolve_inv in Hd as (Et & Hpos & _ & _ & Hm & Hn & _).
  apply (quorum_bound_proper _ _ _ Hs). eexists. split; [|split; [|split]].
  - by apply (quorum_detail_decodes (with_hash det sum)), resolved_mode.
  - simpl. rewrite Et. by apply Float64.round53_pos.
  - simpl. rewrite <-Hh. unfold ApprovalBindingHash. done.
  - done.
Qed.

(** The challenges [issue_all] opens are bound to the decision they are opened for. *)
Definition opened_bound (ctx : DecisionContext) (o : opened) : Prop :=
  match o with
  | Opened chs _ => (∀ ch dec, ch ∈ chs → nc_Kind ch = ChallengeQuorum → same_decision ctx dec →
                      quorum_bound dec (canonicalJSON (nc_Detail ch))) ∧
                    (∀ ch, ch ∈ chs → nc_Kind ch = ChallengeQuorum ∨ nc_Kind ch = ChallengeMFA → nc_Deadline ch = None)
  | Shed _ _ _ _ => True
  end.

Lemma triple_issue_all ctx now o specs acc (P E : DB → Prop) :
  (∀ db, P db → E db) → opened_bound ctx (Opened acc (dc_ExpiresAt ctx)) →
  triple P (issue_all s ctx now o specs acc) (λ r db, P db ∧ opened_bound ctx r) E.
Proof.
  intros HE. revert ctx o acc. induction specs as [|sp specs IH]; intros ctx o acc Hacc; simpl; [by apply triple_ret|].
  apply triple_handler; [|done]. intros h Eh. set (k := Challenge_ChallengeType sp) in *.
  apply triple_bind with (λ r db, P db ∧
    (k = ChallengeQuorum → ∀ dec, same_decision ctx dec → quorum_bound dec (canonicalJSON (is_Detail r))) ∧
    (k = ChallengeQuorum ∨ k = ChallengeMFA → is_Deadline r = None)).
  { destruct (reg _ _ Eh) as [[Ek [q ->]]|[[Ek [dc ->]]|[Ek [Ha Hn]]]]; [apply triple_lift; [|done]; intros db r Hp Hr..|].
    - split_and!; [done|intros _ dec Hs; by eapply quorum_issue_bound|].
      intros _. by apply quorum_issue_inv in Hr as (spec & det & sum & _ & _ & _ & ->).
    - split_and!; [done|by rewrite Ek|]. rewrite Ek. by intros [].
    - eapply triple_conseq; [apply (aloof_triple_answers _ (λ r, k = ChallengeMFA → is_Deadline r = None) P E); [apply al_issue|eauto|done]|done|].
      intros r db [Hp Hr]. split; [done|]. destruct Ek as [Ek|Ek]; rewrite Ek in *; (split; [done|]); intros [?|?]; try done. by apply Hr. }
  intros r. destruct (negb _); [apply triple_throw; naive_solver|]. destruct (_ && _); [apply triple_ret; naive_solver|].
  set (ctx' := match is_Deadline r with Some t => _ | None => ctx end).
  assert (same_decision ctx ctx') as Hsame.
  { unfold ctx'. destruct (is_Deadline r) as [t|]; [|done]. by destruct (Time.After t _). }
  eapply triple_pure; [by intros db [_ Hr]; exact Hr|]. intros [Hr Hdl]. destruct Hacc as [Hacc Hadl].
  eapply triple_conseq; [apply (IH ctx')|naive_solver|].
  - split.
    + intros ch dec [Hch| ->%list_elem_of_singleton]%elem_of_app Hk Hs; [apply (Hacc ch); [done..|by etrans]|].
      apply Hr; [done|by etrans].
    + intros ch [Hch| ->%list_elem_of_singleton]%elem_of_app Hk; [by apply Hadl|by apply Hdl].
  - intros [chs ex|] db [Hq Ho]; [|done]. destruct Ho as [Ho Ho']. split; [done|]. split; [|done]. intros ch dec Hch Hk Hs. apply Ho; [done..|].
    etrans; [|done]. by symmetry.
Qed.

Lemma triple_replay req c d now :
  (now ≤ T)%Z →
  triple (λ db, inv T db ∧ keyed (d_ID d) (CallerID c) (rq_IdempotencyKey req) (d_IdempotencyFingerprint d) db)
    (if sameRequest d (requestFingerprint (rq_Input req)) then advance s (d_ID d) now else throw [ErrIdempotencyKeyReused])
    (decided req c) (inv T).
Proof.
  intros HT. destruct (sameRequest _ _) eqn:Es; [|apply triple_throw; by intros db []].
  apply sameRequest_fp in Es. rewrite Es. eapply triple_conseq; [by apply triple_advance_decided|naive_solver|done].
Qed.

Lemma triple_decide_create req c now ev ob v id :
  (now ≤ T)%Z → triple (inv T) (decide_create s req c now ev ob v id) (decided req c) (inv T).
Proof.
  intros HT. unfold decide_create. eapply triple_bind; [apply (triple_issue_all _ _ _ _ _ (inv T)); [done|split; set_solver]|].
  intros [chs ex|o k n ra].
  - eapply triple_pure; [by intros db [_ Hb]; exact Hb|]. intros Hb.
    apply (triple_conseq _ (inv T) _ _ (decided req c)); [|by intros db []|done].
    apply triple_bind with (λ p db, inv T db ∧ requestPayload (rq_Input req) = Ok p); [by apply triple_lift|]. intros payload.
    apply triple_bind with (λ f db, (inv T db ∧ requestPayload (rq_Input req) = Ok payload) ∧ factsJSON s (dr_facts ev) = Ok f).
    { apply triple_lift; naive_solver. }
    intros factsj. eapply triple_bind.
    { apply (triple_attempt _ _ (λ d db, inv T db ∧ (rq_IdempotencyKey req ≠ "" →
            keyed (d_ID d) (CallerID c) (rq_IdempotencyKey req) (requestFingerprint (rq_Input req)) db)) (inv T)), triple_txn; [|naive_solver].
      intros nw db d db' [[Hi Hp] Hf] Hc. assert (inv T db').
      { eapply inv_create; [done..| |by apply Hb]. simpl.
        intros ch Hch Hk. apply Hb; [done..|]. rewrite Hp, Hf. apply CreateDecision_inv in Hc as (-> & _).
        split; [done|symmetry..]; [apply (canonical_idemp payload)|apply (canonical_idemp factsj)|].
        apply (canonical_idemp (encodeObligations ob)). }
      split; [|done]. split; [done|]. intros Hne. apply CreateDecision_inv in Hc as (Ed & -> & _).
      exists d. simpl. rewrite lookup_insert_eq, Ed. simpl. split_and!; try done.
      unfold fingerprintFor. by rewrite bool_decide_eq_false_2. }
    intros [d|e]; [by apply triple_advance_decided|]. destruct (_ && _); [|by apply triple_throw].
    eapply triple_bind; [by eapply triple_attempt, (triple_lookup_key _ _ (inv T))|].
    intros [w|e']; [by apply triple_replay|by apply triple_throw].
  - unfold refuseShed. eapply triple_bind; [eapply triple_conseq; [apply (triple_refuse_decided req c)|by intros db []|done]|].
    intros out. by apply triple_ret.
Qed.

Lemma triple_decide_fresh req c now :
  (now ≤ T)%Z → triple (inv T) (decide_fresh s req c now) (decided req c) (inv T).
Proof.
  intros HT. assert (triple (inv T) (decide_evaluate s req c now) (decided req c) (inv T)) as He.
  { unfold decide_evaluate. apply triple_bind with (λ _, inv T); [by apply triple_lift|]. intros ev.
    case_bool_decide; [apply triple_refuse_decided|]. apply triple_bind with (λ _, inv T); [by apply triple_lift|]. intros ob.
    apply triple_bind with (λ _, inv T); [destruct (versions (dr_policyID ev)) as [f ->]; by apply triple_query|].
    intros v. apply triple_bind with (λ _, inv T); [by apply triple_newID|]. intros id. by apply triple_decide_create. }
  unfold decide_fresh, countOutstanding. destruct (_ <? _)%Z; [|done].
  apply triple_bind with (λ _, inv T); [by apply triple_query|]. intros n.
  destruct (_ <=? _)%Z; [apply triple_refuse_decided|done].
Qed.

Lemma triple_Decide_decided req c now :
  rq_Caller req = Some c → (now ≤ T)%Z → triple (inv T) (Decide s req now) (decided req c) (inv T).
Proof.
  intros Ec HT. unfold Decide. rewrite Ec. case_bool_decide; [by apply triple_decide_fresh|].
  eapply triple_bind; [by eapply triple_attempt, (triple_lookup_key _ _ (inv T))|].
  intros [d|e]; [by apply triple_replay|].
  destruct (errors_Is _ _); [by apply triple_decide_fresh|by apply triple_throw].
Qed.

Lemma triple_Decide req now : (now ≤ T)%Z → triple (inv T) (Decide s req now) answers (inv T).
Proof.
  intros HT. destruct (rq_Caller req) as [c|] eqn:Ec.
  - eapply triple_conseq; [by apply (triple_Decide_decided req c)|done|]. by intros r db [].
  - unfold Decide. rewrite Ec. by apply triple_throw.
Qed.

(** *** The sweeper *)

Lemma triple_sweep_one now d r : (now ≤ T)%Z → triple (inv T) (sweep_one s now d r) (λ _, inv T) (inv T).
Proof.
  intros HT. unfold sweep_one. destruct (Expired d now).
  - eapply triple_bind; [apply (triple_attempt _ _ (λ _, inv T) (inv T))|].
    { eapply triple_conseq; [apply (triple_resolve d Expire)|by intros db Hi; split|done]. }
    intros [[]|e]; [by apply triple_ret..|]. destruct (errors_Is _ _); [by apply triple_ret|by apply triple_throw].
  - eapply triple_bind; [by apply (triple_attempt _ _ answers (inv T)), triple_advance|].
    intros [x|e]; [apply triple_ret, answers_inv|]. destruct (errors_Is _ _); [by apply triple_ret|by apply triple_throw].
Qed.

Lemma triple_SweepOnce batch now : (now ≤ T)%Z → triple (inv T) (SweepOnce s batch now) (λ _, inv T) (inv T).
Proof.
  intros HT. unfold SweepOnce. apply triple_bind with (λ _, inv T).
  { intros w Hc Hi. unfold claim. by apply (triple_query (inv T) (ClaimDue now batch _) (λ _, inv T) (inv T)). }
  intros ds. generalize (mkSweepReport (length ds) 0 0 0). induction ds as [|d ds IH]; intros r; simpl; [by apply triple_ret|].
  eapply triple_bind; [by apply triple_sweep_one|]. intros r'. apply IH.
Qed.

(** ** Any sequence of calls *)

Lemma triple_inv_world {A} (m : M A) (Q : A → DB → Prop) w :
  triple (inv T) m Q (inv T) → (∀ a db, Q a db → inv T db) → calm w → inv T (w_db w) → calm (m w).2 ∧ inv T (w_db (m w).2).
Proof.
  intros Hm HQ Hc Hi. destruct (Hm w Hc Hi) as [Hc' Hr]. split; [done|].
  destruct (m w) as [[a|e] w']; simpl in *; [by eapply HQ|done].
Qed.

Lemma run_call_inv c w :
  (clock_of c ≤ T)%Z → calm w → inv T (w_db w) → calm (run_call s c w) ∧ inv T (w_db (run_call s c w)).
Proof.
  intros HT Hc Hi. destruct c; simpl in *; eapply triple_inv_world;
    eauto using triple_Decide, triple_Get, triple_Submit, triple_Redeem, triple_SweepOnce, answers_inv.
Qed.

Lemma run_calls_inv cs w :
  (∀ c, c ∈ cs → (clock_of c ≤ T)%Z) → calm w → inv T (w_db w) → calm (run_calls s cs w) ∧ inv T (w_db (run_calls s cs w)).
Proof.
  revert w. induction cs as [|c cs IH]; intros w HT Hc Hi; [done|].
  destruct (run_call_inv c w) as [Hc' Hi']; [apply HT; set_solver|done..|].
  apply IH; [|done|done]. intros c' Hc''. apply HT. set_solver.
Qed.

(** *** A key is answered once *)

Lemma lookup_keyed id c key fp db :
  db_ok db → key ≠ "" → keyed id c key fp db →
  ∃ d, DecisionByIdempotencyKey c key db = Ok d ∧ d_ID d = id ∧ d_IdempotencyFingerprint d = fp.
Proof.
  intros Hok Hne (d & Hd & E1 & E2 & E3). unfold DecisionByIdempotencyKey. rewrite bool_decide_eq_false_2 by done.
  destruct (list_find _ _) as [[i [id' x]]|] eqn:Ef.
  - apply list_find_Some in Ef as (Hi & [F1 F2] & _). apply list_elem_of_lookup_2, elem_of_map_to_list in Hi. simpl in *.
    assert (id' = id) as -> by (eapply (ok_keys _ Hok); [done..|congruence|congruence|congruence]).
    rewrite Hd in Hi. injection Hi as ->. exists x. split_and!; try done. by apply (ok_id _ Hok).
  - apply list_find_None in Ef. rewrite Forall_forall in Ef. destruct (Ef (id, d)); [by apply elem_of_map_to_list|done].
Qed.

Lemma Decide_replays id fp req c now w r :
  (now ≤ T)%Z → calm w → inv T (w_db w) → rq_Caller req = Some c → rq_IdempotencyKey req ≠ "" →
  keyed id (CallerID c) (rq_IdempotencyKey req) fp (w_db w) →
  (Decide s req now w).1 = Ok r → rs_ID r = id ∧ fp = requestFingerprint (rq_Input req).
Proof.
  intros HT Hc Hi Ec Hne Hk. unfold Decide. rewrite Ec, bool_decide_eq_false_2 by done. unfold bindM, attempt.
  destruct (lookup_keyed _ _ _ _ _ (inv_ok _ _ Hi) Hne Hk) as (d & Hd & Eid & Efp).
  destruct (query_calm (DecisionByIdempotencyKey (CallerID c) (rq_IdempotencyKey req)) w Hc) as (Hc' & Ew & Hq).
  destruct (query _ w) as [q w'] eqn:Eq. simpl in *. rewrite Hd in Hq. destruct Hq as [->| ->]; [|done].
  destruct (sameRequest d _) eqn:Es; [|done]. apply sameRequest_fp in Es.
  destruct (triple_advance_id (d_ID d) now HT w' Hc') as [_ Hr]; [by rewrite Ew|]. rewrite Eid in *. intros E.
  rewrite E in Hr. destruct Hr as [_ ->]. split; congruence.
Qed.

Lemma run_calls_keeps (I : DB → Prop) cs w :
  (∀ db db', store_step db db' → I db → I db') → (∀ c, c ∈ cs → (clock_of c ≤ T)%Z) → calm w → inv T (w_db w) →
  I (w_db w) → I (w_db (run_calls s cs w)).
Proof.
  intros HI. revert w. induction cs as [|c cs IH]; intros w HT Hc Hi Hw; [done|].
  destruct (run_call_inv c w) as [Hc' Hi']; [apply HT; set_solver|done..|].
  apply IH; [intros c' Hc''; apply HT; set_solver|done|done|].
  destruct c; simpl; [eapply keeps_Decide|eapply keeps_Get|eapply keeps_Submit|eapply keeps_Redeem|eapply keeps_SweepOnce];
    eauto using handlers_keep, versions_keep, calm_rely.
Qed.
End service.
