(* ===== verification/ServiceSpec.v ===== *)
(** * What an allowed answer means, end to end

    The properties of the decision service over whole runs, a concrete deployment
    that runs them, and the witnesses that apply the store's, the handlers' and the
    service's theorems to it. *)
From S2P Require Import Prelude GoLib Policy Cel Engine Delta Weakening Json Store StoreInv World AuditChain CheckpointSpec.
From S2P Require Import Challenge Quorum Delay HandlerSpec External ExternalSpec Mfa MfaSpec Service ServiceSafe ServiceInv.

(** ** A deployment *)

(** A digest of the right length; nothing below depends on what it computes. *)
Definition toy_hex : string := "0000000000000000000000000000000000000000000000000000000000000000".
Definition toy_digest : Digest := Build_Digest (λ _, toy_hex) (λ _, eq_refl) (λ _ _, toy_hex) (λ _ _, eq_refl).

Module Demo.
#[local] Existing Instance toy_digest.

Definition quorum : Quorum := mkQuorum 2%Z (mkApproverSet ["alice"; " bob "; "alice"] "" None).
Definition hold : Delay := mkDelay 5000%Z (Some (mkApproverSet ["carol"] "" None)).
Definition gate : Policy :=
  mkPolicy "transfer" "" "user" "account" "" ["send"] (Logic LogicAll []) [CQuorum quorum; CDelay hold].
Definition input : Input := mkInput "send" (mkEntity "user" "dave" ∅) (mkEntity "account" "a1" ∅) no_entity.

Definition qcfg : QuorumConfig := mkQuorumConfig true None "idp".
Definition dcfg : DelayConfig := NewDelay None "idp".

(** The handlers of MfaSpec.v and ExternalSpec.v, in their first state. *)
Definition mfa : Handler :=
  @MfaHandler _ (λ r, (@mfa_issue CheckpointSpec.toy_env _ 0 (Ok "c0") r MfaDemo.handler).1) MfaDemo.handler.
Definition external : Handler :=
  @ExternalHandler ExternalDemo.toy_external
    (λ r, (@external_issue ExternalDemo.toy_external 0 (Ok ExternalDemo.random) (PostStatus 202) r ExternalDemo.handler).1.1) ExternalDemo.handler.
Definition handlers : list Handler := [QuorumHandler qcfg; DelayHandler dcfg; mfa; external].
Definition registry : Registry := match NewRegistry handlers with Ok r => r | Err _ => [] end.

Definition service : Service := New (mkService
  (λ _, Ok (decideChallenge [Some gate] [])) registry None (λ _, query (λ _, Ok 1%Z)) (λ _, "") 0%Z 0%Z).

Definition app : Subject := mkSubject SubjectWorkload "idp" "app" "" [] Time.zero "" [] None.
Definition user (name : string) : Subject := mkSubject SubjectUser "idp" name "" [] Time.zero "" [] None.
Definition request : Request := mkRequest (Some app) input 0%Z "".
Definition approve (name : string) : Submission := mkSubmission (Some (user name)) "id1" 0%Z None.

Definition t0 : Time.t := 1000000%Z.
Definition world : World := mkWorld (empty_db [("transfer", 1%Z)]) [] ["id1"; "v1"; "v2"; "v3"; "v4"].

(** The second approval repeats the first; the last call runs after the release. *)
Definition calls : list call :=
  [CallDecide request t0; CallSubmit (approve "alice") t0; CallSubmit (approve "alice") t0;
   CallSubmit (approve "bob") t0; CallSubmit (approve "mallory") t0; CallSweep 10%Z (t0 + 6000)%Z].

Example allowed_in_the_end :
  map (λ p, (d_ID p.2, d_State p.2)) (map_to_list (db_decisions (w_db (run_calls service calls world)))) =
  [("id1", DecisionAllowed)].
Proof. vm_compute. reflexivity. Qed.
End Demo.

(** ** What an allow rests on *)

(** The evidence behind one satisfied challenge row of decision [d]. *)
Record backed `{Digest} (T : Time.t) (db : DB) (d : Decision) (r : ChallengeProgress) : Prop := {
  bk_satisfied : cp_State r = StateSatisfied;
  bk_quorum : cp_Kind r = ChallengeQuorum → ∃ q, decodeQuorumDetail (cp_Detail r) = Ok q ∧
      let votes := approvers (d_ID d) (cp_Ordinal r) VerdictApprove db in
      (1 ≤ qd_Threshold q ≤ Z.of_nat (length votes))%Z ∧ NoDup votes ∧
      ApprovalBindingHash (contextOf d) q = Ok (qd_BindingHash q) ∧
      ∀ who, who ∈ votes → ∃ a, a ∈ db_approvals db ∧ ap_ApproverID a = who ∧ ap_DecisionID a = d_ID d ∧
        ap_Verdict a = VerdictApprove ∧ ap_BindingHash a = qd_BindingHash q ∧
        (qd_Mode q = ResolveClaim ∨ who ∈ qd_Members q);
  bk_delay : cp_Kind r = ChallengeDelay → delay_met T (cp_Detail r) }.

Definition all_backed `{Digest} (T : Time.t) (db : DB) (id : string) : Prop :=
  ∃ d, db_decisions db !! id = Some d ∧ d_State d = DecisionAllowed ∧
    ∀ r, r ∈ ChallengeProgressFor id db → backed T db d r.

Lemma inv_all_backed `{Digest} T db id d :
  inv T db → db_decisions db !! id = Some d → d_State d = DecisionAllowed → all_backed T db id.
Proof.
  intros Hi Hd Hs. exists d. split_and!; [done..|]. intros r [Hr E]%elem_of_ChallengeProgressFor.
  pose proof (ok_id _ (inv_ok _ _ Hi) _ _ Hd) as Eid.
  pose proof (inv_allowed _ _ Hi id d r Hd Hs Hr E) as Hsat. split; [done| |intros Hk; by apply (inv_delay _ _ Hi)].
  intros Hk. destruct (inv_quorum _ _ Hi r Hr Hk Hsat) as (q & Hq & Hth).
  destruct (inv_bound _ _ Hi r d Hr Hk) as (q' & Hq' & H1 & Hh & _); [by rewrite E|]. rewrite Hq in Hq'. injection Hq' as <-.
  exists q. split; [done|]. unfold CountApprovals in Hth. rewrite E, <-Eid in Hth. split_and!; try done.
  - apply NoDup_remove_dups.
  - intros who (a & Ha & <- & E1 & E2 & E3)%elem_of_approvers. exists a.
    destruct (inv_votes _ _ Hi r q a Hr Hk Hq Ha) as [Hb Hm]; [congruence|done|]. split_and!; try done.
Qed.

(** The decision a call answers with, if it answers with one. *)
Definition answer_of `{Digest} (s : Service) (c : call) (w : World) : option Result :=
  let ok r := match r with Ok r => Some r | Err _ => None end in
  match c with
  | CallDecide req now => ok (Decide s req now w).1
  | CallGet c id now => ok (Get s c id now w).1
  | CallSubmit sub now => ok (Submit s sub now w).1
  | CallRedeem _ _ _ _ | CallSweep _ _ => None
  end.

Lemma answer_of_answers `{Digest} s T c w r :
  deployed s → (clock_of c ≤ T)%Z → calm w → inv T (w_db w) → answer_of s c w = Some r →
  answers T r (w_db (run_call s c w)).
Proof.
  intros [reg ver] HT Hc Hi. assert (∀ m : M Result, triple (inv T) m (answers T) (inv T) →
    match (m w).1 with Ok r => Some r | Err _ => None end = Some r → answers T r (w_db (m w).2)) as Hm.
  { intros m Ht. destruct (Ht w Hc Hi) as [_ Hr]. destruct (m w) as [[x|] w']; simpl in *; [|done]. by intros [= <-]. }
  destruct c; simpl in *; try done; apply Hm; eauto using triple_Decide, triple_Get, triple_Submit.
Qed.

(** C1. An allow rests on evidence.  Start from an empty store and let any sequence of
    calls run, one after another, with any of their store operations failing before or
    after taking effect, and no other instance writing in between (two that race can lose
    a cancellation: [cancellation_lost_in_a_race]).  Quorum and delay challenges are
    answered by their handlers, mfa and external ones by any handler that runs no store
    call of its own and, as the modelled one, gives an mfa challenge no deadline.  Let one
    more call, of any kind, answer that a decision is allowed.
    Then the store holds that decision as allowed, every challenge the policy put on it is
    satisfied (an mfa or external one on its handler's word), every quorum among them has
    at least the threshold it was issued with of distinct approvers, each an approval
    recorded against this decision over the binding hash of the material the store holds
    for it and each from the set frozen at issue unless the set is a claim, and every
    delay was neither cancelled nor let go before its release, by the clock readings [T]
    bounds. *)
Theorem allowed_answer_rests_on_evidence `{Digest} s T policies w cs c r :
  deployed s → calm w → w_db w = empty_db policies →
  (∀ c', c' ∈ cs ++ [c] → (clock_of c' ≤ T)%Z) →
  answer_of s c (run_calls s cs w) = Some r → rs_State r = DecisionAllowed →
  all_backed T (w_db (run_calls s (cs ++ [c]) w)) (rs_ID r).
Proof.
  intros Hdep Hc Hw HT Ha Hs. pose proof Hdep as [reg ver].
  destruct (run_calls_inv s T reg ver cs w) as [Hc' Hi']; [intros c' Hc'; apply HT; set_solver|done|rewrite Hw; apply inv_empty|].
  destruct (answer_of_answers s T c (run_calls s cs w) r Hdep) as [Hi (d & Hd & Hst)]; try done; [apply HT; set_solver|].
  unfold run_calls in *. rewrite foldl_app. simpl. by eapply inv_all_backed.
Qed.

Lemma demo_deployed : @deployed toy_digest Demo.service.
Proof.
  split; [|intros p; by eexists].
  intros k h. unfold Registry_Handler, Registry_lookup. simpl.
  destruct (decide (ChallengeQuorum = k)) as [<-|]; [intros [= <-]; left; eauto|].
  destruct (decide (ChallengeDelay = k)) as [<-|]; simpl; [intros [= <-]; right; left; eauto|].
  destruct (decide (ChallengeMFA = k)) as [<-|]; simpl.
  { intros [= <-]. right. right. split; [by left|]. split; [apply MfaHandler_aloof|]. intros _ r w out. apply mfa_issue_timeless. }
  destruct (decide (ChallengeExternal = k)) as [<-|]; simpl; [|done].
  intros [= <-]. right. right. split; [by right|]. split; [apply ExternalHandler_aloof|done].
Qed.

(** The sweep resolves the demo's decision; reading it afterwards answers allowed. *)
Definition demo_read : call := CallGet (Some Demo.app) "id1" (Demo.t0 + 7000)%Z.
Definition demo_horizon : Time.t := (Demo.t0 + 7000)%Z.

Lemma demo_clock c : c ∈ Demo.calls ++ [demo_read] → (clock_of c ≤ demo_horizon)%Z.
Proof.
  intros Hc. apply (Forall_forall (λ c, clock_of c ≤ demo_horizon)%Z (Demo.calls ++ [demo_read])); [|done].
  unfold demo_horizon. repeat constructor; simpl; lia.
Qed.

Definition demo_result : Result := Eval vm_compute in
  match @answer_of toy_digest Demo.service demo_read (@run_calls toy_digest Demo.service Demo.calls Demo.world) with
  | Some r => r
  | None => mkResult "" DecisionDenied Deny ReasonNone "" 0 [] [] Time.zero Time.zero None 0%Z
  end.

Lemma demo_answers :
  @answer_of toy_digest Demo.service demo_read (@run_calls toy_digest Demo.service Demo.calls Demo.world) = Some demo_result.
Proof. vm_compute. reflexivity. Qed.

Lemma demo_allowed : rs_State demo_result = DecisionAllowed.
Proof. reflexivity. Qed.

Lemma demo_calm : calm Demo.world.
Proof. constructor. Qed.

Lemma allowed_answer_rests_on_evidence_witness :
  rs_State demo_result = DecisionAllowed ∧
  @all_backed toy_digest demo_horizon (w_db (@run_calls toy_digest Demo.service (Demo.calls ++ [demo_read]) Demo.world))
    (rs_ID demo_result).
Proof.
  split; [exact demo_allowed|].
  exact (@allowed_answer_rests_on_evidence toy_digest Demo.service demo_horizon [("transfer", 1%Z)] Demo.world
    Demo.calls demo_read demo_result demo_deployed demo_calm eq_refl demo_clock demo_answers demo_allowed).
Defined.

(** ** Idempotency *)

(** *** What a fingerprint tells apart *)

(** Objects that agree once their keys are sorted agree member by member. *)
Lemma sort_keys_fields fs fs' :
  NoDup (map fst fs) → NoDup (map fst fs') → sort_keys (JObj fs) = sort_keys (JObj fs') →
  ∀ k, sort_keys <$> field k fs = sort_keys <$> field k fs'.
Proof.
  intros Hn Hn' [= E] k.
  assert (map (λ kv, (kv.1, sort_keys kv.2)) fs ≡ₚ map (λ kv, (kv.1, sort_keys kv.2)) fs') as Hp.
  { etrans; [symmetry; apply (sort_by_Permutation fst String.le)|]. unfold sort_fields in E. rewrite E. apply sort_by_Permutation. }
  assert (∀ gs hs, NoDup (map fst gs) → NoDup (map fst hs) →
    map (λ kv, (kv.1, sort_keys kv.2)) gs ≡ₚ map (λ kv, (kv.1, sort_keys kv.2)) hs →
    ∀ j, sort_keys <$> field k gs = Some j → sort_keys <$> field k hs = Some j) as Hsub.
  { intros gs hs Hg Hh Hgh j (x & Hx%(field_elem _ _ _ Hg) & ->)%fmap_Some.
    assert ((k, sort_keys x) ∈ map (λ kv, (kv.1, sort_keys kv.2)) hs) as Hin.
    { rewrite <-Hgh. apply elem_of_map. by exists (k, x). }
    apply elem_of_map in Hin as ((k', y) & [= <- Ey] & Hy).
    apply (field_elem _ _ _ Hh) in Hy. by rewrite Hy, Ey. }
  apply option_eq. intros j. split; by apply Hsub.
Qed.

(** An attribute encodes without objects, which sorting would touch. *)
Lemma sort_keys_value v j : marshal_value v = Ok j → sort_keys j = j.
Proof.
  revert v j. fix sort_keys_value 1. intros v j. destruct v as [| | | | | | | | |l|]; simpl; try by intros [= <-].
  1,2: unfold float_json; repeat case_match; try done; by intros [= <-].
  intros (js & Hl & [= <-])%res_bind_Ok. simpl. f_equal.
  revert js Hl. induction l as [|v l IH]; simpl; intros js Hl.
  { by injection Hl as <-. }
  apply res_bind_Ok in Hl as (x & Hx & (xs & Hxs & [= <-])%res_bind_Ok). simpl. f_equal; [by apply (sort_keys_value v)|by apply IH].
Qed.

(** Two entities with one type, one identifier and attributes that encode alike. *)
Definition same_entity (e e' : Entity) : Prop :=
  en_Type e = en_Type e' ∧ en_ID e = en_ID e' ∧
  ∀ k, (marshal_value <$> en_Attributes e !! k) = (marshal_value <$> en_Attributes e' !! k).

Definition same_request (i i' : Input) : Prop :=
  in_Action i = in_Action i' ∧ same_entity (in_Subject i) (in_Subject i') ∧ same_entity (in_Resource i) (in_Resource i') ∧
  same_entity (in_Context i) (in_Context i').

Definition encoded_attrs (m : gmap string value) (attrs : list (string * json)) : Prop :=
  NoDup (map fst attrs) ∧ ∀ k, (marshal_value <$> m !! k) = (Ok <$> field k attrs).

Lemma entity_payload_inv e j :
  entity_payload e = Ok j → ∃ attrs, encoded_attrs (en_Attributes e) attrs ∧ (∀ k x, (k, x) ∈ attrs → sort_keys x = x) ∧
    j = JObj ([("type", JStr (en_Type e)); ("id", JStr (en_ID e))] ++ match attrs with [] => [] | _ => [("attributes", JObj attrs)] end).
Proof.
  unfold entity_payload. intros (attrs & Ha & [= <-])%res_bind_Ok. apply res_map_Ok in Ha. exists attrs.
  assert (map fst attrs = map fst (map_to_list (en_Attributes e))) as Ek.
  { induction Ha as [|[k v] [k' x] kvs xs Hx _ IH]; [done|]. apply res_bind_Ok in Hx as (y & _ & [= <- <-]). simpl. by rewrite IH. }
  assert (NoDup (map fst attrs)) as Hn by (rewrite Ek; apply NoDup_fst_map_to_list).
  assert (∀ k x, (k, x) ∈ attrs → ∃ v, en_Attributes e !! k = Some v ∧ marshal_value v = Ok x) as Hin.
  { intros k x Hx. apply list_elem_of_lookup in Hx as [n Hx]. destruct (Forall2_lookup_r _ _ _ _ _ Ha Hx) as ([k' v] & Hv & Hm).
    apply res_bind_Ok in Hm as (y & Hy & [= <- <-]). exists v. split; [|done].
    apply elem_of_map_to_list. by eapply list_elem_of_lookup_2. }
  split_and!; [split; [done|]| |done].
  - intros k. destruct (field k attrs) as [x|] eqn:Ef.
    + apply (field_elem _ _ _ Hn) in Ef. destruct (Hin k x Ef) as (v & -> & Hv). simpl. by rewrite Hv.
    + destruct (en_Attributes e !! k) as [v|] eqn:Ev; [|done]. exfalso.
      assert (k ∈ map fst attrs) as ([k' x] & -> & Hx)%elem_of_map.
      { rewrite Ek. apply elem_of_map. exists (k, v). split; [done|]. by apply elem_of_map_to_list. }
      apply (field_elem _ _ _ Hn) in Hx. simpl in *. congruence.
  - intros k x (v & _ & Hv)%Hin. by eapply sort_keys_value.
Qed.

Lemma same_entity_payload e e' j j' :
  entity_payload e = Ok j → entity_payload e' = Ok j' → sort_keys j = sort_keys j' → same_entity e e'.
Proof.
  intros (attrs & [Hn Ha] & Hs & ->)%entity_payload_inv (attrs' & [Hn' Ha'] & Hs' & ->)%entity_payload_inv E.
  assert (∀ t i (l : list (string * json)), NoDup (map fst ([("type", t); ("id", i)] ++ match l with [] => [] | _ => [("attributes", JObj l)] end))) as Hnd.
  { intros t i [|]; simpl; apply (bool_decide_unpack _); vm_compute; exact I. }
  pose proof (sort_keys_fields _ _ (Hnd _ _ _) (Hnd _ _ _) E) as Hf.
  split_and!; [by specialize (Hf "type"); injection Hf|by specialize (Hf "id"); injection Hf|].
  specialize (Hf "attributes"). intros k. rewrite Ha, Ha'. f_equal.
  assert (∀ t i (l : list (string * json)), field "attributes" ([("type", t); ("id", i)] ++ match l with [] => [] | _ => [("attributes", JObj l)] end) =
    match l with [] => None | _ => Some (JObj l) end) as Hat by (by intros t i [|]).
  rewrite !Hat in Hf. destruct attrs as [|a attrs], attrs' as [|a' attrs']; try done.
  assert (sort_keys (JObj (a :: attrs)) = sort_keys (JObj (a' :: attrs'))) as Ej by (injection Hf as Hf; simpl; by rewrite Hf).
  pose proof (sort_keys_fields _ _ Hn Hn' Ej k) as Hk.
  destruct (field k (a :: attrs)) as [x|] eqn:Ex, (field k (a' :: attrs')) as [x'|] eqn:Ex'; try done. simpl in Hk.
  apply (field_elem _ _ _ Hn) in Ex. apply (field_elem _ _ _ Hn') in Ex'.
  rewrite (Hs _ _ Ex), (Hs' _ _ Ex') in Hk. by injection Hk as ->.
Qed.

(** The document a request is fingerprinted by. *)
Definition request_document (i : Input) : json := sort_keys (mustJSON (requestPayload i)).

Lemma request_document_inj i i' :
  is_ok (requestPayload i) = true → request_document i = request_document i' → same_request i i'.
Proof.
  unfold request_document. destruct (requestPayload i) as [j|] eqn:Ej; [|done]. intros _. unfold requestPayload in Ej.
  apply res_bind_Ok in Ej as (s & Hs & (r & Hr & (c & Hc & [= <-])%res_bind_Ok)%res_bind_Ok).
  assert (∀ a s r c : json, NoDup (map fst [("action", a); ("subject", s); ("resource", r); ("context", c)])) as Hnd.
  { intros. simpl. apply (bool_decide_unpack _). vm_compute. exact I. }
  destruct (requestPayload i') as [j'|] eqn:Ej'.
  - unfold requestPayload in Ej'. apply res_bind_Ok in Ej' as (s' & Hs' & (r' & Hr' & (c' & Hc' & [= <-])%res_bind_Ok)%res_bind_Ok).
    intros E. pose proof (sort_keys_fields _ _ (Hnd _ _ _ _) (Hnd _ _ _ _) E) as Hf.
    split_and!; [by specialize (Hf "action"); injection Hf|eapply same_entity_payload; [done..|]..].
    + by specialize (Hf "subject"); injection Hf.
    + by specialize (Hf "resource"); injection Hf.
    + by specialize (Hf "context"); injection Hf.
  - intros E. pose proof (sort_keys_fields _ [] (Hnd _ _ _ _) (NoDup_nil_2) E "action") as Hf. done.
Qed.

(** C23. One caller and one idempotency key, one decision.  Calls run one after another,
    on a store nobody else writes to, and any of their transactions may fail, before or
    after it took effect; quorum and delay challenges are answered by their handlers, mfa
    and external ones by any handler that runs no store call of its own and gives an mfa
    challenge no deadline.  If a call to decide, under a key and for a request that
    encodes, answered with a decision, then whatever calls run afterwards, a later call of
    that caller under that key that answers at all answers with the same decision; and its
    request is the same, the action and of each entity the type, the identifier and every
    attribute as it encodes, unless the documents of the two requests differ and have one
    digest. *)
Theorem idempotency_key_one_decision `{Digest} s T policies w cs cs' req req' c now now' r r' :
  deployed s → calm w → w_db w = empty_db policies →
  (∀ c, c ∈ cs ++ [CallDecide req now] ++ cs' ++ [CallDecide req' now'] → (clock_of c ≤ T)%Z) →
  rq_Caller req = Some c → rq_Caller req' = Some c → rq_IdempotencyKey req ≠ "" →
  rq_IdempotencyKey req' = rq_IdempotencyKey req → is_ok (requestPayload (rq_Input req)) = true →
  let w1 := run_calls s cs w in
  let w2 := run_calls s cs' (run_call s (CallDecide req now) w1) in
  answer_of s (CallDecide req now) w1 = Some r → rs_ID r ≠ "" →
  answer_of s (CallDecide req' now') w2 = Some r' →
  rs_ID r' = rs_ID r ∧
  ((digest_labelled idempotencyFingerprintBinding (request_document (rq_Input req)) =
    digest_labelled idempotencyFingerprintBinding (request_document (rq_Input req')) →
    request_document (rq_Input req) = request_document (rq_Input req')) →
   same_request (rq_Input req) (rq_Input req')).
Proof.
  intros [reg ver] Hc Hw HT Ec Ec' Hne Ek Hok w1 w2 Ha Hid Ha'. simpl in Ha, Ha'.
  destruct (run_calls_inv s T reg ver cs w) as [Hc1 Hi1]; [set_solver|done|rewrite Hw; apply inv_empty|]. fold w1 in Hc1, Hi1.
  assert (now ≤ T)%Z as HT1 by (apply (HT (CallDecide req now)); set_solver).
  assert (now' ≤ T)%Z as HT2 by (apply (HT (CallDecide req' now')); set_solver).
  destruct (triple_Decide_decided s T reg ver req c now Ec HT1 w1 Hc1 Hi1) as [Hc2 Hr].
  destruct (Decide s req now w1) as [[x|e] wd] eqn:Ed; simpl in Ha, Hr; [|done]. injection Ha as ->.
  destruct Hr as [[Hi2 _] Hkey]. destruct (Hkey Hne) as [?|Hk]; [done|].
  assert (run_call s (CallDecide req now) w1 = wd) as Ewd by (simpl; by rewrite Ed).
  assert (∀ c, c ∈ cs' → (clock_of c ≤ T)%Z) as HT' by set_solver.
  destruct (run_calls_inv s T reg ver cs' wd HT' Hc2 Hi2) as [Hc3 Hi3].
  pose proof (run_calls_keeps s T reg ver _ cs' wd (keyed_step _ _ _ _) HT' Hc2 Hi2 Hk) as Hk3.
  unfold w2 in Ha'. rewrite Ewd in Ha'.
  destruct (Decide s req' now' (run_calls s cs' wd)) as [[y|e] w''] eqn:Ed'; simpl in Ha'; [|done]. injection Ha' as ->.
  rewrite <-Ek in Hk3. destruct (Decide_replays s T reg ver (rs_ID r) (requestFingerprint (rq_Input req)) req' c now'
    (run_calls s cs' wd) r' HT2 Hc3 Hi3 Ec') as [E1 E2]; [congruence|exact Hk3|by rewrite Ed'|].
  split; [done|]. intros Hinj. apply request_document_inj; [done|]. apply Hinj. exact E2.
Qed.

(** The demo's request under a key, asked twice with approvals in between. *)
Definition demo_keyed : Request := mkRequest (Some Demo.app) Demo.input 0%Z "k1".
Definition demo_between : list call := [CallSubmit (Demo.approve "alice") Demo.t0].
Definition demo_first : call := CallDecide demo_keyed Demo.t0.
Definition demo_keyed_world : World :=
  @run_calls toy_digest Demo.service demo_between (@run_call toy_digest Demo.service demo_first (@run_calls toy_digest Demo.service [] Demo.world)).

Definition some_result (o : option Result) : Result :=
  match o with Some r => r | None => mkResult "" DecisionDenied Deny ReasonNone "" 0 [] [] Time.zero Time.zero None 0%Z end.
Definition demo_answer1 : Result := Eval vm_compute in
  some_result (@answer_of toy_digest Demo.service demo_first (@run_calls toy_digest Demo.service [] Demo.world)).
Definition demo_answer2 : Result := Eval vm_compute in
  some_result (@answer_of toy_digest Demo.service demo_first demo_keyed_world).

Lemma demo_answer1_eq :
  @answer_of toy_digest Demo.service demo_first (@run_calls toy_digest Demo.service [] Demo.world) = Some demo_answer1.
Proof. vm_compute. reflexivity. Qed.
Lemma demo_answer2_eq : @answer_of toy_digest Demo.service demo_first demo_keyed_world = Some demo_answer2.
Proof. vm_compute. reflexivity. Qed.
Lemma demo_answer1_id : rs_ID demo_answer1 ≠ "".
Proof. done. Qed.
Lemma demo_key : rq_IdempotencyKey demo_keyed ≠ "".
Proof. done. Qed.
Lemma demo_between_clock c : c ∈ [] ++ [demo_first] ++ demo_between ++ [demo_first] → (clock_of c ≤ Demo.t0)%Z.
Proof.
  intros Hc. apply (Forall_forall (λ c, clock_of c ≤ Demo.t0)%Z ([] ++ [demo_first] ++ demo_between ++ [demo_first])); [|done].
  repeat constructor; simpl; lia.
Qed.

Lemma demo_encodes : is_ok (requestPayload (rq_Input demo_keyed)) = true.
Proof. vm_compute. reflexivity. Qed.

Lemma idempotency_key_one_decision_witness : rs_ID demo_answer1 = "id1" ∧ rs_ID demo_answer2 = rs_ID demo_answer1.
Proof.
  split; [reflexivity|].
  exact (proj1 (@idempotency_key_one_decision toy_digest Demo.service Demo.t0 [("transfer", 1%Z)] Demo.world [] demo_between
    demo_keyed demo_keyed Demo.app Demo.t0 Demo.t0 demo_answer1 demo_answer2 demo_deployed demo_calm eq_refl
    demo_between_clock eq_refl eq_refl demo_key eq_refl demo_encodes demo_answer1_eq demo_answer1_id demo_answer2_eq)).
Defined.

(** ** The other theorems at the demo *)

Definition demo_handlers : list Handler := Demo.handlers.

Lemma NewRegistry_spec_witness :
  NoDup (map h_Kind demo_handlers) ∧ Registry_Handler Demo.registry ChallengeDelay = Ok (DelayHandler Demo.dcfg).
Proof.
  assert (NewRegistry demo_handlers = Ok Demo.registry) as E by reflexivity.
  split; [apply (proj1 (NewRegistry_spec demo_handlers Demo.registry E))|].
  apply (proj2 (proj2 (NewRegistry_spec demo_handlers Demo.registry E)) ChallengeDelay). split; [|reflexivity].
  right. left.
Defined.

(** A store with one decision, and the same store once it is resolved. *)
Definition demo_new : NewDecision := mkNewDecision "id1" "c" "transfer" 1 "dave" "a1" "send" None None None 9000%Z [] "" "".
Definition demo_row : Decision := new_decision_row 5%Z demo_new.
Definition demo_db0 : DB := empty_db [("transfer", 1%Z)].
Definition demo_db1 : DB := match CreateDecision demo_new 5%Z demo_db0 with Ok (_, db) => db | Err _ => demo_db0 end.
Definition demo_db2 : DB :=
  match ResolveDecision "id1" DecisionAllowed None "sweep" 6%Z demo_db1 with Ok (_, db) => db | Err _ => demo_db0 end.

Lemma demo_step1 : store_step demo_db0 demo_db1.
Proof. apply (step_create demo_db0 demo_new 5%Z demo_row). vm_compute. reflexivity. Qed.
Lemma demo_step2 : store_step demo_db1 demo_db2.
Proof.
  apply (step_resolve demo_db1 "id1" DecisionAllowed None "sweep" 6%Z (resolved_row 6%Z DecisionAllowed None demo_row)).
  vm_compute. reflexivity.
Qed.

Lemma store_invariant_witness : db_ok demo_db2.
Proof.
  apply (store_invariant [("transfer", 1%Z)] demo_db2).
  exact (rtc_l _ _ _ _ demo_step1 (rtc_l _ _ _ _ demo_step2 (rtc_refl _ _))).
Defined.

Lemma store_history_witness : later demo_db1 demo_db2.
Proof. apply (store_history demo_db1 demo_db2). exact (rtc_l _ _ _ _ demo_step2 (rtc_refl _ _)). Defined.

Lemma ClaimDue_spec_witness :
  ClaimDue 9000%Z 10%Z ∅ demo_db1 = Ok [demo_row] ∧ d_State demo_row = DecisionPending ∧
  (∃ id, db_decisions demo_db1 !! id = Some demo_row) ∧ ∃ t, d_NextDeadline demo_row = Some t ∧ (t ≤ 9000)%Z.
Proof.
  assert (ClaimDue 9000%Z 10%Z ∅ demo_db1 = Ok [demo_row]) as E by (vm_compute; reflexivity).
  split; [exact E|]. apply (proj1 (proj2 (proj2 (ClaimDue_spec 9000%Z 10%Z ∅ demo_db1 [demo_row] E)))). left.
Defined.

(** The demo's first call, with another instance appending an audit entry before each of
    its transactions and losing the reply of the third. *)
Definition demo_noise : AuditEntry := mkAudit AuditKindAccessRefused "x" (JObj []).
Definition demo_busy (f : fault) : step := mkStep (append demo_noise) f 0%Z ∅.
Definition demo_shared : World :=
  mkWorld (w_db Demo.world) [demo_busy NoFault; demo_busy NoFault; demo_busy LostReply; demo_busy NoFault] (w_ids Demo.world).

Lemma demo_others : others_call_the_store demo_shared.
Proof.
  assert (∀ f, ∀ db, rtc store_step db (sp_env (demo_busy f) db)) as Hb.
  { intros f db. apply rtc_once. apply step_append; discriminate. }
  repeat (constructor; [apply Hb|]). constructor.
Qed.

Lemma service_safe_witness :
  let w' := @run_calls toy_digest Demo.service [CallDecide Demo.request Demo.t0] demo_shared in
  db_ok (w_db w') ∧ later (w_db demo_shared) (w_db w').
Proof.
  destruct (@service_safe toy_digest Demo.service [CallDecide Demo.request Demo.t0] demo_shared demo_deployed demo_others
    (empty_db_ok _)) as (H1 & H2 & _). split; [exact H1|exact H2].
Defined.

Definition demo_ctx : DecisionContext :=
  mkContext "id1" (CallerID Demo.app) "dave" "a1" "send" "transfer" (JObj []) (JObj []) (JArr []) Demo.t0 (Demo.t0 + 9000)%Z.
Definition demo_instance : Instance_ := mkInstance "id1" 0 ChallengeQuorum.
Definition demo_issue : IssueRequest := mkIssueRequest demo_instance (CQuorum Demo.quorum) demo_ctx Demo.t0.
Definition demo_detail : QuorumDetail := mkQuorumDetail 2 ResolveMembers "idp" ["alice"; "bob"] "" "" toy_hex.
Definition demo_issued : IssueResult := mkIssueResult StatePending (Some (encodeQuorumDetail demo_detail)) None false 0%Z.

Lemma demo_issue_eq : @quorum_issue toy_digest Demo.qcfg demo_issue = Ok demo_issued.
Proof. vm_compute. reflexivity. Qed.
Lemma demo_detail_eq : decodeQuorumDetail (canonicalJSON (is_Detail demo_issued)) = Ok demo_detail.
Proof. vm_compute. reflexivity. Qed.

Lemma details_round_trip_witness :
  decodeQuorumDetail (canonicalJSON (Some (encodeQuorumDetail demo_detail))) = Ok demo_detail ∧
  decodeDelayDetail (canonicalJSON (Some (encodeDelayDetail (mkDelayDetail "5s" 7%Z None "" None)))) =
  Ok (mkDelayDetail "5s" 7%Z None "" None).
Proof.
  split; [apply (proj1 details_round_trip demo_detail); [discriminate|reflexivity]|].
  apply (proj2 details_round_trip (mkDelayDetail "5s" 7%Z None "" None)). discriminate.
Defined.

Lemma issued_quorum_is_the_policys_witness :
  ∃ det, decodeQuorumDetail (canonicalJSON (is_Detail demo_issued)) = Ok det ∧ qd_Threshold det = 2%Z.
Proof.
  destruct (@issued_quorum_is_the_policys toy_digest Demo.qcfg demo_issue demo_issued Demo.quorum demo_issue_eq eq_refl eq_refl)
    as (det & Hd & _ & Ht & _). exists det. split; [exact Hd|exact Ht].
Defined.

Definition demo_submit : SubmitRequest :=
  mkSubmitRequest demo_instance demo_ctx (canonicalJSON (is_Detail demo_issued)) (Some (Demo.user "alice")) None Demo.t0.

Lemma approval_commits_to_the_decision_witness : is_ok (@quorum_admit toy_digest demo_submit) = true.
Proof.
  apply (@approval_commits_to_the_decision toy_digest Demo.qcfg demo_issue demo_issued demo_detail demo_submit
    (Demo.user "alice") demo_issue_eq).
  - intros spec [= <-]. reflexivity.
  - reflexivity.
  - exact demo_detail_eq.
  - reflexivity.
  - reflexivity.
  - intros m m' H1 H2 _. simpl in H1, H2. rewrite H1 in H2. by injection H2.
  - split; [vm_compute; reflexivity|reflexivity].
Defined.

(** Alice's vote on the demo's quorum, just after the decision was made. *)
Definition demo_voting : World := mkWorld (w_db (@run_calls toy_digest Demo.service [CallDecide Demo.request Demo.t0] Demo.world)) [] ["v1"].

Lemma demo_admitted : @quorum_admit toy_digest demo_submit = Ok (demo_detail, "alice", toy_hex).
Proof. vm_compute. reflexivity. Qed.
Lemma demo_no_votes a : a ∈ db_approvals (w_db demo_voting) → ap_ID a ≠ "v1".
Proof. assert (db_approvals (w_db demo_voting) = []) as -> by (vm_compute; reflexivity). set_solver. Qed.
Lemma demo_has_row : existsb (is_row "id1" 0) (db_progress (w_db demo_voting)) = true.
Proof. vm_compute. reflexivity. Qed.

Lemma submission_counts_each_approver_once_witness :
  ∃ out, (@quorum_submit toy_digest Demo.qcfg demo_submit demo_voting).1 = Ok out ∧
    so_Have out = Z.of_nat (length (approvers "id1" 0 VerdictApprove
      (w_db (@quorum_submit toy_digest Demo.qcfg demo_submit demo_voting).2))).
Proof.
  destruct (@submission_counts_each_approver_once toy_digest Demo.qcfg demo_submit demo_detail "alice" toy_hex demo_voting
    "v1" [] eq_refl demo_admitted eq_refl eq_refl demo_no_votes demo_has_row) as (out & H1 & _ & _ & H2 & _).
  exists out. split; [exact H1|exact H2].
Defined.

Definition demo_change : Change := mkChange ChangeAdd "transfer" None (Some Demo.gate) no_origin no_origin.
Definition demo_delta : Delta := mkDelta [demo_change] None None.

Lemma satisfiable_quorums_issue_witness : is_ok (@quorum_issue toy_digest Demo.qcfg demo_issue) = true.
Proof.
  apply (@satisfiable_quorums_issue toy_digest demo_delta demo_change Demo.gate Demo.quorum Demo.qcfg demo_instance demo_ctx Demo.t0).
  - vm_compute. reflexivity.
  - left.
  - reflexivity.
  - left.
  - reflexivity.
  - discriminate.
Defined.

Definition demo_delay_issue : IssueRequest :=
  mkIssueRequest (mkInstance "id1" 1 ChallengeDelay) (CDelay Demo.hold) demo_ctx Demo.t0.
Definition demo_release : Time.t := (Demo.t0 + 5000)%Z.
Definition demo_delay_detail : DelayDetail :=
  mkDelayDetail (Time.Duration_String 5000%Z) demo_release (Some (mkAuthority ResolveMembers "idp" ["carol"] "" "")) "" None.
Definition demo_delay_issued : IssueResult :=
  mkIssueResult StatePending (Some (encodeDelayDetail demo_delay_detail)) (Some demo_release) false 0%Z.

Lemma demo_delay_eq : delay_issue Demo.dcfg demo_delay_issue = Ok demo_delay_issued.
Proof. vm_compute. reflexivity. Qed.
Lemma demo_release_set : demo_release ≠ Time.zero.
Proof. by vm_compute. Qed.

Definition demo_status_at (t : Time.t) : StatusRequest :=
  mkStatusRequest (mkInstance "id1" 1 ChallengeDelay) demo_ctx (canonicalJSON (is_Detail demo_delay_issued)) StatePending None t.

Lemma delay_timeline_witness :
  delay_status (demo_status_at (demo_release - 1)%Z) = Ok (mkStatus StatePending 0 0 (Some demo_release) None false) ∧
  delay_status (demo_status_at demo_release) = Ok (mkStatus StateSatisfied 0 0 (Some demo_release) None false).
Proof.
  split;
    exact (proj1 (delay_timeline Demo.dcfg demo_delay_issue demo_delay_issued demo_release demo_delay_eq eq_refl demo_release_set)
             (mkInstance "id1" 1 ChallengeDelay) demo_ctx None _).
Defined.

(** ** Three defects *)

(** The demo with both approvals given, and the first transactions of carol's
    cancellation of its delay, just before the release: her row is written, the decision
    is not yet resolved. *)
Definition demo_approved : World := @run_calls toy_digest Demo.service
  [CallDecide Demo.request Demo.t0; CallSubmit (Demo.approve "alice") Demo.t0; CallSubmit (Demo.approve "bob") Demo.t0] Demo.world.
Definition demo_cancel : Submission :=
  mkSubmission (Some (Demo.user "carol")) "id1" 1%Z (Some (JObj [("action", JStr DelayActionCancel)])).
Definition half_cancelled (db : DB) : DB :=
  w_db (Submit Demo.service demo_cancel (Demo.t0 + 4999)%Z
    (mkWorld db (replicate 3 quiet_step ++ [mkStep (λ db, db) Lost 0%Z ∅]) [])).2.
Definition delay_row (db : DB) : option (CState * bool) :=
  match filter (λ r, cp_Kind r = ChallengeDelay) (db_progress db) with
  | [r] => Some (cp_State r, match decodeDelayDetail (cp_Detail r) with Ok d => bool_decide (is_Some (dd_CancelledAt d)) | Err _ => false end)
  | _ => None
  end.

(** Two instances that race can lose a cancellation.  The sweep reads the row of a delay at
    its release as pending; a cancellation made before the release is written; the sweep
    then writes the row as satisfied, over the state and over the detail that says who
    cancelled, because the update asks for no state; and the decision is allowed. *)
Theorem cancellation_lost_in_a_race :
  let swept := w_db (SweepOnce Demo.service 10%Z (Demo.t0 + 5000)%Z
    (mkWorld (w_db demo_approved) (replicate 3 quiet_step ++ [mkStep half_cancelled NoFault 0%Z ∅]) [])).2 in
  delay_row (half_cancelled (w_db demo_approved)) = Some (StateFailed, true) ∧
  delay_row swept = Some (StateSatisfied, false) ∧
  map (λ p, (d_ID p.2, d_State p.2)) (map_to_list (db_decisions swept)) = [("id1", DecisionAllowed)].
Proof. vm_compute. auto. Qed.

(** The states of all decisions once the demo's two approvers have approved at [t]
    and a sweep has run at [u]. *)
Definition swept (t u : Time.t) : list (string * DecisionState) :=
  map (λ p, (d_ID p.2, d_State p.2)) (map_to_list (db_decisions (w_db (@run_calls toy_digest Demo.service
    [CallDecide Demo.request t; CallSubmit (Demo.approve "alice") t; CallSubmit (Demo.approve "bob") t; CallSweep 10%Z u]
    Demo.world)))).

(** A delay can deny the decision it holds.  The row's deadline is truncated to the
    microsecond and the release instant in its detail is not, so a sweep between the
    two finds the deadline passed and the delay still pending, and fails it: here a
    delay of five microseconds opened 999 nanoseconds into one, swept 499
    nanoseconds before its release, denies a decision everyone approved, which a
    sweep at the release would have allowed. *)
Theorem delay_denied_inside_its_microsecond :
  let opened := 1000999%Z in let release := Time.Add opened (d_Duration Demo.hold) in
  let early := (release - 499)%Z in
  (early < release)%Z ∧ (Time.trunc_us release ≤ early)%Z ∧
  swept opened early = [("id1", DecisionDenied)] ∧ swept opened release = [("id1", DecisionAllowed)].
Proof. repeat split; vm_compute; (reflexivity || discriminate). Qed.

Definition padded : Quorum := mkQuorum 1%Z (mkApproverSet [" alice"; "bob"] "" None).

(** A proposer can stay an approver of their own revision.  The requirement says
    the proposer is excluded, but the exclusion compares the member as the policy
    spells it and the quorum handler trims it: with a quorum in force over a padded
    name, the requirement computed for the proposer alice still issues a challenge
    that takes alice's approval. *)
Theorem padded_proposer_is_not_excluded :
  ∃ r q det, Require (Some padded) None [] DefaultFloor "alice" = Ok r ∧ r_ExcludeProposer r = true ∧
    Requirement_Quorum r = Some q ∧ quorum_resolve Demo.qcfg q demo_ctx = Ok det ∧
    isTarget det (Some (Demo.user "alice")) = Ok true.
Proof. do 3 eexists. repeat split; vm_compute; reflexivity. Qed.
