(* ===== verification/RevalidateSpec.v ===== *)
(** * What a revision does to open decisions

    A revision that takes effect keeps the invariant that ties decisions to their
    evidence: it leaves every decision that is not open alone, and of an open one it
    keeps only approvals given over the same material.  The proof looks at one
    decision at a time: what the tables hold of it is its [view], and the invariant is
    a property of each view. *)
From Stdlib Require Import Ascii.
From S2P Require Import Prelude GoLib Policy Cel Engine EngineSpec Json Store StoreInv World Text.
From S2P Require Import Challenge Quorum Delay HandlerSpec External Mfa Service Revalidate ServiceSafe ServiceInv.
Import Strings.

(** ** One decision's part of the tables *)

Definition rows (X : string) (db : DB) : list ChallengeProgress := filter (λ r, cp_DecisionID r = X) (db_progress db).
Definition votes (X : string) (db : DB) : list Approval := filter (λ a, ap_DecisionID a = X) (db_approvals db).

Record view := mkLook {
  lv_decision : option Decision; lv_rows : list ChallengeProgress; lv_votes : list Approval;
  lv_created : nat; lv_resolved : nat }.

Definition look (X : string) (db : DB) : view :=
  mkLook (db_decisions db !! X) (rows X db) (votes X db) (length (creations X (db_audit db))) (length (resolutions X (db_audit db))).

(** The distinct approvers of a challenge among a list of votes. *)
Definition tally_votes (o : Z) (vs : list Approval) : Z :=
  Z.of_nat (length (remove_dups (map ap_ApproverID (filter (λ a, ap_Ordinal a = o ∧ ap_Verdict a = VerdictApprove) vs)))).

Lemma CountApprovals_view X o db : CountApprovals X o VerdictApprove db = tally_votes o (votes X db).
Proof.
  unfold CountApprovals, approvers, tally_votes, votes. rewrite list_filter_filter. do 4 f_equal.
  apply list_filter_iff. intros a. naive_solver.
Qed.

Definition met (o : Z) (detail : json) (vs : list Approval) : Prop :=
  ∃ q, decodeQuorumDetail detail = Ok q ∧ (qd_Threshold q <= tally_votes o vs)%Z.

Lemma quorum_met_view X o detail db : quorum_met X o detail db ↔ met o detail (votes X db).
Proof. unfold quorum_met, met. by setoid_rewrite CountApprovals_view. Qed.

(** The invariant, of one decision. *)
Section local.
Context `{Digest}.

(** One challenge row: what it says is backed by the votes on it. *)
Record row_ok (T : Time.t) (d : Decision) (vs : list Approval) (r : ChallengeProgress) : Prop := {
  lr_state : CState_Valid (cp_State r) = true;
  lr_canon : canonical (cp_Detail r) = cp_Detail r;
  lr_quorum : cp_Kind r = ChallengeQuorum → cp_State r = StateSatisfied → met (cp_Ordinal r) (cp_Detail r) vs;
  lr_bound : cp_Kind r = ChallengeQuorum → quorum_bound (contextOf d) (cp_Detail r);
  lr_voters : ∀ q a, cp_Kind r = ChallengeQuorum → decodeQuorumDetail (cp_Detail r) = Ok q → a ∈ vs → ap_Ordinal a = cp_Ordinal r →
      ap_BindingHash a = qd_BindingHash q ∧ (qd_Mode q = ResolveClaim ∨ ap_ApproverID a ∈ qd_Members q);
  lr_wait : cp_Kind r = ChallengeDelay → cp_State r = StateSatisfied → delay_met T (cp_Detail r);
  lr_timeless : cp_Kind r = ChallengeQuorum ∨ cp_Kind r = ChallengeMFA → cp_Deadline r = None }.

Record shape_ok (X : string) (d : Decision) (v : view) : Prop := {
  ls_decision : lv_decision v = Some d;
  ls_id : d_ID d = X;
  ls_ordinals : NoDup (map cp_Ordinal (lv_rows v));
  ls_votes : NoDup (map (λ a, (ap_Ordinal a, ap_ApproverID a)) (lv_votes v));
  ls_vote_ref : ∀ a, a ∈ lv_votes v → ap_Ordinal a ∈ map cp_Ordinal (lv_rows v);
  ls_pairing : d_IdempotencyKey d = "" ↔ d_IdempotencyFingerprint d = "";
  ls_created : lv_created v = 1;
  ls_resolved : lv_resolved v = if DecisionState_Terminal (d_State d) then 1 else 0 }.

Definition deadline_ok (X : string) (d : Decision) (rs : list ChallengeProgress) : Prop :=
  if bool_decide (d_State d = DecisionPending)
  then d_NextDeadline d = Some (deadline_of (d_ExpiresAt d) (soonest X rs)).1 ∧
       d_NextDeadlineKind d = (deadline_of (d_ExpiresAt d) (soonest X rs)).2
  else d_NextDeadline d = None ∧ d_NextDeadlineKind d = DeadlineNone.

Definition no_decision (v : view) : Prop :=
  lv_decision v = None ∧ lv_rows v = [] ∧ lv_votes v = [] ∧ lv_created v = 0 ∧ lv_resolved v = 0.

Record local_ok (T : Time.t) (X : string) (d : Decision) (v : view) : Prop := {
  lo_shape : shape_ok X d v;
  lo_rows : ∀ r, r ∈ lv_rows v → row_ok T d (lv_votes v) r;
  lo_allowed : ∀ r, d_State d = DecisionAllowed → r ∈ lv_rows v → cp_State r = StateSatisfied;
  lo_deadline : deadline_ok X d (lv_rows v) }.

Lemma elem_of_rows X r db : r ∈ rows X db ↔ cp_DecisionID r = X ∧ r ∈ db_progress db.
Proof. unfold rows. by rewrite list_elem_of_filter. Qed.
Lemma elem_of_votes X a db : a ∈ votes X db ↔ ap_DecisionID a = X ∧ a ∈ db_approvals db.
Proof. unfold votes. by rewrite list_elem_of_filter. Qed.

Lemma is_row_ordinals X o db : existsb (is_row X o) (db_progress db) = true ↔ o ∈ map cp_Ordinal (rows X db).
Proof.
  rewrite existsb_true, elem_of_map. unfold is_row. split.
  - intros (r & Hr & [E1%bool_decide_eq_true E2%Z.eqb_eq]%andb_true_iff). exists r. by rewrite elem_of_rows.
  - intros (r & -> & [E Hr]%elem_of_rows). exists r. by rewrite bool_decide_eq_true_2, Z.eqb_refl.
Qed.

Lemma soonest_rows_of X (rs : list ChallengeProgress) : soonest X (filter (λ r, cp_DecisionID r = X) rs) = soonest X rs.
Proof.
  unfold soonest. induction rs as [|r rs IH]; simpl; [done|]. rewrite filter_cons. destruct (decide _) as [E|E]; simpl.
  - by rewrite IH.
  - by rewrite (bool_decide_eq_false_2 _ E).
Qed.

Lemma view_votes_nodup X (l : list Approval) :
  NoDup (map (λ a, (ap_DecisionID a, ap_Ordinal a, ap_ApproverID a)) l) →
  NoDup (map (λ a, (ap_Ordinal a, ap_ApproverID a)) (filter (λ a, ap_DecisionID a = X) l)).
Proof.
  induction l as [|a l IH]; simpl; [constructor|]. intros [Hn Hd]%NoDup_cons. rewrite filter_cons.
  destruct (decide _) as [E|]; simpl; [|auto]. constructor; [|auto].
  intros (b & [= E1 E2] & [Eb Hb]%list_elem_of_filter)%elem_of_map. apply Hn, elem_of_map. exists b. split; [congruence|done].
Qed.

(** A list is duplicate-free if each class of it is. *)
Lemma NoDup_classes {A B} (cls : A → string) (key : A → B) l :
  (∀ X, NoDup (map key (filter (λ a, cls a = X) l))) → NoDup (map (λ a, (cls a, key a)) l).
Proof.
  induction l as [|a l IH]; simpl; intros Hc; [constructor|]. apply NoDup_cons. split.
  - intros (b & [= E1 E2] & Hb)%elem_of_map. specialize (Hc (cls a)). rewrite filter_cons, decide_True in Hc by done.
    simpl in Hc. apply NoDup_cons in Hc as [Hn _]. apply Hn, elem_of_map. exists b. split; [done|]. by apply list_elem_of_filter.
  - apply IH. intros X. specialize (Hc X). rewrite filter_cons in Hc. destruct (decide _); [|done]. simpl in Hc.
    by apply NoDup_cons in Hc as [_ Hc].
Qed.

(** The invariant is the invariant of each decision. *)
Lemma inv_local T db : inv T db → ∀ X, match db_decisions db !! X with Some d => local_ok T X d (look X db) | None => no_decision (look X db) end.
Proof.
  intros Hi X. pose proof (inv_ok _ _ Hi) as Hok. destruct (db_decisions db !! X) as [d|] eqn:Ed.
  - split.
    + split; simpl; try done.
      * by apply (ok_id _ Hok).
      * apply ordinals_nodup, (ok_rows _ Hok).
      * apply view_votes_nodup, (ok_votes _ Hok).
      * intros a [<- Ha]%elem_of_votes. by apply is_row_ordinals, (ok_vote_ref _ Hok).
      * by apply (ok_pairing _ Hok X).
      * rewrite (ok_created _ Hok), Ed. done.
      * rewrite (ok_resolved _ Hok), Ed. done.
    + simpl. intros r [E Hr]%elem_of_rows. split.
      * by apply (ok_row_state _ Hok).
      * by apply (inv_canon _ _ Hi).
      * intros Hk Hs. rewrite <-E. by apply quorum_met_view, (inv_quorum _ _ Hi).
      * intros Hk. apply (inv_bound _ _ Hi); [done|done|]. by rewrite E.
      * intros q a Hk Hq [E' Ha]%elem_of_votes Eo. eapply (inv_votes _ _ Hi); [done..|congruence|done].
      * intros Hk Hs. by apply (inv_delay _ _ Hi).
      * by apply (inv_timeless _ _ Hi).
    + simpl. intros r Hs [E Hr]%elem_of_rows. by eapply (inv_allowed _ _ Hi).
    + simpl. unfold deadline_ok, rows. rewrite soonest_rows_of. apply (ok_deadline _ Hok X d Ed).
  - split_and!; simpl; [done|..].
    + apply elem_of_nil_inv. intros r [E Hr]%elem_of_rows. apply (ok_row_ref _ Hok) in Hr as [x Hx]. congruence.
    + apply elem_of_nil_inv. intros a [E Ha]%elem_of_votes. apply (ok_vote_ref _ Hok), is_row_ordinals, elem_of_map in Ha as (r & _ & Hr).
      apply elem_of_rows in Hr as [E' Hr]. apply (ok_row_ref _ Hok) in Hr as [x Hx]. congruence.
    + by rewrite (ok_created _ Hok), Ed.
    + by rewrite (ok_resolved _ Hok), Ed.
Qed.

Lemma local_inv T db :
  (∀ X, match db_decisions db !! X with Some d => local_ok T X d (look X db) | None => no_decision (look X db) end) →
  (∀ id1 id2 d1 d2, db_decisions db !! id1 = Some d1 → db_decisions db !! id2 = Some d2 →
     d_IdempotencyKey d1 ≠ "" → d_CallerID d1 = d_CallerID d2 → d_IdempotencyKey d1 = d_IdempotencyKey d2 → id1 = id2) →
  inv T db.
Proof.
  intros HL Hkeys.
  assert (∀ X d, db_decisions db !! X = Some d → local_ok T X d (look X db)) as Hd.
  { intros X d Ed. specialize (HL X). by rewrite Ed in HL. }
  assert (∀ r, r ∈ db_progress db → ∃ d, db_decisions db !! cp_DecisionID r = Some d ∧ r ∈ rows (cp_DecisionID r) db ∧
            row_ok T d (votes (cp_DecisionID r) db) r) as Hr.
  { intros r Hr. specialize (HL (cp_DecisionID r)). destruct (db_decisions db !! cp_DecisionID r) as [d|] eqn:Ed.
    - exists d. assert (r ∈ rows (cp_DecisionID r) db) by (by apply elem_of_rows). split_and!; [done..|]. by apply (lo_rows _ _ _ _ HL).
    - destruct HL as (_ & Hn & _). simpl in Hn. assert (r ∈ rows (cp_DecisionID r) db) as Hin by (by apply elem_of_rows).
      rewrite Hn in Hin. set_solver. }
  assert (∀ X, NoDup (map cp_Ordinal (rows X db)) ∧ NoDup (map (λ a, (ap_Ordinal a, ap_ApproverID a)) (votes X db)) ∧
            ∀ a, a ∈ votes X db → ap_Ordinal a ∈ map cp_Ordinal (rows X db)) as Hnd.
  { intros X. specialize (HL X). destruct (db_decisions db !! X) as [d|].
    - destruct (lo_shape _ _ _ _ HL). simpl in *. done.
    - destruct HL as (_ & E1 & E2 & _). simpl in *. rewrite E1, E2. split_and!; [constructor..|]. intros a Ha. set_solver. }
  split.
  - split.
    + intros X d Ed. apply (ls_id _ _ _ (lo_shape _ _ _ _ (Hd X d Ed))).
    + apply (NoDup_classes cp_DecisionID cp_Ordinal). apply Hnd.
    + intros r (d & Ed & _)%Hr. eauto.
    + intros r (d & _ & _ & Hok)%Hr. apply (lr_state _ _ _ _ Hok).
    + assert (NoDup (map (λ a, (ap_DecisionID a, (ap_Ordinal a, ap_ApproverID a))) (db_approvals db))) as Hv.
      { apply (NoDup_classes ap_DecisionID). apply Hnd. }
      assert (Inj (=) (=) (λ p : string * (Z * string), (p.1, p.2.1, p.2.2))) as Hinj.
      { intros [? [? ?]] [? [? ?]] [= -> -> ->]. done. }
      apply (NoDup_fmap_2 _ _) in Hv. by rewrite <-list_fmap_compose in Hv.
    + intros a Ha. apply is_row_ordinals, Hnd. by apply elem_of_votes.
    + done.
    + intros X d Ed. apply (ls_pairing _ _ _ (lo_shape _ _ _ _ (Hd X d Ed))).
    + intros X d Ed. pose proof (lo_deadline _ _ _ _ (Hd X d Ed)) as Hdl. simpl in Hdl. unfold deadline_ok, rows in Hdl.
      by rewrite soonest_rows_of in Hdl.
    + intros X. specialize (HL X). destruct (db_decisions db !! X) as [d|]; [apply (ls_created _ _ _ (lo_shape _ _ _ _ HL))|].
      by destruct HL as (_ & _ & _ & ? & _).
    + intros X. specialize (HL X). destruct (db_decisions db !! X) as [d|]; [apply (ls_resolved _ _ _ (lo_shape _ _ _ _ HL))|].
      by destruct HL as (_ & _ & _ & _ & ?).
  - intros r (d & _ & _ & Hok)%Hr. apply (lr_canon _ _ _ _ Hok).
  - intros X d r Ed Hs Hin E. apply (lo_allowed _ _ _ _ (Hd _ _ Ed) r Hs). by apply elem_of_rows.
  - intros r (d & _ & _ & Hok)%Hr Hk Hs. by apply quorum_met_view, (lr_quorum _ _ _ _ Hok).
  - intros r q a Hin Hk Hq Ha E1 E2. destruct (Hr r Hin) as (d & Ed & Hrow & Hok).
    apply (lr_voters _ _ _ _ Hok q a); try done. by apply elem_of_votes.
  - intros r d Hin Hk Ed. destruct (Hr r Hin) as (d' & Ed' & _ & Hok). assert (d' = d) as -> by congruence. by apply (lr_bound _ _ _ _ Hok).
  - intros r (d & _ & _ & Hok)%Hr. apply (lr_wait _ _ _ _ Hok).
  - intros r (d & _ & _ & Hok)%Hr. apply (lr_timeless _ _ _ _ Hok).
Qed.
End local.

(** ** Writes that stay within one decision *)

Definition elsewhere (X : string) (db db' : DB) : Prop := ∀ Y, Y ≠ X → look Y db' = look Y db.

#[export] Instance elsewhere_preorder X : PreOrder (elsewhere X).
Proof. split; [by intros db Y|]. intros a b c H1 H2 Y Hy. by rewrite (H2 Y Hy), (H1 Y Hy). Qed.

(** A transaction that writes nothing of another decision. *)
Definition only {A} (X : string) (m : Tx A) : Prop := ∀ db a db', m db = Ok (a, db') → elsewhere X db db'.

Create HintDb tx.

Section only.
Context (X : string).

Lemma only_ret {A} (a : A) : only X (tx_ret a).
Proof. intros db b db' [= _ <-]. done. Qed.
Lemma only_fail {A} e : only X (tx_fail (A := A) e).
Proof. by intros db b db'. Qed.
Lemma only_lift {A} (r : result A) : only X (tx_lift r).
Proof. intros db b db'. unfold tx_lift. intros (a & _ & [= _ <-])%res_bind_Ok. done. Qed.
Lemma only_read {A} (f : DB → A) : only X (tx_read f).
Proof. intros db b db' [= _ <-]. done. Qed.
Lemma only_reading {A} (f : DB → result A) : only X (λ db, let? s := f db in Ok (s, db)).
Proof. intros db b db' (a & _ & [= _ <-])%res_bind_Ok. done. Qed.
Lemma only_write f : (∀ db, elsewhere X db (f db)) → only X (tx_write f).
Proof. intros Hf db b db' [= _ <-]. apply Hf. Qed.
Lemma only_bind {A B} (m : Tx A) (k : A → Tx B) : only X m → (∀ a, only X (k a)) → only X (tx_bind m k).
Proof. intros Hm Hk db b db' ([a db1] & H1 & H2)%res_bind_Ok. etrans; [by eapply Hm|by eapply (Hk a)]. Qed.

Lemma elsewhere_append e db : au_Subject e = X → elsewhere X db (append e db).
Proof.
  intros E Y Hy. unfold look. simpl. rewrite creations_append, resolutions_append.
  by rewrite !(bool_decide_eq_false_2 (_ ∧ _)), !Nat.add_0_r by naive_solver.
Qed.
Lemma elsewhere_decision d db : elsewhere X db (with_decisions <[X := d]> db).
Proof. intros Y Hy. unfold look. simpl. by rewrite lookup_insert_ne by done. Qed.
Lemma elsewhere_rows f db : (∀ Y l, Y ≠ X → filter (λ r, cp_DecisionID r = Y) (f l) = filter (λ r, cp_DecisionID r = Y) l) →
  elsewhere X db (with_progress f db).
Proof. intros Hf Y Hy. unfold look, rows. simpl. by rewrite Hf. Qed.
Lemma elsewhere_votes f db : (∀ Y l, Y ≠ X → filter (λ a, ap_DecisionID a = Y) (f l) = filter (λ a, ap_DecisionID a = Y) l) →
  elsewhere X db (with_approvals f db).
Proof. intros Hf Y Hy. unfold look, votes. simpl. by rewrite Hf. Qed.

Lemma filter_map_other {A} (cls : A → string) (f : A → A) Y (l : list A) :
  (∀ a, cls (f a) = cls a) → (∀ a, cls a = Y → f a = a) → filter (λ a, cls a = Y) (map f l) = filter (λ a, cls a = Y) l.
Proof.
  intros Hc Hf. induction l as [|a l IH]; simpl; [done|]. rewrite !filter_cons, Hc, IH. case_decide; [|done]. by rewrite Hf.
Qed.

Lemma filter_bool {A} (f : A → bool) l : List.filter f l = filter (λ a, f a = true) l.
Proof. induction l as [|a l IH]; simpl; [done|]. rewrite filter_cons, IH. by destruct (f a). Qed.

Lemma only_update_row o f : (∀ r, cp_DecisionID (f r) = cp_DecisionID r) → only X (update_row X o f).
Proof.
  intros Hf. apply only_write. intros db. apply elsewhere_rows. intros Y l Hy. apply filter_map_other.
  - intros r. by destruct (is_row X o r).
  - intros r <-. unfold is_row. by rewrite bool_decide_eq_false_2 by done.
Qed.

Lemma only_dropApprovals o : only X (dropApprovals X o).
Proof.
  intros db n db' [= _ <-]. apply elsewhere_votes. intros Y l Hy. rewrite filter_bool, list_filter_filter.
  apply list_filter_iff. intros a. unfold is_vote. split; [by intros [? _]|]. intros <-. split; [done|].
  by rewrite bool_decide_eq_false_2 by done.
Qed.

Lemma only_append e : au_Subject e = X → only X (tx_append e).
Proof. intros E. apply only_write. intros db. by apply elsewhere_append. Qed.

Lemma only_rewrite at_ p v f o : only X (rewrite_decision at_ X p v f o).
Proof.
  intros db a db'. unfold rewrite_decision. destruct (_ !! X) as [d|]; [|by intros [= _ <-]].
  destruct (negb _); [by intros [= _ <-]|]. destruct (negb _); [done|]. intros [= _ <-]. apply elsewhere_decision.
Qed.

Lemma only_refresh at_ : only X (tx_write (refreshNextDeadline X at_)).
Proof.
  apply only_write. intros db. unfold refreshNextDeadline. destruct (_ !! X) as [d|]; [|done].
  destruct (bool_decide _); [apply elsewhere_decision|done].
Qed.

Lemma only_clear : only X (clear_challenges X).
Proof.
  apply only_write. intros db. etrans; [apply elsewhere_rows|apply elsewhere_votes]; intros Y l Hy;
    rewrite list_filter_filter; apply list_filter_iff; naive_solver.
Qed.
End only.

#[export] Hint Resolve only_ret only_fail only_lift only_read only_reading only_dropApprovals only_rewrite only_refresh only_clear : tx.

(** Walks through a transaction. *)
Ltac only_tac := repeat first
  [ progress cbv beta
  | solve [auto with tx]
  | lazymatch goal with
    | |- only _ (tx_append _) => apply only_append; done
    | |- only _ (auditInvalidation _ _ _ _ _) => apply only_append; done
    | |- only _ (update_row _ _ _) => apply only_update_row; done
    | |- only _ (tx_bind _ _) => apply only_bind; [|intros ?]
    | |- only _ (match ?x with _ => _ end) => destruct x
    | |- only _ (let _ := _ in _) => cbv zeta
    end ].

Section frame.
Context `{CEL} `{Digest} (r : Revalidator).

Lemma only_resolve at_ d t reason rev : only (d_ID d) (resolve_in_tx at_ d t reason rev).
Proof. unfold resolve_in_tx. only_tac. apply only_write. intros db. apply elsewhere_decision. Qed.

Lemma only_rebind at_ i : only (d_ID (rb_decision i)) (rebind_one r at_ i).
Proof.
  unfold rebind_one, rebindQuorum, rebindMFA, rebindDelay, rebindExternal.
  destruct (Challenge_ChallengeType (rb_spec i)); only_tac.
Qed.

Lemma only_rebind_each at_ d ctx ps rev now o acc : only (d_ID d) (rebind_each r at_ d ctx o ps rev now acc).
Proof.
  revert o acc. induction ps as [|[row spec] ps IH]; intros o acc; simpl; [auto with tx|].
  apply only_bind; [apply (only_rebind at_ (mkRebind d ctx o spec row rev now))|auto].
Qed.

Lemma only_issue d ctx o spec now : only (d_ID d) (issue r d ctx o spec now).
Proof.
  intros db u db'. unfold issue. intros (h & _ & (x & _ & Hx)%res_bind_Ok)%res_bind_Ok. destruct (_ && _); [|done].
  injection Hx as _ <-. apply elsewhere_rows. intros Y l Hy. rewrite filter_app, filter_cons_False, app_nil_r by (simpl; congruence). done.
Qed.

Lemma only_issue_each d ctx o specs now : only (d_ID d) (issue_each r d ctx o specs now).
Proof. revert o. induction specs as [|s specs IH]; intros o; simpl; [auto with tx|]. apply only_bind; [apply only_issue|auto]. Qed.

Lemma only_rebindChallenges at_ d specs rev now : only (d_ID d) (rebindChallenges r at_ d specs rev now).
Proof.
  unfold rebindChallenges, reopenChallenges. only_tac; [apply only_issue_each|apply only_rebind_each].
Qed.

Lemma only_deny at_ d rev detail : only (d_ID d) (deny at_ d rev detail).
Proof. unfold deny. only_tac. apply only_resolve. Qed.

Lemma only_settle at_ d rev changed : only (d_ID d) (settle at_ d rev changed).
Proof. unfold settle. only_tac; apply only_resolve. Qed.

Lemma only_revaluate_allowed at_ req now d i ev values : only (d_ID d) (revaluate_allowed r at_ req now d i ev values).
Proof.
  unfold revaluate_allowed. only_tac.
  - intros db v db'. destruct (vq_PolicyVersion req); [|by intros [= _ <-]]. intros (x & _ & [= _ <-])%res_bind_Ok. done.
  - apply (only_rebindChallenges at_ (with_revision _ _ _ _ d)).
  - apply (only_settle at_ (with_revision _ _ _ _ d)).
Qed.

Lemma only_revaluate overflow at_ req now d : only (d_ID d) (revaluate r overflow at_ req now d).
Proof. unfold revaluate. only_tac; apply only_deny || apply only_revaluate_allowed. Qed.
End frame.

(** ** Rebinding a challenge

    What the revalidator writes over one challenge row of an open decision, and that
    what the row then says is backed by the votes left on it.  Proved one kind at a
    time; [after_rebind] is the common statement. *)

(** ** Documents through jsonb *)

(** Every integer of a document survives float64. *)
Fixpoint exact_json (j : json) : Prop :=
  match j with
  | JInt z => Float64.exact_int z = true
  | JArr l => foldr (λ x P, exact_json x ∧ P) True l
  | JObj fs => foldr (λ kv P, exact_json kv.2 ∧ P) True fs
  | _ => True
  end.

Lemma exact_fold {A} (f : A → json) (l : list A) : foldr (λ x P, exact_json (f x) ∧ P) True l ↔ Forall (λ x, exact_json (f x)) l.
Proof. induction l as [|x l IH]; simpl; [done|]. by rewrite Forall_cons, IH. Qed.

Lemma insert_by_map {A B K} (kA : A → K) (kB : B → K) (R : K → K → Prop) `{!RelDecision R} (f : A → B) x l :
  (∀ a, kB (f a) = kA a) → insert_by kB R (f x) (map f l) = map f (insert_by kA R x l).
Proof. intros Hk. induction l as [|y l IH]; simpl; [done|]. rewrite !Hk. case_bool_decide; simpl; [done|]. by rewrite IH. Qed.

Lemma sort_by_map {A B K} (kA : A → K) (kB : B → K) (R : K → K → Prop) `{!RelDecision R} (f : A → B) l :
  (∀ a, kB (f a) = kA a) → sort_by kB R (map f l) = map f (sort_by kA R l).
Proof. intros Hk. induction l as [|x l IH]; simpl; [done|]. by rewrite IH, (insert_by_map kA kB). Qed.

Lemma canonical_sort_keys j : canonical (sort_keys j) = canonical j.
Proof.
  induction j as [l IH|fs IH|j Hj] using json_nested_ind; simpl.
  - f_equal. rewrite map_map. by apply map_ext_Forall.
  - f_equal. unfold sort_fields. rewrite <-!(sort_by_map fst fst) by done. rewrite sort_by_idemp by apply _. f_equal.
    rewrite map_map. simpl. apply map_ext_Forall. eapply Forall_impl; [exact IH|]. simpl. by intros kv ->.
  - by destruct j.
Qed.

Lemma sort_keys_exact j : exact_json j → sort_keys j = canonical j.
Proof.
  induction j as [l IH|fs IH|j Hj] using json_nested_ind; simpl.
  - rewrite (exact_fold id). intros He. f_equal. apply map_ext_Forall. rewrite Forall_forall in *. intros x Hx. apply IH; [done|by apply He].
  - rewrite (exact_fold snd). intros He. do 2 f_equal. apply map_ext_Forall. rewrite Forall_forall in *. intros x Hx. f_equal. apply IH; [done|by apply He].
  - destruct j; simpl; try done. intros E. by rewrite Float64.round53_exact.
Qed.

Lemma jsonb_canonical j : exact_json j → jsonb j = canonicalJSON (Some j) ∧ canonical (jsonb j) = jsonb j.
Proof. intros He. unfold jsonb. rewrite sort_keys_exact by done. split; [done|apply canonical_idemp]. Qed.

Lemma exact_strings k l : Forall (λ kv, exact_json kv.2) (opt_strings k l).
Proof.
  unfold opt_strings. destruct l as [|x l]; constructor; [|constructor]. simpl. split; [done|].
  induction l; simpl; [done|]. by split.
Qed.
Lemma exact_string k v : Forall (λ kv, exact_json kv.2) (opt_string k v).
Proof. unfold opt_string. case_bool_decide; repeat constructor. Qed.

Ltac exact_tac := repeat first
  [ apply Forall_nil_2 | apply exact_strings | apply exact_string | apply Forall_cons_2; simpl; [done|] | apply Forall_app_2 ].

Lemma exact_quorum q : Float64.exact_int (qd_Threshold q) = true → exact_json (encodeQuorumDetail q).
Proof. intros He. apply (exact_fold snd). exact_tac. Qed.
Lemma exact_authority a : exact_json (encodeAuthority a).
Proof. apply (exact_fold snd). exact_tac. Qed.
Lemma exact_delay d : exact_json (encodeDelayDetail d).
Proof.
  apply (exact_fold snd). exact_tac; [destruct (dd_CancellableBy d)|destruct (dd_CancelledAt d)]; repeat constructor. simpl.
  apply exact_authority.
Qed.
Lemma exact_external x : exact_json (encodeExternalDetail x).
Proof.
  unfold encodeExternalDetail, external_members, omit_string, omit_bool, omit_time.
  destruct (xd_RespondBy x), (xd_Acknowledged x), (xd_RespondedAt x); repeat case_bool_decide; simpl; done.
Qed.

Lemma quorum_jsonb q :
  Float64.exact_int (qd_Threshold q) = true → qd_Mode q ≠ "" → decodeQuorumDetail (jsonb (encodeQuorumDetail q)) = Ok q.
Proof.
  intros He Hm. destruct (jsonb_canonical _ (exact_quorum q He)) as [-> _]. rewrite quorum_detail_decodes by done.
  rewrite Float64.round53_exact by done. by destruct q.
Qed.
Lemma delay_jsonb d : dd_ReleaseAt d ≠ Time.zero → decodeDelayDetail (jsonb (encodeDelayDetail d)) = Ok d.
Proof. intros Hz. destruct (jsonb_canonical _ (exact_delay d)) as [-> _]. by apply delay_detail_decodes. Qed.

Lemma delay_raw d x :
  decodeDelayDetail (encodeDelayDetail d) = Ok x →
  dd_ReleaseAt d ≠ Time.zero ∧ dd_ReleaseAt x = dd_ReleaseAt d ∧ dd_CancelledAt x = dd_CancelledAt d.
Proof.
  unfold decodeDelayDetail, unmarshalDelayDetail, encodeDelayDetail. cbn [fields_of res_bind app]. read_field. cbn [dec_string dec_time res_bind].
  destruct (unmarshalAuthority _) as [a|]; [|done]. cbn [res_bind]. destruct (dec_string (field "cancelled_by" _)) as [b|]; [|done]. cbn [res_bind].
  assert (field "cancelled_at" (match dd_CancellableBy d with Some a => [("cancellable_by", encodeAuthority a)] | None => [] end ++
    opt_string "cancelled_by" (dd_CancelledBy d) ++ match dd_CancelledAt d with Some t => [("cancelled_at", JTime t)] | None => [] end) =
    JTime <$> dd_CancelledAt d) as ->.
  { destruct (dd_CancellableBy d); cbn [app]; read_field; by destruct (dd_CancelledAt d). }
  assert (dec_time_opt (JTime <$> dd_CancelledAt d) = Ok (dd_CancelledAt d)) as -> by (by destruct (dd_CancelledAt d)).
  cbn [res_bind]. unfold Time.IsZero. simpl. case_bool_decide; [done|]. by intros [= <-].
Qed.

(** ** What a write does to a view *)

Lemma wrapped_Ok {A} (r : result A) a : wrapped r = Ok a → r = Ok a.
Proof. by destruct r. Qed.

(** The row at an ordinal replaced, and the votes on it kept or dropped. *)
Definition put (o : Z) (r1 : ChallengeProgress) (keep : bool) (v : view) : view :=
  mkLook (lv_decision v) (map (λ r, if (cp_Ordinal r =? o)%Z then r1 else r) (lv_rows v))
    (if keep then lv_votes v else filter (λ a, ap_Ordinal a ≠ o) (lv_votes v)) (lv_created v) (lv_resolved v).

Definition with_decision (d : Decision) (v : view) : view :=
  mkLook (Some d) (lv_rows v) (lv_votes v) (lv_created v) (lv_resolved v).

Section views.
Context (X : string).

Lemma look_append e db :
  au_Kind e ≠ AuditKindDecisionCreated → au_Kind e ≠ AuditKindDecisionResolved → look X (append e db) = look X db.
Proof.
  intros E1 E2. unfold look. simpl. rewrite creations_append, resolutions_append.
  by rewrite !(bool_decide_eq_false_2 (_ ∧ _)), !Nat.add_0_r by naive_solver.
Qed.

Lemma look_decision d db : look X (with_decisions <[X := d]> db) = with_decision d (look X db).
Proof. unfold look, with_decision. simpl. by rewrite lookup_insert_eq. Qed.

(** In a list with distinct ordinals the row at an ordinal is known. *)
Lemma row_at (l : list ChallengeProgress) r r' :
  NoDup (map cp_Ordinal l) → r ∈ l → r' ∈ l → cp_Ordinal r = cp_Ordinal r' → r = r'.
Proof.
  induction l as [|x l IH]; simpl; [set_solver|]. intros [Hn Hd]%NoDup_cons.
  intros [->|Hr]%elem_of_cons [->|Hr']%elem_of_cons E; [done|..|by apply IH].
  - destruct Hn. rewrite E. apply elem_of_map. eauto.
  - destruct Hn. rewrite <-E. apply elem_of_map. eauto.
Qed.

Lemma look_update o f r0 db :
  NoDup (map cp_Ordinal (rows X db)) → r0 ∈ rows X db → cp_Ordinal r0 = o → (∀ r, cp_DecisionID (f r) = cp_DecisionID r) →
  look X (with_progress (map (λ r, if is_row X o r then f r else r)) db) = put o (f r0) true (look X db).
Proof.
  intros Hnd Hr0 Ho Hf. unfold look, put. simpl. f_equal. unfold rows in *. simpl.
  assert (∀ l, filter (λ r, cp_DecisionID r = X) (map (λ r, if is_row X o r then f r else r) l) =
               map (λ r, if (cp_Ordinal r =? o)%Z then f r else r) (filter (λ r, cp_DecisionID r = X) l)) as ->.
  { induction l as [|r l IH]; simpl; [done|]. rewrite !filter_cons.
    destruct (decide (cp_DecisionID r = X)) as [E|E].
    - assert (is_row X o r = (cp_Ordinal r =? o)%Z) as -> by (unfold is_row; by rewrite bool_decide_eq_true_2). simpl. destruct (Z.eqb_spec (cp_Ordinal r) o) as [E'|E'].
      + destruct (decide _) as [|N]; [by f_equal|]. destruct N. by rewrite Hf.
      + destruct (decide _) as [|N]; [by f_equal|done].
    - assert (is_row X o r = false) as -> by (unfold is_row; by rewrite bool_decide_eq_false_2). by destruct (decide _). }
  apply map_ext_Forall, Forall_forall. intros r Hr. destruct (Z.eqb_spec (cp_Ordinal r) o); [|done].
  f_equal. eapply row_at; [done..|congruence].
Qed.

Lemma look_drop o db n db' :
  dropApprovals X o db = Ok (n, db') →
  look X db' = mkLook (db_decisions db !! X) (rows X db) (filter (λ a, ap_Ordinal a ≠ o) (votes X db))
                 (length (creations X (db_audit db))) (length (resolutions X (db_audit db))).
Proof.
  intros [= _ <-]. unfold look, rows. simpl. f_equal. unfold votes. simpl. rewrite filter_bool, !list_filter_filter.
  apply list_filter_iff. intros a. unfold is_vote. rewrite negb_true_iff, andb_false_iff, bool_decide_eq_false, Z.eqb_neq. naive_solver.
Qed.

Lemma put_untouched o r0 v :
  NoDup (map cp_Ordinal (lv_rows v)) → r0 ∈ lv_rows v → cp_Ordinal r0 = o → put o r0 true v = v.
Proof.
  intros Hnd Hr0 Ho. unfold put. destruct v as [d rs vs c n]. simpl in *. f_equal. transitivity (map id rs); [|apply map_id].
  apply map_ext_Forall, Forall_forall. intros r Hr. unfold id. destruct (Z.eqb_spec (cp_Ordinal r) o); [|done].
  eapply row_at; [done..|congruence].
Qed.

(** The timer of a row, as the scheduler column reads it. *)
Definition timer (r : ChallengeProgress) : option Time.t :=
  if bool_decide (cp_State r = StatePending) then cp_Deadline r else None.

Lemma soonest_timers rs rs' : Forall2 (λ r r', cp_DecisionID r = cp_DecisionID r' ∧ timer r = timer r') rs rs' → soonest X rs = soonest X rs'.
Proof.
  unfold soonest, timer. induction 1 as [|r r' rs rs' [E1 E2] _ IH]; simpl; [done|]. rewrite IH, E1.
  destruct (bool_decide (cp_DecisionID r' = X)); [|done]. simpl. revert E2.
  destruct (bool_decide (cp_State r = _)), (bool_decide (cp_State r' = _)); intros E2; [by rewrite E2|by rewrite E2|by rewrite <-E2|done].
Qed.

Lemma soonest_put o r0 r1 rs :
  NoDup (map cp_Ordinal rs) → r0 ∈ rs → cp_Ordinal r0 = o → cp_DecisionID r1 = cp_DecisionID r0 → timer r1 = timer r0 →
  soonest X (map (λ r, if (cp_Ordinal r =? o)%Z then r1 else r) rs) = soonest X rs.
Proof.
  intros Hnd Hr0 Ho E1 E2. apply soonest_timers. apply Forall2_fmap_l, Forall_Forall2_diag, Forall_forall. intros r Hr.
  simpl. destruct (Z.eqb_spec (cp_Ordinal r) o) as [E|]; [|by split].
  assert (r = r0) as -> by (apply (row_at rs); [done..|congruence]). by split.
Qed.
End views.

(** ** Rebinding one row *)

(** A digest is already in lower case. *)
Lemma lower_hex_ToLower s : lower_hex s = true → ToLower s = s ∧ (String.length s =? 2 * sha256Size)%nat = true ∧ valid_hex s = true.
Proof.
  unfold lower_hex. intros [El Hf]%andb_true_iff. apply Nat.eqb_eq in El. split_and!.
  - unfold ToLower. rewrite map_fixed; [apply unbytes_bytes|]. intros a Ha. rewrite forallb_true in Hf. specialize (Hf a Ha).
    unfold lower. cbv zeta. unfold is_digit, in_range in Hf. destruct ((65 <=? _) && _)%nat eqn:E; [|done]. 
    apply andb_true_iff in E as [E1%Nat.leb_le E2%Nat.leb_le]. rewrite orb_true_iff, !andb_true_iff, !Nat.leb_le in Hf. lia.
  - by rewrite El.
  - unfold valid_hex. rewrite El. simpl. rewrite forallb_true in *. intros a Ha. unfold is_hex. by rewrite (Hf a Ha).
Qed.

Section step.
Context `{CEL} `{Digest} (rv : Revalidator).

(** What the revalidator is run with: the quorum and the delay handler of this
    program, and MFA and external handlers whose details hold numbers the store keeps. *)
Class RevalidatorHandlers : Prop := {
  rh_quorum : ∀ h, TxRegistry_Handler (rv_challenges rv) ChallengeQuorum = Ok h → ∃ q, h = quorum_tx q;
  rh_delay : ∀ h, TxRegistry_Handler (rv_challenges rv) ChallengeDelay = Ok h → ∃ d, h = delay_tx d;
  rh_mfa : ∀ h req res, TxRegistry_Handler (rv_challenges rv) ChallengeMFA = Ok h → th_Issue h req = Ok res →
      is_Deadline res = None ∧ exact_json (default JNull (is_Detail res));
  rh_external : ∀ h req res, TxRegistry_Handler (rv_challenges rv) ChallengeExternal = Ok h → th_Issue h req = Ok res →
      exact_json (default JNull (is_Detail res)) }.

Definition spec_exact (c : Challenge) : Prop :=
  match c with CQuorum q => Float64.exact_int (q_Threshold q) = true | _ => True end.

(** The digest tells the two materials apart. *)
Definition no_collision (c0 c1 : DecisionContext) (j0 j1 : json) : Prop :=
  ∀ q0 q1 m0 m1, decodeQuorumDetail j0 = Ok q0 → decodeQuorumDetail j1 = Ok q1 → binding_material c0 q0 = Ok m0 →
    binding_material c1 q1 = Ok m1 → digest_json m0 = digest_json m1 → m0 = m1.

(** A wait that was over is not made longer. *)
Definition no_longer (j0 j1 : json) : Prop :=
  ∀ w0 w1, decodeDelayDetail j0 = Ok w0 → decodeDelayDetail j1 = Ok w1 → (dd_ReleaseAt w1 <= dd_ReleaseAt w0)%Z.

Definition fair (d0 : Decision) (r0 : ChallengeProgress) (d1 : Decision) (r1 : ChallengeProgress) : Prop :=
  (cp_Kind r0 = ChallengeQuorum → no_collision (contextOf d0) (contextOf d1) (cp_Detail r0) (cp_Detail r1)) ∧
  (cp_Kind r0 = ChallengeDelay → cp_State r0 = StateSatisfied → no_longer (cp_Detail r0) (cp_Detail r1)).

(** A quorum's detail that carries the hash of a decision. *)
Record issued_for (d1 : Decision) (q : QuorumDetail) (m : json) : Prop := {
  if_exact : Float64.exact_int (qd_Threshold q) = true;
  if_mode : qd_Mode q ≠ "";
  if_members : normalizeMembers (qd_Members q) = qd_Members q;
  if_threshold : (1 <= qd_Threshold q)%Z;
  if_material : binding_material (contextOf d1) q = Ok m;
  if_hash : qd_BindingHash q = digest_json m }.

Lemma issued_quorum d1 qc req res :
  quorum_issue qc req = Ok res → same_decision (ir_Decision req) (contextOf d1) → spec_exact (ir_Spec req) →
  ∃ q m, res = mkIssueResult StatePending (Some (encodeQuorumDetail q)) None false 0 ∧ issued_for d1 q m.
Proof.
  intros (spec & det & sum & Hs & Hd & Hsum & ->)%quorum_issue_inv Hctx He. rewrite Hs in He. simpl in He.
  apply quorum_resolve_inv in Hd as (Et & Hpos & _ & _ & Hmode & Hn & _). apply resolved_mode in Hmode.
  apply res_bind_Ok in Hsum as (m & Hm & [= Esum]). exists (with_hash det sum), m. split; [done|].
  split; simpl; try done; [by rewrite Et|lia|]. rewrite <-Hm. symmetry. apply binding_material_proper; [done|by split].
Qed.

Context `{!RevalidatorHandlers} (T : Time.t) (d0 d1 : Decision) (i : rebind) (db : DB).
Let X := d_ID (rb_decision i).
Let r0 := rb_stored i.
Let o := rb_ordinal i.

(** The row the rebind is about, and what it stood for before the revision. *)
Record before : Prop := {
  be_row : r0 ∈ rows X db;
  be_ordinal : cp_Ordinal r0 = o;
  be_kind : cp_Kind r0 = Challenge_ChallengeType (rb_spec i);
  be_nodup : NoDup (map cp_Ordinal (rows X db));
  be_ok : row_ok T d0 (votes X db) r0;
  be_exact : spec_exact (rb_spec i);
  be_context : same_decision (rb_context i) (contextOf d1);
  be_now : (rb_now i <= T)%Z }.

(** The row the rebind leaves. *)
Definition after (out : rebound) (db' : DB) : Prop := ∃ r1 keep,
  look X db' = put o r1 keep (look X db) ∧ cp_DecisionID r1 = X ∧ cp_Ordinal r1 = o ∧ cp_Kind r1 = cp_Kind r0 ∧
  (bo_timerMoved out = false → timer r1 = timer r0) ∧
  (fair d0 r0 d1 r1 → row_ok T d1 (lv_votes (put o r1 keep (look X db))) r1).

Context (B : before).

Lemma r0_id : cp_DecisionID r0 = X.
Proof. by destruct (proj1 (elem_of_rows _ _ _) (be_row B)). Qed.

Lemma look_row f : (∀ r, cp_DecisionID (f r) = cp_DecisionID r) → look X (with_progress (map (λ r, if is_row X o r then f r else r)) db) =
  put o (f r0) true (look X db).
Proof. intros Hf. apply look_update; [apply (be_nodup B)|apply (be_row B)|apply (be_ordinal B)|done]. Qed.

Lemma look_kept : look X db = put o r0 true (look X db).
Proof. symmetry. apply put_untouched; [apply (be_nodup B)|apply (be_row B)|apply (be_ordinal B)]. Qed.

(** A kind without evidence of its own. *)
Lemma row_ok_plain r vs : cp_Kind r ≠ ChallengeQuorum → cp_Kind r ≠ ChallengeDelay → CState_Valid (cp_State r) = true →
  canonical (cp_Detail r) = cp_Detail r → (cp_Kind r = ChallengeMFA → cp_Deadline r = None) → row_ok T d1 vs r.
Proof. intros. split; naive_solver. Qed.

Lemma kept_plain : cp_Kind r0 ≠ ChallengeQuorum → cp_Kind r0 ≠ ChallengeDelay → after untouched db.
Proof.
  intros Hq Hd. exists r0, true. split_and!; [apply look_kept|apply r0_id|apply (be_ordinal B)|done|done|]. intros _.
  destruct (be_ok B). apply row_ok_plain; auto.
Qed.

Lemma after_external db' out : rebindExternal i db = Ok (out, db') → Challenge_ChallengeType (rb_spec i) = ChallengeExternal → after out db'.
Proof.
  unfold rebindExternal. destruct (rb_spec i) as [| | |spec] eqn:Es; try done. intros Hr _.
  pose proof (be_kind B) as Hk. rewrite Es in Hk. simpl in Hk. fold r0 in Hk.
  assert (after untouched db) as Hkept by (apply kept_plain; by rewrite Hk).
  apply tx_bind_Ok in Hr as (stored & db1 & [_ ->]%tx_lift_Ok & Hr).
  destruct (bool_decide _); [by injection Hr as <- <-|]. destruct (bool_decide _); [by injection Hr as <- <-|].
  apply tx_bind_Ok in Hr as (u & db1 & [= _ <-] & [= <- <-]).
  eexists _, true. split_and!; [by apply look_row|apply r0_id|apply (be_ordinal B)|done|done|]. intros _.
  apply row_ok_plain; cbn [cp_Kind cp_State cp_Deadline cp_Detail set_external set_mfa]; fold r0; try done; try by rewrite Hk. apply jsonb_canonical, exact_external.
Qed.

Lemma reissue_inv detail : reissue rv i = Ok detail → ∃ h res, TxRegistry_Handler (rv_challenges rv) (Challenge_ChallengeType (rb_spec i)) = Ok h ∧
  th_Issue h (mkIssueRequest (rebind_instance i) (rb_spec i) (rb_context i) (rb_now i)) = Ok res ∧ detail = default JNull (is_Detail res).
Proof. unfold reissue. intros (h & Hh & (res & Hi%wrapped_Ok & [= <-])%res_bind_Ok)%res_bind_Ok. eauto. Qed.

Lemma after_mfa db' out : rebindMFA rv i db = Ok (out, db') → Challenge_ChallengeType (rb_spec i) = ChallengeMFA → after out db'.
Proof.
  unfold rebindMFA. destruct (rb_spec i) as [|spec| |] eqn:Es; try done. intros Hr _.
  pose proof (be_kind B) as Hk. rewrite Es in Hk. simpl in Hk. fold r0 in Hk.
  assert (cp_Deadline r0 = None) as Hdl by (apply (lr_timeless _ _ _ _ (be_ok B)); by right).
  assert (after untouched db) as Hkept by (apply kept_plain; by rewrite Hk).
  apply tx_bind_Ok in Hr as (bound & db1 & [_ ->]%tx_lift_Ok & Hr).
  apply tx_bind_Ok in Hr as (asked & db1 & Ha & Hr).
  assert (db1 = db) as -> by (destruct bound; [by apply tx_lift_Ok in Ha as [_ ->]|by injection Ha as _ <-]).
  destruct asked; [by injection Hr as <- <-|].
  apply tx_bind_Ok in Hr as (detail & db1 & [(h & res & Hh & Hi & ->)%reissue_inv ->]%tx_lift_Ok & Hr).
  destruct (same_text _ _); [by injection Hr as <- <-|].
  apply tx_bind_Ok in Hr as (u & db1 & [= _ <-] & [= <- <-]).
  rewrite Es in Hh. destruct (rh_mfa _ _ _ Hh Hi) as [_ He].
  eexists _, true. split_and!; [by apply look_row|apply r0_id|apply (be_ordinal B)|done| |].
  - intros _. unfold timer. simpl. fold r0. rewrite Hdl. by destruct (bool_decide _).
  - intros _. apply row_ok_plain; cbn [cp_Kind cp_State cp_Deadline cp_Detail set_external set_mfa]; fold r0; try done; try by rewrite Hk. by apply jsonb_canonical.
Qed.

Lemma decode_hash j q : decodeQuorumDetail j = Ok q → (let? fs := fields_of j in dec_string (field "binding_hash" fs)) = Ok (qd_BindingHash q).
Proof.
  unfold decodeQuorumDetail, unmarshalQuorumDetail. destruct (fields_of j) as [fs|]; [|done]. simpl.
  repeat match goal with |- context [res_bind ?m _] => destruct m; [|done]; simpl end. case_bool_decide; [done|]. by intros [= <-].
Qed.

Lemma bindingHashOf_digest j q m : decodeQuorumDetail j = Ok q → qd_BindingHash q = digest_json m → bindingHashOf j = Ok (digest_json m).
Proof.
  intros Hq E. unfold bindingHashOf. rewrite (decode_hash _ _ Hq), E.
  destruct (lower_hex_ToLower _ (digest_json_hex m)) as (-> & -> & ->). done.
Qed.

Lemma bindingHashOf_encoded q m : qd_BindingHash q = digest_json m → bindingHashOf (encodeQuorumDetail q) = Ok (digest_json m).
Proof.
  intros E. unfold bindingHashOf, encodeQuorumDetail. cbn [fields_of res_bind app]. read_field.
  cbn [dec_string]. rewrite E.
  destruct (lower_hex_ToLower _ (digest_json_hex m)) as (-> & -> & ->). done.
Qed.

Lemma quorumStateAfter_encoded id n q db1 st :
  quorumStateAfter id n (encodeQuorumDetail q) db1 = Ok st →
  CState_Valid st = true ∧ (st = StateSatisfied → (qd_Threshold q <= tally_votes n (votes id db1))%Z).
Proof.
  unfold quorumStateAfter, encodeQuorumDetail. cbn [fields_of res_bind app]. read_field. cbn [dec_int].
  destruct (_ && _) eqn:E; intros [= <-]; [|done]. split; [done|]. intros _.
  apply andb_true_iff in E as [_ E%Z.leb_le]. by rewrite CountApprovals_view in E.
Qed.

(** Votes kept on a quorum were given over the material it now stands for. *)
Lemma votes_carry q0 q1 m0 m1 a :
  decodeQuorumDetail (cp_Detail r0) = Ok q0 → binding_material (contextOf d0) q0 = Ok m0 → qd_BindingHash q0 = digest_json m0 →
  normalizeMembers (qd_Members q0) = qd_Members q0 → binding_material (contextOf d1) q1 = Ok m1 → qd_BindingHash q1 = digest_json m1 →
  normalizeMembers (qd_Members q1) = qd_Members q1 → digest_json m0 = digest_json m1 → m0 = m1 →
  ap_BindingHash a = qd_BindingHash q0 ∧ (qd_Mode q0 = ResolveClaim ∨ ap_ApproverID a ∈ qd_Members q0) →
  ap_BindingHash a = qd_BindingHash q1 ∧ (qd_Mode q1 = ResolveClaim ∨ ap_ApproverID a ∈ qd_Members q1).
Proof.
  intros _ Hm0 Eh0 En0 Hm1 Eh1 En1 _ <- [Eh Hw]. destruct (binding_material_inj _ _ _ _ _ Hm0 Hm1) as [_ [Emode _ _ _ Emem]].
  split; [congruence|]. destruct Hw as [Hc|Hin]; [left; congruence|].
  destruct (decide (qd_Mode q0 = ResolveClaim)) as [Hc|Hc]; [left; congruence|]. right. by rewrite <-En1, <-(Emem Hc), En0.
Qed.

Lemma reissued_quorum detail :
  reissue rv i = Ok detail → Challenge_ChallengeType (rb_spec i) = ChallengeQuorum →
  ∃ q m, detail = encodeQuorumDetail q ∧ issued_for d1 q m.
Proof.
  intros (h & res & Hh & Hi & ->)%reissue_inv Hk. rewrite Hk in Hh. destruct (rh_quorum _ Hh) as [qc ->]. simpl in Hi.
  apply (issued_quorum d1) in Hi as (q & m & -> & Q); [by exists q, m|apply (be_context B)|apply (be_exact B)].
Qed.

(** The row a rebound quorum leaves, over the votes left on it. *)
Lemma quorum_row_ok q1 m1 st preserved :
  issued_for d1 q1 m1 → cp_Kind r0 = ChallengeQuorum → PreservesApprovals (cp_Detail r0) (encodeQuorumDetail q1) = Ok preserved →
  CState_Valid st = true →
  let vs := if preserved then votes X db else filter (λ a, ap_Ordinal a ≠ o) (votes X db) in
  (st = StateSatisfied → (qd_Threshold q1 <= tally_votes o vs)%Z) →
  fair d0 r0 d1 (set_quorum (encodeQuorumDetail q1) st r0) → row_ok T d1 vs (set_quorum (encodeQuorumDetail q1) st r0).
Proof.
  intros Q1 Hk Hp Hval vs Hsat [Hfair _]. specialize (Hfair Hk). set (r1 := set_quorum _ st r0) in *.
  destruct (lr_bound _ _ _ _ (be_ok B) Hk) as (q0 & Hq0 & _ & (m0 & Hm0 & [= Eh0])%res_bind_Ok & Hn0).
  pose proof (quorum_jsonb q1 (if_exact _ _ _ Q1) (if_mode _ _ _ Q1)) as Hdec. change (jsonb _) with (cp_Detail r1) in Hdec.
  split; cbn [r1 set_quorum cp_Kind cp_State cp_Deadline cp_Ordinal].
  - done.
  - by apply jsonb_canonical, exact_quorum, (if_exact _ _ _ Q1).
  - intros _ Hs. exists q1. split; [done|]. rewrite (be_ordinal B). auto.
  - intros _. exists q1. split_and!; [done|apply (if_threshold _ _ _ Q1)| |apply (if_members _ _ _ Q1)].
    unfold ApprovalBindingHash. by rewrite (if_material _ _ _ Q1), (if_hash _ _ _ Q1).
  - intros q a _ Hq Ha Eo. rewrite Hdec in Hq. injection Hq as <-. subst vs. destruct preserved; cycle 1.
    { apply list_elem_of_filter in Ha as [N _]. by rewrite (be_ordinal B) in Eo. }
    unfold PreservesApprovals in Hp. rewrite (bindingHashOf_digest _ _ m0 Hq0), (bindingHashOf_encoded q1 m1) in Hp by (done || apply Q1).
    injection Hp as [_ Ep%bool_decide_eq_true]%andb_true_iff.
    eapply (votes_carry q0 q1 m0 m1); try apply Q1; try done; [apply (Hfair q0 q1); try done; apply Q1|by apply (lr_voters _ _ _ _ (be_ok B))].
  - by rewrite Hk.
  - intros _. apply (lr_timeless _ _ _ _ (be_ok B)). by left.
Qed.

Lemma after_quorum db' out : rebindQuorum rv i db = Ok (out, db') → Challenge_ChallengeType (rb_spec i) = ChallengeQuorum → after out db'.
Proof.
  intros Hr Hk0. pose proof (be_kind B) as Hk. rewrite Hk0 in Hk. fold r0 in Hk.
  assert (cp_Deadline r0 = None) as Hdl by (apply (lr_timeless _ _ _ _ (be_ok B)); by left).
  unfold rebindQuorum in Hr. fold X o in Hr.
  apply tx_bind_Ok in Hr as (detail & ? & [Hi ->]%tx_lift_Ok & Hr).
  destruct (reissued_quorum _ Hi Hk0) as (q1 & m1 & -> & Q1).
  apply tx_bind_Ok in Hr as (preserved & ? & [Hp ->]%tx_lift_Ok & Hr).
  assert (same_text (cp_Detail (rb_stored i)) (encodeQuorumDetail q1) = false) as Est by (by destruct (cp_Detail (rb_stored i)) as [| | | | | | |[]]).
  rewrite Est, andb_false_r in Hr. apply tx_bind_Ok in Hr as (dropped & db1 & Hdrop & Hr).
  apply tx_bind_Ok in Hr as (st' & ? & (st & Hst & [= <- <-])%res_bind_Ok & Hr).
  apply tx_bind_Ok in Hr as (u & db2 & [= _ <-] & Hr). apply tx_bind_Ok in Hr as (u' & db3 & Haud & [= <- <-]).
  apply quorumStateAfter_encoded in Hst as [Hval Hsat].
  assert (look X db1 = mkLook (db_decisions db !! X) (rows X db) (if preserved then votes X db else filter (λ a, ap_Ordinal a ≠ o) (votes X db))
            (length (creations X (db_audit db))) (length (resolutions X (db_audit db)))) as El1.
  { destruct preserved; [by injection Hdrop as _ <-|]. by apply (look_drop _ _ _ dropped). }
  assert (rows X db1 = rows X db ∧ votes X db1 = if preserved then votes X db else filter (λ a, ap_Ordinal a ≠ o) (votes X db)) as [Er1 Ev1].
  { unfold look in El1. by injection El1. }
  rewrite Ev1 in Hsat. exists (set_quorum (encodeQuorumDetail q1) st r0), preserved.
  split_and!; [|apply r0_id|apply (be_ordinal B)|done| |intros Hf; by apply (quorum_row_ok q1 m1)].
  - transitivity (look X (with_progress (map (λ r, if is_row X o r then set_quorum (encodeQuorumDetail q1) st r else r)) db1)).
    + destruct preserved; [by injection Haud as _ <-|]. injection Haud as _ <-. by apply look_append.
    + rewrite (look_update X o _ r0); [|rewrite Er1; apply (be_nodup B)|rewrite Er1; apply (be_row B)|apply (be_ordinal B)|done].
      by rewrite El1.
  - intros _. unfold timer. cbn [cp_State cp_Deadline set_quorum]. rewrite Hdl. by repeat case_bool_decide.
Qed.

Lemma row_ok_delay r vs : cp_Kind r = ChallengeDelay → CState_Valid (cp_State r) = true → canonical (cp_Detail r) = cp_Detail r →
  (cp_State r = StateSatisfied → delay_met T (cp_Detail r)) → row_ok T d1 vs r.
Proof. intros Hk. intros Hv Hc Hm. split; try done; rewrite Hk; try done. by intros []. Qed.

Lemma rebound_delay_spec stored opened spec next moved :
  rebound_delay stored opened spec = (next, moved) → dd_CancelledAt next = dd_CancelledAt stored ∧ (moved = false → next = stored).
Proof. unfold rebound_delay. destruct (_ =? _)%Z; intros [= <- <-]; done. Qed.

Lemma statusOf_delay detail deadline st :
  statusOf rv i (encodeDelayDetail detail) deadline = Ok st → Challenge_ChallengeType (rb_spec i) = ChallengeDelay →
  CState_Valid st = true ∧ dd_ReleaseAt detail ≠ Time.zero ∧
  (st = StateSatisfied → cp_State r0 = StateSatisfied ∨ dd_CancelledAt detail = None ∧ (dd_ReleaseAt detail <= T)%Z).
Proof.
  unfold statusOf. intros (h & Hh & (res & Hres%wrapped_Ok & Hst)%res_bind_Ok)%res_bind_Ok Hk.
  rewrite Hk in Hh. destruct (rh_delay _ Hh) as [dc ->]. simpl in Hres. unfold delay_status in Hres. simpl in Hres.
  apply res_bind_Ok in Hres as (x & (Hz & E1 & E2)%delay_raw & [= <-]). simpl in Hst.
  destruct (CState_Valid _) eqn:Ev; [|done]. injection Hst as <-. split_and!; [done..|]. fold r0. unfold delay_state. rewrite E1, E2.
  destruct (CState_Terminal (cp_State r0)); [by left|]. destruct (dd_CancelledAt detail); [done|].
  unfold Time.Before. destruct (Z.ltb_spec (rb_now i) (dd_ReleaseAt detail)); [done|]. intros _. right. split; [done|].
  pose proof (be_now B). lia.
Qed.

Lemma after_delay at_ db' out : rebindDelay rv at_ i db = Ok (out, db') → Challenge_ChallengeType (rb_spec i) = ChallengeDelay → after out db'.
Proof.
  unfold rebindDelay. intros Hr Hk0. pose proof (be_kind B) as Hk. rewrite Hk0 in Hk. fold r0 in Hk.
  destruct (rb_spec i) as [| |spec|] eqn:Es; try done. destruct (_ <=? 0)%Z; [done|]. fold r0 X o in Hr.
  apply tx_bind_Ok in Hr as (stored & ? & [Hw%wrapped_Ok ->]%tx_lift_Ok & Hr).
  apply tx_bind_Ok in Hr as (opened & ? & [_ ->]%tx_lift_Ok & Hr).
  destruct (rebound_delay stored opened spec) as [next moved] eqn:En. apply rebound_delay_spec in En as [Ec Hsame].
  apply tx_bind_Ok in Hr as (authority & ? & [_ ->]%tx_lift_Ok & Hr).
  assert (∀ w, delay_met w (cp_Detail r0) → dd_CancelledAt stored = None ∧ (dd_ReleaseAt stored <= w)%Z) as Hmet.
  { intros w (dd & Hdd & Hc & Hrel). rewrite Hw in Hdd. by injection Hdd as <-. }
  assert (dd_ReleaseAt stored ≠ Time.zero) as Hz0.
  { unfold decodeDelayDetail in Hw. destruct (unmarshalDelayDetail _) as [y|]; [|done]. unfold Time.IsZero in Hw.
    case_bool_decide; [done|]. by injection Hw as <-. }
  pose proof (be_ok B) as Hok. destruct moved; simpl in Hr.
  - apply tx_bind_Ok in Hr as (st & ? & [Hst ->]%tx_lift_Ok & Hr). apply tx_bind_Ok in Hr as (u & db1 & [= _ <-] & [= <- <-]).
    apply statusOf_delay in Hst as (Hv & Hz & Hsat); [|by rewrite Es]. simpl in Hz, Hsat.
    eexists _, true. split_and!; [by apply look_row|apply r0_id|apply (be_ordinal B)|done|done|]. intros [_ Hfair].
    pose proof (delay_jsonb (with_authority authority.1 next) Hz) as Hdec.
    apply row_ok_delay; [done|done|by apply jsonb_canonical, exact_delay|]. cbn [set_delay cp_State cp_Detail]. intros Hs.
    eexists. split; [exact Hdec|]. simpl. destruct (Hsat Hs) as [Hs0|Hrel]; [|done].
    destruct (Hmet T (lr_wait _ _ _ _ Hok Hk Hs0)) as [Hc Hrel]. split; [by rewrite Ec|].
    specialize (Hfair Hk Hs0 _ _ Hw Hdec). simpl in Hfair. lia.
  - rewrite (Hsame eq_refl) in *. destruct authority as [a []]; simpl in Hr.
    + apply tx_bind_Ok in Hr as (u & db1 & [= _ <-] & [= <- <-]).
      eexists _, true. split_and!; [by apply look_row|apply r0_id|apply (be_ordinal B)|done|done|]. intros _.
      apply row_ok_delay; [done|apply (lr_state _ _ _ _ Hok)|by apply jsonb_canonical, exact_delay|].
      cbn [set_detail cp_State cp_Detail]. intros Hs. eexists. split; [by apply delay_jsonb|]. apply Hmet, (lr_wait _ _ _ _ Hok Hk Hs).
    + injection Hr as <- <-. exists r0, true. split_and!; [apply look_kept|apply r0_id|apply (be_ordinal B)|done|done|]. intros _.
      apply row_ok_delay; [done|apply (lr_state _ _ _ _ Hok)|apply (lr_canon _ _ _ _ Hok)|apply (lr_wait _ _ _ _ Hok Hk)].
Qed.

Lemma after_rebind at_ db' out : rebind_one rv at_ i db = Ok (out, db') → after out db'.
Proof.
  unfold rebind_one. destruct (Challenge_ChallengeType (rb_spec i)) eqn:Ek; intros Hr; try done.
  - by apply after_quorum.
  - by apply after_mfa.
  - by eapply after_delay.
  - by apply after_external.
Qed.
End step.
