(* ===== verification/RevalidateInv.v ===== *)
(** * Evidence across a revision

    The invariant that ties decisions to their evidence, through [Apply]: the rows of
    a decision are rebound one after the other, the decision is settled, and the
    decisions are considered one after the other. *)
From Stdlib Require Import Ascii.
From S2P Require Import Prelude GoLib Policy Cel Engine EngineSpec Json Store StoreInv World Text.
From S2P Require Import Challenge Quorum Delay HandlerSpec External Mfa Service Revalidate ServiceSafe ServiceInv RevalidateSpec.
Import Strings.

(** ** Rebinding the rows of a decision, one after the other *)

Lemma tally_votes_at o (vs vs' : list Approval) :
  filter (λ a, ap_Ordinal a = o) vs = filter (λ a, ap_Ordinal a = o) vs' → tally_votes o vs = tally_votes o vs'.
Proof.
  intros E. unfold tally_votes.
  transitivity (Z.of_nat (length (remove_dups (map ap_ApproverID (filter (λ a, ap_Verdict a = VerdictApprove) (filter (λ a, ap_Ordinal a = o) vs))))));
    [|rewrite E]; rewrite list_filter_filter; do 4 f_equal; apply list_filter_iff; naive_solver.
Qed.

(** Two rows of a decision that put the same before an approver. *)
Record kin (d d' : Decision) : Prop := {
  kin_context : contextOf d' = contextOf d;
  kin_key : d_IdempotencyKey d' = d_IdempotencyKey d;
  kin_fingerprint : d_IdempotencyFingerprint d' = d_IdempotencyFingerprint d }.

#[export] Instance kin_preorder : PreOrder kin.
Proof. split; [by intros d|]. intros a b c [] []. split; by etrans. Qed.

Lemma kin_deadline at_ t d : kin d (with_deadline at_ t d).
Proof. unfold with_deadline. destruct t as [t|]; [destruct (Time.Before t _)|]; by split. Qed.
Lemma kin_resolved at_ s d : kin d (resolved_row at_ s None d).
Proof. by split. Qed.

Definition resolved_times (s : DecisionState) : nat := if DecisionState_Terminal s then 1 else 0.

Section kin.
Context `{Digest}.

Lemma row_ok_kin T d d' vs r : kin d d' → row_ok T d vs r → row_ok T d' vs r.
Proof. intros K []. split; try done. by rewrite (kin_context _ _ K). Qed.

Lemma shape_kin X d d' v n :
  shape_ok X d v → kin d d' → n = resolved_times (d_State d') →
  shape_ok X d' (mkLook (Some d') (lv_rows v) (lv_votes v) (lv_created v) n).
Proof.
  intros S [Ec Ek Ef] ->. split; simpl; [done| |apply S|apply S|apply S|by rewrite Ek, Ef; apply S|apply S|done].
  rewrite <-(ls_id _ _ _ S). by injection Ec.
Qed.

Lemma local_kin T X d d' v n :
  shape_ok X d v → (∀ r, r ∈ lv_rows v → row_ok T d (lv_votes v) r) → kin d d' → n = resolved_times (d_State d') →
  (d_State d' = DecisionAllowed → ∀ r, r ∈ lv_rows v → cp_State r = StateSatisfied) → deadline_ok X d' (lv_rows v) →
  local_ok T X d' (mkLook (Some d') (lv_rows v) (lv_votes v) (lv_created v) n).
Proof.
  intros Hs Hr K Hn Ha Hd. split; simpl; [by eapply shape_kin|..|done].
  - intros r Hin. eapply row_ok_kin; [done|auto].
  - auto.
Qed.

Lemma deadline_with at_ X d (rs : list ChallengeProgress) : d_State d = DecisionPending → deadline_ok X (with_deadline at_ (soonest X rs) d) rs.
Proof.
  intros Hp. destruct (with_deadline_fields at_ (soonest X rs) d) as (_ & _ & Es & Ee & _ & _ & E1 & E2).
  unfold deadline_ok. rewrite Es, Ee, E1, E2, bool_decide_eq_true_2 by done. done.
Qed.
End kin.

Lemma look_refresh X at_ d db :
  db_decisions db !! X = Some d → d_State d = DecisionPending →
  look X (refreshNextDeadline X at_ db) = with_decision (with_deadline at_ (soonest X (rows X db)) d) (look X db).
Proof.
  intros Ed Hp. unfold refreshNextDeadline. rewrite Ed, bool_decide_eq_true_2 by done. rewrite look_decision.
  unfold rows. by rewrite soonest_rows_of.
Qed.

Lemma sameShape_spec stored specs :
  sameShape stored specs = true →
  map fst (zip stored specs) = stored ∧
  ∀ k row spec, zip stored specs !! k = Some (row, spec) → cp_Ordinal row = Z.of_nat k ∧ cp_Kind row = Challenge_ChallengeType spec.
Proof.
  unfold sameShape. intros [El%Nat.eqb_eq Hf]%andb_true_iff. split; [apply fst_zip; lia|]. intros k row spec Hk.
  rewrite forallb_true in Hf. specialize (Hf (k, (row, spec))). simpl in Hf.
  assert ((k, (row, spec)) ∈ imap pair (zip stored specs)) as Hin.
  { apply list_elem_of_lookup. exists k. by rewrite list_lookup_imap, Hk. }
  apply Hf, andb_true_iff in Hin as [E1%Z.eqb_eq E2%bool_decide_eq_true]. done.
Qed.

Section loop.
Context `{CEL} `{Digest} (rv : Revalidator) `{!RevalidatorHandlers rv} (T now : Time.t) (Hnow : (now <= T)%Z).

(** A row's evidence is the votes at its ordinal. *)
Lemma row_ok_votes d vs vs' r :
  filter (λ a, ap_Ordinal a = cp_Ordinal r) vs = filter (λ a, ap_Ordinal a = cp_Ordinal r) vs' → row_ok T d vs r → row_ok T d vs' r.
Proof.
  intros E [H1 H2 H3 H4 H5 H6 H7]. split; try done.
  - intros Hk Hs. destruct (H3 Hk Hs) as (q & Hq & Ht). exists q. by rewrite <-(tally_votes_at _ _ _ E).
  - intros q a Hk Hq Ha Eo. apply H5; try done. assert (a ∈ filter (λ a, ap_Ordinal a = cp_Ordinal r) vs) as Hin.
    { rewrite E. by apply list_elem_of_filter. }
    by apply list_elem_of_filter in Hin as [_ ?].
Qed.

Lemma put_votes_other o r1 keep v o' :
  o' ≠ o → filter (λ a, ap_Ordinal a = o') (lv_votes (put o r1 keep v)) = filter (λ a, ap_Ordinal a = o') (lv_votes v).
Proof.
  intros Hne. unfold put. simpl. destruct keep; [done|]. rewrite list_filter_filter. apply list_filter_iff. naive_solver.
Qed.

Context (X : string) (d0 d1 : Decision) (db0 : DB).

(** No collision and no lengthened wait, against the rows the decision had. *)
Definition fair_to (r1 : ChallengeProgress) : Prop :=
  ∀ r0, r0 ∈ rows X db0 → cp_Ordinal r0 = cp_Ordinal r1 → cp_Kind r0 = cp_Kind r1 → fair d0 r0 d1 r1.

(** Between two rebinds: [todo] holds the rows not reached yet. *)
Record mid (todo : list ChallengeProgress) (moved : bool) (db : DB) : Prop := {
  mi_decision : db_decisions db !! X = Some d1;
  mi_created : lv_created (look X db) = lv_created (look X db0);
  mi_resolved : lv_resolved (look X db) = lv_resolved (look X db0);
  mi_keys : map cp_Ordinal (rows X db) = map cp_Ordinal (rows X db0);
  mi_votes : votes X db `sublist_of` votes X db0;
  mi_todo : ∀ r, r ∈ todo → r ∈ rows X db ∧ r ∈ rows X db0 ∧ row_ok T d0 (votes X db) r;
  mi_done : ∀ r, r ∈ rows X db → r ∈ todo ∨ (fair_to r → row_ok T d1 (votes X db) r);
  mi_timer : moved = false → soonest X (rows X db) = soonest X (rows X db0) }.

Lemma mid_step at_ d ctx o spec row rev todo moved db out db' :
  NoDup (map cp_Ordinal (rows X db0)) → NoDup (map cp_Ordinal (row :: todo)) → d_ID d = X → same_decision ctx (contextOf d1) →
  cp_Ordinal row = o → cp_Kind row = Challenge_ChallengeType spec → spec_exact spec →
  mid (row :: todo) moved db → rebind_one rv at_ (mkRebind d ctx o spec row rev now) db = Ok (out, db') →
  mid todo (moved || bo_timerMoved out) db'.
Proof.
  intros Hnd Htd Hid Hctx Ho Hk Hex M Hr. destruct (mi_todo _ _ _ M row) as (Hin & Hin0 & Hok); [set_solver|].
  assert (NoDup (map cp_Ordinal (rows X db))) as Hnd1 by (by rewrite (mi_keys _ _ _ M)).
  apply (after_rebind rv T d0 d1) in Hr; [|split; cbn [rb_decision rb_stored]; rewrite ?Hid; done]. cbn [rb_decision rb_ordinal rb_stored] in Hr.
  destruct Hr as (r1 & keep & El & Eid & Eo & Ek & Et & Hrow). cbn [rb_decision rb_ordinal rb_stored] in *. rewrite Hid in El, Eid, Hrow.
  assert (rows X db' = map (λ r, if (cp_Ordinal r =? o)%Z then r1 else r) (rows X db)) as Er' by (by injection El).
  assert (votes X db' = lv_votes (put o r1 keep (look X db))) as Ev' by (by injection El).
  assert (∀ r, r ∈ rows X db → cp_Ordinal r = o → r = row) as Hrow_at.
  { intros r Hr E. eapply row_at; [exact Hnd1|done|done|congruence]. }
  assert (∀ d' r, cp_Ordinal r ≠ o → row_ok T d' (votes X db) r → row_ok T d' (votes X db') r) as Hkeep.
  { intros d' r Hne. apply row_ok_votes. rewrite Ev'. symmetry. by apply put_votes_other. }
  split.
  - transitivity (lv_decision (look X db')); [done|]. rewrite El. apply (mi_decision _ _ _ M).
  - rewrite El. apply (mi_created _ _ _ M).
  - rewrite El. apply (mi_resolved _ _ _ M).
  - rewrite <-(mi_keys _ _ _ M), Er', map_map. apply map_ext. intros r. destruct (Z.eqb_spec (cp_Ordinal r) o); congruence.
  - etrans; [|apply (mi_votes _ _ _ M)]. rewrite Ev'. unfold put. simpl. destruct keep; [done|apply sublist_filter].
  - intros r Hr. destruct (mi_todo _ _ _ M r) as (H1 & H2 & H3); [set_solver|].
    assert (cp_Ordinal r ≠ o) as Hne.
    { simpl in Htd. apply NoDup_cons in Htd as [Hn _]. intros E. apply Hn. rewrite Ho, <-E. apply elem_of_map. eauto. }
    split_and!; [|done|by apply Hkeep]. rewrite Er'. apply elem_of_map. exists r. by rewrite (proj2 (Z.eqb_neq _ _) Hne).
  - intros r. rewrite Er'. intros (r' & -> & Hr')%elem_of_map. destruct (Z.eqb_spec (cp_Ordinal r') o) as [E|E].
    + right. intros Hf. rewrite Ev'. apply Hrow, Hf; [done|congruence|done].
    + destruct (mi_done _ _ _ M r' Hr') as [Hin'|Hd]; [|right; intros Hf; apply Hkeep; auto].
      apply elem_of_cons in Hin' as [->|?]; [done|by left].
  - intros [Hm Ht]%orb_false_iff. rewrite <-(mi_timer _ _ _ M Hm), Er'. apply (soonest_put _ o row); try done; [|auto].
    rewrite Eid. symmetry. by apply elem_of_rows in Hin as [? _].
Qed.

Lemma mid_each at_ d ctx ps rev o acc db out db' :
  NoDup (map cp_Ordinal (rows X db0)) → NoDup (map cp_Ordinal (map fst ps)) → d_ID d = X → same_decision ctx (contextOf d1) →
  (∀ k row spec, ps !! k = Some (row, spec) → cp_Ordinal row = (o + Z.of_nat k)%Z ∧ cp_Kind row = Challenge_ChallengeType spec ∧ spec_exact spec) →
  mid (map fst ps) (bo_timerMoved acc) db → rebind_each rv at_ d ctx o ps rev now acc db = Ok (out, db') →
  mid [] (bo_timerMoved out) db'.
Proof.
  intros Hnd. revert o acc db. induction ps as [|[row spec] ps IH]; intros o acc db Hps Hid Hctx Hsp M; simpl.
  { by intros [= <- <-]. }
  intros (o1 & db1 & Hr & Hrest)%tx_bind_Ok. destruct (Hsp 0 row spec eq_refl) as (E1 & E2 & E3).
  eapply (mid_step at_ d ctx o spec row rev (map fst ps)) in Hr; [|try done..]; [|lia].
  eapply IH in Hrest; [done|simpl in Hps; by apply NoDup_cons in Hps as [_ ?]|done|done| |exact Hr].
  intros k row' spec' Hk. destruct (Hsp (S k) row' spec' Hk) as (F1 & F2 & F3). split_and!; [lia|done|done].
Qed.

(** The start of the loop: the decision's row rewritten, nothing rebound. *)
Record opening (db : DB) : Prop := {
  op_local : local_ok T X d0 (look X db0);
  op_pending : d_State d0 = DecisionPending;
  op_look : look X db = with_decision d1 (look X db0);
  op_id : d_ID d1 = X;
  op_key : d_IdempotencyKey d1 = d_IdempotencyKey d0 ∧ d_IdempotencyFingerprint d1 = d_IdempotencyFingerprint d0;
  op_state : d_State d1 = DecisionPending;
  op_deadline : d_ExpiresAt d1 = d_ExpiresAt d0 ∧ d_NextDeadline d1 = d_NextDeadline d0 ∧ d_NextDeadlineKind d1 = d_NextDeadlineKind d0 }.

(** Where the challenges of a decision are left: it is still pending, and every row
    is backed by the votes on it. *)
Definition rebuilt (db' : DB) : Prop := ∃ d2, db_decisions db' !! X = Some d2 ∧ kin d1 d2 ∧ d_State d2 = DecisionPending ∧
  ((∀ r, r ∈ rows X db' → fair_to r) → local_ok T X d2 (look X db')).

Lemma opening_shape db : opening db → shape_ok X d1 (look X db).
Proof.
  intros [L Hp El Hid [Hk Hf] Hs _]. destruct (lo_shape _ _ _ _ L) as [_ _ S3 S4 S5 S6 S7 S8]. rewrite El.
  split; simpl; try done; [by rewrite Hk, Hf|]. rewrite Hs. simpl in *. by rewrite Hp in S8.
Qed.

Lemma mid_rebuilt moved at_ db : opening db → ∀ db1, mid [] moved db1 →
  rebuilt (if moved then refreshNextDeadline X at_ db1 else db1).
Proof.
  intros O db1 M. pose proof (lo_shape _ _ _ _ (op_local _ O)) as S0.
  assert (shape_ok X d1 (look X db1)) as S1.
  { destruct (opening_shape _ O) as [_ S2 _ _ _ S6 _ _], S0 as [_ _ S3 S4 S5 _ S7 S8]. split; try done.
    - apply (mi_decision _ _ _ M).
    - simpl. by rewrite (mi_keys _ _ _ M).
    - eapply sublist_NoDup; [exact S4|]. apply fmap_sublist, (mi_votes _ _ _ M).
    - intros a Ha. simpl. rewrite (mi_keys _ _ _ M). apply S5. by eapply elem_of_sublist, (mi_votes _ _ _ M).
    - by rewrite (mi_created _ _ _ M).
    - by rewrite (mi_resolved _ _ _ M), S8, (op_pending _ O), (op_state _ O). }
  assert ((∀ r, r ∈ rows X db1 → fair_to r) → ∀ r, r ∈ lv_rows (look X db1) → row_ok T d1 (lv_votes (look X db1)) r) as R1.
  { intros Hf r Hr. destruct (mi_done _ _ _ M r Hr) as [?|Hd]; [set_solver|auto]. }
  destruct moved.
  - pose proof (look_refresh X at_ d1 db1 (mi_decision _ _ _ M) (op_state _ O)) as El.
    set (d2 := with_deadline _ _ _) in El. assert (kin d1 d2) as K by apply kin_deadline.
    assert (d_State d2 = DecisionPending) as Ep.
    { rewrite <-(op_state _ O). apply (with_deadline_fields at_ (soonest X (rows X db1)) d1). }
    exists d2. split_and!; [by injection El|done|done|].
    rewrite El. assert (rows X (refreshNextDeadline X at_ db1) = rows X db1) as -> by (by injection El). intros Hf.
    apply (local_kin T X d1); [done|by apply R1|done|by rewrite (ls_resolved _ _ _ S1), Ep, (op_state _ O)|by rewrite Ep|].
    apply deadline_with, (op_state _ O).
  - exists d1. split_and!; [apply (mi_decision _ _ _ M)|done|apply (op_state _ O)|]. intros Hf. split; [done|by apply R1|by rewrite (op_state _ O)|].
    pose proof (lo_deadline _ _ _ _ (op_local _ O)) as Hd. unfold deadline_ok in *. simpl in *.
    rewrite (op_pending _ O) in Hd. rewrite (op_state _ O). destruct (op_deadline _ O) as (E1 & E2 & E3).
    rewrite E1, E2, E3, (mi_timer _ _ _ M eq_refl). done.
Qed.

(** *** Challenges issued afresh *)

Record fresh (db : DB) : Prop := {
  fr_look : ∃ rs, look X db = mkLook (Some d1) rs [] (lv_created (look X db0)) (lv_resolved (look X db0));
  fr_nodup : NoDup (map cp_Ordinal (rows X db));
  fr_rows : ∀ r, r ∈ rows X db → row_ok T d1 [] r }.

(** The row [issue] adds. *)
Definition issued_row (d : Decision) (o : Z) (k : ChallengeType) (res : IssueResult) : ChallengeProgress :=
  mkProgress (d_ID d) o k (is_State res) (truncPtr ((λ t, if Time.After t (d_ExpiresAt d) then d_ExpiresAt d else t) <$> is_Deadline res)) None
    (jsonb (default JNull (is_Detail res))).

Lemma issued_row_ok d ctx o spec res h :
  same_decision ctx (contextOf d1) → spec_exact spec → TxRegistry_Handler (rv_challenges rv) (Challenge_ChallengeType spec) = Ok h →
  th_Issue h (mkIssueRequest (mkInstance (d_ID d) o (Challenge_ChallengeType spec)) spec ctx now) = Ok res →
  CState_Valid (is_State res) = true → row_ok T d1 [] (issued_row d o (Challenge_ChallengeType spec) res).
Proof.
  intros Hctx He Hh Hi Hv. destruct spec as [q|m|w|x]; simpl in Hh, Hi; cbn [Challenge_ChallengeType].
  - destruct (rh_quorum _ _ Hh) as [qc ->]. apply (issued_quorum d1) in Hi as (q1 & m1 & -> & Q); [|done|done].
    pose proof (quorum_jsonb q1 (if_exact _ _ _ Q) (if_mode _ _ _ Q)) as Hdec.
    split; cbn [issued_row cp_Kind cp_State cp_Detail cp_Deadline is_State is_Detail is_Deadline fmap option_fmap option_map truncPtr from_option id]; try done.
    + by apply jsonb_canonical, exact_quorum, (if_exact _ _ _ Q).
    + intros _. exists q1. split_and!; [done|apply Q| |apply Q]. unfold ApprovalBindingHash. by rewrite (if_material _ _ _ Q), (if_hash _ _ _ Q).
    + intros q' a _ _ Ha. set_solver.
  - destruct (rh_mfa _ _ _ _ Hh Hi) as [Hdl Hex].
    apply row_ok_plain; cbn [issued_row cp_Kind cp_State cp_Detail cp_Deadline]; try done; [by apply jsonb_canonical|by rewrite Hdl].
  - destruct (rh_delay _ _ Hh) as [dc ->]. apply delay_issue_inv in Hi as (spec & a & _ & _ & Es & _ & _ & Ed).
    apply row_ok_delay; cbn [issued_row cp_Kind cp_State cp_Detail]; rewrite ?Es, ?Ed; try done. by apply jsonb_canonical, exact_delay.
  - apply row_ok_plain; cbn [issued_row cp_Kind cp_State cp_Detail cp_Deadline]; try done. by eapply jsonb_canonical, rh_external.
Qed.

Lemma fresh_issue d ctx o spec db u db' :
  d_ID d = X → same_decision ctx (contextOf d1) → spec_exact spec → fresh db → issue rv d ctx o spec now db = Ok (u, db') → fresh db'.
Proof.
  intros Hid Hctx He [[rs El] Hnd Hrows]. unfold issue.
  intros (h & Hh & (res & Hi%wrapped_Ok & Hr)%res_bind_Ok)%res_bind_Ok.
  fold (issued_row d o (Challenge_ChallengeType spec) res) in Hr. set (r := issued_row _ _ _ _) in Hr.
  destruct (CState_Valid _) eqn:Hv; [|done]. destruct (rows_ok db [r]) eqn:Ho; [|done]. injection Hr as _ <-.
  apply andb_true_iff in Ho as [Ho%bool_decide_eq_true _].
  assert (rows X (with_progress (λ l, l ++ [r]) db) = rows X db ++ [r]) as Er.
  { unfold rows. simpl. by rewrite filter_app, filter_cons_True, filter_nil by done. }
  split.
  - exists (rows X db ++ [r]). injection El as E1 _ E2 E3 E4. unfold look at 1. rewrite Er. by f_equal.
  - apply (ordinals_nodup X) in Ho. exact Ho.
  - rewrite Er. intros r' [Hr'| ->%list_elem_of_singleton]%elem_of_app; [auto|]. by eapply issued_row_ok.
Qed.

Lemma fresh_each d ctx o specs db u db' :
  d_ID d = X → same_decision ctx (contextOf d1) → (∀ c, c ∈ specs → spec_exact c) → fresh db →
  issue_each rv d ctx o specs now db = Ok (u, db') → fresh db'.
Proof.
  intros Hid Hctx. revert o db. induction specs as [|c specs IH]; intros o db He F; simpl; [by intros [= _ <-]|].
  intros (? & db1 & Hi & Hr)%tx_bind_Ok. eapply IH in Hr; [done|set_solver|]. eapply fresh_issue, Hi; [done..|set_solver|done].
Qed.

Lemma fresh_rebuilt at_ db db1 : opening db → fresh db1 → rebuilt (refreshNextDeadline X at_ db1).
Proof.
  intros O F. destruct (fr_look _ F) as [rs El]. assert (db_decisions db1 !! X = Some d1) as Ed by (by injection El).
  pose proof (look_refresh X at_ d1 db1 Ed (op_state _ O)) as El2. set (d2 := with_deadline _ _ _) in El2.
  assert (d_State d2 = DecisionPending) as Ep.
  { rewrite <-(op_state _ O). apply (with_deadline_fields at_ (soonest X (rows X db1)) d1). }
  exists d2. split_and!; [by injection El2|apply kin_deadline|done|]. intros _. rewrite El2.
  assert (rs = rows X db1) as -> by (by injection El). rewrite El.
  assert (shape_ok X d1 (look X db1)) as S1.
  { rewrite El. destruct (opening_shape _ O) as [_ S2 _ _ _ S6 _ _], (lo_shape _ _ _ _ (op_local _ O)) as [_ _ _ _ _ _ S7 S8].
    split; cbn [lv_decision lv_rows lv_votes lv_created lv_resolved]; try done; [apply F|constructor|set_solver|].
    by rewrite S8, (op_pending _ O), (op_state _ O). }
  rewrite El in S1. apply (local_kin T X d1 d2 _ _ S1); [apply F|apply kin_deadline| |by rewrite Ep|apply deadline_with, (op_state _ O)].
  rewrite (ls_resolved _ _ _ S1), (op_state _ O), Ep. done.
Qed.

Lemma rebuilt_look db db' : look X db' = look X db → rebuilt db → rebuilt db'.
Proof.
  intros El (d2 & Ed & K & Hp & Hl). exists d2. assert (db_decisions db' !! X = db_decisions db !! X) as -> by (by injection El).
  assert (rows X db' = rows X db) as -> by (by injection El). by rewrite El.
Qed.

Lemma rebind_rebuilt at_ d specs rev db out db' :
  opening db → d_ID d = X → same_decision (contextOf d) (contextOf d1) → (∀ c, c ∈ specs → spec_exact c) →
  rebindChallenges rv at_ d specs rev now db = Ok (out, db') → rebuilt db'.
Proof.
  intros O Hid Hctx He. pose proof (op_look _ O) as El. pose proof (lo_shape _ _ _ _ (op_local _ O)) as S0.
  injection El as Ed Er Ev Ec En. unfold rebindChallenges.
  intros (stored & ? & [= <- <-] & Hr)%tx_bind_Ok. cbv zeta in Hr. rewrite Hid in Hr. destruct (sameShape _ specs) eqn:Es; simpl negb in Hr; cbn iota in Hr.
  - apply tx_bind_Ok in Hr as (o & db1 & Hl & Hr). apply tx_bind_Ok in Hr as (u & db2 & Href & [= _ <-]).
    apply sameShape_spec in Es as [Ez Hsp]. set (ps := zip _ _) in *.
    assert (map fst ps ≡ₚ rows X db) as Hperm by (rewrite Ez; unfold ChallengeProgressFor; apply sort_by_Permutation).
    eapply (mid_each at_ d (contextOf d) ps rev 0 untouched db) in Hl.
    + apply (mid_rebuilt (bo_timerMoved o) at_ _ O) in Hl. destruct (bo_timerMoved o); by injection Href as _ <-.
    + apply (ls_ordinals _ _ _ S0).
    + rewrite (Permutation_map cp_Ordinal Hperm), Er. apply (ls_ordinals _ _ _ S0).
    + done.
    + done.
    + intros k row c Hk. destruct (Hsp k row c Hk) as [E1 E2]. split_and!; [done|done|]. apply He.
      apply lookup_zip_with_Some in Hk as (x & y & [= -> ->] & _ & Hy). by apply list_elem_of_lookup_2 in Hy.
    + split; simpl; try done.
      * by rewrite Er.
      * by rewrite Ev.
      * intros r. rewrite Hperm, Er, Ev. intros Hin. split_and!; [done..|]. by apply (lo_rows _ _ _ _ (op_local _ O)).
      * intros r Hin. left. by rewrite Hperm.
      * by rewrite Er.
  - unfold reopenChallenges in Hr. apply tx_bind_Ok in Hr as (n & ? & [= <- <-] & Hr). rewrite Hid in Hr.
    apply tx_bind_Ok in Hr as (u1 & db1 & [= _ <-] & Hr). apply tx_bind_Ok in Hr as (u2 & db2 & Hi & Hr).
    apply tx_bind_Ok in Hr as (u3 & db3 & [= _ <-] & Hr). apply tx_bind_Ok in Hr as (u4 & db4 & Ha & [= _ <-]).
    eapply fresh_each in Hi; [|done|done|done|].
    + eapply (fresh_rebuilt at_ _ _ O), rebuilt_look in Hi; [exact Hi|]. destruct (0 <? _)%Z; injection Ha as _ <-; [by apply look_append|done].
    + assert (rows X (with_approvals (filter (λ a, ap_DecisionID a ≠ X)) (with_progress (filter (λ p, cp_DecisionID p ≠ X)) db)) = []) as En1.
      { apply elem_of_nil_inv. intros r [E Hr']%elem_of_rows. simpl in Hr'. by apply list_elem_of_filter in Hr' as [? _]. }
      assert (votes X (with_approvals (filter (λ a, ap_DecisionID a ≠ X)) (with_progress (filter (λ p, cp_DecisionID p ≠ X)) db)) = []) as En2.
      { apply elem_of_nil_inv. intros r [E Hr']%elem_of_votes. simpl in Hr'. by apply list_elem_of_filter in Hr' as [? _]. }
      split; [|rewrite En1; constructor|rewrite En1; set_solver].
      exists []. unfold look at 1. rewrite En1, En2. by f_equal.
Qed.
End loop.

(** ** Settling one decision *)

Lemma filter_full {A} (P : A → Prop) `{∀ x, base.Decision (P x)} (l : list A) x : length l = length (filter P l) → x ∈ l → P x.
Proof.
  induction l as [|y l IH]; [set_solver|]. rewrite filter_cons. case_decide; simpl.
  - intros E [->|Hx]%elem_of_cons; [done|]. apply IH; [lia|done].
  - intros E. pose proof (length_filter P l). lia.
Qed.

Lemma resolve_look `{Digest} T at_ d t reason rev d2 db u db' :
  db_decisions db !! d_ID d = Some d2 → d_State d2 = DecisionPending → d_State d = DecisionPending →
  (tn_to t = DecisionAllowed → ∀ r, r ∈ rows (d_ID d) db → cp_State r = StateSatisfied) →
  resolve_in_tx at_ d t reason rev db = Ok (u, db') →
  ∃ d3, db_decisions db' !! d_ID d = Some d3 ∧ kin d2 d3 ∧ rows (d_ID d) db' = rows (d_ID d) db ∧
    (local_ok T (d_ID d) d2 (look (d_ID d) db) → local_ok T (d_ID d) d3 (look (d_ID d) db')).
Proof.
  intros Ed Hp Hp0 Hall. unfold resolve_in_tx. intros (next & ? & [Hn ->]%tx_lift_Ok & Hr)%tx_bind_Ok.
  apply tx_bind_Ok in Hr as (row & ? & [= <- <-] & Hr). rewrite Ed, Hp in Hr. cbn in Hr. injection Hr as _ <-.
  apply Next_Ok in Hn as (_ & Ht & ->). apply Transitions_terminal in Ht as [Ht _].
  set (d3 := resolved_row at_ (tn_to t) None d2). exists d3.
  split_and!; [simpl; by rewrite lookup_insert_eq|apply kin_resolved|done|]. intros L.
  set (db' := append _ _). pose proof (lo_shape _ _ _ _ L) as S.
  assert (look (d_ID d) db' = mkLook (Some d3) (rows (d_ID d) db) (votes (d_ID d) db) (lv_created (look (d_ID d) db)) (lv_resolved (look (d_ID d) db) + 1)) as ->.
  { unfold look, db'. simpl. rewrite lookup_insert_eq, creations_append, resolutions_append.
    rewrite bool_decide_eq_false_2 by naive_solver. rewrite bool_decide_eq_true_2 by done. by rewrite Nat.add_0_r. }
  apply (local_kin T (d_ID d) d2 d3 (look (d_ID d) db)); [done|apply L|apply kin_resolved| |done|].
  - rewrite (ls_resolved _ _ _ S), Hp. unfold resolved_times, d3. simpl. by rewrite Ht.
  - unfold deadline_ok, d3. simpl. unfold DecisionState_Terminal in Ht. by destruct (bool_decide (tn_to t = DecisionPending)).
Qed.

(** The challenges an evaluation asks for are those of loaded policies. *)
Lemma challenges_loaded `{CEL} sv s ps sn res i ev ch :
  NewSnapshot sv s ps = Ok sn → (DecideEvaluator_Evaluate sn res i NewCache).1 = Ok ev → ch ∈ flatten (dr_gates ev) →
  ∃ p, loaded ps p ∧ ch ∈ p_Challenges p.
Proof.
  intros Hsn. unfold DecideEvaluator_Evaluate. destruct (evaluate sn res i NewCache) as [[[|cs fs]|x] c'] eqn:He; simpl; intros Hr Hch; simplify_eq.
  { set_solver. }
  apply (f_equal fst) in He. destruct (evaluate_loaded _ _ _ _ _ _ _ _ _ Hsn (cache_ok_new _) He) as (b & f & _ & Hp).
  assert (ch ∈ flatten (gates_of cs)) as Hg.
  { unfold decide_candidates in Hch. destruct (gates_of cs) as [|g gs]; [|done]. by destruct (first_checkable cs). }
  unfold flatten in Hg. apply list_elem_of_In, in_concat in Hg as (l & (g & <- & Hg)%in_map_iff & Hl).
  apply list_elem_of_In, gates_of_elem in Hg. apply list_elem_of_In in Hl. destruct g as [p|]; [|set_solver].
  apply Hp in Hg as (Hld & _). by exists p.
Qed.

Section decision.
Context `{CEL} `{Digest} (rv : Revalidator) `{!RevalidatorHandlers rv} (T : Time.t).

(** No collision and no lengthened wait between what two databases hold of a decision. *)
Definition fair_decision (X : string) (db0 db1 : DB) : Prop :=
  ∀ d0 d1 r0 r1, db_decisions db0 !! X = Some d0 → db_decisions db1 !! X = Some d1 → r0 ∈ rows X db0 → r1 ∈ rows X db1 →
    cp_Ordinal r0 = cp_Ordinal r1 → cp_Kind r0 = cp_Kind r1 → fair d0 r0 d1 r1.

Lemma fair_kin d0 r0 d1 d2 r1 : kin d1 d2 → fair d0 r0 d2 r1 → fair d0 r0 d1 r1.
Proof. intros K. unfold fair. by rewrite (kin_context _ _ K). Qed.

(** What considering a decision makes of it. *)
Definition revised (d0 : Decision) (db0 db1 : DB) : Prop :=
  ∃ d1, db_decisions db1 !! d_ID d0 = Some d1 ∧ d_CallerID d1 = d_CallerID d0 ∧ d_IdempotencyKey d1 = d_IdempotencyKey d0 ∧
    (fair_decision (d_ID d0) db0 db1 → local_ok T (d_ID d0) d1 (look (d_ID d0) db1)).

Lemma revised_look d0 db0 db1 db2 : look (d_ID d0) db2 = look (d_ID d0) db1 → revised d0 db0 db1 → revised d0 db0 db2.
Proof.
  intros El (d1 & Ed & Hc & Hk & Hl). exists d1. unfold fair_decision in *.
  assert (db_decisions db2 !! d_ID d0 = db_decisions db1 !! d_ID d0) as -> by (by injection El).
  assert (rows (d_ID d0) db2 = rows (d_ID d0) db1) as -> by (by injection El). by rewrite El.
Qed.

Lemma kin_caller d d' : kin d d' → d_CallerID d' = d_CallerID d.
Proof. intros [E _ _]. by injection E. Qed.

Lemma settle_revised at_ d d1 d0 rev changed db0 db disp db' :
  d_ID d = d_ID d0 → d_State d = DecisionPending → db_decisions db0 !! d_ID d0 = Some d0 → d_CallerID d1 = d_CallerID d0 →
  d_IdempotencyKey d1 = d_IdempotencyKey d0 →
  rebuilt T (d_ID d0) d0 d1 db0 db → settle at_ d rev changed db = Ok (disp, db') → revised d0 db0 db'.
Proof.
  intros Hid Hp Ed0 Hc Hk (d2 & Ed2 & K & Hp2 & Hl).
  assert (∀ t reason u db1, (tn_to t = DecisionAllowed → ∀ r, r ∈ rows (d_ID d0) db → cp_State r = StateSatisfied) →
            resolve_in_tx at_ d t reason rev db = Ok (u, db1) → revised d0 db0 db1) as Hres.
  { intros t reason u db1 Hall Hr. destruct (resolve_look T at_ d t reason rev d2 db u db1) as (d3 & Ed3 & K3 & Er3 & Hl3); rewrite ?Hid; try done.
    rewrite Hid in Ed3, Er3, Hl3.
    exists d3. split_and!; [done|by rewrite (kin_caller _ _ K3), (kin_caller _ _ K)|by rewrite (kin_key _ _ K3), (kin_key _ _ K)|].
    intros Hf. apply Hl3, Hl. rewrite <-Er3. intros r Hin r0 Hin0 E1 E2.
    apply (fair_kin _ _ _ d3); [by etrans|]. by apply Hf. }
  unfold settle. intros (t & ? & [= <- <-] & Hr)%tx_bind_Ok. unfold challengeTally in Hr. rewrite Hid in Hr.
  case_bool_decide as Hfail; [|case_bool_decide as Hsat].
  - apply tx_bind_Ok in Hr as (u & db1 & Hr & [= _ <-]). eapply Hres; [|exact Hr]. done.
  - apply tx_bind_Ok in Hr as (u & db1 & Hr & [= _ <-]). eapply Hres; [|exact Hr]. intros _ r Hin. by apply (filter_full _ _ r Hsat).
  - injection Hr as _ <-. exists d2. split_and!; [done|by rewrite (kin_caller _ _ K)|by rewrite (kin_key _ _ K)|].
    intros Hf. apply Hl. intros r Hin r0 Hin0 E1 E2. apply (fair_kin _ _ _ d2); [done|]. by apply Hf.
Qed.

Lemma deny_revised at_ d rev detail db0 out db' :
  db_decisions db0 !! d_ID d = Some d → d_State d = DecisionPending → local_ok T (d_ID d) d (look (d_ID d) db0) →
  deny at_ d rev detail db0 = Ok (out, db') → revised d db0 db'.
Proof.
  intros Ed Hp L. unfold deny. intros (u & db1 & Hr & Ha)%tx_bind_Ok. apply tx_bind_Ok in Ha as (u' & db2 & [= _ <-] & [= _ <-]).
  eapply (revised_look _ _ db1); [by apply look_append|].
  eapply (resolve_look T) in Hr as (d3 & Ed3 & K3 & Er3 & Hl3); [|done..].
  exists d3. split_and!; [done|apply (kin_caller _ _ K3)|apply (kin_key _ _ K3)|]. auto.
Qed.

Lemma rewrite_opening at_ d p v facts obl db u db' :
  db_decisions db !! d_ID d = Some d → d_State d = DecisionPending → local_ok T (d_ID d) d (look (d_ID d) db) →
  rewrite_decision at_ (d_ID d) p v facts obl db = Ok (u, db') →
  opening T (d_ID d) d (rewritten at_ p v facts obl d) db db'.
Proof.
  intros Ed Hp L. unfold rewrite_decision. rewrite Ed, Hp. cbn. destruct (contains _ _); [|done]. intros [= _ <-].
  split; try done. apply look_decision.
Qed.

Lemma allowed_revised at_ req now d i ev values db out db' :
  (now <= T)%Z → db_decisions db !! d_ID d = Some d → d_State d = DecisionPending → local_ok T (d_ID d) d (look (d_ID d) db) →
  (∀ c, c ∈ flatten (dr_gates ev) → spec_exact c) →
  revaluate_allowed rv at_ req now d i ev values db = Ok (out, db') → revised d db db'.
Proof.
  intros Hnow Ed Hp L He. unfold revaluate_allowed. intros (facts & ? & [_ ->]%tx_lift_Ok & Hr)%tx_bind_Ok.
  apply tx_bind_Ok in Hr as (version & db1 & Hv & Hr).
  assert (db1 = db) as ->. { destruct (vq_PolicyVersion req); [|by injection Hv]. apply res_bind_Ok in Hv as (x & _ & Hv). by injection Hv. }
  apply tx_bind_Ok in Hr as (obl & ? & [_ ->]%tx_lift_Ok & Hr). apply tx_bind_Ok in Hr as (u & db1 & Hw & Hr).
  apply rewrite_opening in Hw; [|done..]. apply tx_bind_Ok in Hr as (moved & db2 & Hb & Hr).
  apply tx_bind_Ok in Hr as (disp & db3 & Hs & Hr). apply tx_bind_Ok in Hr as (u' & db4 & [= _ <-] & [= _ <-]).
  eapply (revised_look _ _ db3); [by apply look_append|].
  eapply (rebind_rebuilt rv T now Hnow) in Hb; [|exact Hw|done| |done].
  - eapply settle_revised in Hs; [exact Hs|done|done|done| | |exact Hb]; done.
  - split; [done|done|..]; cbn [dc_FactSnapshot dc_Obligations contextOf rewritten with_revision d_FactSnapshot d_Obligations];
      unfold decodeJSON, jsonb; by rewrite canonical_sort_keys.
Qed.

Lemma revaluate_revised overflow at_ req now d db out db' :
  (now <= T)%Z → db_decisions db !! d_ID d = Some d → d_State d = DecisionPending → local_ok T (d_ID d) d (look (d_ID d) db) →
  (∀ res i ev c, (DecideEvaluator_Evaluate (vq_Snapshot req) res i NewCache).1 = Ok ev → c ∈ flatten (dr_gates ev) → spec_exact c) →
  revaluate rv overflow at_ req now d db = Ok (out, db') → revised d db db'.
Proof.
  intros Hnow Ed Hp L He. unfold revaluate. destruct (restoreInput _ _ _) as [i|]; [|by apply deny_revised].
  intros (values & ? & [_ ->]%tx_lift_Ok & Hr)%tx_bind_Ok.
  destruct ((DecideEvaluator_Evaluate _ _ _ _).1) as [ev|] eqn:Ev; [|by eapply deny_revised].
  destruct (bool_decide _); [by eapply deny_revised|]. eapply allowed_revised; eauto.
Qed.
End decision.

(** ** The loop over the open decisions *)

Lemma openDecisions_spec now db : db_ok db →
  NoDup (map d_ID (openDecisions now db)) ∧
  ∀ d, d ∈ openDecisions now db ↔ db_decisions db !! d_ID d = Some d ∧ d_State d = DecisionPending ∧ (now < d_ExpiresAt d)%Z.
Proof.
  intros Hok. unfold openDecisions. rewrite filter_bool.
  assert (∀ d, d ∈ map snd (map_to_list (db_decisions db)) ↔ db_decisions db !! d_ID d = Some d) as Hall.
  { intros d. rewrite elem_of_map. split.
    - intros ([k x] & -> & Hx%elem_of_map_to_list). simpl. by rewrite (ok_id _ Hok _ _ Hx).
    - intros Hd. exists (d_ID d, d). split; [done|]. by apply elem_of_map_to_list. }
  split.
  - eapply (NoDup_Permutation_proper _ (map d_ID (filter _ _))); [apply Permutation_map, sort_by_Permutation|].
    assert (map d_ID (map snd (map_to_list (db_decisions db))) = map fst (map_to_list (db_decisions db))) as E.
    { rewrite map_map. apply map_ext_Forall, Forall_forall. intros [k x] Hx%elem_of_map_to_list. simpl. by apply (ok_id _ Hok). }
    eapply sublist_NoDup; [|apply fmap_sublist, sublist_filter]. change (_ <$> ?l) with (map d_ID l). rewrite E. apply NoDup_fst_map_to_list.
  - intros d. rewrite elem_of_sort_by, list_elem_of_filter, Hall, andb_true_iff, bool_decide_eq_true. unfold Time.After. rewrite Z.ltb_lt. naive_solver.
Qed.

Section revision.
Context `{CEL} `{Digest} (rv : Revalidator).

(** A decision the revision does not reach. *)
Definition passed_over (req : RevalidateRequest) (mode : ApplicationMode) (d : Decision) : Prop :=
  mode = ModeGrandfather ∨ ∃ skip, vq_Skip req = Some skip ∧ skip (d_PolicyID d) = true.

#[export] Instance passed_over_dec req mode d : base.Decision (passed_over req mode d).
Proof.
  unfold passed_over. destruct (decide (mode = ModeGrandfather)) as [|N]; [left; by left|].
  destruct (vq_Skip req) as [skip|]; [|right; intros [?|(? & ? & ?)]; congruence].
  destruct (skip (d_PolicyID d)) eqn:E; [left; right; eauto|right; intros [?|(? & ? & ?)]; congruence].
Defined.

Lemma consider_inv overflow at_ req now mode d rep db rep' db' :
  consider rv overflow at_ req now mode d rep db = Ok (rep', db') →
  (∀ X, look X db' = look X db) ∨ ¬ passed_over req mode d ∧ ∃ out, revaluate rv overflow at_ req now d db = Ok (out, db').
Proof.
  intros Hc. destruct (decide (passed_over req mode d)) as [Hp|Hp]; unfold consider in Hc; [left|right; split; [done|]].
  - destruct (match vq_Skip req with Some skip => _ | None => _ end) eqn:Es; [by injection Hc as _ <-|].
    destruct Hp as [->|(skip & E1 & E2)]; [|by rewrite E1, E2 in Es].
    apply tx_bind_Ok in Hc as (u & db1 & [= _ <-] & [= _ <-]). intros X. by apply look_append.
  - destruct (match vq_Skip req with Some skip => _ | None => _ end) eqn:Es.
    { destruct Hp. right. destruct (vq_Skip req) as [skip|]; [eauto|done]. }
    case_bool_decide as Hm; [destruct Hp; by left|]. apply tx_bind_Ok in Hc as (out & db1 & Hr & [= _ <-]). eauto.
Qed.

Lemma consider_elsewhere overflow at_ req now mode d rep db rep' db' :
  consider rv overflow at_ req now mode d rep db = Ok (rep', db') → elsewhere (d_ID d) db db'.
Proof. intros [Hl|(_ & out & Hr)]%consider_inv; [intros Y _; apply Hl|]. by eapply only_revaluate. Qed.

Lemma consider_each_rest overflow at_ req now mode ds rep db rep' db' X :
  consider_each rv overflow at_ req now mode ds rep db = Ok (rep', db') →
  (∀ d, d ∈ ds → d_ID d = X → passed_over req mode d) → look X db' = look X db.
Proof.
  revert rep db. induction ds as [|d ds IH]; intros rep db; simpl; [by intros [= _ <-]|].
  intros (rep1 & db1 & Hc & Hr)%tx_bind_Ok Hp. rewrite (IH _ _ Hr) by set_solver.
  destruct (decide (d_ID d = X)) as [E|E]; [|by apply (consider_elsewhere _ _ _ _ _ _ _ _ _ _ Hc)].
  apply consider_inv in Hc as [Hl|[N _]]; [apply Hl|]. destruct N. apply Hp; [set_solver|done].
Qed.

Definition instant (clock : Time.t) (req : RevalidateRequest) : Time.t := if Time.IsZero (vq_Now req) then clock else vq_Now req.

Lemma Apply_inv overflow clock at_ req db rep db' :
  Apply rv overflow clock at_ req db = Ok (rep, db') →
  ∃ rep1, consider_each rv overflow at_ req (instant clock req) (OrDefault (vq_Mode req)) (openDecisions (instant clock req) db)
    (mkReport (OrDefault (vq_Mode req)) 0 0 0 [] []) db = Ok (rep1, db') ∧ rep = mkReport (rp_Mode rep1) (rp_Considered rep1) (rp_Denied rep1) (rp_Invalidated rep1)
              (sort_by id String.le (remove_dups (rp_Fetched rep1))) (rp_Outcomes rep1).
Proof.
  unfold Apply. destruct (negb _); [done|]. intros (open & ? & [= <- <-] & Hr)%tx_bind_Ok.
  apply tx_bind_Ok in Hr as (rep1 & db1 & Hr & [= <- <-]). eauto.
Qed.

(** A revision leaves alone what is not open.  Whatever the revised policies say,
    applying them changes nothing of a decision that has been resolved, that has
    passed its expiry, whose policy the caller excluded, or, under grandfathering, of
    any decision: its row, its challenges, the approvals on them and its resolution
    in the audit log are those there were. *)
Theorem revision_leaves_the_rest overflow clock at_ req db rep db' :
  db_ok db → Apply rv overflow clock at_ req db = Ok (rep, db') →
  ∀ X, (∀ d, db_decisions db !! X = Some d →
          d_State d ≠ DecisionPending ∨ (d_ExpiresAt d <= instant clock req)%Z ∨ passed_over req (OrDefault (vq_Mode req)) d) →
  look X db' = look X db.
Proof.
  intros Hok (rep1 & Hr & _)%Apply_inv X Hx. eapply consider_each_rest; [exact Hr|].
  intros d Hd <-. apply (openDecisions_spec _ _ Hok) in Hd as (Ed & Hp & He).
  destruct (Hx d Ed) as [?|[?|?]]; [done|lia|done].
Qed.

Section evidence.
Context `{!RevalidatorHandlers rv} (T : Time.t).

(** A decision the loop has been through, against the database it started from. *)
Definition considered (X : string) (db0 db : DB) : Prop :=
  look X db = look X db0 ∨ ∃ d0, db_decisions db0 !! X = Some d0 ∧ d_ID d0 = X ∧ revised T d0 db0 db.

Lemma revised_from d db0 db db1 : look (d_ID d) db = look (d_ID d) db0 → revised T d db db1 → revised T d db0 db1.
Proof.
  intros El. unfold revised, fair_decision. assert (db_decisions db !! d_ID d = db_decisions db0 !! d_ID d) as -> by (by injection El).
  assert (rows (d_ID d) db = rows (d_ID d) db0) as -> by (by injection El). done.
Qed.

Lemma considered_each overflow at_ req now mode ds rep db0 db rep' db' :
  (now <= T)%Z →
  (∀ res i ev c, (DecideEvaluator_Evaluate (vq_Snapshot req) res i NewCache).1 = Ok ev → c ∈ flatten (dr_gates ev) → spec_exact c) →
  NoDup (map d_ID ds) →
  (∀ d, d ∈ ds → look (d_ID d) db = look (d_ID d) db0 ∧ db_decisions db0 !! d_ID d = Some d ∧ d_State d = DecisionPending ∧
     local_ok T (d_ID d) d (look (d_ID d) db0)) →
  (∀ X, considered X db0 db) → consider_each rv overflow at_ req now mode ds rep db = Ok (rep', db') → ∀ X, considered X db0 db'.
Proof.
  intros Hnow He. revert rep db. induction ds as [|d ds IH]; intros rep db Hnd Hds Hc; simpl; [by intros [= _ <-]|].
  intros (rep1 & db1 & H1 & Hr)%tx_bind_Ok. simpl in Hnd. apply NoDup_cons in Hnd as [Hn Hnd].
  pose proof (consider_elsewhere _ _ _ _ _ _ _ _ _ _ H1) as Hels.
  destruct (Hds d) as (El & Ed & Hp & L); [set_solver|]. eapply IH; [done| | |exact Hr].
  - intros d' Hd'. rewrite Hels; [apply Hds; set_solver|]. intros E. apply Hn. rewrite <-E. apply elem_of_map. eauto.
  - intros X. destruct (decide (X = d_ID d)) as [->|Hx].
    + apply consider_inv in H1 as [Hl|(_ & out & H1)]; [left; by rewrite Hl|]. right. exists d. split_and!; [done..|].
      eapply revised_from; [exact El|]. eapply (revaluate_revised rv T); [done| |done| |done|exact H1].
      * injection El. congruence.
      * by rewrite El.
    + destruct (Hc X) as [E|(d0 & E1 & E2 & E3)]; [left; by rewrite Hels|]. right. exists d0. split_and!; [done..|].
      eapply revised_look; [|exact E3]. apply Hels. by rewrite E2.
Qed.

Lemma considered_inv db db' : inv T db → (∀ X, considered X db db') → (∀ X, fair_decision X db db') → inv T db'.
Proof.
  intros Hi Hc Hf. pose proof (inv_local _ _ Hi) as HL.
  assert (∀ X d', db_decisions db' !! X = Some d' → ∃ d, db_decisions db !! X = Some d ∧ d_CallerID d' = d_CallerID d ∧
            d_IdempotencyKey d' = d_IdempotencyKey d) as Hk.
  { intros X d' Hd'. destruct (Hc X) as [El|(d0 & E1 & E2 & d1 & E3 & Ec & Ek & _)].
    - exists d'. split; [|done]. injection El. congruence.
    - exists d0. rewrite E2 in E3. assert (d' = d1) as -> by congruence. done. }
  apply local_inv.
  - intros X. destruct (Hc X) as [El|(d0 & E1 & E2 & d1 & E3 & _ & _ & Hl)].
    + assert (db_decisions db' !! X = db_decisions db !! X) as -> by (by injection El). rewrite El. apply HL.
    + rewrite E2 in *. rewrite E3. apply Hl, Hf.
  - intros id1 id2 d1 d2 H1 H2 Hne Hca Hke. apply Hk in H1 as (e1 & H1 & C1 & K1), H2 as (e2 & H2 & C2 & K2).
    eapply (ok_keys _ (inv_ok _ _ Hi)); [exact H1|exact H2|congruence..].
Qed.

(** A revision keeps the evidence.  It is assumed that the digest does not make two
    different materials of one challenge look alike, that no wait that is over is made
    longer, and that thresholds fit 53 bits. *)
Lemma Apply_keeps_inv overflow clock at_ req sv s ps db rep db' :
  NewSnapshot sv s ps = Ok (vq_Snapshot req) → (∀ p c, loaded ps p → c ∈ p_Challenges p → spec_exact c) →
  (instant clock req <= T)%Z → inv T db → Apply rv overflow clock at_ req db = Ok (rep, db') →
  (∀ X, fair_decision X db db') → inv T db'.
Proof.
  intros Hsn Hex Hnow Hi (rep1 & Hr & _)%Apply_inv Hf. apply (considered_inv db); [done| |done].
  destruct (openDecisions_spec (instant clock req) db (inv_ok _ _ Hi)) as [Hnd Hop].
  eapply (considered_each _ _ req); [exact Hnow| |exact Hnd| | |exact Hr].
  - intros res i ev c Hev Hc. destruct (challenges_loaded _ _ _ _ _ _ _ _ Hsn Hev Hc) as (p & Hp & Hin). by eapply Hex.
  - intros d (Ed & Hp & _)%Hop. split_and!; [done..|]. pose proof (inv_local _ _ Hi (d_ID d)) as L. by rewrite Ed in L.
  - intros X. by left.
Qed.
End evidence.
End revision.
