(* ===== verification/RevalidateRun.v ===== *)
(** * Revisions among calls

    The decision service and the revalidator over one store: any interleaving of the
    calls of the one with revisions of the other keeps what an allow rests on.  Then
    what a revision reports, and when a rebound wait lets go. *)
From Stdlib Require Import Ascii.
From S2P Require Import Prelude GoLib Policy Cel Engine CelRef EngineSpec Json Store StoreInv World Text LimiterSpec.
From S2P Require Import Challenge Quorum Delay HandlerSpec External Mfa Service Revalidate ServiceSafe ServiceInv ServiceSpec.
From S2P Require Import RevalidateSpec RevalidateInv.
Import Strings.

(** ** Histories *)

(** The policy versions a store knows, replaced: a revision that takes effect writes its
    versions in the transaction that revalidates. *)
Definition set_policies (ps : list (string * Z)) (db : DB) : DB :=
  mkDB (db_decisions db) (db_progress db) (db_approvals db) (db_audit db) ps.

Section history.
Context `{CEL} `{Digest} (s : Service) (rv : Revalidator) (T : Time.t).

(** A revision: the policies [ps] under schema [sc] take effect.  Their thresholds are
    integers float64 holds.  [rs_fair] compares the rows a decision had with the rows of
    the same ordinal and kind it has afterwards: the digest tells the materials of a quorum
    apart, and a wait that was over is not made longer. *)
Record revision_step (req : RevalidateRequest) (db db' : DB) : Prop := {
  rs_set : ∃ sv sc ps, NewSnapshot sv sc ps = Ok (vq_Snapshot req) ∧ ∀ p c, loaded ps p → c ∈ p_Challenges p → spec_exact c;
  rs_apply : ∃ overflow clock at_ versions rep, (instant clock req <= T)%Z ∧
      Apply rv overflow clock at_ req (set_policies versions db) = Ok (rep, db');
  rs_fair : ∀ X, fair_decision X db db' }.

(** Calls and revisions, one after the other. *)
Inductive history (w : World) : World → Prop :=
  | history_start : history w w
  | history_call w' c : history w w' → (clock_of c <= T)%Z → history w (run_call s c w')
  | history_revision w' req db' : history w w' → revision_step req (w_db w') db' → history w (mkWorld db' (w_steps w') (w_ids w')).

Context `{!RevalidatorHandlers rv}.

Lemma inv_set_policies ps db : inv T db → inv T (set_policies ps db).
Proof. intros [[] ? ? ? ? ? ? ?]. split; [by split|done..]. Qed.

Lemma revision_step_inv req db db' : revision_step req db db' → inv T db → inv T db'.
Proof.
  intros [(sv & sc & ps & Hsn & Hex) (overflow & clock & at_ & versions & rep & Hnow & Ha) Hf] Hi.
  eapply (Apply_keeps_inv rv T overflow clock at_ req); [exact Hsn|exact Hex|done|by apply (inv_set_policies versions)|exact Ha|exact Hf].
Qed.

Lemma history_inv w w' : deployed s → history w w' → calm w → inv T (w_db w) → calm w' ∧ inv T (w_db w').
Proof.
  intros [reg ver]. induction 1 as [|w' c _ IH Hc|w' req db' _ IH Hr]; intros Hw Hi; [done|..].
  - destruct (IH Hw Hi). by apply run_call_inv.
  - destruct (IH Hw Hi) as [Hc' Hi']. split; [done|]. simpl. by eapply revision_step_inv.
Qed.

(** C2. An allow rests on evidence, across revisions.  Start from an empty store and let
    calls of the service and revisions of the policies follow one another in any order,
    with store operations of the calls failing before or after taking effect and no other
    instance writing in between; a revision may deny open decisions, ask for other
    challenges, or rebind the ones there are.  Quorum and delay challenges are answered by
    their handlers, mfa and external ones by any handler that runs no store call and gives
    an mfa challenge no deadline.  Of each revision it is assumed that thresholds are integers float64 holds, that the digest
    tells the material a rebound quorum was issued over from the material it is issued
    over now, and that no wait that is already over is made longer, which the code does not
    take up ([lengthened_wait_stays_satisfied]).  When a call then answers that a decision
    is allowed, every challenge on it is satisfied, an mfa or external one on its handler's
    word; every quorum by distinct approvers, as many as it now asks for, who approved over
    the binding hash of the decision as it now stands and whom it now names, so no approval
    given over other material counts; and every delay is uncancelled and past its release. *)
Theorem allow_rests_on_evidence_across_revisions policies w w' c r :
  deployed s → calm w → w_db w = empty_db policies → history w w' → (clock_of c <= T)%Z →
  answer_of s c w' = Some r → rs_State r = DecisionAllowed → all_backed T (w_db (run_call s c w')) (rs_ID r).
Proof.
  intros Hdep Hw Hdb Hh HT Ha Hs. destruct (history_inv w w' Hdep Hh Hw) as [Hc Hi]; [rewrite Hdb; apply inv_empty|].
  destruct (answer_of_answers s T c w' r Hdep HT Hc Hi Ha) as [Hi' Hr].
  destruct (Hr Hs) as (d & Hd & Hst). by eapply inv_all_backed.
Qed.
End history.

(** ** A wait keeps its start *)

Section waits.
Context `{CEL} `{Digest} (rv : Revalidator).

Definition int64_range (d : Time.duration) : Prop := (0 < d < 2 ^ 63)%Z.

Lemma rebound_delay_issued t D1 D2 auth spec :
  int64_range D1 → d_Duration spec = D2 →
  let '(next, moved) := rebound_delay (mkDelayDetail (Time.Duration_String D1) (Time.Add t D1) auth "" None) D1 spec in
  next = mkDelayDetail (Time.Duration_String D2) (Time.Add t D2) auth "" None ∧ moved = negb (D1 =? D2)%Z.
Proof.
  intros Hr <-. unfold rebound_delay. destruct (Z.eqb_spec D1 (d_Duration spec)) as [E|E]; [by rewrite <-E|]. split; [|done].
  f_equal. cbn [dd_ReleaseAt]. unfold Time.Add, neg64. unfold int64_range in Hr. rewrite Z.mod_small by lia. lia.
Qed.

(** A revised wait counts from where it started.  A wait issued at [t] whose
    declared duration a revision changes is, after the revision, a wait of the new
    duration from [t], not cancelled and not restarted: it is over if that instant
    has passed and pending until then otherwise, its detail tells that instant, and
    its timer is that instant or the decision's own expiry, whichever is earlier. *)
Theorem revised_wait_keeps_its_start dl res issue i at_ db out db' s1 s2 :
  (∃ dc, TxRegistry_Handler (rv_challenges rv) ChallengeDelay = Ok (delay_tx dc)) →
  delay_issue dl issue = Ok res → ir_Spec issue = CDelay s1 → rb_spec i = CDelay s2 →
  int64_range (d_Duration s1) → d_Duration s1 ≠ d_Duration s2 → Time.Add (ir_Now issue) (d_Duration s1) ≠ Time.zero →
  cp_Detail (rb_stored i) = canonicalJSON (is_Detail res) → cp_State (rb_stored i) = StatePending →
  NoDup (map cp_Ordinal (rows (d_ID (rb_decision i)) db)) → rb_stored i ∈ rows (d_ID (rb_decision i)) db →
  cp_Ordinal (rb_stored i) = rb_ordinal i →
  rebindDelay rv at_ i db = Ok (out, db') →
  let release := Time.Add (ir_Now issue) (d_Duration s2) in
  bo_timerMoved out = true ∧
  ∃ r, r ∈ rows (d_ID (rb_decision i)) db' ∧ cp_Ordinal r = rb_ordinal i ∧
    (∃ w, decodeDelayDetail (cp_Detail r) = Ok w ∧ dd_ReleaseAt w = release ∧ dd_CancelledAt w = None ∧
       dd_Duration w = Time.Duration_String (d_Duration s2)) ∧
    cp_State r = (if Time.Before (rb_now i) release then StatePending else StateSatisfied) ∧
    cp_Deadline r = Some (Time.trunc_us (Z.min release (d_ExpiresAt (rb_decision i)))).
Proof.
  intros [dc Hh] Hi Hs1 Hs2 Hr1 Hne Hz Hdet Hst Hnd Hin Ho Hr release.
  apply delay_issue_inv in Hi as (s1' & auth & E1 & _ & _ & _ & _ & Ed). rewrite Hs1 in E1. injection E1 as <-.
  rewrite Ed in Hdet. unfold rebindDelay in Hr. rewrite Hs2, Hdet, delay_detail_decodes in Hr by done.
  destruct (d_Duration s2 <=? 0)%Z; [done|]. cbn [wrapped tx_lift] in Hr.
  apply tx_bind_Ok in Hr as (stored & ? & [[= <-] ->]%tx_lift_Ok & Hr). cbn [dd_Duration] in Hr.
  rewrite ParseDuration_String in Hr by (unfold int64_range in Hr1; lia).
  apply tx_bind_Ok in Hr as (opened & ? & [[= <-] ->]%tx_lift_Ok & Hr).
  pose proof (rebound_delay_issued (ir_Now issue) (d_Duration s1) (d_Duration s2) auth s2 Hr1 eq_refl) as Hb.
  destruct (rebound_delay _ _ _) as [next moved]. destruct Hb as [-> ->]. rewrite (proj2 (Z.eqb_neq _ _) Hne) in Hr. cbn [negb andb] in Hr.
  apply tx_bind_Ok in Hr as (a & ? & [_ ->]%tx_lift_Ok & Hr). apply tx_bind_Ok in Hr as (st & ? & [Hstat ->]%tx_lift_Ok & Hr).
  apply tx_bind_Ok in Hr as (u & db1 & [= _ <-] & [= <- <-]). split; [done|].
  unfold with_authority in *. cbn [dd_Duration dd_ReleaseAt dd_CancelledBy dd_CancelledAt] in *. fold release in Hstat |- *.
  set (next := mkDelayDetail _ release a.1 "" None) in *.
  unfold statusOf in Hstat. rewrite Hs2 in Hstat. cbn [Challenge_ChallengeType] in Hstat. rewrite Hh in Hstat. cbn [res_bind delay_tx th_Status] in Hstat.
  apply res_bind_Ok in Hstat as (ss & Hss%wrapped_Ok & Hstat). unfold delay_status in Hss. cbn [st_Detail st_Stored st_Now] in Hss.
  apply res_bind_Ok in Hss as (w & (Hz2 & E1 & E2)%delay_raw & [= <-]). cbn [ss_State] in Hstat.
  unfold delay_state in Hstat. rewrite Hst, E1, E2 in Hstat. cbn in Hstat.
  assert (st = if Time.Before (rb_now i) release then StatePending else StateSatisfied) as Est.
  { destruct (Time.Before (rb_now i) release); by injection Hstat. }
  set (f := set_delay _ _ _ _). exists (f (rb_stored i)). split_and!.
  - pose proof (f_equal lv_rows (look_update _ (rb_ordinal i) f _ db Hnd Hin Ho (λ _, eq_refl))) as Er. cbn [look lv_rows put] in Er. rewrite Er.
    apply elem_of_map. exists (rb_stored i). by rewrite Ho, Z.eqb_refl.
  - exact Ho.
  - exists next. split_and!; try done. by apply delay_jsonb.
  - done.
  - unfold f, set_delay. cbn [cp_Deadline]. do 2 f_equal. unfold Time.After.
    destruct (Z.ltb_spec (d_ExpiresAt (rb_decision i)) release); lia.
Qed.
End waits.

(** ** What a revision reports *)

(** A transaction that takes [n] of its answer off the approvals, and adds none. *)
Definition spends {A} (m : Tx A) (n : A → Z) : Prop := ∀ db a db', m db = Ok (a, db') →
  db_approvals db' `sublist_of` db_approvals db ∧
  Z.of_nat (length (db_approvals db)) = (Z.of_nat (length (db_approvals db')) + n a)%Z.

Definition quiet {A} (m : Tx A) : Prop := ∀ db a db', m db = Ok (a, db') → db_approvals db' = db_approvals db.

Section spends.
Lemma quiet_spends {A} (m : Tx A) n : quiet m → (∀ a, n a = 0%Z) → spends m n.
Proof. intros Hq Hn db a db' Hm. rewrite (Hq _ _ _ Hm), Hn. split; [done|lia]. Qed.
Lemma spends_ret {A} (a : A) n : n a = 0%Z → spends (tx_ret a) n.
Proof. intros Hn db b db' [= <- <-]. rewrite Hn. split; [done|lia]. Qed.
Lemma spends_fail {A} e n : spends (tx_fail (A := A) e) n.
Proof. by intros db b db'. Qed.
Lemma spends_bind {A B} (m : Tx A) (k : A → Tx B) n1 n :
  spends m n1 → (∀ a, spends (k a) (λ b, n b - n1 a)%Z) → spends (tx_bind m k) n.
Proof.
  intros Hm Hk db b db' (a & db1 & H1 & H2)%tx_bind_Ok. destruct (Hm _ _ _ H1) as [S1 E1], (Hk _ _ _ _ H2) as [S2 E2].
  split; [by etrans|lia].
Qed.
Lemma spends_quiet {A B} (m : Tx A) (k : A → Tx B) n : quiet m → (∀ a, spends (k a) n) → spends (tx_bind m k) n.
Proof.
  intros Hm Hk db b db' (a & db1 & H1 & H2)%tx_bind_Ok. rewrite <-(Hm _ _ _ H1). by apply Hk with a.
Qed.

Lemma quiet_ret {A} (a : A) : quiet (tx_ret a).
Proof. by intros db b db' [= _ <-]. Qed.
Lemma quiet_fail {A} e : quiet (tx_fail (A := A) e).
Proof. by intros db b db'. Qed.
Lemma quiet_lift {A} (r : result A) : quiet (tx_lift r).
Proof. by intros db b db' [_ ->]%tx_lift_Ok. Qed.
Lemma quiet_read {A} (f : DB → A) : quiet (tx_read f).
Proof. by intros db b db' [= _ <-]. Qed.
Lemma quiet_reading {A} (f : DB → result A) : quiet (λ db, let? s := f db in Ok (s, db)).
Proof. by intros db b db' (a & _ & [= _ <-])%res_bind_Ok. Qed.
Lemma quiet_write f : (∀ db, db_approvals (f db) = db_approvals db) → quiet (tx_write f).
Proof. intros Hf db b db' [= _ <-]. apply Hf. Qed.
Lemma quiet_bind {A B} (m : Tx A) (k : A → Tx B) : quiet m → (∀ a, quiet (k a)) → quiet (tx_bind m k).
Proof. intros Hm Hk db b db' (a & db1 & H1 & H2)%tx_bind_Ok. by rewrite (Hk _ _ _ _ H2), (Hm _ _ _ H1). Qed.
Lemma quiet_rewrite at_ X p v f o : quiet (rewrite_decision at_ X p v f o).
Proof.
  intros db a db'. unfold rewrite_decision. destruct (_ !! X) as [d|]; [|by intros [= _ <-]].
  destruct (negb _); [by intros [= _ <-]|]. destruct (negb _); [done|]. by intros [= _ <-].
Qed.
Lemma quiet_refresh X at_ : quiet (tx_write (refreshNextDeadline X at_)).
Proof. apply quiet_write. intros db. apply refresh_rest. Qed.
End spends.

#[export] Hint Resolve quiet_ret quiet_fail quiet_lift quiet_read quiet_reading quiet_rewrite quiet_refresh spends_fail : tx.

Ltac spends_tac := repeat first
  [ progress cbv beta
  | solve [auto with tx]
  | lazymatch goal with
    | |- quiet (tx_append _) => by apply quiet_write
    | |- quiet (auditInvalidation _ _ _ _ _) => by apply quiet_write
    | |- quiet (update_row _ _ _) => by apply quiet_write
    | |- quiet (tx_write _) => by apply quiet_write
    | |- quiet (tx_bind _ _) => apply quiet_bind; [|intros ?]
    | |- quiet (match ?x with _ => _ end) => destruct x
    | |- quiet (let _ := _ in _) => cbv zeta
    | |- spends (tx_ret _) _ => apply spends_ret; simpl; lia
    | |- spends (match ?x with _ => _ end) _ => destruct x
    | |- spends (let _ := _ in _) _ => cbv zeta
    end ].

Section report.
Context `{CEL} `{Digest} (rv : Revalidator).

Lemma quiet_resolve at_ d t reason rev : quiet (resolve_in_tx at_ d t reason rev).
Proof. unfold resolve_in_tx. spends_tac. Qed.

Lemma spends_drop X o : spends (dropApprovals X o) (λ n, n).
Proof.
  intros db n db' [= <- <-]. simpl. split; [rewrite filter_bool; apply sublist_filter|]. rewrite <-Nat2Z.inj_add. f_equal.
  induction (db_approvals db) as [|a l IH]; simpl; [done|]. destruct (is_vote X o a); simpl; lia.
Qed.

Lemma spends_rebind at_ i : spends (rebind_one rv at_ i) bo_invalidated.
Proof.
  unfold rebind_one, rebindQuorum, rebindMFA, rebindDelay, rebindExternal. destruct (Challenge_ChallengeType (rb_spec i)).
  - apply spends_quiet; [spends_tac|intros detail]. apply spends_quiet; [spends_tac|intros preserved]. destruct (_ && _); [spends_tac|].
    apply spends_bind with (λ n, n); [destruct preserved; [spends_tac|apply spends_drop]|intros dropped].
    repeat (apply spends_quiet; [spends_tac|intros ?]). spends_tac.
  - spends_tac. repeat (apply spends_quiet; [spends_tac|intros ?]; spends_tac).
  - spends_tac; repeat (apply spends_quiet; [spends_tac|intros ?]; spends_tac).
  - spends_tac; repeat (apply spends_quiet; [spends_tac|intros ?]; spends_tac).
  - spends_tac.
Qed.

Lemma spends_rebind_each at_ d ctx ps rev now o acc :
  spends (rebind_each rv at_ d ctx o ps rev now acc) (λ out, bo_invalidated out - bo_invalidated acc)%Z.
Proof.
  revert o acc. induction ps as [|[row spec] ps IH]; intros o acc; simpl; [spends_tac|].
  eapply spends_bind; [apply spends_rebind|intros out]. intros db a db' Hr. destruct (IH _ _ _ _ _ Hr) as [Hs E]. simpl in E. split; [done|lia].
Qed.

Lemma quiet_issue_each d ctx o specs now : quiet (issue_each rv d ctx o specs now).
Proof.
  revert o. induction specs as [|c specs IH]; intros o; simpl; [spends_tac|]. apply quiet_bind; [|auto].
  intros db u db'. unfold issue. intros (h & _ & (x & _ & Hx)%res_bind_Ok)%res_bind_Ok. destruct (_ && _); [|done]. by injection Hx as _ <-.
Qed.

Lemma spends_reopen at_ d ctx specs rev now : spends (reopenChallenges rv at_ d ctx specs rev now) snd.
Proof.
  unfold reopenChallenges. intros db a db' (n & ? & [= <- <-] & Hr)%tx_bind_Ok. apply tx_bind_Ok in Hr as (u & db1 & [= _ <-] & Hr).
  match type of Hr with ?m _ = _ => assert (spends m (λ p, p.2 - countApprovalsOf (d_ID d) db)%Z) as Hm end.
  { apply spends_quiet; [apply quiet_issue_each|intros ?]. apply spends_quiet; [spends_tac|intros ?].
    apply spends_quiet; [spends_tac|intros ?]. spends_tac. }
  destruct (Hm _ _ _ Hr) as [Hs E]. simpl in Hs, E. split; [etrans; [exact Hs|apply sublist_filter]|].
  assert (Z.of_nat (length (db_approvals db)) =
    Z.of_nat (length (filter (λ a, ap_DecisionID a ≠ d_ID d) (db_approvals db))) + countApprovalsOf (d_ID d) db)%Z as Hc; [|lia].
  unfold countApprovalsOf. rewrite <-Nat2Z.inj_add. f_equal. clear. induction (db_approvals db) as [|a l IH]; simpl; [done|].
  rewrite !filter_cons. destruct (decide (ap_DecisionID a = d_ID d)), (decide (ap_DecisionID a ≠ d_ID d)); simpl; try lia; done.
Qed.

Lemma spends_rebindChallenges at_ d specs rev now : spends (rebindChallenges rv at_ d specs rev now) snd.
Proof.
  unfold rebindChallenges. apply spends_quiet; [spends_tac|intros stored]. cbv zeta. destruct (negb _); [apply spends_reopen|].
  eapply spends_bind; [apply spends_rebind_each|intros out]. apply spends_quiet; [spends_tac|intros ?]. spends_tac.
Qed.

Lemma spends_revaluate overflow at_ req now d : spends (revaluate rv overflow at_ req now d) oc_Invalidated.
Proof.
  assert (∀ detail, spends (deny at_ d (vq_RevisionID req) detail) oc_Invalidated) as Hdeny.
  { intros detail. unfold deny. apply spends_quiet; [apply quiet_resolve|intros ?]. apply spends_quiet; spends_tac. intros ?. spends_tac. }
  unfold revaluate. destruct (restoreInput _ _ _); [|apply Hdeny]. apply spends_quiet; [spends_tac|intros values].
  destruct (_.1); [|apply Hdeny]. destruct (bool_decide _); [apply Hdeny|]. unfold revaluate_allowed.
  apply spends_quiet; [spends_tac|intros facts]. apply spends_quiet; [|intros version].
  { intros db v db'. destruct (vq_PolicyVersion req); [|by intros [= _ <-]]. by intros (x & _ & [= _ <-])%res_bind_Ok. }
  apply spends_quiet; [spends_tac|intros obl]. apply spends_quiet; [spends_tac|intros ?].
  eapply spends_bind; [apply spends_rebindChallenges|intros moved].
  apply spends_quiet; [unfold settle; spends_tac; apply quiet_resolve|intros disp]. apply spends_quiet; spends_tac. intros ?. spends_tac.
Qed.

Definition denials (l : list Outcome) : nat := length (filter (λ o, oc_Disposition o = DispositionDenied) l).
Definition skipped (req : RevalidateRequest) (d : Decision) : bool :=
  match vq_Skip req with Some skip => skip (d_PolicyID d) | None => false end.

(** A report's figures are those of its outcomes. *)
Definition tallied (rep : RevalidateReport) : Prop :=
  rp_Considered rep = Z.of_nat (length (rp_Outcomes rep)) ∧ rp_Denied rep = Z.of_nat (denials (rp_Outcomes rep)) ∧
  rp_Invalidated rep = foldr Z.add 0%Z (map oc_Invalidated (rp_Outcomes rep)).

Lemma tallied_add rep o fetched :
  tallied rep → tallied (mkReport (rp_Mode rep) (rp_Considered rep + 1)
    (rp_Denied rep + (if bool_decide (oc_Disposition o = DispositionDenied) then 1 else 0)) (rp_Invalidated rep + oc_Invalidated o) fetched
    (rp_Outcomes rep ++ [o])).
Proof.
  intros (E1 & E2 & E3). unfold tallied, denials in *. simpl. rewrite length_app, filter_app, length_app, map_app, foldr_app. simpl. split_and!.
  - rewrite E1. lia.
  - rewrite E2, filter_cons. case_bool_decide; [rewrite decide_True by done|rewrite decide_False by done]; simpl; lia.
  - rewrite E3. generalize (oc_Invalidated o). intros n. clear. induction (map oc_Invalidated (rp_Outcomes rep)) as [|m l IH]; simpl; lia.
Qed.

Lemma revaluate_id overflow at_ req now d db out db' :
  revaluate rv overflow at_ req now d db = Ok (out, db') → oc_DecisionID out = d_ID d.
Proof.
  assert (∀ detail, deny at_ d (vq_RevisionID req) detail db = Ok (out, db') → oc_DecisionID out = d_ID d) as Hdeny.
  { intros detail. unfold deny. intros (? & ? & _ & Hr)%tx_bind_Ok. by apply tx_bind_Ok in Hr as (? & ? & _ & [= <- _]). }
  unfold revaluate. destruct (restoreInput _ _ _); [|apply Hdeny]. intros (values & ? & [_ ->]%tx_lift_Ok & Hr)%tx_bind_Ok.
  destruct (_.1); [|by eapply Hdeny]. destruct (bool_decide _); [by eapply Hdeny|]. unfold revaluate_allowed in Hr.
  do 7 (apply tx_bind_Ok in Hr as (? & ? & _ & Hr)). by injection Hr as <- _.
Qed.

Lemma consider_report overflow at_ req now mode d rep db rep' db' :
  consider rv overflow at_ req now mode d rep db = Ok (rep', db') → tallied rep →
  tallied rep' ∧ map oc_DecisionID (rp_Outcomes rep') = map oc_DecisionID (rp_Outcomes rep) ++ (if skipped req d then [] else [d_ID d]) ∧
  db_approvals db' `sublist_of` db_approvals db ∧
  Z.of_nat (length (db_approvals db)) = (Z.of_nat (length (db_approvals db')) + (rp_Invalidated rep' - rp_Invalidated rep))%Z.
Proof.
  intros Hc Ht. unfold consider in Hc. fold (skipped req d) in Hc. destruct (skipped req d).
  { injection Hc as <- <-. split_and!; [done|by rewrite app_nil_r|done|lia]. }
  case_bool_decide.
  - apply tx_bind_Ok in Hc as (u & db1 & [= _ <-] & [= <- <-]). simpl. rewrite map_app. split_and!; [|done|done|lia].
    pose proof (tallied_add rep (mkOutcome (d_ID d) DispositionGrandfathered 0 []) (rp_Fetched rep) Ht) as Hadd. simpl in Hadd. by rewrite !Z.add_0_r in Hadd.
  - apply tx_bind_Ok in Hc as (out & db1 & Hr & [= <- <-]). simpl rp_Outcomes. rewrite map_app. cbn [map]. rewrite (revaluate_id _ _ _ _ _ _ _ _ Hr).
    destruct (spends_revaluate _ _ _ _ _ _ _ _ Hr) as [Hs E]. split_and!; [by apply tallied_add|done|done|simpl; lia].
Qed.

(** The report accounts for the revision.  The decisions it names are exactly the
    open ones whose policy was not excluded, in the order they were taken; its counts
    are those of its outcomes; no approval was added, and the approvals that are gone
    from the store are as many as it says it invalidated. *)
Theorem revision_report_accounts overflow clock at_ req db rep db' :
  Apply rv overflow clock at_ req db = Ok (rep, db') →
  tallied rep ∧
  map oc_DecisionID (rp_Outcomes rep) = map d_ID (filter (λ d, skipped req d = false) (openDecisions (instant clock req) db)) ∧
  db_approvals db' `sublist_of` db_approvals db ∧
  Z.of_nat (length (db_approvals db)) = (Z.of_nat (length (db_approvals db')) + rp_Invalidated rep)%Z.
Proof.
  intros (rep1 & Hr & ->)%Apply_inv. set (rep0 := mkReport _ 0 0 0 [] []) in Hr.
  assert (∀ ds rep db rep' db', consider_each rv overflow at_ req (instant clock req) (OrDefault (vq_Mode req)) ds rep db = Ok (rep', db') → tallied rep →
    tallied rep' ∧ map oc_DecisionID (rp_Outcomes rep') = map oc_DecisionID (rp_Outcomes rep) ++ map d_ID (filter (λ d, skipped req d = false) ds) ∧
    db_approvals db' `sublist_of` db_approvals db ∧
    Z.of_nat (length (db_approvals db)) = (Z.of_nat (length (db_approvals db')) + (rp_Invalidated rep' - rp_Invalidated rep))%Z) as Hall.
  { clear. induction ds as [|d ds IH]; intros rep db rep' db'; simpl.
    { intros [= <- <-] Ht. split_and!; [done|by rewrite app_nil_r|done|lia]. }
    intros (rep1 & db1 & Hc & Hr)%tx_bind_Ok Ht. destruct (consider_report _ _ _ _ _ _ _ _ _ _ Hc Ht) as (T1 & E1 & S1 & L1).
    destruct (IH _ _ _ _ Hr T1) as (T2 & E2 & S2 & L2). split_and!; [done| |by etrans|lia].
    rewrite E2, E1, <-(assoc_L (++)), filter_cons. f_equal. destruct (skipped req d); [by rewrite decide_False|by rewrite decide_True]. }
  destruct (Hall _ _ _ _ _ Hr) as (T1 & E1 & S1 & L1); [done|]. split_and!; [done|done|done|]. simpl in *. lia.
Qed.
End report.
(** ** A run *)

Module RevisionDemo.
#[local] Existing Instance toy_digest.

(** One of two approvals is in when a revision asks for one, and for a longer wait. *)
Definition gate : Policy :=
  mkPolicy "transfer" "" "user" "account" "" ["send"] (Compare (Lit (mkLiteral TypeInt (VInt 1))) OpEq (Lit (mkLiteral TypeInt (VInt 1))))
    [CQuorum (mkQuorum 1%Z (mkApproverSet ["alice"; " bob "; "alice"] "" None)); CDelay (mkDelay 9000%Z (Some (mkApproverSet ["carol"] "" None)))].
Definition schema : Schema :=
  mkSchema [mkEntityType "user" []; mkEntityType "account" []] [mkAction "send" ""] [].
Definition policies : list PolicyVersion := [mkPolicyVersion "2" gate].
Definition snapshot : Snapshot :=
  Eval vm_compute in match NewSnapshot "s" schema policies with Ok s => s | Err _ => mkSnapshot schema [] end.
Definition revalidator : Revalidator :=
  mkRevalidator [(ChallengeQuorum, quorum_tx Demo.qcfg); (ChallengeDelay, delay_tx Demo.dcfg)] None (λ _, "").
Definition now : Time.t := (Demo.t0 + 2000)%Z.
Definition request : RevalidateRequest :=
  mkRevalidateRequest ModeUnset snapshot None (Some (λ _ _, Ok 2%Z)) "rev-1" None now.
Definition world : World := Eval vm_compute in
  run_calls Demo.service [CallDecide Demo.request Demo.t0; CallSubmit (Demo.approve "alice") Demo.t0] Demo.world.
Definition versions : list (string * Z) := [("transfer", 1%Z); ("transfer", 2%Z)].
Definition applied : result (RevalidateReport * DB) := Apply revalidator 0 now now request (set_policies versions (w_db world)).
Definition report : RevalidateReport := Eval vm_compute in match applied with Ok (rep, _) => rep | Err _ => mkReport ModeUnset 0 0 0 [] [] end.
Definition after_db : DB := Eval vm_compute in match applied with Ok (_, db) => db | Err _ => w_db world end.
Definition revised_world : World := Eval vm_compute in mkWorld after_db (w_steps world) (w_ids world).
Definition read : call := CallGet (Some Demo.app) "id1" (Demo.t0 + 10000)%Z.
Definition horizon : Time.t := (Demo.t0 + 10000)%Z.
Definition result_of : Result := Eval vm_compute in
  some_result (answer_of Demo.service read (run_call Demo.service (CallSweep 10%Z horizon) revised_world)).

Lemma handlers : RevalidatorHandlers revalidator.
Proof.
  split; unfold TxRegistry_Handler; simpl.
  - intros h [= <-]. eauto.
  - intros h [= <-]. eauto.
  - done.
  - done.
Qed.

Lemma exact p c : loaded policies p → c ∈ p_Challenges p → spec_exact c.
Proof.
  intros (pv & ->%list_elem_of_singleton & <-). simpl. intros Hc.
  repeat (apply elem_of_cons in Hc as [->|Hc]; [done|]). set_solver.
Qed.

Lemma fair X : fair_decision X (w_db world) after_db.
Proof.
  intros d0 d1 r0 r1 H0 H1 [_ Hr0]%elem_of_rows [_ Hr1]%elem_of_rows Eo Ek.
  assert (X = "id1") as ->.
  { apply elem_of_map_to_list in H0. revert H0. change (map_to_list _) with (map_to_list (db_decisions (w_db world))).
    assert (Forall (λ kd, kd.1 = "id1") (map_to_list (db_decisions (w_db world)))) as Hf by (vm_compute; repeat constructor).
    intros Hin. by apply (proj1 (Forall_forall _ _) Hf) in Hin. }
  vm_compute in H0, H1. injection H0 as <-. injection H1 as <-.
  unfold world in Hr0. unfold after_db in Hr1. cbn [w_db db_progress] in Hr0, Hr1.
  apply elem_of_cons in Hr0 as [->|Hr0]; [|apply list_elem_of_singleton in Hr0 as ->];
    (apply elem_of_cons in Hr1 as [->|Hr1]; [|apply list_elem_of_singleton in Hr1 as ->]); try done; clear Eo Ek.
  split; [|done]. intros _ q0 q1 m0 m1 D0 D1 M0 M1 _. vm_compute in D0, D1. injection D0 as <-. injection D1 as <-.
  vm_compute in M0, M1. congruence.
Qed.

Lemma step : revision_step revalidator horizon request (w_db world) after_db.
Proof.
  split; [exists "s", schema, policies; split; [vm_compute; reflexivity|apply exact]| |apply fair].
  exists 0%Z, now, now, versions, report. split; [by apply Z.leb_le|vm_compute; reflexivity].
Qed.

Lemma past : history Demo.service revalidator horizon Demo.world (run_call Demo.service (CallSweep 10%Z horizon) revised_world).
Proof.
  apply history_call; [|done]. apply (history_revision _ _ _ _ world request after_db); [|apply step].
  assert (world = run_call Demo.service (CallSubmit (Demo.approve "alice") Demo.t0) (run_call Demo.service (CallDecide Demo.request Demo.t0) Demo.world)) as ->
    by (vm_compute; reflexivity).
  apply history_call; [apply history_call; [constructor|]|]; by apply Z.leb_le.
Qed.
End RevisionDemo.

(** Witness: the demo's decision, one approval short, is rebound and let through. *)
Lemma allow_rests_on_evidence_across_revisions_witness :
  rs_State RevisionDemo.result_of = DecisionAllowed ∧
  @all_backed toy_digest RevisionDemo.horizon
    (w_db (@run_call toy_digest Demo.service RevisionDemo.read (@run_call toy_digest Demo.service (CallSweep 10%Z RevisionDemo.horizon) RevisionDemo.revised_world)))
    (rs_ID RevisionDemo.result_of).
Proof.
  split; [reflexivity|].
  apply (@allow_rests_on_evidence_across_revisions _ toy_digest Demo.service RevisionDemo.revalidator RevisionDemo.horizon RevisionDemo.handlers
    [("transfer", 1%Z)] Demo.world).
  - exact demo_deployed.
  - exact demo_calm.
  - reflexivity.
  - exact RevisionDemo.past.
  - apply Z.le_refl.
  - vm_compute. reflexivity.
  - reflexivity.
Defined.

(** Witness: under grandfathering the demo's open decision is left as it is. *)
Definition demo_grandfathered : RevalidateRequest :=
  mkRevalidateRequest ModeGrandfather RevisionDemo.snapshot None None "rev-2" None RevisionDemo.now.
Definition demo_kept : RevalidateReport * DB := Eval vm_compute in
  match @Apply _ toy_digest RevisionDemo.revalidator 0 RevisionDemo.now RevisionDemo.now demo_grandfathered (w_db RevisionDemo.world) with
  | Ok p => p | Err _ => (mkReport ModeUnset 0 0 0 [] [], w_db RevisionDemo.world) end.

Lemma demo_ok : db_ok (w_db RevisionDemo.world).
Proof.
  destruct demo_deployed as [reg ver].
  destruct (@history_inv _ toy_digest Demo.service RevisionDemo.revalidator RevisionDemo.horizon RevisionDemo.handlers Demo.world RevisionDemo.world demo_deployed) as [_ Hi];
    [|exact demo_calm|apply inv_empty|apply (inv_ok _ _ Hi)].
  assert (RevisionDemo.world = @run_call toy_digest Demo.service (CallSubmit (Demo.approve "alice") Demo.t0) (@run_call toy_digest Demo.service (CallDecide Demo.request Demo.t0) Demo.world)) as ->
    by (vm_compute; reflexivity).
  apply history_call; [apply history_call; [constructor|]|]; by apply Z.leb_le.
Qed.

Lemma revision_leaves_the_rest_witness :
  rp_Considered demo_kept.1 = 1%Z ∧ look "id1" demo_kept.2 = look "id1" (w_db RevisionDemo.world).
Proof.
  split; [reflexivity|].
  apply (@revision_leaves_the_rest _ toy_digest RevisionDemo.revalidator 0 RevisionDemo.now RevisionDemo.now demo_grandfathered _ demo_kept.1).
  - exact demo_ok.
  - vm_compute. reflexivity.
  - intros d _. right. right. left. reflexivity.
Defined.

(** Witness: the demo's revision names one decision and drops nothing. *)
Lemma revision_report_accounts_witness :
  tallied RevisionDemo.report ∧ map oc_DecisionID (rp_Outcomes RevisionDemo.report) = ["id1"] ∧
  Z.of_nat (length (db_approvals (set_policies RevisionDemo.versions (w_db RevisionDemo.world)))) =
    (Z.of_nat (length (db_approvals RevisionDemo.after_db)) + rp_Invalidated RevisionDemo.report)%Z.
Proof.
  destruct (@revision_report_accounts _ toy_digest RevisionDemo.revalidator 0 RevisionDemo.now RevisionDemo.now RevisionDemo.request
    (set_policies RevisionDemo.versions (w_db RevisionDemo.world)) RevisionDemo.report RevisionDemo.after_db) as (H1 & _ & _ & H2).
  - vm_compute. reflexivity.
  - split; [exact H1|]. split; [reflexivity|exact H2].
Defined.

(** Witness: the demo's wait of 5000 from [t0], revised to 9000, is released at [t0 + 9000]. *)
Definition demo_issue : IssueRequest :=
  mkIssueRequest (mkInstance "id1" 1%Z ChallengeDelay) (CDelay Demo.hold) (mkContext "" "" "" "" "" "" JNull JNull JNull 0%Z 0%Z) Demo.t0.
Definition demo_issued : IssueResult := Eval vm_compute in
  match delay_issue Demo.dcfg demo_issue with Ok r => r | Err _ => mkIssueResult StatePending None None false 0%Z end.
Definition demo_wait : ChallengeProgress := Eval vm_compute in
  match List.nth_error (db_progress (w_db RevisionDemo.world)) 1 with Some r => r | None => mkProgress "" 0%Z ChallengeDelay StatePending None None JNull end.
Definition demo_decision : Decision := Eval vm_compute in default demo_row (db_decisions (w_db RevisionDemo.world) !! "id1").
Definition demo_rebind : rebind :=
  mkRebind demo_decision (contextOf demo_decision) 1%Z (CDelay (mkDelay 9000%Z (Some (mkApproverSet ["carol"] "" None)))) demo_wait "rev-1" RevisionDemo.now.
Definition demo_rebound : rebound * DB := Eval vm_compute in
  match @rebindDelay RevisionDemo.revalidator RevisionDemo.now demo_rebind (w_db RevisionDemo.world) with
  | Ok p => p | Err _ => (untouched, w_db RevisionDemo.world) end.

Lemma revised_wait_keeps_its_start_witness :
  ∃ r, r ∈ rows "id1" demo_rebound.2 ∧ cp_State r = StatePending ∧ cp_Deadline r = Some (Demo.t0 + 9000)%Z.
Proof.
  destruct (revised_wait_keeps_its_start RevisionDemo.revalidator Demo.dcfg demo_issued demo_issue demo_rebind RevisionDemo.now
    (w_db RevisionDemo.world) demo_rebound.1 demo_rebound.2 Demo.hold (mkDelay 9000%Z (Some (mkApproverSet ["carol"] "" None)))) as (_ & r & Hr & _ & _ & Hs & Hd).
  - exists Demo.dcfg. reflexivity.
  - vm_compute. reflexivity.
  - reflexivity.
  - reflexivity.
  - split; reflexivity.
  - discriminate.
  - discriminate.
  - vm_compute. reflexivity.
  - reflexivity.
  - apply (bool_decide_unpack _). vm_compute. exact I.
  - apply elem_of_rows. split; [reflexivity|]. apply list_elem_of_lookup. exists 1. reflexivity.
  - reflexivity.
  - vm_compute. reflexivity.
  - exists r. split; [exact Hr|]. split; [exact Hs|exact Hd].
Defined.


(** A wait that is over and that a revision makes longer stays over: the handler answers
    the stored terminal state, so the row is satisfied with a release that has not come. *)
Definition demo_over : ChallengeProgress := mkProgress (cp_DecisionID demo_wait) (cp_Ordinal demo_wait) (cp_Kind demo_wait)
  StateSatisfied (cp_Deadline demo_wait) (Some (Demo.t0 + 5000)%Z) (cp_Detail demo_wait).
Definition demo_over_db : DB := with_progress (λ _, [demo_over]) (w_db RevisionDemo.world).
Definition demo_lengthened : rebind :=
  mkRebind demo_decision (contextOf demo_decision) 1%Z (CDelay (mkDelay 9000%Z (Some (mkApproverSet ["carol"] "" None)))) demo_over "rev-1" (Demo.t0 + 6000)%Z.

Lemma lengthened_wait_stays_satisfied :
  match rebindDelay RevisionDemo.revalidator (Demo.t0 + 6000)%Z demo_lengthened demo_over_db with
  | Ok (_, db) => map (λ r, (cp_State r, match decodeDelayDetail (cp_Detail r) with Ok w => Time.Before (rb_now demo_lengthened) (dd_ReleaseAt w) | Err _ => false end)) (rows "id1" db)
  | Err _ => []
  end = [(StateSatisfied, true)].
Proof. vm_compute. reflexivity. Qed.
