(* ===== verification/GovWorld.v ===== *)
(** * Running governance against the shared database

    The database governance works on: the decisions, the policy tables, the revisions
    and the bootstrap token, and computations over it.  As in World, a schedule says
    before each transaction what the other instances did, whether the call fails and
    how, and the database clock.  A call into the decision service, which touches the
    decisions only, runs against the decisions with a schedule of its own. *)
From S2P Require Import Prelude GoLib Policy Cel Validate Delta PolicyStore ApplyPlan Weakening Json Store World.
From S2P Require Import Challenge Service Revalidate.

(** ** Rows (migrations 000005 and 000006) *)

Inductive RState := RPending | RApplied | RWithdrawn | RRejected | RSuperseded.

#[export] Instance RState_eq_dec : EqDecision RState.
Proof. solve_decision. Defined.

Record Revision := mkRevision {
  rw_ID : string; rw_DecisionID : option string; rw_ProposerID : string; rw_Origin : Origin; rw_Delta : deltaJSON;
  rw_DeltaDigest : string; rw_Mode : ApplicationMode; rw_State : RState; rw_Weakening : bool; rw_Findings : list Finding;
  rw_Threshold : Z; rw_CreatedAt : Time.t; rw_ResolvedAt : option Time.t }.

Record BootRow := mkBootRow { bt_hash : string; bt_issued : Time.t; bt_consumed : option Time.t; bt_warned : option Time.t }.

Record GDB := mkGDB { g_db : DB; g_tables : Tables; g_revisions : list Revision; g_boot : option BootRow }.

Definition with_db (f : DB → DB) (g : GDB) : GDB := mkGDB (f (g_db g)) (g_tables g) (g_revisions g) (g_boot g).
Definition with_revisions (f : list Revision → list Revision) (g : GDB) : GDB := mkGDB (g_db g) (g_tables g) (f (g_revisions g)) (g_boot g).
Definition with_boot (b : option BootRow) (g : GDB) : GDB := mkGDB (g_db g) (g_tables g) (g_revisions g) b.

(** ** Transactions *)

Notation GTx := (Tx_ GDB).

Definition on_db {A} (m : Tx_ DB A) : GTx A := λ g,
  let? p := m (g_db g) in Ok (p.1, mkGDB p.2 (g_tables g) (g_revisions g) (g_boot g)).
Definition on_tables {A} (m : Tx_ Tables A) : GTx A := λ g,
  let? p := m (g_tables g) in Ok (p.1, mkGDB (g_db g) p.2 (g_revisions g) (g_boot g)).

(** [ap.Append]. *)
Definition note (kind subject : string) (payload : list (string * json)) : GTx unit :=
  tx_write (with_db (append (mkAudit kind subject (JObj payload)))).

(** ** Computations *)

Record gstep := mkGStep { gs_env : GDB → GDB; gs_fault : fault; gs_now : Time.t; gs_inner : list step }.

Record GWorld := mkGWorld { gw_db : GDB; gw_steps : list gstep; gw_ids : list string; gw_tokens : list string }.

Definition G (A : Type) : Type := GWorld → result A * GWorld.

Definition g_ret {A} (a : A) : G A := λ w, (Ok a, w).
Definition g_throw {A} (e : error) : G A := λ w, (Err e, w).
Definition g_lift {A} (r : result A) : G A := λ w, (r, w).
Definition g_bind {A B} (m : G A) (k : A → G B) : G B := λ w,
  match m w with (Ok a, w') => k a w' | (Err e, w') => (Err e, w') end.
Definition g_attempt {A} (m : G A) : G (result A) := λ w, let '(r, w') := m w in (Ok r, w').

Notation "'let^' x ':=' m 'in' k" := (g_bind m (fun x => k))
  (at level 10, x name, m at level 100, k at level 200) : stamp_scope.

Definition quiet_gstep : gstep := mkGStep (λ g, g) NoFault 0%Z [].
Definition next_gstep (w : GWorld) : gstep * list gstep :=
  match gw_steps w with [] => (quiet_gstep, []) | s :: l => (s, l) end.

(** One transaction, on the audit writer or on the pool. *)
Definition gtxn {A} (op : Time.t → GTx A) : G A := λ w,
  let '(s, rest) := next_gstep w in
  let g := gs_env s (gw_db w) in
  match gs_fault s with
  | Lost => (Err [ErrDatabase], mkGWorld g rest (gw_ids w) (gw_tokens w))
  | f =>
      match op (gs_now s) g with
      | Err e => (Err e, mkGWorld g rest (gw_ids w) (gw_tokens w))
      | Ok (a, g') => (match f with LostReply => Err [ErrDatabase] | _ => Ok a end, mkGWorld g' rest (gw_ids w) (gw_tokens w))
      end
  end.

Definition gquery {A} (f : GDB → result A) : G A := gtxn (λ _ g, let? a := f g in Ok (a, g)).

(** A call into the decision service. *)
Definition inner {A} (m : M A) : G A := λ w,
  let '(s, rest) := next_gstep w in
  let g := gs_env s (gw_db w) in
  let '(r, w') := m (mkWorld (g_db g) (gs_inner s) (gw_ids w)) in
  (r, mkGWorld (with_db (λ _, w_db w') g) rest (w_ids w') (gw_tokens w)).

Definition g_newID : G string := λ w,
  match gw_ids w with
  | [] => (Err [], w)
  | id :: ids => (Ok id, mkGWorld (gw_db w) (gw_steps w) ids (gw_tokens w))
  end.

(** 32 random bytes in base64. *)
Definition g_newToken : G string := λ w,
  match gw_tokens w with
  | [] => (Err [], w)
  | t :: ts => (Ok t, mkGWorld (gw_db w) (gw_steps w) (gw_ids w) ts)
  end.

(** ** Invariants kept under interference and faults *)

Definition grely (I : GDB → Prop) (w : GWorld) : Prop := Forall (λ s, ∀ g, I g → I (gs_env s g)) (gw_steps w).

(** A computation that keeps an invariant and whose answers satisfy [Q]. *)
Definition gspec (I : GDB → Prop) {A} (m : G A) (Q : A → Prop) : Prop :=
  ∀ w, I (gw_db w) → grely I w → I (gw_db (m w).2) ∧ grely I (m w).2 ∧ ∀ a, (m w).1 = Ok a → Q a.
Notation gkeeps I m := (gspec I m (λ _, True)).

Definition tx_spec (I : GDB → Prop) {A} (m : GTx A) (Q : A → Prop) : Prop := ∀ g a g', I g → m g = Ok (a, g') → I g' ∧ Q a.
Notation tx_keeps I m := (tx_spec I m (λ _, True)).

Create HintDb gkeeps.

Section gspec.
Context (I : GDB → Prop).

Lemma gspec_ret {A} (a : A) (Q : A → Prop) : Q a → gspec I (g_ret a) Q.
Proof. intros Hq w Hi Hr. split_and!; [done..|]. by intros b [= <-]. Qed.
Lemma gspec_throw {A} e (Q : A → Prop) : gspec I (g_throw e) Q.
Proof. intros w Hi Hr. by split_and!. Qed.
Lemma gspec_lift {A} (r : result A) (Q : A → Prop) : (∀ a, r = Ok a → Q a) → gspec I (g_lift r) Q.
Proof. intros Hq w Hi Hr. by split_and!. Qed.
Lemma gspec_bind {A B} (m : G A) (k : A → G B) P Q : gspec I m P → (∀ a, P a → gspec I (k a) Q) → gspec I (g_bind m k) Q.
Proof.
  intros Hm Hk w Hi Hr. unfold g_bind. specialize (Hm w Hi Hr). destruct (m w) as [[a|e] w1]; simpl in *; destruct Hm as (Hi1 & Hr1 & Hp).
  - by apply Hk; [apply Hp|..].
  - by split_and!.
Qed.
Lemma gspec_attempt {A} (m : G A) Q : gspec I m Q → gspec I (g_attempt m) (λ r, ∀ a, r = Ok a → Q a).
Proof. intros Hm w Hi Hr. unfold g_attempt. specialize (Hm w Hi Hr). destruct (m w) as [r w1]; simpl in *. destruct Hm as (? & ? & Hq). split_and!; [done..|]. by intros a [= <-]. Qed.
Lemma gspec_weaken {A} (m : G A) (P Q : A → Prop) : gspec I m P → (∀ a, P a → Q a) → gspec I m Q.
Proof. intros Hm Hpq w Hi Hr. destruct (Hm w Hi Hr) as (? & ? & ?). split_and!; eauto. Qed.

Lemma next_gstep_spec w s rest : grely I w → next_gstep w = (s, rest) → (∀ g, I g → I (gs_env s g)) ∧ Forall (λ s, ∀ g, I g → I (gs_env s g)) rest.
Proof. unfold grely, next_gstep. destruct (gw_steps w) as [|s0 l]; intros Hr [= <- <-]; [by split|]. by apply Forall_cons in Hr. Qed.

Lemma gspec_gtxn {A} (op : Time.t → GTx A) Q : (∀ at_, tx_spec I (op at_) Q) → gspec I (gtxn op) Q.
Proof.
  intros Hop w Hi Hr. unfold gtxn. destruct (next_gstep w) as [s rest] eqn:Es. destruct (next_gstep_spec w s rest Hr Es) as [Henv Hrest].
  specialize (Henv _ Hi). destruct (gs_fault s); try (by split_and!); (destruct (op _ _) as [[a g']|e] eqn:Eo; [|by split_and!]);
    destruct (Hop _ _ _ _ Henv Eo) as [Hi' Hq]; (split_and!; [done..|]); simpl; intros b [=]; by subst.
Qed.
Lemma gspec_gquery {A} (f : GDB → result A) (Q : A → Prop) : (∀ g a, I g → f g = Ok a → Q a) → gspec I (gquery f) Q.
Proof. intros Hf. apply gspec_gtxn. intros at_ g a g' Hi (b & Hb & [= <- <-])%res_bind_Ok. eauto. Qed.
Lemma gspec_newID : gkeeps I g_newID.
Proof. intros w Hi Hr. unfold g_newID. by destruct (gw_ids w). Qed.
Lemma gspec_newToken : gkeeps I g_newToken.
Proof. intros w Hi Hr. unfold g_newToken. by destruct (gw_tokens w). Qed.

(** The decision service reaches nothing but the decisions. *)
Lemma gspec_inner {A} (m : M A) : (∀ g db, I g → I (with_db (λ _, db) g)) → gkeeps I (inner m).
Proof.
  intros Hdb w Hi Hr. unfold inner. destruct (next_gstep w) as [s rest] eqn:Es. destruct (next_gstep_spec w s rest Hr Es) as [Henv Hrest].
  destruct (m _) as [r w']; simpl. split_and!; [|done|done]. apply Hdb, Henv, Hi.
Qed.

(** What holds of the database a computation that succeeds leaves. *)
Definition gpost {A} (m : G A) (R : A → GDB → Prop) : Prop := ∀ w a w', I (gw_db w) → grely I w → m w = (Ok a, w') → R a (gw_db w').

Lemma gpost_bind {A B} (m : G A) (k : A → G B) P R : gspec I m P → (∀ a, P a → gpost (k a) R) → gpost (g_bind m k) R.
Proof.
  intros Hm Hk w b w' Hi Hr. unfold g_bind. destruct (Hm w Hi Hr) as (Hi1 & Hr1 & Hp). destruct (m w) as [[a|e] w1]; [|done]. simpl in *. by apply Hk; [apply Hp|..].
Qed.
Lemma gpost_map {A B} (m : G A) (f : A → B) R : gpost m (λ a, R (f a)) → gpost (let^ a := m in g_ret (f a)) R.
Proof. intros Hm w b w' Hi Hr. unfold g_bind. destruct (m w) as [[a|e] w1] eqn:E; [|done]. intros [= <- <-]. by apply (Hm w). Qed.
Lemma gpost_throw {A} e (R : A → GDB → Prop) : gpost (g_throw e) R.
Proof. by intros w a w' _ _ [=]. Qed.
Lemma gpost_gtxn {A} (op : Time.t → GTx A) (R : A → GDB → Prop) : (∀ at_ g a g', I g → op at_ g = Ok (a, g') → R a g') → gpost (gtxn op) R.
Proof.
  intros Hop w a w' Hi Hr. unfold gtxn. destruct (next_gstep w) as [s rest] eqn:Es. destruct (next_gstep_spec w s rest Hr Es) as [Henv _]. specialize (Henv _ Hi).
  destruct (gs_fault s); try done; destruct (op _ _) as [[b g']|e] eqn:Eo; try done; intros [= <- <-]; by eapply Hop.
Qed.

Lemma tx_spec_bind {A B} (m : GTx A) (k : A → GTx B) P Q : tx_spec I m P → (∀ a, P a → tx_spec I (k a) Q) → tx_spec I (tx_bind m k) Q.
Proof. intros Hm Hk g b g' Hi (a & g1 & Ha & Hb)%tx_bind_Ok. destruct (Hm _ _ _ Hi Ha) as [Hi1 Hp]. by eapply Hk. Qed.
Lemma tx_spec_ret {A} (a : A) (Q : A → Prop) : Q a → tx_spec I (tx_ret a) Q.
Proof. by intros Hq g b g' Hi [= <- <-]. Qed.
Lemma tx_spec_fail {A} e (Q : A → Prop) : tx_spec I (tx_fail e) Q.
Proof. by intros g b g' Hi [=]. Qed.
Lemma tx_spec_lift {A} (r : result A) (Q : A → Prop) : (∀ a, r = Ok a → Q a) → tx_spec I (tx_lift r) Q.
Proof. intros Hq g b g' Hi [Hr ->]%tx_lift_Ok. auto. Qed.
Lemma tx_spec_reading {A} (f : GDB → result A) (Q : A → Prop) : (∀ g a, I g → f g = Ok a → Q a) → tx_spec I (λ g, let? a := f g in Ok (a, g)) Q.
Proof. intros Hf g a g' Hi (b & Hb & [= <- <-])%res_bind_Ok. eauto. Qed.
Lemma tx_spec_read {A} (f : GDB → A) : tx_keeps I (tx_read f).
Proof. by intros g a g' Hi [= <- <-]. Qed.
Lemma tx_spec_write f : (∀ g, I g → I (f g)) → tx_keeps I (tx_write f).
Proof. intros Hf g a g' Hi [= <- <-]. eauto. Qed.
Lemma tx_spec_weaken {A} (m : GTx A) (P Q : A → Prop) : tx_spec I m P → (∀ a, P a → Q a) → tx_spec I m Q.
Proof. intros Hm Hpq g a g' Hi Ha. destruct (Hm _ _ _ Hi Ha). auto. Qed.
End gspec.

#[export] Hint Resolve gspec_throw gspec_newID gspec_newToken tx_spec_fail tx_spec_read : gkeeps.
