(* ===== verification/Governance.v ===== *)
(** * Governance

    Models the parts of internal/policy/revision/governance.go around the reserved
    policy (its installation, the lock, the assessment of a delta and its preview) and
    bootstrap.go.  Proposals.v has the life of a revision.

    Texts of findings, hashes and the digest of a delta are the class [GovEnv]; a clock
    reading is the argument [now], the database's [now()] the argument [at_]. *)
From stdpp Require Import pretty.
From S2P Require Import Prelude GoLib Policy Cel Engine Validate Delta Weakening Json Store World Limiter.
From S2P Require Import Challenge Quorum Delay Service Revalidate PolicyStore ApplyPlan GovWorld.
Import Strings.

Class GovEnv := {
  (** The SHA-256 of a bootstrap token under its context, in hex. *)
  hashToken : string → string;
  (** [Delta.Digest] of the stored form, in hex. *)
  delta_digest : deltaJSON → string;
  (** [Finding.String]. *)
  Finding_string : Finding → string }.

(** ** The reserved policy *)

Definition ActionRevise : string := "policy.revise".
Definition PolicySetID : string := "default".
Definition EntityAdmin : string := "admin".
Definition EntityPolicySet : string := "policy_set".
Definition EntityRevision : string := "revision".
Definition SystemAuthor : string := "stamp.system".

Definition AuditKindInstalled : string := "governance.installed".
Definition AuditKindLocked : string := "governance.locked".
Definition AuditKindRevisionProposed : string := "policy.revision.proposed".
Definition AuditKindRevisionApplied : string := "policy.revision.applied".
Definition AuditKindRevisionRejected : string := "policy.revision.rejected".
Definition AuditKindRevisionWithdraw : string := "policy.revision.withdrawn".
Definition AuditKindRevisionSuperseded : string := "policy.revision.superseded".
Definition AuditKindGovernanceReset : string := "governance.reset".
Definition AuditKindBootstrapIssued : string := "governance.bootstrap.issued".
Definition AuditKindBootstrapUsed : string := "governance.bootstrap.used".
Definition AuditKindBootstrapConsumed : string := "governance.bootstrap.consumed".
Definition AuditKindBootstrapUnused : string := "governance.bootstrap.unused".
Definition AuditKindBootstrapRefused : string := "governance.bootstrap.refused".
Definition AuditKindSchemaPut : string := "policy.schema.put".
Definition AuditKindPolicyPut : string := "policy.put".
Definition AuditKindPolicyDelete : string := "policy.delete".

Definition SeverityKey : string := "severity".
Definition SeverityCritical : string := "critical".
Definition SeverityNotice : string := "notice".
Definition severity (s : string) : string * json := (SeverityKey, JStr s).
Definition severityOf (weakening : bool) : string := if weakening then SeverityCritical else SeverityNotice.

Inductive Mode := ModeSolo | ModeQuorum.
#[export] Instance Mode_eq_dec : EqDecision Mode.
Proof. solve_decision. Defined.
Definition Mode_string (m : Mode) : string := match m with ModeSolo => "solo_admin" | ModeQuorum => "quorum" end.

Definition GovernanceSchema : Schema :=
  mkSchema [mkEntityType EntityAdmin []; mkEntityType EntityPolicySet [];
            mkEntityType EntityRevision [mkAttribute "delta_digest" TypeString; mkAttribute "weakening" TypeBool; mkAttribute "change_count" TypeInt]]
           [mkAction ActionRevise "propose a revision of the policy set"] [].

Definition GovernancePolicy (challenges : list Challenge) : Policy :=
  mkPolicy GovernancePolicyID "STAMP's own rule for changing the policy set" EntityAdmin EntityPolicySet EntityRevision [ActionRevise]
    (Compare (FieldRef RoleContext "delta_digest") OpNe (Lit (mkLiteral TypeString (VString "")))) challenges.

Definition as_quorum (c : Challenge) : option Quorum := match c with CQuorum q => Some q | _ => None end.
Definition GovernanceQuorum (p : option Policy) : option Quorum := match p with None => None | Some p => head (omap as_quorum (p_Challenges p)) end.

(** ** Configuration *)

Record Rate := mkRate { ra_Window : Time.duration; ra_Burst : Z }.
Definition DefaultRate : Rate := mkRate Time.Minute 10.
Definition DefaultRevisionTTL : Time.duration := (24 * 60 * Time.Minute)%Z.
Definition DefaultWarnInterval : Time.duration := (60 * Time.Minute)%Z.

(** [gv_overflow] is what converting an out-of-range float64 to int64 gives. *)
Record GService := mkGService {
  gv_challenges : Registry; gv_revalidator : Revalidator; gv_resolver : option SourceResolver; gv_floor : Floor;
  gv_ttl : Time.duration; gv_warnEvery : Time.duration; gv_authoring : AuthoringMode; gv_rate : Rate; gv_limits : PayloadLimits;
  gv_capabilities : option (Subject → result (list string)); gv_renderCall : SourceCall → string; gv_overflow : Z }.

(** [New]. *)
Definition NewGovernance (c : GService) : result GService :=
  if negb (AuthoringMode_Valid (AuthoringMode_OrDefault (gv_authoring c))) then Err []
  else Ok (mkGService (gv_challenges c) (gv_revalidator c) (gv_resolver c)
         (if (fl_MinApprovers (gv_floor c) <=? 0)%Z then mkFloor (fl_MinApprovers DefaultFloor) (fl_ProposerMayApprove (gv_floor c)) else gv_floor c)
         (if (gv_ttl c <=? 0)%Z then DefaultRevisionTTL else gv_ttl c)
         (if (gv_warnEvery c <=? 0)%Z then DefaultWarnInterval else gv_warnEvery c)
         (AuthoringMode_OrDefault (gv_authoring c))
         (if (ra_Window (gv_rate c) <=? 0)%Z || (ra_Burst (gv_rate c) <=? 0)%Z then DefaultRate else gv_rate c)
         (PayloadLimits_orDefault (gv_limits c)) (gv_capabilities c) (gv_renderCall c) (gv_overflow c)).

(** ** The bootstrap token (bootstrap.go) *)

Record BootstrapStatus := mkBootstrapStatus { bs_Issued : bool; bs_Consumed : bool; bs_IssuedAt : Time.t; bs_ConsumedAt : option Time.t }.
Definition bootstrapStatus (g : GDB) : BootstrapStatus :=
  match g_boot g with
  | None => mkBootstrapStatus false false Time.zero None
  | Some b => mkBootstrapStatus true (bool_decide (is_Some (bt_consumed b))) (bt_issued b) (bt_consumed b)
  end.

Section bootstrap.
Context `{GovEnv}.

(** [token] is a fresh one; a token that was issued before is not replaced unless
    [replace] is set. *)
Definition mint (now : Time.t) (token : string) (replace : bool) : GTx string := λ g,
  if negb replace && bs_Issued (bootstrapStatus g) then Ok ("", g)
  else
    (let% _ := tx_write (with_boot (Some (mkBootRow (hashToken token) (Time.trunc_us now) None None))) in
     let% _ := note AuditKindBootstrapIssued GovernancePolicyID [severity SeverityNotice; ("digest", JStr (hashToken token))] in
     tx_ret token) g.

Definition refuse_token (why : string) : G unit :=
  let^ _ := g_attempt (gtxn (λ _, note AuditKindBootstrapRefused GovernancePolicyID [severity SeverityCritical; ("reason", JStr why)])) in
  g_ret tt.

Definition Verify (token : string) : G unit :=
  let^ row := gquery (λ g, Ok (g_boot g)) in
  match row with
  | None => let^ _ := refuse_token "no bootstrap token has been issued" in g_throw [ErrBootstrapMissing]
  | Some b =>
      if bool_decide (is_Some (bt_consumed b)) then
        let^ _ := refuse_token "the bootstrap token was already consumed" in g_throw [ErrBootstrapSpent]
      else if bool_decide (token = "") then
        let^ _ := refuse_token "no bootstrap token was presented" in g_throw [ErrBootstrapRequired]
      else if negb (bool_decide (hashToken token = bt_hash b)) then
        let^ _ := refuse_token "the presented bootstrap token does not match" in g_throw [ErrBootstrapInvalid]
      else g_ret tt
  end.
End bootstrap.

Definition consume (now : Time.t) : GTx unit := λ g,
  match g_boot g with
  | Some b =>
      if bool_decide (is_Some (bt_consumed b)) then Err [ErrBootstrapSpent]
      else
        (let% _ := tx_write (with_boot (Some (mkBootRow (bt_hash b) (bt_issued b) (Some (Time.trunc_us now)) (bt_warned b)))) in
         note AuditKindBootstrapConsumed GovernancePolicyID [severity SeverityNotice]) g
  | None => Err [ErrBootstrapSpent]
  end.

Definition recordUse (action actor : string) : GTx unit :=
  note AuditKindBootstrapUsed GovernancePolicyID [severity SeverityNotice; ("action", JStr action); ("actor", JStr actor)].

Definition unused_detail : string :=
  "this installation is still in solo-admin mode and the bootstrap token is still live; lock governance to retire it".

(** [int64(d.Seconds())]. *)
Definition whole_seconds (d : Time.duration) : Z := to_int64 0 (Float64.seconds d).

Definition WarnIfUnused (warnEvery : Time.duration) (now : Time.t) : G bool :=
  gtxn (λ _ g,
    match g_boot g with
    | None => Ok (false, g)
    | Some b =>
        if bool_decide (is_Some (bt_consumed b)) then Ok (false, g)
        else if (Time.Sub now (default (bt_issued b) (bt_warned b)) <? warnEvery)%Z then Ok (false, g)
        else
          (let% _ := tx_write (with_boot (Some (mkBootRow (bt_hash b) (bt_issued b) (bt_consumed b) (Some (Time.trunc_us now))))) in
           let% _ := note AuditKindBootstrapUnused GovernancePolicyID
                       [severity SeverityCritical; ("issued_at", JTime (bt_issued b));
                        ("unused_seconds", JInt (whole_seconds (Time.Sub now (bt_issued b)))); ("detail", JStr unused_detail)] in
           tx_ret true) g
    end).

(** ** Reading the policies *)

Definition fetched {A} (f : Tables → result A) : G A := gquery (λ g, f (g_tables g)).

Section policies.
Context `{Codec}.

(** [Service.governance]: the reserved policy as it stands. *)
Definition governance (t : Tables) : result (PolicyRecord * Policy) :=
  match EffectivePolicy GovernancePolicyID t with
  | Err e => if errors_Is e ErrNotFound then Err [ErrNotInstalled] else Err e
  | Ok rec =>
      if pr_Deleted rec then Err [ErrNotInstalled]
      else let? p := PolicyRecord_Policy rec in Ok (rec, p)
  end.

Definition mode_of (p : Policy) : Mode := match GovernanceQuorum (Some p) with Some _ => ModeQuorum | None => ModeSolo end.

(** [Service.Mode]. *)
Definition governance_mode : G Mode := let^ rp := fetched governance in g_ret (mode_of rp.2).

(** The policies of the tenant: the effective ones but the reserved one. *)
Definition tenant_records (t : Tables) : list PolicyRecord :=
  List.filter (λ r, negb (IsReserved (pr_ID r))) (EffectivePolicies [] t).

Definition tenantSet : G PolicySet :=
  let^ schema := fetched LatestSchema in
  let^ decoded := g_lift (DecodeSchema (scr_Document schema)) in
  let^ records := fetched (λ t, Ok (tenant_records t)) in
  let^ ps := g_lift (res_map PolicyRecord_Policy records) in
  g_ret (mkSet decoded ps).

Definition currentState : G CurrentState :=
  let^ schema := fetched LatestSchema in
  let^ decoded := g_lift (DecodeSchema (scr_Document schema)) in
  let^ records := fetched (λ t, Ok (tenant_records t)) in
  let^ ps := g_lift (res_map (λ r, let? p := PolicyRecord_Policy r in Ok (mkCurrentPolicy (Some p) (pr_Origin r))) records) in
  g_ret (mkCurrentState decoded ps).

(** [Service.reconstructed]: the reads around [Delta.reconstructed]. *)
Definition reconstruct (d : Delta) : G Delta :=
  let^ schema := match de_SchemaAfter d with
                 | None => g_ret (Err [])
                 | Some _ => let^ rec := fetched LatestSchema in g_ret (DecodeSchema (scr_Document rec))
                 end in
  match de_Changes d with
  | [] => g_lift (reconstructed schema ∅ d)
  | _ =>
      let^ _ := match de_SchemaAfter d, schema with Some _, Err e => g_throw e | _, _ => g_ret tt end in
      let^ records := fetched (λ t, Ok (EffectivePolicies [] t)) in
      g_lift (reconstructed schema (list_to_map (map (λ r, (pr_ID r, PolicyRecord_Policy r)) records)) d)
  end.

(** ** Writing a policy

    The decisions refer to the versions that exist. *)
Definition put_policy (at_ : Time.t) (i : PolicyInput) : GTx PolicyRecord :=
  let% rec := on_tables (PutPolicy at_ i) in
  let% _ := tx_write (with_db (λ db, mkDB (db_decisions db) (db_progress db) (db_approvals db) (db_audit db) (db_policies db ++ [(pr_ID rec, pr_Version rec)]))) in
  tx_ret rec.
Definition delete_policy (at_ : Time.t) (id author : string) : GTx PolicyRecord :=
  let% rec := on_tables (DeletePolicy at_ id author) in
  let% _ := tx_write (with_db (λ db, mkDB (db_decisions db) (db_progress db) (db_approvals db) (db_audit db) (db_policies db ++ [(pr_ID rec, pr_Version rec)]))) in
  tx_ret rec.

(** ** Installation and the lock *)

Section install.
Context `{GovEnv} `{CEL}.

Definition install_tx (now : Time.t) (token : string) (at_ : Time.t) : GTx string := λ g,
  let fresh :=
    let% schema := on_tables (PutSchema at_ GovernanceSchema OriginForm SystemAuthor) in
    let% _ := put_policy at_ (mkPolicyInput (Some (GovernancePolicy [])) (scr_Version schema) OriginForm SystemAuthor false) in
    let% issued := mint now token false in
    let% _ := note AuditKindInstalled GovernancePolicyID
                [severity SeverityNotice; ("mode", JStr (Mode_string ModeSolo)); ("schema_version", JInt (scr_Version schema))] in
    tx_ret issued in
  match EffectivePolicy GovernancePolicyID (g_tables g) with
  | Ok existing => if negb (pr_Deleted existing) then mint now token false g else fresh g
  | Err e => if errors_Is e ErrNotFound then fresh g else Err e
  end.

Definition Install (now : Time.t) : G string :=
  let^ token := g_newToken in gtxn (install_tx now token).

Record LockRequest := mkLockRequest { lr_Actor : option Subject; lr_Token : string; lr_Quorum : Quorum }.

(** A policy against the reserved schema. *)
Definition valid_reserved (p : Policy) : bool := bool_decide (Validate.Validate (mkSet GovernanceSchema [p]) = []).

Definition lock_tx (now : Time.t) (actor : Subject) (q : Quorum) (at_ : Time.t) : GTx unit :=
  let% rp := (λ g, let? rp := governance (g_tables g) in Ok (rp, g)) in
  match GovernanceQuorum (Some rp.2) with
  | Some _ => tx_fail [ErrAlreadyLocked]
  | None =>
      let% _ := put_policy at_ (mkPolicyInput (Some (GovernancePolicy [CQuorum q])) (pr_SchemaVersion rp.1) (pr_Origin rp.1) (su_ID actor) false) in
      let% _ := consume now in
      note AuditKindLocked GovernancePolicyID
        [severity SeverityNotice; ("actor", JStr (CallerID actor)); ("threshold", JInt (q_Threshold q));
         ("approvers", match as_Members (q_Approvers q) with [] => JNull | l => JArr (map JStr l) end); ("claim", JStr (as_Claim (q_Approvers q)))]
  end.

Definition Lock (req : LockRequest) (now : Time.t) : G unit :=
  match lr_Actor req with
  | None => g_throw [ErrUnauthenticated]
  | Some actor =>
      if negb (bool_decide (su_Kind actor = SubjectUser)) then g_throw [ErrUnauthenticated]
      else
        let^ _ := Verify (lr_Token req) in
        let locked := GovernancePolicy [CQuorum (lr_Quorum req)] in
        let^ _ := g_lift (CheckSatisfiable (mkDelta [mkChange ChangeModify GovernancePolicyID (Some (GovernancePolicy [])) (Some locked) no_origin no_origin] None None)) in
        if negb (valid_reserved locked) then g_throw [ErrInvalidRevision]
        else gtxn (lock_tx now actor (lr_Quorum req))
  end.
End install.

(** ** Assessing a delta *)

Definition tenantDelta (d : Delta) : Delta :=
  mkDelta (List.filter (λ c, negb (IsReserved (ch_PolicyID c))) (de_Changes d)) (de_SchemaBefore d) (de_SchemaAfter d).

Section assess.
Context `{CEL}.

(** The checks on a change of the reserved policy. *)
Definition reserved_change_ok (d : Delta) (mode : Mode) : result unit :=
  match Delta_Change d GovernancePolicyID with
  | None => Ok tt
  | Some c =>
      if bool_decide (ch_Kind c = ChangeDelete) then Err [ErrAlreadyLocked]
      else match ch_After c with
      | None => Ok tt
      | Some after =>
          if bool_decide (mode = ModeQuorum) && bool_decide (GovernanceQuorum (Some after) = None) then Err [ErrAlreadyLocked]
          else if valid_reserved after then Ok tt else Err [ErrInvalidRevision]
      end
  end.

Definition outcome_valid (result : PolicySet) : bool :=
  (bool_decide (set_Policies result = []) && bool_decide (sch_Actions (set_Schema result) = [])) || bool_decide (Validate.Validate result = []).

Definition validateOutcome (d : Delta) (mode : Mode) : G unit :=
  let^ _ := g_lift (reserved_change_ok d mode) in
  let^ tenant := tenantSet in
  let^ outcome := g_lift (Delta.Result (tenantDelta d) (Some tenant)) in
  if outcome_valid outcome then g_ret tt else g_throw [ErrInvalidRevision].

Record assessment := mkAssessment {
  as_mode : Mode; as_delta : Delta; as_class : Classification; as_requirement : option Requirement;
  as_current : option Quorum; as_proposed : option Quorum; as_violations : nat }.

(** [assess] answers what it concluded even when it fails; a violation is an error
    that comes from the delta itself. *)
Definition assess (s : GService) (d : Delta) (proposer : string) : G (assessment * result unit) :=
  let stop (a : assessment) (violated : bool) (e : error) : G (assessment * result unit) :=
    g_ret (mkAssessment (as_mode a) (as_delta a) (as_class a) (as_requirement a) (as_current a) (as_proposed a) (if violated then 1 else 0), Err e) in
  let a0 := mkAssessment ModeSolo (mkDelta [] None None) [] None None None 0 in
  let^ gov := g_attempt (fetched governance) in
  match gov with
  | Err e => stop a0 false e
  | Ok rp =>
      let current := GovernanceQuorum (Some rp.2) in
      let mode := mode_of rp.2 in
      let a1 := mkAssessment mode (mkDelta [] None None) [] None current None 0 in
      let^ rebuilt := g_attempt (reconstruct d) in
      match rebuilt with
      | Err e => stop a1 false e
      | Ok d =>
          let a2 := mkAssessment mode d [] None current None 0 in
          match Delta_Validate d with
          | Err e => stop a2 true e
          | Ok _ =>
              match CheckSatisfiable d with
              | Err e => stop a2 true e
              | Ok _ =>
                  let^ outcome := g_attempt (validateOutcome d mode) in
                  match outcome with
                  | Err e => stop a2 true e
                  | Ok _ =>
                      let class := Classify d in
                      let proposed := match Delta_Change d GovernancePolicyID with Some c => GovernanceQuorum (ch_After c) | None => None end in
                      match Require current proposed class (gv_floor s) proposer with
                      | Err e => stop (mkAssessment mode d class None current proposed 0) true e
                      | Ok req => g_ret (mkAssessment mode d class (Some req) current proposed 0, Ok tt)
                      end
                  end
              end
          end
      end
  end.

Record Preview := mkPreview {
  pv_Mode : Mode; pv_Weakening : bool; pv_Findings : list Finding; pv_Threshold : Z; pv_Approvers : list string;
  pv_ExcludeProposer : bool; pv_AffectedDecisions : Z; pv_Violations : nat }.
Definition Admissible (p : Preview) : bool := (pv_Violations p =? 0)%nat.

Definition affected (now : Time.t) (g : GDB) : Z :=
  Z.of_nat (length (List.filter (λ d, bool_decide (d_State d = DecisionPending) && Time.After (d_ExpiresAt d) now && negb (bool_decide (d_PolicyID d = GovernancePolicyID)))
    (map snd (map_to_list (db_decisions (g_db g)))))).
Definition affectedDecisions (now : Time.t) : G Z := gquery (λ g, Ok (affected now g)).

Definition preview (s : GService) (proposer : option Subject) (d : Delta) (now : Time.t) : G Preview :=
  let^ ar := assess s d (match proposer with Some p => su_ID p | None => "" end) in
  let a := ar.1 in
  match ar.2, as_violations a with
  | Err e, 0 => g_throw e
  | _, v =>
      let^ n := affectedDecisions now in
      let req := default (mkRequirement 0 no_approvers false false []) (as_requirement a) in
      g_ret (mkPreview (as_mode a) (Weakening (as_class a)) (as_class a) (r_Threshold req) (as_Members (r_Approvers req)) (r_ExcludeProposer req) n v)
  end.
End assess.
End policies.
