(* ===== verification/Proposals.v ===== *)
(** * The life of a revision

    Models the rest of internal/policy/revision/governance.go with serialize.go,
    export.go, breakglass.go and the start of a file apply (apply.go).  [Propose] opens
    a revision and the decision that gates it, [Apply] takes it into effect when the
    decision is allowed, [Withdraw] and a newer proposal of the file path close it.

    An operation that reads the clock more than once takes it as [clock], its readings
    in order; an operation that reads it once takes the reading [now]. *)
From stdpp Require Import pretty.
From S2P Require Import Prelude GoLib Policy Cel Engine Validate Delta Weakening Json Store World Limiter.
From S2P Require Import Challenge Quorum Delay Service Revalidate PolicyStore ApplyPlan GovWorld Governance.
Import Strings.

(** ** Rows *)

Record Proposal := mkProposal {
  pp_ID : string; pp_DecisionID : string; pp_ProposerID : string; pp_Origin : Origin; pp_Delta : Delta; pp_DeltaDigest : string;
  pp_Mode : ApplicationMode; pp_State : RState; pp_Weakening : bool; pp_Findings : list Finding; pp_Threshold : Z;
  pp_CreatedAt : Time.t; pp_ResolvedAt : option Time.t; pp_Report : option RevalidateReport }.

Definition with_outcome (s : RState) (r : option RevalidateReport) (p : Proposal) : Proposal :=
  mkProposal (pp_ID p) (pp_DecisionID p) (pp_ProposerID p) (pp_Origin p) (pp_Delta p) (pp_DeltaDigest p) (pp_Mode p) s (pp_Weakening p)
    (pp_Findings p) (pp_Threshold p) (pp_CreatedAt p) (pp_ResolvedAt p) r.

Definition revision_at (id : string) (g : GDB) : option Revision := snd <$> list_find (λ r, rw_ID r = id) (g_revisions g).
Definition pending_revision (g : GDB) : option Revision := snd <$> list_find (λ r, rw_State r = RPending) (g_revisions g).

Definition readProposal `{Codec} (id : string) (g : GDB) : result Proposal :=
  match revision_at id g with
  | None => Err [ErrNotFound]
  | Some r =>
      let? delta := UnmarshalDelta (rw_Delta r) in
      Ok (mkProposal (rw_ID r) (default "" (rw_DecisionID r)) (rw_ProposerID r) (rw_Origin r) delta (rw_DeltaDigest r) (rw_Mode r)
            (rw_State r) (rw_Weakening r) (rw_Findings r) (rw_Threshold r) (rw_CreatedAt r) (rw_ResolvedAt r) None)
  end.

Definition closed (s : RState) (at_ : Time.t) (r : Revision) : Revision :=
  mkRevision (rw_ID r) (rw_DecisionID r) (rw_ProposerID r) (rw_Origin r) (rw_Delta r) (rw_DeltaDigest r) (rw_Mode r) s (rw_Weakening r)
    (rw_Findings r) (rw_Threshold r) (rw_CreatedAt r) (Some (Time.trunc_us at_)).
Definition is_open (id : string) (r : Revision) : bool := bool_decide (rw_ID r = id) && bool_decide (rw_State r = RPending).

Definition closeProposal (id : string) (s : RState) (at_ : Time.t) : GTx unit := λ g,
  if existsb (is_open id) (g_revisions g)
  then Ok (tt, with_revisions (map (λ r, if is_open id r then closed s at_ r else r)) g)
  else Err [ErrConflict].

(** A pending decision cancelled in the caller's transaction, with its challenges. *)
Definition cancelled_row (at_ : Time.t) (d : Decision) : Decision :=
  mkDecision (d_ID d) (d_CallerID d) (d_PolicyID d) (d_PolicyVersion d) (d_SubjectID d) (d_ResourceID d) (d_Action d) (d_Request d)
    (d_FactSnapshot d) (d_Obligations d) DecisionCancelled (d_CreatedAt d) at_ (d_ExpiresAt d) None DeadlineNone (Some at_)
    (d_IdempotencyKey d) (d_IdempotencyFingerprint d).
Definition cancel_progress (id : string) (p : ChallengeProgress) : ChallengeProgress :=
  if bool_decide (cp_DecisionID p = id) && bool_decide (cp_State p = StatePending)
  then mkProgress (cp_DecisionID p) (cp_Ordinal p) (cp_Kind p) StateCancelled (cp_Deadline p) (cp_SatisfiedAt p) (cp_Detail p) else p.

Definition cancelDecision (id why : string) (at_ : Time.t) : GTx unit := λ g,
  match db_decisions (g_db g) !! id with
  | Some d =>
      if negb (bool_decide (d_State d = DecisionPending)) then Ok (tt, g)
      else
        (let% _ := tx_write (with_db (λ db, mkDB (<[id := cancelled_row at_ d]> (db_decisions db)) (map (cancel_progress id) (db_progress db))
                                             (db_approvals db) (db_audit db) (db_policies db))) in
         note AuditKindDecisionResolved id
           [("state", JStr (DecisionState_string DecisionCancelled)); ("actor", JStr (Trigger_string TriggerCancellation +:+ ":" +:+ why))]) g
  | None => Ok (tt, g)
  end.

Definition Origin_string (o : Origin) : string := match o with OriginForm => "form" | OriginFile => "file" | OriginOther s => s end.
Definition strings (l : list string) : json := JArr (map JStr l).
Definition findingStrings `{GovEnv} (l : list Finding) : json := strings (map Finding_string l).

(** ** One revision at a time (serialize.go) *)

Record PendingRevision := mkPendingRevision {
  pn_ID : string; pn_Origin : Origin; pn_ProposerID : string; pn_Weakening : bool; pn_Threshold : Z; pn_Collected : Z; pn_CreatedAt : Time.t }.

Definition supersedes (pending incoming : Origin) : bool := bool_decide (pending = incoming) && bool_decide (incoming = OriginFile).

Definition collected (p : Proposal) (g : GDB) : Z := CountApprovals (pp_DecisionID p) 0 VerdictApprove (g_db g).

Section revisions.
Context `{Codec} `{GovEnv} `{CEL} `{Digest} (s : GService).

Definition GetRevision (id : string) : G Proposal := gquery (readProposal id).

Definition Pending : G (option Proposal) :=
  let^ row := gquery (λ g, Ok (pending_revision g)) in
  match row with
  | None => g_ret None
  | Some r => let^ p := GetRevision (rw_ID r) in g_ret (Some p)
  end.

Definition PendingStatus : G (option PendingRevision) :=
  let^ open := Pending in
  match open with
  | None => g_ret None
  | Some p =>
      let^ n := (if negb (bool_decide (pp_DecisionID p = "")) && (0 <? pp_Threshold p)%Z then gquery (λ g, Ok (collected p g)) else g_ret 0%Z) in
      g_ret (Some (mkPendingRevision (pp_ID p) (pp_Origin p) (pp_ProposerID p) (pp_Weakening p) (pp_Threshold p) n (pp_CreatedAt p)))
  end.

(** The refusal carries the open revision; the model keeps its sentinel. *)
Definition gate (origin : Origin) : G unit :=
  let^ open := PendingStatus in
  match open with
  | None => g_ret tt
  | Some p => if supersedes (pn_Origin p) origin then g_ret tt else g_throw [ErrRevisionPending]
  end.

Definition opened_since (origin : Origin) (t : Time.t) (g : GDB) : Z :=
  Z.of_nat (length (List.filter (λ r, bool_decide (rw_Origin r = origin) && Time.After (rw_CreatedAt r) t) (g_revisions g))).

Definition checkRate (origin : Origin) (now : Time.t) : G unit :=
  if (ra_Burst (gv_rate s) <=? 0)%Z || (ra_Window (gv_rate s) <=? 0)%Z then g_ret tt
  else
    let^ n := gquery (λ g, Ok (opened_since origin (Time.trunc_us (Time.Add now (neg64 (ra_Window (gv_rate s))))) g)) in
    if (n <? ra_Burst (gv_rate s))%Z then g_ret tt else g_throw [ErrRevisionRateLimited].

Definition supersede (origin : Origin) (replacement : string) (now at_ : Time.t) : GTx unit := λ g,
  match pending_revision g with
  | None => Ok (tt, g)
  | Some r =>
      let? open := readProposal (rw_ID r) g in
      if negb (supersedes (pp_Origin open) origin) then Err [ErrRevisionPending]
      else
        let held := negb (bool_decide (pp_DecisionID open = "")) in
        let n := if held then collected open g else 0%Z in
        (let% _ := closeProposal (pp_ID open) RSuperseded now in
         let% _ := if held then cancelDecision (pp_DecisionID open) "superseded by a newer revision from the same authoring path" at_ else tx_ret tt in
         note AuditKindRevisionSuperseded (pp_ID open)
           [severity SeverityNotice; ("origin", JStr (Origin_string origin)); ("replaced_by", JStr replacement);
            ("approvals_invalidated", JInt n); ("threshold", JInt (pp_Threshold open))]) g
  end.

(** ** Opening a revision *)

Definition int4 (n : Z) : bool := (- 2 ^ 31 <=? n)%Z && (n <? 2 ^ 31)%Z.

Definition floorlessMode (g : GDB) : bool :=
  match governance (g_tables g) with Ok rp => bool_decide (mode_of rp.2 = ModeSolo) | Err _ => false end.

(** The insert: the key, the width of the threshold and the index that admits one
    pending revision. *)
Definition insert_revision (r : Revision) : GTx unit := λ g,
  if negb (int4 (rw_Threshold r)) then Err []
  else if existsb (λ r', bool_decide (rw_ID r' = rw_ID r) || bool_decide (rw_State r' = RPending)) (g_revisions g) then Err [ErrRevisionPending]
  else Ok (tt, with_revisions (λ l, l ++ [r]) g).

Definition insertProposal (p : Proposal) (proposer : Subject) (now : Time.t) : G unit :=
  let^ delta := g_lift (MarshalDelta (pp_Delta p)) in
  gtxn (λ at_,
    let% _ := supersede (pp_Origin p) (pp_ID p) now at_ in
    let% _ := insert_revision (mkRevision (pp_ID p) None (pp_ProposerID p) (pp_Origin p) delta (pp_DeltaDigest p) (pp_Mode p) RPending
                (pp_Weakening p) (pp_Findings p) (pp_Threshold p) (Time.trunc_us (pp_CreatedAt p)) None) in
    let% _ := note AuditKindRevisionProposed (pp_ID p)
                [severity (severityOf (pp_Weakening p)); ("proposer", JStr (CallerID proposer)); ("origin", JStr (Origin_string (pp_Origin p)));
                 ("application_mode", JStr (ApplicationMode_string (pp_Mode p))); ("delta_digest", JStr (pp_DeltaDigest p));
                 ("weakening", JBool (pp_Weakening p)); ("findings", findingStrings (pp_Findings p)); ("threshold", JInt (pp_Threshold p));
                 ("policies", strings (PolicyIDs (pp_Delta p)))] in
    let% solo := tx_read floorlessMode in
    if solo then recordUse AuditKindRevisionProposed (CallerID proposer) else tx_ret tt).

(** [discard] ignores its error. *)
Definition discard (id : string) : G unit :=
  let^ _ := g_attempt (gtxn (λ _, tx_write (with_revisions (List.filter (λ r,
              negb (is_open id r && bool_decide (rw_DecisionID r = None))))))) in
  g_ret tt.

(** The decision service a revision is decided by: the reserved policy alone, with the
    quorum the assessment asks for. *)
Definition revision_gate (a : assessment) : Policy :=
  GovernancePolicy (match as_requirement a ≫= Requirement_Quorum with Some q => [CQuorum q] | None => [] end).

Definition revision_service (rec : PolicyRecord) (snapshot : Snapshot) : Service :=
  New (mkService (λ i, (DecideEvaluator_Evaluate snapshot None i NewCache).1) (gv_challenges s) None (λ _, ret (pr_Version rec)) (gv_renderCall s)
    (gv_ttl s) (-1)%Z).

Definition revision_request (p : Proposal) (ttl : Time.duration) : Request :=
  mkRequest (Some (mkSubject SubjectUser "stamp" (pp_ProposerID p) "" [] Time.zero "" [] None))
    (mkInput ActionRevise (mkEntity EntityAdmin (pp_ProposerID p) ∅) (mkEntity EntityPolicySet PolicySetID ∅)
       (mkEntity EntityRevision (pp_ID p)
          (list_to_map [("delta_digest", VString (pp_DeltaDigest p)); ("weakening", VBool (pp_Weakening p));
                        ("change_count", VInt (Z.of_nat (Delta_Len (pp_Delta p))))])))
    ttl "".

Definition decide_revision (p : Proposal) (a : assessment) (ttl : Time.duration) (now : Time.t) : G Result :=
  let^ rp := fetched governance in
  let^ snapshot := g_lift (NewSnapshot (pretty (pr_SchemaVersion rp.1)) GovernanceSchema
                             [mkPolicyVersion (GovernancePolicyID +:+ "@" +:+ pretty (pr_Version rp.1)) (revision_gate a)]) in
  inner (Decide (revision_service rp.1 snapshot) (revision_request p ttl) now).

(** The reference to the decision is a foreign key. *)
Definition attached (decision : string) (r : Revision) : Revision :=
  mkRevision (rw_ID r) (Some decision) (rw_ProposerID r) (rw_Origin r) (rw_Delta r) (rw_DeltaDigest r) (rw_Mode r) (rw_State r) (rw_Weakening r)
    (rw_Findings r) (rw_Threshold r) (rw_CreatedAt r) (rw_ResolvedAt r).
Definition attach (id decision : string) : GTx unit := λ g,
  match db_decisions (g_db g) !! decision with
  | None => Err []
  | Some _ => Ok (tt, with_revisions (map (λ r, if bool_decide (rw_ID r = id) then attached decision r else r)) g)
  end.

(** ** Taking a revision into effect *)

Definition origin_or_form (o : Origin) : Origin := if bool_decide (o = no_origin) then OriginForm else o.

Definition writeSchema (p : Proposal) (at_ : Time.t) : GTx Z :=
  match SchemaChanged (pp_Delta p), de_SchemaAfter (pp_Delta p) with
  | true, Some after =>
      let% rec := on_tables (PutSchema at_ after (origin_or_form (pp_Origin p)) (pp_ProposerID p)) in
      let% _ := note AuditKindSchemaPut (pretty (scr_Version rec))
                  [("revision_id", JStr (pp_ID p)); ("version", JInt (scr_Version rec)); ("content_hash", JStr (scr_ContentHash rec))] in
      tx_ret (scr_Version rec)
  | _, _ => λ g, let? latest := LatestSchema (g_tables g) in Ok (scr_Version latest, g)
  end.

Definition ChangeKind_string (k : ChangeKind) : string :=
  match k with
  | ChangeAdd => "add" | ChangeModify => "modify" | ChangeDelete => "delete" | ChangeTakeOwnership => "take_ownership" | ChangeOther s => s
  end.

(** The owner and the schema version a change is written with. *)
Definition written_as (p : Proposal) (c : Change) (schemaVersion : Z) (t : Tables) : result (Origin * Z) :=
  let? base := match EffectivePolicy (ch_PolicyID c) t with
               | Ok existing => Ok (pr_Origin existing, if IsReserved (ch_PolicyID c) then pr_SchemaVersion existing else schemaVersion)
               | Err e => if errors_Is e ErrNotFound then Ok (origin_or_form (pp_Origin p), schemaVersion) else Err e
               end in
  Ok (if bool_decide (ch_Kind c = ChangeTakeOwnership) then ch_ToOrigin c else base.1, base.2).

Definition writeChange (p : Proposal) (schemaVersion : Z) (at_ : Time.t) (c : Change) : GTx unit :=
  if bool_decide (ch_Kind c = ChangeDelete) then
    let% rec := delete_policy at_ (ch_PolicyID c) (pp_ProposerID p) in
    note AuditKindPolicyDelete (ch_PolicyID c)
      [("revision_id", JStr (pp_ID p)); ("version", JInt (pr_Version rec)); ("author", JStr (pp_ProposerID p))]
  else
    let% ov := (λ g, let? ov := written_as p c schemaVersion (g_tables g) in Ok (ov, g)) in
    let% rec := put_policy at_ (mkPolicyInput (ch_After c) ov.2 ov.1 (pp_ProposerID p) (bool_decide (ch_Kind c = ChangeTakeOwnership))) in
    note AuditKindPolicyPut (ch_PolicyID c)
      [("revision_id", JStr (pp_ID p)); ("change", JStr (ChangeKind_string (ch_Kind c))); ("version", JInt (pr_Version rec));
       ("origin", JStr (Origin_string (pr_Origin rec))); ("content_hash", JStr (pr_ContentHash rec)); ("author", JStr (pp_ProposerID p))].

Fixpoint write_changes (p : Proposal) (schemaVersion : Z) (at_ : Time.t) (cs : list Change) : GTx unit :=
  match cs with
  | [] => tx_ret tt
  | c :: cs => let% _ := writeChange p schemaVersion at_ c in write_changes p schemaVersion at_ cs
  end.

Definition snapshotOf (set : PolicySet) (revisionID : string) : result Snapshot :=
  NewSnapshot revisionID (set_Schema set)
    (map (λ q, mkPolicyVersion (p_ID q +:+ "@" +:+ revisionID) q) (List.filter (λ q, negb (IsReserved (p_ID q))) (set_Policies set))).

(** The call of the revalidator, whose versions are those the transaction has written. *)
Definition revalidation (p : Proposal) (snapshot : Snapshot) (now : Time.t) (t : Tables) : RevalidateRequest :=
  mkRevalidateRequest (pp_Mode p) snapshot (gv_resolver s)
    (Some (λ id _, let? rec := EffectivePolicy id t in Ok (pr_Version rec))) (pp_ID p) (Some IsReserved) now.
Definition revalidate (p : Proposal) (snapshot : Snapshot) (now clock at_ : Time.t) : GTx RevalidateReport := λ g,
  on_db (Revalidate.Apply (gv_revalidator s) (gv_overflow s) clock at_ (revalidation p snapshot now (g_tables g))) g.

Definition apply_tx (p : Proposal) (snapshot : Snapshot) (clock : nat → Time.t) (at_ : Time.t) : GTx RevalidateReport :=
  let% schemaVersion := writeSchema p at_ in
  let% _ := write_changes p schemaVersion at_ (de_Changes (pp_Delta p)) in
  let% report := revalidate p snapshot (clock 0) (clock 1) at_ in
  let% _ := closeProposal (pp_ID p) RApplied (clock 2) in
  let% _ := note AuditKindRevisionApplied (pp_ID p)
              [severity (severityOf (pp_Weakening p)); ("application_mode", JStr (ApplicationMode_string (pp_Mode p)));
               ("weakening", JBool (pp_Weakening p)); ("findings", findingStrings (pp_Findings p)); ("policies", strings (PolicyIDs (pp_Delta p)));
               ("delta_digest", JStr (pp_DeltaDigest p)); ("decisions_considered", JInt (rp_Considered report));
               ("decisions_denied", JInt (rp_Denied report)); ("approvals_invalidated", JInt (rp_Invalidated report));
               ("sources_fetched", match rp_Fetched report with [] => JNull | l => strings l end)] in
  tx_ret report.

Definition reject (p : Proposal) (why : string) (now : Time.t) : G Proposal :=
  let^ _ := gtxn (λ _,
              let% _ := closeProposal (pp_ID p) RRejected now in
              note AuditKindRevisionRejected (pp_ID p) [severity SeverityNotice; ("reason", JStr why)]) in
  g_ret (with_outcome RRejected None p).

(** What the decision of a revision says about applying it. *)
Inductive verdict := Go | Wait | Turned (state : DecisionState).
Definition approval (p : Proposal) : G verdict :=
  if bool_decide (pp_DecisionID p = "") then g_ret Go
  else
    let^ d := gquery (λ g, GetDecision (pp_DecisionID p) (g_db g)) in
    g_ret (match d_State d with DecisionAllowed => Go | DecisionPending => Wait | st => Turned st end).

Definition ApplyRevision (id : string) (clock : nat → Time.t) : G Proposal :=
  let^ p := GetRevision id in
  if negb (bool_decide (pp_State p = RPending)) then g_throw [ErrNotPending]
  else
    let^ v := approval p in
    match v with
    | Wait => g_throw [ErrNotApproved]
    | Turned st => reject p (DecisionState_string st) (clock 0)
    | Go =>
        let^ tenant := tenantSet in
        let^ outcome := g_lift (Delta.Result (tenantDelta (pp_Delta p)) (Some tenant)) in
        let^ snapshot := g_lift (snapshotOf outcome (pp_ID p)) in
        let^ report := gtxn (apply_tx p snapshot clock) in
        g_ret (with_outcome RApplied (Some report) p)
    end.

Definition Reconcile (clock : nat → Time.t) : G (list Proposal) :=
  let^ open := Pending in
  match open with
  | None => g_ret []
  | Some p =>
      let^ applied := g_attempt (ApplyRevision (pp_ID p) clock) in
      match applied with
      | Ok q => g_ret [q]
      | Err e => if errors_Is e ErrNotApproved then g_ret [] else g_throw e
      end
  end.

(** ** Proposing *)

Record ProposeRequest := mkProposeRequest {
  pq_Proposer : option Subject; pq_Delta : Delta; pq_Origin : Origin; pq_Mode : ApplicationMode; pq_BootstrapToken : string; pq_TTL : Time.duration }.

Definition is_user (c : option Subject) : option Subject :=
  match c with Some c => if bool_decide (su_Kind c = SubjectUser) then Some c else None | None => None end.

(** The proposal of an assessed delta. *)
Definition proposal_of (id : string) (proposer : Subject) (origin : Origin) (stored : deltaJSON) (mode : ApplicationMode) (a : assessment) (now : Time.t) : Proposal :=
  mkProposal id "" (su_ID proposer) origin (as_delta a) (delta_digest stored) (OrDefault mode) RPending (Weakening (as_class a)) (as_class a)
    (match as_requirement a with Some r => r_Threshold r | None => 0%Z end) now None None.

(** The checks before a revision is opened. *)
Definition admissible (req : ProposeRequest) (proposer : Subject) (origin : Origin) (now : Time.t) : G assessment :=
  let^ _ := g_lift (checkAuthoring (gv_authoring s) origin) in
  let^ _ := gate origin in
  let^ _ := checkRate origin now in
  let^ ar := assess s (pq_Delta req) (su_ID proposer) in
  let^ _ := g_lift ar.2 in
  let^ _ := (if bool_decide (as_mode ar.1 = ModeSolo) then Verify (pq_BootstrapToken req) else g_ret tt) in
  g_ret ar.1.

(** The revision opened, its decision and, when that is allowed at once, its effect. *)
Definition open_revision (p : Proposal) (proposer : Subject) (a : assessment) (ttl : Time.duration) (clock : nat → Time.t) : G Proposal :=
  let^ _ := insertProposal p proposer (clock 2) in
  let^ decided := g_attempt (decide_revision p a ttl (clock 3)) in
  match decided with
  | Err e => let^ _ := discard (pp_ID p) in g_throw e
  | Ok res =>
      let^ _ := gtxn (λ _, attach (pp_ID p) (rs_ID res)) in
      if bool_decide (rs_State res = DecisionAllowed) then ApplyRevision (pp_ID p) (λ i, clock (4 + i))
      else g_ret (mkProposal (pp_ID p) (rs_ID res) (pp_ProposerID p) (pp_Origin p) (pp_Delta p) (pp_DeltaDigest p) (pp_Mode p) (pp_State p)
                    (pp_Weakening p) (pp_Findings p) (pp_Threshold p) (pp_CreatedAt p) (pp_ResolvedAt p) (pp_Report p))
  end.

Definition Propose (req : ProposeRequest) (clock : nat → Time.t) : G Proposal :=
  match is_user (pq_Proposer req) with
  | None => g_throw [ErrUnauthenticated]
  | Some proposer =>
      if negb (ApplicationMode_Valid (pq_Mode req)) then g_throw [ErrInvalidDelta]
      else
        let origin := origin_or_form (pq_Origin req) in
        if negb (Origin_Valid origin) then g_throw [ErrInvalidDelta]
        else
          let^ a := admissible req proposer origin (clock 0) in
          let^ stored := g_lift (MarshalDelta (as_delta a)) in
          let^ id := g_newID in
          open_revision (proposal_of id proposer origin stored (pq_Mode req) a (clock 1)) proposer a (pq_TTL req) clock
  end.

(** ** Withdrawing *)

Definition withdraw_tx (caller : Subject) (id : string) (now at_ : Time.t) : GTx Proposal :=
  let% p := (λ g, let? p := readProposal id g in Ok (p, g)) in
  if negb (bool_decide (pp_State p = RPending)) then tx_fail [ErrNotPending]
  else if negb (bool_decide (pp_ProposerID p = su_ID caller)) then tx_fail [ErrNotProposer]
  else
    let% _ := closeProposal id RWithdrawn now in
    let% _ := if bool_decide (pp_DecisionID p = "") then tx_ret tt else cancelDecision (pp_DecisionID p) "revision withdrawn by its proposer" at_ in
    let% _ := note AuditKindRevisionWithdraw id [severity SeverityNotice; ("actor", JStr (CallerID caller))] in
    tx_ret (with_outcome RWithdrawn None p).

Definition Withdraw (caller : option Subject) (id : string) (now : Time.t) : G Proposal :=
  match is_user caller with
  | None => g_throw [ErrUnauthenticated]
  | Some c => gtxn (withdraw_tx c id now)
  end.

(** ** A directory (apply.go) *)

Record FileApplyRequest := mkFileApplyRequest {
  fa_Proposer : option Subject; fa_Payload : Payload; fa_Mode : ApplicationMode; fa_BootstrapToken : string }.

Inductive FileApplyResult := NoChange | Proposed (p : Proposal) (adopted : list string).

Definition ApplyFiles `{Yaml} (req : FileApplyRequest) (clock : nat → Time.t) : G FileApplyResult :=
  match is_user (fa_Proposer req) with
  | None => g_throw [ErrUnauthenticated]
  | Some proposer =>
      let^ _ := g_lift (checkAuthoring (gv_authoring s) OriginFile) in
      let^ _ := g_lift (Payload_Check (fa_Payload req) (gv_limits s)) in
      let^ _ := gate OriginFile in
      let^ desired := g_lift (Payload_parse (fa_Payload req) (gv_limits s)) in
      let^ current := currentState in
      let^ delta := g_lift (PlanApply current (Some (pd_set desired)) (pd_adopt desired)) in
      if bool_decide (de_Changes delta = []) && negb (SchemaChanged delta) then g_ret NoChange
      else
        let^ p := Propose (mkProposeRequest (Some proposer) delta OriginFile (fa_Mode req) (fa_BootstrapToken req) 0%Z) clock in
        g_ret (Proposed p (pd_adopt desired))
  end.

(** ** Export (export.go) *)

Definition AuditKindPolicyExported : string := "policy.exported".
Definition AuditKindPolicyExportRefused : string := "policy.export.refused".
Definition CapabilityAuthor : string := "policy.author".
Definition CapabilityAudit : string := "audit.read".

Record Export := mkExport { ex_Files : list Document; ex_PolicyCount : Z; ex_SchemaVersion : Z }.

Definition ExportSchemaFile : string := "schema.yaml".
Definition ExportPolicyDir : string := "policies".

Definition authorizeExport (caller : Subject) : G unit :=
  let^ held := match gv_capabilities s with None => g_ret [] | Some capabilitiesOf => g_lift (capabilitiesOf caller) end in
  if existsb (λ c, bool_decide (c = CapabilityAuthor) || bool_decide (c = CapabilityAudit)) held then g_ret tt
  else
    let^ _ := gtxn (λ _, note AuditKindPolicyExportRefused (CallerID caller)
                [severity SeverityNotice; ("caller", JStr (CallerID caller)); ("required", strings [CapabilityAuthor; CapabilityAudit])]) in
    g_throw [ErrExportForbidden].

Definition recordExport (caller : Subject) (out : Export) : G unit :=
  gtxn (λ _, note AuditKindPolicyExported (CallerID caller)
    [severity SeverityNotice; ("caller", JStr (CallerID caller)); ("policy_count", JInt (ex_PolicyCount out)); ("schema_version", JInt (ex_SchemaVersion out))]).

Definition export_file (r : PolicyRecord) : result Document :=
  if ValidName (pr_ID r) then Ok (mkDocument (ExportPolicyDir +:+ "/" +:+ pr_ID r +:+ ".yaml") (pr_Document r)) else Err [].

(** [tenant_records] leaves the reserved policy out. *)
Definition ExportSet (caller : option Subject) : G Export :=
  match is_user caller with
  | None => g_throw [ErrUnauthenticated]
  | Some c =>
      let^ _ := authorizeExport c in
      let^ schema := fetched LatestSchema in
      let^ records := fetched (λ t, Ok (tenant_records t)) in
      let^ files := g_lift (res_map export_file records) in
      let out := mkExport (mkDocument ExportSchemaFile (scr_Document schema) :: files) (Z.of_nat (length files)) (scr_Version schema) in
      let^ _ := recordExport c out in
      g_ret out
  end.

Definition Export_Payload (e : Export) : Payload := ex_Files e.
End revisions.

(** [ClaimCapabilities.CapabilitiesOf]. *)
Definition DefaultCapabilityClaim : string := "stamp_capabilities".
Definition CapabilitiesOf (claim : string) (caller : Subject) : result (list string) :=
  let name := if bool_decide (claim = "") then DefaultCapabilityClaim else claim in
  match su_claims caller with
  | Some (JObj fs) =>
      match field name fs with
      | None => Ok []
      | Some (JArr l) => Ok (omap json_text l)
      | Some _ => Err []
      end
  | _ => Ok []
  end.

(** ** Break-glass (breakglass.go)

    A writer row with its advisory lock, as [pg_locks] shows it; the addresses that are
    already bound; what claiming the procedure's own writer answers.  The sequence
    number of the record is the audit writer's. *)
Record WriterRow := mkWriterRow { wr_ID : string; wr_Instance : string; wr_Released : option Time.t; wr_Locked : bool }.

Record BreakGlassConfig := mkBreakGlassConfig {
  bg_WriterID : string; bg_Instance : string; bg_Actor : string; bg_Reason : string; bg_Addresses : list string }.
Record BreakGlassResult := mkBreakGlassResult { br_Token : string; br_PolicyVersion : Z }.

Definition DefaultBreakGlassWriter : string := "breakglass".

Definition refuseIfClaimed (writers : list WriterRow) (ignore : string) : result unit :=
  if existsb (λ w, bool_decide (wr_Released w = None) && negb (bool_decide (wr_ID w = ignore)) && wr_Locked w) writers
  then Err [ErrListenersRunning] else Ok tt.

Definition refuseIfRunning (writers : list WriterRow) (bound : string → bool) (addresses : list string) : result unit :=
  let? _ := refuseIfClaimed writers "" in
  if existsb (λ a, negb (bool_decide (a = "")) && bound a) addresses then Err [ErrListenersRunning] else Ok tt.

Definition reset_detail : string :=
  "governance was reset to solo-admin mode by the offline break-glass procedure and a new bootstrap token was issued".

Section breakglass.
Context `{Codec} `{GovEnv}.

Definition currentGovernance (t : Tables) : result (PolicyRecord * Policy) :=
  match EffectivePolicy GovernancePolicyID t with
  | Err e => if errors_Is e ErrNotFound then Err [ErrNotInstalled] else Err e
  | Ok rec => let? p := PolicyRecord_Policy rec in Ok (rec, p)
  end.

Definition break_glass_tx (cfg : BreakGlassConfig) (writers : list WriterRow) (writerID token : string) (now at_ : Time.t) : GTx BreakGlassResult :=
  let% _ := tx_lift (refuseIfClaimed writers writerID) in
  let% rp := (λ g, let? rp := currentGovernance (g_tables g) in Ok (rp, g)) in
  let previous := default (mkQuorum 0 no_approvers) (GovernanceQuorum (Some rp.2)) in
  let% reset := put_policy at_ (mkPolicyInput (Some (GovernancePolicy [])) (pr_SchemaVersion rp.1) (pr_Origin rp.1) (bg_Actor cfg) false) in
  let% issued := mint now token true in
  let% _ := note AuditKindGovernanceReset GovernancePolicyID
              [severity SeverityCritical; ("actor", JStr (bg_Actor cfg)); ("reason", JStr (bg_Reason cfg)); ("instance", JStr (bg_Instance cfg));
               ("policy_version", JInt (pr_Version reset)); ("previous_quorum", JInt (q_Threshold previous));
               ("previous_approver", match as_Members (q_Approvers previous) with [] => JNull | l => strings l end); ("detail", JStr reset_detail)] in
  tx_ret (mkBreakGlassResult issued (pr_Version reset)).

Definition BreakGlass (cfg : BreakGlassConfig) (before during : list WriterRow) (bound : string → bool) (claimed : result unit) (now : Time.t) :
    G BreakGlassResult :=
  if bool_decide (bg_Actor cfg = "") || bool_decide (bg_Reason cfg = "") then g_throw []
  else
    let writerID := if bool_decide (bg_WriterID cfg = "") then DefaultBreakGlassWriter else bg_WriterID cfg in
    let^ _ := g_lift (refuseIfRunning before bound (bg_Addresses cfg)) in
    let^ _ := g_lift claimed in
    let^ token := g_newToken in
    gtxn (break_glass_tx cfg during writerID token now).
End breakglass.
