(* ===== verification/LockSpec.v ===== *)
(** * The lock is final

    Once governance is locked, no sequence of calls on the running system takes the
    quorum out of the reserved policy or makes the bootstrap token good again,
    whatever the other instances do as long as they keep to it too.  What this asks of
    the document format is shown of the codec in policy/codec.go. *)
From S2P Require Import Prelude GoLib Policy Cel Engine Validate Delta Weakening Json Store World.
From S2P Require Import Challenge Quorum Service Revalidate PolicyStore PolicyStoreSpec ApplyPlan GovWorld Governance Proposals.
Import Strings.

Definition has_quorum (p : Policy) : Prop := is_Some (GovernanceQuorum (Some p)).

(** A delta that leaves the reserved policy in place with a quorum. *)
Definition keeps_quorum (d : Delta) : Prop :=
  ∀ c, c ∈ de_Changes d →
    (ch_Kind c = ChangeDelete → ch_PolicyID c ≠ GovernancePolicyID) ∧
    ∀ p, ch_After c = Some p → p_ID p = GovernancePolicyID → has_quorum p.

Section lock.
Context `{Codec}.

(** What the document format keeps of a policy. *)
Definition codec_keeps : Prop :=
  ∀ p doc q, Marshal (one_policy p) = Ok doc → decode_one doc = Ok q → p_ID q = p_ID p ∧ (has_quorum p → has_quorum q).

Definition pending_keep (g : GDB) : Prop :=
  ∀ r, r ∈ g_revisions g → rw_State r = RPending → ∀ d, UnmarshalDelta (rw_Delta r) = Ok d → keeps_quorum d.

Definition policy_locked (t : Tables) : Prop :=
  ∃ r, live_row GovernancePolicyID t = Some r ∧ pr_Deleted r = false ∧ ∀ p, decode_one (pr_Document r) = Ok p → has_quorum p.

Record unlocked_ok (g : GDB) : Prop := { un_tables : tables_ok (g_tables g); un_pending : pending_keep g }.

Record locked (g : GDB) : Prop := {
  lk_tables : tables_ok (g_tables g);
  lk_policy : policy_locked (g_tables g);
  lk_pending : pending_keep g;
  lk_token : ∃ b, g_boot g = Some b ∧ is_Some (bt_consumed b) }.

Context (Hcodec : codec_keeps).

(** ** The stored form of a delta *)

Lemma DecodePolicy_one doc p : DecodePolicy doc = Ok p → decode_one doc = Ok p.
Proof. unfold DecodePolicy, decode_one. intros (set & -> & Hp)%res_bind_Ok. simpl. by destruct (set_Policies set) as [|q [|]]. Qed.

Lemma optional_Some {A} (decode : string → result A) doc a : optional decode doc = Ok (Some a) → doc ≠ "" ∧ decode doc = Ok a.
Proof. unfold optional. case_bool_decide; [done|]. intros (x & Hx & [= <-])%res_bind_Ok. unfold wrap_decode in Hx. split; [done|]. by destruct (decode doc). Qed.

Lemma stored_keeps d j d' : keeps_quorum d → MarshalDelta d = Ok j → UnmarshalDelta j = Ok d' → keeps_quorum d'.
Proof.
  intros Hk (cs & Hcs & Hr)%res_bind_Ok Hu. apply res_bind_Ok in Hr as (b & _ & Hr). apply res_bind_Ok in Hr as (a & _ & [= <-]).
  apply res_bind_Ok in Hu as (cs' & Hcs' & Hr). apply res_bind_Ok in Hr as (b' & _ & Hr). apply res_bind_Ok in Hr as (a' & _ & [= <-]). simpl in *.
  apply res_map_Ok in Hcs, Hcs'. intros c' Hc'. simpl in Hc'. apply list_elem_of_lookup in Hc' as [i Hi].
  destruct (Forall2_lookup_r _ _ _ _ _ Hcs' Hi) as (j & Hj & Ej). destruct (Forall2_lookup_r _ _ _ _ _ Hcs Hj) as (c & Hc & Ec).
  destruct (Hk c) as [Hdel Hafter]; [by eapply list_elem_of_lookup_2|].
  unfold marshal_change in Ec. apply res_bind_Ok in Ec as (db & _ & Ec). apply res_bind_Ok in Ec as (da & Ea & [= <-]).
  unfold unmarshal_change in Ej. simpl in Ej. apply res_bind_Ok in Ej as (pb & _ & Ej). apply res_bind_Ok in Ej as (pa & Epa & [= <-]). simpl.
  split; [done|]. intros p -> Eid. apply optional_Some in Epa as [Hne Epa%DecodePolicy_one]. destruct (ch_After c) as [q|] eqn:Eq; simpl in Ea.
  - destruct (Hcodec _ _ _ Ea Epa) as [Ei Hq]. apply Hq, (Hafter q); congruence.
  - by injection Ea as <-.
Qed.

(** ** Transactions *)

Lemma locked_ext g g' : g_tables g' = g_tables g → g_revisions g' = g_revisions g → g_boot g' = g_boot g → locked g → locked g'.
Proof. intros Et Er Eb [H1 H2 H3 H4]. split; unfold pending_keep; rewrite ?Et, ?Er, ?Eb; assumption. Qed.

Lemma locked_db f g : locked g → locked (with_db f g).
Proof. by apply locked_ext. Qed.

Lemma note_locked kind subject payload : tx_keeps locked (note kind subject payload).
Proof. apply tx_spec_write. intros g. by apply locked_db. Qed.

Lemma on_db_locked {A} (m : Tx_ DB A) : tx_keeps locked (on_db m).
Proof. intros g a g' Hl (p & Hp & [= <- <-])%res_bind_Ok. split; [|done]. by apply (locked_ext g). Qed.

(** Revisions rewritten row by row, with rows dropped or closed. *)
Lemma locked_rows f g : (∀ r, r ∈ f (g_revisions g) → rw_State r = RPending → ∃ r0, r0 ∈ g_revisions g ∧ rw_State r0 = RPending ∧ rw_Delta r0 = rw_Delta r) →
  locked g → locked (with_revisions f g).
Proof.
  intros Hf [H1 H2 H3 H4]. split; try done. intros r Hr Hp d Hd. destruct (Hf r Hr Hp) as (r0 & Hr0 & Hp0 & E). eapply (H3 r0 Hr0 Hp0). by rewrite E.
Qed.

Lemma closeProposal_locked id st at_ : st ≠ RPending → tx_keeps locked (closeProposal id st at_).
Proof.
  intros Hst g a g' Hl. unfold closeProposal. destruct (existsb _ _); [|done]. intros [= _ <-]. split; [|done]. apply locked_rows; [|done].
  intros r (r0 & -> & Hr0)%elem_of_map. destruct (is_open id r0); [done|]. intros Hp. by exists r0.
Qed.

Lemma cancelDecision_locked id why at_ : tx_keeps locked (cancelDecision id why at_).
Proof.
  intros g a g' Hl. unfold cancelDecision. destruct (db_decisions _ !! id) as [d|]; [|by intros [= _ <-]].
  destruct (negb _); [by intros [= _ <-]|]. intros (u & g1 & [= _ <-] & Hn)%tx_bind_Ok. eapply note_locked; [|exact Hn]. by apply locked_db.
Qed.

Lemma put_into_locked id rec g t' (Hl : locked g) : put_into id rec (g_tables g) t' →
  (id = GovernancePolicyID → pr_Deleted rec = false ∧ ∀ p, decode_one (pr_Document rec) = Ok p → has_quorum p) →
  locked (mkGDB (g_db g) t' (g_revisions g) (g_boot g)).
Proof.
  intros [Hok _ _ Hlive Hother] Hq. destruct Hl as [_ (r & Hr & Hd & Hdoc) Hp Hb]. split; try done. simpl.
  destruct (decide (id = GovernancePolicyID)) as [->|Hne]; [exists rec; destruct (Hq eq_refl); by split_and!|].
  exists r. rewrite Hother by done. by split_and!.
Qed.

Lemma put_policy_locked at_ i : (∀ p, pi_Policy i = Some p → p_ID p = GovernancePolicyID → has_quorum p) → tx_keeps locked (put_policy at_ i).
Proof.
  intros Hi g rec g' Hl (r & g1 & Hp & Hr)%tx_bind_Ok. apply tx_bind_Ok in Hr as (u & g2 & [= _ <-] & [= <- <-]). split; [|done]. apply locked_db.
  apply res_bind_Ok in Hp as ([r1 t1] & Hp & [= <- <-]). apply (PutPolicy_Ok _ _ _ _ _ (lk_tables _ Hl)) in Hp as (p & doc & Ep & Hm & Hdoc & Hdel & Hput). simpl.
  apply (put_into_locked (p_ID p) r1); [done|done|]. intros E. split; [done|]. intros q Hq. rewrite Hdoc in Hq. destruct (Hcodec _ _ _ Hm Hq) as [_ Hk]. by apply Hk, (Hi p).
Qed.

Lemma delete_policy_locked at_ id author : id ≠ GovernancePolicyID → tx_keeps locked (delete_policy at_ id author).
Proof.
  intros Hne g rec g' Hl (r & g1 & Hp & Hr)%tx_bind_Ok. apply tx_bind_Ok in Hr as (u & g2 & [= _ <-] & [= <- <-]). split; [|done]. apply locked_db.
  apply res_bind_Ok in Hp as ([r1 t1] & Hp & [= <- <-]). apply (DeletePolicy_Ok _ _ _ _ _ _ (lk_tables _ Hl)) in Hp as [_ Hput]. simpl.
  by eapply put_into_locked.
Qed.

Lemma live_row_policies id t t' : t_policies t' = t_policies t → live_row id t' = live_row id t.
Proof. intros E. unfold live_row. by rewrite E. Qed.

Lemma put_schema_locked at_ sch o au : tx_keeps locked (on_tables (PutSchema at_ sch o au)).
Proof.
  intros g rec g' Hl ([r1 t1] & Hp & [= <- <-])%res_bind_Ok. split; [|done]. apply (PutSchema_Ok _ _ _ _ _ _ _ (lk_tables _ Hl)) in Hp as (Hok & Epol & _).
  destruct Hl as [_ (r & Hr & Hd & Hdoc) Hp Hb]. split; try done. exists r. by rewrite (live_row_policies _ _ _ Epol).
Qed.

(** ** Reading *)

Lemma governance_locked t rp : policy_locked t → governance t = Ok rp → has_quorum rp.2.
Proof.
  intros (r & Hr & Hd & Hdoc). unfold governance, EffectivePolicy. rewrite Hr. simpl. rewrite Hd. intros (p & Hp & [= <-])%res_bind_Ok. by apply Hdoc.
Qed.

Lemma has_quorum_mode p : has_quorum p → mode_of p = ModeQuorum.
Proof. intros [q Hq]. unfold mode_of. by rewrite Hq. Qed.

Lemma readProposal_locked id g p : locked g → readProposal id g = Ok p → pp_State p = RPending → keeps_quorum (pp_Delta p).
Proof.
  intros Hl. unfold readProposal, revision_at. destruct (list_find _ _) as [[i r]|] eqn:E; [|done]. simpl. intros (d & Hd & [= <-])%res_bind_Ok. simpl. intros Hp.
  apply list_find_Some in E as (Hr%list_elem_of_lookup_2 & _). by apply (lk_pending _ Hl r).
Qed.

(** ** The operations *)

Section operations.
Context `{GovEnv} `{CEL} `{Digest} (s : GService).

Lemma fetched_spec {A} (f : Tables → result A) (Q : A → Prop) : (∀ g a, locked g → f (g_tables g) = Ok a → Q a) → gspec locked (fetched f) Q.
Proof. intros Hf. apply gspec_gquery. eauto. Qed.
Lemma fetched_locked {A} (f : Tables → result A) : gkeeps locked (fetched f).
Proof. by apply fetched_spec. Qed.
Lemma gquery_locked {A} (f : GDB → result A) : gkeeps locked (gquery f).
Proof. by apply gspec_gquery. Qed.
Lemma lift_locked {A} (r : result A) : gkeeps locked (g_lift r).
Proof. by apply gspec_lift. Qed.
Lemma attempt_locked {A} (m : G A) : gkeeps locked m → gkeeps locked (g_attempt m).
Proof. intros Hm. eapply gspec_weaken; [by apply gspec_attempt|done]. Qed.
Lemma inner_locked {A} (m : M A) : gkeeps locked (inner m).
Proof. apply gspec_inner. intros g db. apply locked_db. Qed.
Lemma ret_locked {A} (a : A) : gkeeps locked (g_ret a).
Proof. by apply gspec_ret. Qed.
Lemma txret_locked {A} (a : A) : tx_keeps locked (tx_ret a).
Proof. by apply tx_spec_ret. Qed.
Lemma note_txn kind subject payload : gkeeps locked (gtxn (λ _, note kind subject payload)).
Proof. apply gspec_gtxn. intros _. apply note_locked. Qed.

#[local] Hint Resolve fetched_locked gquery_locked lift_locked attempt_locked inner_locked ret_locked txret_locked note_locked note_txn
  on_db_locked cancelDecision_locked put_schema_locked : gkeeps.

Ltac gk :=
  repeat first
    [ done
    | solve [eauto 3 with gkeeps]
    | eapply gspec_bind; [solve [eauto 3 with gkeeps]|intros ? ?]
    | eapply tx_spec_bind; [solve [eauto 3 with gkeeps]|intros ? ?]
    | match goal with
      | |- gspec _ (match ?x with _ => _ end) _ => destruct x eqn:?
      | |- tx_spec _ (match ?x with _ => _ end) _ => destruct x eqn:?
      | |- gspec _ (gtxn _) _ => apply gspec_gtxn; intros ?
      | |- gspec _ (g_bind _ _) _ => eapply (gspec_bind _ _ _ (λ _, True)); [|intros ? _]
      | |- tx_spec _ (tx_bind _ _) _ => eapply (tx_spec_bind _ _ _ (λ _, True)); [|intros ? _]
      end ].

Lemma Verify_locked token : gspec locked (Verify token) (λ _, False).
Proof.
  unfold Verify. eapply gspec_bind; [apply (gspec_gquery _ _ (λ row, ∃ b, row = Some b ∧ is_Some (bt_consumed b)))|].
  - intros g a Hl [= <-]. apply (lk_token _ Hl).
  - intros row (b & -> & Hb). rewrite bool_decide_true by done. unfold refuse_token. eapply (gspec_bind _ _ _ (λ _, True)); [gk|intros _ _]. apply gspec_throw.
Qed.

Lemma mint_locked now token : tx_keeps locked (mint now token false).
Proof. intros g a g' Hl. pose proof (lk_token _ Hl) as (b & Hb & _). unfold mint, bootstrapStatus. rewrite Hb. simpl. by intros [= _ <-]. Qed.

Lemma Install_locked now : gkeeps locked (Install now).
Proof.
  unfold Install. gk. intros g ? g' Hl. pose proof (lk_policy _ Hl) as (r & Hr & Hd & _). unfold install_tx, EffectivePolicy. rewrite Hr. simpl. rewrite Hd. simpl.
  by apply mint_locked.
Qed.

Lemma Lock_locked req now : gspec locked (Lock req now) (λ _, False).
Proof.
  unfold Lock. destruct (lr_Actor req) as [actor|]; [|apply gspec_throw]. destruct (negb _); [apply gspec_throw|].
  eapply gspec_bind; [apply Verify_locked|]. by intros ? [].
Qed.

Lemma WarnIfUnused_locked every now : gkeeps locked (WarnIfUnused every now).
Proof.
  unfold WarnIfUnused. gk. intros g a g' Hl. pose proof (lk_token _ Hl) as (b & Hb & Hc). rewrite Hb. rewrite bool_decide_true by done. by intros [= _ <-].
Qed.

Lemma tenantSet_locked : gkeeps locked tenantSet.
Proof. unfold tenantSet. gk. Qed.
Lemma currentState_locked : gkeeps locked currentState.
Proof. unfold currentState. gk. Qed.
Lemma reconstruct_locked d : gkeeps locked (reconstruct d).
Proof. unfold reconstruct. gk. Qed.
#[local] Hint Resolve tenantSet_locked currentState_locked reconstruct_locked : gkeeps.

(** A delta that passes the checks under the lock keeps the quorum. *)
Lemma checked_keeps d : Delta_Validate d = Ok tt → reserved_change_ok d ModeQuorum = Ok tt → keeps_quorum d.
Proof.
  unfold Delta_Validate, Delta.Validate. destruct (_ && _); [done|]. intros (Hsh & Hnd & _)%validate_changes_ok Hr c Hc.
  rewrite Forall_forall in Hsh. destruct (Hsh c Hc) as [_ Hs]. apply validateShape_ok in Hs as (Hid & _ & _).
  assert (ch_PolicyID c = GovernancePolicyID → Delta_Change d GovernancePolicyID = Some c) as Hfind.
  { intros E. unfold Delta_Change. destruct (list_find _ _) as [[i c']|] eqn:El; simpl.
    - apply list_find_Some in El as (Hi%list_elem_of_lookup_2 & E' & _). f_equal. apply (NoDup_map_inj ch_PolicyID (de_Changes d)); [done..|congruence].
    - apply list_find_None in El. rewrite Forall_forall in El. by destruct (El c Hc). }
  unfold reserved_change_ok in Hr. split.
  - intros Hk E. rewrite (Hfind E), bool_decide_true in Hr by done. done.
  - intros p Hp E. rewrite (Hid p Hp) in E. rewrite (Hfind E), Hp in Hr. destruct (bool_decide (ch_Kind c = ChangeDelete)); [done|].
    rewrite (bool_decide_true (ModeQuorum = ModeQuorum)) in Hr by done. simpl in Hr. unfold has_quorum. simpl. destruct (head _); [by eexists|]. by rewrite bool_decide_true in Hr.
Qed.

Lemma validateOutcome_locked d mode : gspec locked (validateOutcome d mode) (λ _, reserved_change_ok d mode = Ok tt).
Proof. unfold validateOutcome. eapply gspec_bind; [apply (gspec_lift _ _ (λ _, reserved_change_ok d mode = Ok tt)); by intros []|]. intros [] Hr. eapply gspec_weaken; [|intros ? _; exact Hr]. gk. Qed.

Definition assessed (ar : assessment * result unit) : Prop := ar.2 = Ok tt → as_mode ar.1 = ModeQuorum ∧ keeps_quorum (as_delta ar.1).

Lemma assess_locked d proposer : gspec locked (assess s d proposer) assessed.
Proof.
  assert (∀ a v e, gspec locked (g_ret (mkAssessment (as_mode a) (as_delta a) (as_class a) (as_requirement a) (as_current a) (as_proposed a) v, Err e)) assessed) as Hstop.
  { intros a v e. by apply gspec_ret. }
  unfold assess. eapply gspec_bind; [apply gspec_attempt, (fetched_spec governance (λ rp, has_quorum rp.2)); intros g rp Hl; by apply governance_locked, lk_policy|].
  intros [rp|e] Hrp; [|apply Hstop]. specialize (Hrp rp eq_refl). rewrite (has_quorum_mode _ Hrp).
  eapply gspec_bind; [apply gspec_attempt, reconstruct_locked|]. intros [d1|e] _; [|apply Hstop].
  destruct (Delta_Validate d1) as [[]|e] eqn:Ev; [|apply Hstop]. destruct (CheckSatisfiable d1) as [?|e]; [|apply Hstop].
  eapply gspec_bind; [apply gspec_attempt, validateOutcome_locked|]. intros [[]|e] Ho; [|apply Hstop]. specialize (Ho tt eq_refl).
  destruct (Require _ _ _ _ _) as [req|e]; [|apply Hstop]. apply gspec_ret. intros _. split; [done|]. by apply checked_keeps.
Qed.

Lemma preview_locked proposer d now : gkeeps locked (preview s proposer d now).
Proof. unfold preview. eapply gspec_bind; [apply assess_locked|]. intros ar _. unfold affectedDecisions. gk. Qed.

Definition pending_proposal (p : Proposal) : Prop := pp_State p = RPending → keeps_quorum (pp_Delta p).

Lemma GetRevision_locked id : gspec locked (GetRevision id) pending_proposal.
Proof. apply gspec_gquery. intros g p Hl Hp. intros Hst. exact (readProposal_locked id g p Hl Hp Hst). Qed.

Lemma Pending_locked : gkeeps locked Pending.
Proof. unfold Pending. eapply gspec_bind; [apply gquery_locked|]. intros [r|] _; [|gk]. eapply gspec_bind; [apply GetRevision_locked|]. intros. gk. Qed.
#[local] Hint Resolve Pending_locked : gkeeps.

Lemma gate_locked o : gkeeps locked (gate o).
Proof. unfold gate, PendingStatus. gk. Qed.
Lemma checkRate_locked o now : gkeeps locked (checkRate s o now).
Proof. unfold checkRate. gk. Qed.
#[local] Hint Resolve gate_locked checkRate_locked : gkeeps.

Lemma close_locked id st at_ : bool_decide (st = RPending) = false → tx_keeps locked (closeProposal id st at_).
Proof. intros Hst%bool_decide_eq_false. by apply closeProposal_locked. Qed.
#[local] Hint Extern 1 (tx_spec _ (closeProposal _ _ _) _) => apply close_locked; reflexivity : gkeeps.

Lemma supersede_locked o id now at_ : tx_keeps locked (supersede o id now at_).
Proof.
  intros g a g' Hl. unfold supersede. destruct (pending_revision g) as [r|]; [|by intros [= _ <-]]. intros (p & _ & Hr)%res_bind_Ok.
  destruct (negb (supersedes _ _)); [done|]. revert Hr. match goal with |- ?m g = _ → _ => enough (tx_keeps locked m) as Hm by (intros Hr; by eapply Hm) end. gk.
Qed.

Lemma insert_locked p proposer now : keeps_quorum (pp_Delta p) → gkeeps locked (insertProposal p proposer now).
Proof.
  intros Hk. unfold insertProposal. eapply gspec_bind; [apply (gspec_lift _ _ (λ j, MarshalDelta (pp_Delta p) = Ok j)); done|]. intros j Hj.
  apply gspec_gtxn. intros at_. eapply tx_spec_bind; [apply supersede_locked|intros ? _]. eapply (tx_spec_bind _ _ _ (λ _, True)); [|intros ? _; unfold recordUse; gk].
  intros g ? g' Hl. unfold insert_revision. destruct (negb _); [done|]. destruct (existsb _ _); [done|]. intros [= _ <-]. split; [|done].
  destruct Hl as [K1 K2 K3 K4]. split; try done. intros r [Hr| ->%list_elem_of_singleton]%elem_of_app; [by apply K3|]. simpl. intros _ d Hd. exact (stored_keeps _ _ _ Hk Hj Hd).
Qed.

Lemma discard_locked id : gkeeps locked (discard id).
Proof.
  unfold discard. eapply (gspec_bind _ _ _ (λ _, True)); [|intros; gk]. apply attempt_locked, gspec_gtxn. intros _. apply tx_spec_write. intros g Hl. apply locked_rows; [|done].
  intros r Hr Hp. apply elem_of_filter_true in Hr as [_ Hr]. by exists r.
Qed.

Lemma attach_locked id d : tx_keeps locked (attach id d).
Proof.
  intros g a g' Hl. unfold attach. destruct (_ !! d); [|done]. intros [= _ <-]. split; [|done]. apply locked_rows; [|done].
  intros r (r0 & -> & Hr0)%elem_of_map Hp. exists r0. by destruct (bool_decide _).
Qed.

Lemma write_locked p v at_ c : keeps_quorum (pp_Delta p) → c ∈ de_Changes (pp_Delta p) → tx_keeps locked (writeChange p v at_ c).
Proof.
  intros Hk Hc. destruct (Hk c Hc) as [Hdel Hput]. unfold writeChange. case_bool_decide as Ek.
  - eapply tx_spec_bind; [by apply delete_policy_locked, Hdel|intros; gk].
  - eapply tx_spec_bind; [by apply (tx_spec_reading _ _ (λ _, True))|intros ov _]. eapply tx_spec_bind; [by apply put_policy_locked|intros; gk].
Qed.

Lemma apply_tx_locked p snapshot clock at_ : keeps_quorum (pp_Delta p) → tx_keeps locked (apply_tx s p snapshot clock at_).
Proof.
  intros Hk. unfold apply_tx. eapply (tx_spec_bind _ _ _ (λ _, True)).
  { unfold writeSchema. destruct (SchemaChanged (pp_Delta p)), (de_SchemaAfter (pp_Delta p)); try gk; by intros g ? g' Hl (l & _ & [= _ <-])%res_bind_Ok. }
  intros v _. eapply (tx_spec_bind _ _ _ (λ _, True)).
  { assert (∀ cs, (∀ c, c ∈ cs → c ∈ de_Changes (pp_Delta p)) → tx_keeps locked (write_changes p v at_ cs)) as Hcs; [|by apply Hcs].
    induction cs as [|c cs IH]; intros Hin; simpl; [gk|]. eapply tx_spec_bind; [apply write_locked; set_solver|intros ? _]. apply IH. set_solver. }
  intros ? _. eapply (tx_spec_bind _ _ _ (λ _, True)); [|intros; gk]. intros g ? g' Hl. by apply on_db_locked.
Qed.

Lemma ApplyRevision_locked id clock : gkeeps locked (ApplyRevision s id clock).
Proof.
  unfold ApplyRevision. eapply gspec_bind; [apply GetRevision_locked|]. intros p Hp. case_bool_decide as Es; simpl; [|gk]. specialize (Hp Es).
  eapply (gspec_bind _ _ _ (λ _, True)); [unfold approval; gk|]. intros [| |st] _; [|gk|unfold reject; gk].
  do 3 (eapply (gspec_bind _ _ _ (λ _, True)); [gk|intros ? _]). eapply (gspec_bind _ _ _ (λ _, True)); [|intros; gk]. apply gspec_gtxn. intros. by apply apply_tx_locked.
Qed.
#[local] Hint Resolve ApplyRevision_locked : gkeeps.

Lemma Reconcile_locked clock : gkeeps locked (Reconcile s clock).
Proof. unfold Reconcile. gk. Qed.

Lemma open_revision_locked p proposer a ttl clock : keeps_quorum (pp_Delta p) → gkeeps locked (open_revision s p proposer a ttl clock).
Proof.
  intros Hk. unfold open_revision. eapply gspec_bind; [by apply insert_locked|intros ? _]. eapply (gspec_bind _ _ _ (λ _, True)); [unfold decide_revision; apply attempt_locked; gk|].
  intros [res|e] _; [|eapply gspec_bind; [apply discard_locked|intros; gk]].
  eapply (gspec_bind _ _ _ (λ _, True)); [apply gspec_gtxn; intros; apply attach_locked|intros; gk].
Qed.

Lemma Propose_locked req clock : gkeeps locked (Propose s req clock).
Proof.
  unfold Propose. destruct (is_user _) as [proposer|]; [|gk]. destruct (negb _); [gk|]. destruct (negb _); [gk|].
  eapply (gspec_bind _ _ _ (λ a, keeps_quorum (as_delta a))).
  - unfold admissible. do 3 (eapply (gspec_bind _ _ _ (λ _, True)); [gk|intros ? _]). eapply gspec_bind; [apply assess_locked|]. intros [ass r] Har.
    eapply gspec_bind; [apply (gspec_lift _ _ (λ _, r = Ok tt)); by intros []|]. intros ? Hr. simpl in *. destruct (Har Hr) as [Hm Hk]. simpl in Hm, Hk.
    rewrite bool_decide_false by (by rewrite Hm). eapply (gspec_bind _ _ _ (λ _, True)); [gk|intros ? _]. by apply gspec_ret.
  - intros a Hk. do 2 (eapply (gspec_bind _ _ _ (λ _, True)); [gk|intros ? _]). by apply open_revision_locked.
Qed.
#[local] Hint Resolve Propose_locked : gkeeps.

Lemma Withdraw_locked caller id now : gkeeps locked (Withdraw caller id now).
Proof.
  unfold Withdraw, withdraw_tx. destruct (is_user _) as [c|]; [|gk]. apply gspec_gtxn. intros at_.
  eapply (tx_spec_bind _ _ _ (λ _, True)); [by apply tx_spec_reading|intros p _]. gk.
Qed.

Lemma ApplyFiles_locked `{Yaml} req clock : gkeeps locked (ApplyFiles s req clock).
Proof. unfold ApplyFiles. gk. Qed.

Lemma ExportSet_locked caller : gkeeps locked (ExportSet s caller).
Proof. unfold ExportSet, authorizeExport, recordExport. gk. Qed.

(** ** Every call on the running system *)

Context `{Yaml}.

Inductive gop :=
  | OpInstall (now : Time.t)
  | OpLock (req : LockRequest) (now : Time.t)
  | OpWarn (every : Time.duration) (now : Time.t)
  | OpPreview (proposer : option Subject) (d : Delta) (now : Time.t)
  | OpPropose (req : ProposeRequest) (clock : nat → Time.t)
  | OpApplyFiles (req : FileApplyRequest) (clock : nat → Time.t)
  | OpApply (id : string) (clock : nat → Time.t)
  | OpReconcile (clock : nat → Time.t)
  | OpWithdraw (caller : option Subject) (id : string) (now : Time.t)
  | OpExport (caller : option Subject).

Definition run_op (op : gop) (w : GWorld) : GWorld :=
  match op with
  | OpInstall now => (Install now w).2
  | OpLock req now => (Lock req now w).2
  | OpWarn every now => (WarnIfUnused every now w).2
  | OpPreview proposer d now => (preview s proposer d now w).2
  | OpPropose req clock => (Propose s req clock w).2
  | OpApplyFiles req clock => (ApplyFiles s req clock w).2
  | OpApply id clock => (ApplyRevision s id clock w).2
  | OpReconcile clock => (Reconcile s clock w).2
  | OpWithdraw caller id now => (Withdraw caller id now w).2
  | OpExport caller => (ExportSet s caller w).2
  end.
Definition run_ops (ops : list gop) (w : GWorld) : GWorld := foldl (λ w op, run_op op w) w ops.

Lemma gkeeps_run {A} (m : G A) Q w : gspec locked m Q → locked (gw_db w) → grely locked w → locked (gw_db (m w).2) ∧ grely locked (m w).2.
Proof. intros Hm Hl Hr. by destruct (Hm w Hl Hr) as (? & ? & _). Qed.

Lemma run_op_locked op w : locked (gw_db w) → grely locked w → locked (gw_db (run_op op w)) ∧ grely locked (run_op op w).
Proof.
  destruct op; simpl; eapply gkeeps_run;
    first [apply Install_locked|apply Lock_locked|apply WarnIfUnused_locked|apply preview_locked|apply Propose_locked|apply ApplyFiles_locked
          |apply ApplyRevision_locked|apply Reconcile_locked|apply Withdraw_locked|apply ExportSet_locked].
Qed.

Lemma run_ops_locked ops w : locked (gw_db w) → grely locked w → locked (gw_db (run_ops ops w)) ∧ grely locked (run_ops ops w).
Proof. revert w. induction ops as [|op ops IH]; intros w Hl Hr; [done|]. simpl. destruct (run_op_locked op w Hl Hr). by apply IH. Qed.

(** ** Locking *)

Lemma lock_tx_locks now actor q at_ g u g' : unlocked_ok g → lock_tx now actor q at_ g = Ok (u, g') → locked g'.
Proof.
  unfold lock_tx. intros [Ht Hp] (rp & g1 & (x & _ & [= -> <-])%res_bind_Ok & Hr)%tx_bind_Ok. destruct (GovernanceQuorum (Some rp.2)); [done|].
  apply tx_bind_Ok in Hr as (rec & g2 & Hput & Hr). apply tx_bind_Ok in Hr as (v & g3 & Hc & [= _ <-]). apply locked_db.
  unfold put_policy in Hput. apply tx_bind_Ok in Hput as (r & g4 & Hput & Hr). apply tx_bind_Ok in Hr as (v' & g5 & [= _ <-] & [= <- <-]).
  apply res_bind_Ok in Hput as ([r1 t1] & Hput & [= <- <-]). apply (PutPolicy_Ok _ _ _ _ _ Ht) in Hput as (p & doc & [= <-] & Hm & Hdoc & Hdel & Hinto). simpl in *.
  unfold consume in Hc. simpl in Hc. destruct (g_boot g) as [b|]; [|done]. case_bool_decide; [done|]. apply tx_bind_Ok in Hc as (? & g6 & [= _ <-] & [= _ <-]).
  split; simpl; [apply (pu_ok _ _ _ _ Hinto)| |exact Hp|eauto]. exists r1. split_and!; [apply (pu_live _ _ _ _ Hinto)|done|].
  intros q' Hq'. rewrite Hdoc in Hq'. destruct (Hcodec _ _ _ Hm Hq') as [_ Hk]. apply Hk; by eexists.
Qed.

Lemma Lock_locks req now w w' : unlocked_ok (gw_db w) → grely unlocked_ok w → Lock req now w = (Ok tt, w') → locked (gw_db w').
Proof.
  intros Hu Hr. unfold Lock. destruct (lr_Actor req) as [actor|]; [|done]. destruct (negb _); [done|].
  assert (gkeeps unlocked_ok (Verify (lr_Token req))) as Hv.
  { assert (∀ k sb pl, tx_keeps unlocked_ok (note k sb pl)) as Hnote by (intros k sb pl g x g' [? ?] [= _ <-]; by split).
    unfold Verify, refuse_token. eapply (gspec_bind _ _ _ (λ _, True)); [by apply gspec_gquery|intros row _].
    assert (∀ why e, gkeeps unlocked_ok (let^ _ := refuse_token why in g_throw (A := unit) e)) as Hno.
    { intros why e. unfold refuse_token. eapply (gspec_bind _ _ _ (λ _, True)); [|intros; apply gspec_throw].
      eapply (gspec_bind _ _ _ (λ _, True)); [|intros; by apply gspec_ret]. eapply gspec_weaken; [apply gspec_attempt, gspec_gtxn; intros; apply Hnote|done]. }
    destruct row as [b|]; [|apply Hno]. do 3 (case_bool_decide; [try apply Hno|]); try apply Hno; by apply gspec_ret. }
  destruct (Hv w Hu Hr) as (Hu1 & Hr1 & _). unfold g_bind. destruct (Verify _ w) as [[[]|e] w1]; simpl in *; [|done].
  unfold g_lift. destruct (CheckSatisfiable _); [|done]. destruct (negb _); [done|]. intros Hop.
  apply (gpost_gtxn unlocked_ok _ (λ _ g, locked g)) in Hop; [done| |done..]. intros at_ g u g' Hg Ht. by eapply lock_tx_locks.
Qed.
End operations.
End lock.

(** C4. The lock is final.  Say the document format keeps a policy's identifier and its
    quorum, and no pending revision takes the quorum out of the reserved policy when
    [Lock] succeeds.  Then after whatever calls on the running system, with whatever
    faults and interference that itself keeps to the lock, governance is locked: it
    never reads as solo mode, the bootstrap token stays spent and no token verifies. *)
Theorem lock_is_final `{Codec, GovEnv, CEL, Digest, Yaml} s req now w w1 ops :
  codec_keeps → unlocked_ok (gw_db w) → grely unlocked_ok w → Lock req now w = (Ok tt, w1) → grely locked w1 →
  let w2 := run_ops s ops w1 in
  policy_locked (g_tables (gw_db w2)) ∧
  (∀ rp, governance (g_tables (gw_db w2)) = Ok rp → mode_of rp.2 = ModeQuorum) ∧
  (∃ b, g_boot (gw_db w2) = Some b ∧ is_Some (bt_consumed b)) ∧
  ∀ token, ∃ e, (Verify token w2).1 = Err e.
Proof.
  intros Hc Hu Hr Hlock Hr1 w2. pose proof (Lock_locks Hc req now w w1 Hu Hr Hlock) as Hl.
  destruct (run_ops_locked Hc s ops w1 Hl Hr1) as [Hl2 Hr2]. fold w2 in Hl2, Hr2. split_and!.
  - apply lk_policy, Hl2.
  - intros rp Hrp. apply has_quorum_mode. by eapply governance_locked; [apply lk_policy|].
  - apply lk_token, Hl2.
  - intros token. destruct (Verify_locked token w2 Hl2 Hr2) as (_ & _ & Hno). destruct (Verify token w2).1 as [u|e]; [|eauto]. by destruct (Hno u).
Qed.

(** ** The document format keeps the governance lock

    The lock is proved for any document format that gives back a policy's identifier and
    its quorum; the format of internal/policy/codec.go does, for every policy, also for
    one it cannot represent. *)
From Stdlib Require Import Ascii.
From S2P Require Import Strconv Encode Decode CodecRead DecodeShape PolicyCodec.

(** ** Quorums *)

Lemma has_quorum_iff p : has_quorum p ↔ ∃ q, CQuorum q ∈ p_Challenges p.
Proof.
  unfold has_quorum, GovernanceQuorum. split.
  - intros [x Hx]. assert (x ∈ omap as_quorum (p_Challenges p)) as Hin by (destruct (omap _ _); [done|]; injection Hx as ->; set_solver).
    apply list_elem_of_omap in Hin as (c & Hc & E). destruct c; try done. eauto.
  - intros (q & Hq). assert (q ∈ omap as_quorum (p_Challenges p)) as Hin by (apply list_elem_of_omap; by eexists).
    destruct (omap as_quorum (p_Challenges p)); [by apply not_elem_of_nil in Hin|]. by eexists.
Qed.

Lemma has_quorum_normalize p : has_quorum p → has_quorum (normalizePolicy p).
Proof.
  rewrite !has_quorum_iff. intros (q & Hq). simpl. eexists. apply elem_of_sort_by, elem_of_map. exists (CQuorum q). split; [simpl; reflexivity|done].
Qed.

(** ** Mappings as lists of entries *)

Definition flat (kvs : list (string * ynode)) : mapBuilder := concat (map (λ kv, [str kv.1; kv.2]) kvs).

Lemma flat_put kvs k v : put (flat kvs) k v = flat (kvs ++ [(k, v)]).
Proof. unfold put, flat. by rewrite map_app, concat_app. Qed.

Lemma entries_flat kvs : entries (map resolved (flat kvs)) = map (λ kv, (str kv.1, resolved kv.2)) kvs.
Proof. induction kvs as [|[k v] kvs IH]; [done|]. simpl. by rewrite <-IH. Qed.

Lemma present_skip es1 es2 key : (∀ kv, kv ∈ es2 → Value kv.1 ≠ key) → present (es1 ++ es2) key = present es1 key.
Proof.
  unfold present. rewrite foldl_app. generalize (foldl (λ found kv, if bool_decide (Value kv.1 = key) then Some kv.2 else found) None es1). intros found.
  induction es2 as [|kv es2 IH]; intros Hk; simpl; [done|]. rewrite bool_decide_eq_false_2 by (apply Hk; set_solver). apply IH. set_solver.
Qed.

Lemma wbind_clean {A B} (m : W A) (f : A → W B) b : wbind m f = (b, []) → ∃ a, m = (a, []) ∧ f a = (b, []).
Proof. intros (a & d1 & d2 & -> & Hf & [-> ->]%eq_sym%app_eq_nil)%wbind_inv. eauto. Qed.

Lemma walk_app_inv {S} ptr (hs : list (string * handler S)) es1 es2 s s' :
  walk_entries ptr hs (es1 ++ es2) s = (s', []) → ∃ s1, walk_entries ptr hs es1 s = (s1, []) ∧ walk_entries ptr hs es2 s1 = (s', []).
Proof.
  revert s. induction es1 as [|[k v] es1 IH]; intros s H; [by exists s|]. simpl in *. apply wbind_clean in H as (s1 & H1 & (s2 & H2 & H3)%IH).
  exists s2. split; [|done]. rewrite H1. simpl. by rewrite H2.
Qed.

(** The entries that do not concern a property leave it. *)
Lemma walk_keeps {S} (P : S → Prop) ptr (hs : list (string * handler S)) (keys : list string) kvs s s' ds :
  (∀ key h, key ∈ keys → handler_of hs key = Some h → ∀ s n s' d, P s → h s n = (s', d) → P s') →
  (∀ kv, kv ∈ kvs → kv.1 ∈ keys) → P s → walk_entries ptr hs (map (λ kv, (str kv.1, resolved kv.2)) kvs) s = (s', ds) → P s'.
Proof.
  intros Hh. revert s ds. induction kvs as [|[k v] kvs IH]; intros s ds Hk Hs H; simpl in H; [by injection H as <- _|].
  apply wbind_inv in H as (s1 & ? & ? & H1 & H & _). eapply IH; [set_solver| |done].
  destruct (handler_of hs k) as [h|] eqn:E; [|by injection H1 as <- _]. eapply Hh; [|done..]. by apply (Hk (k, v)); set_solver.
Qed.

(** ** The document of a policy *)

Definition middle_keys : list string := ["description"; "subject"; "resource"; "context"; "actions"; "condition"].

Lemma keys_apart k : k ∈ ["apiVersion"; "kind"; "id"] → k ∉ "challenges" :: middle_keys.
Proof. revert k. apply Forall_forall. apply (bool_decide_unpack _). vm_compute. exact I. Qed.

Section document.
Context `{GoFmt}.

Lemma document_entries p : ∃ mid,
  policyDocumentNode p = documentOf (mapping (flat ([("apiVersion", str APIVersion); ("kind", str KindPolicy); ("id", str (p_ID p))] ++ mid ++
    (if (0 <? length (p_Challenges p))%nat then [("challenges", sequence (map challengeNode (p_Challenges p)))] else [])))) ∧
  ∀ kv, kv ∈ mid → kv.1 ∈ middle_keys.
Proof.
  set (mid := (if bool_decide (p_Description p = "") then [] else [("description", str (p_Description p))]) ++
    [("subject", str (p_Subject p)); ("resource", str (p_Resource p))] ++
    (if bool_decide (p_Context p = "") then [] else [("context", str (p_Context p))]) ++ [("actions", stringSequenceNode (p_Actions p))] ++
    match p_Condition p with NodeNil => [] | c => [("condition", conditionNode c)] end).
  exists mid. split.
  - unfold policyDocumentNode, putStringIf, mid. cbv zeta.
    destruct (bool_decide (p_Description p = "")), (bool_decide (p_Context p = "")), (p_Condition p), (0 <? length (p_Challenges p))%nat; reflexivity.
  - intros kv. unfold mid, middle_keys. destruct (bool_decide (p_Description p = "")), (bool_decide (p_Context p = "")), (p_Condition p); set_solver.
Qed.
Lemma quorum_read q ptr o ds : challenge (resolved (challengeNode (CQuorum q))) ptr = (o, ds) → ∃ q', o = Some (CQuorum q').
Proof.
  change (challenge (resolved (challengeNode (CQuorum q))) ptr) with
    (read_as CQuorum (resolved (challengeNode (CQuorum q))) ptr (quorum_handlers ptr) (mkQuorum 0 no_approvers)).
  unfold read_as. intros (c & ? & ? & _ & Hc & _)%wbind_inv. injection Hc as <- _. eauto.
Qed.

Lemma quorums_read cs ptr l ds q : challenges (resolved (sequence (map challengeNode cs))) ptr = (l, ds) → CQuorum q ∈ cs → ∃ q', CQuorum q' ∈ l.
Proof.
  unfold challenges. change (is_kind _ _) with true. cbv iota. intros (os & ? & ? & Hos & Hl & _)%wbind_inv Hq. injection Hl as <- _.
  change (Content _) with (map resolved (map challengeNode cs)) in Hos. assert (∃ q', Some (CQuorum q') ∈ os) as (q' & Hq').
  { revert Hq Hos. generalize 0%nat. revert os x. induction cs as [|c cs IH]; intros os d i Hq Hos; [by apply not_elem_of_nil in Hq|]. simpl in Hos.
    apply wbind_inv in Hos as (o & ? & ? & Ho & Hos & _). apply wbind_inv in Hos as (os' & ? & ? & Hos' & E & _). injection E as <- _.
    apply elem_of_cons in Hq as [<-|Hq].
    - apply quorum_read in Ho as (q' & ->). exists q'. set_solver.
    - destruct (IH _ _ _ Hq Hos') as (q' & ?). exists q'. set_solver. }
  exists q'. apply list_elem_of_omap. by exists (Some (CQuorum q')).
Qed.

(** Every handler but that of the identifier leaves the identifier. *)
Lemma handler_keeps_id ptr id key h : key ≠ "id" → handler_of (policy_handlers ptr) key = Some h →
  ∀ p n p' d, p_ID p = id → h p n = (p', d) → p_ID p' = id.
Proof.
  intros Hk Hh. assert (Forall (λ kh : string * handler Policy, kh.1 ≠ "id" → ∀ p n p' d, p_ID p = id → kh.2 p n = (p', d) → p_ID p' = id) (policy_handlers ptr)) as Hall.
  { repeat apply Forall_cons_2; [..|apply Forall_nil_2]; intros Hne; [..|clear Hne]; try done;
      intros p n p' d Hid Hp; cbn [snd text_into] in Hp; try (apply wbind_inv in Hp as (v & ? & ? & _ & Hp & _)); injection Hp as <- _; done. }
  unfold handler_of in Hh. destruct (List.find _ _) as [kh|] eqn:E; [|done]. injection Hh as <-. apply find_some in E as [Hin Hkey%bool_decide_eq_true].
  rewrite Forall_forall in Hall. apply Hall; [by apply list_elem_of_In|congruence].
Qed.

Lemma stored_policy p p0 d : stream [resolved (policyDocumentNode p)] false (mkSet (mkSchema [] [] []) []) = (d, []) → set_Policies d = [p0] →
  p_ID p0 = p_ID p ∧ (has_quorum p → has_quorum p0).
Proof.
  destruct (document_entries p) as (mid & -> & Hmid). set (last := if (0 <? length (p_Challenges p))%nat then _ else _).
  set (kvs := [("apiVersion", str APIVersion); ("kind", str KindPolicy); ("id", str (p_ID p))]). cbn [stream]. change (Content (resolved (documentOf ?r))) with [resolved r].
  cbv iota. intros (s1 & Hdoc & [= <-])%wbind_clean Hp0. revert Hdoc.
  assert (∀ kv, kv ∈ mid ++ last → kv.1 ∈ "challenges" :: middle_keys) as Hrest.
  { intros kv [Hkv%Hmid|Hkv]%elem_of_app; [set_solver|]. unfold last in Hkv. destruct (0 <? _)%nat; set_solver. }
  assert (∀ key, key ∈ ["apiVersion"; "kind"] → present (entries (map resolved (flat (kvs ++ mid ++ last)))) key = present (entries (map resolved (flat kvs))) key) as Hpres.
  { intros key Hkey. rewrite !entries_flat, map_app. apply present_skip. intros kv (x & -> & Hx%Hrest)%elem_of_map. simpl.
    intros <-. by apply (keys_apart x.1); [set_solver|]. }
  rewrite (document_kind _ _ KindPolicy) by (rewrite Hpres by set_solver; done). change (bool_decide (KindPolicy = KindSchema)) with false.
  change (bool_decide (KindPolicy = KindPolicy)) with true. cbv iota. unfold policyDocument. intros (q & Hw & E)%wbind_clean. injection E as <-. simpl in Hp0. injection Hp0 as ->.
  unfold walk in Hw. change (is_kind _ _) with true in Hw. cbv iota in Hw.
  change (Content (resolved (mapping ?m))) with (map resolved m) in Hw. rewrite entries_flat, map_app in Hw. apply walk_app_inv in Hw as (s1 & H1 & Hw).
  set (ptr := jptr _) in *. assert (p_ID s1 = p_ID p) as Hid by (simpl in H1; by injection H1 as <-).
  rewrite map_app in Hw. apply walk_app_inv in Hw as (s2 & H2 & H3).
  assert (p_ID s2 = p_ID p) as Hid2.
  { eapply (walk_keeps (λ s, p_ID s = p_ID p) ptr (policy_handlers ptr) ("challenges" :: middle_keys) mid); [|intros kv Hkv; apply Hrest; set_solver|exact Hid|exact H2].
    intros key h Hk Hh. apply (handler_keeps_id ptr _ key h); [|done]. intros ->. by apply (keys_apart "id"); [set_solver|]. }
  unfold last in H3. split.
  - destruct (0 <? _)%nat; [|by injection H3 as <-]. simpl in H3. apply wbind_clean in H3 as (s3 & H3 & [= <-]). apply wbind_clean in H3 as (l & _ & [= <-]). done.
  - rewrite !has_quorum_iff. intros (qq & Hqq). destruct (p_Challenges p) as [|c cs] eqn:Ec; [by apply not_elem_of_nil in Hqq|]. cbn [length Nat.ltb Nat.leb] in H3.
    simpl in H3. apply wbind_clean in H3 as (s3 & H3 & [= <-]). apply wbind_clean in H3 as (l & Hl & [= <-]). simpl.
    eapply (quorums_read (c :: cs)); [exact Hl|exact Hqq].
Qed.
End document.

(** C5. The format keeps the lock: whatever policy is stored, one the format represents
    or not, if the stored document reads at all, it reads as a policy with the same
    identifier, and with a quorum when the policy had one.  This is what the proof that
    the governance lock is final asks of the format. *)
Theorem format_keeps_the_lock `{GoFmt, YamlText} (hash : string → string) : @codec_keeps (policy_codec hash).
Proof.
  intros p doc q Hw Hd. unfold decode_one, Decode in Hd. apply res_bind_Ok in Hd as (s & Hs & Hq). cbn [DecodeWithLimits Marshal policy_codec] in *.
  unfold decode_with_limits in Hs. destruct (readCapped doc _) as [data|] eqn:Er; [|done].
  assert (data = doc) as -> by (unfold readCapped in Er; repeat case_match; by simplify_eq).
  unfold Encode in Hw. rewrite (yaml_read_write _ _ Hw) in Hs. change (documents (one_policy p)) with [policyDocumentNode (normalizePolicy p)] in Hs. cbn [map] in Hs.
  destruct (stream _ _ _) as [set ds] eqn:Est. destruct ds; [|done]. injection Hs as <-. unfold Normalize in Hq. cbn [set_Policies] in Hq.
  assert (∃ p0, set_Policies set = [p0] ∧ q = normalizePolicy p0) as (p0 & Hp0 & ->).
  { pose proof (length_sort_by p_ID String.le (map normalizePolicy (set_Policies set))) as Hlen.
    destruct (sort_by _ _ _) as [|x [|]] eqn:E; try done. injection Hq as ->. rewrite length_map in Hlen. destruct (set_Policies set) as [|p0 [|]]; try done.
    exists p0. split; [done|]. simpl in E. by injection E as <-. }
  destruct (stored_policy (normalizePolicy p) p0 set Est Hp0) as [Hid Hquo]. split; [exact Hid|]. intros Hh. apply has_quorum_normalize, Hquo. by apply has_quorum_normalize.
Qed.
