(* ===== verification/RevisionSpec.v ===== *)
(** * What applying a revision does

    The policies in force after a revision are those its delta makes of the policies in
    force before, and a revision that has a decision is applied only when the decision
    is allowed. *)
From S2P Require Import Prelude GoLib Policy Cel Engine Validate Delta Weakening Json Store World StoreInv.
From S2P Require Import Challenge Quorum Service Revalidate RevalidateSpec RevalidateInv PolicyStore PolicyStoreSpec ApplyPlan.
From S2P Require Import GovWorld Governance Proposals LockSpec.
Import Strings.

Section revision.
Context `{Codec}.

(** ** The policies in force *)

Definition tenant_policies (t : Tables) : result (list Policy) := res_map PolicyRecord_Policy (tenant_records t).

(** Each row holds the policy it is named after. *)
Definition rows_named (t : Tables) : Prop :=
  ∀ r p, r ∈ tenant_records t → PolicyRecord_Policy r = Ok p → p_ID p = pr_ID r.

Lemma elem_of_tenant t r : tables_ok t →
  r ∈ tenant_records t ↔ live_row (pr_ID r) t = Some r ∧ pr_Deleted r = false ∧ pr_ID r ≠ GovernancePolicyID.
Proof.
  intros Ht. unfold tenant_records, EffectivePolicies. rewrite elem_of_filter_true, elem_of_sort_by, elem_of_filter_true, (live_row_spec t Ht).
  unfold effective, IsReserved. rewrite negb_true_iff, bool_decide_eq_false, (bool_decide_true ([] = [])) by done. rewrite andb_true_r, andb_true_iff, negb_true_iff.
  naive_solver.
Qed.

Lemma tenant_NoDup t : tables_ok t → NoDup (map pr_ID (tenant_records t)).
Proof.
  intros Ht. apply NoDup_alt. intros i j id Hi Hj. rewrite list_lookup_fmap in Hi, Hj. apply fmap_Some in Hi as (r & Hi & ->), Hj as (r' & Hj & E).
  assert (r = r') as <-.
  { apply list_elem_of_lookup_2, elem_of_tenant in Hi as (Hi & _); [|done]. apply list_elem_of_lookup_2, elem_of_tenant in Hj as (Hj & _); [|done]. congruence. }
  assert (NoDup (tenant_records t)) as Hnd; [|by eapply NoDup_lookup].
  unfold tenant_records, EffectivePolicies. apply (NoDup_fmap_1 row_key). apply NoDup_map_filter. rewrite sort_by_Permutation. apply NoDup_map_filter, to_keys, Ht.
Qed.

(** The live row of every identifier after the changes of a delta. *)
Definition left_by (cs : list Change) (t t' : Tables) (id : string) : Prop :=
  match snd <$> list_find (λ c, ch_PolicyID c = id) cs with
  | None => live_row id t' = live_row id t
  | Some c => ∃ r, live_row id t' = Some r ∧ pr_Deleted r = bool_decide (ch_Kind c = ChangeDelete) ∧
                (ch_Kind c ≠ ChangeDelete → ∃ a, ch_After c = Some a ∧ Marshal (one_policy a) = Ok (pr_Document r))
  end.

(** ** Writing the changes *)

Lemma put_policy_tables at_ i g rec g' : tables_ok (g_tables g) → put_policy at_ i g = Ok (rec, g') →
  ∃ p doc, pi_Policy i = Some p ∧ Marshal (one_policy p) = Ok doc ∧ pr_Document rec = doc ∧ pr_Deleted rec = false ∧ put_into (p_ID p) rec (g_tables g) (g_tables g') ∧
    g_revisions g' = g_revisions g ∧ db_decisions (g_db g') = db_decisions (g_db g).
Proof.
  intros Ht. unfold put_policy. intros (r & g1 & Hp & Hr)%tx_bind_Ok. apply tx_bind_Ok in Hr as (u & g2 & [= _ <-] & [= <- <-]).
  apply res_bind_Ok in Hp as ([r1 t1] & Hp & [= <- <-]). apply (PutPolicy_Ok _ _ _ _ _ Ht) in Hp as (p & doc & ? & ? & ? & ? & ?). simpl. exists p, doc. by split_and!.
Qed.

Lemma delete_policy_tables at_ id author g rec g' : tables_ok (g_tables g) → delete_policy at_ id author g = Ok (rec, g') →
  pr_Deleted rec = true ∧ put_into id rec (g_tables g) (g_tables g') ∧ g_revisions g' = g_revisions g ∧ db_decisions (g_db g') = db_decisions (g_db g).
Proof.
  intros Ht. unfold delete_policy. intros (r & g1 & Hp & Hr)%tx_bind_Ok. apply tx_bind_Ok in Hr as (u & g2 & [= _ <-] & [= <- <-]).
  apply res_bind_Ok in Hp as ([r1 t1] & Hp & [= <- <-]). apply (DeletePolicy_Ok _ _ _ _ _ _ Ht) in Hp as [? ?]. simpl. by split_and!.
Qed.

(** Nothing but the policy rows and the audit log. *)
Definition same_rest (g g' : GDB) : Prop :=
  t_schemas (g_tables g') = t_schemas (g_tables g) ∧ g_revisions g' = g_revisions g ∧ db_decisions (g_db g') = db_decisions (g_db g).

Lemma writeChange_left p v at_ c g u g' : tables_ok (g_tables g) → validateShape c = Ok tt → writeChange p v at_ c g = Ok (u, g') →
  tables_ok (g_tables g') ∧ same_rest g g' ∧ (∀ id, id ≠ ch_PolicyID c → live_row id (g_tables g') = live_row id (g_tables g)) ∧
  ∃ r, live_row (ch_PolicyID c) (g_tables g') = Some r ∧ pr_Deleted r = bool_decide (ch_Kind c = ChangeDelete) ∧
    (ch_Kind c ≠ ChangeDelete → ∃ a, ch_After c = Some a ∧ Marshal (one_policy a) = Ok (pr_Document r)).
Proof.
  intros Ht (Hid & _)%validateShape_ok. unfold writeChange. case_bool_decide as Ek.
  - intros (rec & g1 & (Hdel & [Hok Hs _ Hl Ho] & Hr & Hd)%delete_policy_tables & [= _ <-])%tx_bind_Ok; [|done]. split_and!; [done|by split_and!|done|]. exists rec. by split_and!.
  - intros (ov & g0 & (ov' & _ & [= _ <-])%res_bind_Ok & Hr)%tx_bind_Ok.
    apply tx_bind_Ok in Hr as (rec & g1 & (a & doc & Ea & Hm & Hdoc & Hdel & [Hok Hs _ Hl Ho] & Hrev & Hd)%put_policy_tables & [= _ <-]); [|done]. simpl in Ea.
    rewrite (Hid a Ea) in *. split_and!; [done|by split_and!|done|]. exists rec. split_and!; [done|done|]. intros _. exists a. by rewrite Hdoc.
Qed.

Lemma write_changes_left p v at_ cs g u g' :
  tables_ok (g_tables g) → Forall (λ c, validateShape c = Ok tt) cs → NoDup (map ch_PolicyID cs) → write_changes p v at_ cs g = Ok (u, g') →
  tables_ok (g_tables g') ∧ same_rest g g' ∧ ∀ id, left_by cs (g_tables g) (g_tables g') id.
Proof.
  revert g. induction cs as [|c cs IH]; intros g Ht Hsh Hnd; simpl; [intros [= _ <-]; by split_and!|].
  apply Forall_cons in Hsh as [Hc Hsh]. apply NoDup_cons in Hnd as [Hn Hnd]. intros (v1 & g1 & Hw & Hr)%tx_bind_Ok.
  destruct (writeChange_left _ _ _ _ _ _ _ Ht Hc Hw) as (Ht1 & (Hs1 & Hr1 & Hd1) & Ho1 & Hl1). destruct (IH g1 Ht1 Hsh Hnd Hr) as (Ht2 & (Hs2 & Hr2 & Hd2) & Hl2).
  split_and!; [done|split_and!; congruence|]. intros id. unfold left_by. simpl. specialize (Hl2 id). unfold left_by in Hl2. destruct (decide (ch_PolicyID c = id)) as [<-|Hne]; simpl.
  - destruct (list_find _ cs) as [[i c']|] eqn:El; simpl in Hl2; [|by rewrite Hl2].
    apply list_find_Some in El as (Hi%list_elem_of_lookup_2 & E & _). destruct Hn. rewrite <-E. apply elem_of_map. eauto.
  - destruct (list_find _ cs) as [[i c']|]; simpl in *; [done|]. rewrite Hl2. by apply Ho1.
Qed.

(** ** The outcome *)

Lemma elem_of_tenant_policies t ps q : tenant_policies t = Ok ps → q ∈ ps ↔ ∃ r, r ∈ tenant_records t ∧ PolicyRecord_Policy r = Ok q.
Proof.
  intros Hps%res_map_Ok. split.
  - intros [i Hi]%list_elem_of_lookup. destruct (Forall2_lookup_r _ _ _ _ _ Hps Hi) as (r & Hr & E). exists r. split; [by eapply list_elem_of_lookup_2|done].
  - intros (r & [i Hi]%list_elem_of_lookup & E). destruct (Forall2_lookup_l _ _ _ _ _ Hps Hi) as (q' & Hq & E'). eapply list_elem_of_lookup_2. rewrite Hq. congruence.
Qed.

Lemma tenant_policies_ids t ps : rows_named t → tenant_policies t = Ok ps → map p_ID ps = map pr_ID (tenant_records t).
Proof.
  unfold rows_named. intros Hn Hps%res_map_Ok. revert Hn. induction Hps as [|r q l ps E _ IH]; intros Hn; [done|]. simpl. rewrite (Hn r q), IH; [done| |set_solver|done].
  intros. apply Hn; set_solver.
Qed.

Section outcome.
Context (d : Delta) (Hsh : Forall (λ c, ChangeKind_Valid (ch_Kind c) = true ∧ validateShape c = Ok tt) (de_Changes d)) (Hnd : NoDup (map ch_PolicyID (de_Changes d))).
Context (Hround : ∀ c a doc, c ∈ de_Changes d → ch_After c = Some a → Marshal (one_policy a) = Ok doc → decode_one doc = Ok a).
Context (t t' : Tables) (Ht : tables_ok t) (Ht' : tables_ok t') (Hleft : ∀ id, left_by (de_Changes d) t t' id) (Hnamed : rows_named t).
Context (ps : list Policy) (Hps : tenant_policies t = Ok ps).

Lemma find_change c : c ∈ de_Changes d → (snd <$> list_find (λ c', ch_PolicyID c' = ch_PolicyID c) (de_Changes d)) = Some c.
Proof.
  intros Hc. destruct (list_find _ _) as [[i c']|] eqn:El; simpl.
  - apply list_find_Some in El as (Hi%list_elem_of_lookup_2 & E & _). f_equal. by apply (NoDup_map_inj ch_PolicyID (de_Changes d)).
  - apply list_find_None in El. rewrite Forall_forall in El. by destruct (El c Hc).
Qed.

Lemma shape_of c : c ∈ de_Changes d → (∀ a, ch_After c = Some a → p_ID a = ch_PolicyID c) ∧ (ch_Kind c = ChangeDelete ↔ ch_After c = None).
Proof. intros Hc. rewrite Forall_forall in Hsh. destruct (Hsh c Hc) as [_ (? & _ & ? & _)%validateShape_ok]. by split. Qed.

(** A row of the tenant after the changes was there before and untouched, or is one a
    change wrote. *)
Lemma tenant_after r : r ∈ tenant_records t' ↔
  (r ∈ tenant_records t ∧ pr_ID r ∉ map ch_PolicyID (de_Changes d)) ∨
  ∃ c, c ∈ de_Changes d ∧ ch_PolicyID c = pr_ID r ∧ pr_ID r ≠ GovernancePolicyID ∧ live_row (pr_ID r) t' = Some r ∧ is_Some (ch_After c).
Proof.
  rewrite !elem_of_tenant by done. specialize (Hleft (pr_ID r)). unfold left_by in Hleft.
  destruct (list_find _ (de_Changes d)) as [[i c]|] eqn:El; simpl in Hleft.
  - apply list_find_Some in El as (Hc%list_elem_of_lookup_2 & E & _). destruct Hleft as (r' & Hr' & Hdel & _). destruct (shape_of c Hc) as [_ Hk].
    assert (pr_ID r ∈ map ch_PolicyID (de_Changes d)) as Hin by (apply elem_of_map; eauto). split.
    + intros (Hr & Hd & Hg). right. exists c. split_and!; try done. rewrite Hr in Hr'. injection Hr' as <-. rewrite Hdel in Hd. apply bool_decide_eq_false in Hd.
      destruct (ch_After c); [by eexists|]. destruct Hd. by apply Hk.
    + intros [[_ Hno]|(c' & Hc' & E' & Hg & Hr & Ha)]; [done|]. assert (c' = c) as -> by (apply (NoDup_map_inj ch_PolicyID (de_Changes d)); [done..|congruence]).
      split_and!; try done. rewrite Hr in Hr'. injection Hr' as <-. rewrite Hdel. apply bool_decide_eq_false. intros Hdl%Hk. rewrite Hdl in Ha. by destruct Ha.
  - apply list_find_None in El. rewrite Forall_forall in El. rewrite Hleft. split; [intros Hr; left; split; [done|]; intros (c & E & Hc)%elem_of_map; by apply (El c Hc)|].
    intros [[Hr _]|(c & Hc & E & _)]; [done|]. by destruct (El c Hc).
Qed.

Lemma written_row c : c ∈ de_Changes d → is_Some (ch_After c) →
  ∃ r a, live_row (ch_PolicyID c) t' = Some r ∧ pr_ID r = ch_PolicyID c ∧ ch_After c = Some a ∧ PolicyRecord_Policy r = Ok a.
Proof.
  intros Hc Ha. specialize (Hleft (ch_PolicyID c)). unfold left_by in Hleft. rewrite (find_change c Hc) in Hleft. destruct Hleft as (r & Hr & _ & Hput).
  destruct (shape_of c Hc) as [_ Hk]. destruct Hput as (a & Ea & Hm); [intros E%Hk; rewrite E in Ha; by destruct Ha|]. exists r, a. split_and!; [done| |done|].
  - by apply (live_row_spec t' Ht') in Hr as (_ & -> & _).
  - by eapply Hround.
Qed.

Lemma tenant_outcome schema out : Delta.Result (tenantDelta d) (Some (mkSet schema ps)) = Ok out →
  ∃ ps', tenant_policies t' = Ok ps' ∧ rows_named t' ∧ ps' ≡ₚ set_Policies out.
Proof.
  intros Hout.
  assert (∀ r, r ∈ tenant_records t' → ∃ q, PolicyRecord_Policy r = Ok q ∧ p_ID q = pr_ID r) as Hrow.
  { intros r [[Hr _]|(c & Hc & E & _ & Hl & Ha)]%tenant_after.
    - pose proof Hps as Hf. apply res_map_Ok in Hf. apply list_elem_of_lookup in Hr as Hi. destruct Hi as [i Hi].
      destruct (Forall2_lookup_l _ _ _ _ _ Hf Hi) as (q & _ & Eq). exists q. split; [done|by apply Hnamed].
    - destruct (written_row c Hc Ha) as (r' & a & Hr' & _ & Ea & Hd). rewrite E, Hl in Hr'. injection Hr' as <-. exists a. split; [done|]. rewrite <-E. by apply shape_of. }
  assert (∃ ps', tenant_policies t' = Ok ps') as [ps' Hps'].
  { unfold tenant_policies. setoid_rewrite res_map_Ok. clear -Hrow. induction (tenant_records t') as [|r l IH]; [by exists []|].
    destruct IH as [ps' Hl]; [intros; apply Hrow; set_solver|]. destruct (Hrow r) as (q & Hq & _); [set_solver|]. exists (q :: ps'). by constructor. }
  assert (rows_named t') as Hn' by (intros r p Hr Hp; destruct (Hrow r Hr) as (q & Hq & Eq); congruence).
  exists ps'. split_and!; [done|done|].
  assert (∀ c, c ∈ de_Changes (tenantDelta d) ↔ c ∈ de_Changes d ∧ ch_PolicyID c ≠ GovernancePolicyID) as Hten.
  { intros c. unfold tenantDelta, IsReserved. simpl. rewrite elem_of_filter_true, negb_true_iff, bool_decide_eq_false. naive_solver. }
  destruct (Result_changes (tenantDelta d) (mkSet schema ps)) as [_ Hres].
  - apply Forall_forall. intros c [Hc _]%Hten. rewrite Forall_forall in Hsh. by apply Hsh.
  - by apply NoDup_map_filter.
  - simpl. rewrite (tenant_policies_ids t) by done. by apply tenant_NoDup.
  - destruct (Hres out Hout) as [Hndo Hel]. apply NoDup_Permutation; [|by apply (NoDup_fmap_1 p_ID)|].
    { apply (NoDup_fmap_1 p_ID). change (p_ID <$> ps') with (map p_ID ps'). rewrite (tenant_policies_ids t') by done. by apply tenant_NoDup. }
    intros q. rewrite (elem_of_tenant_policies t' ps' q Hps'), Hel. simpl. rewrite (elem_of_tenant_policies t ps q Hps). split.
    + intros (r & [[Hr Hno]|(c & Hc & E & Hg & Hl & Ha)]%tenant_after & Hq).
      * right. split; [by exists r|]. apply not_true_is_false. intros (c & Hc & E%bool_decide_eq_true)%existsb_true. apply Hten in Hc as [Hc _].
        apply Hno, elem_of_map. exists c. by rewrite E, (Hnamed r q).
      * left. exists c. split; [apply Hten; by rewrite E|]. destruct (written_row c Hc Ha) as (r' & a & Hr' & _ & Ea & Hd). rewrite E, Hl in Hr'. congruence.
    + intros [(c & [Hc Hg]%Hten & Ea)|[(r & Hr & Hq) Hto]].
      * destruct (written_row c Hc) as (r & a & Hr & Eid & Ea' & Hd); [by rewrite Ea|]. exists r. split; [|congruence]. apply tenant_after. right. exists c. rewrite Eid. by rewrite Ea.
      * exists r. split; [|done]. apply tenant_after. left. split; [done|]. intros (c & E & Hc)%elem_of_map. rewrite (Hnamed r q Hr Hq) in Hto.
        apply elem_of_tenant in Hr as (_ & _ & Hg); [|done]. assert (Touches (tenantDelta d) (pr_ID r) = true); [|congruence].
        apply existsb_true. exists c. split; [apply Hten; by rewrite <-E|by apply bool_decide_eq_true].
Qed.
End outcome.

(** ** The transaction *)

Lemma LatestSchema_app t rec : tables_ok t → scr_Version rec = (Z.of_nat (length (t_schemas t)) + 1)%Z → LatestSchema (mkTables (t_schemas t ++ [rec]) (t_policies t)) = Ok rec.
Proof.
  intros Ht Hv. unfold LatestSchema. simpl. pose proof (to_versions _ Ht) as Hvs.
  assert (∀ r, r ∈ t_schemas t → (scr_Version r <= scr_Version rec)%Z) as Hle.
  { intros r Hr. assert (scr_Version r ∈ map scr_Version (t_schemas t)) as Hin by (apply elem_of_map; eauto). rewrite Hvs in Hin.
    apply elem_of_map in Hin as (k & -> & Hk%elem_of_seq). lia. }
  assert (∀ l r, (∀ x, x ∈ l → (scr_Version x <= scr_Version rec)%Z) → (scr_Version r <= scr_Version rec)%Z → foldl newest r (l ++ [rec]) = rec) as Hf.
  { clear. induction l as [|x l IH]; intros r Hl Hr; simpl; [unfold newest; by rewrite (proj2 (Z.leb_le _ _) Hr)|]. apply IH; [set_solver|].
    unfold newest. destruct (_ <=? _)%Z; [|done]. apply Hl. set_solver. }
  destruct (t_schemas t) as [|r l] eqn:E; simpl; [done|]. f_equal. apply Hf; [set_solver|]. apply Hle. set_solver.
Qed.

Section transaction.
Context `{GovEnv} `{CEL} `{Digest} (s : GService).

Definition schema_left (d : Delta) (t t' : Tables) : Prop :=
  match SchemaChanged d, de_SchemaAfter d with
  | true, Some after => ∃ rec, LatestSchema t' = Ok rec ∧ Marshal (only_schema after) = Ok (scr_Document rec)
  | _, _ => t_schemas t' = t_schemas t
  end.

Lemma writeSchema_left p at_ g v g' : tables_ok (g_tables g) → writeSchema p at_ g = Ok (v, g') →
  tables_ok (g_tables g') ∧ t_policies (g_tables g') = t_policies (g_tables g) ∧ schema_left (pp_Delta p) (g_tables g) (g_tables g') ∧
  g_revisions g' = g_revisions g ∧ db_decisions (g_db g') = db_decisions (g_db g).
Proof.
  intros Ht. unfold writeSchema, schema_left. destruct (SchemaChanged (pp_Delta p)), (de_SchemaAfter (pp_Delta p)) as [after|];
    try (by intros (l & _ & [= _ <-])%res_bind_Ok).
  intros (rec & g1 & ([r1 t1] & Hput & [= <- <-])%res_bind_Ok & Hr)%tx_bind_Ok. apply tx_bind_Ok in Hr as (u & g2 & [= _ <-] & [= <- <-]).
  apply (PutSchema_Ok _ _ _ _ _ _ _ Ht) in Hput as (Ht1 & Ep & Es & Ev & Hm). simpl in *. split_and!; try done. exists r1. split; [|done].
  pose proof (LatestSchema_app (g_tables g) r1 Ht Ev) as HL. rewrite <-Es, <-Ep in HL. by destruct t1.
Qed.

Lemma schema_left_ext d t t' t'' : t_schemas t'' = t_schemas t' → schema_left d t t' → schema_left d t t''.
Proof. intros E. unfold schema_left, LatestSchema. by rewrite E. Qed.

Lemma left_by_ext cs t0 t t' id : t_policies t0 = t_policies t → left_by cs t t' id → left_by cs t0 t' id.
Proof. intros E. unfold left_by. by rewrite (live_row_policies id t0 t) by done. Qed.

(** The decisions are kept under their identifiers. *)
Definition keyed (g : GDB) : Prop := ∀ k d, db_decisions (g_db g) !! k = Some d → d_ID d = k.

Lemma revalidate_leaves p snapshot now clk at_ g rep g' : revalidate s p snapshot now clk at_ g = Ok (rep, g') →
  g_tables g' = g_tables g ∧ g_revisions g' = g_revisions g ∧
  ∀ D d, keyed g → db_decisions (g_db g) !! D = Some d → d_State d ≠ DecisionPending → db_decisions (g_db g') !! D = Some d.
Proof.
  unfold revalidate. intros ([rp db] & Ha & [= <- <-])%res_bind_Ok. split_and!; [done..|]. intros D d Hk HD Hs. simpl. apply Apply_inv in Ha as (rep1 & Hr & _).
  apply (consider_each_rest _ _ _ _ _ _ _ _ _ _ _ D) in Hr.
  - injection Hr as -> _. done.
  - intros d' Hd' E. unfold openDecisions in Hd'. rewrite filter_bool in Hd'. apply elem_of_sort_by, list_elem_of_filter in Hd' as [Hb Hd'].
    apply elem_of_map in Hd' as ([k x] & -> & Hx%elem_of_map_to_list). simpl in *. apply andb_true_iff in Hb as [Hb%bool_decide_eq_true _].
    rewrite (Hk k x Hx) in E. subst k. congruence.
Qed.

Record applied_tx (p : Proposal) (resolved : Time.t) (g g' : GDB) : Prop := {
  at_ok : tables_ok (g_tables g');
  at_schema : schema_left (pp_Delta p) (g_tables g) (g_tables g');
  at_rows : ∀ id, left_by (de_Changes (pp_Delta p)) (g_tables g) (g_tables g') id;
  at_open : ∃ r, r ∈ g_revisions g ∧ is_open (pp_ID p) r = true;
  at_closed : g_revisions g' = map (λ r, if is_open (pp_ID p) r then closed RApplied resolved r else r) (g_revisions g);
  at_decided : ∀ D d, keyed g → db_decisions (g_db g) !! D = Some d → d_State d ≠ DecisionPending → db_decisions (g_db g') !! D = Some d }.

Lemma apply_tx_left p snapshot clock at_ g rep g' : tables_ok (g_tables g) → Forall (λ c, validateShape c = Ok tt) (de_Changes (pp_Delta p)) →
  NoDup (map ch_PolicyID (de_Changes (pp_Delta p))) → apply_tx s p snapshot clock at_ g = Ok (rep, g') → applied_tx p (clock 2) g g'.
Proof.
  intros Ht Hsh Hnd. unfold apply_tx. intros (v & g1 & Hw & Hr)%tx_bind_Ok. destruct (writeSchema_left _ _ _ _ _ Ht Hw) as (Ht1 & Ep1 & Hs1 & Er1 & Ed1).
  apply tx_bind_Ok in Hr as (u & g2 & Hc & Hr). destruct (write_changes_left _ _ _ _ _ _ _ Ht1 Hsh Hnd Hc) as (Ht2 & (Es2 & Er2 & Ed2) & Hl2).
  apply tx_bind_Ok in Hr as (rp & g3 & Hv & Hr). destruct (revalidate_leaves _ _ _ _ _ _ _ _ Hv) as (Et3 & Er3 & Hd3).
  apply tx_bind_Ok in Hr as (u4 & g4 & Hcl & Hr). apply tx_bind_Ok in Hr as (u5 & g5 & [= _ <-] & [= <- <-]).
  unfold closeProposal in Hcl. rewrite Er3, Er2, Er1 in Hcl. destruct (existsb _ _) eqn:Eo; [|done]. injection Hcl as _ <-.
  split; simpl; rewrite ?Et3, ?Er3, ?Er2, ?Er1; try done.
  - by apply (schema_left_ext _ _ (g_tables g1)).
  - intros id. by apply (left_by_ext _ _ (g_tables g1)).
  - by apply existsb_true in Eo as (r & ? & ?); exists r.
  - intros D d Hk HD Hs. apply Hd3; [unfold keyed; by rewrite Ed2, Ed1|by rewrite Ed2, Ed1|done].
Qed.

(** ** The whole call *)

(** Every stored revision reads as a delta that was valid, of policies the format
    gives back as they are. *)
Definition revisions_ok (g : GDB) : Prop :=
  ∀ r d, r ∈ g_revisions g → UnmarshalDelta (rw_Delta r) = Ok d →
    validate_changes ∅ (de_Changes d) = Ok tt ∧
    ∀ c a doc, c ∈ de_Changes d → ch_After c = Some a → Marshal (one_policy a) = Ok doc → decode_one doc = Ok a.

(** Nobody else writes the policy tables. *)
Definition at_tables (t : Tables) (g : GDB) : Prop := g_tables g = t ∧ revisions_ok g.

Lemma readProposal_row id g p : readProposal id g = Ok p →
  ∃ r, r ∈ g_revisions g ∧ rw_ID r = id ∧ pp_ID p = id ∧ UnmarshalDelta (rw_Delta r) = Ok (pp_Delta p).
Proof.
  unfold readProposal, revision_at. destruct (list_find _ _) as [[i r]|] eqn:E; [|done]. simpl. intros (d & Hd & [= <-])%res_bind_Ok.
  apply list_find_Some in E as (Hr%list_elem_of_lookup_2 & Ei & _). by exists r.
Qed.

Lemma tenantSet_reads t : gspec (at_tables t) tenantSet (λ tn, tenant_policies t = Ok (set_Policies tn)).
Proof.
  unfold tenantSet. do 2 (eapply (gspec_bind _ _ _ (λ _, True)); [by apply gspec_gquery || by apply gspec_lift|intros ? _]).
  eapply gspec_bind; [apply (gspec_gquery _ _ (λ rs, rs = tenant_records t)); by intros g ? [<- _] [= <-]|]. intros rs ->.
  eapply gspec_bind; [apply (gspec_lift _ _ (λ ps, tenant_policies t = Ok ps)); done|]. intros ps Hps. by apply gspec_ret.
Qed.

(** What a revision leaves of the policies [t], given its delta. *)
Definition took_effect (id : string) (d : Delta) (t : Tables) (g' : GDB) : Prop :=
  tables_ok (g_tables g') ∧ rows_named (g_tables g') ∧ schema_left d t (g_tables g') ∧
  (∃ tn out ps, tenant_policies t = Ok (set_Policies tn) ∧ Delta.Result (tenantDelta d) (Some tn) = Ok out ∧
     tenant_policies (g_tables g') = Ok ps ∧ ps ≡ₚ set_Policies out) ∧
  left_by (de_Changes d) t (g_tables g') GovernancePolicyID ∧
  ∀ r, r ∈ g_revisions g' → rw_ID r = id → rw_State r ≠ RPending.

Lemma ApplyRevision_effect t id clock : tables_ok t → rows_named t →
  gpost (at_tables t) (ApplyRevision s id clock) (λ p g', pp_State p = RApplied → took_effect id (pp_Delta p) t g').
Proof.
  intros Ht Hn. unfold ApplyRevision.
  eapply (gpost_bind _ _ _ (λ p, pp_ID p = id ∧ validate_changes ∅ (de_Changes (pp_Delta p)) = Ok tt ∧
    ∀ c a doc, c ∈ de_Changes (pp_Delta p) → ch_After c = Some a → Marshal (one_policy a) = Ok doc → decode_one doc = Ok a)).
  { apply gspec_gquery. intros g p [_ Hrev] (r & Hr & _ & Eid & Hd)%readProposal_row. split; [done|]. by eapply Hrev. }
  intros p (Eid & (Hsh & Hnd & _)%validate_changes_ok & Hround). destruct (negb _); [apply gpost_throw|].
  eapply (gpost_bind _ _ _ (λ _, True)).
  { unfold approval. destruct (bool_decide _); [by apply gspec_ret|]. eapply (gspec_bind _ _ _ (λ _, True)); [by apply gspec_gquery|intros; by apply gspec_ret]. }
  intros [| |st] _; [|apply gpost_throw|apply gpost_map; by intros w ? w' _ _ _ [=]].
  eapply gpost_bind; [apply tenantSet_reads|]. intros tn Htn. eapply gpost_bind; [apply (gspec_lift _ _ (λ out, Delta.Result (tenantDelta (pp_Delta p)) (Some tn) = Ok out)); done|].
  intros out Hout. eapply (gpost_bind _ _ _ (λ _, True)); [by apply gspec_lift|intros snapshot _]. apply gpost_map, gpost_gtxn.
  intros at_ g rep g' [<- _] Htx _. assert (Forall (λ c, validateShape c = Ok tt) (de_Changes (pp_Delta p))) as Hsh' by (eapply Forall_impl; [exact Hsh|by intros c [_ ?]]).
  pose proof (apply_tx_left _ _ _ _ _ _ _ Ht Hsh' Hnd Htx) as [Hok Hsc Hrows _ Hcl _]. destruct tn as [sch ps].
  destruct (tenant_outcome (pp_Delta p) Hsh Hnd Hround (g_tables g) (g_tables g') Ht Hok Hrows Hn ps Htn sch out Hout) as (ps' & Hps' & Hn' & Hperm).
  unfold took_effect. split_and!; try done; [by exists (mkSet sch ps), out, ps'|].
  rewrite Hcl, <-Eid. intros r (r0 & -> & Hr0)%elem_of_map. unfold is_open. simpl. destruct (bool_decide (rw_ID r0 = pp_ID p)) eqn:E1, (bool_decide (rw_State r0 = RPending)) eqn:E2; simpl; try done.
  - intros _. by apply bool_decide_eq_false in E2.
  - intros E. by apply bool_decide_eq_false in E1.
  - intros _. by apply bool_decide_eq_false in E2.
Qed.

(** ** The approval *)

Definition decided (D : string) (g : GDB) : Prop :=
  keyed g ∧ ∃ d, db_decisions (g_db g) !! D = Some d ∧ d_State d = DecisionAllowed.

Lemma decided_ext D g g' : db_decisions (g_db g') = db_decisions (g_db g) → decided D g → decided D g'.
Proof. unfold decided, keyed. by intros ->. Qed.

Lemma on_tables_decided D {A} (m : Tx_ Tables A) : tx_keeps (decided D) (on_tables m).
Proof. intros g a g' Hd (x & _ & [= _ <-])%res_bind_Ok. split; [|done]. by apply (decided_ext D g). Qed.
Lemma note_decided D k sb pl : tx_keeps (decided D) (note k sb pl).
Proof. apply tx_spec_write. intros g. by apply decided_ext. Qed.
Lemma versions_decided D ps : tx_keeps (decided D) (tx_write (with_db (λ db, mkDB (db_decisions db) (db_progress db) (db_approvals db) (db_audit db) (ps db)))).
Proof. apply tx_spec_write. intros g. by apply decided_ext. Qed.

Lemma write_changes_decided D p v at_ cs : tx_keeps (decided D) (write_changes p v at_ cs).
Proof.
  induction cs as [|c cs IH]; simpl; [by apply tx_spec_ret|]. eapply (tx_spec_bind _ _ _ (λ _, True)); [|by intros].
  unfold writeChange, delete_policy, put_policy. destruct (bool_decide _).
  - eapply (tx_spec_bind _ _ _ (λ _, True)); [|intros; apply note_decided]. eapply tx_spec_bind; [apply on_tables_decided|intros rec _].
    eapply tx_spec_bind; [apply (versions_decided _ (λ db, db_policies db ++ [(pr_ID rec, pr_Version rec)]))|intros; by apply tx_spec_ret].
  - eapply (tx_spec_bind _ _ _ (λ _, True)); [by apply tx_spec_reading|intros ov _]. eapply (tx_spec_bind _ _ _ (λ _, True)); [|intros; apply note_decided].
    eapply tx_spec_bind; [apply on_tables_decided|intros rec _].
    eapply tx_spec_bind; [apply (versions_decided _ (λ db, db_policies db ++ [(pr_ID rec, pr_Version rec)]))|intros; by apply tx_spec_ret].
Qed.

Lemma writeSchema_decided D p at_ : tx_keeps (decided D) (writeSchema p at_).
Proof.
  unfold writeSchema. destruct (SchemaChanged (pp_Delta p)), (de_SchemaAfter (pp_Delta p)); try (by intros g a g' Hd (l & _ & [= _ <-])%res_bind_Ok).
  eapply tx_spec_bind; [apply on_tables_decided|intros rec _]. eapply tx_spec_bind; [apply note_decided|intros; by apply tx_spec_ret].
Qed.

Lemma apply_tx_decided D p snapshot clock at_ g rep g' : decided D g → apply_tx s p snapshot clock at_ g = Ok (rep, g') →
  ∃ d, db_decisions (g_db g') !! D = Some d ∧ d_State d = DecisionAllowed.
Proof.
  intros Hd. unfold apply_tx. intros (v & g1 & Hw & Hr)%tx_bind_Ok. apply (writeSchema_decided D) in Hw as [Hd1 _]; [|done].
  apply tx_bind_Ok in Hr as (u & g2 & Hc & Hr). apply (write_changes_decided D) in Hc as [[Hk (d & HD & Hs)] _]; [|done].
  apply tx_bind_Ok in Hr as (rp & g3 & Hv & Hr). destruct (revalidate_leaves _ _ _ _ _ _ _ _ Hv) as (_ & _ & Hd3).
  apply tx_bind_Ok in Hr as (u4 & g4 & Hcl & Hr). apply tx_bind_Ok in Hr as (u5 & g5 & [= _ <-] & [= <- <-]).
  unfold closeProposal in Hcl. destruct (existsb _ _); [|done]. injection Hcl as _ <-. exists d. split; [|done]. apply Hd3; [done..|]. by rewrite Hs.
Qed.

(** A query reads the database it leaves. *)
Lemma gquery_run {A} (f : GDB → result A) w a w' : gquery f w = (Ok a, w') → f (gw_db w') = Ok a ∧ gw_steps w' = tail (gw_steps w).
Proof.
  unfold gquery, gtxn, next_gstep. destruct (gw_steps w) as [|st l]; simpl.
  - destruct (f (gw_db w)) eqn:E; simpl; [|done]. intros [= <- <-]. by split.
  - destruct (gs_fault st); simpl; try done; destruct (f _) eqn:E; simpl; try done. intros [= <- <-]. by split.
Qed.

Lemma grely_tail (I : GDB → Prop) w w' : gw_steps w' = tail (gw_steps w) → grely I w → grely I w'.
Proof. unfold grely. intros ->. destruct (gw_steps w); [done|]. by intros [_ ?]%Forall_cons. Qed.
End transaction.
End revision.

(** C6. A revision takes effect as a whole.  Say the tables are well formed, each row
    holds the policy it is named after, the stored deltas were valid and of policies the
    format gives back, and nobody else writes the policies meanwhile.  Then a call of
    [Apply] that answers that a revision was applied leaves the tenant's policies
    exactly those the delta makes of the ones before, the newest schema the delta's if
    it changes it, the reserved policy as the delta says, and the revision closed. *)
Theorem revision_takes_effect `{Codec, GovEnv, CEL, Digest} s id clock w p w' :
  tables_ok (g_tables (gw_db w)) → rows_named (g_tables (gw_db w)) → revisions_ok (gw_db w) → grely (at_tables (g_tables (gw_db w))) w →
  ApplyRevision s id clock w = (Ok p, w') → pp_State p = RApplied →
  took_effect id (pp_Delta p) (g_tables (gw_db w)) (gw_db w').
Proof. intros Ht Hn Hrev Hr Ha. by apply (ApplyRevision_effect s _ id clock Ht Hn w p w'). Qed.

(** C22. A revision that has a decision is applied only when the decision is allowed.
    If [Apply] answers that it applied a revision carrying a decision, that decision is
    allowed when the call ends, as long as nobody turns an allowed decision into
    something else meanwhile. *)
Theorem applied_when_allowed `{Codec, GovEnv, CEL, Digest} s id clock w p w' :
  keyed (gw_db w) → grely keyed w → (∀ D, grely (decided D) w) →
  ApplyRevision s id clock w = (Ok p, w') → pp_State p = RApplied → pp_DecisionID p ≠ "" →
  ∃ d, db_decisions (g_db (gw_db w')) !! pp_DecisionID p = Some d ∧ d_State d = DecisionAllowed.
Proof.
  intros Hk Hr HD Ha Hst Hne. unfold ApplyRevision, g_bind in Ha. destruct (GetRevision id w) as [[q|e] w1] eqn:E1; [|done]. pose proof E1 as Hq.
  apply gquery_run in Hq as [_ Hs1]. destruct (gspec_gquery keyed (readProposal id) (λ _, True) ltac:(done) w Hk Hr) as (Hk1 & Hr1 & _).
  unfold GetRevision in E1. rewrite E1 in Hk1, Hr1. simpl in Hk1, Hr1. destruct (negb _); [done|]. unfold approval, g_bind in Ha.
  case_bool_decide as Ed; simpl in Ha.
  { exfalso. apply Hne. assert (pp_DecisionID p = pp_DecisionID q) as ->; [|done]. revert Ha. unfold g_ret. destruct (tenantSet w1) as [[tn|?] w2]; [|done].
    unfold g_lift. destruct (Delta.Result _ _); [|done]. destruct (snapshotOf _ _); [|done]. destruct (gtxn _ w2) as [[rep|?] w3]; [|done]. by intros [= <- _]. }
  destruct (gquery _ w1) as [[d|e] w2] eqn:E2; [|done]. pose proof E2 as Hd. apply gquery_run in Hd as [Hd Hs2]. simpl in Ha.
  destruct (gspec_gquery keyed (λ g, GetDecision (pp_DecisionID q) (g_db g)) (λ _, True) ltac:(done) w1 Hk1 Hr1) as (Hk2 & _ & _). rewrite E2 in Hk2. simpl in Hk2.
  unfold GetDecision in Hd. destruct (db_decisions _ !! pp_DecisionID q) as [d'|] eqn:El; [|done]. injection Hd as ->.
  destruct (d_State d) eqn:Es; try done; unfold g_ret in Ha;
    try (by unfold reject, g_bind in Ha; destruct (gtxn _ w2) as [[?|?] w3]; [|done]; injection Ha as <- _).
  assert (decided (pp_DecisionID q) (gw_db w2)) as Hdec by (split; [done|eauto]).
  assert (grely (decided (pp_DecisionID q)) w2) as Hr2 by (apply (grely_tail _ w1); [done|]; by apply (grely_tail _ w)).
  assert (gpost (decided (pp_DecisionID q)) (let^ tenant := tenantSet in let^ outcome := g_lift (Delta.Result (tenantDelta (pp_Delta q)) (Some tenant)) in
    let^ snapshot := g_lift (snapshotOf outcome (pp_ID q)) in let^ report := gtxn (apply_tx s q snapshot clock) in g_ret (with_outcome RApplied (Some report) q))
    (λ p g', pp_DecisionID p = pp_DecisionID q ∧ ∃ d, db_decisions (g_db g') !! pp_DecisionID q = Some d ∧ d_State d = DecisionAllowed)) as Hpost.
  { eapply (gpost_bind _ _ _ (λ _, True)).
    { unfold tenantSet. repeat (eapply (gspec_bind _ _ _ (λ _, True)); [by apply gspec_gquery || by apply gspec_lift|intros ? _]). by apply gspec_ret. }
    intros tn _. do 2 (eapply (gpost_bind _ _ _ (λ _, True)); [by apply gspec_lift|intros ? _]). apply gpost_map, gpost_gtxn.
    intros at_ g rep g' Hg Htx. split; [done|]. by eapply apply_tx_decided. }
  destruct (Hpost w2 p w' Hdec Hr2 Ha) as [-> Hfin]. done.
Qed.
