(* ===== verification/GovDemo.v ===== *)
(** * Governance at work

    A run of the operations of Governance.v and Proposals.v on a small installation, the
    witnesses of their theorems, and what happens to a revision whose decision was
    never opened. *)
From S2P Require Import Prelude GoLib Policy Cel CelRef Engine Validate Delta Weakening Json Store World.
From S2P Require Import Challenge Quorum Delay Service StoreInv ServiceSafe ServiceInv ServiceSpec Revalidate RevalidateRun PolicyStore PolicyStoreSpec ApplyPlan.
From S2P Require Import ApplyPlanSpec GovWorld Governance Proposals LockSpec RevisionSpec.
Import Strings.

Module GovDemo.
#[local] Existing Instance toy_digest.

Definition q2 : Quorum := mkQuorum 2%Z (mkApproverSet ["alice"; "bob"; "carol"] "" None).
Definition always : Node := Compare (FieldRef RoleContext "delta_digest") OpNe (Lit (mkLiteral TypeString (VString ""))).
Definition extra : Policy := mkPolicy "extra" "" EntityAdmin EntityPolicySet EntityRevision [ActionRevise] always [].

Definition documents : table :=
  [(Normalize (only_schema GovernanceSchema), "schema"); (Normalize (one_policy (GovernancePolicy [])), "solo");
   (Normalize (one_policy (GovernancePolicy [CQuorum q2])), "quorum"); (Normalize (one_policy extra), "extra")].
#[local] Instance codec : Codec := table_codec documents.
#[local] Instance env : GovEnv := {| hashToken t := "hash of " +:+ t; delta_digest _ := "digest"; Finding_string _ := "" |}.
#[local] Instance yaml : Yaml := {| yaml_kinds _ := Err []; yaml_adoptions _ := Err [] |}.

Definition service : GService :=
  match NewGovernance (mkGService Demo.registry RevisionDemo.revalidator None (mkFloor 1%Z false) 0%Z 0%Z AuthoringUnset (mkRate 0%Z 0%Z)
                  (mkPayloadLimits 0%Z 0%Z 0%Z 0%Z 0%Z 0%Z) None (λ _, "") 0%Z) with
  | Ok s => s
  | Err _ => mkGService [] RevisionDemo.revalidator None DefaultFloor 0%Z 0%Z AuthoringUnset DefaultRate DefaultPayloadLimits None (λ _, "") 0%Z
  end.
Definition clock (_ : nat) : Time.t := Demo.t0.

Definition empty : GWorld := mkGWorld (mkGDB (empty_db []) (mkTables [] []) [] None) [] ["r1"; "d1"; "r2"; "d2"; "r3"; "d3"] ["token"].
Definition installed : GWorld := Eval vm_compute in (Install Demo.t0 empty).2.
Definition lock : LockRequest := mkLockRequest (Some (Demo.user "dave")) "token" q2.
Definition locking : result unit * GWorld := Eval vm_compute in Lock lock Demo.t0 installed.
Definition locked_world : GWorld := Eval vm_compute in locking.2.

(** Dave proposes a policy, and alice and bob approve it. *)
Definition add_extra : Delta := mkDelta [mkChange ChangeAdd "extra" None (Some extra) no_origin no_origin] None None.
Definition proposal : ProposeRequest := mkProposeRequest (Some (Demo.user "dave")) add_extra no_origin ModeUnset "" 0%Z.
Definition proposed : GWorld := Eval vm_compute in (Propose service proposal clock locked_world).2.

Definition approvals : list call :=
  [CallSubmit (mkSubmission (Some (Demo.user "alice")) "d1" 0%Z None) Demo.t0; CallSubmit (mkSubmission (Some (Demo.user "dave")) "d1" 0%Z None) Demo.t0;
   CallSubmit (mkSubmission (Some (Demo.user "bob")) "d1" 0%Z None) Demo.t0].
Definition decider : Service := revision_service service (mkPolicyRecord "" 2 1 OriginForm "" "" true false 0%Z "" None) (mkSnapshot GovernanceSchema []).
Definition voted (n : nat) : GWorld :=
  (inner (λ w, (Ok tt, run_calls decider (take n approvals) (mkWorld (w_db w) [] ["v1"; "v2"; "v3"; "v4"]))) proposed).2.
Definition approved : GWorld := Eval vm_compute in voted 3.

Definition in_force (w : GWorld) : list (string * string) := map (λ r, (pr_ID r, pr_Document r)) (EffectivePolicies [] (g_tables (gw_db w))).
Definition revisions (w : GWorld) : list (string * option string * RState) := map (λ r, (rw_ID r, rw_DecisionID r, rw_State r)) (g_revisions (gw_db w)).

(** One approval and the proposer's own are not enough; the second approver's is. *)
Example one_short : (let w := (Reconcile service clock (voted 2)).2 in (revisions w, in_force w)) =
  ([("r1", Some "d1", RPending)], [("stamp.governance", "quorum")]).
Proof. vm_compute. reflexivity. Qed.
Example takes_effect : (let w := (Reconcile service clock approved).2 in (revisions w, in_force w)) =
  ([("r1", Some "d1", RApplied)], [("extra", "extra"); ("stamp.governance", "quorum")]).
Proof. vm_compute. reflexivity. Qed.

(** ** A revision with no decision

    The database goes away after the revision is inserted: its decision is not opened
    and it is not discarded either.  The next reconciliation applies it, in quorum mode,
    with no decision and no approval. *)
Definition step (f : fault) : gstep := mkGStep (λ g, g) f 0%Z [].
Definition cut_short : GWorld := Eval vm_compute in (Propose service proposal clock
  (mkGWorld (gw_db locked_world) (replicate 7 (step NoFault) ++ [step Lost; step Lost]) (gw_ids locked_world) [])).2.

Example applied_without_approval :
  revisions cut_short = [("r1", None, RPending)] ∧ map_to_list (db_decisions (g_db (gw_db cut_short))) = [] ∧ db_approvals (g_db (gw_db cut_short)) = [] ∧
  let w := (Reconcile service clock cut_short).2 in
  revisions w = [("r1", None, RApplied)] ∧ in_force w = [("extra", "extra"); ("stamp.governance", "quorum")].
Proof. vm_compute. repeat split. Qed.

(** A proposal of solo mode left open in the same way outlives the lock, and applying it
    takes the quorum out. *)
Definition back_to_solo : ProposeRequest :=
  mkProposeRequest (Some (Demo.user "dave"))
    (mkDelta [mkChange ChangeModify GovernancePolicyID (Some (GovernancePolicy [])) (Some (GovernancePolicy [])) no_origin no_origin] None None) no_origin ModeUnset "token" 0%Z.
Definition left_open : GWorld := (Propose service back_to_solo clock
  (mkGWorld (gw_db installed) (replicate 8 (step NoFault) ++ [step Lost; step Lost]) (gw_ids installed) [])).2.
Definition relocked : GWorld := (Lock lock Demo.t0 (mkGWorld (gw_db left_open) [] (gw_ids left_open) [])).2.

Example lock_undone :
  in_force left_open = [("stamp.governance", "solo")] ∧ in_force relocked = [("stamp.governance", "quorum")] ∧ revisions relocked = [("r1", None, RPending)] ∧
  in_force (Reconcile service clock relocked).2 = [("stamp.governance", "solo")].
Proof. vm_compute. repeat split. Qed.

(** ** The hypotheses of the theorems hold here *)

Lemma documents_distinct : NoDup (map snd documents).
Proof. apply (bool_decide_unpack _). vm_compute. exact I. Qed.

Lemma decode_marshalled p doc q : Marshal (one_policy p) = Ok doc → decode_one doc = Ok q → q = normalizePolicy p.
Proof.
  intros Hm. unfold decode_one. assert (Decode doc = Ok (Normalize (one_policy p))) as -> by exact (table_round_trip documents _ doc documents_distinct Hm). simpl. by intros [= <-].
Qed.

Lemma demo_codec_keeps : codec_keeps.
Proof.
  intros p doc q Hm ->%(decode_marshalled p doc q Hm). split; [done|]. unfold has_quorum. simpl. intros [x Hx].
  assert (∃ c, c ∈ omap as_quorum (p_Challenges p)) as (c & Hc) by (destruct (omap _ _) as [|c l]; [done|]; exists c; set_solver).
  apply list_elem_of_omap in Hc as (y & Hy & Ey). destruct y; try done.
  assert (normalizeChallenge (CQuorum q) ∈ sort_by challengeRank le (map normalizeChallenge (p_Challenges p))) as Hin by (apply elem_of_sort_by, elem_of_map; eauto).
  destruct (omap as_quorum (sort_by _ _ _)) as [|z l] eqn:E; [|by eexists]. exfalso. apply (not_elem_of_nil (default q (as_quorum (normalizeChallenge (CQuorum q))))).
  rewrite <-E. apply list_elem_of_omap. eexists. split; [exact Hin|done].
Qed.

Lemma installed_ok : unlocked_ok (gw_db installed).
Proof.
  split; [|by intros r Hr%not_elem_of_nil].
  split; simpl; [apply NoDup_singleton|intros r ->%list_elem_of_singleton; done|intros r ->%list_elem_of_singleton; set_solver| |done].
  intros r ->%list_elem_of_singleton. split; [|done]. intros _ r ->%list_elem_of_singleton. done.
Qed.

Definition later : list gop := [OpPropose proposal clock; OpReconcile clock; OpLock lock Demo.t0; OpWarn 0%Z Demo.t0; OpExport (Some (Demo.user "dave"))].

Lemma lock_is_final_witness :
  revisions (run_ops service later locked_world) = [("r1", Some "d1", RPending)] ∧
  policy_locked (g_tables (gw_db (run_ops service later locked_world))) ∧
  ∀ token, ∃ e, (Verify token (run_ops service later locked_world)).1 = Err e.
Proof.
  split; [vm_compute; reflexivity|].
  destruct (lock_is_final service lock Demo.t0 installed locked_world later) as (H1 & _ & _ & H2); [exact demo_codec_keeps|exact installed_ok|constructor| |constructor|by split].
  vm_compute. reflexivity.
Defined.

Lemma approved_tables : tables_ok (g_tables (gw_db approved)).
Proof.
  split; [|intros r Hr; simpl in Hr; repeat (apply elem_of_cons in Hr as [->|Hr]; [try done; vm_compute; set_solver|]); by apply not_elem_of_nil in Hr..| |done].
  - apply (bool_decide_unpack _). vm_compute. exact I.
  - intros r Hr. simpl in Hr. repeat (apply elem_of_cons in Hr as [->|Hr]); [split; [done|]|split; [|done]|by apply not_elem_of_nil in Hr].
    + intros Hmax. specialize (Hmax (mkPolicyRecord "stamp.governance" 2 1 OriginForm "quorum" "quorum" true false 0%Z "dave" None)). simpl in Hmax.
      assert (2 <= 1)%Z; [|lia]. apply Hmax; [|done]. simpl. set_solver.
    + intros _ r Hr. simpl in Hr. by repeat (apply elem_of_cons in Hr as [->|Hr]; [done|]); apply not_elem_of_nil in Hr.
Qed.

Lemma approved_named : rows_named (g_tables (gw_db approved)).
Proof. intros r p Hr. vm_compute in Hr. by apply not_elem_of_nil in Hr. Qed.

Lemma approved_revisions : revisions_ok (gw_db approved).
Proof.
  intros r d ->%list_elem_of_singleton Hd. vm_compute in Hd. injection Hd as <-. split; [vm_compute; reflexivity|].
  intros c a doc ->%list_elem_of_singleton Ha Hm. injection Ha as <-. vm_compute in Hm. injection Hm as <-. vm_compute. reflexivity.
Qed.

Definition applying : result Proposal * GWorld := Eval vm_compute in ApplyRevision service "r1" clock approved.
Definition applied_proposal : Proposal := Eval vm_compute in match applying.1 with Ok p => p | Err _ => proposal_of "" (Demo.user "") OriginForm (mkDeltaJSON [] "" "") ModeUnset (mkAssessment ModeSolo add_extra [] None None None 0) 0%Z end.

Lemma revision_takes_effect_witness :
  applying.1 = Ok applied_proposal ∧ took_effect "r1" (pp_Delta applied_proposal) (g_tables (gw_db approved)) (gw_db applying.2).
Proof.
  split; [reflexivity|]. apply (revision_takes_effect service "r1" clock approved applied_proposal applying.2).
  - exact approved_tables.
  - exact approved_named.
  - exact approved_revisions.
  - constructor.
  - vm_compute. reflexivity.
  - reflexivity.
Defined.

Lemma applied_when_allowed_witness : ∃ d, db_decisions (g_db (gw_db applying.2)) !! "d1" = Some d ∧ d_State d = DecisionAllowed.
Proof.
  apply (applied_when_allowed service "r1" clock approved applied_proposal applying.2).
  - intros k d Hd. assert (map_Forall (λ k d, d_ID d = k) (db_decisions (g_db (gw_db approved)))) as Hall; [|exact (Hall k d Hd)].
    apply (bool_decide_unpack _). vm_compute. exact I.
  - constructor.
  - constructor.
  - vm_compute. reflexivity.
  - reflexivity.
  - discriminate.
Defined.
End GovDemo.
