(* ===== verification/ExportSpec.v ===== *)
(** * Export, then apply

    What internal/policy/revision/export.go exports, applied to the installation it came
    from by internal/policy/revision/apply.go, is no change.  The export is of the stored
    documents, each in a file of its own; the apply joins the files to one stream and
    reads that.  What this asks of the YAML package beyond [YamlText] is the class
    [YamlStream], with a reference instance at the end. *)
From Stdlib Require Import Ascii.
From S2P Require Import Prelude GoLib Policy Cel CelRef Validate Delta PolicyStore PolicyStoreSpec ApplyPlan ApplyPlanSpec Json World.
From S2P Require Import Text Encode Decode CodecRead PolicyCodec Challenge Quorum Service Governance Proposals GovWorld Revalidate.
Import Strings.

(** Texts of one mapping each, as the encoder wrote them, joined as the program joins
    them, read as the mappings in order; and a shallow read of such a text finds the
    mapping's kind. *)
Class YamlStream `{YamlText, Yaml} := {
  yaml_read_joined (ms : list mapBuilder) (texts : list string) :
    Forall2 (λ m text, yaml_write [documentOf (mapping m)] = Ok text) ms texts →
    yaml_read (foldl appendDocument "" texts) = (map (λ m, resolved (documentOf (mapping m))) ms, false);
  yaml_kinds_written (m : mapBuilder) (text k : string) :
    yaml_write [documentOf (mapping m)] = Ok text → NoDup (map (λ kv, Value kv.1) (entries m)) → present (entries m) "kind" = Some (str k) →
    yaml_kinds text = Ok [k] }.

(** ** Documents of one mapping *)

Ltac split_ifs := repeat match goal with |- context [if ?b then _ else _] => destruct b end.
Ltac known_mapping :=
  unfold envelope, putStringIf, putString, put, newMapping, str, scalar; split_ifs;
  (split; [apply (bool_decide_unpack _); vm_compute; exact I|vm_compute; reflexivity]).

Lemma policy_mapping `{GoFmt} p : ∃ m, policyDocumentNode p = documentOf (mapping m) ∧
  NoDup (map (λ kv, Value kv.1) (entries m)) ∧ present (entries m) "kind" = Some (str KindPolicy).
Proof.
  unfold policyDocumentNode. eexists. split; [reflexivity|].
  generalize (stringSequenceNode (p_Actions p)), (sequence (map challengeNode (p_Challenges p))), (p_ID p), (p_Description p), (p_Subject p), (p_Resource p), (p_Context p).
  intros acts chs id desc subj res ctx. destruct (p_Condition p) as [|op ops|l op r|l c b]; [|generalize (conditionNode (Logic op ops))|generalize (conditionNode (Compare l op r))|generalize (conditionNode (Member l c b))];
    try intros cond; known_mapping.
Qed.

Lemma schema_mapping s : ∃ m, schemaDocumentNode s = documentOf (mapping m) ∧
  NoDup (map (λ kv, Value kv.1) (entries m)) ∧ present (entries m) "kind" = Some (str KindSchema).
Proof.
  unfold schemaDocumentNode. eexists. split; [reflexivity|].
  generalize (sequence (map entityNode (sch_Entities s))), (sequence (map actionNode (sch_Actions s))), (sequence (map sourceNode (sch_Sources s))).
  intros es acts srcs. known_mapping.
Qed.

(** ** What the tables hold *)

Section tables.
Context `{GoFmt, YamlText} (hash : string → string).
#[local] Instance codec : Codec := policy_codec hash.

(** A write whose policy or schema the format represents, and whose schema is not empty. *)
Definition in_format (w : write) : Prop :=
  match w with
  | WSchema _ s _ _ => encodable (Normalize (only_schema s)) = true ∧ schemaEmpty (normalizeSchema s) = false
  | WPut _ i => ∀ p, pi_Policy i = Some p → encodable (Normalize (one_policy p)) = true
  | WDelete _ _ _ => True
  end.

(** The document of a row is a policy of the row's identifier, as the encoder writes it. *)
Definition policy_of (doc id : string) (p : Policy) : Prop :=
  encodable (Normalize (one_policy p)) = true ∧ Encode (one_policy p) = Ok doc ∧ p_ID p = id.
Definition schema_of (doc : string) (s : Schema) : Prop :=
  encodable (Normalize (only_schema s)) = true ∧ schemaEmpty (normalizeSchema s) = false ∧ Encode (only_schema s) = Ok doc.
Definition authored (t : Tables) : Prop :=
  tables_ok t ∧ (∀ r, r ∈ t_policies t → ∃ p, policy_of (pr_Document r) (pr_ID r) p) ∧ (∀ r, r ∈ t_schemas t → ∃ s, schema_of (scr_Document r) s).

Lemma authored_written now rec t : authored t → tables_ok (written now rec t) → (∃ p, policy_of (pr_Document rec) (pr_ID rec) p) → authored (written now rec t).
Proof.
  intros (_ & Hp & Hs) Ht Hrec. split_and!; [done| |done]. intros r [Hr| ->%list_elem_of_singleton]%elem_of_app; [|done].
  apply elem_of_supersede in Hr as [[Hr _]|(r0 & Hr0 & _ & ->)]; [by apply Hp|by apply (Hp r0)].
Qed.

Lemma exec_authored w t : authored t → in_format w → authored (exec w t).
Proof.
  intros Ha Hf. pose proof Ha as (Ht & Hp & Hs). destruct w as [now sch o au|now i|now id au]; simpl in *.
  - destruct (PutSchema now sch o au t) as [[rec t']|] eqn:E; [|done]. apply PutSchema_Ok in E as (Ht' & Ep & Es & _ & Hw); [|done].
    split_and!; [done|by rewrite Ep|]. rewrite Es. intros r [Hr| ->%list_elem_of_singleton]%elem_of_app; [by apply Hs|]. exists sch. by destruct Hf.
  - destruct (PutPolicy now i t) as [[rec t']|] eqn:E; [|done]. pose proof (PutPolicy_Ok now i t rec t' Ht E) as (p & doc & Ei & Hw & Hd & _ & [Ht' _ Hid _ _]).
    unfold PutPolicy in E. rewrite Ei in E. destruct (negb _); [done|]. apply res_bind_Ok in E as (doc' & _ & E). destruct (_ && _ && _); [done|].
    apply res_bind_Ok in E as (t1 & Hins & [= <- <-]). match type of Hins with insert_policy ?r _ = _ => set (rec0 := r) in *; change (p_ID p) with (pr_ID rec0) in Hins end.
    apply insert_policy_Ok in Hins as [-> _]. apply authored_written; [done..|]. exists p. split_and!; [by apply Hf|simpl in *; by rewrite Hd|done].
  - destruct (DeletePolicy now id au t) as [[rec t']|] eqn:E; [|done]. pose proof (DeletePolicy_Ok now id au t rec t' Ht E) as (_ & [Ht' _ _ _ _]).
    unfold DeletePolicy, EffectivePolicy in E. destruct (live_row id t) as [old|] eqn:Eo; [|done]. apply (live_row_spec t Ht) in Eo as (Ho & Hid & _). simpl in E.
    apply res_bind_Ok in E as (t1 & Hins & [= <- <-]). match type of Hins with insert_policy ?r _ = _ => set (rec0 := r) in * end.
    assert (id = pr_ID rec0) as Eid by (by rewrite <-Hid). rewrite Eid in Hins. apply insert_policy_Ok in Hins as [-> _]. apply authored_written; [done..|]. by apply (Hp old).
Qed.

Lemma run_authored ws : Forall in_format ws → authored (run_from empty_tables ws).
Proof.
  assert (∀ t, authored t → Forall in_format ws → authored (run_from t ws)) as Hg.
  { induction ws as [|w ws IH]; intros t Ha Hf; [done|]. apply Forall_cons in Hf as [Hw Hf]. by apply IH; [apply exec_authored|]. }
  apply Hg. split_and!; [apply empty_implements|intros r Hr; by apply elem_of_nil in Hr..].
Qed.

(** *** Reading a row *)

Lemma decode_stored p doc id q : policy_of doc id p → decode_one doc = Ok q → q = normalizePolicy p.
Proof.
  intros (He & Hw & _) Hq. unfold decode_one, PolicyStore.Decode in Hq. cbn [DecodeWithLimits codec policy_codec] in Hq.
  destruct (decode_with_limits DefaultLimits doc) as [s|] eqn:E; [|done].
  assert (fits DefaultLimits doc) as Hf by (unfold decode_with_limits in E; unfold fits; by destruct (readCapped _ _)).
  rewrite (decode_encode DefaultLimits _ _ He Hw Hf) in E. injection E as <-. by injection Hq as <-.
Qed.

Lemma decode_schema s doc q : schema_of doc s → DecodeSchema doc = Ok q → q = normalizeSchema s.
Proof.
  intros (He & _ & Hw) Hq. unfold DecodeSchema, PolicyStore.Decode in Hq. cbn [DecodeWithLimits codec policy_codec] in Hq.
  destruct (decode_with_limits DefaultLimits doc) as [set|] eqn:E; [|done].
  assert (fits DefaultLimits doc) as Hf by (unfold decode_with_limits in E; unfold fits; by destruct (readCapped _ _)).
  rewrite (decode_encode DefaultLimits _ _ He Hw Hf) in E. injection E as <-. by injection Hq as <-.
Qed.

Lemma foldl_newest (r : SchemaRecord) l : foldl newest r l ∈ r :: l.
Proof.
  revert r. induction l as [|x l IH]; intros r; simpl; [set_solver|]. specialize (IH (newest r x)). unfold newest in *.
  destruct (scr_Version r <=? scr_Version x)%Z; set_solver.
Qed.

(** The records an export and an apply look at. *)
Lemma tenants t : authored t → ∃ ps, Forall2 (λ r p, policy_of (pr_Document r) (pr_ID r) p ∧ IsReserved (p_ID p) = false) (tenant_records t) ps.
Proof.
  intros (_ & Hp & _). assert (∀ r, r ∈ tenant_records t → ∃ p, policy_of (pr_Document r) (pr_ID r) p ∧ IsReserved (p_ID p) = false) as Hr.
  { intros r Hr. unfold tenant_records in Hr. apply list_elem_of_In, filter_In in Hr as [Hr Hn]. apply list_elem_of_In in Hr.
    unfold EffectivePolicies in Hr. apply elem_of_sort_by, list_elem_of_In, filter_In in Hr as [Hr _]. destruct (Hp r) as [p Hpo]; [by apply list_elem_of_In|].
    exists p. split; [done|]. destruct Hpo as (_ & _ & ->). by apply negb_true_iff. }
  induction (tenant_records t) as [|r rs IH]; [by exists []|]. destruct (Hr r) as [p Hpr]; [set_solver|]. destruct IH as [ps Hps]; [set_solver|]. exists (p :: ps). by constructor.
Qed.

Lemma tenant_ids t : tables_ok t → NoDup (map pr_ID (tenant_records t)).
Proof.
  intros Ht. assert (NoDup (tenant_records t)) as Hnd.
  { unfold tenant_records, EffectivePolicies. apply NoDup_ListNoDup, List.NoDup_filter, NoDup_ListNoDup. rewrite sort_by_Permutation.
    apply NoDup_ListNoDup, List.NoDup_filter, NoDup_ListNoDup. apply (NoDup_fmap_1 row_key), to_keys, Ht. }
  apply NoDup_fmap_2_strong; [|done]. intros r r' Hr Hr' E.
  assert (∀ x, x ∈ tenant_records t → live_row (pr_ID x) t = Some x) as Hl.
  { intros x Hx. unfold tenant_records, EffectivePolicies in Hx. apply list_elem_of_In, filter_In in Hx as [Hx _]. apply list_elem_of_In, elem_of_sort_by, list_elem_of_In, filter_In in Hx as [Hx Hb].
    apply andb_true_iff in Hb as [Hb _]. apply (live_row_spec t Ht). split_and!; [by apply list_elem_of_In|done|]. unfold effective in Hb. by apply andb_true_iff in Hb as [? _]. }
  apply Hl in Hr, Hr'. rewrite E in Hr. congruence.
Qed.
End tables.

(** ** Calls that read *)

(** The tables hold [t], no call fails, and others leave the tables alone meanwhile. *)
Definition settled (t : Tables) (w : GWorld) : Prop :=
  g_tables (gw_db w) = t ∧ Forall (λ s, gs_fault s = NoFault ∧ ∀ g, g_tables (gs_env s g) = g_tables g) (gw_steps w).

(** A computation that leaves them so. *)
Definition settles (t : Tables) {A} (m : G A) : Prop := ∀ w, settled t w → settled t (m w).2.

Lemma settles_ret t {A} (a : A) : settles t (g_ret a).
Proof. by intros w. Qed.
Lemma settles_throw t {A} e : settles t (@g_throw A e).
Proof. by intros w. Qed.
Lemma settles_lift t {A} (r : result A) : settles t (g_lift r).
Proof. by intros w. Qed.
Lemma settles_bind t {A B} (m : G A) (k : A → G B) : settles t m → (∀ a, settles t (k a)) → settles t (g_bind m k).
Proof. intros Hm Hk w Hw. unfold g_bind. specialize (Hm w Hw). destruct (m w) as [[a|e] w']; [by apply Hk|done]. Qed.
Lemma settles_txn t {A} (op : Time.t → GTx A) : (∀ now g a g', op now g = Ok (a, g') → g_tables g' = g_tables g) → settles t (gtxn op).
Proof.
  intros Hop w [Ht Hs]. unfold gtxn, next_gstep. destruct (gw_steps w) as [|s l]; simpl.
  - destruct (op _ _) as [[a g']|] eqn:E; (split; [|constructor]); simpl; [by rewrite (Hop _ _ _ _ E)|done].
  - apply Forall_cons in Hs as [[-> He] Hl]. destruct (op _ _) as [[a g']|] eqn:E; (split; [|done]); simpl; [by rewrite (Hop _ _ _ _ E), He|by rewrite He].
Qed.
Lemma settles_query t {A} (f : GDB → result A) : settles t (gquery f).
Proof. apply settles_txn. by intros _ g a g' (x & _ & [= _ <-])%res_bind_Ok. Qed.
Lemma settles_note t kind subject payload : settles t (gtxn (λ _, note kind subject payload)).
Proof. apply settles_txn. intros _ g a g' Hn. unfold note, tx_write in Hn. by injection Hn as _ <-. Qed.

Create HintDb settles.
#[export] Hint Resolve settles_ret settles_throw settles_lift settles_query settles_note : settles.
Ltac settle := repeat first [solve [eauto with settles] | apply settles_bind; [|intros] | case_match].

Lemma fetched_settled t {A} (f : Tables → result A) w : settled t w → (fetched f w).1 = f t.
Proof.
  intros [Ht Hs]. unfold fetched, gquery, gtxn, next_gstep. destruct (gw_steps w) as [|s l]; simpl; [rewrite Ht|apply Forall_cons in Hs as [[-> He] _]; rewrite He, Ht];
    by destruct (f t).
Qed.

(** One step of a computation in a settled world. *)
Lemma step_fetched t {A B} (f : Tables → result A) (k : A → G B) w r w' : settled t w → g_bind (fetched f) k w = (Ok r, w') →
  ∃ a w1, f t = Ok a ∧ settled t w1 ∧ k a w1 = (Ok r, w').
Proof.
  intros Hw. pose proof (fetched_settled t f w Hw) as Hf. pose proof (settles_query t (λ g, f (g_tables g)) w Hw) as Hs. fold (fetched f) in Hs.
  unfold g_bind. destruct (fetched f w) as [[a|e] w1]; [|done]. simpl in *. intros Hk. by exists a, w1.
Qed.
Lemma step_settles t {A B} (m : G A) (k : A → G B) w r w' : settles t m → settled t w → g_bind m k w = (Ok r, w') →
  ∃ a w1, (m w).1 = Ok a ∧ settled t w1 ∧ k a w1 = (Ok r, w').
Proof. intros Hm Hw. specialize (Hm w Hw). unfold g_bind. destruct (m w) as [[a|e] w1]; [|done]. simpl in *. intros Hk. by exists a, w1. Qed.

Section operations.
Context `{GoFmt, YamlText} (hash : string → string) `{CEL}.
#[local] Instance the_codec : Codec := policy_codec hash.

(** What an export of settled tables is. *)
Lemma ExportSet_files s t caller w out w' : settled t w → ExportSet s caller w = (Ok out, w') →
  settled t w' ∧ ∃ sr files, LatestSchema t = Ok sr ∧ ex_Files out = mkDocument ExportSchemaFile (scr_Document sr) :: files ∧ map doc_Content files = map pr_Document (tenant_records t).
Proof.
  intros Hw Hx. split.
  { assert (settles t (ExportSet s caller)) as Hs; [|specialize (Hs w Hw); by rewrite Hx in Hs].
    unfold ExportSet, authorizeExport, recordExport, fetched. settle. }
  unfold ExportSet in Hx. destruct (is_user caller) as [c|]; [|done].
  apply (step_settles t) in Hx as (_ & w1 & _ & Hw1 & Hx); [|unfold authorizeExport; settle|done].
  apply (step_fetched t) in Hx as (sr & w2 & Hsr & Hw2 & Hx); [|done]. apply (step_fetched t) in Hx as (rs & w3 & [= <-] & Hw3 & Hx); [|done].
  apply (step_settles t) in Hx as (files & w4 & Hf & Hw4 & Hx); [|settle|done]. simpl in Hf.
  apply (step_settles t) in Hx as (_ & w5 & _ & _ & [= <- _]); [|unfold recordExport; settle|done].
  exists sr, files. split_and!; [done..|]. apply res_map_Ok in Hf. induction Hf as [|r d rs ds Hd _ IH]; [done|]. simpl. rewrite IH. f_equal.
  unfold export_file in Hd. destruct (ValidName (pr_ID r)); [|done]. by injection Hd as <-.
Qed.

(** What the state in force is read as. *)
Definition state_of (t : Tables) : result CurrentState :=
  let? sr := LatestSchema t in
  let? sch := DecodeSchema (scr_Document sr) in
  let? ps := res_map (λ r, let? p := PolicyRecord_Policy r in Ok (mkCurrentPolicy (Some p) (pr_Origin r))) (tenant_records t) in
  Ok (mkCurrentState sch ps).

Lemma currentState_settled t w : settled t w → (currentState w).1 = state_of t ∧ settled t (currentState w).2.
Proof.
  intros Hw. assert (settles t currentState) as Hs by (unfold currentState, fetched; settle). split; [|by apply Hs].
  unfold currentState, state_of, g_bind at 1. pose proof (fetched_settled t LatestSchema w Hw) as E1. pose proof (settles_query t (λ g, LatestSchema (g_tables g)) w Hw) as S1. fold (fetched LatestSchema) in S1.
  destruct (fetched LatestSchema w) as [[sr|e] w1]; simpl in E1, S1; rewrite <-E1; [|done]. simpl. unfold g_bind at 1. unfold g_lift at 1.
  destruct (DecodeSchema _) as [sch|]; [|done]. simpl. unfold g_bind at 1. pose proof (fetched_settled t (λ t, Ok (tenant_records t)) w1 S1) as E2.
  destruct (fetched _ w1) as [[rs|e] w2]; simpl in E2; [|done]. injection E2 as ->. unfold g_bind, g_lift. by destruct (res_map _ _).
Qed.

(** The state in force, from the policies the rows were written with. *)
Lemma state_written t current : authored t → state_of t = Ok current →
  ∃ sr sch ps, LatestSchema t = Ok sr ∧ schema_of (scr_Document sr) sch ∧
    Forall2 (λ r p, policy_of (pr_Document r) (pr_ID r) p ∧ IsReserved (p_ID p) = false) (tenant_records t) ps ∧
    current = mkCurrentState (normalizeSchema sch) (zip_with (λ r p, mkCurrentPolicy (Some (normalizePolicy p)) (pr_Origin r)) (tenant_records t) ps).
Proof.
  intros Ha. destruct (tenants t Ha) as [ps Hps]. intros (sr & Hsr & (q & Hq & (cs & Hcs & [= <-])%res_bind_Ok)%res_bind_Ok)%res_bind_Ok.
  assert (∃ sch, schema_of (scr_Document sr) sch) as [sch Hsch].
  { destruct Ha as (_ & _ & Hs). apply Hs. unfold LatestSchema in Hsr. destruct (t_schemas t) as [|r0 l]; [done|]. injection Hsr as <-. apply foldl_newest. }
  exists sr, sch, ps. split_and!; [done..|]. f_equal; [by eapply decode_schema|]. apply res_map_Ok in Hcs. clear -Hps Hcs.
  revert cs Hcs. induction Hps as [|r p rs ps [Hp _] _ IH]; intros cs Hcs; inversion Hcs as [|? c ? cs' Hc Hcs']; subst; [done|]. simpl. rewrite (IH _ Hcs'). f_equal.
  apply res_bind_Ok in Hc as (q & Hq & [= <-]). unfold PolicyRecord_Policy in Hq. by rewrite (decode_stored hash _ _ _ _ Hp Hq).
Qed.

Lemma held_written (rs : list PolicyRecord) (ps : list Policy) sch : length rs = length ps →
  held (mkCurrentState sch (zip_with (λ r p, mkCurrentPolicy (Some (normalizePolicy p)) (pr_Origin r)) rs ps)) = zip_with (λ r p, (normalizePolicy p, pr_Origin r)) rs ps.
Proof. unfold held. cbn [cs_Policies]. revert ps. induction rs as [|r rs IH]; intros [|p ps] Hl; try done. simpl. f_equal. apply IH. by injection Hl. Qed.

Lemma one_document p doc id : policy_of doc id p → ∃ m, policyDocumentNode (normalizePolicy p) = documentOf (mapping m) ∧
  yaml_write [documentOf (mapping m)] = Ok doc ∧ NoDup (map (λ kv, Value kv.1) (entries m)) ∧ present (entries m) "kind" = Some (str KindPolicy).
Proof. intros (_ & Hw & _). destruct (policy_mapping (normalizePolicy p)) as (m & Em & Hn & Hk). exists m. split_and!; try done. by rewrite <-Em. Qed.
Lemma schema_document s doc : schema_of doc s → ∃ m, schemaDocumentNode (normalizeSchema s) = documentOf (mapping m) ∧
  yaml_write [documentOf (mapping m)] = Ok doc ∧ NoDup (map (λ kv, Value kv.1) (entries m)) ∧ present (entries m) "kind" = Some (str KindSchema).
Proof.
  intros (_ & He & Hw). destruct (schema_mapping (normalizeSchema s)) as (m & Em & Hn & Hk). exists m. split_and!; try done. rewrite <-Em.
  unfold Encode, documents in Hw. cbn [Normalize only_schema set_Schema] in Hw. by rewrite He in Hw.
Qed.

(** Planned against itself, the state in force asks for nothing. *)
Lemma state_plans_nothing t current : authored t → state_of t = Ok current →
  ∃ d, PlanApply current (Some (Normalize (base_set current))) [] = Ok d ∧ de_Changes d = [] ∧ SchemaChanged d = false.
Proof.
  intros Ha (sr' & sch & ps & _ & Hsch & Hps & Ec)%state_written; [|done].
  pose proof (Forall2_length _ _ _ Hps) as Hlen. destruct Hsch as (_ & _ & Hsw). apply (same_set_plans_nothing hash current (scr_Document sr')); rewrite Ec; rewrite ?held_written by done.
  - pose proof (tenant_ids t (proj1 Ha)) as Hnd. revert Hnd. clear -Hps. intros Hnd. assert (map (λ x, p_ID x.1) (zip_with (λ r p, (normalizePolicy p, pr_Origin r)) (tenant_records t) ps) = map pr_ID (tenant_records t)) as ->; [|done].
    clear Hnd. induction Hps as [|r p rs ps [(_ & _ & Hid) _] _ IH]; [done|]. simpl. by rewrite IH, Hid.
  - intros x Hx'. apply elem_of_lookup_zip_with in Hx' as (k & r & p & -> & Hr & Hp). destruct (Forall2_lookup_lr _ _ _ _ _ _ Hps Hr Hp) as [_ Hres]. exact Hres.
  - change (only_schema (cs_Schema _)) with (Normalize (only_schema sch)). by rewrite Encode_Normalize.
  - intros x Hx'. apply elem_of_lookup_zip_with in Hx' as (k & r & p & -> & Hr & Hp). destruct (Forall2_lookup_lr _ _ _ _ _ _ Hps Hr Hp) as [(_ & Hpw & _) _]. exists (pr_Document r).
    change (one_policy (normalizePolicy p, pr_Origin r).1) with (Normalize (one_policy p)). by rewrite Encode_Normalize.
Qed.

Context `{Yaml, !YamlStream}.

(** The files, read as one stream. *)
Lemma joined_reads doc sch (docs ids : list string) ps : schema_of doc sch → Forall2 (λ di p, policy_of di.1 di.2 p) (zip docs ids) ps → length ids = length docs →
  yaml_read (foldl appendDocument "" (doc :: docs)) = (map resolved (schemaDocumentNode (normalizeSchema sch) :: map policyDocumentNode (map normalizePolicy ps)), false).
Proof.
  intros Hs Hps Hl. destruct (schema_document sch doc Hs) as (m & Em & Hm & _).
  assert (∃ ms, Forall2 (λ m text, yaml_write [documentOf (mapping m)] = Ok text) ms docs ∧ map policyDocumentNode (map normalizePolicy ps) = map (λ m, documentOf (mapping m)) ms) as (ms & Hms & Ems).
  { revert ids ps Hps Hl. induction docs as [|d docs IH]; intros [|i ids] ps Hps Hl; try done; inversion Hps as [|? p ? ps' Hp Hps']; subst; [by exists []|].
    destruct (IH ids ps' Hps') as (ms & H1' & H2'); [by injection Hl|]. destruct (one_document p d i Hp) as (m' & Em' & Hm' & _). exists (m' :: ms). split; [by constructor|]. simpl. by rewrite Em', H2'. }
  rewrite (yaml_read_joined (m :: ms) (doc :: docs)); [|by constructor]. cbn [map]. rewrite Em, Ems, map_map. done.
Qed.

Lemma split_documents (files : list Document) stream : (∀ d, d ∈ files → ∃ k, yaml_kinds (doc_Content d) = Ok [k] ∧ k ≠ AdoptionKind) →
  split_payload files stream [] = Ok (foldl appendDocument stream (map doc_Content files), []).
Proof.
  revert stream. induction files as [|d files IH]; intros stream Hf; [done|]. cbn [split_payload map foldl]. destruct (Hf d) as (k & Hk & Hne); [set_solver|].
  unfold documentKinds. rewrite Hk. cbn [invalid_payload res_bind]. unfold contains. rewrite bool_decide_eq_false_2 by set_solver. apply IH. set_solver.
Qed.

(** The files of an export load as the set in force. *)
Lemma export_parses limits t current sr files : authored t → state_of t = Ok current → LatestSchema t = Ok sr →
  map doc_Content files = map pr_Document (tenant_records t) →
  let payload := mkDocument ExportSchemaFile (scr_Document sr) :: files in
  ValidateWithLimits (Normalize (base_set current)) (policyLimits limits) = [] → fits (policyLimits limits) (foldl appendDocument "" (map doc_Content payload)) →
  Payload_parse payload limits = Ok (mkParsed (Normalize (base_set current)) []).
Proof.
  intros Ha (sr' & sch & ps & Hsr' & Hsch & Hps & ->)%state_written Hsr Hfiles payload Hval Hfit; [|done]. rewrite Hsr in Hsr'. injection Hsr' as <-.
  pose proof (Forall2_length _ _ _ Hps) as Hlen.
  assert (base_set (mkCurrentState (normalizeSchema sch) (zip_with (λ r p, mkCurrentPolicy (Some (normalizePolicy p)) (pr_Origin r)) (tenant_records t) ps)) =
    mkSet (normalizeSchema sch) (map normalizePolicy ps)) as Eb.
  { unfold base_set. cbn [cs_Schema]. rewrite held_written by done. f_equal. clear -Hlen. revert ps Hlen. induction (tenant_records t) as [|r rs IH]; intros [|p ps] Hl; try done.
    simpl. f_equal. apply IH. by injection Hl. }
  rewrite Eb in *. unfold Payload_parse. rewrite split_documents.
  2: { intros d [->|Hd]%elem_of_cons; [destruct (schema_document sch _ Hsch) as (m & _ & Hm & Hn & Hk); exists KindSchema; split; [by eapply yaml_kinds_written|done]|].
       assert (doc_Content d ∈ map pr_Document (tenant_records t)) as (r & -> & Hr)%elem_of_map by (rewrite <-Hfiles; apply elem_of_map; eauto).
       apply list_elem_of_lookup in Hr as [k Hr]. destruct (Forall2_lookup_l _ _ _ _ _ Hps Hr) as (p & _ & Hp & _).
       destruct (one_document p _ _ Hp) as (m & _ & Hm & Hn & Hk). exists KindPolicy. split; [by eapply yaml_kinds_written|done]. }
  cbn [res_bind fst snd]. unfold LoadWithLimits. cbn [DecodeWithLimits the_codec policy_codec].
  assert (decode_with_limits (policyLimits limits) (foldl appendDocument "" (map doc_Content payload)) = inl (Normalize (mkSet (normalizeSchema sch) (map normalizePolicy ps)))) as Hd.
  { unfold decode_with_limits. rewrite fits_read by done. unfold payload. cbn [map doc_Content]. rewrite Hfiles.
    rewrite (joined_reads (scr_Document sr) sch _ (map pr_ID (tenant_records t)) ps Hsch); [|..].
    - assert (forallb policy_ok (map normalizePolicy ps) = true) as Hok.
      { apply forallb_forall. intros q Hq%in_map_iff. destruct Hq as (p & <- & Hp%list_elem_of_In). apply list_elem_of_lookup in Hp as [k Hp].
        destruct (Forall2_lookup_r _ _ _ _ _ Hps Hp) as (r & _ & (He & _ & _) & _). unfold set_shape in He. apply andb_true_iff in He as [_ He]. simpl in He. by rewrite andb_true_r in He. }
      destruct Hsch as (He & _ & _). unfold set_shape in He. apply andb_true_iff in He as [He _].
      cbn [map stream]. destruct (document_schema (normalizeSchema sch) He) as (root & Hc & Hdoc). rewrite Hc, Hdoc. simpl. rewrite stream_policies by done. done.
    - clear -Hps. induction Hps as [|r p rs ps [Hp _] _ IH]; simpl; constructor; done.
    - by rewrite !length_map. }
  fold payload. rewrite Hd. cbn [res_bind]. rewrite bool_decide_eq_true_2 by done. done.
Qed.
End operations.

(** C20. Export, then apply, and nothing changes.  Take policy tables that any sequence of
    writes left, each of a policy or schema that the format represents.  Export them, the
    stored documents verbatim and each in its own file, and apply the files, with no
    adoption among them, while the tables are as they were, no database call fails and
    others leave the tables alone.  If the state in force reads and passes the checks
    under the limits of an apply, the payload is within its limits, also once joined, and
    the apply gets past the authoring mode and the open revision, then the files load as
    exactly the set in force and the answer is that nothing changes; the tables stay. *)
Theorem export_then_apply `{GoFmt, YamlText, GovEnv, CEL, Digest, Yaml, !YamlStream} (hash : string → string) s ws caller w out w1 current proposer mode token clock w2 :
  let t := @run_from (policy_codec hash) empty_tables ws in
  let payload := Export_Payload out in
  Forall in_format ws → settled t w → @ExportSet s caller w = (Ok out, w1) →
  settled t w2 → (@currentState (policy_codec hash) w2).1 = Ok current →
  ValidateWithLimits (Normalize (base_set current)) (policyLimits (gv_limits s)) = [] →
  fits (policyLimits (gv_limits s)) (foldl appendDocument "" (map doc_Content payload)) →
  su_Kind proposer = SubjectUser → checkAuthoring (gv_authoring s) OriginFile = Ok tt → Payload_Check payload (gv_limits s) = Ok tt →
  (@gate (policy_codec hash) OriginFile w2).1 = Ok tt →
  @Payload_parse (policy_codec hash) _ _ payload (gv_limits s) = Ok (mkParsed (Normalize (base_set current)) []) ∧
  let r := @ApplyFiles (policy_codec hash) _ _ _ s _ (mkFileApplyRequest (Some proposer) payload mode token) clock w2 in
  r.1 = Ok NoChange ∧ g_tables (gw_db r.2) = t.
Proof.
  intros t payload Hws Hw Hx Hw2 Hcur Hval Hfit Hk Hau Hpc Hga.
  pose proof (run_authored hash ws Hws) as Ha. destruct (ExportSet_files s t caller w out w1 Hw Hx) as (_ & sr & files & Hsr & Ef & Hfiles).
  destruct (currentState_settled hash t w2 Hw2) as [Hst _]. unfold the_codec in Hst. rewrite Hcur in Hst. symmetry in Hst.
  assert (@Payload_parse (policy_codec hash) _ _ payload (gv_limits s) = Ok (mkParsed (Normalize (base_set current)) [])) as Hparse.
  { unfold payload, Export_Payload in *. rewrite Ef in *. by apply (export_parses hash (gv_limits s) t current sr files). }
  split; [exact Hparse|]. cbv zeta.
  destruct (state_plans_nothing hash t current Ha Hst) as (d & Hd & Hch & Hsc).
  assert (settled t (@gate (policy_codec hash) OriginFile w2).2) as Hw3.
  { assert (settles t (@gate (policy_codec hash) OriginFile)) as Hg; [|by apply Hg]. unfold gate, PendingStatus, Pending, GetRevision. settle. }
  destruct (@gate (policy_codec hash) OriginFile w2) as [[[]|e] w3] eqn:Eg; simpl in Hga, Hw3; [|done].
  pose proof (currentState_settled hash t w3 Hw3) as [Hc3 Hw4]. unfold the_codec in *. rewrite Hst in Hc3.
  destruct (@currentState (policy_codec hash) w3) as [[c|e] w4] eqn:Ec; simpl in Hc3, Hw4; [|done]. injection Hc3 as ->.
  match goal with |- context [@ApplyFiles ?a ?b ?c ?d ?e ?f ?g ?h ?i] => enough (@ApplyFiles a b c d e f g h i = (Ok NoChange, w4)) as -> end; [split; [done|apply Hw4]|].
  unfold ApplyFiles. cbn [fa_Proposer fa_Payload]. unfold is_user. rewrite Hk, bool_decide_eq_true_2 by done.
  unfold g_bind, g_lift. rewrite Hau, Hpc, Eg, Hparse, Ec. cbn [pd_set pd_adopt]. rewrite Hd, Hch, Hsc. done.
Qed.

(** ** Export and apply at work

    A reference for streams of documents: groups of bracketed trees, with the separator of
    the program between them. *)
From S2P Require Import Store StoreInv Weakening Delay ServiceSpec RevalidateRun RevisionSpec.

Module StreamRef.
Import YamlRef.

Definition sep : list ascii := bytes newline ++ bytes separator.

Fixpoint groups (fuel : nat) (l : list ascii) : option (list ynode) :=
  match fuel, l with
  | O, _ => None
  | S _, [] => Some []
  | S fuel, _ =>
      '(ns, rest) ← parse (S (length l)) l;
      match rest with
      | [] => Some ns
      | _ => rest ← strip_prefix sep rest; ms ← groups fuel rest; Some (ns ++ ms)
      end
  end.

Definition read_stream (text : string) : list ynode * bool :=
  match groups (S (String.length text)) (bytes text) with Some ns => (ns, false) | None => ([], true) end.
Definition group (ns : list ynode) : list ascii := concat (map write ns) ++ [")"%char].

Lemma parse_group ns rest fuel : (length (group ns ++ rest) < fuel)%nat → parse fuel (group ns ++ rest) = Some (ns, rest).
Proof.
  intros Hf. unfold group in *. rewrite <-app_assoc in *. apply parse_write. rewrite length_app in Hf.
  assert (sum_list (map size ns) <= length (concat (map write ns)))%nat; [|simpl in Hf; lia].
  clear. induction ns as [|n ns IH]; simpl; [lia|]. rewrite length_app. pose proof (size_length n). lia.
Qed.

Lemma group_cons ns : ∃ a l, group ns = a :: l.
Proof. unfold group. destruct (concat (map write ns)) as [|a l]; simpl; eauto. Qed.

Lemma groups_join fuel ns nss : (length nss < fuel)%nat → groups fuel (group ns ++ concat (map (λ ns, sep ++ group ns) nss)) = Some (ns ++ concat nss).
Proof.
  revert ns nss. induction fuel as [|fuel IH]; intros ns nss Hf; [lia|]. cbn [groups].
  destruct (group_cons ns) as (a & l & Hg). destruct (group ns ++ _) as [|b r] eqn:E; [by rewrite Hg in E|]. rewrite <-E. rewrite parse_group by lia. cbn [mbind option_bind].
  destruct nss as [|ms nss]; [by rewrite app_nil_r|]. cbn [map concat]. rewrite <-app_assoc.
  assert (strip_prefix sep (sep ++ group ms ++ concat (map (λ ns, sep ++ group ns) nss)) = Some (group ms ++ concat (map (λ ns, sep ++ group ns) nss))) as Hs by (by apply strip_prefix_Some).
  destruct (sep ++ group ms ++ _) as [|c q] eqn:E2; [done|]. rewrite Hs. cbn [mbind option_bind]. rewrite IH by (simpl in Hf; lia). done.
Qed.

#[export] Program Instance stream_text : YamlText := {| yaml_write docs := Ok (unbytes (group (map resolved docs))); yaml_read := read_stream |}.
Next Obligation.
  intros docs text [= <-]. unfold read_stream. rewrite bytes_unbytes. rewrite <-(app_nil_r (group (map resolved docs))).
  rewrite (groups_join _ (map resolved docs) []); [by rewrite app_nil_r|simpl; lia].
Qed.

Definition root_kind (n : ynode) : string :=
  match Content n with m :: _ => match present (entries (Content m)) "kind" with Some v => Value v | None => "" end | [] => "" end.
#[export] Instance stream_kinds : Yaml :=
  {| yaml_kinds text := match read_stream text with (ns, false) => Ok (map root_kind ns) | _ => Err [] end; yaml_adoptions _ := Err [] |}.

Lemma group_suffix b ns : HasSuffix (unbytes (b ++ group ns)) newline = false.
Proof.
  unfold HasSuffix, group. rewrite bytes_unbytes. rewrite app_assoc, reverse_app. by apply bool_decide_eq_false_2; intros [? ?].
Qed.

Lemma joined_bytes b ns nss :
  foldl appendDocument (unbytes (b ++ group ns)) (map (λ ns, unbytes (group ns)) nss) = unbytes (b ++ group ns ++ concat (map (λ ns, sep ++ group ns) nss)).
Proof.
  revert b ns. induction nss as [|ms nss IH]; intros b ns; [by rewrite app_nil_r|]. cbn [map foldl concat].
  assert (appendDocument (unbytes (b ++ group ns)) (unbytes (group ms)) = unbytes ((b ++ group ns ++ sep) ++ group ms)) as ->.
  { unfold appendDocument. rewrite group_suffix. rewrite bool_decide_eq_false_2.
    - match goal with |- ?x = _ => rewrite <-(unbytes_bytes x) end. f_equal. rewrite !bytes_app, !bytes_unbytes. unfold sep. by rewrite <-!app_assoc.
    - intros E. apply (f_equal bytes) in E. rewrite bytes_unbytes in E. destruct (group_cons ns) as (a & l & Hg). rewrite Hg in E. by destruct b. }
  rewrite IH. by rewrite <-!app_assoc.
Qed.

Lemma entries_resolved m : entries (map resolved m) = map (λ kv, (resolved kv.1, resolved kv.2)) (entries m).
Proof. revert m. fix IH 1. intros [|k [|v m]]; [done|done|]. simpl. by rewrite IH. Qed.
Lemma value_resolved n : Value (resolved n) = Value n.
Proof. by destruct n. Qed.
Lemma present_resolved es key : present (map (λ kv, (resolved kv.1, resolved kv.2)) es) key = resolved <$> present es key.
Proof.
  unfold present. assert (∀ acc, foldl (λ found kv, if bool_decide (Value kv.1 = key) then Some kv.2 else found) (resolved <$> acc) (map (λ kv, (resolved kv.1, resolved kv.2)) es) =
    resolved <$> foldl (λ found kv, if bool_decide (Value kv.1 = key) then Some kv.2 else found) acc es) as Hf; [|by apply (Hf None)].
  induction es as [|[k v] es IH]; intros acc; [done|]. simpl. rewrite value_resolved. case_bool_decide; [by rewrite <-(IH (Some v))|by rewrite <-IH].
Qed.

#[export] Program Instance streams : YamlStream.
Next Obligation.
  intros ms texts Hms. assert (texts = map (λ ns, unbytes (group ns)) (map (λ m, [resolved (documentOf (mapping m))]) ms)) as ->.
  { induction Hms as [|m text ms texts [= <-] _ IH]; [done|]. simpl. by rewrite IH. }
  destruct ms as [|m ms]; [done|]. cbn [map foldl]. change (appendDocument "" ?x) with x.
  change (yaml_read ?x) with (read_stream x). pose proof (joined_bytes [] [resolved (documentOf (mapping m))] (map (λ m, [resolved (documentOf (mapping m))]) ms)) as Hj.
  cbn [app] in Hj. unfold read_stream. rewrite Hj, bytes_unbytes. rewrite groups_join.
  - cbn [map app]. do 2 f_equal. clear. induction ms as [|x ms IH]; [done|]. cbn [map concat app]. by rewrite IH.
  - rewrite <-bytes_length, bytes_unbytes, length_app. enough (length (map (λ m, [resolved (documentOf (mapping m))]) ms) <= length (concat (map (λ ns, sep ++ group ns) (map (λ m, [resolved (documentOf (mapping m))]) ms))))%nat by lia.
    clear. induction (map (λ m, [resolved (documentOf (mapping m))]) ms) as [|x l IH]; [simpl; lia|]. cbn [map concat length]. rewrite !length_app. change (length sep) with 5%nat. lia.
Qed.
Next Obligation.
  intros m text k Hw _ Hk. assert (text = unbytes (group [resolved (documentOf (mapping m))])) as -> by (by injection Hw). unfold yaml_kinds, stream_kinds, read_stream. rewrite bytes_unbytes. pose proof (groups_join (S (String.length (unbytes (group [resolved (documentOf (mapping m))])))) [resolved (documentOf (mapping m))] []) as Hg.
  cbn [map concat] in Hg. rewrite !app_nil_r in Hg. rewrite Hg by (simpl; lia).
  assert (root_kind (resolved (documentOf (mapping m))) = match present (entries (map resolved m)) "kind" with Some v => Value v | None => "" end) as Hr by done.
  cbn [map]. rewrite Hr. by rewrite entries_resolved, present_resolved, Hk.
Qed.
End StreamRef.

(** The console owns one policy, the file path another, and a third was deleted. *)
Module ExportDemo.
Import StreamRef.
#[local] Existing Instances toy_digest YamlRef.fmt_ref.
#[local] Instance env : GovEnv := {| hashToken t := t; delta_digest _ := ""; Finding_string _ := "" |}.
Definition codec : Codec := policy_codec CodecDemo.no_hash.
#[local] Existing Instance codec.

Definition input (p : Policy) (o : Origin) : PolicyInput := mkPolicyInput (Some p) 1 o "dave" false.
Definition dropped : Policy := mkPolicy "old" "" "user" "account" "" ["read"] NodeNil [].
Definition writes : list write :=
  [WSchema 1 CodecDemo.schema OriginForm "dave"; WPut 2 (input (CodecDemo.guarded CodecDemo.noon) OriginForm); WPut 3 (input dropped OriginFile);
   WPut 4 (input CodecDemo.plain OriginFile); WDelete 5 "old" "dave"].
Definition tables : Tables := Eval vm_compute in run_from empty_tables writes.

Definition service : GService :=
  mkGService [] RevisionDemo.revalidator None DefaultFloor 0%Z 0%Z AuthoringUnset DefaultRate DefaultPayloadLimits (Some (λ _, Ok [CapabilityAuthor])) (λ _, "") 0%Z.
Definition world : GWorld := mkGWorld (mkGDB (empty_db []) tables [] None) [] [] [].
Definition dave : Subject := Demo.user "dave".
Definition exported : result Export * GWorld := Eval vm_compute in ExportSet service (Some dave) world.
Definition out : Export := match exported.1 with Ok e => e | Err _ => mkExport [] 0 0 end.
Definition state : CurrentState := match (currentState exported.2).1 with Ok c => c | Err _ => mkCurrentState no_schema [] end.

Example three_files : map doc_Name (ex_Files out) = ["schema.yaml"; "policies/audit.yaml"; "policies/close.yaml"].
Proof. vm_compute. reflexivity. Qed.

Lemma writes_in_format : Forall in_format writes.
Proof.
  unfold writes. rewrite !Forall_cons. split_and!; try exact I; try apply List.Forall_nil; unfold in_format.
  - split; vm_compute; reflexivity.
  - intros p Hp. injection Hp as <-. vm_compute. reflexivity.
  - intros p Hp. injection Hp as <-. vm_compute. reflexivity.
  - intros p Hp. injection Hp as <-. vm_compute. reflexivity.
Qed.

Lemma export_then_apply_witness :
  (ApplyFiles service (mkFileApplyRequest (Some dave) (Export_Payload out) ModeUnset "") (λ _, 0%Z) exported.2).1 = Ok NoChange.
Proof.
  assert (run_from empty_tables writes = tables) as Et by (vm_compute; reflexivity).
  refine (proj1 (proj2 (export_then_apply CodecDemo.no_hash service writes (Some dave) world out exported.2 state dave ModeUnset "" (λ _, 0%Z) exported.2
    writes_in_format _ _ _ _ _ _ _ _ _ _))).
  - fold codec. rewrite Et. split; [reflexivity|constructor].
  - vm_compute. reflexivity.
  - fold codec. rewrite Et. split; [reflexivity|constructor].
  - vm_compute. reflexivity.
  - vm_compute. reflexivity.
  - vm_compute. eexists. reflexivity.
  - reflexivity.
  - reflexivity.
  - vm_compute. reflexivity.
  - vm_compute. reflexivity.
Defined.

(** The limits leave the separators out of the count: a payload whose files add up to the
    limit exactly passes them and, once joined, is refused. *)
Definition tight : PayloadLimits := mkPayloadLimits 10 100000 (foldr Z.add 0 (map byte_length (Export_Payload out)))%Z 100 1000 100.
Lemma separators_are_not_counted : Payload_Check (Export_Payload out) tight = Ok tt ∧ is_ok (Payload_parse (Export_Payload out) tight) = false.
Proof. split; vm_compute; reflexivity. Qed.
End ExportDemo.
