(* ===== verification/AuditBuffer.v ===== *)
(** * The audit buffer of the served surfaces

    Models internal/api/audit.go: events of the surfaces, the bounded queue they wait
    in, the flush that turns them into rows of the audit chain, the loss window and the
    alert.

    The buffer is shared: handlers record events while a flush runs.  A flush holds the
    lock in short sections and writes to the chain between them, so it is a computation
    over a state in which each section is preceded by a slice of what the rest of the
    process did: events recorded, and rows written through the same chain writer.  One
    goroutine flushes (Run, and the shutdown after it has stopped).  Counters do not
    wrap. *)
From S2P Require Import Prelude GoLib Policy Engine Json Store World AuditChain AuditWriter Challenge Identity.

(** ** Events *)

Record Event := mkEvent {
  ev_Kind : string; ev_Time : Time.t; ev_CallerID : string; ev_Action : string; ev_Subject : string; ev_Resource : string;
  ev_Decision : string; ev_Reason : string; ev_PolicyID : string; ev_Revision : string; ev_Method : string; ev_Path : string;
  ev_Allowed : bool; ev_Scope : string; ev_Limit : string }.

#[export] Instance Event_eq_dec : EqDecision Event.
Proof. solve_decision. Defined.

Definition EventCheck : string := "check".
Definition EventAuth : string := "auth".
Definition EventRateLimited : string := "rate_limited".

Definition stamp_time (now : Time.t) (e : Event) : Event :=
  if Time.IsZero (ev_Time e)
  then mkEvent (ev_Kind e) now (ev_CallerID e) (ev_Action e) (ev_Subject e) (ev_Resource e) (ev_Decision e) (ev_Reason e)
         (ev_PolicyID e) (ev_Revision e) (ev_Method e) (ev_Path e) (ev_Allowed e) (ev_Scope e) (ev_Limit e)
  else e.

(** The struct in the order of its fields, empty fields left out. *)
Definition event_json (e : Event) : json :=
  JObj ([("kind", JStr (ev_Kind e)); ("time", JTime (ev_Time e)); ("caller_id", JStr (ev_CallerID e))] ++
        opt_string "action" (ev_Action e) ++ opt_string "subject" (ev_Subject e) ++ opt_string "resource" (ev_Resource e) ++
        opt_string "decision" (ev_Decision e) ++ opt_string "reason" (ev_Reason e) ++ opt_string "policy_id" (ev_PolicyID e) ++
        opt_string "revision" (ev_Revision e) ++ opt_string "method" (ev_Method e) ++ opt_string "path" (ev_Path e) ++
        (if ev_Allowed e then [("allowed", JBool true)] else []) ++
        opt_string "scope" (ev_Scope e) ++ opt_string "limit" (ev_Limit e)).

Definition Leaf `{AuditEnv} (e : Event) : bytes := sha256 (json_text (event_json e)).

(** The event of an authentication attempt. *)
Definition auth_event (rec : AuthRecord) : Event :=
  mkEvent EventAuth (ar_Time rec) (ar_CallerID rec) "" "" "" "" (ar_Reason rec) "" "" (ar_HTTPMethod rec) (ar_Path rec)
    (ar_Allowed rec) "" "".

(** ** The chain, as the buffer sees it *)

Class ChainWriter (S : Type) := {
  cw_AppendCheckBatch : CheckBatch → S → result unit * S;
  cw_AppendCheckGap : CheckGap → S → result unit * S }.

(** ** The buffer *)

Definition DefaultAuditCapacity : Z := 4096.
Definition DefaultAuditBatchSize : Z := 256.
Definition DefaultAuditFlushInterval : Time.duration := Time.Second.
Definition DefaultAuditAlertThreshold : Z := 1.
Definition AuditDigestScheme : string := "sha256-json-v1".

Record AuditConfig := mkAuditConfig {
  ac_Capacity : Z; ac_BatchSize : Z; ac_FlushInterval : Time.duration; ac_AlertThreshold : Z; ac_FailClosed : bool }.

Record AuditStats := mkAuditStats {
  as_Enqueued : Z; as_Dropped : Z; as_Flushed : Z; as_Batches : Z; as_Gaps : Z; as_Queued : Z; as_Capacity : Z;
  as_Alerting : bool; as_FailClosed : bool; as_LastFlush : Time.t; as_LastError : option error }.

(** [ab_raised] is the calls made to [OnAlert]. *)
Record AuditBuffer := mkAuditBuffer {
  ab_capacity : Z; ab_batchSize : Z; ab_interval : Time.duration; ab_threshold : Z; ab_failClose : bool;
  ab_queue : list Event; ab_enqueued : Z; ab_dropped : Z; ab_flushed : Z; ab_batches : Z; ab_gaps : Z;
  ab_alerting : bool; ab_lastErr : option error; ab_lastFlsh : Time.t;
  ab_pendingLost : Z; ab_lostFrom : Time.t; ab_lostTo : Time.t;
  ab_raised : list AuditStats }.

Definition positive_or (def v : Z) : Z := if (v <=? 0)%Z then def else v.

Definition NewAuditBuffer (writer : bool) (cfg : AuditConfig) : result AuditBuffer :=
  if negb writer then Err []
  else Ok (mkAuditBuffer (positive_or DefaultAuditCapacity (ac_Capacity cfg)) (positive_or DefaultAuditBatchSize (ac_BatchSize cfg))
             (positive_or DefaultAuditFlushInterval (ac_FlushInterval cfg)) (positive_or DefaultAuditAlertThreshold (ac_AlertThreshold cfg))
             (ac_FailClosed cfg) [] 0 0 0 0 0 false None Time.zero 0 Time.zero Time.zero []).

Definition statsLocked (b : AuditBuffer) : AuditStats :=
  mkAuditStats (ab_enqueued b) (ab_dropped b) (ab_flushed b) (ab_batches b) (ab_gaps b) (Z.of_nat (length (ab_queue b))) (ab_capacity b)
    (ab_alerting b) (ab_failClose b && ab_alerting b) (ab_lastFlsh b) (ab_lastErr b).

Definition FailClosed (b : AuditBuffer) : bool := ab_failClose b && ab_alerting b.
Definition Alerting (b : AuditBuffer) : bool := ab_alerting b.
Definition Stats (b : AuditBuffer) : AuditStats := statsLocked b.

(** Setters of the groups of fields the operations write. *)
Definition with_queue (q : list Event) (enqueued : Z) (b : AuditBuffer) : AuditBuffer :=
  mkAuditBuffer (ab_capacity b) (ab_batchSize b) (ab_interval b) (ab_threshold b) (ab_failClose b) q enqueued (ab_dropped b) (ab_flushed b)
    (ab_batches b) (ab_gaps b) (ab_alerting b) (ab_lastErr b) (ab_lastFlsh b) (ab_pendingLost b) (ab_lostFrom b) (ab_lostTo b) (ab_raised b).
Definition with_loss (dropped pending : Z) (from to : Time.t) (b : AuditBuffer) : AuditBuffer :=
  mkAuditBuffer (ab_capacity b) (ab_batchSize b) (ab_interval b) (ab_threshold b) (ab_failClose b) (ab_queue b) (ab_enqueued b) dropped (ab_flushed b)
    (ab_batches b) (ab_gaps b) (ab_alerting b) (ab_lastErr b) (ab_lastFlsh b) pending from to (ab_raised b).
Definition with_alert (alerting : bool) (b : AuditBuffer) : AuditBuffer :=
  mkAuditBuffer (ab_capacity b) (ab_batchSize b) (ab_interval b) (ab_threshold b) (ab_failClose b) (ab_queue b) (ab_enqueued b) (ab_dropped b) (ab_flushed b)
    (ab_batches b) (ab_gaps b) alerting (ab_lastErr b) (ab_lastFlsh b) (ab_pendingLost b) (ab_lostFrom b) (ab_lostTo b) (ab_raised b).
Definition raised (s : AuditStats) (b : AuditBuffer) : AuditBuffer :=
  mkAuditBuffer (ab_capacity b) (ab_batchSize b) (ab_interval b) (ab_threshold b) (ab_failClose b) (ab_queue b) (ab_enqueued b) (ab_dropped b) (ab_flushed b)
    (ab_batches b) (ab_gaps b) (ab_alerting b) (ab_lastErr b) (ab_lastFlsh b) (ab_pendingLost b) (ab_lostFrom b) (ab_lostTo b) (ab_raised b ++ [s]).
Definition with_error (e : option error) (b : AuditBuffer) : AuditBuffer :=
  mkAuditBuffer (ab_capacity b) (ab_batchSize b) (ab_interval b) (ab_threshold b) (ab_failClose b) (ab_queue b) (ab_enqueued b) (ab_dropped b) (ab_flushed b)
    (ab_batches b) (ab_gaps b) (ab_alerting b) e (ab_lastFlsh b) (ab_pendingLost b) (ab_lostFrom b) (ab_lostTo b) (ab_raised b).
Definition with_rows (flushed batches gaps : Z) (at_ : Time.t) (b : AuditBuffer) : AuditBuffer :=
  mkAuditBuffer (ab_capacity b) (ab_batchSize b) (ab_interval b) (ab_threshold b) (ab_failClose b) (ab_queue b) (ab_enqueued b) (ab_dropped b) flushed
    batches gaps (ab_alerting b) (ab_lastErr b) at_ (ab_pendingLost b) (ab_lostFrom b) (ab_lostTo b) (ab_raised b).

(** ** Recording *)

Definition earlier (from at_ : Time.t) : Time.t := if Time.IsZero from || Time.Before at_ from then at_ else from.
Definition later (to at_ : Time.t) : Time.t := if Time.After at_ to then at_ else to.

Definition dropLocked (now at_ : Time.t) (n : Z) (b : AuditBuffer) : AuditBuffer :=
  let at_ := if Time.IsZero at_ then now else at_ in
  let b := with_loss (ab_dropped b + n) (ab_pendingLost b + n) (earlier (ab_lostFrom b) at_) (later (ab_lostTo b) at_) b in
  if negb (ab_alerting b) && (ab_threshold b <=? ab_dropped b)%Z
  then let b := with_alert true b in raised (statsLocked b) b
  else b.

Definition Record_ (now : Time.t) (e : Event) (b : AuditBuffer) : AuditBuffer :=
  let e := stamp_time now e in
  if (ab_capacity b <=? Z.of_nat (length (ab_queue b)))%Z then dropLocked now (ev_Time e) 1 b
  else with_queue (ab_queue b ++ [e]) (ab_enqueued b + 1) b.

Definition RecordAuth (now : Time.t) (rec : AuthRecord) (b : AuditBuffer) : AuditBuffer := Record_ now (auth_event rec) b.

(** ** Flushing *)

(** What the rest of the process did before a section of a flush, and the clock the
    section reads. *)
Record slice (S : Type) := mkSlice { sl_arrivals : list (Time.t * Event); sl_other : S → S; sl_now : Time.t }.
Arguments mkSlice {S} _ _ _.
Arguments sl_arrivals {S} _.
Arguments sl_other {S} _ _.
Arguments sl_now {S} _.

Record FState (S : Type) := mkFState { f_buf : AuditBuffer; f_chain : S; f_slices : list (slice S) }.
Arguments mkFState {S} _ _ _.
Arguments f_buf {S} _.
Arguments f_chain {S} _.
Arguments f_slices {S} _.

Section flush.
Context {S : Type} `{ChainWriter S} `{AuditEnv}.

Definition FM (A : Type) : Type := FState S → A * FState S.

Definition quiet_slice : slice S := mkSlice [] (λ s, s) 0%Z.

Definition arrive (arrivals : list (Time.t * Event)) (b : AuditBuffer) : AuditBuffer :=
  foldl (λ b ne, Record_ ne.1 ne.2 b) b arrivals.

Definition locked {A} (f : Time.t → AuditBuffer → A * AuditBuffer) : FM A := λ st,
  let sl := default quiet_slice (head (f_slices st)) in
  let '(a, b) := f (sl_now sl) (arrive (sl_arrivals sl) (f_buf st)) in
  (a, mkFState b (sl_other sl (f_chain st)) (tail (f_slices st))).

Definition chain_call (f : S → result unit * S) : FM (result unit) := λ st,
  let '(r, s) := f (f_chain st) in (r, mkFState (f_buf st) s (f_slices st)).

Definition fbind {A B} (m : FM A) (k : A → FM B) : FM B := λ st, let '(a, st') := m st in k a st'.
Definition fret {A} (a : A) : FM A := λ st, (a, st).
Notation "'let*' x ':=' m 'in' k" := (fbind m (fun x => k)) (at level 10, x name, m at level 100, k at level 200).

(** What a flush takes with it. *)
Record flight := mkFlight { fl_batch : list Event; fl_lost : Z; fl_from : Time.t; fl_to : Time.t }.

Definition take_all (_ : Time.t) (b : AuditBuffer) : flight * AuditBuffer :=
  (mkFlight (ab_queue b) (ab_pendingLost b) (ab_lostFrom b) (ab_lostTo b),
   with_loss (ab_dropped b) 0 Time.zero Time.zero (with_queue [] (ab_enqueued b) b)).

(** The marker itself was lost: the window goes back. *)
Definition restore_loss (fl : flight) (e : error) (b : AuditBuffer) : AuditBuffer :=
  with_error (Some e)
    (with_loss (ab_dropped b) (ab_pendingLost b + fl_lost fl) (earlier (ab_lostFrom b) (fl_from fl)) (later (ab_lostTo b) (fl_to fl)) b).

Definition write_gap (fl : flight) : FM (list error) :=
  if (fl_lost fl <=? 0)%Z then fret []
  else
    let* r := chain_call (cw_AppendCheckGap (mkCheckGap (fl_from fl) (fl_to fl) (fl_lost fl) "audit buffer saturated")) in
    match r with
    | Err e => locked (λ _ b, ([e], restore_loss fl e b))
    | Ok _ => locked (λ now b, ([], with_rows (ab_flushed b) (ab_batches b) (ab_gaps b + 1) now b))
    end.

Definition first_time (chunk : list Event) : Time.t := from_option ev_Time Time.zero (head chunk).
Definition last_time (chunk : list Event) : Time.t := from_option ev_Time Time.zero (last chunk).

Definition batch_of (chunk : list Event) : CheckBatch :=
  mkCheckBatch (first_time chunk) (last_time chunk) (Z.of_nat (length chunk)) (MerkleRoot (map Leaf chunk)) AuditDigestScheme.

Definition write_chunk (chunk : list Event) : FM (list error) :=
  let* r := chain_call (cw_AppendCheckBatch (batch_of chunk)) in
  match r with
  | Err e => locked (λ now b, ([e], with_error (Some e) (dropLocked now (last_time chunk) (Z.of_nat (length chunk)) b)))
  | Ok _ => locked (λ now b, ([], with_error None
              (with_rows (ab_flushed b + Z.of_nat (length chunk)) (ab_batches b + 1) (ab_gaps b) now b)))
  end.

(** The loop over the batch; the fuel is its length, each turn takes [batchSize] of it. *)
Fixpoint write_chunks (fuel : nat) (batchSize : nat) (batch : list Event) : FM (list error) :=
  match fuel, batch with
  | _, [] | O, _ => fret []
  | Datatypes.S n, _ =>
      let* es := write_chunk (take batchSize batch) in
      let* es' := write_chunks n batchSize (drop batchSize batch) in
      fret (es ++ es')
  end.

Definition clear_alert (_ : Time.t) (b : AuditBuffer) : unit * AuditBuffer :=
  (tt, if ab_alerting b && (ab_pendingLost b =? 0)%Z && (Z.of_nat (length (ab_queue b)) <=? Z.quot (ab_capacity b) 2)%Z
       then with_alert false b else b).

(** [errors.Join]. *)
Definition join_errors (es : list error) : result unit := match es with [] => Ok tt | _ => Err (concat es) end.

Definition Flush : FM (result unit) :=
  let* fl := locked take_all in
  let* gaps := write_gap fl in
  let* lost := λ st, write_chunks (length (fl_batch fl)) (Z.to_nat (ab_batchSize (f_buf st))) (fl_batch fl) st in
  let* _ := locked clear_alert in
  fret (join_errors (gaps ++ lost)).

(** [Run]: a flush at every tick, and one more when the context ends. *)
Fixpoint Run (ticks : nat) : FM (result unit) :=
  match ticks with
  | O => Flush
  | Datatypes.S n => let* _ := Flush in Run n
  end.
End flush.
