(* ===== verification/AuditBufferSpec.v ===== *)
(** * Nothing is lost silently

    What the audit buffer promises: every event recorded is a leaf of an acknowledged
    batch, counted by an acknowledged gap marker, or still held; the queue is bounded;
    and a loss past the threshold keeps the alert up until the chain says so.  The chain
    is an interface with laws, which the audit writer discharges. *)
From S2P Require Import Prelude GoLib Policy Engine Json Store World AuditChain AuditWriter AuditLog Checkpoint CheckpointSpec.
From S2P Require Import Challenge Identity AuditBuffer.

(** ** The chain's promise *)

Inductive ChainRow := RowBatch (b : CheckBatch) | RowGap (g : CheckGap).

(** [cw_holds s rows]: the batches and gaps in the chain are exactly [rows].  An
    acknowledged append adds its row once, a failed one once or not at all. *)
Class ChainLaws (S : Type) `{ChainWriter S} := {
  cw_holds : S → list ChainRow → Prop;
  cw_batch_law : ∀ b s rows, cw_holds s rows →
    let '(r, s') := cw_AppendCheckBatch b s in
    cw_holds s' (rows ++ [RowBatch b]) ∨ (∃ e, r = Err e) ∧ cw_holds s' rows;
  cw_gap_law : ∀ g s rows, cw_holds s rows →
    let '(r, s') := cw_AppendCheckGap g s in
    cw_holds s' (rows ++ [RowGap g]) ∨ (∃ e, r = Err e) ∧ cw_holds s' rows }.

(** ** The ledger *)

(** What an acknowledged row stands for: the events of a batch, or the count of a gap. *)
Definition ack : Type := list Event + CheckGap.

Definition leaves (acked : list ack) : list Event := flat_map (λ a, match a with inl chunk => chunk | inr _ => [] end) acked.

Fixpoint marked (acked : list ack) : Z :=
  match acked with
  | [] => 0
  | inl _ :: acked => marked acked
  | inr g :: acked => cg_Dropped g + marked acked
  end.

Lemma leaves_app l1 l2 : leaves (l1 ++ l2) = leaves l1 ++ leaves l2.
Proof. apply flat_map_app. Qed.

Lemma marked_app l1 l2 : marked (l1 ++ l2) = (marked l1 + marked l2)%Z.
Proof. induction l1 as [|[c|g] l IH]; simpl; lia. Qed.

(** The events recorded so far, in order, against what became of them: acknowledged,
    in flight ([fly] and [lost]) or still in the buffer. *)
Record ledger (b0 : AuditBuffer) (rec : list Event) (acked : list ack) (fly : list Event) (lost : Z) (b : AuditBuffer) : Prop := {
  lg_order : leaves acked ++ fly ++ ab_queue b `sublist_of` rec;
  lg_count : Z.of_nat (length rec) =
    (Z.of_nat (length (leaves acked)) + marked acked + Z.of_nat (length fly) + lost + Z.of_nat (length (ab_queue b)) + ab_pendingLost b)%Z;
  lg_dropped : ab_dropped b = (marked acked + lost + ab_pendingLost b)%Z;
  lg_flushed : ab_flushed b = Z.of_nat (length (leaves acked));
  lg_bound : (Z.of_nat (length (ab_queue b)) <= ab_capacity b)%Z;
  lg_pending : (0 <= ab_pendingLost b)%Z;
  lg_lost : (0 <= lost)%Z;
  lg_alert : (ab_threshold b <= ab_dropped b)%Z → (0 < ab_pendingLost b + lost)%Z → ab_alerting b = true;
  lg_raised : ab_alerting b = true → (ab_threshold b <= ab_dropped b)%Z;
  lg_config : (ab_capacity b, ab_batchSize b, ab_threshold b, ab_failClose b) =
              (ab_capacity b0, ab_batchSize b0, ab_threshold b0, ab_failClose b0) }.

Lemma ledger_new writer cfg b : NewAuditBuffer writer cfg = Ok b → ledger b [] [] [] 0 b.
Proof.
  unfold NewAuditBuffer. case_match; [done|]. intros [= <-]. split; simpl; try done; try lia.
  unfold positive_or, DefaultAuditCapacity. case_match; lia.
Qed.

Section ledger.
Context (b0 : AuditBuffer).

Lemma ledger_drop rec rec' acked fly fly' lost now at_ n b :
  ledger b0 rec acked fly lost b → (0 < n)%Z →
  leaves acked ++ fly' ++ ab_queue b `sublist_of` rec' →
  (Z.of_nat (length rec') - Z.of_nat (length fly') = Z.of_nat (length rec) - Z.of_nat (length fly) + n)%Z →
  ledger b0 rec' acked fly' lost (dropLocked now at_ n b).
Proof.
  intros [Ho Hc Hd Hf Hb Hp Hl Ha Hr Hcfg] Hn Ho' Hc'. unfold dropLocked.
  case_match eqn:E; split; simpl; try done; try lia.
  - intros _. apply andb_true_iff in E as [_ E%Z.leb_le]. exact E.
  - intros Ht _. apply andb_false_iff in E as [E%negb_false_iff|E%Z.leb_gt]; simpl in E; [done|]. simpl in Ht. lia.
  - intros Hal. specialize (Hr Hal). lia.
Qed.

Lemma ledger_record rec acked fly lost now e b :
  ledger b0 rec acked fly lost b → ledger b0 (rec ++ [stamp_time now e]) acked fly lost (Record_ now e b).
Proof.
  intros Hl. unfold Record_. case_match eqn:E.
  - eapply ledger_drop; [done|lia| |rewrite length_app; simpl; lia].
    apply sublist_inserts_r, (lg_order _ _ _ _ _ _ Hl).
  - destruct Hl. apply Z.leb_gt in E. split; simpl; rewrite ?length_app; simpl; try done; try lia.
    rewrite !(assoc_L (++)). apply sublist_app; [|done]. by rewrite <-(assoc_L (++)).
Qed.

Lemma ledger_take rec acked now b :
  ledger b0 rec acked [] 0 b →
  let '(fl, b') := take_all now b in
  ledger b0 rec acked (fl_batch fl) (fl_lost fl) b' ∧ ab_batchSize b' = ab_batchSize b0.
Proof.
  intros [Ho Hc Hd Hf Hb Hp Hl Ha Hr Hcfg]. split; [|simpl; congruence].
  split; simpl in *; rewrite ?app_nil_r; try done; try lia.
  intros ? ?. apply Ha; lia.
Qed.

Lemma ledger_restore rec acked fly fl e b :
  ledger b0 rec acked fly (fl_lost fl) b → ledger b0 rec acked fly 0 (restore_loss fl e b).
Proof. intros []. split; simpl; try done; try lia. intros ? ?. by apply lg_alert0; lia. Qed.

Lemma ledger_marked rec acked fly g at_ b :
  ledger b0 rec acked fly (cg_Dropped g) b →
  ledger b0 rec (acked ++ [inr g]) fly 0 (with_rows (ab_flushed b) (ab_batches b) (ab_gaps b + 1) at_ b).
Proof.
  intros [Ho Hc Hd Hf Hb Hp Hl Ha Hr Hcfg].
  split; simpl; rewrite ?leaves_app, ?marked_app, ?app_nil_r; simpl; try done; try lia.
  intros ? ?. apply Ha; lia.
Qed.

Lemma ledger_failed rec acked chunk fly lost now at_ e b :
  chunk ≠ [] → ledger b0 rec acked (chunk ++ fly) lost b →
  ledger b0 rec acked fly lost (with_error (Some e) (dropLocked now at_ (Z.of_nat (length chunk)) b)).
Proof.
  intros Hne Hl. assert (ledger b0 rec acked fly lost (dropLocked now at_ (Z.of_nat (length chunk)) b)) as [].
  { eapply ledger_drop; [done|destruct chunk; [done|simpl; lia]| |rewrite length_app; lia].
    etrans; [|apply (lg_order _ _ _ _ _ _ Hl)]. apply sublist_app; [done|].
    rewrite <-(assoc_L (++)). by apply sublist_inserts_l. }
  by split.
Qed.

Lemma ledger_chained rec acked chunk fly lost at_ b :
  ledger b0 rec acked (chunk ++ fly) lost b →
  ledger b0 rec (acked ++ [inl chunk]) fly lost
    (with_error None (with_rows (ab_flushed b + Z.of_nat (length chunk)) (ab_batches b + 1) (ab_gaps b) at_ b)).
Proof.
  intros [Ho Hc Hd Hf Hb Hp Hl Ha Hr Hcfg].
  split; simpl; rewrite ?leaves_app, ?marked_app, ?length_app; simpl; rewrite ?app_nil_r, ?length_app in *; try done; try lia.
  by rewrite <-(assoc_L (++)), (assoc_L (++) chunk).
Qed.

Lemma ledger_cleared rec acked now b : ledger b0 rec acked [] 0 b → ledger b0 rec acked [] 0 (clear_alert now b).2.
Proof.
  intros Hl. unfold clear_alert. simpl. case_match eqn:E; [|done].
  apply andb_true_iff in E as [[_ E%Z.eqb_eq]%andb_true_iff _]. destruct Hl. split; simpl; try done. intros _ ?. lia.
Qed.
End ledger.

(** ** Flushes among arrivals *)

Section run.
Context {S : Type} `{ChainWriter S} `{!ChainLaws S} `{AuditEnv}.

Definition row_of (a : ack) : ChainRow := match a with inl chunk => RowBatch (batch_of chunk) | inr g => RowGap g end.

(** The events the slices bring, with the time they are recorded under. *)
Definition recorded (used : list (slice S)) : list Event :=
  flat_map (λ sl, map (λ ne, stamp_time ne.1 ne.2) (sl_arrivals sl)) used.

(** What else uses the writer adds no batch and no gap. *)
Definition keeps_rows (f : S → S) : Prop := ∀ s rows, cw_holds s rows → cw_holds (f s) rows.

(** A state of a run: the ledger of the events recorded since the start, and a chain
    that holds every acknowledged row, in order, after the rows it started with.
    [present] is [acked] and the row of a call whose answer is being handled. *)
Record good (b0 : AuditBuffer) (sched : list (slice S)) (rows0 : list ChainRow) (acked : list ack) (present : list ack)
    (fly : list Event) (lost : Z) (st : FState S) : Prop := {
  gd_ledger : ∃ used, sched = used ++ f_slices st ∧ ledger b0 (recorded used) acked fly lost (f_buf st);
  gd_chain : ∃ new, cw_holds (f_chain st) (rows0 ++ new) ∧ map row_of present `sublist_of` new;
  gd_others : Forall (λ sl, keeps_rows (sl_other sl)) (f_slices st) }.

Context (b0 : AuditBuffer) (sched : list (slice S)) (rows0 : list ChainRow).

Lemma ledger_arrive rec acked fly lost arrivals b :
  ledger b0 rec acked fly lost b →
  ledger b0 (rec ++ map (λ ne, stamp_time ne.1 ne.2) arrivals) acked fly lost (arrive arrivals b).
Proof.
  revert rec b. induction arrivals as [|[now e] l IH]; intros rec b Hl; simpl; [by rewrite app_nil_r|].
  rewrite cons_middle, (assoc_L (++)). apply IH. by apply ledger_record.
Qed.

Lemma good_locked {A} (f : Time.t → AuditBuffer → A * AuditBuffer) (Q : A → list ack → list Event → Z → Prop)
    acked present fly lost st :
  good b0 sched rows0 acked present fly lost st →
  (∀ rec now b, ledger b0 rec acked fly lost b →
     let '(a, b') := f now b in
     ∃ fly' lost', Q a present fly' lost' ∧ ledger b0 rec present fly' lost' b') →
  let '(a, st') := locked f st in
  ∃ fly' lost', Q a present fly' lost' ∧ good b0 sched rows0 present present fly' lost' st'.
Proof.
  intros [(used & Hs & Hl) (new & Hh & Hsub) Ho] Hf. unfold locked.
  destruct st as [b s slices]. simpl in *.
  destruct slices as [|sl slices]; simpl.
  - specialize (Hf _ 0%Z _ Hl). destruct (f 0%Z b) as [a b']. destruct Hf as (fly' & lost' & HQ & Hl').
    exists fly', lost'. split; [done|]. split; simpl; eauto.
  - apply (ledger_arrive _ _ _ _ (sl_arrivals sl)) in Hl. specialize (Hf _ (sl_now sl) _ Hl).
    destruct (f (sl_now sl) _) as [a b']. destruct Hf as (fly' & lost' & HQ & Hl').
    apply Forall_cons in Ho as [Ho1 Ho]. exists fly', lost'. split; [done|]. split; simpl; [|eauto|done].
    exists (used ++ [sl]). split; [by rewrite Hs, <-(assoc_L (++))|].
    unfold recorded in *. rewrite flat_map_app. simpl. by rewrite app_nil_r.
Qed.

(** A call either put its row in the chain, or failed. *)
Lemma good_call (f : S → result unit * S) (a : ack) acked fly lost st :
  (∀ s rows, cw_holds s rows → let '(r, s') := f s in
     cw_holds s' (rows ++ [row_of a]) ∨ (∃ e, r = Err e) ∧ cw_holds s' rows) →
  good b0 sched rows0 acked acked fly lost st →
  let '(r, st') := chain_call f st in
  good b0 sched rows0 acked acked fly lost st' ∧ (is_ok r = true → good b0 sched rows0 acked (acked ++ [a]) fly lost st').
Proof.
  intros Hf [Hl (new & Hh & Hsub) Ho]. specialize (Hf _ _ Hh). unfold chain_call.
  destruct (f (f_chain st)) as [r s']. simpl. destruct Hf as [Hh'|[[e ->] Hh']].
  - rewrite <-(assoc_L (++)) in Hh'. split.
    + split; simpl; [done| |done]. exists (new ++ [row_of a]). split; [done|]. by apply sublist_inserts_r.
    + intros _. split; simpl; [done| |done]. exists (new ++ [row_of a]). split; [done|]. rewrite map_app. by apply sublist_app.
  - split; [|done]. split; simpl; eauto.
Qed.

Lemma good_gap acked fl st :
  good b0 sched rows0 acked acked (fl_batch fl) (fl_lost fl) st →
  let '(es, st') := write_gap fl st in
  ∃ acked', good b0 sched rows0 acked' acked' (fl_batch fl) 0 st'.
Proof.
  intros Hg. unfold write_gap. destruct (fl_lost fl <=? 0)%Z eqn:E.
  { simpl. assert (fl_lost fl = 0%Z) as E0; [|rewrite E0 in Hg; by exists acked].
    destruct (gd_ledger _ _ _ _ _ _ _ _ Hg) as (used & _ & Hl). pose proof (lg_lost _ _ _ _ _ _ Hl). lia. }
  unfold fbind. set (g := mkCheckGap _ _ _ _).
  pose proof (good_call (cw_AppendCheckGap g) (inr g) acked _ _ st (cw_gap_law g) Hg) as Hc.
  destruct (chain_call _ st) as [[[]|e] st1]; destruct Hc as [Hg1 Hg2].
  - pose proof (good_locked (λ now b, ([] : list error, with_rows (ab_flushed b) (ab_batches b) (ab_gaps b + 1) now b))
      (λ _ _ fly' lost', fly' = fl_batch fl ∧ lost' = 0%Z) _ _ _ _ _ (Hg2 eq_refl)) as Hk.
    destruct (locked _ st1) as [es st2]. destruct Hk as (? & ? & [-> ->] & Hg'); [|by eexists].
    intros rec now b Hl. exists (fl_batch fl), 0%Z. split; [done|]. by apply (ledger_marked _ _ _ _ g).
  - pose proof (good_locked (λ _ b, ([e], restore_loss fl e b))
      (λ _ _ fly' lost', fly' = fl_batch fl ∧ lost' = 0%Z) _ _ _ _ _ Hg1) as Hk.
    destruct (locked _ st1) as [es st2]. destruct Hk as (? & ? & [-> ->] & Hg'); [|by eexists].
    intros rec now b Hl. exists (fl_batch fl), 0%Z. split; [done|]. by apply ledger_restore.
Qed.

Lemma good_chunk acked chunk fly st :
  chunk ≠ [] → good b0 sched rows0 acked acked (chunk ++ fly) 0 st →
  let '(es, st') := write_chunk chunk st in ∃ acked', good b0 sched rows0 acked' acked' fly 0 st'.
Proof.
  intros Hne Hg. unfold write_chunk, fbind.
  pose proof (good_call (cw_AppendCheckBatch (batch_of chunk)) (inl chunk) acked _ _ st (cw_batch_law (batch_of chunk)) Hg) as Hc.
  destruct (chain_call _ st) as [[[]|e] st1]; destruct Hc as [Hg1 Hg2].
  - set (f := λ now b, _). pose proof (good_locked f (λ _ _ fly' lost', fly' = fly ∧ lost' = 0%Z) _ _ _ _ _ (Hg2 eq_refl)) as Hk.
    destruct (locked f st1) as [es st2]. destruct Hk as (? & ? & [-> ->] & Hg'); [|by eexists].
    intros rec now b Hl. exists fly, 0%Z. split; [done|]. by apply ledger_chained.
  - set (f := λ now b, _). pose proof (good_locked f (λ _ _ fly' lost', fly' = fly ∧ lost' = 0%Z) _ _ _ _ _ Hg1) as Hk.
    destruct (locked f st1) as [es st2]. destruct Hk as (? & ? & [-> ->] & Hg'); [|by eexists].
    intros rec now b Hl. exists fly, 0%Z. split; [done|]. by apply ledger_failed.
Qed.

Lemma good_chunks fuel n batch acked st :
  n ≠ 0 → length batch ≤ fuel → good b0 sched rows0 acked acked batch 0 st →
  let '(es, st') := write_chunks fuel n batch st in ∃ acked', good b0 sched rows0 acked' acked' [] 0 st'.
Proof.
  intros Hn. revert batch acked st. induction fuel as [|fuel IH]; intros [|e batch] acked st Hlen Hg; simpl in *; try lia; try by exists acked.
  unfold fbind. pose proof (good_chunk acked (take n (e :: batch)) (drop n (e :: batch)) st) as Hc.
  rewrite take_drop in Hc. destruct (write_chunk _ st) as [es st1].
  destruct Hc as [acked1 Hg1]; [by destruct n|done|].
  specialize (IH (drop n (e :: batch)) acked1 st1). destruct (write_chunks _ _ _ st1) as [es' st2].
  destruct IH as [acked2 Hg2]; [|done|by exists acked2]. destruct n as [|n]; [done|]. simpl. rewrite length_drop. lia.
Qed.

Lemma good_Flush acked st :
  (0 < ab_batchSize b0)%Z → good b0 sched rows0 acked acked [] 0 st →
  let '(r, st') := Flush st in ∃ acked', good b0 sched rows0 acked' acked' [] 0 st'.
Proof.
  intros Hbs Hg. unfold Flush. unfold fbind at 1.
  pose proof (good_locked take_all (λ fl _ fly' lost', fly' = fl_batch fl ∧ lost' = fl_lost fl) _ _ _ _ _ Hg) as Hk.
  destruct (locked take_all st) as [fl st1].
  destruct Hk as (? & ? & [-> ->] & Hg1).
  { intros rec now b Hl. pose proof (ledger_take b0 rec acked now b Hl) as Ht. destruct (take_all now b) as [fl' b'].
    destruct Ht as [Ht _]. by exists (fl_batch fl'), (fl_lost fl'). }
  unfold fbind at 1. pose proof (good_gap acked fl st1 Hg1) as Hg2. destruct (write_gap fl st1) as [gaps st2].
  destruct Hg2 as [acked2 Hg2]. unfold fbind at 1.
  assert (ab_batchSize (f_buf st2) = ab_batchSize b0) as Eb.
  { destruct (gd_ledger _ _ _ _ _ _ _ _ Hg2) as (used & _ & Hl). pose proof (lg_config _ _ _ _ _ _ Hl). congruence. }
  rewrite Eb. pose proof (good_chunks (length (fl_batch fl)) (Z.to_nat (ab_batchSize b0)) (fl_batch fl) acked2 st2) as Hg3.
  destruct (write_chunks _ _ _ st2) as [es st3]. destruct Hg3 as [acked3 Hg3]; [lia|done|done|].
  unfold fbind. pose proof (good_locked clear_alert (λ _ _ fly' lost', fly' = [] ∧ lost' = 0%Z) _ _ _ _ _ Hg3) as Hk.
  destruct (locked clear_alert st3) as [[] st4]. destruct Hk as (? & ? & [-> ->] & Hg4); [|by exists acked3].
  intros rec now b Hl. pose proof (ledger_cleared b0 rec acked3 now b Hl). destruct (clear_alert now b) as [u b'].
  by exists [], 0%Z.
Qed.

Lemma good_Run ticks acked st :
  (0 < ab_batchSize b0)%Z → good b0 sched rows0 acked acked [] 0 st →
  let '(r, st') := Run ticks st in ∃ acked', good b0 sched rows0 acked' acked' [] 0 st'.
Proof.
  intros Hbs. revert acked st. induction ticks as [|n IH]; intros acked st Hg; simpl; [by apply (good_Flush acked)|].
  unfold fbind. pose proof (good_Flush acked st Hbs Hg) as H1. destruct (Flush st) as [r st1].
  destruct H1 as [acked1 Hg1]. by apply (IH acked1).
Qed.

(** *** A flush that reports an error leaves a loss to be marked *)

Definition unmarked (st : FState S) : Prop := (0 < ab_pendingLost (f_buf st))%Z.

Lemma dropLocked_pending now at_ n b : ab_pendingLost (dropLocked now at_ n b) = (ab_pendingLost b + n)%Z.
Proof. unfold dropLocked. by case_match. Qed.

Lemma arrive_pending arrivals b : (ab_pendingLost b <= ab_pendingLost (arrive arrivals b))%Z.
Proof.
  revert b. induction arrivals as [|[now e] l IH]; intros b; simpl; [lia|]. etrans; [|apply IH].
  unfold Record_. case_match; [rewrite dropLocked_pending|simpl]; lia.
Qed.

Lemma locked_pending {A} (f : Time.t → AuditBuffer → A * AuditBuffer) (d : Z) (st : FState S) :
  (∀ now b, (ab_pendingLost b + d <= ab_pendingLost (f now b).2)%Z) →
  (ab_pendingLost (f_buf st) + d <= ab_pendingLost (f_buf (locked f st).2))%Z.
Proof.
  intros Hf. unfold locked. set (sl := default _ _). specialize (Hf (sl_now sl) (arrive (sl_arrivals sl) (f_buf st))).
  pose proof (arrive_pending (sl_arrivals sl) (f_buf st)). destruct (f _ _) as [a b]. simpl in *. lia.
Qed.

(** [m] loses nothing that was to be marked, and an error it reports is a loss. *)
Definition notes_loss (m : FM (list error)) : Prop := ∀ st,
  (0 <= ab_pendingLost (f_buf st))%Z →
  (ab_pendingLost (f_buf st) <= ab_pendingLost (f_buf (m st).2))%Z ∧ ((m st).1 ≠ [] → unmarked (m st).2).

Lemma notes_gap fl : notes_loss (write_gap fl).
Proof.
  intros st Hp. unfold write_gap. destruct (fl_lost fl <=? 0)%Z eqn:E; [by split; [|intros []]|].
  unfold fbind, chain_call. destruct (cw_AppendCheckGap _ _) as [[[]|e] s']; unfold unmarked.
  - set (f := λ now b, _). split; [|unfold locked; by destruct (f _ _) eqn:Ef; injection Ef as <- <-; intros []].
    pose proof (locked_pending f 0 (mkFState (f_buf st) s' (f_slices st))) as Hl. cbn [f_buf] in Hl.
    specialize (Hl ltac:(intros; simpl; lia)). lia.
  - set (f := λ _ b, _). pose proof (locked_pending f (fl_lost fl) (mkFState (f_buf st) s' (f_slices st))) as Hl.
    cbn [f_buf] in Hl. specialize (Hl ltac:(intros; simpl; lia)). apply Z.leb_gt in E. split; lia.
Qed.

Lemma notes_chunk chunk : chunk ≠ [] → notes_loss (write_chunk chunk).
Proof.
  intros Hne st Hp. unfold write_chunk, fbind, chain_call. destruct (cw_AppendCheckBatch _ _) as [[[]|e] s']; unfold unmarked.
  - set (f := λ now b, _). split; [|unfold locked; by destruct (f _ _) eqn:Ef; injection Ef as <- <-; intros []].
    pose proof (locked_pending f 0 (mkFState (f_buf st) s' (f_slices st))) as Hl. cbn [f_buf] in Hl.
    specialize (Hl ltac:(intros; simpl; lia)). lia.
  - set (f := λ now b, _).
    pose proof (locked_pending f (Z.of_nat (length chunk)) (mkFState (f_buf st) s' (f_slices st))) as Hl. cbn [f_buf] in Hl.
    specialize (Hl ltac:(intros; simpl; rewrite dropLocked_pending; lia)).
    assert (0 < length chunk) by (destruct chunk; [done|simpl; lia]). split; lia.
Qed.

Lemma notes_bind (m m' : FM (list error)) :
  notes_loss m → notes_loss m' → notes_loss (fbind m (λ es, fbind m' (λ es', fret (es ++ es')))).
Proof.
  intros H1 H2 st Hp. unfold fbind. specialize (H1 st Hp). destruct (m st) as [es st1]. simpl in H1.
  destruct H1 as [Hle He]. specialize (H2 st1 ltac:(lia)). destruct (m' st1) as [es' st2]. simpl in *.
  destruct H2 as [Hle' He']. split; [lia|]. intros Hne. destruct es as [|e es]; [by apply He'|].
  specialize (He ltac:(done)). unfold unmarked in *. lia.
Qed.

Lemma notes_chunks fuel n batch : n ≠ 0 → notes_loss (write_chunks fuel n batch).
Proof.
  intros Hn. revert batch. induction fuel as [|fuel IH]; intros [|e batch]; simpl; try (intros st ?; split; [simpl; lia|by intros []]).
  apply notes_bind; [|by apply IH]. apply notes_chunk. by destruct n.
Qed.

Lemma Flush_notes acked st :
  (0 < ab_batchSize b0)%Z → good b0 sched rows0 acked acked [] 0 st →
  let '(r, st') := Flush st in is_ok r = false → unmarked st'.
Proof.
  intros Hbs Hg. unfold Flush. unfold fbind at 1.
  pose proof (good_locked take_all (λ fl _ fly' lost', fly' = fl_batch fl ∧ lost' = fl_lost fl) _ _ _ _ _ Hg) as Hk.
  destruct (locked take_all st) as [fl st1].
  destruct Hk as (? & ? & [-> ->] & Hg1).
  { intros rec now b Hl. pose proof (ledger_take b0 rec acked now b Hl) as Ht. destruct (take_all now b) as [fl' b'].
    destruct Ht as [Ht _]. by exists (fl_batch fl'), (fl_lost fl'). }
  destruct (gd_ledger _ _ _ _ _ _ _ _ Hg1) as (used & _ & Hl1).
  pose proof (notes_gap fl st1 (lg_pending _ _ _ _ _ _ Hl1)) as Hn1. pose proof (good_gap acked fl st1 Hg1) as Hg2.
  unfold fbind. destruct (write_gap fl st1) as [gaps st2]. destruct Hg2 as [acked2 Hg2].
  destruct (gd_ledger _ _ _ _ _ _ _ _ Hg2) as (used2 & _ & Hl2). pose proof (lg_config _ _ _ _ _ _ Hl2) as Hc2.
  set (bs := Z.to_nat (ab_batchSize (f_buf st2))).
  assert (bs ≠ 0) as Hb by (unfold bs; injection Hc2 as _ -> _ _; lia).
  pose proof (notes_chunks (length (fl_batch fl)) bs (fl_batch fl) Hb st2 (lg_pending _ _ _ _ _ _ Hl2)) as Hn2.
  destruct (write_chunks _ bs _ st2) as [es st3]. cbn [fst snd] in Hn1, Hn2.
  assert (ab_pendingLost (f_buf st3) + 0 <= ab_pendingLost (f_buf (locked clear_alert st3).2))%Z as Hn3.
  { apply locked_pending. intros now b. unfold clear_alert. cbn [snd]. case_match; simpl; lia. }
  destruct (locked clear_alert st3) as [[] st4]. cbn [fst snd] in Hn3. destruct Hn1 as [_ He1], Hn2 as [Hle He2].
  unfold join_errors, unmarked in *. destruct gaps as [|e gaps]; simpl.
  - destruct es as [|e es]; [done|]. intros _. specialize (He2 ltac:(done)). lia.
  - intros _. specialize (He1 ltac:(done)). lia.
Qed.

Lemma Run_notes ticks acked st :
  (0 < ab_batchSize b0)%Z → good b0 sched rows0 acked acked [] 0 st →
  let '(r, st') := Run ticks st in is_ok r = false → unmarked st'.
Proof.
  intros Hbs. revert acked st. induction ticks as [|n IH]; intros acked st Hg; simpl; [by apply (Flush_notes acked)|].
  unfold fbind. pose proof (good_Flush acked st Hbs Hg) as H1. destruct (Flush st) as [r st1].
  destruct H1 as [acked1 Hg1]. by apply (IH acked1).
Qed.
End run.

Lemma good_start {S} `{ChainWriter S} `{!ChainLaws S} `{AuditEnv} cfg b0 chain0 rows0 (sched : list (slice S)) :
  NewAuditBuffer true cfg = Ok b0 → cw_holds chain0 rows0 → Forall (λ sl, keeps_rows (sl_other sl)) sched →
  (0 < ab_batchSize b0)%Z ∧ good b0 sched rows0 [] [] [] 0 (mkFState b0 chain0 sched).
Proof.
  intros Hb Hh Ho. split.
  - unfold NewAuditBuffer in Hb. injection Hb as <-. simpl. unfold positive_or, DefaultAuditBatchSize. case_match; lia.
  - split; simpl; [|exists []; by rewrite app_nil_r|done]. exists []. split; [done|]. by eapply ledger_new.
Qed.

(** C15. Nothing is lost silently.  Handlers record events at any moment, between and
    during the flushes of a run, other users of the writer append in between, and each
    write to the chain may fail before or after it took effect.  At the end the chain
    holds, after the rows it started with and in order, a row for every acknowledged
    write; the events under the acknowledged batches, followed by the queue, are a
    subsequence of the events recorded, so none is chained twice or out of order; and
    every event recorded is a leaf of an acknowledged batch, counted by an acknowledged
    gap marker, still queued, or counted in the loss the next marker will state.  The
    queue never outgrows its capacity. *)
Theorem nothing_lost_silently {S} `{ChainWriter S} `{!ChainLaws S} `{AuditEnv} cfg b0 chain0 rows0 (sched : list (slice S)) ticks :
  NewAuditBuffer true cfg = Ok b0 → cw_holds chain0 rows0 → Forall (λ sl, keeps_rows (sl_other sl)) sched →
  let '(r, st) := Run ticks (mkFState b0 chain0 sched) in
  let b := f_buf st in
  ∃ used new acked,
    sched = used ++ f_slices st ∧ cw_holds (f_chain st) (rows0 ++ new) ∧ map row_of acked `sublist_of` new ∧
    leaves acked ++ ab_queue b `sublist_of` recorded used ∧
    Z.of_nat (length (recorded used)) =
      (Z.of_nat (length (leaves acked)) + marked acked + Z.of_nat (length (ab_queue b)) + ab_pendingLost b)%Z ∧
    (Z.of_nat (length (ab_queue b)) <= ab_capacity b0)%Z.
Proof.
  intros Hb Hh Ho. destruct (good_start _ _ _ _ _ Hb Hh Ho) as [Hbs Hg].
  pose proof (good_Run _ _ _ ticks _ _ Hbs Hg) as Hr. destruct (Run ticks _) as [r st].
  destruct Hr as [acked [(used & Hs & Hl) (new & Hn & Hsub) _]]. exists used, new, acked.
  pose proof (lg_count _ _ _ _ _ _ Hl). pose proof (lg_bound _ _ _ _ _ _ Hl) as Hq.
  pose proof (lg_config _ _ _ _ _ _ Hl) as Hc. injection Hc as Hc _ _ _. rewrite Hc in Hq.
  split_and!; try done; [apply (lg_order _ _ _ _ _ _ Hl)|simpl in *; lia].
Qed.

(** C16. A surface that fails closed does so from the first failed flush until the loss is
    in the chain.  Under the same interleavings: when the operator asked for it, the losses
    have reached the threshold, and the last flush failed or some loss is not yet counted
    by an acknowledged marker, the surface refuses; and it never refuses before the
    threshold is reached. *)
Theorem fail_closed_until_marked {S} `{ChainWriter S} `{!ChainLaws S} `{AuditEnv} cfg b0 chain0 rows0 (sched : list (slice S)) ticks :
  NewAuditBuffer true cfg = Ok b0 → cw_holds chain0 rows0 → Forall (λ sl, keeps_rows (sl_other sl)) sched →
  let '(r, st) := Run ticks (mkFState b0 chain0 sched) in
  let b := f_buf st in
  (ac_FailClosed cfg = true → (ab_threshold b0 <= ab_dropped b)%Z → is_ok r = false ∨ (0 < ab_pendingLost b)%Z → FailClosed b = true) ∧
  (FailClosed b = true → ac_FailClosed cfg = true ∧ (ab_threshold b0 <= ab_dropped b)%Z).
Proof.
  intros Hb Hh Ho. destruct (good_start _ _ _ _ _ Hb Hh Ho) as [Hbs Hg].
  pose proof (good_Run _ _ _ ticks _ _ Hbs Hg) as Hr. pose proof (Run_notes _ _ _ ticks _ _ Hbs Hg) as Hn.
  destruct (Run ticks _) as [r st]. destruct Hr as [acked [(used & Hs & Hl) _ _]].
  pose proof (lg_config _ _ _ _ _ _ Hl) as Hc. injection Hc as _ _ Ht Hf.
  assert (ab_failClose b0 = ac_FailClosed cfg) as Ef by (unfold NewAuditBuffer in Hb; by injection Hb as <-).
  rewrite Ef in Hf. pose proof (lg_alert _ _ _ _ _ _ Hl) as Ha. pose proof (lg_raised _ _ _ _ _ _ Hl) as Hra.
  rewrite Ht in Ha, Hra. unfold FailClosed. rewrite Hf, andb_true_iff. split; [|tauto].
  intros Hcfg Hth Hloss. split; [done|]. apply Ha; [done|]. unfold unmarked in Hn. destruct Hloss as [?%Hn|?]; lia.
Qed.

(** ** The audit writer is such a chain *)

Section writer.
Context `{AuditEnv} (id : string).

#[export] Instance writer_chain : ChainWriter AState :=
  {| cw_AppendCheckBatch := AppendCheckBatch; cw_AppendCheckGap := AppendCheckGap |}.

Definition is_check (e : AuditEntry) : bool :=
  bool_decide (au_Kind e = AuditKindCheckBatch) || bool_decide (au_Kind e = AuditKindCheckGap).

Definition row_entry (r : ChainRow) : AuditEntry :=
  match r with
  | RowBatch b => mkAudit AuditKindCheckBatch "" (canonical (JObj
      [("from", JTime (cb_From b)); ("to", JTime (cb_To b)); ("count", JInt (cb_Count b));
       ("root", JStr (hex (cb_Root b))); ("digest", JStr (cb_Digest b))]))
  | RowGap g => mkAudit AuditKindCheckGap "" (canonical (JObj
      [("from", JTime (cg_From g)); ("to", JTime (cg_To g)); ("dropped", JInt (cg_Dropped g));
       ("reason", JStr (cg_Reason g))]))
  end.

Definition check_log (s : AState) : list AuditEntry := filter (λ e, is_check e = true) (log_of id s).

Definition writer_holds (s : AState) (rows : list ChainRow) : Prop := winv_ok id s ∧ check_log s = map row_entry rows.

Lemma markers_no_check ms : Forall (is_marker id) ms → filter (λ e, is_check e = true) ms = [].
Proof.
  induction 1 as [|e ms [Hk _] _ IH]; [done|]. rewrite filter_cons_False; [done|].
  unfold is_check. rewrite Hk. by vm_compute.
Qed.

Lemma check_log_grows s s' ms es :
  grows id s s' (ms ++ es) → Forall (is_marker id) ms →
  check_log s' = check_log s ++ filter (λ e, is_check e = true) es.
Proof. intros Hg Hm. unfold check_log. by rewrite (gr_log _ _ _ _ Hg), !filter_app, (markers_no_check ms Hm). Qed.

Lemma writer_append_row (r : ChainRow) (e : Entry) s rows :
  (∀ ae, abstract_entry e = Some ae → ae = row_entry r) → writer_holds s rows →
  let '(res, s') := AuditWriter_Append [e] s in
  writer_holds s' (rows ++ [r]) ∨ (∃ er, res = Err er) ∧ writer_holds s' rows.
Proof.
  intros He [Hw Hr]. pose proof (Append_spec id [e] s Hw) as Ha. destruct (AuditWriter_Append [e] s) as [res s'].
  destruct Ha as (ms & es & Hg & Hm & Hw' & Hes). pose proof (check_log_grows _ _ _ _ Hg Hm) as Hc.
  destruct Hes as [[-> Herr]|Hes].
  - right. split; [done|]. split; [done|]. rewrite Hc, Hr. by rewrite app_nil_r.
  - left. split; [done|]. simpl in Hes. destruct (abstract_entry e) as [ae|] eqn:E; [|done]. simpl in Hes. injection Hes as <-.
    rewrite Hc, Hr, (He ae eq_refl), map_app. f_equal. destruct r; by rewrite filter_cons_True.
Qed.

Lemma abstract_entry_doc kind subject j ae :
  abstract_entry (mkEntry kind subject (PDoc j)) = Some ae → ae = mkAudit kind subject (canonical j).
Proof.
  unfold abstract_entry. cbn [e_Payload e_Kind e_Subject]. destruct (canonical_payload (PDoc j)) as [doc|] eqn:E; [|done].
  assert (doc = canonical j) as ->.
  { cbn in E. unfold canonicalJSONBytes in E. destruct (decodable j); [|done]. by injection E as <-. }
  case_match; [done|]. by intros [= <-].
Qed.

Lemma writer_batch_law b s rows :
  writer_holds s rows →
  let '(r, s') := AppendCheckBatch b s in writer_holds s' (rows ++ [RowBatch b]) ∨ (∃ e, r = Err e) ∧ writer_holds s' rows.
Proof.
  apply writer_append_row. intros ae. apply abstract_entry_doc.
Qed.

Lemma writer_gap_law g s rows :
  writer_holds s rows →
  let '(r, s') := AppendCheckGap g s in writer_holds s' (rows ++ [RowGap g]) ∨ (∃ e, r = Err e) ∧ writer_holds s' rows.
Proof.
  apply writer_append_row. intros ae. apply abstract_entry_doc.
Qed.

#[export] Instance writer_laws : ChainLaws AState :=
  {| cw_holds := writer_holds; cw_batch_law := writer_batch_law; cw_gap_law := writer_gap_law |}.

(** The rest of the process uses the same writer for other kinds of entries. *)
Lemma other_entries_keep_rows c :
  (∀ es, asks c es → Forall (λ e, is_check e = false) es) → keeps_rows (λ s, (run_call c s).2).
Proof.
  intros Hno s rows [Hw Hr]. change (writer_holds (run_call c s).2 rows).
  assert (∃ ms es, grows id s (run_call c s).2 (ms ++ es) ∧ Forall (is_marker id) ms ∧ winv_ok id (run_call c s).2 ∧ Forall (λ e, is_check e = false) es)
    as (ms & es & Hg & Hm & Hw' & He).
  { destruct c as [p|l|]; simpl.
    - pose proof (InTx_spec id p s Hw) as Hs. destruct (AuditWriter_InTx p s) as [r s'].
      destruct Hs as (ms & es & Hg & Hm & Hw' & [[-> _]|[Hem _]]); exists ms; [exists []|exists es]; split_and!; try done. by apply Hno.
    - pose proof (Append_spec id l s Hw) as Hs. destruct (AuditWriter_Append l s) as [r s'].
      destruct Hs as (ms & es & Hg & Hm & Hw' & [[-> _]|Hem]); exists ms; [exists []|exists es]; split_and!; try done. by apply Hno.
    - pose proof (ReloadHead_spec id s Hw) as Hs. destruct (ReloadHead s) as [r s']. destruct Hs as [Hg Hw'].
      by exists [], []. }
  split; [done|]. rewrite (check_log_grows _ _ _ _ Hg Hm), Hr.
  rewrite filter_none; [by rewrite app_nil_r|]. intros e Hin. rewrite Forall_forall in He. by rewrite He.
Qed.
End writer.

(** ** A buffer over a writer that loses replies *)

Module BufferDemo.
#[local] Existing Instance toy_env.
#[local] Existing Instance writer_chain.
#[local] Instance demo_laws : ChainLaws AState := writer_laws "w1".

Definition seen (at_ : Time.t) : Event := mkEvent EventCheck at_ "pep" "read" "user:u" "doc:d" "deny" "" "" "" "POST" "/access/v1/evaluation" false "" "".
Definition arrivals (l : list Z) : list (Time.t * Event) := map (λ at_, (at_, seen at_)) l.
Definition quietly (l : list Z) (now : Time.t) : slice AState := mkSlice (arrivals l) (λ s, s) now.

Definition cfg : AuditConfig := mkAuditConfig 2 2 0 0 true.
Definition buffer : AuditBuffer := match NewAuditBuffer true cfg with Ok b => b | Err _ => mkAuditBuffer 0 0 0 0 false [] 0 0 0 0 0 false None 0 0 0 0 [] end.

(** Three events meet a queue of two; the reply of the marker is lost; one more event
    arrives while the flush runs. *)
Definition sched : list (slice AState) := [quietly [10; 20; 30] 31; quietly [] 32; quietly [40] 41; quietly [] 42]%Z.

Lemma sched_keeps : Forall (λ sl, keeps_rows (sl_other sl)) sched.
Proof. unfold sched. rewrite !Forall_cons, Forall_nil. split_and!; [by intros s rows..|done]. Qed.

Lemma start_holds steps : Forall (exclusive "w1") steps → cw_holds (start steps) [].
Proof. intros Hs. split; [by apply start_inv|]. by vm_compute. Qed.

Lemma nothing_lost_silently_witness :
  NewAuditBuffer true cfg = Ok buffer ∧ cw_holds (start lossy) [] ∧ Forall (λ sl, keeps_rows (sl_other sl)) sched ∧
  let '(r, st) := Run 0 (mkFState buffer (start lossy) sched) in
  let b := f_buf st in
  ∃ used new acked,
    sched = used ++ f_slices st ∧ cw_holds (f_chain st) ([] ++ new) ∧ map row_of acked `sublist_of` new ∧
    leaves acked ++ ab_queue b `sublist_of` recorded used ∧
    Z.of_nat (length (recorded used)) =
      (Z.of_nat (length (leaves acked)) + marked acked + Z.of_nat (length (ab_queue b)) + ab_pendingLost b)%Z ∧
    (Z.of_nat (length (ab_queue b)) <= ab_capacity buffer)%Z.
Proof.
  split; [reflexivity|]. split; [apply start_holds, lossy_exclusive|]. split; [apply sched_keeps|].
  pose proof (nothing_lost_silently cfg buffer (start lossy) [] sched 0 eq_refl (start_holds _ lossy_exclusive) sched_keeps) as H. exact H.
Defined.

Lemma fail_closed_until_marked_witness :
  (ab_threshold buffer <= ab_dropped (f_buf (Run 0 (mkFState buffer (start lossy) sched)).2))%Z ∧
  is_ok (Run 0 (mkFState buffer (start lossy) sched)).1 = false ∧
  FailClosed (f_buf (Run 0 (mkFState buffer (start lossy) sched)).2) = true.
Proof.
  assert (ab_threshold buffer <= ab_dropped (f_buf (Run 0 (mkFState buffer (start lossy) sched)).2))%Z as Ht.
  { vm_compute. intros [=]. }
  assert (is_ok (Run 0 (mkFState buffer (start lossy) sched)).1 = false) as Hr by by vm_compute.
  split; [exact Ht|]. split; [exact Hr|].
  pose proof (fail_closed_until_marked cfg buffer (start lossy) [] sched 0 eq_refl (start_holds _ lossy_exclusive) sched_keeps) as H.
  destruct (Run 0 (mkFState buffer (start lossy) sched)) as [r st]. destruct H as [H _].
  apply H; [reflexivity|exact Ht|left; exact Hr].
Defined.

(** Four events were recorded: one was dropped and its marker is in the chain although
    its reply was lost, so the loss will be stated again; two are in a batch; one waits. *)
Example what_became_of_them :
  let '(r, st) := Run 0 (mkFState buffer (start lossy) sched) in
  r = Err [ErrDatabase] ∧ map au_Kind (check_log "w1" (f_chain st)) = [AuditKindCheckGap; AuditKindCheckBatch] ∧
  ab_queue (f_buf st) = [seen 40] ∧ ab_pendingLost (f_buf st) = 1%Z ∧ FailClosed (f_buf st) = true ∧ length (ab_raised (f_buf st)) = 1.
Proof. vm_compute. auto 10. Qed.
End BufferDemo.

(** A gap marker does not name the window of a lost batch.  Two events of the instants
    10 and 20 wait in the queue and the write of their batch fails: the marker that
    the next flush writes counts both and names the window from 20 to 20. *)
Theorem gap_window_misses_lost_batch :
  let '(r, st) := @Run AState (@writer_chain toy_env) toy_env 1
      (mkFState BufferDemo.buffer (start [mkAStep (λ db, db) Lost (λ n, n)]) [BufferDemo.quietly [10; 20]%Z 21]) in
  r = Ok tt ∧ map au_Payload (@check_log "w1" (f_chain st)) =
    [JObj [("dropped", JInt 2); ("from", JTime 20); ("reason", JStr "audit buffer saturated"); ("to", JTime 20)]].
Proof. vm_compute. auto. Qed.
