(* ===== verification/Api.v ===== *)
(** * The served surfaces

    Models the handlers of internal/api: the route table and its credentials (server.go),
    the AuthZEN check endpoint (authzen.go), the decide endpoints (decisions.go, the
    refusals of ratelimit.go), approvals (approvals.go) and cancellations (cancel.go).

    A handler is a function of the request and of what it shares with the process: the
    check service, the rate limiters, the audit buffer, the database.  Its answer is a
    status, headers and a body; a message is kept where the handler writes it, and is
    [Wording] where it is the text of an error.  The services a handler calls are the
    interfaces it is built with.  The iteration order of a Go map is the argument
    [ranged]. *)
From stdpp Require Import pretty.
From Stdlib Require Import Ascii.
From S2P Require Import Prelude GoLib Policy Cel Engine Json Store World Text Strconv Limiter Netip Url Fact Egress.
From S2P Require Import Challenge Quorum Delay Identity Service AuditBuffer.

(** ** Routes and credentials (server.go) *)

Inductive Surface := SurfacePEP | SurfaceConsole | SurfaceCallback | SurfaceOther (s : string).
Inductive Auth := AuthWorkload | AuthUser | AuthPublic | AuthStatic | AuthOther (s : string).

#[export] Instance Surface_eq_dec : EqDecision Surface.
Proof. solve_decision. Defined.
#[export] Instance Auth_eq_dec : EqDecision Auth.
Proof. solve_decision. Defined.

Definition Surfaces : list Surface := [SurfacePEP; SurfaceConsole; SurfaceCallback].
Definition Surface_Valid (s : Surface) : bool := contains Surfaces s.

Definition needsCredential (a : Auth) : bool := bool_decide (a = AuthWorkload) || bool_decide (a = AuthUser).

Definition allowedAuth (s : Surface) : list Auth :=
  match s with
  | SurfacePEP => [AuthWorkload]
  | SurfaceConsole => [AuthUser; AuthStatic]
  | SurfaceCallback => [AuthWorkload; AuthPublic]
  | SurfaceOther _ => []
  end.

Definition containsAuth (l : list Auth) (want : Auth) : bool := contains l want.

Record Route (H : Type) := mkRoute {
  ro_Name : string; ro_Surface : Surface; ro_Pattern : string; ro_Auth : Auth; ro_Handler : option H }.
Arguments mkRoute {H} _ _ _ _ _.
Arguments ro_Name {H} _.
Arguments ro_Surface {H} _.
Arguments ro_Pattern {H} _.
Arguments ro_Auth {H} _.
Arguments ro_Handler {H} _.

(** What a router holds behind a pattern: a handler behind the identity middleware, a
    handler anyone reaches, or one of the two probes. *)
Inductive guarded (H : Type) := Guarded (kinds : list SubjectKind) (h : H) | Bare (h : H) | Probe (name : string).
Arguments Guarded {H} _ _.
Arguments Bare {H} _.
Arguments Probe {H} _.

(** [srv_mux] is the three routers, [srv_seen] the names behind their patterns. *)
Record Server (H : Type) := mkServer {
  srv_identity : bool; srv_mux : list (Surface * string * guarded H);
  srv_mounted : list (Route H); srv_seen : list (Surface * string * string) }.
Arguments mkServer {H} _ _ _ _.
Arguments srv_identity {H} _.
Arguments srv_mux {H} _.
Arguments srv_mounted {H} _.
Arguments srv_seen {H} _.

Section server.
Context {H : Type}.

Definition NewServer (identity : bool) (addresses : list Surface) : result (Server H) :=
  if negb (forallb Surface_Valid addresses) then Err []
  else Ok (mkServer identity
    (flat_map (λ s, [(s, "GET /healthz", Probe "healthz"); (s, "GET /readyz", Probe "readyz")]) Surfaces) []
    (flat_map (λ s, [(s, "GET /healthz", "healthz"); (s, "GET /readyz", "readyz")]) Surfaces)).

Definition server_authenticate (r : Route H) (h : H) : guarded H :=
  match ro_Auth r with
  | AuthWorkload => Guarded [SubjectWorkload] h
  | AuthUser => Guarded [SubjectUser] h
  | _ => Bare h
  end.

Definition seen_at (srv : Server H) (s : Surface) (pattern : string) : bool :=
  existsb (λ e, bool_decide (e.1 = (s, pattern))) (srv_seen srv).

Definition mount (srv : Server H) (r : Route H) : result (Server H) :=
  if bool_decide (ro_Name r = "") then Err []
  else match ro_Handler r with
  | None => Err []
  | Some h =>
      if negb (Surface_Valid (ro_Surface r)) then Err []
      else if bool_decide (ro_Pattern r = "") then Err []
      else if negb (containsAuth (allowedAuth (ro_Surface r)) (ro_Auth r)) then Err []
      else if needsCredential (ro_Auth r) && negb (srv_identity srv) then Err []
      else if seen_at srv (ro_Surface r) (ro_Pattern r) then Err []
      else Ok (mkServer (srv_identity srv)
                 (srv_mux srv ++ [(ro_Surface r, ro_Pattern r, server_authenticate r h)])
                 (srv_mounted srv ++ [r])
                 (srv_seen srv ++ [(ro_Surface r, ro_Pattern r, ro_Name r)]))
  end.

Fixpoint mount_each (srv : Server H) (rs : list (Route H)) : result unit * Server H :=
  match rs with
  | [] => (Ok tt, srv)
  | r :: rs => match mount srv r with Ok srv => mount_each srv rs | Err e => (Err e, srv) end
  end.

(** [Mount]: a provider that is nil or whose route is refused stops it; the routes
    before stay. *)
Fixpoint Mount (srv : Server H) (providers : list (option (list (Route H)))) : result unit * Server H :=
  match providers with
  | [] => (Ok tt, srv)
  | None :: _ => (Err [], srv)
  | Some rs :: providers =>
      match mount_each srv rs with
      | (Ok _, srv) => Mount srv providers
      | (Err e, srv) => (Err e, srv)
      end
  end.

(** A request that reached a pattern: whom its handler runs for, if it runs. *)
Definition serve `{TokenText} (ranged : gmap string Time.t → list string) (g : guarded H) (m : Middleware) (now : Time.t)
    (r : HTTPRequest) (c : LibCall) : option (option Subject * H) :=
  match g with
  | Guarded kinds h => match (Require_ ranged m kinds now r c).1.1 with Handled a => Some (Some (au_Subject a), h) | Rejected _ _ _ => None end
  | Bare h => Some (None, h)
  | Probe _ => None
  end.

Definition Mounted (srv : Server H) (s : Surface) : list (Route H) := filter (λ r, ro_Surface r = s) (srv_mounted srv).
End server.

(** ** Answers *)

Inductive message := Says (s : string) | Wording.

Inductive ReplyBody :=
  | EvaluationBody (decision : bool) (context : list (string * json))
  | DecisionBody (r : Result)
  | ReviewBody (r : QuorumReview)
  | ErrorBody (code : string) (m : message).

Record Reply := mkReply { re_Status : Z; re_Header : list (string * string); re_Body : ReplyBody }.

Definition writeJSON (header : list (string * string)) (status : Z) (body : ReplyBody) : Reply :=
  mkReply status (header ++ [("Content-Type", "application/json"); ("Cache-Control", "no-store")]) body.

Definition writeError (status : Z) (code : string) (m : message) : Reply := writeJSON [] status (ErrorBody code m).

(** ** Request bodies *)

Definition DefaultMaxRequestBytes : Z := 2 ^ 20.
Definition MaxEntityIDBytes : nat := 255.

Record AEntity := mkAEntity { ae_Type : string; ae_ID : string; ae_Properties : gmap string decoded }.
Record ActionRef := mkActionRef { af_Name : string; af_Properties : gmap string decoded }.
Record EvaluationRequest := mkEvaluationRequest {
  er_Subject : AEntity; er_Resource : AEntity; er_Action : ActionRef; er_Context : gmap string decoded }.
Record DecisionRequest := mkDecisionRequest { dr_Request : EvaluationRequest; dr_TTL : string }.

Definition no_aentity : AEntity := mkAEntity "" "" ∅.
Definition no_request : DecisionRequest := mkDecisionRequest (mkEvaluationRequest no_aentity no_aentity (mkActionRef "" ∅) ∅) "".

(** How encoding/json matches a member to a field: letters in any case, and the two
    letters outside ASCII that fold into it. *)
Fixpoint fold_name (l : list ascii) : list ascii :=
  match l with
  | a :: ((b :: ((c :: l'') as l')) as rest) =>
      if bool_decide ((nat_of_ascii a, nat_of_ascii b) = (197, 191)) then "s"%char :: fold_name l'
      else if bool_decide ((nat_of_ascii a, nat_of_ascii b, nat_of_ascii c) = (226, 132, 170)) then "k"%char :: fold_name l''
      else Strconv.lower a :: fold_name rest
  | [a; b] =>
      if bool_decide ((nat_of_ascii a, nat_of_ascii b) = (197, 191)) then ["s"%char] else [Strconv.lower a; Strconv.lower b]
  | [a] => [Strconv.lower a]
  | [] => []
  end.

Definition names (key member : string) : bool := bool_decide (fold_name (bytes member) = bytes key).

(** A member that is null leaves a string or a struct alone and empties a map. *)
Definition into_string (cur : string) (v : decoded) : option string :=
  match v with GString s => Some s | GNull => Some cur | _ => None end.

Definition into_map (cur : gmap string decoded) (v : decoded) : option (gmap string decoded) :=
  match v with
  | GObject fields => Some (foldl (λ m kv, <[kv.1 := kv.2]> m) cur fields)
  | GNull => Some ∅
  | _ => None
  end.

Fixpoint into_fields {A} (set : A → string → decoded → option A) (cur : A) (fields : list (string * decoded)) : option A :=
  match fields with
  | [] => Some cur
  | (k, v) :: fields => a ← set cur k v; into_fields set a fields
  end.

Definition into_struct {A} (set : A → string → decoded → option A) (cur : A) (v : decoded) : option A :=
  match v with GObject fields => into_fields set cur fields | GNull => Some cur | _ => None end.

Definition set_entity (e : AEntity) (k : string) (v : decoded) : option AEntity :=
  if names "type" k then s ← into_string (ae_Type e) v; Some (mkAEntity s (ae_ID e) (ae_Properties e))
  else if names "id" k then s ← into_string (ae_ID e) v; Some (mkAEntity (ae_Type e) s (ae_Properties e))
  else if names "properties" k then m ← into_map (ae_Properties e) v; Some (mkAEntity (ae_Type e) (ae_ID e) m)
  else Some e.

Definition set_action (a : ActionRef) (k : string) (v : decoded) : option ActionRef :=
  if names "name" k then s ← into_string (af_Name a) v; Some (mkActionRef s (af_Properties a))
  else if names "properties" k then m ← into_map (af_Properties a) v; Some (mkActionRef (af_Name a) m)
  else Some a.

Definition set_request (r : EvaluationRequest) (k : string) (v : decoded) : option EvaluationRequest :=
  if names "subject" k
  then e ← into_struct set_entity (er_Subject r) v; Some (mkEvaluationRequest e (er_Resource r) (er_Action r) (er_Context r))
  else if names "resource" k
  then e ← into_struct set_entity (er_Resource r) v; Some (mkEvaluationRequest (er_Subject r) e (er_Action r) (er_Context r))
  else if names "action" k
  then a ← into_struct set_action (er_Action r) v; Some (mkEvaluationRequest (er_Subject r) (er_Resource r) a (er_Context r))
  else if names "context" k
  then m ← into_map (er_Context r) v; Some (mkEvaluationRequest (er_Subject r) (er_Resource r) (er_Action r) m)
  else Some r.

(** The embedded request's members stand beside [ttl]. *)
Definition set_decision (d : DecisionRequest) (k : string) (v : decoded) : option DecisionRequest :=
  if names "ttl" k then s ← into_string (dr_TTL d) v; Some (mkDecisionRequest (dr_Request d) s)
  else r ← set_request (dr_Request d) k v; Some (mkDecisionRequest r (dr_TTL d)).

Definition validate (req : EvaluationRequest) : option message :=
  if bool_decide (ae_Type (er_Subject req) = "") || bool_decide (ae_ID (er_Subject req) = "")
  then Some (Says "subject needs a type and an id")
  else if bool_decide (af_Name (er_Action req) = "") then Some (Says "action needs a name")
  else if bool_decide (ae_Type (er_Resource req) = "") || bool_decide (ae_ID (er_Resource req) = "")
  then Some (Says "resource needs a type and an id")
  else if (MaxEntityIDBytes <? String.length (ae_ID (er_Subject req)))%nat then Some (Says "the subject id is longer than 255 bytes")
  else if (MaxEntityIDBytes <? String.length (ae_ID (er_Resource req)))%nat then Some (Says "the resource id is longer than 255 bytes")
  else None.

(** [http.MaxBytesReader] under the decoder: it sees the first bytes of the body.
    [json_Truncated] says that a text ends inside its first value, where the decoder
    asks for more and a longer body gives the error of the reader. *)
Class JsonPrefix := { json_Truncated : string → bool }.

Inductive BodyError := TooLarge | Invalid (m : message).

Definition decode_body `{JsonText, JsonPrefix} (maxBytes : Z) (body : string) : decoded + BodyError :=
  let seen := unbytes (take (Z.to_nat maxBytes) (bytes body)) in
  match json_Decode seen with
  | Some v => inl v
  | None => inr (if (maxBytes <? Z.of_nat (String.length body))%Z && json_Truncated seen then TooLarge else Invalid Wording)
  end.

Definition read_request {A} `{JsonText, JsonPrefix} (set : A → string → decoded → option A) (zero : A) (request : A → EvaluationRequest)
    (maxBytes : Z) (body : string) : A + BodyError :=
  match decode_body maxBytes body with
  | inr e => inr e
  | inl v =>
      match into_struct set zero v with
      | None => inr (Invalid Wording)
      | Some a => match validate (request a) with Some m => inr (Invalid m) | None => inl a end
      end
  end.

Definition decodeEvaluationRequest `{JsonText, JsonPrefix} : Z → string → EvaluationRequest + BodyError :=
  read_request set_request (dr_Request no_request) id.

Definition decodeDecisionRequest `{JsonText, JsonPrefix} : Z → string → DecisionRequest + BodyError :=
  read_request set_decision no_request dr_Request.

(** ** From a request to an evaluation input (authzen.go) *)

Fixpoint attributeValue (t : Typ) (raw : decoded) {struct raw} : result value :=
  if IsList t then
    match raw with
    | GList items =>
        let? vs := (fix go (items : list decoded) : result (list value) :=
                      match items with
                      | [] => Ok []
                      | item :: items => let? v := attributeValue (Elem t) item in let? vs := go items in Ok (v :: vs)
                      end) items in
        Ok (VList vs)
    | _ => Err []
    end
  else if bool_decide (t = TypeBool) then match raw with GBool b => Ok (VBool b) | _ => Err [] end
  else if bool_decide (t = TypeInt) then match raw with GNumber n => let? i := ParseInt n in Ok (VInt i) | _ => Err [] end
  else if bool_decide (t = TypeDouble) then match raw with GNumber n => let? f := ParseFloat n in Ok (VDouble f) | _ => Err [] end
  else if bool_decide (t = TypeString) then match raw with GString s => Ok (VString s) | _ => Err [] end
  else if bool_decide (t = TypeTimestamp) then match raw with GString s => let? x := Parse_RFC3339Nano s in Ok (VTime x) | _ => Err [] end
  else if bool_decide (t = TypeDuration) then match raw with GString s => let? d := ParseDuration s in Ok (VDuration d) | _ => Err [] end
  else Err [].

Section input.
Context (ranged : gmap string decoded → list (string * decoded)) (aliases : gmap string string).

Definition renamed (name : string) : string := default name (aliases !! name).

Fixpoint entity_attributes (declared : EntityType) (ps : list (string * decoded)) (acc : gmap string value) : result (gmap string value) :=
  match ps with
  | [] => Ok acc
  | (name, raw) :: ps =>
      match EntityType_Attribute declared (renamed name) with
      | None => entity_attributes declared ps acc
      | Some attr => let? v := attributeValue (attr_Type attr) raw in entity_attributes declared ps (<[renamed name := v]> acc)
      end
  end.

Definition entityInput (schema : Schema) (e : AEntity) : result Entity :=
  match Schema_Entity schema (ae_Type e) with
  | None => Ok (mkEntity (ae_Type e) (ae_ID e) ∅)
  | Some declared =>
      let? attributes := entity_attributes declared (ranged (ae_Properties e)) ∅ in
      let attributes :=
        match EntityType_Attribute declared "id" with
        | Some attr => if bool_decide (attr_Type attr = TypeString) && negb (bool_decide (ae_ID e = ""))
                       then <["id" := VString (ae_ID e)]> attributes else attributes
        | None => attributes
        end in
      Ok (mkEntity (ae_Type e) (ae_ID e) attributes)
  end.

Definition evaluationInput (schema : Schema) (req : EvaluationRequest) (ctxType : string) : result Input :=
  let? subject := entityInput schema (er_Subject req) in
  let? resource := entityInput schema (er_Resource req) in
  if bool_decide (ctxType = "") then Ok (mkInput (af_Name (er_Action req)) subject resource no_entity)
  else
    let? context := entityInput schema (mkAEntity ctxType "" (er_Context req)) in
    Ok (mkInput (af_Name (er_Action req)) subject resource context).
End input.

(** ** The check endpoint *)

Definition ContextKeyReason : string := "stamp.reason".
Definition ContextKeyPolicyID : string := "stamp.policy_id".
Definition ContextKeyPolicyVersion : string := "stamp.policy_version".
Definition ContextKeyObligations : string := "stamp.obligations".

Record CheckAPI := mkCheckAPI { ca_ctxType : string; ca_aliases : gmap string string; ca_maxBytes : Z }.

Definition NewCheckAPI (service audit : bool) (ctxType : string) (aliases : gmap string string) (maxBytes : Z) : result CheckAPI :=
  if negb service || negb audit then Err []
  else Ok (mkCheckAPI ctxType aliases (if (maxBytes <=? 0)%Z then DefaultMaxRequestBytes else maxBytes)).

(** The parts of an HTTP request the handlers read. *)
Record WebRequest := mkWebRequest {
  wr_Method : string; wr_Path : string; wr_Body : string; wr_IdempotencyKey : string; wr_id : string; wr_ordinal : string }.

Definition caller_name (c : option Subject) : string := match c with None => anonymousCaller | Some s => CallerID s end.

Definition EDecision_string (d : EDecision) : string :=
  match d with Deny => "deny" | Engine.Allow => "allow" | Challenged => "challenge" end.

Definition CheckResult_Allowed (r : CheckResult) : bool := bool_decide (cr_decision r = Engine.Allow).

Definition respond (result : CheckResult) (revision : string) : Reply :=
  writeJSON [] 200 (EvaluationBody (CheckResult_Allowed result)
    ([(ContextKeyReason, JStr (Reason_string (cr_reason result))); (ContextKeyObligations, JArr [])] ++
     (if bool_decide (revision = "") then [] else [(ContextKeyPolicyVersion, JStr revision)]) ++
     (if bool_decide (cr_policyID result = "") then [] else [(ContextKeyPolicyID, JStr (cr_policyID result))]))).

Definition check_event (now : Time.t) (r : WebRequest) (callerID : string) (req : EvaluationRequest) (result : CheckResult) (revision : string) : Event :=
  mkEvent EventCheck now callerID (af_Name (er_Action req))
    (ae_Type (er_Subject req) +:+ ":" +:+ ae_ID (er_Subject req)) (ae_Type (er_Resource req) +:+ ":" +:+ ae_ID (er_Resource req))
    (EDecision_string (cr_decision result)) (Reason_string (cr_reason result)) (cr_policyID result) revision
    (wr_Method r) (wr_Path r) (CheckResult_Allowed result) "" "".

Section check.
Context `{CEL, JsonText, JsonPrefix} (ranged : gmap string decoded → list (string * decoded)).

(** The handler reads the service four times: its schema, an evaluation, and its
    revision twice.  The poller may refresh it in between ([swap1] to [swap3]). *)
Definition check_evaluate (a : CheckAPI) (swap1 swap2 swap3 : CheckService → CheckService) (evalNow now : Time.t)
    (caller : option Subject) (r : WebRequest) (service : CheckService) (audit : AuditBuffer) : Reply * CheckService * AuditBuffer :=
  let callerID := caller_name caller in
  if FailClosed audit then (respond (DenyResult ReasonAuditUnavailable) "", service, audit)
  else match decodeEvaluationRequest (ca_maxBytes a) (wr_Body r) with
  | inr e => (writeError 400 "invalid_request" (match e with Invalid m => m | TooLarge => Wording end), service, audit)
  | inl req =>
      match sn_schema <$> cs_evaluator service with
      | None =>
          let result := DenyResult ReasonPolicySetStale in
          (respond result "", service, Record_ now (check_event now r callerID req result (cs_revision service)) audit)
      | Some schema =>
          match evaluationInput ranged (ca_aliases a) schema req (ca_ctxType a) with
          | Err _ => (writeError 400 "invalid_property" Wording, service, audit)
          | Ok input =>
              let '(out, service) := CheckService_Evaluate (swap1 service) evalNow input in
              let result := match out with Ok result => result | Err _ => DenyResult ReasonEvaluationFailed end in
              let service := swap2 service in
              let revision := cs_revision service in
              let service := swap3 service in
              (respond result revision, service,
               Record_ now (check_event now r callerID req result (cs_revision service)) audit)
          end
      end
  end.
End check.

(** ** The decide endpoints (decisions.go, ratelimit.go) *)

Definition DecisionsPath : string := "/decisions".
Definition CodeNotInstalled : string := "not_installed".
Definition CodeIdempotencyKeyReused : string := "idempotency_key_reused".
Definition DefaultMaxDecisionTTL : Time.duration := 24 * 3600 * Time.Second.
Definition MaxIdempotencyKeyBytes : nat := 255.
Definition RetryAfterHeader : string := "Retry-After".

Record Decisions := mkDecisions { ds_ctxType : string; ds_aliases : gmap string string; ds_maxBytes : Z; ds_maxTTL : Time.duration }.

(** [NewDecisions]: the surface and its limiter. *)
Definition NewDecisions (decisions access schema audit : bool) (ctxType : string) (aliases : gmap string string) (maxBytes : Z)
    (maxTTL : Time.duration) (rate subjectRate : RateLimit) (defaultEntries maxEntries : Z) : result (Decisions * decideLimiter) :=
  if negb (decisions && access && schema && audit) then Err []
  else Ok (mkDecisions ctxType aliases (if (maxBytes <=? 0)%Z then DefaultMaxRequestBytes else maxBytes)
             (if (maxTTL <=? 0)%Z then DefaultMaxDecisionTTL else maxTTL),
           newDecideLimiter rate subjectRate (if (maxEntries <=? 0)%Z then defaultEntries else maxEntries)).

Definition request_ttl (ttl : string) (maxTTL : Time.duration) : Time.duration + message :=
  if bool_decide (ttl = "") then inl 0%Z
  else match ParseDuration ttl with
  | Err _ => inr Wording
  | Ok d => if (d <=? 0)%Z then inr (Says "ttl must be positive")
            else if (maxTTL <? d)%Z then inr Wording else inl d
  end.

Definition printable (c : ascii) : bool := (32 <? nat_of_ascii c)%nat && (nat_of_ascii c <=? 126)%nat.

Definition idempotencyKey (key : string) : string + message :=
  if bool_decide (key = "") then inl ""
  else if (MaxIdempotencyKeyBytes <? String.length key)%nat then inr (Says "Idempotency-Key is longer than 255 bytes")
  else if negb (forallb printable (bytes key)) then inr (Says "Idempotency-Key must be printable ascii without spaces")
  else inl key.

Definition noSuchDecision : Z * string * message := (404%Z, "not_found", Says "no such decision").

Definition write_triple (t : Z * string * message) : Reply := writeError t.1.1 t.1.2 t.2.

Definition decisionError (e : error) : Z * string * message :=
  if errors_Is e ErrUnauthenticated then (401%Z, "unauthenticated", Says "this endpoint requires a workload credential")
  else if errors_Is e ErrNotAuthorized || errors_Is e ErrNotFound then noSuchDecision
  else if errors_Is e ErrIdempotencyKeyReused
  then (409%Z, CodeIdempotencyKeyReused, Says "this Idempotency-Key was already used for a different request; use a new key")
  else if errors_Is e ErrNoHandler || errors_Is e ErrUnsupportedSpec || errors_Is e ErrGroupSourceUnsupported
  then (501%Z, "unsupported_challenge", Says "this build cannot issue a challenge that policy demands")
  else (500%Z, "internal_error", Says "the decision could not be processed").

Definition isDecisionID (id : string) : bool :=
  bool_decide (String.length id = 36) &&
  forallb (λ ic, if contains [8; 13; 18; 23] ic.1 then bool_decide (ic.2 = "-"%char) else is_hex ic.2)
    (imap pair (bytes id)).

Definition formatRate (l : RateLimit) : string :=
  FormatFloat (rl_PerSecond l) +:+ "/s burst " +:+ FormatFloat (rl_Burst l).

Definition typed_name (e : AEntity) : string := ae_Type e +:+ ":" +:+ ae_ID e.

(** [refuseRate]: the event, and a denied decision object with the wait. [req] is
    the request, when the body was read. *)
Definition refuse_event (now : Time.t) (r : WebRequest) (callerID scope : string) (limit : RateLimit) (req : option EvaluationRequest) : Event :=
  let '(action, subject, resource) :=
    match req with
    | Some q => if bool_decide (ae_ID (er_Subject q) = "") then ("", "", "")
                else (af_Name (er_Action q), typed_name (er_Subject q), typed_name (er_Resource q))
    | None => ("", "", "")
    end in
  mkEvent EventRateLimited now callerID action subject resource "deny" (Reason_string ReasonRateLimited) "" ""
    (wr_Method r) DecisionsPath false scope (formatRate limit).

Definition denied_decision (reason : Reason) : Result :=
  Service.mkResult "" DecisionDenied Deny reason "" 0 [] [] Time.zero Time.zero None 0.

Definition refuseRate (overflow : Z) (limit : RateLimit) : Reply :=
  writeJSON [(RetryAfterHeader, pretty (retryAfterSeconds overflow limit))] 200 (DecisionBody (denied_decision ReasonRateLimited)).

(** The state the decide handler shares with the process. *)
Record DecideState := mkDecideState { dz_limits : decideLimiter; dz_audit : AuditBuffer; dz_world : World }.

(** The clock readings of one request: two charges and an event. *)
Record Readings := mkReadings { rd_caller : Time.t; rd_subject : Time.t; rd_event : Time.t }.

(** How a decided request is answered. *)
Definition decided_reply (out : result Result) : Reply :=
  match out with
  | Err e => write_triple (decisionError e)
  | Ok result =>
      if bool_decide (rs_ID result = "")
      then writeJSON (if (0 <? rs_RetryAfter result)%Z then [(RetryAfterHeader, pretty (retryAfterSecondsFor (rs_RetryAfter result)))] else [])
             200 (DecisionBody result)
      else writeJSON [("Location", DecisionsPath +:+ "/" +:+ rs_ID result)] 201 (DecisionBody result)
  end.

Section decide.
Context `{JsonText, JsonPrefix} (ranged : gmap string decoded → list (string * decoded)) (overflow : Z).

(** What the handler asks of the decision service, once the body, the lifetime and the
    key are in order. *)
Definition decision_request (d : Decisions) (schema : option Schema) (caller : Subject) (req : DecisionRequest) (key : string) : Service.Request + Reply :=
  match request_ttl (dr_TTL req) (ds_maxTTL d) with
  | inr m => inr (writeError 400 "invalid_request" m)
  | inl ttl =>
      match idempotencyKey key with
      | inr m => inr (writeError 400 "invalid_request" m)
      | inl key =>
          match schema with
          | None => inr (writeError 503 CodeNotInstalled (Says "this instance holds no policy set yet"))
          | Some schema =>
              match evaluationInput ranged (ds_aliases d) schema (dr_Request req) (ds_ctxType d) with
              | Err _ => inr (writeError 400 "invalid_property" Wording)
              | Ok input => inl (Service.mkRequest (Some caller) input ttl key)
              end
          end
      end
  end.

Definition create (d : Decisions) (decide : Service.Request → M Result) (schema : option Schema) (now : Readings)
    (caller : option Subject) (r : WebRequest) (st : DecideState) : Reply * DecideState :=
  match caller with
  | None => (writeError 401 "unauthenticated" (Says "this endpoint requires a workload credential"), st)
  | Some caller =>
      let callerID := CallerID caller in
      let '(ok, limits) := allowCaller callerID (rd_caller now) (dz_limits st) in
      if negb ok
      then (refuseRate overflow (dl_caller limits),
            mkDecideState limits
              (Record_ (rd_event now) (refuse_event (rd_event now) r callerID "caller" (dl_caller limits) None) (dz_audit st)) (dz_world st))
      else
        let st := mkDecideState limits (dz_audit st) (dz_world st) in
        match decodeDecisionRequest (ds_maxBytes d) (wr_Body r) with
        | inr TooLarge => (writeError 413 "invalid_request" (Says "the request body is too large"), st)
        | inr (Invalid m) => (writeError 400 "invalid_request" m, st)
        | inl req =>
            let '(ok, limits) := allowSubject (ae_ID (er_Subject (dr_Request req))) (rd_subject now) (dz_limits st) in
            if negb ok
            then (refuseRate overflow (dl_subject limits),
                  mkDecideState limits
                    (Record_ (rd_event now) (refuse_event (rd_event now) r callerID "subject" (dl_subject limits) (Some (dr_Request req))) (dz_audit st))
                    (dz_world st))
            else
              let st := mkDecideState limits (dz_audit st) (dz_world st) in
              match decision_request d schema caller req (wr_IdempotencyKey r) with
              | inr reply => (reply, st)
              | inl q =>
                  let '(out, w) := decide q (dz_world st) in
                  (decided_reply out, mkDecideState (dz_limits st) (dz_audit st) w)
              end
        end
  end.

Definition read (get : option Subject → string → M Result) (caller : option Subject) (r : WebRequest) (w : World) : Reply * World :=
  match caller with
  | None => (writeError 401 "unauthenticated" (Says "this endpoint requires a workload credential"), w)
  | Some _ =>
      if negb (isDecisionID (wr_id r)) then (write_triple noSuchDecision, w)
      else let '(out, w) := get caller (wr_id r) w in
           (match out with
            | Err e => write_triple (decisionError e)
            | Ok result => writeJSON [] 200 (DecisionBody result)
            end, w)
  end.
End decide.

(** ** Approvals and cancellations (approvals.go, cancel.go) *)

Definition DefaultMaxApprovalBytes : Z := 8 * 2 ^ 10.
Definition DefaultMaxTrackedApprovers : Z := 4096.
Definition DefaultApprovalRate : RateLimit := mkRate (Float64.of_Z 2) (Float64.of_Z 20).
Definition DefaultMaxTrackedCancellers : Z := 4096.
Definition DefaultCancellationRate : RateLimit := mkRate (Float64.of_Z 1) (Float64.of_Z 5).

Definition approvalError (e : error) : Z * string * message :=
  if errors_Is e ErrUnauthenticated then (401%Z, "unauthenticated", Says "this endpoint requires an end-user credential")
  else if errors_Is e ErrNotTarget || errors_Is e ErrNotAuthorized || errors_Is e ErrNoSuchChallenge || errors_Is e ErrNotFound
  then (404%Z, "not_found", Says "no such decision or challenge")
  else if errors_Is e ErrDecisionExpired then (409%Z, "expired", Says "this decision has expired")
  else if errors_Is e ErrNotPending || errors_Is e ErrNotSubmittable
  then (409%Z, "not_collecting", Says "this challenge is not collecting submissions")
  else if errors_Is e ErrBindingChanged
  then (409%Z, "material_changed", Says "the decision changed since it was shown to you; review it again")
  else if errors_Is e ErrVerdictUnsupported then (400%Z, "unsupported_verdict", Wording)
  else if errors_Is e ErrInvalidPayload then (400%Z, "invalid_submission", Wording)
  else if errors_Is e ErrGroupSourceUnsupported || errors_Is e ErrUnsupportedSpec || errors_Is e ErrNoHandler
  then (501%Z, "unsupported_challenge", Says "this build cannot collect submissions for that challenge")
  else (500%Z, "internal_error", Says "the submission could not be processed").

(** The path names a decision and the ordinal of a challenge. *)
Definition challengeRef (r : WebRequest) : (string * Z) + message :=
  if bool_decide (wr_id r = "") then inr (Says "the path names no decision")
  else match ParseInt (wr_ordinal r) with
  | Ok n => if (n <? 0)%Z then inr Wording else inl (wr_id r, n)
  | Err _ => inr Wording
  end.

(** A surface with a budget per caller: its tables, its rate, and whether it has a recorder. *)
Record Budgeted := mkBudgeted { bg_maxBytes : Z; bg_rate : RateLimit; bg_audited : bool }.

Definition NewApprovals (decisions reviews audit : bool) (maxBytes : Z) (rate : RateLimit) (tracked : Z) : result (Budgeted * Limiter) :=
  if negb (decisions && reviews) then Err []
  else Ok (mkBudgeted (if (maxBytes <=? 0)%Z then DefaultMaxApprovalBytes else maxBytes) (WithZeroDefault rate DefaultApprovalRate) audit,
           NewLimiter (if (tracked <=? 0)%Z then DefaultMaxTrackedApprovers else tracked)).

Definition NewCancellations (decisions audit : bool) (rate : RateLimit) (tracked : Z) : result (Budgeted * Limiter) :=
  if negb decisions then Err []
  else Ok (mkBudgeted 0 (WithZeroDefault rate DefaultCancellationRate) audit,
           NewLimiter (if (tracked <=? 0)%Z then DefaultMaxTrackedCancellers else tracked)).

Record ConsoleState := mkConsoleState { cz_limiter : Limiter; cz_audit : AuditBuffer; cz_world : World }.

Definition unit_separator : string := String (ascii_of_nat 31) "".

(** A refusal under a budget: the event, if there is a recorder, and a 429. *)
Definition refuse_budget (overflow : Z) (g : Budgeted) (now : Time.t) (caller : Subject) (r : WebRequest) (reason scope text : string)
    (st : ConsoleState) : Reply * ConsoleState :=
  let e := mkEvent EventRateLimited now (CallerID caller) "" "" "" "" reason "" "" (wr_Method r) (wr_Path r) false scope (formatRate (bg_rate g)) in
  (writeJSON [(RetryAfterHeader, pretty (retryAfterSeconds overflow (bg_rate g)))] 429 (ErrorBody "rate_limited" (Says text)),
   mkConsoleState (cz_limiter st) (if bg_audited g then Record_ now e (cz_audit st) else cz_audit st) (cz_world st)).

Definition submitted_reply (out : result Result) : Reply :=
  match out with Err e => write_triple (approvalError e) | Ok result => writeJSON [] 200 (DecisionBody result) end.

(** [readApprovalBody]: a body over the bound is refused, an empty one is no payload.
    [payload] is the document a body holds. *)
Definition readApprovalBody (payload : string → json) (maxBytes : Z) (body : string) : option json + message :=
  if (maxBytes <? Z.of_nat (String.length body))%Z then inr (Says "the submission body is too large")
  else inl (if bool_decide (body = "") then None else Some (payload body)).

Section console.
Context (overflow : Z) (submit : Submission → M Result).

Definition approvals_submit (payload : string → json) (g : Budgeted) (chargeNow eventNow : Time.t) (caller : option Subject) (r : WebRequest)
    (st : ConsoleState) : Reply * ConsoleState :=
  match caller with
  | None => (writeError 401 "unauthenticated" (Says "this endpoint requires an end-user credential"), st)
  | Some c =>
      let '(ok, l) := Limiter.Allow ("approver" +:+ unit_separator +:+ CallerID c) (bg_rate g) f1 chargeNow (cz_limiter st) in
      let st := mkConsoleState l (cz_audit st) (cz_world st) in
      if negb ok
      then refuse_budget overflow g eventNow c r "approval_rate_limited" "approver" "too many submissions; try again shortly" st
      else match challengeRef r with
      | inr m => (writeError 400 "invalid_request" m, st)
      | inl (id, ordinal) =>
          match readApprovalBody payload (bg_maxBytes g) (wr_Body r) with
          | inr m => (writeError 413 "invalid_request" m, st)
          | inl p =>
              let '(out, w) := submit (mkSubmission caller id ordinal p) (cz_world st) in
              (submitted_reply out, mkConsoleState (cz_limiter st) (cz_audit st) w)
          end
      end
  end.

Definition DelayCancelPayload : json := JObj [("action", JStr DelayActionCancel)].

Definition cancel (g : Budgeted) (chargeNow eventNow : Time.t) (caller : option Subject) (r : WebRequest) (st : ConsoleState) : Reply * ConsoleState :=
  match caller with
  | None => (writeError 401 "unauthenticated" (Says "this endpoint requires an end-user credential"), st)
  | Some c =>
      let '(ok, l) := Limiter.Allow ("canceller" +:+ unit_separator +:+ CallerID c) (bg_rate g) f1 chargeNow (cz_limiter st) in
      let st := mkConsoleState l (cz_audit st) (cz_world st) in
      if negb ok
      then refuse_budget overflow g eventNow c r "cancellation_rate_limited" "canceller" "too many cancellation attempts; try again shortly" st
      else match challengeRef r with
      | inr m => (writeError 400 "invalid_request" m, st)
      | inl (id, ordinal) =>
          let '(out, w) := submit (mkSubmission caller id ordinal (Some DelayCancelPayload)) (cz_world st) in
          (submitted_reply out, mkConsoleState (cz_limiter st) (cz_audit st) w)
      end
  end.

Definition approvals_review (review : string → Z → option Subject → Time.t → M QuorumReview) (now : Time.t) (caller : option Subject)
    (r : WebRequest) (w : World) : Reply * World :=
  match caller with
  | None => (writeError 401 "unauthenticated" (Says "this endpoint requires an end-user credential"), w)
  | Some _ =>
      match challengeRef r with
      | inr m => (writeError 400 "invalid_request" m, w)
      | inl (id, ordinal) =>
          let '(out, w) := review id ordinal caller now w in
          (match out with Err e => write_triple (approvalError e) | Ok rv => writeJSON [] 200 (ReviewBody rv) end, w)
      end
  end.
End console.

(** ** The routes of these surfaces *)

Inductive endpoint := EndpointCheck | EndpointCreate | EndpointRead | EndpointSubmit | EndpointReview | EndpointCancel.

Definition check_routes : list (Route endpoint) :=
  [mkRoute "authzen-access-evaluation" SurfacePEP "POST /access/v1/evaluation" AuthWorkload (Some EndpointCheck)].
Definition decision_routes : list (Route endpoint) :=
  [mkRoute "decision-create" SurfacePEP ("POST " +:+ DecisionsPath) AuthWorkload (Some EndpointCreate);
   mkRoute "decision-read" SurfacePEP ("GET " +:+ DecisionsPath +:+ "/{id}") AuthWorkload (Some EndpointRead)].
Definition approval_routes : list (Route endpoint) :=
  [mkRoute "approval-review" SurfaceConsole "GET /decisions/{id}/challenges/{ordinal}/approval" AuthUser (Some EndpointReview);
   mkRoute "approval-submit" SurfaceConsole "POST /decisions/{id}/challenges/{ordinal}/approvals" AuthUser (Some EndpointSubmit)].
Definition cancellation_routes : list (Route endpoint) :=
  [mkRoute "delay-cancel" SurfaceConsole "POST /decisions/{id}/challenges/{ordinal}/cancellation" AuthUser (Some EndpointCancel)].
