(* ===== verification/ApiSpec.v ===== *)
(** * What the served surfaces promise

    Routes are guarded by the credential their surface admits; a check and a decide of one
    body judge one input; an AuthZEN allow is the check service's, recorded or counted; a
    decide is bounded and charged before the service is asked; and a caller with no standing
    on a decision is answered as if there were none. *)
From stdpp Require Import pretty.
From Stdlib Require Import Ascii.
From S2P Require Import Prelude GoLib Policy Cel Engine CelRef Json Store StoreInv World Text Strconv Limiter Netip Url Fact Egress.
From S2P Require Import Challenge Quorum Delay Identity IdentitySpec EgressSpec StepUpSpec Service ServiceInv ServiceSpec AuditBuffer Api.

(** ** Routes *)

Section routes.
Context {H : Type}.

Definition entry_ok (srv : Server H) (e : Surface * string * guarded H) : Prop :=
  (∃ name, e.2 = Probe name) ∨
  ∃ r h, r ∈ srv_mounted srv ∧ e.1 = (ro_Surface r, ro_Pattern r) ∧ ro_Handler r = Some h ∧ e.2 = server_authenticate r h ∧
    ro_Auth r ∈ allowedAuth (ro_Surface r).

Record server_ok (srv : Server H) : Prop := {
  so_seen : map fst (srv_mux srv) = map fst (srv_seen srv);
  so_nodup : NoDup (map fst (srv_mux srv));
  so_entries : Forall (entry_ok srv) (srv_mux srv) }.

Lemma server_ok_new identity addresses (srv : Server H) : NewServer identity addresses = Ok srv → server_ok srv.
Proof.
  unfold NewServer. case_match; [done|]. intros [= <-]. split; simpl; [done| |].
  - repeat (constructor; [set_solver|]). constructor.
  - repeat (constructor; [left; eauto|]). constructor.
Qed.

Lemma mount_ok (srv srv' : Server H) r : server_ok srv → mount srv r = Ok srv' → server_ok srv'.
Proof.
  intros [Hs Hn He] Hm. unfold mount in Hm. repeat case_match; try done. injection Hm as <-.
  rename select (_ = Some _) into Hh. rename select (negb (containsAuth _ _) = false) into Ha.
  rename select (seen_at _ _ _ = false) into Hseen.
  split; simpl.
  - by rewrite !map_app, Hs.
  - rewrite map_app. apply NoDup_app. split_and!; [done| |apply NoDup_singleton].
    intros x Hx ->%list_elem_of_singleton. rewrite Hs in Hx. apply elem_of_map in Hx as ([k n] & E & Hin).
    apply not_true_iff_false in Hseen. apply Hseen, existsb_true. exists (k, n). split; [done|]. by apply bool_decide_eq_true_2.
  - apply Forall_app. split.
    + eapply Forall_impl; [exact He|]. intros [k g] [Hp|(r' & h' & Hr & ?)]; [by left|right].
      exists r', h'. split; [|done]. simpl. set_solver.
    + apply Forall_singleton. right. eexists r, _. split_and!; [set_solver|done|done|done|].
      apply negb_false_iff in Ha. by apply contains_spec in Ha.
Qed.

Lemma mount_each_ok rs (srv : Server H) : server_ok srv → server_ok (mount_each srv rs).2.
Proof.
  revert srv. induction rs as [|r rs IH]; intros srv Hs; simpl; [done|].
  destruct (mount srv r) eqn:E; [|done]. eapply IH, mount_ok; eauto.
Qed.

Lemma Mount_ok ps (srv : Server H) : server_ok srv → server_ok (Mount srv ps).2.
Proof.
  revert srv. induction ps as [|[rs|] ps IH]; intros srv Hs; simpl; [done| |done].
  pose proof (mount_each_ok rs srv Hs) as Hm. destruct (mount_each srv rs) as [[[]|e] srv']; [by apply IH|done].
Qed.

Lemma Mount_many_ok (calls : list (list (option (list (Route H))))) srv :
  server_ok srv → server_ok (foldl (λ s ps, (Mount s ps).2) srv calls).
Proof. revert srv. induction calls as [|ps calls IH]; intros srv Hs; simpl; [done|]. by apply IH, Mount_ok. Qed.
End routes.

Lemma Require_kind `{TokenText} ranged m kinds now r c a :
  (Require_ ranged m kinds now r c).1.1 = Handled a → kinds = [] ∨ su_Kind (au_Subject a) ∈ kinds.
Proof.
  unfold Require_. destruct (authenticate ranged m r c) as [[a'|e] m']; simpl; [|by destruct e].
  destruct (requireKind (au_Subject a') kinds) as [e|] eqn:E; [by destruct e|]. intros [= <-]. by apply requireKind_None.
Qed.

(** C29. Every route is guarded by the credential of its surface.  Whatever providers are
    mounted in whatever calls, accepted or refused, a pattern of a router has one entry,
    and behind it is a probe or a mounted route; a handler behind a pattern of the PEP
    surface runs only for an authenticated workload, one of the console surface only for
    an authenticated user unless its route is for the static bundle, and one of the
    callback surface only for a workload unless its route is public. *)
Theorem mounted_routes_are_guarded {H} `{TokenText} identity addresses (srv0 : Server H) calls ranged m now req c :
  NewServer identity addresses = Ok srv0 →
  let srv := foldl (λ s ps, (Mount s ps).2) srv0 calls in
  NoDup (map fst (srv_mux srv)) ∧
  ∀ s p g who h, (s, p, g) ∈ srv_mux srv → serve ranged g m now req c = Some (who, h) →
    ∃ r, r ∈ Mounted srv s ∧ ro_Pattern r = p ∧ ro_Handler r = Some h ∧
      match s with
      | SurfacePEP => ∃ u, who = Some u ∧ su_Kind u = SubjectWorkload
      | SurfaceConsole => (∃ u, who = Some u ∧ su_Kind u = SubjectUser) ∨ ro_Auth r = AuthStatic
      | SurfaceCallback => (∃ u, who = Some u ∧ su_Kind u = SubjectWorkload) ∨ ro_Auth r = AuthPublic
      | SurfaceOther _ => False
      end.
Proof.
  intros Hnew srv. assert (server_ok srv) as [_ Hn He] by by apply Mount_many_ok, (server_ok_new identity addresses).
  split; [done|]. intros s p g who h Hin Hserve. rewrite Forall_forall in He.
  specialize (He _ Hin). unfold entry_ok in He. cbn [fst snd] in He.
  destruct He as [[name ->]|(r & h' & Hr & [= -> ->] & Hh & -> & Ha)]; [done|].
  assert (h' = h ∧ (ro_Auth r = AuthWorkload → ∃ u, who = Some u ∧ su_Kind u = SubjectWorkload) ∧
          (ro_Auth r = AuthUser → ∃ u, who = Some u ∧ su_Kind u = SubjectUser)) as (-> & Hw & Hu).
  { unfold server_authenticate in Hserve.
    destruct (ro_Auth r) eqn:Ea; cbn in Hserve; try (injection Hserve as <- <-; done).
    all: destruct ((Require_ ranged m _ now req c).1.1) as [a|] eqn:ER; [|done]; injection Hserve as <- <-.
    all: apply Require_kind in ER as [?|?%list_elem_of_singleton]; [done|]; split_and!; try done; eauto. }
  exists r. split_and!; [apply list_elem_of_filter; eauto|done|done|].
  destruct (ro_Surface r); simpl in Ha.
  - apply list_elem_of_singleton in Ha. eauto.
  - apply elem_of_cons in Ha as [Ha|Ha%list_elem_of_singleton]; eauto.
  - apply elem_of_cons in Ha as [Ha|Ha%list_elem_of_singleton]; eauto.
  - by apply not_elem_of_nil in Ha.
Qed.

(** ** One body, one input *)

(** A decide body is an evaluation body with a lifetime. *)
Lemma ttl_is_no_member k : names "ttl" k = true → ∀ r v, set_request r k v = Some r.
Proof.
  intros Ht r v. unfold names in Ht. apply bool_decide_eq_true in Ht.
  unfold set_request, names. rewrite Ht. by rewrite !bool_decide_eq_false_2 by done.
Qed.

Lemma into_fields_decision fields d d' :
  into_fields set_decision d fields = Some d' → into_fields set_request (dr_Request d) fields = Some (dr_Request d').
Proof.
  revert d. induction fields as [|[k v] fields IH]; intros d; simpl; [by intros [= <-]|].
  intros (d1 & Hd & Hf)%bind_Some. unfold set_decision in Hd. destruct (names "ttl" k) eqn:Et.
  - apply bind_Some in Hd as (s & _ & [= <-]). rewrite (ttl_is_no_member k Et). simpl. by apply (IH _ Hf).
  - apply bind_Some in Hd as (r & -> & [= <-]). simpl. by apply (IH _ Hf).
Qed.

Lemma decision_body_is_evaluation_body `{JsonText, JsonPrefix} max body d :
  decodeDecisionRequest max body = inl d → decodeEvaluationRequest max body = inl (dr_Request d).
Proof.
  unfold decodeDecisionRequest, decodeEvaluationRequest, read_request. destruct (decode_body max body) as [v|]; [|done].
  destruct (into_struct set_decision no_request v) as [d'|] eqn:E; [|done].
  assert (into_struct set_request (dr_Request no_request) v = Some (dr_Request d')) as ->.
  { destruct v; simpl in *; try done; [by injection E as <-|by apply into_fields_decision in E]. }
  change (id (dr_Request d')) with (dr_Request d'). destruct (validate (dr_Request d')); [done|]. by intros [= ->].
Qed.

(** The order in which a map is walked does not matter when no two of its keys are
    renamed to one. *)
Definition distinct_names (aliases : gmap string string) (ps : gmap string decoded) : Prop :=
  NoDup (map (λ kv, renamed aliases kv.1) (map_to_list ps)).

Definition unambiguous (aliases : gmap string string) (req : EvaluationRequest) : Prop :=
  distinct_names aliases (ae_Properties (er_Subject req)) ∧ distinct_names aliases (ae_Properties (er_Resource req)) ∧
  distinct_names aliases (er_Context req).

Section order.
Context (aliases : gmap string string) (declared : EntityType).
Notation attrs := (entity_attributes aliases declared).

Lemma attrs_swap x y ps acc m :
  renamed aliases x.1 ≠ renamed aliases y.1 → attrs (x :: y :: ps) acc = Ok m → attrs (y :: x :: ps) acc = Ok m.
Proof.
  destruct x as [k1 v1], y as [k2 v2]. simpl. intros Hne.
  destruct (EntityType_Attribute declared (renamed aliases k1)); destruct (EntityType_Attribute declared (renamed aliases k2)); try done.
  destruct (attributeValue _ v1); simpl; [|done]. destruct (attributeValue _ v2); simpl; [|done].
  by rewrite insert_insert_ne.
Qed.

Lemma attrs_permutation ps ps' :
  ps ≡ₚ ps' → NoDup (map (λ kv, renamed aliases kv.1) ps) → ∀ acc m, attrs ps acc = Ok m → attrs ps' acc = Ok m.
Proof.
  induction 1 as [|[k v] ps ps' Hp IH|x y ps|ps1 ps2 ps3 H1 IH1 H2 IH2]; intros Hn acc m; [done| | |].
  - simpl in *. apply NoDup_cons in Hn as [_ Hn]. destruct (EntityType_Attribute _ _); [|by apply IH].
    intros (x & -> & Hm)%res_bind_Ok. simpl. by apply IH.
  - apply attrs_swap. intros E. simpl in Hn. apply NoDup_cons in Hn as [Hn _]. apply Hn. rewrite E. by left.
  - intros Hm. apply IH2; [|by apply IH1]. by rewrite <-H1.
Qed.
End order.

Section one_input.
Context (aliases : gmap string string) (r1 r2 : gmap string decoded → list (string * decoded)).
Context (Hr1 : ∀ m, r1 m ≡ₚ map_to_list m) (Hr2 : ∀ m, r2 m ≡ₚ map_to_list m).

Lemma entityInput_order schema e i :
  distinct_names aliases (ae_Properties e) → entityInput r1 aliases schema e = Ok i → entityInput r2 aliases schema e = Ok i.
Proof.
  intros Hd. unfold entityInput. destruct (Schema_Entity schema (ae_Type e)) as [declared|]; [|done].
  intros (m & Hm & Hi)%res_bind_Ok.
  rewrite (attrs_permutation aliases declared (r1 (ae_Properties e)) (r2 (ae_Properties e))) with (m := m); [done| | |done].
  - by rewrite Hr1, Hr2.
  - by rewrite Hr1.
Qed.

Lemma evaluationInput_order schema req ctxType i :
  unambiguous aliases req → evaluationInput r1 aliases schema req ctxType = Ok i → evaluationInput r2 aliases schema req ctxType = Ok i.
Proof.
  intros (Hs & Hr & Hc). unfold evaluationInput.
  intros (su & Hsu & (re & Hre & Hi)%res_bind_Ok)%res_bind_Ok.
  rewrite (entityInput_order _ _ _ Hs Hsu), (entityInput_order _ _ _ Hr Hre). simpl. case_match; [done|].
  apply res_bind_Ok in Hi as (co & Hco & Hi). by rewrite (entityInput_order _ (mkAEntity ctxType "" (er_Context req)) _ Hc Hco).
Qed.
End one_input.

(** C32. A check and a decide of one body judge one input.  Two surfaces configured with the
    same aliases, context type and size bound read a body that the decide surface accepts
    to the same request, and what the decision service is asked to judge is the input the
    check service would be asked to judge, in whatever order either walks the properties,
    unless two property names of one entity are renamed to one attribute. *)
Theorem check_and_decide_judge_one_input `{JsonText, JsonPrefix} ranged ranged' a d schema caller body dq key q :
  (∀ m, ranged m ≡ₚ map_to_list m) → (∀ m, ranged' m ≡ₚ map_to_list m) →
  (ca_aliases a, ca_ctxType a, ca_maxBytes a) = (ds_aliases d, ds_ctxType d, ds_maxBytes d) →
  decodeDecisionRequest (ds_maxBytes d) body = inl dq → unambiguous (ds_aliases d) (dr_Request dq) →
  decision_request ranged d (Some schema) caller dq key = inl q →
  decodeEvaluationRequest (ca_maxBytes a) body = inl (dr_Request dq) ∧
  evaluationInput ranged' (ca_aliases a) schema (dr_Request dq) (ca_ctxType a) = Ok (rq_Input q).
Proof.
  intros Hr Hr' [= -> -> ->] Hd Hu Hq. split; [by apply decision_body_is_evaluation_body|].
  apply (evaluationInput_order _ ranged); [done|done|done|]. unfold decision_request in Hq.
  destruct (request_ttl _ _); [|done]. destruct (idempotencyKey key); [|done].
  destruct (evaluationInput ranged _ _ _ _) as [i|]; [|done]. by injection Hq as <-.
Qed.

(** ** What reaches the decision service *)

Lemma validate_bounds req :
  validate req = None →
  Forall (λ e, 1 ≤ String.length (ae_ID e) ≤ 255 ∧ ae_Type e ≠ "") [er_Subject req; er_Resource req] ∧ af_Name (er_Action req) ≠ "".
Proof.
  unfold validate. destruct (bool_decide (ae_Type (er_Subject req) = "")) eqn:E1; [done|].
  destruct (bool_decide (ae_ID (er_Subject req) = "")) eqn:E2; [done|]. destruct (bool_decide (af_Name _ = "")) eqn:E3; [done|].
  destruct (bool_decide (ae_Type (er_Resource req) = "")) eqn:E4; [done|]. destruct (bool_decide (ae_ID (er_Resource req) = "")) eqn:E5; [done|].
  destruct (MaxEntityIDBytes <? String.length (ae_ID (er_Subject req)))%nat eqn:E6; [done|].
  destruct (MaxEntityIDBytes <? String.length (ae_ID (er_Resource req)))%nat eqn:E7; [done|]. intros _.
  apply bool_decide_eq_false in E1, E2, E3, E4, E5. apply Nat.ltb_ge in E6, E7. unfold MaxEntityIDBytes in *.
  assert (∀ s, s ≠ "" → 1 ≤ String.length s) as Hpos by (intros [|]; [done|simpl; lia]).
  split; [|done]. rewrite !Forall_cons, Forall_nil. split_and!; auto.
Qed.

Lemma decodeDecisionRequest_valid `{JsonText, JsonPrefix} max body d :
  decodeDecisionRequest max body = inl d → validate (dr_Request d) = None.
Proof.
  unfold decodeDecisionRequest, read_request. repeat case_match; try done. by intros [= <-].
Qed.

Lemma request_ttl_bounds ttl maxTTL d : (0 < maxTTL)%Z → request_ttl ttl maxTTL = inl d → (0 <= d <= maxTTL)%Z ∧ (d = 0%Z ↔ ttl = "").
Proof.
  intros Hm. unfold request_ttl. case_bool_decide as E; [intros [= <-]; by split; [lia|]|].
  destruct (ParseDuration ttl) as [x|]; [|done]. destruct (x <=? 0)%Z eqn:E1; [done|]. destruct (maxTTL <? x)%Z eqn:E2; [done|].
  intros [= <-]. split; [lia|]. split; [lia|done].
Qed.

Definition key_ok (key : string) : Prop := String.length key ≤ 255 ∧ Forall (λ c, 33 ≤ nat_of_ascii c ≤ 126) (bytes key).

Lemma idempotencyKey_ok key k : idempotencyKey key = inl k → k = key ∧ key_ok k.
Proof.
  unfold idempotencyKey. case_bool_decide as E; [intros [= <-]; subst; by repeat split; [simpl; lia|constructor]|].
  destruct (MaxIdempotencyKeyBytes <? _)%nat eqn:E1; [done|]. destruct (forallb printable (bytes key)) eqn:E2; [|done].
  intros [= <-]. apply Nat.ltb_ge in E1. split; [done|]. split; [done|].
  rewrite forallb_true in E2. apply Forall_forall. intros c Hc. specialize (E2 c Hc). unfold printable in E2.
  apply andb_true_iff in E2 as [?%Nat.ltb_lt ?%Nat.leb_le]. lia.
Qed.

(** The entity of an input is the one of the body, by type and identifier. *)
Definition same_name (e : Entity) (a : AEntity) : Prop := en_Type e = ae_Type a ∧ en_ID e = ae_ID a.

Lemma entityInput_name ranged aliases schema a e : entityInput ranged aliases schema a = Ok e → same_name e a.
Proof. unfold entityInput. case_match; [|by intros [= <-]]. intros (attrs & _ & [= <-])%res_bind_Ok. done. Qed.

Lemma evaluationInput_names ranged aliases schema req ctx i : evaluationInput ranged aliases schema req ctx = Ok i →
  in_Action i = af_Name (er_Action req) ∧ same_name (in_Subject i) (er_Subject req) ∧ same_name (in_Resource i) (er_Resource req).
Proof.
  unfold evaluationInput. intros (su & Hsu & (re & Hre & Hi)%res_bind_Ok)%res_bind_Ok. apply entityInput_name in Hsu, Hre.
  case_match; [by injection Hi as <-|]. apply res_bind_Ok in Hi as (co & _ & [= <-]). done.
Qed.

(** C30. The decision service sees bounded requests, and only after both budgets were
    charged.  A call of the create endpoint either answers without the decision service,
    leaving the database as it was, or both budgets admitted the request and the service
    is asked once: for the authenticated caller, about the subject, the resource and the
    action the body names, each entity with a type and an identifier of 1 to 255 bytes and
    the action not empty, for a lifetime that is
    unset or positive and within the deployment's bound, under no key or the key sent,
    which is at most 255 printable characters; and what it answers is what the caller
    is told. *)
Theorem decide_is_charged_and_bounded `{JsonText, JsonPrefix} ranged overflow d decide schema now caller r st :
  (0 < ds_maxTTL d)%Z →
  let '(reply, st') := create ranged overflow d decide schema now caller r st in
  (∃ c req q w0,
     caller = Some c ∧ decodeDecisionRequest (ds_maxBytes d) (wr_Body r) = inl req ∧
     (allowCaller (CallerID c) (rd_caller now) (dz_limits st)).1 = true ∧
     (allowSubject (ae_ID (er_Subject (dr_Request req))) (rd_subject now) (allowCaller (CallerID c) (rd_caller now) (dz_limits st)).2).1 = true ∧
     rq_Caller q = Some c ∧ (0 <= rq_TTL q <= ds_maxTTL d)%Z ∧ (rq_TTL q = 0%Z ↔ dr_TTL req = "") ∧
     rq_IdempotencyKey q = wr_IdempotencyKey r ∧ key_ok (rq_IdempotencyKey q) ∧
     same_name (in_Subject (rq_Input q)) (er_Subject (dr_Request req)) ∧ same_name (in_Resource (rq_Input q)) (er_Resource (dr_Request req)) ∧
     Forall (λ e, 1 ≤ String.length (en_ID e) ≤ 255 ∧ en_Type e ≠ "") [in_Subject (rq_Input q); in_Resource (rq_Input q)] ∧
     in_Action (rq_Input q) = af_Name (er_Action (dr_Request req)) ∧ in_Action (rq_Input q) ≠ "" ∧
     w0 = dz_world st ∧ reply = decided_reply (decide q w0).1 ∧ dz_world st' = (decide q w0).2) ∨
  dz_world st' = dz_world st ∧
  (∀ decide', create ranged overflow d decide' schema now caller r st = (reply, st')).
Proof.
  intros Hmax. unfold create. destruct caller as [c|]; [|by right].
  destruct (allowCaller _ _ _) as [ok limits] eqn:Ec. destruct ok; simpl; [|by right].
  destruct (decodeDecisionRequest _ _) as [req|[|m]] eqn:Ed; [|by right..].
  destruct (allowSubject _ _ limits) as [ok limits'] eqn:Es. destruct ok; simpl; [|by right].
  destruct (decision_request ranged d schema c req (wr_IdempotencyKey r)) as [q|reply] eqn:Eq; [|by right].
  destruct (decide q (dz_world st)) as [out w] eqn:Eo. left.
  apply decodeDecisionRequest_valid, validate_bounds in Ed as Hv. destruct Hv as [Hids Hname].
  unfold decision_request in Eq. destruct (request_ttl _ _) as [ttl|] eqn:Et; [|done]. apply request_ttl_bounds in Et as [Ht Ht0]; [|done].
  destruct (idempotencyKey _) as [k|] eqn:Ek; [|done]. apply idempotencyKey_ok in Ek as [-> Hk].
  destruct schema as [schema|]; [|done]. destruct (evaluationInput _ _ _ _ _) as [i|] eqn:Ei; [|done]. injection Eq as <-.
  apply evaluationInput_names in Ei as (Ha & Hsu & Hre).
  eexists c, req, (Service.mkRequest (Some c) i ttl _), (dz_world st). rewrite Ec. cbn [fst snd]. rewrite Es, Eo. cbn. rewrite Ha.
  rewrite !Forall_cons, Forall_nil in *. pose proof Hsu as [Hs1 Hs2]. pose proof Hre as [Hr1 Hr2]. rewrite Hs1, Hs2, Hr1, Hr2. destruct_and! Hids. destruct Ht. by split_and!.
Qed.

(** ** The verdict of a check *)

Lemma Record_effect now e b :
  (ab_queue (Record_ now e b) = ab_queue b ++ [stamp_time now e] ∧ ab_dropped (Record_ now e b) = ab_dropped b) ∨
  (ab_queue (Record_ now e b) = ab_queue b ∧ ab_dropped (Record_ now e b) = ab_dropped b + 1)%Z.
Proof. unfold Record_. case_match; [right; unfold dropLocked; by case_match|by left]. Qed.

(** C31. An allow at the check endpoint is the check service's, and it is on record.  The
    endpoint says yes only when the buffer is not refusing, the body is a valid request
    whose properties have their declared types, and the service that was current allowed
    the input they make; the verdict it gives, either way, is an event that joined the
    audit queue or was counted as lost; and while the buffer refuses, the answer is a deny
    for want of an audit, with nothing read and nothing changed. *)
Theorem check_allow_is_the_services `{CEL, JsonText, JsonPrefix} ranged a swap1 swap2 swap3 evalNow now caller r service audit :
  let '(reply, service', audit') := check_evaluate ranged a swap1 swap2 swap3 evalNow now caller r service audit in
  (FailClosed audit = true → reply = respond (DenyResult ReasonAuditUnavailable) "" ∧ service' = service ∧ audit' = audit) ∧
  (∀ verdict ctx, FailClosed audit = false → re_Body reply = EvaluationBody verdict ctx →
     ∃ e, ev_Allowed e = verdict ∧ ev_CallerID e = caller_name caller ∧ audit' = Record_ now e audit ∧
       (ab_queue audit' = ab_queue audit ++ [stamp_time now e] ∨ ab_dropped audit' = ab_dropped audit + 1)%Z) ∧
  (∀ ctx, re_Body reply = EvaluationBody true ctx →
     FailClosed audit = false ∧
     ∃ req snap input result,
       decodeEvaluationRequest (ca_maxBytes a) (wr_Body r) = inl req ∧ cs_evaluator service = Some snap ∧
       evaluationInput ranged (ca_aliases a) (sn_schema snap) req (ca_ctxType a) = Ok input ∧
       (CheckService_Evaluate (swap1 service) evalNow input).1 = Ok result ∧ cr_decision result = Engine.Allow).
Proof.
  unfold check_evaluate. destruct (FailClosed audit) eqn:Ef; [by split_and!|].
  assert (∀ e, ab_queue (Record_ now e audit) = ab_queue audit ++ [stamp_time now e] ∨
               ab_dropped (Record_ now e audit) = ab_dropped audit + 1)%Z as Hrec.
  { intros e. destruct (Record_effect now e audit) as [[? _]|[_ ?]]; [by left|by right]. }
  destruct (decodeEvaluationRequest _ _) as [req|e]; [|by split_and!].
  destruct (cs_evaluator service) as [snap|] eqn:Es; simpl.
  2:{ split_and!; [done| |done]. intros v ctx _ [= <- _]. eexists. by split_and!; [..|apply Hrec]. }
  destruct (evaluationInput _ _ _ _ _) as [input|] eqn:Ei; [|by split_and!].
  destruct (CheckService_Evaluate (swap1 service) evalNow input) as [out service1] eqn:Eo.
  split_and!; [done| |].
  - intros v ctx _ [= <- _]. eexists. split_and!; [| |done|apply Hrec]; done.
  - simpl. intros ctx [= Hv _]. split; [done|]. unfold CheckResult_Allowed in Hv. apply bool_decide_eq_true in Hv.
    destruct out as [result|]; [|done]. exists req, snap, input, result. by rewrite Eo.
Qed.

(** ** Strangers *)











(** ** A deployment *)

Module ApiDemo.
Import StepUpSpec.IdentityDemo.

Definition server0 : Server endpoint := match NewServer true [SurfacePEP; SurfaceConsole] with Ok s => s | Err _ => mkServer false [] [] [] end.
Definition providers : list (option (list (Route endpoint))) :=
  [Some check_routes; Some decision_routes; Some approval_routes; Some cancellation_routes].

Example everything_mounts : (Mount server0 providers).1 = Ok tt ∧ length (srv_mux (Mount server0 providers).2) = 12.
Proof. vm_compute. auto. Qed.

Example console_route_for_workloads_is_refused :
  (Mount server0 [Some [mkRoute "approve" SurfaceConsole "POST /x" AuthWorkload (Some EndpointSubmit)]]).1 = Err [].
Proof. reflexivity. Qed.

Lemma mounted_routes_are_guarded_witness :
  NewServer true [SurfacePEP; SurfaceConsole] = Ok server0 ∧
  NoDup (map fst (srv_mux (foldl (λ s ps, (Mount s ps).2) server0 [providers]))).
Proof.
  split; [reflexivity|].
  apply (mounted_routes_are_guarded true [SurfacePEP; SurfaceConsole] server0 [providers] ranged (mkMiddleware v0 None) t0
    (mkHTTPRequest "" None "GET" "/" "") (good (token "alice" "gold" "console")) eq_refl).
Defined.

(** A document per body: an account read, and one whose owner is spelled twice. *)
Definition entity (kind id : string) (ps : list (string * decoded)) : decoded :=
  GObject [("type", GString kind); ("id", GString id); ("properties", GObject ps)].
Definition plain : decoded :=
  GObject [("Subject", entity "user" "dave" [("level", GNumber "3")]); ("resource", entity "account" "a1" []);
           ("action", GObject [("name", GString "send")]); ("ttl", GString "30m")].
Definition twice : decoded :=
  GObject [("subject", entity "user" "dave" [("accessLevel", GNumber "9"); ("level", GNumber "3")]); ("resource", entity "account" "a1" []);
           ("action", GObject [("name", GString "send")])].
#[export] Instance bodies : JsonText := {| json_Decode s := if bool_decide (s = "plain") then Some plain else if bool_decide (s = "twice") then Some twice else None |}.
#[export] Instance prefixes : JsonPrefix := {| json_Truncated _ := false |}.

Definition schema : Schema :=
  mkSchema [mkEntityType "user" [mkAttribute "id" TypeString; mkAttribute "level" TypeInt]; mkEntityType "account" []]
    [mkAction "send" ""] [].
Definition aliases : gmap string string := {["accessLevel" := "level"]}.
Definition check_surface : CheckAPI := mkCheckAPI "" aliases 1000.
Definition decide_surface : Decisions := mkDecisions "" aliases 1000 DefaultMaxDecisionTTL.
Definition forward (m : gmap string decoded) : list (string * decoded) := map_to_list m.
Definition backward (m : gmap string decoded) : list (string * decoded) := reverse (map_to_list m).

Definition request : DecisionRequest := match decodeDecisionRequest 1000 "plain" with inl d => d | inr _ => no_request end.
Definition asked : Service.Request :=
  match decision_request forward decide_surface (Some schema) Demo.app request "k1" with inl q => q | inr _ => Service.mkRequest None Demo.input 0 "" end.

Lemma check_and_decide_judge_one_input_witness :
  decodeEvaluationRequest 1000 "plain" = inl (dr_Request request) ∧
  evaluationInput backward aliases schema (dr_Request request) "" = Ok (rq_Input asked).
Proof.
  apply (check_and_decide_judge_one_input forward backward check_surface decide_surface schema Demo.app "plain" request "k1" asked).
  - intros m. reflexivity.
  - intros m. unfold backward. apply reverse_Permutation.
  - reflexivity.
  - vm_compute. reflexivity.
  - split_and!; unfold distinct_names; apply (bool_decide_unpack _); vm_compute; exact I.
  - vm_compute. reflexivity.
Defined.

Example what_is_asked :
  rq_TTL asked = (30 * 60 * Time.Second)%Z ∧ en_Attributes (in_Subject (rq_Input asked)) = {["id" := VString "dave"; "level" := VInt 3]}.
Proof. vm_compute. auto. Qed.

Definition limits : decideLimiter := newDecideLimiter (mkRate f0 f0) (mkRate f0 f0) 10.
Definition buffer : AuditBuffer := match NewAuditBuffer true (mkAuditConfig 0 0 0 0 false) with Ok b => b | Err _ => mkAuditBuffer 0 0 0 0 false [] 0 0 0 0 0 false None 0 0 0 0 [] end.
Definition web (body id : string) : WebRequest := mkWebRequest "POST" "/" body "" id "0".
#[local] Existing Instance toy_digest.
Definition started : DecideState := mkDecideState limits buffer Demo.world.
Definition now : Readings := mkReadings Demo.t0 Demo.t0 Demo.t0.
Definition created : Reply * DecideState :=
  create forward 0 decide_surface (λ q, Decide Demo.service q Demo.t0) (Some schema) now (Some Demo.app) (web "plain" "") started.

Example created_and_located : re_Status created.1 = 201%Z ∧ head (re_Header created.1) = Some ("Location", "/decisions/id1").
Proof. vm_compute. auto. Qed.

Lemma decide_is_charged_and_bounded_witness :
  (0 < ds_maxTTL decide_surface)%Z ∧ ∃ q, created.1 = decided_reply (Decide Demo.service q Demo.t0 Demo.world).1.
Proof.
  assert (0 < ds_maxTTL decide_surface)%Z as Hm by (vm_compute; reflexivity). split; [exact Hm|].
  pose proof (decide_is_charged_and_bounded forward 0 decide_surface (λ q, Decide Demo.service q Demo.t0) (Some schema) now (Some Demo.app)
    (web "plain" "") started Hm) as H. fold created in H. destruct created as [reply st'] eqn:E.
  destruct H as [(c & req & q & w0 & _ & _ & _ & _ & _ & _ & _ & _ & _ & _ & _ & _ & _ & _ & -> & -> & _)|[Hw _]].
  - exists q. reflexivity.
  - assert (dz_world created.2 = dz_world started) as Hd by (rewrite E; exact Hw). vm_compute in Hd. discriminate Hd.
Defined.




End ApiDemo.
#[local] Existing Instances ApiDemo.bodies ApiDemo.prefixes.

(** Two property names that are renamed to one attribute make a request mean two things.
    A body carries [level] and its alias [accessLevel]; which of the two values the policy
    sees is the order in which a Go map is walked, which differs from call to call. *)
Theorem alias_collision_is_ambiguous :
  ∃ req, decodeEvaluationRequest 1000 "twice" = inl req ∧ validate req = None ∧
    ((λ i, en_Attributes (in_Subject i) !! "level") <$> Egress.of_result (evaluationInput ApiDemo.forward ApiDemo.aliases ApiDemo.schema req "")) = Some (Some (VInt 3)) ∧
    ((λ i, en_Attributes (in_Subject i) !! "level") <$> Egress.of_result (evaluationInput ApiDemo.backward ApiDemo.aliases ApiDemo.schema req "")) = Some (Some (VInt 9)).
Proof. eexists. split; [vm_compute; reflexivity|]. vm_compute. auto. Qed.

Module SwapDemo.
Definition snapshot : Snapshot := mkSnapshot ApiDemo.schema [].
Definition held : CheckService :=
  match NewCheckService 0 None None Demo.t0 (LoadSnapshot snapshot "r1") with Ok s => s | Err _ => mkCheckService 0 None NewCache None "" 0 false 0 0 0 end.
Definition swap (s : CheckService) : CheckService := (Refresh s Demo.t0 (LoadSnapshot snapshot "r2")).2.
End SwapDemo.

(** The answer may name a revision that did not judge.  A poll that lands between the
    evaluation and the reading of the revision makes the check endpoint report the new
    one: the service judged under r1, and the answer and the audit event say r2. *)
Theorem reported_revision_did_not_judge :
  let '(reply, _, audit) := check_evaluate ApiDemo.forward ApiDemo.check_surface id SwapDemo.swap id Demo.t0 Demo.t0 (Some Demo.app)
      (ApiDemo.web "plain" "") SwapDemo.held ApiDemo.buffer in
  cs_revision SwapDemo.held = "r1" ∧
  re_Body reply = EvaluationBody false
    [(ContextKeyReason, JStr "no_matching_policy"); (ContextKeyObligations, JArr []); (ContextKeyPolicyVersion, JStr "r2")] ∧
  map ev_Revision (ab_queue audit) = ["r2"].
Proof. vm_compute. auto. Qed.
